(* ===== verification/_CoqProject ===== *)
-Q . S2P
Prelude.v
Client.v
LinkedList.v
MapSum.v
Gc.v
GcCount.v
GcFree.v
GcRuntime.v
GcPasses.v
GcCycle.v
Limbs.v
JsMp.v
Itoa.v
Utf8.v
Engine.v
Float64.v
DoubleBits.v
Strings.v
Ropes.v
RopeLocal.v
RopeStrings.v
JsBigInt.v
JsBigIntConv.v
JsBigIntText.v
Shapes.v
ShapeTable.v
ShapesInv.v
ShapesRefine.v
ShapesOps.v
ShapesUpdate.v
ShapesObjects.v
ShapesSpec.v
ArrayLength.v
Runs.v
Bytes.v
Checked.v
Rqsort.v
RqsortSpec.v
RqsortParts.v
RqsortProof.v
ArraySort.v
ArraySortSpec.v
ArraySortOrder.v
UnicodeTables.v
UnicodeCase.v
UnicodeClass.v
CharRange.v
CharRangeSpec.v
CharRangeSort.v
UnicodeCaseSpec.v
CharCase.v
CharCaseSpec.v
ReExec.v
ReSpec.v
ReSim.v
ReStep.v
ReBacktrack.v
Opcodes.v
BytecodeStack.v
BytecodeMachine.v
BytecodeStackSpec.v
Atoms.v
AtomTable.v
AtomOps.v
AtomAdd.v
AtomNumber.v
AtomSpec.v
AtomNew.v
AtomBoot.v
AtomClient.v
MapKeys.v
JsMap.v
JsMapRefine.v
KeyedCollections.v
Bridge.v
BridgeCopy.v
BridgeHost.v
