(* ===== verification/Prelude.v ===== *)
(** * A model of quickjs-bun

    The repository embeds the QuickJS engine ([src/quickjs]) behind a C bridge
    ([src/src/native/quickjs_bridge.c]) that a TypeScript host calls.  This library models
    the parts of the C code that carry invariants of their own, each as executable
    definitions that read like the functions they translate, and proves them correct.

    ** Conventions

    A machine word is the [Z] of its reading, and every operation that can wrap says so
    ([wrap], [swrap], [u32], ...).  A C function on data is a function; one that changes a
    structure takes it and returns it.  [None] is undefined behaviour of the C code: an
    access out of an array or through a dangling pointer, a failed assertion, or a loop
    that has not ended within its fuel.  A theorem whose conclusion is [f x = Some r]
    therefore says that the code ends and is safe.  The fuels are the size of the structure
    that the loop walks (the length of a bucket, of a list, of the heap, of a number), so
    running out of it is an endless loop.  Exceptions are the results of the monad [M]
    ([Engine]) or a constructor of the result; the class [World] numbers the allocations
    and says which ones succeed, and the class [Malloc] gives the addresses, so that the
    theorems hold for a failure at any point.

    ** Parts

    - Shared: this file (words, options, lists), [Client] (the runs of the clients of a
      component against its specification), [Engine] (exceptions, allocations,
      interrupts), [LinkedList] ([list.h], the class [Malloc]), [MapSum] (sums over a heap),
      [Runs] (the total correctness of a computation that can be undefined), [Checked] (a
      computation that can be undefined or stop with an error), [Bytes] (reads of words).

    - Garbage collector ([quickjs.c]: [JS_FreeValueRT], [free_zero_refcount], the
      [*_mark] and [*_finalizer] functions, [JS_RunGC]).  [Gc] holds the heap, one
      constructor per class of objects and the operations; [GcCount] counts references and
      shows that marking and finalizing agree for every class; [GcFree] is the invariant
      while objects are being freed; [GcRuntime] is the invariant between operations;
      [GcPasses] and [GcCycle] are the three passes.  Theorems: freeing a value and running
      a collection end, touch no freed memory and free exactly the objects that are no
      longer referenced, or reachable.

    - Properties ([quickjs.c]: [JSShape], [add_property], [delete_property],
      [js_clone_shape], [JS_SetPrototypeInternal], ...).  [Shapes] holds the operations;
      [ShapeTable] the hash table inside a shape; [ShapesInv] the hash table of the shapes;
      [ShapesRefine] the invariant and the view of an object as a list of properties;
      [ShapesOps], [ShapesUpdate] and [ShapesObjects] one specification per operation;
      [ShapesSpec] the abstract specification, the clients and the refinement.  Theorems:
      objects that share shapes behave as if each had its own list, whichever allocations
      fail; the chains of prototypes end.  The bound on the number of calls (2^25) keeps the
      indices in the 26 bits of [hash_next], which the code does not check.
      [ArrayLength] is [set_array_length] over them: the truncation of an array from its last
      element on is right; the other way, for a sparse array, leaves elements past the
      length ([sparse_length]).

    - Atoms ([quickjs.c]: [__JS_NewAtom], [JS_FreeAtomStruct], [JS_InitAtoms], ...;
      [quickjs-atom.h]).  [Atoms] holds the operations; [AtomTable] the invariant of the
      hash table and of the free list, and the rehashing; [AtomOps] and [AtomAdd] how an
      atom leaves and enters the table; [AtomNumber] the names that are array indices;
      [AtomSpec] the abstract heap of strings and the references; [AtomNew] the interning;
      [AtomBoot] the predefined names; [AtomClient] the clients.  Theorems: the table
      behaves as a table of names whatever a client does and whichever allocations fail,
      no string is freed too early or kept, and equal names are equal atoms.

    - Collections ([quickjs.c]: [map_*], [js_map_*], their iterators).  [MapKeys] holds the
      equality and the hash of the values ([js_strict_eq2], [map_hash_key]) and what they
      decide; [JsMap] the hash table, the list of records and the operations, over the
      interface [MapValue] of the values; [JsMapRefine] the ECMAScript list of entries and
      the refinement; [KeyedCollections] puts them together.  Theorems: any sequence of
      operations follows the entry list, and so does [forEach] with callbacks that perform
      any operations on the collection; they touch freed memory only in the two cases of
      [clear_dangling] and [forEach_dangling], when a release in the middle of the loop
      finalizes an iterator of the collection.  The callbacks are finite trees of
      operations ([script]); a nested [forEach] is not one of them.

    - Ropes and strings ([quickjs.c], [cutils.c]).  [Utf8] the encoder and the decoder;
      [Strings] the string buffer, the conversions and the comparison; [Ropes] the tree of
      a lazy concatenation over an interface [Leaf] of flat strings; [RopeLocal] shows that
      an operation depends only on the allocations that it makes; [RopeStrings] holds the
      instance of the engine's strings and the theorems: text, depth, termination,
      linearization.  They say exactly which failures of allocations and which lengths
      ([balanced_limit]) they allow, since beyond them text is lost or the rebalancing does
      not end ([rebalance_loses_text], [rebalance_never_ends]).

    - BigInt ([quickjs.c], [dtoa.c]).  [Limbs] the values of limb arrays; [JsMp] the
      [mp_*] kernel for 32 and 64-bit limbs; [JsBigInt] the operators, against integers;
      [DoubleBits], [JsBigIntConv] the conversions from and to doubles, against the nearest
      double; [JsBigIntText], [Itoa] parsing and printing, with round trips.

    - Bridge ([quickjs_bridge.c]).  [Float64] the deadlines; [Bridge] the scopes that
      bound the time of guest code, over any tree of interactions of the guest;
      [BridgeCopy] the copies into the buffers of the host, with what they allocate and
      free; [BridgeHost] the identifiers of
      the host, released exactly once.

    - Bytecode stack ([quickjs-opcode.h]; [quickjs.c]: [ss_check], [compute_stack_size]).
      [Opcodes] is the table of the opcodes; [BytecodeStack] the last pass of the compiler,
      which computes the height of the stack at every instruction; [BytecodeMachine] a
      machine that runs the bytecode on heights and catch offsets only, where a branch goes
      both ways and an instruction that can throw may do so, as a step relation;
      [BytecodeStackSpec] the theorem: the pass accepts exactly the bytecode whose
      executions are well stacked, and returns the largest height.  The machine lets [ret]
      end an execution, since [gosub] already continues after the call, so it covers more
      executions than the interpreter.  The targets of jumps are 32-bit sums, as in the code.

    - Sorting ([cutils.c]: [rqsort], [heapsortx], [med3]).  [Rqsort] holds the code, for a
      comparison that has a state and can change the elements; [RqsortSpec] the class of
      consistent comparisons, the insertion sort and the heap sort; [RqsortParts] the
      partition; [RqsortProof] the theorem.  [ArraySort] is [js_array_sort] over any guest;
      [ArraySortSpec] the ownership of the values, [ArraySortOrder] the order of the result.

    - Regular expressions ([libregexp.c]: [lre_exec]; [libregexp-opcode.h]).  [ReExec] is
      the executor of the compiled patterns, with its array of saved states and of undone
      captures; [ReSpec] the exploration of the choices as a tree, where a choice keeps
      captures of its own, and a machine with a list of choices; [ReSim] relates the array
      to the list; [ReStep] does so for each instruction; [ReBacktrack] relates the machine
      to the tree.  Theorem: the executor returns the first match of the exploration, and
      is undefined only when the exploration is.  A saved index fits in the bit field of
      the code, a size in [size_t], and an entry of the array of captures is read with the
      type it was written with.

    - Characters ([libunicode.c], [libunicode-table.h]: [lre_case_conv], [lre_canonicalize],
      [lre_is_*]).  [UnicodeTables] holds the tables; [UnicodeCase] the conversions of case;
      [UnicodeClass] the classes of characters; [UnicodeCaseSpec] what the runs of the case
      table mean.

    - Character ranges ([libunicode.c], [libunicode.h]: [cr_*]).  [CharRange] holds the
      operations on arrays of points, [CharRangeSpec] the sets that they denote,
      [CharRangeSort] the interval insertion, the complement and the removal of overlaps.
      [CharCase] is the case folding of a set, [CharCaseSpec] the theorem: it is the image of
      the set by [lre_canonicalize], or an allocation failed; one of the failures is not
      reported, and then letters are lost ([canonicalize_loses]).

    ** Not modelled

    The parser, the passes of the compiler before the last one, the interpreter of bytecode,
    the compiler of regular expressions, the normalization and the properties of Unicode,
    the printing and parsing of doubles, the modules and the serialization, most objects of
    the standard library and the block allocator are not modelled; within the parts above, the manifest names what is left out.  The garbage
    collector is modelled on the references that it follows: strings, atoms and buffers are
    not GC objects, and the weak references are cleared elsewhere.  The properties of
    [Shapes] are data properties: getters, setters and the objects with exotic properties
    are not. *)
From Stdlib Require Export ZArith Lia ZifyBool.
From stdpp Require Export base tactics numbers option list.
#[global] Open Scope Z_scope.
#[global] Unset Printing Use Implicit Types.

(** ** C expressions on machine words

    A word of [w] bits is the [Z] of its unsigned reading; the operators of C that
    do not wrap are the bit operations of [Z]. *)

Declare Scope c_scope.
Delimit Scope c_scope with c.
Infix ".&" := Z.land (at level 40, left associativity) : c_scope.
Infix ".|" := Z.lor (at level 50, left associativity) : c_scope.
Infix ".^" := Z.lxor (at level 45, left associativity) : c_scope.
Infix "<<" := Z.shiftl (at level 36, left associativity) : c_scope.
Infix ">>" := Z.shiftr (at level 36, left associativity) : c_scope.
#[global] Open Scope c_scope.

(** Conversion to an unsigned type of [w] bits. *)
Definition wrap (w x : Z) : Z := x mod 2 ^ w.

(** Conversion to a signed two's complement type of [w] bits. *)
Definition swrap (w x : Z) : Z :=
  let u := x mod 2 ^ w in
  if u <? 2 ^ (w - 1) then u else u - 2 ^ w.

Abbreviation u8 := (wrap 8).
Abbreviation u16 := (wrap 16).
Abbreviation u32 := (wrap 32).
Abbreviation u64 := (wrap 64).
Abbreviation i8 := (swrap 8).
Abbreviation i16 := (swrap 16).
Abbreviation i32 := (swrap 32).
Abbreviation i64 := (swrap 64).

Definition INT32_MAX : Z := 2147483647.
Definition INT64_MAX : Z := 9223372036854775807.

(** A length as a C integer. *)
Abbreviation len l := (Z.of_nat (length l)).

(** The range predicates. *)
Definition word (w x : Z) : Prop := 0 <= x < 2 ^ w.
Definition sword (w x : Z) : Prop := - 2 ^ (w - 1) <= x < 2 ^ (w - 1).

(** Comparison in C yields an [int] that is 0 or 1. *)
Abbreviation b2z := Z.b2z.

(** [__builtin_clz] and [__builtin_ctz] on words of [w] bits, written as the loops
    of [src/native/quickjs.c] that define them when the compiler has none. *)
Fixpoint clz_loop (fuel : nat) (w n v : Z) : Z :=
  match fuel with
  | O => n
  | S fuel =>
      if (n <? w) && (v .& 2 ^ (w - 1) =? 0)
      then clz_loop fuel w (n + 1) (wrap w (v << 1)) else n
  end.
Definition clz (w v : Z) : Z := clz_loop (Z.to_nat w) w 0 v.

Fixpoint ctz_loop (fuel : nat) (w n v : Z) : Z :=
  match fuel with
  | O => n
  | S fuel =>
      if (n <? w) && (v .& 1 =? 0) then ctz_loop fuel w (n + 1) (v >> 1) else n
  end.
Definition ctz (w v : Z) : Z := ctz_loop (Z.to_nat w) w 0 v.

(** A loop over a list whose body can fail. *)
Definition foldM {A S} (f : S -> A -> option S) : list A -> S -> option S :=
  fix go l s := match l with [] => Some s | x :: l => s ← f s x; go l s end.

(** ** Automation *)

Create HintDb words.

(** Evaluate the bit operations on literals. *)
Ltac zconst t :=
  let v := eval cbv in t in
  lazymatch v with Z0 => idtac | Zpos _ => idtac | Zneg _ => idtac end;
  change t with v in *.
Ltac zconsts :=
  repeat match goal with
  | |- context [Z.lor ?a ?b] => zconst (Z.lor a b)
  | |- context [Z.land ?a ?b] => zconst (Z.land a b)
  | |- context [Z.lxor ?a ?b] => zconst (Z.lxor a b)
  | H : context [Z.lor ?a ?b] |- _ => zconst (Z.lor a b)
  | H : context [Z.land ?a ?b] |- _ => zconst (Z.land a b)
  end.

(** Case analysis on the boolean comparisons of a goal or a hypothesis. *)
Ltac zcase_on t :=
  let E := fresh "E" in
  destruct t eqn:E in *;
  first [rewrite Z.ltb_lt in E | rewrite Z.leb_le in E | rewrite Z.eqb_eq in E
        | rewrite Z.ltb_ge in E | rewrite Z.leb_gt in E | rewrite Z.eqb_neq in E].
Ltac zcase :=
  match goal with
  | |- context [?a <? ?b] => zcase_on (a <? b)
  | |- context [?a <=? ?b] => zcase_on (a <=? b)
  | |- context [?a =? ?b] => zcase_on (a =? b)
  | H : context [?a <? ?b] |- _ => zcase_on (a <? b)
  | H : context [?a <=? ?b] |- _ => zcase_on (a <=? b)
  | H : context [?a =? ?b] |- _ => zcase_on (a =? b)
  end.
Ltac zcases := repeat (zcase; cbn [andb orb negb Z.b2z] in * ); zconsts.

(** Multiply an equality, so that [lia] can use it on non-linear monomials. *)
Tactic Notation "scale" constr(k) constr(H) :=
  let H' := fresh "S" in
  pose proof (f_equal (Z.mul k) H) as H'; cbv beta in H'.

(** Reduce an equality of integers to an equality of their bits. *)
Ltac zbits_step :=
  match goal with
  | |- context [Z.testbit (Z.lor _ _) _] => rewrite Z.lor_spec
  | |- context [Z.testbit (Z.land _ _) _] => rewrite Z.land_spec
  | |- context [Z.testbit (Z.lxor _ _) _] => rewrite Z.lxor_spec
  | |- context [Z.testbit (Z.shiftr _ _) _] => rewrite Z.shiftr_spec by lia
  | |- context [Z.testbit (Z.shiftl _ _) _] => rewrite Z.shiftl_spec by lia
  end.

(** ** Words *)

Lemma pow2_pos n : 0 <= n -> 0 < 2 ^ n.
Proof. intros; apply Z.pow_pos_nonneg; lia. Qed.
#[export] Hint Resolve pow2_pos : words.

Lemma pow2_half w : 0 < w -> 2 ^ w = 2 * 2 ^ (w - 1).
Proof. intros. replace w with (1 + (w - 1)) at 1 by lia. now rewrite Z.pow_add_r by lia. Qed.

Lemma wrap_range w x : 0 <= w -> word w (wrap w x).
Proof. intros. apply Z.mod_pos_bound. auto with words. Qed.
#[export] Hint Resolve wrap_range : words.

Lemma wrap_small w x : word w x -> wrap w x = x.
Proof. apply Z.mod_small. Qed.


Lemma wrap_wrap w x : 0 <= w -> wrap w (wrap w x) = wrap w x.
Proof. intros. apply Z.mod_mod. pose proof (pow2_pos w); lia. Qed.

Lemma wrap_eq w x k : 0 <= w -> word w (x - k * 2 ^ w) -> wrap w x = x - k * 2 ^ w.
Proof.
  intros Hw Hr. unfold wrap. symmetry. apply Z.mod_unique_pos with (q := k); [exact Hr|lia].
Qed.

Lemma wrap_split w x : 0 <= w -> x = wrap w x + 2 ^ w * (x / 2 ^ w).
Proof. intros. unfold wrap. pose proof (Z.div_mod x (2 ^ w)). pose proof (pow2_pos w). lia. Qed.

Lemma swrap_small w x : 0 < w -> sword w x -> swrap w x = x.
Proof.
  unfold swrap, sword. intros Hw Hx. pose proof (pow2_half w Hw).
  destruct (Z.le_gt_cases 0 x).
  - rewrite Z.mod_small by lia. zcases; lia.
  - replace (x mod 2 ^ w) with (x + 2 ^ w); [zcases; lia|].
    apply Z.mod_unique_pos with (q := -1); lia.
Qed.

Lemma swrap_range w x : 0 < w -> sword w (swrap w x).
Proof.
  unfold swrap, sword. intros Hw. pose proof (pow2_half w Hw).
  pose proof (Z.mod_pos_bound x (2 ^ w)). zcases; lia.
Qed.

Lemma shiftr_div x n : 0 <= n -> x >> n = x / 2 ^ n.
Proof. apply Z.shiftr_div_pow2. Qed.

Lemma shiftl_mul x n : 0 <= n -> x << n = x * 2 ^ n.
Proof. apply Z.shiftl_mul_pow2. Qed.

(** [a << n | b] is an addition when [b] fits in the [n] low bits. *)
Lemma land_shiftl_low a b n : 0 <= n -> word n b -> (a << n) .& b = 0.
Proof.
  intros Hn Hb. apply Z.bits_inj'; intros i Hi. rewrite Z.land_spec, Z.bits_0.
  destruct (Z.lt_ge_cases i n); [now rewrite Z.shiftl_spec_low by lia|].
  destruct (Z.eq_dec b 0) as [->|]; [now rewrite Z.bits_0, andb_false_r|].
  rewrite (Z.bits_above_log2 b), andb_false_r; [done|apply Hb|].
  enough (Z.log2 b < n) by lia. apply Z.log2_lt_pow2; unfold word in Hb; lia.
Qed.

Lemma lor_shiftl_add a b n : 0 <= n -> word n b -> (a << n) .| b = a * 2 ^ n + b.
Proof.
  intros Hn Hb. rewrite <- shiftl_mul by lia.
  symmetry. apply Z.add_nocarry_lor, land_shiftl_low; assumption.
Qed.

Lemma lor_add_shiftl a b n : 0 <= n -> word n b -> b .| (a << n) = a * 2 ^ n + b.
Proof. intros. rewrite Z.lor_comm. now apply lor_shiftl_add. Qed.

Lemma land_ones_mod x n : 0 <= n -> x .& (2 ^ n - 1) = x mod 2 ^ n.
Proof. intros. rewrite <- Z.land_ones by lia. f_equal. rewrite Z.ones_equiv. lia. Qed.

(** The sign bit of a word. *)
Lemma sign_bit w x : 0 < w -> word w x -> x >> (w - 1) = b2z (2 ^ (w - 1) <=? x).
Proof.
  intros Hw Hx. rewrite shiftr_div by lia. unfold word in Hx. rewrite (pow2_half w) in Hx by lia.
  pose proof (pow2_pos (w - 1)). zcases; cbn.
  - symmetry. apply Z.div_unique with (r := x - 2 ^ (w - 1)); lia.
  - apply Z.div_small; lia.
Qed.

Lemma swrap_cong w x : 0 < w -> exists k, swrap w x = x + k * 2 ^ w.
Proof.
  intros Hw. unfold swrap. pose proof (Z.div_mod x (2 ^ w)). pose proof (pow2_pos w).
  zcases; [exists (- (x / 2 ^ w))|exists (- (x / 2 ^ w) - 1)]; lia.
Qed.

Lemma swrap_unique w x v k : 0 < w -> sword w v -> x = v + k * 2 ^ w -> swrap w x = v.
Proof.
  intros Hw Hv ->. rewrite <- (swrap_small w v) at 2 by assumption.
  unfold swrap. now rewrite Z.mod_add by (pose proof (pow2_pos w); lia).
Qed.

Lemma wrap_unique w x v k : 0 <= w -> word w v -> x = v + k * 2 ^ w -> wrap w x = v.
Proof.
  intros Hw Hv ->. unfold wrap. rewrite Z.mod_add by (pose proof (pow2_pos w); lia).
  now apply Z.mod_small.
Qed.

Lemma swrap_wrap w x : 0 < w -> swrap w (wrap w x) = swrap w x.
Proof.
  intros. unfold swrap, wrap. rewrite Z.mod_mod; [done|]. pose proof (pow2_pos w); lia.
Qed.

(** ** Counting zeros *)

Lemma land_top_bit w v : 0 < w -> word w v -> (v .& 2 ^ (w - 1) =? 0) = (v <? 2 ^ (w - 1)).
Proof.
  unfold word. intros Hw Hv. pose proof (pow2_half w Hw). pose proof (pow2_pos (w - 1)).
  assert (E : v .& 2 ^ (w - 1) = b2z (Z.testbit v (w - 1)) * 2 ^ (w - 1)).
  { apply Z.bits_inj'; intros i Hi. rewrite Z.land_spec, Z.pow2_bits_eqb by lia.
    destruct (Z.eqb_spec (w - 1) i) as [<-|]; rewrite ?andb_true_r, ?andb_false_r.
    - destruct (Z.testbit v (w - 1)); cbn [Z.b2z].
      + rewrite Z.mul_1_l, Z.pow2_bits_true; lia.
      + now rewrite Z.mul_0_l, Z.bits_0.
    - destruct (Z.testbit v (w - 1)); cbn [Z.b2z].
      + rewrite Z.mul_1_l, Z.pow2_bits_false by lia. done.
      + now rewrite Z.mul_0_l, Z.bits_0. }
  rewrite E, Z.testbit_eqb by lia.
  destruct (Z.ltb_spec v (2 ^ (w - 1))).
  - rewrite Z.div_small by lia. reflexivity.
  - replace (v / 2 ^ (w - 1)) with 1.
    + change (1 mod 2 =? 1) with true. cbn [Z.b2z]. apply Z.eqb_neq. lia.
    + apply (Z.div_unique _ _ _ (v - 2 ^ (w - 1))); lia.
Qed.

Lemma clz_loop_spec fuel w n v :
  0 < w -> 0 < v < 2 ^ w -> 0 <= n -> n + Z.of_nat fuel = w ->
  2 ^ (w - 1) <= v * 2 ^ Z.of_nat fuel ->
  let k := clz_loop fuel w n v - n in
  0 <= k /\ 2 ^ (w - 1) <= v * 2 ^ k < 2 ^ w.
Proof.
  intros Hw. revert n v. pose proof (pow2_half w Hw).
  induction fuel as [|fuel IH]; intros n v Hv Hn Hf Hb; cbn [clz_loop].
  - rewrite Z.sub_diag. change (2 ^ Z.of_nat 0) with 1 in Hb. change (2 ^ 0) with 1. lia.
  - rewrite land_top_bit by (unfold word; lia).
    destruct (Z.ltb_spec n w); [|lia]. cbn [andb].
    destruct (Z.ltb_spec v (2 ^ (w - 1))).
    + rewrite Z.shiftl_mul_pow2 by lia. change (2 ^ 1) with 2.
      unfold wrap. rewrite Z.mod_small by lia.
      specialize (IH (n + 1) (v * 2) ltac:(lia) ltac:(lia) ltac:(lia)).
      replace (Z.of_nat (S fuel)) with (1 + Z.of_nat fuel) in Hb by lia.
      rewrite Z.pow_add_r in Hb by lia. specialize (IH ltac:(lia)). cbv zeta in *.
      set (r := clz_loop fuel w (n + 1) (v * 2)) in *.
      replace (r - n) with (1 + (r - (n + 1))) by lia.
      rewrite Z.pow_add_r by lia. lia.
    + rewrite Z.sub_diag. change (2 ^ 0) with 1. lia.
Qed.

(** [clz] shifts the highest set bit to the top of the word. *)
Lemma clz_spec w v : 0 < w -> 0 < v < 2 ^ w ->
  0 <= clz w v < w /\ 2 ^ (w - 1) <= v * 2 ^ clz w v < 2 ^ w.
Proof.
  intros Hw Hv. unfold clz. pose proof (pow2_half w Hw).
  pose proof (clz_loop_spec (Z.to_nat w) w 0 v Hw Hv ltac:(lia) ltac:(lia)) as H1.
  rewrite Z2Nat.id in H1 by lia. specialize (H1 ltac:(nia)). cbv zeta in H1.
  rewrite Z.sub_0_r in H1. set (k := clz_loop _ _ _ _) in *. split; [|lia]. split; [lia|].
  apply (Z.pow_lt_mono_r_iff 2); [lia|lia|]. nia.
Qed.

Lemma clz_log2 w v : 0 < w -> 0 < v < 2 ^ w -> clz w v = w - 1 - Z.log2 v.
Proof.
  intros Hw Hv. destruct (clz_spec w v Hw Hv) as [Hk H].
  enough (Z.log2 v = w - 1 - clz w v) by lia.
  apply Z.log2_unique; [lia|]. pose proof (pow2_pos (clz w v)).
  replace (Z.succ (w - 1 - clz w v)) with (w - clz w v) by lia.
  assert (E1 : 2 ^ (w - 1) = 2 ^ (w - 1 - clz w v) * 2 ^ clz w v)
    by (rewrite <- Z.pow_add_r by lia; f_equal; lia).
  assert (E2 : 2 ^ w = 2 ^ (w - clz w v) * 2 ^ clz w v)
    by (rewrite <- Z.pow_add_r by lia; f_equal; lia).
  nia.
Qed.
