(* ===== verification/Client.v ===== *)
(** * Clients of a component

    A specification of a component gives, for a request in an abstract state, the requests
    that the callers may make, and the replies and next states that are right.  A client is
    a tree of requests that depend on the replies.  When every call of the program does what
    the specification says and keeps a relation with the abstract state, the whole run of
    every client does. *)
From S2P Require Export Prelude.

Section clients.
Context {Req Rep : Type}.

Inductive client : Type := Stop | Call (c : Req) (k : Rep -> client).

Fixpoint at_most (n : nat) (k : client) : Prop :=
  match k, n with
  | Stop, _ => True
  | Call _ k, S n => forall r, at_most n (k r)
  | Call _ _, O => False
  end.

Section spec.
Context {M : Type} (allowed : M -> Req -> Prop) (answers : M -> Req -> Rep -> M -> Prop).

(** The requests of the client are allowed, whatever the replies are. *)
Fixpoint careful (m : M) (k : client) : Prop :=
  match k with Stop => True | Call c k => allowed m c /\ forall r m', answers m c r m' -> careful m' (k r) end.

(** The replies of a run, and the state at its end. *)
Fixpoint follows (m : M) (k : client) (rs : list Rep) (m' : M) : Prop :=
  match k, rs with
  | Stop, [] => m' = m
  | Call c k, r :: rs => exists m1, answers m c r m1 /\ follows m1 (k r) rs m'
  | _, _ => False
  end.

Context {S : Type} (perform : S -> Req -> option (Rep * S)).

Fixpoint run_client (s : S) (k : client) : option (list Rep * S) :=
  match k with
  | Stop => Some ([], s)
  | Call c k => '(r, s) ← perform s c; '(rs, s) ← run_client s (k r); Some (r :: rs, s)
  end.

Lemma clients_follow (R : client -> S -> M -> Prop) :
  (forall c k s m, R (Call c k) s m -> allowed m c -> exists r s' m', perform s c = Some (r, s') /\ answers m c r m' /\ R (k r) s' m') ->
  forall k s m, R k s m -> careful m k -> exists rs s' m', run_client s k = Some (rs, s') /\ follows m k rs m' /\ R Stop s' m'.
Proof.
  intros Hstep. induction k as [|c k IH]; intros s m HR Hc.
  - by exists [], s, m.
  - destruct Hc as [Ha Hc]. destruct (Hstep c k s m HR Ha) as (r & s1 & m1 & E & Hans & HR1).
    destruct (IH r s1 m1 HR1 (Hc r m1 Hans)) as (rs & s' & m' & E' & Hf & HR'). exists (r :: rs), s', m'. cbn [run_client]. rewrite E. cbn [mbind option_bind]. rewrite E'.
    split; [done|]. split; [|done]. by exists m1.
Qed.
End spec.
End clients.
Arguments client : clear implicits.
