(* ===== verification/LinkedList.v ===== *)
(** * Doubly linked lists

    The lists of [src/quickjs/list.h], as the list of the elements they hold in order.
    An element is linked when it is in the list. *)
From stdpp Require Export gmap.
From S2P Require Export Prelude.

(** Addresses. *)
Abbreviation ptr := Z.

(** [js_malloc] returns a pointer that is not in use. *)
Class Malloc := { malloc : gset ptr -> ptr; malloc_fresh X : malloc X ∉ X }.

(** [el->next]: [None] when [el] is not linked, [Some None] when the next element is the
    list head. *)
Fixpoint next_in (l : list ptr) (el : ptr) : option (option ptr) :=
  match l with
  | [] => None
  | p :: l => if decide (p = el) then Some (head l) else next_in l el
  end.

Definition unlink (p : ptr) (l : list ptr) : list ptr := filter (fun q => q <> p) l.

Lemma next_in_app l1 p l2 : p ∉ l1 -> next_in (l1 ++ p :: l2) p = Some (head l2).
Proof.
  induction l1 as [|x l1 IH]; cbn; intros Hp; [by rewrite decide_True|].
  apply not_elem_of_cons in Hp as [Hx Hp]. rewrite decide_False by done. by apply IH.
Qed.

Lemma elem_of_unlink p q l : q ∈ unlink p l <-> q <> p /\ q ∈ l.
Proof. unfold unlink. by rewrite list_elem_of_filter. Qed.

Lemma unlink_notin p l : p ∉ l -> unlink p l = l.
Proof.
  induction l as [|x l IH]; [done|]. intros Hp. apply not_elem_of_cons in Hp as [Hx Hp].
  unfold unlink. rewrite filter_cons_True by done. f_equal. by apply IH.
Qed.

Lemma unlink_app p l1 l2 : unlink p (l1 ++ l2) = unlink p l1 ++ unlink p l2.
Proof. apply filter_app. Qed.

Lemma unlink_head p l : p ∉ l -> unlink p (p :: l) = l.
Proof. intros Hp. unfold unlink. rewrite filter_cons_False by congruence. by apply unlink_notin. Qed.

Lemma NoDup_unlink p l : NoDup l -> NoDup (unlink p l).
Proof. apply NoDup_filter. Qed.

Lemma length_unlink p l : (length (unlink p l) <= length l)%nat.
Proof. apply length_filter. Qed.

Lemma sublist_unlink p l1 l2 : sublist l1 l2 -> sublist (unlink p l1) (unlink p l2).
Proof.
  induction 1 as [|x l1 l2 H IH|x l1 l2 H IH]; [done| |]; unfold unlink in *; destruct (decide (x = p)) as [->|Hx].
  - by rewrite !filter_cons_False by (by intros Hn).
  - rewrite !filter_cons_True by done. by apply sublist_skip.
  - by rewrite filter_cons_False by (by intros Hn).
  - rewrite filter_cons_True by done. by apply sublist_cons.
Qed.

(** The invariant of a loop over a list. *)
Lemma foldM_inv {A S} (f : S -> A -> option S) (Q : list A -> S -> Prop) l s : Q l s ->
  (forall x l s, Q (x :: l) s -> exists s', f s x = Some s' /\ Q l s') ->
  exists s', foldM f l s = Some s' /\ Q [] s'.
Proof.
  intros H0 Hf. revert s H0. induction l as [|x l IH]; intros s H0; cbn; [by exists s|].
  destruct (Hf x l s H0) as (s1 & -> & H1). by apply IH.
Qed.
