(* ===== verification/MapSum.v ===== *)
(** * Sums over a finite map

    The sum of an integer over the objects of a heap, and how it changes with the heap. *)
From stdpp Require Export gmap.
From S2P Require Export LinkedList.

(** ** Sums over a heap *)

Section hsum.
Context {A : Type} (g : ptr -> A -> Z).

Definition hsum (h : gmap ptr A) : Z := map_fold (fun q o acc => g q o + acc) 0 h.

Lemma hsum_empty : hsum ∅ = 0.
Proof. apply map_fold_empty. Qed.

Lemma hsum_insert h q o : h !! q = None -> hsum (<[q := o]> h) = g q o + hsum h.
Proof. intros Hq. unfold hsum. rewrite map_fold_insert_L; [done| |done]. intros. lia. Qed.

Lemma hsum_delete h q o : h !! q = Some o -> hsum (delete q h) = hsum h - g q o.
Proof.
  intros Hq. rewrite <- (insert_delete_id h q o Hq) at 2. rewrite hsum_insert by apply lookup_delete_eq. lia.
Qed.

Lemma hsum_update h q o o' : h !! q = Some o -> hsum (<[q := o']> h) = hsum h - g q o + g q o'.
Proof.
  intros Hq. rewrite <- insert_delete_eq, hsum_insert by apply lookup_delete_eq. rewrite (hsum_delete h q o Hq). lia.
Qed.

Lemma hsum_nonneg h : (forall q o, h !! q = Some o -> 0 <= g q o) -> 0 <= hsum h.
Proof.
  induction h as [|q o h Hq IH] using map_ind; intros Hg; [by rewrite hsum_empty|].
  rewrite hsum_insert by done. pose proof (Hg q o (lookup_insert_eq _ _ _)).
  assert (0 <= hsum h); [|lia]. apply IH. intros q' o' E. apply Hg. rewrite lookup_insert_ne; [done|congruence].
Qed.

Lemma hsum_le h q o : (forall q o, h !! q = Some o -> 0 <= g q o) -> h !! q = Some o -> g q o <= hsum h.
Proof.
  intros Hg Hq. pose proof (hsum_delete h q o Hq). assert (0 <= hsum (delete q h)); [|lia].
  apply hsum_nonneg. intros q' o' [_ E]%lookup_delete_Some. by apply (Hg q').
Qed.

Lemma hsum_witness h : 0 < hsum h -> exists q o, h !! q = Some o /\ 0 < g q o.
Proof.
  induction h as [|q o h Hq IH] using map_ind; intros Hs; [by rewrite hsum_empty in Hs|].
  rewrite hsum_insert in Hs by done. destruct (Z.lt_ge_cases 0 (g q o)) as [H0|H0].
  - exists q, o. by rewrite lookup_insert_eq.
  - destruct IH as (q' & o' & E & Hg); [lia|]. exists q', o'. rewrite lookup_insert_ne; [done|congruence].
Qed.
End hsum.

Lemma hsum_ext {A} (g g' : ptr -> A -> Z) h : (forall q o, h !! q = Some o -> g q o = g' q o) -> hsum g h = hsum g' h.
Proof.
  induction h as [|q o h Hq IH] using map_ind; intros Hg; [done|].
  rewrite !hsum_insert by done. rewrite (Hg q o (lookup_insert_eq _ _ _)). f_equal.
  apply IH. intros q' o' E. apply Hg. rewrite lookup_insert_ne; [done|congruence].
Qed.
