(* ===== verification/Gc.v ===== *)
(** * Reference counting and the cycle collector

    [mark_children], the [*_mark] and [*_finalizer] functions of the classes,
    [JS_FreeValueRT], [free_zero_refcount] and [JS_RunGC] of [src/quickjs/quickjs.c].

    The GC objects live in a heap.  An address that is not in its domain has been given
    back to the allocator: an access through it, a failed assertion or a loop that does
    not end makes the model return [None], so that [Some] means that the C code runs
    without undefined behaviour.  The values that are not GC objects (strings, symbols,
    numbers) are [JSPrim]. *)
From stdpp Require Export gmap.
From S2P Require Export LinkedList.

(** ** The GC objects *)

Inductive JSGCObjectTypeEnum :=
  | JS_GC_OBJ_TYPE_JS_OBJECT | JS_GC_OBJ_TYPE_FUNCTION_BYTECODE | JS_GC_OBJ_TYPE_SHAPE
  | JS_GC_OBJ_TYPE_VAR_REF | JS_GC_OBJ_TYPE_ASYNC_FUNCTION | JS_GC_OBJ_TYPE_JS_CONTEXT
  | JS_GC_OBJ_TYPE_MODULE.

#[export] Instance gc_type_eq_dec : EqDecision JSGCObjectTypeEnum.
Proof. solve_decision. Defined.

(** A value: [JSPtr p] has the tag of an object, of a function bytecode or of a module. *)
Inductive JSValue := JSPrim | JSPtr (p : ptr).

(** A slot of [JSObject.prop], read with the flags of its shape. *)
Inductive JSProperty :=
  | PropValue (v : JSValue)
  | PropGetset (getter setter : option ptr)
  | PropVarref (var_ref : ptr)
  | PropAutoinit (realm : ptr).

Record JSMapRecord := mkRec { mr_empty : bool; mr_key : JSValue; mr_value : JSValue }.

Record JSPromiseReactionData := mkReaction {
  rd_resolving0 : JSValue; rd_resolving1 : JSValue; rd_handler : JSValue }.

Record JSAsyncGeneratorRequest := mkRequest {
  req_result : JSValue; req_promise : JSValue; req_resolving0 : JSValue; req_resolving1 : JSValue }.

Record JSFinRecEntry := mkFre { fre_target : JSValue; fre_token : JSValue; fre_held_val : JSValue }.

(** The union [JSObject.u], by the finalizer and the mark function of the class. *)
Inductive JSClassData :=
  | ClassPlain
  | ClassArray (values : list JSValue)
  | ClassObjectData (object_data : JSValue)
  | ClassMappedArguments (var_refs : list ptr)
  | ClassCFunction (realm : option ptr)
  | ClassBytecodeFunction (home_object function_bytecode : option ptr)
      (var_refs : option (list (option ptr)))
  | ClassBoundFunction (func_obj this_val : JSValue) (argv : list JSValue)
  | ClassCFunctionData (data : list JSValue)
  | ClassForInIterator (obj : JSValue)
  | ClassTypedArray (buffer : ptr)
  | ClassMap (is_weak : bool) (records : list JSMapRecord)
  | ClassIteratorConcat (iter next : JSValue) (index : nat) (values : list JSValue)
  | ClassIteratorHelper (obj func next inner inner_next : JSValue)
  | ClassIteratorWrap (wrapped_iter wrapped_next : JSValue)
  | ClassMapIterator (obj : JSValue)
  | ClassArrayIterator (obj : JSValue)
  | ClassRegExpStringIterator (iterating_regexp iterated_string : JSValue)
  | ClassGenerator (completed : bool) (func_state : option ptr)
  | ClassGlobalObject (uninitialized_vars : JSValue)
  | ClassProxy (target handler : JSValue)
  | ClassPromise (reactions0 reactions1 : list JSPromiseReactionData) (promise_result : JSValue)
  | ClassPromiseFunction (promise : JSValue)
  | ClassAsyncFunctionResolve (state : option ptr)
  | ClassAsyncGenerator (queue : list JSAsyncGeneratorRequest) (func_state : option ptr)
  | ClassAsyncFromSyncIterator (sync_iter next_method : JSValue)
  | ClassWeakRef (target : JSValue)
  | ClassFinRec (entries : list JSFinRecEntry) (cb : JSValue) (realm : ptr).

Inductive JSExportEntry := ExportLocal (var_ref : option ptr) | ExportIndirect.

(** The contents of a GC object. [BFreed] is an object whose contents were released and
    whose structure is kept. *)
Inductive JSBody :=
  | JSObject (shape : ptr) (prop : list (bool * JSProperty)) (u : JSClassData)
  | JSFunctionBytecode (cpool : list JSValue) (realm : option ptr)
  | JSShape (proto : option ptr)
  | JSVarRefDetached (value : JSValue)
  | JSVarRefAttached (async_func : option ptr)
  | JSAsyncFunctionState (is_completed : bool) (cur_func this_val : JSValue)
      (stack : option (list JSValue)) (resolving0 resolving1 : JSValue)
  | JSContext (loaded_modules : list ptr) (values : list JSValue) (shapes : list (option ptr))
  | JSModuleDef (attributes : list JSValue) (export_entries : list JSExportEntry) (values : list JSValue)
  | BFreed (t : JSGCObjectTypeEnum).

(** [link] is the list link of a module: the context in whose [loaded_modules] it is. *)
Record GCObject := mkObj {
  ref_count : Z; mark : Z; weakref_count : Z; link : option ptr; body : JSBody }.

Definition gc_obj_type (o : GCObject) : JSGCObjectTypeEnum :=
  match body o with
  | JSObject _ _ _ => JS_GC_OBJ_TYPE_JS_OBJECT
  | JSFunctionBytecode _ _ => JS_GC_OBJ_TYPE_FUNCTION_BYTECODE
  | JSShape _ => JS_GC_OBJ_TYPE_SHAPE
  | JSVarRefDetached _ | JSVarRefAttached _ => JS_GC_OBJ_TYPE_VAR_REF
  | JSAsyncFunctionState _ _ _ _ _ _ => JS_GC_OBJ_TYPE_ASYNC_FUNCTION
  | JSContext _ _ _ => JS_GC_OBJ_TYPE_JS_CONTEXT
  | JSModuleDef _ _ _ => JS_GC_OBJ_TYPE_MODULE
  | BFreed t => t
  end.

Inductive JSGCPhaseEnum := JS_GC_PHASE_NONE | JS_GC_PHASE_DECREF | JS_GC_PHASE_REMOVE_CYCLES.

#[export] Instance gc_phase_eq_dec : EqDecision JSGCPhaseEnum.
Proof. solve_decision. Defined.

Record JSRuntime := mkRuntime {
  heap : gmap ptr GCObject;
  gc_obj_list : list ptr;
  tmp_obj_list : list ptr;
  gc_zero_ref_count_list : list ptr;
  gc_phase : JSGCPhaseEnum }.

Definition set_heap h s :=
  mkRuntime h (gc_obj_list s) (tmp_obj_list s) (gc_zero_ref_count_list s) (gc_phase s).
Definition set_gc_list l s :=
  mkRuntime (heap s) l (tmp_obj_list s) (gc_zero_ref_count_list s) (gc_phase s).
Definition set_tmp_list l s :=
  mkRuntime (heap s) (gc_obj_list s) l (gc_zero_ref_count_list s) (gc_phase s).
Definition set_zero_list l s :=
  mkRuntime (heap s) (gc_obj_list s) (tmp_obj_list s) l (gc_phase s).
Definition set_phase f s :=
  mkRuntime (heap s) (gc_obj_list s) (tmp_obj_list s) (gc_zero_ref_count_list s) f.

Definition with_count n o := mkObj n (mark o) (weakref_count o) (link o) (body o).
Definition with_mark m o := mkObj (ref_count o) m (weakref_count o) (link o) (body o).
Definition with_weak n o := mkObj (ref_count o) (mark o) n (link o) (body o).
Definition with_link l o := mkObj (ref_count o) (mark o) (weakref_count o) l (body o).
Definition with_body b o := mkObj (ref_count o) (mark o) (weakref_count o) (link o) b.

Definition write (p : ptr) (o : GCObject) (s : JSRuntime) : JSRuntime := set_heap (<[p := o]> (heap s)) s.

(** [list_del], from whichever list the object is in. *)
Definition list_del (p : ptr) (s : JSRuntime) : JSRuntime :=
  mkRuntime (heap s) (unlink p (gc_obj_list s)) (unlink p (tmp_obj_list s))
    (unlink p (gc_zero_ref_count_list s)) (gc_phase s).

(** [js_free_rt]. *)
Definition js_free_rt (p : ptr) (s : JSRuntime) : JSRuntime := set_heap (delete p (heap s)) s.

(** ** The references that an object holds

    The addresses to which [mark_children] applies its function, in order. *)

Definition JS_MarkValue (v : JSValue) : list ptr := match v with JSPtr p => [p] | JSPrim => [] end.
Definition mark_values (l : list JSValue) : list ptr := l ≫= JS_MarkValue.

Definition mark_property (atom_pr : bool * JSProperty) : list ptr :=
  let '(atom, pr) := atom_pr in
  if negb atom then []
  else
    match pr with
    | PropValue v => JS_MarkValue v
    | PropGetset getter setter => option_list getter ++ option_list setter
    | PropVarref r => [r]
    | PropAutoinit realm => [realm]
    end.

Definition js_array_mark (values : list JSValue) : list ptr := mark_values values.
Definition js_object_data_mark (d : JSValue) : list ptr := JS_MarkValue d.
Definition js_mapped_arguments_mark (var_refs : list ptr) : list ptr := var_refs.
Definition js_c_function_mark (realm : option ptr) : list ptr := option_list realm.
Definition js_bytecode_function_mark (home b : option ptr) (var_refs : option (list (option ptr))) : list ptr :=
  option_list home ++
  match b with
  | Some b => from_option (fun l => l ≫= option_list) [] var_refs ++ [b]
  | None => []
  end.

Definition js_bound_function_mark (f this : JSValue) (argv : list JSValue) : list ptr :=
  JS_MarkValue f ++ JS_MarkValue this ++ mark_values argv.

Definition js_c_function_data_mark (data : list JSValue) : list ptr := mark_values data.
Definition js_for_in_iterator_mark (obj : JSValue) : list ptr := JS_MarkValue obj.
Definition js_typed_array_mark (buffer : ptr) : list ptr := [buffer].
Definition js_map_mark (is_weak : bool) (records : list JSMapRecord) : list ptr :=
  records ≫= fun mr => (if negb is_weak then JS_MarkValue (mr_key mr) else []) ++ JS_MarkValue (mr_value mr).

Definition js_iterator_concat_mark (iter next : JSValue) (index : nat) (values : list JSValue) : list ptr :=
  JS_MarkValue iter ++ JS_MarkValue next ++ mark_values (drop index values).

Definition js_iterator_helper_mark (obj func next inner inner_next : JSValue) : list ptr :=
  mark_values [obj; func; next; inner; inner_next].

Definition js_iterator_wrap_mark (iter next : JSValue) : list ptr := mark_values [iter; next].
Definition js_map_iterator_mark (obj : JSValue) : list ptr := JS_MarkValue obj.
Definition js_array_iterator_mark (obj : JSValue) : list ptr := JS_MarkValue obj.
Definition js_regexp_string_iterator_mark (r str : JSValue) : list ptr := mark_values [r; str].
Definition js_generator_mark (_ : bool) (func_state : option ptr) : list ptr := option_list func_state.
Definition js_global_object_mark (vars : JSValue) : list ptr := JS_MarkValue vars.
Definition js_proxy_mark (target handler : JSValue) : list ptr := mark_values [target; handler].
Definition js_promise_mark (r0 r1 : list JSPromiseReactionData) (result : JSValue) : list ptr :=
  ((r0 ++ r1) ≫= fun rd => mark_values [rd_resolving0 rd; rd_resolving1 rd; rd_handler rd])
  ++ JS_MarkValue result.

Definition js_promise_resolve_function_mark (promise : JSValue) : list ptr := JS_MarkValue promise.
Definition js_async_function_resolve_mark (state : option ptr) : list ptr := option_list state.
Definition js_async_generator_mark (queue : list JSAsyncGeneratorRequest) (func_state : option ptr) : list ptr :=
  (queue ≫= fun req => mark_values [req_result req; req_promise req; req_resolving0 req; req_resolving1 req])
  ++ option_list func_state.

Definition js_async_from_sync_iterator_mark (iter next : JSValue) : list ptr := mark_values [iter; next].
Definition js_finrec_mark (entries : list JSFinRecEntry) (cb : JSValue) (realm : ptr) : list ptr :=
  mark_values (map fre_held_val entries) ++ JS_MarkValue cb ++ [realm].

Definition gc_mark (u : JSClassData) : list ptr :=
  match u with
  | ClassPlain => []
  | ClassArray values => js_array_mark values
  | ClassObjectData d => js_object_data_mark d
  | ClassMappedArguments var_refs => js_mapped_arguments_mark var_refs
  | ClassCFunction realm => js_c_function_mark realm
  | ClassBytecodeFunction home b var_refs => js_bytecode_function_mark home b var_refs
  | ClassBoundFunction f this argv => js_bound_function_mark f this argv
  | ClassCFunctionData data => js_c_function_data_mark data
  | ClassForInIterator obj => js_for_in_iterator_mark obj
  | ClassTypedArray buffer => js_typed_array_mark buffer
  | ClassMap is_weak records => js_map_mark is_weak records
  | ClassIteratorConcat iter next index values => js_iterator_concat_mark iter next index values
  | ClassIteratorHelper obj func next inner inner_next => js_iterator_helper_mark obj func next inner inner_next
  | ClassIteratorWrap iter next => js_iterator_wrap_mark iter next
  | ClassMapIterator obj => js_map_iterator_mark obj
  | ClassArrayIterator obj => js_array_iterator_mark obj
  | ClassRegExpStringIterator r str => js_regexp_string_iterator_mark r str
  | ClassGenerator completed func_state => js_generator_mark completed func_state
  | ClassGlobalObject vars => js_global_object_mark vars
  | ClassProxy target handler => js_proxy_mark target handler
  | ClassPromise r0 r1 result => js_promise_mark r0 r1 result
  | ClassPromiseFunction promise => js_promise_resolve_function_mark promise
  | ClassAsyncFunctionResolve state => js_async_function_resolve_mark state
  | ClassAsyncGenerator queue func_state => js_async_generator_mark queue func_state
  | ClassAsyncFromSyncIterator iter next => js_async_from_sync_iterator_mark iter next
  | ClassWeakRef _ => []
  | ClassFinRec entries cb realm => js_finrec_mark entries cb realm
  end.

Definition JS_MarkContext (loaded_modules : list ptr) (values : list JSValue) (shapes : list (option ptr)) : list ptr :=
  loaded_modules ++ mark_values values ++ (shapes ≫= option_list).

Definition js_mark_module_def (attributes : list JSValue) (exports : list JSExportEntry) (values : list JSValue) : list ptr :=
  mark_values attributes ++
  (exports ≫= fun me => match me with ExportLocal r => option_list r | ExportIndirect => [] end) ++
  mark_values values.

Definition mark_children (b : JSBody) : list ptr :=
  match b with
  | JSObject shape prop u => shape :: (prop ≫= mark_property) ++ gc_mark u
  | JSFunctionBytecode cpool realm => mark_values cpool ++ option_list realm
  | JSVarRefDetached value => JS_MarkValue value
  | JSVarRefAttached async_func => option_list async_func
  | JSAsyncFunctionState is_completed cur_func this_val stack r0 r1 =>
      (if is_completed then []
       else mark_values [cur_func; this_val] ++ from_option mark_values [] stack)
      ++ mark_values [r0; r1]
  | JSShape proto => option_list proto
  | JSContext modules values shapes => JS_MarkContext modules values shapes
  | JSModuleDef attributes exports values => js_mark_module_def attributes exports values
  | BFreed _ => []
  end.

(** The references that freeing an object releases, in order, by the function that
    releases them: [JS_FreeValueRT], [free_var_ref], [js_free_shape], [JS_FreeContext],
    [async_func_free], [js_weakref_free], and the modules of a context. *)
Inductive Ref :=
  | RValue (p : ptr) | RVarRef (p : ptr) | RShape (p : ptr) | RContext (p : ptr)
  | RAsync (p : ptr) | RWeak (p : ptr) | RModule (p : ptr).

Definition value_refs (v : JSValue) : list Ref := RValue <$> JS_MarkValue v.
Definition values_refs (l : list JSValue) : list Ref := l ≫= value_refs.

Definition free_property (pr : JSProperty) : list Ref :=
  match pr with
  | PropValue v => value_refs v
  | PropGetset getter setter => RValue <$> (option_list getter ++ option_list setter)
  | PropVarref r => [RVarRef r]
  | PropAutoinit realm => [RContext realm]
  end.

Definition weak_refs (v : JSValue) : list Ref := RWeak <$> JS_MarkValue v.

Definition js_array_finalizer (values : list JSValue) : list Ref := values_refs values.
Definition js_object_data_finalizer (d : JSValue) : list Ref := value_refs d.
Definition js_mapped_arguments_finalizer (var_refs : list ptr) : list Ref := RVarRef <$> var_refs.
Definition js_c_function_finalizer (realm : option ptr) : list Ref := RContext <$> option_list realm.
Definition js_bytecode_function_finalizer (home b : option ptr) (var_refs : option (list (option ptr))) : list Ref :=
  (RValue <$> option_list home) ++
  match b with
  | Some b => (RVarRef <$> from_option (fun l => l ≫= option_list) [] var_refs) ++ [RValue b]
  | None => []
  end.

Definition js_bound_function_finalizer (f this : JSValue) (argv : list JSValue) : list Ref :=
  value_refs f ++ value_refs this ++ values_refs argv.

Definition js_c_function_data_finalizer (data : list JSValue) : list Ref := values_refs data.
Definition js_for_in_iterator_finalizer (obj : JSValue) : list Ref := value_refs obj.
Definition js_typed_array_finalizer (buffer : ptr) : list Ref := [RValue buffer].
Definition js_map_finalizer (is_weak : bool) (records : list JSMapRecord) : list Ref :=
  records ≫= fun mr =>
    if negb (mr_empty mr)
    then (if is_weak then weak_refs (mr_key mr) else value_refs (mr_key mr)) ++ value_refs (mr_value mr)
    else [].

Definition js_iterator_concat_finalizer (iter next : JSValue) (index : nat) (values : list JSValue) : list Ref :=
  value_refs iter ++ value_refs next ++ values_refs (drop index values).

Definition js_iterator_helper_finalizer (obj func next inner inner_next : JSValue) : list Ref :=
  values_refs [obj; func; next; inner; inner_next].

Definition js_iterator_wrap_finalizer (iter next : JSValue) : list Ref := values_refs [iter; next].
Definition js_map_iterator_finalizer (obj : JSValue) : list Ref := value_refs obj.
Definition js_array_iterator_finalizer (obj : JSValue) : list Ref := value_refs obj.
Definition js_regexp_string_iterator_finalizer (r str : JSValue) : list Ref := values_refs [r; str].
Definition js_generator_finalizer (completed : bool) (func_state : option ptr) : list Ref :=
  if completed then [] else RAsync <$> option_list func_state.

Definition js_global_object_finalizer (vars : JSValue) : list Ref := value_refs vars.
Definition js_proxy_finalizer (target handler : JSValue) : list Ref := values_refs [target; handler].
Definition js_promise_finalizer (r0 r1 : list JSPromiseReactionData) (result : JSValue) : list Ref :=
  ((r0 ++ r1) ≫= fun rd => values_refs [rd_resolving0 rd; rd_resolving1 rd; rd_handler rd])
  ++ value_refs result.

Definition js_promise_resolve_function_finalizer (promise : JSValue) : list Ref := value_refs promise.
Definition js_async_function_resolve_finalizer (state : option ptr) : list Ref := RAsync <$> option_list state.
Definition js_async_generator_finalizer (queue : list JSAsyncGeneratorRequest) (func_state : option ptr) : list Ref :=
  (queue ≫= fun req => values_refs [req_result req; req_promise req; req_resolving0 req; req_resolving1 req])
  ++ (RAsync <$> option_list func_state).

Definition js_async_from_sync_iterator_finalizer (iter next : JSValue) : list Ref :=
  values_refs [iter; next].

Definition js_weakref_finalizer (target : JSValue) : list Ref := weak_refs target.
Definition js_finrec_finalizer (entries : list JSFinRecEntry) (cb : JSValue) (realm : ptr) : list Ref :=
  (entries ≫= fun fre => weak_refs (fre_target fre) ++ weak_refs (fre_token fre) ++ value_refs (fre_held_val fre))
  ++ value_refs cb ++ [RContext realm].

Definition finalizer (u : JSClassData) : list Ref :=
  match u with
  | ClassPlain => []
  | ClassArray values => js_array_finalizer values
  | ClassObjectData d => js_object_data_finalizer d
  | ClassMappedArguments var_refs => js_mapped_arguments_finalizer var_refs
  | ClassCFunction realm => js_c_function_finalizer realm
  | ClassBytecodeFunction home b var_refs => js_bytecode_function_finalizer home b var_refs
  | ClassBoundFunction f this argv => js_bound_function_finalizer f this argv
  | ClassCFunctionData data => js_c_function_data_finalizer data
  | ClassForInIterator obj => js_for_in_iterator_finalizer obj
  | ClassTypedArray buffer => js_typed_array_finalizer buffer
  | ClassMap is_weak records => js_map_finalizer is_weak records
  | ClassIteratorConcat iter next index values => js_iterator_concat_finalizer iter next index values
  | ClassIteratorHelper obj func next inner inner_next => js_iterator_helper_finalizer obj func next inner inner_next
  | ClassIteratorWrap iter next => js_iterator_wrap_finalizer iter next
  | ClassMapIterator obj => js_map_iterator_finalizer obj
  | ClassArrayIterator obj => js_array_iterator_finalizer obj
  | ClassRegExpStringIterator r str => js_regexp_string_iterator_finalizer r str
  | ClassGenerator completed func_state => js_generator_finalizer completed func_state
  | ClassGlobalObject vars => js_global_object_finalizer vars
  | ClassProxy target handler => js_proxy_finalizer target handler
  | ClassPromise r0 r1 result => js_promise_finalizer r0 r1 result
  | ClassPromiseFunction promise => js_promise_resolve_function_finalizer promise
  | ClassAsyncFunctionResolve state => js_async_function_resolve_finalizer state
  | ClassAsyncGenerator queue func_state => js_async_generator_finalizer queue func_state
  | ClassAsyncFromSyncIterator iter next => js_async_from_sync_iterator_finalizer iter next
  | ClassWeakRef target => js_weakref_finalizer target
  | ClassFinRec entries cb realm => js_finrec_finalizer entries cb realm
  end.

Definition free_exports (exports : list JSExportEntry) : list Ref :=
  exports ≫= fun me => match me with ExportLocal r => RVarRef <$> option_list r | ExportIndirect => [] end.

Definition free_object (shape : ptr) (prop : list (bool * JSProperty)) (u : JSClassData) : list Ref :=
  (prop ≫= fun pr => free_property (snd pr)) ++ RShape shape :: finalizer u.

Definition free_function_bytecode (cpool : list JSValue) (realm : option ptr) : list Ref :=
  values_refs cpool ++ (RContext <$> option_list realm).

Definition __async_func_free (is_completed : bool) (cur_func this_val : JSValue) (stack : option (list JSValue))
    (resolving0 resolving1 : JSValue) : list Ref :=
  (if is_completed then [] else from_option values_refs [] stack ++ values_refs [cur_func; this_val])
  ++ values_refs [resolving0; resolving1].

Definition js_free_module_def (attributes : list JSValue) (exports : list JSExportEntry) (values : list JSValue) : list Ref :=
  values_refs attributes ++ free_exports exports ++ values_refs values.

(** What freeing an object releases; for a shape, a variable reference and a context see
    [js_free_shape0], [free_var_ref] and [JS_FreeContext] below. *)
Definition body_refs (b : JSBody) : list Ref :=
  match b with
  | JSObject shape prop u => free_object shape prop u
  | JSFunctionBytecode cpool realm => free_function_bytecode cpool realm
  | JSShape proto => RValue <$> option_list proto
  | JSVarRefDetached value => value_refs value
  | JSVarRefAttached async_func => RAsync <$> option_list async_func
  | JSAsyncFunctionState is_completed cur_func this_val stack r0 r1 =>
      __async_func_free is_completed cur_func this_val stack r0 r1
  | JSContext modules values shapes =>
      (RModule <$> modules) ++ values_refs values ++ (RShape <$> (shapes ≫= option_list))
  | JSModuleDef attributes exports values => js_free_module_def attributes exports values
  | BFreed _ => []
  end.

Create HintDb gc_class.
#[export] Hint Unfold js_array_mark js_object_data_mark js_mapped_arguments_mark js_c_function_mark
  js_bytecode_function_mark js_bound_function_mark js_c_function_data_mark js_for_in_iterator_mark
  js_typed_array_mark js_map_mark js_iterator_concat_mark js_iterator_helper_mark js_iterator_wrap_mark
  js_map_iterator_mark js_array_iterator_mark js_regexp_string_iterator_mark js_generator_mark
  js_global_object_mark js_proxy_mark js_promise_mark js_promise_resolve_function_mark
  js_async_function_resolve_mark js_async_generator_mark js_async_from_sync_iterator_mark js_finrec_mark
  js_array_finalizer js_object_data_finalizer js_mapped_arguments_finalizer js_c_function_finalizer
  js_bytecode_function_finalizer js_bound_function_finalizer js_c_function_data_finalizer
  js_for_in_iterator_finalizer js_typed_array_finalizer js_map_finalizer js_iterator_concat_finalizer
  js_iterator_helper_finalizer js_iterator_wrap_finalizer js_map_iterator_finalizer
  js_array_iterator_finalizer js_regexp_string_iterator_finalizer js_generator_finalizer
  js_global_object_finalizer js_proxy_finalizer js_promise_finalizer
  js_promise_resolve_function_finalizer js_async_function_resolve_finalizer js_async_generator_finalizer
  js_async_from_sync_iterator_finalizer js_weakref_finalizer js_finrec_finalizer free_object
  free_function_bytecode __async_func_free js_free_module_def : gc_class.

(** The assertion of [__async_func_free]: the function is not running. *)
Definition is_running (b : JSBody) : bool :=
  match b with JSAsyncFunctionState false _ _ None _ _ => true | _ => false end.

(** ** Freeing *)

Section free.

(** [free_zero_refcount]. *)
Variable free_zero_refcount : JSRuntime -> option JSRuntime.

(** The object [p] goes to the front of [gc_zero_ref_count_list], marked or not. *)
Definition defer (marked : bool) (s : JSRuntime) (p : ptr) : option JSRuntime :=
  let s := list_del p s in
  let s := set_zero_list (p :: gc_zero_ref_count_list s) s in
  o ← heap s !! p;
  let s := if marked then write p (with_mark 1 o) s else s in
  if decide (gc_phase s = JS_GC_PHASE_NONE) then free_zero_refcount s else Some s.

(** The cases of a GC object. *)
Definition __JS_FreeValueRT (s : JSRuntime) (p : ptr) : option JSRuntime :=
  if decide (gc_phase s = JS_GC_PHASE_REMOVE_CYCLES) then Some s else defer true s p.

Definition JS_FreeValueRT (s : JSRuntime) (p : ptr) : option JSRuntime :=
  o ← heap s !! p;
  let n := ref_count o - 1 in
  let s := write p (with_count n o) s in
  if n <=? 0 then __JS_FreeValueRT s p else Some s.

Definition async_func_free (s : JSRuntime) (p : ptr) : option JSRuntime :=
  o ← heap s !! p;
  let n := ref_count o - 1 in
  let s := write p (with_count n o) s in
  if n =? 0 then
    if decide (gc_phase s = JS_GC_PHASE_REMOVE_CYCLES) then Some s else defer false s p
  else Some s.

(** [remove_gc_object] and [js_free_rt]. *)
Definition remove_and_free (p : ptr) (s : JSRuntime) : JSRuntime := js_free_rt p (list_del p s).

Definition free_var_ref (s : JSRuntime) (p : ptr) : option JSRuntime :=
  o ← heap s !! p;
  guard (0 < ref_count o);;
  let n := ref_count o - 1 in
  let s := write p (with_count n o) s in
  if n =? 0 then
    s ← match body o with
        | JSVarRefDetached value => foldM JS_FreeValueRT (JS_MarkValue value) s
        | JSVarRefAttached async_func => foldM async_func_free (option_list async_func) s
        | _ => None
        end;
    Some (remove_and_free p s)
  else Some s.

Definition js_free_shape0 (s : JSRuntime) (p : ptr) : option JSRuntime :=
  o ← heap s !! p;
  guard (ref_count o = 0);;
  match body o with
  | JSShape proto => s ← foldM JS_FreeValueRT (option_list proto) s; Some (remove_and_free p s)
  | _ => None
  end.

Definition js_free_shape (s : JSRuntime) (p : ptr) : option JSRuntime :=
  o ← heap s !! p;
  let n := ref_count o - 1 in
  let s := write p (with_count n o) s in
  if n <=? 0 then js_free_shape0 s p else Some s.

Definition set_link (p : ptr) (l : option ptr) (s : JSRuntime) : option JSRuntime :=
  o ← heap s !! p; Some (write p (with_link l o) s).

Definition js_free_modules (s : JSRuntime) (m : ptr) : option JSRuntime :=
  s ← set_link m None s; JS_FreeValueRT s m.

Definition JS_FreeContext (s : JSRuntime) (p : ptr) : option JSRuntime :=
  o ← heap s !! p;
  let n := ref_count o - 1 in
  let s := write p (with_count n o) s in
  if 0 <? n then Some s
  else
    guard (n = 0);;
    match body o with
    | JSContext modules values shapes =>
        s ← foldM js_free_modules modules s;
        s ← foldM JS_FreeValueRT (mark_values values) s;
        s ← foldM js_free_shape (shapes ≫= option_list) s;
        Some (remove_and_free p s)
    | _ => None
    end.

Definition js_weakref_free (s : JSRuntime) (p : ptr) : option JSRuntime :=
  o ← heap s !! p;
  guard (1 <= weakref_count o);;
  let n := weakref_count o - 1 in
  let s := write p (with_weak n o) s in
  if (n =? 0) && (ref_count o =? 0) && (mark o =? 0) then Some (js_free_rt p s) else Some s.

Definition free_ref (s : JSRuntime) (r : Ref) : option JSRuntime :=
  match r with
  | RValue p => JS_FreeValueRT s p
  | RVarRef p => free_var_ref s p
  | RShape p => js_free_shape s p
  | RContext p => JS_FreeContext s p
  | RAsync p => async_func_free s p
  | RWeak p => js_weakref_free s p
  | RModule p => js_free_modules s p
  end.

(** [list_del(&m->link)], when the module is still in the list of a context. *)
Definition unlink_module (m : ptr) (s : JSRuntime) : option JSRuntime :=
  o ← heap s !! m;
  match link o with
  | None => Some s
  | Some c =>
      oc ← heap s !! c;
      match body oc with
      | JSContext modules values shapes =>
          Some (write m (with_link None o) (write c (with_body (JSContext (unlink m modules) values shapes) oc) s))
      | _ => None
      end
  end.

(** [free_gc_object]: the contents are released, then the structure is freed or kept. *)
Definition free_gc_object (s : JSRuntime) (p : ptr) : option JSRuntime :=
  o ← heap s !! p;
  let t := gc_obj_type o in
  guard (t = JS_GC_OBJ_TYPE_JS_OBJECT \/ t = JS_GC_OBJ_TYPE_FUNCTION_BYTECODE \/
         t = JS_GC_OBJ_TYPE_ASYNC_FUNCTION \/ t = JS_GC_OBJ_TYPE_MODULE);;
  guard (is_running (body o) = false);;
  s ← foldM free_ref (body_refs (body o)) s;
  s ← if decide (t = JS_GC_OBJ_TYPE_MODULE) then unlink_module p s else Some s;
  o ← heap s !! p;
  let s := list_del p (write p (with_body (BFreed t) o) s) in
  o ← heap s !! p;
  if decide (gc_phase s = JS_GC_PHASE_REMOVE_CYCLES) then
    if (ref_count o =? 0) && (weakref_count o =? 0) then Some (js_free_rt p s)
    else Some (set_zero_list (gc_zero_ref_count_list s ++ [p]) s)
  else if weakref_count o =? 0 then Some (js_free_rt p s)
  else Some (write p (with_mark 0 o) s).
End free.

(** The loop of [free_zero_refcount], in the phase [JS_GC_PHASE_DECREF]. *)
Fixpoint zero_loop (fuel : nat) (s : JSRuntime) : option JSRuntime :=
  match gc_zero_ref_count_list s with
  | [] => Some s
  | p :: _ =>
      match fuel with
      | O => None
      | S fuel =>
          o ← heap s !! p;
          guard (ref_count o = 0);;
          s ← free_gc_object (fun _ => None) s p;
          zero_loop fuel s
      end
  end.

Definition free_zero_refcount (s : JSRuntime) : option JSRuntime :=
  s ← zero_loop (size (heap s)) (set_phase JS_GC_PHASE_DECREF s);
  Some (set_phase JS_GC_PHASE_NONE s).

(** [JS_FreeValue]. *)
Definition JS_FreeValue (s : JSRuntime) (v : JSValue) : option JSRuntime :=
  match v with JSPrim => Some s | JSPtr p => JS_FreeValueRT free_zero_refcount s p end.

Definition JS_DupValue (s : JSRuntime) (v : JSValue) : option JSRuntime :=
  match v with
  | JSPrim => Some s
  | JSPtr p => o ← heap s !! p; Some (write p (with_count (ref_count o + 1) o) s)
  end.

(** ** The collector *)

Definition gc_decref_child (s : JSRuntime) (p : ptr) : option JSRuntime :=
  o ← heap s !! p;
  guard (0 < ref_count o);;
  let n := ref_count o - 1 in
  let s := write p (with_count n o) s in
  if (n =? 0) && (mark o =? 1)
  then let s := list_del p s in Some (set_tmp_list (tmp_obj_list s ++ [p]) s)
  else Some s.

(** The loop of [gc_decref]: [el1] is the element that follows [el]. *)
Fixpoint decref_loop (fuel : nat) (s : JSRuntime) (el el1 : option ptr) : option JSRuntime :=
  match el with
  | None => Some s
  | Some p =>
      match fuel with
      | O => None
      | S fuel =>
          o ← heap s !! p;
          guard (mark o = 0);;
          s ← foldM gc_decref_child (mark_children (body o)) s;
          o ← heap s !! p;
          let s := write p (with_mark 1 o) s in
          let s := if ref_count o =? 0
                   then let s := list_del p s in set_tmp_list (tmp_obj_list s ++ [p]) s else s in
          match el1 with
          | None => Some s
          | Some q => el2 ← next_in (gc_obj_list s) q; decref_loop fuel s el1 el2
          end
      end
  end.

Definition gc_decref (s : JSRuntime) : option JSRuntime :=
  let s := set_tmp_list [] s in
  match gc_obj_list s with
  | [] => Some s
  | p :: l => decref_loop (length (gc_obj_list s)) s (Some p) (head l)
  end.

Definition gc_scan_incref_child (s : JSRuntime) (p : ptr) : option JSRuntime :=
  o ← heap s !! p;
  let n := ref_count o + 1 in
  if n =? 1 then
    let s := write p (with_mark 0 (with_count n o)) s in
    let s := list_del p s in Some (set_gc_list (gc_obj_list s ++ [p]) s)
  else Some (write p (with_count n o) s).

Definition gc_scan_incref_child2 (s : JSRuntime) (p : ptr) : option JSRuntime :=
  o ← heap s !! p; Some (write p (with_count (ref_count o + 1) o) s).

(** The first loop of [gc_scan]; the list grows while it is traversed. *)
Fixpoint scan_loop (fuel : nat) (s : JSRuntime) (el : option ptr) : option JSRuntime :=
  match el with
  | None => Some s
  | Some p =>
      match fuel with
      | O => None
      | S fuel =>
          o ← heap s !! p;
          guard (0 < ref_count o);;
          let s := write p (with_mark 0 o) s in
          s ← foldM gc_scan_incref_child (mark_children (body o)) s;
          el ← next_in (gc_obj_list s) p;
          scan_loop fuel s el
      end
  end.

Definition restore_child (s : JSRuntime) (p : ptr) : option JSRuntime :=
  o ← heap s !! p; foldM gc_scan_incref_child2 (mark_children (body o)) s.

Definition gc_scan (s : JSRuntime) : option JSRuntime :=
  s ← scan_loop (size (heap s)) s (head (gc_obj_list s));
  foldM restore_child (tmp_obj_list s) s.

(** The first loop of [gc_free_cycles]. *)
Fixpoint cycles_loop (fuel : nat) (s : JSRuntime) : option JSRuntime :=
  match tmp_obj_list s with
  | [] => Some s
  | p :: _ =>
      match fuel with
      | O => None
      | S fuel =>
          o ← heap s !! p;
          s ← match gc_obj_type o with
              | JS_GC_OBJ_TYPE_JS_OBJECT | JS_GC_OBJ_TYPE_FUNCTION_BYTECODE
              | JS_GC_OBJ_TYPE_ASYNC_FUNCTION | JS_GC_OBJ_TYPE_MODULE =>
                  free_gc_object (fun _ => None) s p
              | _ => let s := list_del p s in
                     Some (set_zero_list (gc_zero_ref_count_list s ++ [p]) s)
              end;
          cycles_loop fuel s
      end
  end.

(** The body of the second loop. *)
Definition sweep_zero (s : JSRuntime) (p : ptr) : option JSRuntime :=
  o ← heap s !! p;
  let t := gc_obj_type o in
  guard (t = JS_GC_OBJ_TYPE_JS_OBJECT \/ t = JS_GC_OBJ_TYPE_FUNCTION_BYTECODE \/
         t = JS_GC_OBJ_TYPE_ASYNC_FUNCTION \/ t = JS_GC_OBJ_TYPE_MODULE);;
  if bool_decide (t = JS_GC_OBJ_TYPE_JS_OBJECT) && negb (weakref_count o =? 0)
  then Some (write p (with_mark 0 o) s)
  else Some (js_free_rt p s).

Definition gc_free_cycles (s : JSRuntime) : option JSRuntime :=
  s ← cycles_loop (length (tmp_obj_list s)) (set_phase JS_GC_PHASE_REMOVE_CYCLES s);
  let s := set_phase JS_GC_PHASE_NONE s in
  s ← foldM sweep_zero (gc_zero_ref_count_list s) s;
  Some (set_zero_list [] s).

(** [JS_RunGCInternal], without the removal of the weak references. *)
Definition JS_RunGCInternal (s : JSRuntime) : option JSRuntime :=
  s ← gc_decref s; s ← gc_scan s; gc_free_cycles s.
