(* ===== verification/GcCount.v ===== *)
(** * Counting references

    The number of references to an address held by the GC objects of a heap, and the
    agreement of the mark functions with the finalizers. *)
From S2P Require Export MapSum Gc.

(** ** Counting *)

(** The address that the reference counts for, if it is a counted reference. *)
Definition strong (r : Ref) : option ptr :=
  match r with
  | RValue p | RVarRef p | RShape p | RContext p | RAsync p | RModule p => Some p
  | RWeak _ => None
  end.
Definition weak (r : Ref) : option ptr := match r with RWeak p => Some p | _ => None end.
Definition target (r : Ref) : ptr :=
  match r with
  | RValue p | RVarRef p | RShape p | RContext p | RAsync p | RModule p | RWeak p => p
  end.

(** The occurrences of [p] in a list of addresses. *)
Definition occ (p : ptr) (l : list ptr) : Z := len (filter (eq p) l).
Definition cnt (p : ptr) (l : list Ref) : Z := occ p (omap strong l).
Definition wcnt (p : ptr) (l : list Ref) : Z := occ p (omap weak l).

Lemma occ_nil p : occ p [] = 0.
Proof. done. Qed.
Lemma occ_cons p q l : occ p (q :: l) = (if decide (p = q) then 1 else 0) + occ p l.
Proof.
  unfold occ. case_decide; [rewrite filter_cons_True by done|rewrite filter_cons_False by done]; cbn [length]; lia.
Qed.
Lemma occ_app p l1 l2 : occ p (l1 ++ l2) = occ p l1 + occ p l2.
Proof. unfold occ. rewrite filter_app, length_app. lia. Qed.
Lemma occ_nonneg p l : 0 <= occ p l.
Proof. unfold occ. lia. Qed.
Lemma occ_pos p l : 0 < occ p l <-> p ∈ l.
Proof.
  induction l as [|q l IH]; [rewrite occ_nil; split; [lia|by intros ?%not_elem_of_nil]|].
  rewrite occ_cons, elem_of_cons, <- IH. pose proof (occ_nonneg p l). case_decide; split; intros; naive_solver lia.
Qed.

Lemma cnt_nil p : cnt p [] = 0.
Proof. done. Qed.
Lemma cnt_cons p r l : cnt p (r :: l) = (if decide (strong r = Some p) then 1 else 0) + cnt p l.
Proof.
  unfold cnt. cbn. destruct (strong r) as [q|]; [|by rewrite decide_False].
  rewrite occ_cons. repeat case_decide; simplify_eq; lia.
Qed.
Lemma cnt_app p l1 l2 : cnt p (l1 ++ l2) = cnt p l1 + cnt p l2.
Proof. unfold cnt. by rewrite omap_app, occ_app. Qed.
Lemma cnt_nonneg p l : 0 <= cnt p l.
Proof. apply occ_nonneg. Qed.
Lemma cnt_pos p l : 0 < cnt p l <-> exists r, r ∈ l /\ strong r = Some p.
Proof. unfold cnt. rewrite occ_pos, list_elem_of_omap. naive_solver. Qed.

Lemma wcnt_nil p : wcnt p [] = 0.
Proof. done. Qed.
Lemma wcnt_cons p r l : wcnt p (r :: l) = (if decide (weak r = Some p) then 1 else 0) + wcnt p l.
Proof.
  unfold wcnt. cbn. destruct (weak r) as [q|]; [|by rewrite decide_False].
  rewrite occ_cons. repeat case_decide; simplify_eq; lia.
Qed.
Lemma wcnt_app p l1 l2 : wcnt p (l1 ++ l2) = wcnt p l1 + wcnt p l2.
Proof. unfold wcnt. by rewrite omap_app, occ_app. Qed.
Lemma wcnt_nonneg p l : 0 <= wcnt p l.
Proof. apply occ_nonneg. Qed.
Lemma wcnt_pos p l : 0 < wcnt p l <-> RWeak p ∈ l.
Proof.
  unfold wcnt. rewrite occ_pos, list_elem_of_omap. split; [|by exists (RWeak p)].
  intros (r & Hr & E). destruct r; cbn in E; simplify_eq; exact Hr.
Qed.

Lemma strong_target r p : strong r = Some p -> target r = p.
Proof. destruct r; cbn; congruence. Qed.

(** ** Marking agrees with freeing

    The mark function of a body reports exactly the counted references that its
    finalizer releases. *)

(** A deleted property, an empty record of a map and a completed generator hold no
    reference. *)
Definition property_wf (pr : bool * JSProperty) : Prop := fst pr = false -> snd pr = PropValue JSPrim.
Definition class_wf (u : JSClassData) : Prop :=
  match u with
  | ClassMap _ records => Forall (fun mr => mr_empty mr = true -> mr_key mr = JSPrim /\ mr_value mr = JSPrim) records
  | ClassGenerator completed func_state => completed = true -> func_state = None
  | _ => True
  end.
Definition body_wf (b : JSBody) : Prop :=
  match b with JSObject _ prop u => Forall property_wf prop /\ class_wf u | _ => True end.

Lemma omap_strong_map f (l : list ptr) : (forall p, strong (f p) = Some p) -> omap strong (f <$> l) = l.
Proof. intros Hf. induction l as [|p l IH]; [done|]. cbn. rewrite Hf. cbn. by rewrite IH. Qed.

Lemma omap_weak v : omap strong (weak_refs v) = [].
Proof. by destruct v. Qed.
Lemma strong_value v : omap strong (value_refs v) = JS_MarkValue v.
Proof. by destruct v. Qed.
Lemma strong_values l : omap strong (values_refs l) = mark_values l.
Proof. induction l as [|v l IH]; [done|]. cbn. rewrite omap_app, strong_value. by f_equal. Qed.
Lemma strong_bind {A} (f : A -> list Ref) (g : A -> list ptr) l :
  Forall (fun x => omap strong (f x) = g x) l -> omap strong (l ≫= f) = l ≫= g.
Proof. induction 1 as [|x l Hx Hl IH]; [done|]. cbn. rewrite omap_app, Hx. by f_equal. Qed.

Create HintDb strong_refs.
#[export] Hint Rewrite @omap_app @strong_value @strong_values omap_weak : strong_refs.
#[export] Hint Rewrite @omap_strong_map using (intros; reflexivity) : strong_refs.

Lemma finalizer_strong u : class_wf u -> omap strong (finalizer u) = gc_mark u.
Proof.
  destruct u; cbn [finalizer gc_mark class_wf]; autounfold with gc_class; intros Hwf; autorewrite with strong_refs; try done.
  - destruct function_bytecode; autorewrite with strong_refs; done.
  - apply strong_bind. apply (Forall_impl _ _ _ Hwf). intros mr Hmr. destruct (mr_empty mr); cbn [negb].
    + destruct Hmr as [-> ->]; [done|]. by destruct is_weak.
    + destruct is_weak; cbn [negb]; by autorewrite with strong_refs.
  - destruct completed; autorewrite with strong_refs; [by rewrite Hwf|done].
  - f_equal. apply strong_bind, Forall_true. intros. by rewrite strong_values.
  - f_equal. apply strong_bind, Forall_true. intros. by rewrite strong_values.
  - cbn. f_equal. induction entries as [|e entries IH]; [done|]. cbn. autorewrite with strong_refs. cbn. by f_equal.
Qed.

Lemma free_property_strong pr : property_wf pr -> omap strong (free_property (snd pr)) = mark_property pr.
Proof.
  destruct pr as [atom pr]. unfold property_wf. cbn. intros Hwf. destruct atom; cbn [negb]; [|by rewrite Hwf].
  destruct pr; cbn; autorewrite with strong_refs; done.
Qed.

Lemma body_refs_strong b p : body_wf b -> occ p (mark_children b) = cnt p (body_refs b).
Proof.
  unfold cnt. destruct b; cbn [body_wf mark_children body_refs]; autounfold with gc_class; intros Hwf; autorewrite with strong_refs; try done.
  - destruct Hwf as [Hp Hu]. cbn. rewrite finalizer_strong by done.
    rewrite (strong_bind _ mark_property).
    2: { apply (Forall_impl _ _ _ Hp). intros. by apply free_property_strong. }
    rewrite !occ_app, !occ_cons, !occ_app. lia.
  - destruct is_completed; [done|]. autorewrite with strong_refs.
    destruct stack; cbn [from_option]; autorewrite with strong_refs; rewrite !occ_app; cbn; lia.
  - unfold js_mark_module_def, free_exports. do 3 f_equal. symmetry. apply strong_bind, Forall_true.
    intros []; [|done]. by rewrite omap_strong_map.
Qed.
