(* ===== verification/GcFree.v ===== *)
(** * Freeing

    The invariant of the heap while objects are being freed: the reference counts cover
    the references of the objects that are alive and the ones that remain to be released.
    Each release function preserves it and accesses no freed object. *)
From stdpp Require Export propset.
From S2P Require Export GcCount.

(** ** The invariant *)

Definition freed (o : GCObject) : bool := match body o with BFreed _ => true | _ => false end.

Definition is_value (t : JSGCObjectTypeEnum) : bool :=
  match t with
  | JS_GC_OBJ_TYPE_JS_OBJECT | JS_GC_OBJ_TYPE_FUNCTION_BYTECODE | JS_GC_OBJ_TYPE_MODULE => true
  | _ => false
  end.

(** The objects that are freed by a loop of their own. *)
Definition deferred (t : JSGCObjectTypeEnum) : bool :=
  match t with JS_GC_OBJ_TYPE_ASYNC_FUNCTION => true | _ => is_value t end.

Definition ref_type (r : Ref) (t : JSGCObjectTypeEnum) : Prop :=
  match r with
  | RValue _ => is_value t = true
  | RVarRef _ => t = JS_GC_OBJ_TYPE_VAR_REF
  | RShape _ => t = JS_GC_OBJ_TYPE_SHAPE
  | RContext _ => t = JS_GC_OBJ_TYPE_JS_CONTEXT
  | RAsync _ => t = JS_GC_OBJ_TYPE_ASYNC_FUNCTION
  | RWeak _ => t = JS_GC_OBJ_TYPE_JS_OBJECT
  | RModule _ => t = JS_GC_OBJ_TYPE_MODULE
  end.

Definition valid (h : gmap ptr GCObject) (r : Ref) : Prop :=
  exists o, h !! target r = Some o /\ ref_type r (gc_obj_type o).

(** The references of the objects that are not in [X], whose references are being
    released. *)
Definition refs_in (X : gset ptr) (q : ptr) (o : GCObject) : list Ref :=
  if decide (q ∈ X) then [] else body_refs (body o).

(** The references to [p] of the heap and of [pend], the ones to release. *)
Definition refcnt (X : gset ptr) (pend : list Ref) (p : ptr) (h : gmap ptr GCObject) : Z :=
  cnt p pend + hsum (fun q o => cnt p (refs_in X q o)) h.
Definition weakcnt (X : gset ptr) (pend : list Ref) (p : ptr) (h : gmap ptr GCObject) : Z :=
  wcnt p pend + hsum (fun q o => wcnt p (refs_in X q o)) h.

Definition lists (s : JSRuntime) : list ptr := gc_obj_list s ++ tmp_obj_list s ++ gc_zero_ref_count_list s.

Section inv.
(** The references from outside of the heap, and a set of objects that these references
    keep alive. *)
Context (ext : ptr -> Z) (S : propset ptr).

(** What holds of the object [o] at [p]. *)
Record obj_ok (X : gset ptr) (pend : list Ref) (s : JSRuntime) (p : ptr) (o : GCObject) : Prop := {
  ok_covered : ext p + refcnt X pend p (heap s) <= ref_count o;
  ok_exact : (freed o = false /\ p ∉ X) \/ gc_obj_type o <> JS_GC_OBJ_TYPE_MODULE ->
    ref_count o = ext p + refcnt X pend p (heap s);
  ok_weak : weakref_count o = weakcnt X pend p (heap s);
  ok_immediate : deferred (gc_obj_type o) = false ->
    freed o = false /\ (if decide (p ∈ X) then ref_count o = 0 else 0 < ref_count o);
  ok_shell : freed o = true -> mark o = 0 ->
    ref_count o = 0 /\ p ∉ lists s /\ gc_obj_type o = JS_GC_OBJ_TYPE_JS_OBJECT /\ 0 < weakref_count o;
  ok_mark : freed o = false -> gc_obj_type o = JS_GC_OBJ_TYPE_JS_OBJECT -> ref_count o = 0 -> mark o <> 0;
  ok_dying : p ∈ X -> freed o = false /\ (gc_phase s = JS_GC_PHASE_DECREF -> ref_count o = 0);
  ok_listed : freed o = false \/ mark o <> 0 -> p ∈ lists s;
  ok_run : is_running (body o) = true -> 0 < ext p;
  ok_link c : link o = Some c ->
    RModule p ∈ pend \/
    (c ∉ X /\ exists oc modules values shapes,
      heap s !! c = Some oc /\ body oc = JSContext modules values shapes /\ p ∈ modules);
  ok_decref : gc_phase s = JS_GC_PHASE_DECREF ->
    if freed o then mark o = 0
    else (if deferred (gc_obj_type o) then ref_count o = 0 <-> p ∈ gc_zero_ref_count_list s
          else p ∉ gc_zero_ref_count_list s) /\
         (p ∉ gc_zero_ref_count_list s -> mark o = 0);
  ok_remove : gc_phase s = JS_GC_PHASE_REMOVE_CYCLES ->
    (freed o = false -> mark o = 0 <-> p ∈ S) /\ (p ∈ gc_obj_list s <-> p ∈ S) /\
    (p ∈ tmp_obj_list s -> freed o = false) /\
    (p ∈ gc_zero_ref_count_list s -> freed o = false -> deferred (gc_obj_type o) = false);
}.

Record inv (X : gset ptr) (pend : list Ref) (s : JSRuntime) : Prop := {
  i_ext p : 0 <= ext p;
  i_closed q o r : heap s !! q = Some o -> q ∉ X -> r ∈ body_refs (body o) -> valid (heap s) r;
  i_pend r : r ∈ pend -> valid (heap s) r;
  i_obj p o : heap s !! p = Some o -> obj_ok X pend s p o;
  i_dying p : p ∈ X -> is_Some (heap s !! p);
  i_nodup : NoDup (lists s);
  i_listed p : p ∈ lists s -> is_Some (heap s !! p);
  i_kept p : p ∈ S -> exists o, heap s !! p = Some o /\ freed o = false /\ p ∉ X /\
    forall r q, r ∈ body_refs (body o) -> strong r = Some q -> q ∈ S;
  i_support p : p ∈ S -> 0 < ext p \/
    exists q o r, q ∈ S /\ heap s !! q = Some o /\ r ∈ body_refs (body o) /\ strong r = Some p;
  i_phase : gc_phase s <> JS_GC_PHASE_NONE;
  i_tmp : gc_phase s = JS_GC_PHASE_DECREF -> tmp_obj_list s = [];
}.

(** ** Counting lemmas *)

Lemma refcnt_nonneg X pend p h : 0 <= refcnt X pend p h.
Proof.
  unfold refcnt. pose proof (cnt_nonneg p pend).
  assert (0 <= hsum (fun q o => cnt p (refs_in X q o)) h); [|lia]. apply hsum_nonneg. intros. apply cnt_nonneg.
Qed.

Lemma weakcnt_nonneg X pend p h : 0 <= weakcnt X pend p h.
Proof.
  unfold weakcnt. pose proof (wcnt_nonneg p pend).
  assert (0 <= hsum (fun q o => wcnt p (refs_in X q o)) h); [|lia]. apply hsum_nonneg. intros. apply wcnt_nonneg.
Qed.

Lemma refcnt_cons X r pend p h :
  refcnt X (r :: pend) p h = (if decide (strong r = Some p) then 1 else 0) + refcnt X pend p h.
Proof. unfold refcnt. rewrite cnt_cons. lia. Qed.
Lemma weakcnt_cons X r pend p h :
  weakcnt X (r :: pend) p h = (if decide (weak r = Some p) then 1 else 0) + weakcnt X pend p h.
Proof. unfold weakcnt. rewrite wcnt_cons. lia. Qed.

Lemma refs_in_body X q o o' : body o' = body o -> refs_in X q o' = refs_in X q o.
Proof. unfold refs_in. by intros ->. Qed.

Lemma refcnt_update X pend q h p o o' : h !! p = Some o -> body o' = body o ->
  refcnt X pend q (<[p := o']> h) = refcnt X pend q h.
Proof. intros E Eb. unfold refcnt. rewrite (hsum_update _ _ _ _ o' E), (refs_in_body X p o o' Eb). lia. Qed.
Lemma weakcnt_update X pend q h p o o' : h !! p = Some o -> body o' = body o ->
  weakcnt X pend q (<[p := o']> h) = weakcnt X pend q h.
Proof. intros E Eb. unfold weakcnt. rewrite (hsum_update _ _ _ _ o' E), (refs_in_body X p o o' Eb). lia. Qed.

Lemma refcnt_delete X X' pend q h p o : h !! p = Some o -> refs_in X p o = [] ->
  (forall q, q <> p -> q ∈ X <-> q ∈ X') ->
  refcnt X' pend q (delete p h) = refcnt X pend q h.
Proof.
  intros E E0 HX. unfold refcnt. f_equal. rewrite (hsum_ext _ (fun q' o => cnt q (refs_in X q' o))).
  - rewrite (hsum_delete _ _ _ _ E), E0, cnt_nil. lia.
  - intros q' o' [Hq' _]%lookup_delete_Some. f_equal. unfold refs_in. specialize (HX q' ltac:(congruence)).
    repeat case_decide; tauto.
Qed.
Lemma weakcnt_delete X X' pend q h p o : h !! p = Some o -> refs_in X p o = [] ->
  (forall q, q <> p -> q ∈ X <-> q ∈ X') ->
  weakcnt X' pend q (delete p h) = weakcnt X pend q h.
Proof.
  intros E E0 HX. unfold weakcnt. f_equal. rewrite (hsum_ext _ (fun q' o => wcnt q (refs_in X q' o))).
  - rewrite (hsum_delete _ _ _ _ E), E0, wcnt_nil. lia.
  - intros q' o' [Hq' _]%lookup_delete_Some. f_equal. unfold refs_in. specialize (HX q' ltac:(congruence)).
    repeat case_decide; tauto.
Qed.

Lemma hsum_open (f : list Ref -> Z) X h p o : h !! p = Some o -> p ∉ X -> f [] = 0 ->
  f (body_refs (body o)) + hsum (fun q o => f (refs_in (X ∪ {[p]}) q o)) h = hsum (fun q o => f (refs_in X q o)) h.
Proof.
  intros E Hp Hf. rewrite <- (insert_delete_id h p o E), !hsum_insert by apply lookup_delete_eq.
  rewrite (hsum_ext (fun q o => f (refs_in (X ∪ {[p]}) q o)) (fun q o => f (refs_in X q o)) (delete p h)).
  - assert (refs_in (X ∪ {[p]}) p o = []) as -> by (unfold refs_in; rewrite decide_True by set_solver; done).
    assert (refs_in X p o = body_refs (body o)) as -> by (unfold refs_in; by rewrite decide_False). lia.
  - intros q' o' [Hq' _]%lookup_delete_Some. f_equal. unfold refs_in. repeat case_decide; set_solver.
Qed.

Lemma refcnt_open X pend q h p o : h !! p = Some o -> p ∉ X ->
  refcnt (X ∪ {[p]}) (body_refs (body o) ++ pend) q h = refcnt X pend q h.
Proof.
  intros E Hp. unfold refcnt. rewrite cnt_app. pose proof (hsum_open (cnt q) X h p o E Hp (cnt_nil q)). lia.
Qed.
Lemma weakcnt_open X pend q h p o : h !! p = Some o -> p ∉ X ->
  weakcnt (X ∪ {[p]}) (body_refs (body o) ++ pend) q h = weakcnt X pend q h.
Proof.
  intros E Hp. unfold weakcnt. rewrite wcnt_app. pose proof (hsum_open (wcnt q) X h p o E Hp (wcnt_nil q)). lia.
Qed.

(** A counted reference to [p] is counted. *)
Lemma refcnt_ref X pend p h q o r : h !! q = Some o -> q ∉ X -> r ∈ body_refs (body o) -> strong r = Some p ->
  1 <= refcnt X pend p h.
Proof.
  intros E Hq Hr Hs. unfold refcnt. pose proof (cnt_nonneg p pend).
  assert (0 < cnt p (body_refs (body o))) by (apply cnt_pos; eauto).
  pose proof (hsum_le (fun q o => cnt p (refs_in X q o)) h q o ltac:(intros; apply cnt_nonneg) E) as HL.
  cbv beta in HL. unfold refs_in at 1 in HL. rewrite decide_False in HL by done. lia.
Qed.
Lemma refcnt_pend X pend p h r : r ∈ pend -> strong r = Some p -> 1 <= refcnt X pend p h.
Proof.
  intros Hr Hs. unfold refcnt. assert (0 < cnt p pend) by (apply cnt_pos; eauto).
  assert (0 <= hsum (fun q o => cnt p (refs_in X q o)) h); [|lia]. apply hsum_nonneg. intros. apply cnt_nonneg.
Qed.
Lemma weakcnt_ref X pend p h q o : h !! q = Some o -> q ∉ X -> RWeak p ∈ body_refs (body o) ->
  1 <= weakcnt X pend p h.
Proof.
  intros E Hq Hr. unfold weakcnt. pose proof (wcnt_nonneg p pend).
  assert (0 < wcnt p (body_refs (body o))) by (by apply wcnt_pos).
  pose proof (hsum_le (fun q o => wcnt p (refs_in X q o)) h q o ltac:(intros; apply wcnt_nonneg) E) as HL.
  cbv beta in HL. unfold refs_in at 1 in HL. rewrite decide_False in HL by done. lia.
Qed.
Lemma weakcnt_pend X pend p h : RWeak p ∈ pend -> 1 <= weakcnt X pend p h.
Proof.
  intros Hr. unfold weakcnt. assert (0 < wcnt p pend) by (by apply wcnt_pos).
  assert (0 <= hsum (fun q o => wcnt p (refs_in X q o)) h); [|lia]. apply hsum_nonneg. intros. apply wcnt_nonneg.
Qed.

(** The kept objects are referenced. *)
Lemma kept_counted X pend s p : inv X pend s -> p ∈ S -> 1 <= ext p + hsum (fun q o => cnt p (refs_in X q o)) (heap s).
Proof.
  intros HI Hp. pose proof (i_ext _ _ _ HI p).
  assert (0 <= hsum (fun q o => cnt p (refs_in X q o)) (heap s)) by (apply hsum_nonneg; intros; apply cnt_nonneg).
  destruct (i_support _ _ _ HI p Hp) as [|(q & o & r & Hq & E & Hr & Hs)]; [lia|].
  destruct (i_kept _ _ _ HI q Hq) as (o' & E' & _ & HX & _). rewrite E in E'. simplify_eq.
  pose proof (refcnt_ref X [] p (heap s) q o' r E HX Hr Hs) as H1. unfold refcnt in H1. rewrite cnt_nil in H1. lia.
Qed.

(** ** Preservation lemmas *)

(** [q] is in the same lists. *)
Definition same_place (s s' : JSRuntime) (q : ptr) : Prop :=
  (q ∈ gc_obj_list s' <-> q ∈ gc_obj_list s) /\ (q ∈ tmp_obj_list s' <-> q ∈ tmp_obj_list s) /\
  (q ∈ gc_zero_ref_count_list s' <-> q ∈ gc_zero_ref_count_list s).

Lemma same_place_lists s s' q : same_place s s' q -> q ∈ lists s' <-> q ∈ lists s.
Proof. intros (H1 & H2 & H3). unfold lists. rewrite !elem_of_app. tauto. Qed.

Lemma same_place_refl s q : same_place s s q.
Proof. by split_and!. Qed.

Definition link_ok (X : gset ptr) (pend : list Ref) (h : gmap ptr GCObject) (q c : ptr) : Prop :=
  RModule q ∈ pend \/
  (c ∉ X /\ exists oc modules values shapes,
    h !! c = Some oc /\ body oc = JSContext modules values shapes /\ q ∈ modules).

Lemma obj_ok_same X X' pend pend' s s' q o :
  obj_ok X pend s q o -> gc_phase s' = gc_phase s -> same_place s s' q -> (q ∈ X' <-> q ∈ X) ->
  refcnt X' pend' q (heap s') = refcnt X pend q (heap s) ->
  weakcnt X' pend' q (heap s') = weakcnt X pend q (heap s) ->
  (forall c, link_ok X pend (heap s) q c -> link_ok X' pend' (heap s') q c) ->
  obj_ok X' pend' s' q o.
Proof.
  intros [] Hph HP HX HN HW HL. pose proof (same_place_lists _ _ _ HP) as HPL. destruct HP as (P1 & P2 & P3).
  split; rewrite ?HN, ?HW, ?Hph, ?HX, ?HPL, ?P1, ?P2, ?P3; try done.
  - intros Hi. destruct (ok_immediate0 Hi) as [? H0]. split; [done|]. repeat case_decide; tauto.
  - intros c Hc. apply HL. by apply ok_link0.
  - intros Hd. specialize (ok_decref0 Hd). destruct (freed o); [done|]. destruct (deferred _); tauto.
Qed.

Lemma valid_update h p o o' r : h !! p = Some o -> body o' = body o -> valid h r -> valid (<[p := o']> h) r.
Proof.
  intros E Eb (ot & Et & Ht). destruct (decide (target r = p)) as [Hr|Hr].
  - exists o'. rewrite Hr, lookup_insert_eq. split; [done|]. rewrite Hr, E in Et. simplify_eq.
    unfold gc_obj_type in *. by rewrite Eb.
  - exists ot. by rewrite lookup_insert_ne.
Qed.

Lemma link_ok_update X pend h p o o' q c : h !! p = Some o -> body o' = body o ->
  link_ok X pend h q c -> link_ok X pend (<[p := o']> h) q c.
Proof.
  intros E Eb [?|(Hc & oc & ms & vs & shs & Ec & Ebc & Hq)]; [by left|right]. split; [done|].
  destruct (decide (c = p)) as [->|Hcp].
  - exists o', ms, vs, shs. rewrite lookup_insert_eq. rewrite E in Ec. simplify_eq. by rewrite Eb.
  - exists oc, ms, vs, shs. by rewrite lookup_insert_ne.
Qed.

(** [pend] is what remains to be released after a step on [p]. *)
Definition consumed (p : ptr) (pend0 pend : list Ref) : Prop :=
  pend0 = pend \/ exists r, target r = p /\ pend0 = r :: pend.

Lemma consumed_in p pend0 pend r : consumed p pend0 pend -> r ∈ pend -> r ∈ pend0.
Proof. intros [->|(r0 & _ & ->)] Hr; [done|by right]. Qed.
Lemma consumed_module p pend0 pend q : consumed p pend0 pend -> q <> p -> RModule q ∈ pend0 -> RModule q ∈ pend.
Proof. intros [->|(r0 & Hr0 & ->)] Hq Hr; [done|]. apply elem_of_cons in Hr as [<-|?]; [by cbn in Hr0|done]. Qed.
Lemma consumed_refcnt p X pend0 pend q h : consumed p pend0 pend -> q <> p -> refcnt X pend q h = refcnt X pend0 q h.
Proof.
  intros [->|(r0 & Hr0 & ->)] Hq; [done|]. rewrite refcnt_cons, decide_False; [lia|].
  intros ?%strong_target. congruence.
Qed.
Lemma consumed_weakcnt p X pend0 pend q h : consumed p pend0 pend -> q <> p -> weakcnt X pend q h = weakcnt X pend0 q h.
Proof.
  intros [->|(r0 & Hr0 & ->)] Hq; [done|]. rewrite weakcnt_cons, decide_False; [lia|].
  destruct r0; cbn in *; congruence.
Qed.

(** A step in which only [p] and its place change. *)
Lemma inv_step X pend0 pend s s' p o o' : inv X pend0 s -> consumed p pend0 pend -> heap s !! p = Some o ->
  body o' = body o -> heap s' = <[p := o']> (heap s) -> gc_phase s' = gc_phase s ->
  NoDup (lists s') -> (forall q, q <> p -> same_place s s' q) -> (tmp_obj_list s = [] -> tmp_obj_list s' = []) ->
  obj_ok X pend s' p o' -> inv X pend s'.
Proof.
  intros HI Hc E Eb Eh Hph Hnd HP Htmp Hok. split.
  - apply HI.
  - intros q oq r' Eq Hq Hr'. rewrite Eh in *. apply lookup_insert_Some in Eq as [[<- <-]|[Hne Eq]].
    + apply (valid_update _ _ o); [done|done|]. rewrite Eb in Hr'. by apply (i_closed _ _ _ HI p o).
    + apply (valid_update _ _ o); [done|done|]. by apply (i_closed _ _ _ HI q oq).
  - intros r' Hr'. rewrite Eh. apply (valid_update _ _ o); [done|done|]. apply (i_pend _ _ _ HI). by eapply consumed_in.
  - intros q oq Eq. rewrite Eh in Eq. apply lookup_insert_Some in Eq as [[<- <-]|[Hne Eq]]; [done|].
    apply (obj_ok_same X X pend0 pend s); try done.
    + by apply HI.
    + by apply HP.
    + rewrite Eh, (refcnt_update _ _ _ _ _ o) by done. by apply (consumed_refcnt p).
    + rewrite Eh, (weakcnt_update _ _ _ _ _ o) by done. by apply (consumed_weakcnt p).
    + intros c Hl. rewrite Eh. apply (link_ok_update _ _ _ _ o); [done|done|].
      destruct Hl as [Hl|?]; [left; by apply (consumed_module p pend0)|by right].
  - intros q Hq. rewrite Eh. apply (i_dying _ _ _ HI) in Hq. by apply lookup_insert_is_Some'; right.
  - done.
  - intros q Hq. rewrite Eh. apply lookup_insert_is_Some'. destruct (decide (p = q)) as [|Hne]; [by left|right].
    apply (i_listed _ _ _ HI). apply (same_place_lists s s'); [by apply HP|done].
  - intros q Hq. destruct (i_kept _ _ _ HI q Hq) as (oq & Eq & Hf & HX & Hcl). rewrite Eh.
    destruct (decide (q = p)) as [->|Hne].
    + exists o'. rewrite lookup_insert_eq. rewrite E in Eq. simplify_eq. unfold freed. rewrite Eb. by split_and!.
    + exists oq. rewrite lookup_insert_ne by done. by split_and!.
  - intros q Hq. destruct (i_support _ _ _ HI q Hq) as [|(q' & oq & r' & Hq' & Eq & Hr' & Hs)]; [by left|right].
    rewrite Eh. destruct (decide (q' = p)) as [->|Hne].
    + exists p, o', r'. rewrite lookup_insert_eq, Eb. rewrite E in Eq. by simplify_eq.
    + exists q', oq, r'. by rewrite lookup_insert_ne.
  - rewrite Hph. apply HI.
  - intros Hd. apply Htmp, HI. congruence.
Qed.

Lemma inv_write X pend0 pend s p o o' : inv X pend0 s -> consumed p pend0 pend -> heap s !! p = Some o ->
  body o' = body o -> obj_ok X pend (write p o' s) p o' -> inv X pend (write p o' s).
Proof.
  intros HI Hc E Eb Hok. apply (inv_step X pend0 pend s _ p o o'); try done. apply HI.
Qed.

(** What a release leaves unchanged. *)
Record frame (X : gset ptr) (s s' : JSRuntime) : Prop := {
  fr_phase : gc_phase s' = gc_phase s;
  fr_body p o' : heap s' !! p = Some o' -> exists o, heap s !! p = Some o /\ body o' = body o;
  fr_kept p : p ∈ X \/ p ∈ S -> is_Some (heap s !! p) -> is_Some (heap s' !! p);
  fr_tmp : sublist (tmp_obj_list s') (tmp_obj_list s);
}.

Lemma frame_refl X s : frame X s s.
Proof. split; [done|eauto|done|done]. Qed.

Lemma frame_trans X s1 s2 s3 : frame X s1 s2 -> frame X s2 s3 -> frame X s1 s3.
Proof.
  intros H1 H2. split.
  - rewrite (fr_phase _ _ _ H2). apply H1.
  - intros p o3 E3. destruct (fr_body _ _ _ H2 p o3 E3) as (o2 & E2 & B2).
    destruct (fr_body _ _ _ H1 p o2 E2) as (o1 & E1 & B1). exists o1. split; [done|congruence].
  - intros p Hp Hs. apply (fr_kept _ _ _ H2); [done|]. by apply (fr_kept _ _ _ H1).
  - by etrans; [apply H2|apply H1].
Qed.

Lemma frame_weaken X X' s s' : X' ⊆ X -> frame X s s' -> frame X' s s'.
Proof. intros HX []. split; try done. intros p [Hp|Hp]; apply fr_kept0; [left; set_solver|by right]. Qed.

Lemma frame_write X s p o o' : heap s !! p = Some o -> body o' = body o -> frame X s (write p o' s).
Proof.
  intros E Eb. split; cbn.
  - done.
  - intros q oq [[<- <-]|[Hne Eq]]%lookup_insert_Some; eauto.
  - intros q _ Hs. by apply lookup_insert_is_Some'; right.
  - done.
Qed.

(** [f] releases [pend1], and nothing else of [pend1 ++ pend]. *)
Definition releases (X : gset ptr) (pend1 : list Ref) (f : JSRuntime -> option JSRuntime) : Prop :=
  forall pend s, inv X (pend1 ++ pend) s ->
  exists s', f s = Some s' /\ inv X pend s' /\ frame X s s'.

Lemma releases_foldM {A} X (k : A -> Ref) (f : JSRuntime -> A -> option JSRuntime) l :
  (forall x, x ∈ l -> releases X [k x] (fun s => f s x)) -> releases X (k <$> l) (foldM f l).
Proof.
  induction l as [|x l IH]; intros Hf pend s HI.
  - exists s. split; [done|]. split; [done|apply frame_refl].
  - destruct (Hf x ltac:(by left) (fmap (M:=list) k l ++ pend) s HI) as (s1 & E1 & HI1 & F1).
    destruct (IH ltac:(intros; apply Hf; by right) pend s1 HI1) as (s2 & E2 & HI2 & F2).
    exists s2. cbn. rewrite E1. cbn. split; [done|]. split; [done|by eapply frame_trans].
Qed.

Lemma releases_app X l1 l2 f1 f2 : releases X l1 f1 -> releases X l2 f2 ->
  releases X (l1 ++ l2) (fun s => s ← f1 s; f2 s).
Proof.
  intros H1 H2 pend s HI. rewrite <- app_assoc in HI. destruct (H1 _ s HI) as (s1 & E1 & HI1 & F1).
  destruct (H2 pend s1 HI1) as (s2 & E2 & HI2 & F2). exists s2. rewrite E1. cbn.
  split; [done|]. split; [done|by eapply frame_trans].
Qed.

(** ** Values *)

Lemma lists_list_del p s : lists (list_del p s) = unlink p (lists s).
Proof. unfold lists. cbn. by rewrite !unlink_app. Qed.

Lemma same_place_list_del p q s : q <> p -> same_place s (list_del p s) q.
Proof. intros Hq. unfold same_place. cbn. rewrite !elem_of_unlink. tauto. Qed.

Lemma strong_weak r p : strong r = Some p -> weak r <> Some p.
Proof. destruct r; cbn; congruence. Qed.

(** The target of a pending counted reference. *)
Lemma pending_target X r pend s p : inv X (r :: pend) s -> strong r = Some p ->
  exists o, heap s !! p = Some o /\ ref_type r (gc_obj_type o) /\ obj_ok X (r :: pend) s p o /\
    1 <= ref_count o /\ ~ (freed o = true /\ mark o = 0) /\
    (deferred (gc_obj_type o) = false -> p ∉ X).
Proof.
  intros HI Hs. destruct (i_pend _ _ _ HI r ltac:(by left)) as (o & Eo & Ht).
  rewrite (strong_target _ _ Hs) in Eo. pose proof (i_obj _ _ _ HI p o Eo) as Ho. exists o.
  pose proof (refcnt_pend X (r :: pend) p (heap s) r ltac:(by left) Hs). pose proof (i_ext _ _ _ HI p).
  pose proof (ok_covered _ _ _ _ _ Ho). split_and!; try done; [lia| |].
  - intros [Hf Hm]. destruct (ok_shell _ _ _ _ _ Ho Hf Hm) as [? _]. lia.
  - intros Hd HX. destruct (ok_immediate _ _ _ _ _ Ho Hd) as [_ Hrc]. rewrite decide_True in Hrc by done. lia.
Qed.

(** A count that stays positive. *)
Lemma obj_ok_count X r pend s p o : obj_ok X (r :: pend) s p o -> heap s !! p = Some o -> strong r = Some p ->
  1 < ref_count o -> r <> RModule p \/ link o = None ->
  obj_ok X pend (write p (with_count (ref_count o - 1) o) s) p (with_count (ref_count o - 1) o).
Proof.
  intros Ho Eo Hs Hn Hl.
  assert (HN : refcnt X pend p (heap (write p (with_count (ref_count o - 1) o) s)) = refcnt X (r :: pend) p (heap s) - 1).
  { cbn. rewrite (refcnt_update _ _ _ _ _ o), refcnt_cons by done. rewrite decide_True by done. lia. }
  assert (HW : weakcnt X pend p (heap (write p (with_count (ref_count o - 1) o) s)) = weakcnt X (r :: pend) p (heap s)).
  { cbn. rewrite (weakcnt_update _ _ _ _ _ o), weakcnt_cons by done. rewrite decide_False by (by apply strong_weak). lia. }
  destruct Ho. split; rewrite ?HN, ?HW; cbn; unfold freed in *; cbn; try done.
  - lia.
  - intros Hex. specialize (ok_exact0 Hex). lia.
  - intros Hi. destruct (ok_immediate0 Hi) as [? H0]. split; [done|]. case_decide; lia.
  - intros Hf Hm. destruct (ok_shell0 Hf Hm) as [? _]. lia.
  - lia.
  - intros HX. destruct (ok_dying0 HX) as [? Hd]. split; [done|]. intros Hp. specialize (Hd Hp). lia.
  - intros c Hc. apply (link_ok_update _ _ _ _ o); [done|done|]. destruct Hl as [Hl|Hl]; [|congruence].
    destruct (ok_link0 c Hc) as [[?|?]%elem_of_cons|?]; [congruence|by left|by right].
  - intros Hd. specialize (ok_decref0 Hd). destruct (match body o with BFreed _ => true | _ => false end); [done|].
    destruct ok_decref0 as [D1 D2]. split; [|done]. change (gc_obj_type (with_count _ o)) with (gc_obj_type o).
    destruct (deferred _); [|done]. split; [lia|]. intros HZ%D1. lia.
Qed.

Lemma kept_not_last X r pend s p o : inv X (r :: pend) s -> heap s !! p = Some o -> strong r = Some p -> p ∈ S ->
  1 < ref_count o.
Proof.
  intros HI Eo Hs Hp. pose proof (kept_counted _ _ _ _ HI Hp). pose proof (i_obj _ _ _ HI p o Eo) as Ho.
  pose proof (ok_covered _ _ _ _ _ Ho) as H1. unfold refcnt in H1. rewrite cnt_cons, decide_True in H1 by done.
  pose proof (cnt_nonneg p pend). lia.
Qed.

(** The count of a deferred object that reaches zero. *)
Lemma obj_ok_zero X r pend s s' p o m : inv X (r :: pend) s -> obj_ok X (r :: pend) s p o -> heap s !! p = Some o -> strong r = Some p ->
  ref_count o = 1 -> r <> RModule p \/ link o = None -> deferred (gc_obj_type o) = true ->
  ~ (freed o = true /\ mark o = 0) ->
  heap s' = <[p := with_mark m (with_count 0 o)]> (heap s) -> gc_phase s' = gc_phase s ->
  (gc_phase s = JS_GC_PHASE_REMOVE_CYCLES -> m = mark o /\ same_place s s' p) ->
  (gc_phase s = JS_GC_PHASE_DECREF -> p ∈ gc_zero_ref_count_list s' /\ (gc_obj_type o = JS_GC_OBJ_TYPE_JS_OBJECT -> m <> 0)) ->
  obj_ok X pend s' p (with_mark m (with_count 0 o)).
Proof.
  intros HI Ho Eo Hs Hn Hl Hdef Hsh Eh Hph Hrem Hdec.
  assert (HN : refcnt X pend p (heap s') = refcnt X (r :: pend) p (heap s) - 1).
  { rewrite Eh, (refcnt_update _ _ _ _ _ o), refcnt_cons by done. rewrite decide_True by done. lia. }
  assert (HW : weakcnt X pend p (heap s') = weakcnt X (r :: pend) p (heap s)).
  { rewrite Eh, (weakcnt_update _ _ _ _ _ o), weakcnt_cons by done. rewrite decide_False by (by apply strong_weak). lia. }
  assert (HS : p ∉ S) by (intros HS; pose proof (kept_not_last _ _ _ _ _ _ HI Eo Hs HS); lia).
  pose proof (i_phase _ _ _ HI) as Hphase.
  destruct Ho. assert (Hfd : gc_phase s = JS_GC_PHASE_DECREF -> freed o = false).
  { intros Hd. specialize (ok_decref0 Hd). destruct (freed o); [|done]. by destruct Hsh. }
  change (freed (with_mark m (with_count 0 o))) with (freed o).
  split; rewrite ?HN, ?HW, ?Hph; cbn; change (freed (with_mark m (with_count 0 o))) with (freed o);
    change (gc_obj_type (with_mark m (with_count 0 o))) with (gc_obj_type o); try done.
  - lia.
  - intros Hex. specialize (ok_exact0 Hex). lia.
  - congruence.
  - intros Hf Hm. destruct (gc_phase s) eqn:Ep; [done|by rewrite Hfd in Hf|].
    destruct (Hrem eq_refl) as [-> _]. by destruct Hsh.
  - intros Hf Ht _. destruct (gc_phase s) eqn:Ep; [done|by apply Hdec|]. destruct (Hrem eq_refl) as [-> _].
    intros Hm. apply HS. destruct (ok_remove0 eq_refl) as [HrS _]. by apply HrS.
  - intros HX. by destruct (ok_dying0 HX).
  - intros Hor. destruct (gc_phase s) eqn:Ep; [done| |].
    + unfold lists. rewrite !elem_of_app. right; right. by apply Hdec.
    + destruct (Hrem eq_refl) as [-> HP]. apply (same_place_lists s s'); [done|]. by apply ok_listed0.
  - intros c Hc. rewrite Eh. apply (link_ok_update _ _ _ _ o); [done|done|]. destruct Hl as [Hl|Hl]; [|congruence].
    destruct (ok_link0 c Hc) as [[?|?]%elem_of_cons|?]; [congruence|by left|by right].
  - intros Hd. rewrite (Hfd Hd), Hdef. destruct (Hdec Hd) as [HZ _]. split; [done|]. intros Hnz. by destruct Hnz.
  - intros Hr. destruct (Hrem Hr) as [-> (P1 & P2 & P3)]. rewrite P1, P2, P3. by apply ok_remove0.
Qed.

Lemma frame_defer X s p o o' : heap s !! p = Some o -> body o' = body o ->
  frame X s (set_zero_list (p :: gc_zero_ref_count_list (list_del p s)) (write p o' (list_del p s))).
Proof.
  intros E Eb. split; cbn.
  - done.
  - intros q oq [[<- <-]|[Hne Eq]]%lookup_insert_Some; eauto.
  - intros q _ Hs. by apply lookup_insert_is_Some'; right.
  - apply sublist_filter.
Qed.

(** The count of a deferred object goes down; at zero it is queued. *)
Lemma deferred_step zero marked X r pend s p o : inv X (r :: pend) s -> strong r = Some p ->
  heap s !! p = Some o -> 1 <= ref_count o -> ~ (freed o = true /\ mark o = 0) ->
  deferred (gc_obj_type o) = true -> (marked = false -> gc_obj_type o <> JS_GC_OBJ_TYPE_JS_OBJECT) ->
  r <> RModule p \/ link o = None ->
  let s1 := write p (with_count (ref_count o - 1) o) s in
  exists s',
    (if ref_count o - 1 =? 0 then
       if decide (gc_phase s1 = JS_GC_PHASE_REMOVE_CYCLES) then Some s1 else defer zero marked s1 p
     else Some s1) = Some s' /\ inv X pend s' /\ frame X s s'.
Proof.
  intros HI Hs Eo Hrc Hsh Hd Hm Hl s1. assert (Hc : consumed p (r :: pend) pend) by (right; exists r; split; [by apply strong_target|done]).
  pose proof (i_obj _ _ _ HI p o Eo) as Ho.
  destruct (Z.eqb_spec (ref_count o - 1) 0) as [E0|E0].
  2: { exists s1. split; [done|]. split; [|by apply (frame_write _ _ _ o)].
       apply (inv_write X (r :: pend) _ _ _ o); [done|done|done|done|]. apply (obj_ok_count X r); [done|done|done|lia|done]. }
  assert (E1 : s1 = write p (with_count 0 o) s) by (unfold s1; by rewrite E0). rewrite E1.
  change (gc_phase (write p (with_count 0 o) s)) with (gc_phase s). case_decide as Hph.
  - exists (write p (with_count 0 o) s). split; [done|]. split; [|by apply (frame_write _ _ _ o)].
    apply (inv_write X (r :: pend) _ _ _ o); [done|done|done|done|].
    apply (obj_ok_zero X r pend s _ p o (mark o)); try done; [lia|congruence].
  - unfold defer. cbn. rewrite lookup_insert_eq. cbn. rewrite decide_False.
    2: { pose proof (i_phase _ _ _ HI). destruct marked; done. }
    set (m := if marked then 1 else mark o).
    set (s' := set_zero_list (p :: gc_zero_ref_count_list (list_del p s)) (write p (with_mark m (with_count 0 o)) (list_del p s))).
    assert (Es : (if marked then
         write p (with_mark 1 (with_count 0 o)) (set_zero_list (p :: gc_zero_ref_count_list (list_del p (write p (with_count 0 o) s))) (list_del p (write p (with_count 0 o) s)))
       else set_zero_list (p :: gc_zero_ref_count_list (list_del p (write p (with_count 0 o) s))) (list_del p (write p (with_count 0 o) s))) = s').
    { unfold s', m, write, set_heap, set_zero_list, list_del. destruct marked; cbn; f_equal.
      by rewrite insert_insert_eq. }
    cbn in Es. rewrite Es. exists s'. split; [done|]. split; [|by apply (frame_defer _ _ _ o)].
    apply (inv_step X (r :: pend) pend s s' p o (with_mark m (with_count 0 o))); try done.
    + assert (HP : lists s' ≡ₚ p :: unlink p (lists s)).
      { unfold s', lists. cbn. rewrite !unlink_app, !app_assoc. by rewrite <- Permutation_middle. }
      rewrite HP. apply NoDup_cons. split; [|apply NoDup_unlink, HI]. rewrite elem_of_unlink. tauto.
    + intros q Hq. destruct (same_place_list_del p q s Hq) as (P1 & P2 & P3). unfold s', same_place. cbn in *.
      rewrite P1, P2. rewrite elem_of_cons, P3. naive_solver.
    + cbn. intros ->. done.
    + apply (obj_ok_zero X r pend s s' p o m); try done; [lia|].
      intros _. split; [by left|]. unfold m. destruct marked; [done|]. intros Ht. by destruct (Hm eq_refl).
Qed.

Lemma free_value_step zero X r pend s p o : inv X (r :: pend) s -> strong r = Some p -> heap s !! p = Some o ->
  is_value (gc_obj_type o) = true -> r <> RModule p \/ link o = None ->
  exists s', JS_FreeValueRT zero s p = Some s' /\ inv X pend s' /\ frame X s s'.
Proof.
  intros HI Hs Eo Ht Hl. destruct (pending_target X r pend s p HI Hs) as (o' & Eo' & _ & Ho & Hrc & Hsh & _).
  rewrite Eo in Eo'. simplify_eq. destruct (deferred_step zero true X r pend s p o') as (s' & E & HI' & HF); try done.
  - by destruct (gc_obj_type o').
  - exists s'. split; [|done]. rewrite <- E. unfold JS_FreeValueRT. rewrite Eo. cbn [mbind option_bind].
    destruct (Z.eqb_spec (ref_count o' - 1) 0) as [e|]; [by rewrite e|].
    by replace (ref_count o' - 1 <=? 0) with false by lia.
Qed.

Lemma releases_value zero X p : releases X [RValue p] (fun s => JS_FreeValueRT zero s p).
Proof.
  intros pend s HI. destruct (i_pend _ _ _ HI (RValue p) ltac:(by left)) as (o & Eo & Ht).
  apply (free_value_step zero X (RValue p) pend s p o); try done. by left.
Qed.

Lemma releases_module zero X p : releases X [RModule p] (fun s => js_free_modules zero s p).
Proof.
  intros pend s HI. destruct (i_pend _ _ _ HI (RModule p) ltac:(by left)) as (o & Eo & Ht). cbn in Eo, Ht.
  pose proof (i_obj _ _ _ HI p o Eo) as Ho. set (s1 := write p (with_link None o) s).
  assert (HI1 : inv X (RModule p :: pend) s1).
  { apply (inv_write X (RModule p :: pend) _ _ _ o); try done; [by left|]. destruct Ho.
    split; unfold s1; cbn; rewrite ?(refcnt_update _ _ _ _ _ o), ?(weakcnt_update _ _ _ _ _ o) by done; done. }
  destruct (free_value_step zero X (RModule p) pend s1 p (with_link None o)) as (s' & E & HI' & HF); try done.
  - unfold s1. cbn. by rewrite lookup_insert_eq.
  - change (gc_obj_type (with_link None o)) with (gc_obj_type o). by rewrite Ht.
  - by right.
  - exists s'. unfold js_free_modules, set_link. rewrite Eo. cbn [mbind option_bind]. split; [done|]. split; [done|].
    eapply frame_trans; [|exact HF]. by apply (frame_write _ _ _ o).
Qed.

Lemma releases_async zero X p : releases X [RAsync p] (fun s => async_func_free zero s p).
Proof.
  intros pend s HI. destruct (pending_target X (RAsync p) pend s p HI eq_refl) as (o & Eo & Ht & Ho & Hrc & Hsh & _).
  cbn in Ht. destruct (deferred_step zero false X (RAsync p) pend s p o) as (s' & E & HI' & HF); try done.
  - by rewrite Ht.
  - by rewrite Ht.
  - by left.
  - exists s'. split; [|done]. rewrite <- E. unfold async_func_free. by rewrite Eo.
Qed.

(** ** Variable references, shapes and contexts *)

Lemma not_in_open (X : gset ptr) c p : c ∉ X -> c <> p -> c ∉ X ∪ {[p]}.
Proof. intros Hc Hp [?|?%elem_of_singleton]%elem_of_union; done. Qed.

(** The last reference to [p] is released: its own references become the ones to
    release. *)
Lemma imm_open X r pend s p o : inv X (r :: pend) s -> strong r = Some p -> heap s !! p = Some o ->
  deferred (gc_obj_type o) = false -> r <> RModule p -> ref_count o = 1 ->
  p ∉ X /\ inv (X ∪ {[p]}) (body_refs (body o) ++ pend) (write p (with_count 0 o) s).
Proof.
  intros HI Hs Eo Hd Hr Hn. pose proof (i_obj _ _ _ HI p o Eo) as Ho.
  destruct (pending_target X r pend s p HI Hs) as (o' & Eo' & _ & _ & _ & _ & HX).
  rewrite Eo in Eo'. simplify_eq. specialize (HX Hd). split; [done|].
  assert (HS : p ∉ S) by (intros HS; pose proof (kept_not_last _ _ _ _ _ _ HI Eo Hs HS); lia).
  set (o0 := with_count 0 o'). set (s' := write p o0 s).
  assert (HN : forall q, refcnt (X ∪ {[p]}) (body_refs (body o') ++ pend) q (heap s') = refcnt X pend q (heap s)).
  { intros q. unfold s'. cbn. rewrite (refcnt_update _ _ _ _ _ o') by done. by apply refcnt_open. }
  assert (HW : forall q, weakcnt (X ∪ {[p]}) (body_refs (body o') ++ pend) q (heap s') = weakcnt X pend q (heap s)).
  { intros q. unfold s'. cbn. rewrite (weakcnt_update _ _ _ _ _ o') by done. by apply weakcnt_open. }
  assert (Hlink : forall q c, RModule q <> r -> link_ok X (r :: pend) (heap s) q c ->
    link_ok (X ∪ {[p]}) (body_refs (body o') ++ pend) (heap s') q c).
  { intros q c Hq [[E|E]%elem_of_cons|(Hc & oc & ms & vs & shs & Ec & Eb & Hm)].
    - by destruct Hq.
    - left. apply elem_of_app. by right.
    - destruct (decide (c = p)) as [->|Hcp].
      + left. apply elem_of_app. left. rewrite Eo in Ec. simplify_eq. rewrite Eb. cbn. apply elem_of_app. left.
        by apply list_elem_of_fmap_2.
      + right. split; [by apply not_in_open|]. exists oc, ms, vs, shs. unfold s'. cbn. by rewrite lookup_insert_ne. }
  split.
  - apply HI.
  - intros q oq r' Eq Hq Hr'. apply not_elem_of_union in Hq as [HqX Hqp]. apply not_elem_of_singleton in Hqp.
    apply (valid_update _ _ o'); [done|done|]. unfold s' in Eq. cbn in Eq. rewrite lookup_insert_ne in Eq by done.
    by apply (i_closed _ _ _ HI q oq).
  - intros r' Hr'. apply (valid_update _ _ o'); [done|done|]. apply elem_of_app in Hr' as [Hr'|Hr'].
    + by apply (i_closed _ _ _ HI p o').
    + apply (i_pend _ _ _ HI). by right.
  - intros q oq Eq. unfold s' in Eq. cbn in Eq. apply lookup_insert_Some in Eq as [[<- <-]|[Hne Eq]].
    + assert (HpX : p ∈ X ∪ {[p]}) by (apply elem_of_union_r, elem_of_singleton; done).
      pose proof (refcnt_cons X r pend p (heap s)) as Hrn. rewrite decide_True in Hrn by done.
      pose proof (weakcnt_cons X r pend p (heap s)) as Hwn. rewrite decide_False in Hwn by (by apply strong_weak).
      destruct Ho. destruct (ok_immediate0 Hd) as [Hf _]. specialize (ok_exact0 (or_introl (conj Hf HX))).
      change (freed o') with (freed o0) in Hf. change (gc_obj_type o') with (gc_obj_type o0) in Hd.
      split; rewrite ?HN, ?HW; try done; try (cbn; lia); try congruence.
      * intros _. split; [done|]. by rewrite decide_True.
      * intros _ Ht. by rewrite Ht in Hd.
      * intros c Hc. apply Hlink; [congruence|]. by apply ok_link0.
      * intros Hp. specialize (ok_decref0 Hp). change (freed o') with (freed o0) in ok_decref0.
        rewrite Hf, Hd. rewrite Hf in ok_decref0. change (gc_obj_type o') with (gc_obj_type o0) in ok_decref0. by rewrite Hd in ok_decref0.
    + apply (obj_ok_same X _ (r :: pend) _ s); try done.
      * by apply HI.
      * split; [intros [?|?%elem_of_singleton]%elem_of_union; [done|congruence]|by apply elem_of_union_l].
      * rewrite HN, refcnt_cons, decide_False; [lia|]. congruence.
      * rewrite HW, weakcnt_cons, decide_False; [lia|]. destruct r; cbn in *; congruence.
      * intros c. apply Hlink. intros <-. cbn in Hs. congruence.
  - intros q Hq. apply lookup_insert_is_Some'. apply elem_of_union in Hq as [Hq|Hq%elem_of_singleton]; [right|by left].
    by apply (i_dying _ _ _ HI).
  - apply HI.
  - intros q Hq. apply lookup_insert_is_Some'. right. by apply (i_listed _ _ _ HI).
  - intros q Hq. destruct (i_kept _ _ _ HI q Hq) as (oq & Eq & Hf & HqX & Hcl). exists oq.
    unfold s'. cbn. rewrite lookup_insert_ne by (intros ->; done). split_and!; try done. apply not_in_open; [done|]. by intros ->.
  - intros q Hq. destruct (i_support _ _ _ HI q Hq) as [|(q' & oq & r' & Hq' & Eq & Hr' & Hs')]; [by left|right].
    exists q', oq, r'. unfold s'. cbn. rewrite lookup_insert_ne by (intros ->; done). done.
  - apply HI.
  - apply HI.
Qed.

(** An object without references and without reference to it can go. *)
Lemma inv_drop X X' pend0 pend s p o : inv X pend0 s -> consumed p pend0 pend -> heap s !! p = Some o ->
  refs_in X p o = [] -> refcnt X pend p (heap s) = 0 -> weakcnt X pend p (heap s) = 0 -> p ∉ S ->
  (forall q, q <> p -> q ∈ X <-> q ∈ X') -> p ∉ X' ->
  inv X' pend (remove_and_free p s) /\ frame X' s (remove_and_free p s).
Proof.
  intros HI Hcons Eo Hrefs HN HW HS HX HpX.
  assert (Hnone : forall r, (r ∈ pend \/ exists q oq, heap s !! q = Some oq /\ q ∉ X /\ r ∈ body_refs (body oq)) -> target r <> p).
  { intros r Hr Ht. destruct (strong r) as [p'|] eqn:Es.
    - pose proof (strong_target _ _ Es) as Et. assert (p' = p) as -> by congruence.
      destruct Hr as [Hr|(q & oq & Eq & Hq & Hr)].
      + pose proof (refcnt_pend X pend p (heap s) r Hr Es). lia.
      + pose proof (refcnt_ref X pend p (heap s) q oq r Eq Hq Hr Es). lia.
    - assert (r = RWeak p) as -> by (destruct r; cbn in *; congruence).
      destruct Hr as [Hr|(q & oq & Eq & Hq & Hr)].
      + pose proof (weakcnt_pend X pend p (heap s) Hr). lia.
      + pose proof (weakcnt_ref X pend p (heap s) q oq Eq Hq Hr). lia. }
  assert (Hvalid : forall r, target r <> p -> valid (heap s) r -> valid (delete p (heap s)) r).
  { intros r Hr (ot & Et & Ht). exists ot. by rewrite lookup_delete_ne. }
  assert (Hin : forall q, q <> p -> q ∉ X' -> q ∉ X) by (intros q Hq Hn Hx; apply Hn; by apply HX).
  split; [split|split]; cbn.
  - apply HI.
  - intros q oq r [Hq Eq]%lookup_delete_Some HqX Hr. assert (q ∉ X) by (apply Hin; [congruence|done]).
    apply Hvalid; [apply Hnone; right; eauto 10|by apply (i_closed _ _ _ HI q oq)].
  - intros r Hr. apply Hvalid; [apply Hnone; by left|apply (i_pend _ _ _ HI); by eapply consumed_in].
  - intros q oq [Hq Eq]%lookup_delete_Some. apply (obj_ok_same X X' pend0 pend s); cbn; try done.
    + by apply HI.
    + apply same_place_list_del. congruence.
    + symmetry. apply HX. congruence.
    + rewrite (refcnt_delete X X' pend q _ p o) by done. by apply (consumed_refcnt p).
    + rewrite (weakcnt_delete X X' pend q _ p o) by done. by apply (consumed_weakcnt p).
    + intros c [Hl|(Hc & oc & ms & vs & shs & Ec & Eb & Hm)]; [left; by eapply consumed_module|right].
      assert (c <> p).
      { intros ->. rewrite Eo in Ec. simplify_eq. unfold refs_in in Hrefs. rewrite decide_False, Eb in Hrefs by done.
        cbn in Hrefs. destruct ms; [by apply not_elem_of_nil in Hm|done]. }
      split; [by intros ?%HX|]. exists oc, ms, vs, shs. by rewrite lookup_delete_ne.
  - intros q Hq. rewrite lookup_delete_ne by (intros ->; done). apply (i_dying _ _ _ HI). apply HX; [|done]. by intros ->.
  - rewrite <- !unlink_app. apply NoDup_unlink, HI.
  - intros q Hq. unfold lists in Hq. cbn in Hq. rewrite <- !unlink_app, elem_of_unlink in Hq. destruct Hq as [Hq Hl].
    rewrite lookup_delete_ne by congruence. by apply (i_listed _ _ _ HI).
  - intros q Hq. destruct (i_kept _ _ _ HI q Hq) as (oq & Eq & Hf & HqX & Hcl). assert (q <> p) by (by intros ->).
    exists oq. rewrite lookup_delete_ne by done. split_and!; try done. by intros ?%HX.
  - intros q Hq. destruct (i_support _ _ _ HI q Hq) as [|(q' & oq & r & Hq' & Eq & Hr & Hs)]; [by left|right].
    exists q', oq, r. rewrite lookup_delete_ne; [done|]. by intros ->.
  - apply HI.
  - intros Hd. by rewrite (i_tmp _ _ _ HI Hd).
  - done.
  - intros q oq [Hq Eq]%lookup_delete_Some. eauto.
  - intros q Hq Hs. rewrite lookup_delete_ne; [done|]. intros ->. by destruct Hq.
  - apply sublist_filter.
Qed.

(** A count that is zero covers no reference. *)
Lemma zero_unreferenced X pend s p o : inv X pend s -> heap s !! p = Some o -> ref_count o = 0 ->
  refcnt X pend p (heap s) = 0 /\ p ∉ S.
Proof.
  intros HI Eo Hrc. pose proof (ok_covered _ _ _ _ _ (i_obj _ _ _ HI p o Eo)) as Hcov. rewrite Hrc in Hcov.
  pose proof (i_ext _ _ _ HI p). pose proof (refcnt_nonneg X pend p (heap s)). split; [lia|].
  intros HS. pose proof (kept_counted _ _ _ _ HI HS). unfold refcnt in *. pose proof (cnt_nonneg p pend). lia.
Qed.

Lemma imm_close X pend s p o : inv (X ∪ {[p]}) pend s -> p ∉ X -> heap s !! p = Some o ->
  deferred (gc_obj_type o) = false ->
  inv X pend (remove_and_free p s) /\ frame X s (remove_and_free p s).
Proof.
  intros HI HX Eo Hd. assert (HpX : p ∈ X ∪ {[p]}) by (apply elem_of_union_r, elem_of_singleton; done).
  pose proof (i_obj _ _ _ HI p o Eo) as Ho.
  destruct (ok_immediate _ _ _ _ _ Ho Hd) as [_ H0]. rewrite decide_True in H0 by done.
  destruct (zero_unreferenced _ _ _ _ _ HI Eo H0) as [HN HS].
  apply (inv_drop (X ∪ {[p]}) X pend pend s p o); try done.
  - by left.
  - unfold refs_in. by rewrite decide_True.
  - pose proof (weakcnt_nonneg (X ∪ {[p]}) pend p (heap s)).
    destruct (Z.eq_dec (weakcnt (X ∪ {[p]}) pend p (heap s)) 0) as [|Hw]; [done|].
    (* weak references are to objects *)
    assert (Hr : valid (heap s) (RWeak p)).
    { unfold weakcnt in *. pose proof (wcnt_nonneg p pend).
      destruct (Z.lt_ge_cases 0 (wcnt p pend)) as [Hp%wcnt_pos|]; [by apply (i_pend _ _ _ HI)|].
      destruct (hsum_witness (fun q o => wcnt p (refs_in (X ∪ {[p]}) q o)) (heap s)) as (q & oq & Eq & Hq); [lia|].
      cbv beta in Hq. apply wcnt_pos in Hq. unfold refs_in in Hq. case_decide; [by apply not_elem_of_nil in Hq|].
      by apply (i_closed _ _ _ HI q oq). }
    destruct Hr as (o' & Eo' & Ht). cbn in Eo', Ht. rewrite Eo in Eo'. simplify_eq. by rewrite Ht in Hd.
  - intros q Hq. rewrite elem_of_union, elem_of_singleton. naive_solver.
Qed.

(** The release of a variable reference, a shape or a context: [g] releases what it
    holds. *)
Lemma releases_immediate X r p (f : JSRuntime -> option JSRuntime) (g : GCObject -> JSRuntime -> option JSRuntime) :
  strong r = Some p -> r <> RModule p -> (forall t, ref_type r t -> deferred t = false) ->
  (forall s o, heap s !! p = Some o -> ref_type r (gc_obj_type o) -> freed o = false -> 1 <= ref_count o ->
    f s = let n := ref_count o - 1 in
          let s := write p (with_count n o) s in
          if n =? 0 then s ← g o s; Some (remove_and_free p s) else Some s) ->
  (forall o, ref_type r (gc_obj_type o) -> freed o = false -> releases (X ∪ {[p]}) (body_refs (body o)) (g o)) ->
  releases X [r] f.
Proof.
  intros Hs Hr Htype Hf Hg pend s HI. cbn in HI.
  destruct (pending_target X r pend s p HI Hs) as (o & Eo & Ht & Ho & Hrc & _ & _). pose proof (Htype _ Ht) as Hd.
  destruct (ok_immediate _ _ _ _ _ Ho Hd) as [Hfr _]. rewrite (Hf s o) by done. cbv zeta.
  destruct (Z.eqb_spec (ref_count o - 1) 0) as [E0|E0].
  - destruct (imm_open X r pend s p o) as [HX HI1]; try done; [lia|]. rewrite E0.
    destruct (Hg o Ht Hfr pend _ HI1) as (s2 & E2 & HI2 & F2). rewrite E2. cbn [mbind option_bind].
    destruct (fr_kept _ _ _ F2 p) as [o2 Eo2].
    { left. apply elem_of_union_r, elem_of_singleton. done. }
    { cbn. rewrite lookup_insert_eq. done. }
    destruct (fr_body _ _ _ F2 p o2 Eo2) as (o1 & Eo1 & B). cbn in Eo1. rewrite lookup_insert_eq in Eo1. simplify_eq.
    destruct (imm_close X pend s2 p o2 HI2 HX Eo2) as [HI3 F3].
    { unfold gc_obj_type in *. by rewrite B. }
    eexists. split; [done|]. split; [done|]. eapply frame_trans; [|exact F3].
    apply (frame_trans _ _ (write p (with_count 0 o) s)); [by apply (frame_write _ _ _ o)|].
    eapply frame_weaken; [|exact F2]. apply union_subseteq_l.
  - eexists. split; [done|]. split; [|by apply (frame_write _ _ _ o)].
    apply (inv_write X (r :: pend) _ _ _ o); try done; [right; exists r; split; [by apply strong_target|done]|].
    apply (obj_ok_count X r); try done; [lia|by left].
Qed.

Lemma releases_values zero X v : releases X (value_refs v) (foldM (JS_FreeValueRT zero) (JS_MarkValue v)).
Proof. apply releases_foldM. intros. apply releases_value. Qed.

Lemma values_refs_map l : values_refs l = RValue <$> mark_values l.
Proof. induction l as [|v l IH]; [done|]. cbn. rewrite fmap_app. by f_equal. Qed.

Lemma releases_var_ref zero X p : releases X [RVarRef p] (fun s => free_var_ref zero s p).
Proof.
  apply (releases_immediate X _ p _ (fun o s =>
    match body o with
    | JSVarRefDetached value => foldM (JS_FreeValueRT zero) (JS_MarkValue value) s
    | JSVarRefAttached async_func => foldM (async_func_free zero) (option_list async_func) s
    | _ => None
    end)); try done.
  - by intros t ->.
  - intros s o Eo Ht Hf Hrc. unfold free_var_ref. rewrite Eo. cbn [mbind option_bind].
    rewrite option_guard_True by lia. done.
  - intros o Ht Hf. cbn in Ht. unfold gc_obj_type, freed in *. destruct (body o); try done.
    + apply releases_values.
    + apply releases_foldM. intros. apply releases_async.
Qed.

Lemma releases_shape zero X p : releases X [RShape p] (fun s => js_free_shape zero s p).
Proof.
  apply (releases_immediate X _ p _ (fun o s =>
    match body o with JSShape proto => foldM (JS_FreeValueRT zero) (option_list proto) s | _ => None end)); try done.
  - by intros t ->.
  - intros s o Eo Ht Hf Hrc. unfold js_free_shape. rewrite Eo. cbn [mbind option_bind].
    destruct (Z.eqb_spec (ref_count o - 1) 0) as [E0|E0]; [|by replace (ref_count o - 1 <=? 0) with false by lia].
    rewrite E0. cbn [Z.leb Z.compare]. unfold js_free_shape0. cbn. rewrite lookup_insert_eq. cbn [mbind option_bind].
    rewrite option_guard_True by done. cbn. destruct (body o); done.
  - intros o Ht Hf. cbn in Ht. unfold gc_obj_type, freed in *. destruct (body o); try done.
    apply releases_foldM. intros. apply releases_value.
Qed.

Lemma releases_context zero X p : releases X [RContext p] (fun s => JS_FreeContext zero s p).
Proof.
  apply (releases_immediate X _ p _ (fun o s =>
    match body o with
    | JSContext modules values shapes =>
        s ← foldM (js_free_modules zero) modules s;
        s ← foldM (JS_FreeValueRT zero) (mark_values values) s;
        foldM (js_free_shape zero) (shapes ≫= option_list) s
    | _ => None
    end)); try done.
  - by intros t ->.
  - intros s o Eo Ht Hf Hrc. unfold JS_FreeContext. rewrite Eo. cbn [mbind option_bind].
    destruct (Z.eqb_spec (ref_count o - 1) 0) as [E0|E0]; [|by replace (0 <? ref_count o - 1) with true by lia].
    rewrite E0. cbn [Z.ltb Z.compare]. rewrite option_guard_True by done. destruct (body o); try done.
    destruct (foldM _ _ _) as [s1|]; [|done]. cbn. destruct (foldM _ _ s1); done.
  - intros o Ht Hf. cbn in Ht. unfold gc_obj_type, freed in *. destruct (body o); try done.
    cbn [body_refs]. apply releases_app; [apply releases_foldM; intros; apply releases_module|].
    rewrite values_refs_map. apply releases_app; apply releases_foldM; intros; [apply releases_value|apply releases_shape].
Qed.

(** ** Weak references *)

Lemma list_del_unlisted p s : p ∉ lists s -> list_del p s = s.
Proof.
  unfold lists. rewrite !not_elem_of_app. intros (H1 & H2 & H3). unfold list_del.
  rewrite !unlink_notin by done. by destruct s.
Qed.

Lemma releases_weak X p : releases X [RWeak p] (fun s => js_weakref_free s p).
Proof.
  intros pend s HI. cbn in HI. destruct (i_pend _ _ _ HI (RWeak p) ltac:(by left)) as (o & Eo & Ht). cbn in Eo, Ht.
  pose proof (i_obj _ _ _ HI p o Eo) as Ho. pose proof (ok_weak _ _ _ _ _ Ho) as Hw.
  pose proof (weakcnt_cons X (RWeak p) pend p (heap s)) as Hc. rewrite decide_True in Hc by done.
  pose proof (weakcnt_nonneg X pend p (heap s)). unfold js_weakref_free. rewrite Eo. cbn [mbind option_bind].
  rewrite option_guard_True by lia. cbn. set (o' := with_weak (weakref_count o - 1) o). set (s1 := write p o' s).
  assert (Hcons : consumed p (RWeak p :: pend) pend) by (right; by exists (RWeak p)).
  pose proof (refcnt_cons X (RWeak p) pend p (heap s)) as Hr. rewrite decide_False in Hr by done. rewrite Z.add_0_l in Hr.
  destruct (_ && _) eqn:Ez.
  - rewrite !andb_true_iff, !Z.eqb_eq in Ez. destruct Ez as [[Ew Er] Em].
    assert (Hf : freed o = true).
    { destruct (freed o) eqn:Ef; [done|]. by destruct (ok_mark _ _ _ _ _ Ho Ef Ht Er). }
    destruct (ok_shell _ _ _ _ _ Ho Hf Em) as (_ & Hl & _).
    assert (HX : p ∉ X) by (intros HX; destruct (ok_dying _ _ _ _ _ Ho HX) as [? _]; congruence).
    destruct (zero_unreferenced _ _ _ _ _ HI Eo Er) as [HN HS].
    destruct (inv_drop X X (RWeak p :: pend) pend s p o) as [HI2 F2]; try done; [|lia|].
    { unfold refs_in. case_decide; [done|]. unfold freed in Hf. by destruct (body o). }
    assert (Es : js_free_rt p s1 = remove_and_free p s).
    { unfold remove_and_free. rewrite list_del_unlisted by done. unfold s1, js_free_rt, write, set_heap. cbn.
      by rewrite delete_insert_eq. }
    exists (js_free_rt p s1). by rewrite Es.
  - exists s1. split; [done|]. split; [|by apply (frame_write _ _ _ o)].
    apply (inv_write X (RWeak p :: pend) _ _ _ o); try done. destruct Ho.
    split; unfold s1; cbn; rewrite ?(refcnt_update _ _ _ _ _ o), ?(weakcnt_update _ _ _ _ _ o), <- ?Hr by done; try done.
    + lia.
    + intros Hf Hm. destruct (ok_shell0 Hf Hm) as (S1 & S2 & S3 & S4). split_and!; try done.
      rewrite S1, Hm in Ez. lia.
    + intros c Hl. apply (link_ok_update _ _ _ _ o); [done|done|].
      destruct (ok_link0 c Hl) as [[?|?]%elem_of_cons|?]; [done|by left|by right].
Qed.

Lemma releases_ref zero X r : releases X [r] (fun s => free_ref zero s r).
Proof.
  destruct r; cbn [free_ref].
  - apply releases_value. - apply releases_var_ref. - apply releases_shape. - apply releases_context.
  - apply releases_async. - apply releases_weak. - apply releases_module.
Qed.

Lemma releases_refs zero X l : releases X l (foldM (free_ref zero) l).
Proof.
  rewrite <- (list_fmap_id l) at 1. apply releases_foldM. intros. apply releases_ref.
Qed.

(** ** Freeing an object *)

Lemma in_open (X : gset ptr) p : p ∈ X ∪ {[p]}.
Proof. by apply elem_of_union_r, elem_of_singleton. Qed.
Lemma open_other (X : gset ptr) p q : q <> p -> q ∈ X ∪ {[p]} <-> q ∈ X.
Proof. intros Hq. rewrite elem_of_union, elem_of_singleton. naive_solver. Qed.

(** The contents of [p] are about to be released. *)
Lemma inv_open s p o : inv ∅ [] s -> heap s !! p = Some o -> freed o = false -> p ∉ S ->
  deferred (gc_obj_type o) = true -> (gc_phase s = JS_GC_PHASE_DECREF -> ref_count o = 0) ->
  inv (∅ ∪ {[p]}) (body_refs (body o) ++ []) s.
Proof.
  intros HI Eo Hf HS Hd Hrc.
  assert (Hlink : forall q c, link_ok ∅ [] (heap s) q c -> link_ok (∅ ∪ {[p]}) (body_refs (body o) ++ []) (heap s) q c).
  { intros q c [E|(Hc & oc & ms & vs & shs & Ec & Eb & Hm)]; [by apply not_elem_of_nil in E|].
    right. split; [|by exists oc, ms, vs, shs]. apply not_in_open; [done|]. intros ->. rewrite Eo in Ec. simplify_eq.
    unfold gc_obj_type in Hd. by rewrite Eb in Hd. }
  assert (Hsub : forall q, q ∉ (∅ : gset ptr)) by set_solver. split.
  - apply HI.
  - intros q oq r Eq Hq Hr. apply (i_closed _ _ _ HI q oq); [done|apply Hsub|done].
  - intros r Hr. rewrite app_nil_r in Hr. apply (i_closed _ _ _ HI p o); [done|apply Hsub|done].
  - intros q oq Eq. pose proof (i_obj _ _ _ HI q oq Eq) as Hq.
    destruct (decide (q = p)) as [->|Hqp].
    + rewrite Eo in Eq. simplify_eq. destruct Hq. split; rewrite ?refcnt_open, ?weakcnt_open by (done || apply Hsub); try done.
      * intros _. apply ok_exact0. left. split; [done|apply Hsub].
      * congruence.
      * intros c Hc. apply Hlink. by apply ok_link0.
    + apply (obj_ok_same ∅ _ [] _ s); try done.
      * by apply open_other.
      * by apply refcnt_open.
      * by apply weakcnt_open.
      * apply Hlink.
  - intros q [Hq|Hq%elem_of_singleton]%elem_of_union; [by apply Hsub in Hq|by subst q].
  - apply HI.
  - apply HI.
  - intros q Hq. destruct (i_kept _ _ _ HI q Hq) as (oq & Eq & Hfq & HX & Hcl). exists oq. split_and!; try done.
    apply not_in_open; [done|]. by intros ->.
  - apply HI.
  - apply HI.
  - apply HI.
Qed.

Lemma refcnt_close X pend q h p o o' : h !! p = Some o -> p ∉ X -> body_refs (body o') = [] ->
  refcnt X pend q (<[p := o']> h) = refcnt (X ∪ {[p]}) pend q h.
Proof.
  intros Eo HX Hb. rewrite <- (refcnt_delete (X ∪ {[p]}) X pend q h p o); [|done| |by apply open_other].
  2: { unfold refs_in. by rewrite decide_True by apply in_open. }
  rewrite <- (refcnt_delete X X pend q (<[p := o']> h) p o'); [by rewrite delete_insert_eq|by rewrite lookup_insert_eq| |done].
  unfold refs_in. by rewrite decide_False.
Qed.
Lemma weakcnt_close X pend q h p o o' : h !! p = Some o -> p ∉ X -> body_refs (body o') = [] ->
  weakcnt X pend q (<[p := o']> h) = weakcnt (X ∪ {[p]}) pend q h.
Proof.
  intros Eo HX Hb. rewrite <- (weakcnt_delete (X ∪ {[p]}) X pend q h p o); [|done| |by apply open_other].
  2: { unfold refs_in. by rewrite decide_True by apply in_open. }
  rewrite <- (weakcnt_delete X X pend q (<[p := o']> h) p o'); [by rewrite delete_insert_eq|by rewrite lookup_insert_eq| |done].
  unfold refs_in. by rewrite decide_False.
Qed.

(** The structure of [p] is kept. *)
Lemma inv_settle s s' p o m : inv (∅ ∪ {[p]}) [] s -> heap s !! p = Some o -> p ∉ S ->
  deferred (gc_obj_type o) = true -> link o = None ->
  let o' := mkObj (ref_count o) m (weakref_count o) None (BFreed (gc_obj_type o)) in
  heap s' = <[p := o']> (heap s) -> gc_phase s' = gc_phase s -> NoDup (lists s') ->
  (forall q, q <> p -> same_place s s' q) -> (tmp_obj_list s = [] -> tmp_obj_list s' = []) ->
  p ∉ gc_obj_list s' -> p ∉ tmp_obj_list s' ->
  (m = 0 -> ref_count o = 0 /\ p ∉ lists s' /\ gc_obj_type o = JS_GC_OBJ_TYPE_JS_OBJECT /\ 0 < weakref_count o) ->
  (m <> 0 -> p ∈ lists s') -> (gc_phase s = JS_GC_PHASE_DECREF -> m = 0) ->
  inv ∅ [] s'.
Proof.
  intros HI Eo HS Hd Hl o' Eh Hph Hnd HP Htmp HpL HpT Hm0 Hm1 Hdec.
  assert (HE : forall q, q ∉ (∅ : gset ptr)) by set_solver.
  assert (HN : forall q, refcnt ∅ [] q (heap s') = refcnt (∅ ∪ {[p]}) [] q (heap s)) by (intros; rewrite Eh; by apply (refcnt_close _ _ _ _ _ o)).
  assert (HW : forall q, weakcnt ∅ [] q (heap s') = weakcnt (∅ ∪ {[p]}) [] q (heap s)) by (intros; rewrite Eh; by apply (weakcnt_close _ _ _ _ _ o)).
  assert (Hvalid : forall r, valid (heap s) r -> valid (heap s') r).
  { intros r (ot & Et & Ht). rewrite Eh. destruct (decide (target r = p)) as [E|E].
    - exists o'. rewrite E, lookup_insert_eq. rewrite E, Eo in Et. by simplify_eq.
    - exists ot. by rewrite lookup_insert_ne. }
  pose proof (i_obj _ _ _ HI p o Eo) as Ho. split.
  - apply HI.
  - intros q oq r Eq _ Hr. rewrite Eh in Eq. apply lookup_insert_Some in Eq as [[<- <-]|[Hne Eq]].
    + cbn in Hr. by apply not_elem_of_nil in Hr.
    + apply Hvalid, (i_closed _ _ _ HI q oq); [done| |done]. by apply not_in_open.
  - intros r Hr. by apply not_elem_of_nil in Hr.
  - intros q oq Eq. rewrite Eh in Eq. apply lookup_insert_Some in Eq as [[<- <-]|[Hne Eq]].
    + destruct Ho. split; rewrite ?HN, ?HW; try done.
      * intros [[? _]|Ht]; [done|]. apply ok_exact0. by right.
      * cbn. congruence.
      * intros [?|Hm]; [done|by apply Hm1].
      * intros Hp. cbn. apply Hdec. congruence.
    + apply (obj_ok_same (∅ ∪ {[p]}) ∅ [] [] s); try done.
      * by apply HI.
      * by apply HP.
      * symmetry. by apply open_other.
      * intros c [E|(Hc & oc & ms & vs & shs & Ec & Eb & Hq)]; [by apply not_elem_of_nil in E|]. right.
        split; [apply HE|]. exists oc, ms, vs, shs. rewrite Eh, lookup_insert_ne; [done|].
        intros ->. destruct Hc. apply in_open.
  - intros q Hq. by apply HE in Hq.
  - done.
  - intros q Hq. rewrite Eh. apply lookup_insert_is_Some'. destruct (decide (p = q)) as [|Hne]; [by left|right].
    apply (i_listed _ _ _ HI). by apply (same_place_lists s s'); [apply HP|].
  - intros q Hq. destruct (i_kept _ _ _ HI q Hq) as (oq & Eq & Hf & HX & Hcl). exists oq. rewrite Eh.
    rewrite lookup_insert_ne by (by intros ->). by split_and!.
  - intros q Hq. destruct (i_support _ _ _ HI q Hq) as [|(q' & oq & r & Hq' & Eq & Hr & Hs)]; [by left|right].
    exists q', oq, r. rewrite Eh, lookup_insert_ne; [done|]. by intros ->.
  - rewrite Hph. apply HI.
  - intros Hp. apply Htmp, HI. congruence.
Qed.

(** What freeing [p] leaves unchanged. *)
Record freed_frame (p : ptr) (s s' : JSRuntime) : Prop := {
  ff_phase : gc_phase s' = gc_phase s;
  ff_self o' : heap s' !! p = Some o' ->
    freed o' = true /\ exists o, heap s !! p = Some o /\ gc_obj_type o' = gc_obj_type o;
  ff_other q o' : q <> p -> heap s' !! q = Some o' ->
    exists o, heap s !! q = Some o /\ freed o' = freed o /\ gc_obj_type o' = gc_obj_type o /\
      (body_wf (body o) -> body_wf (body o'));
  ff_kept q o : q ∈ S -> heap s !! q = Some o -> exists o', heap s' !! q = Some o' /\ body o' = body o;
  ff_tmp : sublist (tmp_obj_list s') (unlink p (tmp_obj_list s));
}.

(** A module leaves the list of its context. *)
Lemma unlink_module_spec s p o : inv (∅ ∪ {[p]}) [] s -> heap s !! p = Some o ->
  exists s' o', unlink_module p s = Some s' /\ inv (∅ ∪ {[p]}) [] s' /\
    heap s' !! p = Some o' /\ link o' = None /\ body o' = body o /\
    ref_count o' = ref_count o /\ mark o' = mark o /\ weakref_count o' = weakref_count o /\
    gc_phase s' = gc_phase s /\ lists s' = lists s /\ tmp_obj_list s' = tmp_obj_list s /\
    (forall q oq, q <> p -> heap s' !! q = Some oq -> exists o1, heap s !! q = Some o1 /\
       freed oq = freed o1 /\ gc_obj_type oq = gc_obj_type o1 /\ (body_wf (body o1) -> body_wf (body oq)) /\
       (q ∈ S -> body oq = body o1)) /\
    (forall q, is_Some (heap s !! q) -> is_Some (heap s' !! q)).
Proof.
  intros HI Eo. pose proof (i_obj _ _ _ HI p o Eo) as Ho. unfold unlink_module. rewrite Eo. cbn [mbind option_bind].
  destruct (link o) as [c|] eqn:El.
  2: { exists s, o. split_and!; try done. intros q oq _ E. by exists oq. }
  destruct (ok_link _ _ _ _ _ Ho c El) as [E|(Hc & oc & ms & vs & shs & Ec & Eb & Hm)]; [by apply not_elem_of_nil in E|].
  assert (Hcp : c <> p) by (intros ->; apply Hc, in_open).
  rewrite Ec. cbn [mbind option_bind]. rewrite Eb.
  set (oc' := with_body (JSContext (unlink p ms) vs shs) oc). set (o' := with_link None o).
  set (s' := write p o' (write c oc' s)).
  assert (Eh : heap s' = <[p := o']> (<[c := oc']> (heap s))) by done.
  assert (Eo1 : <[c := oc']> (heap s) !! p = Some o) by (by rewrite lookup_insert_ne).
  assert (Hmod : gc_obj_type o = JS_GC_OBJ_TYPE_MODULE).
  { destruct (i_closed _ _ _ HI c oc (RModule p) Ec Hc) as (ot & Et & Ht).
    - rewrite Eb. cbn. apply elem_of_app. left. by apply list_elem_of_fmap_2.
    - cbn in Et, Ht. rewrite Eo in Et. by simplify_eq. }
  assert (HS : c ∉ S).
  { intros HS. destruct (i_kept _ _ _ HI c HS) as (oc1 & Ec1 & _ & _ & Hcl). rewrite Ec in Ec1. simplify_eq.
    assert (HpS : p ∈ S). { apply (Hcl (RModule p) p); [|done]. rewrite Eb. cbn. apply elem_of_app. left. by apply list_elem_of_fmap_2. }
    destruct (i_kept _ _ _ HI p HpS) as (? & _ & _ & HX & _). apply HX, in_open. }
  assert (Hsub : forall r, r ∈ body_refs (body oc') -> r ∈ body_refs (body oc)).
  { intros r. rewrite Eb. cbn. rewrite !elem_of_app. intros [(m & -> & [_ Hr]%elem_of_unlink)%list_elem_of_fmap|?]; [left|by right].
    by apply list_elem_of_fmap_2. }
  assert (Hmods : forall q ms, q <> p -> occ q (unlink p ms) = occ q ms).
  { intros q l Hq. unfold unlink. induction l as [|x l IH]; [done|]. destruct (decide (x = p)) as [->|Hx].
    - rewrite filter_cons_False by (by intros Hn). rewrite occ_cons, decide_False by done. by rewrite IH.
    - rewrite filter_cons_True, !occ_cons by done. by rewrite IH. }
  assert (Hcnt : forall q, (q <> p -> cnt q (body_refs (body oc')) = cnt q (body_refs (body oc))) /\
      cnt q (body_refs (body oc')) <= cnt q (body_refs (body oc)) /\ wcnt q (body_refs (body oc')) = wcnt q (body_refs (body oc))).
  { intros q. rewrite Eb. cbn. rewrite !cnt_app, !wcnt_app.
    assert (E1 : forall l, cnt q (RModule <$> l) = occ q l) by (intros l; unfold cnt; by rewrite omap_strong_map).
    assert (E2 : forall l, wcnt q (RModule <$> l) = 0) by (intros l; unfold wcnt; induction l; [done|cbn; done]).
    rewrite !E1, !E2. split_and!; [intros Hq; by rewrite Hmods| |done].
    destruct (decide (q = p)) as [->|Hq]; [|by rewrite Hmods].
    assert (occ p (unlink p ms) = 0); [|pose proof (occ_nonneg p ms); lia].
    pose proof (occ_nonneg p (unlink p ms)). destruct (Z.eq_dec (occ p (unlink p ms)) 0) as [|Hn]; [done|].
    assert (H0 : p ∈ unlink p ms) by (apply occ_pos; lia). apply elem_of_unlink in H0. by destruct H0. }
  assert (HR : forall (f : list Ref -> Z), hsum (fun q o => f (refs_in (∅ ∪ {[p]}) q o)) (heap s') =
      hsum (fun q o => f (refs_in (∅ ∪ {[p]}) q o)) (heap s) - f (body_refs (body oc)) + f (body_refs (body oc'))).
  { intros f. rewrite Eh, (hsum_update _ _ _ _ o' Eo1), (hsum_update _ _ _ _ oc' Ec).
    rewrite (refs_in_body _ p o o') by done. unfold refs_in. rewrite !(decide_False (P := c ∈ _)) by done. lia. }
  assert (HN : forall q, (q <> p -> refcnt (∅ ∪ {[p]}) [] q (heap s') = refcnt (∅ ∪ {[p]}) [] q (heap s)) /\
      refcnt (∅ ∪ {[p]}) [] q (heap s') <= refcnt (∅ ∪ {[p]}) [] q (heap s)).
  { intros q. unfold refcnt. rewrite (HR (cnt q)). destruct (Hcnt q) as (C1 & C2 & _). split; [intros Hq; rewrite C1 by done|]; lia. }
  assert (HW : forall q, weakcnt (∅ ∪ {[p]}) [] q (heap s') = weakcnt (∅ ∪ {[p]}) [] q (heap s)).
  { intros q. unfold weakcnt. rewrite (HR (wcnt q)). destruct (Hcnt q) as (_ & _ & C3). lia. }
  assert (Hlook : forall q oq, q <> p -> heap s' !! q = Some oq -> exists o1, heap s !! q = Some o1 /\
    ref_count oq = ref_count o1 /\ mark oq = mark o1 /\ weakref_count oq = weakref_count o1 /\ link oq = link o1 /\
    freed oq = freed o1 /\ gc_obj_type oq = gc_obj_type o1 /\ is_running (body oq) = is_running (body o1) /\
    (body_wf (body o1) -> body_wf (body oq)) /\ (q <> c -> body oq = body o1) /\ (forall r, r ∈ body_refs (body oq) -> r ∈ body_refs (body o1))).
  { intros q oq Hq Eq. rewrite Eh, lookup_insert_ne in Eq by done. apply lookup_insert_Some in Eq as [[<- <-]|[Hne Eq]].
    - exists oc. unfold freed, gc_obj_type. split_and!; rewrite ?Eb; try done. by rewrite <- Eb.
    - exists oq. by split_and!. }
  assert (Hval : forall r, valid (heap s) r -> valid (heap s') r).
  { intros r Hr. rewrite Eh. apply (valid_update _ _ o); [done|done|]. destruct Hr as (ot & Et & Ht).
    destruct (decide (target r = c)) as [E|E].
    - exists oc'. rewrite E, lookup_insert_eq. rewrite E, Ec in Et. simplify_eq. unfold gc_obj_type in *. by rewrite Eb in Ht.
    - exists ot. by rewrite lookup_insert_ne. }
  exists s', o'. split_and!; try done.
  2: { by rewrite Eh, lookup_insert_eq. }
  2: { intros q oq Hq Eq. destruct (Hlook q oq Hq Eq) as (o1 & E1 & _ & _ & _ & _ & F1 & F2 & _ & Fw & F3 & _).
       exists o1. split_and!; try done. intros HqS. apply F3. by intros ->. }
  2: { intros q Hq. rewrite Eh. apply lookup_insert_is_Some'. right. apply lookup_insert_is_Some'. by right. }
  split.
  - apply HI.
  - intros q oq r Eq Hq Hr. assert (q <> p) by (intros ->; apply Hq, in_open).
    destruct (Hlook q oq) as (o1 & E1 & _ & _ & _ & _ & _ & _ & _ & _ & _ & F); [done|done|].
    apply Hval, (i_closed _ _ _ HI q o1); [done|done|by apply F].
  - intros r Hr. by apply not_elem_of_nil in Hr.
  - intros q oq Eq. destruct (decide (q = p)) as [->|Hq].
    + rewrite Eh, lookup_insert_eq in Eq. apply (inj Some) in Eq. subst oq. destruct (HN p) as [_ HNp]. destruct Ho.
      split; rewrite ?HW; try done.
      * change (ref_count o') with (ref_count o). lia.
      * intros [[_ Hn]|Hn]; [destruct Hn; apply in_open|by destruct Hn].
    + destruct (Hlook q oq Hq Eq) as (o1 & E1 & F1 & F2 & F3 & F4 & F5 & F6 & F7 & _ & F8 & F9).
      pose proof (i_obj _ _ _ HI q o1 E1) as Hoq. destruct (HN q) as [HNq _]. specialize (HNq Hq). destruct Hoq.
      split; rewrite ?HW, ?HNq, ?F1, ?F2, ?F3, ?F4, ?F5, ?F6, ?F7; try done.
      intros d Hd. destruct (ok_link0 d Hd) as [E|(HdX & od & ms' & vs' & shs' & Ed & Ebd & Hq')]; [by apply not_elem_of_nil in E|].
      right. split; [done|]. assert (d <> p) by (intros ->; apply HdX, in_open). rewrite Eh, lookup_insert_ne by done.
      destruct (decide (d = c)) as [->|Hdc].
      * exists oc', (unlink p ms), vs, shs. rewrite lookup_insert_eq. rewrite Ec in Ed. simplify_eq. rewrite Eb in Ebd. simplify_eq.
        split_and!; try done. by apply elem_of_unlink.
      * exists od, ms', vs', shs'. by rewrite lookup_insert_ne.
  - intros q Hq. rewrite Eh. apply lookup_insert_is_Some'. right. apply lookup_insert_is_Some'. right. by apply (i_dying _ _ _ HI).
  - apply HI.
  - intros q Hq. rewrite Eh. apply lookup_insert_is_Some'. right. apply lookup_insert_is_Some'. right. by apply (i_listed _ _ _ HI).
  - intros q Hq. destruct (i_kept _ _ _ HI q Hq) as (oq & Eq & Hf & HX & Hcl). exists oq.
    assert (q <> p) by (intros ->; apply HX, in_open). rewrite Eh, !lookup_insert_ne; [done|by intros ->|done].
  - intros q Hq. destruct (i_support _ _ _ HI q Hq) as [|(q' & oq & r & Hq' & Eq & Hr & Hs)]; [by left|right].
    destruct (i_kept _ _ _ HI q' Hq') as (_ & _ & _ & HX & _). assert (q' <> p) by (intros ->; apply HX, in_open).
    exists q', oq, r. rewrite Eh, !lookup_insert_ne; [done|by intros ->|done].
  - apply HI.
  - apply HI.
Qed.

(** Objects with weak references are JS objects. *)
Lemma weak_is_object X pend s p o : inv X pend s -> heap s !! p = Some o -> weakref_count o <> 0 ->
  gc_obj_type o = JS_GC_OBJ_TYPE_JS_OBJECT.
Proof.
  intros HI Eo Hw. pose proof (i_obj _ _ _ HI p o Eo) as Ho. rewrite (ok_weak _ _ _ _ _ Ho) in Hw.
  pose proof (weakcnt_nonneg X pend p (heap s)). unfold weakcnt in *. pose proof (wcnt_nonneg p pend).
  assert (Hr : valid (heap s) (RWeak p)).
  { destruct (Z.lt_ge_cases 0 (wcnt p pend)) as [Hp%wcnt_pos|]; [by apply (i_pend _ _ _ HI)|].
    destruct (hsum_witness (fun q o => wcnt p (refs_in X q o)) (heap s)) as (q & oq & Eq & Hq); [lia|].
    cbv beta in Hq. apply wcnt_pos in Hq. unfold refs_in in Hq. case_decide; [by apply not_elem_of_nil in Hq|].
    by apply (i_closed _ _ _ HI q oq). }
  destruct Hr as (o' & Eo' & Ht). cbn in Eo', Ht. rewrite Eo in Eo'. by simplify_eq.
Qed.

(** The end of [free_gc_object]: the contents have been released. *)
Definition finish (t : JSGCObjectTypeEnum) (p : ptr) (s : JSRuntime) : option JSRuntime :=
  o ← heap s !! p;
  let s := list_del p (write p (with_body (BFreed t) o) s) in
  o ← heap s !! p;
  if decide (gc_phase s = JS_GC_PHASE_REMOVE_CYCLES) then
    if (ref_count o =? 0) && (weakref_count o =? 0) then Some (js_free_rt p s)
    else Some (set_zero_list (gc_zero_ref_count_list s ++ [p]) s)
  else if weakref_count o =? 0 then Some (js_free_rt p s)
  else Some (write p (with_mark 0 o) s).

Lemma finish_spec s p o : inv (∅ ∪ {[p]}) [] s -> heap s !! p = Some o -> p ∉ S ->
  deferred (gc_obj_type o) = true -> link o = None ->
  exists s', finish (gc_obj_type o) p s = Some s' /\ inv ∅ [] s' /\ freed_frame p s s'.
Proof.
  intros HI Eo HS Hd Hl. set (t := gc_obj_type o). pose proof (i_obj _ _ _ HI p o Eo) as Ho.
  destruct (ok_dying _ _ _ _ _ Ho) as [Hf Hdec]; [apply in_open|].
  set (o1 := with_body (BFreed t) o). set (s1 := list_del p (write p o1 s)).
  assert (E1 : heap s1 !! p = Some o1) by (unfold s1; cbn; by rewrite lookup_insert_eq).
  assert (Hnd : NoDup (lists s1)) by (unfold s1; rewrite lists_list_del; apply NoDup_unlink, HI).
  assert (HpU : forall l, p ∉ unlink p l) by (intros l [Hn _]%elem_of_unlink; done).
  assert (HP1 : forall q, q <> p -> same_place s s1 q) by (intros q Hq; by apply (same_place_list_del p q s)).
  (* the structure goes *)
  assert (Hdrop : ref_count o = 0 -> weakref_count o = 0 ->
    inv ∅ [] (js_free_rt p s1) /\ freed_frame p s (js_free_rt p s1)).
  { intros Hrc Hwc. assert (Es : js_free_rt p s1 = remove_and_free p s).
    { unfold s1, remove_and_free, js_free_rt, list_del, write, set_heap. cbn. by rewrite delete_insert_eq. }
    rewrite Es. destruct (inv_drop (∅ ∪ {[p]}) ∅ [] [] s p o) as [HI2 F2]; try done.
    - by left.
    - unfold refs_in. by rewrite decide_True by apply in_open.
    - by apply (zero_unreferenced _ _ _ p o).
    - by rewrite <- (ok_weak _ _ _ _ _ Ho).
    - intros q Hq. by apply open_other.
    - split; [done|]. split; cbn.
      + done.
      + intros o' E. by rewrite lookup_delete_eq in E.
      + intros q o' Hq [_ E]%lookup_delete_Some. by exists o'.
      + intros q oq Hq Eq. exists oq. rewrite lookup_delete_ne; [done|by intros ->].
      + done. }
  (* the structure is kept *)
  assert (Hkeep : forall m s', heap s' = <[p := with_mark m o1]> (heap s) -> gc_phase s' = gc_phase s ->
    tmp_obj_list s' = unlink p (tmp_obj_list s) -> inv ∅ [] s' -> inv ∅ [] s' /\ freed_frame p s s').
  { intros m s' Eh Hph Ht HI'. split; [done|]. split.
    - done.
    - intros o' E. rewrite Eh, lookup_insert_eq in E. apply (inj Some) in E. subst o'. split; [done|]. by exists o.
    - intros q o' Hq E. rewrite Eh, lookup_insert_ne in E by done. by exists o'.
    - intros q oq Hq Eq. exists oq. rewrite Eh, lookup_insert_ne; [done|by intros ->].
    - by rewrite Ht. }
  unfold finish. rewrite Eo. cbn [mbind option_bind]. fold t o1 s1. rewrite E1. cbn [mbind option_bind].
  change (gc_phase s1) with (gc_phase s). change (ref_count o1) with (ref_count o). change (weakref_count o1) with (weakref_count o).
  case_decide as Hph.
  - destruct (_ && _) eqn:Ez; [rewrite andb_true_iff, !Z.eqb_eq in Ez; destruct Ez; eexists; split; [done|by apply Hdrop]|].
    assert (Hm : mark o <> 0).
    { intros Hm. apply HS. destruct (ok_remove _ _ _ _ _ Ho Hph) as [H1 _]. by apply H1. }
    eexists. split; [done|]. apply (Hkeep (mark o)); try done.
    apply (inv_settle s _ p o (mark o)); try done.
    + unfold s1, o1, with_body. cbn. by rewrite Hl.
    + assert (HP : lists (set_zero_list (gc_zero_ref_count_list s1 ++ [p]) s1) ≡ₚ p :: lists s1).
      { unfold lists. cbn. rewrite !app_assoc. by rewrite <- Permutation_cons_append. }
      rewrite HP. apply NoDup_cons. split; [|done]. unfold s1. rewrite lists_list_del. apply HpU.
    + intros q Hq. destruct (HP1 q Hq) as (P1 & P2 & P3). unfold same_place. cbn in *. rewrite P1, P2, elem_of_app, P3, list_elem_of_singleton.
      naive_solver.
    + cbn. intros ->. done.
    + apply HpU.
    + apply HpU.
    + intros _. unfold lists. rewrite !elem_of_app. right; right. cbn. apply elem_of_app. right. by apply list_elem_of_singleton.
    + congruence.
  - assert (Hph' : gc_phase s = JS_GC_PHASE_DECREF) by (pose proof (i_phase _ _ _ HI); by destruct (gc_phase s)).
    specialize (Hdec Hph'). destruct (Z.eqb_spec (weakref_count o) 0) as [Ew|Ew]; [eexists; split; [done|by apply Hdrop]|].
    eexists. split; [done|]. apply (Hkeep 0); try done.
    { cbn. by rewrite insert_insert_eq. }
    apply (inv_settle s _ p o 0); try done.
    + unfold s1, o1, with_body, with_mark. cbn. by rewrite insert_insert_eq, Hl.
    + cbn. intros ->. done.
    + apply HpU.
    + apply HpU.
    + intros _. pose proof (ok_weak _ _ _ _ _ Ho) as Hw. pose proof (weakcnt_nonneg (∅ ∪ {[p]}) [] p (heap s)).
      split_and!; [done| |by eapply weak_is_object|lia].
      change (lists _) with (lists s1). unfold s1. rewrite lists_list_del. apply HpU.
Qed.

Lemma free_gc_object_spec zero s p o : inv ∅ [] s -> heap s !! p = Some o -> freed o = false -> p ∉ S ->
  deferred (gc_obj_type o) = true -> is_running (body o) = false ->
  (gc_phase s = JS_GC_PHASE_DECREF -> ref_count o = 0) ->
  exists s', free_gc_object zero s p = Some s' /\ inv ∅ [] s' /\ freed_frame p s s'.
Proof.
  intros HI Eo Hf HS Hd Hrun Hrc. unfold free_gc_object. rewrite Eo. cbn [mbind option_bind].
  rewrite option_guard_True by (destruct (gc_obj_type o); try done; naive_solver). cbn [mbind option_bind].
  rewrite option_guard_True by done. cbn [mbind option_bind].
  pose proof (inv_open s p o HI Eo Hf HS Hd Hrc) as HI1.
  destruct (releases_refs zero _ _ [] s HI1) as (s1 & E1 & HI2 & F1). rewrite E1. cbn [mbind option_bind].
  destruct (fr_kept _ _ _ F1 p) as [o1 Eo1]; [left; apply in_open|done|].
  destruct (fr_body _ _ _ F1 p o1 Eo1) as (o' & Eo' & B1). rewrite Eo in Eo'. apply (inj Some) in Eo'. subst o'.
  assert (Ht1 : gc_obj_type o1 = gc_obj_type o) by (unfold gc_obj_type; by rewrite B1).
  assert (Hl : gc_obj_type o <> JS_GC_OBJ_TYPE_MODULE -> link o1 = None).
  { intros Hm. destruct (link o1) as [c|] eqn:El; [|done].
    destruct (ok_link _ _ _ _ _ (i_obj _ _ _ HI2 p o1 Eo1) c El) as [E|(HcX & oc & ms & vs & shs & Ec & Eb & Hpm)].
    - by apply not_elem_of_nil in E.
    - destruct (i_closed _ _ _ HI2 c oc (RModule p) Ec HcX) as (ot & Et & Htt).
      { rewrite Eb. cbn. apply elem_of_app. left. by apply list_elem_of_fmap_2. }
      cbn in Et, Htt. rewrite Eo1 in Et. simplify_eq. congruence. }
  (* the module leaves its context *)
  assert (HU : exists s2 o2, (if decide (gc_obj_type o = JS_GC_OBJ_TYPE_MODULE) then unlink_module p s1 else Some s1) = Some s2 /\
    inv (∅ ∪ {[p]}) [] s2 /\ heap s2 !! p = Some o2 /\ link o2 = None /\ gc_obj_type o2 = gc_obj_type o /\
    gc_phase s2 = gc_phase s1 /\ tmp_obj_list s2 = tmp_obj_list s1 /\
    (forall q oq, q <> p -> heap s2 !! q = Some oq -> exists oq', heap s1 !! q = Some oq' /\
       freed oq = freed oq' /\ gc_obj_type oq = gc_obj_type oq' /\ (body_wf (body oq') -> body_wf (body oq)) /\
       (q ∈ S -> body oq = body oq')) /\
    (forall q, is_Some (heap s1 !! q) -> is_Some (heap s2 !! q))).
  { case_decide as Hm.
    - destruct (unlink_module_spec s1 p o1 HI2 Eo1) as (s2 & o2 & E2 & HI3 & Eo2 & L2 & B2 & _ & _ & _ & P2 & _ & T2 & Q2 & D2).
      exists s2, o2. split_and!; try done. unfold gc_obj_type. by rewrite B2, B1.
    - exists s1, o1. split_and!; try done; [by apply Hl|]. intros q oq _ E. by exists oq. }
  destruct HU as (s2 & o2 & E2 & HI3 & Eo2 & L2 & T2 & P2 & Tm2 & Q2 & D2). rewrite E2. cbn [mbind option_bind].
  destruct (finish_spec s2 p o2 HI3 Eo2 HS) as (s3 & E3 & HI4 & F3); [by rewrite T2|done|].
  rewrite T2 in E3. exists s3. split; [exact E3|]. split; [done|]. split.
  - rewrite (ff_phase _ _ _ F3), P2. apply F1.
  - intros o' E. destruct (ff_self _ _ _ F3 o' E) as [Hf3 (o2' & Eo2' & Ht3)]. split; [done|]. exists o.
    split; [done|]. rewrite Eo2 in Eo2'. apply (inj Some) in Eo2'. subst o2'. congruence.
  - intros q oq Hq E. destruct (ff_other _ _ _ F3 q oq Hq E) as (oq2 & E2' & R1 & R2 & W2).
    destruct (Q2 q oq2 Hq E2') as (oq1 & E1' & R3 & R4 & W1 & _). destruct (fr_body _ _ _ F1 q oq1 E1') as (oq0 & E0 & R5).
    exists oq0. split; [done|]. unfold freed, gc_obj_type in *. rewrite <- R5. split_and!; [congruence|congruence|tauto].
  - intros q oq Hq Eq. assert (q <> p) by (by intros ->).
    destruct (fr_kept _ _ _ F1 q) as [oq1 Eq1]; [by right|done|].
    destruct (fr_body _ _ _ F1 q oq1 Eq1) as (oq' & Eq' & R1). rewrite Eq in Eq'. apply (inj Some) in Eq'. subst oq'.
    destruct (D2 q) as [oq2 Eq2]; [done|]. destruct (Q2 q oq2) as (oq1' & Eq1' & _ & _ & _ & R2); [done|done|].
    rewrite Eq1 in Eq1'. apply (inj Some) in Eq1'. subst oq1'.
    destruct (ff_kept _ _ _ F3 q oq2) as (oq3 & Eq3 & R3); [done|done|]. exists oq3. split; [done|]. rewrite R3, R2 by done. done.
  - etrans; [apply F3|]. rewrite Tm2. apply sublist_unlink, F1.
Qed.

(** ** The loops *)

(** What freeing any number of objects leaves unchanged. *)
Record frees_only (s s' : JSRuntime) : Prop := {
  sh_phase : gc_phase s' = gc_phase s;
  sh_body q o' : heap s' !! q = Some o' ->
    exists o, heap s !! q = Some o /\ (freed o = true -> freed o' = true) /\ gc_obj_type o' = gc_obj_type o /\
      (body_wf (body o) -> body_wf (body o'));
  sh_kept q o : q ∈ S -> heap s !! q = Some o -> exists o', heap s' !! q = Some o' /\ body o' = body o;
}.

Lemma frees_only_refl s : frees_only s s.
Proof. split; eauto 10. Qed.
Lemma frees_only_trans s1 s2 s3 : frees_only s1 s2 -> frees_only s2 s3 -> frees_only s1 s3.
Proof.
  intros H1 H2. split.
  - by rewrite (sh_phase _ _ H2), (sh_phase _ _ H1).
  - intros q o3 E3. destruct (sh_body _ _ H2 q o3 E3) as (o2 & E2 & A2 & B2 & C2).
    destruct (sh_body _ _ H1 q o2 E2) as (o1 & E1 & A1 & B1 & C1). exists o1. split_and!; [done|tauto|congruence|tauto].
  - intros q o1 Hq E1. destruct (sh_kept _ _ H1 q o1 Hq E1) as (o2 & E2 & B2).
    destruct (sh_kept _ _ H2 q o2 Hq E2) as (o3 & E3 & B3). exists o3. split; [done|congruence].
Qed.
Lemma freed_frame_frees p s s' : freed_frame p s s' -> frees_only s s'.
Proof.
  intros F. split.
  - apply F.
  - intros q o' E. destruct (decide (q = p)) as [->|Hq].
    + destruct (ff_self _ _ _ F o' E) as [Hf (o & Eo & Ht)]. exists o. split_and!; try done.
      unfold freed in Hf. by destruct (body o').
    + destruct (ff_other _ _ _ F q o' Hq E) as (o & Eo & R1 & R2 & R3). exists o. split_and!; try done. by rewrite R1.
  - apply F.
Qed.

(** The objects whose contents were not released. *)
Definition alive (s : JSRuntime) : gset ptr := dom (filter (fun x => freed (snd x) = false) (heap s)).

Lemma elem_of_alive s p : p ∈ alive s <-> exists o, heap s !! p = Some o /\ freed o = false.
Proof.
  unfold alive. rewrite elem_of_dom. split.
  - intros [o [E Hf]%map_lookup_filter_Some]. by exists o.
  - intros (o & E & Hf). exists o. by apply map_lookup_filter_Some.
Qed.

Lemma size_alive s : (size (alive s) <= size (heap s))%nat.
Proof.
  rewrite <- (size_dom (heap s)). apply subseteq_size. intros p (o & E & _)%elem_of_alive. by apply elem_of_dom_2 in E.
Qed.

(** What heads [gc_zero_ref_count_list] can be freed. *)
Lemma zero_head s p l : inv ∅ [] s -> gc_phase s = JS_GC_PHASE_DECREF -> gc_zero_ref_count_list s = p :: l ->
  exists o, heap s !! p = Some o /\ freed o = false /\ deferred (gc_obj_type o) = true /\ ref_count o = 0 /\
    is_running (body o) = false /\ p ∉ S.
Proof.
  intros HI Hph EZ. assert (HpZ : p ∈ gc_zero_ref_count_list s) by (rewrite EZ; by left).
  assert (Hpl : p ∈ lists s) by (unfold lists; rewrite !elem_of_app; by right; right).
  destruct (i_listed _ _ _ HI p Hpl) as [o Eo]. exists o. pose proof (i_obj _ _ _ HI p o Eo) as Ho.
  pose proof (ok_decref _ _ _ _ _ Ho Hph) as Hd.
  destruct (freed o) eqn:Ef; [destruct (ok_shell _ _ _ _ _ Ho Ef Hd) as (_ & Hn & _); done|].
  destruct Hd as [Hd _]. destruct (deferred (gc_obj_type o)) eqn:Edef; [|done].
  assert (Hrc : ref_count o = 0) by (by apply Hd). destruct (zero_unreferenced _ _ _ _ _ HI Eo Hrc) as [_ HS].
  split_and!; try done. destruct (is_running (body o)) eqn:Er; [|done].
  pose proof (ok_run _ _ _ _ _ Ho Er). pose proof (ok_covered _ _ _ _ _ Ho). pose proof (refcnt_nonneg ∅ [] p (heap s)). lia.
Qed.

Lemma zero_loop_spec fuel : forall s, inv ∅ [] s -> gc_phase s = JS_GC_PHASE_DECREF -> (size (alive s) <= fuel)%nat ->
  exists s', zero_loop fuel s = Some s' /\ inv ∅ [] s' /\ gc_zero_ref_count_list s' = [] /\ frees_only s s'.
Proof.
  induction fuel as [|fuel IH]; intros s HI Hph Hfuel; cbn [zero_loop];
    (destruct (gc_zero_ref_count_list s) as [|p l] eqn:EZ; [exists s; split_and!; [done|done|done|apply frees_only_refl]|]);
    destruct (zero_head s p l HI Hph EZ) as (o & Eo & Hf & Hd & Hrc & Hrun & HS);
    assert (Hpa : p ∈ alive s) by (apply elem_of_alive; eauto).
  - assert (size (alive s) <> 0%nat); [|lia]. apply size_non_empty_iff. set_solver.
  - rewrite Eo. cbn [mbind option_bind]. rewrite option_guard_True by done. cbn [mbind option_bind].
    destruct (free_gc_object_spec (fun _ => None) s p o) as (s1 & E1 & HI1 & F1); try done.
    rewrite E1. cbn [mbind option_bind]. assert (Hph1 : gc_phase s1 = JS_GC_PHASE_DECREF) by (by rewrite (ff_phase _ _ _ F1)).
    assert (Hsub : alive s1 ⊆ alive s ∖ {[p]}).
    { intros q (oq & Eq & Hfq)%elem_of_alive. rewrite elem_of_difference, elem_of_singleton.
      destruct (decide (q = p)) as [->|Hq].
      - destruct (ff_self _ _ _ F1 oq Eq) as [Hfr _]. congruence.
      - split; [|done]. destruct (ff_other _ _ _ F1 q oq Hq Eq) as (o' & Eo' & R & _). apply elem_of_alive. exists o'. split; [done|congruence]. }
    destruct (IH s1 HI1 Hph1) as (s2 & E2 & HI2 & HZ & F2).
    { apply subseteq_size in Hsub. rewrite size_difference in Hsub by set_solver. rewrite size_singleton in Hsub. lia. }
    exists s2. split_and!; try done. eapply frees_only_trans; [|exact F2]. by apply (freed_frame_frees p).
Qed.
End inv.
