(* ===== verification/GcRuntime.v ===== *)
(** * The reference counted heap

    A well-formed runtime: what holds of the heap between two operations of the engine.
    Dropping a reference keeps it, frees every object whose count reaches zero and nothing
    that is still referenced. *)
From stdpp Require Export functions.
From S2P Require Export GcFree.

(** The references that the objects of a heap hold. *)
Definition heap_refs (p : ptr) (h : gmap ptr GCObject) : Z := hsum (fun _ o => cnt p (body_refs (body o))) h.
Definition heap_weak_refs (p : ptr) (h : gmap ptr GCObject) : Z := hsum (fun _ o => wcnt p (body_refs (body o))) h.

(** [ext p] is the number of references to [p] from outside of the heap: the C stack, the
    embedder, the pending jobs, the frames of the running functions. *)
Record runtime_wf (ext : ptr -> Z) (s : JSRuntime) : Prop := {
  rw_phase : gc_phase s = JS_GC_PHASE_NONE;
  rw_tmp : tmp_obj_list s = [];
  rw_zero : gc_zero_ref_count_list s = [];
  rw_nodup : NoDup (gc_obj_list s);
  rw_listed p : p ∈ gc_obj_list s <-> exists o, heap s !! p = Some o /\ freed o = false;
  rw_ext p : 0 <= ext p;
  rw_refs q o r : heap s !! q = Some o -> r ∈ body_refs (body o) -> valid (heap s) r;
  rw_count p o : heap s !! p = Some o -> ref_count o = ext p + heap_refs p (heap s);
  rw_weak p o : heap s !! p = Some o -> weakref_count o = heap_weak_refs p (heap s);
  rw_object p o : heap s !! p = Some o ->
    mark o = 0 /\
    if freed o then gc_obj_type o = JS_GC_OBJ_TYPE_JS_OBJECT /\ ref_count o = 0 /\ 0 < weakref_count o
    else 0 < ref_count o /\ body_wf (body o);
  rw_run p o : heap s !! p = Some o -> is_running (body o) = true -> 0 < ext p;
  rw_link p o c : heap s !! p = Some o -> link o = Some c ->
    exists oc modules values shapes,
      heap s !! c = Some oc /\ body oc = JSContext modules values shapes /\ p ∈ modules;
}.

(** What the references from outside keep alive, through the references that
    [mark_children] reports. *)
Inductive reachable (ext : ptr -> Z) (h : gmap ptr GCObject) : ptr -> Prop :=
  | reach_root p : 0 < ext p -> is_Some (h !! p) -> reachable ext h p
  | reach_ref q o p : reachable ext h q -> h !! q = Some o -> p ∈ mark_children (body o) -> reachable ext h p.

Lemma refcnt_empty X p h : (forall q, q ∉ X) -> refcnt X [] p h = heap_refs p h.
Proof.
  intros HX. unfold refcnt, heap_refs. rewrite cnt_nil, Z.add_0_l. apply hsum_ext. intros q o _.
  unfold refs_in. rewrite decide_False; [done|apply HX].
Qed.
Lemma weakcnt_empty X p h : (forall q, q ∉ X) -> weakcnt X [] p h = heap_weak_refs p h.
Proof.
  intros HX. unfold weakcnt, heap_weak_refs. rewrite wcnt_nil, Z.add_0_l. apply hsum_ext. intros q o _.
  unfold refs_in. rewrite decide_False; [done|apply HX].
Qed.

Lemma not_in_empty (q : ptr) : q ∉ (∅ : gset ptr).
Proof. apply not_elem_of_empty. Qed.

(** The counted references of a well-formed body are the ones that are marked. *)
Lemma mark_strong b p : body_wf b -> p ∈ mark_children b <-> exists r, r ∈ body_refs b /\ strong r = Some p.
Proof. intros Hb. by rewrite <- cnt_pos, <- body_refs_strong, occ_pos. Qed.

Section runtime.
Context (ext : ptr -> Z).

Lemma rw_body_wf s p o : runtime_wf ext s -> heap s !! p = Some o -> body_wf (body o).
Proof.
  intros HW Eo. destruct (rw_object _ _ HW p o Eo) as [_ Ho]. unfold freed in Ho. destruct (body o); try done.
  by destruct Ho.
Qed.

(** A counted reference is to an object that is alive. *)
Lemma strong_alive s q oq r p : runtime_wf ext s -> heap s !! q = Some oq -> r ∈ body_refs (body oq) -> strong r = Some p ->
  exists o, heap s !! p = Some o /\ freed o = false.
Proof.
  intros HW Eq Hr Hs. destruct (rw_refs _ _ HW q oq r Eq Hr) as (o & Eo & _). rewrite (strong_target _ _ Hs) in Eo.
  exists o. split; [done|]. pose proof (rw_count _ _ HW p o Eo) as Hc. pose proof (rw_ext _ _ HW p).
  pose proof (refcnt_ref ∅ [] p (heap s) q oq r Eq (not_in_empty q) Hr Hs) as H1. rewrite refcnt_empty in H1 by apply not_in_empty.
  destruct (rw_object _ _ HW p o Eo) as [_ Ho]. destruct (freed o); [lia|done].
Qed.

Lemma rw_root_alive s p o : runtime_wf ext s -> heap s !! p = Some o -> 0 < ext p -> freed o = false.
Proof.
  intros HW Eo He. pose proof (rw_count _ _ HW p o Eo) as Hc. destruct (rw_object _ _ HW p o Eo) as [_ Ho].
  assert (0 <= heap_refs p (heap s)) by (apply hsum_nonneg; intros; apply cnt_nonneg). destruct (freed o); [lia|done].
Qed.

Lemma reachable_alive s p : runtime_wf ext s -> reachable ext (heap s) p -> exists o, heap s !! p = Some o /\ freed o = false.
Proof.
  intros HW [p' He [o Eo]|q o p' _ Eq Hp].
  - exists o. split; [done|by eapply rw_root_alive].
  - apply (mark_strong _ _ (rw_body_wf _ _ _ HW Eq)) in Hp as (r & Hr & Hs). by eapply strong_alive.
Qed.
End runtime.

(** From a well-formed runtime to the invariant of the frees, with the pending release of
    references that were outside of the heap; [S] are objects that the other references
    keep alive. *)
Definition kept_set (ext : ptr -> Z) (S : propset ptr) (h : gmap ptr GCObject) : Prop :=
  (forall p, p ∈ S -> exists o, h !! p = Some o /\ freed o = false /\
     forall r q, r ∈ body_refs (body o) -> strong r = Some q -> q ∈ S) /\
  (forall p, p ∈ S -> 0 < ext p \/
     exists q o r, q ∈ S /\ h !! q = Some o /\ r ∈ body_refs (body o) /\ strong r = Some p).

Lemma wf_inv ext ext' S pend s : runtime_wf ext s -> (forall p, ext p = ext' p + cnt p pend) ->
  (forall p, wcnt p pend = 0) -> (forall r, r ∈ pend -> valid (heap s) r) -> (forall p, 0 <= ext' p) ->
  (forall p o, heap s !! p = Some o -> is_running (body o) = true -> 0 < ext' p) ->
  kept_set ext' S (heap s) ->
  inv ext' S ∅ pend (set_phase JS_GC_PHASE_DECREF s).
Proof.
  intros HW He Hw Hv He' Hrun [HS1 HS2].
  assert (HN : forall p, ext' p + refcnt ∅ pend p (heap s) = ext p + heap_refs p (heap s)).
  { intros p. rewrite (He p), <- (refcnt_empty ∅ p (heap s) not_in_empty). unfold refcnt. rewrite cnt_nil. lia. }
  assert (HWk : forall p, weakcnt ∅ pend p (heap s) = heap_weak_refs p (heap s)).
  { intros p. rewrite <- (weakcnt_empty ∅ p (heap s) not_in_empty). unfold weakcnt. rewrite wcnt_nil, (Hw p). lia. }
  assert (HL : lists (set_phase JS_GC_PHASE_DECREF s) = gc_obj_list s).
  { unfold lists. cbn. by rewrite (rw_tmp _ _ HW), (rw_zero _ _ HW), app_nil_r. }
  split; rewrite ?HL; cbn; try done.
  - intros q o r Eq _ Hr. by apply (rw_refs _ _ HW q o).
  - intros p o Eo. destruct (rw_object _ _ HW p o Eo) as [Hm Ho]. pose proof (rw_count _ _ HW p o Eo) as Hc.
    specialize (HN p). split; rewrite ?HL; cbn; rewrite ?HWk; try done.
    + lia.
    + intros _. lia.
    + by apply (rw_weak _ _ HW).
    + intros Hd. rewrite decide_False by apply not_in_empty. destruct (freed o); [|by destruct Ho].
      destruct Ho as (Ht & _). by rewrite Ht in Hd.
    + intros Hf _. rewrite Hf in Ho. destruct Ho as (Ht & Hrc & Hwk). split_and!; try done.
      rewrite (rw_listed _ _ HW). intros (o' & Eo' & Hf'). rewrite Eo in Eo'. simplify_eq. congruence.
    + intros Hf _ Hrc. rewrite Hf in Ho. destruct Ho. lia.
    + intros [Hf|]; [|done]. apply (rw_listed _ _ HW). by exists o.
    + by apply Hrun.
    + intros c Hl. right. split; [apply not_in_empty|]. by apply (rw_link _ _ HW p o c).
    + intros _. rewrite (rw_zero _ _ HW). destruct (freed o); [done|]. destruct Ho as [Ho _].
      split; [|done]. destruct (deferred _); [|apply not_elem_of_nil]. split; [lia|]. intros Hn. by apply not_elem_of_nil in Hn.
  - apply HW.
  - intros p Hp. apply (rw_listed _ _ HW) in Hp as (o & -> & _). done.
  - intros p Hp. destruct (HS1 p Hp) as (o & Eo & Hf & Hcl). exists o. split_and!; try done.
  - intros _. apply HW.
Qed.

(** And back, when the queue is empty. *)
Lemma inv_wf ext S s : inv ext S ∅ [] s -> gc_phase s = JS_GC_PHASE_DECREF -> gc_zero_ref_count_list s = [] ->
  (forall p o, heap s !! p = Some o -> body_wf (body o)) ->
  runtime_wf ext (set_phase JS_GC_PHASE_NONE s).
Proof.
  intros HI Hph HZ Hbw. pose proof (i_tmp _ _ _ _ _ HI Hph) as HT.
  assert (HL : lists s = gc_obj_list s) by (unfold lists; by rewrite HT, HZ, app_nil_r).
  split; cbn; try done.
  - rewrite <- HL. apply HI.
  - intros p. rewrite <- HL. split.
    + intros Hp. destruct (i_listed _ _ _ _ _ HI p Hp) as [o Eo]. exists o. split; [done|].
      pose proof (i_obj _ _ _ _ _ HI p o Eo) as Ho. destruct (freed o) eqn:Hf; [|done].
      pose proof (ok_decref _ _ _ _ _ _ _ Ho Hph) as Hm. rewrite Hf in Hm. by destruct (ok_shell _ _ _ _ _ _ _ Ho Hf Hm) as (_ & ? & _).
    + intros (o & Eo & Hf). apply (ok_listed _ _ _ _ _ _ _ (i_obj _ _ _ _ _ HI p o Eo)). by left.
  - apply HI.
  - intros q o r Eq Hr. by apply (i_closed _ _ _ _ _ HI q o); [|apply not_in_empty|].
  - intros p o Eo. pose proof (i_obj _ _ _ _ _ HI p o Eo) as Ho. rewrite <- (refcnt_empty ∅) by apply not_in_empty.
    destruct (freed o) eqn:Hf.
    + pose proof (ok_decref _ _ _ _ _ _ _ Ho Hph) as Hm. rewrite Hf in Hm.
      destruct (ok_shell _ _ _ _ _ _ _ Ho Hf Hm) as (_ & _ & Ht & _). apply (ok_exact _ _ _ _ _ _ _ Ho). right. by rewrite Ht.
    + apply (ok_exact _ _ _ _ _ _ _ Ho). left. split; [done|apply not_in_empty].
  - intros p o Eo. rewrite <- (weakcnt_empty ∅) by apply not_in_empty. apply (ok_weak _ _ _ _ _ _ _ (i_obj _ _ _ _ _ HI p o Eo)).
  - intros p o Eo. pose proof (i_obj _ _ _ _ _ HI p o Eo) as Ho. pose proof (ok_decref _ _ _ _ _ _ _ Ho Hph) as Hm.
    destruct (freed o) eqn:Hf.
    + split; [done|]. destruct (ok_shell _ _ _ _ _ _ _ Ho Hf Hm) as (? & _ & ? & ?). done.
    + rewrite HZ in Hm. destruct Hm as [Hm Hmk]. split; [apply Hmk, not_elem_of_nil|]. split; [|by apply (Hbw p)].
      destruct (deferred (gc_obj_type o)) eqn:Hd.
      * pose proof (ok_covered _ _ _ _ _ _ _ Ho). pose proof (i_ext _ _ _ _ _ HI p). pose proof (refcnt_nonneg ∅ [] p (heap s)).
        destruct (Z.eq_dec (ref_count o) 0) as [E|]; [|lia]. apply Hm in E. by apply not_elem_of_nil in E.
      * destruct (ok_immediate _ _ _ _ _ _ _ Ho Hd) as [_ H0]. by rewrite decide_False in H0 by apply not_in_empty.
  - intros p o Eo. apply (ok_run _ _ _ _ _ _ _ (i_obj _ _ _ _ _ HI p o Eo)).
  - intros p o c Eo Hl. destruct (ok_link _ _ _ _ _ _ _ (i_obj _ _ _ _ _ HI p o Eo) c Hl) as [E|[_ H]]; [by apply not_elem_of_nil in E|done].
Qed.

(** The reachable objects are kept. *)
Lemma reachable_kept ext s : runtime_wf ext s -> forall ext', (forall p, 0 <= ext' p <= ext p) ->
  kept_set ext' {[ p | reachable ext' (heap s) p ]} (heap s).
Proof.
  intros HW ext' He. split.
  - intros p Hp. apply elem_of_PropSet in Hp.
    assert (Ha : exists o, heap s !! p = Some o /\ freed o = false).
    { destruct Hp as [p Hr [o Eo]|q o p _ Eq Hp].
      - exists o. split; [done|]. apply (rw_root_alive ext s p); [done|done|]. specialize (He p). lia.
      - apply (mark_strong _ _ (rw_body_wf _ _ _ _ HW Eq)) in Hp as (r & Hr & Hs). by eapply strong_alive. }
    destruct Ha as (o & Eo & Hf). exists o. split_and!; try done. intros r q Hr Hs. apply elem_of_PropSet.
    apply (reach_ref _ _ p o); [done|done|]. apply (mark_strong _ _ (rw_body_wf _ _ _ _ HW Eo)). by exists r.
  - intros p Hp. apply elem_of_PropSet in Hp. destruct Hp as [p Hr _|q o p Hq Eq Hp]; [by left|right].
    apply (mark_strong _ _ (rw_body_wf _ _ _ _ HW Eq)) in Hp as (r & Hr & Hs). exists q, o, r.
    split_and!; try done.
Qed.

(** ** Dropping a reference *)

Lemma set_phase_id s : gc_phase s = JS_GC_PHASE_NONE -> set_phase JS_GC_PHASE_NONE (set_phase JS_GC_PHASE_DECREF s) = s.
Proof. destruct s; cbn. by intros ->. Qed.

(** Outside of the frees, [JS_FreeValue] queues the object and empties the queue. *)
Lemma free_value_phases s p s1 : gc_phase s = JS_GC_PHASE_NONE -> gc_zero_ref_count_list s = [] ->
  JS_FreeValueRT (fun _ => None) (set_phase JS_GC_PHASE_DECREF s) p = Some s1 ->
  JS_FreeValueRT free_zero_refcount s p =
    match gc_zero_ref_count_list s1 with
    | [] => Some (set_phase JS_GC_PHASE_NONE s1)
    | _ => s2 ← zero_loop (size (heap s1)) s1; Some (set_phase JS_GC_PHASE_NONE s2)
    end.
Proof.
  intros Hph HZ. unfold JS_FreeValueRT. cbn [set_phase heap]. destruct (heap s !! p) as [o|]; [|done]. cbn [mbind option_bind].
  destruct (ref_count o - 1 <=? 0).
  - unfold __JS_FreeValueRT. cbn. rewrite Hph. cbn. unfold defer. cbn. rewrite lookup_insert_eq. cbn. rewrite Hph. cbn.
    intros [= <-]. cbn. done.
  - intros [= <-]. cbn. rewrite HZ. f_equal. unfold write, set_heap, set_phase. cbn. by rewrite Hph.
Qed.

Lemma free_value_wf ext s p o : runtime_wf ext s -> 0 < ext p -> heap s !! p = Some o -> is_value (gc_obj_type o) = true ->
  let ext' := <[p := ext p - 1]> ext in
  exists s', JS_FreeValue s (JSPtr p) = Some s' /\ runtime_wf ext' s' /\
    (forall q oq, reachable ext' (heap s) q -> heap s !! q = Some oq ->
       exists oq', heap s' !! q = Some oq' /\ body oq' = body oq) /\
    (forall q oq', heap s' !! q = Some oq' -> freed oq' = false ->
       exists oq, heap s !! q = Some oq /\ freed oq = false).
Proof.
  intros HW He Eo Ht ext'. set (S := {[ q | reachable ext' (heap s) q ]} : propset ptr).
  assert (He' : forall q, 0 <= ext' q <= ext q).
  { intros q. pose proof (rw_ext _ _ HW q). unfold ext'. destruct (decide (q = p)) as [->|Hq].
    - rewrite fn_lookup_insert. lia.
    - rewrite fn_lookup_insert_ne by done. lia. }
  assert (HI : inv ext' S ∅ [RValue p] (set_phase JS_GC_PHASE_DECREF s)).
  { apply (wf_inv ext); try done.
    - intros q. rewrite cnt_cons, cnt_nil. cbn [strong]. unfold ext'. destruct (decide (q = p)) as [->|Hq].
      + rewrite fn_lookup_insert, decide_True by done. lia.
      + rewrite fn_lookup_insert_ne, decide_False by (done || congruence). lia.
    - intros r Hr%list_elem_of_singleton. subst r. by exists o.
    - intros q. apply He'.
    - intros q oq Eq Hrun. unfold ext'. rewrite fn_lookup_insert_ne; [by apply (rw_run _ _ HW q oq)|].
      intros ->. rewrite Eo in Eq. simplify_eq. unfold gc_obj_type in Ht. by destruct (body oq).
    - by apply (reachable_kept ext). }
  destruct (releases_value ext' S (fun _ => None) ∅ p [] _ HI) as (s1 & E1 & HI1 & F1).
  assert (Hph1 : gc_phase s1 = JS_GC_PHASE_DECREF) by (by rewrite (fr_phase _ _ _ _ F1)).
  assert (Hsh1 : frees_only S (set_phase JS_GC_PHASE_DECREF s) s1).
  { split; [by rewrite Hph1| |].
    - intros q o' E. destruct (fr_body _ _ _ _ F1 q o' E) as (o0 & E0 & Hb). exists o0. unfold freed, gc_obj_type. by rewrite Hb.
    - intros q o0 Hq E. destruct (fr_kept _ _ _ _ F1 q) as [o' Eo']; [by right|done|].
      destruct (fr_body _ _ _ _ F1 q o' Eo') as (o1 & Eo1 & Hb). rewrite E in Eo1. simplify_eq. by exists o'. }
  assert (H2 : exists s2, JS_FreeValue s (JSPtr p) = Some (set_phase JS_GC_PHASE_NONE s2) /\ inv ext' S ∅ [] s2 /\
      gc_zero_ref_count_list s2 = [] /\ gc_phase s2 = JS_GC_PHASE_DECREF /\ frees_only S (set_phase JS_GC_PHASE_DECREF s) s2).
  { cbn [JS_FreeValue]. rewrite (free_value_phases s p s1 (rw_phase _ _ HW) (rw_zero _ _ HW) E1).
    destruct (gc_zero_ref_count_list s1) eqn:EZ; [by exists s1|].
    destruct (zero_loop_spec ext' S (size (heap s1)) s1 HI1 Hph1 (size_alive s1)) as (s2 & E2 & HI2 & HZ2 & F2).
    rewrite E2. exists s2. split_and!; try done; [by rewrite (sh_phase _ _ _ F2)|by eapply frees_only_trans]. }
  destruct H2 as (s2 & E2 & HI2 & HZ2 & Hph2 & F2). exists (set_phase JS_GC_PHASE_NONE s2). split; [done|]. split_and!.
  - apply (inv_wf ext' S); try done. intros q oq Eq. destruct (sh_body _ _ _ F2 q oq Eq) as (oq0 & Eq0 & _ & _ & Hb).
    apply Hb. by apply (rw_body_wf ext s q).
  - intros q oq Hq Eq. by apply (sh_kept _ _ _ F2).
  - intros q oq' Eq Hf. destruct (sh_body _ _ _ F2 q oq' Eq) as (oq & Eq0 & Hff & _). exists oq. split; [done|].
    destruct (freed oq); [|done]. by rewrite Hff in Hf.
Qed.
