(* ===== verification/GcPasses.v ===== *)
(** * The first two passes of the collector

    [gc_decref] leaves in the count of every object the references from outside of the
    heap; [gc_scan] then restores the counts and splits the objects: [gc_obj_list] holds
    the reachable ones and [tmp_obj_list] the others. *)
From S2P Require Export GcRuntime.

(** ** Loops and sums *)

Definition lsum (v : ptr -> Z) (l : list ptr) : Z := foldr (fun q acc => v q + acc) 0 l.

Lemma hsum_lsum (g : ptr -> GCObject -> Z) v l h : NoDup l -> (forall q, q ∈ l -> exists o, h !! q = Some o /\ g q o = v q) ->
  (forall q o, h !! q = Some o -> q ∉ l -> g q o = 0) -> hsum g h = lsum v l.
Proof.
  intros Hnd. revert h. induction Hnd as [|p l Hp Hnd IH]; intros h Hl H0.
  - cbn. rewrite (hsum_ext _ (fun _ _ => 0)) by (intros q o E; by apply H0, not_elem_of_nil).
    induction h as [|q o h Hq IHh] using map_ind; [by rewrite hsum_empty|]. rewrite hsum_insert by done.
    rewrite IHh; [done|intros q' ?%not_elem_of_nil; done|]. intros q' o' E. apply H0. by rewrite lookup_insert_ne by congruence.
  - destruct (Hl p ltac:(by left)) as (o & Eo & Hv).
    change (lsum v (p :: l)) with (v p + lsum v l). rewrite <- Hv. rewrite <- (IH (delete p h)).
    + rewrite (hsum_delete g h p o Eo). lia.
    + intros q Hq. destruct (Hl q ltac:(by right)) as (oq & Eq & Hvq). exists oq. rewrite lookup_delete_ne; [done|congruence].
    + intros q oq [Hne Eq]%lookup_delete_Some Hq. apply H0; [done|]. rewrite elem_of_cons. naive_solver.
Qed.

Lemma occ_bind p (f : ptr -> list ptr) l : occ p (l ≫= f) = lsum (fun q => occ p (f q)) l.
Proof. induction l as [|q l IH]; [done|]. cbn. by rewrite occ_app, IH. Qed.

Lemma occ_perm p l1 l2 : l1 ≡ₚ l2 -> occ p l1 = occ p l2.
Proof. intros H. unfold occ. by rewrite H. Qed.

Lemma unlink_perm p l : NoDup l -> p ∈ l -> l ≡ₚ p :: unlink p l.
Proof.
  intros Hnd Hp. apply NoDup_Permutation; [done| |].
  - apply NoDup_cons. split; [|by apply NoDup_unlink]. rewrite elem_of_unlink. tauto.
  - intros q. rewrite elem_of_cons, elem_of_unlink. destruct (decide (q = p)) as [->|]; tauto.
Qed.

(** An element is moved to the end. *)
Lemma unlink_move p l l' : NoDup l -> p ∈ l -> unlink p l ++ l' ++ [p] ≡ₚ l ++ l'.
Proof.
  intros Hnd Hp. rewrite (Permutation_app_comm l' [p]). etrans; [symmetry; apply Permutation_middle|].
  symmetry. exact (Permutation_app_tail l' (unlink_perm p l Hnd Hp)).
Qed.

Lemma length_heap l (h : gmap ptr GCObject) : NoDup l -> (forall p, p ∈ l -> is_Some (h !! p)) -> (length l <= size h)%nat.
Proof.
  intros Hnd Hl. rewrite <- (size_list_to_set (C := gset ptr)) by done. rewrite <- (size_dom h).
  apply subseteq_size. intros p Hp%elem_of_list_to_set. by apply elem_of_dom, Hl.
Qed.

Section passes.
Context (ext : ptr -> Z) (s0 : JSRuntime) (HW : runtime_wf ext s0).

Definition children (p : ptr) : list ptr :=
  match heap s0 !! p with Some o => mark_children (body o) | None => [] end.

Lemma children_alive p c : c ∈ children p -> exists o, heap s0 !! c = Some o /\ freed o = false.
Proof.
  unfold children. destruct (heap s0 !! p) as [o|] eqn:Eo; [|by intros ?%not_elem_of_nil].
  intros (r & Hr & Hs)%(mark_strong _ _ (rw_body_wf _ _ _ _ HW Eo)). by eapply strong_alive.
Qed.

Lemma children_reachable p c : reachable ext (heap s0) p -> c ∈ children p -> reachable ext (heap s0) c.
Proof.
  unfold children. destruct (heap s0 !! p) as [o|] eqn:Eo; [|by intros _ ?%not_elem_of_nil].
  intros Hp Hc. by apply (reach_ref _ _ p o).
Qed.

(** The references of the heap are the children of the listed objects. *)
Lemma heap_refs_children p : heap_refs p (heap s0) = occ p (gc_obj_list s0 ≫= children).
Proof.
  rewrite occ_bind. apply hsum_lsum.
  - apply HW.
  - intros q (o & Eo & Hf)%(rw_listed _ _ HW). exists o. split; [done|]. unfold children. rewrite Eo.
    symmetry. apply body_refs_strong. by apply (rw_body_wf ext s0 q).
  - intros q o Eo Hq. destruct (freed o) eqn:Hf.
    + unfold freed in Hf. by destruct (body o).
    + destruct Hq. apply (rw_listed _ _ HW). by exists o.
Qed.

(** ** What the passes keep *)

(** [o'] is [o] with another count and mark. *)
Definition recount (o o' : GCObject) : Prop :=
  body o' = body o /\ weakref_count o' = weakref_count o /\ link o' = link o.

(** In the heap, [N p] of the references to [p] are counted. *)
Record passed (N : ptr -> Z) (s : JSRuntime) : Prop := {
  ps_phase : gc_phase s = JS_GC_PHASE_NONE;
  ps_zero : gc_zero_ref_count_list s = [];
  ps_lists : gc_obj_list s ++ tmp_obj_list s ≡ₚ gc_obj_list s0;
  ps_dom p o : heap s0 !! p = Some o -> exists o', heap s !! p = Some o' /\ recount o o';
  ps_back p o' : heap s !! p = Some o' -> exists o, heap s0 !! p = Some o /\ recount o o';
  ps_count p o : heap s !! p = Some o -> ref_count o = ext p + N p;
}.

Lemma ps_nodup N s : passed N s -> NoDup (gc_obj_list s ++ tmp_obj_list s).
Proof. intros HP. rewrite (ps_lists _ _ HP). apply HW. Qed.

Lemma ps_listed N s p o : passed N s -> heap s !! p = Some o ->
  freed o = false <-> p ∈ gc_obj_list s \/ p ∈ tmp_obj_list s.
Proof.
  intros HP Eo. rewrite <- elem_of_app, (ps_lists _ _ HP), (rw_listed _ _ HW).
  destruct (ps_back _ _ HP p o Eo) as (o0 & Eo0 & Hb & _). unfold freed. rewrite Hb. rewrite Eo0. naive_solver.
Qed.

Lemma ps_children N s p o : passed N s -> heap s !! p = Some o -> mark_children (body o) = children p.
Proof.
  intros HP Eo. destruct (ps_back _ _ HP p o Eo) as (o0 & Eo0 & Hb & _). unfold children. by rewrite Eo0, Hb.
Qed.

Lemma ps_child N s p c : passed N s -> c ∈ children p -> exists o, heap s !! c = Some o /\ freed o = false.
Proof.
  intros HP (o & Eo & Hf)%children_alive. destruct (ps_dom _ _ HP c o Eo) as (o' & Eo' & Hb & _).
  exists o'. split; [done|]. unfold freed. by rewrite Hb.
Qed.

Lemma ps_in N s p : passed N s -> p ∈ gc_obj_list s \/ p ∈ tmp_obj_list s -> exists o, heap s !! p = Some o /\ freed o = false.
Proof.
  intros HP Hp. rewrite <- elem_of_app, (ps_lists _ _ HP) in Hp. apply (rw_listed _ _ HW) in Hp as (o & Eo & Hf).
  destruct (ps_dom _ _ HP p o Eo) as (o' & Eo' & Hb & _). exists o'. split; [done|]. unfold freed. by rewrite Hb.
Qed.

(** A step on the object [c]. *)
Lemma passed_step N N' s s' c o o' : passed N s -> heap s !! c = Some o -> recount o o' ->
  heap s' = <[c := o']> (heap s) -> gc_phase s' = gc_phase s -> gc_zero_ref_count_list s' = [] ->
  gc_obj_list s' ++ tmp_obj_list s' ≡ₚ gc_obj_list s ++ tmp_obj_list s ->
  ref_count o' = ext c + N' c -> (forall q, q <> c -> N' q = N q) -> passed N' s'.
Proof.
  intros HP Eo (B & W & L) Eh Hph HZ HL Hc HN. split.
  - rewrite Hph. apply HP.
  - done.
  - rewrite HL. apply HP.
  - intros q oq Eq. destruct (ps_dom _ _ HP q oq Eq) as (oq' & Eq' & B' & W' & L'). rewrite Eh.
    destruct (decide (q = c)) as [->|Hq].
    + exists o'. rewrite lookup_insert_eq. rewrite Eo in Eq'. apply (inj Some) in Eq'. subst oq'.
      split; [done|]. split_and!; congruence.
    + exists oq'. by rewrite lookup_insert_ne.
  - intros q oq' Eq. rewrite Eh in Eq. apply lookup_insert_Some in Eq as [[<- <-]|[Hq Eq]].
    + destruct (ps_back _ _ HP c o Eo) as (o0 & Eo0 & B' & W' & L'). exists o0. split; [done|]. split_and!; congruence.
    + by apply (ps_back _ _ HP).
  - intros q oq' Eq. rewrite Eh in Eq. apply lookup_insert_Some in Eq as [[<- <-]|[Hq Eq]]; [done|].
    rewrite HN by done. by apply (ps_count _ _ HP).
Qed.

Lemma passed_ext N N' s : (forall p, N' p = N p) -> passed N s -> passed N' s.
Proof. intros HN []. split; try done. intros p o Eo. rewrite HN. by apply ps_count0. Qed.

(** ** [gc_decref] *)

(** The objects of [done] were traversed, [todo] is what follows in [gc_obj_list]. *)
Record decref_inv (done todo : list ptr) (N : ptr -> Z) (s : JSRuntime) : Prop := {
  di_passed : passed N s;
  di_split : exists kept, gc_obj_list s = kept ++ todo /\ kept ++ tmp_obj_list s ≡ₚ done;
  di_mark p o : heap s !! p = Some o -> mark o = if decide (p ∈ done) then 1 else 0;
  di_tmp p o : heap s !! p = Some o -> p ∈ tmp_obj_list s <-> p ∈ done /\ ref_count o = 0;
}.

Lemma decref_done done todo N s p : decref_inv done todo N s -> p ∈ todo -> p ∉ done.
Proof.
  intros HD Hp Hd. pose proof (ps_nodup _ _ (di_passed _ _ _ _ HD)) as Hnd.
  destruct (di_split _ _ _ _ HD) as (kept & E & HP). rewrite E in Hnd. rewrite <- HP in Hd.
  rewrite (Permutation_app_comm kept todo), <- app_assoc in Hnd. apply NoDup_app in Hnd as (_ & H & _). by apply (H p).
Qed.

(** The traversed object [c], whose count is zero now, goes to [tmp_obj_list]. *)
Lemma decref_move done todo N s c : NoDup (gc_obj_list s ++ tmp_obj_list s) ->
  (exists kept, gc_obj_list s = kept ++ todo /\ kept ++ tmp_obj_list s ≡ₚ done) ->
  c ∈ done -> c ∉ tmp_obj_list s -> c ∉ todo -> gc_zero_ref_count_list s = N ->
  gc_obj_list (list_del c s) ++ tmp_obj_list (list_del c s) ++ [c] ≡ₚ gc_obj_list s ++ tmp_obj_list s /\
  tmp_obj_list (list_del c s) = tmp_obj_list s /\
  exists kept, gc_obj_list (list_del c s) = kept ++ todo /\ kept ++ tmp_obj_list s ++ [c] ≡ₚ done.
Proof.
  intros Hnd (kept & E & HP) Hc Ht Htd _. cbn. rewrite (unlink_notin c (tmp_obj_list s)) by done.
  assert (Hk : c ∈ kept) by (rewrite <- HP, elem_of_app in Hc; naive_solver).
  assert (Hnk : NoDup kept) by (rewrite E, <- app_assoc in Hnd; by apply NoDup_app in Hnd as (? & _)).
  split_and!; [|done|].
  - apply unlink_move; [by apply NoDup_app in Hnd as (? & _)|]. rewrite E, elem_of_app. by left.
  - exists (unlink c kept). rewrite E, unlink_app, (unlink_notin c todo) by done. split; [done|].
    rewrite <- HP. by apply unlink_move.
Qed.

Lemma gc_decref_child_spec done todo N s c o : decref_inv done todo N s -> heap s !! c = Some o -> 0 < N c ->
  (forall q, 0 <= N q) ->
  exists s', gc_decref_child s c = Some s' /\ decref_inv done todo (fun q => N q - if decide (q = c) then 1 else 0) s'.
Proof.
  intros HD Eo HN HN0. pose proof (di_passed _ _ _ _ HD) as HP. pose proof (ps_count _ _ HP c o Eo) as Hc.
  pose proof (rw_ext _ _ HW c) as He. unfold gc_decref_child. rewrite Eo. cbn [mbind option_bind].
  rewrite option_guard_True by lia. cbn [mbind option_bind]. set (n := ref_count o - 1). set (o' := with_count n o).
  assert (HPs : forall s', heap s' = <[c := o']> (heap s) -> gc_phase s' = gc_phase s -> gc_zero_ref_count_list s' = [] ->
    gc_obj_list s' ++ tmp_obj_list s' ≡ₚ gc_obj_list s ++ tmp_obj_list s ->
    passed (fun q => N q - if decide (q = c) then 1 else 0) s').
  { intros s' Eh Hph HZ HL. apply (passed_step N _ s s' c o o'); try done.
    - cbn. rewrite decide_True by done. unfold n. lia.
    - intros q Hq. rewrite decide_False by done. lia. }
  assert (Hcnt : c ∉ tmp_obj_list s) by (intros [_ H]%(di_tmp _ _ _ _ HD c o); [lia|done]).
  assert (Hmk : forall q oq, <[c := o']> (heap s) !! q = Some oq -> mark oq = if decide (q ∈ done) then 1 else 0).
  { intros q oq [[<- <-]|[_ Eq]]%lookup_insert_Some; [cbn|]; by apply (di_mark _ _ _ _ HD). }
  pose proof (di_mark _ _ _ _ HD c o Eo) as Hm. destruct ((n =? 0) && (mark o =? 1)) eqn:Ez.
  - assert (Hcd : c ∈ done) by (case_decide; [done|lia]). assert (Hn : n = 0) by lia.
    assert (Htd : c ∉ todo) by (intros H; by apply (decref_done _ _ _ _ _ HD H)).
    destruct (decref_move done todo _ s c (ps_nodup _ _ HP) (di_split _ _ _ _ HD) Hcd Hcnt Htd eq_refl) as (HL & HT & HK).
    eexists. split; [done|]. split.
    + apply HPs; try done. cbn. by rewrite (ps_zero _ _ HP).
    + destruct HK as (kept & E & HKp). exists kept. split; [exact E|]. rewrite <- HT in HKp. exact HKp.
    + cbn. apply Hmk.
    + intros q oq Eq. change (q ∈ tmp_obj_list (list_del c s) ++ [c] <-> q ∈ done /\ ref_count oq = 0).
      rewrite HT, elem_of_app, list_elem_of_singleton. cbn in Eq.
      apply lookup_insert_Some in Eq as [[<- <-]|[Hq Eq]]; [cbn; naive_solver|].
      rewrite (di_tmp _ _ _ _ HD q oq Eq). naive_solver.
  - eexists. split; [done|]. split.
    + apply HPs; try done. apply HP.
    + apply HD.
    + apply Hmk.
    + cbn. intros q oq [[<- <-]|[Hq Eq]]%lookup_insert_Some; [|by apply (di_tmp _ _ _ _ HD)].
      cbn. split; [done|]. intros [Hd Hn]. rewrite decide_True in Hm by done. lia.
Qed.

Lemma decref_children done todo s p o : heap s !! p = Some o ->
  decref_inv done (p :: todo) (fun q => occ q ((p :: todo) ≫= children)) s ->
  exists s', foldM gc_decref_child (mark_children (body o)) s = Some s' /\
    decref_inv done (p :: todo) (fun q => occ q (todo ≫= children)) s'.
Proof.
  intros Eo HD. rewrite (ps_children _ _ _ _ (di_passed _ _ _ _ HD) Eo).
  destruct (foldM_inv gc_decref_child (fun l s => (forall c, c ∈ l -> c ∈ children p) /\
    decref_inv done (p :: todo) (fun q => occ q l + occ q (todo ≫= children)) s) (children p) s) as (s' & E & _ & HD').
  - split; [done|]. destruct HD as [HP ? ? ?]. split; try done. apply (passed_ext _ _ _ (fun q => eq_sym (occ_app q (children p) (todo ≫= children))) HP).
  - intros c l s1 [Hl HD1]. destruct (ps_child _ _ p c (di_passed _ _ _ _ HD1)) as (oc & Ec & _); [by apply Hl; left|].
    pose proof (occ_nonneg c l). pose proof (occ_nonneg c (todo ≫= children)).
    destruct (gc_decref_child_spec _ _ _ s1 c oc HD1 Ec) as (s2 & E2 & HD2).
    + rewrite occ_cons, decide_True by done. lia.
    + intros q. pose proof (occ_nonneg q (c :: l)). pose proof (occ_nonneg q (todo ≫= children)). lia.
    + exists s2. split; [done|]. split; [intros; apply Hl; by right|].
      destruct HD2 as [HP ? ? ?]. split; try done. eapply passed_ext; [|exact HP]. intros q. cbn. rewrite occ_cons. lia.
  - by exists s'.
Qed.

(** The object [p] is marked; it stays in [gc_obj_list] if it has references. *)
Definition decref_mark (p : ptr) (o : GCObject) (s : JSRuntime) : JSRuntime :=
  let s := write p (with_mark 1 o) s in
  if ref_count o =? 0
  then let s := list_del p s in set_tmp_list (tmp_obj_list s ++ [p]) s else s.

Lemma decref_mark_spec done todo N s p o : decref_inv done (p :: todo) N s -> heap s !! p = Some o ->
  decref_inv (p :: done) todo N (decref_mark p o s).
Proof.
  intros HD Eo. pose proof (di_passed _ _ _ _ HD) as HP. pose proof (ps_nodup _ _ HP) as Hnd.
  assert (Hd : p ∉ done) by (apply (decref_done _ _ _ _ p HD); by left).
  assert (Ht : p ∉ tmp_obj_list s) by (intros H; apply (di_tmp _ _ _ _ HD p o Eo) in H as [? _]; done).
  assert (HPs : forall s', heap s' = <[p := with_mark 1 o]> (heap s) -> gc_phase s' = gc_phase s ->
    gc_zero_ref_count_list s' = [] -> gc_obj_list s' ++ tmp_obj_list s' ≡ₚ gc_obj_list s ++ tmp_obj_list s ->
    passed N s').
  { intros s' Eh Hph HZ HL. apply (passed_step N N s s' p o (with_mark 1 o)); try done. by apply (ps_count _ _ HP p o). }
  assert (Hmk : forall q oq, <[p := with_mark 1 o]> (heap s) !! q = Some oq -> mark oq = if decide (q ∈ p :: done) then 1 else 0).
  { intros q oq [[<- <-]|[Hq Eq]]%lookup_insert_Some; [by rewrite decide_True by left|].
    rewrite (di_mark _ _ _ _ HD q oq Eq). repeat case_decide; rewrite elem_of_cons in *; naive_solver. }
  destruct (di_split _ _ _ _ HD) as (kept & E & HK). unfold decref_mark. cbv zeta.
  destruct (Z.eqb_spec (ref_count o) 0) as [E0|E0].
  - assert (Hmv : unlink p (gc_obj_list s) ++ tmp_obj_list s ++ [p] ≡ₚ gc_obj_list s ++ tmp_obj_list s).
    { apply unlink_move; [by apply NoDup_app in Hnd as (? & _)|]. rewrite E, elem_of_app. right. by left. }
    set (s' := list_del p (write p (with_mark 1 o) s)).
    assert (HT : tmp_obj_list s' = tmp_obj_list s) by (by apply unlink_notin).
    split.
    + apply HPs; try done; [change (unlink p (gc_zero_ref_count_list s) = []); by rewrite (ps_zero _ _ HP)|].
      cbn [set_tmp_list tmp_obj_list gc_obj_list]. by rewrite HT.
    + exists kept. cbn [set_tmp_list tmp_obj_list gc_obj_list]. rewrite HT. split.
      * change (unlink p (gc_obj_list s) = kept ++ todo). rewrite E, unlink_app in *.
        apply NoDup_app in Hnd as ([_ [Hk [Hp _]%NoDup_cons]]%NoDup_app & _).
        rewrite unlink_head by done. rewrite unlink_notin; [done|]. intros H. apply (Hk p H). by left.
      * rewrite app_assoc, HK. by rewrite <- Permutation_cons_append.
    + apply Hmk.
    + cbn [set_tmp_list tmp_obj_list heap]. rewrite HT. intros q oq Eq. rewrite elem_of_app, list_elem_of_singleton, elem_of_cons.
      change (<[p := with_mark 1 o]> (heap s) !! q = Some oq) in Eq. apply lookup_insert_Some in Eq as [[<- <-]|[Hq Eq]]; [cbn; naive_solver|].
      rewrite (di_tmp _ _ _ _ HD q oq Eq). naive_solver.
  - split.
    + apply HPs; try done. apply HP.
    + exists (kept ++ [p]). rewrite <- app_assoc. split; [done|]. rewrite <- app_assoc. cbn.
      rewrite <- Permutation_middle. by rewrite HK.
    + apply Hmk.
    + intros q oq Eq. rewrite elem_of_cons. change (<[p := with_mark 1 o]> (heap s) !! q = Some oq) in Eq.
      apply lookup_insert_Some in Eq as [[<- <-]|[Hq Eq]]; [cbn; naive_solver|].
      rewrite (di_tmp _ _ _ _ HD q oq Eq : q ∈ tmp_obj_list (write p (with_mark 1 o) s) <-> _). naive_solver.
Qed.

Lemma decref_loop_spec fuel : forall done p todo s,
  decref_inv done (p :: todo) (fun q => occ q ((p :: todo) ≫= children)) s -> (length (p :: todo) <= fuel)%nat ->
  exists s' done', decref_loop fuel s (Some p) (head todo) = Some s' /\ decref_inv done' [] (fun _ => 0) s'.
Proof.
  induction fuel as [|fuel IH]; intros done p todo s HD Hf; [cbn in Hf; lia|]. cbn [decref_loop].
  destruct (di_split _ _ _ _ HD) as (kept & E & _). assert (Hp : p ∈ gc_obj_list s) by (rewrite E; set_solver).
  destruct (ps_in _ _ p (di_passed _ _ _ _ HD)) as (o & Eo & _); [by left|]. rewrite Eo. cbn [mbind option_bind].
  assert (Hpd : p ∉ done) by (apply (decref_done _ _ _ _ p HD); by left).
  rewrite option_guard_True by (rewrite (di_mark _ _ _ _ HD p o Eo); by rewrite decide_False). cbn [mbind option_bind].
  destruct (decref_children done todo s p o Eo HD) as (s1 & E1 & HD1). rewrite E1. cbn [mbind option_bind].
  destruct (di_split _ _ _ _ HD1) as (kept1 & E1' & _). destruct (ps_in _ _ p (di_passed _ _ _ _ HD1)) as (o1 & Eo1 & _).
  { left. rewrite E1'. set_solver. }
  rewrite Eo1. cbn [mbind option_bind]. pose proof (decref_mark_spec _ _ _ _ _ _ HD1 Eo1) as HD2.
  fold (decref_mark p o1 s1). destruct todo as [|q todo]; cbn [head]; [by eexists _, _|].
  destruct (di_split _ _ _ _ HD2) as (kept2 & E2 & _). pose proof (ps_nodup _ _ (di_passed _ _ _ _ HD2)) as Hnd.
  rewrite E2, next_in_app; cbn [mbind option_bind].
  - apply (IH (p :: done)); [done|]. cbn in *. lia.
  - rewrite E2 in Hnd. intros Hq. apply NoDup_app in Hnd as ([_ [Hk _]]%NoDup_app & _). apply (Hk q Hq). by left.
Qed.

(** After [gc_decref] the counts are the references from outside, and the objects that
    have none are in [tmp_obj_list]. *)
Record decref_post (s : JSRuntime) : Prop := {
  dp_passed : passed (fun _ => 0) s;
  dp_mark p o : heap s !! p = Some o -> mark o = if freed o then 0 else 1;
  dp_tmp p o : heap s !! p = Some o -> p ∈ tmp_obj_list s <-> freed o = false /\ ref_count o = 0;
}.

Lemma gc_decref_spec : exists s, gc_decref s0 = Some s /\ decref_post s.
Proof.
  assert (HP0 : passed (fun q => heap_refs q (heap s0)) (set_tmp_list [] s0)).
  { split; cbn.
    - apply HW.
    - apply HW.
    - by rewrite app_nil_r.
    - intros p o Eo. by exists o.
    - intros p o Eo. by exists o.
    - apply HW. }
  assert (HD0 : decref_inv [] (gc_obj_list s0) (fun q => occ q (gc_obj_list s0 ≫= children)) (set_tmp_list [] s0)).
  { split.
    - eapply passed_ext; [|exact HP0]. intros q. symmetry. apply heap_refs_children.
    - by exists [].
    - intros p o Eo. destruct (rw_object _ _ HW p o Eo) as [Hm _]. by rewrite Hm, decide_False by apply not_elem_of_nil.
    - intros p o Eo. cbn. rewrite !elem_of_nil. tauto. }
  assert (HF : exists s done, gc_decref s0 = Some s /\ decref_inv done [] (fun _ => 0) s).
  { unfold gc_decref. cbn [set_tmp_list gc_obj_list]. destruct (gc_obj_list s0) as [|p l] eqn:EL; [by eexists _, _|].
    by apply (decref_loop_spec _ [] p l). }
  destruct HF as (s & done & E & HD). exists s. split; [done|]. pose proof (di_passed _ _ _ _ HD) as HP.
  assert (Hdone : forall p o, heap s !! p = Some o -> p ∈ done <-> freed o = false).
  { intros p o Eo. rewrite (ps_listed _ _ p o HP Eo). destruct (di_split _ _ _ _ HD) as (kept & EK & HK).
    rewrite app_nil_r in EK. rewrite <- HK, EK, elem_of_app. done. }
  split; [done| |].
  - intros p o Eo. rewrite (di_mark _ _ _ _ HD p o Eo). pose proof (Hdone p o Eo). case_decide; destruct (freed o); naive_solver.
  - intros p o Eo. rewrite (di_tmp _ _ _ _ HD p o Eo), (Hdone p o Eo). done.
Qed.

(** ** [gc_scan] *)

(** The first loop: the references of the objects of [done] are counted again. *)
Record scan_inv (done todo : list ptr) (N : ptr -> Z) (s : JSRuntime) : Prop := {
  si_passed : passed N s;
  si_split : gc_obj_list s = done ++ todo;
  si_reach p : p ∈ gc_obj_list s -> reachable ext (heap s0) p;
  si_counted p o : heap s !! p = Some o -> freed o = false -> p ∈ gc_obj_list s <-> 0 < ref_count o;
  si_mark p o : heap s !! p = Some o ->
    (p ∈ done -> mark o = 0) /\ (p ∈ tmp_obj_list s -> mark o = 1) /\ (freed o = true -> mark o = 0);
}.

Lemma scan_inv_ext done todo N N' s : (forall q, N' q = N q) -> scan_inv done todo N s -> scan_inv done todo N' s.
Proof. intros HN []. split; try done. by apply (passed_ext N). Qed.

Lemma scan_disjoint N s p : passed N s -> p ∈ gc_obj_list s -> p ∈ tmp_obj_list s -> False.
Proof. intros HP%ps_nodup Hg Ht. apply NoDup_app in HP as (_ & H & _). by apply (H p). Qed.

Lemma gc_scan_incref_child_spec done todo N s c : scan_inv done todo N s -> reachable ext (heap s0) c ->
  (forall q, 0 <= N q) ->
  exists s' l, gc_scan_incref_child s c = Some s' /\
    scan_inv done (todo ++ l) (fun q => N q + if decide (q = c) then 1 else 0) s' /\
    (length (todo ++ l) + length (tmp_obj_list s') = length todo + length (tmp_obj_list s))%nat.
Proof.
  intros HS Hr HN. pose proof (si_passed _ _ _ _ HS) as HP.
  destruct (reachable_alive _ _ _ HW Hr) as (o0 & Eo0 & Hf0). destruct (ps_dom _ _ HP c o0 Eo0) as (o & Eo & Hb & _).
  assert (Hf : freed o = false) by (unfold freed; by rewrite Hb). pose proof (ps_count _ _ HP c o Eo) as Hc.
  pose proof (rw_ext _ _ HW c) as He. pose proof (HN c) as HNc.
  pose proof (si_counted _ _ _ _ HS c o Eo Hf) as Hcc. pose proof (ps_listed _ _ c o HP Eo) as Hl.
  unfold gc_scan_incref_child. rewrite Eo. cbn [mbind option_bind]. set (n := ref_count o + 1).
  assert (HPs : forall s' o', heap s' = <[c := o']> (heap s) -> recount o o' -> ref_count o' = n ->
    gc_phase s' = gc_phase s -> gc_zero_ref_count_list s' = [] ->
    gc_obj_list s' ++ tmp_obj_list s' ≡ₚ gc_obj_list s ++ tmp_obj_list s ->
    passed (fun q => N q + if decide (q = c) then 1 else 0) s').
  { intros s' o' Eh Hre Hn Hph HZ HL. apply (passed_step N _ s s' c o o'); try done.
    - cbn. rewrite decide_True by done. unfold n in Hn. lia.
    - intros q Hq. rewrite decide_False by done. lia. }
  destruct (Z.eqb_spec n 1) as [E1|E1].
  - assert (Hg : c ∉ gc_obj_list s) by (intros H; apply Hcc in H; lia).
    assert (Ht : c ∈ tmp_obj_list s) by (destruct Hl as [Hl _]; naive_solver).
    set (s' := list_del c (write c (with_mark 0 (with_count n o)) s)).
    assert (HG : gc_obj_list s' = gc_obj_list s) by (by apply unlink_notin).
    assert (Hpt : tmp_obj_list s ≡ₚ c :: tmp_obj_list s').
    { apply unlink_perm; [|done]. by apply ps_nodup, NoDup_app in HP as (_ & _ & ?). }
    exists (set_gc_list (gc_obj_list s' ++ [c]) s'), [c]. split; [done|]. split; [split|].
    + apply (HPs _ (with_mark 0 (with_count n o))); try done.
      * change (unlink c (gc_zero_ref_count_list s) = []). by rewrite (ps_zero _ _ HP).
      * cbn [set_gc_list gc_obj_list tmp_obj_list]. rewrite HG, Hpt, <- app_assoc. done.
    + cbn [set_gc_list gc_obj_list]. by rewrite HG, (si_split _ _ _ _ HS), <- app_assoc.
    + cbn [set_gc_list gc_obj_list]. intros q. rewrite HG, elem_of_app, list_elem_of_singleton. intros [Hq| ->]; [by apply (si_reach _ _ _ _ HS)|done].
    + cbn [set_gc_list gc_obj_list]. intros q oq Eq Hfq. rewrite HG, elem_of_app, list_elem_of_singleton.
      change (<[c := with_mark 0 (with_count n o)]> (heap s) !! q = Some oq) in Eq.
      apply lookup_insert_Some in Eq as [[<- <-]|[Hq Eq]]; [cbn; naive_solver lia|].
      rewrite (si_counted _ _ _ _ HS q oq Eq Hfq). naive_solver.
    + cbn [set_gc_list gc_obj_list tmp_obj_list]. intros q oq Eq.
      change (<[c := with_mark 0 (with_count n o)]> (heap s) !! q = Some oq) in Eq.
      apply lookup_insert_Some in Eq as [[<- <-]|[Hq Eq]].
      * split_and!; try done. intros H. by apply elem_of_unlink in H as [? _].
      * destruct (si_mark _ _ _ _ HS q oq Eq) as (M1 & M2 & M3). split_and!; try done. intros H. apply M2.
        by apply elem_of_unlink in H as [_ ?].
    + cbn [set_gc_list gc_obj_list tmp_obj_list]. rewrite Hpt, length_app. cbn [length]. lia.
  - assert (Hg : c ∈ gc_obj_list s) by (apply Hcc; lia).
    exists (write c (with_count n o) s), []. rewrite app_nil_r. split; [done|]. split; [split|].
    + apply (HPs _ (with_count n o)); try done. apply HP.
    + apply HS.
    + apply HS.
    + cbn. intros q oq [[<- <-]|[Hq Eq]]%lookup_insert_Some Hfq; [|by apply (si_counted _ _ _ _ HS)].
      cbn. split; [lia|done].
    + cbn. intros q oq [[<- <-]|[Hq Eq]]%lookup_insert_Some; [exact (si_mark _ _ _ _ HS c o Eo)|by apply (si_mark _ _ _ _ HS)].
    + done.
Qed.

Lemma scan_children done todo N s p o : heap s !! p = Some o -> reachable ext (heap s0) p -> (forall q, 0 <= N q) ->
  scan_inv done todo N s ->
  exists s' l, foldM gc_scan_incref_child (mark_children (body o)) s = Some s' /\
    scan_inv done (todo ++ l) (fun q => N q + occ q (children p)) s' /\
    (length (todo ++ l) + length (tmp_obj_list s') = length todo + length (tmp_obj_list s))%nat.
Proof.
  intros Eo Hr HN HS. rewrite (ps_children _ _ _ _ (si_passed _ _ _ _ HS) Eo).
  destruct (foldM_inv gc_scan_incref_child (fun rest s1 => exists pre l, children p = pre ++ rest /\
    scan_inv done (todo ++ l) (fun q => N q + occ q pre) s1 /\
    (length (todo ++ l) + length (tmp_obj_list s1) = length todo + length (tmp_obj_list s))%nat) (children p) s)
    as (s' & E & pre & l & Ep & HS' & HL).
  - exists [], []. split; [done|]. rewrite app_nil_r. split; [|done]. eapply scan_inv_ext; [|exact HS].
    intros q. cbn. rewrite occ_nil. lia.
  - intros c rest s1 (pre & l & Ep & HS1 & HL).
    destruct (gc_scan_incref_child_spec done (todo ++ l) _ s1 c HS1) as (s2 & l2 & E2 & HS2 & HL2).
    + apply (children_reachable p); [done|]. rewrite Ep. set_solver.
    + intros q. pose proof (occ_nonneg q pre). pose proof (HN q). lia.
    + exists s2. split; [done|]. exists (pre ++ [c]), (l ++ l2). rewrite app_assoc, <- app_assoc. split; [done|]. split; [|lia].
      eapply scan_inv_ext; [|exact HS2]. intros q. cbn. rewrite occ_app, occ_cons, occ_nil. lia.
  - rewrite app_nil_r in Ep. subst pre. by exists s', l.
Qed.

Lemma scan_mark done todo N s p o : scan_inv done (p :: todo) N s -> heap s !! p = Some o ->
  scan_inv (done ++ [p]) todo N (write p (with_mark 0 o) s).
Proof.
  intros HS Eo. pose proof (si_passed _ _ _ _ HS) as HP.
  assert (Hp : p ∈ gc_obj_list s) by (rewrite (si_split _ _ _ _ HS); set_solver). split.
  - apply (passed_step _ _ s _ p o (with_mark 0 o) HP Eo); try done; [apply HP|]. by apply (ps_count _ _ HP p o).
  - rewrite <- app_assoc. apply HS.
  - apply HS.
  - cbn. intros q oq [[<- <-]|[Hq Eq]]%lookup_insert_Some Hfq; [exact (si_counted _ _ _ _ HS p o Eo Hfq)|by apply (si_counted _ _ _ _ HS)].
  - cbn. intros q oq [[<- <-]|[Hq Eq]]%lookup_insert_Some.
    + split_and!; try done. intros Ht. by destruct (scan_disjoint _ _ _ HP Hp Ht).
    + destruct (si_mark _ _ _ _ HS q oq Eq) as (M1 & M2 & M3). split_and!; try done.
      intros [Hd|Hd%list_elem_of_singleton]%elem_of_app; [by apply M1|congruence].
Qed.

Lemma scan_loop_spec fuel : forall done todo s,
  scan_inv done todo (fun q => occ q (done ≫= children)) s -> (length todo + length (tmp_obj_list s) <= fuel)%nat ->
  exists s' done', scan_loop fuel s (head todo) = Some s' /\ scan_inv done' [] (fun q => occ q (done' ≫= children)) s'.
Proof.
  induction fuel as [|fuel IH]; intros done todo s HS Hf;
    (destruct todo as [|p todo]; [by exists s, done|]); [cbn in Hf; lia|]. cbn [scan_loop head].
  pose proof (si_split _ _ _ _ HS) as E. assert (Hp : p ∈ gc_obj_list s) by (rewrite E; set_solver).
  destruct (ps_in _ _ p (si_passed _ _ _ _ HS)) as (o & Eo & Hfo); [by left|]. rewrite Eo. cbn [mbind option_bind].
  rewrite option_guard_True by (by apply (si_counted _ _ _ _ HS p o)). cbn [mbind option_bind].
  destruct (scan_children (done ++ [p]) todo (fun q => occ q (done ≫= children)) (write p (with_mark 0 o) s) p (with_mark 0 o)) as (s2 & l & E2 & HS2 & HL2).
  { cbn. by rewrite lookup_insert_eq. }
  { by apply (si_reach _ _ _ _ HS). }
  { intros q. apply occ_nonneg. }
  { by apply scan_mark. }
  change (body (with_mark 0 o)) with (body o) in E2. rewrite E2. cbn [mbind option_bind].
  pose proof (si_split _ _ _ _ HS2) as E3. pose proof (ps_nodup _ _ (si_passed _ _ _ _ HS2)) as Hnd.
  rewrite <- app_assoc in E3. cbn [app] in E3. rewrite E3, next_in_app; cbn [mbind option_bind].
  - apply (IH (done ++ [p])); [|cbn in *; lia]. eapply scan_inv_ext; [|exact HS2].
    intros q. cbn. rewrite bind_app, occ_app. cbn. by rewrite app_nil_r.
  - rewrite E3 in Hnd. intros Hq. apply NoDup_app in Hnd as ([_ [Hk _]]%NoDup_app & _). apply (Hk p Hq). by left.
Qed.

(** The second loop counts the references of the other objects. *)
Lemma restore_spec N s l : passed (fun q => N q) s -> (forall p, p ∈ l -> p ∈ gc_obj_list s0) ->
  exists s', foldM restore_child l s = Some s' /\ passed (fun q => N q + occ q (l ≫= children)) s' /\
    gc_obj_list s' = gc_obj_list s /\ tmp_obj_list s' = tmp_obj_list s /\
    forall p o', heap s' !! p = Some o' -> exists o, heap s !! p = Some o /\ mark o' = mark o.
Proof.
  intros HP Hl.
  destruct (foldM_inv restore_child (fun rest s1 => exists pre, l = pre ++ rest /\
    passed (fun q => N q + occ q (pre ≫= children)) s1 /\ gc_obj_list s1 = gc_obj_list s /\ tmp_obj_list s1 = tmp_obj_list s /\
    forall p o', heap s1 !! p = Some o' -> exists o, heap s !! p = Some o /\ mark o' = mark o) l s)
    as (s' & E & pre & El & HP' & HR).
  - exists []. split; [done|]. split; [|by eauto]. eapply passed_ext; [|exact HP]. intros q. cbn. rewrite occ_nil. lia.
  - intros p rest s1 (pre & El & HP1 & HG1 & HT1 & HM1).
    assert (Hp : p ∈ gc_obj_list s0) by (apply Hl; rewrite El; set_solver).
    destruct (ps_in _ _ p HP1) as (o & Eo & _); [by rewrite <- elem_of_app, (ps_lists _ _ HP1)|].
    unfold restore_child. rewrite Eo. cbn [mbind option_bind]. rewrite (ps_children _ _ _ _ HP1 Eo).
    destruct (foldM_inv gc_scan_incref_child2 (fun rest s2 => exists pre2, children p = pre2 ++ rest /\
      passed (fun q => N q + occ q (pre ≫= children) + occ q pre2) s2 /\ gc_obj_list s2 = gc_obj_list s /\ tmp_obj_list s2 = tmp_obj_list s /\
      forall p o', heap s2 !! p = Some o' -> exists o, heap s !! p = Some o /\ mark o' = mark o) (children p) s1)
      as (s2 & E2 & pre2 & Ep & HP2 & HR2).
    + exists []. split; [done|]. split; [|done]. eapply passed_ext; [|exact HP1]. intros q. cbn. rewrite occ_nil. lia.
    + intros c rest2 s2 (pre2 & Ep & HP2 & HG2 & HT2 & HM2).
      destruct (ps_child _ _ p c HP2) as (oc & Ec & _); [rewrite Ep; set_solver|].
      unfold gc_scan_incref_child2. rewrite Ec. cbn [mbind option_bind]. eexists. split; [done|].
      exists (pre2 ++ [c]). rewrite <- app_assoc. split; [done|]. split_and!; try done.
      * apply (passed_step _ _ s2 _ c oc (with_count (ref_count oc + 1) oc) HP2 Ec); try done; [apply HP2| |].
        -- cbn. rewrite occ_app, occ_cons, occ_nil, decide_True by done. pose proof (ps_count _ _ HP2 c oc Ec) as Hc. cbn in Hc. lia.
        -- intros q Hq. rewrite occ_app, occ_cons, occ_nil, decide_False by done. lia.
      * cbn. intros q oq [[<- <-]|[Hq Eq]]%lookup_insert_Some; [exact (HM2 c oc Ec)|by apply HM2].
    + exists s2. split; [done|]. exists (pre ++ [p]). rewrite <- app_assoc. split; [done|]. split; [|done].
      rewrite app_nil_r in Ep. subst pre2. eapply passed_ext; [|exact HP2]. intros q. cbn.
      rewrite bind_app, occ_app. cbn. rewrite app_nil_r. lia.
  - rewrite app_nil_r in El. subst pre. by exists s'.
Qed.

(** After the two passes the counts are restored, the reachable objects are in
    [gc_obj_list] and unmarked, the others are in [tmp_obj_list] and marked. *)
Record scanned (s : JSRuntime) : Prop := {
  sc_passed : passed (fun q => heap_refs q (heap s0)) s;
  sc_reach p : p ∈ gc_obj_list s <-> reachable ext (heap s0) p;
  sc_mark p o : heap s !! p = Some o ->
    (p ∈ gc_obj_list s -> mark o = 0) /\ (p ∈ tmp_obj_list s -> mark o = 1) /\ (freed o = true -> mark o = 0);
}.

Lemma gc_scan_spec s : decref_post s -> exists s', gc_scan s = Some s' /\ scanned s'.
Proof.
  intros [HP Hm Ht]. pose proof (fun p => rw_ext _ _ HW p) as He.
  assert (HS0 : scan_inv [] (gc_obj_list s) (fun q => occ q ([] ≫= children)) s).
  { split; try done.
    - intros p Hp. destruct (ps_in _ _ p HP) as (o & Eo & Hf); [by left|]. destruct (ps_back _ _ HP p o Eo) as (o0 & Eo0 & _).
      apply reach_root; [|by exists o0]. pose proof (ps_count _ _ HP p o Eo) as Hc. cbn in Hc. specialize (He p).
      destruct (Z.eq_dec (ref_count o) 0) as [E0|]; [|lia].
      destruct (scan_disjoint _ _ p HP); [done|]. by apply (Ht p o).
    - intros p o Eo Hf. pose proof (ps_count _ _ HP p o Eo) as Hc. cbn in Hc. specialize (He p).
      pose proof (ps_listed _ _ p o HP Eo) as [Hl _]. specialize (Hl Hf). specialize (Ht p o Eo). split.
      + intros Hp. destruct (Z.eq_dec (ref_count o) 0) as [E0|]; [|lia]. destruct (scan_disjoint _ _ p HP); naive_solver.
      + intros Hr. destruct Hl as [|Hl]; [done|]. apply Ht in Hl. lia.
    - intros p o Eo. rewrite (Hm p o Eo). split_and!; [by intros ?%not_elem_of_nil| |by intros ->].
      intros [-> _]%(Ht p o Eo). done. }
  destruct (scan_loop_spec (size (heap s)) [] (gc_obj_list s) s HS0) as (s1 & done & E1 & HS1).
  { rewrite <- length_app. apply length_heap; [by apply (ps_nodup _ _ HP)|].
    intros p Hp%elem_of_app. destruct (ps_in _ _ p HP Hp) as (o & Eo & _). by exists o. }
  pose proof (si_passed _ _ _ _ HS1) as HP1. pose proof (si_split _ _ _ _ HS1) as Es. rewrite app_nil_r in Es. subst done.
  destruct (restore_spec _ s1 (tmp_obj_list s1) HP1) as (s2 & E2 & HP2 & HG2 & HT2 & HM2).
  { intros p Hp. rewrite <- (ps_lists _ _ HP1), elem_of_app. by right. }
  exists s2. unfold gc_scan. rewrite E1. cbn [mbind option_bind]. split; [done|]. split.
  - eapply passed_ext; [|exact HP2]. intros q. rewrite heap_refs_children. cbn.
    rewrite <- occ_app, <- bind_app. apply occ_perm. by rewrite (ps_lists _ _ HP1).
  - intros p. rewrite HG2. split; [apply HS1|]. induction 1 as [p Hp [o0 Eo0]|q oq p Hq IH Eq Hp].
    + pose proof (rw_root_alive _ _ _ _ HW Eo0 Hp) as Hf. destruct (ps_dom _ _ HP1 p o0 Eo0) as (o & Eo & Hb & _).
      apply (si_counted _ _ _ _ HS1 p o Eo); [unfold freed; by rewrite Hb|]. rewrite (ps_count _ _ HP1 p o Eo). cbn.
      pose proof (occ_nonneg p (gc_obj_list s1 ≫= children)). lia.
    + assert (Hc : p ∈ children q) by (unfold children; by rewrite Eq). destruct (ps_child _ _ q p HP1 Hc) as (o & Eo & Hf).
      apply (si_counted _ _ _ _ HS1 p o Eo Hf). rewrite (ps_count _ _ HP1 p o Eo). cbn. specialize (He p).
      assert (0 < occ p (gc_obj_list s1 ≫= children)); [|lia]. apply occ_pos, list_elem_of_bind. by exists q.
  - intros p o Eo. rewrite HG2, HT2. destruct (HM2 p o Eo) as (o1 & Eo1 & ->).
    destruct (si_mark _ _ _ _ HS1 p o1 Eo1) as (M1 & M2 & M3). split_and!; try done. intros Hf. apply M3.
    destruct (ps_back _ _ HP2 p o Eo) as (o0 & Eo0 & B & _). destruct (ps_back _ _ HP1 p o1 Eo1) as (o0' & Eo0' & B' & _).
    rewrite Eo0 in Eo0'. apply (inj Some) in Eo0'. subst o0'. unfold freed in *. rewrite B'. by rewrite B in Hf.
Qed.
End passes.
