(* ===== verification/GcCycle.v ===== *)
(** * The cycle collector

    [gc_free_cycles] and [JS_RunGC]: an execution of the collector frees exactly the
    objects that are not reachable, touches no freed memory and leaves a well-formed
    heap. *)
From S2P Require Export GcPasses.

(** ** From the passes to the invariant of the frees *)

Lemma hsum_bodies (f : JSBody -> Z) h h' :
  (forall p o, h !! p = Some o -> exists o', h' !! p = Some o' /\ body o' = body o) ->
  (forall p o', h' !! p = Some o' -> exists o, h !! p = Some o /\ body o' = body o) ->
  hsum (fun _ o => f (body o)) h' = hsum (fun _ o => f (body o)) h.
Proof.
  intros H1 H2. set (v q := from_option (fun o => f (body o)) 0 (h !! q)).
  assert (Hl : NoDup (elements (dom h))) by apply NoDup_elements.
  rewrite (hsum_lsum _ v (elements (dom h)) h'), (hsum_lsum _ v (elements (dom h)) h); try done; unfold v.
  - intros q [o Eo]%elem_of_elements%elem_of_dom. exists o. by rewrite Eo.
  - intros q o Eo Hq. destruct Hq. by apply elem_of_elements, elem_of_dom.
  - intros q [o Eo]%elem_of_elements%elem_of_dom. destruct (H1 q o Eo) as (o' & Eo' & B). exists o'. by rewrite Eo, B.
  - intros q o' Eo' Hq. destruct Hq. destruct (H2 q o' Eo') as (o & Eo & _). by apply elem_of_elements, elem_of_dom.
Qed.

Section cycle.
Context (ext : ptr -> Z).

Lemma scanned_inv s0 s : runtime_wf ext s0 -> scanned ext s0 s ->
  inv ext {[ p | reachable ext (heap s0) p ]} ∅ [] (set_phase JS_GC_PHASE_REMOVE_CYCLES s).
Proof.
  intros HW HS. pose proof (sc_passed _ _ _ HS) as HP. pose proof (ps_nodup _ _ HW _ _ HP) as Hnd.
  destruct (reachable_kept ext s0 HW ext) as [HK1 HK2]; [intros p; pose proof (rw_ext _ _ HW p); lia|].
  assert (HL : lists (set_phase JS_GC_PHASE_REMOVE_CYCLES s) = gc_obj_list s ++ tmp_obj_list s).
  { unfold lists. cbn. by rewrite (ps_zero _ _ _ _ HP), app_nil_r. }
  assert (Hd : forall p o, heap s0 !! p = Some o -> exists o', heap s !! p = Some o' /\ body o' = body o).
  { intros p o Eo. destruct (ps_dom _ _ _ _ HP p o Eo) as (o' & Eo' & B & _). by exists o'. }
  assert (Hb : forall p o', heap s !! p = Some o' -> exists o, heap s0 !! p = Some o /\ recount o o') by apply HP.
  assert (Hb' : forall p o', heap s !! p = Some o' -> exists o, heap s0 !! p = Some o /\ body o' = body o).
  { intros p o' (o & Eo & B & _)%Hb. by exists o. }
  assert (HN : forall p, refcnt ∅ [] p (heap s) = heap_refs p (heap s0)).
  { intros p. rewrite refcnt_empty by apply not_in_empty. by apply (hsum_bodies (fun b => cnt p (body_refs b))). }
  assert (HWk : forall p, weakcnt ∅ [] p (heap s) = heap_weak_refs p (heap s0)).
  { intros p. rewrite weakcnt_empty by apply not_in_empty. by apply (hsum_bodies (fun b => wcnt p (body_refs b))). }
  assert (Hrc : forall p o o', heap s0 !! p = Some o -> heap s !! p = Some o' -> ref_count o' = ref_count o).
  { intros p o o' Eo Eo'. rewrite (ps_count _ _ _ _ HP p o' Eo'). symmetry. by apply (rw_count _ _ HW). }
  split; rewrite ?HL; cbn; try done.
  - apply HW.
  - intros q o r Eq _ Hr. destruct (Hb' q o Eq) as (o0 & Eo0 & B). rewrite B in Hr.
    destruct (rw_refs _ _ HW q o0 r Eo0 Hr) as (ot & Et & Ht). destruct (Hd _ _ Et) as (ot' & Et' & Bt).
    exists ot'. split; [done|]. unfold gc_obj_type in *. by rewrite Bt.
  - intros r Hr. by apply not_elem_of_nil in Hr.
  - intros p o Eo. destruct (Hb p o Eo) as (o0 & Eo0 & B & W & L). pose proof (Hrc p o0 o Eo0 Eo) as Er.
    destruct (rw_object _ _ HW p o0 Eo0) as [_ Ho]. destruct (sc_mark _ _ _ HS p o Eo) as (M1 & M2 & M3).
    assert (Ef : freed o = freed o0) by (unfold freed; by rewrite B).
    assert (Et : gc_obj_type o = gc_obj_type o0) by (unfold gc_obj_type; by rewrite B).
    pose proof (ps_count _ _ _ _ HP p o Eo) as Hc. cbn in Hc. pose proof (ps_listed _ _ HW _ _ p o HP Eo) as Hl.
    split; rewrite ?HL; cbn; rewrite ?HN, ?HWk; try done.
    + lia.
    + rewrite W. by apply (rw_weak _ _ HW).
    + intros Hdf. rewrite decide_False by apply not_in_empty. rewrite Ef, Er in *. destruct (freed o0); [|by destruct Ho].
      destruct Ho as (Ht & _). by rewrite Et, Ht in Hdf.
    + intros Hf _. rewrite Ef in Hf. rewrite Hf in Ho. destruct Ho as (Ht & Hr0 & Hw0). rewrite Er, Et, W. split_and!; try done.
      rewrite elem_of_app, <- Hl. congruence.
    + intros Hf _ Hr0. rewrite Ef in Hf. rewrite Hf in Ho. destruct Ho. lia.
    + intros Hor. rewrite elem_of_app, <- Hl. destruct (freed o) eqn:Ef'; [|done]. destruct Hor as [|Hm]; [done|]. by rewrite M3 in Hm.
    + rewrite B. by apply (rw_run _ _ HW).
    + intros c Hlk. right. split; [apply not_in_empty|]. rewrite L in Hlk.
      destruct (rw_link _ _ HW p o0 c Eo0 Hlk) as (oc & ms & vs & shs & Ec & Bc & Hp). destruct (Hd c oc Ec) as (oc' & Ec' & Bc').
      exists oc', ms, vs, shs. rewrite Bc'. done.
    + intros _. rewrite elem_of_PropSet, <- (sc_reach _ _ _ HS). split_and!.
      * intros Hf. split; [|done]. intros Hm. apply Hl in Hf as [|Hf]; [done|]. rewrite M2 in Hm by done. done.
      * done.
      * intros Ht. apply Hl. by right.
      * rewrite (ps_zero _ _ _ _ HP). by intros ?%not_elem_of_nil.
  - intros p Hp%elem_of_app. destruct (ps_in _ _ HW _ _ p HP Hp) as (o & Eo & _). by exists o.
  - intros p Hp. destruct (HK1 p Hp) as (o & Eo & Hf & Hcl). destruct (Hd p o Eo) as (o' & Eo' & B). exists o'.
    unfold freed in *. rewrite B. by split_and!.
  - intros p Hp. destruct (HK2 p Hp) as [|(q & o & r & Hq & Eq & Hr & Hs)]; [by left|right].
    destruct (Hd q o Eq) as (o' & Eo' & B). exists q, o', r. by rewrite B.
Qed.

(** ** The first loop of [gc_free_cycles] *)

Context (S : propset ptr).

(** What the references from outside reach is kept. *)
Definition roots_kept (s : JSRuntime) : Prop := forall p, is_Some (heap s !! p) -> 0 < ext p -> p ∈ S.

Lemma roots_kept_frees s s' : roots_kept s -> frees_only S s s' -> roots_kept s'.
Proof. intros HR HF p [o Eo] He. apply HR; [|done]. destruct (sh_body _ _ _ HF p o Eo) as (o0 & E0 & _). by exists o0. Qed.

Lemma inv_move s p o : inv ext S ∅ [] s -> gc_phase s = JS_GC_PHASE_REMOVE_CYCLES -> heap s !! p = Some o ->
  p ∈ tmp_obj_list s -> deferred (gc_obj_type o) = false ->
  inv ext S ∅ [] (set_zero_list (gc_zero_ref_count_list (list_del p s) ++ [p]) (list_del p s)).
Proof.
  intros HI Hph Eo Ht Hd. set (s' := set_zero_list _ _). pose proof (i_nodup _ _ _ _ _ HI) as Hnd.
  pose proof (i_obj _ _ _ _ _ HI p o Eo) as Ho. destruct (ok_immediate _ _ _ _ _ _ _ Ho Hd) as [Hf _].
  assert (HP : lists s' ≡ₚ p :: unlink p (lists s)).
  { unfold s', lists. cbn. rewrite !unlink_app, !app_assoc. by rewrite <- Permutation_cons_append. }
  assert (Hl : p ∈ lists s') by (rewrite HP; by left).
  assert (Hg : p ∉ gc_obj_list s).
  { intros Hg. unfold lists in Hnd. apply NoDup_app in Hnd as (_ & H & _). apply (H p Hg), elem_of_app. by left. }
  apply (inv_step ext S ∅ [] [] s s' p o o HI); try done.
  - by left.
  - unfold s'. cbn. by rewrite insert_id.
  - rewrite HP. apply NoDup_cons. split; [rewrite elem_of_unlink; tauto|by apply NoDup_unlink].
  - intros q Hq. destruct (same_place_list_del ext p q s Hq) as (P1 & P2 & P3). unfold s', same_place. cbn in *.
    rewrite P1, P2, elem_of_app, P3, list_elem_of_singleton. naive_solver.
  - unfold s'. cbn. by intros ->.
  - destruct Ho. split; try done.
    + congruence.
    + unfold s'. cbn. by rewrite Hph.
    + intros _. destruct (ok_remove Hph) as (R1 & R2 & _ & _). split_and!; try done.
      unfold s'. cbn. rewrite elem_of_unlink. tauto.
Qed.

Lemma cycles_loop_spec fuel : forall s, inv ext S ∅ [] s -> gc_phase s = JS_GC_PHASE_REMOVE_CYCLES -> roots_kept s ->
  (length (tmp_obj_list s) <= fuel)%nat ->
  exists s', cycles_loop fuel s = Some s' /\ inv ext S ∅ [] s' /\ tmp_obj_list s' = [] /\ frees_only S s s'.
Proof.
  induction fuel as [|fuel IH]; intros s HI Hph HR Hf; cbn [cycles_loop];
    (destruct (tmp_obj_list s) as [|p l] eqn:ET; [exists s; split_and!; try done; apply frees_only_refl|]); [cbn in Hf; lia|].
  assert (Hpt : p ∈ tmp_obj_list s) by (rewrite ET; by left). pose proof (i_nodup _ _ _ _ _ HI) as Hnd.
  destruct (i_listed _ _ _ _ _ HI p) as [o Eo]; [unfold lists; set_solver|]. rewrite Eo. cbn [mbind option_bind].
  pose proof (i_obj _ _ _ _ _ HI p o Eo) as Ho. destruct (ok_remove _ _ _ _ _ _ _ Ho Hph) as (R1 & R2 & R3 & R4).
  assert (Hg : p ∉ gc_obj_list s).
  { intros Hg. unfold lists in Hnd. apply NoDup_app in Hnd as (_ & H & _). apply (H p Hg), elem_of_app. by left. }
  assert (HpS : p ∉ S) by (by rewrite <- R2).
  assert (Hlen : forall t, sublist t (unlink p (tmp_obj_list s)) -> (length t <= fuel)%nat).
  { intros t Ht%sublist_length. rewrite ET in Ht. unfold lists in Hnd. rewrite ET in Hnd.
    apply NoDup_app in Hnd as (_ & _ & [[Hp _]%NoDup_cons _]%NoDup_app). rewrite unlink_head in Ht by done. cbn in Hf. lia. }
  assert (H1 : exists s1,
    match gc_obj_type o with
    | JS_GC_OBJ_TYPE_JS_OBJECT | JS_GC_OBJ_TYPE_FUNCTION_BYTECODE
    | JS_GC_OBJ_TYPE_ASYNC_FUNCTION | JS_GC_OBJ_TYPE_MODULE => free_gc_object (fun _ => None) s p
    | _ => let s := list_del p s in Some (set_zero_list (gc_zero_ref_count_list s ++ [p]) s)
    end = Some s1 /\ inv ext S ∅ [] s1 /\ frees_only S s s1 /\ sublist (tmp_obj_list s1) (unlink p (tmp_obj_list s))).
  { destruct (deferred (gc_obj_type o)) eqn:Hd.
    - destruct (free_gc_object_spec ext S (fun _ => None) s p o) as (s1 & E1 & HI1 & F1); try done.
      + by apply R3.
      + destruct (is_running (body o)) eqn:Hrun; [|done]. destruct HpS. apply HR; [by exists o|].
        by apply (ok_run _ _ _ _ _ _ _ Ho).
      + congruence.
      + exists s1. split; [by destruct (gc_obj_type o)|]. split_and!; [done|by eapply freed_frame_frees|apply F1].
    - exists (set_zero_list (gc_zero_ref_count_list (list_del p s) ++ [p]) (list_del p s)).
      split; [by destruct (gc_obj_type o)|]. split_and!; [by apply (inv_move s p o)|split; eauto 10|done]. }
  destruct H1 as (s1 & E1 & HI1 & F1 & T1). cbv zeta in E1. rewrite E1. cbn [mbind option_bind].
  destruct (IH s1 HI1) as (s2 & E2 & HI2 & T2 & F2).
  - by rewrite (sh_phase _ _ _ F1).
  - by eapply roots_kept_frees.
  - by apply Hlen.
  - exists s2. split_and!; try done. by eapply frees_only_trans.
Qed.

(** ** The objects that are left *)

(** The references of a shape, a variable reference and a context. *)
Lemma immediate_refs o r : deferred (gc_obj_type o) = false -> r ∈ body_refs (body o) ->
  match r with
  | RValue _ | RAsync _ | RModule _ => True
  | RShape _ => gc_obj_type o = JS_GC_OBJ_TYPE_JS_CONTEXT
  | _ => False
  end.
Proof.
  unfold gc_obj_type. destruct (body o); cbn [deferred is_value body_refs]; try done.
  - intros _ (p & -> & _)%list_elem_of_fmap. done.
  - intros _ (p & -> & _)%list_elem_of_fmap. done.
  - intros _ (p & -> & _)%list_elem_of_fmap. done.
  - intros _ [(p & -> & _)%list_elem_of_fmap|[Hr|(p & -> & _)%list_elem_of_fmap]%elem_of_app]%elem_of_app; try done.
    apply list_elem_of_bind in Hr as (v & Hr & _). by apply list_elem_of_fmap in Hr as (p & -> & _).
  - by intros _ ?%not_elem_of_nil.
Qed.

(** An object that is alive and not kept is one of those that wait for their last
    reference, and another one refers to it. *)
Lemma waiting_ref s p o : inv ext S ∅ [] s -> gc_phase s = JS_GC_PHASE_REMOVE_CYCLES -> roots_kept s -> tmp_obj_list s = [] ->
  heap s !! p = Some o -> freed o = false -> p ∉ S ->
  deferred (gc_obj_type o) = false /\
  exists q oq r, heap s !! q = Some oq /\ freed oq = false /\ q ∉ S /\ r ∈ body_refs (body oq) /\
    strong r = Some p /\ ref_type r (gc_obj_type o).
Proof.
  intros HI Hph HR HT Eo Hf HpS. pose proof (i_obj _ _ _ _ _ HI p o Eo) as Ho.
  destruct (ok_remove _ _ _ _ _ _ _ Ho Hph) as (_ & R2 & _ & R4).
  assert (Hz : p ∈ gc_zero_ref_count_list s).
  { pose proof (ok_listed _ _ _ _ _ _ _ Ho (or_introl Hf)) as Hl. unfold lists in Hl. rewrite HT, !elem_of_app in Hl.
    destruct Hl as [Hl|[Hl|Hl]]; [by apply R2 in Hl|by apply not_elem_of_nil in Hl|done]. }
  pose proof (R4 Hz Hf) as Hd. split; [done|]. destruct (ok_immediate _ _ _ _ _ _ _ Ho Hd) as [_ Hrc].
  rewrite decide_False in Hrc by apply not_in_empty.
  pose proof (ok_exact _ _ _ _ _ _ _ Ho (or_introl (conj Hf (not_in_empty p)))) as Hex.
  assert (ext p <= 0) by (destruct (Z.le_gt_cases (ext p) 0); [done|]; destruct HpS; apply HR; [by exists o|lia]).
  unfold refcnt in Hex. rewrite cnt_nil in Hex.
  destruct (hsum_witness (fun q o => cnt p (refs_in ∅ q o)) (heap s)) as (q & oq & Eq & Hq); [lia|].
  cbv beta in Hq. unfold refs_in in Hq. rewrite decide_False in Hq by apply not_in_empty.
  apply cnt_pos in Hq as (r & Hr & Hs). exists q, oq, r. split_and!; try done.
  - unfold freed. destruct (body oq); try done. by apply not_elem_of_nil in Hr.
  - intros HqS. destruct (i_kept _ _ _ _ _ HI q HqS) as (oq' & Eq' & _ & _ & Hcl). rewrite Eq in Eq'. apply (inj Some) in Eq'. subst oq'.
    by destruct HpS; apply (Hcl r).
  - destruct (i_closed _ _ _ _ _ HI q oq r Eq (not_in_empty q) Hr) as (o' & Eo' & Ht). rewrite (strong_target _ _ Hs), Eo in Eo'.
    by simplify_eq.
Qed.

Lemma all_kept s p o : inv ext S ∅ [] s -> gc_phase s = JS_GC_PHASE_REMOVE_CYCLES -> roots_kept s -> tmp_obj_list s = [] ->
  heap s !! p = Some o -> freed o = false -> p ∈ S.
Proof.
  intros HI Hph HR HT Eo Hf. destruct (ok_remove _ _ _ _ _ _ _ (i_obj _ _ _ _ _ HI p o Eo) Hph) as (R1 & _).
  specialize (R1 Hf). destruct (Z.eq_dec (mark o) 0) as [Hm|Hm]; [by apply R1|].
  assert (HpS : p ∉ S) by tauto.
  destruct (waiting_ref s p o) as (Hd & q & oq & r & Eq & Hfq & HqS & Hr & Hs & Ht); try done.
  destruct (waiting_ref s q oq) as (Hdq & q2 & oq2 & r2 & Eq2 & Hfq2 & HqS2 & Hr2 & Hs2 & Ht2); try done.
  destruct (waiting_ref s q2 oq2) as (Hdq2 & _); try done.
  pose proof (immediate_refs oq r Hdq Hr) as I1. pose proof (immediate_refs oq2 r2 Hdq2 Hr2) as I2.
  destruct r; cbn in Ht, I1; try done; try (destruct (gc_obj_type o); done).
  rewrite I1 in Ht2. by destruct r2.
Qed.

(** ** The second loop of [gc_free_cycles] *)

(** What is left of a freed object: nothing, or a structure for its weak references. *)
Definition swept (o : GCObject) : option GCObject :=
  if bool_decide (gc_obj_type o = JS_GC_OBJ_TYPE_JS_OBJECT) && negb (weakref_count o =? 0)
  then Some (with_mark 0 o) else None.

Lemma hsum_swept (f : list Ref -> Z) h p o : h !! p = Some o -> freed o = true -> f [] = 0 ->
  hsum (fun _ o => f (body_refs (body o))) (partial_alter (fun o => o ≫= swept) p h) =
  hsum (fun _ o => f (body_refs (body o))) h.
Proof.
  intros Eo Hf H0. assert (Hb : f (body_refs (body o)) = 0).
  { unfold freed in Hf. by destruct (body o). }
  destruct (swept o) as [o'|] eqn:E.
  - replace (partial_alter _ p h) with (<[p := o']> h).
    + rewrite (hsum_update _ _ _ _ _ Eo). unfold swept in E. case_match; [|done]. simplify_eq. cbn. lia.
    + apply map_eq. intros q. destruct (decide (q = p)) as [->|Hq].
      * by rewrite lookup_insert_eq, lookup_partial_alter, Eo, decide_True; cbn.
      * by rewrite lookup_insert_ne, lookup_partial_alter_ne by congruence.
  - replace (partial_alter _ p h) with (delete p h); [rewrite (hsum_delete _ _ _ _ Eo); lia|].
    apply map_eq. intros q. destruct (decide (q = p)) as [->|Hq].
    + by rewrite lookup_delete_eq, lookup_partial_alter, Eo, decide_True; cbn.
    + by rewrite lookup_delete_ne, lookup_partial_alter_ne by congruence.
Qed.

Record swept_heap (l : list ptr) (s s' : JSRuntime) : Prop := {
  sw_lists : gc_obj_list s' = gc_obj_list s /\ tmp_obj_list s' = tmp_obj_list s /\ gc_phase s' = gc_phase s;
  sw_lookup p : heap s' !! p = if decide (p ∈ l) then heap s !! p ≫= swept else heap s !! p;
  sw_sum f : f [] = 0 ->
    hsum (fun _ o => f (body_refs (body o))) (heap s') = hsum (fun _ o => f (body_refs (body o))) (heap s);
}.

Lemma sweep_spec l s : NoDup l ->
  (forall p, p ∈ l -> exists o, heap s !! p = Some o /\ freed o = true /\ deferred (gc_obj_type o) = true) ->
  exists s', foldM sweep_zero l s = Some s' /\ swept_heap l s s'.
Proof.
  intros Hnd Hl.
  destruct (foldM_inv sweep_zero (fun rest s1 => exists pre, l = pre ++ rest /\ swept_heap pre s s1) l s) as (s' & E & pre & El & HS).
  - exists []. split; [done|]. split; [done| |done]. intros p. by rewrite decide_False by apply not_elem_of_nil.
  - intros p rest s1 (pre & El & HS). destruct (Hl p) as (o & Eo & Hf & Hd); [rewrite El; set_solver|].
    assert (Hp : p ∉ pre).
    { intros Hp. rewrite El in Hnd. apply NoDup_app in Hnd as (_ & H & _). apply (H p Hp). by left. }
    assert (Eo1 : heap s1 !! p = Some o) by (by rewrite (sw_lookup _ _ _ HS), decide_False).
    set (s2 := set_heap (partial_alter (fun o => o ≫= swept) p (heap s1)) s1).
    assert (E2 : sweep_zero s1 p = Some s2).
    { unfold sweep_zero. rewrite Eo1. cbn [mbind option_bind].
      rewrite option_guard_True by (destruct (gc_obj_type o); try done; naive_solver). cbn [mbind option_bind].
      assert (Hs : forall x, swept o = x -> partial_alter (fun o => o ≫= swept) p (heap s1) = partial_alter (fun _ => x) p (heap s1)).
      { intros x Hx. apply partial_alter_ext. intros y Hy. rewrite Eo1 in Hy. subst y. exact Hx. }
      unfold s2. rewrite (Hs _ eq_refl). unfold swept. by destruct (_ && _). }
    exists s2. split; [done|]. exists (pre ++ [p]). rewrite <- app_assoc. split; [done|]. split.
    + apply HS.
    + intros q. cbn. destruct (decide (q = p)) as [->|Hq].
      * rewrite lookup_partial_alter, decide_True by done. cbn. rewrite decide_True by set_solver. by rewrite Eo, Eo1.
      * rewrite lookup_partial_alter_ne by congruence. rewrite (sw_lookup _ _ _ HS). repeat case_decide; set_solver.
    + intros f H0. cbn. rewrite (hsum_swept f _ _ _ Eo1 Hf H0). by apply HS.
  - rewrite app_nil_r in El. subst pre. by exists s'.
Qed.

(** The queue holds freed structures when the first loop ends. *)
Lemma queue_freed s p : inv ext S ∅ [] s -> gc_phase s = JS_GC_PHASE_REMOVE_CYCLES -> roots_kept s -> tmp_obj_list s = [] ->
  p ∈ gc_zero_ref_count_list s -> exists o, heap s !! p = Some o /\ freed o = true /\ deferred (gc_obj_type o) = true.
Proof.
  intros HI Hph HR HT Hp. pose proof (i_nodup _ _ _ _ _ HI) as Hnd. unfold lists in Hnd. rewrite HT in Hnd.
  destruct (i_listed _ _ _ _ _ HI p) as [o Eo]; [unfold lists; set_solver|]. exists o. split; [done|].
  pose proof (i_obj _ _ _ _ _ HI p o Eo) as Ho. destruct (freed o) eqn:Hf.
  - split; [done|]. destruct (deferred (gc_obj_type o)) eqn:Hd; [done|].
    destruct (ok_immediate _ _ _ _ _ _ _ Ho Hd) as [Hf' _]. congruence.
  - pose proof (all_kept s p o HI Hph HR HT Eo Hf) as HS. destruct (ok_remove _ _ _ _ _ _ _ Ho Hph) as (_ & R2 & _).
    apply R2 in HS. apply NoDup_app in Hnd as (_ & H & _). by destruct (H p HS).
Qed.

(** A freed structure that is not a module has no reference. *)
Lemma freed_unreferenced s p o : inv ext S ∅ [] s -> gc_phase s = JS_GC_PHASE_REMOVE_CYCLES -> roots_kept s -> tmp_obj_list s = [] ->
  heap s !! p = Some o -> freed o = true -> ext p + heap_refs p (heap s) = 0.
Proof.
  intros HI Hph HR HT Eo Hf. pose proof (i_ext _ _ _ _ _ HI p).
  assert (HpS : p ∉ S).
  { intros HS. destruct (i_kept _ _ _ _ _ HI p HS) as (o' & Eo' & Hf' & _). rewrite Eo in Eo'. simplify_eq. congruence. }
  assert (~ 0 < ext p) by (intros He; destruct HpS; apply HR; [by exists o|done]).
  assert (~ 0 < heap_refs p (heap s)).
  { intros (q & oq & Eq & Hq)%hsum_witness. apply cnt_pos in Hq as (r & Hr & Hs).
    assert (Hfq : freed oq = false) by (unfold freed; destruct (body oq); try done; by apply not_elem_of_nil in Hr).
    pose proof (all_kept s q oq HI Hph HR HT Eq Hfq) as HqS. destruct (i_kept _ _ _ _ _ HI q HqS) as (oq' & Eq' & _ & _ & Hcl).
    rewrite Eq in Eq'. apply (inj Some) in Eq'. subst oq'. by destruct HpS; apply (Hcl r). }
  assert (0 <= heap_refs p (heap s)) by (apply hsum_nonneg; intros; apply cnt_nonneg). lia.
Qed.

Section swept.
Context (s s' : JSRuntime) (HI : inv ext S ∅ [] s) (Hph : gc_phase s = JS_GC_PHASE_REMOVE_CYCLES)
  (HR : roots_kept s) (HT : tmp_obj_list s = []) (HS : swept_heap (gc_zero_ref_count_list s) s s').

(** An object of the heap that is left: it is kept, or it is a structure without
    references, of an object that has weak references. *)
Lemma swept_object p o' : heap s' !! p = Some o' -> exists o, heap s !! p = Some o /\
  body o' = body o /\ ref_count o' = ref_count o /\ weakref_count o' = weakref_count o /\ link o' = link o /\ mark o' = 0 /\
  ref_count o = ext p + heap_refs p (heap s) /\
  if freed o then gc_obj_type o = JS_GC_OBJ_TYPE_JS_OBJECT /\ ref_count o = 0 /\ 0 < weakref_count o
  else p ∈ S /\ p ∉ gc_zero_ref_count_list s /\ 0 < ref_count o /\ heap s' !! p = heap s !! p.
Proof.
  rewrite (sw_lookup _ _ _ HS p). case_decide as Hp.
  - destruct (queue_freed s p HI Hph HR HT Hp) as (o & Eo & Hf & Hd). rewrite Eo. cbn. unfold swept.
    destruct (bool_decide _ && _) eqn:E; [|done]. intros [= <-]. exists o. rewrite Hf.
    apply andb_true_iff in E as [Et%bool_decide_eq_true Ew]. pose proof (i_obj _ _ _ _ _ HI p o Eo) as Ho.
    pose proof (ok_exact _ _ _ _ _ _ _ Ho ltac:(right; by rewrite Et)) as Hrc. rewrite refcnt_empty in Hrc by apply not_in_empty.
    pose proof (freed_unreferenced s p o HI Hph HR HT Eo Hf). pose proof (weakcnt_nonneg ∅ [] p (heap s)).
    pose proof (ok_weak _ _ _ _ _ _ _ Ho). split_and!; try done; lia.
  - intros Eo. exists o'. split; [done|]. pose proof (i_obj _ _ _ _ _ HI p o' Eo) as Ho.
    destruct (ok_remove _ _ _ _ _ _ _ Ho Hph) as (R1 & R2 & _ & _). destruct (freed o') eqn:Hf.
    + destruct (Z.eq_dec (mark o') 0) as [Hm|Hm].
      * destruct (ok_shell _ _ _ _ _ _ _ Ho Hf Hm) as (Hrc & _ & Ht & Hw).
        pose proof (freed_unreferenced s p o' HI Hph HR HT Eo Hf). split_and!; try done. lia.
      * pose proof (ok_listed _ _ _ _ _ _ _ Ho (or_intror Hm)) as Hl. unfold lists in Hl. rewrite HT, !elem_of_app in Hl.
        destruct Hl as [Hl%R2|[Hl|Hl]]; [|by apply not_elem_of_nil in Hl|done].
        destruct (i_kept _ _ _ _ _ HI p Hl) as (o & Eo' & Hf' & _). rewrite Eo in Eo'. simplify_eq. congruence.
    + pose proof (all_kept s p o' HI Hph HR HT Eo Hf) as HpS. pose proof (proj2 (R1 eq_refl) HpS) as Hm.
      pose proof (ok_exact _ _ _ _ _ _ _ Ho (or_introl (conj Hf (not_in_empty p)))) as Hrc.
      rewrite refcnt_empty in Hrc by apply not_in_empty. pose proof (kept_counted _ _ _ _ _ _ HI HpS) as Hk.
      pose proof (refcnt_empty ∅ p (heap s) not_in_empty) as He. unfold refcnt in He. rewrite cnt_nil in He.
      split_and!; try done; lia.
Qed.

(** The references of the kept objects are to objects that are left. *)
Lemma swept_valid q oq r : heap s !! q = Some oq -> q ∈ S -> r ∈ body_refs (body oq) -> valid (heap s') r.
Proof.
  intros Eq HqS Hr. destruct (i_closed _ _ _ _ _ HI q oq r Eq (not_in_empty q) Hr) as (o & Eo & Ht).
  assert (HL : exists o', heap s' !! target r = Some o' /\ gc_obj_type o' = gc_obj_type o).
  { rewrite (sw_lookup _ _ _ HS). case_decide as Hz; [|by exists o]. rewrite Eo. cbn.
    destruct (queue_freed s _ HI Hph HR HT Hz) as (o' & Eo' & Hf & _). rewrite Eo in Eo'. apply (inj Some) in Eo'. subst o'.
    destruct (strong r) as [p|] eqn:Hs.
    - rewrite (strong_target _ _ Hs) in *. destruct (i_kept _ _ _ _ _ HI q HqS) as (oq' & Eq' & _ & _ & Hcl).
      rewrite Eq in Eq'. apply (inj Some) in Eq'. subst oq'. destruct (i_kept _ _ _ _ _ HI p (Hcl r p Hr Hs)) as (o' & Eo' & Hf' & _).
      rewrite Eo in Eo'. simplify_eq. congruence.
    - destruct r; try done. cbn in *. unfold swept. rewrite bool_decide_true by done.
      pose proof (weakcnt_ref ∅ [] p (heap s) q oq Eq (not_in_empty q) Hr).
      rewrite <- (ok_weak _ _ _ _ _ _ _ (i_obj _ _ _ _ _ HI p o Eo)) in *.
      replace (weakref_count o =? 0) with false by lia. cbn. by exists (with_mark 0 o). }
  destruct HL as (o' & Eo' & Et). exists o'. by rewrite Et.
Qed.

Lemma swept_wf : (forall p o, heap s !! p = Some o -> body_wf (body o)) ->
  runtime_wf ext (set_zero_list [] (set_phase JS_GC_PHASE_NONE s')).
Proof.
  intros Hbw. destruct (sw_lists _ _ _ HS) as (L1 & L2 & L3). pose proof (i_nodup _ _ _ _ _ HI) as Hnd. unfold lists in Hnd.
  assert (HN : forall p, heap_refs p (heap s') = heap_refs p (heap s)) by (intros p; by apply (sw_sum _ _ _ HS (cnt p))).
  assert (HWk : forall p, heap_weak_refs p (heap s') = heap_weak_refs p (heap s)) by (intros p; by apply (sw_sum _ _ _ HS (wcnt p))).
  split; cbn; rewrite ?L1, ?L2; try done.
  - by apply NoDup_app in Hnd as (? & _).
  - intros p. split.
    + intros Hp. destruct (i_listed _ _ _ _ _ HI p) as [o Eo]; [unfold lists; set_solver|].
      destruct (ok_remove _ _ _ _ _ _ _ (i_obj _ _ _ _ _ HI p o Eo) Hph) as (_ & R2 & _). apply R2 in Hp as HpS.
      destruct (i_kept _ _ _ _ _ HI p HpS) as (o' & Eo' & Hf & _). exists o'. split; [|done].
      rewrite (sw_lookup _ _ _ HS), decide_False; [done|]. intros Hz. apply NoDup_app in Hnd as (_ & H & _). apply (H p Hp). set_solver.
    + intros (o' & Eo' & Hf). destruct (swept_object p o' Eo') as (o & Eo & B & _ & _ & _ & _ & _ & Hk).
      unfold freed in Hf, Hk. rewrite B in Hf. rewrite Hf in Hk.
      apply (ok_remove _ _ _ _ _ _ _ (i_obj _ _ _ _ _ HI p o Eo) Hph). by destruct Hk.
  - apply HI.
  - intros q o' r Eq Hr. destruct (swept_object q o' Eq) as (o & Eo & B & _ & _ & _ & _ & _ & Hk). rewrite B in Hr.
    destruct (freed o) eqn:Hf; [unfold freed in Hf; destruct (body o); try done; by apply not_elem_of_nil in Hr|].
    by apply (swept_valid q o); [|apply Hk|].
  - intros p o' Eo'. destruct (swept_object p o' Eo') as (o & Eo & _ & -> & _ & _ & _ & -> & _). by rewrite HN.
  - intros p o' Eo'. destruct (swept_object p o' Eo') as (o & Eo & _ & _ & -> & _). rewrite HWk.
    rewrite <- (weakcnt_empty ∅ p (heap s) not_in_empty). by apply (ok_weak _ _ _ _ _ _ _ (i_obj _ _ _ _ _ HI p o Eo)).
  - intros p o' Eo'. destruct (swept_object p o' Eo') as (o & Eo & B & Rc & W & _ & Hm & _ & Hk). split; [done|].
    unfold freed, gc_obj_type in *. rewrite B, Rc, W. destruct (match body o with BFreed _ => true | _ => false end); [done|].
    split; [apply Hk|by apply (Hbw p)].
  - intros p o' Eo'. destruct (swept_object p o' Eo') as (o & Eo & -> & _). by apply (ok_run _ _ _ _ _ _ _ (i_obj _ _ _ _ _ HI p o Eo)).
  - intros p o' c Eo' Hl. destruct (swept_object p o' Eo') as (o & Eo & _ & _ & _ & Lk & _). rewrite Lk in Hl.
    destruct (ok_link _ _ _ _ _ _ _ (i_obj _ _ _ _ _ HI p o Eo) c Hl) as [E|(_ & oc & ms & vs & shs & Ec & Bc & Hp)]; [by apply not_elem_of_nil in E|].
    exists oc, ms, vs, shs. split_and!; try done. rewrite (sw_lookup _ _ _ HS), decide_False; [done|]. intros Hz.
    destruct (queue_freed s c HI Hph HR HT Hz) as (oc' & Ec' & Hf & _). rewrite Ec in Ec'. apply (inj Some) in Ec'. subst oc'.
    unfold freed in Hf. by rewrite Bc in Hf.
Qed.
End swept.
End cycle.

(** ** The collector *)

Lemma run_gc_spec ext s : runtime_wf ext s ->
  exists s', JS_RunGCInternal s = Some s' /\ runtime_wf ext s' /\
    (forall p o, reachable ext (heap s) p -> heap s !! p = Some o -> exists o', heap s' !! p = Some o' /\ body o' = body o) /\
    (forall p o', heap s' !! p = Some o' -> freed o' = false -> reachable ext (heap s) p).
Proof.
  intros HW. destruct (gc_decref_spec ext s HW) as (s1 & E1 & HD). destruct (gc_scan_spec ext s HW s1 HD) as (s2 & E2 & HS).
  pose proof (scanned_inv ext s s2 HW HS) as HI. set (S := {[ p | reachable ext (heap s) p ]} : propset ptr) in *.
  pose proof (sc_passed _ _ _ HS) as HP. set (s3 := set_phase JS_GC_PHASE_REMOVE_CYCLES s2) in *.
  assert (HR : roots_kept ext S s3).
  { intros p [o Eo] He. destruct (ps_back _ _ _ _ HP p o Eo) as (o0 & Eo0 & _). apply elem_of_PropSet, reach_root; [done|by exists o0]. }
  destruct (cycles_loop_spec ext S (length (tmp_obj_list s3)) s3 HI) as (s4 & E4 & HI4 & HT4 & F4); try done.
  assert (Hph4 : gc_phase s4 = JS_GC_PHASE_REMOVE_CYCLES) by (by rewrite (sh_phase _ _ _ F4)).
  pose proof (roots_kept_frees ext S _ _ HR F4) as HR4.
  assert (Hnd : NoDup (gc_zero_ref_count_list s4)).
  { pose proof (i_nodup _ _ _ _ _ HI4) as Hnd. unfold lists in Hnd. rewrite HT4 in Hnd. by apply NoDup_app in Hnd as (_ & _ & ?). }
  destruct (sweep_spec ext (gc_zero_ref_count_list s4) (set_phase JS_GC_PHASE_NONE s4) Hnd) as (s5 & E5 & HS5).
  { intros p Hp. by apply (queue_freed ext S s4). }
  assert (HS5' : swept_heap (gc_zero_ref_count_list s4) s4 (set_phase JS_GC_PHASE_REMOVE_CYCLES s5)).
  { destruct HS5 as [(L1 & L2 & L3) A B]. split; try done. }
  exists (set_zero_list [] s5). split; [|split; [|split]].
  - unfold JS_RunGCInternal. rewrite E1. cbn [mbind option_bind]. rewrite E2. cbn [mbind option_bind].
    unfold gc_free_cycles. fold s3. change (tmp_obj_list s2) with (tmp_obj_list s3). rewrite E4. cbn [mbind option_bind].
    change (gc_zero_ref_count_list (set_phase JS_GC_PHASE_NONE s4)) with (gc_zero_ref_count_list s4). by rewrite E5.
  - destruct (sw_lists _ _ _ HS5) as (_ & _ & L3). cbn in L3.
    replace (set_zero_list [] s5) with (set_zero_list [] (set_phase JS_GC_PHASE_NONE (set_phase JS_GC_PHASE_REMOVE_CYCLES s5))).
    2: { unfold set_zero_list, set_phase. cbn. by rewrite L3. }
    apply (swept_wf ext S s4); try done. intros p o Eo. destruct (sh_body _ _ _ F4 p o Eo) as (o3 & Eo3 & _ & _ & Hb).
    apply Hb. destruct (ps_back _ _ _ _ HP p o3 Eo3) as (o0 & Eo0 & -> & _). by apply (rw_body_wf ext s p).
  - intros p o Hp Eo. destruct (ps_dom _ _ _ _ HP p o Eo) as (o2 & Eo2 & B2 & _).
    destruct (sh_kept _ _ _ F4 p o2) as (o4 & Eo4 & B4); [by apply elem_of_PropSet|done|]. exists o4. split; [|congruence].
    cbn. rewrite (sw_lookup _ _ _ HS5). rewrite decide_False; [done|]. intros Hz.
    destruct (queue_freed ext S s4 p HI4 Hph4 HR4 HT4 Hz) as (o4' & Eo4' & Hf & _). rewrite Eo4 in Eo4'. apply (inj Some) in Eo4'. subst o4'.
    destruct (reachable_alive _ _ _ HW Hp) as (o' & Eo' & Hf'). rewrite Eo in Eo'. apply (inj Some) in Eo'. subst o'.
    unfold freed in *. rewrite B4, B2, Hf' in Hf. done.
  - intros p o' Eo' Hf. destruct (swept_object ext S s4 _ HI4 Hph4 HR4 HT4 HS5' p o' Eo') as (o & Eo & B & _ & _ & _ & _ & _ & Hk).
    unfold freed in Hf, Hk. rewrite B in Hf. rewrite Hf in Hk. destruct Hk as [Hk _]. by apply elem_of_PropSet in Hk.
Qed.

(** C1 The cycle collector.  From a well-formed heap, in which [ext p] references to [p]
    come from outside, an execution of [JS_RunGC] ends, touches no freed object and fails
    no assertion; the heap it leaves is well formed, with exact counts; the objects that
    are reachable from outside through the references that the mark functions report keep
    their contents; and every object whose contents are left is reachable: the collector
    frees exactly the garbage. *)
Theorem run_gc_frees_garbage ext s : runtime_wf ext s ->
  exists s', JS_RunGCInternal s = Some s' /\ runtime_wf ext s' /\
    (forall p o, reachable ext (heap s) p -> heap s !! p = Some o -> exists o', heap s' !! p = Some o' /\ body o' = body o) /\
    (forall p o', heap s' !! p = Some o' -> freed o' = false -> reachable ext (heap s) p).
Proof. apply run_gc_spec. Qed.

(** C2 [JS_FreeValue] of a reference held from outside: the last reference to an object
    frees it, and the objects it held the last reference to, through
    [gc_zero_ref_count_list]; no freed object is touched, the counts stay exact, and what
    the other references reach is kept. *)
Theorem free_value_safe ext s p o : runtime_wf ext s -> 0 < ext p -> heap s !! p = Some o -> is_value (gc_obj_type o) = true ->
  exists s', JS_FreeValue s (JSPtr p) = Some s' /\ runtime_wf (<[p := ext p - 1]> ext) s' /\
    (forall q oq, reachable (<[p := ext p - 1]> ext) (heap s) q -> heap s !! q = Some oq ->
       exists oq', heap s' !! q = Some oq' /\ body oq' = body oq) /\
    (forall q oq', heap s' !! q = Some oq' -> freed oq' = false ->
       exists oq, heap s !! q = Some oq /\ freed oq = false).
Proof. apply free_value_wf. Qed.

(** C3 The mark function of every class and kind of object agrees with its finalizer:
    [mark_children] reports each address exactly as many times as freeing the object
    releases a counted reference to it. *)
Theorem mark_children_finalizer b p : body_wf b -> occ p (mark_children b) = cnt p (body_refs b).
Proof. apply body_refs_strong. Qed.

Lemma mark_children_finalizer_witness :
  body_wf (JSObject 3 [(true, PropValue (JSPtr 2))] (ClassMap true [mkRec false (JSPtr 4) (JSPtr 2)])) /\
  occ 2 (mark_children (JSObject 3 [(true, PropValue (JSPtr 2))] (ClassMap true [mkRec false (JSPtr 4) (JSPtr 2)]))) =
  cnt 2 (body_refs (JSObject 3 [(true, PropValue (JSPtr 2))] (ClassMap true [mkRec false (JSPtr 4) (JSPtr 2)]))).
Proof.
  assert (H : body_wf (JSObject 3 [(true, PropValue (JSPtr 2))] (ClassMap true [mkRec false (JSPtr 4) (JSPtr 2)]))).
  { split; [repeat constructor; discriminate|]. repeat constructor; discriminate. }
  split; [exact H|]. exact (mark_children_finalizer _ 2 H).
Defined.

(** A heap with a cycle of two objects, [1] and [2], that share the shape [3], and a
    [WeakRef] of the object [2], with the shape [4], held from outside. *)
Definition ex_objects : list (ptr * GCObject) :=
  [(1, mkObj 1 0 0 None (JSObject 3 [(true, PropValue (JSPtr 2))] ClassPlain));
   (2, mkObj 1 0 1 None (JSObject 3 [(true, PropValue (JSPtr 1))] ClassPlain));
   (3, mkObj 2 0 0 None (JSShape None));
   (4, mkObj 1 0 0 None (JSShape None));
   (5, mkObj 1 0 0 None (JSObject 4 [] (ClassWeakRef (JSPtr 2))))].
Definition ex_runtime : JSRuntime := mkRuntime (list_to_map ex_objects) [1; 2; 3; 4; 5] [] [] JS_GC_PHASE_NONE.
Definition ex_ext (p : ptr) : Z := if p =? 5 then 1 else 0.

Lemma ex_lookup p o : heap ex_runtime !! p = Some o -> (p, o) ∈ ex_objects.
Proof. apply elem_of_list_to_map_2. Qed.

Ltac ex_cases H :=
  repeat (apply elem_of_cons in H as [H|H]; [simplify_eq|]); [..|by apply not_elem_of_nil in H].

Lemma ex_wf : runtime_wf ex_ext ex_runtime.
Proof.
  split; try done.
  - cbn. apply NoDup_ListNoDup. repeat constructor; cbn; lia.
  - intros p. split.
    + intros H. cbn [gc_obj_list ex_runtime] in H. ex_cases H; by eexists.
    + intros (o & H%ex_lookup & Hf). unfold ex_objects in H. ex_cases H; apply list_elem_of_In; cbn; tauto.
  - intros p. unfold ex_ext. case_match; lia.
  - intros q o r H%ex_lookup Hr. unfold ex_objects in H. ex_cases H; cbn in Hr;
      repeat (apply elem_of_cons in Hr as [->|Hr]; [by eexists|]); by apply not_elem_of_nil in Hr.
  - intros p o H%ex_lookup. unfold ex_objects in H. ex_cases H; by vm_compute.
  - intros p o H%ex_lookup. unfold ex_objects in H. ex_cases H; by vm_compute.
  - intros p o H%ex_lookup. unfold ex_objects in H. ex_cases H; (split; [done|]); (split; [done|]); cbn; try done;
      (split; [|done]); repeat constructor; discriminate.
  - intros p o H%ex_lookup. unfold ex_objects in H. by ex_cases H.
  - intros p o c H%ex_lookup. unfold ex_objects in H. by ex_cases H.
Qed.

Lemma run_gc_frees_garbage_witness : runtime_wf ex_ext ex_runtime /\
  (exists s', JS_RunGCInternal ex_runtime = Some s' /\ runtime_wf ex_ext s' /\
    (forall p o, reachable ex_ext (heap ex_runtime) p -> heap ex_runtime !! p = Some o -> exists o', heap s' !! p = Some o' /\ body o' = body o) /\
    (forall p o', heap s' !! p = Some o' -> freed o' = false -> reachable ex_ext (heap ex_runtime) p)) /\
  ((fun s' => (map_to_list (freed <$> heap s'), gc_obj_list s')) <$> JS_RunGCInternal ex_runtime) =
    Some ([(5, false); (4, false); (2, true)], [5; 4]).
Proof. split; [exact ex_wf|]. split; [exact (run_gc_frees_garbage _ _ ex_wf)|vm_compute; reflexivity]. Defined.

Lemma free_value_safe_witness :
  0 < ex_ext 5 /\ exists s', JS_FreeValue ex_runtime (JSPtr 5) = Some s' /\ runtime_wf (<[5 := ex_ext 5 - 1]> ex_ext) s' /\
    (forall q oq, reachable (<[5 := ex_ext 5 - 1]> ex_ext) (heap ex_runtime) q -> heap ex_runtime !! q = Some oq ->
       exists oq', heap s' !! q = Some oq' /\ body oq' = body oq) /\
    (forall q oq', heap s' !! q = Some oq' -> freed oq' = false ->
       exists oq, heap ex_runtime !! q = Some oq /\ freed oq = false).
Proof.
  split; [reflexivity|].
  exact (free_value_safe ex_ext ex_runtime 5 (mkObj 1 0 0 None (JSObject 4 [] (ClassWeakRef (JSPtr 2)))) ex_wf eq_refl eq_refl eq_refl).
Defined.
