(* ===== verification/Limbs.v ===== *)
(** * Limb arrays

    The value of a little-endian array of [w]-bit limbs, read as an unsigned number
    ([lval]) and as a two's complement number ([sval]).  Both multi-precision
    packages of the program ([dtoa.c] and the BigInt part of [quickjs.c]) are
    specified with these two readings. *)
From S2P Require Export Prelude.


Fixpoint lval (w : Z) (l : list Z) : Z :=
  match l with
  | [] => 0
  | x :: l => x + 2 ^ w * lval w l
  end.

Definition limbs (w : Z) (l : list Z) : Prop := Forall (word w) l.

Definition sval (w : Z) (l : list Z) : Z := swrap (w * len l) (lval w l).

Section limbs.
Context (w : Z) (Hw : 0 < w).

Lemma limbs_app l1 l2 : limbs w (l1 ++ l2) <-> limbs w l1 /\ limbs w l2.
Proof. apply Forall_app. Qed.

Lemma limbs_cons x l : limbs w (x :: l) <-> word w x /\ limbs w l.
Proof. apply Forall_cons. Qed.

Lemma limbs_nil : limbs w [].
Proof. constructor. Qed.

Lemma limbs_single x : limbs w [x] <-> word w x.
Proof. rewrite limbs_cons. pose proof limbs_nil. tauto. Qed.

Lemma limbs_lookup l i x : limbs w l -> l !! i = Some x -> word w x.
Proof. intros H. apply (proj1 (Forall_lookup _ _) H). Qed.

Lemma lval_app l1 l2 : lval w (l1 ++ l2) = lval w l1 + 2 ^ (w * len l1) * lval w l2.
Proof.
  induction l1 as [|x l1 IH]; cbn [app lval length].
  - rewrite Z.mul_0_r. change (2 ^ 0) with 1. lia.
  - rewrite IH. replace (w * Z.of_nat (S (length l1))) with (w + w * len l1) by lia.
    rewrite Z.pow_add_r by lia. ring.
Qed.

Lemma lval_range l : limbs w l -> 0 <= lval w l < 2 ^ (w * len l).
Proof.
  induction 1 as [|x l Hx Hl IH]; cbn [lval length].
  - rewrite Z.mul_0_r. lia.
  - replace (w * Z.of_nat (S (length l))) with (w + w * len l) by lia.
    rewrite Z.pow_add_r by lia. unfold word in Hx. nia.
Qed.

Lemma lval_zeros n : lval w (replicate n 0) = 0.
Proof. induction n; cbn [replicate lval]; lia. Qed.

Lemma limbs_zeros n : limbs w (replicate n 0).
Proof. apply Forall_replicate. unfold word. pose proof (pow2_pos w). lia. Qed.

Lemma lval_inj l1 l2 :
  limbs w l1 -> limbs w l2 -> length l1 = length l2 -> lval w l1 = lval w l2 -> l1 = l2.
Proof.
  intros H1. revert l2. induction H1 as [|x l1 Hx H1 IH]; intros l2 H2 Hl Hv.
  - destruct l2; [done|discriminate].
  - destruct H2 as [|y l2 Hy H2]; [discriminate|]. cbn [lval length] in *.
    unfold word in *.
    assert (x = y /\ lval w l1 = lval w l2) as [-> ?].
    { pose proof (pow2_pos w). destruct (Z.lt_trichotomy (lval w l1) (lval w l2)) as [?|[?|?]]; nia. }
    f_equal. apply IH; [done|lia|done].
Qed.

(** ** Two's complement *)

Lemma len_pos (l : list Z) : l <> [] -> 0 < w * len l.
Proof. destruct l; cbn [length]; [done|lia]. Qed.

Lemma sval_range l : l <> [] -> sword (w * len l) (sval w l).
Proof. intros. apply swrap_range. now apply len_pos. Qed.

Lemma sval_unique l v k :
  l <> [] -> sword (w * len l) v -> lval w l = v + k * 2 ^ (w * len l) -> sval w l = v.
Proof. intros Hl Hv E. eapply swrap_unique; eauto. now apply len_pos. Qed.

Lemma sval_cong l : l <> [] -> exists k, sval w l = lval w l + k * 2 ^ (w * len l).
Proof. intros Hl. apply swrap_cong. now apply len_pos. Qed.

(** [lval] of a signed array, by the sign of its value. *)
Lemma sval_lval l : limbs w l -> l <> [] ->
  lval w l = sval w l + b2z (sval w l <? 0) * 2 ^ (w * len l).
Proof.
  intros Hl Hn. pose proof (lval_range l Hl). unfold sval, swrap.
  pose proof (len_pos l Hn). rewrite Z.mod_small by lia.
  pose proof (pow2_half (w * len l) ltac:(lia)). zcases; lia.
Qed.

Lemma sval_snoc l x : limbs w l -> word w x ->
  sval w (l ++ [x]) = lval w l + 2 ^ (w * len l) * swrap w x.
Proof.
  intros Hl Hx. destruct (swrap_cong w x Hw) as [k Hk].
  pose proof (swrap_range w x Hw) as Hr. pose proof (lval_range l Hl) as Hlr.
  unfold sword in *.
  assert (He : w * len (l ++ [x]) = w * len l + w) by (rewrite length_app; cbn; lia).
  assert (Hp : 2 ^ (w * len (l ++ [x])) = 2 ^ (w * len l) * 2 ^ w)
    by (rewrite He, Z.pow_add_r by lia; lia).
  apply (sval_unique _ _ (- k)).
  - now destruct l.
  - unfold sword. replace (w * len (l ++ [x]) - 1) with (w * len l + (w - 1)) by lia.
    rewrite Z.pow_add_r by lia. pose proof (pow2_pos (w * len l)). nia.
  - rewrite lval_app, Hp, Hk. cbn [lval]. ring.
Qed.

(** The all-ones or all-zeros limb that extends an array of sign [s]. *)
Definition ext_limb (s : Z) : Z := wrap w (- s).

Lemma ext_limb_0 : ext_limb 0 = 0.
Proof. unfold ext_limb, wrap. apply Z.mod_0_l. pose proof (pow2_pos w); lia. Qed.
Lemma ext_limb_1 : ext_limb 1 = 2 ^ w - 1.
Proof. unfold ext_limb. pose proof (pow2_pos w). eapply (wrap_unique _ _ _ (-1)); [lia| |]; unfold word; lia. Qed.
Lemma ext_limb_word s : word w (ext_limb s).
Proof. apply wrap_range; lia. Qed.

Lemma swrap_ext_limb s : s = 0 \/ s = 1 -> swrap w (ext_limb s) = - s.
Proof.
  intros Hs. unfold ext_limb. rewrite swrap_wrap by done. apply swrap_small; [done|].
  unfold sword. pose proof (pow2_pos (w - 1)). lia.
Qed.

Lemma sval_nonneg l : limbs w l -> l <> [] -> 0 <= sval w l -> sval w l = lval w l.
Proof. intros Hl Hn H. rewrite (sval_lval l) by done. zcases; lia. Qed.
End limbs.

#[export] Hint Resolve limbs_zeros ext_limb_word limbs_nil : words.
