(* ===== verification/JsMp.v ===== *)
(** * Multi-precision kernel of the BigInt implementation

    The [mp_*] routines of [src/quickjs/quickjs.c], for both limb widths the file is
    compiled with ([JS_LIMB_BITS] 32 or 64).  An [n]-limb slice of an array is the
    list of its limbs, lowest first; a routine that writes an array returns it next to
    the carry it returns in C. *)
From S2P Require Export Limbs.

(** [JS_LIMB_BITS] is 32 or 64. *)
Class LimbWidth (w : Z) : Prop := limb_width : w = 32 \/ w = 64.
#[export] Instance limb_width_32 : LimbWidth 32 := or_introl eq_refl.
#[export] Instance limb_width_64 : LimbWidth 64 := or_intror eq_refl.

Section definitions.
Context (w : Z).

(** The macro [ADDC]: the sum and the carry out. *)
Definition ADDC (op1 op2 carry_in : Z) : Z * Z :=
  let v := op1 in
  let a := wrap w (v + op2) in
  let k1 := b2z (a <? v) in
  let k := carry_in in
  let a := wrap w (a + k) in
  (a, b2z (a <? k) .| k1).

Definition js_limb_clz (a : Z) : Z := clz w a.

Definition js_limb_safe_clz (a : Z) : Z :=
  if a =? 0 then w else js_limb_clz a.

Fixpoint mp_add (op1 op2 : list Z) (carry : Z) : list Z * Z :=
  match op1, op2 with
  | x :: op1, y :: op2 =>
      let '(r, carry) := ADDC x y carry in
      let '(res, carry) := mp_add op1 op2 carry in
      (r :: res, carry)
  | _, _ => ([], carry)
  end.

Fixpoint mp_sub (op1 op2 : list Z) (k : Z) : list Z * Z :=
  match op1, op2 with
  | x :: op1, y :: op2 =>
      let v := x in
      let a := wrap w (v - y) in
      let k1 := b2z (v <? a) in
      let v := wrap w (a - k) in
      let k := b2z (a <? v) .| k1 in
      let '(res, k) := mp_sub op1 op2 k in
      (v :: res, k)
  | _, _ => ([], k)
  end.

Fixpoint mp_neg_loop (op2 : list Z) (carry : Z) : list Z * Z :=
  match op2 with
  | [] => ([], carry)
  | y :: op2 =>
      let v := wrap w (wrap w (Z.lnot y) + carry) in
      let carry := b2z (v <? carry) in
      let '(res, carry) := mp_neg_loop op2 carry in
      (v :: res, carry)
  end.
Definition mp_neg (op2 : list Z) : list Z * Z := mp_neg_loop op2 1.

Fixpoint mp_mul1 (taba : list Z) (b l : Z) : list Z * Z :=
  match taba with
  | [] => ([], l)
  | x :: taba =>
      let t := wrap (2 * w) (x * b + l) in
      let '(tabr, l) := mp_mul1 taba b (wrap w (t >> w)) in
      (wrap w t :: tabr, l)
  end.

Fixpoint mp_div1 (taba : list Z) (b r : Z) : list Z * Z :=
  match taba with
  | [] => ([], r)
  | x :: taba =>
      let '(tabr, r) := mp_div1 taba b r in
      let a1 := (r << w) .| x in
      (wrap w (a1 / b) :: tabr, wrap w (a1 mod b))
  end.

Fixpoint mp_add_mul1_loop (tabr taba : list Z) (b l : Z) : list Z * Z :=
  match tabr, taba with
  | y :: tabr, x :: taba =>
      let t := wrap (2 * w) (x * b + l + y) in
      let '(tabr, l) := mp_add_mul1_loop tabr taba b (wrap w (t >> w)) in
      (wrap w t :: tabr, l)
  | _, _ => ([], l)
  end.
Definition mp_add_mul1 (tabr taba : list Z) (b : Z) : list Z * Z :=
  mp_add_mul1_loop tabr taba b 0.

(** [result] holds its first [i + length op1] limbs when the iteration [i] of the
    loop starts. *)
Fixpoint mp_mul_basecase_loop (op1 op2 result : list Z) (i : nat) : list Z :=
  match op2 with
  | [] => result
  | y :: op2 =>
      let '(res, r) := mp_add_mul1 (drop i result) op1 y in
      mp_mul_basecase_loop op1 op2 (take i result ++ res ++ [r]) (S i)
  end.
Definition mp_mul_basecase (op1 op2 : list Z) : list Z :=
  match op2 with
  | [] => []
  | y :: op2 =>
      let '(res, r) := mp_mul1 op1 y 0 in
      mp_mul_basecase_loop op1 op2 (res ++ [r]) 1
  end.

Fixpoint mp_sub_mul1_loop (tabr taba : list Z) (b l : Z) : list Z * Z :=
  match tabr, taba with
  | y :: tabr, x :: taba =>
      let t := wrap (2 * w) (y - x * b - l) in
      let '(tabr, l) :=
        mp_sub_mul1_loop tabr taba b (wrap w (wrap (2 * w) (- (t >> w)))) in
      (wrap w t :: tabr, l)
  | _, _ => ([], l)
  end.
Definition mp_sub_mul1 (tabr taba : list Z) (b : Z) : list Z * Z :=
  mp_sub_mul1_loop tabr taba b 0.

Definition udiv1norm_init (d : Z) : Z :=
  let a1 := wrap w (- d - 1) in
  let a0 := wrap w (-1) in
  wrap w (((a1 << w) .| a0) / d).

(** The quotient and the remainder [*pr]. *)
Definition udiv1norm (a1 a0 d d_inv : Z) : Z * Z :=
  let n1m := wrap w (swrap w a0 >> (w - 1)) in
  let n_adj := wrap w (a0 + (n1m .& d)) in
  let a := wrap (2 * w) (d_inv * wrap w (a1 - n1m) + n_adj) in
  let q := wrap w ((a >> w) + a1) in
  let a := (a1 << w) .| a0 in
  let a := wrap (2 * w) (a - q * d - d) in
  let ah := wrap w (a >> w) in
  let q := wrap w (q + 1 + ah) in
  let r := wrap w (wrap w a + (ah .& d)) in
  (q, r).

Definition UDIV1NORM_THRESHOLD : Z := 3.

Fixpoint mp_div1norm_inv_loop (taba : list Z) (b r b_inv : Z) : list Z * Z :=
  match taba with
  | [] => ([], r)
  | x :: taba =>
      let '(tabr, r) := mp_div1norm_inv_loop taba b r b_inv in
      let '(q, r) := udiv1norm r x b b_inv in
      (q :: tabr, r)
  end.
Definition mp_div1norm (taba : list Z) (b r : Z) : list Z * Z :=
  if UDIV1NORM_THRESHOLD <=? len taba
  then mp_div1norm_inv_loop taba b r (udiv1norm_init b)
  else mp_div1 taba b r.

(** [mp_divnorm], the comparison of the high limbs that gives the first quotient
    digit; both slices are read from the highest limb down. *)
Fixpoint divnorm_first (taba tabb : list Z) : Z :=
  match taba, tabb with
  | x :: taba, y :: tabb =>
      if negb (x =? y) then (if x <? y then 0 else 1) else divnorm_first taba tabb
  | _, _ => 1
  end.

(** The estimate of a quotient digit from the two high limbs [a1], [a0]. *)
Definition divnorm_qhat (b1 b1_inv a1 a0 : Z) : Z :=
  if b1 <=? a1 then wrap w (-1)
  else if negb (b1_inv =? 0) then fst (udiv1norm a1 a0 b1 b1_inv)
  else wrap w (((a1 << w) .| a0) / b1).

(** The correction loop for a negative partial remainder: [win] is
    [taba[i .. i + nb - 1]] and [top] is [taba[i + nb]]. *)
Fixpoint divnorm_fix (fuel : nat) (win : list Z) (top : Z) (tabb : list Z) (q : Z) :
    list Z * Z * Z :=
  match fuel with
  | O => (win, top, q)
  | S fuel =>
      let q := wrap w (q - 1) in
      let '(win, c) := mp_add win tabb 0 in
      if negb (c =? 0) then
        let top := wrap w (top + 1) in
        if top =? 0 then (win, top, q) else divnorm_fix fuel win top tabb q
      else divnorm_fix fuel win top tabb q
  end.

(** One iteration of the main loop on the window [taba[i .. i + nb]]. *)
Definition divnorm_step (win : list Z) (v a0 : Z) (tabb : list Z) (b1 b1_inv : Z) :
    list Z * Z * Z :=
  let q := divnorm_qhat b1 b1_inv v a0 in
  let '(win, r) := mp_sub_mul1 win tabb q in
  let a := wrap w (v - r) in
  let c := b2z (v <? a) in
  if negb (c =? 0) then divnorm_fix 3 win a tabb q else (win, a, q).

(** The main loop, [i] counting down; [tabq] holds the digits above [i]. *)
Fixpoint divnorm_loop (i : nat) (tabq taba tabb : list Z) (b1 b1_inv : Z) :
    list Z * list Z :=
  match i with
  | O => (tabq, taba)
  | S i =>
      let nb := length tabb in
      let '(win, top, q) :=
        divnorm_step (take nb (drop i taba)) (taba !!! (i + nb)%nat)
          (taba !!! (i + nb - 1)%nat) tabb b1 b1_inv in
      divnorm_loop i (q :: tabq)
        (take i taba ++ win ++ [top] ++ drop (i + nb + 1) taba) tabb b1 b1_inv
  end.

(** The quotient [tabq] and the array [taba] after the call. *)
Definition mp_divnorm (taba tabb : list Z) : list Z * list Z :=
  let na := length taba in
  let nb := length tabb in
  let b1 := tabb !!! (nb - 1)%nat in
  if (nb =? 1)%nat then
    let '(tabq, r) := mp_div1norm taba b1 0 in (tabq, <[0%nat := r]> taba)
  else
    let n := (na - nb)%nat in
    let b1_inv := if UDIV1NORM_THRESHOLD <=? Z.of_nat n then udiv1norm_init b1 else 0 in
    let q := divnorm_first (rev (drop n taba)) (rev tabb) in
    let taba :=
      if negb (q =? 0) then take n taba ++ fst (mp_sub (drop n taba) tabb 0) else taba in
    divnorm_loop n [q] taba tabb b1 b1_inv.

Fixpoint mp_shl_loop (taba : list Z) (shift l : Z) : list Z * Z :=
  match taba with
  | [] => ([], l)
  | v :: taba =>
      let '(tabr, l') := mp_shl_loop taba shift (v >> (w - shift)) in
      (wrap w (v << shift) .| l :: tabr, l')
  end.
Definition mp_shl (taba : list Z) (shift : Z) : list Z * Z := mp_shl_loop taba shift 0.

Fixpoint mp_shr_loop (tab : list Z) (shift high : Z) : list Z * Z :=
  match tab with
  | [] => ([], high)
  | a :: tab =>
      let '(tab_r, l) := mp_shr_loop tab shift high in
      ((a >> shift) .| wrap w (l << (w - shift)) :: tab_r, a)
  end.
Definition mp_shr (tab : list Z) (shift high : Z) : list Z * Z :=
  let '(tab_r, l) := mp_shr_loop tab shift high in
  (tab_r, l .& ((1 << shift) - 1)).
End definitions.

(** ** Specifications *)

Section specs.
Context (w : Z) (Hw : 0 < w).
Abbreviation B := (2 ^ w).

Local Lemma B_pos : 2 <= B.
Proof. rewrite pow2_half by lia. pose proof (pow2_pos (w - 1)). lia. Qed.
Local Lemma pow_2w : 2 ^ (2 * w) = B * B.
Proof. replace (2 * w) with (w + w) by lia. apply Z.pow_add_r; lia. Qed.

(** Two words and a carry below [2 ^ w] add up to one limb and a bit. *)
Lemma ADDC_spec x y c r c' :
  word w x -> word w y -> 0 <= c <= 1 -> ADDC w x y c = (r, c') ->
  r + B * c' = x + y + c /\ word w r /\ 0 <= c' <= 1.
Proof.
  unfold ADDC, word. intros Hx Hy Hc [= <- <-]. pose proof B_pos.
  assert (E1 : wrap w (x + y) = x + y - B * b2z (B <=? x + y)).
  { apply (wrap_unique _ _ _ (b2z (B <=? x + y))); unfold word; zcases; lia. }
  rewrite E1. set (k1 := b2z (B <=? x + y)) in *.
  assert (E2 : wrap w (x + y - B * k1 + c)
    = x + y - B * k1 + c - B * b2z (B <=? x + y - B * k1 + c)).
  { apply (wrap_unique _ _ _ (b2z (B <=? x + y - B * k1 + c)));
      unfold word, k1; zcases; lia. }
  rewrite E2. unfold k1 in *. zcases; lia.
Qed.

Lemma mp_add_spec op1 op2 c res c' :
  limbs w op1 -> limbs w op2 -> length op1 = length op2 -> 0 <= c <= 1 ->
  mp_add w op1 op2 c = (res, c') ->
  lval w res + 2 ^ (w * len op1) * c' = lval w op1 + lval w op2 + c /\
  limbs w res /\ length res = length op1 /\ 0 <= c' <= 1.
Proof.
  intros H1. revert op2 c res c'.
  induction H1 as [|x op1 Hx H1 IH]; intros op2 c res c' H2 Hl Hc E.
  - destruct op2; [|discriminate]. injection E as <- <-. cbn. rewrite Z.mul_0_r.
    split_and!; try apply Forall_nil; try apply H2; lia || done.
  - destruct H2 as [|y op2 Hy H2]; [discriminate|]. cbn [mp_add] in E.
    destruct (ADDC w x y c) as [r k] eqn:EA.
    apply ADDC_spec in EA as (E1 & Hr & Hk); [|done..].
    destruct (mp_add w op1 op2 k) as [rs k'] eqn:EM. injection E as <- <-.
    apply IH in EM as (E2 & Hrs & Hlen & Hk'); [|done|cbn in Hl; lia|done].
    cbn [lval length]. rewrite limbs_cons.
    replace (w * Z.of_nat (S (length op1))) with (w + w * len op1) by lia.
    rewrite Z.pow_add_r by lia. split_and!; try done; try lia.
Qed.

(** The subtraction step of [mp_sub], with its borrow. *)
Lemma sub_borrow_spec x y c :
  word w x -> word w y -> 0 <= c <= 1 ->
  let a := wrap w (x - y) in
  let v := wrap w (a - c) in
  let k := b2z (a <? v) .| b2z (x <? a) in
  v = x - y - c + B * k /\ word w v /\ 0 <= k <= 1.
Proof.
  unfold word. intros Hx Hy Hc. cbv zeta. pose proof B_pos.
  assert (E1 : wrap w (x - y) = x - y + B * b2z (x <? y)).
  { apply (wrap_unique _ _ _ (- b2z (x <? y))); unfold word; zcases; lia. }
  rewrite E1. destruct (Z.ltb_spec x y); cbn [Z.b2z].
  - rewrite (wrap_small w) by (unfold word; lia). zcases; lia.
  - assert (E2 : wrap w (x - y + B * 0 - c) = x - y - c + B * b2z (x - y <? c)).
    { apply (wrap_unique _ _ _ (- b2z (x - y <? c))); unfold word; zcases; lia. }
    rewrite E2. zcases; lia.
Qed.

Lemma mp_sub_spec op1 op2 c res c' :
  limbs w op1 -> limbs w op2 -> length op1 = length op2 -> 0 <= c <= 1 ->
  mp_sub w op1 op2 c = (res, c') ->
  lval w res = lval w op1 - lval w op2 - c + 2 ^ (w * len op1) * c' /\
  limbs w res /\ length res = length op1 /\ 0 <= c' <= 1.
Proof.
  intros H1. revert op2 c res c'.
  induction H1 as [|x op1 Hx H1 IH]; intros op2 c res c' H2 Hl Hc E.
  - destruct op2; [|discriminate]. injection E as <- <-. cbn. rewrite Z.mul_0_r.
    split_and!; try apply Forall_nil; lia || done.
  - destruct H2 as [|y op2 Hy H2]; [discriminate|]. cbn [mp_sub] in E.
    destruct (sub_borrow_spec x y c Hx Hy Hc) as (E1 & Hv & Hk).
    set (v := wrap w (wrap w (x - y) - c)) in *. cbv zeta in *.
    set (k := Z.lor _ _) in *. destruct (mp_sub w op1 op2 k) as [rs k'] eqn:EM.
    injection E as <- <-.
    apply IH in EM as (E3 & Hrs & Hlen & Hk'); [|done|cbn in Hl; lia|done].
    cbn [lval length]. rewrite limbs_cons.
    replace (w * Z.of_nat (S (length op1))) with (w + w * len op1) by lia.
    rewrite Z.pow_add_r by lia. split_and!; try done; try lia.
Qed.

Lemma wrap_lnot x : word w x -> wrap w (Z.lnot x) = B - 1 - x.
Proof.
  unfold word. intros Hx. apply (wrap_unique _ _ _ (-1)); unfold word, Z.lnot; lia.
Qed.

Lemma mp_neg_loop_spec op2 c res c' :
  limbs w op2 -> 0 <= c <= 1 -> mp_neg_loop w op2 c = (res, c') ->
  lval w res + 2 ^ (w * len op2) * c' = 2 ^ (w * len op2) - 1 - lval w op2 + c /\
  limbs w res /\ length res = length op2 /\ 0 <= c' <= 1.
Proof.
  intros H. revert c res c'. pose proof B_pos.
  induction H as [|y op2 Hy H IH]; intros c res c' Hc E.
  - injection E as <- <-. cbn. rewrite Z.mul_0_r.
    split_and!; try apply Forall_nil; lia || done.
  - cbn [mp_neg_loop] in E. rewrite wrap_lnot in E by done. unfold word in *.
    assert (E1 : wrap w (B - 1 - y + c) = B - 1 - y + c - B * b2z (y <? c)).
    { apply (wrap_unique _ _ _ (b2z (y <? c))); unfold word; zcases; lia. }
    rewrite E1 in E.
    replace (b2z (B - 1 - y + c - B * b2z (y <? c) <? c)) with (b2z (y <? c)) in E
      by (zcases; lia).
    destruct (mp_neg_loop w op2 (b2z (y <? c))) as [rs k'] eqn:EM. injection E as <- <-.
    apply IH in EM as (E3 & Hrs & Hlen & Hk'); [|zcases; lia].
    cbn [lval length]. rewrite limbs_cons.
    replace (w * Z.of_nat (S (length op2))) with (w + w * len op2) by lia.
    rewrite Z.pow_add_r by lia. split_and!; try done; try lia.
    unfold word; zcases; lia.
Qed.

Lemma mp_neg_spec op2 res c' :
  limbs w op2 -> mp_neg w op2 = (res, c') ->
  lval w res + 2 ^ (w * len op2) * c' = 2 ^ (w * len op2) - lval w op2 /\
  limbs w res /\ length res = length op2 /\ 0 <= c' <= 1.
Proof.
  intros H E. apply mp_neg_loop_spec in E as (E & ?); [|done|lia]. split; [lia|done].
Qed.

Lemma wrap_mod_div t : 0 <= t < B * B -> t = wrap w t + B * wrap w (t >> w).
Proof.
  intros Ht. pose proof B_pos. rewrite shiftr_div by lia.
  rewrite (wrap_small w (t / B)).
  - unfold wrap. pose proof (Z.div_mod t B). lia.
  - split; [apply Z.div_pos; lia|apply Z.div_lt_upper_bound; lia].
Qed.

Lemma mp_mul1_spec taba b l tabr h :
  limbs w taba -> word w b -> word w l -> mp_mul1 w taba b l = (tabr, h) ->
  lval w tabr + 2 ^ (w * len taba) * h = lval w taba * b + l /\
  limbs w tabr /\ length tabr = length taba /\ word w h.
Proof.
  intros H Hb. revert l tabr h. pose proof B_pos. unfold word in Hb.
  induction H as [|x taba Hx H IH]; intros l tabr h Hl E.
  - injection E as <- <-. cbn. rewrite Z.mul_0_r.
    split_and!; try apply Forall_nil; try apply Hl; lia.
  - cbn [mp_mul1] in E. unfold word in Hx, Hl.
    assert (Ht : 0 <= x * b + l < B * B) by nia.
    rewrite (wrap_small (2 * w)) in E by (unfold word; rewrite pow_2w; exact Ht).
    destruct (mp_mul1 w taba b (wrap w ((x * b + l) >> w))) as [r h'] eqn:EM.
    injection E as <- <-. pose proof (wrap_mod_div _ Ht) as Hd.
    pose proof (wrap_range w (x * b + l) ltac:(lia)) as Hr1.
    apply IH in EM as (E & Hrs & Hlen & Hh); [|apply wrap_range; lia].
    cbn [lval length]. rewrite limbs_cons.
    replace (w * Z.of_nat (S (length taba))) with (w + w * len taba) by lia.
    rewrite Z.pow_add_r by lia. split_and!; try done; try lia; try apply Hh; try apply Hr1.
Qed.

Lemma mp_div1_spec taba b r tabr r' :
  limbs w taba -> word w b -> 0 <= r < b -> mp_div1 w taba b r = (tabr, r') ->
  2 ^ (w * len taba) * r + lval w taba = lval w tabr * b + r' /\
  limbs w tabr /\ length tabr = length taba /\ 0 <= r' < b.
Proof.
  intros H Hb Hr. revert tabr r'. unfold word in Hb. pose proof B_pos.
  induction H as [|x taba Hx H IH]; intros tabr r' E.
  - injection E as <- <-. cbn. rewrite Z.mul_0_r.
    split_and!; try apply Forall_nil; lia.
  - cbn [mp_div1] in E. destruct (mp_div1 w taba b r) as [rs r1] eqn:EM.
    destruct (IH _ _ eq_refl) as (E1 & Hrs & Hlen & Hr1).
    rewrite lor_shiftl_add in E by (lia || done). unfold word in Hx.
    pose proof (Z.div_mod (r1 * B + x) b ltac:(lia)) as Hd.
    pose proof (Z.mod_pos_bound (r1 * B + x) b ltac:(lia)) as Hm.
    assert (Hq : 0 <= (r1 * B + x) / b < B).
    { split; [apply Z.div_pos; nia|apply Z.div_lt_upper_bound; nia]. }
    rewrite !wrap_small in E by (unfold word; lia). injection E as <- <-.
    cbn [lval length]. rewrite limbs_cons.
    replace (w * Z.of_nat (S (length taba))) with (w + w * len taba) by lia.
    rewrite Z.pow_add_r by lia. split_and!; try done; try lia.
Qed.

Lemma mp_add_mul1_loop_spec tabr taba b l res h :
  limbs w tabr -> limbs w taba -> length tabr = length taba -> word w b -> word w l ->
  mp_add_mul1_loop w tabr taba b l = (res, h) ->
  lval w res + 2 ^ (w * len taba) * h = lval w tabr + lval w taba * b + l /\
  limbs w res /\ length res = length taba /\ word w h.
Proof.
  intros Hr. revert taba l res h. pose proof B_pos.
  induction Hr as [|y tabr Hy Hr IH]; intros taba l res h Ha Hlen Hb Hl E.
  - destruct taba; [|discriminate]. injection E as <- <-. cbn. rewrite Z.mul_0_r.
    split_and!; try apply Forall_nil; lia || done.
  - destruct Ha as [|x taba Hx Ha]; [discriminate|]. cbn [mp_add_mul1_loop] in E.
    assert (Ht : 0 <= x * b + l + y < B * B) by (unfold word in *; nia).
    rewrite (wrap_small (2 * w)) in E by (unfold word; rewrite pow_2w; exact Ht).
    pose proof (wrap_mod_div _ Ht) as Hd.
    pose proof (wrap_range w (x * b + l + y) ltac:(lia)) as Hr1.
    destruct (mp_add_mul1_loop w tabr taba b _) as [rs h'] eqn:EM.
    injection E as <- <-.
    apply IH in EM as (E & Hrs & Hl' & Hh);
      [|done|cbn in Hlen; lia|done|apply wrap_range; lia].
    cbn [lval length]. rewrite limbs_cons.
    replace (w * Z.of_nat (S (length taba))) with (w + w * len taba) by lia.
    rewrite Z.pow_add_r by lia. split_and!; try done; try lia.
Qed.

Lemma mp_add_mul1_spec tabr taba b res h :
  limbs w tabr -> limbs w taba -> length tabr = length taba -> word w b ->
  mp_add_mul1 w tabr taba b = (res, h) ->
  lval w res + 2 ^ (w * len taba) * h = lval w tabr + lval w taba * b /\
  limbs w res /\ length res = length taba /\ word w h.
Proof.
  intros. eapply mp_add_mul1_loop_spec in H3 as (E & ?); try done.
  - split; [lia|done].
  - pose proof B_pos. unfold word. lia.
Qed.

Lemma mp_mul_basecase_loop_spec op1 op2 result i :
  limbs w op1 -> limbs w op2 -> limbs w result ->
  length result = (length op1 + i)%nat ->
  let res := mp_mul_basecase_loop w op1 op2 result i in
  lval w res = lval w result + 2 ^ (w * Z.of_nat i) * (lval w op1 * lval w op2) /\
  limbs w res /\ length res = (length result + length op2)%nat.
Proof.
  intros H1 H2. revert result i.
  induction H2 as [|y op2 Hy H2 IH]; intros result i Hr Hlen; cbn [mp_mul_basecase_loop].
  - cbn. split_and!; lia || done.
  - destruct (mp_add_mul1 w (drop i result) op1 y) as [res r] eqn:EM.
    rewrite <- (take_drop i result) in Hr. apply limbs_app in Hr as [Hr1 Hr2].
    apply mp_add_mul1_spec in EM as (E & Hres & Hl & Hh); try done;
      [|rewrite length_drop; lia].
    assert (Htl : length (take i result) = i) by (rewrite length_take; lia).
    destruct (IH (take i result ++ res ++ [r]) (S i)) as (E2 & ? & E3).
    { apply limbs_app; split; [done|]. apply limbs_app; split; [done|].
      apply limbs_cons; split; [done|constructor]. }
    { rewrite !length_app, Htl. cbn. lia. }
    split_and!; [|done|]; [|rewrite E3, !length_app, Htl; cbn; lia].
    rewrite E2, !lval_app by lia. cbn [lval]. rewrite Htl, Hl.
    replace (w * Z.of_nat (S i)) with (w * Z.of_nat i + w) by lia.
    rewrite Z.pow_add_r by lia.
    rewrite <- (take_drop i result) at 2. rewrite lval_app, Htl by lia.
    scale (2 ^ (w * Z.of_nat i)) E. lia.
Qed.

Lemma mp_mul_basecase_spec op1 op2 :
  limbs w op1 -> limbs w op2 -> op2 <> [] ->
  let res := mp_mul_basecase w op1 op2 in
  lval w res = lval w op1 * lval w op2 /\
  limbs w res /\ length res = (length op1 + length op2)%nat.
Proof.
  intros H1 H2 Hn. destruct H2 as [|y op2 Hy H2]; [done|]. cbn [mp_mul_basecase].
  destruct (mp_mul1 w op1 y 0) as [res r] eqn:EM.
  apply mp_mul1_spec in EM as (E & Hres & Hl & Hh); try done;
    [|pose proof B_pos; unfold word; lia].
  destruct (mp_mul_basecase_loop_spec op1 op2 (res ++ [r]) 1) as (E2 & ? & E3); try done.
  { apply limbs_app; split; [done|]. apply limbs_cons; split; [done|constructor]. }
  { rewrite length_app. cbn. lia. }
  split_and!; [|done|rewrite E3, length_app; cbn; lia].
  rewrite E2, lval_app by lia. cbn [lval]. rewrite Hl.
  replace (w * Z.of_nat 1) with w by lia. lia.
Qed.

Lemma wrap_2w x : wrap w (wrap (2 * w) x) = wrap w x.
Proof.
  pose proof B_pos. unfold wrap. rewrite pow_2w.
  apply Z.mod_mod_divide. exists B. lia.
Qed.

(** The double-limb difference of [mp_sub_mul1] and the borrow it hands on. *)
Lemma sub_mul_borrow T : - (B * (B - 1)) <= T < B ->
  let t := wrap (2 * w) T in
  let l := wrap w (wrap (2 * w) (- (t >> w))) in
  wrap w t = T + B * l /\ word w (wrap w t) /\ word w l.
Proof.
  intros HT. cbv zeta. pose proof B_pos. rewrite !wrap_2w, shiftr_div by lia.
  pose proof (Z.div_mod T (B * B) ltac:(nia)) as Hd.
  assert (E : wrap (2 * w) T / B = T / B - B * (T / (B * B))).
  { unfold wrap. rewrite pow_2w.
    replace (T mod (B * B)) with (T + (- (B * (T / (B * B)))) * B) by lia.
    rewrite Z.div_add by lia. lia. }
  rewrite E. pose proof (Z.div_mod T B ltac:(lia)) as HdB.
  pose proof (Z.mod_pos_bound T B ltac:(lia)) as HmB.
  assert (Hl : wrap w (- (T / B - B * (T / (B * B)))) = - (T / B)).
  { apply (wrap_unique _ _ _ (T / (B * B))); [lia| |lia]. unfold word. nia. }
  rewrite Hl. change (wrap w T) with (T mod B).
  split_and!; [lia|done|]. unfold word. nia.
Qed.

Lemma mp_sub_mul1_loop_spec tabr taba b l res h :
  limbs w tabr -> limbs w taba -> length tabr = length taba -> word w b -> word w l ->
  mp_sub_mul1_loop w tabr taba b l = (res, h) ->
  lval w res = lval w tabr - lval w taba * b - l + 2 ^ (w * len taba) * h /\
  limbs w res /\ length res = length taba /\ word w h.
Proof.
  intros Hr. revert taba l res h. pose proof B_pos.
  induction Hr as [|y tabr Hy Hr IH]; intros taba l res h Ha Hlen Hb Hl E.
  - destruct taba; [|discriminate]. injection E as <- <-. cbn. rewrite Z.mul_0_r.
    split_and!; try apply Forall_nil; lia || done.
  - destruct Ha as [|x taba Hx Ha]; [discriminate|]. cbn [mp_sub_mul1_loop] in E.
    destruct (sub_mul_borrow (y - x * b - l)) as (E1 & Hv & Hl1).
    { unfold word in *. nia. }
    set (t := wrap (2 * w) _) in *. cbv zeta in *.
    destruct (mp_sub_mul1_loop w tabr taba b _) as [rs h'] eqn:EM.
    injection E as <- <-.
    apply IH in EM as (E & Hrs & Hl' & Hh); [|done|cbn in Hlen; lia|done|done].
    cbn [lval length]. rewrite limbs_cons.
    replace (w * Z.of_nat (S (length taba))) with (w + w * len taba) by lia.
    rewrite Z.pow_add_r by lia. split_and!; try done; try lia.
Qed.

Lemma mp_sub_mul1_spec tabr taba b res h :
  limbs w tabr -> limbs w taba -> length tabr = length taba -> word w b ->
  mp_sub_mul1 w tabr taba b = (res, h) ->
  lval w res = lval w tabr - lval w taba * b + 2 ^ (w * len taba) * h /\
  limbs w res /\ length res = length taba /\ word w h.
Proof.
  intros. eapply mp_sub_mul1_loop_spec in H3 as (E & ?); try done.
  - split; [lia|done].
  - pose proof B_pos. unfold word. lia.
Qed.

(** ** Division by an invariant normalized limb *)

Lemma udiv1norm_init_spec d : B / 2 <= d < B ->
  let v := udiv1norm_init w d in
  word w v /\ B * B - 1 - d < d * (B + v) <= B * B - 1.
Proof.
  intros Hd. cbv zeta. pose proof B_pos. unfold udiv1norm_init.
  pose proof (Z.div_mod B 2 ltac:(lia)). pose proof (Z.mod_pos_bound B 2 ltac:(lia)).
  rewrite (wrap_unique w (- d - 1) (B - d - 1) (-1)) by (unfold word; lia).
  rewrite (wrap_unique w (-1) (B - 1) (-1)) by (unfold word; lia).
  rewrite lor_shiftl_add by (unfold word; lia).
  set (n := (B - d - 1) * B + (B - 1)).
  pose proof (Z.div_mod n d ltac:(lia)) as Hq.
  pose proof (Z.mod_pos_bound n d ltac:(lia)) as Hr.
  assert (Hw' : 0 <= n / d < B).
  { split; [apply Z.div_pos; unfold n; nia|apply Z.div_lt_upper_bound; unfold n; [lia|]].
    assert (B mod 2 = 0); [|nia]. rewrite pow2_half by lia. now rewrite Z.mul_comm, Z.mod_mul. }
  rewrite wrap_small by exact Hw'. unfold word. split; [done|]. unfold n in *. lia.
Qed.

Lemma B_half : 2 * (B / 2) = B.
Proof.
  pose proof (Z.div_mod B 2 ltac:(lia)).
  assert (B mod 2 = 0) by (rewrite pow2_half by lia; now rewrite Z.mul_comm, Z.mod_mul).
  lia.
Qed.

(** The sign mask of the low limb. *)
Lemma sign_mask a0 : word w a0 ->
  wrap w (swrap w a0 >> (w - 1)) = (B - 1) * b2z (B / 2 <=? a0).
Proof.
  intros Ha. pose proof B_pos. rewrite shiftr_div by lia.
  pose proof (pow2_half w ltac:(lia)) as Hh. pose proof (pow2_pos (w - 1)).
  assert (HB : B / 2 = 2 ^ (w - 1)) by (rewrite Hh, Z.mul_comm; apply Z.div_mul; lia).
  rewrite HB. unfold swrap. rewrite (Z.mod_small a0) by exact Ha. unfold word in Ha.
  destruct (Z.ltb_spec a0 (2 ^ (w - 1))) as [Hlt|Hge].
  - rewrite Z.div_small by lia. rewrite (wrap_small w 0) by (unfold word; lia).
    zcases; lia.
  - replace ((a0 - B) / 2 ^ (w - 1)) with (-1).
    + rewrite (wrap_unique w (-1) (B - 1) (-1)) by (unfold word; lia). zcases; lia.
    + apply (Z.div_unique _ _ _ (a0 - B + 2 ^ (w - 1))); lia.
Qed.

Lemma land_mask b d : word w d -> ((B - 1) * b2z b) .& d = d * b2z b.
Proof.
  intros Hd. destruct b; cbn [Z.b2z].
  - rewrite Z.mul_1_r, Z.land_comm, land_ones_mod by lia.
    change (d mod B) with (wrap w d). rewrite wrap_small by done. lia.
  - rewrite Z.mul_0_r, Z.land_0_l. lia.
Qed.

(** The estimate of the quotient is exact or one too small. *)
Local Lemma udiv1norm_estimate a1 a0 d v n1 :
  B / 2 <= d < B -> 0 <= a1 < d -> 0 <= a0 < B -> 0 <= v < B ->
  B * B - 1 - d < d * (B + v) <= B * B - 1 ->
  n1 = b2z (B / 2 <=? a0) ->
  let t := v * (a1 + n1) + (a0 + n1 * (d - B)) in
  0 <= t < B * B /\ 0 <= a1 * B + a0 - d * (a1 + t / B) < 2 * d.
Proof.
  intros Hd Ha1 Ha0 Hv Hdv Hn t. pose proof B_pos.
  pose proof B_half.
  assert (Hn01 : n1 = 0 /\ a0 < B / 2 \/ n1 = 1 /\ B / 2 <= a0) by (zcases; lia).
  assert (Ht : 0 <= t < B * B) by (unfold t; destruct Hn01 as [[-> ?]|[-> ?]]; nia).
  split; [done|].
  pose proof (Z.div_mod t B ltac:(lia)) as Hq. pose proof (Z.mod_pos_bound t B ltac:(lia)) as Hr.
  set (q := t / B) in *. set (rho := t mod B) in *.
  set (k := B * B - d * (B + v)) in *. assert (Hk : 1 <= k <= d) by (unfold k; lia).
  (* the exact error, multiplied by the base *)
  assert (HE : B * (a1 * B + a0 - d * (a1 + q))
    = (B - d) * (a0 - n1 * (B - d)) + k * (a1 + n1) + d * rho).
  { assert (HBq : B * q = t - rho) by lia.
    transitivity (a1 * (B * B) + B * a0 - d * a1 * B - d * (B * q)); [ring|].
    rewrite HBq. unfold t, k. ring. }
  assert (HL : 0 <= (B - d) * (a0 - n1 * (B - d)) + k * (a1 + n1) + d * rho).
  { assert (0 <= (B - d) * (a0 - n1 * (B - d)))
      by (apply Z.mul_nonneg_nonneg; destruct Hn01 as [[-> ?]|[-> ?]]; lia).
    assert (0 <= k * (a1 + n1)) by (apply Z.mul_nonneg_nonneg; lia).
    assert (0 <= d * rho) by (apply Z.mul_nonneg_nonneg; lia). lia. }
  assert (HU : (B - d) * (a0 - n1 * (B - d)) + k * (a1 + n1) + d * rho < B * (2 * d)).
  { assert (d * rho <= d * (B - 1)) by (apply Z.mul_le_mono_nonneg_l; lia).
    assert (k * (a1 + n1) <= d * (d - 1 + n1)) by (apply Z.mul_le_mono_nonneg; lia).
    assert ((B - d) * (a0 - n1 * (B - d)) <= (B - d) * (d - n1))
      by (apply Z.mul_le_mono_nonneg_l; destruct Hn01 as [[-> ?]|[-> ?]]; lia).
    destruct Hn01 as [[-> ?]|[-> ?]]; lia. }
  rewrite <- HE in HL, HU. split.
  - apply (Z.mul_nonneg_cancel_l B); lia.
  - apply (Z.mul_lt_mono_pos_l B); lia.
Qed.

Lemma udiv1norm_spec a1 a0 d v q r :
  B / 2 <= d < B -> 0 <= a1 < d -> word w a0 -> v = udiv1norm_init w d ->
  udiv1norm w a1 a0 d v = (q, r) ->
  a1 * B + a0 = q * d + r /\ 0 <= r < d /\ word w q.
Proof.
  intros Hd Ha1 Ha0 Hv E. pose proof B_pos.
  destruct (udiv1norm_init_spec d Hd) as [Hvw Hdv]. rewrite <- Hv in *. clear Hv.
  destruct (udiv1norm_estimate a1 a0 d v _ Hd Ha1 Ha0 Hvw Hdv eq_refl) as [Ht HE].
  unfold udiv1norm in E. rewrite sign_mask in E by done.
  rewrite land_mask in E by (unfold word; lia).
  set (n1 := b2z (B / 2 <=? a0)) in *. cbv zeta in *. unfold word in *.
  assert (Hn1 : n1 = 0 \/ n1 = 1 /\ B / 2 <= a0) by (unfold n1; destruct (Z.leb_spec (B / 2) a0); cbn [Z.b2z]; lia).
  pose proof B_half.
  rewrite (wrap_unique w (a0 + d * n1) (a0 + n1 * (d - B)) n1) in E
    by (unfold word; lia).
  rewrite (wrap_unique w (a1 - (B - 1) * n1) (a1 + n1) (- n1)) in E by (unfold word; lia).
  set (t := v * (a1 + n1) + (a0 + n1 * (d - B))) in *.
  rewrite (wrap_small (2 * w) t) in E by (unfold word; rewrite pow_2w; lia).
  rewrite shiftr_div in E by lia.
  set (e := a1 * B + a0 - d * (a1 + t / B)) in *.
  assert (0 <= t / B) by (apply Z.div_pos; lia).
  assert (Hq1 : 0 <= t / B + a1 < B).
  { split; [lia|]. apply (Z.mul_lt_mono_pos_l d); [lia|].
    assert (a1 * B <= (d - 1) * B) by (apply Z.mul_le_mono_nonneg_r; lia).
    unfold e in HE. lia. }
  rewrite (wrap_small w (t / B + a1)) in E by exact Hq1.
  rewrite lor_shiftl_add in E by (unfold word; lia).
  replace (a1 * B + a0 - (t / B + a1) * d - d) with (e - d) in E by (unfold e; ring).
  assert (Hq : t / B + a1 + b2z (d <=? e) < B).
  { apply (Z.mul_lt_mono_pos_l d); [lia|].
    assert (a1 * B <= (d - 1) * B) by (apply Z.mul_le_mono_nonneg_r; lia).
    unfold e in *. destruct (Z.leb_spec d (a1 * B + a0 - d * (a1 + t / B))); cbn [Z.b2z]; lia. }
  assert (He : a1 * B + a0 = (t / B + a1) * d + e) by (unfold e; ring).
  clearbody e. clear Ht Hdv. destruct (Z.leb_spec d e) as [Hge|Hlt]; cbn [Z.b2z] in Hq.
  - rewrite (wrap_small (2 * w)) in E by (unfold word; rewrite pow_2w; nia).
    rewrite shiftr_div, (Z.div_small (e - d)), (wrap_small w 0), Z.land_0_l, !Z.add_0_r in E
      by (unfold word; lia).
    rewrite wrap_wrap, !wrap_small in E by (unfold word; lia).
    injection E as <- <-. unfold word. lia.
  - rewrite (wrap_unique (2 * w) (e - d) (e - d + B * B) (-1)) in E
      by (unfold word; rewrite ?pow_2w; nia).
    assert (Eh : (e - d + B * B) / B = B - 1).
    { symmetry. apply (Z.div_unique _ _ _ (e - d + B)); lia. }
    rewrite shiftr_div, Eh, (wrap_small w (B - 1)) in E by (unfold word; lia).
    rewrite Z.land_comm, land_ones_mod in E by lia.
    change (d mod B) with (wrap w d) in E. rewrite (wrap_small w d) in E by (unfold word; lia).
    rewrite (wrap_unique w (t / B + a1 + 1 + (B - 1)) (t / B + a1) 1) in E by (unfold word; lia).
    rewrite (wrap_unique w (e - d + B * B) (e - d + B) (B - 1)) in E by (unfold word; lia).
    rewrite (wrap_unique w (e - d + B + d) e 1) in E by (unfold word; lia).
    injection E as <- <-. unfold word. lia.
Qed.

Lemma mp_div1norm_inv_loop_spec taba b r tabr r' :
  limbs w taba -> B / 2 <= b < B -> 0 <= r < b ->
  mp_div1norm_inv_loop w taba b r (udiv1norm_init w b) = (tabr, r') ->
  2 ^ (w * len taba) * r + lval w taba = lval w tabr * b + r' /\
  limbs w tabr /\ length tabr = length taba /\ 0 <= r' < b.
Proof.
  intros H Hb Hr. revert tabr r'. pose proof B_pos.
  induction H as [|x taba Hx H IH]; intros tabr r' E.
  - injection E as <- <-. cbn. rewrite Z.mul_0_r.
    split_and!; try apply Forall_nil; lia.
  - cbn [mp_div1norm_inv_loop] in E.
    destruct (mp_div1norm_inv_loop w taba b r _) as [rs r1] eqn:EM.
    destruct (IH _ _ eq_refl) as (E1 & Hrs & Hlen & Hr1).
    destruct (udiv1norm w r1 x b _) as [q r2] eqn:EQ. injection E as <- <-.
    apply udiv1norm_spec in EQ as (E2 & Hr2 & Hq); try done.
    cbn [lval length]. rewrite limbs_cons.
    replace (w * Z.of_nat (S (length taba))) with (w + w * len taba) by lia.
    rewrite Z.pow_add_r by lia. split_and!; try done; try lia.
Qed.

Lemma mp_div1norm_spec taba b r tabr r' :
  limbs w taba -> B / 2 <= b < B -> 0 <= r < b ->
  mp_div1norm w taba b r = (tabr, r') ->
  2 ^ (w * len taba) * r + lval w taba = lval w tabr * b + r' /\
  limbs w tabr /\ length tabr = length taba /\ 0 <= r' < b.
Proof.
  unfold mp_div1norm. intros H Hb Hr. case_match.
  - now apply mp_div1norm_inv_loop_spec.
  - apply mp_div1_spec; try done. unfold word. pose proof B_pos. pose proof B_half. lia.
Qed.

(** ** Division of arrays *)

Lemma divnorm_first_spec taba tabb :
  limbs w taba -> limbs w tabb -> length taba = length tabb ->
  divnorm_first (rev taba) (rev tabb) = b2z (lval w tabb <=? lval w taba).
Proof.
  revert tabb. induction taba as [|x taba IH] using rev_ind; intros tabb Ha Hb Hl.
  - destruct tabb; [done|discriminate].
  - destruct tabb as [|y tabb _] using rev_ind; [rewrite length_app in Hl; cbn in Hl; lia|].
    rewrite !length_app in Hl. cbn in Hl. rewrite !rev_app_distr. cbn [rev app divnorm_first].
    apply limbs_app in Ha as [Ha Hx]. apply limbs_app in Hb as [Hb Hy].
    rewrite !lval_app by lia. cbn [lval].
    replace (length tabb) with (length taba) by lia.
    pose proof (lval_range w Hw _ Ha). pose proof (lval_range w Hw _ Hb) as Hbr.
    replace (length tabb) with (length taba) in Hbr by lia.
    set (P := 2 ^ (w * len taba)) in *.
    destruct (Z.eqb_spec x y) as [->|Hne]; cbn [negb].
    + rewrite IH by (done || lia). f_equal.
      destruct (Z.leb_spec (lval w tabb) (lval w taba)); symmetry;
        [apply Z.leb_le|apply Z.leb_gt]; lia.
    + destruct (Z.ltb_spec x y); symmetry.
      * replace (_ <=? _) with false; [done|]. symmetry. apply Z.leb_gt. nia.
      * replace (_ <=? _) with true; [done|]. symmetry. apply Z.leb_le. nia.
Qed.

(** Knuth's bound: the estimated digit exceeds the true one by at most two. *)
Lemma qhat_arith P lo bl v a0 b1 D X q :
  0 < P -> 0 <= lo < P -> 0 <= bl < P -> B / 2 <= b1 < B -> 0 <= a0 < B -> 0 <= v ->
  D = bl + P * b1 -> X = lo + P * (a0 + B * v) -> X < B * D ->
  (b1 <= v /\ q = B - 1 \/ v < b1 /\ q = (v * B + a0) / b1) ->
  0 <= q < B /\ X - q * D < D /\ - (2 * D) <= X - q * D.
Proof.
  intros HP Hlo Hbl Hb1 Ha0 Hv HD HX HXD Hq. pose proof B_pos. pose proof B_half.
  destruct Hq as [[Hge ->]|[Hlt ->]].
  - assert (HX1 : P * (B * v) <= X) by (assert (0 <= P * a0) by nia; lia).
    assert (HD1 : B * D < P * (B * (b1 + 1))).
    { assert (B * bl < B * P) by (apply Z.mul_lt_mono_pos_l; lia). lia. }
    assert (v = b1) as ->.
    { assert (P * (B * v) < P * (B * (b1 + 1))) as Hlt by lia.
      apply Z.mul_lt_mono_pos_l in Hlt; [|lia].
      apply Z.mul_lt_mono_pos_l in Hlt; lia. }
    split; [lia|]. split; [lia|].
    assert ((B - 3) * (b1 + 1) <= B * b1) by lia.
    assert (P * ((B - 3) * (b1 + 1)) <= P * (B * b1)) by (apply Z.mul_le_mono_nonneg_l; lia).
    assert (0 <= P * b1) by nia.
    destruct (Z.le_gt_cases B 3).
    + assert ((B - 3) * D <= 0) by (apply Z.mul_nonpos_nonneg; lia). lia.
    + assert ((B - 3) * bl <= (B - 3) * P) by (apply Z.mul_le_mono_nonneg_l; lia). lia.
  - set (N := v * B + a0) in *. pose proof (Z.div_mod N b1 ltac:(lia)) as Hd.
    pose proof (Z.mod_pos_bound N b1 ltac:(lia)) as Hm.
    assert (HN : 0 <= N < b1 * B) by (unfold N; nia).
    set (qh := N / b1) in *.
    assert (Hqh : 0 <= qh < B).
    { split; [apply Z.div_pos; lia|apply Z.div_lt_upper_bound; lia]. }
    assert (HXN : X = lo + P * N) by (unfold N; lia).
    split; [done|]. split.
    + (* X < (qh + 1) * D *)
      assert (N + 1 <= (qh + 1) * b1) by lia.
      assert (P * (N + 1) <= P * ((qh + 1) * b1)) by (apply Z.mul_le_mono_nonneg_l; lia).
      assert (0 <= (qh + 1) * bl) by nia. lia.
    + assert (P * (qh * b1) <= P * N) by (apply Z.mul_le_mono_nonneg_l; lia).
      destruct (Z.le_gt_cases qh 2).
      * assert (0 <= P * b1) by (apply Z.mul_nonneg_nonneg; lia).
        assert ((qh - 2) * D <= 0) by (apply Z.mul_nonpos_nonneg; lia).
        assert (0 <= P * N) by (apply Z.mul_nonneg_nonneg; lia). lia.
      * assert ((qh - 2) * bl <= (qh - 2) * P) by (apply Z.mul_le_mono_nonneg_l; lia).
        assert (P * (qh - 2) <= P * (2 * b1)) by (apply Z.mul_le_mono_nonneg_l; lia). lia.
Qed.

Lemma divnorm_qhat_spec b1 b1_inv a1 a0 :
  B / 2 <= b1 < B -> word w a1 -> word w a0 ->
  b1_inv = 0 \/ b1_inv = udiv1norm_init w b1 ->
  let q := divnorm_qhat w b1 b1_inv a1 a0 in
  b1 <= a1 /\ q = B - 1 \/ a1 < b1 /\ q = (a1 * B + a0) / b1.
Proof.
  intros Hb1 Ha1 Ha0 Hinv. cbv zeta. pose proof B_pos. unfold word in *.
  unfold divnorm_qhat. destruct (Z.leb_spec b1 a1).
  - left. split; [done|]. apply (wrap_unique _ _ _ (-1)); unfold word; lia.
  - right. split; [done|]. destruct (Z.eqb_spec b1_inv 0); cbn [negb].
    + rewrite lor_shiftl_add by (lia || done). apply wrap_small.
      split; [apply Z.div_pos; nia|apply Z.div_lt_upper_bound; nia].
    + destruct Hinv as [?|Hinv]; [done|].
      destruct (udiv1norm w a1 a0 b1 b1_inv) as [q r] eqn:E.
      apply udiv1norm_spec in E as (E & Hr & Hq); try done; [|lia].
      cbn [fst]. apply (Z.div_unique _ _ _ r); lia.
Qed.

Lemma divnorm_fix_spec fuel win top tabb q D X :
  limbs w win -> limbs w tabb -> length win = length tabb -> word w top ->
  lval w tabb = D -> 0 < D -> 0 <= X ->
  lval w win + 2 ^ (w * len tabb) * top = X - q * D + 2 ^ (w * len tabb) * B ->
  - (Z.of_nat fuel * D) <= X - q * D < 0 -> word w q ->
  let '(win', top', q') := divnorm_fix w fuel win top tabb q in
  lval w win' = X - q' * D /\ top' = 0 /\ 0 <= X - q' * D < D /\
  limbs w win' /\ length win' = length tabb /\ word w q'.
Proof.
  revert win top q. pose proof B_pos.
  induction fuel as [|fuel IH]; intros win top q Hwin Hb Hl Ht HD HD0 HX E HY Hq; [lia|].
  cbn [divnorm_fix]. unfold word in Hq.
  assert (Hq1 : 1 <= q) by nia.
  rewrite (wrap_small w (q - 1)) by (unfold word; lia).
  destruct (mp_add w win tabb 0) as [win' c] eqn:EA.
  apply mp_add_spec in EA as (E1 & Hw' & Hl' & Hc); try done; try lia.
  rewrite Hl in E1. rewrite HD in E1. set (P := 2 ^ (w * len tabb)) in *.
  assert (HP : 0 < P) by (apply pow2_pos; lia).
  pose proof (lval_range w Hw _ Hw') as Hr'. replace (length win') with (length tabb) in Hr' by lia.
  fold P in Hr'. unfold word in Ht.
  destruct (Z.eqb_spec c 0) as [->|Hc0]; cbn [negb].
  - assert (P * top <= P * (B - 1)) by (apply Z.mul_le_mono_nonneg_l; lia).
    apply IH; try done; try lia; unfold word; lia.
  - assert (c = 1) as -> by lia.
    destruct (Z.eqb_spec top (B - 1)) as [->|].
    + rewrite (wrap_unique w _ 0 1) by (unfold word; lia). cbn [Z.eqb].
      split_and!; try done; try lia; unfold word; lia.
    + rewrite (wrap_small w (top + 1)) by (unfold word; lia).
      destruct (Z.eqb_spec (top + 1) 0); [lia|].
      assert (P * (top + 1) <= P * (B - 1)) by (apply Z.mul_le_mono_nonneg_l; lia).
      apply IH; try done; try lia; unfold word; lia.
Qed.

(** A normalized divisor of at least two limbs. *)
Definition norm_divisor (tabb : list Z) (b1 : Z) : Prop :=
  limbs w tabb /\ B / 2 <= b1 /\ exists lo, tabb = lo ++ [b1].

Lemma norm_divisor_bound tabb b1 : norm_divisor tabb b1 ->
  2 ^ (w * len tabb) <= 2 * lval w tabb /\ lval w tabb < 2 ^ (w * len tabb) /\ b1 < B.
Proof.
  intros (Hb & Hb1 & lo & ->). pose proof (lval_range w Hw _ Hb). pose proof B_half.
  apply limbs_app in Hb as [Hlo Hb]. apply limbs_cons in Hb as [Hbw _]. unfold word in Hbw.
  pose proof (lval_range w Hw _ Hlo). rewrite lval_app, length_app in * by lia. cbn [lval length] in *.
  split_and!; [|lia..]. replace (w * Z.of_nat (length lo + 1)) with (w * len lo + w) by lia.
  rewrite Z.pow_add_r by lia. nia.
Qed.

Lemma divnorm_step_spec win v a0 tabb b1 b1_inv :
  norm_divisor tabb b1 -> limbs w win -> length win = length tabb ->
  last win = Some a0 -> word w v ->
  b1_inv = 0 \/ b1_inv = udiv1norm_init w b1 ->
  let D := lval w tabb in
  let X := lval w win + 2 ^ (w * len tabb) * v in
  X < B * D ->
  let '(win', top, q) := divnorm_step w win v a0 tabb b1 b1_inv in
  lval w win' = X - q * D /\ top = 0 /\ 0 <= X - q * D < D /\
  limbs w win' /\ length win' = length tabb /\ word w q.
Proof.
  intros Hd Hwin Hl Hlast Hv Hinv D X HXD. pose proof B_pos.
  destruct (norm_divisor_bound _ _ Hd) as (HPD & HDP & Hb1B).
  destruct Hd as (Hb & Hb1 & blo & Etab).
  apply last_Some in Hlast as [wlo ->].
  pose proof Hwin as [Hwlo Ha0]%limbs_app. apply limbs_cons in Ha0 as [Ha0 _].
  unfold divnorm_step.
  pose proof (divnorm_qhat_spec b1 b1_inv v a0 ltac:(lia) Hv Ha0 Hinv) as Hqh.
  set (q := divnorm_qhat w b1 b1_inv v a0) in *. cbv zeta in Hqh.
  assert (Hlen : length wlo = length blo)
    by (rewrite Etab, !length_app in Hl; cbn in Hl; lia).
  pose proof Hb as Hblo. rewrite Etab in Hblo. apply limbs_app in Hblo as [Hblo _].
  pose proof (lval_range w Hw _ Hwlo) as R1. pose proof (lval_range w Hw _ Hblo) as R2.
  rewrite Hlen in R1. set (P := 2 ^ (w * len blo)) in *.
  assert (HP : 0 < P) by (apply pow2_pos; lia).
  assert (EPn : 2 ^ (w * len tabb) = P * B).
  { rewrite Etab, length_app. cbn. unfold P. rewrite <- Z.pow_add_r by lia. f_equal. lia. }
  assert (ED : D = lval w blo + P * b1).
  { unfold D. rewrite Etab, lval_app by lia. cbn [lval]. unfold P. lia. }
  assert (EX : X = lval w wlo + P * (a0 + B * v)).
  { unfold X. rewrite EPn, lval_app, Hlen by lia. cbn [lval]. fold P. lia. }
  unfold word in *.
  destruct (qhat_arith P (lval w wlo) (lval w blo) v a0 b1 D X q)
    as (Hq & HU & HL); try done; try lia.
  destruct (mp_sub_mul1 w (wlo ++ [a0]) tabb q) as [win1 r] eqn:ES.
  apply mp_sub_mul1_spec in ES as (E1 & Hw1 & Hl1 & Hr); try done.
  rewrite EPn in *. fold D in E1. unfold word in Hr.
  pose proof (lval_range w Hw _ Hw1) as Hr1. rewrite Hl1, EPn in Hr1.
  assert (EY : lval w win1 + P * B * (v - r) = X - q * D) by (unfold X; rewrite EPn; lia).
  assert (0 < P * B) by nia.
  destruct (Z.le_gt_cases r v).
  - rewrite (wrap_small w (v - r)) by (unfold word; lia).
    destruct (Z.ltb_spec v (v - r)); [lia|]. cbn [Z.b2z negb Z.eqb].
    assert (v - r = 0).
    { destruct (Z.eq_dec (v - r) 0); [done|].
      assert (P * B * 1 <= P * B * (v - r)) by (apply Z.mul_le_mono_nonneg_l; lia). lia. }
    split_and!; try done; try lia; nia.
  - rewrite (wrap_unique w (v - r) (v - r + B) (-1)) by (unfold word; lia).
    destruct (Z.ltb_spec v (v - r + B)); [|lia]. cbn [Z.b2z negb Z.eqb].
    assert (P * B * (v - r) <= P * B * (-1)) by (apply Z.mul_le_mono_nonneg_l; lia).
    assert (0 <= X).
    { unfold X. rewrite EPn. assert (0 <= P * B * v) by nia.
      pose proof (lval_range w Hw _ Hwin). lia. }
    apply divnorm_fix_spec with (D := D) (X := X); try done; try lia; unfold word; lia.
Qed.

Lemma take_S_snoc (l : list Z) n : (n < length l)%nat -> take (S n) l = take n l ++ [l !!! n].
Proof. intros. apply take_S_r. by apply list_lookup_lookup_total_lt. Qed.

Lemma limbs_take n l : limbs w l -> limbs w (take n l).
Proof. apply Forall_take. Qed.
Lemma limbs_drop n l : limbs w l -> limbs w (drop n l).
Proof. apply Forall_drop. Qed.
Lemma limbs_total l i : limbs w l -> (i < length l)%nat -> word w (l !!! i).
Proof.
  intros Hl Hi. eapply limbs_lookup; [done|]. by apply list_lookup_lookup_total_lt.
Qed.

Lemma divnorm_loop_spec i tabq taba tabb b1 b1_inv :
  norm_divisor tabb b1 -> limbs w taba -> (i + length tabb <= length taba)%nat ->
  b1_inv = 0 \/ b1_inv = udiv1norm_init w b1 ->
  lval w (take (length tabb) (drop i taba)) < lval w tabb ->
  let '(tabq', taba') := divnorm_loop w i tabq taba tabb b1 b1_inv in
  exists qs, tabq' = qs ++ tabq /\ length qs = i /\ limbs w qs /\
    limbs w taba' /\ length taba' = length taba /\
    lval w (take (i + length tabb) taba)
      = lval w qs * lval w tabb + lval w (take (length tabb) taba') /\
    lval w (take (length tabb) taba') < lval w tabb.
Proof.
  intros Hd. revert tabq taba. set (nb := length tabb).
  assert (Hnb : (0 < nb)%nat).
  { destruct Hd as (_ & _ & lo & ->). unfold nb. rewrite length_app. cbn. lia. }
  pose proof B_pos.
  induction i as [|i IH]; intros tabq taba Ha Hlen Hinv HD.
  - rewrite drop_0 in HD. exists []. cbn. split_and!; try done; try constructor; lia.
  - cbn [divnorm_loop]. fold nb.
    set (win := take nb (drop i taba)). set (v := taba !!! (i + nb)%nat).
    assert (Hwl : length win = nb) by (unfold win; rewrite length_take, length_drop; lia).
    assert (Hwin : limbs w win) by (by apply limbs_take, limbs_drop).
    assert (Ewv : take (S nb) (drop i taba) = win ++ [v]).
    { rewrite take_S_snoc by (rewrite length_drop; lia). unfold win, v.
      by rewrite lookup_total_drop. }
    assert (Hlast : last win = Some (taba !!! (i + nb - 1)%nat)).
    { rewrite last_lookup, Hwl. unfold win. rewrite lookup_take, lookup_drop.
      rewrite decide_True by lia. replace (i + Nat.pred nb)%nat with (i + nb - 1)%nat by lia.
      apply list_lookup_lookup_total_lt. lia. }
    assert (EX : lval w win + 2 ^ (w * Z.of_nat nb) * v
      = (taba !!! i) + B * lval w (take nb (drop (S i) taba))).
    { transitivity (lval w (win ++ [v])).
      - rewrite lval_app, Hwl by lia. cbn [lval]. lia.
      - rewrite <- Ewv. rewrite (drop_S taba (taba !!! i) i); [done|].
        apply list_lookup_lookup_total_lt. lia. }
    pose proof (limbs_total _ i Ha ltac:(lia)) as Hai. unfold word in Hai.
    pose proof (divnorm_step_spec win v (taba !!! (i + nb - 1)%nat) tabb b1 b1_inv
      Hd Hwin Hwl Hlast (limbs_total _ (i + nb)%nat Ha ltac:(lia)) Hinv) as HS.
    cbv zeta in HS. fold nb in HS. rewrite EX in HS.
    assert (HX : B * (lval w (take nb (drop (S i) taba)) + 1) <= B * lval w tabb)
      by (apply Z.mul_le_mono_nonneg_l; lia).
    specialize (HS ltac:(lia)).
    destruct (divnorm_step w win v _ tabb b1 b1_inv) as [[win' top] q].
    destruct HS as (E1 & -> & Hr & Hw' & Hl' & Hq).
    set (taba1 := take i taba ++ win' ++ [0] ++ drop (i + nb + 1) taba).
    assert (Hti : length (take i taba) = i) by (rewrite length_take; lia).
    assert (Hl1 : length taba1 = length taba).
    { unfold taba1. rewrite !length_app, Hti, Hl', length_drop. cbn. unfold nb in *. lia. }
    assert (Et1 : take (i + nb) taba1 = take i taba ++ win').
    { unfold taba1. rewrite app_assoc, take_app_length'; [done|].
      rewrite length_app, Hti, Hl'. done. }
    assert (Ed1 : take nb (drop i taba1) = win').
    { unfold taba1. rewrite drop_app_length' by done. by rewrite take_app_length'. }
    specialize (IH (q :: tabq) taba1). destruct (divnorm_loop w i _ _ _ _ _) as [tabq' taba'].
    destruct IH as (qs & -> & Hqs & Hqw & Haw & Hal & E2 & HD2).
    { unfold taba1. rewrite !limbs_app, limbs_cons. split_and!; try done.
      - by apply limbs_take.
      - unfold word; lia.
      - constructor.
      - by apply limbs_drop. }
    { rewrite Hl1. lia. }
    { done. }
    { rewrite Ed1. lia. }
    exists (qs ++ [q]). rewrite <- app_assoc. split_and!; try done.
    + rewrite length_app, Hqs. cbn. lia.
    + rewrite limbs_app, limbs_cons. split_and!; try done. constructor.
    + by rewrite Hal.
    + rewrite Et1, lval_app, Hti in E2 by lia. rewrite lval_app, Hqs by lia. cbn [lval].
      replace (S i + nb)%nat with (i + S nb)%nat by lia.
      rewrite <- (take_drop i (take (i + S nb) taba)), take_take, <- take_drop_commute, Ewv.
      rewrite Nat.min_l, lval_app, Hti by lia.
      rewrite lval_app, Hwl by lia. cbn [lval].
      scale (2 ^ (w * Z.of_nat i)) E1. scale (2 ^ (w * Z.of_nat i)) EX. lia.
Qed.

Lemma mp_divnorm_spec taba tabb b1 :
  norm_divisor tabb b1 -> limbs w taba -> (length tabb <= length taba)%nat ->
  let '(tabq, taba') := mp_divnorm w taba tabb in
  let rem := take (length tabb) taba' in
  lval w taba = lval w tabq * lval w tabb + lval w rem /\
  0 <= lval w rem < lval w tabb /\
  limbs w tabq /\ length tabq = (length taba - length tabb + 1)%nat /\
  limbs w taba' /\ length taba' = length taba.
Proof.
  intros Hd Ha Hlen. pose proof B_pos. pose proof (norm_divisor_bound _ _ Hd) as (HPD & _ & HbB).
  pose proof Hd as (Hb & Hb1 & lo & Etab). unfold mp_divnorm.
  assert (Eb1 : tabb !!! (length tabb - 1)%nat = b1).
  { rewrite Etab, length_app. cbn. replace (length lo + 1 - 1)%nat with (length lo) by lia.
    rewrite lookup_total_app_r by lia. by rewrite Nat.sub_diag. }
  rewrite Eb1. destruct (Nat.eqb_spec (length tabb) 1) as [E1|Hne].
  - destruct (mp_div1norm w taba b1 0) as [tabq r] eqn:EM.
    assert (Hlo : lo = []).
    { destruct lo; [done|]. rewrite Etab, length_app in E1. cbn in E1. lia. }
    rewrite Hlo in Etab. rewrite Etab. cbn [app length lval].
    pose proof B_half. apply mp_div1norm_spec in EM as (E & Hq & Hql & Hr); try done; try lia.
    destruct taba as [|a taba]; [cbn in Hlen; lia|]. cbn [insert list_insert take lval].
    rewrite firstn_O. cbn [lval length]. apply limbs_cons in Ha as [_ Ha].
    cbn [lval length] in *. split_and!; try done; try lia.
    apply limbs_cons. split; [unfold word; lia|done].
  - set (n := (length taba - length tabb)%nat). set (hi := drop n taba).
    assert (Hhl : length hi = length tabb) by (unfold hi; rewrite length_drop; lia).
    assert (Hhi : limbs w hi) by (by apply limbs_drop).
    rewrite divnorm_first_spec by done.
    set (inv := if _ <=? _ then _ else _).
    assert (Hinv : inv = 0 \/ inv = udiv1norm_init w b1) by (unfold inv; case_match; auto).
    pose proof (lval_range w Hw _ Hhi) as Hhr. rewrite Hhl in Hhr.
    assert (Htn : length (take n taba) = n) by (rewrite length_take; lia).
    set (q := b2z (lval w tabb <=? lval w hi)).
    set (taba1 := if negb (q =? 0) then _ else _).
    assert (H1 : exists hi', taba1 = take n taba ++ hi' /\ limbs w hi' /\
      length hi' = length tabb /\ lval w hi' = lval w hi - q * lval w tabb /\
      lval w hi' < lval w tabb).
    { unfold taba1, q. destruct (Z.leb_spec (lval w tabb) (lval w hi)); cbn [Z.b2z Z.eqb negb].
      - destruct (mp_sub w hi tabb 0) as [hi' c] eqn:ES. cbn [fst].
        apply mp_sub_spec in ES as (E & Hw' & Hl' & Hc); try done.
        rewrite Hhl in E, Hl'. pose proof (lval_range w Hw _ Hw') as R. rewrite Hl' in R.
        set (P := 2 ^ (w * len tabb)) in *. assert (c = 0) as -> by nia.
        exists hi'. split_and!; try done; lia.
      - exists hi. split_and!; try done; try lia. unfold hi. by rewrite take_drop. }
    destruct H1 as (hi' & E1 & Hw' & Hl' & Ev & Hlt). rewrite E1.
    pose proof (divnorm_loop_spec n [q] (take n taba ++ hi') tabb b1 inv Hd) as HL.
    destruct (divnorm_loop w n [q] _ tabb b1 inv) as [tabq taba'].
    destruct HL as (qs & -> & Hqs & Hqw & Haw & Hal & E2 & HD2).
    { rewrite limbs_app. split; [by apply limbs_take|done]. }
    { rewrite length_app, Htn, Hl'. lia. }
    { done. }
    { rewrite drop_app_length' by done. rewrite firstn_all2 by lia. lia. }
    rewrite firstn_all2 in E2 by (rewrite length_app; lia).
    rewrite lval_app, Htn in E2 by lia. rewrite lval_app, Hqs by lia. cbn [lval].
    assert (Ea : lval w taba = lval w (take n taba) + 2 ^ (w * Z.of_nat n) * lval w hi).
    { rewrite <- (take_drop n taba) at 1. by rewrite lval_app, Htn by lia. }
    pose proof (lval_range w Hw _ (limbs_take (length tabb) _ Haw)).
    assert (Hq : word w q) by (unfold word, q; destruct (_ <=? _); cbn [Z.b2z]; lia).
    split_and!; try done; try lia.
    + rewrite limbs_app, limbs_cons. split_and!; try done. constructor.
    + rewrite length_app, Hqs. cbn. lia.
    + rewrite Hal, length_app, Htn, Hl'. lia.
Qed.

(** ** Shifts *)

Lemma wrap_shiftl x n : 0 <= n <= w -> wrap w (x << n) = (x mod 2 ^ (w - n)) << n.
Proof.
  intros Hn. rewrite !shiftl_mul by lia. unfold wrap.
  replace B with (2 ^ (w - n) * 2 ^ n) by (rewrite <- Z.pow_add_r by lia; f_equal; lia).
  pose proof (pow2_pos n). pose proof (pow2_pos (w - n)).
  apply Z.mul_mod_distr_r; lia.
Qed.

Lemma pow2_split n : 0 <= n <= w -> B = 2 ^ (w - n) * 2 ^ n.
Proof. intros. rewrite <- Z.pow_add_r by lia. f_equal. lia. Qed.

Lemma mp_shl_loop_spec taba shift l tabr l' :
  limbs w taba -> 0 < shift < w -> word shift l -> mp_shl_loop w taba shift l = (tabr, l') ->
  lval w tabr + 2 ^ (w * len taba) * l' = lval w taba * 2 ^ shift + l /\
  limbs w tabr /\ length tabr = length taba /\ word shift l'.
Proof.
  intros H Hs. revert l tabr l'. pose proof B_pos.
  induction H as [|v taba Hv H IH]; intros l tabr l' Hl E.
  - injection E as <- <-. cbn. rewrite Z.mul_0_r.
    split_and!; try apply Forall_nil; try done; lia.
  - cbn [mp_shl_loop] in E. destruct (mp_shl_loop w taba shift _) as [rs k] eqn:EM.
    injection E as <- <-. rewrite shiftr_div in EM by lia.
    rewrite wrap_shiftl, lor_shiftl_add by (lia || done).
    pose proof (pow2_split shift ltac:(lia)) as HB.
    pose proof (pow2_pos shift ltac:(lia)). pose proof (pow2_pos (w - shift) ltac:(lia)).
    pose proof (Z.div_mod v (2 ^ (w - shift)) ltac:(lia)) as Hd.
    pose proof (Z.mod_pos_bound v (2 ^ (w - shift)) ltac:(lia)) as Hm.
    unfold word in *.
    set (Q := 2 ^ (w - shift)) in *. remember (2 ^ shift) as S2 eqn:ES2.
    apply IH in EM as (E & Hrs & Hlen & Hk).
    2: { split; [apply Z.div_pos; lia|apply Z.div_lt_upper_bound; lia]. }
    cbn [lval length]. rewrite limbs_cons.
    replace (w * Z.of_nat (S (length taba))) with (w + w * len taba) by lia.
    rewrite Z.pow_add_r by lia. split_and!; try done; try lia.
    unfold word. rewrite HB. nia.
Qed.

Lemma mp_shl_spec taba shift tabr l' :
  limbs w taba -> 0 < shift < w -> mp_shl w taba shift = (tabr, l') ->
  lval w tabr + 2 ^ (w * len taba) * l' = lval w taba * 2 ^ shift /\
  limbs w tabr /\ length tabr = length taba /\ word shift l'.
Proof.
  intros H Hs E. apply mp_shl_loop_spec in E as (E & ?); try done; [split; [lia|done]|].
  pose proof (pow2_pos shift). unfold word. lia.
Qed.

Lemma mp_shr_loop_spec tab shift high tab_r l :
  limbs w tab -> 0 < shift < w -> word w high -> mp_shr_loop w tab shift high = (tab_r, l) ->
  lval w tab + 2 ^ (w * len tab) * (high mod 2 ^ shift)
    = lval w tab_r * 2 ^ shift + l mod 2 ^ shift /\
  limbs w tab_r /\ length tab_r = length tab /\ word w l.
Proof.
  intros H Hs Hh. revert tab_r l. pose proof B_pos.
  induction H as [|a tab Ha H IH]; intros tab_r l E.
  - injection E as <- <-. cbn. rewrite Z.mul_0_r.
    split_and!; try apply Forall_nil; try done; lia.
  - cbn [mp_shr_loop] in E. destruct (mp_shr_loop w tab shift high) as [rs k] eqn:EM.
    injection E as <- <-. destruct (IH _ _ eq_refl) as (E & Hrs & Hlen & Hk).
    pose proof (pow2_split shift ltac:(lia)) as HB.
    pose proof (pow2_pos shift ltac:(lia)). pose proof (pow2_pos (w - shift) ltac:(lia)).
    unfold word in Ha.
    assert (Hq : 0 <= a / 2 ^ shift < 2 ^ (w - shift)).
    { split; [apply Z.div_pos; lia|apply Z.div_lt_upper_bound; lia]. }
    rewrite wrap_shiftl, shiftr_div, lor_add_shiftl by (unfold word; lia).
    replace (w - (w - shift)) with shift by lia.
    pose proof (Z.div_mod a (2 ^ shift) ltac:(lia)) as Hd.
    pose proof (Z.mod_pos_bound k (2 ^ shift) ltac:(lia)) as Hm.
    set (Q := 2 ^ (w - shift)) in *. remember (2 ^ shift) as S2 eqn:ES2.
    cbn [lval length]. rewrite limbs_cons.
    replace (w * Z.of_nat (S (length tab))) with (w + w * len tab) by lia.
    rewrite Z.pow_add_r by lia. split_and!; try done; try lia.
    unfold word. rewrite HB. nia.
Qed.

(** The shift with the limb [high] entering from above. *)
Lemma mp_shr_spec tab shift high tab_r r :
  limbs w tab -> 0 < shift < w -> word w high -> mp_shr w tab shift high = (tab_r, r) ->
  lval w tab + 2 ^ (w * len tab) * (high mod 2 ^ shift) = lval w tab_r * 2 ^ shift + r /\
  0 <= r < 2 ^ shift /\ limbs w tab_r /\ length tab_r = length tab.
Proof.
  unfold mp_shr. intros H Hs Hh E. destruct (mp_shr_loop w tab shift high) as [rs l] eqn:EM.
  apply mp_shr_loop_spec in EM as (E1 & ? & ? & ?); try done. injection E as <- <-.
  replace ((1 << shift) - 1) with (2 ^ shift - 1) by (rewrite shiftl_mul by lia; lia).
  rewrite land_ones_mod by lia. pose proof (pow2_pos shift).
  split_and!; try done; apply Z.mod_pos_bound; lia.
Qed.
End specs.
