(* ===== verification/Itoa.v ===== *)
(** * Printing machine integers

    The integer printers of [src/quickjs/dtoa.c] ([u32toa], [u64toa], [u64toa_radix] and
    their signed versions), against a reference printer [show].  A string is the list of
    its character codes.  A routine that fills a local buffer backwards gives [None] when
    it would write before the start of the buffer. *)
From S2P Require Export Prelude.

Section definitions.

(** The character of a digit. *)
Definition digit_char (digit : Z) : Z := if digit <? 10 then digit + 48 else digit + (97 - 10).

(** The digit of a character, 36 for the others. *)
Definition to_digit (c : Z) : Z :=
  if (48 <=? c) && (c <=? 57) then c - 48
  else if (65 <=? c) && (c <=? 90) then c - 65 + 10
  else if (97 <=? c) && (c <=? 122) then c - 97 + 10
  else 36.

Fixpoint u32toa_len (n : Z) (length : nat) : list Z :=
  match length with
  | O => []
  | S length => u32toa_len (n / 10) length ++ [n mod 10 + 48]
  end.

Fixpoint bin_loop (n radix_bits mask : Z) (length : nat) : list Z :=
  match length with
  | O => []
  | S length => bin_loop (n >> radix_bits) radix_bits mask length ++ [digit_char (n .& mask)]
  end.
Definition u64toa_bin_len (n radix_bits : Z) (length : nat) : list Z :=
  bin_loop n radix_bits ((1 << radix_bits) - 1) length.

(** The [do ... while (n != 0)] loops, with the space left before [q]. *)
Fixpoint toa_loop (space : nat) (n radix : Z) (q : list Z) : option (list Z) :=
  match space with
  | O => None
  | S space =>
      let q := digit_char (n mod radix) :: q in
      let n := n / radix in
      if negb (n =? 0) then toa_loop space n radix q else Some q
  end.

Definition u32toa (n : Z) : option (list Z) := toa_loop 10 n 10 [].

Definition i32toa (n : Z) : option (list Z) :=
  if 0 <=? n then u32toa n
  else s ← u32toa (u32 (- u32 n)); Some (45 :: s).

Definition u64toa (n : Z) : option (list Z) :=
  if n <? 0x100000000 then u32toa n
  else
    let n1 := n / 1000000000 in
    let n := n mod 1000000000 in
    if 0x100000000 <=? n1 then
      let n2 := u32 (n1 / 1000000000) in
      let n1 := n1 mod 1000000000 in
      let '(q, n2) := if 10 <=? n2 then ([n2 / 10 + 48], n2 mod 10) else ([], n2) in
      Some (q ++ [n2 + 48] ++ u32toa_len n1 9 ++ u32toa_len n 9)
    else
      s ← u32toa n1; Some (s ++ u32toa_len n 9).

Definition i64toa (n : Z) : option (list Z) :=
  if 0 <=? n then u64toa n
  else s ← u64toa (u64 (- u64 n)); Some (45 :: s).

Definition u64toa_radix (n radix : Z) : option (list Z) :=
  if radix =? 10 then u64toa n
  else if radix .& (radix - 1) =? 0 then
    let radix_bits := 31 - clz 32 radix in
    let l := if n =? 0 then 1 else (64 - clz 64 n + radix_bits - 1) / radix_bits in
    Some (u64toa_bin_len n radix_bits (Z.to_nat l))
  else toa_loop 41 n radix [].

Definition i64toa_radix (n radix : Z) : option (list Z) :=
  if 0 <=? n then u64toa_radix n radix
  else s ← u64toa_radix (u64 (- u64 n)) radix; Some (45 :: s).
End definitions.

(** ** The reference printer *)

Section show.
Context (r : Z) (Hr : 2 <= r).

Fixpoint show_fuel (fuel : nat) (n : Z) : list Z :=
  match fuel with
  | O => []
  | S fuel => if n <? r then [digit_char n] else show_fuel fuel (n / r) ++ [digit_char (n mod r)]
  end.

(** The digits of [n] in base [r], most significant first, without leading zeros. *)
Definition show (n : Z) : list Z := show_fuel (S (Z.to_nat (Z.log2 n))) n.

(** The number that a string of digits denotes. *)
Definition parse (s : list Z) : Z := foldl (fun v c => v * r + to_digit c) 0 s.

Lemma log2_div n : r <= n -> Z.log2 (n / r) < Z.log2 n.
Proof.
  intros Hn. assert (H1 : 1 <= n / r) by (apply Z.div_le_lower_bound; lia).
  assert (H2 : 2 * (n / r) <= n).
  { pose proof (Z.mul_div_le n r ltac:(lia)). assert (2 * (n / r) <= r * (n / r)) by (apply Z.mul_le_mono_nonneg_r; lia). lia. }
  pose proof (Z.log2_le_mono _ _ H2) as H3. rewrite Z.log2_double in H3 by lia. lia.
Qed.

Lemma show_fuel_enough f1 : forall f2 n, 0 <= n ->
  (Z.to_nat (Z.log2 n) < f1)%nat -> (Z.to_nat (Z.log2 n) < f2)%nat -> show_fuel f1 n = show_fuel f2 n.
Proof.
  induction f1 as [|f1 IH]; intros [|f2] n Hn H1 H2; try lia. cbn [show_fuel].
  destruct (Z.ltb_spec n r); [done|]. f_equal.
  pose proof (log2_div n ltac:(lia)). pose proof (Z.log2_nonneg (n / r)).
  apply IH; [apply Z.div_pos; lia|lia|lia].
Qed.

Lemma show_small n : n < r -> show n = [digit_char n].
Proof. intros H. unfold show. cbn [show_fuel]. by replace (n <? r) with true by lia. Qed.

Lemma show_step n : r <= n -> show n = show (n / r) ++ [digit_char (n mod r)].
Proof.
  intros H. unfold show at 1. cbn [show_fuel]. replace (n <? r) with false by lia. f_equal.
  pose proof (log2_div n H). pose proof (Z.log2_nonneg (n / r)).
  apply show_fuel_enough; [apply Z.div_pos; lia|lia|lia].
Qed.

(** Induction on the digits of a number. *)
Lemma digits_ind (P : Z -> Prop) :
  (forall n, 0 <= n < r -> P n) -> (forall n, r <= n -> P (n / r) -> P n) -> forall n, 0 <= n -> P n.
Proof.
  intros H1 H2 n Hn. pattern n. apply (Zlt_0_ind P); [|done]. clear n Hn. intros n IH Hn.
  destruct (Z.lt_ge_cases n r); [by apply H1|]. apply H2; [done|]. apply IH.
  split; [apply Z.div_pos; lia|]. apply Z.div_lt; lia.
Qed.

Lemma to_digit_char d : 0 <= d < 36 -> to_digit (digit_char d) = d.
Proof. intros H. unfold digit_char, to_digit. destruct (Z.ltb_spec d 10); zcases; lia. Qed.

Lemma parse_app s1 s2 : parse (s1 ++ s2) = parse s1 * r ^ len s2 + parse s2.
Proof.
  unfold parse. rewrite foldl_app. generalize (foldl (fun v c => v * r + to_digit c) 0 s1) as a.
  assert (HG : forall s a, foldl (fun v c => v * r + to_digit c) a s =
    a * r ^ len s + foldl (fun v c => v * r + to_digit c) 0 s).
  { induction s as [|c s IH]; intros a; cbn [foldl length]; [change (r ^ Z.of_nat 0) with 1; lia|].
    rewrite IH. rewrite (IH (0 * r + to_digit c)).
    replace (Z.of_nat (S (length s))) with (1 + len s) by lia. rewrite Z.pow_add_r by lia. lia. }
  intros a. apply HG.
Qed.

Lemma parse_snoc s c : parse (s ++ [c]) = parse s * r + to_digit c.
Proof. unfold parse. by rewrite foldl_app. Qed.

Lemma parse_show n : r <= 36 -> 0 <= n -> parse (show n) = n.
Proof.
  intros H36 Hn. revert n Hn. apply digits_ind.
  - intros n Hn. rewrite show_small by lia. cbn. apply to_digit_char. lia.
  - intros n Hn IH. rewrite show_step, parse_snoc, IH by done.
    pose proof (Z.mod_pos_bound n r ltac:(lia)). rewrite to_digit_char by lia.
    pose proof (Z.div_mod n r ltac:(lia)). lia.
Qed.

(** The characters are digits of the base; there is at least one, and the first is not
    zero but for the number 0. *)
Definition digit_ok (c : Z) : Prop := exists d, 0 <= d < r /\ c = digit_char d.

Lemma show_digits n : 0 <= n -> Forall digit_ok (show n).
Proof.
  revert n. apply digits_ind.
  - intros n Hn. rewrite show_small by lia. repeat constructor. by exists n.
  - intros n Hn IH. rewrite show_step by done. apply Forall_app. split; [done|]. repeat constructor.
    exists (n mod r). split; [apply Z.mod_pos_bound; lia|done].
Qed.

Lemma show_head n : 0 < n -> exists c s, show n = c :: s /\ c <> 48.
Proof.
  intros Hn. assert (Hn' : 0 <= n) by lia. revert n Hn' Hn. apply (digits_ind (fun n => 0 < n -> _)).
  - intros n Hn Hp. rewrite show_small by lia. eexists _, _. split; [done|].
    unfold digit_char. destruct (Z.ltb_spec n 10); lia.
  - intros n Hn IH _. destruct (IH ltac:(apply Z.div_str_pos; lia)) as (c & s & E & Hc).
    rewrite show_step, E by done. by eexists _, _.
Qed.

(** The number of digits. *)
Lemma show_length n : 0 <= n -> 1 <= len (show n) /\ (0 < n -> r ^ (len (show n) - 1) <= n) /\ n < r ^ len (show n).
Proof.
  revert n. apply digits_ind.
  - intros n Hn. rewrite show_small by lia. cbn. change (r ^ (1 - 1)) with 1. rewrite Z.pow_1_r. lia.
  - intros n Hn (I1 & I2 & I3). rewrite show_step by done. rewrite length_app. cbn [length].
    set (k := len (show (n / r))) in *. replace (Z.of_nat (length (show (n / r)) + 1)) with (1 + k) by lia.
    assert (H1 : 1 <= n / r) by (apply Z.div_le_lower_bound; lia). specialize (I2 ltac:(lia)).
    pose proof (Z.div_mod n r ltac:(lia)). pose proof (Z.mod_pos_bound n r ltac:(lia)).
    replace (1 + k - 1) with (1 + (k - 1)) by lia. rewrite !Z.pow_add_r, Z.pow_1_r by lia.
    split; [lia|]. split; [intros _|].
    + assert (r * r ^ (k - 1) <= r * (n / r)) by (apply Z.mul_le_mono_nonneg_l; lia). lia.
    + assert (r * (n / r + 1) <= r * r ^ k) by (apply Z.mul_le_mono_nonneg_l; lia). lia.
Qed.

(** [k] digits, with leading zeros. *)
Fixpoint pad (k : nat) (n : Z) : list Z :=
  match k with O => [] | S k => pad k (n / r) ++ [digit_char (n mod r)] end.

Lemma show_pad k n m : 0 < n -> 0 <= m < r ^ Z.of_nat k ->
  show (n * r ^ Z.of_nat k + m) = show n ++ pad k m.
Proof.
  revert m. induction k as [|k IH]; intros m Hn Hm.
  - change (r ^ Z.of_nat 0) with 1 in *. cbn [pad]. rewrite app_nil_r. f_equal. lia.
  - replace (Z.of_nat (S k)) with (1 + Z.of_nat k) in * by lia. rewrite Z.pow_add_r, Z.pow_1_r in * by lia.
    set (P := r ^ Z.of_nat k) in *. assert (HP : 0 < P) by (apply Z.pow_pos_nonneg; lia).
    cbn [pad]. rewrite show_step.
    + replace (n * (r * P) + m) with (m + (n * P) * r) by ring.
      rewrite Z.div_add, Z.mod_add by lia. rewrite Z.add_comm, IH, app_assoc; [done|lia|].
      split; [apply Z.div_pos; lia|]. apply Z.div_lt_upper_bound; lia.
    + assert (r * 1 <= r * (n * P)) by (apply Z.mul_le_mono_nonneg_l; [lia|]; assert (1 * 1 <= n * P) by (apply Z.mul_le_mono_nonneg; lia); lia).
      lia.
Qed.

Lemma show_eq_pad n : 0 < n -> forall k, r ^ (Z.of_nat k - 1) <= n < r ^ Z.of_nat k -> show n = pad k n.
Proof.
  intros Hn. assert (Hn' : 0 <= n) by lia. revert n Hn' Hn.
  apply (digits_ind (fun n => 0 < n -> forall k, r ^ (Z.of_nat k - 1) <= n < r ^ Z.of_nat k -> show n = pad k n)).
  - intros n Hn Hp k Hk. assert (k = 1%nat) as ->.
    { destruct k as [|[|k]]; [change (r ^ Z.of_nat 0) with 1 in Hk; lia|done|].
      assert (r ^ 1 <= r ^ (Z.of_nat (S (S k)) - 1)) by (apply Z.pow_le_mono_r; lia). rewrite Z.pow_1_r in *. lia. }
    rewrite show_small by lia. cbn. by rewrite Z.mod_small by lia.
  - intros n Hn IH _ k Hk. destruct k as [|k]; [change (r ^ Z.of_nat 0) with 1 in Hk; lia|].
    rewrite show_step by done. cbn [pad]. f_equal. apply IH; [apply Z.div_str_pos; lia|].
    replace (Z.of_nat (S k) - 1) with (Z.of_nat k) in Hk by lia.
    replace (Z.of_nat (S k)) with (1 + Z.of_nat k) in Hk by lia. rewrite Z.pow_add_r, Z.pow_1_r in Hk by lia.
    destruct k as [|k]; [change (r ^ Z.of_nat 0) with 1 in Hk; lia|].
    replace (Z.of_nat (S k) - 1) with (Z.of_nat k) by lia.
    replace (Z.of_nat (S k)) with (1 + Z.of_nat k) in * by lia. rewrite Z.pow_add_r, Z.pow_1_r in * by lia.
    split; [apply Z.div_le_lower_bound; lia|apply Z.div_lt_upper_bound; lia].
Qed.

Lemma pad_length k n : length (pad k n) = k.
Proof. revert n. induction k as [|k IH]; intros n; cbn; [done|]. rewrite length_app, IH. cbn. lia. Qed.

(** The backward loop prints the number when there is room for its digits. *)
Lemma toa_loop_show n : 0 <= n -> forall space q, len (show n) <= Z.of_nat space ->
  toa_loop space n r q = Some (show n ++ q).
Proof.
  revert n. apply (digits_ind (fun n => forall space q, len (show n) <= Z.of_nat space ->
    toa_loop space n r q = Some (show n ++ q))).
  - intros n Hn space q Hs. rewrite show_small in * by lia. destruct space as [|space]; [cbn in Hs; lia|].
    cbn [toa_loop]. rewrite Z.mod_small, Z.div_small by lia. done.
  - intros n Hn IH space q Hs. rewrite show_step in * by done. rewrite length_app in Hs. cbn [length] in Hs.
    destruct space as [|space]; [lia|]. cbn [toa_loop].
    assert (1 <= n / r) by (apply Z.div_le_lower_bound; lia). replace (n / r =? 0) with false by lia. cbn [negb].
    rewrite IH by lia. by rewrite <- app_assoc.
Qed.
End show.

(** The decimal, or other, notation of an integer. *)
Definition show_int (r v : Z) : list Z := if v <? 0 then 45 :: show r (- v) else show r v.

(** ** The printers *)

Lemma show_length_le r n k : 2 <= r -> 0 <= n < r ^ k -> 1 <= k -> len (show r n) <= k.
Proof.
  intros Hr Hn Hk. destruct (show_length r Hr n ltac:(lia)) as (H1 & H2 & _).
  destruct (Z.eq_dec n 0) as [->|]; [by rewrite show_small by lia|]. specialize (H2 ltac:(lia)).
  enough (len (show r n) - 1 < k) by lia. apply (Z.pow_lt_mono_r_iff r); lia.
Qed.

Lemma digit_char_dec d : d < 10 -> digit_char d = d + 48.
Proof. intros H. unfold digit_char. by replace (d <? 10) with true by lia. Qed.

Lemma u32toa_len_pad k : forall n, u32toa_len n k = pad 10 k n.
Proof.
  induction k as [|k IH]; intros n; cbn; [done|]. rewrite IH. do 2 f_equal.
  rewrite digit_char_dec; [done|]. apply Z.mod_pos_bound. lia.
Qed.

Lemma bin_loop_pad b k : 0 <= b -> forall n, bin_loop n b (2 ^ b - 1) k = pad (2 ^ b) k n.
Proof.
  intros Hb. induction k as [|k IH]; intros n; cbn; [done|].
  by rewrite IH, land_ones_mod, shiftr_div by lia.
Qed.

Lemma u32toa_show n : word 32 n -> u32toa n = Some (show 10 n).
Proof.
  intros Hn. unfold u32toa. rewrite toa_loop_show; [by rewrite app_nil_r|lia|unfold word in Hn; lia|].
  apply show_length_le; [lia|unfold word in Hn; lia|lia].
Qed.

Lemma u64toa_show n : word 64 n -> u64toa n = Some (show 10 n).
Proof.
  intros Hn. unfold word in Hn. unfold u64toa. destruct (Z.ltb_spec n 0x100000000); [apply u32toa_show; unfold word; lia|].
  set (n1 := n / 1000000000). pose proof (Z.div_mod n 1000000000 ltac:(lia)) as E. fold n1 in E.
  pose proof (Z.mod_pos_bound n 1000000000 ltac:(lia)) as Hm. set (m := n mod 1000000000) in *.
  rewrite u32toa_len_pad. assert (Es : n1 <> 0 -> show 10 n = show 10 n1 ++ pad 10 9 m).
  { intros Hn1. rewrite <- show_pad by (change (10 ^ Z.of_nat 9) with 1000000000; lia). f_equal.
    change (10 ^ Z.of_nat 9) with 1000000000. lia. }
  rewrite Es by lia. destruct (Z.leb_spec 0x100000000 n1).
  - rewrite u32toa_len_pad. set (n2 := n1 / 1000000000).
    pose proof (Z.div_mod n1 1000000000 ltac:(lia)) as E2. fold n2 in E2.
    pose proof (Z.mod_pos_bound n1 1000000000 ltac:(lia)) as Hm2. set (m1 := n1 mod 1000000000) in *.
    rewrite wrap_small by (unfold word; lia).
    assert (Es2 : show 10 n1 = show 10 n2 ++ pad 10 9 m1).
    { rewrite <- show_pad by (change (10 ^ Z.of_nat 9) with 1000000000; lia). f_equal.
      change (10 ^ Z.of_nat 9) with 1000000000. lia. }
    rewrite Es2. destruct (Z.leb_spec 10 n2).
    + assert (n2 / 10 < 10) by (apply Z.div_lt_upper_bound; lia). pose proof (Z.mod_pos_bound n2 10).
      rewrite (show_step 10), (show_small 10) by lia. rewrite !digit_char_dec by lia.
      by rewrite <- !app_assoc.
    + rewrite show_small by lia. rewrite digit_char_dec by lia. by rewrite <- !app_assoc.
  - rewrite u32toa_show by (unfold word; lia). cbn [mbind option_bind]. by rewrite u32toa_len_pad.
Qed.

Lemma pow2_radix radix : 2 <= radix <= 36 -> radix .& (radix - 1) = 0 ->
  exists b, 1 <= b <= 5 /\ radix = 2 ^ b /\ 31 - clz 32 radix = b.
Proof.
  intros Hr E.
  assert (HF : forallb (fun r => negb (r .& (r - 1) =? 0) || ((31 - clz 32 r =? Z.log2 r) &&
    (r =? 2 ^ Z.log2 r) && (1 <=? Z.log2 r) && (Z.log2 r <=? 5))) (map Z.of_nat (seq 2 35)) = true)
    by (vm_compute; reflexivity).
  rewrite forallb_forall in HF. specialize (HF radix). rewrite E in HF.
  exists (Z.log2 radix). enough (In radix (map Z.of_nat (seq 2 35))) by (specialize (HF H); cbn in HF; lia).
  apply in_map_iff. exists (Z.to_nat radix). rewrite in_seq. lia.
Qed.

Lemma u64toa_radix_show n radix : word 64 n -> 2 <= radix <= 36 -> u64toa_radix n radix = Some (show radix n).
Proof.
  intros Hn Hr. unfold u64toa_radix. destruct (Z.eqb_spec radix 10) as [->|H10]; [by apply u64toa_show|].
  destruct (Z.eqb_spec (radix .& (radix - 1)) 0) as [E|E].
  - destruct (pow2_radix radix Hr E) as (b & Hb & Erad & Eb). rewrite Eb. f_equal. unfold u64toa_bin_len.
    rewrite shiftl_mul, Z.mul_1_l, bin_loop_pad by lia. rewrite Erad.
    destruct (Z.eqb_spec n 0) as [->|H0]; [by rewrite show_small by lia|].
    unfold word in Hn. rewrite clz_log2 by lia. pose proof (Z.log2_nonneg n) as Hl.
    destruct (Z.log2_spec n ltac:(lia)) as [L1 L2]. set (l := Z.log2 n) in *.
    replace (64 - (64 - 1 - l) + b - 1) with (l + 1 * b) by lia. rewrite Z.div_add by lia.
    pose proof (Z.div_mod l b ltac:(lia)) as Ed. pose proof (Z.mod_pos_bound l b ltac:(lia)).
    assert (0 <= l / b) by (apply Z.div_pos; lia).
    symmetry. apply show_eq_pad; [pose proof (Z.pow_le_mono_r 2 1 b); lia|lia|]. rewrite Z2Nat.id by lia.
    rewrite <- !Z.pow_mul_r by lia. split.
    + eapply Z.le_trans; [|exact L1]. apply Z.pow_le_mono_r; lia.
    + eapply Z.lt_le_trans; [exact L2|]. apply Z.pow_le_mono_r; lia.
  - rewrite toa_loop_show; [by rewrite app_nil_r|lia|unfold word in Hn; lia|].
    apply show_length_le; [lia| |lia]. unfold word in Hn. split; [lia|].
    destruct (Z.eq_dec radix 2) as [->|]; [by destruct E|].
    assert (H3 : 2 ^ 64 < 3 ^ 41) by (vm_compute; reflexivity).
    eapply Z.lt_trans; [apply Hn|]. eapply Z.lt_le_trans; [exact H3|]. apply Z.pow_le_mono_l. lia.
Qed.

Lemma signed_printer (f : Z -> option (list Z)) w r v : 0 < w -> sword w v ->
  (forall n, word w n -> f n = Some (show r n)) ->
  (if 0 <=? v then f v else s ← f (wrap w (- wrap w v)); Some (45 :: s)) = Some (show_int r v).
Proof.
  intros Hw Hv Hf. unfold show_int, sword in *. pose proof (pow2_half w Hw). destruct (Z.leb_spec 0 v).
  - replace (v <? 0) with false by lia. apply Hf. unfold word. lia.
  - replace (v <? 0) with true by lia.
    rewrite (wrap_unique w v (v + 2 ^ w) (-1)) by (unfold word; lia).
    rewrite (wrap_unique w _ (- v) (-1)) by (unfold word; lia).
    by rewrite Hf by (unfold word; lia).
Qed.

Lemma i64toa_radix_show v radix : sword 64 v -> 2 <= radix <= 36 ->
  i64toa_radix v radix = Some (show_int radix v).
Proof. intros Hv Hr. apply (signed_printer (fun n => u64toa_radix n radix)); [lia|done|]. intros. by apply u64toa_radix_show. Qed.

(** The number that the notation of an integer denotes. *)
Definition parse_int (r : Z) (s : list Z) : Z :=
  match s with 45 :: s => - parse r s | _ => parse r s end.

Lemma parse_show_int r v : 2 <= r <= 36 -> parse_int r (show_int r v) = v.
Proof.
  intros Hr. unfold show_int. destruct (Z.ltb_spec v 0); cbn [parse_int].
  - rewrite parse_show; lia.
  - pose proof (show_digits r ltac:(lia) v ltac:(lia)) as HD. pose proof (parse_show r ltac:(lia) v ltac:(lia) ltac:(lia)) as HP.
    destruct (show r v) as [|c s]; [done|]. apply Forall_cons in HD as [(d & Hd & ->) _].
    enough (digit_char d <> 45).
    { unfold parse_int. repeat case_match; simplify_eq; done. }
    unfold digit_char. destruct (Z.ltb_spec d 10); lia.
Qed.

Lemma show_word_length n r : word 64 n -> 2 <= r -> len (show r n) <= 64.
Proof.
  intros Hn Hr. unfold word in Hn. assert (H2 : 2 ^ 64 <= r ^ 64) by (apply Z.pow_le_mono_l; lia).
  apply show_length_le; lia.
Qed.

Lemma show_int_length v r : sword 64 v -> 2 <= r -> len (show_int r v) <= 65.
Proof.
  intros Hv Hr. unfold sword in Hv. unfold show_int. destruct (Z.ltb_spec v 0); cbn [length].
  - pose proof (show_word_length (- v) r ltac:(unfold word; lia) Hr). lia.
  - pose proof (show_word_length v r ltac:(unfold word; lia) Hr). lia.
Qed.

(** What the notation [s] of [v], with its sign, satisfies. *)
Definition notation_of (radix v : Z) (s : list Z) : Prop :=
  s = show_int radix v /\ len s <= 65 /\ parse_int radix s = v /\ (0 < v -> exists c s', s = c :: s' /\ c <> 48).

Lemma notation_show r v : - 2 ^ 63 <= v < 2 ^ 64 -> 2 <= r <= 36 -> notation_of r v (show_int r v).
Proof.
  intros Hv Hr. split; [done|]. split; [|split; [by apply parse_show_int|]].
  - destruct (Z.lt_ge_cases v 0); [apply show_int_length; unfold sword; lia|]. unfold show_int.
    replace (v <? 0) with false by lia. pose proof (show_word_length v r ltac:(unfold word; lia) ltac:(lia)). lia.
  - intros Hp. unfold show_int. replace (v <? 0) with false by lia. apply show_head; lia.
Qed.

Lemma show_int_word r n : 0 <= n -> show r n = show_int r n.
Proof. intros H. unfold show_int. by replace (n <? 0) with false by lia. Qed.

(** C16: the integer printers, signed and unsigned, stay inside their buffers and give the
    notation of the number in the base, on the whole range of their argument: at most 65
    characters, no leading zeros, and the number is read back from it. *)
Theorem integers_printed i32 i64 n32 n64 radix : sword 32 i32 -> sword 64 i64 -> word 32 n32 -> word 64 n64 -> 2 <= radix <= 36 ->
  (exists s, i32toa i32 = Some s /\ notation_of 10 i32 s) /\
  (exists s, i64toa i64 = Some s /\ notation_of 10 i64 s) /\
  (exists s, i64toa_radix i64 radix = Some s /\ notation_of radix i64 s) /\
  (exists s, u32toa n32 = Some s /\ notation_of 10 n32 s) /\
  (exists s, u64toa n64 = Some s /\ notation_of 10 n64 s) /\
  (exists s, u64toa_radix n64 radix = Some s /\ notation_of radix n64 s).
Proof.
  intros H1 H2 H3 H4 Hr. pose proof H1 as B1. pose proof H2 as B2. pose proof H3 as B3. pose proof H4 as B4.
  unfold sword, word in B1, B2, B3, B4.
  split_and!; eexists; (split; [|apply notation_show; lia]).
  - apply (signed_printer u32toa); [lia|done|apply u32toa_show].
  - apply (signed_printer u64toa); [lia|done|apply u64toa_show].
  - by apply i64toa_radix_show.
  - rewrite <- show_int_word by lia. by apply u32toa_show.
  - rewrite <- show_int_word by lia. by apply u64toa_show.
  - rewrite <- show_int_word by lia. by apply u64toa_radix_show.
Qed.

Lemma integers_printed_witness :
  (exists s, i64toa_radix (- 2 ^ 63) 36 = Some s /\ notation_of 36 (- 2 ^ 63) s) /\
  (exists s, u64toa (2 ^ 64 - 1) = Some s /\ notation_of 10 (2 ^ 64 - 1) s) /\
  u64toa (2 ^ 64 - 1) = Some [49; 56; 52; 52; 54; 55; 52; 52; 48; 55; 51; 55; 48; 57; 53; 53; 49; 54; 49; 53].
Proof.
  destruct (integers_printed (- 2 ^ 31) (- 2 ^ 63) (2 ^ 32 - 1) (2 ^ 64 - 1) 36) as (_ & _ & H1 & _ & H2 & _).
  - unfold sword. lia.
  - unfold sword. lia.
  - unfold word. lia.
  - unfold word. lia.
  - lia.
  - split; [exact H1|]. split; [exact H2|vm_compute; reflexivity].
Defined.
