(* ===== verification/Utf8.v ===== *)
(** * UTF-8 and UTF-16 code units

    [unicode_to_utf8] and [unicode_from_utf8] of [src/quickjs/cutils.c] and the
    surrogate and hexadecimal helpers of [src/quickjs/cutils.h].  A byte sequence is a
    list of integers; a decoder returns the code point and the rest of its input. *)
From S2P Require Export Limbs.

Definition byte (x : Z) : Prop := word 8 x.
Definition bytes (l : list Z) : Prop := Forall byte l.

Definition UTF8_CHAR_LEN_MAX : Z := 6.

(** The bytes written; none when [c] has more than 31 bits. *)
Definition unicode_to_utf8 (c : Z) : list Z :=
  let tail1 := [(c .& 0x3f) .| 0x80] in
  let tail2 := ((c >> 6) .& 0x3f) .| 0x80 :: tail1 in
  let tail3 := ((c >> 12) .& 0x3f) .| 0x80 :: tail2 in
  let tail4 := ((c >> 18) .& 0x3f) .| 0x80 :: tail3 in
  let tail5 := ((c >> 24) .& 0x3f) .| 0x80 :: tail4 in
  if c <? 0x80 then [u8 c]
  else if c <? 0x800 then u8 ((c >> 6) .| 0xc0) :: tail1
  else if c <? 0x10000 then u8 ((c >> 12) .| 0xe0) :: tail2
  else if c <? 0x00200000 then u8 ((c >> 18) .| 0xf0) :: tail3
  else if c <? 0x04000000 then u8 ((c >> 24) .| 0xf8) :: tail4
  else if c <? 0x80000000 then u8 ((c >> 30) .| 0xfc) :: tail5
  else [].

Definition utf8_min_code : list Z := [0x80; 0x800; 0x10000; 0x00200000; 0x04000000].
Definition utf8_first_code_mask : list Z := [0x1f; 0xf; 0x7; 0x3; 0x1].

(** The loop over the [l] continuation bytes. *)
Fixpoint from_utf8_loop (l : nat) (c : Z) (p : list Z) : option (Z * list Z) :=
  match l with
  | O => Some (c, p)
  | S l =>
      match p with
      | [] => None
      | b :: p =>
          if (b <? 0x80) || (0xc0 <=? b) then None
          else from_utf8_loop l ((c << 6) .| (b .& 0x3f)) p
      end
  end.

(** The number of continuation bytes announced by the first byte. *)
Definition utf8_follow (c : Z) : option nat :=
  if (0xc0 <=? c) && (c <=? 0xdf) then Some 1%nat
  else if (0xe0 <=? c) && (c <=? 0xef) then Some 2%nat
  else if (0xf0 <=? c) && (c <=? 0xf7) then Some 3%nat
  else if (0xf8 <=? c) && (c <=? 0xfb) then Some 4%nat
  else if (0xfc <=? c) && (c <=? 0xfd) then Some 5%nat
  else None.

Definition unicode_from_utf8 (p : list Z) (max_len : Z) : option (Z * list Z) :=
  match p with
  | [] => None
  | c :: p =>
      if c <? 0x80 then Some (c, p)
      else match utf8_follow c with
      | None => None
      | Some l =>
          if max_len - 1 <? Z.of_nat l then None
          else match from_utf8_loop l (c .& (utf8_first_code_mask !!! (l - 1)%nat)) p with
          | None => None
          | Some (c, p) => if c <? utf8_min_code !!! (l - 1)%nat then None else Some (c, p)
          end
      end
  end.

Definition is_surrogate (c : Z) : bool := c >> 11 =? 0xD800 >> 11.
Definition is_hi_surrogate (c : Z) : bool := c >> 10 =? 0xD800 >> 10.
Definition is_lo_surrogate (c : Z) : bool := c >> 10 =? 0xDC00 >> 10.
Definition get_hi_surrogate (c : Z) : Z := u32 ((c >> 10) - (0x10000 >> 10) + 0xD800).
Definition get_lo_surrogate (c : Z) : Z := (c .& 0x3FF) .| 0xDC00.
Definition from_surrogate (hi lo : Z) : Z :=
  u32 (0x10000 + u32 (0x400 * u32 (hi - 0xD800)) + u32 (lo - 0xDC00)).

Definition from_hex (c : Z) : Z :=
  if (48 <=? c) && (c <=? 57) then c - 48
  else if (65 <=? c) && (c <=? 70) then c - 65 + 10
  else if (97 <=? c) && (c <=? 102) then c - 97 + 10
  else -1.

(** ** Specifications *)

(** [tag .| x] where the low [n] bits of the tag are clear. *)
Lemma tag_or n t x : 0 <= n -> word n x -> x .| (t * 2 ^ n) = t * 2 ^ n + x.
Proof. intros Hn Hx. rewrite <- shiftl_mul by done. by rewrite lor_add_shiftl, shiftl_mul. Qed.

Lemma cont_byte x : (x .& 0x3f) .| 0x80 = 128 + x mod 64.
Proof.
  change 0x3f with (2 ^ 6 - 1). rewrite land_ones_mod by lia.
  change 0x80 with (2 * 2 ^ 6). change (2 ^ 6) with 64.
  pose proof (Z.mod_pos_bound x 64). rewrite (tag_or 6 2) by (unfold word; lia). lia.
Qed.

Lemma cont_step c b : 0 <= c -> 128 <= b < 192 -> (c << 6) .| (b .& 0x3f) = c * 64 + (b - 128).
Proof.
  intros Hc Hb. change 0x3f with (2 ^ 6 - 1). rewrite land_ones_mod by lia. change (2 ^ 6) with 64.
  replace (b mod 64) with (b - 128) by (apply (Z.mod_unique _ _ 2); lia).
  rewrite lor_shiftl_add by (unfold word; lia). done.
Qed.

(** The code point spelled by a first chunk and continuation bytes. *)
Fixpoint utf8_value (c : Z) (l : list Z) : Z :=
  match l with
  | [] => c
  | b :: l => utf8_value (c * 64 + (b - 128)) l
  end.

Definition continuation (b : Z) : Prop := 128 <= b < 192.

Lemma from_utf8_loop_spec l c p : 0 <= c ->
  match from_utf8_loop l c p with
  | Some (v, rest) => exists q, p = q ++ rest /\ length q = l /\ Forall continuation q /\ v = utf8_value c q
  | None => ~ exists q rest, p = q ++ rest /\ length q = l /\ Forall continuation q
  end.
Proof.
  revert c p. induction l as [|l IH]; intros c p Hc; cbn.
  - by exists [].
  - destruct p as [|b p].
    + intros (q & rest & E & Hl & _). destruct q; [done|discriminate].
    + destruct ((b <? 128) || (192 <=? b)) eqn:Eb.
      * intros (q & rest & E & Hl & Hq). destruct q as [|b' q]; [done|].
        injection E as -> ->. apply Forall_cons in Hq as [Hb _]. unfold continuation in Hb. lia.
      * assert (Hb : 128 <= b < 192) by lia. rewrite cont_step by lia.
        specialize (IH (c * 64 + (b - 128)) p ltac:(lia)).
        destruct (from_utf8_loop l _ p) as [[v rest]|].
        -- destruct IH as (q & -> & Hl & Hq & ->). exists (b :: q). split_and!; [done|cbn; lia| |done].
           by constructor.
        -- intros (q & rest & E & Hl & Hq). destruct q as [|b' q]; [done|].
           injection E as -> ->. apply IH. exists q, rest. apply Forall_cons in Hq as [_ Hq].
           cbn in Hl. split_and!; [done|lia|done].
Qed.

Lemma from_utf8_loop_complete q : forall c rest, 0 <= c -> Forall continuation q ->
  from_utf8_loop (length q) c (q ++ rest) = Some (utf8_value c q, rest).
Proof.
  induction q as [|b q IH]; intros c rest Hc Hq; [done|].
  apply Forall_cons in Hq as [Hb Hq]. unfold continuation in Hb. cbn.
  replace ((b <? 128) || (192 <=? b)) with false by lia. rewrite cont_step by lia.
  apply IH; [lia|done].
Qed.

(** The continuation bytes of the low [l] sextets of [c]. *)
Fixpoint enc_tail (l : nat) (c : Z) : list Z :=
  match l with
  | O => []
  | S l => (128 + (c / 2 ^ (6 * Z.of_nat l)) mod 64) :: enc_tail l c
  end.

Lemma length_enc_tail l c : length (enc_tail l c) = l.
Proof. induction l; cbn; lia. Qed.

Lemma enc_tail_continuation l c : Forall continuation (enc_tail l c).
Proof.
  induction l as [|l IH]; cbn; constructor; [|done]. unfold continuation.
  pose proof (Z.mod_pos_bound (c / 2 ^ (6 * Z.of_nat l)) 64). lia.
Qed.

Lemma sextet_div c l : c / 2 ^ (6 * Z.of_nat l) / 64 = c / 2 ^ (6 * Z.of_nat (S l)).
Proof.
  rewrite Z.div_div by lia. f_equal. replace (6 * Z.of_nat (S l)) with (6 * Z.of_nat l + 6) by lia.
  by rewrite Z.pow_add_r by lia.
Qed.

Lemma utf8_value_enc_tail l c : utf8_value (c / 2 ^ (6 * Z.of_nat l)) (enc_tail l c) = c.
Proof.
  induction l as [|l IH].
  - cbn. apply Z.div_1_r.
  - cbn [enc_tail utf8_value]. rewrite <- sextet_div.
    pose proof (Z.div_mod (c / 2 ^ (6 * Z.of_nat l)) 64 ltac:(lia)) as E.
    set (x := c / 2 ^ (6 * Z.of_nat l)) in *.
    replace (x / 64 * 64 + (128 + x mod 64 - 128)) with x by lia. exact IH.
Qed.

Lemma utf8_value_div q : forall x, Forall continuation q -> 0 <= x ->
  utf8_value x q / 2 ^ (6 * len q) = x /\ enc_tail (length q) (utf8_value x q) = q.
Proof.
  induction q as [|b q IH]; intros x Hq Hx; [split; [apply Z.div_1_r|done]|].
  apply Forall_cons in Hq as [Hb Hq]. unfold continuation in Hb.
  destruct (IH (x * 64 + (b - 128)) Hq ltac:(lia)) as [I1 I2]. cbn [utf8_value length enc_tail].
  rewrite <- sextet_div, I1, I2. split.
  - symmetry. apply (Z.div_unique _ _ _ (b - 128)); lia.
  - f_equal. replace ((x * 64 + (b - 128)) mod 64) with (b - 128); [lia|].
    apply (Z.mod_unique _ _ x); lia.
Qed.

(** The first byte's tag, and the range of the code points with [l] continuation bytes. *)
Definition utf8_tag (l : nat) : Z := 256 - 2 ^ (7 - Z.of_nat l).
Definition utf8_max (l : nat) : Z := 2 ^ (5 * Z.of_nat l + 6).

Ltac div_range :=
  first [lia | cbn; split; [apply Z.div_pos; lia|apply Z.div_lt_upper_bound; lia] | cbn; lia].

Ltac each_class l := destruct l as [|[|[|[|[|[|l]]]]]]; try lia.

Lemma to_utf8_class l c : (1 <= l <= 5)%nat -> utf8_min_code !!! (l - 1)%nat <= c < utf8_max l ->
  unicode_to_utf8 c = (utf8_tag l + c / 2 ^ (6 * Z.of_nat l)) :: enc_tail l c.
Proof.
  intros Hl Hc. unfold unicode_to_utf8, utf8_tag, utf8_max in *.
  assert (Htag : forall t n s, 0 <= n -> 0 <= s -> 0 <= c / 2 ^ s < 2 ^ n -> 0 <= t * 2 ^ n <= 256 - 2 ^ n ->
    u8 ((c >> s) .| (t * 2 ^ n)) = t * 2 ^ n + c / 2 ^ s).
  { intros t n s Hn Hs Hr Ht. rewrite shiftr_div, tag_or by (unfold word; lia).
    apply wrap_small. unfold word. lia. }
  rewrite !cont_byte. rewrite !shiftr_div by lia.
  each_class l; change (Z.of_nat 1) with 1 in *; change (Z.of_nat 2) with 2 in *; change (Z.of_nat 3) with 3 in *;
    change (Z.of_nat 4) with 4 in *; change (Z.of_nat 5) with 5 in *; cbn in Hc; cbn [enc_tail].
  - replace (c <? 128) with false by lia. replace (c <? 2048) with true by lia.
    f_equal; [|by rewrite Z.div_1_r].
    rewrite <- shiftr_div by lia. change 192 with (6 * 2 ^ 5). rewrite Htag by div_range. done.
  - replace (c <? 128) with false by lia. replace (c <? 2048) with false by lia. replace (c <? 65536) with true by lia.
    f_equal; [|by rewrite Z.div_1_r].
    rewrite <- shiftr_div by lia. change 224 with (14 * 2 ^ 4). rewrite Htag by div_range. done.
  - replace (c <? 128) with false by lia. replace (c <? 2048) with false by lia. replace (c <? 65536) with false by lia.
    replace (c <? 2097152) with true by lia. f_equal; [|by rewrite Z.div_1_r].
    rewrite <- shiftr_div by lia. change 240 with (30 * 2 ^ 3). rewrite Htag by div_range. done.
  - replace (c <? 128) with false by lia. replace (c <? 2048) with false by lia. replace (c <? 65536) with false by lia.
    replace (c <? 2097152) with false by lia. replace (c <? 67108864) with true by lia. f_equal; [|by rewrite Z.div_1_r].
    rewrite <- shiftr_div by lia. change 248 with (62 * 2 ^ 2). rewrite Htag by div_range. done.
  - replace (c <? 128) with false by lia. replace (c <? 2048) with false by lia. replace (c <? 65536) with false by lia.
    replace (c <? 2097152) with false by lia. replace (c <? 67108864) with false by lia.
    replace (c <? 2147483648) with true by lia. f_equal; [|by rewrite Z.div_1_r].
    rewrite <- shiftr_div by lia. change 252 with (126 * 2 ^ 1). rewrite Htag by div_range. done.
Qed.

Lemma to_utf8_ascii c : 0 <= c < 128 -> unicode_to_utf8 c = [c].
Proof.
  intros. unfold unicode_to_utf8. replace (c <? 128) with true by lia.
  by rewrite wrap_small by (unfold word; lia).
Qed.

(** The class of a code point. *)
Lemma utf8_class c : 128 <= c < 2 ^ 31 ->
  exists l, (1 <= l <= 5)%nat /\ utf8_min_code !!! (l - 1)%nat <= c < utf8_max l.
Proof.
  intros Hc. destruct (Z.lt_ge_cases c 0x800); [exists 1%nat; unfold utf8_max; cbn; lia|].
  destruct (Z.lt_ge_cases c 0x10000); [exists 2%nat; unfold utf8_max; cbn; lia|].
  destruct (Z.lt_ge_cases c 0x200000); [exists 3%nat; unfold utf8_max; cbn; lia|].
  destruct (Z.lt_ge_cases c 0x4000000); [exists 4%nat; unfold utf8_max; cbn; lia|].
  exists 5%nat. unfold utf8_max. cbn. lia.
Qed.

(** The first byte determines the class and carries the top bits. *)
Lemma first_byte l x : (1 <= l <= 5)%nat -> 0 <= x < 2 ^ (6 - Z.of_nat l) ->
  utf8_follow (utf8_tag l + x) = Some l /\ 128 <= utf8_tag l + x /\
  (utf8_tag l + x) .& (utf8_first_code_mask !!! (l - 1)%nat) = x.
Proof.
  intros Hl Hx. assert (Hm : (utf8_tag l + x) .& (2 ^ (6 - Z.of_nat l) - 1) = x).
  { rewrite land_ones_mod by lia. unfold utf8_tag. symmetry.
    apply (Z.mod_unique _ _ (2 ^ (2 + Z.of_nat l) - 2)); [lia|]. each_class l; cbn; lia. }
  unfold utf8_follow, utf8_tag in *. each_class l; cbn in *; (split_and!; [zcases|lia|done]); try done; lia.
Qed.

Lemma utf8_follow_inv b l : utf8_follow b = Some l ->
  (1 <= l <= 5)%nat /\ exists x, b = utf8_tag l + x /\ 0 <= x < 2 ^ (6 - Z.of_nat l).
Proof.
  unfold utf8_follow. repeat case_match; intros [= <-]; (split; [lia|]);
    (eexists; split; [symmetry; apply Zplus_minus|]); unfold utf8_tag; cbn; lia.
Qed.

Lemma class_chunk l c : (1 <= l <= 5)%nat -> 0 <= c < utf8_max l ->
  0 <= c / 2 ^ (6 * Z.of_nat l) < 2 ^ (6 - Z.of_nat l).
Proof.
  intros Hl Hc. unfold utf8_max in Hc. split; [apply Z.div_pos; lia|].
  apply Z.div_lt_upper_bound; [lia|]. rewrite <- Z.pow_add_r by lia.
  replace (6 * Z.of_nat l + (6 - Z.of_nat l)) with (5 * Z.of_nat l + 6) by lia. lia.
Qed.

Lemma min_code_pos l : (1 <= l <= 5)%nat -> 128 <= utf8_min_code !!! (l - 1)%nat.
Proof. intros. each_class l; cbn; lia. Qed.

(** Decoding inverts encoding. *)
Lemma from_to_utf8 c rest max_len :
  0 <= c < 2 ^ 31 -> len (unicode_to_utf8 c) <= max_len ->
  unicode_from_utf8 (unicode_to_utf8 c ++ rest) max_len = Some (c, rest).
Proof.
  intros Hc Hm. destruct (Z.lt_ge_cases c 128) as [Ha|Ha].
  - rewrite to_utf8_ascii by lia. cbn. by replace (c <? 128) with true by lia.
  - destruct (utf8_class c ltac:(lia)) as (l & Hl & Hlc). rewrite (to_utf8_class l c Hl Hlc) in *.
    pose proof (min_code_pos l Hl) as Hmin.
    destruct (first_byte l (c / 2 ^ (6 * Z.of_nat l)) Hl) as (F1 & F2 & F3).
    { apply class_chunk; [done|lia]. }
    cbn [app unicode_from_utf8 length] in *. rewrite F1, F3.
    replace (utf8_tag l + _ <? 128) with false by lia.
    rewrite length_enc_tail in Hm. replace (max_len - 1 <? Z.of_nat l) with false by lia.
    rewrite <- (length_enc_tail l c) at 1.
    rewrite from_utf8_loop_complete by (apply enc_tail_continuation || (apply Z.div_pos; lia)).
    rewrite utf8_value_enc_tail. by replace (c <? _) with false by lia.
Qed.

(** Only encodings are decoded: overlong, truncated and stray sequences are refused. *)
Lemma to_from_utf8 p max_len c rest : bytes p ->
  unicode_from_utf8 p max_len = Some (c, rest) -> 1 <= max_len ->
  0 <= c < 2 ^ 31 /\ p = unicode_to_utf8 c ++ rest /\ len (unicode_to_utf8 c) <= max_len.
Proof.
  intros Hp E Hm. destruct p as [|b p]; [done|]. apply Forall_cons in Hp as [Hb Hp].
  unfold byte, word in Hb. cbn in E. destruct (Z.ltb_spec b 128).
  - injection E as <- <-. rewrite to_utf8_ascii by lia. split_and!; [lia|lia|done|cbn; lia].
  - destruct (utf8_follow b) as [l|] eqn:El; [|done].
    destruct (utf8_follow_inv b l El) as (Hl & x & -> & Hx).
    destruct (first_byte l x Hl Hx) as (F1 & F2 & F3). rewrite F3 in E.
    destruct (max_len - 1 <? Z.of_nat l) eqn:Em; [done|].
    pose proof (from_utf8_loop_spec l x p ltac:(lia)) as HL.
    destruct (from_utf8_loop l x p) as [[v r]|]; [|done].
    destruct HL as (q & -> & Hq1 & Hq2 & ->).
    destruct (utf8_value x q <? _) eqn:Ev; [done|]. injection E as <- <-.
    destruct (utf8_value_div q x Hq2 ltac:(lia)) as [V1 V2]. rewrite Hq1 in V1, V2.
    set (v := utf8_value x q) in *.
    assert (Hv : v < utf8_max l).
    { unfold utf8_max. replace (5 * Z.of_nat l + 6) with (6 * Z.of_nat l + (6 - Z.of_nat l)) by lia.
      rewrite Z.pow_add_r by lia. pose proof (Z.mod_pos_bound v (2 ^ (6 * Z.of_nat l)) ltac:(lia)).
      pose proof (Z.div_mod v (2 ^ (6 * Z.of_nat l)) ltac:(lia)) as Dv. rewrite V1 in Dv. nia. }
    pose proof (min_code_pos l Hl). assert (Hmax : utf8_max l <= 2 ^ 31).
    { unfold utf8_max. apply Z.pow_le_mono_r; lia. }
    rewrite (to_utf8_class l v Hl) by lia. rewrite V1, V2. split_and!; [lia|lia|done|cbn; lia].
Qed.

Lemma unicode_to_utf8_bytes c : 0 <= c < 2 ^ 31 ->
  bytes (unicode_to_utf8 c) /\ (1 <= length (unicode_to_utf8 c) <= 6)%nat.
Proof.
  intros Hc. destruct (Z.lt_ge_cases c 128) as [Ha|Ha].
  - rewrite to_utf8_ascii by lia. split; [|cbn; lia]. repeat constructor; unfold byte, word; lia.
  - destruct (utf8_class c ltac:(lia)) as (l & Hl & Hlc). rewrite (to_utf8_class l c Hl Hlc).
    cbn [length]. rewrite length_enc_tail. split; [|lia]. pose proof (min_code_pos l Hl).
    constructor.
    + pose proof (class_chunk l c Hl ltac:(lia)). unfold byte, word, utf8_tag.
      assert (2 ^ (6 - Z.of_nat l) * 2 = 2 ^ (7 - Z.of_nat l)).
      { change 2 with (2 ^ 1) at 2. rewrite <- Z.pow_add_r by lia. f_equal. lia. }
      assert (2 ^ (7 - Z.of_nat l) <= 2 ^ 6) by (apply Z.pow_le_mono_r; lia).
      change (2 ^ 6) with 64 in *. change (2 ^ 8) with 256. lia.
    + eapply Forall_impl; [apply enc_tail_continuation|]. intros b Hb.
      unfold byte, word, continuation in *. lia.
Qed.

(** ** Surrogates *)

Lemma hi_surrogate_range c : is_hi_surrogate c = true <-> 0xD800 <= c < 0xDC00.
Proof.
  unfold is_hi_surrogate. change (0xD800 >> 10) with 54. rewrite Z.eqb_eq, shiftr_div by lia.
  change (2 ^ 10) with 1024. pose proof (Z.div_mod c 1024). pose proof (Z.mod_pos_bound c 1024).
  split; [lia|]. intros. symmetry. apply (Z.div_unique _ _ _ (c - 54 * 1024)); lia.
Qed.

Lemma lo_surrogate_range c : is_lo_surrogate c = true <-> 0xDC00 <= c < 0xE000.
Proof.
  unfold is_lo_surrogate. change (0xDC00 >> 10) with 55. rewrite Z.eqb_eq, shiftr_div by lia.
  change (2 ^ 10) with 1024. pose proof (Z.div_mod c 1024). pose proof (Z.mod_pos_bound c 1024).
  split; [lia|]. intros. symmetry. apply (Z.div_unique _ _ _ (c - 55 * 1024)); lia.
Qed.

Lemma surrogate_value hi lo : 0xD800 <= hi < 0xDC00 -> 0xDC00 <= lo < 0xE000 ->
  from_surrogate hi lo = 0x10000 + 1024 * (hi - 0xD800) + (lo - 0xDC00) /\
  0x10000 <= from_surrogate hi lo < 0x110000.
Proof.
  intros. unfold from_surrogate.
  rewrite (wrap_small 32 (hi - 0xD800)), (wrap_small 32 (lo - 0xDC00)) by (unfold word; lia).
  rewrite (wrap_small 32 (0x400 * _)) by (unfold word; lia).
  rewrite wrap_small by (unfold word; lia). lia.
Qed.

Lemma surrogate_split hi lo : 0xD800 <= hi < 0xDC00 -> 0xDC00 <= lo < 0xE000 ->
  get_hi_surrogate (from_surrogate hi lo) = hi /\ get_lo_surrogate (from_surrogate hi lo) = lo.
Proof.
  intros Hh Hl. destruct (surrogate_value hi lo Hh Hl) as [-> _].
  unfold get_hi_surrogate, get_lo_surrogate. rewrite shiftr_div by lia. change (0x10000 >> 10) with 64.
  change (2 ^ 10) with 1024. change 0x3FF with (2 ^ 10 - 1). rewrite land_ones_mod by lia.
  change (2 ^ 10) with 1024. change 0xDC00 with (55 * 2 ^ 10).
  set (c := 0x10000 + _ + _).
  assert (Ec : c / 1024 = 64 + (hi - 0xD800)) by (symmetry; apply (Z.div_unique _ _ _ (lo - 0xDC00)); unfold c; lia).
  assert (Em : c mod 1024 = lo - 0xDC00) by (symmetry; apply (Z.mod_unique _ _ (64 + (hi - 0xD800))); unfold c; lia).
  rewrite Ec, Em. split; [rewrite wrap_small by (unfold word; lia); lia|].
  rewrite (tag_or 10 55) by (unfold word; lia). lia.
Qed.

(** C22: the UTF-8 codec.  [unicode_from_utf8] accepts a byte sequence exactly when it
    starts with the output of [unicode_to_utf8] for a 31-bit code point that fits in
    [max_len]; it returns that code point and consumes those bytes only. *)
Theorem utf8_codec p max_len c rest : bytes p -> 1 <= max_len ->
  unicode_from_utf8 p max_len = Some (c, rest) <->
  (0 <= c < 2 ^ 31 /\ p = unicode_to_utf8 c ++ rest /\ len (unicode_to_utf8 c) <= max_len).
Proof.
  intros Hp Hm. split.
  - intros E. by apply to_from_utf8.
  - intros (Hc & -> & Hl). by apply from_to_utf8.
Qed.

Lemma utf8_codec_witness :
  unicode_from_utf8 [0xF0; 0x9F; 0x98; 0x80; 0x21] 5 = Some (0x1F600, [0x21]) <->
  (0 <= 0x1F600 < 2 ^ 31 /\ [0xF0; 0x9F; 0x98; 0x80; 0x21] = unicode_to_utf8 0x1F600 ++ [0x21] /\
   len (unicode_to_utf8 0x1F600) <= 5).
Proof.
  apply utf8_codec; [|lia]. unfold bytes, byte, word. repeat constructor; vm_compute; congruence.
Defined.
