(* ===== verification/Engine.v ===== *)
(** * Exceptions and allocation

    An engine routine that returns [NULL] or [JS_EXCEPTION] leaves a pending
    exception.  The routines modelled here are computations of the monad [M]: they
    end with a value or with the exception they throw.  Memory allocations and
    interrupt polls are numbered in the order the routine performs them, and a
    [World] says which of them succeed, so that every theorem covers a failure at
    every point. *)
From stdpp Require Export strings.
From S2P Require Export Prelude.

Inductive exn :=
  | RangeError (msg : string)
  | InternalError (msg : string)
  | OutOfMemory
  | Interrupted.

(** The environment: the [n]-th allocation or poll succeeds. *)
Class World := ext_ok : nat -> bool.

Definition M (A : Type) : Type := nat -> (A + exn) * nat.

Section monad.
Context {W : World}.

Definition ret {A} (x : A) : M A := fun n => (inl x, n).
Definition throw {A} (e : exn) : M A := fun n => (inr e, n).
Definition bind {A B} (m : M A) (f : A -> M B) : M B := fun n =>
  match m n with
  | (inl x, n) => f x n
  | (inr e, n) => (inr e, n)
  end.

(** [js_malloc], [js_realloc]: a failure throws. *)
Definition js_alloc : M unit := fun n =>
  (if ext_ok n then inl tt else inr OutOfMemory, S n).

(** A reallocation whose failure is ignored. *)
Definition js_try_alloc : M unit := fun n => (inl tt, S n).

(** [js_poll_interrupts]. *)
Definition js_poll : M unit := fun n =>
  (if ext_ok n then inl tt else inr Interrupted, S n).
End monad.

Declare Scope engine_scope.
Delimit Scope engine_scope with engine.
Notation "x <- m ;; k" := (bind m (fun x => k))
  (at level 100, m at next level, right associativity) : engine_scope.
Notation "m ;;; k" := (bind m (fun _ => k)) (at level 100, right associativity) : engine_scope.
#[global] Open Scope engine_scope.

(** ** Outcomes

    [post m n Q R]: from event [n] on, [m] ends with a value that satisfies [Q], or
    with an exception that satisfies [R], or because an external event failed. *)
Section post.
Context {W : World}.

Definition outcome {A} (n : nat) (Q : A -> Prop) (R : exn -> Prop)
    (r : (A + exn) * nat) : Prop :=
  (n <= snd r)%nat /\
  match fst r with
  | inl x => Q x
  | inr OutOfMemory | inr Interrupted =>
      exists k, (n <= k < snd r)%nat /\ ext_ok k = false
  | inr e => R e
  end.
Definition post {A} (m : M A) (n : nat) (Q : A -> Prop) (R : exn -> Prop) : Prop :=
  outcome n Q R (m n).

Lemma post_ret {A} (x : A) n (Q : A -> Prop) R : Q x -> post (ret x) n Q R.
Proof. split; [cbn; lia|done]. Qed.

Lemma post_throw {A} msg n (Q : A -> Prop) (R : exn -> Prop) :
  R (RangeError msg) -> post (throw (RangeError msg)) n Q R.
Proof. split; [cbn; lia|done]. Qed.

Lemma post_bind {A B} (m : M A) (f : A -> M B) n Q Q' R :
  post m n Q R -> (forall x n', Q x -> post (f x) n' Q' R) -> post (bind m f) n Q' R.
Proof.
  unfold post, outcome, bind. intros [Hn Hm] Hf. destruct (m n) as [[x|e] n'] eqn:E; cbn in *.
  - destruct (Hf x n' Hm) as [Hn' Hr]. split; [lia|].
    destruct (f x n') as [[y|[]] n'']; cbn in *; try done.
    + destruct Hr as (k & ? & ?). exists k. split; [lia|done].
    + destruct Hr as (k & ? & ?). exists k. split; [lia|done].
  - by split.
Qed.

Lemma post_weaken {A} (m : M A) n (Q Q' : A -> Prop) (R R' : exn -> Prop) :
  post m n Q R -> (forall x, Q x -> Q' x) -> (forall e, R e -> R' e) -> post m n Q' R'.
Proof.
  intros [Hn Hm] HQ HR. split; [done|]. destruct (fst (m n)) as [|[]]; naive_solver.
Qed.

Lemma post_alloc n R : post js_alloc n (fun _ => True) R.
Proof.
  unfold post, outcome, js_alloc. destruct (ext_ok n) eqn:E; cbn; split; try lia; try done.
  exists n. split; [lia|done].
Qed.

Lemma post_try_alloc n R : post js_try_alloc n (fun _ => True) R.
Proof. split; [cbn; lia|done]. Qed.

Lemma post_poll n R : post js_poll n (fun _ => True) R.
Proof.
  unfold post, outcome, js_poll. destruct (ext_ok n) eqn:E; cbn; split; try lia; try done.
  exists n. split; [lia|done].
Qed.
End post.

Create HintDb engine.
#[export] Hint Resolve post_ret post_throw post_alloc post_try_alloc post_poll : engine.
