(* ===== verification/Float64.v ===== *)
(** * IEEE binary64 numbers

    The C type [double], as the Standard Library's [spec_float] with the binary64
    parameters: the arithmetic the program performs on it, and its order.  NaN
    compares with nothing, as in C. *)
From Stdlib Require Export SpecFloat.
From S2P Require Export Prelude.

Abbreviation double := spec_float.
Abbreviation prec := 53.
Abbreviation emax := 1024.

Definition INFINITY : double := S754_infinity false.
Definition NAN : double := S754_nan.

(** [x < y] and [x >= y] of C. *)
Definition flt (x y : double) : bool := SFltb x y.
Definition fge (x y : double) : bool := SFleb y x.

Definition fadd (x y : double) : double := SFadd prec emax x y.
Definition fmul (x y : double) : double := SFmul prec emax x y.
Definition fdiv (x y : double) : double := SFdiv prec emax x y.

(** The conversion of an integer. *)
Definition f_of_Z (n : Z) : double := binary_normalize prec emax n 0 false.

Definition is_nan (x : double) : bool :=
  match x with S754_nan => true | _ => false end.

(** ** The order

    [rank] embeds the numbers into triples ordered lexicographically. *)

Definition rank (x : double) : Z * Z * Z :=
  match x with
  | S754_infinity true => (-2, 0, 0)
  | S754_finite true m e => (-1, - e, - Z.pos m)
  | S754_zero _ => (0, 0, 0)
  | S754_finite false m e => (1, e, Z.pos m)
  | S754_infinity false => (2, 0, 0)
  | S754_nan => (3, 0, 0)
  end.

Definition lex_lt (p q : Z * Z * Z) : Prop :=
  let '(a, b, c) := p in
  let '(a', b', c') := q in
  a < a' \/ (a = a' /\ (b < b' \/ (b = b' /\ c < c'))).

Lemma flt_rank x y : is_nan x = false -> is_nan y = false ->
  flt x y = true <-> lex_lt (rank x) (rank y).
Proof.
  unfold flt, SFltb. destruct x as [|[]| |[] m e], y as [|[]| |[] m' e']; cbn; intros; try done;
    try (split; [done|lia]); try (split; [lia|done]).
  - destruct (Z.compare_spec e e'); subst.
    + change (Pos.compare_cont Eq m m') with (Pos.compare m m').
      destruct (Pos.compare_spec m m'); cbn; split; try done; try lia.
    + split; try done; lia.
    + split; try done; lia.
  - destruct (Z.compare_spec e e'); subst.
    + change (Pos.compare_cont Eq m m') with (Pos.compare m m').
      destruct (Pos.compare_spec m m'); cbn; split; try done; try lia.
    + split; try done; lia.
    + split; try done; lia.
Qed.

Lemma flt_nan x y : flt x y = true -> is_nan x = false /\ is_nan y = false.
Proof. destruct x as [|[]| |[]], y as [|[]| |[]]; done. Qed.

Lemma lex_trans p q r : lex_lt p q -> lex_lt q r -> lex_lt p r.
Proof. destruct p as [[? ?] ?], q as [[? ?] ?], r as [[? ?] ?]; cbn. lia. Qed.

Lemma lex_trans_not p q r : lex_lt p q -> ~ lex_lt r q -> lex_lt p r.
Proof. destruct p as [[? ?] ?], q as [[? ?] ?], r as [[? ?] ?]; cbn. lia. Qed.

Lemma flt_trans x y z : flt x y = true -> flt y z = true -> flt x z = true.
Proof.
  intros H1 H2. pose proof (flt_nan _ _ H1) as [? ?]. pose proof (flt_nan _ _ H2) as [? ?].
  apply flt_rank; try done. apply flt_rank in H1; [|done..]. apply flt_rank in H2; [|done..].
  eapply lex_trans; eauto.
Qed.

(** [x < y] and [y <= z] give [x < z]. *)
Lemma flt_le_trans x y z : flt x y = true -> is_nan z = false -> flt z y = false -> flt x z = true.
Proof.
  intros H1 Hz H2. pose proof (flt_nan _ _ H1) as [? ?]. apply flt_rank; try done.
  apply flt_rank in H1; [|done..]. eapply lex_trans_not; [done|].
  rewrite <- flt_rank by done. by rewrite H2.
Qed.

Lemma flt_irrefl x : flt x x = false.
Proof.
  destruct (flt x x) eqn:E; [|done]. pose proof (flt_nan _ _ E) as [? _].
  apply flt_rank in E; [|done..]. destruct (rank x) as [[? ?] ?]. cbn in E. lia.
Qed.
