(* ===== verification/DoubleBits.v ===== *)
(** * Doubles as bit patterns

    The code that converts between integers and doubles works on the 64 bits of a
    [double] ([float64_as_uint64], [uint64_as_float64]).  A double is here its bit
    pattern; [fval] is the number it stands for, scaled by 2^1074 to be an integer, and
    [nearest] is the rounding of an integer that the C cast performs, to the nearest
    double, ties to the even mantissa. *)
From S2P Require Export Prelude.

Definition f_sign (b : Z) : Z := b >> 63.
Definition f_exp (b : Z) : Z := (b >> 52) .& 2047.
Definition f_mant (b : Z) : Z := b .& (2 ^ 52 - 1).

(** The scale at which every finite double is an integer. *)
Definition f_scale : Z := 2 ^ 1074.

(** Neither infinite nor NaN. *)
Definition finite (b : Z) : Prop := f_exp b <> 2047.

(** [f_scale] times the magnitude of a finite double. *)
Definition f_abs (b : Z) : Z :=
  if f_exp b =? 0 then f_mant b else (2 ^ 52 + f_mant b) * 2 ^ (f_exp b - 1).
Definition fval (b : Z) : Z := if f_sign b =? 0 then f_abs b else - f_abs b.

(** [a / 2^k] rounded half to even. *)
Definition round_half_even (a k : Z) : Z :=
  let q := a / 2 ^ k in
  let r := a mod 2 ^ k in
  if (2 ^ k <? 2 * r) || ((2 ^ k =? 2 * r) && Z.odd q) then q + 1 else q.

Definition f_infinity : Z := 2047 * 2 ^ 52.

(** The double nearest to a positive integer: adding the significand, whose top bit is
    the implicit one, to the exponent field carries when the significand is rounded up to
    the next power of two. *)
Definition nearest_abs (a : Z) : Z :=
  let e := Z.log2 a in
  let m := if e <=? 52 then a * 2 ^ (52 - e) else round_half_even a (e - 52) in
  Z.min ((e + 1022) * 2 ^ 52 + m) f_infinity.

Definition nearest (v : Z) : Z :=
  if v =? 0 then 0
  else b2z (v <? 0) * 2 ^ 63 + nearest_abs (Z.abs v).

(** ** Fields *)

Lemma f_fields b : word 64 b ->
  b = f_sign b * 2 ^ 63 + f_exp b * 2 ^ 52 + f_mant b /\
  0 <= f_sign b <= 1 /\ 0 <= f_exp b < 2048 /\ 0 <= f_mant b < 2 ^ 52.
Proof.
  intros Hb. unfold f_sign, f_exp, f_mant. change 2047 with (2 ^ 11 - 1).
  rewrite !land_ones_mod, !shiftr_div by lia. unfold word in Hb.
  pose proof (Z.div_mod b (2 ^ 63) ltac:(lia)). pose proof (Z.mod_pos_bound b (2 ^ 63) ltac:(lia)).
  pose proof (Z.div_mod b (2 ^ 52) ltac:(lia)). pose proof (Z.mod_pos_bound b (2 ^ 52) ltac:(lia)).
  pose proof (Z.mod_pos_bound (b / 2 ^ 52) (2 ^ 11) ltac:(lia)).
  pose proof (Z.div_mod (b / 2 ^ 52) (2 ^ 11) ltac:(lia)) as E.
  rewrite Z.div_div in E by lia. change (2 ^ 52 * 2 ^ 11) with (2 ^ 63) in E. lia.
Qed.

Lemma f_make s e m : 0 <= s <= 1 -> 0 <= e < 2048 -> 0 <= m < 2 ^ 52 ->
  let b := s * 2 ^ 63 + e * 2 ^ 52 + m in
  word 64 b /\ f_sign b = s /\ f_exp b = e /\ f_mant b = m.
Proof.
  intros Hs He Hm b. assert (Hb : word 64 b) by (unfold word, b; lia).
  destruct (f_fields b Hb) as (E & H1 & H2 & H3). unfold b in *. split; [done|]. lia.
Qed.

Lemma f_abs_nonneg b : word 64 b -> 0 <= f_abs b.
Proof.
  intros Hb. destruct (f_fields b Hb) as (_ & _ & He & Hm). unfold f_abs. zcases; [lia|].
  pose proof (pow2_pos (f_exp b - 1)). nia.
Qed.

(** ** The nearest double *)

Lemma round_half_even_spec a k : 0 <= k -> 0 <= a ->
  let m := round_half_even a k in
  a / 2 ^ k <= m <= a / 2 ^ k + 1 /\
  2 * Z.abs (m * 2 ^ k - a) <= 2 ^ k /\
  (2 * Z.abs (m * 2 ^ k - a) = 2 ^ k -> Z.even m = true).
Proof.
  intros Hk Ha. unfold round_half_even. pose proof (pow2_pos k Hk) as HP.
  pose proof (Z.div_mod a (2 ^ k) ltac:(lia)) as E. pose proof (Z.mod_pos_bound a (2 ^ k) HP).
  set (q := a / 2 ^ k) in *. set (r := a mod 2 ^ k) in *.
  destruct (Z.ltb_spec (2 ^ k) (2 * r)); cbn [orb].
  - split; [lia|]. replace ((q + 1) * 2 ^ k - a) with (2 ^ k - r) by lia. lia.
  - destruct (Z.eqb_spec (2 ^ k) (2 * r)) as [Er|]; cbn [andb].
    + destruct (Z.odd q) eqn:Eo.
      * split; [lia|]. replace ((q + 1) * 2 ^ k - a) with (2 ^ k - r) by lia. split; [lia|].
        intros _. by rewrite Z.even_add, <- Z.negb_odd, Eo.
      * split; [lia|]. replace (q * 2 ^ k - a) with (- r) by lia. split; [lia|].
        intros _. by rewrite <- Z.negb_odd, Eo.
    + split; [lia|]. replace (q * 2 ^ k - a) with (- r) by lia. lia.
Qed.

(** The significand of the nearest double. *)
Definition nearest_mant (a : Z) : Z :=
  if Z.log2 a <=? 52 then a * 2 ^ (52 - Z.log2 a) else round_half_even a (Z.log2 a - 52).

(** At scale [f_scale], the unit of the binade of [a] is [2^(log2 a + 1022)]. *)
Lemma nearest_mant_spec a : 0 < a ->
  let u := 2 ^ (Z.log2 a + 1022) in
  2 ^ 52 <= nearest_mant a <= 2 ^ 53 /\
  2 ^ 52 * u <= a * f_scale < 2 ^ 53 * u /\
  2 * Z.abs (nearest_mant a * u - a * f_scale) <= u /\
  (2 * Z.abs (nearest_mant a * u - a * f_scale) = u -> Z.even (nearest_mant a) = true).
Proof.
  intros Ha u. destruct (Z.log2_spec a Ha) as [H1 H2]. rewrite Z.pow_succ_r in H2 by apply Z.log2_nonneg.
  pose proof (Z.log2_nonneg a). set (e := Z.log2 a) in *.
  assert (Hu : 2 ^ e * f_scale = 2 ^ 52 * u).
  { unfold u, f_scale. rewrite <- !Z.pow_add_r by lia. f_equal. lia. }
  assert (HP : 0 < f_scale) by by vm_compute.
  assert (HU : 0 < u) by (apply pow2_pos; lia).
  assert (Hrange : 2 ^ 52 * u <= a * f_scale < 2 ^ 53 * u).
  { replace (2 ^ 53 * u) with (2 * (2 ^ 52 * u)) by lia. rewrite <- Hu. nia. }
  unfold nearest_mant. fold e. destruct (Z.leb_spec e 52).
  - assert (Hx : a * 2 ^ (52 - e) * u = a * f_scale).
    { unfold u, f_scale. rewrite <- Z.mul_assoc, <- Z.pow_add_r by lia. do 2 f_equal. lia. }
    rewrite Hx, Z.sub_diag. split; [|split; [done|split; [lia|lia]]].
    assert (Hp : 2 ^ e * 2 ^ (52 - e) = 2 ^ 52) by (rewrite <- Z.pow_add_r by lia; f_equal; lia).
    pose proof (pow2_pos (52 - e)). nia.
  - destruct (round_half_even_spec a (e - 52) ltac:(lia) ltac:(lia)) as (Hm & Hd & Ht).
    set (m := round_half_even a (e - 52)) in *.
    assert (Hp : 2 ^ e = 2 ^ 52 * 2 ^ (e - 52)) by (rewrite <- Z.pow_add_r by lia; f_equal; lia).
    pose proof (pow2_pos (e - 52) ltac:(lia)).
    assert (Hq : 2 ^ 52 <= a / 2 ^ (e - 52) < 2 ^ 53).
    { split; [apply Z.div_le_lower_bound; lia|apply Z.div_lt_upper_bound; lia]. }
    assert (Hw : u = 2 ^ (e - 52) * f_scale).
    { unfold u, f_scale. rewrite <- Z.pow_add_r by lia. f_equal. lia. }
    assert (Hs : m * u - a * f_scale = (m * 2 ^ (e - 52) - a) * f_scale) by (rewrite Hw; ring).
    rewrite Hs, Z.abs_mul, (Z.abs_eq (f_scale)), Hw by lia.
    split; [lia|]. split; [rewrite <- Hw; exact Hrange|]. split; [nia|]. intros E. apply Ht. nia.
Qed.

(** [b] is the double nearest to the integer [v], ties to even. *)
Definition is_nearest (v b : Z) : Prop :=
  word 64 b /\ finite b /\
  forall g, word 64 g -> finite g ->
    Z.abs (fval b - v * f_scale) <= Z.abs (fval g - v * f_scale) /\
    (Z.abs (fval b - v * f_scale) = Z.abs (fval g - v * f_scale) ->
       fval g = fval b \/ Z.even b = true).

(** Integers of this magnitude or more round to an infinity. *)
Definition overflow_bound : Z := 2 ^ 1024 - 2 ^ 970.

(** The bits when there is no overflow. *)
Lemma nearest_bits a : 0 < a -> let b := (Z.log2 a + 1022) * 2 ^ 52 + nearest_mant a in
  b < f_infinity ->
  word 64 b /\ f_sign b = 0 /\ finite b /\ Z.even b = Z.even (nearest_mant a) /\
  f_abs b = nearest_mant a * 2 ^ (Z.log2 a + 1022).
Proof.
  intros Ha b Hb. destruct (nearest_mant_spec a Ha) as (Hm & _). pose proof (Z.log2_nonneg a).
  assert (Hev : Z.even b = Z.even (nearest_mant a)).
  { unfold b. rewrite Z.even_add, Z.even_mul. cbn [Z.even Z.pow]. change (Z.even (2 ^ 52)) with true.
    rewrite orb_true_r. by destruct (Z.even (nearest_mant a)). }
  set (m := nearest_mant a) in *. set (e := Z.log2 a) in *. unfold f_infinity in Hb.
  destruct (Z.eq_dec m (2 ^ 53)) as [Em|Hm'].
  - destruct (f_make 0 (e + 1024) 0 ltac:(lia) ltac:(unfold b in Hb; lia) ltac:(lia)) as (H1 & H2 & H3 & H4).
    replace (0 * 2 ^ 63 + (e + 1024) * 2 ^ 52 + 0) with b in * by (unfold b; lia).
    unfold finite, f_abs. rewrite H2, H3, H4. split_and!; try done; [unfold b in Hb; lia|].
    replace (e + 1024 =? 0) with false by lia. rewrite Em.
    replace (e + 1024 - 1) with (1 + (e + 1022)) by lia. rewrite Z.pow_add_r by lia. lia.
  - destruct (f_make 0 (e + 1023) (m - 2 ^ 52) ltac:(lia) ltac:(unfold b in Hb; lia) ltac:(lia)) as (H1 & H2 & H3 & H4).
    replace (0 * 2 ^ 63 + (e + 1023) * 2 ^ 52 + (m - 2 ^ 52)) with b in * by (unfold b; lia).
    unfold finite, f_abs. rewrite H2, H3, H4. split_and!; try done; [unfold b in Hb; lia|].
    replace (e + 1023 =? 0) with false by lia. replace (e + 1023 - 1) with (e + 1022) by lia. f_equal. lia.
Qed.

Lemma overflow_spec a : 0 < a ->
  (Z.log2 a + 1022) * 2 ^ 52 + nearest_mant a < f_infinity <-> a < overflow_bound.
Proof.
  intros Ha. destruct (nearest_mant_spec a Ha) as (Hm & _). pose proof (Z.log2_nonneg a).
  destruct (Z.log2_spec a Ha) as [H1 H2]. unfold f_infinity, overflow_bound.
  destruct (Z.lt_trichotomy (Z.log2 a) 1023) as [He|[He|He]].
  - split; [intros _|lia]. apply Z.lt_le_trans with (2 ^ 1023).
    + apply Z.lt_le_trans with (2 ^ Z.succ (Z.log2 a)); [done|]. apply Z.pow_le_mono_r; lia.
    + by vm_compute.
  - unfold nearest_mant. rewrite He. change (1023 <=? 52) with false. change (1023 - 52) with 971. cbv iota.
    unfold round_half_even. rewrite He in H1, H2. change (Z.succ 1023) with 1024 in H2.
    pose proof (Z.div_mod a (2 ^ 971) ltac:(lia)) as E. pose proof (Z.mod_pos_bound a (2 ^ 971) ltac:(lia)).
    set (q := a / 2 ^ 971) in *. set (r := a mod 2 ^ 971) in *.
    assert (E1 : 2 ^ 1024 = 2 ^ 53 * 2 ^ 971) by (vm_compute; reflexivity).
    assert (E2 : 2 ^ 971 = 2 * 2 ^ 970) by (vm_compute; reflexivity).
    assert (E3 : 2 ^ 1023 = 2 ^ 52 * 2 ^ 971) by (vm_compute; reflexivity).
    assert (HP : 0 < 2 ^ 970) by (vm_compute; reflexivity).
    rewrite E1 in H2 |- *. rewrite E3 in H1. rewrite E2 in *. clear E1 E2 E3.
    set (P := 2 ^ 970) in *. clearbody P.
    assert (Hq : 2 ^ 52 <= q <= 2 ^ 53 - 1) by nia.
    destruct (Z.ltb_spec (2 * P) (2 * r)); cbn [orb].
    + split; intros Hlt.
      * assert (2 * P * q <= 2 * P * (2 ^ 53 - 2)) by (apply Z.mul_le_mono_nonneg_l; lia). lia.
      * destruct (Z.eq_dec q (2 ^ 53 - 1)) as [->|]; lia.
    + destruct (Z.eqb_spec (2 * P) (2 * r)); cbn [andb].
      * destruct (Z.odd q) eqn:Eo; split; intros Hlt; try lia.
        -- assert (2 * P * q <= 2 * P * (2 ^ 53 - 2)) by (apply Z.mul_le_mono_nonneg_l; lia). lia.
        -- destruct (Z.eq_dec q (2 ^ 53 - 1)) as [->|]; lia.
        -- assert (q <> 2 ^ 53 - 1) by (intros ->; discriminate).
           assert (2 * P * q <= 2 * P * (2 ^ 53 - 2)) by (apply Z.mul_le_mono_nonneg_l; lia). lia.
      * split; [intros _|lia].
        assert (2 * P * q <= 2 * P * (2 ^ 53 - 1)) by (apply Z.mul_le_mono_nonneg_l; lia). lia.
  - split; [lia|]. intros Hov. exfalso.
    assert (2 ^ 1024 <= 2 ^ Z.log2 a) by (apply Z.pow_le_mono_r; lia).
    assert (0 < 2 ^ 970) by by vm_compute. lia.
Qed.

(** No other magnitude is nearer. *)
Lemma nearest_best m u V x : 2 ^ 52 * u <= V < 2 ^ 53 * u -> 0 < u ->
  2 * Z.abs (m * u - V) <= u -> (2 * Z.abs (m * u - V) = u -> Z.even m = true) ->
  x < 2 ^ 52 * u \/ (exists k, x = k * u) ->
  Z.abs (m * u - V) <= Z.abs (x - V) /\
  (Z.abs (m * u - V) = Z.abs (x - V) -> x = m * u \/ Z.even m = true).
Proof.
  intros HV Hu Hm Ht [Hx|[k ->]].
  - assert (Hlow : Z.abs (m * u - V) <= V - 2 ^ 52 * u).
    { destruct (Z.le_gt_cases u (2 * (V - 2 ^ 52 * u))); [lia|].
      assert (m = 2 ^ 52) as ->; [|lia].
      assert (H1 : -1 * u < (m - 2 ^ 52) * u < 1 * u) by lia.
      destruct H1 as [H1 H2]. apply Z.mul_lt_mono_pos_r in H1, H2; lia. }
    lia.
  - destruct (Z.eq_dec k m) as [->|Hk]; [lia|].
    assert (Hd : u <= Z.abs (k * u - m * u)).
    { rewrite <- Z.mul_sub_distr_r, Z.abs_mul, (Z.abs_eq u) by lia.
      rewrite <- (Z.mul_1_l u) at 1. apply Z.mul_le_mono_nonneg_r; lia. }
    split; [lia|]. intros E. right. apply Ht. lia.
Qed.

(** A double of the binade of [u] or above is a multiple of [u]. *)
Lemma f_abs_multiple g k : word 64 g -> 0 <= k ->
  f_abs g < 2 ^ 52 * 2 ^ k \/ exists q, f_abs g = q * 2 ^ k.
Proof.
  intros Hg Hk. destruct (f_fields g Hg) as (_ & _ & He & Hm).
  unfold f_abs. destruct (Z.eqb_spec (f_exp g) 0) as [E|E].
  - left. pose proof (pow2_pos k Hk). nia.
  - destruct (Z.le_gt_cases k (f_exp g - 1)).
    + right. exists ((2 ^ 52 + f_mant g) * 2 ^ (f_exp g - 1 - k)).
      rewrite <- Z.mul_assoc, <- Z.pow_add_r by lia. do 2 f_equal. lia.
    + left. replace k with (1 + (f_exp g - 1) + (k - f_exp g)) by lia.
      rewrite !Z.pow_add_r by lia. pose proof (pow2_pos (f_exp g - 1) ltac:(lia)).
      pose proof (pow2_pos (k - f_exp g) ltac:(lia)). set (P := 2 ^ (f_exp g - 1)) in *.
      assert (P * 1 <= P * 2 ^ (k - f_exp g)) by (apply Z.mul_le_mono_nonneg_l; lia).
      assert ((2 ^ 52 + f_mant g) * P < 2 ^ 53 * P) by (apply Z.mul_lt_mono_pos_r; lia). lia.
Qed.

Lemma sign_bits b : word 64 b -> f_sign b = 0 ->
  let b' := 2 ^ 63 + b in
  word 64 b' /\ f_sign b' = 1 /\ f_exp b' = f_exp b /\ f_mant b' = f_mant b /\ Z.even b' = Z.even b.
Proof.
  intros Hb Hs b'. destruct (f_fields b Hb) as (E & _ & He & Hm). rewrite Hs in E.
  destruct (f_make 1 (f_exp b) (f_mant b) ltac:(lia) He Hm) as (H1 & H2 & H3 & H4).
  replace (1 * 2 ^ 63 + f_exp b * 2 ^ 52 + f_mant b) with b' in * by (unfold b'; lia).
  split_and!; try done. unfold b'. rewrite Z.even_add. change (Z.even (2 ^ 63)) with true.
  by destruct (Z.even b).
Qed.

Lemma zero_nearest : is_nearest 0 0.
Proof.
  split; [by vm_compute|]. split; [by vm_compute|]. intros g Hg _.
  change (fval 0) with 0. rewrite Z.mul_0_l. split; [lia|by right].
Qed.

Lemma nearest_spec v : Z.abs v < overflow_bound -> is_nearest v (nearest v).
Proof.
  intros Hv. unfold nearest. destruct (Z.eqb_spec v 0) as [->|Hv0]; [apply zero_nearest|].
  unfold nearest_abs. set (a := Z.abs v) in *. assert (Ha : 0 < a) by lia.
  apply overflow_spec in Hv; [|done]. destruct (nearest_bits a Ha Hv) as (Hw & Hs & Hf & He & Hx).
  destruct (nearest_mant_spec a Ha) as (_ & HV & Hd & Ht). fold (nearest_mant a).
  rewrite Z.min_l by lia. set (b := _ * 2 ^ 52 + _) in *.
  set (u := 2 ^ (Z.log2 a + 1022)) in *. set (m := nearest_mant a) in *.
  assert (Hu : 0 < u) by (apply pow2_pos; pose proof (Z.log2_nonneg a); lia).
  assert (HP : 0 < f_scale) by by vm_compute.
  assert (Hbest : forall g, word 64 g ->
    Z.abs (f_abs b - a * f_scale) <= Z.abs (f_abs g - a * f_scale) /\
    (Z.abs (f_abs b - a * f_scale) = Z.abs (f_abs g - a * f_scale) ->
       f_abs g = f_abs b \/ Z.even b = true) /\
    Z.abs (f_abs b - a * f_scale) < Z.abs (- f_abs g - a * f_scale)).
  { intros g Hg. pose proof (f_abs_multiple g (Z.log2 a + 1022) Hg ltac:(pose proof (Z.log2_nonneg a); lia)) as Hm.
    fold u in Hm. destruct (nearest_best m u (a * f_scale) (f_abs g) HV Hu Hd Ht Hm) as [H1 H2].
    rewrite Hx, He. split; [done|]. split; [done|]. pose proof (f_abs_nonneg g Hg). lia. }
  unfold is_nearest.
  destruct (Z.ltb_spec v 0) as [Hn|Hn]; cbn [Z.b2z]; rewrite ?Z.mul_0_l, ?Z.mul_1_l, ?Z.add_0_l.
  - destruct (sign_bits b Hw Hs) as (K1 & K2 & K3 & K4 & K5). rewrite K5. split; [done|].
    split; [unfold finite; by rewrite K3|]. intros g Hg Hfg. destruct (Hbest g Hg) as (B1 & B2 & B3).
    assert (Fb : fval (2 ^ 63 + b) = - f_abs b) by (unfold fval, f_abs; by rewrite K2, K3, K4).
    rewrite Fb. unfold fval. assert (Ea : v = - a) by lia. rewrite Ea. clearbody a.
    destruct (f_sign g =? 0); [lia|].
    split; [lia|]. intros E. destruct (B2 ltac:(lia)) as [E'|]; [left; lia|by right].
  - split; [done|]. split; [done|]. intros g Hg Hfg. destruct (Hbest g Hg) as (B1 & B2 & B3).
    unfold fval. rewrite Hs. cbn [Z.eqb]. assert (Ea : v = a) by lia. rewrite Ea. clearbody a.
    destruct (f_sign g =? 0); [done|lia].
Qed.

Lemma nearest_overflow v : overflow_bound <= Z.abs v ->
  nearest v = b2z (v <? 0) * 2 ^ 63 + f_infinity.
Proof.
  intros Hv. assert (0 < overflow_bound) by by vm_compute. unfold nearest.
  destruct (Z.eqb_spec v 0); [lia|]. f_equal. unfold nearest_abs. fold (nearest_mant (Z.abs v)).
  pose proof (overflow_spec (Z.abs v) ltac:(lia)). lia.
Qed.
