(* ===== verification/Strings.v ===== *)
(** * Strings and string buffers

    The string builder of [src/quickjs/quickjs.c] ([StringBuffer]), which keeps 8-bit
    characters until a wider one is appended, and the two conversions between the
    engine's strings and UTF-8, [JS_NewStringLen] and [JS_ToCStringLen2]. *)
From S2P Require Export Utf8 Engine.

Definition JS_STRING_LEN_MAX : Z := 2 ^ 30 - 1.

(** The characters of a string; 8-bit ones unless [is_wide_char]. *)
Record JSString := mkString {
  is_wide_char : bool;
  units : list Z;
}.

(** [sb_str] holds the [len] characters written so far. *)
Record StringBuffer := mkSB {
  sb_str : list Z;
  sb_size : Z;
  sb_wide : bool;
  error_status : bool;
  sb_ev : nat;
}.

Abbreviation sb_len s := (len (sb_str s)).

(** The extra bytes that the [n]-th reallocation grants. *)
Class Slack := slack : nat -> Z.

Section definitions.
Context {W : World} {Sl : Slack}.

(** The operations return whether they failed, and the buffer. *)
Definition string_buffer_init2 (size : Z) (is_wide : bool) (ev : nat) : bool * StringBuffer :=
  if (0 <=? size) && ext_ok ev then (false, mkSB [] size is_wide false (S ev))
  else (true, mkSB [] 0 is_wide true (S ev)).

Definition string_buffer_init (size : Z) (ev : nat) : bool * StringBuffer :=
  string_buffer_init2 size false ev.

Definition string_buffer_set_error (s : StringBuffer) : bool * StringBuffer :=
  (true, mkSB [] 0 (sb_wide s) true (S (sb_ev s))).

Definition string_buffer_widen (s : StringBuffer) (size : Z) : bool * StringBuffer :=
  if error_status s then (true, s)
  else if ext_ok (sb_ev s)
  then (false, mkSB (sb_str s) (size + slack (sb_ev s) >> 1) true false (S (sb_ev s)))
  else string_buffer_set_error s.

Definition string_buffer_realloc (s : StringBuffer) (new_len c : Z) : bool * StringBuffer :=
  if error_status s then (true, s)
  else if JS_STRING_LEN_MAX <? new_len then string_buffer_set_error s
  else
    let new_size := Z.min (Z.max new_len (Z.quot (i32 (sb_size s * 3)) 2)) JS_STRING_LEN_MAX in
    if negb (sb_wide s) && (0x100 <=? c) then string_buffer_widen s new_size
    else if ext_ok (sb_ev s)
    then (false, mkSB (sb_str s)
      (Z.min (new_size + (slack (sb_ev s) >> b2z (sb_wide s))) JS_STRING_LEN_MAX)
      (sb_wide s) false (S (sb_ev s)))
    else string_buffer_set_error s.

(** [str[len++] = c]. *)
Definition push (s : StringBuffer) (c : Z) : StringBuffer :=
  mkSB (sb_str s ++ [c]) (sb_size s) (sb_wide s) (error_status s) (sb_ev s).

(** Room for one more character. *)
Definition ensure (s : StringBuffer) (c : Z) : bool * StringBuffer :=
  if sb_size s <=? sb_len s then string_buffer_realloc s (sb_len s + 1) c else (false, s).

Definition string_buffer_putc16_slow (s : StringBuffer) (c : Z) : bool * StringBuffer :=
  let '(err, s) := ensure s c in
  if err then (true, s)
  else if sb_wide s then (false, push s (u16 c))
  else if c <? 0x100 then (false, push s (u8 c))
  else
    let '(err, s) := string_buffer_widen s (sb_size s) in
    if err then (true, s) else (false, push s (u16 c)).

Definition string_buffer_putc8 (s : StringBuffer) (c : Z) : bool * StringBuffer :=
  let '(err, s) := ensure s c in
  if err then (true, s)
  else if sb_wide s then (false, push s (u16 c)) else (false, push s (u8 c)).

Definition string_buffer_putc16 (s : StringBuffer) (c : Z) : bool * StringBuffer :=
  if (sb_len s <? sb_size s) && sb_wide s then (false, push s (u16 c))
  else if (sb_len s <? sb_size s) && (c <? 0x100) then (false, push s (u8 c))
  else string_buffer_putc16_slow s c.

Definition string_buffer_putc_slow (s : StringBuffer) (c : Z) : bool * StringBuffer :=
  if 0x10000 <=? c then
    let '(err, s) := string_buffer_putc16 s (get_hi_surrogate c) in
    if err then (true, s) else string_buffer_putc16 s (get_lo_surrogate c)
  else string_buffer_putc16 s c.

Definition string_buffer_putc (s : StringBuffer) (c : Z) : bool * StringBuffer :=
  if sb_len s <? sb_size s then
    if sb_wide s then
      if c <? 0x10000 then (false, push s (u16 c))
      else if sb_len s + 1 <? sb_size s
      then (false, push (push s (u16 (get_hi_surrogate c))) (u16 (get_lo_surrogate c)))
      else string_buffer_putc_slow s c
    else if c <? 0x100 then (false, push s (u8 c)) else string_buffer_putc_slow s c
  else string_buffer_putc_slow s c.

(** [memcpy] of the characters behind the ones already written.  In the operations below the
    sum of two lengths is written without the wrap-around of [int]: a buffer and a string
    hold about [JS_STRING_LEN_MAX] characters at most, so that the sum is below [2^31]. *)
Definition append (s : StringBuffer) (p : list Z) : StringBuffer :=
  mkSB (sb_str s ++ p) (sb_size s) (sb_wide s) (error_status s) (sb_ev s).

Definition string_buffer_write8 (s : StringBuffer) (p : list Z) : bool * StringBuffer :=
  let '(err, s) :=
    if sb_size s <? sb_len s + len p then string_buffer_realloc s (sb_len s + len p) 0
    else (false, s) in
  if err then (true, s) else (false, append s p).

Definition string_buffer_write16 (s : StringBuffer) (p : list Z) : bool * StringBuffer :=
  let c := foldl Z.lor 0 p in
  let '(err, s) :=
    if sb_size s <? sb_len s + len p then string_buffer_realloc s (sb_len s + len p) c
    else if negb (sb_wide s) && (0x100 <=? c) then string_buffer_widen s (sb_size s)
    else (false, s) in
  if err then (true, s)
  else (false, append s (if sb_wide s then p else map u8 p)).

Definition string_buffer_concat (s : StringBuffer) (p : JSString) (from to : Z) : bool * StringBuffer :=
  if to <=? from then (false, s)
  else
    let part := take (Z.to_nat (to - from)) (drop (Z.to_nat from) (units p)) in
    if is_wide_char p then string_buffer_write16 s part else string_buffer_write8 s part.

Fixpoint fill_loop (s : StringBuffer) (c : Z) (count : nat) : bool * StringBuffer :=
  match count with
  | O => (false, s)
  | S count =>
      let '(err, s) := string_buffer_putc16 s c in
      if err then (true, s) else fill_loop s c count
  end.
Definition string_buffer_fill (s : StringBuffer) (c count : Z) : bool * StringBuffer :=
  let '(err, s) :=
    if sb_size s <? sb_len s + count then string_buffer_realloc s (sb_len s + count) c
    else (false, s) in
  if err then (true, s) else fill_loop s c (Z.to_nat count).

(** [None] is [JS_EXCEPTION].  The final reallocation may fail without harm. *)
Definition string_buffer_end (s : StringBuffer) : option JSString :=
  if error_status s then None
  else if sb_len s =? 0 then Some (mkString false [])
  else Some (mkString (sb_wide s) (sb_str s)).

(** ** Conversions *)

Fixpoint count_ascii (p : list Z) : nat :=
  match p with
  | c :: p => if c <? 128 then S (count_ascii p) else O
  | [] => O
  end.

Definition js_new_string8_len (p : list Z) (ev : nat) : option JSString :=
  if len p <=? 0 then Some (mkString false [])
  else if ext_ok ev then Some (mkString false p) else None.

Fixpoint skip_continuation (p : list Z) : list Z :=
  match p with
  | c :: p' => if (0x80 <=? c) && (c <? 0xc0) then skip_continuation p' else p
  | [] => []
  end.

(** The bytes skipped after an invalid sequence. *)
Definition skip_invalid (p : list Z) : list Z :=
  match skip_continuation p with
  | [] => []
  | _ :: p => skip_continuation p
  end.

(** The loop of [JS_NewStringLen]; the results of the [putc] calls are ignored. *)
Fixpoint new_string_loop (fuel : nat) (p : list Z) (s : StringBuffer) : StringBuffer :=
  match fuel, p with
  | S fuel, b :: p' =>
      if b <? 128 then new_string_loop fuel p' (snd (string_buffer_putc8 s b))
      else
        let invalid :=
          new_string_loop fuel (skip_invalid p) (snd (string_buffer_putc16 s 0xfffd)) in
        match unicode_from_utf8 p (len p) with
        | Some (c, next) =>
            if c <? 0x10000 then new_string_loop fuel next (snd (string_buffer_putc16 s c))
            else if c <=? 0x10FFFF then
              let s := snd (string_buffer_putc16 s (get_hi_surrogate c)) in
              new_string_loop fuel next (snd (string_buffer_putc16 s (get_lo_surrogate c)))
            else invalid
        | None => invalid
        end
  | _, _ => s
  end.

Definition JS_NewStringLen (buf : list Z) (ev : nat) : option JSString :=
  let len1 := count_ascii buf in
  if JS_STRING_LEN_MAX <? Z.of_nat len1 then None
  else if (len1 =? length buf)%nat then js_new_string8_len buf ev
  else
    let '(err, b) := string_buffer_init (i32 (len buf)) ev in
    if err then None
    else
      let b := snd (string_buffer_write8 b (take len1 buf)) in
      string_buffer_end (new_string_loop (length buf) (drop len1 buf) b).

(** The number of characters that need two bytes. *)
Definition count_non_ascii (src : list Z) : Z := foldr (fun c n => c >> 7 + n) 0 src.

Definition latin1_to_utf8 (c : Z) : list Z :=
  if c <? 0x80 then [c] else [(c >> 6) .| 0xc0; (c .& 0x3f) .| 0x80].

Fixpoint wide_to_utf8 (src : list Z) (cesu8 : bool) : list Z :=
  match src with
  | [] => []
  | c :: src =>
      if c <? 0x80 then c :: wide_to_utf8 src cesu8
      else
        match src with
        | c1 :: src' =>
            if is_hi_surrogate c && negb cesu8 && is_lo_surrogate c1
            then unicode_to_utf8 (from_surrogate c c1) ++ wide_to_utf8 src' cesu8
            else unicode_to_utf8 c ++ wide_to_utf8 src cesu8
        | [] => unicode_to_utf8 c ++ wide_to_utf8 src cesu8
        end
  end.

(** The value is already a string; [None] when the allocation fails. *)
Definition JS_ToCStringLen2 (str : JSString) (cesu8 : bool) (ev : nat) : option (list Z) :=
  if negb (is_wide_char str) then
    if count_non_ascii (units str) =? 0 then Some (units str)
    else if ext_ok ev then Some (concat (map latin1_to_utf8 (units str))) else None
  else if ext_ok ev then Some (wide_to_utf8 (units str) cesu8) else None.

(** ** Comparison and access *)

(** [js_string_memcmp]: both widths compare as code units. *)
Fixpoint js_string_memcmp (p1 p2 : list Z) (n : nat) : Z :=
  match n, p1, p2 with
  | S n, c1 :: p1, c2 :: p2 => if c1 =? c2 then js_string_memcmp p1 p2 n else c1 - c2
  | _, _, _ => 0
  end.

Definition js_string_eq (p1 p2 : JSString) : bool :=
  if (length (units p1) =? length (units p2))%nat
  then js_string_memcmp (units p1) (units p2) (length (units p1)) =? 0
  else false.

Definition js_string_compare (p1 p2 : JSString) : Z :=
  let n := Nat.min (length (units p1)) (length (units p2)) in
  let res := js_string_memcmp (units p1) (units p2) n in
  if res =? 0 then
    if (length (units p1) =? length (units p2))%nat then 0
    else if (length (units p1) <? length (units p2))%nat then -1 else 1
  else res.

(** The code point at an index, and the next index. *)
Definition string_getc (p : JSString) (idx : nat) : Z * nat :=
  let c := units p !!! idx in
  if is_wide_char p && is_hi_surrogate c && (S idx <? length (units p))%nat then
    let c1 := units p !!! S idx in
    if is_lo_surrogate c1 then (from_surrogate c c1, S (S idx)) else (c, S idx)
  else (c, S idx).

Definition js_sub_string (p : JSString) (start stop : nat) (ev : nat) : option JSString :=
  let part := take (stop - start) (drop start (units p)) in
  if (start =? 0)%nat && (stop =? length (units p))%nat then Some p
  else if is_wide_char p && (0 <? stop - start)%nat then
    if 0xFF <? u16 (foldl Z.lor 0 part) then
      if ext_ok ev then Some (mkString true part) else None
    else if ext_ok ev then Some (mkString false (map u8 part)) else None
  else js_new_string8_len part ev.
End definitions.

(** ** The buffer as a list of characters *)

Section buffer.
Context {W : World} {Sl : Slack} (Hslack : forall n, 0 <= slack n).

Definition sb_wf (s : StringBuffer) : Prop :=
  if error_status s then sb_str s = [] /\ sb_size s = 0
  else sb_len s <= sb_size s /\ Forall (word 16) (sb_str s) /\
       (sb_wide s = false -> Forall (word 8) (sb_str s)).

Definition failed_between (m n : nat) : Prop := exists k, (m <= k < n)%nat /\ ext_ok k = false.

(** [s'] is [s] with [p] appended, or the error state after a failed allocation or a
    request for [n] more characters that exceeds the maximum length. *)
Definition extends (s s' : StringBuffer) (n : Z) (p : list Z) : Prop :=
  sb_wf s' /\ (sb_ev s <= sb_ev s')%nat /\
  if error_status s'
  then error_status s = true \/ failed_between (sb_ev s) (sb_ev s') \/ JS_STRING_LEN_MAX < sb_len s + n
  else error_status s = false /\ sb_str s' = sb_str s ++ p.

Lemma failed_weaken m m' n n' : failed_between m n -> (m' <= m)%nat -> (n <= n')%nat -> failed_between m' n'.
Proof. intros (k & ? & ?) ? ?. exists k. split; [lia|done]. Qed.

Lemma extends_trans s s1 s2 n1 n2 p q :
  0 <= n2 -> len p <= n1 -> extends s s1 n1 p -> extends s1 s2 n2 q -> extends s s2 (n1 + n2) (p ++ q).
Proof.
  intros Hn2 Hp (W1 & V1 & E1) (W2 & V2 & E2). split; [done|]. split; [lia|].
  destruct (error_status s2).
  - destruct (error_status s1) eqn:Ee.
    + destruct E1 as [E1|[E1|E1]]; [by left|right; left|right; right; lia].
      by eapply failed_weaken.
    + destruct E1 as [_ E1]. destruct E2 as [E2|[E2|E2]]; [done|right; left|right; right].
      * by eapply failed_weaken.
      * rewrite E1, length_app in E2. lia.
  - destruct E2 as [E2 ->]. rewrite E2 in E1. destruct E1 as [E1 ->]. by rewrite app_assoc.
Qed.

Lemma extends_then s s1 s2 n p : 0 <= n -> extends s s1 n [] -> extends s1 s2 0 p -> extends s s2 n p.
Proof.
  intros Hn H1 H2. pose proof (extends_trans s s1 s2 n 0 [] p ltac:(lia) ltac:(cbn; lia) H1 H2) as H.
  by rewrite Z.add_0_r in H.
Qed.

Lemma extends_refl s n : sb_wf s -> 0 <= n -> extends s s n [].
Proof.
  intros Hs Hn. split; [done|]. split; [lia|]. destruct (error_status s); [by left|by rewrite app_nil_r].
Qed.

Lemma set_error_extends s n p (m : StringBuffer) :
  error_status s = false -> ext_ok (sb_ev s) = false ->
  extends s (snd (string_buffer_set_error s)) n p.
Proof.
  intros He Hf. split; [done|]. cbn. split; [lia|]. right. left. exists (sb_ev s). split; [lia|done].
Qed.

Lemma widen_spec s size : sb_wf s -> sb_len s <= size ->
  let '(err, s') := string_buffer_widen s size in
  extends s s' 0 [] /\ err = error_status s' /\ (err = false -> sb_wide s' = true /\ size <= sb_size s').
Proof.
  intros Hs Hsz. unfold string_buffer_widen. destruct (error_status s) eqn:He.
  - split; [by apply extends_refl|done].
  - destruct (ext_ok (sb_ev s)) eqn:Ho.
    + unfold sb_wf in Hs. rewrite He in Hs. destruct Hs as (H1 & H2 & H3).
      pose proof (Hslack (sb_ev s)). assert (0 <= slack (sb_ev s) >> 1) by by apply Z.shiftr_nonneg.
      split; [|split; [done|cbn; lia]].
      split; [split; [cbn; lia|done]|]. cbn. split; [lia|]. by rewrite app_nil_r.
    + split; [|done]. by apply set_error_extends.
Qed.

Lemma realloc_spec s n c : sb_wf s -> 0 <= n ->
  let '(err, s') := string_buffer_realloc s (sb_len s + n) c in
  extends s s' n [] /\ err = error_status s' /\
  (err = false -> sb_len s + n <= sb_size s' /\ (256 <= c -> sb_wide s' = true) /\
                  (sb_wide s = true -> sb_wide s' = true)).
Proof.
  intros Hs Hn. unfold string_buffer_realloc. destruct (error_status s) eqn:He.
  - split; [by apply extends_refl|done].
  - destruct (Z.ltb_spec JS_STRING_LEN_MAX (sb_len s + n)).
    { split; [|done]. split; [done|]. cbn. split; [lia|]. right. by right. }
    set (new_size := Z.min _ _). assert (sb_len s + n <= new_size) by lia.
    destruct (negb (sb_wide s) && (256 <=? c)) eqn:Ew.
    + pose proof (widen_spec s new_size Hs ltac:(lia)) as Hw.
      destruct (string_buffer_widen s new_size) as [err s']. destruct Hw as ((W1 & W2 & W3) & H2 & H3).
      split; [|split; [done|]].
      * split; [done|]. split; [done|]. destruct (error_status s'); [|done].
        destruct W3 as [W3|[W3|W3]]; [by left|by right; left|right; right; lia].
      * intros Hf. destruct (H3 Hf) as [-> ?]. split_and!; try done. lia.
    + destruct (ext_ok (sb_ev s)) eqn:Ho.
      * unfold sb_wf in Hs. rewrite He in Hs. destruct Hs as (H1 & H2 & H3).
        pose proof (Hslack (sb_ev s)).
        assert (0 <= slack (sb_ev s) >> b2z (sb_wide s)) by by apply Z.shiftr_nonneg.
        split; [|split; [done|]].
        -- split; [split; [cbn; lia|done]|]. cbn. split; [lia|]. by rewrite app_nil_r.
        -- intros _. cbn. split; [lia|]. destruct (sb_wide s); [done|]. cbn in Ew. split; [|done]. lia.
      * split; [|done]. by apply set_error_extends.
Qed.

(** Appending characters that fit, to a buffer wide enough for them. *)
Lemma append_extends s n p : sb_wf s -> error_status s = false -> 0 <= n ->
  sb_len s + len p <= sb_size s -> Forall (word 16) p -> (sb_wide s = false -> Forall (word 8) p) ->
  extends s (append s p) n p.
Proof.
  intros Hs He Hn Hf H16 H8. unfold sb_wf in Hs. rewrite He in Hs. destruct Hs as (H1 & H2 & H3).
  split; [|cbn; rewrite He; split; [lia|done]].
  unfold sb_wf. cbn. rewrite He. rewrite length_app. split; [lia|]. split; [by apply Forall_app|].
  intros Hw. apply Forall_app. auto.
Qed.

Lemma push_extends s n c : sb_wf s -> error_status s = false -> 0 <= n -> sb_len s < sb_size s ->
  word 16 c -> (sb_wide s = false -> word 8 c) -> extends s (push s c) n [c].
Proof.
  intros. apply append_extends; try done; [cbn; lia|by apply Forall_singleton|].
  intros. apply Forall_singleton. auto.
Qed.

Lemma word8_16 c : word 8 c -> word 16 c.
Proof. unfold word. lia. Qed.

Lemma ensure_spec s c : sb_wf s ->
  let '(err, s') := ensure s c in
  extends s s' 1 [] /\ err = error_status s' /\ (err = false -> sb_len s' < sb_size s').
Proof.
  intros Hs. unfold ensure. destruct (Z.leb_spec (sb_size s) (sb_len s)).
  - pose proof (realloc_spec s 1 c Hs ltac:(lia)) as H1.
    destruct (string_buffer_realloc s (sb_len s + 1) c) as [err s'].
    destruct H1 as (H1 & H2 & H3). split_and!; [done|done|]. intros Hf. destruct (H3 Hf) as [H4 _].
    destruct H1 as (_ & _ & H1). rewrite <- H2, Hf in H1. destruct H1 as [_ ->]. rewrite app_nil_r. lia.
  - split; [by apply extends_refl|]. unfold sb_wf in Hs.
    destruct (error_status s); [destruct Hs as [E1 E2]; rewrite E1, E2 in *; cbn in *; lia|done].
Qed.

Lemma then_push s s1 c : extends s s1 1 [] -> error_status s1 = false -> sb_len s1 < sb_size s1 ->
  word 16 c -> (sb_wide s1 = false -> word 8 c) -> extends s (push s1 c) 1 [c].
Proof.
  intros H1 He Hl Hc H8. replace 1 with (1 + 0) by lia. change [c] with ([] ++ [c]).
  eapply extends_trans; [lia|cbn; lia|done|]. apply push_extends; try done. by destruct H1.
Qed.

Lemma putc16_slow_spec s c : sb_wf s -> word 16 c ->
  extends s (snd (string_buffer_putc16_slow s c)) 1 [c] /\
  fst (string_buffer_putc16_slow s c) = error_status (snd (string_buffer_putc16_slow s c)).
Proof.
  intros Hs Hc. unfold string_buffer_putc16_slow. pose proof (ensure_spec s c Hs) as H1.
  destruct (ensure s c) as [err s1]. destruct H1 as (H1 & H2 & H3). destruct err.
  - cbn. split; [|done]. destruct H1 as (W1 & V1 & E1). split; [done|]. split; [done|].
    by rewrite <- H2 in *.
  - specialize (H3 eq_refl). symmetry in H2. assert (Hw1 : sb_wf s1) by by destruct H1.
    destruct (sb_wide s1) eqn:Ew.
    + cbn. rewrite wrap_small by done. split; [|done]. apply then_push; try done. by rewrite Ew.
    + destruct (Z.ltb_spec c 256).
      * cbn. rewrite wrap_small by (unfold word in *; lia). split; [|done].
        apply then_push; try done. unfold word in *. lia.
      * pose proof (widen_spec s1 (sb_size s1) Hw1 ltac:(lia)) as Hwd.
        destruct (string_buffer_widen s1 (sb_size s1)) as [err s2]. destruct Hwd as (D1 & D2 & D3).
        assert (D4 : extends s s2 1 []).
        { replace 1 with (1 + 0) by lia. change [] with ([] ++ [] : list Z).
          eapply extends_trans; [lia|cbn; lia|done|done]. }
        destruct err; cbn.
        -- split; [|done]. destruct D4 as (W4 & V4 & E4). split; [done|]. split; [done|].
           by rewrite <- D2 in *.
        -- rewrite wrap_small by done. destruct (D3 eq_refl) as [D5 D6]. split; [|done].
           apply then_push; try done; [|by rewrite D5].
           destruct D1 as (_ & _ & D1). rewrite <- D2 in D1. destruct D1 as [_ ->]. rewrite app_nil_r. lia.
Qed.

Lemma putc8_spec s c : sb_wf s -> word 8 c ->
  extends s (snd (string_buffer_putc8 s c)) 1 [c] /\
  fst (string_buffer_putc8 s c) = error_status (snd (string_buffer_putc8 s c)).
Proof.
  intros Hs Hc. unfold string_buffer_putc8. pose proof (ensure_spec s c Hs) as H1.
  destruct (ensure s c) as [err s1]. destruct H1 as (H1 & H2 & H3). destruct err.
  - cbn. split; [|done]. destruct H1 as (W1 & V1 & E1). split; [done|]. split; [done|].
    by rewrite <- H2 in *.
  - specialize (H3 eq_refl). symmetry in H2. pose proof (word8_16 c Hc).
    destruct (sb_wide s1); cbn; rewrite wrap_small by done; (split; [|done]); by apply then_push.
Qed.

Lemma putc16_spec s c : sb_wf s -> word 16 c ->
  extends s (snd (string_buffer_putc16 s c)) 1 [c] /\
  fst (string_buffer_putc16 s c) = error_status (snd (string_buffer_putc16 s c)).
Proof.
  intros Hs Hc. unfold string_buffer_putc16.
  destruct (error_status s) eqn:He.
  { pose proof Hs as Hs'. unfold sb_wf in Hs'. rewrite He in Hs'. destruct Hs' as [E1 E2].
    rewrite E1, E2. cbn [length Z.of_nat Z.ltb Z.compare andb]. by apply putc16_slow_spec. }
  destruct (Z.ltb_spec (sb_len s) (sb_size s)); cbn [andb]; [|by apply putc16_slow_spec].
  destruct (sb_wide s) eqn:Ew.
  - cbn. rewrite wrap_small by done. split; [|done]. apply push_extends; try done. by rewrite Ew.
  - destruct (Z.ltb_spec c 256); [|by apply putc16_slow_spec].
    cbn. rewrite wrap_small by (unfold word in *; lia). split; [|done].
    apply push_extends; try done. unfold word in *. lia.
Qed.

(** The code units of a code point. *)
Definition utf16 (c : Z) : list Z :=
  if 0x10000 <=? c then [get_hi_surrogate c; get_lo_surrogate c] else [c].

Lemma surrogates_word c : 0x10000 <= c < 0x110000 ->
  0xD800 <= get_hi_surrogate c < 0xDC00 /\ 0xDC00 <= get_lo_surrogate c < 0xE000.
Proof.
  intros Hc. unfold get_hi_surrogate, get_lo_surrogate. rewrite shiftr_div by lia.
  change (0x10000 >> 10) with 64. change 0x3FF with (2 ^ 10 - 1). rewrite land_ones_mod by lia.
  change (2 ^ 10) with 1024. change 0xDC00 with (55 * 2 ^ 10). pose proof (Z.mod_pos_bound c 1024).
  assert (64 <= c / 1024 < 64 + 1024).
  { split; [apply Z.div_le_lower_bound; lia|apply Z.div_lt_upper_bound; lia]. }
  rewrite wrap_small by (unfold word; lia). rewrite (tag_or 10 55) by (unfold word; lia). lia.
Qed.

Lemma putc_slow_spec s c : sb_wf s -> 0 <= c < 0x110000 ->
  extends s (snd (string_buffer_putc_slow s c)) 2 (utf16 c).
Proof.
  intros Hs Hc. unfold string_buffer_putc_slow, utf16. destruct (Z.leb_spec 0x10000 c).
  - destruct (surrogates_word c ltac:(lia)) as [Hh Hl].
    destruct (putc16_spec s (get_hi_surrogate c) Hs) as [P1 P2]; [unfold word; lia|].
    destruct (string_buffer_putc16 s (get_hi_surrogate c)) as [err s1]. cbn [fst snd] in P1, P2.
    change [get_hi_surrogate c; get_lo_surrogate c] with ([get_hi_surrogate c] ++ [get_lo_surrogate c]).
    change 2 with (1 + 1). destruct err; cbn [snd].
    + destruct P1 as (Wf & Vf & E). split; [done|]. split; [done|]. rewrite <- P2 in *.
      destruct E as [E|[E|E]]; [by left|by right; left|right; right; lia].
    + eapply extends_trans; [lia|cbn; lia|done|]. apply putc16_spec; [by destruct P1|unfold word; lia].
  - destruct (putc16_spec s c Hs) as [(Wf & Vf & E) _]; [unfold word; lia|].
    split; [done|]. split; [done|]. destruct (error_status _); [|done].
    destruct E as [E|[E|E]]; [by left|by right; left|right; right; lia].
Qed.

Lemma putc_spec s c : sb_wf s -> 0 <= c < 0x110000 ->
  extends s (snd (string_buffer_putc s c)) 2 (utf16 c).
Proof.
  intros Hs Hc. unfold string_buffer_putc.
  destruct (Z.ltb_spec (sb_len s) (sb_size s)) as [Hl|Hl]; [|by apply putc_slow_spec].
  assert (He : error_status s = false).
  { unfold sb_wf in Hs. destruct (error_status s); [|done]. destruct Hs as [E1 E2].
    rewrite E1, E2 in Hl. cbn in Hl. lia. }
  destruct (sb_wide s) eqn:Ew.
  - destruct (Z.ltb_spec c 0x10000).
    + unfold utf16. replace (0x10000 <=? c) with false by lia. cbn [snd].
      rewrite wrap_small by (unfold word; lia).
      apply push_extends; try done; [unfold word; lia|by rewrite Ew].
    + destruct (Z.ltb_spec (sb_len s + 1) (sb_size s)); [|by apply putc_slow_spec].
      unfold utf16. replace (0x10000 <=? c) with true by lia. cbn [snd].
      destruct (surrogates_word c ltac:(lia)) as [Hh Hlo].
      rewrite !wrap_small by (unfold word; lia). unfold push. cbn [sb_str]. rewrite <- app_assoc.
      apply (append_extends s 2 [_; _]); try done; [cbn; lia| |by rewrite Ew].
      repeat constructor; unfold word; lia.
  - destruct (Z.ltb_spec c 256); [|by apply putc_slow_spec].
    unfold utf16. replace (0x10000 <=? c) with false by lia. cbn [snd].
    rewrite wrap_small by (unfold word; lia). apply push_extends; try done; unfold word; lia.
Qed.

Lemma write8_spec s p : sb_wf s -> error_status s = false -> Forall (word 8) p ->
  extends s (snd (string_buffer_write8 s p)) (len p) p.
Proof.
  intros Hs He Hp. unfold string_buffer_write8.
  assert (H16 : Forall (word 16) p) by (eapply Forall_impl; [done|apply word8_16]).
  destruct (Z.ltb_spec (sb_size s) (sb_len s + len p)).
  - pose proof (realloc_spec s (len p) 0 Hs ltac:(lia)) as HR.
    destruct (string_buffer_realloc s (sb_len s + len p) 0) as [err s1]. destruct HR as (R1 & R2 & R3).
    destruct err; cbn [snd].
    + destruct R1 as (Wf & Vf & E). split; [done|]. split; [done|]. by rewrite <- R2 in *.
    + destruct (R3 eq_refl) as [R4 _]. symmetry in R2. pose proof R1 as (W1 & _ & E1).
      rewrite R2 in E1. destruct E1 as [_ E1]. rewrite app_nil_r in E1.
      eapply extends_then; [lia|done|]. apply append_extends; auto; [lia|by rewrite E1].
  - cbn [snd]. apply append_extends; auto. lia.
Qed.

Lemma foldl_lor_bound p : forall acc, 0 <= acc -> Forall (word 16) p ->
  foldl Z.lor acc p < 256 -> acc < 256 /\ Forall (word 8) p.
Proof.
  induction p as [|c p IH]; intros acc Ha Hp Hb; cbn in Hb; [split; [done|constructor]|].
  apply Forall_cons in Hp as [Hc Hp]. unfold word in Hc.
  assert (0 <= acc .| c) by (apply Z.lor_nonneg; lia).
  destruct (IH _ H Hp Hb) as [H1 H2].
  assert (H3 : forall x y, 0 <= x -> 0 <= y -> x .| y < 256 -> x < 256).
  { intros x y Hx Hy Hxy. destruct (Z.eq_dec x 0) as [->|]; [lia|].
    change 256 with (2 ^ 8) in *. apply Z.log2_lt_pow2; [lia|].
    assert (x .| y <> 0) by (intros E; apply Z.lor_eq_0_iff in E; lia).
    assert (0 <= x .| y) by (by apply Z.lor_nonneg).
    apply Z.log2_lt_pow2 in Hxy; [|lia]. rewrite Z.log2_lor in Hxy by lia. lia. }
  split; [by apply (H3 acc c); lia|]. constructor; [|done].
  rewrite Z.lor_comm in H1. split; [lia|]. change (2 ^ 8) with 256. by apply (H3 c acc); lia.
Qed.

Lemma map_u8 p : Forall (word 8) p -> map u8 p = p.
Proof. induction 1 as [|c p Hc Hp IH]; cbn; [done|]. rewrite IH. f_equal. by apply wrap_small. Qed.

Lemma write16_spec s p : sb_wf s -> error_status s = false -> Forall (word 16) p ->
  extends s (snd (string_buffer_write16 s p)) (len p) p.
Proof.
  intros Hs He Hp. unfold string_buffer_write16. set (c := foldl Z.lor 0 p).
  assert (H8 : c < 256 -> Forall (word 8) p).
  { intros Hc. by apply (foldl_lor_bound p 0). }
  set (r := if sb_size s <? _ then _ else _).
  assert (HR : extends s (snd r) (len p) [] /\ fst r = error_status (snd r) /\
    (fst r = false -> sb_len s + len p <= sb_size (snd r) /\ (256 <= c -> sb_wide (snd r) = true))).
  { unfold r. destruct (Z.ltb_spec (sb_size s) (sb_len s + len p)).
    - pose proof (realloc_spec s (len p) c Hs ltac:(lia)) as HR.
      destruct (string_buffer_realloc s (sb_len s + len p) c) as [err s1].
      destruct HR as (R1 & R2 & R3). split_and!; [done|done|]. intros Hf. by destruct (R3 Hf) as (? & ? & _).
    - destruct (negb (sb_wide s) && (256 <=? c)) eqn:Ew.
      + unfold sb_wf in Hs. pose proof Hs as Hs'. rewrite He in Hs'.
        pose proof (widen_spec s (sb_size s) Hs ltac:(lia)) as HW.
        destruct (string_buffer_widen s (sb_size s)) as [err s1]. destruct HW as (R1 & R2 & R3). cbn.
        split_and!; [|done|].
        * destruct R1 as (Wf & Vf & E). split; [done|]. split; [done|]. destruct (error_status s1); [|done].
          destruct E as [E|[E|E]]; [by left|by right; left|right; right; lia].
        * intros Hf. destruct (R3 Hf). split; [lia|done].
      + cbn. split_and!; [apply extends_refl; [done|lia]|done|]. intros _. split; [lia|].
        destruct (sb_wide s); [done|]. cbn in Ew. lia. }
  destruct r as [err s1]. cbn [fst snd] in HR. destruct HR as (R1 & R2 & R3). destruct err; cbn [snd].
  - destruct R1 as (Wf & Vf & E). split; [done|]. split; [done|]. by rewrite <- R2 in *.
  - destruct (R3 eq_refl) as [R4 R5]. symmetry in R2. pose proof R1 as (W1 & _ & E1).
    rewrite R2 in E1. destruct E1 as [_ E1]. rewrite app_nil_r in E1.
    replace (if sb_wide s1 then p else map u8 p) with p.
    2: { destruct (sb_wide s1); [done|]. rewrite map_u8; [done|]. apply H8. destruct (Z.lt_ge_cases c 256); [done|].
         discriminate R5. done. }
    eapply extends_then; [lia|done|]. apply append_extends; try done; [by rewrite E1|].
    intros Hw. apply H8. destruct (Z.lt_ge_cases c 256) as [|Hc]; [done|]. by rewrite R5 in Hw.
Qed.

(** The error state is kept by every operation. *)
Lemma error_extends s s' n p : sb_wf s -> error_status s = true ->
  sb_wf s' -> error_status s' = true -> (sb_ev s <= sb_ev s')%nat -> extends s s' n p.
Proof. intros. split; [done|]. split; [done|]. rewrite H2. by left. Qed.

Lemma error_state s : sb_wf s -> error_status s = true -> sb_str s = [] /\ sb_size s = 0.
Proof. unfold sb_wf. intros Hs He. by rewrite He in Hs. Qed.

Lemma write_error s p : sb_wf s -> error_status s = true ->
  snd (string_buffer_write8 s p) = s /\ snd (string_buffer_write16 s p) = s.
Proof.
  intros Hs He. destruct (error_state s Hs He) as [E1 E2].
  destruct s as [str size wide err ev]. cbn in *. subst.
  unfold string_buffer_write8, string_buffer_write16, string_buffer_realloc, append. cbn.
  destruct p; cbn; [|done]. rewrite andb_false_r. cbn. by destruct wide.
Qed.

Lemma write8_spec' s p : sb_wf s -> Forall (word 8) p ->
  extends s (snd (string_buffer_write8 s p)) (len p) p.
Proof.
  intros Hs Hp. destruct (error_status s) eqn:He; [|by apply write8_spec].
  destruct (write_error s p Hs He) as [-> _]. by apply error_extends.
Qed.

Lemma write16_spec' s p : sb_wf s -> Forall (word 16) p ->
  extends s (snd (string_buffer_write16 s p)) (len p) p.
Proof.
  intros Hs Hp. destruct (error_status s) eqn:He; [|by apply write16_spec].
  destruct (write_error s p Hs He) as [_ ->]. by apply error_extends.
Qed.

Lemma fill_loop_spec s c n : sb_wf s -> word 16 c ->
  extends s (snd (fill_loop s c n)) (Z.of_nat n) (replicate n c).
Proof.
  intros Hs Hc. revert s Hs. induction n as [|n IH]; intros s Hs; cbn [fill_loop].
  - apply extends_refl; [done|lia].
  - destruct (putc16_spec s c Hs Hc) as [P1 P2]. destruct (string_buffer_putc16 s c) as [err s1].
    cbn [fst snd] in *. replace (Z.of_nat (S n)) with (1 + Z.of_nat n) by lia.
    change (replicate (S n) c) with ([c] ++ replicate n c). destruct err; cbn [snd].
    + destruct P1 as (Wf & Vf & E). split; [done|]. split; [done|]. rewrite <- P2 in *.
      destruct E as [E|[E|E]]; [by left|by right; left|right; right; lia].
    + eapply extends_trans; [lia|cbn; lia|done|]. apply IH. by destruct P1.
Qed.

Lemma fill_spec s c n : sb_wf s -> word 16 c -> 0 <= n ->
  extends s (snd (string_buffer_fill s c n)) n (replicate (Z.to_nat n) c).
Proof.
  intros Hs Hc Hn. unfold string_buffer_fill. destruct (Z.ltb_spec (sb_size s) (sb_len s + n)).
  - pose proof (realloc_spec s n c Hs Hn) as HR.
    destruct (string_buffer_realloc s (sb_len s + n) c) as [err s1]. destruct HR as (R1 & R2 & _).
    destruct err; cbn [snd].
    + destruct R1 as (Wf & Vf & E). split; [done|]. split; [done|]. by rewrite <- R2 in *.
    + pose proof (fill_loop_spec s1 c (Z.to_nat n) (proj1 R1) Hc) as HF.
      symmetry in R2. destruct R1 as (W1 & V1 & E1). rewrite R2 in E1. destruct E1 as [E0 E1].
      rewrite app_nil_r in E1. destruct HF as (Wf & Vf & E). split; [done|]. split; [lia|].
      destruct (error_status (snd (fill_loop s1 c (Z.to_nat n)))); [|by rewrite <- E1; destruct E].
      destruct E as [E|[E|E]]; [congruence|right; left; by eapply failed_weaken|].
      right; right. rewrite <- E1. lia.
  - pose proof (fill_loop_spec s c (Z.to_nat n) Hs Hc) as HF. cbn [snd]. by rewrite Z2Nat.id in HF by done.
Qed.

Definition string_wf (p : JSString) : Prop :=
  Forall (word 16) (units p) /\ (is_wide_char p = false -> Forall (word 8) (units p)).

(** The characters of a substring. *)
Definition slice {A} (l : list A) (from to : Z) : list A :=
  take (Z.to_nat (to - from)) (drop (Z.to_nat from) l).

Lemma concat_spec s p from to : sb_wf s -> string_wf p -> 0 <= from -> to <= len (units p) ->
  extends s (snd (string_buffer_concat s p from to)) (Z.max 0 (to - from)) (slice (units p) from to).
Proof.
  intros Hs [H16 H8] Hf Ht. unfold string_buffer_concat, slice. destruct (Z.leb_spec to from).
  - replace (Z.to_nat (to - from)) with 0%nat by lia. rewrite take_0. apply extends_refl; [done|lia].
  - set (part := take _ _). assert (HL : Z.max 0 (to - from) = len part).
    { unfold part. rewrite length_take, length_drop. lia. }
    rewrite HL. destruct (is_wide_char p).
    + apply write16_spec'; [done|]. by apply Forall_take, Forall_drop.
    + apply write8_spec'; [done|]. apply Forall_take, Forall_drop. auto.
Qed.

(** A use of the buffer, with what it appends. *)
Inductive sb_op :=
  | Putc8 (c : Z) | Putc16 (c : Z) | Putc (c : Z)
  | Write8 (p : list Z) | Write16 (p : list Z)
  | Fill (c n : Z) | Concat (p : JSString) (from to : Z).

Definition sb_apply (o : sb_op) (s : StringBuffer) : StringBuffer :=
  snd match o with
  | Putc8 c => string_buffer_putc8 s c
  | Putc16 c => string_buffer_putc16 s c
  | Putc c => string_buffer_putc s c
  | Write8 p => string_buffer_write8 s p
  | Write16 p => string_buffer_write16 s p
  | Fill c n => string_buffer_fill s c n
  | Concat p from to => string_buffer_concat s p from to
  end.

Definition sb_valid (o : sb_op) : Prop :=
  match o with
  | Putc8 c => word 8 c
  | Putc16 c => word 16 c
  | Putc c => 0 <= c < 0x110000
  | Write8 p => Forall (word 8) p
  | Write16 p => Forall (word 16) p
  | Fill c n => word 16 c /\ 0 <= n
  | Concat p from to => string_wf p /\ 0 <= from /\ to <= len (units p)
  end.

Definition sb_text (o : sb_op) : list Z :=
  match o with
  | Putc8 c | Putc16 c => [c]
  | Putc c => utf16 c
  | Write8 p | Write16 p => p
  | Fill c n => replicate (Z.to_nat n) c
  | Concat p from to => slice (units p) from to
  end.

(** The room an operation asks for: [string_buffer_putc] asks for a pair at most. *)
Definition sb_room (o : sb_op) : Z :=
  match o with Putc _ => 2 | _ => len (sb_text o) end.

Lemma sb_apply_spec o s : sb_wf s -> sb_valid o -> extends s (sb_apply o s) (sb_room o) (sb_text o).
Proof.
  intros Hs Hv. destruct o; cbn in Hv; unfold sb_apply, sb_room, sb_text.
  - by apply putc8_spec.
  - by apply putc16_spec.
  - by apply putc_spec.
  - by apply write8_spec'.
  - by apply write16_spec'.
  - destruct Hv. rewrite length_replicate, Z2Nat.id by done. by apply fill_spec.
  - destruct Hv as (? & ? & ?). replace (len (slice (units p) from to)) with (Z.max 0 (to - from)).
    + by apply concat_spec.
    + unfold slice. rewrite length_take, length_drop. lia.
Qed.

Lemma sb_room_text o : sb_valid o -> len (sb_text o) <= sb_room o <= len (sb_text o) + 1.
Proof. destruct o; cbn; try lia. unfold utf16. case_match; cbn; lia. Qed.

Definition sb_run (os : list sb_op) (s : StringBuffer) : StringBuffer :=
  foldl (fun s o => sb_apply o s) s os.

Definition total_room (os : list sb_op) : Z := foldr (fun o n => sb_room o + n) 0 os.

Lemma total_room_nonneg os : Forall sb_valid os -> 0 <= total_room os.
Proof. induction 1 as [|o os Ho Hos IH]; cbn; [lia|]. pose proof (sb_room_text o Ho). unfold total_room in IH. lia. Qed.

Lemma sb_run_spec os : forall s, sb_wf s -> Forall sb_valid os ->
  extends s (sb_run os s) (total_room os) (concat (map sb_text os)).
Proof.
  induction os as [|o os IH]; intros s Hs Hos; [apply extends_refl; [done|cbn; lia]|].
  pose proof Hos as [Ho Hos']%Forall_cons. cbn.
  pose proof (sb_apply_spec o s Hs Ho) as H1. pose proof (sb_room_text o Ho).
  eapply extends_trans; [by apply total_room_nonneg|lia|done|]. apply IH; [by destruct H1|done].
Qed.

(** *** The width

    A buffer is widened only for a character that needs it, and never narrowed. *)

Definition needs_wide (p : list Z) : Prop := Exists (fun c => 256 <= c) p.

Definition widens (s s' : StringBuffer) (P : Prop) : Prop :=
  (sb_wide s = true -> sb_wide s' = true) /\ (sb_wide s' = true -> sb_wide s = true \/ P).

Lemma widens_refl s s' P : sb_wide s' = sb_wide s -> widens s s' P.
Proof. intros E. unfold widens. rewrite E. tauto. Qed.

Lemma widens_trans s s1 s2 P Q : widens s s1 P -> widens s1 s2 Q -> widens s s2 (P \/ Q).
Proof. unfold widens. tauto. Qed.

Lemma widens_weaken s s' (P Q : Prop) : widens s s' P -> (P -> Q) -> widens s s' Q.
Proof. unfold widens. tauto. Qed.

Lemma needs_one c : needs_wide [c] <-> 256 <= c.
Proof. unfold needs_wide. rewrite Exists_cons, Exists_nil. tauto. Qed.

Lemma needs_wide_app p q : needs_wide (p ++ q) <-> needs_wide p \/ needs_wide q.
Proof. apply Exists_app. Qed.

Lemma widen_widens s size (P : Prop) : P -> widens s (snd (string_buffer_widen s size)) P.
Proof.
  intros HP. unfold string_buffer_widen. destruct (error_status s); [by apply widens_refl|].
  destruct (ext_ok (sb_ev s)); [|by apply widens_refl]. split; [done|]. by right.
Qed.

Lemma realloc_widens s n c : widens s (snd (string_buffer_realloc s n c)) (256 <= c).
Proof.
  unfold string_buffer_realloc. destruct (error_status s); [by apply widens_refl|].
  destruct (JS_STRING_LEN_MAX <? n); [by apply widens_refl|].
  destruct (negb (sb_wide s) && (256 <=? c)) eqn:Ew; [apply widen_widens; lia|].
  destruct (ext_ok (sb_ev s)); by apply widens_refl.
Qed.

Lemma ensure_widens s c : widens s (snd (ensure s c)) (256 <= c).
Proof. unfold ensure. destruct (sb_size s <=? sb_len s); [apply realloc_widens|by apply widens_refl]. Qed.

Lemma putc16_slow_widens s c : widens s (snd (string_buffer_putc16_slow s c)) (256 <= c).
Proof.
  unfold string_buffer_putc16_slow. pose proof (ensure_widens s c) as H. destruct (ensure s c) as [err s1]. cbn [snd] in H.
  destruct err; [done|]. destruct (sb_wide s1) eqn:Ew; [exact H|]. destruct (Z.ltb_spec c 256) as [|Hc]; [exact H|].
  pose proof (widen_widens s1 (sb_size s1) (256 <= c) Hc) as H2. destruct (string_buffer_widen s1 (sb_size s1)) as [err s2].
  apply (widens_weaken _ _ (256 <= c \/ 256 <= c)); [|tauto]. eapply widens_trans; [exact H|]. by destruct err.
Qed.

Lemma putc8_widens s c : word 8 c -> widens s (snd (string_buffer_putc8 s c)) (256 <= c).
Proof.
  intros Hc. unfold string_buffer_putc8. pose proof (ensure_widens s c) as H. destruct (ensure s c) as [err s1].
  destruct err; [done|]. by destruct (sb_wide s1) eqn:E.
Qed.

Lemma putc16_widens s c : widens s (snd (string_buffer_putc16 s c)) (256 <= c).
Proof.
  unfold string_buffer_putc16. destruct (_ && _); [by apply widens_refl|]. destruct (_ && _); [by apply widens_refl|].
  apply putc16_slow_widens.
Qed.

Lemma putc_slow_widens s c : 0 <= c < 0x110000 -> widens s (snd (string_buffer_putc_slow s c)) (needs_wide (utf16 c)).
Proof.
  intros Hc. unfold string_buffer_putc_slow, utf16. destruct (Z.leb_spec 0x10000 c).
  - destruct (surrogates_word c ltac:(lia)) as [Hh Hl]. pose proof (putc16_widens s (get_hi_surrogate c)) as H1.
    destruct (string_buffer_putc16 s (get_hi_surrogate c)) as [err s1]. cbn [snd] in H1.
    assert (N : needs_wide [get_hi_surrogate c; get_lo_surrogate c]) by (apply Exists_cons; left; lia).
    destruct err; [by eapply widens_weaken|]. eapply widens_weaken; [eapply widens_trans; [exact H1|apply putc16_widens]|done].
  - eapply widens_weaken; [apply putc16_widens|apply needs_one].
Qed.

Lemma putc_widens s c : 0 <= c < 0x110000 -> widens s (snd (string_buffer_putc s c)) (needs_wide (utf16 c)).
Proof.
  intros Hc. unfold string_buffer_putc. destruct (sb_len s <? sb_size s); [|by apply putc_slow_widens].
  destruct (sb_wide s) eqn:Ew.
  - destruct (c <? 0x10000); [by apply widens_refl|]. destruct (_ <? _); [by apply widens_refl|by apply putc_slow_widens].
  - destruct (c <? 256); [by apply widens_refl|by apply putc_slow_widens].
Qed.

Lemma write8_widens s p : widens s (snd (string_buffer_write8 s p)) False.
Proof.
  unfold string_buffer_write8. destruct (sb_size s <? sb_len s + len p); [|by apply widens_refl].
  pose proof (realloc_widens s (sb_len s + len p) 0) as H. destruct (string_buffer_realloc s (sb_len s + len p) 0) as [err s1].
  apply (widens_weaken _ _ (256 <= 0)); [|lia]. by destruct err.
Qed.

Lemma foldl_lor_word p : forall acc, 0 <= acc < 256 -> Forall (word 8) p -> foldl Z.lor acc p < 256.
Proof.
  induction p as [|c p IH]; intros acc Ha Hp; cbn; [lia|]. apply Forall_cons in Hp as [Hc Hp]. apply IH; [|done].
  unfold word in Hc. split; [apply Z.lor_nonneg; lia|]. change 256 with (2 ^ 8) in *.
  destruct (Z.eq_dec (acc .| c) 0) as [->|]; [lia|]. apply Z.log2_lt_pow2; [assert (0 <= acc .| c) by (apply Z.lor_nonneg; lia); lia|].
  rewrite Z.log2_lor by lia. destruct (Z.eq_dec acc 0) as [->|]; destruct (Z.eq_dec c 0) as [->|]; cbn [Z.log2];
    repeat match goal with |- context [Z.log2 ?x] => assert (Z.log2 x < 8) by (apply Z.log2_lt_pow2; lia); generalize dependent (Z.log2 x); intros end; lia.
Qed.

Lemma lor_needs_wide p : Forall (word 16) p -> 256 <= foldl Z.lor 0 p -> needs_wide p.
Proof.
  intros Hp H. destruct (decide (Forall (word 8) p)) as [H8|H8]; [pose proof (foldl_lor_word p 0 ltac:(lia) H8); lia|].
  apply not_Forall_Exists in H8; [|apply _]. unfold needs_wide. rewrite Exists_exists in H8 |- *. destruct H8 as (c & Hin & Hc).
  exists c. split; [done|]. rewrite Forall_forall in Hp. specialize (Hp c Hin). cbn in Hc. unfold word in *. lia.
Qed.

Lemma write16_widens s p : Forall (word 16) p -> widens s (snd (string_buffer_write16 s p)) (needs_wide p).
Proof.
  intros Hp. unfold string_buffer_write16. set (c := foldl Z.lor 0 p).
  set (r := if sb_size s <? _ then _ else _). assert (H : widens s (snd r) (256 <= c)).
  { unfold r. destruct (_ <? _); [apply realloc_widens|]. destruct (negb (sb_wide s) && (256 <=? c)) eqn:E; [|by apply widens_refl].
    apply widen_widens. lia. }
  destruct r as [err s1]. eapply widens_weaken; [|by apply lor_needs_wide]. by destruct err.
Qed.

Lemma fill_loop_widens c n : forall s, widens s (snd (fill_loop s c n)) (needs_wide (replicate n c)).
Proof.
  induction n as [|n IH]; intros s; cbn [fill_loop]; [by apply widens_refl|].
  pose proof (putc16_widens s c) as H. destruct (string_buffer_putc16 s c) as [err s1]. cbn [snd] in H.
  apply (widens_weaken _ _ (256 <= c \/ needs_wide (replicate n c))); [|by intros ?; apply Exists_cons].
  destruct err; [eapply widens_weaken; [exact H|tauto]|]. eapply widens_trans; [exact H|apply IH].
Qed.

Lemma fill_widens s c n : sb_wf s -> 0 <= n -> widens s (snd (string_buffer_fill s c n)) (needs_wide (replicate (Z.to_nat n) c)).
Proof.
  intros Hs Hn. unfold string_buffer_fill. destruct (Z.ltb_spec (sb_size s) (sb_len s + n)) as [Hl|Hl]; [|apply fill_loop_widens].
  assert (Hp : 0 < n). { unfold sb_wf in Hs. destruct (error_status s); destruct Hs as [H1 H2]; [rewrite H1, H2 in Hl; cbn in Hl; lia|lia]. }
  pose proof (realloc_widens s (sb_len s + n) c) as H. destruct (string_buffer_realloc s (sb_len s + n) c) as [err s1]. cbn [snd] in H.
  assert (N : 256 <= c -> needs_wide (replicate (Z.to_nat n) c)).
  { intros Hc. destruct (Z.to_nat n) as [|k] eqn:Ek; [lia|]. by apply Exists_cons; left. }
  destruct err; [by eapply widens_weaken|]. eapply widens_weaken; [eapply widens_trans; [exact H|apply fill_loop_widens]|tauto].
Qed.

Lemma apply_widens o s : sb_wf s -> sb_valid o -> widens s (sb_apply o s) (needs_wide (sb_text o)).
Proof.
  intros Hs Hv. destruct o; cbn in Hv; unfold sb_apply, sb_text.
  - eapply widens_weaken; [by apply putc8_widens|apply needs_one].
  - eapply widens_weaken; [by apply putc16_widens|apply needs_one].
  - by apply putc_widens.
  - eapply widens_weaken; [apply write8_widens|done].
  - by apply write16_widens.
  - destruct Hv. by apply fill_widens.
  - destruct Hv as ([H16 _] & _ & _). unfold string_buffer_concat, slice. destruct (to <=? from); [by apply widens_refl|].
    destruct (is_wide_char p); [by apply write16_widens, Forall_take, Forall_drop|].
    eapply widens_weaken; [apply write8_widens|done].
Qed.

Lemma run_widens os : forall s, sb_wf s -> Forall sb_valid os -> widens s (sb_run os s) (needs_wide (concat (map sb_text os))).
Proof.
  induction os as [|o os IH]; intros s Hs Hos; [by apply widens_refl|]. pose proof Hos as [Ho Hos']%Forall_cons. cbn [map concat sb_run foldl].
  eapply widens_weaken; [|apply needs_wide_app]. eapply widens_trans; [by apply apply_widens|].
  apply IH; [by destruct (sb_apply_spec o s Hs Ho)|done].
Qed.
End buffer.

(** ** Conversions *)

(** The characters that [JS_NewStringLen] reads from bytes. *)
Fixpoint decode_units (fuel : nat) (p : list Z) : list Z :=
  match fuel, p with
  | S fuel, b :: p' =>
      if b <? 128 then b :: decode_units fuel p'
      else
        match unicode_from_utf8 p (len p) with
        | Some (c, next) =>
            if c <? 0x10000 then c :: decode_units fuel next
            else if c <=? 0x10FFFF
            then get_hi_surrogate c :: get_lo_surrogate c :: decode_units fuel next
            else 0xfffd :: decode_units fuel (skip_invalid p)
        | None => 0xfffd :: decode_units fuel (skip_invalid p)
        end
  | _, _ => []
  end.

Lemma skip_continuation_le p : (length (skip_continuation p) <= length p)%nat /\
  (bytes p -> bytes (skip_continuation p)).
Proof.
  induction p as [|c p IH]; cbn; [done|]. case_match; [|done]. split; [lia|].
  intros Hb. apply Forall_cons in Hb as [_ Hb]. by apply IH.
Qed.

Lemma skip_invalid_lt b p : (length (skip_invalid (b :: p)) < length (b :: p))%nat /\
  (bytes (b :: p) -> bytes (skip_invalid (b :: p))).
Proof.
  unfold skip_invalid. destruct (skip_continuation_le (b :: p)) as [H1 H2].
  destruct (skip_continuation (b :: p)) as [|x q]; [split; [cbn; lia|constructor]|].
  destruct (skip_continuation_le q) as [H3 H4]. cbn in *. split; [lia|].
  intros Hb. apply H2 in Hb. apply Forall_cons in Hb as [_ Hb]. by apply H4.
Qed.

Lemma from_utf8_next p c next : bytes p -> unicode_from_utf8 p (len p) = Some (c, next) ->
  0 <= c < 2 ^ 31 /\ (length next < length p)%nat /\ bytes next.
Proof.
  intros Hp E. assert (1 <= len p) by (destruct p; [done|cbn; lia]).
  apply to_from_utf8 in E as (Hc & -> & _); [|done|done].
  destruct (unicode_to_utf8_bytes c Hc) as [_ HL]. apply Forall_app in Hp as [_ Hp].
  rewrite length_app. split_and!; [lia|lia|lia|done].
Qed.

Lemma decode_word fuel p : bytes p -> Forall (word 16) (decode_units fuel p).
Proof.
  revert p. induction fuel as [|fuel IH]; intros p Hp; [constructor|].
  destruct p as [|b p]; [constructor|]. cbn [decode_units].
  assert (Hinv : Forall (word 16) (0xfffd :: decode_units fuel (skip_invalid (b :: p)))).
  { constructor; [unfold word; lia|]. apply IH. by apply skip_invalid_lt. }
  destruct (Z.ltb_spec b 128).
  - apply Forall_cons in Hp as [Hb Hp]. unfold byte in Hb. constructor; [by apply word8_16|by apply IH].
  - destruct (unicode_from_utf8 (b :: p) (len (b :: p))) as [[c next]|] eqn:E; [|done].
    destruct (from_utf8_next _ _ _ Hp E) as (Hc & _ & Hb).
    destruct (Z.ltb_spec c 0x10000).
    { constructor; [unfold word; lia|by apply IH]. }
    destruct (Z.leb_spec c 0x10FFFF); [|done]. destruct (surrogates_word c ltac:(lia)) as [? ?].
    constructor; [unfold word; lia|]. constructor; [unfold word; lia|by apply IH].
Qed.

(** Any fuel at least the number of bytes gives the same characters. *)
Lemma decode_fuel n : forall m p, bytes p -> (length p <= n)%nat -> (length p <= m)%nat ->
  decode_units n p = decode_units m p.
Proof.
  induction n as [|n IH]; intros m p Hp Hn Hm.
  - destruct p; [by destruct m|cbn in Hn; lia].
  - destruct p as [|b p]; [by destruct m|]. destruct m as [|m]; [cbn in Hm; lia|].
    cbn [decode_units]. destruct (skip_invalid_lt b p) as [S1 S2]. specialize (S2 Hp).
    destruct (b <? 128); [f_equal; apply IH; [by apply Forall_cons in Hp as [_ ?]|cbn in *; lia..]|].
    assert (Hinv : decode_units n (skip_invalid (b :: p)) = decode_units m (skip_invalid (b :: p))).
    { apply IH; [done|cbn in *; lia..]. }
    destruct (unicode_from_utf8 (b :: p) (len (b :: p))) as [[c next]|] eqn:E; [|by rewrite Hinv].
    destruct (from_utf8_next _ _ _ Hp E) as (_ & HL & Hb).
    assert (Hnext : decode_units n next = decode_units m next) by (apply IH; [done|cbn in *; lia..]).
    by rewrite Hinv, Hnext.
Qed.

Lemma decode_ascii_prefix p : bytes p ->
  decode_units (length p) p =
  take (count_ascii p) p ++ decode_units (length p) (drop (count_ascii p) p).
Proof.
  induction p as [|b p IH]; intros Hp; [done|]. cbn [length count_ascii].
  destruct (b <? 128) eqn:Eb; [|done]. apply Forall_cons in Hp as [_ Hp].
  cbn [take drop app].
  rewrite (decode_fuel (S (length p)) (length p) (drop (count_ascii p) p));
    [|by apply Forall_drop|rewrite length_drop; lia..].
  rewrite <- IH by done. cbn [decode_units]. by rewrite Eb.
Qed.

Lemma count_ascii_le p : (count_ascii p <= length p)%nat.
Proof. induction p as [|b p IH]; cbn; [done|]. case_match; lia. Qed.

Lemma count_ascii_all p : count_ascii p = length p -> Forall (fun b => b < 128) p.
Proof. induction p as [|b p IH]; cbn; [done|]. destruct (Z.ltb_spec b 128); [|done]. intros. constructor; auto. Qed.

Section conversions.
Context {W : World} {Sl : Slack} (Hslack : forall n, 0 <= slack n).

Lemma new_string_loop_spec fuel : forall p s, sb_wf s -> bytes p ->
  extends s (new_string_loop fuel p s) (len (decode_units fuel p)) (decode_units fuel p).
Proof.
  induction fuel as [|fuel IH]; intros p s Hs Hp; [apply extends_refl; [done|cbn; lia]|].
  destruct p as [|b p]; [apply extends_refl; [done|cbn; lia]|]. cbn [new_string_loop decode_units].
  assert (Hcons : forall c q s', 0 <= len q -> extends s s' 1 [c] ->
    (forall s', sb_wf s' -> extends s' (new_string_loop fuel q s') (len (decode_units fuel q)) (decode_units fuel q)) ->
    extends s (new_string_loop fuel q s') (len (c :: decode_units fuel q)) (c :: decode_units fuel q)).
  { intros c q s' _ H1 H2. replace (len (c :: decode_units fuel q)) with (1 + len (decode_units fuel q)) by (cbn; lia).
    change (c :: decode_units fuel q) with ([c] ++ decode_units fuel q).
    eapply extends_trans; [lia|cbn; lia|done|]. apply H2. by destruct H1. }
  assert (Hinv : extends s (new_string_loop fuel (skip_invalid (b :: p)) (snd (string_buffer_putc16 s 0xfffd)))
    (len (0xfffd :: decode_units fuel (skip_invalid (b :: p)))) (0xfffd :: decode_units fuel (skip_invalid (b :: p)))).
  { apply Hcons; [lia|apply putc16_spec; [done..|unfold word; lia]|]. intros. apply IH; [done|by apply skip_invalid_lt]. }
  destruct (Z.ltb_spec b 128).
  - apply Forall_cons in Hp as [Hb Hp]. apply Hcons; [lia|by apply putc8_spec|]. intros. by apply IH.
  - destruct (unicode_from_utf8 (b :: p) (len (b :: p))) as [[c next]|] eqn:E; [|done].
    destruct (from_utf8_next _ _ _ Hp E) as (Hc & _ & Hb). destruct (Z.ltb_spec c 0x10000).
    { apply Hcons; [lia|apply putc16_spec; [done..|unfold word; lia]|]. intros. by apply IH. }
    destruct (Z.leb_spec c 0x10FFFF); [|done]. destruct (surrogates_word c ltac:(lia)) as [? ?].
    set (hi := get_hi_surrogate c) in *. set (lo := get_lo_surrogate c) in *.
    destruct (putc16_spec Hslack s hi Hs) as [P1 _]; [unfold word; lia|].
    set (s1 := snd (string_buffer_putc16 s hi)) in *.
    destruct (putc16_spec Hslack s1 lo (proj1 P1)) as [P2 _]; [unfold word; lia|].
    replace (len (hi :: lo :: decode_units fuel next)) with (1 + (1 + len (decode_units fuel next))) by (cbn; lia).
    change (hi :: lo :: decode_units fuel next) with ([hi] ++ [lo] ++ decode_units fuel next).
    eapply extends_trans; [lia|cbn; lia|done|]. eapply extends_trans; [lia|cbn; lia|done|].
    apply IH; [by destruct P2|done].
Qed.

(** The result of [JS_NewStringLen]: the decoded characters, unless memory runs out or the
    string is too long. *)
Lemma new_string_spec buf ev : bytes buf -> len buf < 2 ^ 31 ->
  match JS_NewStringLen buf ev with
  | Some str => units str = decode_units (length buf) buf /\ string_wf str
  | None => (exists k, (ev <= k)%nat /\ ext_ok k = false) \/
            JS_STRING_LEN_MAX < len (decode_units (length buf) buf)
  end.
Proof.
  intros Hb Hlen. pose proof (count_ascii_le buf) as Hc. unfold JS_NewStringLen.
  pose proof (decode_ascii_prefix buf Hb) as Hpre.
  destruct (Z.ltb_spec JS_STRING_LEN_MAX (Z.of_nat (count_ascii buf))).
  { right. rewrite Hpre, length_app, length_take. lia. }
  assert (H8 : Forall (word 8) (take (count_ascii buf) buf)) by (by apply Forall_take).
  destruct (Nat.eqb_spec (count_ascii buf) (length buf)) as [E|E].
  - rewrite E, firstn_all, drop_all in Hpre.
    assert (Hd : decode_units (length buf) buf = buf).
    { rewrite Hpre. destruct (length buf); cbn; by rewrite app_nil_r. }
    unfold js_new_string8_len. destruct (Z.leb_spec (len buf) 0).
    + destruct buf; [|cbn in *; lia]. split; [done|]. split; cbn; [constructor|intros; constructor].
    + destruct (ext_ok ev) eqn:Eo.
      * cbn. rewrite Hd. split; [done|]. split; cbn; [|done].
        eapply Forall_impl; [exact Hb|apply word8_16].
      * left. exists ev. done.
  - unfold string_buffer_init, string_buffer_init2. rewrite swrap_small by (unfold sword; lia).
    replace (0 <=? len buf) with true by lia. destruct (ext_ok ev) eqn:Eo; [|left; by exists ev].
    cbn [andb]. set (s0 := mkSB [] (len buf) false false (S ev)).
    assert (W0 : sb_wf s0).
    { unfold sb_wf. cbn. split; [lia|]. split; [constructor|intros; constructor]. }
    pose proof (write8_spec' Hslack s0 (take (count_ascii buf) buf) W0 H8) as P1.
    set (s1 := snd (string_buffer_write8 s0 _)) in *.
    pose proof (new_string_loop_spec (length buf) (drop (count_ascii buf) buf) s1 (proj1 P1)
      ltac:(by apply Forall_drop)) as P2.
    set (s2 := new_string_loop _ _ s1) in *.
    pose proof (extends_trans s0 s1 s2 _ _ _ _ (Zle_0_nat _) (Z.le_refl _) P1 P2) as P. rewrite <- Hpre in P.
    destruct P as (Wf & Vf & Ef). unfold string_buffer_end.
    destruct (error_status s2) eqn:Es2.
    + destruct Ef as [Ef|[(k & Hk & Hf)|Ef]]; [done|left; exists k; cbn in Hk; split; [lia|done]|].
      right. cbn in Ef. rewrite Hpre, length_app. lia.
    + destruct Ef as [_ Ef]. cbn [sb_str s0 app] in Ef. unfold sb_wf in Wf. rewrite Es2, Ef in Wf.
      destruct Wf as (_ & W16 & W8). rewrite Ef.
      destruct (Z.eqb_spec (len (decode_units (length buf) buf)) 0) as [E0|E0].
      * destruct (decode_units (length buf) buf); [|cbn in E0; lia]. split; [done|].
        split; cbn; [constructor|intros; constructor].
      * split; [done|]. split; [done|]. intros Hw. apply W8. exact Hw.
Qed.
End conversions.

(** *** Round trip *)

Lemma unicode_to_utf8_head c : 128 <= c < 2 ^ 31 ->
  exists b l, unicode_to_utf8 c = b :: l /\ 128 <= b.
Proof.
  intros Hc. destruct (utf8_class c Hc) as (l & Hl & Hlc). rewrite (to_utf8_class l c Hl Hlc).
  pose proof (min_code_pos l Hl). eexists _, _. split; [done|].
  destruct (first_byte l (c / 2 ^ (6 * Z.of_nat l)) Hl) as (_ & F & _); [|done].
  apply class_chunk; [done|lia].
Qed.

Lemma decode_code_point c rest fuel : 128 <= c <= 0x10FFFF ->
  (length (unicode_to_utf8 c ++ rest) <= S fuel)%nat ->
  decode_units (S fuel) (unicode_to_utf8 c ++ rest) = utf16 c ++ decode_units fuel rest.
Proof.
  intros Hc Hf. destruct (unicode_to_utf8_head c ltac:(lia)) as (b & l & E & Hb).
  pose proof (from_to_utf8 c rest (len (unicode_to_utf8 c ++ rest)) ltac:(lia)
    ltac:(rewrite length_app; lia)) as Hd.
  rewrite E in *. cbn [app decode_units] in *. replace (b <? 128) with false by lia. rewrite Hd.
  unfold utf16. destruct (Z.ltb_spec c 0x10000).
  - by replace (0x10000 <=? c) with false by lia.
  - replace (0x10000 <=? c) with true by lia. by replace (c <=? 0x10FFFF) with true by lia.
Qed.

Lemma unicode_to_utf8_nonempty c : 0 <= c < 2 ^ 31 -> (1 <= length (unicode_to_utf8 c))%nat.
Proof. intros Hc. destruct (unicode_to_utf8_bytes c Hc) as [_ ?]. lia. Qed.

Lemma decode_step c rest fuel u : 128 <= c <= 0x10FFFF ->
  (length (unicode_to_utf8 c ++ rest) <= fuel)%nat ->
  (forall f, (length rest <= f)%nat -> decode_units f rest = u) ->
  decode_units fuel (unicode_to_utf8 c ++ rest) = utf16 c ++ u.
Proof.
  intros Hc Hf Hu. pose proof (unicode_to_utf8_nonempty c ltac:(lia)). rewrite length_app in Hf.
  destruct fuel as [|fuel]; [lia|]. rewrite decode_code_point by (rewrite ?length_app; lia).
  by rewrite Hu by lia.
Qed.

Lemma decode_wide n : forall u cesu8 fuel, (length u <= n)%nat -> Forall (word 16) u ->
  (length (wide_to_utf8 u cesu8) <= fuel)%nat -> decode_units fuel (wide_to_utf8 u cesu8) = u.
Proof.
  induction n as [|n IH]; intros u cesu8 fuel Hn Hu Hf.
  { destruct u; [by destruct fuel|cbn in Hn; lia]. }
  destruct u as [|c u]; [by destruct fuel|]. apply Forall_cons in Hu as [Hc Hu]. cbn in Hn.
  cbn [wide_to_utf8] in *. unfold word in Hc. destruct (Z.ltb_spec c 128).
  - destruct fuel as [|fuel]; [cbn in Hf; lia|]. cbn [decode_units].
    replace (c <? 128) with true by lia. f_equal. apply IH; [lia|done|cbn in Hf; lia].
  - assert (Hone : forall f, (length (unicode_to_utf8 c ++ wide_to_utf8 u cesu8) <= f)%nat ->
      decode_units f (unicode_to_utf8 c ++ wide_to_utf8 u cesu8) = c :: u).
    { intros f Hlf. rewrite (decode_step _ _ _ u); [|lia|done|intros; apply IH; [lia|done|done]].
      unfold utf16. by replace (0x10000 <=? c) with false by lia. }
    destruct u as [|c1 u]; [by apply Hone|].
    destruct (is_hi_surrogate c && negb cesu8 && is_lo_surrogate c1) eqn:Es; [|by apply Hone].
    apply andb_prop in Es as [[Eh _]%andb_prop El].
    apply hi_surrogate_range in Eh. apply lo_surrogate_range in El.
    destruct (surrogate_value c c1 Eh El) as [_ Hv]. destruct (surrogate_split c c1 Eh El) as [S1 S2].
    apply Forall_cons in Hu as [_ Hu]. cbn in Hn.
    rewrite (decode_step _ _ _ u); [|lia|done|intros; apply IH; [lia|done|done]].
    unfold utf16. replace (0x10000 <=? _) with true by lia. by rewrite S1, S2.
Qed.

Lemma latin1_unicode c : word 8 c -> latin1_to_utf8 c = unicode_to_utf8 c.
Proof.
  unfold word, latin1_to_utf8. intros Hc. change (2 ^ 8) with 256 in Hc.
  destruct (Z.ltb_spec c 128); [by rewrite to_utf8_ascii by lia|].
  unfold unicode_to_utf8. replace (c <? 128) with false by lia. replace (c <? 2048) with true by lia.
  f_equal. rewrite wrap_small; [done|]. change 0xc0 with (6 * 2 ^ 5). rewrite shiftr_div by lia.
  assert (0 <= c / 2 ^ 6 < 2 ^ 5) by (split; [apply Z.div_pos; lia|apply Z.div_lt_upper_bound; lia]).
  rewrite tag_or by (unfold word; lia). unfold word. lia.
Qed.

Lemma latin1_wide u : Forall (word 8) u -> concat (map latin1_to_utf8 u) = wide_to_utf8 u true.
Proof.
  induction 1 as [|c u Hc Hu IH]; [done|]. cbn [map concat wide_to_utf8].
  rewrite latin1_unicode, IH by done. destruct (Z.ltb_spec c 128).
  - unfold word in Hc. by rewrite to_utf8_ascii by lia.
  - destruct u; [done|]. by rewrite andb_false_r.
Qed.

Lemma count_zero_ascii u : Forall (word 8) u -> count_non_ascii u = 0 ->
  concat (map latin1_to_utf8 u) = u.
Proof.
  intros Hu. assert (Hnn : forall l, Forall (word 8) l -> 0 <= count_non_ascii l).
  { induction 1 as [|c l Hc Hl IH]; cbn; [lia|]. unfold word in Hc. pose proof (proj2 (Z.shiftr_nonneg c 7) ltac:(lia)).
    unfold count_non_ascii in IH. lia. }
  induction Hu as [|c u Hc Hu IH]; [done|]. cbn. intros E. pose proof (Hnn u Hu).
  unfold word in Hc. pose proof (proj2 (Z.shiftr_nonneg c 7) ltac:(lia)).
  unfold count_non_ascii in *. assert (E7 : c >> 7 = 0) by lia.
  rewrite shiftr_div in E7 by lia. apply Z.div_small_iff in E7; [|lia]. change (2 ^ 7) with 128 in E7.
  rewrite IH by lia. unfold latin1_to_utf8. by replace (c <? 128) with true by lia.
Qed.

(** The bytes of a C string are the encoding of the characters. *)
Lemma to_cstring_spec str cesu8 ev {W : World} s : string_wf str ->
  JS_ToCStringLen2 str cesu8 ev = Some s -> exists c, s = wide_to_utf8 (units str) c.
Proof.
  intros [H16 H8]. unfold JS_ToCStringLen2. destruct (is_wide_char str); cbn [negb].
  - destruct (ext_ok ev); [|done]. intros [= <-]. by exists cesu8.
  - specialize (H8 eq_refl). destruct (Z.eqb_spec (count_non_ascii (units str)) 0) as [E|E].
    + intros [= <-]. exists true. by rewrite <- latin1_wide, count_zero_ascii.
    + destruct (ext_ok ev); [|done]. intros [= <-]. exists true. by apply latin1_wide.
Qed.

Lemma wide_to_utf8_bytes n : forall u cesu8, (length u <= n)%nat -> Forall (word 16) u ->
  bytes (wide_to_utf8 u cesu8).
Proof.
  induction n as [|n IH]; intros u cesu8 Hn Hu.
  { destruct u; [constructor|cbn in Hn; lia]. }
  destruct u as [|c u]; [constructor|]. apply Forall_cons in Hu as [Hc Hu]. cbn in Hn.
  cbn [wide_to_utf8]. unfold word in Hc. destruct (Z.ltb_spec c 128).
  - constructor; [unfold byte, word; lia|]. apply IH; [lia|done].
  - assert (Hone : bytes (unicode_to_utf8 c ++ wide_to_utf8 u cesu8)).
    { apply Forall_app. split; [by apply unicode_to_utf8_bytes; lia|]. apply IH; [lia|done]. }
    destruct u as [|c1 u]; [done|]. destruct (_ && _) eqn:Es; [|done].
    apply andb_prop in Es as [[Eh _]%andb_prop El].
    apply hi_surrogate_range in Eh. apply lo_surrogate_range in El.
    destruct (surrogate_value c c1 Eh El) as [_ Hv].
    apply Forall_app. split; [by apply unicode_to_utf8_bytes; lia|].
    apply IH; [cbn in Hn; lia|]. by apply Forall_cons in Hu as [_ ?].
Qed.

(** *** Order *)

Fixpoint units_compare (p1 p2 : list Z) : comparison :=
  match p1, p2 with
  | [], [] => Eq
  | [], _ => Lt
  | _, [] => Gt
  | c1 :: p1, c2 :: p2 => match c1 ?= c2 with Eq => units_compare p1 p2 | c => c end
  end.

Lemma memcmp_compare p1 : forall p2,
  let res := js_string_memcmp p1 p2 (Nat.min (length p1) (length p2)) in
  Z.sgn (if res =? 0 then
    if (length p1 =? length p2)%nat then 0 else if (length p1 <? length p2)%nat then -1 else 1
    else res) = match units_compare p1 p2 with Lt => -1 | Eq => 0 | Gt => 1 end.
Proof.
  induction p1 as [|c1 p1 IH]; intros [|c2 p2]; try done. cbn [length Nat.min js_string_memcmp units_compare].
  destruct (Z.compare_spec c1 c2) as [->|Hl|Hg].
  - rewrite Z.eqb_refl. apply IH.
  - replace (c1 =? c2) with false by lia. cbv zeta. replace (c1 - c2 =? 0) with false by lia. lia.
  - replace (c1 =? c2) with false by lia. cbv zeta. replace (c1 - c2 =? 0) with false by lia. lia.
Qed.

Lemma units_compare_eq p1 : forall p2, units_compare p1 p2 = Eq <-> p1 = p2.
Proof.
  induction p1 as [|c1 p1 IH]; intros [|c2 p2]; try done. cbn.
  destruct (Z.compare_spec c1 c2) as [->|Hl|Hg].
  - rewrite IH. split; [by intros ->|by intros [= ->]].
  - split; [done|]. intros [= -> _]. lia.
  - split; [done|]. intros [= -> _]. lia.
Qed.

Section theorems.
Context {W : World} {Sl : Slack}.


(** C24: strings survive UTF-8.  Encoding a string with [JS_ToCStringLen2] (as UTF-8 or
    CESU-8, lone surrogates included) and decoding the bytes with [JS_NewStringLen] gives
    a string with the same code units; the decoding can only fail for lack of memory. *)
Theorem string_utf8_roundtrip str cesu8 ev s ev' :
  (forall n, 0 <= slack n) -> string_wf str -> len (units str) <= JS_STRING_LEN_MAX ->
  JS_ToCStringLen2 str cesu8 ev = Some s -> len s < 2 ^ 31 ->
  match JS_NewStringLen s ev' with
  | Some str' => units str' = units str
  | None => exists k, (ev' <= k)%nat /\ ext_ok k = false
  end.
Proof.
  intros Hsl Hwf Hmax E Hs. destruct (to_cstring_spec _ _ _ _ Hwf E) as [c ->].
  destruct Hwf as [H16 _]. set (u := units str) in *.
  pose proof (new_string_spec Hsl (wide_to_utf8 u c) ev' (wide_to_utf8_bytes _ u c (Nat.le_refl _) H16) Hs) as H.
  rewrite (decode_wide (length u)) in H by done.
  destruct (JS_NewStringLen (wide_to_utf8 u c) ev'); [by destruct H|].
  destruct H as [H|H]; [done|lia].
Qed.

(** String comparison.  [js_string_compare] has the sign of the lexicographic order
    of the code units and [js_string_eq] is equality of the code units, whatever the
    widths of the two representations. *)
Theorem js_string_order p1 p2 :
  Z.sgn (js_string_compare p1 p2) =
    match units_compare (units p1) (units p2) with Lt => -1 | Eq => 0 | Gt => 1 end /\
  (js_string_eq p1 p2 = true <-> units p1 = units p2).
Proof.
  split; [apply memcmp_compare|]. unfold js_string_eq.
  pose proof (memcmp_compare (units p1) (units p2)) as H. cbv zeta in H.
  rewrite <- units_compare_eq. destruct (Nat.eqb_spec (length (units p1)) (length (units p2))) as [E|E].
  - rewrite E in H |- *. rewrite Nat.min_id in H.
    destruct (Z.eqb_spec (js_string_memcmp (units p1) (units p2) (length (units p2))) 0) as [E0|E0].
    + destruct (units_compare _ _); done.
    + destruct (units_compare _ _); split; try done; lia.
  - split; [done|]. intros Hc. apply units_compare_eq in Hc. by rewrite Hc in E.
Qed.
End theorems.

#[local] Instance healthy : World := fun _ => true.
#[local] Instance exact : Slack := fun _ => 0.

(** A valid character that follows a stray continuation byte is lost. *)
Lemma new_string_swallows :
  units <$> JS_NewStringLen [0x80; 0x41; 0x42] 0 = Some [0xFFFD; 0x42].
Proof. vm_compute. reflexivity. Qed.


Lemma string_utf8_roundtrip_witness :
  match JS_NewStringLen [0xF0; 0x9F; 0x98; 0x80; 0xED; 0xA0; 0x80; 0x41] 0 with
  | Some str' => units str' = [0xD83D; 0xDE00; 0xD800; 0x41]
  | None => exists k, (0 <= k)%nat /\ ext_ok k = false
  end.
Proof.
  apply (string_utf8_roundtrip (mkString true [0xD83D; 0xDE00; 0xD800; 0x41]) false 0
    [0xF0; 0x9F; 0x98; 0x80; 0xED; 0xA0; 0x80; 0x41] 0).
  - intros n. vm_compute. discriminate.
  - split; [repeat constructor; vm_compute; congruence|intros H; discriminate H].
  - vm_compute. discriminate.
  - vm_compute. reflexivity.
  - vm_compute. reflexivity.
Defined.
