(* ===== verification/Ropes.v ===== *)
(** * String ropes

    The lazy concatenation of [src/quickjs/quickjs.c]: [JS_ConcatString] builds a tree
    ([JSStringRope]) instead of copying long strings, [js_rebalancee_string_rope] bounds
    the depth of the tree, and the readers walk it ([string_rope_get],
    [js_string_rope_compare], [js_linearize_string_rope]).

    The tree is modelled over an interface of its leaves ([Leaf]), which the engine's
    strings implement; another implementation, which only records a length, serves to
    compute with very long strings. *)
From S2P Require Export Strings.

(** The outcome of a routine: a value or an exception after some allocations, the
    exhaustion of the native stack by a recursion that does not end, or an access out of
    the bounds of an array (or a failed assertion). *)
Inductive out (A : Type) :=
  | Done (r : A + exn) (ev : nat)
  | StackOverflow
  | OutOfBounds.
Arguments Done {A} r ev.
Arguments StackOverflow {A}.
Arguments OutOfBounds {A}.

Definition R (A : Type) : Type := nat -> out A.
Definition rret {A} (x : A) : R A := Done (inl x).
Definition rthrow {A} (e : exn) : R A := Done (inr e).
Definition lift {A} (m : M A) : R A := fun ev => let '(r, ev) := m ev in Done r ev.
Definition rbind {A B} (m : R A) (f : A -> R B) : R B := fun ev =>
  match m ev with
  | Done (inl x) ev => f x ev
  | Done (inr e) ev => Done (inr e) ev
  | StackOverflow => StackOverflow
  | OutOfBounds => OutOfBounds
  end.
(** The exception as a value. *)
Definition rcatch {A} (m : R A) : R (A + exn) := fun ev =>
  match m ev with
  | Done r ev => Done (inl r) ev
  | StackOverflow => StackOverflow
  | OutOfBounds => OutOfBounds
  end.

Declare Scope rope_scope.
Notation "x <-- m ;; k" := (rbind m (fun x => k))
  (at level 100, m at next level, right associativity) : rope_scope.
Notation "'let*' p := m 'in' k" := (rbind m (fun x => match x with p => k end))
  (at level 10, p strict pattern, m at level 200, k at level 200) : rope_scope.
Open Scope rope_scope.

(** Flat strings, as the ropes use them. *)
Class Leaf (S : Type) := {
  leaf_len : S -> Z;
  leaf_wide : S -> bool;
  leaf_units : S -> list Z;
  leaf_empty : S;
  leaf_concat : S -> S -> M S;
}.

Definition JS_STRING_ROPE_SHORT_LEN : Z := 512.
Definition JS_STRING_ROPE_SHORT2_LEN : Z := 8192.
Definition JS_STRING_ROPE_MAX_DEPTH : Z := 60.

(** Fibonacci numbers from [F_2] on. *)
Definition rope_bucket_len : list Z :=
  [ 1; 2; 3; 5; 8; 13; 21; 34; 55; 89; 144; 233; 377; 610; 987; 1597; 2584; 4181; 6765;
    10946; 17711; 28657; 46368; 75025; 121393; 196418; 317811; 514229; 832040; 1346269;
    2178309; 3524578; 5702887; 9227465; 14930352; 24157817; 39088169; 63245986;
    102334155; 165580141; 267914296; 433494437; 701408733; 1134903170 ].
Definition ROPE_N_BUCKETS : nat := 44.

Section ropes.
Context {S : Type} `{Leaf S} {W : World}.

(** A string value: a flat string, or a node with its fields [len], [is_wide_char],
    [depth], [l] and [r]. *)
Inductive Rope :=
  | Str (p : S)
  | Node (len : Z) (is_wide_char : bool) (depth : Z) (left_ right_ : Rope).

Definition string_rope_get_len (val : Rope) : Z :=
  match val with Str p => leaf_len p | Node len _ _ _ _ => len end.
Definition rope_wide (val : Rope) : bool :=
  match val with Str p => leaf_wide p | Node _ w _ _ _ => w end.
Definition rope_depth (val : Rope) : Z :=
  match val with Str _ => 0 | Node _ _ d _ _ => d end.

Definition js_new_string_rope (rebalance : Rope -> R Rope) (op1 op2 : Rope) : R Rope :=
  let len := u32 (string_rope_get_len op1 + string_rope_get_len op2) in
  let is_wide_char := rope_wide op1 || rope_wide op2 in
  let depth := Z.max (rope_depth op1) (rope_depth op2) in
  if JS_STRING_LEN_MAX <? len then rthrow (InternalError "string too long")
  else
    _ <-- lift js_alloc ;;
    let r := Node len is_wide_char (u8 (depth + 1)) op1 op2 in
    if JS_STRING_ROPE_MAX_DEPTH <? u8 (depth + 1) then rebalance r else rret r.

Abbreviation buckets := (list (option Rope)).

Section rebalance.
Context (new_rope : Rope -> Rope -> R Rope).

(** The first loop of [js_rebalancee_string_rope_rec]: it empties the buckets of the
    strings shorter than [len] into [a]. *)
Fixpoint collect (n i : nat) (len : Z) (a : option Rope) (bs : buckets) :
    R ((option Rope * nat + exn) * buckets) :=
  match n with
  | O => fun _ => OutOfBounds
  | Datatypes.S n =>
      match rope_bucket_len !! Datatypes.S i, bs !! i with
      | Some next, Some b =>
          if len <? next then rret (inl (a, i), bs)
          else match b, a with
          | None, _ => collect n (Datatypes.S i) len a bs
          | Some b, None => collect n (Datatypes.S i) len (Some b) (<[i := None]> bs)
          | Some b, Some a =>
              r <-- rcatch (new_rope b a) ;;
              match r with
              | inl a => collect n (Datatypes.S i) len (Some a) (<[i := None]> bs)
              | inr e => rret (inr e, <[i := None]> bs)
              end
          end
      | _, _ => fun _ => OutOfBounds
      end
  end.

(** The second loop: [a] goes to the first free bucket from [i] on. *)
Fixpoint place (n i : nat) (a : Rope) (bs : buckets) : R (option exn * buckets) :=
  match n with
  | O => fun _ => OutOfBounds
  | Datatypes.S n =>
      match bs !! i with
      | None => fun _ => OutOfBounds
      | Some None => rret (None, <[i := Some a]> bs)
      | Some (Some b) =>
          r <-- rcatch (new_rope b a) ;;
          match r with
          | inl a => place n (Datatypes.S i) a (<[i := None]> bs)
          | inr e => rret (Some e, <[i := None]> bs)
          end
      end
  end.

(** The result is the error of a flat string; the recursive calls drop theirs. *)
Fixpoint js_rebalancee_string_rope_rec (val : Rope) (bs : buckets) : R (option exn * buckets) :=
  match val with
  | Str p =>
      if leaf_len p =? 0 then rret (None, bs)
      else
        let* (c, bs) := collect ROPE_N_BUCKETS 0 (leaf_len p) None bs in
        match c with
        | inr e => rret (Some e, bs)
        | inl (Some a, i) =>
            r <-- rcatch (new_rope a val) ;;
            match r with
            | inl a => place ROPE_N_BUCKETS i a bs
            | inr e => rret (Some e, bs)
            end
        | inl (None, i) => place ROPE_N_BUCKETS i val bs
        end
  | Node _ _ _ l r =>
      let* (_, bs) := js_rebalancee_string_rope_rec l bs in
      let* (_, bs) := js_rebalancee_string_rope_rec r bs in
      rret (None, bs)
  end.

(** The final loop of [js_rebalancee_string_rope]. *)
Fixpoint join (bs : buckets) (a : option Rope) : R (option Rope) :=
  match bs with
  | [] => rret a
  | None :: bs => join bs a
  | Some b :: bs =>
      match a with
      | None => join bs (Some b)
      | Some a => a <-- new_rope b a ;; join bs (Some a)
      end
  end.

Definition rebalance_body (rope : Rope) : R Rope :=
  let* (err, bs) := js_rebalancee_string_rope_rec rope (replicate ROPE_N_BUCKETS None) in
  match err with
  | Some e => rthrow e
  | None =>
      a <-- join bs None ;;
      rret (match a with Some a => a | None => Str leaf_empty end)
  end.
End rebalance.

(** [js_rebalancee_string_rope] calls [js_new_string_rope], which may call it again;
    [fuel] is the number of nested calls that the native stack has room for. *)
Fixpoint js_rebalancee_string_rope (fuel : nat) (rope : Rope) : R Rope :=
  match fuel with
  | O => fun _ => StackOverflow
  | Datatypes.S fuel =>
      rebalance_body (js_new_string_rope (js_rebalancee_string_rope fuel)) rope
  end.

Definition new_string_rope (fuel : nat) : Rope -> Rope -> R Rope :=
  js_new_string_rope (js_rebalancee_string_rope fuel).

Definition concat_flat (p1 p2 : S) : R Rope := r <-- lift (leaf_concat p1 p2) ;; rret (Str r).

(** [JS_ConcatString] on two strings. *)
Definition JS_ConcatString (fuel : nat) (op1 op2 : Rope) : R Rope :=
  match op1, op2 with
  | _, Str p2 =>
      if leaf_len p2 =? 0 then rret op1
      else if leaf_len p2 <=? JS_STRING_ROPE_SHORT_LEN then
        match op1 with
        | Str p1 =>
            if leaf_len p1 <=? JS_STRING_ROPE_SHORT2_LEN then concat_flat p1 p2
            else new_string_rope fuel op1 op2
        | Node _ _ _ l (Str r) =>
            if leaf_len r <=? JS_STRING_ROPE_SHORT_LEN then
              val <-- concat_flat r p2 ;; new_string_rope fuel l val
            else new_string_rope fuel op1 op2
        | _ => new_string_rope fuel op1 op2
        end
      else new_string_rope fuel op1 op2
  | Str p1, Node _ _ _ (Str l) r =>
      if leaf_len p1 =? 0 then rret op2
      else if leaf_len l <=? JS_STRING_ROPE_SHORT_LEN then
        val <-- concat_flat p1 l ;; new_string_rope fuel val r
      else new_string_rope fuel op1 op2
  | Str p1, _ => if leaf_len p1 =? 0 then rret op2 else new_string_rope fuel op1 op2
  | _, _ => new_string_rope fuel op1 op2
  end.

(** ** Reading a rope *)

Fixpoint string_rope_get (val : Rope) (idx : Z) : Z :=
  match val with
  | Str p => leaf_units p !!! Z.to_nat idx
  | Node _ _ _ l r =>
      let len := string_rope_get_len l in
      if idx <? len then string_rope_get l idx else string_rope_get r (idx - len)
  end.

(** [string_rope_iter_next] from the value popped from the stack, the top of the stack
    being the head of the list; [None] when the stack is full. *)
Fixpoint descend (val : Rope) (stack : list Rope) : option (S * list Rope) :=
  match val with
  | Str p => Some (p, stack)
  | Node _ _ _ l r =>
      if len stack <? JS_STRING_ROPE_MAX_DEPTH then descend l (r :: stack) else None
  end.

Definition string_rope_iter_next (stack : list Rope) : option (option S * list Rope) :=
  match stack with
  | [] => Some (None, [])
  | val :: stack => '(p, stack) ← descend val stack; Some (Some p, stack)
  end.

(** One step of an iterator of [js_string_rope_compare] that has read [l] characters. *)
Definition advance (p : S) (pos l : Z) (it : list Rope) : option (option S * Z * list Rope) :=
  let pos := pos + l in
  if leaf_len p <=? pos
  then '(q, it) ← string_rope_iter_next it; Some (q, 0, it)
  else Some (Some p, pos, it).

(** The loop; [None] if it does not end or reads through a null pointer. *)
Fixpoint rope_compare_loop (fuel : nat) (n : Z) (p1 : option S) (pos1 : Z) (it1 : list Rope)
    (p2 : option S) (pos2 : Z) (it2 : list Rope) : option Z :=
  if n =? 0 then Some 0
  else match fuel, p1, p2 with
  | Datatypes.S fuel, Some p1, Some p2 =>
      let l := Z.min (Z.min (leaf_len p1 - pos1) (leaf_len p2 - pos2)) n in
      let res := js_string_memcmp (drop (Z.to_nat pos1) (leaf_units p1))
                   (drop (Z.to_nat pos2) (leaf_units p2)) (Z.to_nat l) in
      if negb (res =? 0) then Some res
      else
        '(p1, pos1, it1) ← advance p1 pos1 l it1;
        '(p2, pos2, it2) ← advance p2 pos2 l it2;
        rope_compare_loop fuel (n - l) p1 pos1 it1 p2 pos2 it2
  | _, _, _ => None
  end.

Fixpoint leaves (val : Rope) : nat :=
  match val with Str _ => 1 | Node _ _ _ l r => leaves l + leaves r end.

Definition js_string_rope_compare (op1 op2 : Rope) (eq_only : bool) : option Z :=
  let len1 := string_rope_get_len op1 in
  let len2 := string_rope_get_len op2 in
  if eq_only && negb (len1 =? len2) then Some 1
  else
    '(p1, it1) ← string_rope_iter_next [op1];
    '(p2, it2) ← string_rope_iter_next [op2];
    res ← rope_compare_loop (leaves op1 + leaves op2) (Z.min len1 len2) p1 0 it1 p2 0 it2;
    Some (if negb (res =? 0) then res
          else if len1 =? len2 then 0 else if len1 <? len2 then -1 else 1).
End ropes.

Arguments Rope : clear implicits.

(** ** The engine's strings *)
Section strings.
Context {W : World} {Sl : Slack}.

(** The space in bytes that the allocation of the string reached at event [n] has for
    characters, when it has a single reference. *)
Class InPlace := usable_size : nat -> option Z.
Context {Ip : InPlace}.

Definition js_alloc_string : M unit := js_alloc.

(** [JS_ConcatString1]. *)
Definition JS_ConcatString1 (p1 p2 : JSString) : M JSString :=
  let n := u32 (len (units p1) + len (units p2)) in
  if JS_STRING_LEN_MAX <? n then throw (InternalError "string too long")
  else js_alloc_string ;;;
    ret (mkString (is_wide_char p1 || is_wide_char p2) (units p1 ++ units p2)).

(** [JS_ConcatStringInPlace]: the string [p1] once [p2] is appended, when it fits. *)
Definition JS_ConcatStringInPlace (p1 p2 : JSString) (ev : nat) : option JSString :=
  if len (units p2) =? 0 then Some p1
  else match usable_size ev with
  | None => None
  | Some size =>
      let n := len (units p1) + len (units p2) in
      if is_wide_char p1 then
        if n << 1 <=? size then Some (mkString true (units p1 ++ units p2)) else None
      else if negb (is_wide_char p2) then
        if n + 1 <=? size then Some (mkString false (units p1 ++ units p2)) else None
      else None
  end.

Definition JS_ConcatString2 (p1 p2 : JSString) : M JSString := fun ev =>
  match JS_ConcatStringInPlace p1 p2 ev with
  | Some p => ret p ev
  | None => JS_ConcatString1 p1 p2 ev
  end.

#[global] Instance js_string_leaf : Leaf JSString := {|
  leaf_len p := len (units p);
  leaf_wide := is_wide_char;
  leaf_units := units;
  leaf_empty := mkString false [];
  leaf_concat := JS_ConcatString2
|}.

(** [string_buffer_concat_value] on a string. *)
Fixpoint string_buffer_concat_value (s : StringBuffer) (v : Rope JSString) : bool * StringBuffer :=
  if error_status s then (true, s)
  else match v with
  | Str p => string_buffer_concat s p 0 (len (units p))
  | Node _ _ _ l r =>
      let '(err, s) := string_buffer_concat_value s l in
      if err then (true, s) else string_buffer_concat_value s r
  end.

(** The string and the rope that remains, which keeps the string when it is [shared]. *)
Definition js_linearize_string_rope (rope : Rope JSString) (shared : bool) (ev : nat) :
    option (Rope JSString) * Rope JSString :=
  match rope with
  | Str p => (Some rope, rope)
  | Node n wide d l r =>
      if match r with Str p => len (units p) =? 0 | _ => false end then (Some l, rope)
      else
        let '(err, b) := string_buffer_init2 n wide ev in
        if err then (None, rope)
        else
          let '(err, b) := string_buffer_concat_value b rope in
          if err then (None, rope)
          else match string_buffer_end b with
          | Some s =>
              (Some (Str s), if shared then Node n wide d (Str s) (Str (mkString false [])) else rope)
          | None => (None, rope)
          end
  end.
End strings.

(** ** The text of a rope *)

(** The interface of the flat strings. *)
Class LeafLaws (S : Type) `{Leaf S} `{World} := {
  leaf_wf : S -> Prop;
  leaf_len_units p : leaf_len p = len (leaf_units p);
  leaf_empty_ok : leaf_wf leaf_empty /\ leaf_units leaf_empty = [];
  leaf_concat_ok p1 p2 ev : leaf_wf p1 -> leaf_wf p2 ->
    leaf_len p1 + leaf_len p2 < 2 ^ 32 ->
    post (leaf_concat p1 p2) ev
      (fun p => leaf_wf p /\ leaf_units p = leaf_units p1 ++ leaf_units p2)
      (fun e => e = InternalError "string too long" /\
         JS_STRING_LEN_MAX < leaf_len p1 + leaf_len p2)
}.

Definition B (i : nat) : Z := rope_bucket_len !!! i.

(** The lengths below which a rebalancing never nests. *)
Definition balanced_limit : Z := 2178309.

Section text.
Context {S : Type} `{HL : Leaf S} {W : World} `{HW : !LeafLaws S}.

Fixpoint rope_text (val : Rope S) : list Z :=
  match val with Str p => leaf_units p | Node _ _ _ l r => rope_text l ++ rope_text r end.

Definition is_str (val : Rope S) : bool := match val with Str _ => true | _ => false end.

(** An empty right part marks a linearized rope, whose left part is the string. *)
Definition tail_ok (l r : Rope S) : Prop :=
  match r with Str p => leaf_len p = 0 -> is_str l = true | Node _ _ _ _ _ => True end.

(** The fields of the nodes are the ones of their text; the depth is an upper bound, since
    a linearized rope keeps its old one. *)
Fixpoint rope_wf (val : Rope S) : Prop :=
  match val with
  | Str p => leaf_wf p
  | Node n wide d l r => rope_wf l /\ rope_wf r /\ n = len (rope_text l ++ rope_text r) /\
      n <= JS_STRING_LEN_MAX /\ ((rope_wide l || rope_wide r = true -> wide = true) /\ tail_ok l r) /\
      Z.max (rope_depth l) (rope_depth r) + 1 <= d
  end.

Definition shallow (val : Rope S) : Prop := rope_depth val <= JS_STRING_ROPE_MAX_DEPTH.

Lemma rope_get_len_text val : rope_wf val -> string_rope_get_len val = len (rope_text val).
Proof. destruct val; cbn; [intros; apply leaf_len_units|intros (_ & _ & -> & _); done]. Qed.

Lemma rope_depth_nonneg val : rope_wf val -> 0 <= rope_depth val.
Proof.
  induction val as [p|n wide d l IHl r IHr]; cbn; [done|].
  intros (Hl & Hr & _ & _ & _ & Hd). specialize (IHl Hl). lia.
Qed.

Lemma leaf_len_nonneg p : 0 <= leaf_len p.
Proof. rewrite leaf_len_units. lia. Qed.

Definition otext (a : option (Rope S)) : list Z := from_option rope_text [] a.

(** The text in the buckets: the later buckets hold the earlier text. *)
Fixpoint btext (bs : list (option (Rope S))) : list Z :=
  match bs with [] => [] | b :: bs => btext bs ++ otext b end.

Lemma btext_insert bs : forall i x, (i < length bs)%nat ->
  (forall k, (k < i)%nat -> bs !! k = Some None) ->
  btext (<[i := x]> bs) = btext (<[i := None]> bs) ++ otext x.
Proof.
  induction bs as [|b bs IH]; intros i x Hi Hb; [cbn in Hi; lia|].
  destruct i as [|i]; [cbn; by rewrite app_nil_r|].
  pose proof (Hb 0%nat ltac:(lia)) as [= ->]. cbn. rewrite !app_nil_r.
  apply IH; [cbn in Hi; lia|]. intros k Hk. apply (Hb (Datatypes.S k)). lia.
Qed.

Lemma btext_none bs : (forall k, (k < length bs)%nat -> bs !! k = Some None) -> btext bs = [].
Proof.
  induction bs as [|b bs IH]; intros Hb; [done|]. cbn.
  pose proof (Hb 0%nat ltac:(cbn; lia)) as [= ->].
  rewrite IH; [done|]. intros k Hk. apply (Hb (Datatypes.S k)). cbn. lia.
Qed.

Lemma btext_length bs i b : bs !! i = Some (Some b) -> len (rope_text b) <= len (btext bs).
Proof.
  revert i. induction bs as [|b' bs IH]; intros [|i] E; [done|done| |]; cbn in E.
  - injection E as ->. cbn. rewrite length_app. lia.
  - cbn. rewrite length_app. specialize (IH i E). lia.
Qed.

Lemma btext_clear bs i b : bs !! i = Some (Some b) ->
  len (btext (<[i := None]> bs)) + len (rope_text b) = len (btext bs).
Proof.
  revert i. induction bs as [|b' bs IH]; intros [|i] E; [done|done| |]; cbn in E.
  - injection E as ->. cbn. rewrite !length_app. cbn. lia.
  - change (<[Datatypes.S i := None]> (b' :: bs)) with (b' :: <[i := None]> bs). cbn [btext].
    rewrite !length_app. specialize (IH i E). lia.
Qed.

Lemma btext_set bs i a : bs !! i = Some None ->
  len (btext (<[i := Some a]> bs)) = len (btext bs) + len (rope_text a).
Proof.
  revert i. induction bs as [|b' bs IH]; intros [|i] E; [done|done| |]; cbn in E.
  - injection E as ->. cbn. rewrite !length_app. cbn. lia.
  - change (<[Datatypes.S i := Some a]> (b' :: bs)) with (b' :: <[i := Some a]> bs). cbn [btext].
    rewrite !length_app. specialize (IH i E). lia.
Qed.

Lemma B_double i : (i < 43)%nat -> B (Datatypes.S i) <= 2 * B i.
Proof.
  intros Hi. assert (Forall (fun i => B (Datatypes.S i) <= 2 * B i) (seq 0 43)) as HF.
  { apply Forall_forall. intros x Hx. revert x Hx. apply Forall_forall. vm_compute. repeat constructor; discriminate. }
  rewrite Forall_forall in HF. apply HF, elem_of_seq. lia.
Qed.

Lemma bucket_len_pos i : (i < 44)%nat -> 1 <= B i.
Proof.
  intros Hi. assert (Forall (fun i => 1 <= B i) (seq 0 44)) as HF.
  { vm_compute. repeat constructor; discriminate. }
  rewrite Forall_forall in HF. apply HF, elem_of_seq. lia.
Qed.

Lemma B_bound i n : (i < 44)%nat -> B i <= n -> n < B 43 -> (i <= 42)%nat.
Proof.
  intros Hi Hb Hn. destruct (decide (i = 43%nat)) as [->|]; [lia|lia].
Qed.

Lemma B_balanced i n : (i < 44)%nat -> B i <= n -> n < balanced_limit -> (i <= 29)%nat.
Proof.
  intros Hi Hb Hn. destruct (decide (i <= 29)%nat) as [|Hi']; [done|].
  assert (Forall (fun i => balanced_limit <= B i) (seq 30 14)) as HF.
  { vm_compute. repeat constructor; discriminate. }
  rewrite Forall_forall in HF. specialize (HF i ltac:(apply elem_of_seq; lia)). lia.
Qed.
End text.

(** ** Rebalancing

    One proof for two regimes: [lossy] says that allocations may fail, [bounded] that
    the text is shorter than [balanced_limit], which keeps every depth below the limit. *)
Section rebalance_proof.
Context {S : Type} `{HL : Leaf S} {W : World} `{HW : !LeafLaws S}.
Context (lossy bounded : Prop) (Hlossy : lossy \/ ~ lossy).

(** What [js_new_string_rope] gives. *)
Definition joined (a b r : Rope S) : Prop :=
  rope_wf r /\ shallow r /\ rope_text r = rope_text a ++ rope_text b /\
  (bounded -> rope_depth r = Z.max (rope_depth a) (rope_depth b) + 1).

Definition new_rope_ok (new_rope : Rope S -> Rope S -> R (Rope S)) : Prop :=
  forall a b ev, rope_wf a -> rope_wf b -> shallow a -> shallow b ->
  len (rope_text a) + len (rope_text b) <= JS_STRING_LEN_MAX -> 1 <= len (rope_text b) ->
  (bounded -> Z.max (rope_depth a) (rope_depth b) + 1 <= JS_STRING_ROPE_MAX_DEPTH) ->
  match new_rope a b ev with
  | Done (inl r) _ => joined a b r
  | Done (inr _) _ => lossy
  | StackOverflow => ~ bounded
  | OutOfBounds => False
  end.

Context (new_rope : Rope S -> Rope S -> R (Rope S)) (Hnew : new_rope_ok new_rope).

(** A bucket holds a rope of at least its length, of a depth that fits. *)
Definition bucket_ok (k : nat) (r : Rope S) : Prop :=
  rope_wf r /\ shallow r /\ B k <= len (rope_text r) /\ (bounded -> rope_depth r <= 2 * Z.of_nat k).

Definition buckets_ok (bs : list (option (Rope S))) : Prop :=
  length bs = ROPE_N_BUCKETS /\ forall k r, bs !! k = Some (Some r) -> bucket_ok k r.

Definition empty_below (i : nat) (bs : list (option (Rope S))) : Prop :=
  forall k, (k < i)%nat -> bs !! k = Some None.

(** The text [n] characters long that is distributed fits in a string. *)
Definition fits (n : Z) : Prop :=
  n <= JS_STRING_LEN_MAX /\ (bounded -> n < balanced_limit).

Lemma buckets_ok_none bs i : buckets_ok bs -> buckets_ok (<[i := None]> bs).
Proof.
  intros [Hl Hb]. split; [by rewrite length_insert|]. intros k r E.
  apply list_lookup_insert_Some in E as [(_ & ? & _)|[_ E]]; [done|by apply Hb].
Qed.

Lemma buckets_ok_some bs i r : buckets_ok bs -> bucket_ok i r -> buckets_ok (<[i := Some r]> bs).
Proof.
  intros [Hl Hb] Hr. split; [by rewrite length_insert|]. intros k r' E.
  apply list_lookup_insert_Some in E as [(<- & [= <-] & _)|[_ E]]; [done|by apply Hb].
Qed.

Lemma empty_below_S i (bs : list (option (Rope S))) : (i < length bs)%nat -> empty_below i bs ->
  empty_below (Datatypes.S i) (<[i := None]> bs).
Proof.
  intros Hi Hb k Hk. destruct (decide (k = i)) as [->|]; [by apply list_lookup_insert_eq|].
  rewrite list_lookup_insert_ne by done. apply Hb. lia.
Qed.

Lemma empty_below_skip i bs : bs !! i = Some None -> empty_below i bs -> empty_below (Datatypes.S i) bs.
Proof. intros E Hb k Hk. destruct (decide (k = i)) as [->|]; [done|]. apply Hb. lia. Qed.

(** The prefix that the first loop has gathered before bucket [i]. *)
Definition prefix_ok (i : nat) (a : option (Rope S)) : Prop :=
  match a with
  | None => True
  | Some a => rope_wf a /\ shallow a /\ 1 <= len (rope_text a) /\
      (bounded -> rope_depth a <= 2 * Z.of_nat i - 1)
  end.

Lemma fits_bucket i n (r : Rope S) : (i < 44)%nat -> bucket_ok i r -> len (rope_text r) <= n -> fits n ->
  bounded -> (i <= 29)%nat.
Proof.
  intros Hi (_ & _ & Hr & _) Hn [_ Hf] HB. specialize (Hf HB). apply (B_balanced i (len (rope_text r))); lia.
Qed.

(** Joining a bucket to the prefix. *)
Lemma prefix_join i b a n ev : (i < 44)%nat -> bucket_ok i b -> prefix_ok i (Some a) ->
  len (rope_text b) + len (rope_text a) <= n -> fits n ->
  match new_rope b a ev with
  | Done (inl r) _ => prefix_ok (Datatypes.S i) (Some r) /\ rope_text r = rope_text b ++ rope_text a
  | Done (inr _) _ => lossy
  | StackOverflow => ~ bounded
  | OutOfBounds => False
  end.
Proof.
  intros Hi Hb (Ha & Has & Hal & Had) Hn Hf. pose proof Hb as (Hbw & Hbs & Hbl & Hbd). pose proof (bucket_len_pos i Hi). pose proof Hf as [Hf1 Hf2].
  pose proof (Hnew b a ev Hbw Ha Hbs Has ltac:(lia) Hal) as HN.
  assert (Hd : bounded -> Z.max (rope_depth b) (rope_depth a) + 1 <= 60).
  { intros HB. pose proof (fits_bucket i n b Hi Hb ltac:(lia) Hf HB). specialize (Hbd HB). specialize (Had HB). lia. }
  specialize (HN Hd). destruct (new_rope b a ev) as [[r|e] ev'| |]; try done.
  destruct HN as (H1 & H2 & H3 & H4). split; [|done]. split; [done|]. split; [done|].
  split; [rewrite H3, length_app; lia|].
  intros HB. rewrite (H4 HB). specialize (Hbd HB). specialize (Had HB). lia.
Qed.

(** The first loop. *)
Lemma collect_spec nl total : fits total -> 1 <= nl -> forall n i a bs ev,
  (44 <= n + i)%nat -> (i < 44)%nat -> B i <= nl ->
  buckets_ok bs -> empty_below i bs -> prefix_ok i a ->
  len (btext bs) + len (otext a) + nl <= total ->
  match collect new_rope n i nl a bs ev with
  | Done (inl (inl (a', i'), bs')) _ =>
      (i' < 43)%nat /\ B i' <= nl /\ buckets_ok bs' /\ empty_below i' bs' /\ prefix_ok i' a' /\
      btext bs' ++ otext a' = btext bs ++ otext a
  | Done (inl (inr _, bs')) _ => lossy /\ buckets_ok bs' /\ len (btext bs') <= len (btext bs)
  | Done (inr _) _ => False
  | StackOverflow => ~ bounded
  | OutOfBounds => False
  end.
Proof.
  intros Hf Hl. induction n as [|n IH]; intros i a bs ev Hn Hi HB Hbs He Ha Ht; [lia|].
  assert (B43 : B 43 = 1134903170) by done.
  assert (Hi2 : (i <= 42)%nat) by (apply (B_bound i nl Hi HB); destruct Hf; unfold JS_STRING_LEN_MAX in *; lia).
  cbn [collect]. pose proof Hbs as [Hlen Hb].
  destruct (lookup_lt_is_Some_2 rope_bucket_len (Datatypes.S i) ltac:(cbn; lia)) as [next En].
  destruct (lookup_lt_is_Some_2 bs i ltac:(rewrite Hlen; unfold ROPE_N_BUCKETS; lia)) as [b Eb].
  rewrite En, Eb. destruct (Z.ltb_spec nl next) as [Hlt|Hge].
  { split_and!; try done. lia. }
  assert (HB' : B (Datatypes.S i) <= nl) by (unfold B; by rewrite (list_lookup_total_correct _ _ _ En)).
  destruct b as [b|]; [|apply IH; try done; [lia|lia|by apply empty_below_skip|]].
  - pose proof (Hb i b Eb) as Hbi. pose proof (btext_clear _ _ _ Eb) as Hc.
    assert (Htext : btext bs = btext (<[i := None]> bs) ++ rope_text b).
    { rewrite <- (list_insert_id bs i (Some b)) at 1 by done. exact (btext_insert bs i (Some b) (lookup_lt_Some _ _ _ Eb) He). }
    assert (He' : empty_below (Datatypes.S i) (<[i := None]> bs)) by (apply empty_below_S; [by eapply lookup_lt_Some|done]).
    destruct a as [a|].
    + unfold rbind, rcatch. cbn in Ht.
      pose proof (prefix_join i b a total ev Hi Hbi Ha ltac:(lia) Hf) as HP.
      destruct (new_rope b a ev) as [[r|e] ev'| |]; try done.
      * destruct HP as [HP1 HP2].
        specialize (IH (Datatypes.S i) (Some r) (<[i := None]> bs) ev' ltac:(lia) ltac:(lia) HB'
          (buckets_ok_none _ _ Hbs) He' HP1).
        cbn in IH. rewrite HP2, length_app in IH. specialize (IH ltac:(lia)).
        destruct (collect _ n _ _ _ _ _) as [[[[[a' i']|e] bs']|e] ev''| |]; try done.
        -- destruct IH as (? & ? & ? & ? & ? & IH). split_and!; try done. rewrite IH. cbn. by rewrite Htext, app_assoc.
        -- destruct IH as (? & ? & IH). split_and!; try done. lia.
      * cbn. split; [done|]. split; [by apply buckets_ok_none|]. lia.
    + specialize (IH (Datatypes.S i) (Some b) (<[i := None]> bs) ev ltac:(lia) ltac:(lia) HB'
        (buckets_ok_none _ _ Hbs) He').
      assert (HP : prefix_ok (Datatypes.S i) (Some b)).
      { pose proof (bucket_len_pos i ltac:(lia)). destruct Hbi as (? & ? & ? & Hd).
        split_and!; try done; [lia|]. intros HB0. specialize (Hd HB0). lia. }
      cbn in Ht. cbn in IH. specialize (IH HP ltac:(lia)).
      destruct (collect _ n _ _ _ _ _) as [[[[[a' i']|e] bs']|e] ev''| |]; try done.
      * destruct IH as (? & ? & ? & ? & ? & IH). split_and!; try done. rewrite IH. cbn. by rewrite Htext, app_nil_r.
      * destruct IH as (? & ? & IH). split_and!; try done. lia.
  - destruct a as [a|]; [|done]. destruct Ha as (? & ? & ? & Hd). split_and!; try done.
    intros HB0. specialize (Hd HB0). lia.
Qed.

(** The second loop. *)
Lemma place_spec total : fits total -> forall n i a bs ev,
  (44 <= n + i)%nat -> (i < 44)%nat -> buckets_ok bs -> empty_below i bs -> bucket_ok i a ->
  len (btext bs) + len (rope_text a) <= total ->
  match place new_rope n i a bs ev with
  | Done (inl (err, bs')) _ => buckets_ok bs' /\ len (btext bs') <= len (btext bs) + len (rope_text a) /\
      match err with Some _ => lossy | None => btext bs' = btext bs ++ rope_text a end
  | Done (inr _) _ => False
  | StackOverflow => ~ bounded
  | OutOfBounds => False
  end.
Proof.
  intros Hf. induction n as [|n IH]; intros i a bs ev Hn Hi Hbs He Ha Ht; [lia|].
  assert (B43 : B 43 = 1134903170) by done.
  pose proof Ha as (Haw & Has & Hal & Had). pose proof Hf as [Hf1 Hf2].
  assert (Hi2 : (i <= 42)%nat) by (apply (B_bound i _ Hi Hal); unfold JS_STRING_LEN_MAX in *; lia).
  cbn [place]. pose proof Hbs as [Hlen Hb].
  destruct (lookup_lt_is_Some_2 bs i ltac:(rewrite Hlen; unfold ROPE_N_BUCKETS; lia)) as [b Eb].
  assert (Hib : (i < length bs)%nat) by (by eapply lookup_lt_Some).
  rewrite Eb. destruct b as [b|].
  - pose proof (Hb i b Eb) as Hbi. pose proof Hbi as (Hbw & Hbl & Hbt & Hbd). pose proof (btext_clear _ _ _ Eb) as Hc.
    unfold rbind, rcatch.
    assert (Hd : bounded -> Z.max (rope_depth b) (rope_depth a) + 1 <= 60).
    { intros HB. pose proof (fits_bucket i total b Hi Hbi ltac:(lia) Hf HB). specialize (Hbd HB). specialize (Had HB). lia. }
    pose proof (bucket_len_pos i ltac:(lia)).
    pose proof (Hnew b a ev Hbw Haw Hbl Has ltac:(lia) ltac:(lia) Hd) as HN.
    destruct (new_rope b a ev) as [[r|e] ev'| |]; try done.
    + destruct HN as (H1 & H2 & H3 & H4).
      assert (Hr : bucket_ok (Datatypes.S i) r).
      { split; [done|]. split; [done|]. split.
        - rewrite H3, length_app. pose proof (B_double i ltac:(lia)). lia.
        - intros HB. rewrite (H4 HB). specialize (Hbd HB). specialize (Had HB). lia. }
      specialize (IH (Datatypes.S i) r (<[i := None]> bs) ev' ltac:(lia) ltac:(lia) (buckets_ok_none _ _ Hbs)
        (empty_below_S _ _ Hib He) Hr).
      rewrite H3, length_app in IH. specialize (IH ltac:(lia)).
      destruct (place _ n _ _ _ _) as [[[err bs']|e] ev''| |]; try done.
      destruct IH as (IH1 & IH2 & IH3). split; [done|]. split; [lia|]. destruct err; [done|].
      rewrite IH3. rewrite <- (list_insert_id bs i (Some b)) at 2 by done.
      rewrite (btext_insert bs i (Some b)) by done. cbn. by rewrite app_assoc.
    + cbn. split; [by apply buckets_ok_none|]. split; [lia|done].
  - cbn. split; [by apply buckets_ok_some|]. split; [rewrite (btext_set _ _ _ Eb); lia|].
    rewrite (btext_insert bs i (Some a)) by done. by rewrite (list_insert_id bs i None).
Qed.

Lemma rec_spec total : fits total -> forall val bs ev, rope_wf val -> buckets_ok bs ->
  len (btext bs) + len (rope_text val) <= total ->
  match js_rebalancee_string_rope_rec new_rope val bs ev with
  | Done (inl (err, bs')) _ => buckets_ok bs' /\
      len (btext bs') <= len (btext bs) + len (rope_text val) /\
      (~ lossy -> err = None /\ btext bs' = btext bs ++ rope_text val)
  | Done (inr _) _ => False
  | StackOverflow => ~ bounded
  | OutOfBounds => False
  end.
Proof.
  intros Hf. induction val as [p|n w d l IHl r IHr]; intros bs ev Hw Hbs Ht; cbn [js_rebalancee_string_rope_rec].
  - cbn in Ht, Hw. destruct (Z.eqb_spec (leaf_len p) 0) as [E0|E0].
    { rewrite leaf_len_units in E0. assert (leaf_units p = []) as E by (destruct (leaf_units p); [done|cbn in E0; lia]).
      cbn. rewrite E. split_and!; try done; [cbn; lia|]. intros _. by rewrite app_nil_r. }
    rewrite !leaf_len_units in *. unfold rbind at 1. assert (Hnn : 1 <= len (leaf_units p)) by lia.
    pose proof (collect_spec (len (leaf_units p)) total Hf Hnn 44 0 None bs ev ltac:(lia) ltac:(lia)
      ltac:(unfold B; cbn; lia) Hbs ltac:(intros k; lia) I ltac:(cbn; lia)) as HC.
    unfold ROPE_N_BUCKETS. destruct (collect _ 44 _ _ _ _ _) as [[[[[a i]|e] bs1]|e] ev1| |]; try done.
    + destruct HC as (Hi & HB & Hbs1 & He1 & Ha & HT). cbn in HT. rewrite app_nil_r in HT.
      assert (Hlen1 : len (btext bs1) + len (otext a) = len (btext bs)) by (rewrite <- HT, length_app; lia).
      destruct a as [a|].
      * unfold rbind, rcatch. destruct Ha as (Ha1 & Ha2 & Ha4 & Ha3). cbn in HT, Hlen1.
        assert (Hd : bounded -> Z.max (rope_depth a) (rope_depth (Str p)) + 1 <= 60).
        { intros HB0. destruct Hf as [_ Hf]. specialize (Hf HB0). specialize (Ha3 HB0). cbn.
          pose proof (B_balanced i _ ltac:(lia) HB ltac:(lia)). lia. }
        pose proof (Hnew a (Str p) ev1 Ha1 Hw Ha2 ltac:(cbv; discriminate) ltac:(cbn; destruct Hf; lia) Hnn Hd) as HN.
        destruct (new_rope a (Str p) ev1) as [[r|e] ev2| |]; try done.
        -- destruct HN as (H1 & H2 & H3 & H4). cbn in H3.
           assert (Hr : bucket_ok i r).
           { split; [done|]. split; [done|]. split; [rewrite H3, length_app; lia|].
             intros HB0. rewrite (H4 HB0). specialize (Ha3 HB0). pose proof (rope_depth_nonneg a Ha1). cbn. lia. }
           pose proof (place_spec total Hf 44 i r bs1 ev2 ltac:(lia) ltac:(lia) Hbs1 He1 Hr
             ltac:(rewrite H3, length_app; lia)) as HP.
           destruct (place _ 44 _ _ _ _) as [[[err bs2]|e] ev3| |]; try done.
           destruct HP as (HP1 & HP2 & HP3). rewrite H3, length_app in HP2. split; [done|]. split; [cbn; lia|].
           intros Hnl. destruct err; [by destruct Hnl|]. split; [done|]. rewrite HP3, H3, app_assoc, HT. done.
        -- cbn. split; [done|]. split; [lia|]. by intros [].
      * cbn in HT, Hlen1. rewrite app_nil_r in HT.
        assert (Hr : bucket_ok i (Str p)).
        { split; [done|]. split; [cbv; discriminate|]. split; [cbn; lia|]. intros _. cbn. lia. }
        pose proof (place_spec total Hf 44 i (Str p) bs1 ev1 ltac:(lia) ltac:(lia) Hbs1 He1 Hr ltac:(cbn; lia)) as HP.
        destruct (place _ 44 _ _ _ _) as [[[err bs2]|e] ev3| |]; try done.
        destruct HP as (HP1 & HP2 & HP3). cbn in HP2, HP3. split; [done|]. split; [cbn; lia|].
        intros Hnl. destruct err; [by destruct Hnl|]. split; [done|]. by rewrite HP3, HT.
    + destruct HC as (HC1 & HC2 & HC3). cbn. split; [done|]. split; [lia|]. by intros [].
  - cbn in Ht, Hw. destruct Hw as (Hl & Hr & _). rewrite length_app in Ht. unfold rbind.
    specialize (IHl bs ev Hl Hbs ltac:(lia)).
    destruct (js_rebalancee_string_rope_rec new_rope l bs ev) as [[[e1 bs1]|e] ev1| |]; try done.
    destruct IHl as (Hbs1 & Hlen1 & HT1). specialize (IHr bs1 ev1 Hr Hbs1 ltac:(lia)).
    destruct (js_rebalancee_string_rope_rec new_rope r bs1 ev1) as [[[e2 bs2]|e] ev2| |]; try done.
    destruct IHr as (Hbs2 & Hlen2 & HT2). cbn. split; [done|]. rewrite length_app. split; [lia|].
    intros Hnl. split; [done|]. destruct (HT1 Hnl) as [_ ->] in HT2. destruct (HT2 Hnl) as [_ ->].
    by rewrite app_assoc.
Qed.

Lemma join_spec total : fits total -> forall bs k a ev,
  (k + length bs <= 44)%nat -> (forall j r, bs !! j = Some (Some r) -> bucket_ok (k + j) r) ->
  prefix_ok k a -> len (btext bs) + len (otext a) <= total ->
  match join new_rope bs a ev with
  | Done (inl r) _ => otext r = btext bs ++ otext a /\
      match r with Some r => rope_wf r /\ shallow r | None => True end
  | Done (inr _) _ => lossy
  | StackOverflow => ~ bounded
  | OutOfBounds => False
  end.
Proof.
  intros Hf. induction bs as [|b bs IH]; intros k a ev Hk Hb Ha Ht; cbn [join].
  - cbn. split; [done|]. destruct a; [|done]. by destruct Ha as (? & ? & _).
  - cbn in Hk, Ht. rewrite length_app in Ht.
    assert (Hb' : forall j r, bs !! j = Some (Some r) -> bucket_ok (Datatypes.S k + j) r).
    { intros j r E. replace (Datatypes.S k + j)%nat with (k + Datatypes.S j)%nat by lia. by apply Hb. }
    destruct b as [b|].
    + pose proof (Hb 0%nat b eq_refl) as Hbk. rewrite Nat.add_0_r in Hbk. cbn in Ht. destruct a as [a|].
      * unfold rbind. cbn in Ht.
        pose proof (prefix_join k b a total ev ltac:(lia) Hbk Ha ltac:(lia) Hf) as HP.
        destruct (new_rope b a ev) as [[r|e] ev'| |]; try done. destruct HP as [HP1 HP2].
        specialize (IH (Datatypes.S k) (Some r) ev' ltac:(lia) Hb' HP1). cbn in IH.
        rewrite HP2, length_app in IH. specialize (IH ltac:(lia)).
        destruct (join new_rope bs (Some r) ev') as [[r'|e] ev''| |]; try done.
        destruct IH as [IH1 IH2]. split; [|done]. rewrite IH1. cbn. by rewrite app_assoc.
      * specialize (IH (Datatypes.S k) (Some b) ev ltac:(lia) Hb').
        assert (HP : prefix_ok (Datatypes.S k) (Some b)).
        { pose proof (bucket_len_pos k ltac:(lia)). destruct Hbk as (? & ? & ? & Hd).
          split_and!; try done; [lia|]. intros HB0. specialize (Hd HB0). lia. }
        cbn in IH. specialize (IH HP ltac:(lia)).
        destruct (join new_rope bs (Some b) ev) as [[r'|e] ev''| |]; try done.
        destruct IH as [IH1 IH2]. split; [|done]. rewrite IH1. cbn. by rewrite app_nil_r.
    + specialize (IH (Datatypes.S k) a ev ltac:(lia) Hb').
      assert (HP : prefix_ok (Datatypes.S k) a).
      { destruct a as [a|]; [|done]. destruct Ha as (? & ? & ? & Hd). split_and!; try done. intros HB0. specialize (Hd HB0). lia. }
      cbn in Ht. specialize (IH HP ltac:(lia)).
      destruct (join new_rope bs a ev) as [[r'|e] ev''| |]; try done.
      destruct IH as [IH1 IH2]. split; [|done]. rewrite IH1. cbn. by rewrite app_nil_r.
Qed.

Lemma rebalance_body_spec rope ev : rope_wf rope -> fits (len (rope_text rope)) ->
  match rebalance_body new_rope rope ev with
  | Done (inl r) _ => rope_wf r /\ shallow r /\ len (rope_text r) <= len (rope_text rope) /\
      (~ lossy -> rope_text r = rope_text rope)
  | Done (inr _) _ => lossy
  | StackOverflow => ~ bounded
  | OutOfBounds => False
  end.
Proof.
  intros Hw Hf. unfold rebalance_body, rbind.
  assert (Hbs : buckets_ok (replicate ROPE_N_BUCKETS None)).
  { split; [apply length_replicate|]. intros k r E. apply lookup_replicate in E as [? _]. done. }
  assert (HT0 : btext (replicate ROPE_N_BUCKETS (@None (Rope S))) = []) by done.
  pose proof (rec_spec _ Hf rope (replicate ROPE_N_BUCKETS None) ev Hw Hbs ltac:(rewrite HT0; cbn; lia)) as HR.
  destruct (js_rebalancee_string_rope_rec _ _ _ _) as [[[err bs]|e] ev1| |]; try done.
  destruct HR as (Hbs1 & Hlen & HT). rewrite HT0 in Hlen, HT. cbn in Hlen.
  destruct err as [e|]; [cbn; destruct Hlossy as [|Hnl]; [done|by destruct (HT Hnl)]|].
  pose proof (join_spec _ Hf bs 0 None ev1 ltac:(destruct Hbs1 as [-> _]; done)
    ltac:(intros j r Hj; by apply Hbs1) I ltac:(cbn; lia)) as HJ.
  destruct (join new_rope bs None ev1) as [[r|e] ev2| |]; try done. destruct HJ as [HJ1 HJ2].
  cbn in HJ1. rewrite app_nil_r in HJ1. cbn. destruct r as [r|].
  - cbn in HJ1. destruct HJ2 as [HJ2 HJ3]. split; [done|]. split; [done|]. rewrite HJ1. split; [lia|]. intros Hnl.
    by destruct (HT Hnl) as [_ ->].
  - destruct leaf_empty_ok as [He1 He2]. split; [done|]. split; [cbv; discriminate|].
    cbn [rope_text]. rewrite He2. split; [cbn; lia|]. intros Hnl. cbn in HJ1, HT. destruct (HT Hnl) as [_ HT']. congruence.
Qed.
End rebalance_proof.

Section concat_proof.
Context {S : Type} `{HL : Leaf S} {W : World} `{HW : !LeafLaws S}.

(** The regimes of the proof. *)
Definition regime (lossy bounded : Prop) : Prop :=
  (lossy \/ forall n, ext_ok n = true) /\ (~ lossy \/ bounded) /\ (lossy \/ ~ lossy).

Lemma u8_depth d : 0 <= d <= 60 -> u8 (d + 1) = d + 1.
Proof. intros. apply wrap_small. unfold word. lia. Qed.

Lemma tail_long (a b : Rope S) : 1 <= len (rope_text b) -> tail_ok a b.
Proof. destruct b; cbn; [|done]. rewrite leaf_len_units. lia. Qed.

(** A node before its depth is checked. *)
Lemma node_wf (a b : Rope S) : rope_wf a -> rope_wf b -> shallow a -> shallow b -> tail_ok a b ->
  len (rope_text a) + len (rope_text b) <= JS_STRING_LEN_MAX ->
  let r := Node (u32 (string_rope_get_len a + string_rope_get_len b)) (rope_wide a || rope_wide b)
    (u8 (Z.max (rope_depth a) (rope_depth b) + 1)) a b in
  rope_wf r /\ rope_depth r = Z.max (rope_depth a) (rope_depth b) + 1.
Proof.
  intros Ha Hb Hsa Hsb Htail Hlen r. unfold shallow, JS_STRING_ROPE_MAX_DEPTH, JS_STRING_LEN_MAX in *.
  pose proof (rope_depth_nonneg a Ha). unfold r. cbn [rope_depth rope_wf].
  rewrite u8_depth by lia. rewrite !rope_get_len_text by done.
  rewrite wrap_small by (unfold word; lia). rewrite length_app. split_and!; try done; lia.
Qed.

Lemma new_string_rope_ok lossy bounded : regime lossy bounded ->
  forall fuel, new_rope_ok lossy bounded (new_string_rope (S := S) fuel).
Proof.
  intros (HA & HB & HC). induction fuel as [|fuel IH]; intros a b ev Ha Hb Hsa Hsb Hlen Hb1 HD;
    unfold new_string_rope, js_new_string_rope;
    pose proof (node_wf a b Ha Hb Hsa Hsb (tail_long a b Hb1) Hlen) as [Hw Hd];
    rewrite !rope_get_len_text in * by done;
    rewrite (wrap_small 32) in * by (unfold word, JS_STRING_LEN_MAX in *; lia);
    replace (JS_STRING_LEN_MAX <? _) with false by lia;
    unfold rbind, lift, js_alloc;
    (destruct (ext_ok ev) eqn:Eo; [|destruct HA as [|HA]; [done|congruence]]); cbn [rope_depth] in Hd;
    rewrite Hd in *;
    destruct (Z.ltb_spec JS_STRING_ROPE_MAX_DEPTH (Z.max (rope_depth a) (rope_depth b) + 1)) as [Hdeep|Hok].
  - intros HB'. specialize (HD HB'). lia.
  - cbn. split; [exact Hw|]. by repeat split.
  - cbn [js_rebalancee_string_rope]. assert (Hnb : ~ bounded) by (intros HB'; specialize (HD HB'); lia).
    destruct HB as [HB|]; [|done].
    pose proof (rebalance_body_spec lossy bounded HC _ IH _ (Datatypes.S ev) Hw) as HR.
    specialize (HR ltac:(split; [cbn; rewrite length_app; lia|done])).
    destruct (rebalance_body _ _ _) as [[r|e] ev'| |]; try done.
    destruct HR as (HR1 & HR2 & _ & HR3). split; [done|]. split; [done|]. by split; [rewrite (HR3 HB)|].
  - cbn. split; [exact Hw|]. by repeat split.
Qed.

(** A concatenation that is too long throws; the others give a rope of both texts. *)
Definition concat_result (lossy : Prop) (t1 t2 : list Z) (o : out (Rope S)) : Prop :=
  match o with
  | Done (inl r) _ => rope_wf r /\ shallow r /\ len (rope_text r) <= len t1 + len t2 <= JS_STRING_LEN_MAX /\
      (~ lossy -> rope_text r = t1 ++ t2)
  | Done (inr e) _ => lossy \/ (e = InternalError "string too long" /\ JS_STRING_LEN_MAX < len t1 + len t2)
  | StackOverflow => balanced_limit <= len t1 + len t2
  | OutOfBounds => False
  end.

Definition short_text (lossy : Prop) (a b : Rope S) : Prop :=
  lossy -> len (rope_text a) + len (rope_text b) < balanced_limit.

(** [js_new_string_rope] at the top: the depth may exceed the limit by one. *)
Lemma new_string_rope_top lossy fuel a b ev :
  (lossy \/ forall n, ext_ok n = true) -> (lossy \/ ~ lossy) -> (1 <= fuel)%nat ->
  rope_wf a -> rope_wf b -> shallow a -> shallow b -> tail_ok a b ->
  len (rope_text a) <= JS_STRING_LEN_MAX + 512 -> len (rope_text b) <= JS_STRING_LEN_MAX + 512 ->
  short_text lossy a b ->
  concat_result lossy (rope_text a) (rope_text b) (new_string_rope fuel a b ev).
Proof.
  intros HA HC Hf Ha Hb Hsa Hsb Htail Hla Hlb Hshort. destruct fuel as [|fuel]; [lia|].
  unfold new_string_rope, js_new_string_rope. rewrite !rope_get_len_text by done.
  rewrite (wrap_small 32) by (unfold word, JS_STRING_LEN_MAX in *; lia).
  destruct (Z.ltb_spec JS_STRING_LEN_MAX (len (rope_text a) + len (rope_text b))) as [Hlong|Hlen].
  { right. done. }
  pose proof (node_wf a b Ha Hb Hsa Hsb Htail Hlen) as [Hw Hd].
  rewrite !rope_get_len_text in * by done.
  rewrite (wrap_small 32) in * by (unfold word, JS_STRING_LEN_MAX in *; lia).
  unfold rbind, lift, js_alloc. destruct (ext_ok ev) eqn:Eo; [|left; destruct HA as [|HA]; [done|congruence]].
  cbn [rope_depth] in Hd. rewrite Hd in *.
  destruct (Z.ltb_spec JS_STRING_ROPE_MAX_DEPTH (Z.max (rope_depth a) (rope_depth b) + 1)) as [Hdeep|Hok].
  2: { cbn. split; [exact Hw|]. split; [done|]. split; [rewrite length_app; lia|done]. }
  set (bounded := len (rope_text a) + len (rope_text b) < balanced_limit).
  assert (Hreg : regime lossy bounded).
  { split; [done|]. split; [|done]. destruct HC as [HC|]; [right; by apply Hshort|by left]. }
  cbn [js_rebalancee_string_rope].
  pose proof (rebalance_body_spec lossy bounded HC _ (new_string_rope_ok _ _ Hreg fuel) _ (Datatypes.S ev) Hw) as HR.
  specialize (HR ltac:(split; [cbn; rewrite length_app; lia|unfold bounded; cbn; rewrite length_app; lia])).
  unfold new_string_rope in HR.
  destruct (rebalance_body _ _ _) as [[r|e] ev'| |]; cbn in *.
  - destruct HR as (HR1 & HR2 & HR4 & HR3). rewrite length_app in HR4. split; [done|]. split; [done|]. split; [lia|exact HR3].
  - by left.
  - unfold bounded in HR. lia.
  - done.
Qed.

Lemma concat_result_assoc lossy t1 t2 u1 u2 o : t1 ++ t2 = u1 ++ u2 ->
  concat_result lossy t1 t2 o -> concat_result lossy u1 u2 o.
Proof.
  intros E. assert (El : len t1 + len t2 = len u1 + len u2).
  { apply (f_equal length) in E. rewrite !length_app in E. lia. }
  unfold concat_result. rewrite El, E. done.
Qed.

Lemma concat_flat_spec lossy p1 p2 ev : (lossy \/ forall n, ext_ok n = true) ->
  leaf_wf p1 -> leaf_wf p2 -> len (leaf_units p1) + len (leaf_units p2) < 2 ^ 32 ->
  match concat_flat p1 p2 ev with
  | Done (inl r) _ => exists p, r = Str p /\ leaf_wf p /\ leaf_units p = leaf_units p1 ++ leaf_units p2
  | Done (inr e) _ => lossy \/
      (e = InternalError "string too long" /\ JS_STRING_LEN_MAX < len (leaf_units p1) + len (leaf_units p2))
  | _ => False
  end.
Proof.
  intros HA Hp1 Hp2 Hl. pose proof (leaf_concat_ok p1 p2 ev Hp1 Hp2) as HP.
  rewrite !leaf_len_units in HP. specialize (HP Hl). unfold concat_flat, rbind, lift.
  destruct HP as [_ HP]. destruct (leaf_concat p1 p2 ev) as [[p|e] ev'].
  - cbn in HP. destruct HP as (? & ?). by exists p.
  - cbn in HP. assert (HF : forall k, ext_ok k = false -> lossy).
    { intros k Hk. destruct HA as [|HA]; [done|by rewrite HA in Hk]. }
    destruct e; try (right; exact HP); left; destruct HP as (k & _ & Hk); by eapply HF.
Qed.

Lemma concat_none lossy (t1 : list Z) r ev : rope_wf r -> shallow r -> t1 = [] ->
  len (rope_text r) <= JS_STRING_LEN_MAX -> concat_result lossy t1 (rope_text r) (rret r ev).
Proof. intros. subst t1. cbn. split; [done|]. split; [done|]. split; [lia|done]. Qed.

Lemma concat_none_r lossy (t2 : list Z) r ev : rope_wf r -> shallow r -> t2 = [] ->
  len (rope_text r) <= JS_STRING_LEN_MAX -> concat_result lossy (rope_text r) t2 (rret r ev).
Proof. intros. subst t2. cbn. split; [done|]. split; [done|]. split; [lia|]. intros _. by rewrite app_nil_r. Qed.

(** A string concatenated to a leaf, and the result to the rest of the rope. *)
Lemma concat_then lossy p1 p2 k t1 t2 ev : (lossy \/ forall n, ext_ok n = true) ->
  leaf_wf p1 -> leaf_wf p2 -> len (leaf_units p1) + len (leaf_units p2) < 2 ^ 32 ->
  len (leaf_units p1) + len (leaf_units p2) <= len t1 + len t2 ->
  (forall p ev', leaf_wf p -> leaf_units p = leaf_units p1 ++ leaf_units p2 ->
     concat_result lossy t1 t2 (k (Str p) ev')) ->
  concat_result lossy t1 t2 (rbind (concat_flat p1 p2) k ev).
Proof.
  intros HA Hp1 Hp2 Hl Ht Hk. unfold rbind. pose proof (concat_flat_spec lossy p1 p2 ev HA Hp1 Hp2 Hl) as HC.
  destruct (concat_flat p1 p2 ev) as [[r|e] ev'| |]; try done.
  - destruct HC as (p & -> & Hp & Hu). by apply Hk.
  - destruct HC as [HC|[HC1 HC2]]; [by left|right; split; [done|lia]].
Qed.

Lemma nil_units p : leaf_len p = 0 -> leaf_units p = [].
Proof. rewrite leaf_len_units. destruct (leaf_units p); cbn; [done|lia]. Qed.

Section concat_cases.
Context (lossy : Prop) (fuel : nat) (HA : lossy \/ forall n, ext_ok n = true) (HC : lossy \/ ~ lossy)
  (Hfuel : (1 <= fuel)%nat).

(** What [JS_ConcatString] requires of its operands. *)
Definition concat_pre (op1 op2 : Rope S) : Prop :=
  rope_wf op1 /\ rope_wf op2 /\ shallow op1 /\ shallow op2 /\
  len (rope_text op1) <= JS_STRING_LEN_MAX /\ len (rope_text op2) <= JS_STRING_LEN_MAX /\
  short_text lossy op1 op2.

Lemma concat_node op1 op2 ev : concat_pre op1 op2 -> tail_ok op1 op2 ->
  concat_result lossy (rope_text op1) (rope_text op2) (new_string_rope fuel op1 op2 ev).
Proof.
  intros (H1 & H2 & Hs1 & Hs2 & Hl1 & Hl2 & Hsh) Ht. apply new_string_rope_top; try done; lia.
Qed.

(** A string is appended to the last leaf of a rope. *)
Lemma concat_last n w d l r p2 ev : let op1 := Node n w d l (Str r) in
  concat_pre op1 (Str p2) -> leaf_len r <= JS_STRING_ROPE_SHORT_LEN ->
  0 < leaf_len p2 <= JS_STRING_ROPE_SHORT_LEN ->
  concat_result lossy (rope_text op1) (leaf_units p2)
    (rbind (concat_flat r p2) (fun val => new_string_rope fuel l val) ev).
Proof.
  intros op1 (H1 & H2 & Hs1 & Hs2 & Hl1 & Hl2 & Hsh) Hr Hp2.
  rewrite leaf_len_units in *. unfold JS_STRING_ROPE_SHORT_LEN in *. cbn in H1, H2, Hl1, Hl2, Hs1.
  destruct H1 as (Hwl & Hwr & _ & _ & _ & Hd). rewrite length_app in Hl1.
  apply concat_then; try done; [lia|cbn; rewrite length_app; lia|].
  intros p ev' Hp Hu.
  assert (Hsl : shallow l) by (unfold shallow in *; cbn in Hs1; pose proof (rope_depth_nonneg l Hwl); lia).
  eapply concat_result_assoc; [|apply (new_string_rope_top lossy fuel l (Str p)); try done].
  - cbn. by rewrite Hu, app_assoc.
  - apply tail_long. cbn. rewrite Hu, length_app. lia.
  - lia.
  - cbn. rewrite Hu, length_app. lia.
  - intros HL0. specialize (Hsh HL0). cbn in Hsh. rewrite !length_app in Hsh. cbn. rewrite Hu, length_app. lia.
Qed.

(** A string is put before the first leaf of a rope. *)
Lemma concat_first p1 n w d l r ev : let op2 := Node n w d (Str l) r in
  concat_pre (Str p1) op2 -> leaf_len l <= JS_STRING_ROPE_SHORT_LEN ->
  concat_result lossy (leaf_units p1) (rope_text op2)
    (rbind (concat_flat p1 l) (fun val => new_string_rope fuel val r) ev).
Proof.
  intros op2 (H1 & H2 & Hs1 & Hs2 & Hl1 & Hl2 & Hsh) Hr.
  rewrite leaf_len_units in *. unfold JS_STRING_ROPE_SHORT_LEN in *. cbn in H1, H2, Hl1, Hl2, Hs2.
  destruct H2 as (Hwl & Hwr & _ & _ & _ & Hd). rewrite length_app in Hl2. unfold JS_STRING_LEN_MAX in *.
  apply concat_then; try done; [lia|cbn; rewrite length_app; lia|].
  intros p ev' Hp Hu.
  assert (Hsr : shallow r) by (unfold shallow in *; cbn in Hs2; pose proof (rope_depth_nonneg r Hwr); lia).
  eapply concat_result_assoc; [|apply (new_string_rope_top lossy fuel (Str p) r); try done].
  - cbn. by rewrite Hu, app_assoc.
  - by destruct r.
  - cbn. unfold JS_STRING_LEN_MAX. rewrite Hu, length_app. lia.
  - unfold JS_STRING_LEN_MAX. lia.
  - intros HL0. specialize (Hsh HL0). cbn in Hsh. rewrite !length_app in Hsh. cbn. rewrite Hu, length_app. lia.
Qed.

Lemma concat_short p1 p2 ev : concat_pre (Str p1) (Str p2) ->
  leaf_len p1 <= JS_STRING_ROPE_SHORT2_LEN -> leaf_len p2 <= JS_STRING_ROPE_SHORT_LEN ->
  concat_result lossy (leaf_units p1) (leaf_units p2) (concat_flat p1 p2 ev).
Proof.
  intros (H1 & H2 & _) Hl1 Hl2. rewrite leaf_len_units in *.
  unfold JS_STRING_ROPE_SHORT_LEN, JS_STRING_ROPE_SHORT2_LEN in *.
  pose proof (concat_flat_spec lossy p1 p2 ev HA H1 H2 ltac:(lia)) as HF.
  destruct (concat_flat p1 p2 ev) as [[r|e] ev'| |]; try done. destruct HF as (p & -> & Hp & Hu).
  cbn. unfold JS_STRING_LEN_MAX. split; [done|]. split; [cbv; discriminate|]. rewrite Hu, length_app. split; [lia|done].
Qed.

(** [JS_ConcatString] concatenates. *)
Lemma JS_ConcatString_spec op1 op2 ev : concat_pre op1 op2 ->
  concat_result lossy (rope_text op1) (rope_text op2) (JS_ConcatString fuel op1 op2 ev).
Proof.
  intros Hpre. pose proof Hpre as (H1 & H2 & Hs1 & Hs2 & Hl1 & Hl2 & _).
  assert (Hnode : tail_ok op1 op2 -> concat_result lossy (rope_text op1) (rope_text op2)
    (new_string_rope fuel op1 op2 ev)) by (by apply concat_node).
  destruct op2 as [p2|n2 w2 d2 [l2|? ? ? ? ?] r2].
  - destruct (Z.eqb_spec (leaf_len p2) 0) as [E0|Hne].
    { replace (JS_ConcatString fuel op1 (Str p2) ev) with (rret op1 ev).
      - apply concat_none_r; try done. by apply nil_units.
      - apply Z.eqb_eq in E0. destruct op1 as [|? ? ? ? []]; cbn [JS_ConcatString]; by rewrite E0. }
    pose proof (leaf_len_nonneg p2). specialize (Hnode (fun E => False_ind _ (Hne E))). apply Z.eqb_neq in Hne as Hne'.
    destruct op1 as [p1|n1 w1 d1 l1 [r1|? ? ? ? ?]]; cbn [JS_ConcatString]; rewrite Hne';
      (destruct (Z.leb_spec (leaf_len p2) JS_STRING_ROPE_SHORT_LEN); [|done]); [| |done].
    + destruct (Z.leb_spec (leaf_len p1) JS_STRING_ROPE_SHORT2_LEN); [by apply concat_short|done].
    + destruct (Z.leb_spec (leaf_len r1) JS_STRING_ROPE_SHORT_LEN); [|done]. apply concat_last; [done..|lia].
  - specialize (Hnode I). destruct op1 as [p1|]; cbn [JS_ConcatString]; [|done].
    destruct (Z.eqb_spec (leaf_len p1) 0) as [E0|_].
    { apply concat_none; try done. by apply nil_units. }
    destruct (Z.leb_spec (leaf_len l2) JS_STRING_ROPE_SHORT_LEN); [by apply concat_first|done].
  - specialize (Hnode I). destruct op1 as [p1|]; cbn [JS_ConcatString]; [|done].
    destruct (Z.eqb_spec (leaf_len p1) 0) as [E0|_]; [|done]. apply concat_none; try done. by apply nil_units.
Qed.
End concat_cases.
End concat_proof.

(** ** Reading *)
Section reading.
Context {S : Type} `{HL : Leaf S} {W : World} `{HW : !LeafLaws S}.

Lemma string_rope_get_spec val : forall idx, rope_wf val -> 0 <= idx < len (rope_text val) ->
  string_rope_get val idx = rope_text val !!! Z.to_nat idx.
Proof.
  induction val as [p|n w d l IHl r IHr]; intros idx Hw Hi; [done|].
  cbn in *. destruct Hw as (Hl & Hr & _). rewrite length_app in Hi. rewrite rope_get_len_text by done.
  destruct (Z.ltb_spec idx (len (rope_text l))).
  - rewrite IHl by (done || lia). by rewrite lookup_total_app_l by lia.
  - rewrite IHr by (done || lia). rewrite lookup_total_app_r by lia. f_equal. lia.
Qed.

(** The stack of an iterator: the depths left fit in its array. *)
Fixpoint stack_ok (st : list (Rope S)) : Prop :=
  match st with
  | [] => True
  | v :: st => rope_wf v /\ rope_depth v + len st <= JS_STRING_ROPE_MAX_DEPTH /\ stack_ok st
  end.

Definition stack_text (st : list (Rope S)) : list Z := concat (map rope_text st).
Definition stack_leaves (st : list (Rope S)) : nat := sum_list_with leaves st.

Lemma descend_spec val : forall st, rope_wf val -> rope_depth val + len st <= JS_STRING_ROPE_MAX_DEPTH ->
  stack_ok st ->
  exists p st', descend val st = Some (p, st') /\ stack_ok st' /\
    leaf_units p ++ stack_text st' = rope_text val ++ stack_text st /\
    (1 + stack_leaves st' = leaves val + stack_leaves st)%nat.
Proof.
  induction val as [p|n w d l IHl r IHr]; intros st Hw Hd Hst; [by exists p, st|].
  cbn in Hw, Hd. destruct Hw as (Hl & Hr & _ & _ & _ & Hmax). cbn [descend].
  unfold JS_STRING_ROPE_MAX_DEPTH in *. pose proof (rope_depth_nonneg l Hl).
  replace (len st <? 60) with true by lia.
  destruct (IHl (r :: st) Hl ltac:(cbn; lia)) as (p & st' & -> & H1 & H2 & H3).
  { cbn. split; [done|]. split; [unfold JS_STRING_ROPE_MAX_DEPTH; lia|done]. }
  exists p, st'. split; [done|]. split; [done|]. split.
  - rewrite H2. cbn. by rewrite <- app_assoc.
  - unfold stack_leaves in *. cbn [leaves sum_list_with] in *. lia.
Qed.

(** What an iterator has left to read: the rest of its leaf, then its stack. *)
Definition cursor_text (p : option S) (pos : Z) (st : list (Rope S)) : list Z :=
  match p with Some p => drop (Z.to_nat pos) (leaf_units p) ++ stack_text st | None => [] end.
Definition cursor_leaves (p : option S) (st : list (Rope S)) : nat :=
  match p with Some _ => 1 + stack_leaves st | None => 0 end.
Definition cursor_ok (p : option S) (pos : Z) (st : list (Rope S)) : Prop :=
  match p with Some p => 0 <= pos <= leaf_len p | None => st = [] end /\ stack_ok st.

Lemma iter_next_spec st : stack_ok st -> exists p st', string_rope_iter_next st = Some (p, st') /\
  cursor_ok p 0 st' /\ cursor_text p 0 st' = stack_text st /\ cursor_leaves p st' = stack_leaves st.
Proof.
  destruct st as [|v st]; [by exists None, []|]. intros (Hv & Hd & Hst).
  destruct (descend_spec v st Hv Hd Hst) as (p & st' & E & H1 & H2 & H3). cbn. rewrite E. cbn.
  exists (Some p), st'. split; [done|]. cbn. split; [split; [|done]|by split].
  split; [lia|]. apply leaf_len_nonneg.
Qed.

Lemma advance_spec p pos l st : cursor_ok (Some p) pos st -> 0 <= l <= leaf_len p - pos ->
  exists p' pos' st', advance p pos l st = Some (p', pos', st') /\ cursor_ok p' pos' st' /\
    cursor_text p' pos' st' = drop (Z.to_nat l) (cursor_text (Some p) pos st) /\
    (cursor_leaves p' st' + (if (leaf_len p <=? pos + l)%Z then 1 else 0) = cursor_leaves (Some p) st)%nat.
Proof.
  intros [Hpos Hst] Hl. unfold advance. rewrite leaf_len_units in *. cbn [cursor_text cursor_leaves].
  rewrite drop_app_le by (rewrite length_drop; lia). rewrite drop_drop.
  replace (Z.to_nat pos + Z.to_nat l)%nat with (Z.to_nat (pos + l)) by lia.
  destruct (Z.leb_spec (len (leaf_units p)) (pos + l)) as [Hle|Hgt].
  - destruct (iter_next_spec st Hst) as (p' & st' & -> & H1 & H2 & H3). cbn.
    exists p', 0, st'. split; [done|]. split; [done|]. split; [|lia].
    rewrite H2, drop_ge by lia. done.
  - exists (Some p), (pos + l), st. split; [done|]. split; [split; [rewrite leaf_len_units; lia|done]|].
    split; [done|cbn; lia].
Qed.

Lemma memcmp_0 t1 t2 : js_string_memcmp t1 t2 0 = 0.
Proof. by destruct t1. Qed.

Lemma memcmp_split n : forall l (t1 t2 : list Z), (l <= n)%nat -> (l <= length t1)%nat -> (l <= length t2)%nat ->
  js_string_memcmp t1 t2 n =
    if js_string_memcmp t1 t2 l =? 0 then js_string_memcmp (drop l t1) (drop l t2) (n - l)
    else js_string_memcmp t1 t2 l.
Proof.
  induction n as [|n IH]; intros l t1 t2 Hn H1 H2.
  { assert (l = 0%nat) as -> by lia. by rewrite !memcmp_0. }
  destruct l as [|l]; [by rewrite memcmp_0, Nat.sub_0_r|]. destruct t1 as [|c1 t1], t2 as [|c2 t2]; cbn in H1, H2; try lia.
  cbn [js_string_memcmp drop]. destruct (Z.eqb_spec c1 c2) as [->|Hne].
  - rewrite (IH l) by lia. by replace (Datatypes.S n - Datatypes.S l)%nat with (n - l)%nat by lia.
  - by replace (c1 - c2 =? 0) with false by lia.
Qed.

Lemma memcmp_app n t1 t2 (u1 u2 : list Z) : (n <= length t1)%nat -> (n <= length t2)%nat ->
  js_string_memcmp (t1 ++ u1) (t2 ++ u2) n = js_string_memcmp t1 t2 n.
Proof.
  revert t1 t2. induction n as [|n IH]; intros t1 t2 H1 H2; [by rewrite !memcmp_0|].
  destruct t1 as [|c1 t1], t2 as [|c2 t2]; cbn in H1, H2; try lia. cbn.
  rewrite IH by lia. done.
Qed.

Lemma rope_compare_loop_spec fuel : forall n p1 pos1 st1 p2 pos2 st2,
  0 <= n -> cursor_ok p1 pos1 st1 -> cursor_ok p2 pos2 st2 ->
  n <= len (cursor_text p1 pos1 st1) -> n <= len (cursor_text p2 pos2 st2) ->
  (cursor_leaves p1 st1 + cursor_leaves p2 st2 <= fuel)%nat ->
  rope_compare_loop fuel n p1 pos1 st1 p2 pos2 st2 =
    Some (js_string_memcmp (cursor_text p1 pos1 st1) (cursor_text p2 pos2 st2) (Z.to_nat n)).
Proof.
  induction fuel as [|fuel IH]; intros n p1 pos1 st1 p2 pos2 st2 Hn Hok1 Hok2 Hl1 Hl2 Hf; cbn [rope_compare_loop];
    (destruct (Z.eqb_spec n 0) as [->|Hn0]; [by rewrite memcmp_0|]);
    (destruct p1 as [p1|]; [|cbn in Hl1; lia]); (destruct p2 as [p2|]; [|cbn in Hl2; lia]).
  { cbn in Hf. lia. }
  set (l := Z.min (Z.min (leaf_len p1 - pos1) (leaf_len p2 - pos2)) n).
  pose proof Hok1 as [Hp1 _]. pose proof Hok2 as [Hp2 _].
  assert (Hl : 0 <= l /\ l <= leaf_len p1 - pos1 /\ l <= leaf_len p2 - pos2 /\ l <= n) by lia.
  assert (Hd1 : len (drop (Z.to_nat pos1) (leaf_units p1)) = leaf_len p1 - pos1) by (rewrite leaf_len_units in *; rewrite length_drop; lia).
  assert (Hd2 : len (drop (Z.to_nat pos2) (leaf_units p2)) = leaf_len p2 - pos2) by (rewrite leaf_len_units in *; rewrite length_drop; lia).
  rewrite (memcmp_split (Z.to_nat n) (Z.to_nat l)) by lia.
  replace (js_string_memcmp (cursor_text (Some p1) pos1 st1) (cursor_text (Some p2) pos2 st2) (Z.to_nat l))
    with (js_string_memcmp (drop (Z.to_nat pos1) (leaf_units p1)) (drop (Z.to_nat pos2) (leaf_units p2)) (Z.to_nat l))
    by (cbn [cursor_text]; rewrite memcmp_app by lia; done).
  destruct (js_string_memcmp _ _ (Z.to_nat l) =? 0) eqn:Er; cbn [negb]; [|done].
  destruct (advance_spec p1 pos1 l st1 Hok1 ltac:(lia)) as (q1 & pos1' & st1' & -> & Hok1' & Ht1 & Hv1).
  destruct (advance_spec p2 pos2 l st2 Hok2 ltac:(lia)) as (q2 & pos2' & st2' & -> & Hok2' & Ht2 & Hv2).
  cbn [mbind option_bind]. destruct (decide (l = n)) as [->|Hln].
  - rewrite Z.sub_diag, Nat.sub_diag, memcmp_0. by destruct fuel.
  - rewrite IH; [|lia|done|done|rewrite Ht1, length_drop; lia|rewrite Ht2, length_drop; lia|].
    + rewrite Ht1, Ht2. do 2 f_equal. lia.
    + destruct (Z.leb_spec (leaf_len p1) (pos1 + l)), (Z.leb_spec (leaf_len p2) (pos2 + l)); lia.
Qed.

(** The comparison of two ropes is the one of their texts. *)
Lemma js_string_rope_compare_spec op1 op2 : rope_wf op1 -> rope_wf op2 -> shallow op1 -> shallow op2 ->
  js_string_rope_compare op1 op2 false =
    Some (js_string_compare (mkString true (rope_text op1)) (mkString true (rope_text op2))) /\
  exists r, js_string_rope_compare op1 op2 true = Some r /\ (r = 0 <-> rope_text op1 = rope_text op2).
Proof.
  intros H1 H2 Hs1 Hs2. unfold js_string_rope_compare. rewrite !rope_get_len_text by done.
  assert (Hst : forall op, rope_wf op -> shallow op -> stack_ok [op]).
  { intros op Hw Hs. cbn. split; [done|]. split; [unfold shallow in Hs; lia|done]. }
  destruct (iter_next_spec [op1] (Hst _ H1 Hs1)) as (p1 & it1 & -> & Hok1 & Ht1 & Hv1).
  destruct (iter_next_spec [op2] (Hst _ H2 Hs2)) as (p2 & it2 & -> & Hok2 & Ht2 & Hv2).
  cbn [mbind option_bind]. cbn in Ht1, Ht2, Hv1, Hv2. rewrite app_nil_r in Ht1, Ht2.
  rewrite rope_compare_loop_spec; [|lia|done|done|rewrite Ht1; lia|rewrite Ht2; lia|lia].
  cbn [mbind option_bind]. rewrite Ht1, Ht2.
  assert (E : (if negb (js_string_memcmp (rope_text op1) (rope_text op2)
      (Z.to_nat (len (rope_text op1) `min` len (rope_text op2))) =? 0)
    then js_string_memcmp (rope_text op1) (rope_text op2)
      (Z.to_nat (len (rope_text op1) `min` len (rope_text op2)))
    else if len (rope_text op1) =? len (rope_text op2) then 0
    else if len (rope_text op1) <? len (rope_text op2) then -1 else 1) =
    js_string_compare (mkString true (rope_text op1)) (mkString true (rope_text op2))).
  { unfold js_string_compare. cbn [units].
    replace (Z.to_nat (len (rope_text op1) `min` len (rope_text op2)))
      with (Nat.min (length (rope_text op1)) (length (rope_text op2))) by lia.
    destruct (js_string_memcmp _ _ _ =? 0); cbn [negb]; [|done].
    destruct (Z.eqb_spec (len (rope_text op1)) (len (rope_text op2))),
      (Nat.eqb_spec (length (rope_text op1)) (length (rope_text op2))); try lia.
    destruct (Z.ltb_spec (len (rope_text op1)) (len (rope_text op2))),
      (Nat.ltb_spec (length (rope_text op1)) (length (rope_text op2))); lia. }
  rewrite E. cbn [andb]. split; [done|].
  pose proof (memcmp_compare (rope_text op1) (rope_text op2)) as HM. cbv zeta in HM.
  fold (js_string_compare (mkString true (rope_text op1)) (mkString true (rope_text op2))) in HM.
  destruct (Z.eqb_spec (len (rope_text op1)) (len (rope_text op2))) as [El|El]; cbn [negb andb].
  - eexists. split; [done|]. rewrite <- units_compare_eq.
    change (Z.sgn (js_string_compare (mkString true (rope_text op1)) (mkString true (rope_text op2))) =
      match units_compare (rope_text op1) (rope_text op2) with Lt => -1 | Eq => 0 | Gt => 1 end) in HM.
    rewrite <- Z.sgn_null_iff, HM. by destruct (units_compare _ _).
  - exists 1. split; [done|]. split; [done|]. intros Et. by rewrite Et in El.
Qed.
End reading.
