(* ===== verification/RopeLocal.v ===== *)
(** * Concatenations that no failed allocation reaches

    An allocation that fails before a concatenation starts, or after it ends, has no effect
    on it: a concatenation during which every allocation succeeds behaves as one with memory
    for ever. *)
From S2P Require Export Ropes.

(** Memory for ever. *)
Definition plenty : World := fun _ => true.

Section local.
Context {W : World}.

Definition succeed_between (m n : nat) : Prop := forall k, (m <= k < n)%nat -> ext_ok k = true.

Lemma succeed_or_failed m n : succeed_between m n \/ failed_between m n.
Proof.
  destruct (decide (Forall (fun k => ext_ok k = true) (seq m (n - m)))) as [H|H].
  - left. intros k Hk. rewrite Forall_forall in H. apply H, elem_of_seq. lia.
  - right. apply not_Forall_Exists in H; [|apply _]. apply Exists_exists in H as (k & Hin%elem_of_seq & Hk).
    exists k. split; [lia|]. by apply not_true_is_false.
Qed.

(** [m2] is [m1] with memory for ever. *)
Definition local {A} (m1 m2 : R A) : Prop := forall ev,
  match m1 ev with
  | Done r ev' => (ev <= ev')%nat /\ (succeed_between ev ev' -> m2 ev = Done r ev')
  | o => (forall k, (ev <= k)%nat -> ext_ok k = true) -> m2 ev = o
  end.

Lemma local_ret {A} (x : A) : local (rret x) (rret x).
Proof. by split. Qed.

Lemma local_throw {A} e : local (rthrow (A := A) e) (rthrow e).
Proof. by split. Qed.

Lemma local_out_of_bounds {A} : local (A := A) (fun _ => OutOfBounds) (fun _ => OutOfBounds).
Proof. by intros ev. Qed.

Lemma local_overflow {A} : local (A := A) (fun _ => StackOverflow) (fun _ => StackOverflow).
Proof. by intros ev. Qed.

Lemma local_bind {A B} (m1 m2 : R A) (f1 f2 : A -> R B) :
  local m1 m2 -> (forall x, local (f1 x) (f2 x)) -> local (rbind m1 f1) (rbind m2 f2).
Proof.
  intros Hm Hf ev. specialize (Hm ev). unfold rbind. destruct (m1 ev) as [[x|e] ev1| |]; cycle 2.
  - intros H. by rewrite Hm.
  - intros H. by rewrite Hm.
  - destruct Hm as [Hle Hm]. specialize (Hf x ev1). destruct (f1 x ev1) as [r ev2| |].
    + destruct Hf as [Hle2 Hf]. split; [lia|]. intros H. rewrite Hm by (intros k Hk; apply H; lia). apply Hf.
      intros k Hk. apply H. lia.
    + intros H. rewrite Hm by (intros k Hk; apply H; lia). apply Hf. intros k Hk. apply H. lia.
    + intros H. rewrite Hm by (intros k Hk; apply H; lia). apply Hf. intros k Hk. apply H. lia.
  - destruct Hm as [Hle Hm]. split; [done|]. intros H. by rewrite Hm.
Qed.

Lemma local_catch {A} (m1 m2 : R A) : local m1 m2 -> local (rcatch m1) (rcatch m2).
Proof.
  intros Hm ev. specialize (Hm ev). unfold rcatch. destruct (m1 ev) as [r ev1| |]; [|intros H; by rewrite Hm..].
  destruct Hm as [Hle Hm]. split; [done|]. intros H. by rewrite Hm.
Qed.

Lemma local_lift {A} (m1 m2 : M A) :
  (forall ev, (ev <= snd (m1 ev))%nat /\ (succeed_between ev (snd (m1 ev)) -> m2 ev = m1 ev)) -> local (lift m1) (lift m2).
Proof.
  intros Hm ev. specialize (Hm ev) as [H1 H2]. unfold lift. destruct (m1 ev) as [r ev1]. cbn [snd] in *.
  split; [done|]. intros H. by rewrite H2.
Qed.

Lemma local_alloc : local (lift (@js_alloc W)) (lift (@js_alloc plenty)).
Proof.
  apply local_lift. intros ev. cbn. split; [lia|]. intros H. unfold js_alloc. by rewrite (H ev) by lia.
Qed.

Lemma local_if {A} (b : bool) (m1 m2 n1 n2 : R A) : local m1 m2 -> local n1 n2 -> local (if b then m1 else n1) (if b then m2 else n2).
Proof. by destruct b. Qed.
End local.

Create HintDb local.
#[export] Hint Resolve local_ret local_throw local_out_of_bounds local_overflow local_alloc local_if : local.

(** One step along the structure of both computations. *)
Ltac local_step :=
  cbn [leaf_len leaf_wide leaf_empty js_string_leaf string_rope_get_len rope_wide];
  match goal with
  | |- local (rbind _ _) (rbind _ _) => apply local_bind; [|intros ?]
  | |- local (rcatch _) (rcatch _) => apply local_catch
  | |- local (match ?x with _ => _ end) _ => destruct x
  | _ => solve [eauto with local]
  end.

Section ropes.
Context {W : World} {Ip : InPlace}.

(** The strings of the engine, with the memory of [W] or for ever. *)
#[local] Abbreviation leaf1 := (@js_string_leaf W Ip).
#[local] Abbreviation leaf2 := (@js_string_leaf plenty Ip).

Section rebalance.
Context (new1 new2 : Rope JSString -> Rope JSString -> R (Rope JSString)) (Hnew : forall a b, local (new1 a b) (new2 a b)).
#[local] Hint Resolve Hnew : local.

Lemma local_collect n : forall i len a bs, local (collect new1 n i len a bs) (collect new2 n i len a bs).
Proof. induction n as [|n IH]; intros; cbn [collect]; repeat local_step. Qed.

Lemma local_place n : forall i a bs, local (place new1 n i a bs) (place new2 n i a bs).
Proof. induction n as [|n IH]; intros; cbn [place]; repeat local_step. Qed.
#[local] Hint Resolve local_collect local_place : local.

Lemma local_rec val : forall bs,
  local (@js_rebalancee_string_rope_rec _ leaf1 new1 val bs) (@js_rebalancee_string_rope_rec _ leaf2 new2 val bs).
Proof. induction val as [p|n w d l IHl r IHr]; intros bs; cbn [js_rebalancee_string_rope_rec]; repeat local_step. Qed.
#[local] Hint Resolve local_rec : local.

Lemma local_join bs : forall a, local (join new1 bs a) (join new2 bs a).
Proof. induction bs as [|[b|] bs IH]; intros a; cbn [join]; repeat local_step. Qed.
#[local] Hint Resolve local_join : local.

Lemma local_rebalance_body rope : local (@rebalance_body _ leaf1 new1 rope) (@rebalance_body _ leaf2 new2 rope).
Proof. unfold rebalance_body. repeat local_step. Qed.
End rebalance.

Lemma local_new (rebalance1 rebalance2 : Rope JSString -> R (Rope JSString)) a b : (forall r, local (rebalance1 r) (rebalance2 r)) ->
  local (@js_new_string_rope _ leaf1 W rebalance1 a b) (@js_new_string_rope _ leaf2 plenty rebalance2 a b).
Proof.
  intros Hr. unfold js_new_string_rope. change (@string_rope_get_len _ leaf1) with (@string_rope_get_len _ leaf2).
  change (@rope_wide _ leaf1) with (@rope_wide _ leaf2). repeat local_step.
Qed.

Lemma local_rebalance fuel : forall rope,
  local (@js_rebalancee_string_rope _ leaf1 W fuel rope) (@js_rebalancee_string_rope _ leaf2 plenty fuel rope).
Proof.
  induction fuel as [|fuel IH]; intros rope; cbn [js_rebalancee_string_rope]; [apply local_overflow|].
  apply local_rebalance_body. intros a b. by apply local_new.
Qed.

Lemma local_new_string_rope fuel a b : local (@new_string_rope _ leaf1 W fuel a b) (@new_string_rope _ leaf2 plenty fuel a b).
Proof. apply local_new, local_rebalance. Qed.

Lemma local_concat_flat p1 p2 : local (@concat_flat _ leaf1 p1 p2) (@concat_flat _ leaf2 p1 p2).
Proof.
  unfold concat_flat. apply local_bind; [|intros; apply local_ret]. apply local_lift. intros ev.
  cbn [leaf_concat js_string_leaf]. unfold JS_ConcatString2. destruct (JS_ConcatStringInPlace p1 p2 ev); [by split|].
  unfold JS_ConcatString1. destruct (_ <? _); [by split|]. unfold bind, js_alloc_string, js_alloc, ret.
  destruct (ext_ok ev) eqn:E; cbn; [split; [lia|done]|]. split; [lia|]. intros H. rewrite (H ev) in E by lia. done.
Qed.
#[local] Hint Resolve local_new_string_rope local_concat_flat : local.

Lemma local_ConcatString fuel op1 op2 :
  local (@JS_ConcatString _ leaf1 W fuel op1 op2) (@JS_ConcatString _ leaf2 plenty fuel op1 op2).
Proof. unfold JS_ConcatString. repeat local_step. Qed.
End ropes.
