(* ===== verification/RopeStrings.v ===== *)
(** * Ropes of strings

    The ropes of [Ropes] over the engine's strings: the interface of the leaves is
    implemented by the concatenations of flat strings, a rope is linearized through a
    string buffer, and the operations on ropes agree with the ones on their texts. *)
From S2P Require Export RopeLocal.

Section leaf.
Context {W : World} {Sl : Slack} {Ip : InPlace}.

Lemma string_wf_append w p1 p2 : string_wf p1 -> string_wf p2 ->
  (w = false -> is_wide_char p1 = false /\ is_wide_char p2 = false) ->
  string_wf (mkString w (units p1 ++ units p2)).
Proof.
  intros [H1 H1'] [H2 H2'] Hw. split; cbn; [by apply Forall_app|].
  intros E. destruct (Hw E). apply Forall_app. auto.
Qed.

(** Appending in place and copying give the same characters. *)
Lemma JS_ConcatString2_spec p1 p2 ev : string_wf p1 -> string_wf p2 ->
  len (units p1) + len (units p2) < 2 ^ 32 ->
  post (JS_ConcatString2 p1 p2) ev
    (fun p => string_wf p /\ units p = units p1 ++ units p2)
    (fun e => e = InternalError "string too long" /\
       JS_STRING_LEN_MAX < len (units p1) + len (units p2)).
Proof.
  intros H1 H2 Hl. unfold JS_ConcatString2.
  destruct (JS_ConcatStringInPlace p1 p2 ev) as [p|] eqn:E.
  - unfold post. rewrite E. apply post_ret. unfold JS_ConcatStringInPlace in E.
    destruct (Z.eqb_spec (len (units p2)) 0) as [E0|_].
    { injection E as <-. split; [done|]. destruct (units p2); [|done]. by rewrite app_nil_r. }
    destruct (usable_size ev) as [size|]; [|done].
    assert (Hp : p = mkString (is_wide_char p1) (units p1 ++ units p2) /\
      (is_wide_char p1 = false -> is_wide_char p2 = false)).
    { destruct (is_wide_char p1), (is_wide_char p2); cbn [negb] in E;
        repeat (match type of E with context [?a <=? ?b] => destruct (a <=? b) end); by simplify_eq. }
    destruct Hp as [-> Hw]. split; [|done]. apply string_wf_append; auto.
  - unfold post. rewrite E. unfold JS_ConcatString1. rewrite wrap_small by (unfold word; lia).
    destruct (Z.ltb_spec JS_STRING_LEN_MAX (len (units p1) + len (units p2))); [by apply (conj (le_n ev))|].
    eapply post_bind; [apply post_alloc|]. intros _ ev' _. apply post_ret. split; [|done].
    apply string_wf_append; [done..|]. intros Hw. by apply orb_false_iff.
Qed.

#[global] Instance js_string_leaf_laws : LeafLaws JSString := {|
  leaf_wf := string_wf;
  leaf_len_units p := eq_refl;
  leaf_empty_ok := conj (conj (Forall_nil_2 _) (fun _ => Forall_nil_2 _)) eq_refl;
  leaf_concat_ok := JS_ConcatString2_spec
|}.
End leaf.

(** ** Linearization *)
Section linearize.
Context {W : World} {Sl : Slack} (Hslack : forall n, 0 <= slack n) {Ip : InPlace}.

Lemma write8_flag s p : sb_wf s -> error_status s = false ->
  fst (string_buffer_write8 s p) = error_status (snd (string_buffer_write8 s p)).
Proof.
  intros Hs He. unfold string_buffer_write8. destruct (_ <? _); [|by cbn].
  pose proof (realloc_spec Hslack s (len p) 0 Hs ltac:(lia)) as HR.
  destruct (string_buffer_realloc _ _ _) as [[] s']; destruct HR as (_ & HR & _); by rewrite HR.
Qed.

Lemma write16_flag s p : sb_wf s -> error_status s = false ->
  fst (string_buffer_write16 s p) = error_status (snd (string_buffer_write16 s p)).
Proof.
  intros Hs He. unfold string_buffer_write16. cbv zeta. destruct (_ <? _).
  - pose proof (realloc_spec Hslack s (len p) (foldl Z.lor 0 p) Hs ltac:(lia)) as HR.
    destruct (string_buffer_realloc _ _ _) as [[] s']; destruct HR as (_ & HR & _); by rewrite HR.
  - destruct (_ && _); [|by cbn].
    assert (Hl : sb_len s <= sb_size s) by (unfold sb_wf in Hs; rewrite He in Hs; tauto).
    pose proof (widen_spec Hslack s (sb_size s) Hs Hl) as HR.
    destruct (string_buffer_widen _ _) as [[] s']; destruct HR as (_ & HR & _); by rewrite HR.
Qed.

Lemma concat_flag s p : sb_wf s -> error_status s = false ->
  fst (string_buffer_concat s p 0 (len (units p))) =
  error_status (snd (string_buffer_concat s p 0 (len (units p)))).
Proof.
  intros Hs He. unfold string_buffer_concat. destruct (_ <=? _); [done|].
  destruct (is_wide_char p); [by apply write16_flag|by apply write8_flag].
Qed.

(** Narrow characters keep a narrow buffer narrow. *)
Lemma write8_narrow s p : sb_wide (snd (string_buffer_write8 s p)) = sb_wide s.
Proof.
  unfold string_buffer_write8. destruct (_ <? _); [|done].
  unfold string_buffer_realloc, string_buffer_set_error.
  destruct (error_status s); [done|]. destruct (_ <? _); [done|].
  replace (negb (sb_wide s) && (256 <=? 0)) with false by (by destruct (sb_wide s)). by destruct (ext_ok _).
Qed.

Lemma concat_value_spec v : forall s, rope_wf v -> sb_wf s -> error_status s = false ->
  let '(err, s') := string_buffer_concat_value s v in
  extends s s' (len (rope_text v)) (rope_text v) /\ err = error_status s' /\
  (rope_wide v = false -> sb_wide s' = sb_wide s).
Proof.
  induction v as [p|n w d l IHl r IHr]; intros s Hv Hs He; cbn [string_buffer_concat_value]; rewrite He.
  - pose proof (concat_spec Hslack s p 0 (len (units p)) Hs Hv ltac:(lia) ltac:(lia)) as HC.
    pose proof (concat_flag s p Hs He) as HF.
    assert (HN : rope_wide (Str p) = false ->
      sb_wide (snd (string_buffer_concat s p 0 (len (units p)))) = sb_wide s).
    { cbn. intros Hn. unfold string_buffer_concat. destruct (_ <=? _); [done|]. rewrite Hn. apply write8_narrow. }
    destruct (string_buffer_concat s p 0 (len (units p))) as [err s']. cbn in HC, HF, HN |- *.
    unfold slice in HC. rewrite Z.sub_0_r, Nat2Z.id, drop_0, firstn_all in HC.
    replace (Z.max 0 (len (units p))) with (len (units p)) in HC by lia. done.
  - destruct Hv as (Hl & Hr & _ & _ & (Hw & _) & _). specialize (IHl s Hl Hs He).
    destruct (string_buffer_concat_value s l) as [err s1]. destruct IHl as (H1 & -> & N1).
    cbn [rope_text rope_wide]. rewrite length_app, Nat2Z.inj_add. destruct (error_status s1) eqn:E1.
    + split; [|split; [done|]].
      * destruct H1 as (Wf & Vf & E). split; [done|]. split; [done|]. rewrite E1 in *.
        destruct E as [E|[E|E]]; [by left|by right; left|right; right; lia].
      * intros Hn. apply N1. destruct (rope_wide l); [|done]. by rewrite Hw in Hn.
    + specialize (IHr s1 Hr (proj1 H1) E1).
      destruct (string_buffer_concat_value s1 r) as [err s2]. destruct IHr as (H2 & -> & N2).
      split; [|split; [done|]].
      * eapply extends_trans; [lia|reflexivity|done|done].
      * intros Hn. assert (rope_wide l = false /\ rope_wide r = false) as [Hwl Hwr].
        { destruct (rope_wide l), (rope_wide r); try done; by rewrite Hw in Hn. }
        rewrite N2, N1; done.
Qed.

(** The string that [js_linearize_string_rope] returns has the text of the rope, and so
    has the rope that remains. *)
Lemma js_linearize_string_rope_spec rope shared ev : rope_wf rope ->
  let '(res, rope') := js_linearize_string_rope rope shared ev in
  rope_wf rope' /\ rope_text rope' = rope_text rope /\ rope_depth rope' = rope_depth rope /\
  match res with
  | Some r => exists p, r = Str p /\ string_wf p /\ units p = rope_text rope
  | None => exists k, (ev <= k)%nat /\ ext_ok k = false
  end.
Proof.
  destruct rope as [p|n w d l r]; intros Hwf; cbn [js_linearize_string_rope]; [by eauto 10|].
  pose proof Hwf as (Hl & Hr & Hn & Hmax & (Hw & Htail) & Hd).
  destruct (match r with Str p => len (units p) =? 0 | _ => false end) eqn:Emp.
  { destruct r as [p|]; [|done]. apply Z.eqb_eq in Emp. cbn in Htail.
    destruct l as [q|]; [|by specialize (Htail Emp)]. split_and!; try done.
    exists q. split; [done|]. split; [done|]. cbn. destruct (units p); [|done]. by rewrite app_nil_r. }
  unfold string_buffer_init2. rewrite Hn. replace (0 <=? len (rope_text l ++ rope_text r)) with true by lia. cbn [andb].
  destruct (ext_ok ev) eqn:Eo; [|rewrite <- Hn; split_and!; try done; by exists ev].
  set (b := mkSB [] _ w false (S ev)).
  assert (Hb : sb_wf b) by (split; [cbn; lia|done]).
  pose proof (concat_value_spec (Node n w d l r) b Hwf Hb eq_refl) as HC.
  destruct (string_buffer_concat_value b (Node n w d l r)) as [err b'] eqn:EC.
  destruct HC as ((Wb & Vb & Eb) & -> & Nb). rewrite <- Hn, EC. destruct (error_status b') eqn:Ee.
  - split_and!; try done. destruct Eb as [Eb|[(k & Hk & Ek)|Eb]]; [done|exists k; split; [cbn in Hk; lia|done]|].
    cbn in Eb. rewrite <- Hn in Eb. lia.
  - destruct Eb as [_ Eb]. cbn in Eb. unfold sb_wf in Wb. rewrite Ee in Wb. destruct Wb as (Wb1 & Wb2 & Wb3).
    assert (HE : exists s, string_buffer_end b' = Some s /\ units s = rope_text l ++ rope_text r /\
      string_wf s /\ (is_wide_char s = true -> sb_wide b' = true)).
    { unfold string_buffer_end. rewrite Ee, Eb. rewrite Eb in Wb1, Wb2, Wb3.
      destruct (len (rope_text l ++ rope_text r) =? 0) eqn:E0; eexists; (split; [reflexivity|]).
      - destruct (rope_text l ++ rope_text r); [|done]. by repeat split.
      - by repeat split. }
    destruct HE as (s & -> & Hu & Hs & Hws).
    assert (Hwide : is_wide_char s = true -> w = true).
    { intros Hs'. destruct w; [done|]. specialize (Nb eq_refl). specialize (Hws Hs'). by rewrite Nb in Hws. }
    pose proof (rope_depth_nonneg l Hl).
    destruct shared; (split; [|split; [|split; [done|by exists s]]]); try done.
    + cbn. rewrite Hu, app_nil_r, orb_false_r. split_and!; try done. lia.
    + cbn. by rewrite Hu, app_nil_r.
Qed.
End linearize.

(** ** The operations on ropes and their texts *)
Section theorems.
Context {W : World} {Sl : Slack} {Ip : InPlace}.

(** The ropes that the engine can hold: strings, concatenations, and ropes that a
    linearization has updated, whichever allocations fail; but a concatenation in which one
    fails has fewer than [balanced_limit] characters. *)
Inductive reachable (fuel : nat) : Rope JSString -> Prop :=
  | reach_str p : string_wf p -> len (units p) <= JS_STRING_LEN_MAX -> reachable fuel (Str p)
  | reach_concat op1 op2 r ev ev' : reachable fuel op1 -> reachable fuel op2 ->
      succeed_between ev ev' \/ len (rope_text op1) + len (rope_text op2) < balanced_limit ->
      JS_ConcatString fuel op1 op2 ev = Done (inl r) ev' -> reachable fuel r
  | reach_linearize op shared ev : reachable fuel op ->
      reachable fuel (snd (js_linearize_string_rope op shared ev)).

(** The invariant of the ropes. *)
Definition rope_ok (r : Rope JSString) : Prop :=
  rope_wf r /\ shallow r /\ len (rope_text r) <= JS_STRING_LEN_MAX.

Lemma concat_pre_ok lossy op1 op2 : rope_ok op1 -> rope_ok op2 -> short_text lossy op1 op2 ->
  concat_pre lossy op1 op2.
Proof. intros (? & ? & ?) (? & ? & ?) ?. unfold concat_pre. tauto. Qed.

(** A concatenation without a failed allocation, on any text. *)
Lemma concat_succeeds fuel op1 op2 ev : (1 <= fuel)%nat -> rope_ok op1 -> rope_ok op2 ->
  match JS_ConcatString fuel op1 op2 ev with
  | Done (inl r) ev' => succeed_between ev ev' -> rope_ok r /\ rope_text r = rope_text op1 ++ rope_text op2
  | Done (inr e) ev' => succeed_between ev ev' -> e = InternalError "string too long" /\
      JS_STRING_LEN_MAX < len (rope_text op1) + len (rope_text op2)
  | StackOverflow => (forall k, (ev <= k)%nat -> ext_ok k = true) -> balanced_limit <= len (rope_text op1) + len (rope_text op2)
  | OutOfBounds => ~ forall k, (ev <= k)%nat -> ext_ok k = true
  end.
Proof.
  intros Hf H1 H2. pose proof (local_ConcatString fuel op1 op2 ev) as HL.
  assert (HP : @concat_pre _ (@js_string_leaf plenty Ip) plenty (@js_string_leaf_laws plenty Ip) False op1 op2)
    by exact (concat_pre_ok False op1 op2 H1 H2 (False_ind _)).
  pose proof (@JS_ConcatString_spec _ (@js_string_leaf plenty Ip) plenty (@js_string_leaf_laws plenty Ip)
    False fuel (or_intror (fun _ => eq_refl)) (or_intror (fun x : False => x)) Hf op1 op2 ev HP) as HC.
  destruct (JS_ConcatString fuel op1 op2 ev) as [[r|e] ev'| |].
  - intros H. destruct HL as [_ HL]. rewrite (HL H) in HC. destruct HC as (Hw & Hs & Hl & HT).
    assert (E : rope_text r = rope_text op1 ++ rope_text op2) by exact (HT (fun x => x)). split; [|exact E].
    split; [exact Hw|]. split; [exact Hs|]. rewrite E, length_app. exact (Z.le_trans _ _ _ (Z.eq_le_incl _ _ (Nat2Z.inj_add _ _)) (proj2 Hl)).
  - intros H. destruct HL as [_ HL]. rewrite (HL H) in HC. destruct HC as [[]|HC]. exact HC.
  - intros H. by rewrite (HL H) in HC.
  - intros H. by rewrite (HL H) in HC.
Qed.

(** A concatenation of fewer than [balanced_limit] characters, whatever allocations fail. *)
Lemma concat_short_ok fuel op1 op2 ev : (1 <= fuel)%nat -> rope_ok op1 -> rope_ok op2 ->
  len (rope_text op1) + len (rope_text op2) < balanced_limit ->
  exists res ev', JS_ConcatString fuel op1 op2 ev = Done res ev' /\
    match res with inl r => rope_ok r | inr _ => True end.
Proof.
  intros Hf H1 H2 Hl. assert (HC := JS_ConcatString_spec True fuel (or_introl I) (or_introl I) Hf op1 op2 ev
    (concat_pre_ok _ _ _ H1 H2 (fun _ => Hl))).
  destruct (JS_ConcatString fuel op1 op2 ev) as [res ev'| |]; cbn in HC; [|lia|done].
  exists res, ev'. split; [done|]. destruct res as [r|]; [|done]. destruct HC as (? & ? & ? & _). unfold rope_ok. split; [done|]. split; [done|lia].
Qed.

(** C25: concatenating two strings or ropes gives a rope whose text is the text of the first
    followed by the text of the second, with correct length, width and depth fields and a
    depth within the limit, or the exception of a result longer than [JS_STRING_LEN_MAX],
    unless an allocation fails during the call.  The rebalancing can fail to end only on
    texts of at least [balanced_limit] characters, and access a bucket outside of its array
    only when, besides, an allocation fails. *)
Theorem rope_concat_text fuel op1 op2 ev :
  (1 <= fuel)%nat -> rope_ok op1 -> rope_ok op2 ->
  match JS_ConcatString fuel op1 op2 ev with
  | Done (inl r) ev' => (rope_ok r /\ rope_text r = rope_text op1 ++ rope_text op2) \/ failed_between ev ev'
  | Done (inr e) ev' => (e = InternalError "string too long" /\
      JS_STRING_LEN_MAX < len (rope_text op1) + len (rope_text op2)) \/ failed_between ev ev'
  | StackOverflow => balanced_limit <= len (rope_text op1) + len (rope_text op2)
  | OutOfBounds => balanced_limit <= len (rope_text op1) + len (rope_text op2) /\
      ~ forall k, (ev <= k)%nat -> ext_ok k = true
  end.
Proof.
  intros Hf H1 H2. pose proof (concat_succeeds fuel op1 op2 ev Hf H1 H2) as HS.
  assert (HB : balanced_limit <= len (rope_text op1) + len (rope_text op2) \/
    exists res ev', JS_ConcatString fuel op1 op2 ev = Done res ev').
  { destruct (Z.lt_ge_cases (len (rope_text op1) + len (rope_text op2)) balanced_limit) as [Hl|]; [right|by left].
    destruct (concat_short_ok fuel op1 op2 ev Hf H1 H2 Hl) as (res & ev' & E & _). by eexists _, _. }
  destruct (JS_ConcatString fuel op1 op2 ev) as [[r|e] ev'| |].
  - destruct (succeed_or_failed ev ev') as [H|H]; [left; by apply HS|by right].
  - destruct (succeed_or_failed ev ev') as [H|H]; [left; by apply HS|by right].
  - by destruct HB as [|(? & ? & ?)].
  - by destruct HB as [|(? & ? & ?)].
Qed.

(** C26: a concatenation of fewer than [balanced_limit] characters returns, whatever
    allocations fail: one level of rebalancing is enough, it stays inside its array of
    buckets, and a rope that is returned is within the depth limit. *)
Theorem rope_concat_terminates op1 op2 ev :
  rope_ok op1 -> rope_ok op2 ->
  len (rope_text op1) + len (rope_text op2) < balanced_limit ->
  exists res ev', JS_ConcatString 1 op1 op2 ev = Done res ev' /\
    match res with inl r => rope_wf r /\ rope_depth r <= 60 | inr _ => True end.
Proof.
  intros H1 H2 Hl. destruct (concat_short_ok 1 op1 op2 ev ltac:(lia) H1 H2 Hl) as (res & ev' & E & H). exists res, ev'.
  split; [done|]. destruct res as [r|]; [|done]. by destruct H as (? & ? & _).
Qed.

(** C27: comparing two ropes, for order or for equality, gives the result of comparing
    their texts as flat strings, and the iteration ends within its stack; a character of a rope
    is the one of its text. *)
Theorem rope_reads_equivalent op1 op2 :
  rope_ok op1 -> rope_ok op2 ->
  js_string_rope_compare op1 op2 false =
    Some (js_string_compare (mkString true (rope_text op1)) (mkString true (rope_text op2))) /\
  (exists r, js_string_rope_compare op1 op2 true = Some r /\
     (r = 0 <-> rope_text op1 = rope_text op2)) /\
  forall idx, 0 <= idx < len (rope_text op1) -> string_rope_get op1 idx = rope_text op1 !!! Z.to_nat idx.
Proof.
  intros (H1 & Hs1 & _) (H2 & Hs2 & _).
  destruct (js_string_rope_compare_spec op1 op2 H1 H2 Hs1 Hs2) as [HA HB].
  split; [done|]. split; [done|]. intros idx Hi. by apply string_rope_get_spec.
Qed.

(** C28: every rope that the engine builds from strings by concatenation and
    linearization satisfies the invariant (for the concatenations in which an allocation
    failed, up to [balanced_limit] characters), and linearizing it returns a flat string
    with its text, or fails after a failed allocation; the rope that remains keeps its text,
    and the invariant, in both cases. *)
Theorem rope_linearize_reachable fuel op shared ev :
  (1 <= fuel)%nat -> (forall n, 0 <= slack n) -> reachable fuel op ->
  rope_ok op /\
  let '(res, op') := js_linearize_string_rope op shared ev in
  rope_ok op' /\ rope_text op' = rope_text op /\
  match res with
  | Some r => exists p, r = Str p /\ string_wf p /\ units p = rope_text op
  | None => exists k, (ev <= k)%nat /\ ext_ok k = false
  end.
Proof.
  intros Hf Hsl Hr. assert (HL : forall op sh ev, rope_ok op -> rope_ok (snd (js_linearize_string_rope op sh ev))).
  { intros op1 sh ev1 (Hw & Hs & Hl). pose proof (js_linearize_string_rope_spec Hsl op1 sh ev1 Hw) as HL.
    destruct (js_linearize_string_rope op1 sh ev1) as [res rope']. destruct HL as (HL1 & HL2 & HL3 & _).
    unfold rope_ok, shallow. cbn [snd]. by rewrite HL2, HL3. }
  assert (Hok : rope_ok op).
  { induction Hr as [p Hp Hl|op1 op2 r ev1 ev1' H1 IH1 H2 IH2 Hev E|op sh ev1 H1 IH1]; [done| |by apply HL].
    destruct Hev as [Hev|Hl].
    - pose proof (concat_succeeds fuel op1 op2 ev1 Hf IH1 IH2) as HS. rewrite E in HS. by apply HS.
    - destruct (concat_short_ok fuel op1 op2 ev1 Hf IH1 IH2 Hl) as (res & ev2 & E2 & H). rewrite E in E2. by injection E2 as <- _. }
  split; [done|]. specialize (HL op shared ev Hok). pose proof (js_linearize_string_rope_spec Hsl op shared ev (proj1 Hok)) as HS.
  destruct (js_linearize_string_rope op shared ev) as [res rope']. destruct HS as (_ & HL2 & _ & HL4).
  split; [exact HL|]. by split.
Qed.
End theorems.

(** ** Witnesses *)

#[local] Instance healthy : World := fun _ => true.
#[local] Instance exact : Slack := fun _ => 0.
#[local] Instance copying : InPlace := fun _ => None.

(** A rope of the greatest depth, of one character per leaf. *)
Fixpoint deep (n : nat) : Rope JSString :=
  match n with
  | O => Str (mkString false [97])
  | S n => Node (Z.of_nat n + 2) false (Z.of_nat n + 1) (deep n) (Str (mkString false [98]))
  end.

Definition long_string : JSString := mkString true (replicate 513 955).

Lemma deep_ok : rope_ok (deep 60).
Proof.
  split; [|split; [vm_compute; discriminate|vm_compute; discriminate]].
  assert (Hd : forall n, (n <= 60)%nat -> rope_wf (deep n) /\ len (rope_text (deep n)) = Z.of_nat n + 1 /\
    rope_depth (deep n) = Z.of_nat n /\ rope_wide (deep n) = false).
  { induction n as [|n IH]; intros Hn; [by repeat constructor|].
    destruct (IH ltac:(lia)) as (H1 & H2 & H3 & H4). cbn [deep rope_wf rope_text rope_depth rope_wide].
    rewrite length_app, H3, H4. cbn [rope_text rope_depth rope_wide leaf_units leaf_wide js_string_leaf units is_wide_char length orb].
    unfold JS_STRING_LEN_MAX. split; [|lia]. split; [done|]. split; [by repeat constructor|].
    split; [lia|]. split; [lia|]. split; [|lia]. split; [done|]. cbn. lia. }
  by apply Hd.
Qed.

Lemma long_ok : rope_ok (Str long_string).
Proof.
  split; [|split; vm_compute; discriminate]. split; [|done].
  apply Forall_replicate. unfold word. lia.
Qed.

Lemma rope_concat_text_witness :
  match JS_ConcatString 1 (deep 60) (Str long_string) 0%nat with
  | Done (inl r) _ => rope_ok r /\ rope_text r = rope_text (deep 60) ++ replicate 513 955
  | _ => False
  end.
Proof.
  pose proof (rope_concat_text 1 (deep 60) (Str long_string) 0 (le_n 1) deep_ok long_ok) as H.
  destruct (JS_ConcatString 1 (deep 60) (Str long_string) 0%nat) as [[r|e] ev| |] eqn:E.
  - destruct H as [H|(k & _ & H)]; [exact H|discriminate H].
  - vm_compute in E. discriminate E.
  - vm_compute in E. discriminate E.
  - vm_compute in E. discriminate E.
Defined.

Lemma rope_concat_terminates_witness :
  exists res ev', JS_ConcatString (W := fun n => n <? 5)%nat 1 (deep 60) (Str long_string) 0%nat = Done res ev' /\
    match res with inl r => rope_wf r /\ rope_depth r <= 60 | inr _ => True end.
Proof.
  apply (rope_concat_terminates (W := fun n => n <? 5)%nat (deep 60) (Str long_string) 0 deep_ok long_ok).
  vm_compute. reflexivity.
Defined.

Lemma rope_reads_equivalent_witness :
  js_string_rope_compare (deep 60) (Str long_string) false = Some (-858) /\
  string_rope_get (deep 60) 60 = 98.
Proof.
  destruct (rope_reads_equivalent (deep 60) (Str long_string) deep_ok long_ok) as (H1 & _ & H2).
  rewrite H1. split; [vm_compute; reflexivity|]. rewrite (H2 60); [vm_compute; reflexivity|].
  vm_compute. split; [discriminate|reflexivity].
Defined.

Lemma rope_linearize_reachable_witness :
  exists p, fst (js_linearize_string_rope (Node 514 true 1 (Str (mkString false [97])) (Str long_string)) true 0) =
    Some (Str p) /\ units p = 97 :: replicate 513 955.
Proof.
  assert (Hr : reachable 1 (Node 514 true 1 (Str (mkString false [97])) (Str long_string))).
  { apply (reach_concat 1 (Str (mkString false [97])) (Str long_string) _ 0 1).
    - apply reach_str; [by repeat constructor|vm_compute; discriminate].
    - apply reach_str; [exact (proj1 long_ok)|vm_compute; discriminate].
    - left. intros k _. reflexivity.
    - vm_compute. reflexivity. }
  pose proof (rope_linearize_reachable 1 _ true 0 (le_n 1) (fun _ => Z.le_refl 0) Hr) as [_ H].
  destruct (js_linearize_string_rope _ true 0) as [[r|] op'].
  - destruct H as (_ & _ & p & -> & _ & H). exists p. split; [reflexivity|exact H].
  - destruct H as (_ & _ & k & _ & H). discriminate H.
Defined.

(** ** Where the rebalancing goes wrong *)

(** A failed allocation inside the recursion of [js_rebalancee_string_rope_rec] is
    forgotten: the concatenation returns a string that lacks characters, instead of the
    exception. *)
Lemma rebalance_loses_text :
  match JS_ConcatString (W := fun n => negb (n =? 1))%nat 1 (deep 60) (Str long_string) 0%nat with
  | Done (inl r) _ => len (rope_text (deep 60)) + 513 - len (rope_text r) = 2
  | _ => False
  end.
Proof. vm_compute. reflexivity. Qed.

(** Strings of which only the length is recorded. *)
#[local] Instance length_leaf : Leaf Z := {|
  leaf_len n := n;
  leaf_wide _ := false;
  leaf_units n := replicate (Z.to_nat n) 97;
  leaf_empty := 0;
  leaf_concat a b :=
    if JS_STRING_LEN_MAX <? a + b then throw (InternalError "string too long")
    else js_alloc ;;; ret (a + b)
|}.

Definition cat (fuel : nat) (a b : R (Rope Z)) : R (Rope Z) :=
  x <-- a ;; y <-- b ;; JS_ConcatString fuel x y.
Definition chars (n : Z) : R (Rope Z) := rret (Str n).

(** The pairs of one character and of a bucket length, from bucket [lo] on, in a balanced
    tree. *)
Fixpoint pairs (fuel d lo n : nat) : R (Rope Z) :=
  match d with
  | O => chars 0
  | S d =>
      if (n <=? 1)%nat then cat fuel (chars 1) (chars (if (lo =? 12)%nat then 513 else B lo))
      else let k := (n / 2)%nat in cat fuel (pairs fuel d lo k) (pairs fuel d (lo + k) (n - k))
  end.

(** The short strings put in front, each of them with 513 characters appended. *)
Definition in_front (fuel : nat) (x : R (Rope Z)) : R (Rope Z) :=
  foldl (fun x n => cat fuel (chars n) (cat fuel x (chars 513))) x
    [233; 1; 144; 1; 89; 1; 55; 1; 34; 1; 21; 1; 13; 1; 8; 1; 5; 1; 3; 1; 2].

(** The rope that the rebalancing builds and rebalances again. *)
Definition node (l r : Rope Z) : Rope Z :=
  Node (string_rope_get_len l + string_rope_get_len r) false
    (Z.max (rope_depth l) (rope_depth r) + 1) l r.
Definition endless : Rope Z := Eval vm_compute in
  node (foldl (fun r i => node (node r (Str 1)) (Str (if (i =? 12)%nat then 513 else B i)))
          (Str 2) (seq 2 30))
    (node (Nat.iter 5 (fun r => node r r) (Str 513)) (node (Str 513) (Str 513))).
Definition long_append (fuel n : nat) : R (Rope Z) :=
  Nat.iter n (fun x => cat fuel x (chars 513)) (in_front fuel (pairs fuel 10 12 20)).
Definition at_limit : Rope Z := Eval vm_compute in
  match long_append 0 12 0%nat with Done (inl r) _ => r | _ => Str 0 end.

Lemma at_limit_reached fuel : exists ev, long_append fuel 12 0%nat = Done (inl at_limit) ev.
Proof. eexists. vm_compute. reflexivity. Qed.

Lemma endless_step rebalance ev : (forall ev, rebalance endless ev = StackOverflow) ->
  rebalance_body (js_new_string_rope rebalance) endless ev = StackOverflow.
Proof. intros H. vm_compute. vm_compute in H. by rewrite H. Qed.

Lemma endless_rebalance fuel ev : js_rebalancee_string_rope fuel endless ev = StackOverflow.
Proof.
  revert ev. induction fuel as [|fuel IH]; intros ev; [done|]. cbn [js_rebalancee_string_rope].
  by apply endless_step.
Qed.

Lemma endless_start rebalance ev : (forall ev, rebalance endless ev = StackOverflow) ->
  rebalance_body (js_new_string_rope rebalance) (node at_limit (Str 513)) ev = StackOverflow.
Proof. intros H. vm_compute. vm_compute in H. by rewrite H. Qed.

Lemma append_513 fuel r ev :
  JS_ConcatString fuel r (Str 513) ev = js_new_string_rope (js_rebalancee_string_rope fuel) r (Str 513) ev.
Proof. by destruct r as [|? ? ? ? []]. Qed.

Lemma node_at_limit rebalance ev :
  js_new_string_rope rebalance at_limit (Str 513) ev = rebalance (node at_limit (Str 513)) (S ev).
Proof. vm_compute. reflexivity. Qed.

(** [js_rebalancee_string_rope] calls itself, through [js_new_string_rope], on a rope that
    is rebalanced to itself: there are strings of nine million characters, built with some
    hundred concatenations, to which 513 characters cannot be appended, however large the
    stack is. *)
Lemma rebalance_never_ends fuel : exists ev,
  long_append fuel 12 0%nat = Done (inl at_limit) ev /\
  JS_ConcatString fuel at_limit (Str 513) ev = StackOverflow.
Proof.
  destruct (at_limit_reached fuel) as [ev E]. exists ev. split; [exact E|].
  rewrite append_513, node_at_limit. destruct fuel as [|fuel]; [done|].
  apply endless_start, endless_rebalance.
Qed.
