(* ===== verification/JsBigInt.v ===== *)
(** * BigInt arithmetic

    The [js_bigint_*] routines of [src/quickjs/quickjs.c].  A [JSBigInt] is its limb
    array [tab], whose length is the field [len]; it is read in two's complement
    ([sval]).  Each routine is proved to compute the integer operation that ECMAScript
    prescribes, to return a normalized array and to throw only the documented errors. *)
From S2P Require Export JsMp Engine.

(** The array [tab] of a [JSBigInt]; [len] is its length. *)
Abbreviation JSBigInt := (list Z).

Section definitions.
Context (w : Z) {W : World}.

Definition JS_BIGINT_MAX_SIZE : Z := 1024 * 1024 / w.

Definition js_bigint_new (len : Z) : M unit :=
  if JS_BIGINT_MAX_SIZE <? len
  then throw (RangeError "BigInt is too large to allocate")
  else js_alloc.

Definition js_bigint_set_si (a : Z) : JSBigInt := [wrap w a].

Definition js_bigint_set_si64 (a : Z) : JSBigInt :=
  if w =? 64 then js_bigint_set_si a
  else if (- 2 ^ 31 <=? a) && (a <=? INT32_MAX) then [wrap w a]
  else [wrap w a; wrap w (a >> w)].

Definition js_bigint_new_si (a : Z) : M JSBigInt :=
  js_bigint_new 1 ;;; ret [wrap w a].

Definition js_bigint_new_si64 (a : Z) : M JSBigInt :=
  if w =? 64 then js_bigint_new_si a
  else if (- 2 ^ 31 <=? a) && (a <=? INT32_MAX) then js_bigint_new_si a
  else js_bigint_new 2 ;;; ret [wrap w a; wrap w (a >> 32)].

Definition js_bigint_new_ui64 (a : Z) : M JSBigInt :=
  if a <=? INT64_MAX then js_bigint_new_si64 a
  else
    js_bigint_new ((65 + w - 1) / w) ;;;
    if w =? 64 then ret [wrap w a; 0] else ret [wrap w a; wrap w (a >> 32); 0].

(** [a] is a [js_sdlimb_t]. *)
Definition js_bigint_new_di (a : Z) : M JSBigInt :=
  if a =? swrap w a then js_bigint_new 1 ;;; ret [wrap w a]
  else js_bigint_new 2 ;;; ret [wrap w a; wrap w (a >> w)].

(** The loop of [js_bigint_normalize1]. *)
Fixpoint normalize_len (tab : list Z) (l : nat) : nat :=
  match l with
  | S (S l2 as l1) =>
      let v := tab !!! l1 in
      if (negb (v =? 0) && negb (v =? wrap w (-1)))
         || negb (v .& 1 =? (tab !!! l2) >> (w - 1))
      then l else normalize_len tab l1
  | _ => l
  end.

(** [alen] is [a->len]. *)
Definition js_bigint_normalize1 (a : JSBigInt) (alen l : nat) : M JSBigInt :=
  let l := normalize_len a l in
  if negb (l =? alen)%nat then js_try_alloc ;;; ret (take l a) else ret (take l a).

Definition js_bigint_normalize (a : JSBigInt) : M JSBigInt :=
  js_bigint_normalize1 a (length a) (length a).

Definition js_bigint_sign (a : JSBigInt) : Z := (a !!! (length a - 1)%nat) >> (w - 1).

Definition js_bigint_get_si_sat (a : JSBigInt) : Z :=
  if (length a =? 1)%nat then swrap w (a !!! 0%nat)
  else if w =? 32 then
    (if negb (js_bigint_sign a =? 0) then - 2 ^ 31 else INT32_MAX)
  else
    (if negb (js_bigint_sign a =? 0) then - 2 ^ 63 else INT64_MAX).

Definition js_bigint_extend (r : JSBigInt) (op1 : Z) : M JSBigInt :=
  if (negb (op1 =? 0) && negb (op1 =? wrap w (-1)))
     || negb (op1 .& 1 =? (r !!! (length r - 1)%nat) >> (w - 1))
  then js_alloc ;;; ret (r ++ [op1])
  else js_bigint_normalize r.

(** The three loops of [js_bigint_add]; [neg] is [-b_neg] as a limb. *)
Fixpoint add_common (a b : list Z) (neg carry : Z) : list Z * Z :=
  match a, b with
  | x :: a, y :: b =>
      let '(r, carry) := ADDC w x (y .^ neg) carry in
      let '(res, carry) := add_common a b neg carry in
      (r :: res, carry)
  | _, _ => ([], carry)
  end.
Fixpoint add_sign_b (a : list Z) (b_sign carry : Z) : list Z * Z :=
  match a with
  | [] => ([], carry)
  | x :: a =>
      let '(r, carry) := ADDC w x b_sign carry in
      let '(res, carry) := add_sign_b a b_sign carry in
      (r :: res, carry)
  end.
Fixpoint add_sign_a (b : list Z) (a_sign neg carry : Z) : list Z * Z :=
  match b with
  | [] => ([], carry)
  | y :: b =>
      let '(r, carry) := ADDC w a_sign (y .^ neg) carry in
      let '(res, carry) := add_sign_a b a_sign neg carry in
      (r :: res, carry)
  end.

Definition js_bigint_add (a b : JSBigInt) (b_neg : Z) : M JSBigInt :=
  let n2 := Nat.max (length a) (length b) in
  let n1 := Nat.min (length a) (length b) in
  js_bigint_new (Z.of_nat n2) ;;;
  let neg := wrap w (- b_neg) in
  let '(r1, carry) := add_common a b neg b_neg in
  let a_sign := wrap w (- js_bigint_sign a) in
  let b_sign := wrap w (- js_bigint_sign b) .^ neg in
  let '(r2, carry) :=
    if (length b <? length a)%nat then add_sign_b (drop n1 a) b_sign carry
    else if (length a <? length b)%nat then add_sign_a (drop n1 b) a_sign neg carry
    else ([], carry) in
  js_bigint_extend (r1 ++ r2) (wrap w (a_sign + b_sign + carry)).

Definition js_bigint_neg (a : JSBigInt) : M JSBigInt :=
  js_bigint_add (js_bigint_set_si 0) a 1.

Definition js_bigint_mul (a b : JSBigInt) : M JSBigInt :=
  js_bigint_new (len a + len b) ;;;
  let r := mp_mul_basecase w a b in
  let r := if negb (js_bigint_sign a =? 0)
    then take (length a) r ++ fst (mp_sub w (drop (length a) r) b 0) else r in
  let r := if negb (js_bigint_sign b =? 0)
    then take (length b) r ++ fst (mp_sub w (drop (length b) r) a 0) else r in
  js_bigint_normalize r.

(** [while (n > 1 && tab[n - 1] == 0) n--;] *)
Fixpoint strip_len (tab : list Z) (n : nat) : nat :=
  match n with
  | S (S _ as n1) => if tab !!! n1 =? 0 then strip_len tab n1 else n
  | _ => n
  end.

Definition js_bigint_divrem (a b : JSBigInt) (is_rem : bool) : M JSBigInt :=
  if (length b =? 1)%nat && (b !!! 0%nat =? 0)
  then throw (RangeError "BigInt division by zero")
  else
  let a_sign := js_bigint_sign a in
  let b_sign := js_bigint_sign b in
  js_bigint_new (len a + 2) ;;;
  let r := if negb (a_sign =? 0) then fst (mp_neg w a) else a in
  let na := strip_len r (length a) in
  let r := take na r in
  js_alloc ;;;
  let tabb := if negb (b_sign =? 0) then fst (mp_neg w b) else b in
  let nb := strip_len tabb (length b) in
  let tabb := take nb tabb in
  if (na <? nb)%nat then
    if is_rem then js_bigint_new (len a) ;;; ret a
    else js_bigint_new_si 0
  else
  let shift := js_limb_clz w (tabb !!! (nb - 1)%nat) in
  let tabb' := if negb (shift =? 0) then fst (mp_shl w tabb shift) else tabb in
  let r' := if negb (shift =? 0) then
      let '(r, h) := mp_shl w r shift in if negb (h =? 0) then r ++ [h] else r
    else r in
  let na' := length r' in
  js_bigint_new (Z.of_nat na' - Z.of_nat nb + 2) ;;;
  let '(q, r'') := mp_divnorm w r' tabb' in
  if is_rem then
    let r := take nb r'' in
    let r := if negb (shift =? 0) then fst (mp_shr w r shift 0) else r in
    let r := r ++ [0] in
    let r := if negb (a_sign =? 0) then fst (mp_neg w r) else r in
    js_bigint_normalize1 r (length a + 2) (nb + 1)
  else
    let q := q ++ [0] in
    let q := if negb (a_sign .^ b_sign =? 0) then fst (mp_neg w q) else q in
    js_bigint_normalize q.

Inductive OPCodeEnum := OP_or | OP_and | OP_xor.

Definition limb_op (op : OPCodeEnum) (x y : Z) : Z :=
  match op with
  | OP_or => x .| y
  | OP_and => x .& y
  | OP_xor => x .^ y
  end.

Definition js_bigint_logic (a b : JSBigInt) (op : OPCodeEnum) : M JSBigInt :=
  let '(a, b) := if (length a <? length b)%nat then (b, a) else (a, b) in
  let b_sign := wrap w (- js_bigint_sign b) in
  js_bigint_new (len a) ;;;
  js_bigint_normalize
    (zip_with (limb_op op) (take (length b) a) b
     ++ map (fun x => limb_op op x b_sign) (drop (length b) a)).

Definition js_bigint_not (a : JSBigInt) : M JSBigInt :=
  js_bigint_new (len a) ;;;
  ret (map (fun x => wrap w (Z.lnot x)) a).

Definition js_bigint_shl (a : JSBigInt) (shift1 : Z) : M JSBigInt :=
  if (length a =? 1)%nat && (a !!! 0%nat =? 0) then js_bigint_new_si 0
  else
  let d := shift1 / w in
  let shift := shift1 mod w in
  js_bigint_new (len a + d) ;;;
  let zeros := replicate (Z.to_nat d) 0 in
  if shift =? 0 then ret (zeros ++ a)
  else
    let '(r, l) := mp_shl w a shift in
    let l := if negb (js_bigint_sign a =? 0)
      then l .| wrap w (wrap w (-1) << shift) else l in
    js_bigint_extend (zeros ++ r) l.

Definition js_bigint_shr (a : JSBigInt) (shift1 : Z) : M JSBigInt :=
  let d := shift1 / w in
  let shift := shift1 mod w in
  let a_sign := js_bigint_sign a in
  if len a <=? d then js_bigint_new_si (- a_sign)
  else
  let n1 := len a - d in
  js_bigint_new n1 ;;;
  if shift =? 0 then ret (drop (Z.to_nat d) a)
  else js_bigint_normalize (fst (mp_shr w (drop (Z.to_nat d) a) shift (wrap w (- a_sign)))).

(** The square and multiply loop of [js_bigint_pow]; [i] counts the bits left. *)
Fixpoint pow_loop (i : nat) (r a : JSBigInt) (e : Z) : M JSBigInt :=
  match i with
  | O => ret r
  | S i =>
      r1 <- js_bigint_mul r r ;;
      if negb ((e >> Z.of_nat i) .& 1 =? 0)
      then r2 <- js_bigint_mul r1 a ;; pow_loop i r2 a e
      else pow_loop i r1 a e
  end.

(** The power of a one-limb base [v = 2^n] or [v = -2^n]. *)
Definition pow_of_two (v : Z) (is_neg : bool) (b : JSBigInt) : M JSBigInt :=
  let overflow := throw (RangeError "BigInt is too large") in
  let n := w - 1 - js_limb_clz w v in
  if (1 <? length b)%nat then overflow
  else if INT32_MAX <? b !!! 0%nat then overflow
  else
  let e := u32 (b !!! 0%nat) in
  let e1 := u64 (e * n) in
  if JS_BIGINT_MAX_SIZE * w <? e1 then overflow
  else
  let e := u32 e1 in
  let is_neg := if is_neg then (b !!! 0%nat) .& 1 else 0 in
  let rlen := u32 (e + w + 1 - is_neg) / w in
  js_bigint_new rlen ;;;
  ret (<[Z.to_nat (e / w) := wrap w (wrap w (1 - 2 * is_neg) << (e mod w))]>
         (replicate (Z.to_nat rlen) 0)).

Definition pow_general (a b : JSBigInt) : M JSBigInt :=
  let overflow := throw (RangeError "BigInt is too large") in
  if (1 <? length b)%nat then overflow
  else if INT32_MAX <? b !!! 0%nat then overflow
  else
  let e := u32 (b !!! 0%nat) in
  let n_bits := 32 - clz 32 e in
  js_bigint_new (len a) ;;;
  pow_loop (Z.to_nat (n_bits - 1)) a a e.

Definition js_bigint_pow (a b : JSBigInt) : M JSBigInt :=
  if negb (js_bigint_sign b =? 0) then throw (RangeError "BigInt negative exponent")
  else if (length b =? 1)%nat && (b !!! 0%nat =? 0) then js_bigint_new_si 1
  else if (length a =? 1)%nat then
    let v := a !!! 0%nat in
    if v <=? 1 then js_bigint_new_si v
    else if v =? wrap w (-1) then
      js_bigint_new_si (swrap w (1 - 2 * ((b !!! 0%nat) .& 1)))
    else
    let is_neg := swrap w v <? 0 in
    let v := if is_neg then wrap w (- v) else v in
    if v .& (v - 1) =? 0 then pow_of_two v is_neg b else pow_general a b
  else pow_general a b.

(** The comparison of two arrays from the highest limb down. *)
Fixpoint cmp_limbs (ra rb : list Z) : Z :=
  match ra, rb with
  | x :: ra, y :: rb =>
      if negb (x =? y) then (if x <? y then -1 else 1) else cmp_limbs ra rb
  | _, _ => 0
  end.

Definition js_bigint_cmp (a b : JSBigInt) : Z :=
  let a_sign := js_bigint_sign a in
  let b_sign := js_bigint_sign b in
  if negb (a_sign =? b_sign) then 1 - 2 * a_sign
  else if negb (length a =? length b)%nat then
    if (length a <? length b)%nat then 2 * a_sign - 1 else 1 - 2 * a_sign
  else cmp_limbs (rev a) (rev b).
End definitions.

(** ** Representation *)

(** A normalized array: no shorter one has the same value. *)
Definition bigint_wf (w : Z) (a : JSBigInt) : Prop :=
  limbs w a /\ a <> [] /\
  (length a = 1%nat \/ ~ sword (w * (len a - 1)) (sval w a)).

(** A result [r] that represents [v]. *)
Definition represents (w : Z) (v : Z) (r : JSBigInt) : Prop :=
  bigint_wf w r /\ sval w r = v.

Section representation.
Context (w : Z) {Hw : LimbWidth w}.
Local Abbreviation B := (2 ^ w).

Lemma w_ge : 32 <= w.
Proof. destruct Hw; lia. Qed.
Lemma w_pos : 0 < w.
Proof. pose proof w_ge. lia. Qed.
Lemma B_ge : 2 ^ 32 <= B.
Proof. apply Z.pow_le_mono_r; [lia|apply w_ge]. Qed.
Local Hint Resolve w_pos : core.

Lemma nonempty_snoc (a : list Z) : a <> [] -> exists l x, a = l ++ [x].
Proof. intros. destruct a as [|x l _] using rev_ind; [done|by exists l, x]. Qed.

Lemma last_total (l : list Z) x : (l ++ [x]) !!! (length (l ++ [x]) - 1)%nat = x.
Proof.
  rewrite length_app. cbn. replace (length l + 1 - 1)%nat with (length l) by lia.
  rewrite lookup_total_app_r by lia. by rewrite Nat.sub_diag.
Qed.

(** The sign bit is the sign of the value. *)
Lemma js_bigint_sign_spec a : limbs w a -> a <> [] ->
  js_bigint_sign w a = b2z (sval w a <? 0).
Proof.
  intros Ha Hn. destruct (nonempty_snoc a Hn) as (l & x & ->).
  apply limbs_app in Ha as [Hl Hx]. apply limbs_cons in Hx as [Hx _].
  unfold js_bigint_sign. rewrite last_total, sign_bit by done.
  rewrite sval_snoc by done. pose proof (lval_range w w_pos _ Hl).
  unfold swrap. rewrite Z.mod_small by exact Hx. unfold word in Hx.
  pose proof (pow2_pos (w * len l) ltac:(pose proof w_pos; lia)). pose proof (pow2_half w w_pos).
  f_equal. destruct (Z.ltb_spec x (2 ^ (w - 1))); symmetry.
  - replace (2 ^ (w - 1) <=? x) with false by lia. apply Z.ltb_ge. nia.
  - replace (2 ^ (w - 1) <=? x) with true by lia. apply Z.ltb_lt. nia.
Qed.

Lemma sign_01 a : limbs w a -> a <> [] -> js_bigint_sign w a = 0 \/ js_bigint_sign w a = 1.
Proof. intros. rewrite js_bigint_sign_spec by done. destruct (_ <? _); cbn; lia. Qed.

(** The test of [js_bigint_normalize1]: [y] extends the sign of [x]. *)
Lemma redundant_spec x y : word w x -> word w y ->
  (negb (y =? 0) && negb (y =? wrap w (-1))) || negb (y .& 1 =? x >> (w - 1)) = false
  <-> swrap w y = - b2z (2 ^ (w - 1) <=? x).
Proof.
  intros Hx Hy. rewrite sign_bit by done. pose proof B_ge. pose proof w_pos. pose proof (pow2_half w w_pos) as Hh.
  rewrite (wrap_unique w (-1) (B - 1) (-1)) by (unfold word; lia).
  pose proof (land_ones_mod y 1 ltac:(lia)) as E1. change (2 ^ 1 - 1) with 1 in E1. change (2 ^ 1) with 2 in E1.
  unfold swrap. rewrite (Z.mod_small y) by exact Hy. unfold word in *.
  destruct (Z.eqb_spec y 0) as [->|Hy0]; [|destruct (Z.eqb_spec y (B - 1)) as [->|Hy1]]; cbn [negb andb orb].
  - change (0 .& 1) with 0. destruct (2 ^ (w - 1) <=? x); cbn; zcases; split; try done; lia.
  - rewrite E1. replace ((B - 1) mod 2) with 1.
    2: { rewrite Hh. apply (Z.mod_unique _ _ (2 ^ (w - 1) - 1)); lia. }
    destruct (2 ^ (w - 1) <=? x); cbn; zcases; split; try done; lia.
  - destruct (2 ^ (w - 1) <=? x); cbn; zcases; split; try done; lia.
Qed.

(** Dropping a redundant limb keeps the value, and only then does the value fit. *)
Lemma sval_snoc_redundant l x y : limbs w (l ++ [x]) -> word w y ->
  (swrap w y = - b2z (2 ^ (w - 1) <=? x) -> sval w ((l ++ [x]) ++ [y]) = sval w (l ++ [x])) /\
  (swrap w y <> - b2z (2 ^ (w - 1) <=? x) ->
    ~ sword (w * len (l ++ [x])) (sval w ((l ++ [x]) ++ [y]))).
Proof.
  intros Hlx Hy. rewrite (sval_snoc w w_pos (l ++ [x])) by done.
  apply limbs_app in Hlx as Hl. destruct Hl as [Hl Hx]. apply limbs_cons in Hx as [Hx _].
  pose proof (lval_range w w_pos _ Hl) as Hr.
  assert (EP : w * len (l ++ [x]) = w * len l + w) by (rewrite length_app; cbn; lia).
  pose proof (pow2_pos (w * len l) ltac:(pose proof w_pos; lia)) as HP.
  pose proof (pow2_half w w_pos) as Hh. pose proof (pow2_pos (w - 1) ltac:(pose proof w_pos; lia)).
  unfold sword. rewrite EP.
  replace (w * len l + w - 1) with (w * len l + (w - 1)) by lia.
  rewrite !Z.pow_add_r by (pose proof w_pos; lia).
  pose proof (swrap_range w y w_pos) as Hsy. unfold sword in Hsy.
  rewrite lval_app by done. cbn [lval]. unfold word in *.
  set (P := 2 ^ (w * len l)) in *. split.
  - intros E. rewrite E, sval_snoc by done. fold P.
    unfold swrap. rewrite (Z.mod_small x) by exact Hx.
    destruct (Z.leb_spec (2 ^ (w - 1)) x), (Z.ltb_spec x (2 ^ (w - 1))); cbn [Z.b2z]; try lia.
  - intros Hne [H1 H2]. rewrite Z.mul_0_r, Z.add_0_r in *.
    destruct (Z.leb_spec (2 ^ (w - 1)) x); cbn [Z.b2z] in Hne.
    + assert (swrap w y <= -2 \/ 0 <= swrap w y) as [?|?] by lia; nia.
    + assert (swrap w y <= -1 \/ 1 <= swrap w y) as [?|?] by lia; nia.
Qed.

Lemma normalize_len_SS tab l :
  normalize_len w tab (S (S l)) =
  let v := tab !!! S l in
  if (negb (v =? 0) && negb (v =? wrap w (-1)))
     || negb (v .& 1 =? (tab !!! l) >> (w - 1))
  then S (S l) else normalize_len w tab (S l).
Proof. done. Qed.

Lemma normalize_len_spec tab l :
  limbs w tab -> (1 <= l <= length tab)%nat ->
  let l' := normalize_len w tab l in
  (1 <= l' <= l)%nat /\ represents w (sval w (take l tab)) (take l' tab).
Proof.
  intros Ht. induction l as [|[|l2] IH]; intros Hl; [lia| |].
  - cbn [normalize_len]. split; [lia|]. repeat split.
    + by apply limbs_take.
    + destruct tab; [cbn in Hl; lia|done].
    + left. rewrite length_take. lia.
  - rewrite normalize_len_SS.
    assert (E1 : take (S l2) tab = take l2 tab ++ [tab !!! l2]) by (apply take_S_snoc; lia).
    assert (E2 : take (S (S l2)) tab = take (S l2) tab ++ [tab !!! S l2])
      by (apply take_S_snoc; lia).
    cbv zeta in *. set (x := tab !!! l2) in *. set (y := tab !!! S l2) in *.
    assert (Hx : word w x) by (apply limbs_total; [done|lia]).
    assert (Hy : word w y) by (apply limbs_total; [done|lia]).
    assert (Hlx : limbs w (take l2 tab ++ [x])) by (rewrite <- E1; by apply limbs_take).
    destruct (sval_snoc_redundant (take l2 tab) x y Hlx Hy) as [HR HN].
    destruct (_ || _) eqn:E.
    + split; [lia|]. split; [|done].
      split; [by apply limbs_take|]. split; [rewrite E2; by destruct (take (S l2) tab)|].
      right. rewrite E2, E1.
      replace (len ((take l2 tab ++ [x]) ++ [y]) - 1) with (len (take l2 tab ++ [x]))
        by (rewrite (length_app _ [y]); change (length [y]) with 1%nat; lia).
      apply HN. intros Hs. apply redundant_spec in Hs; [|done..]. congruence.
    + apply redundant_spec in E; [|done..]. destruct (IH ltac:(lia)) as [IH1 IH2].
      split; [lia|]. rewrite E2, E1, HR, <- E1 by done. done.
Qed.
End representation.

(** ** Specifications *)

Section operations.
Context (w : Z) {Hw : LimbWidth w} {W : World}.
Local Abbreviation B := (2 ^ w).
Let Hwp : 0 < w.
Proof. exact (w_pos w). Qed.

(** The only error of an operation that allocates [n] limbs. *)
Definition too_large (n : Z) (e : exn) : Prop :=
  e = RangeError "BigInt is too large to allocate" /\ JS_BIGINT_MAX_SIZE w < n.

(** A readable operand; it need not be normalized. *)
Definition operand (a : JSBigInt) : Prop := limbs w a /\ a <> [].

Lemma post_new n k : post (js_bigint_new w n) k (fun _ => n <= JS_BIGINT_MAX_SIZE w) (too_large n).
Proof.
  unfold js_bigint_new. destruct (Z.ltb_spec (JS_BIGINT_MAX_SIZE w) n).
  - by apply post_throw.
  - eapply post_weaken; [apply (post_alloc k (fun _ => False))|done|done].
Qed.

Lemma post_new_weaken n k (R : exn -> Prop) : (forall e, too_large n e -> R e) ->
  post (js_bigint_new w n) k (fun _ => n <= JS_BIGINT_MAX_SIZE w) R.
Proof. intros HR. eapply post_weaken; [apply post_new|done|done]. Qed.

Lemma wf_operand a : bigint_wf w a -> operand a.
Proof. intros (? & ? & ?). by split. Qed.

Lemma wf_single x : word w x -> bigint_wf w [x].
Proof. intros Hx. split_and!; [by apply limbs_single|done|by left]. Qed.

Lemma sval_single x : word w x -> sval w [x] = swrap w x.
Proof. intros Hx. change [x] with ([] ++ [x]). rewrite sval_snoc by (done || apply limbs_nil). cbn. rewrite Z.mul_0_r. lia. Qed.

Lemma represents_single v : sword w v -> represents w v [wrap w v].
Proof.
  intros Hv. split; [by apply wf_single, wrap_range; pose proof (w_pos w); lia|].
  rewrite sval_single by (apply wrap_range; pose proof (w_pos w); lia).
  rewrite swrap_wrap by done. by apply swrap_small.
Qed.

Lemma js_bigint_new_si_spec v k :
  sword w v -> post (js_bigint_new_si w v) k (represents w v) (too_large 1).
Proof.
  intros Hv. eapply post_bind; [apply post_new|]. intros. by apply post_ret, represents_single.
Qed.

Lemma js_bigint_normalize1_spec a alen l k R :
  limbs w a -> (1 <= l <= length a)%nat ->
  post (js_bigint_normalize1 w a alen l) k (represents w (sval w (take l a))) R.
Proof.
  intros Ha Hl. destruct (normalize_len_spec w a l Ha Hl) as [_ Hr].
  unfold js_bigint_normalize1. case_match.
  - eapply post_bind; [apply post_try_alloc|]. intros. by apply post_ret.
  - by apply post_ret.
Qed.

Lemma js_bigint_normalize_spec a k R :
  operand a -> post (js_bigint_normalize w a) k (represents w (sval w a)) R.
Proof.
  intros [Ha Hn]. rewrite <- (firstn_all a) at 2.
  apply js_bigint_normalize1_spec; [done|]. destruct a; [done|cbn; lia].
Qed.

Lemma js_bigint_extend_spec r x k R : operand r -> word w x ->
  post (js_bigint_extend w r x) k (represents w (sval w (r ++ [x]))) R.
Proof.
  intros [Hr Hn] Hx. destruct (nonempty_snoc r Hn) as (l & y & ->).
  unfold js_bigint_extend. rewrite last_total.
  assert (Hy : word w y) by (apply limbs_app in Hr as [_ Hy]; by apply limbs_cons in Hy as [Hy _]).
  destruct (sval_snoc_redundant w l y x Hr Hx) as [HR HN]. destruct (_ || _) eqn:E.
  - eapply post_bind; [apply post_alloc|]. intros _ k' _. apply post_ret. split; [|done].
    split; [apply limbs_app; split; [done|by apply limbs_single]|]. split; [by destruct l|].
    right. replace (len ((l ++ [y]) ++ [x]) - 1) with (len (l ++ [y]))
      by (rewrite (length_app _ [x]); change (length [x]) with 1%nat; lia).
    apply HN. intros Hs. apply redundant_spec in Hs; [congruence|done..].
  - apply redundant_spec in E; [|done..]. rewrite HR by done.
    apply js_bigint_normalize_spec. by split.
Qed.

(** *** Addition *)

Lemma mp_add_app a1 a2 b1 b2 c :
  length a1 = length b1 ->
  mp_add w (a1 ++ a2) (b1 ++ b2) c =
  let '(r1, c1) := mp_add w a1 b1 c in
  let '(r2, c2) := mp_add w a2 b2 c1 in (r1 ++ r2, c2).
Proof.
  revert b1 c. induction a1 as [|x a1 IH]; intros [|y b1] c Hl; try discriminate.
  - cbn. by destruct (mp_add w a2 b2 c).
  - cbn [app mp_add]. destruct (ADDC w x y c) as [r k]. rewrite IH by (cbn in Hl; lia).
    destruct (mp_add w a1 b1 k) as [r1 c1]. by destruct (mp_add w a2 b2 c1).
Qed.

Lemma add_common_mp_add a b neg c :
  add_common w a b neg c = mp_add w a (map (fun y => y .^ neg) b) c.
Proof.
  revert b c. induction a as [|x a IH]; intros [|y b] c; try done.
  cbn [add_common map mp_add]. destruct (ADDC _ _ _ _). by rewrite IH.
Qed.

Lemma add_sign_b_mp_add a s c : add_sign_b w a s c = mp_add w a (replicate (length a) s) c.
Proof.
  revert c. induction a as [|x a IH]; intros c; [done|].
  cbn [add_sign_b length replicate mp_add]. destruct (ADDC _ _ _ _). by rewrite IH.
Qed.

Lemma add_sign_a_mp_add b s neg c :
  add_sign_a w b s neg c = mp_add w (replicate (length b) s) (map (fun y => y .^ neg) b) c.
Proof.
  revert c. induction b as [|y b IH]; intros c; [done|].
  cbn [add_sign_a length replicate map mp_add]. destruct (ADDC _ _ _ _). by rewrite IH.
Qed.

Lemma mp_add_nil_r a c : mp_add w a [] c = ([], c).
Proof. by destruct a. Qed.

(** [l] sign-extended to [n] limbs. *)
Definition sext (n : nat) (l : list Z) : list Z :=
  l ++ replicate (n - length l) (ext_limb w (js_bigint_sign w l)).

Lemma lval_ones n : lval w (replicate n (B - 1)) = 2 ^ (w * Z.of_nat n) - 1.
Proof.
  induction n as [|n IH]; [by rewrite Z.mul_0_r|]. cbn [replicate lval]. rewrite IH.
  replace (w * Z.of_nat (S n)) with (w + w * Z.of_nat n) by lia.
  rewrite Z.pow_add_r by (pose proof (w_pos w); lia). lia.
Qed.

Lemma lval_sext n l : operand l -> (length l <= n)%nat ->
  lval w (sext n l) = sval w l + 2 ^ (w * Z.of_nat n) * b2z (sval w l <? 0).
Proof.
  intros [Hl Hn] Hlen. pose proof (w_pos w). unfold sext.
  rewrite lval_app, (sval_lval w (w_pos w) l), js_bigint_sign_spec by done.
  destruct (Z.ltb_spec (sval w l) 0); cbn [Z.b2z].
  - rewrite ext_limb_1, lval_ones by done.
    replace (w * Z.of_nat n) with (w * len l + w * Z.of_nat (n - length l))
      by (rewrite Nat2Z.inj_sub by lia; lia).
    rewrite Z.pow_add_r by nia. lia.
  - rewrite ext_limb_0, lval_zeros by done. lia.
Qed.

Lemma limbs_sext n l : operand l -> limbs w (sext n l).
Proof.
  intros [Hl _]. apply limbs_app. split; [done|]. apply Forall_replicate.
  by apply ext_limb_word.
Qed.

Lemma length_sext n l : (length l <= n)%nat -> length (sext n l) = n.
Proof. intros. unfold sext. rewrite length_app, length_replicate. lia. Qed.

Lemma lxor_ones x : word w x -> x .^ (B - 1) = B - 1 - x.
Proof.
  unfold word. intros Hx. pose proof (w_pos w).
  rewrite <- (wrap_lnot w (w_pos w) x Hx). unfold wrap.
  rewrite <- Z.land_ones by lia. replace (B - 1) with (Z.ones w) by (rewrite Z.ones_equiv; lia).
  apply Z.bits_inj'; intros i Hi. rewrite Z.lxor_spec, Z.land_spec, Z.lnot_spec by lia.
  destruct (Z.ltb_spec i w).
  - rewrite Z.ones_spec_low by lia. by destruct (Z.testbit x i).
  - rewrite Z.ones_spec_high by lia. rewrite andb_false_r, xorb_false_r.
    destruct (Z.eq_dec x 0) as [->|]; [apply Z.bits_0|].
    apply Z.bits_above_log2; [lia|]. enough (Z.log2 x < w) by lia.
    apply Z.log2_lt_pow2; lia.
Qed.

(** The operand [b ^ -b_neg]: [b], or its complement. *)
Lemma xor_neg_spec b_neg l : b_neg = 0 \/ b_neg = 1 -> limbs w l ->
  let l' := map (fun y => y .^ ext_limb w b_neg) l in
  limbs w l' /\ length l' = length l /\
  lval w l' = lval w l + b_neg * (2 ^ (w * len l) - 1 - 2 * lval w l).
Proof.
  intros Hneg Hl. cbv zeta. rewrite length_map. pose proof (w_pos w).
  induction Hl as [|x l Hx Hl IH].
  - cbn. split_and!; [constructor|done|]. rewrite Z.mul_0_r. lia.
  - destruct IH as (IH1 & _ & IH2). cbn [map lval length].
    replace (w * Z.of_nat (S (length l))) with (w + w * len l) by lia.
    rewrite IH2, Z.pow_add_r by lia.
    destruct Hneg as [-> | ->].
    + rewrite ext_limb_0, Z.lxor_0_r in * by done. split_and!; [by apply limbs_cons|done|lia].
    + rewrite ext_limb_1 in * by done. rewrite lxor_ones by done.
      split_and!; [apply limbs_cons; split; [unfold word in *; lia|done]|done|lia].
Qed.

Lemma map_replicate_xor n x neg :
  map (fun y => y .^ neg) (replicate n x) = replicate n (x .^ neg).
Proof. induction n; cbn; [done|by f_equal]. Qed.

(** The loops of [js_bigint_add] add the sign-extended operands. *)
Lemma add_loops a b neg c :
  let n1 := Nat.min (length a) (length b) in
  let n2 := Nat.max (length a) (length b) in
  let a_sign := ext_limb w (js_bigint_sign w a) in
  let b_sign := ext_limb w (js_bigint_sign w b) .^ neg in
  (let '(r1, carry) := add_common w a b neg c in
   let '(r2, carry) :=
     if (length b <? length a)%nat then add_sign_b w (drop n1 a) b_sign carry
     else if (length a <? length b)%nat then add_sign_a w (drop n1 b) a_sign neg carry
     else ([], carry) in (r1 ++ r2, carry))
  = mp_add w (sext n2 a) (map (fun y => y .^ neg) (sext n2 b)) c.
Proof.
  cbv zeta. unfold sext. rewrite map_app, map_replicate_xor, add_common_mp_add.
  set (s1 := ext_limb w (js_bigint_sign w a)). set (s2 := ext_limb w (js_bigint_sign w b)).
  destruct (Nat.ltb_spec (length b) (length a)).
  - rewrite Nat.max_l, Nat.min_r, Nat.sub_diag, app_nil_r by lia.
    assert (Ht : length (take (length b) a) = length (map (fun y => y .^ neg) b))
      by (rewrite length_map, length_take; lia).
    assert (E : mp_add w a (map (fun y => y .^ neg) b) c
      = mp_add w (take (length b) a) (map (fun y => y .^ neg) b) c).
    { rewrite <- (take_drop (length b) a) at 1. rewrite <- (app_nil_r (map _ b)) at 1.
      rewrite mp_add_app by done. destruct (mp_add w (take _ a) _ c).
      by rewrite mp_add_nil_r, app_nil_r. }
    rewrite E. transitivity (mp_add w (take (length b) a ++ drop (length b) a)
      (map (fun y => y .^ neg) b ++ replicate (length a - length b) (s2 .^ neg)) c);
      [|by rewrite take_drop].
    rewrite mp_add_app by done. destruct (mp_add w (take _ a) _ c) as [r1 c1]. rewrite add_sign_b_mp_add, length_drop. done.
  - destruct (Nat.ltb_spec (length a) (length b)).
    + rewrite Nat.max_r, Nat.min_l, Nat.sub_diag, !app_nil_r by lia.
      assert (Ht : length a = length (map (fun y => y .^ neg) (take (length a) b)))
        by (rewrite length_map, length_take; lia).
      assert (E2 : map (fun y => y .^ neg) b = map (fun y => y .^ neg) (take (length a) b)
          ++ map (fun y => y .^ neg) (drop (length a) b)) by (by rewrite <- map_app, take_drop).
      rewrite E2.
      assert (E : mp_add w a (map (fun y => y .^ neg) (take (length a) b)
          ++ map (fun y => y .^ neg) (drop (length a) b)) c
        = mp_add w a (map (fun y => y .^ neg) (take (length a) b)) c).
      { rewrite <- (app_nil_r a) at 1. rewrite mp_add_app by done.
        destruct (mp_add w a (map _ (take _ b)) c). cbn [mp_add]. by rewrite app_nil_r. }
      rewrite E, mp_add_app by done.
      destruct (mp_add w a (map _ (take _ b)) c) as [r1 c1].
      rewrite add_sign_a_mp_add, length_drop. done.
    + assert (El : length a = length b) by lia.
      rewrite El, Nat.max_id, Nat.sub_diag, !app_nil_r.
      destruct (mp_add w a _ c). by rewrite app_nil_r.
Qed.

Lemma sval_bounds a : operand a -> sword (w * len a) (sval w a).
Proof. intros [? ?]. by apply sval_range. Qed.

Lemma len_ge1 (a : list Z) : a <> [] -> (1 <= length a)%nat.
Proof. destruct a; [done|cbn; lia]. Qed.

Lemma js_bigint_add_gen a b b_neg k :
  operand a -> operand b -> b_neg = 0 \/ b_neg = 1 ->
  post (js_bigint_add w a b b_neg) k
    (represents w (sval w a + (1 - 2 * b_neg) * sval w b))
    (too_large (Z.of_nat (Nat.max (length a) (length b)))).
Proof.
  intros Ha Hb Hneg. unfold js_bigint_add. eapply post_bind; [apply post_new|].
  intros _ k' _. change (wrap w (- b_neg)) with (ext_limb w b_neg).
  change (wrap w (- js_bigint_sign w a)) with (ext_limb w (js_bigint_sign w a)).
  change (wrap w (- js_bigint_sign w b)) with (ext_limb w (js_bigint_sign w b)).
  pose proof (add_loops a b (ext_limb w b_neg) b_neg) as HL. cbv zeta in HL.
  destruct (add_common w a b (ext_limb w b_neg) b_neg) as [r1 c1].
  destruct (if (length b <? length a)%nat then _ else _) as [r2 c2] eqn:E2.
  symmetry in HL. destruct Ha as [Ha Hna], Hb as [Hb Hnb].
  set (n := Nat.max (length a) (length b)) in *.
  destruct (xor_neg_spec b_neg (sext n b) Hneg) as (X1 & X2 & X3);
    [by apply limbs_sext|].
  rewrite length_sext in X2, X3 by lia.
  apply mp_add_spec in HL as (E & Hr & Hlr & Hc); try done;
    [|by apply limbs_sext|rewrite X2, length_sext; lia|lia].
  rewrite length_sext in E, Hlr by lia.
  rewrite X3, !lval_sext in E by (done || lia).
  pose proof (len_ge1 _ Hna). pose proof (w_ge w).
  assert (Hrn : r1 ++ r2 <> []) by (destruct (r1 ++ r2); [cbn in Hlr; lia|done]).
  set (x := wrap w _). assert (Hx : word w x) by (apply wrap_range; lia).
  replace (sval w a + (1 - 2 * b_neg) * sval w b) with (sval w ((r1 ++ r2) ++ [x])).
  { by apply js_bigint_extend_spec. }
  rewrite sval_snoc, Hlr by done.
  enough (Hs : swrap w x = c2 - b2z (sval w a <? 0)
    - (b_neg + (1 - 2 * b_neg) * b2z (sval w b <? 0))) by (rewrite Hs; lia).
  unfold x. rewrite swrap_wrap, !js_bigint_sign_spec by done.
  pose proof (B_ge w). pose proof (pow2_half w Hwp).
  assert (Hsb : exists k1, ext_limb w (b2z (sval w b <? 0)) .^ ext_limb w b_neg
    = - (b_neg + (1 - 2 * b_neg) * b2z (sval w b <? 0)) + k1 * B).
  { destruct (sval w b <? 0), Hneg as [-> | ->]; cbn [Z.b2z];
      rewrite ?ext_limb_0, ?ext_limb_1, ?Z.lxor_0_r, ?Z.lxor_0_l, ?Z.lxor_nilpotent by done;
      [exists 1|exists 0|exists 0|exists 1]; lia. }
  assert (Hsa : exists k1, ext_limb w (b2z (sval w a <? 0)) = - b2z (sval w a <? 0) + k1 * B).
  { destruct (sval w a <? 0); cbn [Z.b2z]; rewrite ?ext_limb_0, ?ext_limb_1 by done;
      [exists 1|exists 0]; lia. }
  destruct Hsa as [ka ->], Hsb as [kb ->].
  apply (swrap_unique _ _ _ (ka + kb)); [done| |lia].
  unfold sword. destruct (sval w a <? 0), (sval w b <? 0), Hneg as [-> | ->]; cbn [Z.b2z]; lia.
Qed.

Lemma swrap_0 : swrap w 0 = 0.
Proof. apply swrap_small; [done|]. unfold sword. pose proof (pow2_pos (w - 1)). lia. Qed.

Lemma js_bigint_neg_gen a k : operand a ->
  post (js_bigint_neg w a) k (represents w (- sval w a)) (too_large (len a)).
Proof.
  intros Ha. assert (Hz : word w 0) by (unfold word; pose proof (B_ge w); lia).
  assert (E0 : js_bigint_set_si w 0 = [0]) by (unfold js_bigint_set_si; by rewrite wrap_small).
  unfold js_bigint_neg. rewrite E0. destruct Ha as [Hl Hn]. pose proof (len_ge1 _ Hn).
  eapply post_weaken; [apply js_bigint_add_gen|..].
  - by split; [apply limbs_single|].
  - done.
  - by right.
  - intros r. rewrite sval_single, swrap_0 by done.
    replace (0 + (1 - 2 * 1) * sval w a) with (- sval w a) by lia. done.
  - unfold too_large. cbn [length]. intros e [-> ?]. split; [done|lia].
Qed.

(** *** Multiplication *)

(** The correction for a negative factor subtracts [b] from the high limbs. *)
Lemma sub_high r n b (neg : bool) : limbs w r -> limbs w b -> (length r = n + length b)%nat ->
  let r' := if neg then take n r ++ fst (mp_sub w (drop n r) b 0) else r in
  limbs w r' /\ length r' = length r /\
  exists c, lval w r' = lval w r - b2z neg * 2 ^ (w * Z.of_nat n) * lval w b + c * 2 ^ (w * len r).
Proof.
  intros Hr Hb Hl. cbv zeta. destruct neg; [|split_and!; try done; exists 0; cbn; lia].
  destruct (mp_sub w (drop n r) b 0) as [h c] eqn:E.
  assert (Hdl : length (drop n r) = length b) by (rewrite length_drop; lia).
  apply mp_sub_spec in E as (E & Hh & Hlh & Hc); try done; [|by apply limbs_drop].
  cbn [fst]. rewrite Hdl in *.
  assert (Htl : length (take n r) = n) by (rewrite length_take; lia).
  split_and!.
  - apply limbs_app. split; [by apply limbs_take|done].
  - rewrite length_app, Htl. lia.
  - exists c. rewrite lval_app, Htl, E by done.
    rewrite <- (take_drop n r) at 3. rewrite lval_app, Htl by done. rewrite Hl.
    replace (w * Z.of_nat (n + length b)) with (w * Z.of_nat n + w * len b) by lia.
    rewrite Z.pow_add_r by lia. cbn [Z.b2z]. lia.
Qed.

Lemma b2z_sign_test a : operand a -> negb (js_bigint_sign w a =? 0) = (sval w a <? 0).
Proof. intros [? ?]. rewrite js_bigint_sign_spec by done. by destruct (sval w a <? 0). Qed.

Lemma js_bigint_mul_gen a b k : operand a -> operand b ->
  post (js_bigint_mul w a b) k (represents w (sval w a * sval w b)) (too_large (len a + len b)).
Proof.
  intros Ha Hb. unfold js_bigint_mul. eapply post_bind; [apply post_new|]. intros _ k' _.
  rewrite !b2z_sign_test by done. destruct Ha as [Ha Hna], Hb as [Hb Hnb].
  pose proof (sval_range w Hwp a Hna) as Ra. pose proof (sval_range w Hwp b Hnb) as Rb.
  pose proof (sval_lval w Hwp a Ha Hna) as Va. pose proof (sval_lval w Hwp b Hb Hnb) as Vb.
  destruct (mp_mul_basecase_spec w Hwp a b Ha Hb Hnb) as (E & Hr & Hl).
  set (r := mp_mul_basecase w a b) in *.
  destruct (sub_high r (length a) b (sval w a <? 0) Hr Hb Hl) as (Hr1 & Hl1 & c1 & E1).
  set (r1 := if sval w a <? 0 then _ else r) in *.
  destruct (sub_high r1 (length b) a (sval w b <? 0) Hr1 Ha ltac:(lia)) as (Hr2 & Hl2 & c2 & E2).
  set (r2 := if sval w b <? 0 then _ else r1) in *.
  pose proof (len_ge1 _ Hna). pose proof (len_ge1 _ Hnb).
  assert (Hn2 : r2 <> []) by (destruct r2; [cbn in Hl2; lia|done]).
  replace (sval w a * sval w b) with (sval w r2); [by apply js_bigint_normalize_spec|].
  set (sa := b2z (sval w a <? 0)) in *. set (sb := b2z (sval w b <? 0)) in *.
  assert (EP : 2 ^ (w * len r2) = 2 ^ (w * len a) * 2 ^ (w * len b)).
  { rewrite <- Z.pow_add_r by lia. f_equal. lia. }
  apply (sval_unique w Hwp _ _ (c1 + c2 - sa * sb)); [done| |].
  - unfold sword in *.
    replace (w * len r2 - 1) with (w * len a - 1 + (w * len b - 1) + 1) by lia.
    pose proof (w_ge w). rewrite !Z.pow_add_r by nia. change (2 ^ 1) with 2.
    set (PA := 2 ^ (w * len a - 1)) in *. set (PB := 2 ^ (w * len b - 1)) in *.
    assert (0 < PA) by (apply pow2_pos; nia). assert (0 < PB) by (apply pow2_pos; nia).
    assert (Habs : Z.abs (sval w a * sval w b) <= PA * PB).
    { rewrite Z.abs_mul. apply Z.mul_le_mono_nonneg; lia. }
    assert (0 < PA * PB) by (apply Z.mul_pos_pos; lia). lia.
  - rewrite E2, E1, E. rewrite <- Hl1, <- Hl2, EP, Va, Vb. ring.
Qed.

(** *** Division *)

Lemma sval_zero a : bigint_wf w a ->
  ((length a =? 1)%nat && (a !!! 0%nat =? 0)) = (sval w a =? 0).
Proof.
  intros (Ha & Hn & Hm). destruct a as [|x [|y a]]; [done|..].
  - apply limbs_single in Ha. rewrite sval_single by done. cbn.
    unfold word in Ha. unfold swrap. rewrite Z.mod_small by done.
    pose proof (pow2_half w Hwp). pose proof (pow2_pos (w - 1)). zcases; lia.
  - destruct Hm as [Hm|Hm]; [done|]. cbn [length] in *. symmetry. apply Z.eqb_neq. intros E.
    rewrite E in Hm. apply Hm. unfold sword.
    pose proof (pow2_pos (w * (Z.of_nat (S (S (length a))) - 1) - 1)). pose proof (w_ge w). nia.
Qed.

(** The magnitude of an operand. *)
Lemma abs_spec a : operand a ->
  let r := if negb (js_bigint_sign w a =? 0) then fst (mp_neg w a) else a in
  limbs w r /\ length r = length a /\ lval w r = Z.abs (sval w a).
Proof.
  intros Ho. cbv zeta. rewrite b2z_sign_test by done. destruct Ho as [Ha Hn].
  pose proof (sval_lval w Hwp a Ha Hn) as E. pose proof (sval_range w Hwp a Hn) as Hr.
  unfold sword in Hr. pose proof (len_pos w Hwp a Hn). pose proof (pow2_half (w * len a) ltac:(lia)).
  destruct (Z.ltb_spec (sval w a) 0); cbn [Z.b2z] in E.
  - destruct (mp_neg w a) as [r c] eqn:EN. apply mp_neg_spec in EN as (E1 & Hl & HL & Hc); try done.
    cbn [fst]. split_and!; [done..|]. pose proof (lval_range w Hwp r Hl). rewrite HL in *.
    assert (c = 0 \/ c = 1) as [-> | ->] by lia; lia.
  - split_and!; [done..|]. lia.
Qed.

Lemma strip_len_SS tab l :
  strip_len tab (S (S l)) = if tab !!! S l =? 0 then strip_len tab (S l) else S (S l).
Proof. done. Qed.

Lemma strip_len_spec tab n : (1 <= n <= length tab)%nat ->
  let n' := strip_len tab n in
  (1 <= n' <= n)%nat /\ lval w (take n' tab) = lval w (take n tab) /\
  (n' = 1%nat \/ tab !!! (n' - 1)%nat <> 0).
Proof.
  induction n as [|[|n] IH]; intros Hn; [lia|cbn; split_and!; try done; lia|].
  rewrite strip_len_SS. cbv zeta. destruct (Z.eqb_spec (tab !!! S n) 0) as [E|E].
  - destruct (IH ltac:(lia)) as (I1 & I2 & I3). split_and!; [lia|lia| |done].
    rewrite I2, (take_S_snoc tab (S n)), E, lval_app by (done || lia). cbn [lval]. lia.
  - split_and!; [lia|lia|done|by right].
Qed.

Lemma total_last (l : list Z) : l <> [] -> l = take (length l - 1) l ++ [l !!! (length l - 1)%nat].
Proof.
  intros Hn. pose proof (len_ge1 _ Hn). rewrite <- take_S_snoc by lia.
  replace (S (length l - 1)) with (length l) by lia. by rewrite firstn_all.
Qed.

(** Scaling the divisor so that its top bit is set. *)
Lemma norm_shl tabb : limbs w tabb -> tabb <> [] -> tabb !!! (length tabb - 1)%nat <> 0 ->
  let shift := js_limb_clz w (tabb !!! (length tabb - 1)%nat) in
  let tabb' := if negb (shift =? 0) then fst (mp_shl w tabb shift) else tabb in
  0 <= shift < w /\ lval w tabb' = lval w tabb * 2 ^ shift /\ length tabb' = length tabb /\
  exists b1, norm_divisor w tabb' b1.
Proof.
  intros Hl Hn Hx. cbv zeta. pose proof (total_last _ Hn) as E.
  set (x := tabb !!! _) in *. set (lo := take _ tabb) in *.
  pose proof Hl as Hl'. rewrite E in Hl'. apply limbs_app in Hl' as [Hlo Hwx].
  apply limbs_single in Hwx. unfold word in Hwx.
  pose proof (clz_spec w x Hwp ltac:(lia)) as [Hs Hc]. change (clz w x) with (js_limb_clz w x) in *.
  set (s := js_limb_clz w x) in *. split; [done|].
  assert (Ev : lval w tabb = lval w lo + 2 ^ (w * len lo) * x) by (rewrite E, lval_app; cbn [lval]; lia).
  assert (EL : len tabb = len lo + 1) by (rewrite E, length_app; cbn; lia).
  assert (EP : 2 ^ (w * len tabb) = 2 ^ (w * len lo) * B).
  { rewrite EL, <- Z.pow_add_r by lia. f_equal. lia. }
  pose proof (pow2_half w Hwp) as Hh. pose proof (lval_range w Hwp lo Hlo).
  destruct (Z.eqb_spec s 0) as [E0|E0]; cbn [negb].
  - rewrite E0 in *. split_and!; [lia|done|]. exists x. split_and!; [done| |by exists lo].
    rewrite Hh. rewrite Z.mul_comm, Z.div_mul; lia.
  - destruct (mp_shl w tabb s) as [r h] eqn:ES. cbn [fst].
    apply mp_shl_spec in ES as (EV & Hr & HL & Hh'); [|done..|lia].
    pose proof (pow2_split w s ltac:(lia)) as Hsp. pose proof (pow2_pos s).
    assert (Hrn : r <> []) by (destruct r; [cbn in HL; destruct tabb; done|done]).
    pose proof (total_last _ Hrn) as Er. rewrite HL in Er. unfold x in *.
    set (y := r !!! _) in *. set (lo' := take _ r) in *.
    assert (Hl2 : len lo' = len lo) by (unfold lo', lo; rewrite !length_take; lia).
    pose proof Hr as Hr'. rewrite Er in Hr'. apply limbs_app in Hr' as [Hlo' Hy].
    apply limbs_single in Hy. pose proof (lval_range w Hwp lo' Hlo') as Hrl.
    pose proof (lval_range w Hwp r Hr) as Hrr. rewrite HL, EP in Hrr. rewrite Hl2 in Hrl.
    set (P := 2 ^ (w * len lo)) in *. unfold word in *.
    assert (Hx1 : (tabb !!! (length tabb - 1)%nat + 1) * 2 ^ s <= B).
    { fold x in Hc |- *. rewrite Hsp in Hc |- *. apply Z.mul_le_mono_nonneg_r; [lia|].
      enough (x < 2 ^ (w - s)) by lia. apply (Z.mul_lt_mono_pos_r (2 ^ s)); lia. }
    fold x in Hx1. assert (h = 0) as ->.
    { rewrite EP, Ev in EV. assert (lval w r < P * B) by lia.
      assert ((lval w lo + P * x) * 2 ^ s < P * B).
      { apply Z.lt_le_trans with (P * ((x + 1) * 2 ^ s)); [|apply Z.mul_le_mono_nonneg_l; lia].
        replace (P * ((x + 1) * 2 ^ s)) with ((P + P * x) * 2 ^ s) by ring.
        apply Z.mul_lt_mono_pos_r; lia. }
      assert (0 < P * B) by lia. destruct (Z.eq_dec h 0); [done|].
      assert (P * B * 1 <= P * B * h) by (apply Z.mul_le_mono_nonneg_l; lia). lia. }
    split_and!; [lia|done|]. exists y. split_and!; [done| |by exists lo'].
    rewrite Hh, (Z.mul_comm 2), Z.div_mul by lia.
    assert (Evr : lval w r = lval w lo' + P * y).
    { rewrite Er, lval_app, Hl2 by done. cbn [lval]. fold P. lia. }
    destruct (Z.le_gt_cases (2 ^ (w - 1)) y) as [|Hy']; [done|].
    assert (P * (y + 1) <= P * (x * 2 ^ s)) by (apply Z.mul_le_mono_nonneg_l; lia).
    assert (0 <= lval w lo * 2 ^ s) by lia. rewrite Ev in EV. lia.
Qed.

Lemma shl_dividend r s : limbs w r -> 0 <= s < w ->
  let r' := if negb (s =? 0) then
      let '(r, h) := mp_shl w r s in if negb (h =? 0) then r ++ [h] else r
    else r in
  limbs w r' /\ lval w r' = lval w r * 2 ^ s /\ (length r <= length r' <= length r + 1)%nat.
Proof.
  intros Hr Hs. cbv zeta. destruct (Z.eqb_spec s 0) as [-> |]; cbn [negb]; [split_and!; lia || done|].
  destruct (mp_shl w r s) as [t h] eqn:E. apply mp_shl_spec in E as (EV & Ht & HL & Hh); [|done..|lia].
  assert (2 ^ s < B) by (apply Z.pow_lt_mono_r; lia).
  destruct (Z.eqb_spec h 0) as [-> |]; cbn [negb]; [split_and!; lia || done|].
  split_and!; [|rewrite lval_app, HL; cbn [lval]; lia|rewrite length_app; cbn; lia..].
  apply limbs_app. split; [done|]. apply limbs_single. unfold word in *. lia.
Qed.

(** Giving a magnitude its sign. *)
Lemma apply_sign l (neg : bool) : limbs w l ->
  let l' := if neg then fst (mp_neg w (l ++ [0])) else l ++ [0] in
  limbs w l' /\ length l' = (length l + 1)%nat /\
  sval w l' = if neg then - lval w l else lval w l.
Proof.
  intros Hl. cbv zeta. assert (H0 : word w 0) by (unfold word; pose proof (B_ge w); lia).
  assert (Hl0 : limbs w (l ++ [0])) by (apply limbs_app; split; [done|by apply limbs_single]).
  assert (HL : length (l ++ [0]) = (length l + 1)%nat) by (rewrite length_app; cbn; lia).
  assert (EV : lval w (l ++ [0]) = lval w l) by (rewrite lval_app; cbn; lia).
  destruct neg.
  - destruct (mp_neg w (l ++ [0])) as [r c] eqn:E. apply mp_neg_spec in E as (E & Hr & Hlr & Hc); try done.
    cbn [fst]. split_and!; [done|lia|]. pose proof (lval_range w Hwp l Hl).
    assert (Hrn : r <> []) by (destruct r; [cbn in Hlr; lia|done]).
    rewrite <- Hlr, EV in E. apply (sval_unique w Hwp _ _ (1 - c)); [done| |lia].
    unfold sword. rewrite Hlr, HL. replace (w * Z.of_nat (length l + 1) - 1) with (w * len l + (w - 1)) by lia.
    pose proof (w_ge w). rewrite Z.pow_add_r by lia. pose proof (pow2_pos (w - 1)).
    assert (2 ^ (w * len l) * 1 <= 2 ^ (w * len l) * 2 ^ (w - 1)) by (apply Z.mul_le_mono_nonneg_l; lia).
    lia.
  - split_and!; [done..|]. rewrite sval_snoc, swrap_0 by done. lia.
Qed.

(** Division of the scaled magnitudes. *)
Lemma scaled_division A D q rem s : 0 < D -> 0 <= s ->
  A * 2 ^ s = q * (D * 2 ^ s) + rem -> 0 <= rem < D * 2 ^ s ->
  q = A / D /\ rem = (A mod D) * 2 ^ s.
Proof.
  intros HD Hs E Hr. pose proof (pow2_pos s Hs) as HP.
  assert (Em : rem = (A - q * D) * 2 ^ s) by lia.
  assert (0 <= A - q * D < D).
  { rewrite Em in Hr. split.
    - apply (Z.mul_le_mono_pos_r _ _ (2 ^ s)); lia.
    - apply (Z.mul_lt_mono_pos_r (2 ^ s)); lia. }
  rewrite Em. assert (q = A / D) as Eq by (apply (Z.div_unique _ _ _ (A - q * D)); lia).
  split; [done|]. f_equal. apply (Z.mod_unique _ _ q); lia.
Qed.

Lemma div_zero_test b : bigint_wf w b ->
  (length b =? 1)%nat && (b !!! 0%nat =? 0) = (sval w b =? 0).
Proof. apply sval_zero. Qed.

Lemma sign_mul a b : operand a -> operand b ->
  negb (js_bigint_sign w a .^ js_bigint_sign w b =? 0) = xorb (sval w a <? 0) (sval w b <? 0).
Proof.
  intros [? ?] [? ?]. rewrite !js_bigint_sign_spec by done.
  by destruct (sval w a <? 0), (sval w b <? 0).
Qed.

Definition divrem_error (a b : JSBigInt) (e : exn) : Prop :=
  (e = RangeError "BigInt division by zero" /\ sval w b = 0) \/ too_large (len a + 2) e.

(** The stripped magnitude of an operand. *)
Lemma stripped_abs a : operand a ->
  let r := if negb (js_bigint_sign w a =? 0) then fst (mp_neg w a) else a in
  let na := strip_len r (length a) in
  (1 <= na <= length a)%nat /\ limbs w (take na r) /\ length (take na r) = na /\
  lval w (take na r) = Z.abs (sval w a) /\
  (sval w a <> 0 -> take na r !!! (na - 1)%nat <> 0).
Proof.
  intros Ho. destruct (abs_spec a Ho) as (H1 & H2 & H3). cbv zeta.
  set (r := if negb _ then _ else _) in *. pose proof (len_ge1 a (proj2 Ho)).
  destruct (strip_len_spec r (length a) ltac:(lia)) as (S1 & S2 & S3).
  set (na := strip_len r (length a)) in *.
  assert (HLt : length (take na r) = na) by (rewrite length_take; lia).
  assert (EV : lval w (take na r) = Z.abs (sval w a)).
  { rewrite S2, take_ge by lia. done. }
  split_and!; [lia|lia|by apply limbs_take|done|done|].
  intros Hnz. rewrite lookup_total_take_lt by lia. clearbody na r. destruct S3 as [S3|S3]; [|done].
  rewrite S3 in *. destruct r as [|x r]; [cbn in *; lia|]. cbn in EV |- *. rewrite take_0 in EV. cbn in EV. lia.
Qed.

Lemma js_bigint_divrem_gen a b is_rem k : bigint_wf w a -> bigint_wf w b ->
  post (js_bigint_divrem w a b is_rem) k
    (represents w (if is_rem then Z.rem (sval w a) (sval w b) else Z.quot (sval w a) (sval w b)))
    (divrem_error a b).
Proof.
  intros Hwa Hwb. pose proof (wf_operand _ Hwa) as Ha. pose proof (wf_operand _ Hwb) as Hb.
  unfold js_bigint_divrem. rewrite div_zero_test by done.
  destruct (Z.eqb_spec (sval w b) 0) as [E0|E0]; [apply post_throw; by left|].
  assert (HR : forall n e, n <= len a + 2 -> too_large n e -> divrem_error a b e).
  { intros n e Hn [-> ?]. right. split; [done|lia]. }
  eapply post_bind; [apply post_new_weaken; intros e; apply HR; lia|]. intros _ k1 _.
  eapply post_bind; [apply post_alloc|]. intros _ k2 _.
  destruct (stripped_abs a Ha) as (A1 & A2 & A3 & A4 & _).
  destruct (stripped_abs b Hb) as (B1 & B2 & B3 & B4 & B5). specialize (B5 E0).
  rewrite (sign_mul a b) by done. rewrite (b2z_sign_test a), (b2z_sign_test b) in * by done.
  set (na := strip_len _ (length a)) in *. set (nb := strip_len _ (length b)) in *.
  set (r := take na _) in *. set (tb := take nb _) in *. clearbody r tb na nb.
  destruct (Nat.ltb_spec na nb) as [Hlt|Hge].
  { (* |a| < |b| *)
    assert (Hab : Z.abs (sval w a) < Z.abs (sval w b)).
    { assert (Hn : tb <> []) by (destruct tb; [cbn in B3; lia|done]).
      pose proof (total_last tb Hn) as E. rewrite B3 in E. set (x := tb !!! _) in *.
      assert (Hx : word w x) by (apply limbs_total; [done|lia]). unfold word in Hx.
      pose proof (lval_range w Hwp _ (limbs_take w (nb - 1) tb B2)) as HL.
      pose proof (lval_range w Hwp r A2) as HLr. rewrite A3 in HLr.
      assert (EL : length (take (nb - 1) tb) = (nb - 1)%nat) by (rewrite length_take; lia).
      assert (EV : lval w tb = lval w (take (nb - 1) tb) + 2 ^ (w * Z.of_nat (nb - 1)) * x).
      { rewrite E at 1. rewrite lval_app, EL by done. cbn [lval]. lia. }
      assert (2 ^ (w * Z.of_nat na) <= 2 ^ (w * Z.of_nat (nb - 1)))
        by (apply Z.pow_le_mono_r; [lia|apply Z.mul_le_mono_nonneg_l; lia]).
      assert (2 ^ (w * Z.of_nat (nb - 1)) * 1 <= 2 ^ (w * Z.of_nat (nb - 1)) * x)
        by (apply Z.mul_le_mono_nonneg_l; lia). lia. }
    destruct is_rem.
    - eapply post_bind; [apply post_new_weaken; intros e; apply HR; lia|].
      intros _ k3 _. apply post_ret. split; [done|]. symmetry. by apply Z.rem_small_iff.
    - eapply post_weaken; [apply js_bigint_new_si_spec; unfold sword; pose proof (pow2_pos (w - 1)); lia
        | |intros e; apply HR; lia].
      intros x. rewrite (proj2 (Z.quot_small_iff _ _ E0)) by done. done. }
  assert (Hn : tb <> []) by (destruct tb; [cbn in B3; lia|done]).
  rewrite <- B3 in B5.
  destruct (norm_shl tb B2 Hn B5) as (Hs & N1 & N2 & b1 & N3). rewrite B3 in *.
  set (s := js_limb_clz w _) in *. set (tb' := if negb (s =? 0) then _ else tb) in *.
  destruct (shl_dividend r s A2 Hs) as (R1 & R2 & R3).
  set (r' := if negb (s =? 0) then _ else r) in *. rewrite A3 in R3. clearbody tb' r' s.
  eapply post_bind; [apply post_new_weaken; intros e; apply HR; lia|]. intros _ k3 _.
  pose proof (mp_divnorm_spec w Hwp r' tb' b1 N3 R1 ltac:(lia)) as HD. cbv zeta in HD.
  destruct (mp_divnorm w r' tb') as [q r'']. destruct HD as (D1 & D2 & D3 & D4 & D5 & D6).
  rewrite N2 in *. rewrite N1, R2, A4, B4 in *.
  destruct (scaled_division (Z.abs (sval w a)) (Z.abs (sval w b)) _ _ s ltac:(lia) ltac:(lia) D1 D2) as [Q1 Q2].
  destruct is_rem.
  - rewrite Z.rem_mod by done.
    assert (HR2 : exists r2, (if negb (s =? 0) then fst (mp_shr w (take nb r'') s 0) else take nb r'') = r2 /\
      limbs w r2 /\ length r2 = nb /\ lval w r2 = Z.abs (sval w a) mod Z.abs (sval w b)).
    { assert (HLt : length (take nb r'') = nb) by (rewrite length_take; lia).
      assert (Hlt : limbs w (take nb r'')) by by apply limbs_take.
      eexists. split; [done|]. destruct (Z.eqb_spec s 0) as [Es|Es]; cbn [negb].
      - split_and!; [done..|]. rewrite Q2, Es. lia.
      - destruct (mp_shr w (take nb r'') s 0) as [r2 c] eqn:E.
        apply mp_shr_spec in E as (E1 & E2 & E3 & E4); [|done|done|lia|unfold word; pose proof (B_ge w); lia].
        cbn [fst]. split_and!; [done|lia|]. rewrite Z.mod_0_l, Q2 in E1 by (pose proof (pow2_pos s); lia).
        pose proof (pow2_pos s). nia. }
    destruct HR2 as (r2 & -> & T1 & T2 & T3).
    destruct (apply_sign r2 (sval w a <? 0) T1) as (S1 & S2 & S3).
    set (r3 := if sval w a <? 0 then _ else _) in *.
    replace (Z.sgn (sval w a) * _) with (sval w (take (nb + 1) r3)).
    + apply js_bigint_normalize1_spec; [done|lia].
    + rewrite <- T2, <- S2, firstn_all, S3, T3. destruct (Z.ltb_spec (sval w a) 0); [lia|].
      destruct (Z.eq_dec (sval w a) 0) as [->|]; [by rewrite Z.mod_0_l by lia|].
      rewrite Z.sgn_pos; lia.
  - rewrite Z.quot_div by done.
    destruct (apply_sign q (xorb (sval w a <? 0) (sval w b <? 0)) D3) as (S1 & S2 & S3).
    set (q' := if xorb _ _ then _ else _) in *.
    replace (Z.sgn (sval w a) * _ * _) with (sval w q').
    + apply js_bigint_normalize_spec. split; [done|]. destruct q'; [cbn in S2; lia|done].
    + rewrite S3, Q1. set (Q := _ / _).
      destruct (Z.eq_dec (sval w a) 0) as [Ea|Ea].
      { assert (Q = 0) as -> by (unfold Q; rewrite Ea; by apply Z.div_0_l; lia). by destruct (xorb _ _); rewrite ?Z.mul_0_r. }
      destruct (Z.ltb_spec (sval w a) 0), (Z.ltb_spec (sval w b) 0); cbn [xorb];
        rewrite ?(Z.sgn_neg (sval w a)), ?(Z.sgn_neg (sval w b)), ?(Z.sgn_pos (sval w a)), ?(Z.sgn_pos (sval w b)) by lia; lia.
Qed.

(** *** Bitwise operations *)

Lemma word_bits_high x i : word w x -> w <= i -> Z.testbit x i = false.
Proof. unfold word. intros Hx Hi. rewrite <- (Z.mod_small x B) by lia. apply Z.mod_pow2_bits_high. lia. Qed.

Lemma testbit_split x v i : word w x -> 0 <= i ->
  Z.testbit (x + B * v) i = if i <? w then Z.testbit x i else Z.testbit v (i - w).
Proof.
  unfold word. intros Hx Hi. destruct (Z.ltb_spec i w).
  - rewrite <- (Z.mod_pow2_bits_low _ w i) by lia. f_equal.
    rewrite Z.mul_comm, Z.mod_add by lia. by apply Z.mod_small.
  - replace i with ((i - w) + w) at 1 by lia. rewrite <- Z.div_pow2_bits by lia. f_equal.
    rewrite Z.mul_comm, Z.div_add by lia. rewrite Z.div_small by lia. lia.
Qed.

Definition bit_op (op : OPCodeEnum) : bool -> bool -> bool :=
  match op with OP_or => orb | OP_and => andb | OP_xor => xorb end.

Lemma limb_op_bits op x y i : 0 <= i ->
  Z.testbit (limb_op op x y) i = bit_op op (Z.testbit x i) (Z.testbit y i).
Proof. intros. destruct op; cbn; [apply Z.lor_spec|apply Z.land_spec|apply Z.lxor_spec]. Qed.

Lemma limb_op_word op x y : word w x -> word w y -> word w (limb_op op x y).
Proof.
  intros Hx Hy. replace (limb_op op x y) with (limb_op op x y mod B).
  { apply wrap_range. lia. }
  apply Z.bits_inj'; intros i Hi. destruct (Z.lt_ge_cases i w).
  - by rewrite Z.mod_pow2_bits_low by lia.
  - rewrite Z.mod_pow2_bits_high, limb_op_bits, !word_bits_high by (done || lia). by destruct op.
Qed.

Lemma limb_op_split op x y v u : word w x -> word w y ->
  limb_op op (x + B * v) (y + B * u) = limb_op op x y + B * limb_op op v u.
Proof.
  intros Hx Hy. apply Z.bits_inj'; intros i Hi.
  rewrite limb_op_bits, !testbit_split by (done || by apply limb_op_word).
  destruct (Z.ltb_spec i w); rewrite limb_op_bits by lia; done.
Qed.

Lemma limb_op_swrap op x y : word w x -> word w y ->
  limb_op op (swrap w x) (swrap w y) = swrap w (limb_op op x y).
Proof.
  intros Hx Hy.
  assert (HS : forall z, word w z -> swrap w z = z + B * - (z >> (w - 1))).
  { intros z Hz. rewrite sign_bit by done. unfold swrap. rewrite (Z.mod_small z) by exact Hz.
    zcases; lia. }
  assert (H01 : forall z, word w z -> z >> (w - 1) = 0 \/ z >> (w - 1) = 1).
  { intros z Hz. rewrite sign_bit by done. destruct (_ <=? _); cbn; lia. }
  rewrite !HS, limb_op_split by (done || by apply limb_op_word). do 2 f_equal.
  assert (E : limb_op op x y >> (w - 1) = limb_op op (x >> (w - 1)) (y >> (w - 1))).
  { destruct op; cbn; [apply Z.shiftr_lor|apply Z.shiftr_land|apply Z.shiftr_lxor]. }
  rewrite E. by destruct op, (H01 x Hx) as [-> | ->], (H01 y Hy) as [-> | ->].
Qed.

Lemma sval_app l1 l2 : limbs w l1 -> operand l2 ->
  sval w (l1 ++ l2) = lval w l1 + 2 ^ (w * len l1) * sval w l2.
Proof.
  intros H1 [H2 Hn]. destruct (nonempty_snoc l2 Hn) as (l & x & ->).
  apply limbs_app in H2 as [Hl Hx]. apply limbs_single in Hx.
  rewrite app_assoc, !sval_snoc, lval_app by (done || by apply limbs_app).
  rewrite length_app, Nat2Z.inj_add, Z.mul_add_distr_l, Z.pow_add_r by lia. lia.
Qed.

Lemma sval_cons x l : word w x -> operand l -> sval w (x :: l) = x + B * sval w l.
Proof.
  intros Hx Hl. change (x :: l) with ([x] ++ l). rewrite sval_app by (done || by apply limbs_single).
  cbn [lval length]. replace (w * Z.of_nat 1) with w by lia. lia.
Qed.

Lemma sval_zip op l1 l2 : operand l1 -> operand l2 -> length l1 = length l2 ->
  operand (zip_with (limb_op op) l1 l2) /\
  sval w (zip_with (limb_op op) l1 l2) = limb_op op (sval w l1) (sval w l2).
Proof.
  revert l2. induction l1 as [|x l1 IH]; intros [|y l2] [H1 N1] [H2 N2] HL; try done.
  apply limbs_cons in H1 as [Hx H1]. apply limbs_cons in H2 as [Hy H2]. cbn [zip_with].
  pose proof (limb_op_word op x y Hx Hy) as Hxy.
  destruct l1 as [|x' l1], l2 as [|y' l2]; try done.
  - cbn [zip_with]. split; [by split; [apply limbs_single|]|]. rewrite !sval_single by done.
    by rewrite limb_op_swrap.
  - destruct (IH (y' :: l2)) as [[IH1 IH2] IH3]; [done|done|cbn in *; lia|].
    split; [by split; [apply limbs_cons|]|].
    rewrite (sval_cons x), (sval_cons y), limb_op_split, <- IH3 by done. by apply sval_cons.
Qed.

Lemma sval_sext n a : operand a -> (length a <= n)%nat -> operand (sext n a) /\ sval w (sext n a) = sval w a.
Proof.
  intros Ha Hn. destruct Ha as [Hl Hne] eqn:E. clear E. assert (Ho : operand a) by by split.
  pose proof (limbs_sext n a Ho) as HL. pose proof (length_sext n a Hn) as HE.
  pose proof (len_ge1 a Hne). assert (HN : sext n a <> []) by (intros E; rewrite E in HE; cbn in HE; lia).
  split; [done|]. apply (sval_unique w Hwp _ _ (b2z (sval w a <? 0))); [done| |].
  - pose proof (sval_bounds a Ho) as Hb. unfold sword in *. rewrite HE.
    assert (2 ^ (w * len a - 1) <= 2 ^ (w * Z.of_nat n - 1)); [|lia].
    apply Z.pow_le_mono_r; [lia|]. assert (w * len a <= w * Z.of_nat n); [|lia].
    apply Z.mul_le_mono_nonneg_l; lia.
  - rewrite lval_sext, HE by done. lia.
Qed.

Lemma zip_map_replicate op l s n : (length l <= n)%nat ->
  zip_with (limb_op op) l (replicate n s) = map (fun x => limb_op op x s) l.
Proof.
  revert n. induction l as [|x l IH]; intros [|n] Hn; cbn in *; try done; try lia.
  f_equal. apply IH. lia.
Qed.

Lemma limb_op_comm op x y : limb_op op x y = limb_op op y x.
Proof. destruct op; cbn; [apply Z.lor_comm|apply Z.land_comm|apply Z.lxor_comm]. Qed.

Lemma logic_loops op a b : (length b <= length a)%nat ->
  zip_with (limb_op op) (take (length b) a) b
    ++ map (fun x => limb_op op x (wrap w (- js_bigint_sign w b))) (drop (length b) a)
  = zip_with (limb_op op) a (sext (length a) b).
Proof.
  intros Hl. unfold sext. rewrite <- (take_drop (length b) a) at 3.
  rewrite zip_with_app by (rewrite length_take; lia). f_equal.
  rewrite zip_map_replicate by (rewrite length_drop; lia). done.
Qed.

Lemma js_bigint_logic_gen a b op k : operand a -> operand b ->
  post (js_bigint_logic w a b op) k (represents w (limb_op op (sval w a) (sval w b)))
    (too_large (Z.of_nat (Nat.max (length a) (length b)))).
Proof.
  intros Ha Hb. unfold js_bigint_logic.
  assert (HG : forall a b, operand a -> operand b -> (length b <= length a)%nat ->
    post (js_bigint_new w (len a) ;;; js_bigint_normalize w
      (zip_with (limb_op op) (take (length b) a) b
       ++ map (fun x => limb_op op x (wrap w (- js_bigint_sign w b))) (drop (length b) a))) k
      (represents w (limb_op op (sval w a) (sval w b))) (too_large (len a))).
  { clear - Hwp Hw. intros a b Ha Hb Hl. eapply post_bind; [apply post_new|]. intros _ k' _.
    rewrite logic_loops by done. destruct (sval_sext (length a) b Hb Hl) as [Hs Es].
    destruct (sval_zip op a _ Ha Hs) as [Hz Ez]; [by rewrite length_sext|].
    rewrite <- Es, <- Ez. by apply js_bigint_normalize_spec. }
  destruct (Nat.ltb_spec (length a) (length b)).
  - rewrite limb_op_comm. eapply post_weaken; [apply HG; (done || lia)|done|].
    intros e. by rewrite Nat.max_r by lia.
  - eapply post_weaken; [apply HG; (done || lia)|done|]. intros e. by rewrite Nat.max_l by lia.
Qed.

Lemma js_bigint_not_gen a k : bigint_wf w a ->
  post (js_bigint_not w a) k (represents w (Z.lnot (sval w a))) (too_large (len a)).
Proof.
  intros (Ha & Hn & Hm). unfold js_bigint_not. eapply post_bind; [apply post_new|].
  intros _ k' _. apply post_ret.
  assert (E : forall l, limbs w l -> let r := map (fun x => wrap w (Z.lnot x)) l in
    limbs w r /\ lval w r = 2 ^ (w * len l) - 1 - lval w l).
  { clear - Hwp Hw. intros l Hl. cbv zeta. induction Hl as [|x l Hx Hl [IH1 IH2]].
    - cbn. rewrite Z.mul_0_r. split; [constructor|lia].
    - cbn [map lval length]. rewrite wrap_lnot, IH2 by done. unfold word in Hx. split.
      + apply limbs_cons. split; [unfold word; lia|done].
      + replace (w * Z.of_nat (S (length l))) with (w + w * len l) by lia.
        rewrite Z.pow_add_r by lia. lia. }
  destruct (E a Ha) as [H1 H2]. set (r := map _ a) in *.
  assert (HL : length r = length a) by apply length_map.
  assert (HN : r <> []) by (destruct r, a; done).
  pose proof (sval_range w Hwp a Hn) as Hr. unfold sword in Hr.
  assert (EV : sval w r = Z.lnot (sval w a)).
  { rewrite Z.lnot_eq_pred_opp. apply (sval_unique w Hwp _ _ (1 - b2z (sval w a <? 0))); [done| |].
    - unfold sword. rewrite HL. lia.
    - rewrite H2, HL, (sval_lval w Hwp a) by done. lia. }
  split; [|done]. split_and!; [done..|]. rewrite HL, EV, Z.lnot_eq_pred_opp.
  destruct Hm as [Hm|Hm]; [by left|right]. unfold sword in *. lia.
Qed.

(** *** Shifts *)

Lemma operand_app l1 l2 : limbs w l1 -> operand l2 -> operand (l1 ++ l2).
Proof.
  intros H1 [H2 Hn]. split; [by apply limbs_app|]. destruct l1; [done|done].
Qed.

(** The length of a normalized array is determined by its value. *)
Lemma wf_lower a : bigint_wf w a -> (2 <= length a)%nat ->
  sval w a < - 2 ^ (w * (len a - 1) - 1) \/ 2 ^ (w * (len a - 1) - 1) <= sval w a.
Proof. intros (_ & _ & [?|Hm]) Hl; [lia|]. unfold sword in Hm. lia. Qed.

Lemma wf_intro a : operand a ->
  ((2 <= length a)%nat ->
    sval w a < - 2 ^ (w * (len a - 1) - 1) \/ 2 ^ (w * (len a - 1) - 1) <= sval w a) ->
  bigint_wf w a.
Proof.
  intros [Ha Hn] H. split_and!; [done..|]. pose proof (len_ge1 a Hn).
  destruct (Nat.eq_dec (length a) 1%nat); [by left|right]. unfold sword. specialize (H ltac:(lia)). lia.
Qed.

Lemma pow_len_nonneg (a : list Z) : 0 <= w * len a.
Proof. apply Z.mul_nonneg_nonneg; lia. Qed.

Lemma shl_top_limb l' s (neg : bool) : 0 < s < w -> word s l' ->
  let l := if neg then l' .| wrap w (wrap w (-1) << s) else l' in
  word w l /\ swrap w l = l' - b2z neg * 2 ^ s.
Proof.
  intros Hs Hl. cbv zeta. unfold word in Hl. pose proof (pow2_split w s ltac:(lia)) as Hsp.
  pose proof (pow2_half w Hwp) as Hh.
  assert (H2s : 2 ^ s <= 2 ^ (w - 1)) by (apply Z.pow_le_mono_r; lia).
  destruct neg; cbn [Z.b2z].
  - assert (E1 : wrap w (-1) = B - 1) by (apply (wrap_unique w (-1) (B - 1) (-1)); unfold word; lia).
    assert (Ew : (B - 1) mod 2 ^ (w - s) = 2 ^ (w - s) - 1).
    { pose proof (pow2_pos (w - s)). pose proof (pow2_pos s).
      symmetry. apply (Z.mod_unique _ _ (2 ^ s - 1)); [lia|]. rewrite Hsp. ring. }
    rewrite wrap_shiftl, E1, Ew, lor_add_shiftl by (lia || done).
    replace ((2 ^ (w - s) - 1) * 2 ^ s + l') with (B - 2 ^ s + l') by (rewrite Hsp; ring).
    split; [unfold word; lia|]. apply (swrap_unique _ _ _ 1); [done|unfold sword; lia|lia].
  - split; [unfold word; lia|]. rewrite swrap_small; [lia|done|unfold sword; lia].
Qed.

Lemma js_bigint_shl_gen a n k : bigint_wf w a -> 0 <= n ->
  post (js_bigint_shl w a n) k (represents w (sval w a * 2 ^ n)) (too_large (len a + n / w)).
Proof.
  intros Hwf Hn. pose proof (wf_operand _ Hwf) as Ha. pose proof (len_ge1 a (proj2 Ha)) as Hla.
  unfold js_bigint_shl. rewrite sval_zero by done.
  pose proof (Z.div_mod n w ltac:(lia)) as En. pose proof (Z.mod_pos_bound n w ltac:(lia)) as Hm.
  assert (Hd : 0 <= n / w) by (apply Z.div_pos; lia).
  set (d := n / w) in *. set (s := n mod w) in *.
  destruct (Z.eqb_spec (sval w a) 0) as [E0|E0].
  { rewrite E0. eapply post_weaken; [apply js_bigint_new_si_spec; unfold sword; pose proof (pow2_pos (w - 1)); lia|done|].
    intros e [-> He]. split; [done|lia]. }
  eapply post_bind; [apply post_new|]. intros _ k' _.
  assert (Hz : limbs w (replicate (Z.to_nat d) 0)) by by apply limbs_zeros.
  assert (HS : forall l, operand l -> sval w (replicate (Z.to_nat d) 0 ++ l) = 2 ^ (w * d) * sval w l).
  { intros l Hl. rewrite sval_app, lval_zeros, length_replicate, Z2Nat.id by done. lia. }
  assert (Hwd : 0 <= w * d) by (apply Z.mul_nonneg_nonneg; lia).
  assert (EP : 2 ^ n = 2 ^ (w * d) * 2 ^ s) by (rewrite En, Z.pow_add_r by lia; done).
  destruct (Z.eqb_spec s 0) as [Es|Es].
  - apply post_ret. rewrite Es, Z.mul_1_r in EP. split; [|rewrite HS, EP by done; lia].
    apply wf_intro; [by apply operand_app|]. intros _. rewrite HS by done.
    rewrite length_app, length_replicate.
    assert (HP : 0 < 2 ^ (w * d)) by (apply pow2_pos; lia).
    destruct (Nat.eq_dec (length a) 1%nat) as [E1|E1].
    + replace (w * (Z.of_nat (Z.to_nat d + length a) - 1) - 1) with (w * d - 1) by lia.
      destruct (Z.eq_dec d 0) as [-> |]; [rewrite Z.mul_0_r; cbn; lia|].
      assert (w * 1 <= w * d) by (apply Z.mul_le_mono_nonneg_l; lia).
      pose proof (pow2_half (w * d) ltac:(lia)).
      destruct (Z.lt_trichotomy (sval w a) 0) as [Hc|[Hc|Hc]]; [left|lia|right].
      * assert (2 ^ (w * d) * sval w a <= 2 ^ (w * d) * (-1)) by (apply Z.mul_le_mono_nonneg_l; lia). lia.
      * assert (2 ^ (w * d) * 1 <= 2 ^ (w * d) * sval w a) by (apply Z.mul_le_mono_nonneg_l; lia). lia.
    + pose proof (wf_lower a Hwf ltac:(lia)) as HW.
      replace (w * (Z.of_nat (Z.to_nat d + length a) - 1) - 1) with (w * d + (w * (len a - 1) - 1)) by lia.
      assert (w * 1 <= w * (len a - 1)) by (apply Z.mul_le_mono_nonneg_l; lia).
      rewrite Z.pow_add_r by lia. set (P := 2 ^ (w * (len a - 1) - 1)) in *.
      destruct HW; [left|right].
      * replace (- (2 ^ (w * d) * P)) with (2 ^ (w * d) * (- P)) by ring. apply Z.mul_lt_mono_pos_l; lia.
      * apply Z.mul_le_mono_nonneg_l; lia.
  - destruct (mp_shl w a s) as [r l'] eqn:E.
    apply mp_shl_spec in E as (EV & Hr & HL & Hl'); [|done|apply Ha|lia].
    rewrite b2z_sign_test by done.
    destruct (shl_top_limb l' s (sval w a <? 0) ltac:(lia) Hl') as [Hx Ex].
    set (x := if sval w a <? 0 then _ else _) in *.
    assert (Hrn : operand r) by (split; [done|destruct r, a; done || (cbn in HL, Hla; lia)]).
    replace (sval w a * 2 ^ n) with (sval w ((replicate (Z.to_nat d) 0 ++ r) ++ [x])).
    + apply js_bigint_extend_spec; [by apply operand_app|done].
    + rewrite <- app_assoc, HS by (apply operand_app; [done|]; split; [by apply limbs_single|done]).
      rewrite sval_snoc, Ex, HL, EP by done.
      pose proof (sval_lval w Hwp a (proj1 Ha) (proj2 Ha)) as Ev.
      rewrite Ev in EV. scale (2 ^ (w * d)) EV. lia.
Qed.

Lemma js_bigint_shr_gen a n k : bigint_wf w a -> 0 <= n ->
  post (js_bigint_shr w a n) k (represents w (sval w a / 2 ^ n)) (too_large (len a)).
Proof.
  intros Hwf Hn. pose proof (wf_operand _ Hwf) as Ha. pose proof (len_ge1 a (proj2 Ha)) as Hla.
  unfold js_bigint_shr. rewrite (js_bigint_sign_spec w a (proj1 Ha) (proj2 Ha)).
  pose proof (Z.div_mod n w ltac:(lia)) as En. pose proof (Z.mod_pos_bound n w ltac:(lia)) as Hm.
  assert (Hd : 0 <= n / w) by (apply Z.div_pos; lia).
  set (d := n / w) in *. set (s := n mod w) in *.
  pose proof (sval_bounds a Ha) as Hb. unfold sword in Hb.
  assert (Hwd : 0 <= w * d) by (apply Z.mul_nonneg_nonneg; lia).
  assert (EP : 2 ^ n = 2 ^ (w * d) * 2 ^ s) by (rewrite En, Z.pow_add_r by lia; done).
  pose proof (pow2_pos n Hn) as HPn.
  destruct (Z.leb_spec (len a) d) as [Hl|Hl].
  { replace (sval w a / 2 ^ n) with (- b2z (sval w a <? 0)).
    - eapply post_weaken; [apply js_bigint_new_si_spec|done|intros e [-> ?]; split; [done|lia]].
      unfold sword. pose proof (w_ge w). assert (2 ^ 1 <= 2 ^ (w - 1)) by (apply Z.pow_le_mono_r; lia).
      destruct (_ <? _); cbn; lia.
    - assert (2 ^ (w * len a - 1) <= 2 ^ n).
      { apply Z.pow_le_mono_r; [lia|]. assert (w * len a <= w * d) by (apply Z.mul_le_mono_nonneg_l; lia). lia. }
      destruct (Z.ltb_spec (sval w a) 0); cbn [Z.b2z].
      + apply (Z.div_unique _ _ _ (sval w a + 2 ^ n)); lia.
      + symmetry. apply Z.div_small. lia. }
  eapply post_bind; [apply post_new_weaken; intros e [-> ?]; split; [done|lia]|]. intros _ k' _.
  set (dn := Z.to_nat d). assert (Edn : d = Z.of_nat dn) by (unfold dn; lia).
  assert (HoD : operand (drop dn a)).
  { split; [by apply limbs_drop; apply Ha|]. intros E. apply (f_equal length) in E.
    rewrite length_drop in E. cbn in E. lia. }
  assert (HsD : sval w (drop dn a) = sval w a / 2 ^ (w * d)).
  { pose proof (limbs_take w dn a (proj1 Ha)) as Ht. pose proof (lval_range w Hwp _ Ht) as Hr.
    assert (EL : length (take dn a) = dn) by (rewrite length_take; lia). rewrite EL in Hr.
    apply (Z.div_unique _ _ _ (lval w (take dn a))); [rewrite Edn; lia|].
    rewrite <- (take_drop dn a) at 1. rewrite sval_app, EL, Edn by done. lia. }
  assert (HLd : length (drop dn a) = (length a - dn)%nat) by apply length_drop.
  rewrite EP, <- Z.div_div by (pose proof (pow2_pos (w * d)); pose proof (pow2_pos s); lia).
  rewrite <- HsD. set (v := drop dn a) in *.
  destruct (Z.eqb_spec s 0) as [Es|Es].
  - apply post_ret. rewrite Es, Z.div_1_r. split; [|done]. apply wf_intro; [done|].
    intros Hlv. pose proof (wf_lower a Hwf ltac:(lia)) as HW. rewrite HsD.
    replace (w * (len a - 1) - 1) with (w * d + (w * (len v - 1) - 1)) in HW.
    2: { rewrite HLd, Nat2Z.inj_sub by lia. lia. }
    assert (w * 1 <= w * (len v - 1)) by (apply Z.mul_le_mono_nonneg_l; lia).
    rewrite Z.pow_add_r in HW by lia. set (P := 2 ^ (w * (len v - 1) - 1)) in *.
    destruct HW as [HW|HW]; [left|right].
    + apply Z.div_lt_upper_bound; [apply pow2_pos; lia|lia].
    + apply Z.div_le_lower_bound; [apply pow2_pos; lia|lia].
  - change (wrap w (- b2z (sval w a <? 0))) with (ext_limb w (b2z (sval w a <? 0))).
    assert (Esg : (sval w a <? 0) = (sval w v <? 0)).
    { pose proof (pow2_pos (w * d) ltac:(lia)). rewrite HsD.
      destruct (Z.ltb_spec (sval w a) 0); symmetry; [apply Z.ltb_lt|apply Z.ltb_ge].
      - apply Z.div_lt_upper_bound; lia.
      - apply Z.div_pos; lia. }
    rewrite Esg. destruct (mp_shr w v s _) as [r c] eqn:E.
    apply mp_shr_spec in E as (E1 & E2 & E3 & E4); [|done|apply HoD|lia|by apply ext_limb_word].
    cbn [fst]. destruct HoD as [Hv Hvn]. pose proof (pow2_pos s ltac:(lia)) as HPs.
    assert (Hrn : r <> []) by (destruct r, v; done).
    assert (Eh : ext_limb w (b2z (sval w v <? 0)) mod 2 ^ s = b2z (sval w v <? 0) * (2 ^ s - 1)).
    { pose proof (pow2_split w s ltac:(lia)) as Hsp. pose proof (pow2_pos (w - s) ltac:(lia)).
      destruct (sval w v <? 0); cbn [Z.b2z].
      - rewrite ext_limb_1 by done. symmetry. apply (Z.mod_unique _ _ (2 ^ (w - s) - 1)); [lia|].
        rewrite Hsp. ring.
      - rewrite ext_limb_0 by done. by apply Z.mod_0_l; lia. }
    replace (sval w v / 2 ^ s) with (sval w r); [by apply js_bigint_normalize_spec|].
    pose proof (sval_lval w Hwp v Hv Hvn) as Ev. rewrite Eh in E1.
    pose proof (sval_bounds v ltac:(by split)) as Hbv. unfold sword in Hbv.
    assert (Ediv : sval w v / 2 ^ s = lval w r - b2z (sval w v <? 0) * 2 ^ (w * len v)).
    { symmetry. apply (Z.div_unique _ _ _ c); [lia|]. lia. }
    apply (sval_unique w Hwp _ _ (b2z (sval w v <? 0))); [done| |rewrite E4, Ediv; lia].
    unfold sword. rewrite E4. set (P := 2 ^ (w * len v - 1)) in *.
    assert (0 < P) by (apply pow2_pos; pose proof (len_pos w Hwp v Hvn); lia). split.
    + apply Z.div_le_lower_bound; [lia|]. assert (1 * P <= 2 ^ s * P) by (apply Z.mul_le_mono_nonneg_r; lia). lia.
    + apply Z.div_lt_upper_bound; [lia|]. assert (1 * P <= 2 ^ s * P) by (apply Z.mul_le_mono_nonneg_r; lia). lia.
Qed.

(** *** Powers *)

Lemma max_size : 2 <= JS_BIGINT_MAX_SIZE w /\ w * JS_BIGINT_MAX_SIZE w = 2 ^ 20.
Proof. clear - Hw. destruct Hw as [-> | ->]; vm_compute; split; congruence. Qed.

(** A result of this magnitude or more may be refused. *)
Definition pow_limit : Z := 2 ^ (w * (JS_BIGINT_MAX_SIZE w - 1) - 2).

Definition pow_error (a b : JSBigInt) (e : exn) : Prop :=
  (e = RangeError "BigInt negative exponent" /\ sval w b < 0) \/
  ((e = RangeError "BigInt is too large" \/ e = RangeError "BigInt is too large to allocate") /\
   pow_limit <= Z.abs (sval w a ^ sval w b)).

Lemma new_si_ok v k (R : exn -> Prop) : sword w v ->
  post (js_bigint_new_si w v) k (represents w v) R.
Proof.
  intros Hv. eapply post_weaken; [by apply js_bigint_new_si_spec|done|].
  intros e [_ He]. pose proof max_size. lia.
Qed.

Lemma wf_abs_lower a : bigint_wf w a -> 2 ^ (w * (len a - 1) - 1) <= Z.abs (sval w a).
Proof.
  intros Hwf. pose proof (len_ge1 a (proj2 (wf_operand _ Hwf))).
  destruct (Nat.eq_dec (length a) 1%nat) as [E|E].
  - rewrite E. rewrite Z.pow_neg_r by lia. lia.
  - destruct (wf_lower a Hwf ltac:(lia)); lia.
Qed.

Lemma mul_too_large r1 r2 : bigint_wf w r1 -> bigint_wf w r2 -> sval w r1 <> 0 -> sval w r2 <> 0 ->
  JS_BIGINT_MAX_SIZE w < len r1 + len r2 -> pow_limit <= Z.abs (sval w r1 * sval w r2).
Proof.
  intros H1 H2 N1 N2 HM. pose proof (wf_abs_lower _ H1) as L1. pose proof (wf_abs_lower _ H2) as L2.
  pose proof (len_ge1 r1 (proj2 (wf_operand _ H1))) as P1.
  pose proof (len_ge1 r2 (proj2 (wf_operand _ H2))) as P2.
  pose proof max_size as [M1 _]. rewrite Z.abs_mul. unfold pow_limit.
  set (M := JS_BIGINT_MAX_SIZE w) in *.
  assert (HE : w * (M - 1) - 2 <= (w * (len r1 - 1) - 1) + (w * (len r2 - 1) - 1)).
  { assert (w * (M - 1) <= w * (len r1 + len r2 - 2)) by (apply Z.mul_le_mono_nonneg_l; lia). lia. }
  assert (HW : forall n, 1 < n -> 0 <= w * (n - 1) - 1).
  { intros n Hn. assert (w * 1 <= w * (n - 1)) by (apply Z.mul_le_mono_nonneg_l; lia). lia. }
  assert (forall x y lx ly, 2 ^ (w * (lx - 1) - 1) <= x -> 2 ^ (w * (ly - 1) - 1) <= y ->
    1 <= x -> 1 <= y -> lx = 1 -> w * (M - 1) - 2 <= (w * (lx - 1) - 1) + (w * (ly - 1) - 1) ->
    2 ^ (w * (M - 1) - 2) <= x * y) as H1limb.
  { intros x y lx ly Hx Hy Hx1 Hy1 -> HE'. rewrite Z.sub_diag, Z.mul_0_r in HE'.
    assert (2 ^ (w * (M - 1) - 2) <= 2 ^ (w * (ly - 1) - 1)) by (apply Z.pow_le_mono_r; lia).
    assert (1 * y <= x * y) by (apply Z.mul_le_mono_nonneg_r; lia). lia. }
  destruct (Z.eq_dec (len r1) 1) as [E1|E1]; [eapply H1limb; eauto; lia|].
  destruct (Z.eq_dec (len r2) 1) as [E2|E2];
    [rewrite (Z.mul_comm (Z.abs _)); eapply (H1limb _ _ (len r2) (len r1)); eauto; lia|].
  pose proof (HW (len r1) ltac:(lia)). pose proof (HW (len r2) ltac:(lia)).
  transitivity (2 ^ ((w * (len r1 - 1) - 1) + (w * (len r2 - 1) - 1))).
  - apply Z.pow_le_mono_r; lia.
  - rewrite Z.pow_add_r by lia. apply Z.mul_le_mono_nonneg; try done; lia.
Qed.

Lemma abs_pow_le A x y : 2 <= Z.abs A -> 0 <= x <= y -> Z.abs (A ^ x) <= Z.abs (A ^ y).
Proof. intros HA Hxy. rewrite !Z.abs_pow. apply Z.pow_le_mono_r; lia. Qed.

Lemma pow_nonzero A x : 2 <= Z.abs A -> 0 <= x -> A ^ x <> 0.
Proof. intros HA Hx. apply Z.pow_nonzero; lia. Qed.

Lemma big_pow A x n : 2 <= Z.abs A -> 0 <= n <= x -> 2 ^ n <= Z.abs (A ^ x).
Proof.
  intros HA Hn. rewrite Z.abs_pow. transitivity (2 ^ x); [apply Z.pow_le_mono_r; lia|].
  apply Z.pow_le_mono_l; lia.
Qed.

Definition alloc_error (v : Z) (e : exn) : Prop :=
  e = RangeError "BigInt is too large to allocate" /\ pow_limit <= Z.abs v.

Lemma pow_mul_spec A x y r1 r2 z k : 2 <= Z.abs A -> 0 <= x -> 0 <= y -> x + y <= z ->
  represents w (A ^ x) r1 -> represents w (A ^ y) r2 ->
  post (js_bigint_mul w r1 r2) k (represents w (A ^ (x + y))) (alloc_error (A ^ z)).
Proof.
  intros HA Hx Hy Hz [W1 E1] [W2 E2]. rewrite Z.pow_add_r, <- E1, <- E2 by lia.
  eapply post_weaken; [apply js_bigint_mul_gen; by apply wf_operand|done|].
  intros e [-> He]. split; [done|]. transitivity (Z.abs (A ^ (x + y))); [|apply abs_pow_le; lia].
  rewrite Z.pow_add_r, <- E1, <- E2 by lia.
  apply mul_too_large; rewrite ?E1, ?E2; try done; by apply pow_nonzero.
Qed.

Lemma shift_step e i : 0 <= e ->
  e >> Z.of_nat i = 2 * (e >> Z.of_nat (S i)) + (e >> Z.of_nat i) .& 1 /\
  ((e >> Z.of_nat i) .& 1 = 0 \/ (e >> Z.of_nat i) .& 1 = 1).
Proof.
  intros He. pose proof (land_ones_mod (e >> Z.of_nat i) 1 ltac:(lia)) as E.
  change (2 ^ 1 - 1) with 1 in E. change (2 ^ 1) with 2 in E. rewrite E.
  replace (Z.of_nat (S i)) with (Z.of_nat i + 1) by lia.
  rewrite <- Z.shiftr_shiftr by lia. rewrite (shiftr_div _ 1) by lia. change (2 ^ 1) with 2.
  pose proof (Z.div_mod (e >> Z.of_nat i) 2 ltac:(lia)). pose proof (Z.mod_pos_bound (e >> Z.of_nat i) 2 ltac:(lia)). lia.
Qed.

Lemma shiftr_bounds e i : 0 <= e -> 0 <= e >> Z.of_nat i <= e.
Proof.
  intros He. rewrite shiftr_div by lia. pose proof (pow2_pos (Z.of_nat i)). split.
  - apply Z.div_pos; lia.
  - apply Z.div_le_upper_bound; [lia|]. assert (1 * e <= 2 ^ Z.of_nat i * e) by (apply Z.mul_le_mono_nonneg_r; lia). lia.
Qed.

Lemma pow_loop_spec A i r a e k : 2 <= Z.abs A -> 0 <= e -> represents w A a ->
  represents w (A ^ (e >> Z.of_nat i)) r ->
  post (pow_loop w i r a e) k (represents w (A ^ e)) (alloc_error (A ^ e)).
Proof.
  intros HA He Ha. revert r k. induction i as [|i IH]; intros r k Hr.
  - apply post_ret. by rewrite Z.shiftr_0_r in Hr.
  - cbn [pow_loop]. destruct (shift_step e i He) as [Es Eb].
    pose proof (shiftr_bounds e i He) as Hi. pose proof (shiftr_bounds e (S i) He) as Hi'.
    set (x := e >> Z.of_nat (S i)) in *. set (y := e >> Z.of_nat i) in *.
    eapply post_bind; [apply (pow_mul_spec A x x r r e); (done || lia)|]. intros r1 k1 H1.
    destruct Eb as [Eb|Eb]; rewrite Eb in Es |- *; cbn [negb Z.eqb].
    + apply IH. by replace y with (x + x) by lia.
    + eapply post_bind; [apply (pow_mul_spec A (x + x) 1 r1 a e); try done; try lia|].
      { by rewrite Z.pow_1_r. }
      intros r2 k2 H2. apply IH. by replace y with (x + x + 1) by lia.
Qed.

Lemma exponent_value b : bigint_wf w b -> 0 <= sval w b -> length b = 1%nat ->
  b !!! 0%nat = sval w b.
Proof.
  intros (Hb & Hn & _) Hs Hl. rewrite (sval_nonneg w Hwp) by done.
  destruct b as [|x [|]]; try done. cbn. lia.
Qed.

(** The two guards on the exponent: past them it is a 31-bit number. *)
Lemma exponent_guard b A k {Q : JSBigInt -> Prop} (R : exn -> Prop) m :
  bigint_wf w b -> 0 <= sval w b -> 2 <= Z.abs A ->
  (pow_limit <= Z.abs (A ^ sval w b) -> R (RangeError "BigInt is too large")) ->
  (b !!! 0%nat = sval w b -> sval w b <= INT32_MAX -> post m k Q R) ->
  post (if (1 <? length b)%nat then throw (RangeError "BigInt is too large")
    else if INT32_MAX <? b !!! 0%nat then throw (RangeError "BigInt is too large") else m) k Q R.
Proof.
  intros Hb Hs HA HR Hm. pose proof (len_ge1 b (proj2 (wf_operand _ Hb))).
  pose proof max_size as [HM1 HM2]. change (2 ^ 20) with 1048576 in HM2.
  assert (HB : 2 ^ 31 <= sval w b -> pow_limit <= Z.abs (A ^ sval w b)).
  { intros Hl. change (2 ^ 31) with 2147483648 in Hl. apply big_pow; [done|]. rewrite Z.mul_sub_distr_l, HM2.
    pose proof (w_ge w). assert (w <= 64) by (clear - Hw; destruct Hw; lia). lia. }
  destruct (Nat.ltb_spec 1 (length b)) as [Hl|Hl].
  - apply post_throw, HR, HB. pose proof (wf_abs_lower b Hb).
    assert (2 ^ 31 <= 2 ^ (w * (len b - 1) - 1)); [|lia]. apply Z.pow_le_mono_r; [lia|].
    pose proof (w_ge w). assert (w * 1 <= w * (len b - 1)) by (apply Z.mul_le_mono_nonneg_l; lia). lia.
  - pose proof (exponent_value b Hb Hs ltac:(lia)) as E. rewrite E.
    destruct (Z.ltb_spec INT32_MAX (sval w b)).
    + apply post_throw. apply HR, HB. unfold INT32_MAX in *. lia.
    + by apply Hm.
Qed.

Lemma pow_general_spec a b k : bigint_wf w a -> bigint_wf w b ->
  2 <= Z.abs (sval w a) -> 0 < sval w b ->
  post (pow_general w a b) k (represents w (sval w a ^ sval w b)) (pow_error a b).
Proof.
  intros Ha Hb HA Hs. unfold pow_general.
  apply (exponent_guard b (sval w a)); try done; [lia|intros; right; by eauto|].
  intros E Hm. rewrite E. unfold INT32_MAX in *. rewrite wrap_small by (unfold word; lia).
  pose proof (clz_log2 32 (sval w b) ltac:(lia) ltac:(lia)) as Ec.
  pose proof (Z.log2_nonneg (sval w b)). pose proof (Z.log2_spec (sval w b) Hs) as Hl.
  eapply post_bind.
  { eapply post_weaken; [apply post_new|intros ? H'; exact H'|]. intros e [-> He]. right.
    split; [by right|]. pose proof (wf_abs_lower a Ha).
    transitivity (2 ^ (w * (len a - 1) - 1)).
    - apply Z.pow_le_mono_r; [lia|]. assert (w * (JS_BIGINT_MAX_SIZE w - 1) <= w * (len a - 1)) by (apply Z.mul_le_mono_nonneg_l; lia). lia.
    - transitivity (Z.abs (sval w a ^ 1)); [rewrite Z.pow_1_r; lia|apply abs_pow_le; lia]. }
  intros _ k' _. eapply post_weaken; [apply (pow_loop_spec (sval w a)); try done; try lia| |].
  - replace (Z.of_nat _) with (Z.log2 (sval w b)) by lia. rewrite shiftr_div by lia.
    replace (sval w b / 2 ^ Z.log2 (sval w b)) with 1; [by rewrite Z.pow_1_r|].
    rewrite Z.pow_succ_r in Hl by lia.
    apply (Z.div_unique _ _ _ (sval w b - 2 ^ Z.log2 (sval w b))); lia.
  - done.
  - intros e [-> He]. right. split; [by right|done].
Qed.

Lemma pow2_limb s neg : 0 <= s < w -> neg = 0 \/ neg = 1 ->
  let x := wrap w (wrap w (1 - 2 * neg) << s) in
  word w x /\ (neg = 0 -> x = 2 ^ s) /\ (neg = 1 -> swrap w x = - 2 ^ s).
Proof.
  intros Hs Hneg. cbv zeta. split; [apply wrap_range; lia|].
  pose proof (pow2_half w Hwp) as Hh. pose proof (pow2_pos s ltac:(lia)).
  assert (H2s : 2 ^ s <= 2 ^ (w - 1)) by (apply Z.pow_le_mono_r; lia).
  split; intros ->.
  - rewrite (wrap_small _ (1 - 2 * 0)) by (unfold word; lia). rewrite shiftl_mul by lia.
    rewrite wrap_small; unfold word; lia.
  - rewrite swrap_wrap by done. apply swrap_unique with (k := 2 ^ s); [done|unfold sword; lia|].
    rewrite (wrap_unique w (1 - 2 * 1) (B - 1) (-1)) by (unfold word; lia).
    rewrite shiftl_mul by lia. lia.
Qed.

(** The array built for [2^E] or [-2^E]. *)
Lemma pow2_array E neg : 0 <= E -> neg = 0 \/ neg = 1 ->
  let rlen := (E + w + 1 - neg) / w in
  let r := <[Z.to_nat (E / w) := wrap w (wrap w (1 - 2 * neg) << (E mod w))]>
             (replicate (Z.to_nat rlen) 0) in
  represents w ((1 - 2 * neg) * 2 ^ E) r /\ len r = rlen.
Proof.
  intros HE Hneg. cbv zeta. pose proof (Z.div_mod E w ltac:(lia)) as Ed.
  pose proof (Z.mod_pos_bound E w ltac:(lia)) as Hm. assert (Hd : 0 <= E / w) by (apply Z.div_pos; lia).
  set (d := E / w) in *. set (s := E mod w) in *.
  destruct (pow2_limb s neg Hm Hneg) as (Hx & Hx0 & Hx1). set (x := wrap w (_ << s)) in *.
  set (rlen := (E + w + 1 - neg) / w).
  pose proof (w_ge w) as Hge. assert (HP : 2 ^ E = 2 ^ (w * d) * 2 ^ s).
  { rewrite Ed, Z.pow_add_r by (lia || apply Z.mul_nonneg_nonneg; lia). done. }
  assert (Hrl : rlen = d + 1 + b2z (bool_decide (neg = 0 /\ s = w - 1))).
  { unfold rlen. case_bool_decide as HD; cbn [Z.b2z].
    - symmetry. apply (Z.div_unique _ _ _ 0); lia.
    - symmetry. apply (Z.div_unique _ _ _ (s + 1 - neg)); lia. }
  assert (Hrw : rlen * w <= E + w + 1 - neg) by (unfold rlen; rewrite Z.mul_comm; apply Z.mul_div_le; lia).
  assert (Hlen : Z.of_nat (Z.to_nat rlen) = rlen) by (destruct (bool_decide _); cbn in Hrl; lia).
  assert (Hr1 : d + 1 <= rlen) by (destruct (bool_decide _); cbn in Hrl; lia).
  rewrite length_insert, length_replicate. split; [|done]. clearbody rlen.
  assert (Er : <[Z.to_nat d := x]> (replicate (Z.to_nat rlen) 0)
    = replicate (Z.to_nat d) 0 ++ x :: replicate (Z.to_nat rlen - S (Z.to_nat d)) 0).
  { by apply insert_replicate_lt; lia. }
  set (r := <[_ := _]> _) in *. assert (HLr : length r = Z.to_nat rlen)
    by (unfold r; by rewrite length_insert, length_replicate).
  assert (Hxs : operand (x :: replicate (Z.to_nat rlen - S (Z.to_nat d)) 0)).
  { split; [|done]. apply limbs_cons. split; [done|by apply limbs_zeros]. }
  assert (Hz : limbs w (replicate (Z.to_nat d) 0)) by by apply limbs_zeros.
  assert (Hv : sval w (x :: replicate (Z.to_nat rlen - S (Z.to_nat d)) 0) = (1 - 2 * neg) * 2 ^ s).
  { case_bool_decide as HD; cbn [Z.b2z] in Hrl.
    - replace (Z.to_nat rlen - S (Z.to_nat d))%nat with 1%nat by lia. destruct HD as [-> HD].
      cbn [replicate]. change [x; 0] with ([x] ++ [0]).
      rewrite sval_snoc, swrap_0 by (done || (by apply limbs_single) || (unfold word; lia)).
      cbn [lval]. rewrite Hx0 by done. lia.
    - replace (Z.to_nat rlen - S (Z.to_nat d))%nat with 0%nat by lia. cbn [replicate].
      rewrite sval_single by done. destruct Hneg as [E0|E1].
      + rewrite (Hx0 E0), E0, swrap_small; [lia|done|]. unfold sword.
        pose proof (pow2_pos s ltac:(lia)).
        assert (2 ^ s < 2 ^ (w - 1)) by (apply Z.pow_lt_mono_r; lia). lia.
      + rewrite Hx1, E1 by done. lia. }
  assert (HV : sval w r = (1 - 2 * neg) * 2 ^ E).
  { rewrite Er, sval_app, lval_zeros, length_replicate, Hv, HP, Z2Nat.id by done. lia. }
  split; [|done]. apply wf_intro; [rewrite Er; by apply operand_app|].
  intros _. rewrite HV, HLr, Hlen. destruct Hneg as [-> | ->]; [right|left].
  - rewrite Z.mul_1_l. apply Z.pow_le_mono_r; lia.
  - assert (2 ^ (w * (rlen - 1) - 1) < 2 ^ E); [|lia]. apply Z.pow_lt_mono_r; lia.
Qed.

Lemma pow_of_two_spec n (neg : bool) a b k : 0 < n < w -> bigint_wf w b -> 0 < sval w b ->
  sval w a = (if neg then - 2 ^ n else 2 ^ n) ->
  post (pow_of_two w (2 ^ n) neg b) k (represents w (sval w a ^ sval w b)) (pow_error a b).
Proof.
  intros Hn Hb Hs Ea. unfold pow_of_two.
  assert (H2n : 2 <= 2 ^ n).
  { change 2 with (2 ^ 1) at 1. apply Z.pow_le_mono_r; lia. }
  assert (HA : 2 <= Z.abs (sval w a)) by (rewrite Ea; destruct neg; lia).
  apply (exponent_guard b (sval w a)); try done; [lia|intros; right; by eauto|].
  intros E Hm. rewrite E. unfold INT32_MAX in Hm.
  pose proof (pow2_pos n ltac:(lia)).
  assert (Ec : js_limb_clz w (2 ^ n) = w - 1 - n).
  { unfold js_limb_clz. rewrite clz_log2, Z.log2_pow2; [done|lia..|].
    split; [lia|apply Z.pow_lt_mono_r; lia]. }
  rewrite Ec. replace (w - 1 - (w - 1 - n)) with n by lia.
  assert (Hw64 : w <= 64) by (clear - Hw; destruct Hw; lia).
  rewrite (wrap_small 32 (sval w b)) by (unfold word; lia).
  set (e := sval w b) in *. assert (Hen : 0 <= e * n <= 2 ^ 31 * 64).
  { split; [apply Z.mul_nonneg_nonneg; lia|apply Z.mul_le_mono_nonneg; lia]. }
  rewrite (wrap_small 64 (e * n)) by (unfold word; lia).
  assert (Eabs : Z.abs (sval w a ^ e) = 2 ^ (e * n)).
  { rewrite Z.abs_pow, Ea, (Z.mul_comm e), Z.pow_mul_r by lia. f_equal. destruct neg; lia. }
  pose proof max_size as [_ HM]. change (2 ^ 20) with 1048576 in HM.
  assert (HL : 1048575 <= e * n -> pow_limit <= Z.abs (sval w a ^ e)).
  { intros Hl. rewrite Eabs. unfold pow_limit. apply Z.pow_le_mono_r; [lia|].
    rewrite Z.mul_sub_distr_l, HM. lia. }
  rewrite (Z.mul_comm _ w), HM. destruct (Z.ltb_spec 1048576 (e * n)).
  { apply post_throw. right. split; [by left|]. apply HL. lia. }
  rewrite (wrap_small 32 (e * n)) by (unfold word; lia).
  set (ng := if neg then e .& 1 else 0).
  assert (Hng : (ng = 0 \/ ng = 1) /\ sval w a ^ e = (1 - 2 * ng) * 2 ^ (e * n)).
  { rewrite (Z.mul_comm e), Z.pow_mul_r by lia. unfold ng. rewrite Ea. destruct neg; [|lia].
    pose proof (land_ones_mod e 1 ltac:(lia)) as El.
    change (2 ^ 1 - 1) with 1 in El. change (2 ^ 1) with 2 in El. rewrite El, Zmod_odd.
    destruct (Z.odd e) eqn:Eo.
    - split; [by right|]. rewrite Z.pow_opp_odd by (by apply Z.odd_spec). lia.
    - split; [by left|]. rewrite Z.pow_opp_even by (apply Z.even_spec; rewrite <- Z.negb_odd, Eo; done). lia. }
  destruct Hng as [Hng ->]. rewrite (wrap_small 32 (e * n + w + 1 - ng)) by (unfold word; lia).
  destruct (pow2_array (e * n) ng (proj1 Hen) Hng) as [HR HLen]. cbv zeta in HR, HLen.
  eapply post_bind; [|intros _ k' _; by apply post_ret].
  apply post_new_weaken. intros x [-> Hx]. right. split; [by right|]. apply HL.
  pose proof (Z.mul_div_le (e * n + w + 1 - ng) w ltac:(lia)).
  assert (w * (JS_BIGINT_MAX_SIZE w + 1) <= w * ((e * n + w + 1 - ng) / w)) by (apply Z.mul_le_mono_nonneg_l; lia).
  lia.
Qed.

Lemma single_value a : bigint_wf w a -> length a = 1%nat -> a = [a !!! 0%nat] /\ word w (a !!! 0%nat)
  /\ sval w a = swrap w (a !!! 0%nat).
Proof.
  intros (Ha & _ & _) Hl. destruct a as [|x [|]]; try done. cbn.
  apply limbs_single in Ha. split_and!; [done|done|]. by apply sval_single.
Qed.

Lemma pow_single v b : word w v -> bigint_wf w b -> 0 < sval w b ->
  (v <= 1 -> swrap w v ^ sval w b = v) /\
  (v = wrap w (-1) -> swrap w v ^ sval w b = swrap w (1 - 2 * (b !!! 0%nat .& 1))).
Proof.
  intros Hv Hb Hs. pose proof (pow2_half w Hwp) as Hh. pose proof (w_ge w).
  assert (H4 : 2 ^ 2 <= 2 ^ (w - 1)) by (apply Z.pow_le_mono_r; lia). change (2 ^ 2) with 4 in H4.
  unfold word in Hv. split.
  - intros H1. rewrite swrap_small by (done || unfold sword; lia).
    assert (v = 0 \/ v = 1) as [-> | ->] by lia; [by apply Z.pow_0_l|by apply Z.pow_1_l; lia].
  - intros ->. rewrite swrap_wrap, swrap_small by (done || unfold sword; lia).
    assert (Eo : b !!! 0%nat .& 1 = b2z (Z.odd (sval w b))).
    { pose proof (land_ones_mod (b !!! 0%nat) 1 ltac:(lia)) as El.
      change (2 ^ 1 - 1) with 1 in El. change (2 ^ 1) with 2 in El. rewrite El, Zmod_odd.
      destruct Hb as (Hb & Hn & _). rewrite (sval_nonneg w Hwp) by (done || lia).
      destruct b as [|x b]; [done|]. cbn [lval]. rewrite Hh. cbn.
      replace (x + 2 * 2 ^ (w - 1) * lval w b) with (x + 2 * (2 ^ (w - 1) * lval w b)) by ring.
      rewrite Z.odd_add_mul_2. by destruct (Z.odd x). }
    rewrite Eo. destruct (Z.odd (sval w b)) eqn:Ep; cbn [Z.b2z]; rewrite swrap_small by (done || unfold sword; lia).
    + change (-1) with (Z.opp 1). rewrite Z.pow_opp_odd, Z.pow_1_l by (lia || by apply Z.odd_spec). done.
    + change (-1) with (Z.opp 1). rewrite Z.pow_opp_even, Z.pow_1_l by (lia || apply Z.even_spec; rewrite <- Z.negb_odd, Ep; done). done.
Qed.

(** [v & (v - 1) == 0] recognizes powers of two. *)
Lemma pow2_test v : 1 < v -> v .& (v - 1) = 0 -> v = 2 ^ Z.log2 v /\ 0 < Z.log2 v.
Proof.
  intros Hv E. pose proof (Z.log2_pos v Hv). split; [|done].
  pose proof (Z.log2_spec v ltac:(lia)) as [H1 H2].
  destruct (Z.eq_dec v (2 ^ Z.log2 v)) as [|Hne]; [done|].
  assert (Hb : Z.testbit (v .& (v - 1)) (Z.log2 v) = true).
  { rewrite Z.land_spec, Z.bit_log2 by lia. cbn.
    replace (Z.log2 v) with (Z.log2 (v - 1)); [apply Z.bit_log2; lia|].
    apply Z.log2_unique; lia. }
  by rewrite E, Z.bits_0 in Hb.
Qed.

Lemma js_bigint_pow_gen a b k : bigint_wf w a -> bigint_wf w b ->
  post (js_bigint_pow w a b) k (represents w (sval w a ^ sval w b)) (pow_error a b).
Proof.
  intros Ha Hb. unfold js_bigint_pow. rewrite b2z_sign_test by (by apply wf_operand).
  destruct (Z.ltb_spec (sval w b) 0); [apply post_throw; left; done|].
  rewrite (sval_zero b) by done. pose proof (pow2_half w Hwp) as Hh. pose proof (w_ge w).
  assert (H4 : 2 ^ 2 <= 2 ^ (w - 1)) by (apply Z.pow_le_mono_r; lia). change (2 ^ 2) with 4 in H4.
  destruct (Z.eqb_spec (sval w b) 0) as [E0|E0].
  { rewrite E0. apply new_si_ok. unfold sword. lia. }
  destruct (Nat.eqb_spec (length a) 1) as [E1|E1].
  2: { apply pow_general_spec; try done; [|lia]. pose proof (wf_abs_lower a Ha) as HL.
    pose proof (len_ge1 a (proj2 (wf_operand _ Ha))).
    assert (2 ^ 1 <= 2 ^ (w * (len a - 1) - 1)); [|lia]. apply Z.pow_le_mono_r; [lia|].
    assert (w * 1 <= w * (len a - 1)) by (apply Z.mul_le_mono_nonneg_l; lia). lia. }
  destruct (single_value a Ha E1) as (Ea & Hv & Es). set (v := a !!! 0%nat) in *.
  destruct (pow_single v b Hv Hb ltac:(lia)) as [P1 P2]. rewrite <- Es in P1, P2.
  destruct (Z.leb_spec v 1) as [Hv1|Hv1].
  { rewrite P1 by done. apply new_si_ok. unfold sword, word in *. lia. }
  destruct (Z.eqb_spec v (wrap w (-1))) as [Em|Em].
  { rewrite P2 by done. apply new_si_ok. by apply swrap_range. }
  assert (Ew : wrap w (-1) = B - 1) by (apply (wrap_unique w (-1) (B - 1) (-1)); unfold word; lia).
  unfold word in Hv. assert (Esv : swrap w v = if 2 ^ (w - 1) <=? v then v - B else v).
  { unfold swrap. rewrite Z.mod_small by done. zcases; lia. }
  assert (Hc : exists u, (if swrap w v <? 0 then wrap w (- v) else v) = u /\ 1 < u < B /\ u = Z.abs (sval w a) /\
    sval w a = if swrap w v <? 0 then - u else u).
  { eexists. split; [done|]. rewrite Es, Esv. destruct (Z.leb_spec (2 ^ (w - 1)) v).
    - replace (v - B <? 0) with true by lia.
      rewrite (wrap_unique w (- v) (B - v) (-1)) by (unfold word; lia). lia.
    - replace (v <? 0) with false by lia. lia. }
  destruct Hc as (u & -> & Hu & Eu & Esgn).
  destruct (Z.eqb_spec (u .& (u - 1)) 0) as [Ez|Ez].
  - destruct (pow2_test u ltac:(lia) Ez) as [Ep Hp]. rewrite Ep in Esgn |- *.
    apply pow_of_two_spec; try done; [|lia]. split; [lia|]. apply Z.log2_lt_pow2; lia.
  - apply pow_general_spec; try done; lia.
Qed.

(** *** Comparison *)

Definition sign_of (c : comparison) : Z :=
  match c with Lt => -1 | Eq => 0 | Gt => 1 end.

Lemma compare_add_r x y z : (x + z ?= y + z) = (x ?= y).
Proof. rewrite !(Z.add_comm _ z). apply Z.add_compare_mono_l. Qed.

Lemma cmp_limbs_spec a b : limbs w a -> limbs w b -> length a = length b ->
  cmp_limbs (rev a) (rev b) = sign_of (lval w a ?= lval w b).
Proof.
  revert b. induction a as [|x a IH] using rev_ind; intros b Ha Hb HL.
  - by destruct b.
  - destruct b as [|y b _] using rev_ind; [by destruct a|].
    rewrite !length_app in HL. cbn in HL.
    apply limbs_app in Ha as [Ha Hx]. apply limbs_app in Hb as [Hb Hy].
    apply limbs_single in Hx, Hy. rewrite !rev_app_distr. cbn [rev app cmp_limbs].
    assert (E : length b = length a) by lia.
    rewrite !lval_app, E by done. cbn [lval]. rewrite !Z.mul_0_r, !Z.add_0_r.
    pose proof (lval_range w Hwp a Ha) as Ra. pose proof (lval_range w Hwp b Hb) as Rb. rewrite E in Rb.
    set (P := 2 ^ (w * len a)) in *. destruct (Z.eqb_spec x y) as [-> |Hxy]; cbn [negb].
    + rewrite IH by (done || lia). by rewrite compare_add_r.
    + destruct (Z.ltb_spec x y) as [Hl|Hl].
      * assert (P * (x + 1) <= P * y) by (apply Z.mul_le_mono_nonneg_l; lia).
        by rewrite (proj2 (Z.compare_lt_iff _ _)) by lia.
      * assert (P * (y + 1) <= P * x) by (apply Z.mul_le_mono_nonneg_l; lia).
        by rewrite (proj2 (Z.compare_gt_iff _ _)) by lia.
Qed.

(** A longer array has the larger magnitude. *)
Lemma longer_value a b : operand a -> bigint_wf w b -> (length a < length b)%nat ->
  (0 <= sval w a -> 0 <= sval w b -> sval w a < sval w b) /\
  (sval w a < 0 -> sval w b < 0 -> sval w b < sval w a).
Proof.
  intros Ha Hb HL. pose proof (sval_bounds a Ha) as Ra. unfold sword in Ra.
  pose proof (len_ge1 a (proj2 Ha)). pose proof (wf_lower b Hb ltac:(lia)) as Lb.
  assert (2 ^ (w * len a - 1) <= 2 ^ (w * (len b - 1) - 1)); [|lia].
  apply Z.pow_le_mono_r; [lia|]. assert (w * len a <= w * (len b - 1)); [|lia].
  apply Z.mul_le_mono_nonneg_l; lia.
Qed.

Lemma js_bigint_cmp_gen a b : bigint_wf w a -> bigint_wf w b ->
  js_bigint_cmp w a b = sign_of (sval w a ?= sval w b).
Proof.
  intros Ha Hb. pose proof (wf_operand _ Ha) as Oa. pose proof (wf_operand _ Hb) as Ob.
  destruct (Oa) as [La Na], (Ob) as [Lb Nb].
  unfold js_bigint_cmp. rewrite !js_bigint_sign_spec by done.
  pose proof (longer_value a b Oa Hb) as Hab. pose proof (longer_value b a Ob Ha) as Hba.
  assert (HC : forall x y, x < y -> sign_of (x ?= y) = -1) by (intros; by rewrite (proj2 (Z.compare_lt_iff _ _))).
  assert (HG : forall x y, y < x -> sign_of (x ?= y) = 1) by (intros; by rewrite (proj2 (Z.compare_gt_iff _ _))).
  destruct (Z.eqb_spec (b2z (sval w a <? 0)) (b2z (sval w b <? 0))) as [E|E]; cbn [negb].
  - destruct (Nat.eqb_spec (length a) (length b)) as [El|El]; cbn [negb].
    + rewrite cmp_limbs_spec by done. rewrite (sval_lval w Hwp a), (sval_lval w Hwp b), E, El by done.
      by rewrite compare_add_r.
    + destruct (Nat.ltb_spec (length a) (length b)), (Z.ltb_spec (sval w a) 0), (Z.ltb_spec (sval w b) 0);
        cbn [Z.b2z] in *; try lia; symmetry; (apply HC || apply HG); lia.
  - destruct (Z.ltb_spec (sval w a) 0), (Z.ltb_spec (sval w b) 0); cbn [Z.b2z] in *; try lia;
      symmetry; (apply HC || apply HG); lia.
Qed.
End operations.

#[export] Instance word_dec w x : Decision (word w x).
Proof. unfold word. apply _. Defined.
#[export] Instance sword_dec w x : Decision (sword w x).
Proof. unfold sword. apply _. Defined.
#[export] Instance bigint_wf_dec w a : Decision (bigint_wf w a).
Proof. unfold bigint_wf, limbs. apply _. Defined.

(** The world of the concrete runs: every allocation succeeds. *)
Definition all_ok : World := fun _ => true.

(** Decides a closed, decidable goal by evaluation. *)
Ltac by_decide := refine (bool_decide_unpack _ _); vm_compute; exact I.

Section theorems.
Context (w : Z) {Hw : LimbWidth w} {W : World}.

(** C6: addition and subtraction.  For normalized operands [js_bigint_add] returns the
    normalized representation of [a + b] or [a - b]; it can only fail when memory is
    exhausted or when the longer operand exceeds the maximum size. *)
Theorem js_bigint_add_correct a b b_neg k :
  bigint_wf w a -> bigint_wf w b -> b_neg = 0 \/ b_neg = 1 ->
  post (js_bigint_add w a b b_neg) k
    (represents w (if b_neg =? 0 then sval w a + sval w b else sval w a - sval w b))
    (too_large w (Z.of_nat (Nat.max (length a) (length b)))).
Proof.
  intros Ha Hb Hn.
  eapply post_weaken; [apply js_bigint_add_gen; eauto using wf_operand| |done].
  intros r. destruct Hn as [-> | ->]; cbn [Z.eqb].
  - by replace (sval w a + (1 - 2 * 0) * sval w b) with (sval w a + sval w b) by lia.
  - by replace (sval w a + (1 - 2 * 1) * sval w b) with (sval w a - sval w b) by lia.
Qed.

(** C7: multiplication.  [js_bigint_mul] returns the normalized product of two
    normalized operands of either sign. *)
Theorem js_bigint_mul_correct a b k : bigint_wf w a -> bigint_wf w b ->
  post (js_bigint_mul w a b) k (represents w (sval w a * sval w b)) (too_large w (len a + len b)).
Proof. intros. apply js_bigint_mul_gen; eauto using wf_operand. Qed.

(** C8: division and remainder.  [js_bigint_divrem] truncates toward zero, the
    remainder has the sign of the dividend, and it throws "division by zero" only
    for a zero divisor. *)
Theorem js_bigint_divrem_correct a b is_rem k : bigint_wf w a -> bigint_wf w b ->
  post (js_bigint_divrem w a b is_rem) k
    (fun r => sval w b <> 0 /\
      represents w (if is_rem then Z.rem (sval w a) (sval w b) else Z.quot (sval w a) (sval w b)) r)
    (fun e => (e = RangeError "BigInt division by zero" /\ sval w b = 0) \/ too_large w (len a + 2) e).
Proof.
  intros Ha Hb. destruct (Z.eq_dec (sval w b) 0) as [E|E].
  - unfold js_bigint_divrem. rewrite (sval_zero w b Hb), E. apply post_throw. by left.
  - eapply post_weaken; [apply js_bigint_divrem_gen; eauto| |done]. by split.
Qed.

(** C9: bitwise operators.  [js_bigint_logic] acts on the infinite two's complement
    expansions of its operands, whichever is longer. *)
Theorem js_bigint_logic_correct a b op k : bigint_wf w a -> bigint_wf w b ->
  post (js_bigint_logic w a b op) k
    (represents w (match op with
      | OP_or => Z.lor (sval w a) (sval w b)
      | OP_and => Z.land (sval w a) (sval w b)
      | OP_xor => Z.lxor (sval w a) (sval w b)
      end))
    (too_large w (Z.of_nat (Nat.max (length a) (length b)))).
Proof.
  intros. eapply post_weaken; [apply js_bigint_logic_gen; eauto using wf_operand| |done].
  by destruct op.
Qed.

(** C10: shifts.  [js_bigint_shl] multiplies by a power of two and [js_bigint_shr]
    divides by one, rounding toward minus infinity; both normalize. *)
Theorem js_bigint_shift_correct a n k : bigint_wf w a -> 0 <= n ->
  post (js_bigint_shl w a n) k (represents w (sval w a * 2 ^ n)) (too_large w (len a + n / w)) /\
  post (js_bigint_shr w a n) k (represents w (sval w a / 2 ^ n)) (too_large w (len a)).
Proof. intros. split; [apply js_bigint_shl_gen; eauto|apply js_bigint_shr_gen; eauto]. Qed.

(** C11: exponentiation.  [js_bigint_pow] returns [a ^ b]; it throws only for a negative
    exponent or when the result has more than about [2 ^ 20 - w] bits. *)
Theorem js_bigint_pow_correct a b k : bigint_wf w a -> bigint_wf w b ->
  post (js_bigint_pow w a b) k
    (fun r => 0 <= sval w b /\ represents w (sval w a ^ sval w b) r)
    (fun e =>
      (e = RangeError "BigInt negative exponent" /\ sval w b < 0) \/
      ((e = RangeError "BigInt is too large" \/ e = RangeError "BigInt is too large to allocate") /\
       2 ^ (w * (JS_BIGINT_MAX_SIZE w - 1) - 2) <= Z.abs (sval w a ^ sval w b))).
Proof.
  intros Ha Hb. destruct (Z.ltb_spec (sval w b) 0) as [E|E].
  - unfold js_bigint_pow. rewrite (b2z_sign_test w b) by eauto using wf_operand.
    replace (sval w b <? 0) with true by lia. apply post_throw. by left.
  - eapply post_weaken; [apply js_bigint_pow_gen; eauto| |done]. by split.
Qed.

(** Comparison.  On normalized operands [js_bigint_cmp] is the order of the values. *)
Theorem js_bigint_cmp_correct a b : bigint_wf w a -> bigint_wf w b ->
  js_bigint_cmp w a b =
    match sval w a ?= sval w b with Lt => -1 | Eq => 0 | Gt => 1 end.
Proof. intros. apply js_bigint_cmp_gen; eauto. Qed.

(** Negation and complement.  [js_bigint_neg] and [js_bigint_not] return the
    normalized [- a] and [- a - 1]; the second never needs another limb. *)
Theorem js_bigint_unary_correct a k : bigint_wf w a ->
  post (js_bigint_neg w a) k (represents w (- sval w a)) (too_large w (len a)) /\
  post (js_bigint_not w a) k (represents w (- sval w a - 1)) (too_large w (len a)).
Proof.
  intros Ha. split; [apply js_bigint_neg_gen; eauto using wf_operand|].
  replace (- sval w a - 1) with (Z.lnot (sval w a)) by (unfold Z.lnot; lia).
  apply js_bigint_not_gen; eauto.
Qed.
End theorems.

#[local] Existing Instance all_ok.

Lemma js_bigint_add_correct_witness :
  post (js_bigint_add 64 [2 ^ 63] [2 ^ 64 - 1; 0] 0) 0
    (represents 64 (2 ^ 63 - 1)) (too_large 64 2).
Proof. exact (js_bigint_add_correct (W := all_ok) 64 [2 ^ 63] [2 ^ 64 - 1; 0] 0 0
  ltac:(by_decide) ltac:(by_decide) (or_introl eq_refl)). Defined.

Lemma js_bigint_mul_correct_witness :
  post (js_bigint_mul 64 [2 ^ 63] [2 ^ 64 - 3]) 0
    (represents 64 (3 * 2 ^ 63)) (too_large 64 2).
Proof. exact (js_bigint_mul_correct (W := all_ok) 64 [2 ^ 63] [2 ^ 64 - 3] 0
  ltac:(by_decide) ltac:(by_decide)). Defined.

Lemma js_bigint_divrem_correct_witness :
  post (js_bigint_divrem 64 [7; 5; 2 ^ 64 - 9] [3; 1] true) 0
    (fun r => 2 ^ 64 + 3 <> 0 /\
      represents 64 (Z.rem (7 + 5 * 2 ^ 64 - 9 * 2 ^ 128) (2 ^ 64 + 3)) r)
    (fun e => (e = RangeError "BigInt division by zero" /\ 2 ^ 64 + 3 = 0) \/ too_large 64 5 e).
Proof. exact (js_bigint_divrem_correct (W := all_ok) 64 [7; 5; 2 ^ 64 - 9] [3; 1] true 0
  ltac:(by_decide) ltac:(by_decide)). Defined.

Lemma js_bigint_logic_correct_witness :
  post (js_bigint_logic 64 [2 ^ 64 - 6] [2 ^ 63; 12] OP_and) 0
    (represents 64 (Z.land (-6) (2 ^ 63 + 12 * 2 ^ 64))) (too_large 64 2).
Proof. exact (js_bigint_logic_correct (W := all_ok) 64 [2 ^ 64 - 6] [2 ^ 63; 12] OP_and 0
  ltac:(by_decide) ltac:(by_decide)). Defined.

Lemma js_bigint_shift_correct_witness :
  post (js_bigint_shl 64 [2 ^ 64 - 5] 100) 0 (represents 64 (-5 * 2 ^ 100)) (too_large 64 2) /\
  post (js_bigint_shr 64 [2 ^ 64 - 5] 100) 0 (represents 64 (-5 / 2 ^ 100)) (too_large 64 1).
Proof. exact (js_bigint_shift_correct (W := all_ok) 64 [2 ^ 64 - 5] 100 0
  ltac:(by_decide) ltac:(lia)). Defined.

Lemma js_bigint_pow_correct_witness :
  post (js_bigint_pow 64 [2 ^ 64 - 10] [41]) 0
    (fun r => 0 <= 41 /\ represents 64 ((-10) ^ 41) r)
    (fun e =>
      (e = RangeError "BigInt negative exponent" /\ 41 < 0) \/
      ((e = RangeError "BigInt is too large" \/ e = RangeError "BigInt is too large to allocate") /\
       2 ^ (64 * (JS_BIGINT_MAX_SIZE 64 - 1) - 2) <= Z.abs ((-10) ^ 41))).
Proof. exact (js_bigint_pow_correct (W := all_ok) 64 [2 ^ 64 - 10] [41] 0
  ltac:(by_decide) ltac:(by_decide)). Defined.

Lemma js_bigint_cmp_correct_witness : js_bigint_cmp 64 [2 ^ 64 - 10] [0; 2 ^ 64 - 1] = 1.
Proof. exact (js_bigint_cmp_correct 64 [2 ^ 64 - 10] [0; 2 ^ 64 - 1]
  ltac:(by_decide) ltac:(by_decide)). Defined.

Lemma js_bigint_unary_correct_witness :
  post (js_bigint_neg 64 [2 ^ 63]) 0 (represents 64 (2 ^ 63)) (too_large 64 1) /\
  post (js_bigint_not 64 [2 ^ 63]) 0 (represents 64 (2 ^ 63 - 1)) (too_large 64 1).
Proof. exact (js_bigint_unary_correct (W := all_ok) 64 [2 ^ 63] 0 ltac:(by_decide)). Defined.
