(* ===== verification/JsBigIntConv.v ===== *)
(** * BigInt conversions and comparisons with doubles

    The routines of [src/quickjs/quickjs.c] that go between a BigInt and a double
    ([js_bigint_to_float64], [js_bigint_from_float64], [js_bigint_float64_cmp]) and the
    truncations of [js_bigint_asUintN], on the 64-bit limbs of 64-bit targets.  A double
    is its bit pattern ([DoubleBits]). *)
From S2P Require Export DoubleBits JsBigInt.

Local Abbreviation w := 64.

Section definitions.
Context {W : World}.

(** One limb of the absolute value, and the carry: [sgn] is 0 or 1, [neg] is [-sgn]. *)
Definition abs_limb (x neg carry : Z) : Z * Z :=
  let v := u64 ((x .^ neg) + carry) in (v, b2z (v <? carry)).

(** The first loop of [js_bigint_get_mant_exp]. *)
Fixpoint low_loop (tab : list Z) (neg carry low_bits : Z) : Z * Z :=
  match tab with
  | [] => (low_bits, carry)
  | x :: tab =>
      let '(v, carry) := abs_limb x neg carry in
      low_loop tab neg carry (low_bits .| v)
  end.

Definition js_bigint_get_mant_exp (a : JSBigInt) : Z * Z :=
  let n1 := len a - 2 in
  let sgn := js_bigint_sign w a in
  let neg := u64 (- sgn) in
  let '(low_bits, carry) := low_loop (take (Z.to_nat n1) a) neg sgn 0 in
  let '(t0, carry) :=
    if n1 <? 0 then (0, carry) else abs_limb (a !!! Z.to_nat n1) neg carry in
  let '(t1, _) := abs_limb (a !!! Z.to_nat (n1 + 1)) neg carry in
  let a1 := t1 in
  let a0 := t0 .| b2z (negb (low_bits =? 0)) in
  let '(a1, a0, shift) :=
    if a1 =? 0 then (a0, 0, 64)
    else
      let shift := clz 64 a1 in
      if negb (shift =? 0)
      then (u64 (a1 << shift) .| (a0 >> (64 - shift)), u64 (a0 << shift), shift)
      else (a1, a0, shift) in
  (a1 .| b2z (negb (a0 =? 0)), len a * 64 - shift - 1).

(** The addition does not wrap for the values it is called with. *)
Definition shr_rndn (a n : Z) : Z :=
  let addend := ((a >> n) .& 1) + ((1 << (n - 1)) - 1) in
  u64 (a + addend) >> n.

Definition js_bigint_to_float64 (a : JSBigInt) : Z :=
  if (length a =? 1)%nat then nearest (i64 (a !!! 0%nat))
  else
    let sgn := js_bigint_sign w a in
    let '(mant, e) := js_bigint_get_mant_exp a in
    let '(mant, e) :=
      if 1023 <? e then (0, 1024)
      else
        let mant := (mant >> 1) .| (mant .& 1) in
        let mant := shr_rndn mant 10 in
        let '(mant, e) := if 2 ^ 53 <=? mant then (mant >> 1, e + 1) else (mant, e) in
        (mant .& (2 ^ 52 - 1), e) in
    ((sgn << 63) .| ((e + 1023) << 52)) .| mant.

(** [*pres] and the result. *)
Definition js_bigint_from_float64 (a : Z) : M (Z * option JSBigInt) :=
  let sgn := a >> 63 in
  let e := (a >> 52) .& (2 ^ 11 - 1) in
  let mant := a .& (2 ^ 52 - 1) in
  if e =? 2047 then ret (2, None)
  else if (e =? 0) && (mant =? 0) then r <- js_bigint_new_si w 0 ;; ret (0, Some r)
  else
    let e := e - 1023 in
    if e <? 0 then ret (1, None)
    else
      let mant := mant .| 2 ^ 52 in
      let integer mant e :=
        let mant := if negb (sgn =? 0) then u64 (- mant) else mant in
        r <- js_bigint_shl w (js_bigint_set_si64 w (i64 mant)) e ;; ret (0, Some r) in
      if e <? 52 then
        let shift := 52 - e in
        if negb (mant .& (2 ^ shift - 1) =? 0) then ret (1, None)
        else integer (mant >> shift) 0
      else integer mant (e - 52).

Definition js_bigint_float64_cmp (a : JSBigInt) (b : Z) : Z :=
  let b_sign := b >> 63 in
  let e := (b >> 52) .& (2 ^ 11 - 1) in
  let mant := b .& (2 ^ 52 - 1) in
  let a_sign := js_bigint_sign w a in
  let a_zero := (length a =? 1)%nat && (a !!! 0%nat =? 0) in
  if e =? 2047 then
    if negb (mant =? 0) then 2 else 2 * b_sign - 1
  else if (e =? 0) && (mant =? 0) then
    if a_zero then 0 else 1 - 2 * a_sign
  else if a_zero then 2 * b_sign - 1
  else if negb (a_sign =? b_sign) then 1 - 2 * a_sign
  else
    let e := e - 1023 in
    let '(a_mant, f) := js_bigint_get_mant_exp a in
    if negb (f =? e) then (if f <? e then -1 else 1)
    else
      let mant := (mant .| 2 ^ 52) << 11 in
      if a_mant <? mant then 2 * a_sign - 1
      else if mant <? a_mant then 1 - 2 * a_sign
      else 0.

(** A BigInt value: a short one in the value itself, or a heap one. *)
Inductive BigIntValue :=
  | ShortBigInt (v : Z)
  | BigInt (p : JSBigInt).

Definition js_bigint_set_short (v : Z) : JSBigInt := js_bigint_set_si w v.

Definition JS_CompactBigInt (p : JSBigInt) : BigIntValue :=
  if (length p =? 1)%nat then ShortBigInt (i64 (p !!! 0%nat)) else BigInt p.

(** [slow_case]. *)
Definition truncate (p : JSBigInt) (bits : Z) (asIntN : bool) : M BigIntValue :=
  let is_neg := js_bigint_sign w p in
  let len64 := (bits + 64 - 1) / 64 in
  let rlen := Z.min len64 INT32_MAX in
  js_bigint_new w rlen ;;;
  let l := Z.min rlen (len p) in
  let tab := take (Z.to_nat l) p ++ replicate (Z.to_nat (rlen - l)) (u64 (- is_neg)) in
  let shift := u64 (- bits) .& 63 in
  let v := u64 ((tab !!! Z.to_nat (rlen - 1)) << shift) in
  let v := if asIntN then u64 (i64 v >> shift) else v >> shift in
  let tab := <[Z.to_nat (rlen - 1) := v]> tab in
  r <- (if asIntN then js_bigint_normalize w tab else js_bigint_extend w tab 0) ;;
  ret (JS_CompactBigInt r).

(** [js_bigint_asUintN] once its arguments are converted: [0 <= bits < 2^53]. *)
Definition js_bigint_asUintN (bits : Z) (a : BigIntValue) (asIntN : bool) : M BigIntValue :=
  if bits =? 0 then ret (ShortBigInt 0)
  else match a with
  | ShortBigInt sv =>
      if 64 <=? bits then
        if negb asIntN && (sv <? 0) then truncate (js_bigint_set_short sv) bits asIntN
        else ret a
      else
        let shift := 64 - bits in
        let v := u64 (u64 sv << shift) in
        let v := if asIntN then u64 (i64 v >> shift) else v >> shift in
        ret (ShortBigInt (i64 v))
  | BigInt p =>
      if (len p * 64 <=? bits) && (asIntN || (js_bigint_sign w p =? 0)) then ret a
      else truncate p bits asIntN
  end.
End definitions.

(** ** The top 64 bits *)

Section mant_exp.

(** The quotient with a sticky low bit. *)
Definition sticky (q : Z) (inexact : bool) : Z := q .| b2z inexact.

(** The 64 most significant bits of [A], the lowest one also set when a bit below is. *)
Definition top64 (A : Z) : Z :=
  let e := Z.log2 A in
  if e <=? 63 then A * 2 ^ (63 - e)
  else sticky (A / 2 ^ (e - 63)) (negb (A mod 2 ^ (e - 63) =? 0)).

(** The limbs of the absolute value. *)
Fixpoint abs_list (tab : list Z) (neg carry : Z) : list Z * Z :=
  match tab with
  | [] => ([], carry)
  | x :: tab =>
      let '(v, carry) := abs_limb x neg carry in
      let '(vs, carry) := abs_list tab neg carry in
      (v :: vs, carry)
  end.

Lemma abs_list_app l1 l2 neg c :
  abs_list (l1 ++ l2) neg c =
    let '(v1, c1) := abs_list l1 neg c in
    let '(v2, c2) := abs_list l2 neg c1 in (v1 ++ v2, c2).
Proof.
  revert c. induction l1 as [|x l1 IH]; intros c; cbn [app abs_list].
  - by destruct (abs_list l2 neg c).
  - destruct (abs_limb x neg c) as [v c']. rewrite IH.
    destruct (abs_list l1 neg c') as [v1 c1]. by destruct (abs_list l2 neg c1).
Qed.

Lemma low_loop_spec l neg c b :
  low_loop l neg c b = (foldl Z.lor b (fst (abs_list l neg c)), snd (abs_list l neg c)).
Proof.
  revert c b. induction l as [|x l IH]; intros c b; cbn [low_loop abs_list]; [done|].
  destruct (abs_limb x neg c) as [v c']. rewrite IH. by destruct (abs_list l neg c').
Qed.

Lemma abs_list_pos l : limbs w l -> abs_list l 0 0 = (l, 0).
Proof.
  induction 1 as [|x l Hx Hl IH]; cbn [abs_list]; [done|]. unfold abs_limb.
  rewrite Z.lxor_0_r, Z.add_0_r, wrap_small by done.
  replace (x <? 0) with false by (unfold word in Hx; lia). cbn [Z.b2z]. by rewrite IH.
Qed.

Lemma abs_list_neg l c : limbs w l -> abs_list l (2 ^ 64 - 1) c = mp_neg_loop w l c.
Proof.
  intros Hl. revert c. induction Hl as [|x l Hx Hl IH]; intros c; cbn [abs_list mp_neg_loop]; [done|].
  unfold abs_limb. rewrite (lxor_ones w x), (wrap_lnot w) by (done || lia). by rewrite IH.
Qed.

Lemma abs_list_spec a : operand w a ->
  let r := fst (abs_list a (u64 (- js_bigint_sign w a)) (js_bigint_sign w a)) in
  limbs w r /\ length r = length a /\ lval w r = Z.abs (sval w a).
Proof.
  intros Ho. pose proof (abs_spec w a Ho) as HA. cbv zeta in *.
  destruct (sign_01 w a (proj1 Ho) (proj2 Ho)) as [E|E]; rewrite E in *; cbn [Z.eqb negb] in HA.
  - change (u64 (- 0)) with 0. rewrite abs_list_pos by apply Ho. exact HA.
  - change (u64 (- 1)) with (2 ^ 64 - 1). rewrite abs_list_neg by apply Ho. exact HA.
Qed.

Lemma foldl_lor_zero l : limbs w l -> forall b, 0 <= b ->
  (foldl Z.lor b l =? 0) = (b =? 0) && (lval w l =? 0).
Proof.
  induction 1 as [|x l Hx Hl IH]; intros b Hb; cbn [foldl lval]; [by rewrite andb_true_r|].
  unfold word in Hx. pose proof (lval_range w ltac:(lia) l Hl).
  rewrite IH by (apply Z.lor_nonneg; lia).
  assert (E : (b .| x =? 0) = (b =? 0) && (x =? 0)).
  { apply eq_true_iff_eq. rewrite andb_true_iff, !Z.eqb_eq. apply Z.lor_eq_0_iff. }
  rewrite E. destruct (Z.eqb_spec b 0), (Z.eqb_spec x 0), (Z.eqb_spec (lval w l) 0); cbn [andb]; lia.
Qed.

(** The limbs that [js_bigint_get_mant_exp] reads: the top two limbs [t1] and [t0] of the
    absolute value, and whether a bit below is set. *)
Lemma top_limbs a : operand w a -> (2 <= length a)%nat -> exists r t0 t1,
  limbs w r /\ word 64 t0 /\ word 64 t1 /\ len r = len a - 2 /\
  Z.abs (sval w a) = lval w r + 2 ^ (64 * len r) * (t0 + 2 ^ 64 * t1) /\
  js_bigint_get_mant_exp a =
    let a1 := t1 in
    let a0 := t0 .| b2z (negb (lval w r =? 0)) in
    let '(a1, a0, shift) :=
      if a1 =? 0 then (a0, 0, 64)
      else
        let shift := clz 64 a1 in
        if negb (shift =? 0)
        then (u64 (a1 << shift) .| (a0 >> (64 - shift)), u64 (a0 << shift), shift)
        else (a1, a0, shift) in
    (a1 .| b2z (negb (a0 =? 0)), len a * 64 - shift - 1).
Proof.
  intros Ho Hl. destruct (abs_list_spec a Ho) as (Hr & HL & HV).
  set (neg := u64 (- js_bigint_sign w a)) in *. set (sgn := js_bigint_sign w a) in *.
  pose proof (Nat2Z.id (length a - 2)) as En.
  assert (Ea : a = take (length a - 2) a ++ [a !!! (length a - 2)%nat; a !!! (length a - 1)%nat]).
  { rewrite <- (firstn_all a) at 1. rewrite <- (take_drop (length a - 2) (take (length a) a)) at 1.
    rewrite firstn_all. f_equal.
    rewrite (drop_S a (a !!! (length a - 2)%nat) (length a - 2)) by (apply list_lookup_lookup_total_lt; lia).
    replace (S (length a - 2)) with (length a - 1)%nat by lia.
    rewrite (drop_S a (a !!! (length a - 1)%nat) (length a - 1)) by (apply list_lookup_lookup_total_lt; lia).
    by rewrite drop_ge by lia. }
  unfold js_bigint_get_mant_exp. fold sgn. fold neg.
  replace (Z.to_nat (len a - 2)) with (length a - 2)%nat by lia.
  replace (Z.to_nat (len a - 2 + 1)) with (length a - 1)%nat by lia.
  replace (len a - 2 <? 0) with false by lia. rewrite low_loop_spec.
  rewrite Ea in Hr, HL, HV at 1. rewrite abs_list_app in Hr, HL, HV.
  destruct (abs_list (take (length a - 2) a) neg sgn) as [r c] eqn:E1. cbn [abs_list fst snd] in *.
  destruct (abs_limb (a !!! (length a - 2)%nat) neg c) as [t0 c0].
  destruct (abs_limb (a !!! (length a - 1)%nat) neg c0) as [t1 c1]. cbn [fst] in *.
  apply limbs_app in Hr as [Hr Ht]. apply limbs_cons in Ht as [Ht0 Ht]. apply limbs_cons in Ht as [Ht1 _].
  assert (HLr : len r = len a - 2) by (rewrite !length_app, length_take in HL; cbn in HL; lia).
  exists r, t0, t1. split; [done|]. split; [done|]. split; [done|]. split; [done|]. split.
  - rewrite <- HV, lval_app by lia. cbn [lval]. lia.
  - rewrite foldl_lor_zero by (done || lia). done.
Qed.

Lemma land_low_sticky x k (s : bool) : 0 < k -> (x .| b2z s) mod 2 ^ k = (x mod 2 ^ k) .| b2z s.
Proof.
  intros Hk. rewrite <- !Z.land_ones by lia. rewrite Z.land_lor_distr_l. f_equal.
  rewrite Z.land_ones by lia. apply Z.mod_small. pose proof (Z.pow_gt_1 2 k ltac:(lia)). destruct s; cbn; lia.
Qed.

Lemma shiftr_sticky x k (s : bool) : 0 < k -> (x .| b2z s) >> k = x >> k.
Proof.
  intros Hk. rewrite Z.shiftr_lor. replace (b2z s >> k) with 0; [apply Z.lor_0_r|].
  rewrite shiftr_div by lia. symmetry. apply Z.div_small.
  pose proof (Z.pow_gt_1 2 k ltac:(lia)). destruct s; cbn; lia.
Qed.

Lemma lor_zero_bool x (s : bool) : 0 <= x -> (x .| b2z s =? 0) = (x =? 0) && negb s.
Proof.
  intros Hx. apply eq_true_iff_eq. rewrite andb_true_iff, !Z.eqb_eq, Z.lor_eq_0_iff. destruct s; cbn; lia.
Qed.

(** Normalizing the top two limbs. *)
Lemma norm_top t0 t1 (s : bool) : word 64 t0 -> word 64 t1 -> 2 ^ 63 <= t0 + 2 ^ 64 * t1 ->
  let T := t0 + 2 ^ 64 * t1 in
  let k := Z.log2 T - 63 in
  (let a1 := t1 in
   let a0 := t0 .| b2z s in
   let '(a1, a0, shift) :=
      if a1 =? 0 then (a0, 0, 64)
      else
        let shift := clz 64 a1 in
        if negb (shift =? 0)
        then (u64 (a1 << shift) .| (a0 >> (64 - shift)), u64 (a0 << shift), shift)
        else (a1, a0, shift) in
   (a1 .| b2z (negb (a0 =? 0)), shift)) =
  (sticky (T / 2 ^ k) (negb (T mod 2 ^ k =? 0) || s), 64 - k) /\ 0 <= k <= 64.
Proof.
  intros H0 H1 HT T k. unfold word in H0, H1. unfold sticky. cbv zeta. destruct (Z.eqb_spec t1 0) as [E|E].
  - subst t1. assert (Hk : k = 0).
    { unfold k. replace T with t0 by (unfold T; lia). rewrite (Z.log2_unique t0 63); lia. }
    rewrite Hk. change (2 ^ 0) with 1. rewrite Z.mod_1_r, Z.div_1_r. cbn [negb Z.eqb orb b2z].
    rewrite Z.lor_0_r. replace T with t0 by (unfold T; lia). split; [done|lia].
  - destruct (clz_spec 64 t1 ltac:(lia) ltac:(lia)) as [Hc1 Hc2]. set (c := clz 64 t1) in *.
    assert (Hp : 2 ^ 64 = 2 ^ (64 - c) * 2 ^ c) by (rewrite <- Z.pow_add_r by lia; f_equal; lia).
    assert (Hp' : 2 ^ 127 = 2 ^ (127 - c) * 2 ^ c) by (rewrite <- Z.pow_add_r by lia; f_equal; lia).
    assert (Hk : k = 64 - c).
    { unfold k. rewrite (Z.log2_unique T (127 - c)); [lia|lia|].
      rewrite Z.pow_succ_r by lia. pose proof (pow2_pos c ltac:(lia)) as Hc. unfold T.
      assert (Ht1 : t1 + 1 <= 2 ^ (64 - c)).
      { enough (t1 < 2 ^ (64 - c)) by lia. apply (Z.mul_lt_mono_pos_r (2 ^ c)); lia. }
      replace (127 - c) with (63 + (64 - c)) by lia. rewrite Z.pow_add_r by lia. split; [|lia].
      apply (Z.mul_le_mono_pos_r _ _ (2 ^ c)); [lia|]. rewrite <- Z.mul_assoc, <- Hp.
      assert (0 <= t0 * 2 ^ c) by lia. lia. }
    rewrite Hk.
    assert (HTm : T mod 2 ^ (64 - c) = t0 mod 2 ^ (64 - c)).
    { unfold T. rewrite Hp, <- Z.mul_assoc, (Z.mul_comm (2 ^ (64 - c))). apply Z.mod_add. pose proof (pow2_pos (64 - c)). lia. }
    assert (HTd : T / 2 ^ (64 - c) = t1 * 2 ^ c + t0 / 2 ^ (64 - c)).
    { unfold T. rewrite Hp. replace (t0 + 2 ^ (64 - c) * 2 ^ c * t1) with (t0 + (t1 * 2 ^ c) * 2 ^ (64 - c)) by ring.
      rewrite Z.div_add by (pose proof (pow2_pos (64 - c)); lia). lia. }
    rewrite HTm, HTd. destruct (Z.eqb_spec c 0) as [Ec|Ec]; cbn [negb].
    + rewrite Ec. change (64 - 0) with 64. rewrite Z.mod_small, Z.div_small by lia.
      rewrite lor_zero_bool by lia. rewrite negb_andb, negb_involutive. change (2 ^ 0) with 1.
      rewrite Z.mul_1_r, Z.add_0_r. split; [done|lia].
    + rewrite shiftr_sticky by lia. rewrite (shiftr_div t0) by lia.
      rewrite (wrap_small 64 (t1 << c)) by (unfold word; rewrite shiftl_mul by lia; pose proof (pow2_pos c); lia).
      rewrite lor_shiftl_add.
      2: lia.
      2: { unfold word. split; [apply Z.div_pos; [lia|]; apply pow2_pos; lia|]. apply Z.div_lt_upper_bound; [apply pow2_pos; lia|lia]. }
      rewrite wrap_shiftl by lia. rewrite land_low_sticky by lia.
      assert (EZ : ((t0 mod 2 ^ (64 - c) .| b2z s) << c =? 0) = (t0 mod 2 ^ (64 - c) =? 0) && negb s).
      { rewrite <- lor_zero_bool by (apply Z.mod_pos_bound, pow2_pos; lia). rewrite shiftl_mul by lia.
        apply eq_true_iff_eq. rewrite !Z.eqb_eq. pose proof (pow2_pos c ltac:(lia)). rewrite Z.mul_eq_0. lia. }
      rewrite EZ, negb_andb, negb_involutive. replace (64 - (64 - c)) with c by lia. split; [done|lia].
Qed.

Lemma sticky_false q : sticky q false = q.
Proof. apply Z.lor_0_r. Qed.

Lemma mant_exp_single x : word 64 x -> i64 x <> 0 ->
  js_bigint_get_mant_exp [x] = (top64 (Z.abs (i64 x)), Z.log2 (Z.abs (i64 x))).
Proof.
  intros Hx Hne.
  assert (Ho : operand w [x]) by (split; [by apply limbs_single|done]).
  destruct (abs_list_spec [x] Ho) as (Hr & HL & HV). rewrite (sval_single w x Hx) in HV.
  unfold js_bigint_get_mant_exp. change (len [x] - 2) with (-1).
  change (Z.to_nat (-1)) with 0%nat. change (Z.to_nat (-1 + 1)) with 0%nat. change (len [x]) with 1.
  rewrite take_0. cbn [low_loop Z.ltb Z.compare]. change ([x] !!! 0%nat) with x.
  cbn [abs_list] in Hr, HL, HV. set (neg := u64 (- js_bigint_sign w [x])) in *.
  set (sgn := js_bigint_sign w [x]) in *. destruct (abs_limb x neg sgn) as [t1 c] eqn:E.
  cbn [fst lval] in *. apply limbs_single in Hr. rewrite Z.mul_0_r, Z.add_0_r in HV.
  assert (Ht : 0 < t1) by lia. rewrite <- HV. clear HV Hne.
  assert (H0 : word 64 0) by done.
  assert (HT : 0 + 2 ^ 64 * t1 = t1 * 2 ^ 64) by lia.
  destruct (norm_top 0 t1 false H0 Hr ltac:(lia)) as [HN Hk]. rewrite HT in *.
  cbv zeta in HN. cbn [Z.b2z negb Z.eqb] in HN |- *.
  rewrite Z.log2_mul_pow2 in * by lia.
  set (k := 64 + Z.log2 t1 - 63) in *. pose proof (Z.log2_nonneg t1) as Hnn.
  destruct (if t1 =? 0 then _ else _) as [[a1 a0] shift]. simplify_eq.
  assert (Hp : 2 ^ 64 = 2 ^ (63 - Z.log2 t1) * 2 ^ k).
  { rewrite <- Z.pow_add_r by lia. f_equal. lia. }
  rewrite H, Hp, Z.mul_assoc, Z.div_mul, Z.mod_mul by (pose proof (pow2_pos k ltac:(lia)); lia).
  cbn [Z.eqb negb orb]. rewrite sticky_false. unfold top64.
  replace (Z.log2 t1 <=? 63) with true by lia. f_equal. lia.
Qed.

Lemma mant_exp_spec a : bigint_wf w a -> sval w a <> 0 ->
  js_bigint_get_mant_exp a = (top64 (Z.abs (sval w a)), Z.log2 (Z.abs (sval w a))).
Proof.
  intros Ha Hne. pose proof (wf_operand w a Ha) as Ho. pose proof (len_ge1 a (proj2 Ho)) as Hlen1.
  destruct (Nat.eq_dec (length a) 1%nat) as [E1|E1].
  { destruct (single_value w a Ha E1) as (Ea & Hx & Hv).
    rewrite Hv in *. rewrite Ea. by apply mant_exp_single. }
  destruct (top_limbs a Ho ltac:(lia)) as (r & t0 & t1 & Hr & H0 & H1 & HL & HV & ->).
  pose proof (wf_abs_lower w a Ha) as Hlow. pose proof (lval_range w ltac:(lia) r Hr) as Hrange.
  set (A := Z.abs (sval w a)) in *. set (n := 64 * len r) in *.
  assert (Hn : 0 <= n) by lia. pose proof (pow2_pos n Hn) as HPn.
  set (T := t0 + 2 ^ 64 * t1) in *.
  assert (HT : 2 ^ 63 <= T).
  { replace (64 * (len a - 1) - 1) with (n + 63) in Hlow by lia. rewrite Z.pow_add_r in Hlow by lia.
    enough (2 ^ 63 < T + 1) by lia. apply (Z.mul_lt_mono_pos_l (2 ^ n)); lia. }
  destruct (norm_top t0 t1 (negb (lval w r =? 0)) H0 H1 HT) as [HN Hk]. cbv zeta in HN |- *. fold T in HN, Hk.
  destruct (if t1 =? 0 then _ else _) as [[a1 a0] shift]. injection HN as H Hshift.
  set (k := Z.log2 T - 63) in *.
  assert (HA : Z.log2 A = n + k + 63).
  { apply Z.log2_unique; [lia|]. destruct (Z.log2_spec T ltac:(lia)) as [L1 L2].
    replace (n + k + 63) with (n + Z.log2 T) by lia.
    rewrite <- Z.add_succ_r, !Z.pow_add_r by lia. rewrite HV. split.
    - assert (2 ^ n * 2 ^ Z.log2 T <= 2 ^ n * T) by (apply Z.mul_le_mono_nonneg_l; lia). lia.
    - assert (2 ^ n * (T + 1) <= 2 ^ n * 2 ^ Z.succ (Z.log2 T)) by (apply Z.mul_le_mono_nonneg_l; lia). lia. }
  rewrite H. f_equal; [|lia]. unfold top64. rewrite HA. replace (n + k + 63 - 63) with (n + k) by lia.
  assert (Hd : A / 2 ^ (n + k) = T / 2 ^ k /\ A mod 2 ^ (n + k) = lval w r + 2 ^ n * (T mod 2 ^ k)).
  { assert (Hq : A / 2 ^ n = T) by (symmetry; apply (Z.div_unique _ _ _ (lval w r)); lia).
    assert (Hq' : A mod 2 ^ n = lval w r) by (symmetry; apply (Z.mod_unique _ _ T); lia).
    rewrite Z.pow_add_r by lia. pose proof (pow2_pos k ltac:(lia)).
    rewrite <- Z.div_div, Z.rem_mul_r, Hq, Hq' by lia. done. }
  destruct Hd as [Hd Hm]. rewrite Hd, Hm.
  pose proof (Z.mod_pos_bound T (2 ^ k) (pow2_pos k ltac:(lia))) as Hb.
  destruct (Z.leb_spec (n + k + 63) 63) as [Hle|Hgt].
  - assert (n = 0 /\ k = 0) as [En Ek] by lia. rewrite Ek in *. change (2 ^ 0) with 1 in *. rewrite Z.mod_1_r, Z.div_1_r in *.
    assert (lval w r = 0) as Hr0 by (rewrite En in Hrange; change (2 ^ 0) with 1 in Hrange; lia).
    rewrite Hr0. cbn [Z.eqb negb orb]. rewrite sticky_false, En, HV, Hr0, En. change (2 ^ (63 - (0 + 0 + 63))) with 1.
    change (2 ^ 0) with 1. lia.
  - f_equal. destruct (Z.eqb_spec (T mod 2 ^ k) 0) as [->|Hm0], (Z.eqb_spec (lval w r) 0) as [->|Hl0]; cbn [negb orb].
    + by rewrite Z.mul_0_r.
    + replace (lval w r + 2 ^ n * 0 =? 0) with false by lia. done.
    + replace (0 + 2 ^ n * (T mod 2 ^ k) =? 0) with false; [done|]. symmetry. apply Z.eqb_neq.
      assert (2 ^ n * 1 <= 2 ^ n * (T mod 2 ^ k)) by (apply Z.mul_le_mono_nonneg_l; lia). lia.
    + replace (lval w r + 2 ^ n * (T mod 2 ^ k) =? 0) with false; [done|]. symmetry. apply Z.eqb_neq.
      assert (0 <= 2 ^ n * (T mod 2 ^ k)) by (apply Z.mul_nonneg_nonneg; lia). lia.
Qed.
End mant_exp.

(** ** To a double *)

Section to_float.

Lemma top64_sticky A : 63 <= Z.log2 A ->
  top64 A = sticky (A / 2 ^ (Z.log2 A - 63)) (negb (A mod 2 ^ (Z.log2 A - 63) =? 0)).
Proof.
  intros He. unfold top64. destruct (Z.leb_spec (Z.log2 A) 63); [|done].
  replace (Z.log2 A) with 63 by lia. change (2 ^ (63 - 63)) with 1.
  rewrite Z.mod_1_r, Z.div_1_r. cbn [Z.eqb negb]. rewrite sticky_false. lia.
Qed.

Lemma land_1 x : x .& 1 = b2z (Z.odd x).
Proof. change 1 with (2 ^ 1 - 1) at 1. rewrite land_ones_mod by lia. change (2 ^ 1) with 2. by rewrite Zmod_odd. Qed.

Lemma sticky_value q (s : bool) : sticky q s = q + b2z (s && Z.even q).
Proof.
  unfold sticky. destruct s; cbn [Z.b2z andb]; [|rewrite Z.lor_0_r; lia].
  rewrite (Z.div_mod q 2) at 1 by lia. rewrite Zmod_odd, <- Z.negb_odd. destruct (Z.odd q) eqn:Eo; cbn [Z.b2z negb].
  - rewrite (Z.div_mod q 2) at 2 by lia. rewrite Zmod_odd, Eo.
    replace (2 * (q / 2) + 1) with ((q / 2) * 2 ^ 1 + 1) by lia.
    rewrite <- lor_shiftl_add by (unfold word; lia). rewrite <- Z.lor_assoc. change (1 .| 1) with 1. lia.
  - rewrite (Z.div_mod q 2) at 2 by lia. rewrite Zmod_odd, Eo.
    replace (2 * (q / 2) + 0) with ((q / 2) << 1) by (rewrite shiftl_mul by lia; lia).
    rewrite lor_shiftl_add by (unfold word; lia). rewrite shiftl_mul by lia. lia.
Qed.

(** Halving keeps the sticky bit. *)
Lemma halve_top64 A : 63 <= Z.log2 A ->
  let N := Z.log2 A - 62 in
  (top64 A >> 1) .| (top64 A .& 1) = sticky (A / 2 ^ N) (negb (A mod 2 ^ N =? 0)).
Proof.
  intros He N. rewrite top64_sticky by done. replace (Z.log2 A - 63) with (N - 1) by lia.
  set (s := negb (A mod 2 ^ (N - 1) =? 0)). unfold sticky at 1 2. rewrite shiftr_sticky by lia.
  rewrite shiftr_div by lia. change (2 ^ 1) with 2.
  pose proof (pow2_pos (N - 1) ltac:(lia)) as HP.
  assert (EN : 2 ^ N = 2 ^ (N - 1) * 2) by (rewrite (pow2_half N) by lia; lia).
  rewrite EN, Z.rem_mul_r, <- Z.div_div by lia. set (Q := A / 2 ^ (N - 1)) in *.
  unfold sticky. f_equal. rewrite land_1. rewrite Zmod_odd.
  pose proof (Z.mod_pos_bound A (2 ^ (N - 1)) HP). set (L := A mod 2 ^ (N - 1)) in *.
  rewrite <- Z.bit0_odd, Z.lor_spec, Z.bit0_odd. rewrite Z.bit0_odd.
  unfold s. destruct (Z.odd Q), (Z.eqb_spec L 0) as [EL|EL]; cbn [negb Z.b2z orb Z.odd].
  - replace (L + 2 ^ (N - 1) * 1 =? 0) with false by lia. done.
  - replace (L + 2 ^ (N - 1) * 1 =? 0) with false by lia. done.
  - replace (L + 2 ^ (N - 1) * 0 =? 0) with true by lia. done.
  - replace (L + 2 ^ (N - 1) * 0 =? 0) with false by lia. done.
Qed.

(** Rounding a value with a sticky bit. *)
Lemma shr_rndn_sticky A N : 0 < N -> 0 <= A < 2 ^ (N + 63) ->
  shr_rndn (sticky (A / 2 ^ N) (negb (A mod 2 ^ N =? 0))) 10 = round_half_even A (N + 10).
Proof.
  intros HN HA. pose proof (pow2_pos N ltac:(lia)) as HP.
  set (G := A / 2 ^ N). set (h := A mod 2 ^ N). pose proof (Z.mod_pos_bound A (2 ^ N) HP) as Hh. fold h in Hh.
  assert (HG : 0 <= G < 2 ^ 63).
  { split; [apply Z.div_pos; lia|]. apply Z.div_lt_upper_bound; [done|]. rewrite <- Z.pow_add_r by lia. lia. }
  unfold shr_rndn. rewrite sticky_value. set (s := b2z (negb (h =? 0) && Z.even G)).
  assert (Hs : s = 0 \/ s = 1 /\ Z.even G = true /\ h <> 0).
  { unfold s. destruct (Z.eqb_spec h 0), (Z.even G); cbn; auto. }
  set (q := G / 1024). set (g := G mod 1024).
  pose proof (Z.div_mod G 1024 ltac:(lia)) as EG. fold q g in EG.
  pose proof (Z.mod_pos_bound G 1024 ltac:(lia)) as Hg. fold g in Hg.
  assert (Hge : Z.even G = Z.even g).
  { rewrite EG, Z.even_add, Z.even_mul. change (Z.even 1024) with true. cbn [orb]. by destruct (Z.even g). }
  assert (Hs1 : s = 1 -> g <= 1022).
  { intros E. destruct Hs as [?|(_ & Hev & _)]; [lia|]. rewrite Hge in Hev.
    destruct (Z.eq_dec g 1023) as [Eg|]; [by rewrite Eg in Hev|lia]. }
  assert (Hq : (G + s) >> 10 = q).
  { rewrite shiftr_div by lia. change (2 ^ 10) with 1024. symmetry. apply (Z.div_unique _ _ _ (g + s)); lia. }
  rewrite Hq, land_1. change ((1 << (10 - 1)) - 1) with 511.
  rewrite wrap_small by (unfold word; destruct (Z.odd q); cbn [Z.b2z]; lia).
  rewrite shiftr_div by lia. change (2 ^ 10) with 1024.
  assert (ER : A / 2 ^ (N + 10) = q /\ A mod 2 ^ (N + 10) = h + 2 ^ N * g).
  { rewrite Z.pow_add_r by lia. change (2 ^ 10) with 1024. rewrite <- Z.div_div, Z.rem_mul_r by lia. done. }
  destruct ER as [ER1 ER2]. unfold round_half_even. rewrite ER1, ER2, Z.pow_add_r by lia. change (2 ^ 10) with 1024.
  set (P := 2 ^ N) in *.
  assert (Hres : forall d, (d = 0 \/ d = 1) -> 1024 * d <= g + s + b2z (Z.odd q) + 511 < 1024 * (d + 1) ->
    (G + s + (b2z (Z.odd q) + 511)) / 1024 = q + d).
  { intros d Hd Hb. symmetry. apply (Z.div_unique _ _ _ (g + s + b2z (Z.odd q) + 511 - 1024 * d)); lia. }
  destruct (Z.ltb_spec (P * 1024) (2 * (h + P * g))) as [Hlt|Hge']; cbn [orb].
  - apply Hres; [by right|]. assert (512 <= g).
    { destruct (Z.le_gt_cases 512 g); [done|]. assert (P * g <= P * 511) by (apply Z.mul_le_mono_nonneg_l; lia). lia. }
    split; [|destruct (Z.odd q); cbn [Z.b2z]; lia].
    destruct (Z.eq_dec g 512) as [Eg|]; [|destruct (Z.odd q); cbn [Z.b2z]; lia].
    assert (h <> 0) by (rewrite Eg in Hlt; lia).
    assert (s = 1) by (unfold s; rewrite Hge, Eg; by replace (h =? 0) with false by lia).
    destruct (Z.odd q); cbn [Z.b2z]; lia.
  - assert (Hg512 : g <= 512).
    { destruct (Z.le_gt_cases g 512); [done|]. assert (P * 513 <= P * g) by (apply Z.mul_le_mono_nonneg_l; lia). lia. }
    destruct (Z.eqb_spec (P * 1024) (2 * (h + P * g))) as [He|Hne]; cbn [andb].
    + assert (g = 512 /\ h = 0) as [Eg Eh].
      { destruct (Z.eq_dec g 512) as [Eg|]; [rewrite Eg in He; lia|].
        assert (P * g <= P * 511) by (apply Z.mul_le_mono_nonneg_l; lia). lia. }
      assert (Es : s = 0) by (unfold s; by rewrite Eh).
      destruct (Z.odd q) eqn:Eo; cbn [Z.b2z] in *; [apply (Hres 1); lia|transitivity (q + 0); [apply Hres; lia|lia]].
    + transitivity (q + 0); [|lia]. apply Hres; [by left|]. assert (g + s <= 511).
      { destruct (Z.eq_dec g 512) as [Eg|]; [rewrite Eg in *; lia|].
        destruct (Z.eq_dec g 511) as [Eg|]; [|lia]. rewrite Hge, Eg in Hs. destruct Hs as [->|(_ & ? & _)]; [lia|done]. }
      destruct (Z.odd q); cbn [Z.b2z]; lia.
Qed.

Lemma to_float64_spec a : bigint_wf w a -> js_bigint_to_float64 a = nearest (sval w a).
Proof.
  intros Ha. pose proof (wf_operand w a Ha) as Ho. pose proof (len_ge1 a (proj2 Ho)) as Hlen1.
  unfold js_bigint_to_float64. destruct (Nat.eqb_spec (length a) 1) as [E1|E1].
  { destruct (single_value w a Ha E1) as (Ea & Hx & ->). done. }
  pose proof (wf_abs_lower w a Ha) as Hlow.
  assert (Hbig : 2 ^ 63 <= Z.abs (sval w a)).
  { eapply Z.le_trans; [|exact Hlow]. apply Z.pow_le_mono_r; lia. }
  rewrite mant_exp_spec by (done || lia). rewrite (js_bigint_sign_spec w a (proj1 Ho) (proj2 Ho)).
  unfold nearest. replace (sval w a =? 0) with false by lia. unfold nearest_abs.
  set (neg := sval w a <? 0). set (A := Z.abs (sval w a)) in *.
  assert (He : 63 <= Z.log2 A) by (apply Z.log2_le_pow2; lia).
  assert (Hasm : forall E m, 0 <= E < 2048 -> 0 <= m < 2 ^ 52 ->
    ((b2z neg << 63) .| (E << 52)) .| m = b2z neg * 2 ^ 63 + (E * 2 ^ 52 + m)).
  { intros E m HE Hm. rewrite lor_shiftl_add by (rewrite ?shiftl_mul by lia; unfold word; lia).
    rewrite shiftl_mul by lia. replace (b2z neg * 2 ^ 63 + E * 2 ^ 52) with ((b2z neg * 2 ^ 11 + E) << 52) by (rewrite shiftl_mul by lia; lia).
    rewrite lor_shiftl_add by (unfold word; lia). lia. }
  destruct (nearest_mant_spec A ltac:(lia)) as (Hm & _). fold (nearest_mant A).
  destruct (Z.ltb_spec 1023 (Z.log2 A)) as [Hov|Hok].
  - rewrite Hasm by lia. f_equal. unfold f_infinity. lia.
  - rewrite halve_top64, shr_rndn_sticky;
      [|lia|replace (Z.log2 A - 62 + 63) with (Z.succ (Z.log2 A)) by lia; pose proof (Z.log2_spec A); lia|done].
    replace (Z.log2 A - 62 + 10) with (Z.log2 A - 52) by lia.
    assert (Em : round_half_even A (Z.log2 A - 52) = nearest_mant A).
    { unfold nearest_mant. by replace (Z.log2 A <=? 52) with false by lia. }
    rewrite Em. set (m := nearest_mant A) in *. rewrite Z.min_l by (unfold f_infinity; lia).
    destruct (Z.leb_spec (2 ^ 53) m); rewrite land_ones_mod by lia.
    + replace m with (2 ^ 53) by lia. change ((2 ^ 53 >> 1) mod 2 ^ 52) with 0. rewrite Hasm by lia. lia.
    + replace (m mod 2 ^ 52) with (m - 2 ^ 52) by (apply (Z.mod_unique _ _ 1); lia).
      rewrite Hasm by lia. lia.
Qed.
End to_float.

(** ** From a double *)

Section from_float.
Context {W : World}.

(** The possible results of [js_bigint_from_float64]. *)
Definition float_integer (b : Z) (res : Z * option JSBigInt) : Prop :=
  match res with
  | (2, None) => f_exp b = 2047
  | (1, None) => finite b /\ forall v, fval b <> v * f_scale
  | (0, Some r) => finite b /\ exists v, fval b = v * f_scale /\ represents w v r
  | _ => False
  end.

Lemma f_scale_pos : 0 < f_scale.
Proof. by vm_compute. Qed.

Lemma fval_small b : word 64 b -> 0 < f_abs b < f_scale -> forall v, fval b <> v * f_scale.
Proof.
  intros Hb Ha v E. pose proof f_scale_pos. unfold fval in E.
  assert (Hv : v * f_scale <> 0) by (destruct (f_sign b =? 0); lia).
  assert (1 <= Z.abs v) by (destruct (Z.eq_dec v 0) as [->|]; lia).
  assert (1 * f_scale <= Z.abs v * f_scale) by (apply Z.mul_le_mono_nonneg_r; lia).
  assert (Z.abs (v * f_scale) = Z.abs v * f_scale) by (rewrite Z.abs_mul, (Z.abs_eq f_scale) by lia; done).
  destruct (f_sign b =? 0); lia.
Qed.

Lemma f_scale_split e : 0 <= e <= 52 -> f_scale = 2 ^ (52 - e) * 2 ^ (e + 1022).
Proof. intros He. unfold f_scale. rewrite <- Z.pow_add_r by lia. f_equal. lia. Qed.

(** The integer of significand [mant] with its sign, shifted. *)
Lemma integer_spec b mant e k : 0 <= f_sign b <= 1 -> 0 <= mant < 2 ^ 53 -> 0 <= e <= 1000 -> finite b ->
  f_abs b = mant * 2 ^ e * f_scale ->
  post (r <- js_bigint_shl w (js_bigint_set_si64 w
              (i64 (if negb (f_sign b =? 0) then u64 (- mant) else mant))) e ;; ret (0, Some r))
    k (float_integer b) (fun _ => False).
Proof.
  intros Hs Hm He Hf Ha. set (v := if f_sign b =? 0 then mant else - mant).
  assert (Hv : sword 64 v) by (unfold v, sword; destruct (f_sign b =? 0); lia).
  assert (Ev : i64 (if negb (f_sign b =? 0) then u64 (- mant) else mant) = v).
  { unfold v. destruct (f_sign b =? 0); cbn [negb].
    - apply swrap_small; [lia|unfold sword; lia].
    - rewrite swrap_wrap by lia. apply swrap_small; [lia|unfold sword; lia]. }
  rewrite Ev. change (js_bigint_set_si64 w v) with [wrap 64 v].
  destruct (represents_single 64 v Hv) as [Hwf Hval].
  eapply post_bind.
  - eapply post_weaken; [apply (js_bigint_shl_gen w [wrap 64 v] e k Hwf); lia|done|].
    intros ex [_ Hx]. change (JS_BIGINT_MAX_SIZE w) with 16384 in Hx. cbn [length] in Hx.
    assert (e / w <= 1000 / w) by (apply Z.div_le_mono; lia). change (1000 / w) with 15 in *. lia.
  - intros r k' Hr. apply post_ret. split; [done|]. exists (v * 2 ^ e). rewrite Hval in Hr. split; [|done].
    unfold fval. rewrite Ha. unfold v. destruct (f_sign b =? 0); lia.
Qed.

Lemma from_float64_spec b k : word 64 b ->
  post (js_bigint_from_float64 b) k (float_integer b) (fun _ => False).
Proof.
  intros Hb. destruct (f_fields b Hb) as (Eb & Hs & He & Hm). unfold js_bigint_from_float64.
  fold (f_sign b) (f_mant b). change ((b >> 52) .& (2 ^ 11 - 1)) with (f_exp b).
  pose proof f_scale_pos as HP.
  destruct (Z.eqb_spec (f_exp b) 2047) as [E|E]; [by apply post_ret|].
  destruct (Z.eqb_spec (f_exp b) 0) as [E0|E0]; cbn [andb].
  { destruct (Z.eqb_spec (f_mant b) 0) as [M0|M0].
    - eapply post_bind; [apply (new_si_ok w); unfold sword; lia|]. intros r k' Hr. apply post_ret.
      split; [done|]. exists 0. split; [|done]. unfold fval, f_abs. rewrite E0, M0. by destruct (f_sign b =? 0).
    - rewrite E0. change (0 - 1023 <? 0) with true. apply post_ret. split; [done|]. apply fval_small; [done|].
      unfold f_abs. rewrite E0. cbn [Z.eqb]. split; [lia|].
      apply Z.lt_le_trans with (2 ^ 52); [lia|]. by vm_compute. }
  assert (Hf : f_abs b = (2 ^ 52 + f_mant b) * 2 ^ (f_exp b - 1)).
  { unfold f_abs. by replace (f_exp b =? 0) with false by lia. }
  destruct (Z.ltb_spec (f_exp b - 1023) 0) as [Hlt|Hge].
  { apply post_ret. split; [done|]. apply fval_small; [done|]. rewrite Hf.
    pose proof (pow2_pos (f_exp b - 1) ltac:(lia)). split; [lia|]. unfold f_scale.
    apply Z.lt_le_trans with (2 ^ 53 * 2 ^ (f_exp b - 1)); [apply Z.mul_lt_mono_pos_r; lia|].
    rewrite <- Z.pow_add_r by lia. apply Z.pow_le_mono_r; lia. }
  assert (EM : f_mant b .| 2 ^ 52 = 2 ^ 52 + f_mant b).
  { pose proof (lor_add_shiftl 1 (f_mant b) 52 ltac:(lia) ltac:(unfold word; lia)) as E1.
    change (1 << 52) with (2 ^ 52) in E1. lia. }
  rewrite EM. set (M := 2 ^ 52 + f_mant b) in *. set (e := f_exp b - 1023) in *.
  replace (f_exp b - 1) with (e + 1022) in Hf by lia.
  destruct (Z.ltb_spec e 52) as [He52|He52].
  - pose proof (f_scale_split e ltac:(lia)) as Hsc. pose proof (pow2_pos (e + 1022) ltac:(lia)) as HP2.
    pose proof (pow2_pos (52 - e) ltac:(lia)) as HP3. rewrite land_ones_mod by lia.
    pose proof (Z.div_mod M (2 ^ (52 - e)) ltac:(lia)) as Ed.
    destruct (Z.eqb_spec (M mod 2 ^ (52 - e)) 0) as [Em|Em]; cbn [negb].
    + rewrite shiftr_div by lia. apply integer_spec; try done.
      * split; [apply Z.div_pos; lia|]. apply Z.div_lt_upper_bound; [done|].
        assert (1 * 2 ^ 53 <= 2 ^ (52 - e) * 2 ^ 53) by (apply Z.mul_le_mono_nonneg_r; lia). lia.
      * rewrite Z.mul_1_r, Hf, Hsc, Z.mul_assoc. f_equal. lia.
    + apply post_ret. split; [done|]. intros v Ev. apply Em.
      assert (Ha : f_abs b = Z.abs v * f_scale).
      { rewrite <- (Z.abs_eq f_scale), <- Z.abs_mul, <- Ev by lia. unfold fval.
        pose proof (f_abs_nonneg b Hb). destruct (f_sign b =? 0); lia. }
      rewrite Hf, Hsc, Z.mul_assoc in Ha. apply Z.mul_cancel_r in Ha; [|lia]. rewrite Ha. apply Z.mod_mul. lia.
  - apply integer_spec; try done; [lia|lia|]. rewrite Hf, <- Z.mul_assoc. f_equal. unfold f_scale.
    rewrite <- Z.pow_add_r by lia. f_equal. lia.
Qed.
End from_float.

(** ** Comparison with a double *)

Section float_cmp.

(** The magnitude of a BigInt and the one of a double, by their exponents. *)
Lemma exponent_compare A b : 0 < A -> word 64 b -> 0 < f_abs b ->
  (Z.log2 A < f_exp b - 1023 -> A * f_scale < f_abs b) /\
  (f_exp b - 1023 < Z.log2 A -> f_abs b < A * f_scale).
Proof.
  intros HA Hb Hpos. destruct (f_fields b Hb) as (_ & _ & He & Hm). pose proof f_scale_pos as HS.
  destruct (Z.log2_spec A HA) as [L1 L2]. pose proof (Z.log2_nonneg A). set (f := Z.log2 A) in *.
  set (e := f_exp b - 1023) in *. unfold f_abs in *. split; intros Hlt.
  - replace (f_exp b =? 0) with false by lia. replace (f_exp b - 1) with (e + 1022) by lia.
    apply Z.lt_le_trans with (2 ^ e * f_scale).
    + apply Z.mul_lt_mono_pos_r; [done|]. apply Z.lt_le_trans with (2 ^ Z.succ f); [done|]. apply Z.pow_le_mono_r; lia.
    + replace (2 ^ e * f_scale) with (2 ^ 52 * 2 ^ (e + 1022)).
      * apply Z.mul_le_mono_nonneg_r; [|lia]. pose proof (pow2_pos (e + 1022)). lia.
      * unfold f_scale. rewrite <- !Z.pow_add_r by lia. f_equal. lia.
  - apply Z.lt_le_trans with (2 ^ f * f_scale); [|by apply Z.mul_le_mono_pos_r].
    destruct (Z.eqb_spec (f_exp b) 0).
    + apply Z.lt_le_trans with (2 ^ 52); [lia|]. apply Z.le_trans with (1 * f_scale); [by vm_compute|].
      apply Z.mul_le_mono_pos_r; [done|]. pose proof (pow2_pos f). lia.
    + replace (f_exp b - 1) with (e + 1022) by lia.
      apply Z.lt_le_trans with (2 ^ 53 * 2 ^ (e + 1022)).
      * apply Z.mul_lt_mono_pos_r; [apply pow2_pos|]; lia.
      * unfold f_scale. rewrite <- !Z.pow_add_r by lia. apply Z.pow_le_mono_r; lia.
Qed.

(** Equal exponents: the significands decide. *)
Lemma mantissa_compare A b : 0 < A -> word 64 b -> Z.log2 A = f_exp b - 1023 -> f_exp b <> 0 ->
  (A * f_scale ?= f_abs b) = (top64 A ?= (2 ^ 52 + f_mant b) * 2 ^ 11).
Proof.
  intros HA Hb Hf He0. destruct (f_fields b Hb) as (_ & _ & He & Hm). pose proof (Z.log2_nonneg A).
  unfold f_abs. replace (f_exp b =? 0) with false by lia. set (M := 2 ^ 52 + f_mant b).
  set (e := Z.log2 A) in *. replace (f_exp b - 1) with (e + 1022) by lia. unfold f_scale.
  unfold top64. fold e. destruct (Z.leb_spec e 63) as [Hle|Hgt].
  - replace (M * 2 ^ (e + 1022)) with (M * 2 ^ 11 * 2 ^ (e + 1011)).
    2: { rewrite <- Z.mul_assoc, <- Z.pow_add_r by lia. do 2 f_equal. lia. }
    replace (A * 2 ^ 1074) with (A * 2 ^ (63 - e) * 2 ^ (e + 1011)).
    2: { rewrite <- Z.mul_assoc, <- Z.pow_add_r by lia. do 2 f_equal. lia. }
    symmetry. apply Zmult_compare_compat_r. pose proof (pow2_pos (e + 1011)). lia.
  - set (P := 2 ^ (e - 63)). pose proof (pow2_pos (e - 63) ltac:(lia)) as HP. fold P in HP.
    replace (M * 2 ^ (e + 1022)) with (M * 2 ^ 11 * P * 2 ^ 1074).
    2: { unfold P. rewrite <- !Z.mul_assoc, <- !Z.pow_add_r by lia. do 2 f_equal. lia. }
    rewrite <- Zmult_compare_compat_r by (pose proof (pow2_pos 1074); lia).
    rewrite sticky_value. pose proof (Z.div_mod A P ltac:(lia)) as Ed.
    pose proof (Z.mod_pos_bound A P HP) as Hr. set (Q := A / P) in *. set (R := A mod P) in *.
    set (M' := M * 2 ^ 11). assert (HM : Z.even M' = true).
    { unfold M'. rewrite Z.even_mul. change (Z.even (2 ^ 11)) with true. apply orb_true_r. }
    destruct (Z.lt_trichotomy Q M') as [Hq|[Hq|Hq]].
    + assert (Q + 1 <= M' /\ (Z.even Q = true -> Q + 1 < M')) as [H1 H2].
      { split; [lia|]. intros Hev. enough (Q + 1 <> M') by lia. intros E. rewrite <- E, Z.even_add, Hev in HM. done. }
      replace (A ?= M' * P) with Lt.
      2: { symmetry. apply Z.compare_lt_iff. assert ((Q + 1) * P <= M' * P) by (apply Z.mul_le_mono_pos_r; lia). lia. }
      symmetry. apply Z.compare_lt_iff. destruct (R =? 0), (Z.even Q); cbn; lia.
    + replace (Z.even Q) with true by congruence. destruct (Z.eqb_spec R 0) as [ER|ER]; cbn [negb andb Z.b2z].
      * replace A with (M' * P) by lia. rewrite Hq, Z.add_0_r, !Z.compare_refl. done.
      * transitivity Gt; [|symmetry]; apply Z.compare_gt_iff; [|lia]. rewrite <- Hq. lia.
    + transitivity Gt; [|symmetry]; apply Z.compare_gt_iff.
      * assert (M' * P < Q * P) by (apply Z.mul_lt_mono_pos_r; lia). lia.
      * destruct (negb _ && _); cbn; lia.
Qed.

(** What the comparison returns: the order of the numbers, reversed when both are
    negative and differ in exponent. *)
Definition float_cmp_result (v b : Z) : Z :=
  if f_exp b =? 2047 then
    if f_mant b =? 0 then 2 * f_sign b - 1 else 2
  else
    let c := sign_of (v * f_scale ?= fval b) in
    if (v <? 0) && (fval b <? 0) && negb (Z.log2 (- v) =? f_exp b - 1023) then - c else c.

Lemma sign_of_lt x y : x < y -> sign_of (x ?= y) = -1.
Proof. intros H. apply Z.compare_lt_iff in H. by rewrite H. Qed.
Lemma sign_of_gt x y : y < x -> sign_of (x ?= y) = 1.
Proof. intros H. apply Z.compare_gt_iff in H. by rewrite H. Qed.

Lemma sign_of_compare x y : sign_of (x ?= y) = if x <? y then -1 else if y <? x then 1 else 0.
Proof.
  destruct (Z.ltb_spec x y); [by apply sign_of_lt|]. destruct (Z.ltb_spec y x); [by apply sign_of_gt|].
  replace x with y by lia. by rewrite Z.compare_refl.
Qed.

(** The part of [js_bigint_float64_cmp] that compares magnitudes. *)
Lemma magnitude_compare A b : 0 < A -> word 64 b -> 0 < f_abs b ->
  sign_of (A * f_scale ?= f_abs b) =
    if negb (Z.log2 A =? f_exp b - 1023) then (if Z.log2 A <? f_exp b - 1023 then -1 else 1)
    else sign_of (top64 A ?= (f_mant b .| 2 ^ 52) << 11).
Proof.
  intros HA Hb Hpos. destruct (f_fields b Hb) as (_ & _ & He & Hm).
  destruct (exponent_compare A b HA Hb Hpos) as [C1 C2]. pose proof (Z.log2_nonneg A).
  destruct (Z.eqb_spec (Z.log2 A) (f_exp b - 1023)) as [E|E]; cbn [negb].
  - rewrite mantissa_compare by (done || lia).
    pose proof (lor_add_shiftl 1 (f_mant b) 52 ltac:(lia) ltac:(unfold word; lia)) as E1.
    change (1 << 52) with (2 ^ 52) in E1. rewrite E1, (shiftl_mul _ 11) by lia. done.
  - destruct (Z.ltb_spec (Z.log2 A) (f_exp b - 1023)); [apply sign_of_lt, C1|apply sign_of_gt, C2]; lia.
Qed.

(** The order of the numbers from the one of the magnitudes, for operands of one sign. *)
Lemma signed_compare v b : 0 <= f_sign b <= 1 -> f_sign b = b2z (v <? 0) ->
  sign_of (v * f_scale ?= fval b) =
    if v <? 0 then - sign_of (Z.abs v * f_scale ?= f_abs b) else sign_of (Z.abs v * f_scale ?= f_abs b).
Proof.
  intros Hs E. unfold fval. rewrite E. destruct (Z.ltb_spec v 0); cbn [Z.b2z Z.eqb].
  - replace (v * f_scale) with (- (Z.abs v * f_scale)) by (replace (Z.abs v) with (- v) by lia; ring).
    rewrite Z.compare_opp, Z.compare_antisym. by destruct (_ ?= _).
  - by replace (Z.abs v) with v by lia.
Qed.

Lemma scaled_sign v : (v * f_scale <? 0) = (v <? 0) /\ (0 <? v * f_scale) = (0 <? v).
Proof.
  pose proof f_scale_pos as HS. generalize dependent f_scale. intros S HS. split; apply eq_true_iff_eq; rewrite !Z.ltb_lt; nia.
Qed.

(** A zero operand, or operands of different signs. *)
Lemma sign_compare v b : word 64 b -> v = 0 \/ f_abs b = 0 \/ f_sign b <> b2z (v <? 0) ->
  (v = 0 -> f_abs b = 0 -> sign_of (v * f_scale ?= fval b) = 0) /\
  (v = 0 -> 0 < f_abs b -> sign_of (v * f_scale ?= fval b) = 2 * f_sign b - 1) /\
  (v <> 0 -> sign_of (v * f_scale ?= fval b) = 1 - 2 * b2z (v <? 0)).
Proof.
  intros Hb Hc. destruct (f_fields b Hb) as (_ & Hs & _). pose proof (f_abs_nonneg b Hb).
  destruct (scaled_sign v) as [S1 S2]. rewrite sign_of_compare. unfold fval.
  destruct (Z.eqb_spec (f_sign b) 0) as [E|E]; (split; [|split]); intros;
    destruct (Z.ltb_spec v 0), (Z.ltb_spec 0 v); cbn [Z.b2z] in *; zcases; lia.
Qed.

Lemma float64_cmp_spec a b : bigint_wf w a -> word 64 b ->
  js_bigint_float64_cmp a b = float_cmp_result (sval w a) b.
Proof.
  intros Ha Hb. pose proof (wf_operand w a Ha) as Ho. destruct (f_fields b Hb) as (_ & Hs & He & Hm).
  unfold js_bigint_float64_cmp, float_cmp_result. fold (f_sign b) (f_mant b).
  change ((b >> 52) .& (2 ^ 11 - 1)) with (f_exp b). rewrite (sval_zero w a Ha).
  rewrite (js_bigint_sign_spec w a (proj1 Ho) (proj2 Ho)). set (v := sval w a) in *.
  destruct (Z.eqb_spec (f_exp b) 2047) as [E|E]; [by destruct (f_mant b =? 0)|].
  pose proof (f_abs_nonneg b Hb) as Hnn. pose proof (sign_compare v b Hb) as HSC.
  assert (Hz : (f_exp b =? 0) && (f_mant b =? 0) = (f_abs b =? 0)).
  { unfold f_abs. destruct (Z.eqb_spec (f_exp b) 0); cbn [andb]; [done|]. symmetry. apply Z.eqb_neq.
    pose proof (pow2_pos (f_exp b - 1)). intros E'. apply Z.mul_eq_0 in E'. lia. }
  assert (Hneg : (fval b <? 0) = (f_sign b =? 1) && negb (f_abs b =? 0)).
  { unfold fval. destruct (Z.eqb_spec (f_sign b) 0), (Z.eqb_spec (f_sign b) 1); cbn [andb]; zcases; cbn; lia. }
  rewrite Hz, Hneg. destruct (Z.eqb_spec (f_abs b) 0) as [E0|E0]; cbn [negb].
  { destruct (HSC ltac:(auto)) as (S1 & _ & S3). rewrite !andb_false_r. cbn [andb].
    destruct (Z.eqb_spec v 0); [by rewrite S1|by rewrite S3]. }
  rewrite andb_true_r. destruct (Z.eqb_spec v 0) as [Hv|Hv].
  { destruct (HSC ltac:(auto)) as (_ & S2 & _). rewrite Hv at 1. cbn [andb Z.ltb Z.compare]. by rewrite S2 by lia. }
  destruct (Z.eqb_spec (b2z (v <? 0)) (f_sign b)) as [Es|Es]; cbn [negb].
  2: { destruct (HSC ltac:(auto)) as (_ & _ & S3). rewrite S3 by done.
       destruct (v <? 0), (Z.eqb_spec (f_sign b) 1); cbn [andb Z.b2z] in *; done. }
  rewrite mant_exp_spec by done. fold v. rewrite signed_compare by done.
  rewrite magnitude_compare by (done || lia). rewrite !sign_of_compare.
  set (X := top64 (Z.abs v)). set (Y := _ << 11).
  destruct (Z.ltb_spec v 0) as [Hn|Hn]; cbn [Z.b2z andb] in *.
  - replace (f_sign b =? 1) with true by lia. replace (- v) with (Z.abs v) by lia. cbn [andb].
    destruct (Z.log2 (Z.abs v) =? f_exp b - 1023); cbn [negb]; zcases; lia.
  - destruct (Z.log2 (Z.abs v) =? f_exp b - 1023); cbn [negb]; zcases; lia.
Qed.
End float_cmp.

(** ** Truncation *)

Section truncation.
Context {W : World}.

Definition bival (a : BigIntValue) : Z :=
  match a with ShortBigInt v => v | BigInt p => sval w p end.
Definition bival_wf (a : BigIntValue) : Prop :=
  match a with ShortBigInt v => sword 64 v | BigInt p => bigint_wf w p end.

(** The ECMAScript operations [BigInt.asUintN] and [BigInt.asIntN]. *)
Definition as_n (asIntN : bool) (bits v : Z) : Z :=
  if bits =? 0 then 0 else if asIntN then swrap bits v else v mod 2 ^ bits.

Lemma compact_spec v p : represents w v p ->
  bival_wf (JS_CompactBigInt p) /\ bival (JS_CompactBigInt p) = v.
Proof.
  intros [Hp Hv]. unfold JS_CompactBigInt. destruct (Nat.eqb_spec (length p) 1) as [E|E]; [|done].
  destruct (single_value w p Hp E) as (_ & Hx & Hs). cbn. split; [apply swrap_range; lia|congruence].
Qed.

(** Shifting a limb left and back keeps its low bits. *)
Lemma shift_back t tb : word 64 t -> 1 <= tb <= 64 ->
  u64 (t << (64 - tb)) >> (64 - tb) = t mod 2 ^ tb /\
  i64 (u64 (t << (64 - tb))) >> (64 - tb) = swrap tb t.
Proof.
  intros Ht Htb. rewrite wrap_shiftl by lia. replace (64 - (64 - tb)) with tb by lia.
  rewrite !shiftr_div, shiftl_mul by lia. pose proof (pow2_pos (64 - tb) ltac:(lia)) as HP.
  pose proof (pow2_pos tb ltac:(lia)). pose proof (Z.mod_pos_bound t (2 ^ tb) ltac:(lia)).
  rewrite Z.div_mul by lia. split; [done|].
  assert (E : 2 ^ 64 = 2 ^ tb * 2 ^ (64 - tb)) by (rewrite <- Z.pow_add_r by lia; f_equal; lia).
  assert (E' : 2 ^ 63 = 2 ^ (tb - 1) * 2 ^ (64 - tb)) by (rewrite <- Z.pow_add_r by lia; f_equal; lia).
  unfold swrap at 2. set (x := t mod 2 ^ tb) in *.
  destruct (Z.ltb_spec x (2 ^ (tb - 1))) as [Hlt|Hge].
  - rewrite swrap_small; [by rewrite Z.div_mul by lia|lia|]. unfold sword. change (64 - 1) with 63.
    rewrite E'. assert (x * 2 ^ (64 - tb) < 2 ^ (tb - 1) * 2 ^ (64 - tb)) by (apply Z.mul_lt_mono_pos_r; lia). lia.
  - rewrite (swrap_unique 64 _ ((x - 2 ^ tb) * 2 ^ (64 - tb)) 1); [by rewrite Z.div_mul by lia|lia| |lia].
    unfold sword. change (64 - 1) with 63. pose proof (pow2_half tb ltac:(lia)).
    assert ((2 ^ (tb - 1) - 2 ^ tb) * 2 ^ (64 - tb) <= (x - 2 ^ tb) * 2 ^ (64 - tb)) by (apply Z.mul_le_mono_pos_r; lia).
    assert ((x - 2 ^ tb) * 2 ^ (64 - tb) < 0) by (apply Z.mul_neg_pos; lia). lia.
Qed.

(** The limbs of [p], cut or sign-extended to [n] limbs. *)
Lemma resize_spec p n : operand w p -> (1 <= n)%nat ->
  let l := Z.min (Z.of_nat n) (len p) in
  let tab := take (Z.to_nat l) p ++ replicate (Z.to_nat (Z.of_nat n - l)) (u64 (- js_bigint_sign w p)) in
  limbs w tab /\ length tab = n /\ exists k, lval w tab = sval w p + k * 2 ^ (64 * Z.of_nat n).
Proof.
  intros Ho Hn l tab. destruct (Nat.le_gt_cases (length p) n) as [Hle|Hgt].
  - assert (E : tab = sext w n p).
    { unfold tab, l, sext. rewrite Z.min_r by lia. rewrite Nat2Z.id, firstn_all.
      do 2 f_equal. lia. }
    rewrite E. split; [apply (limbs_sext w n p Ho)|]. split; [by apply (length_sext w)|].
    pose proof (lval_sext w n p Ho Hle) as HV. exists (b2z (sval w p <? 0)). lia.
  - assert (E : tab = take n p).
    { unfold tab, l. rewrite Z.min_l by lia. rewrite Z.sub_diag, Nat2Z.id. apply app_nil_r. }
    rewrite E. split; [apply (limbs_take w), Ho|]. split; [rewrite length_take; lia|].
    destruct (sval_cong w ltac:(lia) p (proj2 Ho)) as [k Hk].
    rewrite <- (take_drop n p) in Hk at 2. rewrite lval_app, length_take in Hk by lia.
    replace (Nat.min n (length p)) with n in Hk by lia.
    assert (HP : 2 ^ (w * len p) = 2 ^ (64 * Z.of_nat n) * 2 ^ (64 * (len p - Z.of_nat n))).
    { rewrite <- Z.pow_add_r by lia. f_equal. lia. }
    rewrite HP in Hk. exists (- lval w (drop n p) - k * 2 ^ (64 * (len p - Z.of_nat n))). lia.
Qed.

(** The number of bits of the top limb that remain, and the shift that keeps them. *)
Lemma top_bits bits : 0 < bits < 2 ^ 53 ->
  let n := (bits + 64 - 1) / 64 in
  let tb := bits - 64 * (n - 1) in
  1 <= n /\ 1 <= tb <= 64 /\ u64 (- bits) .& 63 = 64 - tb.
Proof.
  intros Hb n tb. pose proof (Z.div_mod (bits + 64 - 1) 64 ltac:(lia)) as E. fold n in E.
  pose proof (Z.mod_pos_bound (bits + 64 - 1) 64 ltac:(lia)). unfold tb. split; [lia|]. split; [lia|].
  change 63 with (2 ^ 6 - 1). rewrite land_ones_mod by lia. change (2 ^ 6) with 64.
  rewrite (wrap_unique 64 (- bits) (2 ^ 64 - bits) (-1)) by (unfold word; lia).
  symmetry. apply (Z.mod_unique _ _ (2 ^ 58 - n)); lia.
Qed.

Lemma top_value P tb t : 0 < P -> 1 <= tb -> forall lo, 0 <= lo < P ->
  0 <= lo + P * (t mod 2 ^ tb) < P * 2 ^ tb /\
  - (P * 2 ^ (tb - 1)) <= lo + P * swrap tb t < P * 2 ^ (tb - 1).
Proof.
  intros HP Htb lo Hlo. pose proof (pow2_pos tb ltac:(lia)) as Hp.
  pose proof (Z.mod_pos_bound t (2 ^ tb) Hp) as Hm. pose proof (swrap_range tb t ltac:(lia)) as Hs. unfold sword in Hs.
  assert (P * (t mod 2 ^ tb) <= P * (2 ^ tb - 1)) by (apply Z.mul_le_mono_nonneg_l; lia).
  assert (0 <= P * (t mod 2 ^ tb)) by (apply Z.mul_nonneg_nonneg; lia).
  assert (P * swrap tb t <= P * (2 ^ (tb - 1) - 1)) by (apply Z.mul_le_mono_nonneg_l; lia).
  assert (P * - 2 ^ (tb - 1) <= P * swrap tb t) by (apply Z.mul_le_mono_nonneg_l; lia). lia.
Qed.

(** The top limb cut to its [tb] bits gives the number cut to its bits. *)
Lemma cut_value lo t V k tb n : limbs w lo -> word 64 t -> len lo = n -> 1 <= tb <= 64 ->
  lval w lo + 2 ^ (64 * n) * t = V + k * 2 ^ (64 * (n + 1)) ->
  sval w (lo ++ [u64 (swrap tb t)]) = swrap (64 * n + tb) V /\
  sval w ((lo ++ [t mod 2 ^ tb]) ++ [0]) = V mod 2 ^ (64 * n + tb).
Proof.
  intros Hlo Ht Hn Htb E. pose proof (lval_range w ltac:(lia) lo Hlo) as Hr. rewrite Hn in Hr.
  set (P := 2 ^ (w * n)) in *. assert (HP : 0 < P) by (apply pow2_pos; lia).
  destruct (top_value P tb t HP ltac:(lia) _ Hr) as [T1 T2].
  pose proof (pow2_pos tb ltac:(lia)). pose proof (Z.mod_pos_bound t (2 ^ tb) ltac:(lia)).
  assert (E1 : 2 ^ (64 * n + tb) = P * 2 ^ tb) by (unfold P; rewrite <- Z.pow_add_r by lia; done).
  assert (E2 : 2 ^ (64 * n + tb - 1) = P * 2 ^ (tb - 1)) by (unfold P; rewrite <- Z.pow_add_r by lia; f_equal; lia).
  assert (E3 : 2 ^ (64 * (n + 1)) = P * 2 ^ tb * 2 ^ (64 - tb)) by (unfold P; rewrite <- !Z.pow_add_r by lia; f_equal; lia).
  assert (H64 : 2 ^ tb <= 2 ^ 64) by (apply Z.pow_le_mono_r; lia).
  assert (H63 : 2 ^ (tb - 1) <= 2 ^ 63) by (apply Z.pow_le_mono_r; lia).
  rewrite E3 in E. change (64 * n) with (w * n) in E. fold P in E. split.
  - rewrite sval_snoc by (done || lia || (apply wrap_range; lia)). rewrite Hn. fold P.
    pose proof (swrap_range tb t ltac:(lia)) as Hsr. unfold sword in Hsr.
    rewrite swrap_wrap, (swrap_small 64) by (lia || (unfold sword; change (64 - 1) with 63; lia)).
    destruct (swrap_cong tb t ltac:(lia)) as [j Hj].
    symmetry. apply (swrap_unique _ _ _ (- k * 2 ^ (64 - tb) - j)); [lia|unfold sword; lia|].
    rewrite E1, Hj. lia.
  - rewrite sval_snoc; [|lia| |unfold word; lia].
    2: { apply limbs_app. split; [done|]. apply limbs_single. unfold word. lia. }
    rewrite (swrap_0 w). rewrite Z.mul_0_r, Z.add_0_r, lval_app, Hn by lia. cbn [lval]. fold P.
    rewrite Z.mul_0_r, Z.add_0_r, E1.
    pose proof (Z.div_mod t (2 ^ tb) ltac:(lia)) as Ed.
    apply (Z.mod_unique _ _ (t / 2 ^ tb - k * 2 ^ (64 - tb))); [lia|].
    rewrite Z.mul_sub_distr_l. assert (P * t = P * (2 ^ tb * (t / 2 ^ tb) + t mod 2 ^ tb)) by congruence. lia.
Qed.

Lemma truncate_spec p bits asIntN k : operand w p -> 0 < bits < 2 ^ 53 ->
  post (truncate p bits asIntN) k
    (fun r => bival_wf r /\ bival r = as_n asIntN bits (sval w p))
    (too_large w ((bits + 63) / 64)).
Proof.
  intros Ho Hb. destruct (top_bits bits Hb) as (Hn & Htb & Hshift). unfold truncate.
  replace ((bits + 63) / 64) with ((bits + 64 - 1) / 64) by (f_equal; lia).
  set (n := (bits + 64 - 1) / 64) in *. set (tb := bits - 64 * (n - 1)) in *.
  eapply post_bind.
  { apply post_new_weaken. intros e [He1 He2]. split; [done|lia]. }
  intros u k' Hmax. change (JS_BIGINT_MAX_SIZE w) with 16384 in Hmax. unfold INT32_MAX in *.
  rewrite Z.min_l in * by lia. rewrite Hshift.
  destruct (resize_spec p (Z.to_nat n) Ho ltac:(lia)) as (Ht & HL & j & HV). rewrite !Z2Nat.id in * by lia.
  set (tab := take _ p ++ _) in *. replace (Z.to_nat (n - 1)) with (Z.to_nat n - 1)%nat by lia.
  assert (Hne : tab <> []) by (destruct tab; [cbn in HL; lia|done]).
  pose proof (total_last tab Hne) as Etab. rewrite HL in Etab.
  set (lo := take (Z.to_nat n - 1) tab) in *. set (t := tab !!! (Z.to_nat n - 1)%nat) in *.
  assert (Hlo : length lo = (Z.to_nat n - 1)%nat) by (unfold lo; rewrite length_take; lia).
  assert (Hins : forall v, <[(Z.to_nat n - 1)%nat := v]> tab = lo ++ [v]).
  { intros v. rewrite Etab. rewrite <- Hlo at 1. rewrite insert_app_r_alt by lia. by rewrite Nat.sub_diag. }
  rewrite !Hins. rewrite Etab in Ht, HV. apply limbs_app in Ht as [Hlol Htl]. apply limbs_single in Htl.
  rewrite lval_app in HV by lia. cbn [lval] in HV. rewrite Z.mul_0_r, Z.add_0_r in HV.
  destruct (cut_value lo t (sval w p) j tb (n - 1) Hlol Htl ltac:(lia) Htb) as [C1 C2].
  { replace (len lo) with (n - 1) in HV by lia. by replace (n - 1 + 1) with n by lia. }
  destruct (shift_back t tb Htl Htb) as [S1 S2]. rewrite S1, S2.
  replace (64 * (n - 1) + tb) with bits in C1, C2 by lia.
  assert (Has : as_n asIntN bits (sval w p) = if asIntN then swrap bits (sval w p) else sval w p mod 2 ^ bits).
  { unfold as_n. by replace (bits =? 0) with false by lia. }
  pose proof (Z.mod_pos_bound t (2 ^ tb) ltac:(apply pow2_pos; lia)).
  assert (2 ^ tb <= 2 ^ 64) by (apply Z.pow_le_mono_r; lia).
  rewrite Has. eapply (post_bind _ _ _ (represents w (if asIntN then swrap bits (sval w p) else sval w p mod 2 ^ bits)));
    [|intros r k'' Hr; apply post_ret, (compact_spec _ _ Hr)].
  destruct asIntN.
  - rewrite <- C1. apply (js_bigint_normalize_spec w). split; [|by destruct lo].
    apply limbs_app. split; [done|]. apply limbs_single, wrap_range. lia.
  - rewrite <- C2. apply (js_bigint_extend_spec w); [|done]. split; [|by destruct lo].
    apply limbs_app. split; [done|]. apply limbs_single. unfold word. lia.
Qed.

Lemma as_n_fits (asIntN : bool) bits v : 0 < bits ->
  (if asIntN then sword bits v else 0 <= v < 2 ^ bits) -> as_n asIntN bits v = v.
Proof.
  intros Hb Hv. unfold as_n. replace (bits =? 0) with false by lia.
  destruct asIntN; [by apply swrap_small|by apply Z.mod_small].
Qed.

Lemma asUintN_spec bits a asIntN k : bival_wf a -> 0 <= bits < 2 ^ 53 ->
  post (js_bigint_asUintN bits a asIntN) k
    (fun r => bival_wf r /\ bival r = as_n asIntN bits (bival a))
    (too_large w ((bits + 63) / 64)).
Proof.
  intros Ha Hb. unfold js_bigint_asUintN. destruct (Z.eqb_spec bits 0) as [->|Hb0]; [by apply post_ret|].
  destruct a as [v|p]; cbn [bival bival_wf] in *.
  - destruct (Z.leb_spec 64 bits) as [Hge|Hlt].
    + assert (Hpow : 2 ^ 63 <= 2 ^ (bits - 1) /\ 2 ^ 63 <= 2 ^ bits) by (split; apply Z.pow_le_mono_r; lia).
      assert (Hfit : negb asIntN && (v <? 0) = false -> as_n asIntN bits v = v).
      { intros E. apply as_n_fits; [lia|]. unfold sword in *. change (64 - 1) with 63 in Ha.
        destruct asIntN; cbn in E; lia. }
      destruct (negb asIntN && (v <? 0)); [|apply post_ret; by rewrite Hfit].
      destruct (represents_single 64 v Ha) as [Hwf Hval].
      pose proof (truncate_spec [wrap 64 v] bits asIntN k (wf_operand w _ Hwf) ltac:(lia)) as HT.
      rewrite Hval in HT. exact HT.
    + destruct (shift_back (u64 v) bits ltac:(apply wrap_range; lia) ltac:(lia)) as [S1 S2]. rewrite S1, S2.
      assert (Hm : u64 v mod 2 ^ bits = v mod 2 ^ bits).
      { unfold wrap. rewrite Z.mod_mod_divide; [done|]. exists (2 ^ (64 - bits)). rewrite <- Z.pow_add_r by lia. f_equal. lia. }
      assert (Hsw : swrap bits (u64 v) = swrap bits v) by (unfold swrap; by rewrite Hm).
      pose proof (Z.mod_pos_bound v (2 ^ bits) ltac:(apply pow2_pos; lia)).
      pose proof (swrap_range bits v ltac:(lia)) as Hr. unfold sword in Hr.
      assert (Hpow : 2 ^ bits <= 2 ^ 63) by (apply Z.pow_le_mono_r; lia).
      assert (Hpow' : 2 ^ (bits - 1) <= 2 ^ 63) by (apply Z.pow_le_mono_r; lia).
      apply post_ret. cbn [bival bival_wf]. split; [apply swrap_range; lia|]. unfold as_n.
      replace (bits =? 0) with false by lia. rewrite Hm, Hsw. destruct asIntN.
      * rewrite swrap_wrap by lia. apply swrap_small; [lia|unfold sword; change (64 - 1) with 63; lia].
      * apply swrap_small; [lia|unfold sword; change (64 - 1) with 63; lia].
  - pose proof (wf_operand w p Ha) as Ho. rewrite (js_bigint_sign_spec w p (proj1 Ho) (proj2 Ho)).
    destruct (_ && _) eqn:E; [|apply truncate_spec; [done|lia]].
    apply andb_true_iff in E as [E1 E2]. apply post_ret. split; [done|]. symmetry. apply as_n_fits; [lia|].
    pose proof (sval_bounds w p Ho) as Hr. unfold sword in *. cbn [bival].
    assert (2 ^ (w * len p - 1) <= 2 ^ (bits - 1)) by (apply Z.pow_le_mono_r; lia).
    assert (2 ^ (bits - 1) <= 2 ^ bits) by (apply Z.pow_le_mono_r; lia).
    destruct asIntN; [lia|]. cbn [orb] in E2. destruct (Z.ltb_spec (sval w p) 0); [done|lia].
Qed.
End truncation.

(** ** Theorems *)

Section theorems.
Context {W : World}.

(** C14: [js_bigint_to_float64] rounds correctly: the double it returns is nearest to
    the value of the BigInt among all finite doubles, with ties to the even significand,
    and from [2^1024 - 2^970] on it is the infinity of the sign of the value. *)
Theorem bigint_to_float64_nearest a : bigint_wf w a ->
  let v := sval w a in
  let b := js_bigint_to_float64 a in
  if Z.abs v <? overflow_bound then is_nearest v b
  else f_exp b = 2047 /\ f_mant b = 0 /\ f_sign b = b2z (v <? 0).
Proof.
  intros Ha. cbv zeta. rewrite to_float64_spec by done. set (v := sval w a).
  destruct (Z.ltb_spec (Z.abs v) overflow_bound); [by apply nearest_spec|].
  rewrite nearest_overflow by done. by destruct (v <? 0).
Qed.

(** C15: [js_bigint_from_float64] accepts exactly the finite doubles that are integers,
    tells infinities and NaN from fractions, and its only failure is a failed allocation;
    converting the result back gives a double equal to the one it came from. *)
Theorem bigint_from_float64_roundtrip b k : word 64 b ->
  post (js_bigint_from_float64 b) k
    (fun res => float_integer b res /\
       forall r, res = (0, Some r) -> fval (js_bigint_to_float64 r) = fval b)
    (fun _ => False).
Proof.
  intros Hb. eapply post_weaken; [by apply from_float64_spec| |done].
  intros res Hres. split; [done|]. intros r ->. destruct Hres as (Hf & v & Hv & Hr & Hval).
  rewrite to_float64_spec, Hval by done. pose proof f_scale_pos as HS.
  destruct (f_fields b Hb) as (_ & Hs & He & Hm). unfold finite in Hf.
  assert (Ha : f_abs b = Z.abs v * f_scale).
  { rewrite <- (Z.abs_eq f_scale), <- Z.abs_mul, <- Hv by lia. unfold fval.
    pose proof (f_abs_nonneg b Hb). destruct (f_sign b =? 0); lia. }
  assert (Hmax : f_abs b <= (2 ^ 53 - 1) * 2 ^ 971 * f_scale).
  { unfold f_abs. destruct (Z.eqb_spec (f_exp b) 0).
    - apply Z.le_trans with (2 ^ 52); [lia|]. by vm_compute.
    - apply Z.le_trans with ((2 ^ 53 - 1) * 2 ^ 2045); [|by vm_compute].
      apply Z.mul_le_mono_nonneg; [lia|lia|pose proof (pow2_pos (f_exp b - 1)); lia|].
      apply Z.pow_le_mono_r; lia. }
  assert (Hov : Z.abs v < overflow_bound).
  { rewrite Ha in Hmax. apply Z.mul_le_mono_pos_r in Hmax; [|done].
    eapply Z.le_lt_trans; [exact Hmax|]. by vm_compute. }
  destruct (nearest_spec v Hov) as (_ & _ & HN). destruct (HN b Hb Hf) as [HN' _].
  rewrite Hv in HN' |- *. lia.
Qed.

(** Comparing a BigInt with a double gives the order of the two numbers, 2 for NaN,
    and orders the infinities outside all integers; the one exception is two negative
    numbers whose binary exponents differ, which are ordered as their magnitudes are. *)
Theorem bigint_float64_cmp_order a b : bigint_wf w a -> word 64 b ->
  let v := sval w a in
  js_bigint_float64_cmp a b =
    if f_exp b =? 2047 then
      if f_mant b =? 0 then 2 * f_sign b - 1 else 2
    else
      let c := sign_of (v * f_scale ?= fval b) in
      if (v <? 0) && (fval b <? 0) && negb (Z.log2 (- v) =? f_exp b - 1023) then - c else c.
Proof. intros Ha Hb. by apply float64_cmp_spec. Qed.

(** [BigInt.asUintN] and [BigInt.asIntN] return the value reduced modulo [2^bits]
    to the unsigned or signed range, in a normalized representation, short or not; the
    only errors are allocation failures and the refusal of a result of too many limbs. *)
Theorem bigint_asUintN_range bits a asIntN k : bival_wf a -> 0 <= bits < 2 ^ 53 ->
  post (js_bigint_asUintN bits a asIntN) k
    (fun r => bival_wf r /\
       bival r = (if bits =? 0 then 0 else if asIntN then swrap bits (bival a) else bival a mod 2 ^ bits))
    (fun e => e = RangeError "BigInt is too large to allocate" /\ 2 ^ 14 < (bits + 63) / 64).
Proof. intros Ha Hb. by apply asUintN_spec. Qed.
End theorems.

(** ** Witnesses *)

#[local] Instance healthy : World := fun _ => true.

(** [-2n < -4] is true for the engine. *)
Lemma float64_cmp_wrong :
  js_bigint_float64_cmp [2 ^ 64 - 2] (nearest (-4)) = -1 /\ sval w [2 ^ 64 - 2] = -2 /\
  fval (nearest (-4)) = -4 * f_scale.
Proof. split; [|split]; vm_compute; reflexivity. Qed.

Lemma long_wf : bigint_wf w [1; 2 ^ 63; 2 ^ 64 - 5].
Proof.
  split; [repeat (apply Forall_cons; split; [unfold word; lia|]); by apply Forall_nil|]. split; [done|]. right. intros [H _]. revert H. vm_compute. intros H. by apply H.
Qed.

Lemma bigint_to_float64_nearest_witness :
  is_nearest (sval w [1; 2 ^ 63; 2 ^ 64 - 5]) (js_bigint_to_float64 [1; 2 ^ 63; 2 ^ 64 - 5]).
Proof. exact (bigint_to_float64_nearest [1; 2 ^ 63; 2 ^ 64 - 5] long_wf). Defined.

Lemma bigint_from_float64_roundtrip_witness :
  fst (js_bigint_from_float64 (nearest (- 2 ^ 100)) 0%nat) = inl (0, Some [0; 2 ^ 64 - 2 ^ 36]) /\
  fval (js_bigint_to_float64 [0; 2 ^ 64 - 2 ^ 36]) = - 2 ^ 100 * f_scale.
Proof.
  assert (Hb : word 64 (nearest (- 2 ^ 100))) by (split; vm_compute; [discriminate|reflexivity]).
  destruct (bigint_from_float64_roundtrip (nearest (- 2 ^ 100)) 0%nat Hb) as [_ H].
  assert (E : fst (js_bigint_from_float64 (nearest (- 2 ^ 100)) 0%nat) = inl (0, Some [0; 2 ^ 64 - 2 ^ 36]))
    by (vm_compute; reflexivity).
  rewrite E in H. destruct H as [_ H]. split; [exact E|].
  rewrite (H _ eq_refl). vm_compute. reflexivity.
Defined.

Lemma bigint_float64_cmp_order_witness :
  js_bigint_float64_cmp [1; 2 ^ 63; 2 ^ 64 - 5] (nearest (2 ^ 120)) = -1.
Proof.
  rewrite (bigint_float64_cmp_order [1; 2 ^ 63; 2 ^ 64 - 5] (nearest (2 ^ 120)) long_wf).
  - vm_compute. reflexivity.
  - vm_compute. split; [discriminate|reflexivity].
Defined.

Lemma bigint_asUintN_range_witness :
  fst (js_bigint_asUintN 70 (ShortBigInt (-1)) false 0%nat) = inl (BigInt [2 ^ 64 - 1; 63]) /\
  sval w [2 ^ 64 - 1; 63] = (-1) mod 2 ^ 70.
Proof.
  assert (Ha : bival_wf (ShortBigInt (-1))) by (cbn; unfold sword; lia).
  destruct (bigint_asUintN_range 70 (ShortBigInt (-1)) false 0%nat Ha) as [_ H].
  - split; vm_compute; [discriminate|reflexivity].
  - assert (E : fst (js_bigint_asUintN 70 (ShortBigInt (-1)) false 0%nat) = inl (BigInt [2 ^ 64 - 1; 63]))
      by (vm_compute; reflexivity).
    rewrite E in H. destruct H as [_ H]. split; [exact E|exact H].
Defined.
