(* ===== verification/JsBigIntText.v ===== *)
(** * BigInt notation

    [js_bigint_from_string] and [js_bigint_to_string1] of [src/quickjs/quickjs.c], on
    64-bit limbs.  A string is the list of its character codes. *)
From S2P Require Export Itoa JsBigIntConv.

Local Abbreviation w := 64.

Section definitions.
Context {W : World}.

Definition JS_LIMB_DIGITS : nat := 19.

(** [js_pow_dec]. *)
Definition js_pow_dec : list Z :=
  [ 1; 10; 100; 1000; 10000; 100000; 1000000; 10000000; 100000000; 1000000000; 10000000000;
    100000000000; 1000000000000; 10000000000000; 100000000000000; 1000000000000000;
    10000000000000000; 100000000000000000; 1000000000000000000; 10000000000000000000 ].

(** The leading zeros are skipped. *)
Fixpoint skip_zeros (p : list Z) : list Z :=
  match p with c :: p' => if c =? 48 then skip_zeros p' else p | [] => [] end.

(** The digits of one limb: [v], the number [i] of digits read, and the rest. *)
Fixpoint read_limb (n : nat) (p : list Z) (v : Z) (i : nat) : Z * nat * list Z :=
  match n, p with
  | S n, c :: p' =>
      let c := to_digit c in
      if 10 <=? c then (v, i, p) else read_limb n p' (u64 (u64 (v * 10) + c)) (S i)
  | _, _ => (v, i, p)
  end.

(** The decimal loop: [tab] holds the [len] limbs written. *)
Fixpoint decimal_loop (fuel : nat) (p : list Z) (tab : list Z) : list Z :=
  match fuel with
  | O => tab
  | S fuel =>
      let '(v, i, p) := read_limb JS_LIMB_DIGITS p 0 0 in
      if (i =? 0)%nat then tab
      else
        let tab :=
          if (length tab =? 1)%nat && (tab !!! 0%nat =? 0) then [v]
          else
            let '(r, h) := mp_mul1 w tab (js_pow_dec !!! i) v in
            if negb (h =? 0) then r ++ [h] else r in
        decimal_loop fuel p tab
  end.

(** The loop of the power of two radices, from digit [i] on, the least significant digit
    first. *)
Fixpoint binary_loop (ds : list Z) (i log2_radix : Z) (tab : list Z) : list Z :=
  match ds with
  | [] => tab
  | c :: ds =>
      let c := to_digit c in
      let bit_pos := i * log2_radix in
      let shift := bit_pos .& (64 - 1) in
      let pos := Z.to_nat (bit_pos / 64) in
      let tab := <[pos := tab !!! pos .| u64 (c << shift)]> tab in
      let tab :=
        if 64 <? shift + log2_radix
        then <[S pos := tab !!! S pos .| (c >> (64 - shift))]> tab else tab in
      binary_loop ds (i + 1) log2_radix tab
  end.

(** The number of limbs allocated for the digits [p]. *)
Definition from_string_limbs (p : list Z) (radix : Z) : Z :=
  let n_digits := len p in
  let log2_radix := 32 - clz 32 (radix - 1) in
  let n_bits := if radix =? 10 then (n_digits * 27 + 7) / 8 else n_digits * log2_radix in
  Z.max 1 (n_bits / 64 + 1).

(** The limbs written. *)
Definition from_string_tab (p : list Z) (radix : Z) : list Z :=
  let log2_radix := 32 - clz 32 (radix - 1) in
  if radix =? 10 then
    let tab := decimal_loop (S (length p)) p [0] in
    if negb ((tab !!! (length tab - 1)%nat) >> 63 =? 0) then tab ++ [0] else tab
  else binary_loop (rev p) 0 log2_radix (replicate (Z.to_nat (from_string_limbs p radix)) 0).

Definition split_sign (str : list Z) : bool * list Z :=
  match str with c :: p => if c =? 45 then (true, p) else (false, str) | [] => (false, str) end.

Definition js_bigint_from_string (str : list Z) (radix : Z) : M JSBigInt :=
  let '(is_neg, p) := split_sign str in
  let p := skip_zeros p in
  if JS_BIGINT_MAX_SIZE w * 64 <? len p
  then throw (RangeError "BigInt is too large to allocate")
  else
    js_bigint_new w (from_string_limbs p radix) ;;;
    r <- js_bigint_normalize w (from_string_tab p radix) ;;
    if is_neg then js_bigint_neg w r else ret r.

(** ** To a string *)

(** [js_u64toa], backwards from [q]. *)
Definition js_u64toa (q : list Z) (n base : Z) : list Z :=
  match toa_loop 64 n base q with Some q => q | None => q end.

Fixpoint limb_to_a (q : list Z) (n radix : Z) (len : nat) : list Z :=
  match len with
  | O => q
  | S len => limb_to_a (digit_char (n mod radix) :: q) (n / radix) radix len
  end.

Definition digits_per_limb_table : list nat :=
  [ 64; 40; 32; 27; 24; 22; 21; 20; 19; 18; 17; 17; 16; 16; 16; 15; 15; 15; 14; 14; 14; 14;
    13; 13; 13; 13; 13; 13; 13; 12; 12; 12; 12; 12; 12 ]%nat.

Definition radix_base_table : list Z :=
  [ 0x0000000000000000; 0xa8b8b452291fe821; 0x0000000000000000; 0x6765c793fa10079d;
    0x41c21cb8e1000000; 0x3642798750226111; 0x8000000000000000; 0xa8b8b452291fe821;
    0x8ac7230489e80000; 0x4d28cb56c33fa539; 0x1eca170c00000000; 0x780c7372621bd74d;
    0x1e39a5057d810000; 0x5b27ac993df97701; 0x0000000000000000; 0x27b95e997e21d9f1;
    0x5da0e1e53c5c8000; 0xd2ae3299c1c4aedb; 0x16bcc41e90000000; 0x2d04b7fdd9c0ef49;
    0x5658597bcaa24000; 0xa0e2073737609371; 0x0c29e98000000000; 0x14adf4b7320334b9;
    0x226ed36478bfa000; 0x383d9170b85ff80b; 0x5a3c23e39c000000; 0x8e65137388122bcd;
    0xdd41bb36d259e000; 0x0aee5720ee830681; 0x1000000000000000; 0x172588ad4f5f0981;
    0x211e44f7d02c1000; 0x2ee56725f06e5c71; 0x41c21cb8e1000000 ].

(** The loop of the other radices: [tab] holds the [len] limbs left. *)
Fixpoint radix_loop (fuel : nat) (tab : list Z) (radix radix_base : Z) (k : nat) (q : list Z) : M (list Z) :=
  match fuel with
  | O => ret q
  | S fuel =>
      js_poll ;;;
      let tab := take (strip_len tab (length tab)) tab in
      if (length tab =? 1)%nat && (tab !!! 0%nat <? radix_base) then
        let v := tab !!! 0%nat in
        ret (if negb (v =? 0) then js_u64toa q v radix else q)
      else
        let '(tab, v) := mp_div1 w tab radix_base 0 in
        radix_loop fuel tab radix radix_base k (limb_to_a q v radix k)
  end.

(** The loop of the power of two radices, [i] being the digit written. *)
Fixpoint pow2_loop (n : nat) (i log2_radix radix : Z) (tab : list Z) (q : list Z) : list Z :=
  match n with
  | O => q
  | S n =>
      let bit_pos := u32 (i * log2_radix) in
      let pos := bit_pos / 64 in
      let shift := bit_pos mod 64 in
      let c := u32 ((tab !!! Z.to_nat pos) >> shift) in
      let c :=
        if (64 <? shift + log2_radix) && (pos + 1 <? len tab)
        then u32 (c .| u64 ((tab !!! Z.to_nat (pos + 1)) << (64 - shift))) else c in
      let c := c .& (radix - 1) in
      pow2_loop n (i + 1) log2_radix radix tab (digit_char c :: q)
  end.

Definition js_new_string8_len (buf : list Z) : M (list Z) :=
  if len buf <=? 0 then ret [] else js_alloc ;;; ret buf.

(** The string and the size of the buffer in which it was built. *)
Definition js_bigint_to_string1 (val : BigIntValue) (radix : Z) : M (list Z * Z) :=
  match val with
  | ShortBigInt v =>
      match i64toa_radix v radix with
      | Some s => s <- js_new_string8_len s ;; ret (s, 66)
      | None => throw (InternalError "buffer overflow")
      end
  | BigInt r =>
      if (length r =? 1)%nat && (r !!! 0%nat =? 0)
      then s <- js_new_string8_len [48] ;; ret (s, 1)
      else
        let is_binary_radix := radix .& (radix - 1) =? 0 in
        let is_neg := js_bigint_sign w r in
        r <- (if negb (is_neg =? 0) then js_bigint_neg w r
              else if negb is_binary_radix then js_bigint_new w (len r) ;;; ret r
              else ret r) ;;
        let log2_radix := 31 - clz 32 radix in
        let n_bits := len r * 64 - js_limb_safe_clz w (r !!! (length r - 1)%nat) in
        let n_digits := (n_bits + log2_radix - 1) / log2_radix in
        js_alloc ;;;
        q <- (if negb is_binary_radix
              then radix_loop (S (64 * length r)) r radix
                     (radix_base_table !!! Z.to_nat (radix - 2))
                     (digits_per_limb_table !!! Z.to_nat (radix - 2)) []
              else ret (pow2_loop (Z.to_nat n_digits) 0 log2_radix radix r [])) ;;
        let q := if negb (is_neg =? 0) then 45 :: q else q in
        s <- js_new_string8_len q ;;
        ret (s, n_digits + is_neg)
  end.
End definitions.

(** ** The power of two radices *)

Section pow2.

Lemma lval_testbit tab : limbs w tab -> forall i j, (i < length tab)%nat -> 0 <= j < 64 ->
  Z.testbit (lval w tab) (64 * Z.of_nat i + j) = Z.testbit (tab !!! i) j.
Proof.
  induction 1 as [|x tab Hx Ht IH]; intros i j Hi Hj; [cbn in Hi; lia|].
  cbn [lval]. rewrite (testbit_split w x) by (done || lia). destruct i as [|i].
  - replace (64 * Z.of_nat 0 + j) with j by lia. by replace (j <? w) with true by lia.
  - replace (64 * Z.of_nat (S i) + j <? w) with false by lia.
    replace (64 * Z.of_nat (S i) + j - w) with (64 * Z.of_nat i + j) by lia.
    apply IH; [cbn in Hi; lia|done].
Qed.

Lemma lval_testbit_high tab m : limbs w tab -> 64 * len tab <= m -> Z.testbit (lval w tab) m = false.
Proof.
  intros Ht Hm. pose proof (lval_range w ltac:(lia) tab Ht) as Hr.
  rewrite <- (Z.mod_small (lval w tab) (2 ^ (w * len tab))) by lia. apply Z.mod_pow2_bits_high. lia.
Qed.

Lemma u32_bits x j : 0 <= j < 32 -> Z.testbit (u32 x) j = Z.testbit x j.
Proof. intros. unfold wrap. apply Z.mod_pow2_bits_low. lia. Qed.
Lemma u64_bits x j : 0 <= j < 64 -> Z.testbit (u64 x) j = Z.testbit x j.
Proof. intros. unfold wrap. apply Z.mod_pow2_bits_low. lia. Qed.

(** The digit that [pow2_loop] extracts. *)
Lemma pow2_digit tab b i : limbs w tab -> 1 <= b <= 5 -> 0 <= i -> i * b < 64 * len tab -> i * b < 2 ^ 32 ->
  let bit_pos := u32 (i * b) in
  let pos := bit_pos / 64 in
  let shift := bit_pos mod 64 in
  let c := u32 ((tab !!! Z.to_nat pos) >> shift) in
  let c :=
    if (64 <? shift + b) && (pos + 1 <? len tab)
    then u32 (c .| u64 ((tab !!! Z.to_nat (pos + 1)) << (64 - shift))) else c in
  c .& (2 ^ b - 1) = (lval w tab / 2 ^ (b * i)) mod 2 ^ b.
Proof.
  intros Ht Hb Hi Hlt H32. cbv zeta. assert (0 <= i * b) by (apply Z.mul_nonneg_nonneg; lia).
  rewrite (wrap_small 32 (i * b)) by (unfold word; lia).
  pose proof (Z.div_mod (i * b) 64 ltac:(lia)) as Ed. pose proof (Z.mod_pos_bound (i * b) 64 ltac:(lia)) as Hsh.
  set (pos := i * b / 64) in *. set (shift := (i * b) mod 64) in *.
  assert (Hpos : 0 <= pos) by (apply Z.div_pos; lia).
  assert (Hpl : pos < len tab) by lia.
  assert (Hx : word 64 (tab !!! Z.to_nat pos)) by (apply (limbs_total w); [done|lia]).
  set (c := if _ && _ then _ else _). rewrite land_ones_mod by lia.
  apply Z.bits_inj'; intros j Hj. destruct (Z.lt_ge_cases j b) as [Hjb|Hjb].
  2: { rewrite !Z.mod_pow2_bits_high by lia. done. }
  rewrite !Z.mod_pow2_bits_low by lia. rewrite Z.div_pow2_bits by lia.
  replace (j + b * i) with (64 * pos + (shift + j)) by lia.
  assert (Hlow : Z.testbit (u32 ((tab !!! Z.to_nat pos) >> shift)) j = Z.testbit (tab !!! Z.to_nat pos) (shift + j)).
  { rewrite u32_bits, Z.shiftr_spec by lia. f_equal. lia. }
  destruct (Z.lt_ge_cases (shift + j) 64) as [Hs|Hs].
  - pose proof (lval_testbit tab Ht (Z.to_nat pos) (shift + j) ltac:(lia) ltac:(lia)) as HL.
    rewrite Z2Nat.id in HL by lia. rewrite HL, <- Hlow. unfold c. destruct (_ && _); [|done].
    rewrite u32_bits, Z.lor_spec, u64_bits by lia. rewrite (Z.shiftl_spec_low _ _ j) by lia. apply orb_false_r.
  - rewrite (word_bits_high w _ (shift + j) Hx ltac:(lia)) in Hlow.
    assert (H64 : 64 <? shift + b = true) by lia. unfold c. rewrite H64. cbn [andb].
    destruct (Z.ltb_spec (pos + 1) (len tab)) as [Hn|Hn].
    + pose proof (lval_testbit tab Ht (Z.to_nat (pos + 1)) (shift + j - 64) ltac:(lia) ltac:(lia)) as HL.
      rewrite Z2Nat.id in HL by lia. replace (64 * pos + (shift + j)) with (64 * (pos + 1) + (shift + j - 64)) by lia.
      rewrite HL. rewrite u32_bits, Z.lor_spec, Hlow, u64_bits, Z.shiftl_spec by lia. cbn [orb]. f_equal. lia.
    + rewrite Hlow. symmetry. apply lval_testbit_high; [done|lia].
Qed.

Lemma pow2_loop_pad tab b n : limbs w tab -> 1 <= b <= 5 -> 64 * len tab < 2 ^ 31 -> forall i q, 0 <= i ->
  (i + Z.of_nat n - 1) * b < 64 * len tab ->
  pow2_loop n i b (2 ^ b) tab q = pad (2 ^ b) n (lval w tab / 2 ^ (b * i)) ++ q.
Proof.
  intros Ht Hb Hbig. induction n as [|n IH]; intros i q Hi Hn; cbn [pow2_loop pad]; [done|].
  assert (Hib : i * b <= (i + Z.of_nat (S n) - 1) * b) by (apply Z.mul_le_mono_nonneg_r; lia).
  pose proof (pow2_digit tab b i Ht Hb Hi ltac:(lia) ltac:(lia)) as HD. cbv zeta in HD. rewrite HD.
  rewrite IH by (lia || (replace (i + 1 + Z.of_nat n - 1) with (i + Z.of_nat (S n) - 1) by lia; lia)).
  rewrite <- app_assoc. cbn [app]. do 2 f_equal.
  replace (b * (i + 1)) with (b * i + b) by lia. rewrite Z.pow_add_r by lia.
  by rewrite Z.div_div by (pose proof (pow2_pos (b * i)); pose proof (pow2_pos b); lia).
Qed.
End pow2.

(** ** The other radices *)

Section radix.
Context {W : World}.

Lemma limb_to_a_pad k r : forall n q, limb_to_a q n r k = pad r k n ++ q.
Proof. induction k as [|k IH]; intros n q; cbn; [done|]. by rewrite IH, <- app_assoc. Qed.

Lemma js_u64toa_show n base q : 2 <= base -> 0 <= n < 2 ^ 64 -> js_u64toa q n base = show base n ++ q.
Proof.
  intros Hb Hn. unfold js_u64toa. rewrite toa_loop_show; [done|done|lia|].
  apply show_length_le; [lia| |lia]. split; [lia|]. eapply Z.lt_le_trans; [apply Hn|]. apply Z.pow_le_mono_l. lia.
Qed.

Lemma radix_tables radix : 2 <= radix <= 36 -> radix .& (radix - 1) <> 0 ->
  let k := digits_per_limb_table !!! Z.to_nat (radix - 2) in
  radix_base_table !!! Z.to_nat (radix - 2) = radix ^ Z.of_nat k /\ 1 < radix ^ Z.of_nat k < 2 ^ 64.
Proof.
  intros Hr Hne.
  assert (HF : forallb (fun r => (r .& (r - 1) =? 0) ||
      let k := digits_per_limb_table !!! Z.to_nat (r - 2) in
      (radix_base_table !!! Z.to_nat (r - 2) =? r ^ Z.of_nat k) && (1 <? r ^ Z.of_nat k) && (r ^ Z.of_nat k <? 2 ^ 64))
    (map Z.of_nat (seq 2 35)) = true) by (vm_compute; reflexivity).
  rewrite forallb_forall in HF. specialize (HF radix). cbv zeta in *.
  assert (Hin : In radix (map Z.of_nat (seq 2 35))) by (apply in_map_iff; exists (Z.to_nat radix); rewrite in_seq; lia).
  specialize (HF Hin). lia.
Qed.

Lemma strip_value tab : limbs w tab -> tab <> [] ->
  let tab' := take (strip_len tab (length tab)) tab in
  limbs w tab' /\ tab' <> [] /\ lval w tab' = lval w tab /\
  (length tab' = 1%nat \/ 2 ^ 64 <= lval w tab).
Proof.
  intros Ht Hn. pose proof (len_ge1 tab Hn) as Hl.
  destruct (strip_len_spec w tab (length tab) ltac:(lia)) as (H1 & H2 & H3). cbv zeta.
  set (n := strip_len tab (length tab)) in *. rewrite firstn_all in H2.
  assert (HL : length (take n tab) = n) by (rewrite length_take; lia).
  split; [by apply (limbs_take w)|]. split; [intros E; rewrite E in HL; cbn in HL; lia|]. split; [done|].
  rewrite HL. destruct H3 as [H3|H3]; [by left|]. destruct (Nat.eq_dec n 1%nat) as [|Hn1]; [by left|right].
  rewrite <- H2. assert (E : take n tab = take (n - 1) tab ++ [tab !!! (n - 1)%nat]).
  { replace n with (S (n - 1)) at 1 by lia. apply take_S_snoc. lia. }
  pose proof (limbs_total w tab (n - 1) Ht ltac:(lia)) as Hx. unfold word in Hx.
  rewrite E, lval_app, length_take by lia. cbn [lval].
  pose proof (lval_range w ltac:(lia) _ (limbs_take w (n - 1) tab Ht)).
  assert (2 ^ 64 <= 2 ^ (w * Z.of_nat (Nat.min (n - 1) (length tab)))) by (apply Z.pow_le_mono_r; lia).
  set (P := 2 ^ (w * Z.of_nat _)) in *. assert (P * 1 <= P * (tab !!! (n - 1)%nat)) by (apply Z.mul_le_mono_nonneg_l; lia). lia.
Qed.

Lemma radix_loop_show radix k base : 2 <= radix -> base = radix ^ Z.of_nat k -> 1 < base < 2 ^ 64 ->
  forall fuel tab q ev, limbs w tab -> tab <> [] -> 0 < lval w tab ->
  (Z.to_nat (Z.log2 (lval w tab)) < fuel)%nat ->
  post (radix_loop fuel tab radix base k q) ev (fun s => s = show radix (lval w tab) ++ q) (fun _ => False).
Proof.
  intros Hr Eb Hb. induction fuel as [|fuel IH]; intros tab q ev Ht Hn HV Hf; [lia|]. cbn [radix_loop].
  eapply post_bind; [apply post_poll|]. intros [] ev' _.
  destruct (strip_value tab Ht Hn) as (Ht' & Hn' & HV' & Hlong). set (tab' := take _ tab) in *. rewrite <- HV' in *.
  destruct (_ && _) eqn:E.
  - apply andb_true_iff in E as [E1 E2]. apply Nat.eqb_eq in E1. apply Z.ltb_lt in E2.
    destruct tab' as [|v [|]]; [done| |done]. cbn in E2, HV |- *. rewrite Z.mul_0_r, Z.add_0_r in *.
    apply post_ret. replace (v =? 0) with false by lia. cbn [negb]. apply js_u64toa_show; lia.
  - assert (Hge : base <= lval w tab').
    { destruct Hlong as [E1|]; [|lia]. destruct tab' as [|v [|]]; [done| |done]. cbn in E |- *. rewrite Z.mul_0_r, Z.add_0_r. lia. }
    destruct (mp_div1 w tab' base 0) as [t v] eqn:ED.
    apply mp_div1_spec in ED as (E1 & Ht1 & HL & Hv); [|lia|done|unfold word; lia|lia].
    rewrite Z.mul_0_r, Z.add_0_l in E1.
    assert (HQ : 0 < lval w t).
    { pose proof (lval_range w ltac:(lia) t Ht1). destruct (Z.eq_dec (lval w t) 0) as [E0|]; [rewrite E0 in E1; lia|lia]. }
    eapply post_weaken; [apply IH; [done|destruct t; [cbn in HQ; lia|done]|done|]|cbv beta|done].
    + assert (Hlog : Z.log2 (lval w t) < Z.log2 (lval w tab')).
      { assert (H2 : lval w t * 2 <= lval w tab') by (assert (lval w t * 2 <= lval w t * base) by (apply Z.mul_le_mono_nonneg_l; lia); lia).
        apply Z.log2_le_mono in H2. rewrite Z.mul_comm, Z.log2_double in H2 by lia. lia. }
      pose proof (Z.log2_nonneg (lval w t)). lia.
    + intros s ->. rewrite limb_to_a_pad, app_assoc. f_equal. rewrite E1, Eb. symmetry. apply show_pad; [done|done|].
      rewrite <- Eb. done.
Qed.
End radix.

(** ** The notation of a BigInt *)

Section to_string.
Context {W : World}.

Lemma n_bits_log2 r : bigint_wf w r -> 0 < sval w r ->
  len r * 64 - js_limb_safe_clz w (r !!! (length r - 1)%nat) = Z.log2 (sval w r) + 1.
Proof.
  intros Hwf HV. pose proof (wf_operand w r Hwf) as [Hl Hn]. pose proof (len_ge1 r Hn) as Hlen.
  pose proof (wf_abs_lower w r Hwf) as Hlow. rewrite Z.abs_eq in Hlow by lia.
  rewrite (sval_nonneg w ltac:(lia) r Hl Hn) in * by lia.
  pose proof (total_last r Hn) as E. set (t := r !!! (length r - 1)%nat) in *. set (lo := take (length r - 1) r) in *.
  assert (Hlo : len lo = len r - 1) by (unfold lo; rewrite length_take; lia).
  assert (Ht : word 64 t) by (apply (limbs_total w); [done|lia]). unfold word in Ht.
  assert (Hlr : 0 <= lval w lo < 2 ^ (64 * (len r - 1))).
  { rewrite <- Hlo. apply lval_range; [lia|]. by apply (limbs_take w). }
  assert (EV : lval w r = lval w lo + 2 ^ (64 * (len r - 1)) * t).
  { rewrite E at 1. rewrite lval_app, Hlo by lia. cbn [lval]. lia. }
  rewrite EV in *. unfold js_limb_safe_clz. destruct (Z.eqb_spec t 0) as [E0|E0].
  - rewrite E0, Z.mul_0_r, Z.add_0_r in *.
    rewrite (Z.log2_unique (lval w lo) (64 * (len r - 1) - 1)); [lia| |].
    + destruct (Nat.eq_dec (length r) 1%nat) as [E1|]; [rewrite E1 in *; cbn in Hlr; lia|lia].
    + split; [done|]. replace (Z.succ (64 * (len r - 1) - 1)) with (64 * (len r - 1)) by lia. lia.
  - unfold js_limb_clz. rewrite clz_log2 by lia. destruct (Z.log2_spec t ltac:(lia)) as [L1 L2].
    pose proof (Z.log2_nonneg t). set (P := 2 ^ (64 * (len r - 1))) in *.
    rewrite (Z.log2_unique (lval w lo + P * t) (64 * (len r - 1) + Z.log2 t)); [lia|lia|].
    rewrite <- Z.add_succ_r, !Z.pow_add_r by lia. fold P. split.
    + assert (P * 2 ^ Z.log2 t <= P * t) by (apply Z.mul_le_mono_nonneg_l; lia). lia.
    + assert (P * (t + 1) <= P * 2 ^ Z.succ (Z.log2 t)) by (apply Z.mul_le_mono_nonneg_l; lia). lia.
Qed.

Lemma new_string8_spec buf k R : post (js_new_string8_len buf) k (fun s => s = buf) R.
Proof.
  unfold js_new_string8_len. destruct (Z.leb_spec (len buf) 0).
  - apply post_ret. by destruct buf.
  - eapply post_bind; [apply post_alloc|]. intros. by apply post_ret.
Qed.

(** [ceil(n_bits / log2_radix)] digits are enough, and exact for a power of two. *)
Lemma n_digits_enough radix V : 2 <= radix <= 36 -> 0 < V ->
  let b := 31 - clz 32 radix in
  let n := (Z.log2 V + 1 + b - 1) / b in
  1 <= b <= 5 /\ len (show radix V) <= n /\ (n - 1) * b < Z.log2 V + 1 /\
  (radix .& (radix - 1) = 0 -> radix = 2 ^ b /\ show radix V = pad radix (Z.to_nat n) V).
Proof.
  intros Hr HV b n. pose proof (Z.log2_nonneg V) as Hl. destruct (Z.log2_spec V HV) as [L1 L2].
  assert (Eb : b = Z.log2 radix) by (unfold b; rewrite clz_log2 by lia; lia).
  destruct (Z.log2_spec radix ltac:(lia)) as [R1 R2]. rewrite <- Eb in R1, R2.
  assert (Hb : 1 <= b <= 5).
  { rewrite Eb. split; [change 1 with (Z.log2 2)|change 5 with (Z.log2 36)]; apply Z.log2_le_mono; lia. }
  set (l := Z.log2 V) in *.
  assert (En : n = l / b + 1) by (unfold n; replace (l + 1 + b - 1) with (l + 1 * b) by lia; rewrite Z.div_add by lia; lia).
  pose proof (Z.div_mod l b ltac:(lia)) as Ed. pose proof (Z.mod_pos_bound l b ltac:(lia)).
  assert (Hq : 0 <= l / b) by (apply Z.div_pos; lia).
  split; [done|]. split; [|split].
  - rewrite En. apply show_length_le; [lia| |lia]. split; [lia|].
    apply Z.lt_le_trans with ((2 ^ b) ^ (l / b + 1)); [|apply Z.pow_le_mono_l; pose proof (pow2_pos b); lia].
    rewrite <- Z.pow_mul_r by lia. eapply Z.lt_le_trans; [exact L2|]. apply Z.pow_le_mono_r; lia.
  - rewrite En. lia.
  - intros E0. destruct (pow2_radix radix Hr E0) as (b' & Hb' & Er & Eb'). fold b in Eb'. subst b'.
    split; [done|]. apply show_eq_pad; [lia|done|]. rewrite Z2Nat.id, En by lia.
    rewrite Er, <- !Z.pow_mul_r by lia. split.
    + eapply Z.le_trans; [|exact L1]. apply Z.pow_le_mono_r; lia.
    + eapply Z.lt_le_trans; [exact L2|]. apply Z.pow_le_mono_r; lia.
Qed.

(** The limbs of an array that represents a bounded number. *)
Lemma represents_short v r n : represents w v r -> Z.abs v < 2 ^ (64 * n) -> 0 <= n -> len r <= n + 1.
Proof.
  intros [Hwf Hv] Hb Hn. pose proof (wf_abs_lower w r Hwf) as Hlow. rewrite Hv in Hlow.
  enough (64 * (len r - 1) - 1 < 64 * n) by lia. apply (Z.pow_lt_mono_r_iff 2); lia.
Qed.

(** The digits of a positive number. *)
Lemma digits_spec r radix k : 2 <= radix <= 36 -> bigint_wf w r -> 0 < sval w r -> 64 * len r < 2 ^ 31 ->
  let log2_radix := 31 - clz 32 radix in
  let n_digits := (len r * 64 - js_limb_safe_clz w (r !!! (length r - 1)%nat) + log2_radix - 1) / log2_radix in
  len (show radix (sval w r)) <= n_digits /\
  post (if negb (radix .& (radix - 1) =? 0)
        then radix_loop (S (64 * length r)) r radix
               (radix_base_table !!! Z.to_nat (radix - 2))
               (digits_per_limb_table !!! Z.to_nat (radix - 2)) []
        else ret (pow2_loop (Z.to_nat n_digits) 0 log2_radix radix r []))
    k (fun q => q = show radix (sval w r)) (fun _ => False).
Proof.
  intros Hr Hwf HV Hlen log2_radix n_digits. pose proof (wf_operand w r Hwf) as [Hl Hn].
  destruct (n_digits_enough radix (sval w r) Hr HV) as (Hb & Hd & Hn1 & Hp). fold log2_radix in Hb, Hd, Hn1, Hp.
  assert (En : n_digits = (Z.log2 (sval w r) + 1 + log2_radix - 1) / log2_radix).
  { unfold n_digits. by rewrite n_bits_log2. }
  rewrite <- En in Hd, Hn1, Hp. split; [done|].
  assert (Ev : sval w r = lval w r) by (apply sval_nonneg; [lia|done|done|lia]).
  pose proof (lval_range w ltac:(lia) r Hl) as Hrange.
  assert (Hlog : Z.log2 (sval w r) < 64 * len r) by (apply Z.log2_lt_pow2; lia).
  destruct (Z.eqb_spec (radix .& (radix - 1)) 0) as [E|E]; cbn [negb].
  - destruct (Hp E) as [Er Es]. apply post_ret. rewrite Es, Er.
    assert (Hnd : 0 < n_digits) by (pose proof (show_length radix ltac:(lia) (sval w r) ltac:(lia)); lia).
    rewrite (pow2_loop_pad r log2_radix (Z.to_nat n_digits)) by (done || lia || (rewrite Z2Nat.id by lia; lia)).
    rewrite app_nil_r, Z.mul_0_r. change (2 ^ 0) with 1. by rewrite Z.div_1_r, Ev.
  - destruct (radix_tables radix Hr E) as [Et Hbase]. eapply post_weaken.
    + apply (radix_loop_show radix _ _ ltac:(lia) Et); [lia|done|done|lia|]. rewrite Ev in Hlog. lia.
    + intros s ->. by rewrite app_nil_r, Ev.
    + done.
Qed.

Definition text_size (val : BigIntValue) : Prop :=
  match val with ShortBigInt _ => True | BigInt p => 64 * (len p + 1) < 2 ^ 31 end.

Lemma to_string1_spec val radix k : bival_wf val -> text_size val -> 2 <= radix <= 36 ->
  post (js_bigint_to_string1 val radix) k
    (fun '(s, size) => s = show_int radix (bival val) /\ len s <= size)
    (fun e => exists p, val = BigInt p /\ too_large w (len p) e).
Proof.
  intros Hwf Hsz Hr. destruct val as [v|r]; cbn [js_bigint_to_string1 bival bival_wf text_size] in *.
  - rewrite i64toa_radix_show by done. eapply post_bind; [apply new_string8_spec|]. intros s k' ->.
    apply post_ret. split; [done|]. pose proof (show_int_length v radix Hwf ltac:(lia)). lia.
  - rewrite (sval_zero w r Hwf). pose proof (wf_operand w r Hwf) as Ho.
    destruct (Z.eqb_spec (sval w r) 0) as [E0|E0].
    { eapply post_bind; [apply new_string8_spec|]. intros s k' ->. apply post_ret. rewrite E0.
      unfold show_int. cbn [Z.ltb Z.compare]. rewrite show_small by lia. done. }
    rewrite (js_bigint_sign_spec w r (proj1 Ho) (proj2 Ho)).
    pose proof (sval_bounds w r Ho) as Hb. unfold sword in Hb.
    assert (Habs : Z.abs (sval w r) < 2 ^ (64 * len r)).
    { pose proof (Z.pow_lt_mono_r 2 (w * len r - 1) (64 * len r)). lia. }
    eapply (post_bind _ _ _ (represents w (Z.abs (sval w r)))).
    { destruct (Z.ltb_spec (sval w r) 0) as [Hneg|Hpos]; cbn [Z.b2z Z.eqb negb].
      - replace (Z.abs (sval w r)) with (- sval w r) by lia.
        eapply post_weaken; [apply (js_bigint_neg_gen w r k Ho)|done|]. intros e He. by exists r.
      - replace (Z.abs (sval w r)) with (sval w r) by lia. destruct (negb _).
        + eapply post_bind; [|intros; by apply post_ret]. apply (post_new_weaken w). intros e He. by exists r.
        + by apply post_ret. }
    intros r' k' Hr'. pose proof (represents_short _ r' (len r) Hr' ltac:(rewrite Z.abs_involutive; exact Habs) ltac:(lia)) as Hlen.
    destruct Hr' as [Hwf' Hv']. rewrite <- Hv' in *.
    destruct (digits_spec r' radix (S k') Hr Hwf' ltac:(lia) ltac:(lia)) as [Hd _].
    eapply post_bind; [apply post_alloc|]. intros [] k2 _.
    destruct (digits_spec r' radix k2 Hr Hwf' ltac:(lia) ltac:(lia)) as [_ HD]. cbv zeta in *.
    eapply post_bind; [eapply post_weaken; [exact HD|done|done]|]. cbv beta. intros q k3 ->.
    eapply post_bind; [apply new_string8_spec|]. intros s k4 ->. apply post_ret. rewrite Hv' in *.
    unfold show_int. destruct (Z.ltb_spec (sval w r) 0); cbn [Z.b2z Z.eqb negb length].
    + replace (Z.abs (sval w r)) with (- sval w r) in * by lia. split; [done|lia].
    + replace (Z.abs (sval w r)) with (sval w r) in * by lia. split; [done|lia].
Qed.
End to_string.

(** ** Reading a notation *)

Section from_string.
Context {W : World}.

(** The characters are digits of the radix, of either case. *)
Definition digits_of (r : Z) (p : list Z) : Prop := Forall (fun c => 0 <= to_digit c < r) p.

Lemma skip_zeros_spec r p : 2 <= r -> digits_of r p ->
  digits_of r (skip_zeros p) /\ parse r (skip_zeros p) = parse r p.
Proof.
  intros Hr. induction 1 as [|c p Hc Hp IH]; cbn [skip_zeros]; [by split; [constructor|]|].
  destruct (Z.eqb_spec c 48) as [->|]; [|by split; [constructor|]]. destruct IH as [I1 I2]. split; [done|]. rewrite I2. done.
Qed.

Lemma parse_bound r p : 2 <= r -> digits_of r p -> 0 <= parse r p < r ^ len p.
Proof.
  intros Hr. induction p as [|c p IH] using rev_ind; intros Hp.
  - cbn. change (r ^ 0) with 1. lia.
  - apply Forall_app in Hp as [Hp Hc]. apply Forall_cons in Hc as [Hc _]. specialize (IH Hp).
    rewrite parse_snoc, length_app by lia. cbn [length]. rewrite Nat2Z.inj_add, Z.pow_add_r by lia.
    change (r ^ Z.of_nat 1) with (r ^ 1). rewrite Z.pow_1_r.
    assert ((parse r p + 1) * r <= r ^ len p * r) by (apply Z.mul_le_mono_nonneg_r; lia).
    assert (0 <= parse r p * r) by (apply Z.mul_nonneg_nonneg; lia). lia.
Qed.

(** *** Decimal *)

Lemma read_limb_spec n : forall p v i, digits_of 10 p -> 0 <= v < 10 ^ Z.of_nat i -> (i + n <= 19)%nat ->
  let j := Nat.min n (length p) in
  read_limb n p v i = (v * 10 ^ Z.of_nat j + parse 10 (take j p), (i + j)%nat, drop j p).
Proof.
  assert (H0 : forall p v i, (v, i, p) = (v * 10 ^ Z.of_nat 0 + parse 10 (take 0 p), (i + 0)%nat, drop 0 p)).
  { intros. rewrite take_0, drop_0, Nat.add_0_r. change (10 ^ Z.of_nat 0) with 1. cbn [parse foldl].
    by rewrite Z.mul_1_r, Z.add_0_r. }
  induction n as [|n IH]; intros p v i Hp Hv Hn j; [apply H0|].
  destruct p as [|c p]; [apply H0|].
  apply Forall_cons in Hp as [Hc Hp]. cbn [read_limb]. replace (10 <=? to_digit c) with false by lia.
  assert (Hpow : 10 ^ Z.of_nat (S i) = 10 * 10 ^ Z.of_nat i) by (rewrite Nat2Z.inj_succ, Z.pow_succ_r by lia; done).
  assert (H19 : 10 ^ Z.of_nat (S i) <= 10 ^ 19) by (apply Z.pow_le_mono_r; lia).
  assert (H64 : 10 ^ 19 < 2 ^ 64) by (vm_compute; reflexivity).
  rewrite (wrap_small 64 (v * 10)), wrap_small by (unfold word; lia).
  pose proof (IH p (v * 10 + to_digit c) (S i) Hp ltac:(lia) ltac:(lia)) as HI. cbv zeta in HI. rewrite HI.
  unfold j. cbn [length Nat.min take drop].
  set (k := Nat.min n (length p)). replace (S i + k)%nat with (i + S k)%nat by lia. do 2 f_equal.
  rewrite Nat2Z.inj_succ, Z.pow_succ_r by lia. change (c :: take k p) with ([c] ++ take k p).
  rewrite parse_app by lia. assert (Hk : length (take k p) = k) by (rewrite length_take; lia). rewrite Hk.
  cbn [parse foldl]. ring.
Qed.

Lemma pow_dec_spec i : (i <= 19)%nat -> js_pow_dec !!! i = 10 ^ Z.of_nat i.
Proof.
  intros Hi. assert (HF : forallb (fun i => js_pow_dec !!! i =? 10 ^ Z.of_nat i) (seq 0 20) = true) by (vm_compute; reflexivity).
  rewrite forallb_forall in HF. apply Z.eqb_eq, HF, in_seq. lia.
Qed.

(** An array without useless top limbs. *)
Definition trimmed (tab : list Z) : Prop :=
  limbs w tab /\ tab <> [] /\ (length tab = 1%nat \/ 2 ^ (64 * (len tab - 1)) <= lval w tab).

Lemma decimal_step tab i v : trimmed tab -> (i <= 19)%nat -> 0 <= v < 10 ^ Z.of_nat i ->
  let tab' :=
    if (length tab =? 1)%nat && (tab !!! 0%nat =? 0) then [v]
    else
      let '(r, h) := mp_mul1 w tab (js_pow_dec !!! i) v in
      if negb (h =? 0) then r ++ [h] else r in
  trimmed tab' /\ lval w tab' = lval w tab * 10 ^ Z.of_nat i + v.
Proof.
  intros (Ht & Hn & Htr) Hi Hv. pose proof (pow_dec_spec i Hi) as Ep.
  assert (H19 : 10 ^ Z.of_nat i <= 10 ^ 19) by (apply Z.pow_le_mono_r; lia).
  assert (H64 : 10 ^ 19 < 2 ^ 64) by (vm_compute; reflexivity).
  destruct (Nat.eqb_spec (length tab) 1) as [E1|E1]; cbn [andb].
  1: destruct (Z.eqb_spec (tab !!! 0%nat) 0) as [E0|E0].
  { destruct tab as [|x [|]]; [done| |done]. cbn in E0. subst x. cbn zeta. cbn [lval].
    split; [|lia]. split; [apply limbs_single; unfold word; lia|]. split; [done|by left]. }
  all: destruct (mp_mul1 w tab (js_pow_dec !!! i) v) as [r h] eqn:EM;
    (apply mp_mul1_spec in EM as (EV & Hr & HL & Hh); [|lia|done|rewrite Ep; unfold word; lia|unfold word; lia]);
    rewrite Ep in EV; cbn zeta;
    pose proof (lval_range w ltac:(lia) tab Ht) as Htab; pose proof (Z.pow_pos_nonneg 10 (Z.of_nat i) ltac:(lia) ltac:(lia)) as HP10;
    (destruct (Z.eqb_spec h 0) as [Eh|Eh]; cbn [negb];
      [rewrite Eh, Z.mul_0_r, Z.add_0_r in EV; split; [|done]; split; [done|]; split; [by destruct r, tab|]; rewrite HL
      |assert (Hlv : lval w (r ++ [h]) = lval w tab * 10 ^ Z.of_nat i + v) by (rewrite lval_app, HL by lia; cbn [lval]; lia);
       split; [|done]; split; [apply limbs_app; split; [done|by apply limbs_single]|]; split; [by destruct r|right];
       rewrite lval_app, length_app, HL by lia; cbn [length lval]; unfold word in Hh;
       pose proof (lval_range w ltac:(lia) r Hr); replace (64 * (Z.of_nat (length tab + 1) - 1)) with (w * len tab) by lia;
       assert (2 ^ (w * len tab) * 1 <= 2 ^ (w * len tab) * h) by (apply Z.mul_le_mono_nonneg_l; lia); lia]).
  - by left.
  - destruct Htr as [Htr|Htr]; [by destruct (E1 Htr)|right]. rewrite EV.
    assert (lval w tab * 1 <= lval w tab * 10 ^ Z.of_nat i) by (apply Z.mul_le_mono_nonneg_l; lia). lia.
Qed.

Lemma decimal_loop_spec fuel : forall p tab, digits_of 10 p -> trimmed tab -> (length p < fuel)%nat ->
  trimmed (decimal_loop fuel p tab) /\
  lval w (decimal_loop fuel p tab) = lval w tab * 10 ^ len p + parse 10 p.
Proof.
  induction fuel as [|fuel IH]; intros p tab Hp Ht Hf; [lia|]. cbn [decimal_loop].
  rewrite read_limb_spec by (done || (change (10 ^ Z.of_nat 0) with 1; lia) || (unfold JS_LIMB_DIGITS; lia)).
  set (j := Nat.min JS_LIMB_DIGITS (length p)). assert (Hj : (j <= 19)%nat) by (unfold j, JS_LIMB_DIGITS; lia).
  rewrite Z.mul_0_l, Z.add_0_l. cbn [Nat.add]. destruct (Nat.eqb_spec j 0) as [E|E].
  - assert (p = []) as -> by (destruct p; [done|unfold j, JS_LIMB_DIGITS in E; cbn in E; lia]).
    cbn [length]. change (10 ^ Z.of_nat 0) with 1. cbn [parse foldl]. split; [done|lia].
  - assert (HP : digits_of 10 (take j p) /\ digits_of 10 (drop j p)) by (split; [by apply Forall_take|by apply Forall_drop]).
    destruct HP as [HP1 HP2]. assert (HL : length (take j p) = j) by (rewrite length_take; lia).
    pose proof (parse_bound 10 (take j p) ltac:(lia) HP1) as HB. rewrite HL in HB.
    destruct (decimal_step tab j (parse 10 (take j p)) Ht Hj HB) as [D1 D2]. cbv zeta in *.
    destruct (IH (drop j p) _ HP2 D1) as [I1 I2]; [rewrite length_drop; lia|]. split; [done|].
    assert (Ep : parse 10 p = parse 10 (take j p) * 10 ^ len (drop j p) + parse 10 (drop j p)).
    { rewrite <- parse_app by lia. by rewrite take_drop. }
    assert (Elen : len p = Z.of_nat j + len (drop j p)) by (rewrite length_drop; unfold j; lia).
    rewrite I2, D2, Ep, Elen, Z.pow_add_r by lia. ring.
Qed.

(** [n_digits * 27 / 8] bits hold a decimal number. *)
Lemma decimal_bits n : 0 <= n -> 10 ^ n <= 2 ^ ((n * 27 + 7) / 8).
Proof.
  intros Hn. set (m := (n * 27 + 7) / 8).
  pose proof (Z.div_mod (n * 27 + 7) 8 ltac:(lia)) as E. fold m in E.
  pose proof (Z.mod_pos_bound (n * 27 + 7) 8 ltac:(lia)).
  assert (H8 : (10 ^ n) ^ 8 <= (2 ^ m) ^ 8).
  { rewrite <- !Z.pow_mul_r by lia. apply Z.le_trans with (2 ^ (27 * n)); [|apply Z.pow_le_mono_r; lia].
    rewrite (Z.mul_comm n 8), !Z.pow_mul_r by lia. apply Z.pow_le_mono_l. vm_compute. split; discriminate. }
  apply (Z.pow_le_mono_l_iff _ _ 8); [apply Z.pow_nonneg; lia|apply Z.pow_nonneg; lia|lia|done].
Qed.

(** *** Powers of two *)

Lemma lval_insert tab p v : (p < length tab)%nat ->
  lval w (<[p := v]> tab) = lval w tab + 2 ^ (64 * Z.of_nat p) * (v - tab !!! p).
Proof.
  revert p. induction tab as [|x tab IH]; intros p Hp; [cbn in Hp; lia|]. destruct p as [|p].
  - cbn. lia.
  - change (<[S p := v]> (x :: tab)) with (x :: <[p := v]> tab). cbn [lval]. rewrite IH by (cbn in Hp; lia).
    change ((x :: tab) !!! S p) with (tab !!! p).
    replace (64 * Z.of_nat (S p)) with (64 + 64 * Z.of_nat p) by lia. rewrite Z.pow_add_r by lia. ring.
Qed.

Lemma limb_le tab p : limbs w tab -> (p < length tab)%nat -> 2 ^ (64 * Z.of_nat p) * (tab !!! p) <= lval w tab.
Proof.
  intros Ht. revert p. induction Ht as [|x tab Hx Ht IH]; intros p Hp; [cbn in Hp; lia|].
  unfold word in Hx. cbn [lval]. pose proof (lval_range w ltac:(lia) tab Ht). destruct p as [|p].
  - change ((x :: tab) !!! 0%nat) with x. change (2 ^ (64 * Z.of_nat 0)) with 1. lia.
  - change ((x :: tab) !!! S p) with (tab !!! p). specialize (IH p ltac:(cbn in Hp; lia)).
    replace (64 * Z.of_nat (S p)) with (64 + 64 * Z.of_nat p) by lia. rewrite Z.pow_add_r by lia. lia.
Qed.

(** One digit [c], at [bit_pos]. *)
Lemma binary_step tab c i b : limbs w tab -> 1 <= b <= 5 -> 0 <= i -> 0 <= c < 2 ^ b ->
  lval w tab < 2 ^ (i * b) -> (i + 1) * b < 64 * len tab ->
  let bit_pos := i * b in
  let shift := bit_pos .& (64 - 1) in
  let pos := Z.to_nat (bit_pos / 64) in
  let tab' := <[pos := tab !!! pos .| u64 (c << shift)]> tab in
  let tab' :=
    if 64 <? shift + b then <[S pos := tab' !!! S pos .| (c >> (64 - shift))]> tab' else tab' in
  limbs w tab' /\ length tab' = length tab /\ lval w tab' = lval w tab + c * 2 ^ (i * b).
Proof.
  intros Ht Hb Hi Hc Hv Hfit. cbv zeta. assert (Hib : 0 <= i * b) by (apply Z.mul_nonneg_nonneg; lia).
  change (64 - 1) with (2 ^ 6 - 1). rewrite land_ones_mod by lia. change (2 ^ 6) with 64.
  pose proof (Z.div_mod (i * b) 64 ltac:(lia)) as Ed. pose proof (Z.mod_pos_bound (i * b) 64 ltac:(lia)) as Hs.
  set (pos := i * b / 64) in *. set (s := (i * b) mod 64) in *.
  assert (Hpos : 0 <= pos) by (apply Z.div_pos; lia).
  assert (Hpl : (Z.to_nat pos < length tab)%nat) by lia.
  set (P := 2 ^ (64 * pos)). assert (HP : 0 < P) by (apply pow2_pos; lia).
  assert (Epow : 2 ^ (i * b) = P * 2 ^ s) by (unfold P; rewrite <- Z.pow_add_r by lia; f_equal; lia).
  rewrite Epow in *. pose proof (pow2_pos s ltac:(lia)) as Hps.
  pose proof (limb_le tab (Z.to_nat pos) Ht Hpl) as Hx. rewrite Z2Nat.id in Hx by lia. fold P in Hx.
  pose proof (limbs_total w tab _ Ht Hpl) as Hxw. unfold word in Hxw. set (x := tab !!! Z.to_nat pos) in *.
  assert (Hxs : x < 2 ^ s) by (apply (Z.mul_lt_mono_pos_l P); lia).
  pose proof (pow2_split w s ltac:(lia)) as Hsp. change (2 ^ w) with (2 ^ 64) in Hsp.
  pose proof (pow2_pos (64 - s) ltac:(lia)) as Hp64.
  pose proof (Z.div_mod c (2 ^ (64 - s)) ltac:(lia)) as Ec. pose proof (Z.mod_pos_bound c (2 ^ (64 - s)) Hp64) as Hcm.
  assert (Ex : x .| u64 (c << s) = x + (c mod 2 ^ (64 - s)) * 2 ^ s).
  { rewrite wrap_shiftl by lia. rewrite lor_add_shiftl by (lia || (unfold word; lia)). lia. }
  rewrite Ex. set (v := x + _).
  assert (Hvw : word 64 v).
  { unfold word, v. assert ((c mod 2 ^ (64 - s) + 1) * 2 ^ s <= 2 ^ (64 - s) * 2 ^ s) by (apply Z.mul_le_mono_pos_r; lia). lia. }
  assert (Hins : limbs w (<[Z.to_nat pos := v]> tab) /\ length (<[Z.to_nat pos := v]> tab) = length tab /\
    lval w (<[Z.to_nat pos := v]> tab) = lval w tab + P * (2 ^ s * (c mod 2 ^ (64 - s)))).
  { split; [by apply Forall_insert|]. split; [apply length_insert|]. rewrite lval_insert by done.
    rewrite Z2Nat.id by lia. fold P. fold x. unfold v. ring. }
  destruct Hins as (I1 & I2 & I3). destruct (Z.ltb_spec 64 (s + b)) as [Hov|Hno].
  - assert (Hpl2 : (S (Z.to_nat pos) < length tab)%nat) by lia.
    assert (Hnext : <[Z.to_nat pos := v]> tab !!! S (Z.to_nat pos) = 0).
    { rewrite list_lookup_total_insert_ne by lia.
      pose proof (limb_le tab _ Ht Hpl2) as Hy. pose proof (limbs_total w tab _ Ht Hpl2) as Hyw. unfold word in Hyw.
      replace (64 * Z.of_nat (S (Z.to_nat pos))) with (64 * pos + 64) in Hy by lia. rewrite Z.pow_add_r in Hy by lia. fold P in Hy.
      set (y := tab !!! S (Z.to_nat pos)) in *. destruct (Z.eq_dec y 0); [done|].
      assert (2 ^ s <= 2 ^ 64) by (apply Z.pow_le_mono_r; lia).
      assert (P * 2 ^ 64 * 1 <= P * 2 ^ 64 * y) by (apply Z.mul_le_mono_nonneg_l; lia).
      assert (P * 2 ^ s <= P * 2 ^ 64) by (apply Z.mul_le_mono_nonneg_l; lia). lia. }
    rewrite Hnext, Z.lor_0_l, shiftr_div by lia.
    assert (Hq : word 64 (c / 2 ^ (64 - s))).
    { unfold word. split; [apply Z.div_pos; lia|]. apply Z.le_lt_trans with c; [apply Z.div_le_upper_bound; [done|]|].
      - assert (1 * c <= 2 ^ (64 - s) * c) by (apply Z.mul_le_mono_nonneg_r; lia). lia.
      - assert (2 ^ b <= 2 ^ 5) by (apply Z.pow_le_mono_r; lia). lia. }
    split; [by apply Forall_insert|]. split; [rewrite length_insert; lia|].
    rewrite lval_insert by (rewrite I2; lia). rewrite Hnext, I3.
    replace (64 * Z.of_nat (S (Z.to_nat pos))) with (64 * pos + 64) by lia. rewrite Z.pow_add_r by lia. fold P.
    rewrite Hsp. rewrite Ec at 3. ring.
  - split; [done|]. split; [done|]. rewrite I3. rewrite Z.mod_small; [ring|]. split; [lia|].
    eapply Z.lt_le_trans; [apply Hc|]. apply Z.pow_le_mono_r; lia.
Qed.

Lemma binary_loop_spec b ds : 1 <= b <= 5 -> digits_of (2 ^ b) ds -> forall i tab, limbs w tab -> 0 <= i ->
  lval w tab < 2 ^ (i * b) -> (i + len ds) * b < 64 * len tab ->
  let tab' := binary_loop ds i b tab in
  limbs w tab' /\ length tab' = length tab /\ lval w tab' = lval w tab + parse (2 ^ b) (rev ds) * 2 ^ (i * b).
Proof.
  intros Hb. induction 1 as [|c ds Hc Hds IH]; intros i tab Ht Hi Hv Hfit tab'.
  { unfold tab'. cbn. split; [done|]. split; [done|lia]. }
  unfold tab'. clear tab'. cbn [binary_loop]. cbn [length] in Hfit.
  assert (Hi1 : (i + 1) * b <= (i + Z.of_nat (S (length ds))) * b) by (apply Z.mul_le_mono_nonneg_r; lia).
  destruct (binary_step tab (to_digit c) i b Ht Hb Hi Hc Hv ltac:(lia)) as (S1 & S2 & S3). cbv zeta in S1, S2, S3.
  assert (Hib : 0 <= i * b) by (apply Z.mul_nonneg_nonneg; lia). pose proof (pow2_pos (i * b) Hib) as HP.
  assert (Ep : 2 ^ ((i + 1) * b) = 2 ^ (i * b) * 2 ^ b) by (rewrite <- Z.pow_add_r by lia; f_equal; lia).
  destruct (IH (i + 1) _ S1 ltac:(lia)) as (I1 & I2 & I3).
  - rewrite S3, Ep. assert ((to_digit c + 1) * 2 ^ (i * b) <= 2 ^ b * 2 ^ (i * b)) by (apply Z.mul_le_mono_pos_r; lia). lia.
  - rewrite S2. replace (i + 1 + len ds) with (i + Z.of_nat (S (length ds))) by lia. lia.
  - split; [done|]. split; [congruence|]. rewrite I3, S3. cbn [rev]. rewrite parse_snoc by (pose proof (Z.pow_le_mono_r 2 1 b); lia).
    rewrite Ep. ring.
Qed.

(** *** The limbs of the number *)

Lemma sval_positive tab : limbs w tab -> tab <> [] -> lval w tab < 2 ^ (64 * len tab - 1) -> sval w tab = lval w tab.
Proof.
  intros Ht Hn Hv. apply (sval_unique w ltac:(lia) _ _ 0); [done| |lia].
  unfold sword. pose proof (lval_range w ltac:(lia) tab Ht). pose proof (pow2_pos (64 * len tab - 1)).
  destruct tab; [done|]. cbn [length] in *. lia.
Qed.

(** The radices of the literals, and the bits of a digit. *)
Definition literal_radix (r : Z) : Prop := r = 2 \/ r = 8 \/ r = 10 \/ r = 16.

Lemma literal_bits r : literal_radix r -> r <> 10 ->
  exists b, 32 - clz 32 (r - 1) = b /\ 1 <= b <= 5 /\ r = 2 ^ b.
Proof.
  intros [->|[->|[->| ->]]] Hr; try done.
  - exists 1. split; [vm_compute|]; done.
  - exists 3. split; [vm_compute|]; done.
  - exists 4. split; [vm_compute|]; done.
Qed.

(** The array fits the allocation and denotes the digits. *)
Lemma from_string_tab_spec r p : literal_radix r -> digits_of r p ->
  operand w (from_string_tab p r) /\ len (from_string_tab p r) <= from_string_limbs p r /\
  sval w (from_string_tab p r) = parse r p.
Proof.
  intros Hr Hp. assert (Hr2 : 2 <= r) by (destruct Hr as [|[|[|]]]; lia).
  pose proof (parse_bound r p Hr2 Hp) as HB. unfold from_string_tab, from_string_limbs.
  destruct (Z.eqb_spec r 10) as [->|Hne].
  - pose proof (decimal_bits (len p) ltac:(lia)) as HD. set (nb := (len p * 27 + 7) / 8) in *.
    assert (Hnb : 0 <= nb) by (apply Z.div_pos; lia).
    assert (Ht0 : trimmed [0]) by (split; [apply limbs_single; unfold word; lia|split; [done|by left]]).
    destruct (decimal_loop_spec (S (length p)) p [0] Hp Ht0 ltac:(lia)) as [(D1 & D2 & D3) D4].
    set (tab := decimal_loop _ _ _) in *. change (lval w [0]) with 0 in D4. rewrite Z.mul_0_l, Z.add_0_l in D4.
    pose proof (Z.div_mod nb 64 ltac:(lia)) as E64. pose proof (Z.mod_pos_bound nb 64 ltac:(lia)).
    destruct (nonempty_snoc tab D2) as (l & x & El).
    assert (Hx : tab !!! (length tab - 1)%nat = x).
    { rewrite El, length_app. cbn [length]. replace (length l + 1 - 1)%nat with (length l) by lia.
      by rewrite lookup_total_app_r, Nat.sub_diag by lia. }
    assert (Hlx : limbs w l /\ word w x) by (rewrite El in D1; apply limbs_app in D1 as [? ?%limbs_single]; done).
    destruct Hlx as [Hl Hxw]. unfold word in Hxw. pose proof (lval_range w ltac:(lia) l Hl) as Hlr.
    assert (EL : len tab = len l + 1) by (rewrite El, length_app; cbn; lia).
    assert (Etab : lval w tab = lval w l + 2 ^ (w * len l) * x) by (rewrite El, lval_app by lia; cbn [lval]; lia).
    rewrite Hx, shiftr_div by lia. pose proof (pow2_pos (64 * len l) ltac:(lia)) as HPl.
    assert (Hlen : len tab <= nb / 64 + 1).
    { destruct D3 as [D3|D3]; [rewrite D3; pose proof (Z.div_pos nb 64); lia|].
      assert (64 * (len tab - 1) < nb) by (apply (Z.pow_lt_mono_r_iff 2); lia). lia. }
    destruct (Z.eqb_spec (x / 2 ^ 63) 0) as [Ex|Ex]; cbn [negb].
    + split; [by split|]. split; [lia|]. rewrite <- D4. apply sval_positive; [done|done|]. rewrite Etab, EL.
      apply Z.div_small_iff in Ex; [|lia]. destruct Ex as [Ex|]; [|lia].
      replace (64 * (len l + 1) - 1) with (64 * len l + 63) by lia. rewrite Z.pow_add_r by lia.
      assert (2 ^ (64 * len l) * (x + 1) <= 2 ^ (64 * len l) * 2 ^ 63) by (apply Z.mul_le_mono_nonneg_l; lia). lia.
    + assert (Hx63 : 2 ^ 63 <= x).
      { destruct (Z.lt_ge_cases x (2 ^ 63)); [|done]. rewrite Z.div_small in Ex by lia. done. }
      assert (Hbig : 2 ^ (64 * len l + 63) <= lval w tab).
      { rewrite Etab, Z.pow_add_r by lia. assert (2 ^ (64 * len l) * 2 ^ 63 <= 2 ^ (64 * len l) * x) by (apply Z.mul_le_mono_nonneg_l; lia). lia. }
      assert (64 * len l + 63 < nb) by (apply (Z.pow_lt_mono_r_iff 2); lia).
      split; [split; [apply limbs_app; split; [done|apply limbs_single; unfold word; lia]|by destruct tab]|].
      split; [rewrite length_app; cbn [length]; lia|].
      rewrite sval_snoc by (done || unfold word; lia). change (swrap w 0) with 0. rewrite Z.mul_0_r. lia.
  - destruct (literal_bits r Hr Hne) as (b & Eb & Hb & Er). rewrite Eb. set (nl := Z.max 1 (len p * b / 64 + 1)).
    assert (Hlb : 0 <= len p * b) by (apply Z.mul_nonneg_nonneg; lia).
    assert (Hnl : 1 <= nl) by lia. assert (HL : len (replicate (Z.to_nat nl) 0) = nl) by (rewrite length_replicate; lia).
    assert (Hfit : len p * b < 64 * nl).
    { pose proof (Z.div_mod (len p * b) 64 ltac:(lia)). pose proof (Z.mod_pos_bound (len p * b) 64 ltac:(lia)). lia. }
    destruct (binary_loop_spec b (rev p) Hb) with (i := 0) (tab := replicate (Z.to_nat nl) 0) as (B1 & B2 & B3).
    + rewrite <- Er. by apply Forall_rev.
    + apply limbs_zeros. lia.
    + lia.
    + rewrite lval_zeros, Z.mul_0_l by lia. lia.
    + rewrite HL, length_rev. lia.
    + assert (HLb : len (binary_loop (rev p) 0 b (replicate (Z.to_nat nl) 0)) = nl) by lia.
      rewrite rev_involutive, <- Er, lval_zeros, Z.mul_0_l, Z.pow_0_r, Z.mul_1_r, Z.add_0_l in B3 by lia.
      assert (HN : binary_loop (rev p) 0 b (replicate (Z.to_nat nl) 0) <> []) by (intros E; rewrite E in HLb; cbn in HLb; lia).
      split; [by split|]. split; [lia|]. rewrite <- B3. apply sval_positive; [done|done|].
      rewrite HLb, B3. eapply Z.lt_le_trans; [apply HB|]. rewrite Er, <- Z.pow_mul_r by lia. apply Z.pow_le_mono_r; lia.
Qed.

(** A normalized array is not longer than another array of its value. *)
Lemma represents_len v r tab : represents w v r -> operand w tab -> sval w tab = v -> len r <= len tab.
Proof.
  intros [(Hl & Hn & Hm) Hv] Ho Ev. pose proof (sval_bounds w tab Ho) as HB. pose proof (len_ge1 tab (proj2 Ho)).
  destruct Hm as [Hm|Hm]; [lia|]. destruct (Z.le_gt_cases (len r) (len tab)) as [|Hgt]; [done|].
  destruct Hm. rewrite Hv, <- Ev. unfold sword in *.
  assert (2 ^ (w * len tab - 1) <= 2 ^ (w * (len r - 1) - 1)) by (apply Z.pow_le_mono_r; lia). lia.
Qed.

(** A number of more than 2^20 digits does not fit the allocation. *)
Lemma many_digits r p : literal_radix r -> JS_BIGINT_MAX_SIZE w * 64 < len p ->
  JS_BIGINT_MAX_SIZE w < from_string_limbs p r.
Proof.
  intros Hr. change (JS_BIGINT_MAX_SIZE w) with 16384. intros Hp. unfold from_string_limbs.
  destruct (Z.eqb_spec r 10) as [|Hne].
  - assert (len p <= (len p * 27 + 7) / 8) by (apply Z.div_le_lower_bound; lia).
    assert (16384 <= (len p * 27 + 7) / 8 / 64) by (apply Z.div_le_lower_bound; lia). lia.
  - destruct (literal_bits r Hr Hne) as (b & -> & Hb & _).
    assert (len p * 1 <= len p * b) by (apply Z.mul_le_mono_nonneg_l; lia).
    assert (16384 <= len p * b / 64) by (apply Z.div_le_lower_bound; lia). lia.
Qed.

Lemma parse_int_sign r str :
  parse_int r str = let '(is_neg, p) := split_sign str in if is_neg then - parse r p else parse r p.
Proof.
  destruct str as [|c p]; [done|]. cbn [split_sign]. destruct (Z.eqb_spec c 45) as [->|Hc]; [done|].
  unfold parse_int. repeat case_match; simplify_eq; done.
Qed.

(** The limbs allocated for the digits of a signed string. *)
Definition needed_limbs (r : Z) (str : list Z) : Z := from_string_limbs (skip_zeros (snd (split_sign str))) r.

Lemma from_string_spec str r k : literal_radix r -> digits_of r (snd (split_sign str)) ->
  post (js_bigint_from_string str r) k (represents w (parse_int r str)) (too_large w (needed_limbs r str)).
Proof.
  intros Hr Hd. rewrite parse_int_sign. unfold js_bigint_from_string, needed_limbs. destruct (split_sign str) as [is_neg p]. cbn [snd] in *.
  assert (Hr2 : 2 <= r) by (destruct Hr as [|[|[|]]]; lia).
  destruct (skip_zeros_spec r p Hr2 Hd) as [Hd' <-]. set (p' := skip_zeros p) in *.
  destruct (Z.ltb_spec (JS_BIGINT_MAX_SIZE w * 64) (len p')) as [Hbig|_].
  { apply post_throw. split; [done|]. by apply many_digits. }
  destruct (from_string_tab_spec r p' Hr Hd') as (Ho & Hlen & Ev).
  eapply post_bind; [apply post_new|]. intros u k1 Hmax. cbv beta in Hmax.
  eapply post_bind; [apply (js_bigint_normalize_spec w _ _ _ Ho)|]. intros r1 k2 Hr1.
  destruct is_neg; [|apply post_ret; by rewrite <- Ev].
  pose proof (represents_len _ _ _ Hr1 Ho eq_refl) as Hl1. destruct Hr1 as [Hwf1 Hv1].
  eapply post_weaken; [apply (js_bigint_neg_gen w r1 k2 (wf_operand w r1 Hwf1))| |].
  - intros x Hx. by rewrite <- Ev, <- Hv1.
  - intros e [_ He]. lia.
Qed.

(** *** Reading back what was printed *)

Lemma show_int_digits r v : 2 <= r <= 36 -> split_sign (show_int r v) = (v <? 0, show r (Z.abs v)) /\ digits_of r (show r (Z.abs v)).
Proof.
  intros Hr. pose proof (show_digits r ltac:(lia) (Z.abs v) ltac:(lia)) as HD.
  assert (Hd : digits_of r (show r (Z.abs v))).
  { apply (Forall_impl _ _ _ HD). intros c (d & Hd & ->). rewrite to_digit_char; lia. }
  split; [|done]. unfold show_int. destruct (Z.ltb_spec v 0).
  - cbn [split_sign Z.eqb Pos.eqb]. do 2 f_equal. lia.
  - replace (Z.abs v) with v in * by lia. destruct (show r v) as [|c s]; [done|]. cbn [split_sign].
    apply Forall_cons in HD as [(d & Hd' & ->) _]. unfold digit_char. zcases; try lia; done.
Qed.

Lemma skip_zeros_length p : (length (skip_zeros p) <= length p)%nat.
Proof. induction p as [|c p IH]; cbn [skip_zeros length]; [lia|]. destruct (c =? 48); cbn [length]; lia. Qed.

(** Printed arrays of at most 16000 limbs can be read again. *)
Lemma needed_limbs_show r v l : literal_radix r -> 1 <= l <= 16000 -> Z.abs v < 2 ^ (64 * l) ->
  needed_limbs r (show_int r v) <= JS_BIGINT_MAX_SIZE w.
Proof.
  intros Hr Hl Hv. assert (Hr36 : 2 <= r <= 36) by (destruct Hr as [|[|[|]]]; lia).
  unfold needed_limbs. rewrite (proj1 (show_int_digits r v Hr36)). cbn [snd].
  pose proof (skip_zeros_length (show r (Z.abs v))) as Hs. set (p := skip_zeros _) in *.
  destruct (show_length r ltac:(lia) (Z.abs v) ltac:(lia)) as (L1 & L2 & _). set (n := len (show r (Z.abs v))) in *.
  assert (Hn : r ^ (n - 1) < 2 ^ (64 * l)).
  { destruct (Z.eq_dec v 0) as [->|]; [|specialize (L2 ltac:(lia)); lia]. unfold n. rewrite show_small by lia.
    change (r ^ (len [digit_char (Z.abs 0)] - 1)) with 1. pose proof (pow2_split (64 * l) 1 ltac:(lia)).
    pose proof (pow2_pos (64 * l - 1) ltac:(lia)). lia. }
  change (JS_BIGINT_MAX_SIZE w) with 16384. unfold from_string_limbs. destruct (Z.eqb_spec r 10) as [->|Hne].
  - assert (H25 : 2 ^ (83 * (n - 1)) < 2 ^ (64 * l * 25)).
    { apply Z.le_lt_trans with ((10 ^ (n - 1)) ^ 25).
      - rewrite <- Z.pow_mul_r, (Z.mul_comm _ 25), !Z.pow_mul_r by lia. apply Z.pow_le_mono_l. vm_compute. split; discriminate.
      - rewrite (Z.pow_mul_r 2 (64 * l)) by lia. apply Z.pow_lt_mono_l; [lia|]. split; [apply Z.pow_nonneg; lia|done]. }
    apply Z.pow_lt_mono_r_iff in H25; [|lia..].
    assert ((len p * 27 + 7) / 8 / 64 <= 16300) by (apply Z.div_le_upper_bound; [lia|]; apply Z.div_le_upper_bound; lia). lia.
  - destruct (literal_bits r Hr Hne) as (b & -> & Hb & Er).
    assert (b * (n - 1) < 64 * l) by (rewrite Er, <- Z.pow_mul_r in Hn by lia; apply Z.pow_lt_mono_r_iff in Hn; lia).
    assert (len p * b <= n * b) by (apply Z.mul_le_mono_nonneg_r; lia).
    assert (len p * b / 64 <= l + 1) by (apply Z.div_le_upper_bound; lia). lia.
Qed.

Lemma roundtrip_spec r radix k : bigint_wf w r -> literal_radix radix -> len r <= 16000 ->
  post (s <- js_bigint_to_string1 (BigInt r) radix ;; js_bigint_from_string (fst s) radix) k
    (fun r' => represents w (sval w r) r') (fun _ => False).
Proof.
  intros Hwf Hr Hlen. assert (Hr36 : 2 <= radix <= 36) by (destruct Hr as [|[|[|]]]; lia).
  pose proof (wf_operand w r Hwf) as Ho. pose proof (len_ge1 r (proj2 Ho)).
  pose proof (sval_bounds w r Ho) as HB. unfold sword in HB.
  pose proof (pow2_half (w * len r) ltac:(lia)). pose proof (pow2_pos (w * len r - 1) ltac:(lia)).
  eapply (post_bind _ _ _ (fun '(s, size) => s = show_int radix (sval w r) /\ len s <= size)).
  { eapply post_weaken; [apply (to_string1_spec (BigInt r) radix k Hwf)|done|]; [cbn; lia|lia|].
    intros e (p & [= <-] & _ & He). change (JS_BIGINT_MAX_SIZE w) with 16384 in He. lia. }
  intros [s size] k' [-> _]. cbn [fst]. destruct (show_int_digits radix (sval w r) Hr36) as [Hs Hd].
  eapply post_weaken; [apply from_string_spec; [done|by rewrite Hs]| |].
  - intros r' Hr'. by rewrite parse_show_int in Hr'.
  - intros e [_ He]. assert (Habs : Z.abs (sval w r) < 2 ^ (64 * len r)) by lia.
    pose proof (needed_limbs_show radix (sval w r) (len r) Hr ltac:(lia) Habs). lia.
Qed.
End from_string.

(** ** Properties *)

(** C12: in every radix from 2 to 36, [js_bigint_to_string1] gives the notation of the
    number, with no leading zero, written inside the buffer that it allocates, whatever
    the allocation or the interrupt that fails; the only exception of its own is for an
    array longer than the engine allocates. *)
Theorem bigint_to_string_show {W : World} val radix k :
  bival_wf val -> text_size val -> 2 <= radix <= 36 ->
  post (js_bigint_to_string1 val radix) k
    (fun '(s, size) => s = show_int radix (bival val) /\ len s <= size)
    (fun e => exists p, val = BigInt p /\ too_large w (len p) e).
Proof. apply to_string1_spec. Qed.

(** C13: from an optional sign and digits in radix 2, 8, 10 or 16, leading zeros
    included, [js_bigint_from_string] returns the normalized number that they denote;
    the limbs written fit the array allocated for them, and it throws only when that
    array is longer than the engine allows. *)
Theorem bigint_from_string_value {W : World} str radix k :
  literal_radix radix -> digits_of radix (snd (split_sign str)) ->
  post (js_bigint_from_string str radix) k
    (represents w (parse_int radix str)) (too_large w (needed_limbs radix str)) /\
  (let p := skip_zeros (snd (split_sign str)) in
   len (from_string_tab p radix) <= needed_limbs radix str).
Proof.
  intros Hr Hd. split; [by apply from_string_spec|]. cbv zeta. unfold needed_limbs.
  apply from_string_tab_spec; [done|]. apply skip_zeros_spec; [destruct Hr as [|[|[|]]]; lia|done].
Qed.

(** A number of at most 16000 limbs, printed in radix 2, 8, 10 or 16 and read
    back, is the same number; only the failure of an allocation or an interrupt can
    prevent it. *)
Theorem bigint_text_roundtrip {W : World} r radix k :
  bigint_wf w r -> literal_radix radix -> len r <= 16000 ->
  post (s <- js_bigint_to_string1 (BigInt r) radix ;; js_bigint_from_string (fst s) radix) k
    (represents w (sval w r)) (fun _ => False).
Proof. apply roundtrip_spec. Qed.

#[local] Instance healthy : World := fun _ => true.

(** -(2^64 + 255) in base 16 is "-100000000000000ff". *)
Lemma bigint_to_string_show_witness :
  fst (js_bigint_to_string1 (BigInt [2 ^ 64 - 255; 2 ^ 64 - 2]) 16 0%nat) =
    inl (45 :: 49 :: replicate 14 48 ++ [102; 102], 18) /\
  post (js_bigint_to_string1 (BigInt [2 ^ 64 - 255; 2 ^ 64 - 2]) 16) 0%nat
    (fun '(s, size) => s = show_int 16 (bival (BigInt [2 ^ 64 - 255; 2 ^ 64 - 2])) /\ len s <= size)
    (fun e => exists p, BigInt [2 ^ 64 - 255; 2 ^ 64 - 2] = BigInt p /\ too_large w (len p) e).
Proof.
  split; [vm_compute; reflexivity|]. apply bigint_to_string_show.
  - split; [repeat constructor; unfold word; lia|]. split; [done|]. right. unfold sword. vm_compute. intros []; congruence.
  - cbn. lia.
  - lia.
Defined.

(** "-000" followed by the digits of 2^65. *)
Lemma bigint_from_string_value_witness :
  fst (js_bigint_from_string ([45; 48; 48; 48] ++ show 10 (2 ^ 65)) 10 0%nat) = inl [0; 2 ^ 64 - 2] /\
  post (js_bigint_from_string ([45; 48; 48; 48] ++ show 10 (2 ^ 65)) 10) 0%nat
    (represents w (parse_int 10 ([45; 48; 48; 48] ++ show 10 (2 ^ 65))))
    (too_large w (needed_limbs 10 ([45; 48; 48; 48] ++ show 10 (2 ^ 65)))).
Proof.
  split; [vm_compute; reflexivity|]. apply bigint_from_string_value.
  - right; right; by left.
  - vm_compute. repeat constructor; done.
Defined.

Lemma bigint_text_roundtrip_witness :
  fst ((s <- js_bigint_to_string1 (BigInt [5; 2 ^ 63]) 10 ;; js_bigint_from_string (fst s) 10) 0%nat) = inl [5; 2 ^ 63] /\
  post (s <- js_bigint_to_string1 (BigInt [5; 2 ^ 63]) 10 ;; js_bigint_from_string (fst s) 10) 0%nat
    (represents w (sval w [5; 2 ^ 63])) (fun _ => False).
Proof.
  split; [vm_compute; reflexivity|]. apply bigint_text_roundtrip.
  - split; [repeat constructor; unfold word; lia|]. split; [done|]. right. unfold sword. vm_compute. intros []; congruence.
  - right; right; by left.
  - cbn. lia.
Defined.
