(* ===== verification/Shapes.v ===== *)
(** * Shapes and properties

    The properties of ordinary objects: [JSShape], [JSShapeProperty] and [JSObject.prop]
    of [src/quickjs/quickjs.c], the hash table of the property names of a shape, and the
    hash table of the runtime through which objects with the same properties share a
    shape.

    [None] is an access out of an array or through a dangling pointer, a failed assertion
    or a loop that does not end.  A failed allocation is an outcome of its own.  The
    reference counts of the atoms and of the prototypes that the shapes hold are kept as
    functions; the values of the properties are abstract, and the garbage collector is the
    subject of [Gc]. *)
From stdpp Require Export functions.
From S2P Require Export LinkedList Engine.

Definition JS_ATOM_NULL : Z := 0.
Definition JS_PROP_CONFIGURABLE : Z := 1.
Definition JS_PROP_INITIAL_SIZE : Z := 2.
Definition JS_PROP_INITIAL_HASH_SIZE : Z := 4.

(** ** One shape *)

(** [hash_next] has 26 bits and [flags] 6. *)
Record JSShapeProperty := mkPr { hash_next : Z; flags : Z; atom : Z }.

(** An entry that is not free. *)
Definition live (p : JSShapeProperty) : Prop := atom p <> JS_ATOM_NULL.
#[export] Instance live_dec p : Decision (live p).
Proof. unfold live. apply _. Defined.

(** [shape_prop] holds the [prop_count] first entries of the array. *)
Record JSShape := mkShape {
  sh_ref_count : Z;
  is_hashed : bool;
  hash : Z;
  prop_hash_mask : Z;
  hash_table : list Z;
  prop_size : Z;
  shape_prop : list JSShapeProperty;
  deleted_prop_count : Z;
  proto : option ptr
}.

Definition prop_count (sh : JSShape) : Z := len (shape_prop sh).

Definition with_ref_count n sh := mkShape n (is_hashed sh) (hash sh) (prop_hash_mask sh) (hash_table sh)
  (prop_size sh) (shape_prop sh) (deleted_prop_count sh) (proto sh).
Definition with_hashed b sh := mkShape (sh_ref_count sh) b (hash sh) (prop_hash_mask sh) (hash_table sh)
  (prop_size sh) (shape_prop sh) (deleted_prop_count sh) (proto sh).
Definition with_hash h sh := mkShape (sh_ref_count sh) (is_hashed sh) h (prop_hash_mask sh) (hash_table sh)
  (prop_size sh) (shape_prop sh) (deleted_prop_count sh) (proto sh).
Definition with_props tab pr sh := mkShape (sh_ref_count sh) (is_hashed sh) (hash sh) (prop_hash_mask sh) tab
  (prop_size sh) pr (deleted_prop_count sh) (proto sh).
Definition with_proto p sh := mkShape (sh_ref_count sh) (is_hashed sh) (hash sh) (prop_hash_mask sh) (hash_table sh)
  (prop_size sh) (shape_prop sh) (deleted_prop_count sh) p.

Definition find_bucket (sh : JSShape) (a : Z) : nat := Z.to_nat (a .& prop_hash_mask sh).

(** The loop of [find_own_property]: the index of the entry. *)
Fixpoint find_loop (fuel : nat) (pr : list JSShapeProperty) (h a : Z) : option (option nat) :=
  if h =? 0 then Some None
  else
    match fuel with
    | O => None
    | S fuel =>
        p ← pr !! Z.to_nat (h - 1);
        if atom p =? a then Some (Some (Z.to_nat (h - 1))) else find_loop fuel pr (hash_next p) a
    end.

Definition find_own_property1 (sh : JSShape) (a : Z) : option (option nat) :=
  h ← hash_table sh !! find_bucket sh a;
  find_loop (length (shape_prop sh)) (shape_prop sh) h a.

(** The entries of [pr], which start at the index [i], are inserted in the table. *)
Fixpoint rehash (mask i : Z) (pr : list JSShapeProperty) (tab : list Z) : option (list JSShapeProperty * list Z) :=
  match pr with
  | [] => Some ([], tab)
  | p :: pr =>
      if atom p =? JS_ATOM_NULL then '(pr, tab) ← rehash mask (i + 1) pr tab; Some (p :: pr, tab)
      else
        let h := Z.to_nat (atom p .& mask) in
        old ← tab !! h;
        '(pr, tab) ← rehash mask (i + 1) pr (<[h := i + 1]> tab);
        Some (mkPr (wrap 26 old) (flags p) (atom p) :: pr, tab)
  end.

(** [memset(hash_table, 0)]. *)
Definition empty_table (size : Z) : list Z := replicate (Z.to_nat size) 0.

(** [while (new_hash_size < new_size) new_hash_size = 2 * new_hash_size]. *)
Fixpoint grow_hash_size (fuel : nat) (new_hash_size new_size : Z) : option Z :=
  if new_hash_size <? new_size then
    match fuel with O => None | S fuel => grow_hash_size fuel (2 * new_hash_size) new_size end
  else Some new_hash_size.

(** [while ((new_hash_size / 2) >= new_size) new_hash_size = new_hash_size / 2]. *)
Fixpoint shrink_hash_size (fuel : nat) (new_hash_size new_size : Z) : option Z :=
  if new_size <=? new_hash_size / 2 then
    match fuel with O => None | S fuel => shrink_hash_size fuel (new_hash_size / 2) new_size end
  else Some new_hash_size.

(** The copy of [sh] in [resize_properties], with the reference count 1. *)
Definition resized_shape (sh : JSShape) (new_size : Z) : option JSShape :=
  new_hash_size ← grow_hash_size 32 (prop_hash_mask sh + 1) new_size;
  if negb (new_hash_size =? prop_hash_mask sh + 1) then
    let mask := new_hash_size - 1 in
    '(pr, tab) ← rehash mask 0 (shape_prop sh) (empty_table new_hash_size);
    Some (mkShape 1 (is_hashed sh) (hash sh) mask tab new_size pr (deleted_prop_count sh) (proto sh))
  else
    Some (mkShape 1 (is_hashed sh) (hash sh) (prop_hash_mask sh) (hash_table sh) new_size (shape_prop sh)
      (deleted_prop_count sh) (proto sh)).

(** The copy of [sh] in [compact_properties]. *)
Definition compacted_size (sh : JSShape) : Z :=
  Z.max JS_PROP_INITIAL_SIZE (prop_count sh - deleted_prop_count sh).
Definition compacted_shape (sh : JSShape) : option JSShape :=
  let new_size := compacted_size sh in
  new_hash_size ← shrink_hash_size 32 (prop_hash_mask sh + 1) new_size;
  let mask := new_hash_size - 1 in
  '(pr, tab) ← rehash mask 0 (filter live (shape_prop sh)) (empty_table new_hash_size);
  guard (len pr = prop_count sh - deleted_prop_count sh);;
  Some (mkShape 1 (is_hashed sh) (hash sh) mask tab new_size pr 0 (proto sh)).

(** The end of [add_shape_property]. *)
Definition append_property (sh : JSShape) (a prop_flags : Z) : option JSShape :=
  guard (prop_count sh < prop_size sh);;
  let h := find_bucket sh a in
  old ← hash_table sh !! h;
  Some (with_props (<[h := prop_count sh + 1]> (hash_table sh))
    (shape_prop sh ++ [mkPr (wrap 26 old) (wrap 6 prop_flags) a]) sh).

(** The loop of [delete_property]: the entry and the one before it in the list. *)
Fixpoint find_delete (fuel : nat) (pr : list JSShapeProperty) (h a : Z) (lpr : option nat) :
    option (option (nat * option nat)) :=
  if h =? 0 then Some None
  else
    match fuel with
    | O => None
    | S fuel =>
        p ← pr !! Z.to_nat (h - 1);
        if atom p =? a then Some (Some (Z.to_nat (h - 1), lpr))
        else find_delete fuel pr (hash_next p) a (Some (Z.to_nat (h - 1)))
    end.

(** The entry [i], which follows [lpr], leaves its list. *)
Definition unlink_property (sh : JSShape) (a : Z) (i : nat) (lpr : option nat) : option JSShape :=
  p ← shape_prop sh !! i;
  match lpr with
  | Some l =>
      lp ← shape_prop sh !! l;
      Some (with_props (hash_table sh) (<[l := mkPr (hash_next p) (flags lp) (atom lp)]> (shape_prop sh)) sh)
  | None => Some (with_props (<[find_bucket sh a := hash_next p]> (hash_table sh)) (shape_prop sh) sh)
  end.

(** It becomes a free entry. *)
Definition clear_property (sh : JSShape) (i : nat) : option JSShape :=
  p ← shape_prop sh !! i;
  Some (mkShape (sh_ref_count sh) (is_hashed sh) (hash sh) (prop_hash_mask sh) (hash_table sh) (prop_size sh)
    (<[i := mkPr (hash_next p) 0 JS_ATOM_NULL]> (shape_prop sh)) (deleted_prop_count sh + 1) (proto sh)).

(** ** The shapes of a runtime *)

Definition shape_hash (h val : Z) : Z := u32 (u32 (h + val) * 0x9e370001).
Definition get_shape_hash (h hash_bits : Z) : Z := h >> (32 - hash_bits).

(** On 64-bit pointers; the null pointer is 0. *)
Definition shape_initial_hash (proto : option ptr) : Z :=
  let p := default 0 proto in
  shape_hash (shape_hash 1 (u32 p)) (u32 (p >> 32)).

Section runtime.
Context {V : Type} {W : World} {Al : Malloc}.

(** [prop] is the array of the values; [None] is a value that is not initialized. *)
Record JSObject := mkObject {
  shape : ptr;
  prop : list (option V);
  extensible : bool;
  has_immutable_prototype : bool
}.

(** [shape_hash_table] holds the lists of [rt->shape_hash]; [atom_refs] and [proto_refs]
    count the references of the shapes; [ev] numbers the allocations. *)
Record JSRuntime := mkRuntime {
  shapes : gmap ptr JSShape;
  objects : gmap ptr JSObject;
  shape_hash_table : list (list ptr);
  shape_hash_bits : Z;
  shape_hash_count : Z;
  atom_refs : Z -> Z;
  proto_refs : ptr -> Z;
  ev : nat
}.

Definition set_shapes m s := mkRuntime m (objects s) (shape_hash_table s) (shape_hash_bits s)
  (shape_hash_count s) (atom_refs s) (proto_refs s) (ev s).
Definition set_objects m s := mkRuntime (shapes s) m (shape_hash_table s) (shape_hash_bits s)
  (shape_hash_count s) (atom_refs s) (proto_refs s) (ev s).
Definition set_buckets t bits n s := mkRuntime (shapes s) (objects s) t bits n
  (atom_refs s) (proto_refs s) (ev s).
Definition set_atom_refs f s := mkRuntime (shapes s) (objects s) (shape_hash_table s) (shape_hash_bits s)
  (shape_hash_count s) f (proto_refs s) (ev s).
Definition set_proto_refs f s := mkRuntime (shapes s) (objects s) (shape_hash_table s) (shape_hash_bits s)
  (shape_hash_count s) (atom_refs s) f (ev s).

Definition write_shape p sh s := set_shapes (<[p := sh]> (shapes s)) s.
Definition write_object p o s := set_objects (<[p := o]> (objects s)) s.

Definition with_shape p (o : JSObject) := mkObject p (prop o) (extensible o) (has_immutable_prototype o).
Definition with_prop l (o : JSObject) := mkObject (shape o) l (extensible o) (has_immutable_prototype o).

(** [js_malloc], [js_realloc]: whether it succeeds. *)
Definition js_malloc (s : JSRuntime) : bool * JSRuntime :=
  (ext_ok (ev s), mkRuntime (shapes s) (objects s) (shape_hash_table s) (shape_hash_bits s)
     (shape_hash_count s) (atom_refs s) (proto_refs s) (S (ev s))).
Definition fresh (s : JSRuntime) : ptr := malloc (dom (shapes s) ∪ dom (objects s)).

Definition JS_DupAtom (a : Z) (s : JSRuntime) : JSRuntime := set_atom_refs (<[a := atom_refs s a + 1]> (atom_refs s)) s.
Definition JS_FreeAtom (a : Z) (s : JSRuntime) : JSRuntime := set_atom_refs (<[a := atom_refs s a - 1]> (atom_refs s)) s.
Definition dup_proto (p : option ptr) (s : JSRuntime) : JSRuntime :=
  match p with Some p => set_proto_refs (<[p := proto_refs s p + 1]> (proto_refs s)) s | None => s end.
Definition free_proto (p : option ptr) (s : JSRuntime) : JSRuntime :=
  match p with Some p => set_proto_refs (<[p := proto_refs s p - 1]> (proto_refs s)) s | None => s end.

Definition init_shape_hash : JSRuntime :=
  mkRuntime ∅ ∅ (replicate 16 []) 4 0 (fun _ => 0) (fun _ => 0) 0.

(** The shape [p] goes to the front of its list in [tab]. *)
Definition insert_bucket (sm : gmap ptr JSShape) (bits : Z) (tab : list (list ptr)) (p : ptr) : option (list (list ptr)) :=
  sh ← sm !! p;
  let h := Z.to_nat (get_shape_hash (hash sh) bits) in
  b ← tab !! h;
  Some (<[h := p :: b]> tab).

(** The size of the table is an [int]. *)
Definition resize_shape_hash (s : JSRuntime) (bits : Z) : option JSRuntime :=
  guard (bits <= 30);;
  let '(ok, s) := js_malloc s in
  if negb ok then Some s
  else
    tab ← foldM (insert_bucket (shapes s) bits) (concat (shape_hash_table s)) (replicate (Z.to_nat (2 ^ bits)) []);
    Some (set_buckets tab bits (shape_hash_count s) s).

Definition js_shape_hash_link (s : JSRuntime) (p : ptr) : option JSRuntime :=
  tab ← insert_bucket (shapes s) (shape_hash_bits s) (shape_hash_table s) p;
  Some (set_buckets tab (shape_hash_bits s) (shape_hash_count s + 1) s).

Fixpoint unlink_chain (p : ptr) (l : list ptr) : option (list ptr) :=
  match l with
  | [] => None
  | q :: l => if decide (q = p) then Some l else cons q <$> unlink_chain p l
  end.

Definition js_shape_hash_unlink (s : JSRuntime) (p : ptr) : option JSRuntime :=
  sh ← shapes s !! p;
  let h := Z.to_nat (get_shape_hash (hash sh) (shape_hash_bits s)) in
  b ← shape_hash_table s !! h;
  b ← unlink_chain p b;
  Some (set_buckets (<[h := b]> (shape_hash_table s)) (shape_hash_bits s) (shape_hash_count s - 1) s).

Definition js_new_shape_nohash (s : JSRuntime) (proto : option ptr) (hash_size prop_size : Z) : option ptr * JSRuntime :=
  let '(ok, s) := js_malloc s in
  if negb ok then (None, s)
  else
    let p := fresh s in
    let s := dup_proto proto s in
    (Some p, write_shape p (mkShape 1 false 0 (hash_size - 1) (empty_table hash_size) prop_size [] 0 proto) s).

Definition js_new_shape2 (s : JSRuntime) (proto : option ptr) (hash_size prop_size : Z) : option (option ptr * JSRuntime) :=
  s ← (if len (shape_hash_table s) <? 2 * (shape_hash_count s + 1)
       then resize_shape_hash s (shape_hash_bits s + 1) else Some s);
  match js_new_shape_nohash s proto hash_size prop_size with
  | (None, s) => Some (None, s)
  | (Some p, s) =>
      sh ← shapes s !! p;
      let s := write_shape p (with_hashed true (with_hash (shape_initial_hash proto) sh)) s in
      s ← js_shape_hash_link s p;
      Some (Some p, s)
  end.

Definition js_new_shape (s : JSRuntime) (proto : option ptr) : option (option ptr * JSRuntime) :=
  js_new_shape2 s proto JS_PROP_INITIAL_HASH_SIZE JS_PROP_INITIAL_SIZE.

Definition js_clone_shape (s : JSRuntime) (p1 : ptr) : option (option ptr * JSRuntime) :=
  sh1 ← shapes s !! p1;
  let '(ok, s) := js_malloc s in
  if negb ok then Some (None, s)
  else
    let p := fresh s in
    let s := write_shape p (with_hashed false (with_ref_count 1 sh1)) s in
    let s := dup_proto (proto sh1) s in
    Some (Some p, fold_left (fun s pr => JS_DupAtom (atom pr) s) (shape_prop sh1) s).

Definition js_dup_shape (s : JSRuntime) (p : ptr) : option JSRuntime :=
  sh ← shapes s !! p; Some (write_shape p (with_ref_count (sh_ref_count sh + 1) sh) s).

Definition js_free_shape0 (s : JSRuntime) (p : ptr) : option JSRuntime :=
  sh ← shapes s !! p;
  guard (sh_ref_count sh = 0);;
  s ← (if is_hashed sh then js_shape_hash_unlink s p else Some s);
  let s := free_proto (proto sh) s in
  let s := fold_left (fun s pr => JS_FreeAtom (atom pr) s) (shape_prop sh) s in
  Some (set_shapes (delete p (shapes s)) s).

Definition js_free_shape (s : JSRuntime) (p : ptr) : option JSRuntime :=
  sh ← shapes s !! p;
  let s := write_shape p (with_ref_count (sh_ref_count sh - 1) sh) s in
  if sh_ref_count sh - 1 <=? 0 then js_free_shape0 s p else Some s.

(** [js_realloc] of the values. *)
Definition resize_values (n : Z) (l : list (option V)) : list (option V) := resize (Z.to_nat n) None l.

(** The shape [old] of the object [q] is replaced by the copy [sh]. *)
Definition replace_shape (s : JSRuntime) (q : ptr) (o : JSObject) (old : ptr) (sh : JSShape) : JSRuntime :=
  let p := fresh s in
  write_object q (with_shape p o) (set_shapes (<[p := sh]> (delete old (shapes s))) s).

Definition resize_properties (s : JSRuntime) (q : ptr) (count : Z) : option (bool * JSRuntime) :=
  o ← objects s !! q;
  sh ← shapes s !! shape o;
  let new_size := Z.max count (prop_size sh * 3 / 2) in
  let '(ok, s) := js_malloc s in
  if negb ok then Some (false, s)
  else
    let o := with_prop (resize_values new_size (prop o)) o in
    let s := write_object q o s in
    let '(ok, s) := js_malloc s in
    if negb ok then Some (false, s)
    else sh' ← resized_shape sh new_size; Some (true, replace_shape s q o (shape o) sh').

(** The values of the entries that are kept go to the front of the array. *)
Fixpoint kept_values (pr : list JSShapeProperty) (l : list (option V)) : list (option V) :=
  match pr, l with
  | p :: pr, v :: l => if atom p =? JS_ATOM_NULL then kept_values pr l else v :: kept_values pr l
  | _, _ => []
  end.

Definition compact_properties (s : JSRuntime) (q : ptr) : option (bool * JSRuntime) :=
  o ← objects s !! q;
  sh ← shapes s !! shape o;
  guard (is_hashed sh = false);;
  guard (compacted_size sh <= prop_size sh);;
  guard (prop_count sh <= len (prop o));;
  let '(ok, s) := js_malloc s in
  if negb ok then Some (false, s)
  else
    sh' ← compacted_shape sh;
    let front := kept_values (shape_prop sh) (prop o) in
    let values := front ++ drop (length front) (prop o) in
    let '(ok, s) := js_malloc s in
    let o := with_prop (if ok then resize_values (compacted_size sh) values else values) o in
    Some (true, replace_shape s q o (shape o) sh').

Definition add_shape_property (s : JSRuntime) (q : ptr) (a prop_flags : Z) : option (bool * JSRuntime) :=
  o ← objects s !! q;
  sh ← shapes s !! shape o;
  s ← (if is_hashed sh then js_shape_hash_unlink s (shape o) else Some s);
  let new_shape_hash := shape_hash (shape_hash (hash sh) a) prop_flags in
  '(ok, s) ← (if prop_size sh <=? prop_count sh then resize_properties s q (prop_count sh + 1) else Some (true, s));
  if negb ok then
    s ← (if is_hashed sh then js_shape_hash_link s (shape o) else Some s);
    Some (false, s)
  else
    o ← objects s !! q;
    sh ← shapes s !! shape o;
    s ← (if is_hashed sh
         then js_shape_hash_link (write_shape (shape o) (with_hash new_shape_hash sh) s) (shape o) else Some s);
    sh ← shapes s !! shape o;
    sh ← append_property sh a prop_flags;
    Some (true, JS_DupAtom a (write_shape (shape o) sh s)).

(** The first shape of a list that satisfies [f]. *)
Fixpoint find_shape (f : JSShape -> option bool) (sm : gmap ptr JSShape) (l : list ptr) : option (option ptr) :=
  match l with
  | [] => Some None
  | p :: l =>
      sh ← sm !! p;
      found ← f sh;
      if (found : bool) then Some (Some p) else find_shape f sm l
  end.

Definition find_hashed_shape_proto (s : JSRuntime) (p : option ptr) : option (option ptr) :=
  let h := shape_initial_hash p in
  l ← shape_hash_table s !! Z.to_nat (get_shape_hash h (shape_hash_bits s));
  find_shape (fun sh1 => Some ((hash sh1 =? h) && bool_decide (proto sh1 = p) && (prop_count sh1 =? 0))) (shapes s) l.

(** The [n] first entries have the same names and flags. *)
Fixpoint same_props (l l1 : list JSShapeProperty) : bool :=
  match l, l1 with
  | p :: l, p1 :: l1 => (atom p1 =? atom p) && (flags p1 =? flags p) && same_props l l1
  | [], _ => true
  | _ :: _, [] => false
  end.

Definition matches_prop (sh : JSShape) (h a prop_flags : Z) (sh1 : JSShape) : option bool :=
  if (hash sh1 =? h) && bool_decide (proto sh1 = proto sh) && (prop_count sh1 =? prop_count sh + 1) then
    if same_props (shape_prop sh) (shape_prop sh1) then
      p ← shape_prop sh1 !! length (shape_prop sh);
      Some ((atom p =? a) && (flags p =? prop_flags))
    else Some false
  else Some false.

Definition find_hashed_shape_prop (s : JSRuntime) (sh : JSShape) (a prop_flags : Z) : option (option ptr) :=
  let h := shape_hash (shape_hash (hash sh) a) prop_flags in
  l ← shape_hash_table s !! Z.to_nat (get_shape_hash h (shape_hash_bits s));
  find_shape (matches_prop sh h a prop_flags) (shapes s) l.

(** [add_property], without the update of [is_std_array_prototype]: the index of the new
    value. *)
Definition add_property (s : JSRuntime) (q : ptr) (a prop_flags : Z) : option (option nat * JSRuntime) :=
  o ← objects s !! q;
  sh ← shapes s !! shape o;
  let add s :=
    o ← objects s !! q;
    sh ← shapes s !! shape o;
    guard (sh_ref_count sh = 1);;
    '(ok, s) ← add_shape_property s q a prop_flags;
    if negb ok then Some (None, s)
    else
      o ← objects s !! q;
      sh ← shapes s !! shape o;
      Some (Some (length (shape_prop sh) - 1)%nat, s) in
  if is_hashed sh then
    found ← find_hashed_shape_prop s sh a prop_flags;
    match found with
    | Some new_sh =>
        sh1 ← shapes s !! new_sh;
        let '(ok, o, s) :=
          if negb (prop_size sh1 =? prop_size sh) then
            let '(ok, s) := js_malloc s in
            (ok, if ok then with_prop (resize_values (prop_size sh1) (prop o)) o else o, s)
          else (true, o, s) in
        if negb ok then Some (None, s)
        else
          s ← js_dup_shape s new_sh;
          s ← js_free_shape (write_object q (with_shape new_sh o) s) (shape o);
          Some (Some (length (shape_prop sh1) - 1)%nat, s)
    | None =>
        if negb (sh_ref_count sh =? 1) then
          '(r, s) ← js_clone_shape s (shape o);
          match r with
          | None => Some (None, s)
          | Some new_sh =>
              sh1 ← shapes s !! new_sh;
              s ← js_shape_hash_link (write_shape new_sh (with_hashed true sh1) s) new_sh;
              s ← js_free_shape s (shape o);
              add (write_object q (with_shape new_sh o) s)
          end
        else add s
    end
  else add s.

(** [pr->u.value = v]. *)
Definition store_value (s : JSRuntime) (q : ptr) (i : nat) (v : V) : option JSRuntime :=
  o ← objects s !! q;
  guard (i < length (prop o))%nat;;
  Some (write_object q (with_prop (<[i := Some v]> (prop o)) o) s).

Definition find_own_property (s : JSRuntime) (q : ptr) (a : Z) : option (option nat) :=
  o ← objects s !! q;
  sh ← shapes s !! shape o;
  find_own_property1 sh a.

Definition js_shape_prepare_update (s : JSRuntime) (q : ptr) : option (bool * JSRuntime) :=
  o ← objects s !! q;
  sh ← shapes s !! shape o;
  if is_hashed sh then
    if negb (sh_ref_count sh =? 1) then
      '(r, s) ← js_clone_shape s (shape o);
      match r with
      | None => Some (false, s)
      | Some new_sh =>
          s ← js_free_shape s (shape o);
          Some (true, write_object q (with_shape new_sh o) s)
      end
    else
      s ← js_shape_hash_unlink s (shape o);
      Some (true, write_shape (shape o) (with_hashed false sh) s)
  else Some (true, s).

Definition js_update_property_flags (s : JSRuntime) (q : ptr) (i : nat) (fl : Z) : option (bool * JSRuntime) :=
  o ← objects s !! q;
  sh ← shapes s !! shape o;
  p ← shape_prop sh !! i;
  if negb (fl =? flags p) then
    '(ok, s) ← js_shape_prepare_update s q;
    if negb ok then Some (false, s)
    else
      o ← objects s !! q;
      sh ← shapes s !! shape o;
      p ← shape_prop sh !! i;
      Some (true, write_shape (shape o)
        (with_props (hash_table sh) (<[i := mkPr (hash_next p) (wrap 6 fl) (atom p)]> (shape_prop sh)) sh) s)
  else Some (true, s).

(** [delete_property] of an ordinary object; [None] is the exception. *)
Definition delete_property (JS_UNDEFINED : V) (s : JSRuntime) (q : ptr) (a : Z) : option (option bool * JSRuntime) :=
  o ← objects s !! q;
  sh ← shapes s !! shape o;
  h ← hash_table sh !! find_bucket sh a;
  found ← find_delete (length (shape_prop sh)) (shape_prop sh) h a None;
  match found with
  | None => Some (Some true, s)
  | Some (i, lpr) =>
      p ← shape_prop sh !! i;
      if flags p .& JS_PROP_CONFIGURABLE =? 0 then Some (Some false, s)
      else
        '(ok, s) ← js_shape_prepare_update s q;
        if negb ok then Some (None, s)
        else
          o ← objects s !! q;
          sh ← shapes s !! shape o;
          sh ← unlink_property sh a i lpr;
          sh ← clear_property sh i;
          guard (i < length (prop o))%nat;;
          let s := JS_FreeAtom a (write_object q (with_prop (<[i := Some JS_UNDEFINED]> (prop o)) o)
                     (write_shape (shape o) sh s)) in
          s ← (if (8 <=? deleted_prop_count sh) && (prop_count sh / 2 <=? deleted_prop_count sh)
               then snd <$> compact_properties s q else Some s);
          Some (Some true, s)
  end.

(** [JS_NewObjectFromShape] for [JS_CLASS_OBJECT]. *)
Definition JS_NewObjectFromShape (s : JSRuntime) (p : ptr) : option (option ptr * JSRuntime) :=
  sh ← shapes s !! p;
  let '(ok, s) := js_malloc s in
  if negb ok then s ← js_free_shape s p; Some (None, s)
  else
    let '(ok, s) := js_malloc s in
    if negb ok then s ← js_free_shape s p; Some (None, s)
    else
      let q := fresh s in
      Some (Some q, write_object q (mkObject p (replicate (Z.to_nat (prop_size sh)) None) true false) s).

Definition JS_NewObjectProtoClass (s : JSRuntime) (proto : option ptr) : option (option ptr * JSRuntime) :=
  found ← find_hashed_shape_proto s proto;
  match found with
  | Some p => s ← js_dup_shape s p; JS_NewObjectFromShape s p
  | None =>
      '(r, s) ← js_new_shape s proto;
      match r with None => Some (None, s) | Some p => JS_NewObjectFromShape s p end
  end.

Definition JS_NewObjectProtoClassAlloc (s : JSRuntime) (proto : option ptr) (n_alloc_props : Z) :
    option (option ptr * JSRuntime) :=
  let '(n_alloc_props, hash_size) :=
    if n_alloc_props <=? JS_PROP_INITIAL_SIZE then (JS_PROP_INITIAL_SIZE, JS_PROP_INITIAL_HASH_SIZE)
    else (n_alloc_props, 1 << (32 - clz 32 (n_alloc_props - 1))) in
  let '(r, s) := js_new_shape_nohash s proto hash_size n_alloc_props in
  match r with None => Some (None, s) | Some p => JS_NewObjectFromShape s p end.

(** [q] is on the prototype chain that starts at [p1]. *)
Fixpoint proto_loop (fuel : nat) (s : JSRuntime) (q p1 : ptr) : option bool :=
  if decide (p1 = q) then Some true
  else
    match fuel with
    | O => None
    | S fuel =>
        o ← objects s !! p1;
        sh ← shapes s !! shape o;
        match proto sh with None => Some false | Some p1 => proto_loop fuel s q p1 end
    end.

(** [JS_SetPrototypeInternal] of an ordinary object; [Some false] is the [TypeError], or
    the result for [Reflect.setPrototypeOf]. *)
Definition JS_SetPrototypeInternal (s : JSRuntime) (q : ptr) (p : option ptr) : option (option bool * JSRuntime) :=
  o ← objects s !! q;
  sh ← shapes s !! shape o;
  if decide (proto sh = p) then Some (Some true, s)
  else if has_immutable_prototype o || negb (extensible o) then Some (Some false, s)
  else
    circular ← match p with None => Some false | Some p1 => proto_loop (size (objects s)) s q p1 end;
    if (circular : bool) then Some (Some false, s)
    else
      let s := dup_proto p s in
      '(ok, s) ← js_shape_prepare_update s q;
      if negb ok then Some (None, s)
      else
        o ← objects s !! q;
        sh ← shapes s !! shape o;
        let s := free_proto (proto sh) s in
        Some (Some true, write_shape (shape o) (with_proto p sh) s).

(** The release of the properties in [free_object]. *)
Definition free_object (s : JSRuntime) (q : ptr) : option JSRuntime :=
  o ← objects s !! q;
  s ← js_free_shape s (shape o);
  Some (set_objects (delete q (objects s)) s).
End runtime.
