(* ===== verification/ShapeTable.v ===== *)
(** * The hash table of a shape

    The entries of a shape with the names that fall in a bucket form a list, from the
    newest to the oldest.  Looking up a name finds its entry; adding an entry, rebuilding
    the table and removing an entry keep the lists. *)
From stdpp Require Import sorting.
From S2P Require Export Shapes.

(** The list of entries that starts at the link [h]. *)
Fixpoint chained (pr : list JSShapeProperty) (h : Z) (l : list nat) : Prop :=
  match l with
  | [] => h = 0
  | i :: l => h = Z.of_nat i + 1 /\ exists p, pr !! i = Some p /\ chained pr (hash_next p) l
  end.

(** The live entries of the bucket [b]. *)
Definition in_bucket (mask : Z) (pr : list JSShapeProperty) (b : nat) (i : nat) : Prop :=
  exists p, pr !! i = Some p /\ live p /\ Z.to_nat (atom p .& mask) = b.

Definition table_ok (mask : Z) (tab : list Z) (pr : list JSShapeProperty) : Prop :=
  forall b h, tab !! b = Some h -> exists l, chained pr h l /\ StronglySorted gt l /\ forall i, i ∈ l <-> in_bucket mask pr b i.

(** The size of the table is a power of two. *)
Definition mask_ok (mask : Z) (tab : list Z) : Prop :=
  exists k, 0 <= k <= 31 /\ mask = 2 ^ k - 1 /\ length tab = Z.to_nat (2 ^ k).

Lemma mask_bucket mask tab a : mask_ok mask tab -> 0 <= a -> (Z.to_nat (a .& mask) < length tab)%nat.
Proof.
  intros (k & Hk & -> & ->) Ha.
  replace (2 ^ k - 1) with (Z.ones k) by (rewrite Z.ones_equiv; lia). rewrite Z.land_ones by lia.
  pose proof (Z.mod_pos_bound a (2 ^ k) ltac:(lia)). lia.
Qed.

Lemma sorted_gt_nodup l : StronglySorted gt l -> NoDup l.
Proof.
  intros Hs. induction Hs as [|i l Hl IH Hf]; constructor; [|done].
  intros Hi. rewrite Forall_forall in Hf. specialize (Hf i Hi). lia.
Qed.

(** A list that does not hold the entry [i] does not depend on it. *)
Lemma chained_insert pr h l i p : chained pr h l -> i ∉ l -> chained (<[i := p]> pr) h l.
Proof.
  revert h. induction l as [|j l IH]; intros h; cbn; [done|]. intros (-> & q & Eq & Hc) Hi.
  apply not_elem_of_cons in Hi as [Hij Hi]. split; [done|]. exists q. rewrite list_lookup_insert_ne by congruence. by split; [|apply IH].
Qed.

(** Nor on the links of other entries. *)
Lemma chained_ext pr pr' h l : (forall i p, i ∈ l -> pr !! i = Some p -> exists p', pr' !! i = Some p' /\ hash_next p' = hash_next p) ->
  chained pr h l -> chained pr' h l.
Proof.
  revert h. induction l as [|j l IH]; intros h He; cbn; [done|]. intros (-> & q & Eq & Hc). split; [done|].
  destruct (He j q ltac:(by left) Eq) as (p' & Ep' & Hn). exists p'. split; [done|]. rewrite Hn. apply IH; [|done].
  intros i p Hi. apply He. by right.
Qed.

Lemma chained_app pr pr' h l : chained pr h l -> chained (pr ++ pr') h l.
Proof. apply chained_ext. intros i p _ E. exists p. split; [|done]. by apply lookup_app_l_Some. Qed.

Lemma chained_bound pr h l i : chained pr h l -> i ∈ l -> (i < length pr)%nat.
Proof.
  revert h. induction l as [|j l IH]; intros h; cbn; [by intros _ ?%not_elem_of_nil|].
  intros (-> & q & Eq & Hc) [->|Hi]%elem_of_cons; [by apply lookup_lt_Some in Eq|by eapply IH].
Qed.

Lemma chained_head pr h l : chained pr h l -> 0 <= h <= len pr.
Proof.
  destruct l as [|i l]; cbn; [lia|]. intros (-> & q & Eq & _). apply lookup_lt_Some in Eq. lia.
Qed.

Lemma bucket_length pr h l : chained pr h l -> StronglySorted gt l -> (length l <= length pr)%nat.
Proof.
  intros Hc Hs. assert (Hb : forall i, i ∈ l -> (i < length pr)%nat) by (intros i; by eapply chained_bound).
  pose proof (sorted_gt_nodup _ Hs) as Hnd. assert (Hsub : l ⊆+ seq 0 (length pr)).
  { apply NoDup_submseteq; [done|]. intros i Hi. apply elem_of_seq. specialize (Hb i Hi). lia. }
  apply submseteq_length in Hsub. by rewrite length_seq in Hsub.
Qed.

(** ** Lookup *)

Lemma name_loop_spec pr a fuel : forall h l, chained pr h l -> (length l <= fuel)%nat ->
  exists r, find_loop fuel pr h a = Some r /\
    match r with
    | Some i => i ∈ l /\ exists p, pr !! i = Some p /\ atom p = a
    | None => forall i p, i ∈ l -> pr !! i = Some p -> atom p <> a
    end.
Proof.
  induction fuel as [|fuel IH]; intros h l Hc Hl; (destruct l as [|i l]; cbn in Hc;
    [subst h; exists None; split; [done|]; by intros i p ?%not_elem_of_nil|]); [cbn in Hl; lia|].
  destruct Hc as (-> & p & Ep & Hc). cbn [find_loop]. replace (Z.of_nat i + 1 =? 0) with false by lia.
  replace (Z.to_nat (Z.of_nat i + 1 - 1)) with i by lia. rewrite Ep. cbn [mbind option_bind].
  destruct (Z.eqb_spec (atom p) a) as [Ea|Ea].
  - exists (Some i). split; [done|]. split; [by left|]. by exists p.
  - destruct (IH (hash_next p) l Hc) as (r & E & Hr); [cbn in Hl; lia|]. exists r. split; [done|]. destruct r as [j|].
    + destruct Hr as [Hj Hp]. split; [by right|done].
    + intros j q [->|Hj]%elem_of_cons Eq; [congruence|by apply (Hr j)].
Qed.

(** The live entries have different names. *)
Definition names_ok (pr : list JSShapeProperty) : Prop :=
  forall i j p q, pr !! i = Some p -> pr !! j = Some q -> live p -> atom p = atom q -> i = j.

Definition find_spec (pr : list JSShapeProperty) (a : Z) (r : option nat) : Prop :=
  match r with
  | Some i => exists p, pr !! i = Some p /\ atom p = a
  | None => forall i p, pr !! i = Some p -> atom p <> a
  end.

Lemma find_own_property1_spec sh a : mask_ok (prop_hash_mask sh) (hash_table sh) ->
  table_ok (prop_hash_mask sh) (hash_table sh) (shape_prop sh) -> 0 <= a -> a <> JS_ATOM_NULL ->
  exists r, find_own_property1 sh a = Some r /\ find_spec (shape_prop sh) a r.
Proof.
  intros Hm Ht Ha Hn. unfold find_own_property1. destruct (lookup_lt_is_Some_2 (hash_table sh) (find_bucket sh a)) as [h Eh].
  { by apply mask_bucket. }
  rewrite Eh. cbn [mbind option_bind]. destruct (Ht _ _ Eh) as (l & Hc & Hs & Hl).
  destruct (name_loop_spec (shape_prop sh) a (length (shape_prop sh)) h l Hc) as (r & E & Hr); [by eapply bucket_length|].
  exists r. split; [done|]. destruct r as [i|]; cbn; [by destruct Hr|]. intros i p Ep Hp.
  apply (Hr i p); [|done|done]. apply Hl. exists p. split_and!; [done|by unfold live; rewrite Hp|]. unfold find_bucket. by rewrite Hp.
Qed.

(** ** Adding an entry *)

Lemma table_ok_append mask tab pr p h : mask_ok mask tab -> table_ok mask tab pr ->
  tab !! Z.to_nat (atom p .& mask) = Some h -> hash_next p = h -> live p ->
  table_ok mask (<[Z.to_nat (atom p .& mask) := len pr + 1]> tab) (pr ++ [p]).
Proof.
  intros Hm Ht Eh Hn Hp b h' Eb. assert (Hpn : (pr ++ [p]) !! length pr = Some p) by (by rewrite lookup_app_r, Nat.sub_diag).
  assert (Hin : forall i, in_bucket mask (pr ++ [p]) b i <-> in_bucket mask pr b i \/ (i = length pr /\ Z.to_nat (atom p .& mask) = b)).
  { intros i. unfold in_bucket. split.
    - intros (q & [Eq|[Hl Eq]]%lookup_app_Some & Hq & Hb); [left; by exists q|right].
      apply list_lookup_singleton_Some in Eq as [Hi ->]. split; [lia|done].
    - intros [(q & Eq & Hq & Hb)|[-> Hb]]; [exists q|exists p]; split_and!; try done. by apply lookup_app_l_Some. }
  destruct (decide (b = Z.to_nat (atom p .& mask))) as [->|Hb].
  - rewrite list_lookup_insert_eq in Eb by (by eapply lookup_lt_Some). apply (inj Some) in Eb. subst h'.
    destruct (Ht _ _ Eh) as (l & Hc & Hs & Hl). exists (length pr :: l). split_and!.
    + cbn. split; [done|]. exists p. split; [done|]. rewrite Hn. by apply chained_app.
    + constructor; [done|]. apply Forall_forall. intros j Hj. pose proof (chained_bound _ _ _ j Hc Hj). lia.
    + intros i. rewrite elem_of_cons, Hin, Hl. naive_solver.
  - rewrite list_lookup_insert_ne in Eb by congruence. destruct (Ht _ _ Eb) as (l & Hc & Hs & Hl). exists l.
    split_and!; [by apply chained_app|done|]. intros i. rewrite Hin, Hl. naive_solver.
Qed.

(** A free entry is in no list. *)
Lemma table_ok_free mask tab pr p : table_ok mask tab pr -> atom p = JS_ATOM_NULL -> table_ok mask tab (pr ++ [p]).
Proof.
  intros Ht Hp b h Eb. destruct (Ht _ _ Eb) as (l & Hc & Hs & Hl). exists l. split_and!; [by apply chained_app|done|].
  intros i. rewrite Hl. unfold in_bucket. split.
  - intros (q & Eq & Hq). exists q. split; [|done]. by apply lookup_app_l_Some.
  - intros (q & [Eq|[_ Eq]]%lookup_app_Some & Hq & Hb); [by exists q|].
    apply list_lookup_singleton_Some in Eq as [_ ->]. done.
Qed.

(** The names and flags. *)
Definition content (pr : list JSShapeProperty) : list (Z * Z) := (fun p => (atom p, flags p)) <$> pr.

Definition atoms_ok (pr : list JSShapeProperty) : Prop := Forall (fun p => 0 <= atom p) pr.

Lemma rehash_shape_spec mask pr : forall pr0 tab, mask_ok mask tab -> table_ok mask tab pr0 -> atoms_ok pr ->
  len (pr0 ++ pr) < 2 ^ 26 ->
  exists pr' tab', rehash mask (len pr0) pr tab = Some (pr', tab') /\ content pr' = content pr /\
    mask_ok mask tab' /\ table_ok mask tab' (pr0 ++ pr').
Proof.
  induction pr as [|p pr IH]; intros pr0 tab Hm Ht Ha Hl; cbn [rehash].
  { exists [], tab. by rewrite app_nil_r. }
  apply Forall_cons in Ha as [Hap Ha]. rewrite length_app in Hl. cbn [length] in Hl.
  destruct (Z.eqb_spec (atom p) JS_ATOM_NULL) as [Hp|Hp].
  - destruct (IH (pr0 ++ [p]) tab Hm) as (pr' & tab' & E & Hc & Hm' & Ht'); [by apply table_ok_free|done|rewrite !length_app; cbn; lia|].
    rewrite length_app in E. cbn in E. replace (Z.of_nat (length pr0 + 1)) with (len pr0 + 1) in E by lia.
    rewrite E. cbn. exists (p :: pr'), tab'. rewrite <- app_assoc in Ht'. split_and!; [done| |done|done]. cbn. by f_equal.
  - destruct (lookup_lt_is_Some_2 tab (Z.to_nat (atom p .& mask))) as [h Eh]; [by apply mask_bucket|].
    rewrite Eh. cbn [mbind option_bind]. destruct (Ht _ _ Eh) as (l & Hcl & _). pose proof (chained_head _ _ _ Hcl) as Hh.
    set (p' := mkPr (wrap 26 h) (flags p) (atom p)).
    assert (Hw : wrap 26 h = h) by (unfold wrap; rewrite Z.mod_small; lia).
    destruct (IH (pr0 ++ [p']) (<[Z.to_nat (atom p .& mask) := len pr0 + 1]> tab)) as (pr' & tab' & E & Hc & Hm' & Ht').
    + destruct Hm as (k & Hk & Hmk & Hlen). exists k. rewrite length_insert. done.
    + by apply (table_ok_append mask tab pr0 p' h).
    + done.
    + rewrite !length_app. cbn. lia.
    + rewrite length_app in E. cbn in E. replace (Z.of_nat (length pr0 + 1)) with (len pr0 + 1) in E by lia.
      rewrite E. cbn. exists (p' :: pr'), tab'. rewrite <- app_assoc in Ht'. split_and!; [done| |done|done]. cbn. by f_equal.
Qed.

Lemma empty_table_ok mask size : table_ok mask (empty_table size) [].
Proof.
  intros b h Eb. apply lookup_replicate in Eb as [-> _]. exists []. split_and!; [done|constructor|].
  intros i. split; [by intros ?%not_elem_of_nil|]. intros (p & E & _). by rewrite lookup_nil in E.
Qed.

Lemma empty_mask_ok k : 0 <= k <= 31 -> mask_ok (2 ^ k - 1) (empty_table (2 ^ k)).
Proof. intros Hk. exists k. split_and!; [lia|lia|done|]. apply length_replicate. Qed.

Lemma grow_hash_size_spec fuel : forall k n, 0 <= k -> n <= 2 ^ (k + Z.of_nat fuel) ->
  exists k', grow_hash_size fuel (2 ^ k) n = Some (2 ^ k') /\ k <= k' /\ n <= 2 ^ k' /\ (k < k' -> 2 ^ k' < 2 * n).
Proof.
  induction fuel as [|fuel IH]; intros k n Hk Hn; cbn [grow_hash_size].
  - replace (k + Z.of_nat 0) with k in Hn by lia. replace (2 ^ k <? n) with false by lia. exists k. split_and!; try done; lia.
  - destruct (Z.ltb_spec (2 ^ k) n) as [Hlt|Hge]; [|exists k; split_and!; try done; lia].
    replace (2 * 2 ^ k) with (2 ^ (k + 1)) by (rewrite Z.pow_add_r by lia; lia).
    destruct (IH (k + 1) n) as (k' & E & Hk' & Hn' & Hlt'); [lia|by replace (k + 1 + Z.of_nat fuel) with (k + Z.of_nat (S fuel)) by lia|].
    exists k'. split_and!; try done; [lia|]. intros _. destruct (decide (k + 1 = k')) as [<-|]; [|apply Hlt'; lia].
    rewrite Z.pow_add_r by lia. lia.
Qed.

Lemma shrink_hash_size_spec fuel : forall k n, 0 <= k <= Z.of_nat fuel -> 1 <= n ->
  exists k', shrink_hash_size fuel (2 ^ k) n = Some (2 ^ k') /\ 0 <= k' <= k.
Proof.
  induction fuel as [|fuel IH]; intros k n Hk Hn; cbn [shrink_hash_size].
  - replace k with 0 by lia. change (2 ^ 0 / 2) with 0. replace (n <=? 0) with false by lia. by exists 0.
  - destruct (Z.leb_spec n (2 ^ k / 2)) as [Hle|Hgt]; [|exists k; split; [done|lia]].
    assert (1 <= k) by (destruct (decide (k = 0)) as [->|]; [change (2 ^ 0 / 2) with 0 in Hle; lia|lia]).
    assert (E2 : 2 ^ k / 2 = 2 ^ (k - 1)).
    { replace k with (k - 1 + 1) at 1 by lia. rewrite Z.pow_add_r by lia. apply Z.div_mul. lia. }
    rewrite E2. destruct (IH (k - 1) n) as (k' & E & Hk'); [lia|done|]. exists k'. split; [done|lia].
Qed.

(** ** A well-formed shape *)

Record shape_ok (sh : JSShape) : Prop := {
  so_mask : mask_ok (prop_hash_mask sh) (hash_table sh);
  so_table : table_ok (prop_hash_mask sh) (hash_table sh) (shape_prop sh);
  so_names : names_ok (shape_prop sh);
  so_atoms : atoms_ok (shape_prop sh);
  so_flags : Forall (fun p => 0 <= flags p < 64) (shape_prop sh);
  so_size : prop_count sh <= prop_size sh;
  so_min : JS_PROP_INITIAL_SIZE <= prop_size sh;
  so_deleted : deleted_prop_count sh = len (filter (fun p => ~ live p) (shape_prop sh));
  so_hashed : is_hashed sh = true -> deleted_prop_count sh = 0;
}.

(** [sh'] lists the same properties as [sh]. *)
Definition same_content (sh sh' : JSShape) : Prop :=
  content (shape_prop sh') = content (shape_prop sh) /\ proto sh' = proto sh /\ is_hashed sh' = is_hashed sh /\ hash sh' = hash sh.

Lemma content_lookup pr i p : pr !! i = Some p -> content pr !! i = Some (atom p, flags p).
Proof. intros E. unfold content. by rewrite list_lookup_fmap, E. Qed.

Lemma content_back pr i a f : content pr !! i = Some (a, f) -> exists p, pr !! i = Some p /\ atom p = a /\ flags p = f.
Proof.
  unfold content. rewrite list_lookup_fmap. destruct (pr !! i) as [p|]; [|done]. cbn. intros [= <- <-]. by exists p.
Qed.

Lemma content_match pr pr' i p : content pr' = content pr -> pr' !! i = Some p ->
  exists p0, pr !! i = Some p0 /\ atom p0 = atom p /\ flags p0 = flags p.
Proof. intros Hc E. apply content_back. rewrite <- Hc. by apply content_lookup. Qed.

Lemma content_names pr pr' : content pr' = content pr -> names_ok pr -> names_ok pr'.
Proof.
  intros Hc Hn i j p q Ep Eq Hl Ha. destruct (content_match _ _ _ _ Hc Ep) as (p0 & Ep0 & Ha0 & _).
  destruct (content_match _ _ _ _ Hc Eq) as (q0 & Eq0 & Hb0 & _). apply (Hn i j p0 q0); try done; unfold live in *; congruence.
Qed.

Lemma content_Forall (P : Z * Z -> Prop) pr pr' : content pr' = content pr ->
  Forall (fun p => P (atom p, flags p)) pr -> Forall (fun p => P (atom p, flags p)) pr'.
Proof.
  intros Hc. assert (H : forall l, Forall (fun p => P (atom p, flags p)) l <-> Forall P (content l)).
  { intros l. unfold content. by rewrite Forall_fmap. }
  by rewrite !H, Hc.
Qed.

Lemma content_length pr pr' : content pr' = content pr -> length pr' = length pr.
Proof. intros Hc%(f_equal length). unfold content in Hc. by rewrite !length_fmap in Hc. Qed.

(** The number of free entries. *)
Definition free_count (c : list (Z * Z)) : nat := length (filter (fun x => fst x = JS_ATOM_NULL) c).
Lemma free_count_content pr : length (filter (fun p => ~ live p) pr) = free_count (content pr).
Proof.
  unfold free_count. induction pr as [|p pr IH]; [done|]. cbn [content fmap list_fmap]. unfold live in *.
  destruct (decide (atom p = JS_ATOM_NULL)) as [Hp|Hp].
  - rewrite !filter_cons_True by naive_solver. cbn. by rewrite IH.
  - rewrite !filter_cons_False by (cbn; naive_solver). by rewrite IH.
Qed.

(** A shape with the same contents and another table. *)
Lemma shape_ok_content sh sh' : shape_ok sh -> content (shape_prop sh') = content (shape_prop sh) ->
  mask_ok (prop_hash_mask sh') (hash_table sh') -> table_ok (prop_hash_mask sh') (hash_table sh') (shape_prop sh') ->
  prop_size sh <= prop_size sh' -> deleted_prop_count sh' = deleted_prop_count sh -> (is_hashed sh' = true -> is_hashed sh = true) ->
  shape_ok sh'.
Proof.
  intros Ho Hc Hm Ht Hs Hd Hh. pose proof (content_length _ _ Hc) as Hlen. split; try done.
  - apply (content_names _ _ Hc), Ho.
  - apply (content_Forall (fun x => 0 <= fst x) _ _ Hc), Ho.
  - apply (content_Forall (fun x => 0 <= snd x < 64) _ _ Hc), Ho.
  - pose proof (so_size _ Ho). unfold prop_count in *. rewrite Hlen. lia.
  - pose proof (so_min _ Ho). lia.
  - rewrite Hd, (so_deleted _ Ho), !free_count_content. by rewrite Hc.
  - intros H. rewrite Hd. apply Ho. by apply Hh.
Qed.

Lemma resized_shape_spec sh n : shape_ok sh -> prop_size sh <= n <= 2 ^ 28 -> prop_count sh < 2 ^ 26 ->
  exists sh', resized_shape sh n = Some sh' /\ shape_ok sh' /\ same_content sh sh' /\
    prop_size sh' = n /\ sh_ref_count sh' = 1 /\ deleted_prop_count sh' = deleted_prop_count sh.
Proof.
  intros Ho Hn Hc. destruct (so_mask _ Ho) as (k & Hk & Hm & Hlen). unfold resized_shape.
  assert (E0 : prop_hash_mask sh + 1 = 2 ^ k) by lia. rewrite E0.
  destruct (grow_hash_size_spec 32 k n) as (k' & E & Hk' & _ & Hlt); [lia| |].
  { assert (2 ^ 28 <= 2 ^ (k + Z.of_nat 32)) by (apply Z.pow_le_mono_r; lia). lia. }
  rewrite E. cbn [mbind option_bind].
  destruct (Z.eqb_spec (2 ^ k') (2 ^ k)) as [Ek|Ek]; cbn [negb].
  - eexists. split; [done|]. split; [|by split_and!]. apply (shape_ok_content sh); try done; [apply Ho|apply Ho|cbn; lia].
  - assert (Hkk : k < k') by (destruct (decide (k = k')) as [->|]; [done|lia]). specialize (Hlt Hkk).
    assert (Hk31 : 0 <= k' <= 31).
    { split; [lia|]. destruct (Z.le_gt_cases k' 31); [done|]. assert (2 ^ 32 <= 2 ^ k') by (apply Z.pow_le_mono_r; lia). lia. }
    destruct (rehash_shape_spec (2 ^ k' - 1) (shape_prop sh) [] (empty_table (2 ^ k'))) as (pr & tab & E' & Hcon & Hm' & Ht').
    + by apply empty_mask_ok.
    + apply empty_table_ok.
    + apply Ho.
    + exact Hc.
    + change (len (@nil JSShapeProperty)) with 0 in E'. rewrite E'. cbn [mbind option_bind].
      eexists. split; [done|]. split; [|by split_and!].
      apply (shape_ok_content sh); try done. cbn. lia.
Qed.

Lemma append_property_spec sh a f : shape_ok sh -> prop_count sh < prop_size sh -> prop_count sh + 1 < 2 ^ 26 ->
  0 < a -> 0 <= f < 64 -> (forall i p, shape_prop sh !! i = Some p -> atom p <> a) ->
  exists sh', append_property sh a f = Some sh' /\ shape_ok sh' /\
    content (shape_prop sh') = content (shape_prop sh) ++ [(a, f)] /\ proto sh' = proto sh /\ is_hashed sh' = is_hashed sh /\
    hash sh' = hash sh /\ prop_size sh' = prop_size sh /\ sh_ref_count sh' = sh_ref_count sh.
Proof.
  intros Ho Hs Hc Ha Hf Hn. unfold append_property. rewrite option_guard_True by done. cbn [mbind option_bind].
  destruct (lookup_lt_is_Some_2 (hash_table sh) (find_bucket sh a)) as [h Eh].
  { apply mask_bucket; [apply Ho|lia]. }
  rewrite Eh. cbn [mbind option_bind]. destruct (so_table _ Ho _ _ Eh) as (l & Hcl & _). pose proof (chained_head _ _ _ Hcl) as Hh.
  assert (Hw : wrap 26 h = h) by (unfold wrap; rewrite Z.mod_small; unfold prop_count in *; lia).
  assert (Hw6 : wrap 6 f = f) by (unfold wrap; rewrite Z.mod_small; lia).
  set (p := mkPr (wrap 26 h) (wrap 6 f) a). assert (Hp : live p) by (unfold live, p, JS_ATOM_NULL; cbn; lia).
  eexists. split; [done|]. split; [split; cbn|].
  - destruct (so_mask _ Ho) as (k & Hk & Hm & Hlen). exists k. by rewrite length_insert.
  - apply (table_ok_append _ (hash_table sh) (shape_prop sh) p h); try done; apply Ho.
  - intros i j q q' Eq Eq' Hl Hqq. apply lookup_app_Some in Eq, Eq'.
    destruct Eq as [Eq|[Hi Eq]], Eq' as [Eq'|[Hj Eq']].
    + by apply (so_names _ Ho i j q q').
    + apply list_lookup_singleton_Some in Eq' as [_ <-]. by destruct (Hn i q Eq).
    + apply list_lookup_singleton_Some in Eq as [_ <-]. by destruct (Hn j q' Eq').
    + apply list_lookup_singleton_Some in Eq as [? _], Eq' as [? _]. lia.
  - apply Forall_app. split; [apply Ho|]. repeat constructor. cbn. lia.
  - apply Forall_app. split; [apply Ho|]. repeat constructor; cbn; rewrite Hw6; lia.
  - unfold prop_count in *. cbn. rewrite length_app. cbn. lia.
  - apply Ho.
  - rewrite filter_app, filter_cons_False by (by intros H; apply H). rewrite app_nil_r. apply Ho.
  - apply Ho.
  - cbn. unfold content. rewrite fmap_app. cbn. by rewrite Hw6.
Qed.

Lemma names_ok_cons p pr : names_ok (p :: pr) <-> (live p -> atom p ∉ atom <$> pr) /\ names_ok pr.
Proof.
  split.
  - intros Hn. split.
    + intros Hp (q & Ha & [i Ei]%list_elem_of_lookup)%list_elem_of_fmap. by specialize (Hn 0%nat (S i) p q eq_refl Ei Hp Ha).
    + intros i j q q' Ei Ej Hl Ha. by specialize (Hn (S i) (S j) q q' Ei Ej Hl Ha) as [= ->].
  - intros [Hp Hn] [|i] [|j] q q' Ei Ej Hl Ha; cbn in *; simplify_eq; try done.
    + destruct (Hp Hl). apply list_elem_of_fmap. exists q'. split; [done|]. by eapply list_elem_of_lookup_2.
    + destruct Hp; [unfold live in *; congruence|]. apply list_elem_of_fmap. exists q. split; [done|]. by eapply list_elem_of_lookup_2.
    + f_equal. by apply (Hn i j q q').
Qed.

Lemma names_ok_filter pr : names_ok pr -> names_ok (filter live pr).
Proof.
  induction pr as [|p pr IH]; [done|]. intros [Hp Hn]%names_ok_cons. destruct (decide (atom p = JS_ATOM_NULL)) as [E|E].
  - rewrite filter_cons_False by naive_solver. by apply IH.
  - rewrite filter_cons_True by naive_solver. apply names_ok_cons. split; [|by apply IH].
    intros Hl (q & Ha & [_ Hq]%list_elem_of_filter)%list_elem_of_fmap. apply (Hp Hl), list_elem_of_fmap. by exists q.
Qed.

Lemma filter_live_length pr : (length (filter live pr) + length (filter (fun p => ~ live p) pr) = length pr)%nat.
Proof.
  induction pr as [|p pr IH]; [done|]. destruct (decide (live p)) as [Hp|Hp].
  - rewrite (filter_cons_True live p) by done. rewrite (filter_cons_False (fun p => ~ live p)) by tauto. cbn [length]. lia.
  - rewrite (filter_cons_False live p) by done. rewrite (filter_cons_True (fun p => ~ live p)) by done. cbn [length]. lia.
Qed.

Lemma filter_live_content pr :
  content (filter live pr) = filter (fun x => fst x <> JS_ATOM_NULL) (content pr).
Proof.
  induction pr as [|p l IH]; [done|]. cbn [content fmap list_fmap]. destruct (decide (atom p = JS_ATOM_NULL)) as [Hp|Hp].
  - rewrite !filter_cons_False by (cbn; naive_solver). exact IH.
  - rewrite !filter_cons_True by (cbn; naive_solver). cbn. by f_equal.
Qed.

Lemma compacted_shape_spec sh : shape_ok sh -> prop_count sh < 2 ^ 26 ->
  exists sh', compacted_shape sh = Some sh' /\ (is_hashed sh = false -> shape_ok sh') /\
    content (shape_prop sh') = filter (fun x => fst x <> JS_ATOM_NULL) (content (shape_prop sh)) /\
    proto sh' = proto sh /\ is_hashed sh' = is_hashed sh /\ hash sh' = hash sh /\ prop_size sh' = compacted_size sh /\ sh_ref_count sh' = 1.
Proof.
  intros Ho Hc. destruct (so_mask _ Ho) as (k & Hk & Hm & Hlen). unfold compacted_shape.
  assert (E0 : prop_hash_mask sh + 1 = 2 ^ k) by lia. rewrite E0.
  destruct (shrink_hash_size_spec 32 k (compacted_size sh)) as (k' & E & Hk'); [lia|unfold compacted_size, JS_PROP_INITIAL_SIZE; lia|].
  rewrite E. cbn [mbind option_bind]. set (kept := filter live (shape_prop sh)).
  assert (Hsub : sublist kept (shape_prop sh)) by apply sublist_filter.
  pose proof (sublist_length _ _ Hsub) as Hsl. assert (Hfree : len kept = prop_count sh - deleted_prop_count sh).
  { rewrite (so_deleted _ Ho). unfold prop_count, kept. pose proof (filter_live_length (shape_prop sh)). lia. }
  assert (Hka : atoms_ok kept).
  { apply Forall_forall. intros p [_ Hp]%list_elem_of_filter. pose proof (so_atoms _ Ho) as Ha. unfold atoms_ok in Ha.
    rewrite Forall_forall in Ha. by apply Ha. }
  destruct (rehash_shape_spec (2 ^ k' - 1) kept [] (empty_table (2 ^ k'))) as (pr & tab & E' & Hcon & Hm' & Ht').
  { apply empty_mask_ok. lia. }
  { apply empty_table_ok. }
  { done. }
  { unfold prop_count in Hc. rewrite app_nil_l. lia. }
  change (len (@nil JSShapeProperty)) with 0 in E'. rewrite E'. cbn [mbind option_bind]. pose proof (content_length _ _ Hcon) as Hl.
  rewrite option_guard_True by lia. cbn [mbind option_bind]. eexists. split; [done|].
  assert (Hfc : content kept = filter (fun x => fst x <> JS_ATOM_NULL) (content (shape_prop sh))).
  { apply filter_live_content. }
  split; [|split_and!; try done; cbn [shape_prop]; by rewrite Hcon].
  intros Hh. split; cbn; try done.
  - apply (content_names _ _ Hcon). apply names_ok_filter, Ho.
  - by apply (content_Forall (fun x => 0 <= fst x) _ _ Hcon).
  - apply (content_Forall (fun x => 0 <= snd x < 64) _ _ Hcon). apply Forall_forall. intros p [_ Hp]%list_elem_of_filter.
    pose proof (so_flags _ Ho) as Hf. rewrite Forall_forall in Hf. by apply Hf.
  - unfold compacted_size, prop_count in *. cbn [shape_prop prop_size]. lia.
  - unfold compacted_size. lia.
  - rewrite free_count_content, Hcon, Hfc. unfold free_count.
    replace (filter _ (filter _ _)) with (@nil (Z * Z)); [done|]. symmetry.
    generalize (content (shape_prop sh)) as c. induction c as [|x c IH]; [done|].
    destruct (decide (fst x = JS_ATOM_NULL)); [rewrite (filter_cons_False _ x) by naive_solver; exact IH|].
    rewrite (filter_cons_True _ x) by naive_solver. by rewrite filter_cons_False.
Qed.

(** ** Removing an entry *)

Lemma find_delete_spec pr a fuel : forall h l lpr, chained pr h l -> (length l <= fuel)%nat ->
  exists r, find_delete fuel pr h a lpr = Some r /\
    match r with
    | Some (i, lp) => (exists l1 l2, l = l1 ++ i :: l2 /\ lp = match last l1 with Some j => Some j | None => lpr end) /\
        exists p, pr !! i = Some p /\ atom p = a
    | None => forall i p, i ∈ l -> pr !! i = Some p -> atom p <> a
    end.
Proof.
  induction fuel as [|fuel IH]; intros h l lpr Hc Hl; (destruct l as [|i l]; cbn in Hc;
    [subst h; exists None; split; [done|]; by intros i p ?%not_elem_of_nil|]); [cbn in Hl; lia|].
  destruct Hc as (-> & p & Ep & Hc). cbn [find_delete]. replace (Z.of_nat i + 1 =? 0) with false by lia.
  replace (Z.to_nat (Z.of_nat i + 1 - 1)) with i by lia. rewrite Ep. cbn [mbind option_bind].
  destruct (Z.eqb_spec (atom p) a) as [Ea|Ea].
  - exists (Some (i, lpr)). split; [done|]. split; [by exists [], l|by exists p].
  - destruct (IH (hash_next p) l (Some i) Hc) as (r & E & Hr); [cbn in Hl; lia|]. exists r. split; [done|]. destruct r as [[j lp]|].
    + destruct Hr as [(l1 & l2 & -> & ->) Hp]. split; [|done]. exists (i :: l1), l2. split; [done|].
      destruct l1 as [|x l1]; [done|]. rewrite last_cons_cons. by destruct (last (x :: l1)) eqn:El; [|apply last_None in El].
    + intros j q [->|Hj]%elem_of_cons Eq; [congruence|by apply (Hr j)].
Qed.

(** The list without [i], whose predecessor is [j]. *)
Lemma chained_skip pr h l1 j i l2 p pj fl at_ : chained pr h (l1 ++ j :: i :: l2) -> NoDup (l1 ++ j :: i :: l2) ->
  pr !! i = Some p -> pr !! j = Some pj -> chained (<[j := mkPr (hash_next p) fl at_]> pr) h (l1 ++ j :: l2).
Proof.
  revert h. induction l1 as [|x l1 IH]; intros h Hc Hnd Ep Ej.
  - cbn in *. destruct Hc as (-> & pj' & Ej' & _ & p' & Ep' & Hc'). split; [done|]. exists (mkPr (hash_next p) fl at_).
    rewrite list_lookup_insert_eq by (by eapply lookup_lt_Some). split; [done|]. cbn. rewrite Ep in Ep'. apply (inj Some) in Ep'. subst p'.
    apply NoDup_cons in Hnd as [Hj Hnd]. apply chained_insert; [done|]. intros H. apply Hj. by right.
  - cbn in *. destruct Hc as (-> & q & Eq & Hc'). apply NoDup_cons in Hnd as [Hx Hnd]. split; [done|]. exists q.
    assert (j <> x) by (intros ->; apply Hx; set_solver). rewrite list_lookup_insert_ne by done. split; [done|]. by apply IH.
Qed.

Lemma content_insert pr i p : content (<[i := p]> pr) = <[i := (atom p, flags p)]> (content pr).
Proof. unfold content. by rewrite list_fmap_insert. Qed.

Lemma content_insert_same pr i p q : pr !! i = Some q -> atom p = atom q -> flags p = flags q -> content (<[i := p]> pr) = content pr.
Proof. intros E Ha Hf. rewrite content_insert, Ha, Hf. apply list_insert_id. by apply content_lookup. Qed.

Lemma free_count_insert c i a f : c !! i = Some (a, f) -> a <> JS_ATOM_NULL -> free_count (<[i := (JS_ATOM_NULL, 0)]> c) = S (free_count c).
Proof.
  unfold free_count. revert i. induction c as [|x c IH]; intros [|i] E Ha; cbn in E; simplify_eq.
  - cbn [insert list_insert]. rewrite filter_cons_True by done. rewrite (filter_cons_False _ (a, f)) by done. done.
  - change (<[S i := (JS_ATOM_NULL, 0)]> (x :: c)) with (x :: <[i := (JS_ATOM_NULL, 0)]> c).
    destruct (decide (fst x = JS_ATOM_NULL)) as [Hx|Hx].
    + rewrite !(filter_cons_True _ x) by done. cbn [length]. by rewrite (IH i).
    + rewrite !(filter_cons_False _ x) by done. by apply IH.
Qed.

(** The buckets once the entry [i] of the bucket [b] is free and unlinked. *)
Lemma table_ok_remove mask tab tab' pr pr' b i p l1 l2 : table_ok mask tab pr -> pr !! i = Some p -> live p ->
  Z.to_nat (atom p .& mask) = b -> length tab' = length tab ->
  (forall c, c <> b -> tab' !! c = tab !! c) ->
  (exists h, tab !! b = Some h /\ chained pr h (l1 ++ i :: l2)) ->
  (forall h', tab' !! b = Some h' -> chained pr' h' (l1 ++ l2)) ->
  (forall j q, j <> i -> j ∉ l1 -> pr !! j = Some q -> pr' !! j = Some q) ->
  (forall j q, j <> i -> pr !! j = Some q -> exists q', pr' !! j = Some q' /\ atom q' = atom q) ->
  (exists p', pr' !! i = Some p' /\ ~ live p') -> length pr' = length pr ->
  table_ok mask tab' pr'.
Proof.
  intros Ht Ep Hp Hb Hlt Htab (h0 & Eh0 & Hch) Hch' Hsame Hatom (p' & Ep' & Hp') Hlen.
  assert (Hin : forall c j, in_bucket mask pr' c j <-> in_bucket mask pr c j /\ j <> i).
  { intros c j. unfold in_bucket. split.
    - intros (q & Eq & Hq & Hc). destruct (decide (j = i)) as [->|Hj]; [rewrite Ep' in Eq; by simplify_eq|].
      split; [|done]. destruct (lookup_lt_is_Some_2 pr j) as [q0 Eq0]; [rewrite <- Hlen; by eapply lookup_lt_Some|].
      destruct (Hatom j q0 Hj Eq0) as (q' & Eq' & Ha). rewrite Eq in Eq'. apply (inj Some) in Eq'. subst q'.
      exists q0. unfold live in *. rewrite <- Ha. done.
    - intros [(q & Eq & Hq & Hc) Hj]. destruct (Hatom j q Hj Eq) as (q' & Eq' & Ha). exists q'. unfold live in *. by rewrite Ha. }
  assert (Hchain : forall l, chained pr h0 l -> l = l1 ++ i :: l2).
  { revert Hch. generalize (l1 ++ i :: l2) as l. clear. intros l. generalize h0 as h.
    induction l as [|x l IH]; intros h Hc [|y l'] Hc'; cbn in *; try done; [lia|lia|].
    destruct Hc as (-> & q & Eq & Hc), Hc' as (E & q' & Eq' & Hc'). assert (x = y) as <- by lia.
    rewrite Eq in Eq'. simplify_eq. f_equal. by apply (IH (hash_next q')). }
  intros c h Ec. destruct (decide (c = b)) as [->|Hc].
  - destruct (Ht _ _ Eh0) as (l & Hcl & Hs & Hl). rewrite (Hchain l Hcl) in *. exists (l1 ++ l2).
    pose proof (sorted_gt_nodup _ Hs) as Hnd. split_and!; [by apply Hch'| |].
    + apply StronglySorted_app in Hs as (H1 & H2 & [H3 H4]%StronglySorted_inv). apply StronglySorted_app. split_and!; try done.
      intros x y Hx Hy. apply H1; [done|by right].
    + intros j. rewrite Hin, <- Hl, !elem_of_app, elem_of_cons. split; [|naive_solver].
      intros Hj. split; [naive_solver|]. intros ->. apply NoDup_app in Hnd as (_ & H1 & [H2 _]%NoDup_cons).
      destruct Hj as [Hj|Hj]; [|done]. by apply (H1 i Hj); left.
  - rewrite Htab in Ec by done. destruct (Ht _ _ Ec) as (l & Hcl & Hs & Hl). exists l. split_and!; [|done|].
    + apply (chained_ext pr); [|done]. intros j q Hj Eq. exists q. split; [|done].
      apply Hl in Hj as (q' & Eq' & Hq' & Hcq'). rewrite Eq in Eq'. apply (inj Some) in Eq'. subst q'.
      apply Hsame; [|intros Hj1|done].
      * intros ->. rewrite Ep in Eq. simplify_eq.
      * destruct (Ht _ _ Eh0) as (l' & Hcl' & _ & Hl'). rewrite (Hchain l' Hcl') in Hl'.
        assert (Hjb : in_bucket mask pr b j) by (apply Hl'; set_solver). destruct Hjb as (q' & Eq' & _ & Hb').
        rewrite Eq in Eq'. simplify_eq.
    + intros j. rewrite Hin, Hl. split; [|by intros []]. intros Hj. split; [done|]. intros ->.
      destruct Hj as (q & Eq & _ & Hcq). rewrite Ep in Eq. simplify_eq.
Qed.

(** Two shapes with the same entries in memory. *)
Definition same_layout (sh sh' : JSShape) : Prop :=
  shape_prop sh' = shape_prop sh /\ hash_table sh' = hash_table sh /\ prop_hash_mask sh' = prop_hash_mask sh /\
  prop_size sh' = prop_size sh /\ deleted_prop_count sh' = deleted_prop_count sh /\ proto sh' = proto sh.

Lemma shape_ok_layout sh sh' : shape_ok sh -> same_layout sh sh' -> (is_hashed sh' = true -> is_hashed sh = true) -> shape_ok sh'.
Proof.
  intros Ho (E1 & E2 & E3 & E4 & E5 & E6) Hh. apply (shape_ok_content sh); try done; rewrite ?E1, ?E2, ?E3; try done; try apply Ho.
  rewrite E4. lia.
Qed.

Lemma remove_entry_spec sh a i lpr h : shape_ok sh -> is_hashed sh = false -> 0 < a ->
  hash_table sh !! find_bucket sh a = Some h -> find_delete (length (shape_prop sh)) (shape_prop sh) h a None = Some (Some (i, lpr)) ->
  exists sh1 sh2, unlink_property sh a i lpr = Some sh1 /\ clear_property sh1 i = Some sh2 /\ shape_ok sh2 /\
    content (shape_prop sh2) = <[i := (JS_ATOM_NULL, 0)]> (content (shape_prop sh)) /\ proto sh2 = proto sh /\
    is_hashed sh2 = false /\ prop_size sh2 = prop_size sh /\ sh_ref_count sh2 = sh_ref_count sh /\ hash sh2 = hash sh.
Proof.
  intros Ho Hh Ha Eh E. destruct (so_table _ Ho _ _ Eh) as (l & Hc & Hs & Hl). pose proof (sorted_gt_nodup _ Hs) as Hnd.
  destruct (find_delete_spec (shape_prop sh) a (length (shape_prop sh)) h l None Hc) as (r & Er & Hr); [by eapply bucket_length|].
  rewrite E in Er. apply (inj Some) in Er. subst r. destruct Hr as [(l1 & l2 & -> & ->) (p & Ep & Hpa)].
  assert (Hp : live p) by (unfold live, JS_ATOM_NULL; lia). assert (Hi : (i < length (shape_prop sh))%nat) by (by eapply lookup_lt_Some).
  set (pr1 := match last l1 with
              | Some j => match shape_prop sh !! j with Some pj => <[j := mkPr (hash_next p) (flags pj) (atom pj)]> (shape_prop sh) | None => [] end
              | None => shape_prop sh end).
  set (tab1 := match last l1 with Some _ => hash_table sh | None => <[find_bucket sh a := hash_next p]> (hash_table sh) end).
  assert (Hu : unlink_property sh a i (match last l1 with Some j => Some j | None => None end) = Some (with_props tab1 pr1 sh) /\
    length pr1 = length (shape_prop sh) /\ length tab1 = length (hash_table sh) /\ content pr1 = content (shape_prop sh) /\
    pr1 !! i = Some p /\ (forall c, c <> find_bucket sh a -> tab1 !! c = hash_table sh !! c) /\
    (forall h', tab1 !! find_bucket sh a = Some h' -> chained (<[i := mkPr (hash_next p) 0 JS_ATOM_NULL]> pr1) h' (l1 ++ l2)) /\
    (forall j q, j ∉ l1 -> shape_prop sh !! j = Some q -> pr1 !! j = Some q) /\
    (forall j q, shape_prop sh !! j = Some q -> exists q', pr1 !! j = Some q' /\ atom q' = atom q)).
  { unfold unlink_property. rewrite Ep. cbn [mbind option_bind]. destruct (last l1) as [j|] eqn:El.
    - apply last_Some in El as [l1' ->]. rewrite <- app_assoc in Hc, Hnd. cbn [app] in Hc, Hnd.
      assert (Hj : (j < length (shape_prop sh))%nat) by (apply (chained_bound _ _ _ j Hc); set_solver).
      destruct (lookup_lt_is_Some_2 _ _ Hj) as [pj Ej]. unfold pr1, tab1. rewrite Ej. cbn [mbind option_bind].
      assert (Hij : i <> j) by (apply NoDup_app in Hnd as (_ & _ & [Hn _]%NoDup_cons); intros ->; apply Hn; by left).
      split_and!; [done|apply length_insert|done|by eapply content_insert_same|by rewrite list_lookup_insert_ne|done| | |].
      + intros h' Eh'. rewrite Eh in Eh'. apply (inj Some) in Eh'. subst h'. apply chained_insert.
        * rewrite <- app_assoc. cbn. by eapply (chained_skip _ _ _ _ i).
        * rewrite <- app_assoc. apply NoDup_app in Hnd as (_ & Hn & [Hn' [Hn'' _]%NoDup_cons]%NoDup_cons).
          rewrite elem_of_app, elem_of_app. intros [H|[H|H]]; [|apply list_elem_of_singleton in H; done|done].
          apply (Hn i H). right. by left.
      + intros x q Hx Eq. rewrite list_lookup_insert_ne; [done|]. intros ->. apply Hx. set_solver.
      + intros x q Eq. destruct (decide (x = j)) as [->|Hx].
        * rewrite list_lookup_insert_eq by done. rewrite Ej in Eq. simplify_eq. eexists. split; done.
        * rewrite list_lookup_insert_ne by done. by exists q.
    - apply last_None in El. subst l1. cbn in Hc, Hnd. destruct Hc as (-> & p' & Ep' & Hc). rewrite Ep in Ep'. apply (inj Some) in Ep'. subst p'.
      apply NoDup_cons in Hnd as [Hi2 _]. unfold pr1, tab1. split_and!; try done.
      + apply length_insert.
      + intros c Hcb. by rewrite list_lookup_insert_ne by congruence.
      + intros h' Eh'. rewrite list_lookup_insert_eq in Eh' by (by eapply lookup_lt_Some). apply (inj Some) in Eh'. subst h'.
        by apply chained_insert.
      + intros x q Eq. by exists q. }
  destruct Hu as (Hu & Hl1 & Ht1 & Hc1 & Ep1 & Htab & Hch' & Hsame & Hatom).
  exists (with_props tab1 pr1 sh). eexists. split; [by destruct (last l1)|].
  unfold clear_property. cbn [shape_prop with_props]. rewrite Ep1. cbn [mbind option_bind].
  split; [done|]. set (pr2 := <[i := mkPr (hash_next p) 0 JS_ATOM_NULL]> pr1).
  assert (Hc2 : content pr2 = <[i := (JS_ATOM_NULL, 0)]> (content (shape_prop sh))) by (unfold pr2; by rewrite content_insert, Hc1).
  assert (Hlen2 : length pr2 = length (shape_prop sh)) by (unfold pr2; by rewrite length_insert).
  split; [|by split_and!]. split; cbn [prop_hash_mask hash_table shape_prop prop_size deleted_prop_count is_hashed with_props].
  - destruct (so_mask _ Ho) as (k & Hk & Hm & Hlen). exists k. by rewrite Ht1.
  - apply (table_ok_remove _ (hash_table sh) tab1 (shape_prop sh) pr2 (find_bucket sh a) i p l1 l2); try done.
    + apply Ho.
    + unfold find_bucket. by rewrite Hpa.
    + by exists h.
    + intros j q Hj Hj1 Eq. unfold pr2. rewrite list_lookup_insert_ne by congruence. by apply Hsame.
    + intros j q Hj Eq. unfold pr2. rewrite list_lookup_insert_ne by congruence. by apply Hatom.
    + exists (mkPr (hash_next p) 0 JS_ATOM_NULL). unfold pr2. rewrite list_lookup_insert_eq by (by rewrite Hl1). split; [done|by intros H].
  - intros x y q q' Eq Eq' Hq Hqq.
    assert (Hne : forall z r, pr2 !! z = Some r -> live r -> exists r0, shape_prop sh !! z = Some r0 /\ atom r0 = atom r).
    { intros z r Er Hr. destruct (decide (z = i)) as [->|Hz].
      - unfold pr2 in Er. rewrite list_lookup_insert_eq in Er by (by rewrite Hl1). simplify_eq. by destruct Hr.
      - destruct (content_back (shape_prop sh) z (atom r) (flags r)) as (r0 & Er0 & Hr0 & _); [|by exists r0].
        rewrite <- (list_lookup_insert_ne _ i z (JS_ATOM_NULL, 0)) by congruence. rewrite <- Hc2. by apply content_lookup. }
    destruct (Hne x q Eq Hq) as (r & Er & Hr). destruct (Hne y q' Eq') as (r' & Er' & Hr'); [unfold live in *; congruence|].
    apply (so_names _ Ho x y r r'); try done; unfold live in *; congruence.
  - unfold atoms_ok. apply (Forall_fmap (fun p => (atom p, flags p)) (fun x => 0 <= fst x)). fold (content pr2).
    { rewrite Hc2. apply Forall_insert; [|unfold JS_ATOM_NULL; cbn; lia]. unfold content. apply Forall_fmap. exact (so_atoms _ Ho). }
  - apply (Forall_fmap (fun p => (atom p, flags p)) (fun x => 0 <= snd x < 64)). fold (content pr2).
    { rewrite Hc2. apply Forall_insert; [|cbn; lia]. unfold content. apply Forall_fmap. exact (so_flags _ Ho). }
  - unfold prop_count. cbn [shape_prop]. rewrite Hlen2. apply Ho.
  - apply Ho.
  - rewrite free_count_content, Hc2, (free_count_insert _ _ (atom p) (flags p) (content_lookup _ _ _ Ep) Hp).
    rewrite (so_deleted _ Ho), free_count_content. lia.
  - rewrite Hh. done.
Qed.
