(* ===== verification/ShapesInv.v ===== *)
(** * The shapes of a runtime

    The invariant of the shapes and the objects of a runtime: the reference counts of the
    shapes are the numbers of the objects that have them, and the hash table holds the
    hashed shapes.  The helpers of the engine keep it. *)
From S2P Require Export MapSum ShapeTable.

Section inv.
Context {V : Type} {W : World} {Al : Malloc}.
Implicit Types s : JSRuntime (V := V).

(** ** The hash table of the shapes *)

(** The shape [p], of hash [h], is to be in the table; [off] is a hashed shape that is
    not in the table for the moment. *)
Definition linked (off : option ptr) (m : gmap ptr JSShape) (p : ptr) (h : Z) : Prop :=
  exists sh, m !! p = Some sh /\ is_hashed sh = true /\ hash sh = h /\ off <> Some p.

Record buckets_ok (n : Z) (P : ptr -> Z -> Prop) s : Prop := {
  bo_bits : 4 <= shape_hash_bits s /\ len (shape_hash_table s) = 2 ^ shape_hash_bits s /\ 2 ^ shape_hash_bits s <= 4 * (n + 4);
  bo_count : shape_hash_count s = len (concat (shape_hash_table s)) /\ shape_hash_count s <= n;
  bo_bucket b l : shape_hash_table s !! b = Some l -> NoDup l /\
    forall p, p ∈ l <-> exists h, P p h /\ Z.to_nat (get_shape_hash h (shape_hash_bits s)) = b;
  bo_hash p h : P p h -> word 32 h;
  bo_fun p h h' : P p h -> P p h' -> h = h';
}.

Lemma linked_fun off m p h h' : linked off m p h -> linked off m p h' -> h = h'.
Proof. intros (sh & E & _ & <- & _) (sh' & E' & _ & <- & _). rewrite E in E'. by simplify_eq. Qed.

Lemma buckets_ext n P P' s s' : buckets_ok n P s -> (forall p h, P' p h <-> P p h) ->
  shape_hash_table s' = shape_hash_table s -> shape_hash_bits s' = shape_hash_bits s -> shape_hash_count s' = shape_hash_count s ->
  buckets_ok n P' s'.
Proof.
  intros [] HP E1 E2 E3. split; rewrite ?E1, ?E2, ?E3; try done.
  - intros b l E. destruct (bo_bucket0 b l E) as [Hnd Hl]. split; [done|]. intros p. rewrite Hl.
    split; intros (h & Hh & Hb); exists h; (split; [by apply HP|done]).
  - intros p h Hh%HP. by apply (bo_hash0 p).
  - intros p h h' Hh%HP Hh'%HP. by apply (bo_fun0 p).
Qed.

Lemma shape_hash_bound h bits : word 32 h -> 0 <= bits <= 32 -> 0 <= get_shape_hash h bits < 2 ^ bits.
Proof.
  intros Hh Hb. unfold get_shape_hash. rewrite Z.shiftr_div_pow2 by lia. unfold word in Hh.
  assert (E : 2 ^ 32 = 2 ^ (32 - bits) * 2 ^ bits) by (rewrite <- Z.pow_add_r by lia; f_equal; lia).
  split; [apply Z.div_pos; lia|]. apply Z.div_lt_upper_bound; lia.
Qed.

Lemma bits_bound n P s : buckets_ok n P s -> n < 2 ^ 26 -> shape_hash_bits s <= 29.
Proof.
  intros [(H1 & _ & H2) _ _ _ _] Hn. destruct (Z.le_gt_cases (shape_hash_bits s) 29); [done|].
  assert (2 ^ 30 <= 2 ^ shape_hash_bits s) by (apply Z.pow_le_mono_r; lia). lia.
Qed.

(** The bucket of a hash. *)
Lemma bucket_lookup n P s h : buckets_ok n P s -> n < 2 ^ 26 -> word 32 h ->
  exists l, shape_hash_table s !! Z.to_nat (get_shape_hash h (shape_hash_bits s)) = Some l.
Proof.
  intros HB Hn Hh. pose proof (bits_bound _ _ _ HB Hn). destruct (bo_bits _ _ _ HB) as (H1 & H2 & _).
  pose proof (shape_hash_bound h (shape_hash_bits s) Hh ltac:(lia)). apply lookup_lt_is_Some_2. lia.
Qed.

Lemma concat_insert {A} (t : list (list A)) i l l' : t !! i = Some l ->
  (len (concat (<[i := l']> t)) = len (concat t) - len l + len l')%Z.
Proof.
  revert i. induction t as [|x t IH]; intros [|i] E; cbn in E; [done|done| |].
  - simplify_eq. cbn. rewrite !length_app. lia.
  - specialize (IH i E). change (<[S i := l']> (x :: t)) with (x :: <[i := l']> t). cbn [concat]. rewrite !length_app. lia.
Qed.

Lemma unlink_chain_spec p l : NoDup l -> p ∈ l ->
  exists l', unlink_chain p l = Some l' /\ NoDup l' /\ S (length l') = length l /\ forall q, q ∈ l' <-> q <> p /\ q ∈ l.
Proof.
  induction l as [|x l IH]; [by intros _ ?%not_elem_of_nil|]. intros [Hx Hnd]%NoDup_cons Hp. cbn. case_decide as Hxp.
  - subst x. exists l. split_and!; try done. intros q. rewrite elem_of_cons. split; [|naive_solver].
    intros Hq. split; [by intros ->|by right].
  - destruct IH as (l' & E & Hnd' & Hlen & Hl'); [done|by apply elem_of_cons in Hp as [->|]|]. rewrite E. exists (x :: l').
    cbn. split_and!; [done| |lia|].
    + apply NoDup_cons. split; [|done]. rewrite Hl'. tauto.
    + intros q. rewrite !elem_of_cons, Hl'. naive_solver.
Qed.

(** [p] leaves the table. *)
Lemma hash_unlink_spec n s p sh : buckets_ok n (linked None (shapes s)) s -> n < 2 ^ 26 ->
  shapes s !! p = Some sh -> is_hashed sh = true ->
  exists tab, js_shape_hash_unlink s p = Some (set_buckets tab (shape_hash_bits s) (shape_hash_count s - 1) s) /\
    buckets_ok n (linked (Some p) (shapes s)) (set_buckets tab (shape_hash_bits s) (shape_hash_count s - 1) s).
Proof.
  intros HB Hn E Hh. assert (HP : linked None (shapes s) p (hash sh)) by (by exists sh).
  destruct (bucket_lookup _ _ s (hash sh) HB Hn) as [l El]; [by eapply (bo_hash _ _ _ HB)|].
  set (b := Z.to_nat (get_shape_hash (hash sh) (shape_hash_bits s))) in *.
  destruct (bo_bucket _ _ _ HB b l El) as [Hnd Hl].
  destruct (unlink_chain_spec p l Hnd) as (l' & E' & Hnd' & Hlen & Hl'); [apply Hl; by exists (hash sh)|].
  exists (<[b := l']> (shape_hash_table s)). unfold js_shape_hash_unlink. rewrite E. cbn [mbind option_bind]. fold b.
  rewrite El. cbn [mbind option_bind]. rewrite E'. split; [done|]. destruct (bo_count _ _ _ HB) as [Hc1 Hc2]. split; cbn.
  - rewrite length_insert. apply HB.
  - rewrite (concat_insert _ _ _ l' El). lia.
  - intros c lc Ec. destruct (decide (c = b)) as [->|Hc].
    + rewrite list_lookup_insert_eq in Ec by (by eapply lookup_lt_Some). simplify_eq. split; [done|]. intros q. rewrite Hl', Hl.
      split.
      * intros (Hq & h & (shq & Eq & H1 & H2 & _) & Hb). exists h. split; [|done]. exists shq. split_and!; try done. congruence.
      * intros (h & (shq & Eq & H1 & H2 & H3) & Hb). split; [congruence|]. exists h. split; [|done]. by exists shq.
    + rewrite list_lookup_insert_ne in Ec by congruence. destruct (bo_bucket _ _ _ HB c lc Ec) as [Hnd2 Hl2]. split; [done|].
      intros q. rewrite Hl2. split.
      * intros (h & (shq & Eq & H1 & H2 & _) & Hb). exists h. split; [|done]. exists shq. split_and!; try done.
        intros [= <-]. apply Hc. unfold b. rewrite E in Eq. by simplify_eq.
      * intros (h & (shq & Eq & H1 & H2 & H3) & Hb). exists h. split; [|done]. by exists shq.
  - intros q h (shq & Eq & H1 & H2 & _). apply (bo_hash _ _ _ HB q). by exists shq.
  - intros q h h'. apply linked_fun.
Qed.

(** [p] comes back. *)
Lemma hash_link_spec n s p sh : buckets_ok n (linked (Some p) (shapes s)) s -> n < 2 ^ 26 -> shape_hash_count s < n ->
  shapes s !! p = Some sh -> is_hashed sh = true -> word 32 (hash sh) ->
  exists tab, js_shape_hash_link s p = Some (set_buckets tab (shape_hash_bits s) (shape_hash_count s + 1) s) /\
    buckets_ok n (linked None (shapes s)) (set_buckets tab (shape_hash_bits s) (shape_hash_count s + 1) s).
Proof.
  intros HB Hn Hcn E Hh Hw. destruct (bucket_lookup _ _ s (hash sh) HB Hn Hw) as [l El].
  set (b := Z.to_nat (get_shape_hash (hash sh) (shape_hash_bits s))) in *. destruct (bo_bucket _ _ _ HB b l El) as [Hnd Hl].
  exists (<[b := p :: l]> (shape_hash_table s)). unfold js_shape_hash_link, insert_bucket. rewrite E. cbn [mbind option_bind]. fold b.
  rewrite El. split; [done|]. destruct (bo_count _ _ _ HB) as [Hc1 Hc2]. split; cbn.
  - rewrite length_insert. apply HB.
  - rewrite (concat_insert _ _ _ (p :: l) El). cbn [length]. lia.
  - intros c lc Ec. destruct (decide (c = b)) as [->|Hc].
    + rewrite list_lookup_insert_eq in Ec by (by eapply lookup_lt_Some). simplify_eq. split.
      * apply NoDup_cons. split; [|done]. rewrite Hl. intros (h & (shq & _ & _ & _ & Hq) & _). done.
      * intros q. rewrite elem_of_cons, Hl. split.
        -- intros [->|(h & (shq & Eq & H1 & H2 & _) & Hb)]; [by exists (hash sh); split; [exists sh|]|].
           exists h. split; [|done]. by exists shq.
        -- intros (h & (shq & Eq & H1 & H2 & _) & Hb). destruct (decide (q = p)) as [|Hq]; [by left|right].
           exists h. split; [|done]. exists shq. split_and!; try done. congruence.
    + rewrite list_lookup_insert_ne in Ec by congruence. destruct (bo_bucket _ _ _ HB c lc Ec) as [Hnd2 Hl2]. split; [done|].
      intros q. rewrite Hl2. split.
      * intros (h & (shq & Eq & H1 & H2 & _) & Hb). exists h. split; [|done]. by exists shq.
      * intros (h & (shq & Eq & H1 & H2 & _) & Hb). exists h. split; [|done]. exists shq. split_and!; try done.
        intros [= <-]. apply Hc. unfold b. rewrite E in Eq. by simplify_eq.
  - intros q h (shq & Eq & H1 & H2 & _). destruct (decide (q = p)) as [->|Hq]; [rewrite E in Eq; by simplify_eq|].
    apply (bo_hash _ _ _ HB q). exists shq. split_and!; try done. congruence.
  - intros q h h'. apply linked_fun.
Qed.

Lemma NoDup_concat {A} (t : list (list A)) : (forall i l, t !! i = Some l -> NoDup l) ->
  (forall i j l l' x, t !! i = Some l -> t !! j = Some l' -> x ∈ l -> x ∈ l' -> i = j) -> NoDup (concat t).
Proof.
  induction t as [|l t IH]; intros H1 H2; [constructor|]. cbn. apply NoDup_app. split_and!.
  - by apply (H1 0%nat).
  - intros x Hx Hx'. apply list_elem_of_In, in_concat in Hx' as (l' & Hl' & Hx'). apply list_elem_of_In, list_elem_of_lookup in Hl' as [j Hj].
    apply list_elem_of_In in Hx'. by specialize (H2 0%nat (S j) l l' x eq_refl Hj Hx Hx').
  - apply IH.
    + intros i l' Hi. by apply (H1 (S i)).
    + intros i j l1 l2 x Hi Hj Hx Hx'. by specialize (H2 (S i) (S j) l1 l2 x Hi Hj Hx Hx') as [= ->].
Qed.

Lemma elem_of_concat {A} (t : list (list A)) x : x ∈ concat t <-> exists i l, t !! i = Some l /\ x ∈ l.
Proof.
  rewrite list_elem_of_In, in_concat. split.
  - intros (l & Hl%list_elem_of_In & Hx%list_elem_of_In). apply list_elem_of_lookup in Hl as [i Hi]. by exists i, l.
  - intros (i & l & Hi%list_elem_of_lookup_2 & Hx). exists l. by rewrite <- !list_elem_of_In.
Qed.

Lemma concat_replicate_nil {A} n : concat (replicate n (@nil A)) = [].
Proof. by induction n. Qed.

(** The elements of the table. *)
Lemma table_elements n P s : buckets_ok n P s -> n < 2 ^ 26 ->
  NoDup (concat (shape_hash_table s)) /\ forall p, p ∈ concat (shape_hash_table s) <-> exists h, P p h.
Proof.
  intros HB Hn. split.
  - apply NoDup_concat.
    + intros i l E. by apply (bo_bucket _ _ _ HB i).
    + intros i j l l' x Ei Ej Hx Hx'. apply (bo_bucket _ _ _ HB i l Ei) in Hx as (h & Hh & <-).
      apply (bo_bucket _ _ _ HB j l' Ej) in Hx' as (h' & Hh' & <-). by rewrite (bo_fun _ _ _ HB x h h').
  - intros p. rewrite elem_of_concat. split.
    + intros (i & l & E & Hp). apply (bo_bucket _ _ _ HB i l E) in Hp as (h & Hh & _). by exists h.
    + intros (h & Hh). destruct (bucket_lookup _ _ s h HB Hn) as [l El]; [by eapply (bo_hash _ _ _ HB)|].
      eexists _, l. split; [exact El|]. apply (bo_bucket _ _ _ HB _ l El). by exists h.
Qed.

Lemma rehash_table_spec n P s bits : buckets_ok n P s -> n < 2 ^ 26 -> 0 <= bits <= 32 ->
  (forall p h, P p h -> exists sh, shapes s !! p = Some sh /\ hash sh = h) ->
  exists tab, foldM (insert_bucket (shapes s) bits) (concat (shape_hash_table s)) (replicate (Z.to_nat (2 ^ bits)) []) = Some tab /\
    length tab = Z.to_nat (2 ^ bits) /\ length (concat tab) = length (concat (shape_hash_table s)) /\
    forall b l, tab !! b = Some l -> NoDup l /\ forall p, p ∈ l <-> exists h, P p h /\ Z.to_nat (get_shape_hash h bits) = b.
Proof.
  intros HB Hn Hb HP. destruct (table_elements _ _ _ HB Hn) as [Hnd Hel].
  destruct (foldM_inv (insert_bucket (shapes s) bits) (fun rest tab => exists done, concat (shape_hash_table s) = done ++ rest /\
    length tab = Z.to_nat (2 ^ bits) /\ length (concat tab) = length done /\
    forall b l, tab !! b = Some l -> NoDup l /\ forall p, p ∈ l <-> p ∈ done /\ exists h, P p h /\ Z.to_nat (get_shape_hash h bits) = b)
    (concat (shape_hash_table s)) (replicate (Z.to_nat (2 ^ bits)) [])) as (tab & E & done & Ed & Hlen & Hcl & Hl).
  - exists []. rewrite length_replicate, concat_replicate_nil. split_and!; try done. intros b l [-> _]%lookup_replicate.
    split; [constructor|]. intros p. rewrite !elem_of_nil. naive_solver.
  - intros p rest tab (done & Ed & Hlen & Hcl & Hl). rewrite Ed in Hnd. apply NoDup_app in Hnd as (_ & Hnd & _).
    assert (Hpd : p ∉ done) by (intros H; apply (Hnd p H); by left).
    destruct (proj1 (Hel p)) as [h Hh]; [rewrite Ed; set_solver|]. destruct (HP p h Hh) as (sh & Eh & Esh).
    pose proof (shape_hash_bound h bits (bo_hash _ _ _ HB p h Hh) Hb) as Hr. unfold insert_bucket. rewrite Eh. cbn [mbind option_bind].
    rewrite Esh. set (b := Z.to_nat (get_shape_hash h bits)). destruct (lookup_lt_is_Some_2 tab b) as [l El]; [unfold b; lia|].
    rewrite El. cbn [mbind option_bind]. eexists. split; [done|]. exists (done ++ [p]). rewrite <- app_assoc, length_insert, length_app.
    split_and!; [done|done| |].
    + pose proof (concat_insert tab b l (p :: l) El) as H. cbn [length] in *. lia.
    + intros c lc Ec. destruct (decide (c = b)) as [->|Hc].
      * rewrite list_lookup_insert_eq in Ec by (by eapply lookup_lt_Some). apply (inj Some) in Ec. subst lc. destruct (Hl b l El) as [Hndl Hll]. split.
        -- apply NoDup_cons. split; [|done]. by intros [H _]%Hll.
        -- intros q. rewrite elem_of_cons, Hll, elem_of_app, list_elem_of_singleton. split; [|naive_solver].
           intros [->|[Hq H]]; [|by split; [left|]]. split; [by right|]. by exists h.
      * rewrite list_lookup_insert_ne in Ec by congruence. destruct (Hl c lc Ec) as [Hndl Hll]. split; [done|].
        intros q. rewrite Hll, elem_of_app, list_elem_of_singleton. split; [naive_solver|].
        intros [[Hq| ->] (h' & Hh' & Hb')]; [split; [done|by exists h']|]. destruct Hc. rewrite <- Hb'. unfold b.
        by rewrite (bo_fun _ _ _ HB p h h').
  - rewrite app_nil_r in Ed. subst done. exists tab. split_and!; try done. intros b l Eb. destruct (Hl b l Eb) as [Hndl Hll]. split; [done|].
    intros p. rewrite Hll, Hel. naive_solver.
Qed.

Lemma resize_shape_hash_spec n s : buckets_ok n (linked None (shapes s)) s -> n < 2 ^ 26 ->
  len (shape_hash_table s) < 2 * (shape_hash_count s + 1) ->
  exists s', resize_shape_hash s (shape_hash_bits s + 1) = Some s' /\ buckets_ok n (linked None (shapes s)) s' /\
    shapes s' = shapes s /\ objects s' = objects s /\ shape_hash_count s' = shape_hash_count s /\
    atom_refs s' = atom_refs s /\ proto_refs s' = proto_refs s.
Proof.
  intros HB Hn Hc. pose proof (bits_bound _ _ _ HB Hn) as Hbits. destruct (bo_bits _ _ _ HB) as (H1 & H2 & H3).
  destruct (bo_count _ _ _ HB) as [H4 H5]. unfold resize_shape_hash. rewrite option_guard_True by lia. cbn [mbind option_bind].
  unfold js_malloc. destruct (ext_ok (ev s)); cbn [negb]; [|eexists; split; [done|]; split_and!; try done; by eapply buckets_ext].
  destruct (rehash_table_spec n _ s (shape_hash_bits s + 1) HB Hn) as (tab & E & Hlen & Hcl & Hl); [lia|by intros p h (sh & E & _ & H & _); exists sh|].
  cbn [shapes shape_hash_table]. rewrite E. cbn [mbind option_bind]. eexists. split; [done|]. split_and!; try done.
  assert (E2 : 2 ^ (shape_hash_bits s + 1) = 2 * 2 ^ shape_hash_bits s) by (rewrite Z.pow_add_r by lia; lia).
  split; cbn; try done.
  - rewrite Hlen, Z2Nat.id, E2 by lia. lia.
  - rewrite Hcl. lia.
  - apply HB.
  - apply HB.
Qed.
End inv.
