(* ===== verification/ShapesRefine.v ===== *)
(** * The properties of objects

    Each object has a prototype and a list of properties of its own, in the order in which
    they were added, although objects share their shapes. *)
From S2P Require Export ShapesInv.

(** ** Lists of properties *)

Section entries.
Context {V : Type}.

(** The name, the flags and the value of the properties. *)
Fixpoint entries (c : list (Z * Z)) (l : list (option V)) : list (Z * Z * option V) :=
  match c, l with
  | (a, f) :: c, v :: l => if a =? JS_ATOM_NULL then entries c l else (a, f, v) :: entries c l
  | _, _ => []
  end.

Definition named (a : Z) (e : Z * Z * option V) : Prop := fst (fst e) = a.
#[export] Instance named_dec a e : Decision (named a e).
Proof. unfold named. apply _. Defined.

Lemma entries_prefix c l l' : take (length c) l = take (length c) l' -> entries c l = entries c l'.
Proof.
  revert l l'. induction c as [|[a f] c IH]; intros l l' E; [done|]. destruct l as [|v l], l' as [|v' l']; try done.
  cbn in E. injection E as -> E. cbn. by rewrite (IH l l' E).
Qed.

Lemma entries_snoc c l a f v : a <> JS_ATOM_NULL -> l !! length c = Some v -> entries (c ++ [(a, f)]) l = entries c l ++ [(a, f, v)].
Proof.
  intros Ha. revert l. induction c as [|[b g] c IH]; intros [|x l] E; cbn in E; simplify_eq.
  - cbn. destruct (Z.eqb_spec a JS_ATOM_NULL); [done|]. by destruct l.
  - cbn. rewrite (IH l E). by destruct (b =? JS_ATOM_NULL).
Qed.

(** The name of the entry [i] is its own. *)
Definition unique_at (c : list (Z * Z)) (i : nat) (a : Z) : Prop :=
  forall j b g, c !! j = Some (b, g) -> b = a -> j = i.

Lemma unique_at_S x c i a : unique_at (x :: c) (S i) a -> unique_at c i a.
Proof. intros H j b g E Hb. by specialize (H (S j) b g E Hb) as [= ->]. Qed.

Lemma entries_named c l a e : e ∈ entries c l -> named a e -> exists i f, c !! i = Some (a, f).
Proof.
  revert l. induction c as [|[b g] c IH]; intros [|x l]; cbn; try by intros ?%not_elem_of_nil.
  intros He Hn. assert (H : e ∈ entries c l \/ e = (b, g, x)).
  { destruct (b =? JS_ATOM_NULL); [by left|]. apply elem_of_cons in He as [->|]; [by right|by left]. }
  destruct H as [H| ->]; [destruct (IH l H Hn) as (i & f & E); by exists (S i), f|]. unfold named in Hn. cbn in Hn. subst b. by exists 0%nat, g.
Qed.

Lemma filter_others c l a : (forall i f, c !! i <> Some (a, f)) -> filter (fun e => ~ named a e) (entries c l) = entries c l.
Proof.
  intros Hn. assert (H : Forall (fun e => ~ named a e) (entries c l)).
  { apply Forall_forall. intros e He Ha. destruct (entries_named c l a e He Ha) as (j & g & Ej). by destruct (Hn j g). }
  induction H as [|e k He _ IH]; [done|]. by rewrite filter_cons_True, IH.
Qed.

(** The entry [i] is freed. *)
Lemma entries_clear c l i a f v : c !! i = Some (a, f) -> unique_at c i a -> a <> JS_ATOM_NULL ->
  entries (<[i := (JS_ATOM_NULL, 0)]> c) (<[i := v]> l) = filter (fun e => ~ named a e) (entries c l).
Proof.
  revert l i. induction c as [|[b g] c IH]; intros [|x l] i E Hu Ha; destruct i as [|i]; cbn in E; simplify_eq; try done.
  - cbn. destruct (Z.eqb_spec a JS_ATOM_NULL); [done|]. rewrite filter_cons_False by (intros H; by apply H).
    symmetry. apply filter_others. intros j g Ej. by specialize (Hu (S j) a g Ej eq_refl).
  - cbn. assert (b <> a) by (intros ->; by specialize (Hu 0%nat a g eq_refl eq_refl)).
    specialize (IH l i E (unique_at_S _ _ _ _ Hu) Ha). destruct (Z.eqb_spec b JS_ATOM_NULL); [exact IH|].
    rewrite filter_cons_True by done. f_equal. exact IH.
Qed.

(** Its flags or its value change. *)
Definition update_entry (a : Z) (g : Z * option V -> Z * option V) (e : Z * Z * option V) : Z * Z * option V :=
  let '(b, f, v) := e in if b =? a then let '(f, v) := g (f, v) in (b, f, v) else e.

Lemma map_update_other c l a g : (forall i f, c !! i <> Some (a, f)) -> update_entry a g <$> entries c l = entries c l.
Proof.
  intros Hn. rewrite <- list_fmap_id. apply list_fmap_ext. intros i [[b f] v] E%list_elem_of_lookup_2. cbn.
  destruct (Z.eqb_spec b a) as [->|]; [|done]. destruct (entries_named c l a _ E eq_refl) as (j & f' & Ej). by destruct (Hn j f').
Qed.

Lemma entries_update c l i a f v g : c !! i = Some (a, f) -> l !! i = Some v -> unique_at c i a -> a <> JS_ATOM_NULL ->
  entries (<[i := (a, fst (g (f, v)))]> c) (<[i := snd (g (f, v))]> l) = update_entry a g <$> entries c l.
Proof.
  revert l i. induction c as [|[b h] c IH]; intros [|x l] i E El Hu Ha; destruct i as [|i]; cbn in E, El; simplify_eq.
  - cbn. destruct (Z.eqb_spec a JS_ATOM_NULL); [done|]. cbn. rewrite Z.eqb_refl. destruct (g (f, v)) as [f' v'] eqn:Eg. cbn.
    f_equal. symmetry. apply map_update_other. intros j f0 Ej. by specialize (Hu (S j) a f0 Ej eq_refl).
  - cbn. specialize (IH l i E El (unique_at_S _ _ _ _ Hu) Ha).
    assert (b <> a) by (intros ->; by specialize (Hu 0%nat a h eq_refl eq_refl)).
    destruct (Z.eqb_spec b JS_ATOM_NULL); [exact IH|]. cbn. replace (b =? a) with false by lia. f_equal. exact IH.
Qed.

(** The free entries go. *)
Lemma entries_compact pr l : (length pr <= length l)%nat ->
  length (kept_values pr l) = length (filter (fun x => fst x <> JS_ATOM_NULL) (content pr)) /\
  entries (filter (fun x => fst x <> JS_ATOM_NULL) (content pr)) (kept_values pr l) = entries (content pr) l.
Proof.
  revert l. induction pr as [|p pr IH]; intros [|v l] Hl; cbn in Hl; try lia; [done|done|].
  destruct (IH l ltac:(lia)) as [H1 H2]. cbn [kept_values content fmap list_fmap].
  destruct (Z.eqb_spec (atom p) JS_ATOM_NULL) as [Hp|Hp].
  - rewrite filter_cons_False by (cbn; naive_solver). split; [done|]. cbn. rewrite Hp. exact H2.
  - rewrite filter_cons_True by (cbn; naive_solver). split; [cbn; by rewrite H1|]. cbn.
    destruct (Z.eqb_spec (atom p) JS_ATOM_NULL); [done|]. by f_equal.
Qed.

Lemma unique_content pr i p : names_ok pr -> pr !! i = Some p -> live p -> unique_at (content pr) i (atom p).
Proof.
  intros Hn Ep Hp j b g Ej Hb. apply content_back in Ej as (q & Eq & Hqa & _). symmetry. apply (Hn i j p q); try done. congruence.
Qed.
End entries.

(** ** The invariant *)

Section refine.
Context {V : Type} {W : World} {Al : Malloc}.
Implicit Types s : JSRuntime (V := V).

(** The number of objects that have the shape [p]. *)
Definition refs_to (p : ptr) (m : gmap ptr (JSObject (V := V))) : Z := hsum (fun _ o => if decide (shape o = p) then 1 else 0) m.

(** [ext p] references to the shape [p] are held by the running function; the arrays have
    at most [n] properties. *)
Record links_ok (ext : ptr -> Z) (n : Z) s : Prop := {
  lo_shape p sh : shapes s !! p = Some sh -> shape_ok sh /\ word 32 (hash sh) /\ prop_count sh <= n;
  lo_object q o : objects s !! q = Some o -> exists sh, shapes s !! shape o = Some sh /\ prop_size sh <= len (prop o);
  lo_ref p sh : shapes s !! p = Some sh -> sh_ref_count sh = refs_to p (objects s) + ext p /\ 0 < sh_ref_count sh /\
    (is_hashed sh = false -> sh_ref_count sh = 1);
  lo_ext p : 0 <= ext p;
}.

Definition table_inv (off : option ptr) (n : Z) s : Prop := buckets_ok n (linked off (shapes s)) s.

Definition no_ext (p : ptr) : Z := 0.
Definition inv (n : Z) s : Prop := links_ok no_ext n s /\ table_inv None n s.

(** An object as the program sees it. *)
Record ObjectView := mkView {
  v_proto : option ptr;
  v_props : list (Z * Z * option V);
  v_extensible : bool;
  v_immutable_prototype : bool
}.
Definition view s (q : ptr) : option ObjectView :=
  o ← objects s !! q;
  sh ← shapes s !! shape o;
  Some (mkView (proto sh) (entries (content (shape_prop sh)) (prop o)) (extensible o) (has_immutable_prototype o)).

(** The invariants are about these fields. *)
Definition core s := (shapes s, objects s, shape_hash_table s, shape_hash_bits s, shape_hash_count s).

Lemma core_fields s s' : core s' = core s -> shapes s' = shapes s /\ objects s' = objects s /\
  shape_hash_table s' = shape_hash_table s /\ shape_hash_bits s' = shape_hash_bits s /\ shape_hash_count s' = shape_hash_count s.
Proof. unfold core. by intros [= -> -> -> -> ->]. Qed.

Lemma links_core ext n s s' : core s' = core s -> links_ok ext n s -> links_ok ext n s'.
Proof. intros (E1 & E2 & _)%core_fields []. split; rewrite ?E1, ?E2; done. Qed.
Lemma table_core off n s s' : core s' = core s -> table_inv off n s -> table_inv off n s'.
Proof. intros (E1 & _ & E3 & E4 & E5)%core_fields HB. eapply buckets_ext; [exact HB| |done|done|done]. intros p h. by rewrite E1. Qed.
Lemma view_core s s' : core s' = core s -> forall q, view s' q = view s q.
Proof. intros (E1 & E2 & _)%core_fields q. unfold view. by rewrite E1, E2. Qed.

Lemma core_free_atoms pr s : core (fold_left (fun s p => JS_FreeAtom (atom p) s) pr s) = core s.
Proof. revert s. induction pr as [|p pr IH]; intros s; [done|]. cbn. by rewrite IH. Qed.
Lemma core_dup_atoms pr s : core (fold_left (fun s p => JS_DupAtom (atom p) s) pr s) = core s.
Proof. revert s. induction pr as [|p pr IH]; intros s; [done|]. cbn. by rewrite IH. Qed.
Lemma core_free_proto p s : core (free_proto p s) = core s.
Proof. by destruct p. Qed.
Lemma core_dup_proto p s : core (dup_proto p s) = core s.
Proof. by destruct p. Qed.
Lemma core_malloc s ok s' : js_malloc s = (ok, s') -> core s' = core s.
Proof. unfold js_malloc. by intros [= _ <-]. Qed.

Lemma refs_pos q o m : m !! q = Some o -> 1 <= refs_to (shape o) m.
Proof.
  intros E. pose proof (hsum_le (fun _ o' => if decide (shape o' = shape o) then 1 else 0) m q o) as H. cbv beta in H.
  rewrite decide_True in H by done. apply H; [|done]. intros. by case_decide.
Qed.
Lemma refs_nonneg p m : 0 <= refs_to p m.
Proof. apply hsum_nonneg. intros. by case_decide. Qed.
Lemma refs_update p m q o o' : m !! q = Some o ->
  refs_to p (<[q := o']> m) = refs_to p m - (if decide (shape o = p) then 1 else 0) + (if decide (shape o' = p) then 1 else 0).
Proof. apply (hsum_update (fun _ o => if decide (shape o = p) then 1 else 0)). Qed.
Lemma refs_insert p m q o : m !! q = None -> refs_to p (<[q := o]> m) = (if decide (shape o = p) then 1 else 0) + refs_to p m.
Proof. apply (hsum_insert (fun _ o => if decide (shape o = p) then 1 else 0)). Qed.
Lemma refs_delete p m q o : m !! q = Some o -> refs_to p (delete q m) = refs_to p m - (if decide (shape o = p) then 1 else 0).
Proof. apply (hsum_delete (fun _ o => if decide (shape o = p) then 1 else 0)). Qed.

Lemma table_mono n n' off s : n <= n' -> table_inv off n s -> table_inv off n' s.
Proof.
  unfold table_inv. intros Hn [(? & ? & ?) [? ?] ? ? ?]. split; try done; [split_and!; try done; lia|split; [done|lia]].
Qed.
Lemma links_mono ext n n' s : n <= n' -> links_ok ext n s -> links_ok ext n' s.
Proof.
  intros Hn [H1 H2 H3 H4]. split; try done. intros p sh E. destruct (H1 p sh E) as (? & ? & ?). split_and!; try done. lia.
Qed.

(** The shape of an object. *)
Lemma object_shape ext n s q o : links_ok ext n s -> objects s !! q = Some o ->
  exists sh, shapes s !! shape o = Some sh /\ shape_ok sh /\ word 32 (hash sh) /\ prop_count sh <= n /\ prop_size sh <= len (prop o) /\
    view s q = Some (mkView (proto sh) (entries (content (shape_prop sh)) (prop o)) (extensible o) (has_immutable_prototype o)).
Proof.
  intros HL Eo. destruct (lo_object _ _ _ HL q o Eo) as (sh & Es & Hp). destruct (lo_shape _ _ _ HL _ sh Es) as (H1 & H2 & H3).
  exists sh. split_and!; try done. unfold view. by rewrite Eo; cbn; rewrite Es.
Qed.

(** The views when the shapes that the objects have keep their contents. *)
Lemma view_frame ext n s s' : links_ok ext n s -> objects s' = objects s ->
  (forall q o sh, objects s !! q = Some o -> shapes s !! shape o = Some sh -> exists sh', shapes s' !! shape o = Some sh' /\
     content (shape_prop sh') = content (shape_prop sh) /\ proto sh' = proto sh) ->
  forall q, view s' q = view s q.
Proof.
  intros HL Eo Hs q. unfold view. rewrite Eo. destruct (objects s !! q) as [o|] eqn:E; [|done]. cbn.
  destruct (lo_object _ _ _ HL q o E) as (sh & Es & _). destruct (Hs q o sh E Es) as (sh' & -> & Hc & Hp). rewrite Es. cbn. by rewrite Hc, Hp.
Qed.

(** ** The helpers *)

(** Writing the reference count of a shape. *)
Lemma table_write off n s p sh sh' : table_inv off n s -> shapes s !! p = Some sh -> is_hashed sh' = is_hashed sh -> hash sh' = hash sh ->
  table_inv off n (write_shape p sh' s).
Proof.
  intros HB E Hh Hv. eapply buckets_ext; [exact HB| |done|done|done]. intros x h. unfold linked. cbn.
  destruct (decide (x = p)) as [->|Hx].
  - rewrite lookup_insert_eq, E. split; intros (y & Ey & H1 & H2 & H3); simplify_eq; eexists; (split; [done|]); split_and!; congruence.
  - by rewrite lookup_insert_ne by congruence.
Qed.

(** Removing a shape from the heap. *)
Lemma table_delete n s p : table_inv (Some p) n s -> table_inv None n (set_shapes (delete p (shapes s)) s).
Proof.
  intros HB. eapply buckets_ext; [exact HB| |done|done|done]. intros x h. unfold linked. cbn. split.
  - intros (y & [Hx Ey]%lookup_delete_Some & H1 & H2 & _). exists y. split_and!; try done. congruence.
  - intros (y & Ey & H1 & H2 & H3). exists y. rewrite lookup_delete_ne by congruence. done.
Qed.
Lemma table_delete_unhashed off n s p sh : table_inv off n s -> shapes s !! p = Some sh -> is_hashed sh = false ->
  table_inv off n (set_shapes (delete p (shapes s)) s).
Proof.
  intros HB E Hh. eapply buckets_ext; [exact HB| |done|done|done]. intros x h. unfold linked. cbn. split.
  - intros (y & [Hx Ey]%lookup_delete_Some & H). by exists y.
  - intros (y & Ey & H1 & H). exists y. rewrite lookup_delete_ne; [done|]. intros ->. congruence.
Qed.

Lemma free_shape_spec ext n s p sh : links_ok ext n s -> table_inv None n s -> n < 2 ^ 26 -> shapes s !! p = Some sh -> 1 <= ext p ->
  exists s', js_free_shape s p = Some s' /\ links_ok (<[p := ext p - 1]> ext) n s' /\ table_inv None n s' /\ objects s' = objects s /\
    (forall x y, shapes s !! x = Some y -> x <> p \/ 1 < sh_ref_count y -> exists k, shapes s' !! x = Some (with_ref_count k y)) /\
    (forall q, view s' q = view s q) /\ (shape_hash_count s' <= shape_hash_count s).
Proof.
  intros HL HB Hn E He. destruct (lo_ref _ _ _ HL p sh E) as (Hr & Hpos & Hun). destruct (lo_shape _ _ _ HL p sh E) as (Hok & Hw & Hpc).
  set (s1 := write_shape p (with_ref_count (sh_ref_count sh - 1) sh) s).
  assert (HB1 : table_inv None n s1) by (by apply (table_write None n s p sh)).
  assert (Hext : forall x, (<[p := ext p - 1]> ext : ptr -> Z) x = ext x - if decide (x = p) then 1 else 0).
  { intros x. case_decide as Hx; [subst x; by rewrite fn_lookup_insert|]. rewrite fn_lookup_insert_ne by congruence. lia. }
  assert (Hobj : forall q o y, objects s !! q = Some o -> shapes s !! shape o = Some y -> shape o <> p \/ 1 < sh_ref_count y).
  { intros q o y Eo Ey. destruct (decide (shape o = p)) as [Hp|]; [right|by left]. rewrite Hp, E in Ey. apply (inj Some) in Ey. subst y.
    pose proof (refs_pos q o _ Eo). rewrite Hp in H. lia. }
  unfold js_free_shape. rewrite E. cbn [mbind option_bind]. fold s1. destruct (Z.leb_spec (sh_ref_count sh - 1) 0) as [Hz|Hz].
  - assert (E1 : shapes s1 !! p = Some (with_ref_count 0 sh)).
    { unfold s1. cbn. rewrite lookup_insert_eq. do 2 f_equal. lia. }
    unfold js_free_shape0. rewrite E1. cbn [mbind option_bind]. rewrite option_guard_True by done. cbn [mbind option_bind].
    assert (H2 : exists s2, (if is_hashed (with_ref_count 0 sh) then js_shape_hash_unlink s1 p else Some s1) = Some s2 /\
      shapes s2 = shapes s1 /\ objects s2 = objects s1 /\ shape_hash_count s2 <= shape_hash_count s1 /\
      table_inv None n (set_shapes (delete p (shapes s2)) s2)).
    { destruct (is_hashed (with_ref_count 0 sh)) eqn:Eh.
      - destruct (hash_unlink_spec n s1 p _ HB1 Hn E1 Eh) as (tab & E2 & HB2). eexists. split; [exact E2|]. split_and!; try done; [cbn; lia|].
        apply table_delete. exact HB2.
      - exists s1. split_and!; try done. by eapply table_delete_unhashed. }
    destruct H2 as (s2 & E2 & Hs2 & Ho2 & Hc2 & HB2). rewrite E2. cbn [mbind option_bind]. eexists. split; [done|].
    set (s3 := fold_left _ _ _). assert (Hc3 : core s3 = core s2) by (unfold s3; by rewrite core_free_atoms, core_free_proto). clearbody s3.
    destruct (core_fields _ _ Hc3) as (C1 & C2 & C3 & C4 & C5).
    assert (Hsh : forall x, (set_shapes (delete p (shapes s3)) s3).(shapes) !! x = if decide (x = p) then None else shapes s !! x).
    { intros x. cbn. rewrite C1, Hs2. unfold s1. cbn. rewrite delete_insert_eq. case_decide; [subst x; by rewrite lookup_delete_eq|].
      by rewrite lookup_delete_ne by congruence. }
    assert (Hlive : forall x y, shapes s !! x = Some y -> x <> p \/ 1 < sh_ref_count y -> exists k, (set_shapes (delete p (shapes s3)) s3).(shapes) !! x = Some (with_ref_count k y)).
    { intros x y Ey Hx. exists (sh_ref_count y). rewrite Hsh, decide_False; [by destruct y|]. intros ->. rewrite E in Ey. simplify_eq. lia. }
    split_and!.
    + split.
      * intros x y. rewrite Hsh. case_decide; [done|]. apply HL.
      * intros q o Eo. cbn in Eo. rewrite C2, Ho2 in Eo. destruct (lo_object _ _ _ HL q o Eo) as (y & Ey & Hp). exists y. split; [|done].
        rewrite Hsh, decide_False; [done|]. destruct (Hobj q o y Eo Ey) as [|H]; [done|]. intros Hp'. rewrite Hp', E in Ey. simplify_eq. lia.
      * intros x y. rewrite Hsh. case_decide as Hx; [done|]. intros Ey. destruct (lo_ref _ _ _ HL x y Ey) as (H1 & H2 & H3).
        cbn [set_shapes objects]. rewrite C2, Ho2. cbn [s1 write_shape set_shapes objects]. rewrite Hext, decide_False by done. split_and!; try done. lia.
      * intros x. rewrite Hext. pose proof (lo_ext _ _ _ HL x). case_decide; [subst x|]; lia.
    + apply (table_core None n (set_shapes (delete p (shapes s2)) s2)); [|done]. unfold core. cbn. by rewrite C1, C2, C3, C4, C5.
    + cbn. by rewrite C2, Ho2.
    + exact Hlive.
    + apply (view_frame ext n); [done|cbn; by rewrite C2, Ho2|]. intros q o y Eo Ey. destruct (Hlive (shape o) y Ey) as [k Ek]; [by eapply Hobj|].
      exists (with_ref_count k y). split; [exact Ek|done].
    + cbn. rewrite C5. exact Hc2.
  - assert (Hlive : forall x y, shapes s !! x = Some y -> x <> p \/ 1 < sh_ref_count y -> exists k, shapes s1 !! x = Some (with_ref_count k y)).
    { intros x y Ey _. unfold s1. cbn. destruct (decide (x = p)) as [->|Hx].
      - rewrite lookup_insert_eq. rewrite E in Ey. simplify_eq. by eexists.
      - rewrite lookup_insert_ne by congruence. exists (sh_ref_count y). by destruct y. }
    exists s1. split; [done|]. split_and!; try done.
    + split.
      * unfold s1. cbn. intros x y [[<- <-]|[_ Ey]]%lookup_insert_Some; [|by apply (lo_shape _ _ _ HL x y)]. split_and!; [|done|done].
        by apply (shape_ok_layout sh).
      * intros q o Eo. destruct (lo_object _ _ _ HL q o Eo) as (y & Ey & Hp). destruct (Hlive _ y Ey) as [k Ek]; [by eapply Hobj|].
        by exists (with_ref_count k y).
      * unfold s1. cbn. intros x y [[<- <-]|[Hx Ey]]%lookup_insert_Some.
        -- rewrite Hext, decide_True by done. cbn. split_and!; [lia|lia|]. intros Hh. specialize (Hun Hh). lia.
        -- rewrite Hext, decide_False by congruence. destruct (lo_ref _ _ _ HL x y Ey) as (H1 & H2 & H3). split_and!; try done. lia.
      * intros x. rewrite Hext. pose proof (lo_ext _ _ _ HL x). case_decide; [subst x|]; lia.
    + apply (view_frame ext n); [done|done|]. intros q o y Eo Ey. destruct (Hlive (shape o) y Ey) as [k Ek]; [by eapply Hobj|].
      by exists (with_ref_count k y).
Qed.
End refine.
