(* ===== verification/ShapesOps.v ===== *)
(** * The operations on shapes and properties

    What the operations of [Shapes] do to the objects of a runtime that satisfies the
    invariant. *)
From S2P Require Export ShapesRefine.

Section ops.
Context {V : Type} {W : World} {Al : Malloc}.
Implicit Types s : JSRuntime (V := V).

(** The name [a] is not the one of a property. *)
Definition unused (a : Z) (pr : list JSShapeProperty) : Prop := forall i p, pr !! i = Some p -> atom p <> a.

(** The object [q] and its shape. *)
Definition at_object s (q : ptr) (o : JSObject (V := V)) (sh : JSShape) : Prop :=
  objects s !! q = Some o /\ shapes s !! shape o = Some sh.

Definition view_of (o : JSObject (V := V)) (sh : JSShape) : ObjectView (V := V) :=
  mkView (proto sh) (entries (content (shape_prop sh)) (prop o)) (extensible o) (has_immutable_prototype o).

Lemma view_at s q o sh : at_object s q o sh -> view s q = Some (view_of o sh).
Proof. intros [E1 E2]. unfold view. rewrite E1. cbn. by rewrite E2. Qed.

Lemma at_object_ok ext n s q o : links_ok ext n s -> objects s !! q = Some o ->
  exists sh, at_object s q o sh /\ shape_ok sh /\ word 32 (hash sh) /\ prop_count sh <= n /\ prop_size sh <= len (prop o).
Proof. intros HL E. destruct (object_shape ext n s q o HL E) as (sh & H1 & H2 & H3 & H4 & H5 & _). by exists sh. Qed.

Lemma refs_zero ext n s p : links_ok ext n s -> shapes s !! p = None -> refs_to p (objects s) = 0.
Proof.
  intros HL E. pose proof (refs_nonneg p (objects s)). destruct (decide (0 < refs_to p (objects s))) as [H0|]; [|lia].
  destruct (hsum_witness _ _ H0) as (x & y & Ey & Hy). case_decide as Hp; [|lia].
  destruct (lo_object _ _ _ HL x y Ey) as (z & Ez & _). congruence.
Qed.

(** A shape with one reference belongs to the object. *)
Lemma exclusive n s q o sh : links_ok no_ext n s -> at_object s q o sh -> sh_ref_count sh = 1 ->
  forall x y, objects s !! x = Some y -> shape y = shape o -> x = q.
Proof.
  intros HL [Eo Es] Hr x y Ey Hy. destruct (decide (x = q)); [done|]. destruct (lo_ref _ _ _ HL _ _ Es) as (H1 & _).
  unfold no_ext in H1. assert (H2 : refs_to (shape o) (delete q (objects s)) = refs_to (shape o) (objects s) - 1).
  { rewrite (refs_delete (shape o) _ q o Eo), decide_True by done. done. }
  assert (Ey' : delete q (objects s) !! x = Some y) by (by rewrite lookup_delete_ne by congruence).
  pose proof (refs_pos x y _ Ey') as H3. rewrite Hy in H3. lia.
Qed.

(** The object [q] and its shape change; the shape may move. *)
Record updated s (q : ptr) (o : JSObject (V := V)) s' (o' : JSObject (V := V)) (sh' : JSShape) : Prop := {
  up_shapes : shapes s' = <[shape o' := sh']> (delete (shape o) (shapes s));
  up_objects : objects s' = <[q := o']> (objects s);
  up_ptr : shape o' = shape o \/ shapes s !! shape o' = None;
  up_fields : extensible o' = extensible o /\ has_immutable_prototype o' = has_immutable_prototype o
}.

Lemma updated_at s q o s' o' sh' : updated s q o s' o' sh' -> at_object s' q o' sh'.
Proof. intros []. split; [by rewrite up_objects0, lookup_insert_eq|by rewrite up_shapes0, lookup_insert_eq]. Qed.

Lemma updated_refl s q o sh : at_object s q o sh -> updated s q o s o sh.
Proof.
  intros [E1 E2]. split; [|by rewrite insert_id|by left|done]. rewrite insert_delete_eq. by rewrite insert_id.
Qed.

Lemma updated_trans s1 s2 s3 q o1 o2 o3 sh2 sh3 : updated s1 q o1 s2 o2 sh2 -> updated s2 q o2 s3 o3 sh3 -> updated s1 q o1 s3 o3 sh3.
Proof.
  intros [A1 A2 A3 A4] [B1 B2 B3 B4]. split.
  - rewrite B1, A1, delete_insert_eq. f_equal. destruct A3 as [->|A3]; [by rewrite delete_delete_eq|].
    rewrite delete_id; [done|]. destruct (decide (shape o2 = shape o1)) as [->|]; [by rewrite lookup_delete_eq|]. by rewrite lookup_delete_ne by congruence.
  - by rewrite B2, A2, insert_insert_eq.
  - destruct B3 as [->|B3]; [done|]. rewrite A1 in B3. apply lookup_insert_None in B3 as [B3 _].
    destruct (decide (shape o3 = shape o1)) as [|Hne]; [by left|right]. by rewrite lookup_delete_ne in B3 by congruence.
  - destruct A4, B4. split; congruence.
Qed.

Lemma updated_write s q o sh sh' : at_object s q o sh -> updated s q o (write_shape (shape o) sh' s) o sh'.
Proof. intros [E1 E2]. split; cbn; [by rewrite insert_delete_eq|by rewrite insert_id|by left|done]. Qed.

Lemma updated_core s q o s' s'' o' sh' : updated s q o s' o' sh' -> shapes s'' = shapes s' -> objects s'' = objects s' -> updated s q o s'' o' sh'.
Proof. intros [] E1 E2. split; rewrite ?E1, ?E2; done. Qed.

Lemma updated_links n n' s q o sh s' o' sh' : links_ok no_ext n s -> at_object s q o sh -> sh_ref_count sh = 1 ->
  updated s q o s' o' sh' -> shape_ok sh' -> word 32 (hash sh') -> sh_ref_count sh' = 1 -> n <= n' -> prop_count sh' <= n' ->
  prop_size sh' <= len (prop o') ->
  links_ok no_ext n' s' /\ (forall x, x <> q -> view s' x = view s x) /\ view s' q = Some (view_of o' sh').
Proof.
  intros HL Hat Hr Hup Hok Hw Hr' Hn Hpc Hps. pose proof (exclusive n s q o sh HL Hat Hr) as Hex.
  pose proof (updated_at _ _ _ _ _ _ Hup) as Hat'. destruct Hup as [U1 U2 U3 U4]. destruct Hat as [Eo Es].
  assert (Hother : forall x y z, x <> q -> objects s !! x = Some y -> shapes s !! shape y = Some z -> shapes s' !! shape y = Some z).
  { intros x y z Hx Ey Ez. rewrite U1. rewrite lookup_insert_ne.
    - rewrite lookup_delete_ne; [done|]. intros H. by apply Hx, (Hex x y).
    - intros H. destruct U3 as [U3|U3]; [apply Hx, (Hex x y); congruence|]. congruence. }
  split_and!.
  - split.
    + intros p z. rewrite U1. intros [[<- <-]|[_ [_ Ez]%lookup_delete_Some]]%lookup_insert_Some; [done|].
      destruct (lo_shape _ _ _ HL p z Ez) as (? & ? & ?). split_and!; try done. lia.
    + intros x y. rewrite U2. intros [[<- <-]|[Hx Ey]]%lookup_insert_Some; [exists sh'; split; [apply Hat'|done]|].
      destruct (lo_object _ _ _ HL x y Ey) as (z & Ez & Hz). exists z. split; [|done]. by apply (Hother x).
    + intros p z. rewrite U1, U2, (refs_update p _ q o o' Eo). unfold no_ext.
      intros [[<- <-]|[Hp [Hp' Ez]%lookup_delete_Some]]%lookup_insert_Some.
      * rewrite (decide_True (P := shape o' = shape o')) by done. split_and!; [|lia|done]. destruct U3 as [U3|U3].
        -- rewrite U3, decide_True by done. destruct (lo_ref _ _ _ HL _ _ Es) as (H1 & _). unfold no_ext in H1. lia.
        -- rewrite decide_False by congruence. rewrite (refs_zero no_ext n); [lia|done|done].
      * rewrite !decide_False by congruence. destruct (lo_ref _ _ _ HL p z Ez) as (H1 & H2 & H3). unfold no_ext in H1. split_and!; try done. lia.
    + done.
  - intros x Hx. unfold view. rewrite U2, lookup_insert_ne by congruence. destruct (objects s !! x) as [y|] eqn:Ey; [|done]. cbn.
    destruct (lo_object _ _ _ HL x y Ey) as (z & Ez & _). by rewrite (Hother x y z), Ez.
  - by apply view_at.
Qed.

(** The table when a shape that is not linked changes. *)
Definition off_of (o : JSObject (V := V)) (sh : JSShape) : option ptr := if is_hashed sh then Some (shape o) else None.

Lemma updated_table n s q o sh s' o' sh' : at_object s q o sh -> table_inv (off_of o sh) n s -> updated s q o s' o' sh' ->
  is_hashed sh' = is_hashed sh ->
  shape_hash_table s' = shape_hash_table s -> shape_hash_bits s' = shape_hash_bits s -> shape_hash_count s' = shape_hash_count s ->
  table_inv (off_of o' sh') n s'.
Proof.
  intros [Eo Es] HB [U1 U2 U3 U4] Hh E1 E2 E3. eapply buckets_ext; [exact HB| |done|done|done]. intros p h. unfold linked. rewrite U1.
  unfold off_of. rewrite Hh. split.
  - intros (y & [[Hp <-]|[Hp [Hp' Ey]%lookup_delete_Some]]%lookup_insert_Some & H1 & H2 & H3).
    + rewrite Hh in H1. rewrite H1 in H3. congruence.
    + exists y. split_and!; try done. destruct (is_hashed sh); congruence.
  - intros (y & Ey & H1 & H2 & H3). assert (p <> shape o) by (intros ->; rewrite Es in Ey; apply (inj Some) in Ey; subst y; rewrite H1 in H3; congruence).
    assert (p <> shape o') by (destruct U3 as [->|U3]; [done|congruence]).
    exists y. rewrite lookup_insert_ne, lookup_delete_ne by congruence. split_and!; try done. destruct (is_hashed sh); congruence.
Qed.

(** ** Allocations *)

Lemma malloc_core ok s s' : js_malloc s = (ok, s') -> shapes s' = shapes s /\ objects s' = objects s /\
  shape_hash_table s' = shape_hash_table s /\ shape_hash_bits s' = shape_hash_bits s /\ shape_hash_count s' = shape_hash_count s.
Proof. intros E%core_malloc. by apply core_fields. Qed.

Lemma fresh_shape s : shapes s !! fresh s = None.
Proof. unfold fresh. pose proof (malloc_fresh (dom (shapes s) ∪ dom (objects s))) as H. apply not_elem_of_dom. set_solver. Qed.
Lemma fresh_object s : objects s !! fresh s = None.
Proof. unfold fresh. pose proof (malloc_fresh (dom (shapes s) ∪ dom (objects s))) as H. apply not_elem_of_dom. set_solver. Qed.

Lemma links_ext ext ext' n s : (forall p, ext' p = ext p) -> links_ok ext n s -> links_ok ext' n s.
Proof.
  intros He [H1 H2 H3 H4]. split; try done.
  - intros p sh E. rewrite He. by apply H3.
  - intros p. rewrite He. apply H4.
Qed.

(** A new shape. *)
Lemma links_new ext n s p sh : links_ok ext n s -> shapes s !! p = None -> shape_ok sh -> word 32 (hash sh) -> prop_count sh <= n ->
  sh_ref_count sh = 1 -> links_ok (<[p := 1]> ext) n (write_shape p sh s).
Proof.
  intros HL E Hok Hw Hpc Hr. split.
  - cbn. intros x y [[<- <-]|[_ Ey]]%lookup_insert_Some; [done|]. by apply (lo_shape _ _ _ HL x).
  - cbn. intros q o Eo. destruct (lo_object _ _ _ HL q o Eo) as (y & Ey & Hp). exists y. rewrite lookup_insert_ne by congruence. done.
  - cbn. intros x y [[<- <-]|[Hx Ey]]%lookup_insert_Some.
    + rewrite fn_lookup_insert, (refs_zero ext n s p HL E). split_and!; [lia|lia|done].
    + rewrite fn_lookup_insert_ne by done. by apply (lo_ref _ _ _ HL).
  - intros x. destruct (decide (x = p)) as [->|Hx]; [rewrite fn_lookup_insert; lia|]. rewrite fn_lookup_insert_ne by congruence. apply (lo_ext _ _ _ HL).
Qed.

(** A shape that is not hashed does not change the table. *)
Lemma table_new off n s p sh : table_inv off n s -> shapes s !! p = None -> is_hashed sh = false \/ off = None ->
  table_inv (if is_hashed sh then Some p else off) n (write_shape p sh s).
Proof.
  intros HB E Hh. eapply buckets_ext; [exact HB| |done|done|done]. intros x h. unfold linked. cbn. split.
  - intros (y & [[<- <-]|[Hx Ey]]%lookup_insert_Some & H1 & H2 & H3); [rewrite H1 in H3; congruence|].
    exists y. split_and!; try done. destruct Hh as [Hh| ->]; [by rewrite Hh in H3|done].
  - intros (y & Ey & H1 & H2 & H3). assert (x <> p) by congruence. exists y. rewrite lookup_insert_ne by congruence. split_and!; try done.
    destruct Hh as [Hh| ->]; [by rewrite Hh|]. case_match; congruence.
Qed.

Lemma clone_shape_spec ext n s p sh : links_ok ext n s -> table_inv None n s -> shapes s !! p = Some sh ->
  exists r s', js_clone_shape s p = Some (r, s') /\ objects s' = objects s /\ table_inv None n s' /\
    shape_hash_count s' = shape_hash_count s /\
    match r with
    | None => shapes s' = shapes s /\ exists k, ext_ok k = false
    | Some p' => shapes s !! p' = None /\ shapes s' = <[p' := with_hashed false (with_ref_count 1 sh)]> (shapes s) /\
        links_ok (<[p' := 1]> ext) n s'
    end.
Proof.
  intros HL HB E. unfold js_clone_shape. rewrite E. cbn [mbind option_bind]. destruct (js_malloc s) as [ok s1] eqn:Em0. pose proof Em0 as Em.
  destruct (malloc_core _ _ _ Em) as (C1 & C2 & _ & _ & C5). apply core_malloc in Em.
  destruct ok; cbn [negb]; [|exists None, s1; split_and!; try done; [by apply (table_core None n s)|exists (ev s); by injection Em0]].
  set (sh' := with_hashed false (with_ref_count 1 sh)). set (s2 := write_shape (fresh s1) sh' s1).
  set (s3 := fold_left _ _ _). assert (Hc3 : core s3 = core s2) by (unfold s3; by rewrite core_dup_atoms, core_dup_proto). clearbody s3.
  pose proof (fresh_shape s1) as Hf. rewrite C1 in Hf. destruct (lo_shape _ _ _ HL p sh E) as (Hok & Hw & Hpc).
  assert (HL2 : links_ok (<[fresh s1 := 1]> ext) n s2).
  { apply links_new; [by apply (links_core ext n s)|by rewrite C1| |done|done|done]. apply (shape_ok_layout sh); [done|done|done]. }
  assert (HB2 : table_inv None n s2) by (apply (table_new None n s1 (fresh s1) sh'); [by apply (table_core None n s)|by rewrite C1|by left]).
  destruct (core_fields _ _ Hc3) as (D1 & D2 & _ & _ & D5).
  exists (Some (fresh s1)), s3. split; [done|]. split_and!.
  - by rewrite D2; cbn; rewrite C2.
  - by apply (table_core None n s2).
  - by rewrite D5.
  - done.
  - by rewrite D1; cbn; rewrite C1.
  - by apply (links_core _ n s2).
Qed.

(** ** Growth *)

Lemma resize_take k n (l : list (option V)) : (k <= Z.to_nat n)%nat -> (k <= length l)%nat -> take k (resize_values n l) = take k l.
Proof. intros H1 H2. unfold resize_values. destruct (decide (Z.to_nat n <= length l)%nat).
  - rewrite resize_le by done. rewrite take_take. f_equal. lia.
  - rewrite resize_ge by lia. by rewrite take_app_le by lia.
Qed.

(** The values of the entries of [sh] stay. *)
Definition keeps_values (sh : JSShape) (o o' : JSObject (V := V)) : Prop :=
  take (length (shape_prop sh)) (prop o') = take (length (shape_prop sh)) (prop o).

Lemma resize_properties_spec n s q o sh : at_object s q o sh -> shape_ok sh -> sh_ref_count sh = 1 -> prop_size sh <= len (prop o) ->
  prop_count sh <= n -> n + 1 < 2 ^ 26 -> prop_size sh <= prop_count sh ->
  exists ok s' o' sh', resize_properties s q (prop_count sh + 1) = Some (ok, s') /\ updated s q o s' o' sh' /\ shape_ok sh' /\
    same_content sh sh' /\ sh_ref_count sh' = 1 /\ prop_size sh' <= len (prop o') /\ keeps_values sh o o' /\
    shape_hash_table s' = shape_hash_table s /\ shape_hash_bits s' = shape_hash_bits s /\ shape_hash_count s' = shape_hash_count s /\
    if ok then prop_count sh' < prop_size sh' else o' = with_prop (prop o') o /\ sh' = sh.
Proof.
  intros [Eo Es] Hok Hr Hps Hpc Hn Hfull. pose proof (so_size _ Hok) as Hsz. pose proof (so_min _ Hok) as Hmin. unfold JS_PROP_INITIAL_SIZE in Hmin.
  unfold resize_properties. rewrite Eo. cbn [mbind option_bind]. rewrite Es. cbn [mbind option_bind].
  set (m := Z.max (prop_count sh + 1) (prop_size sh * 3 / 2)).
  assert (Hm : prop_size sh < m <= 2 ^ 28). { pose proof (Z.div_mod (prop_size sh * 3) 2 ltac:(lia)). pose proof (Z.mod_pos_bound (prop_size sh * 3) 2 ltac:(lia)). lia. }
  destruct (js_malloc s) as [ok1 s1] eqn:E1. destruct (malloc_core _ _ _ E1) as (A1 & A2 & A3 & A4 & A5).
  destruct ok1; cbn [negb].
  2: { exists false, s1, o, sh. split_and!; try done; [|by destruct o]. by apply (updated_core s q o s); [apply updated_refl|..]. }
  set (o1 := with_prop (resize_values m (prop o)) o). destruct (js_malloc (write_object q o1 s1)) as [ok2 s2] eqn:E2.
  destruct (malloc_core _ _ _ E2) as (B1 & B2 & B3 & B4 & B5). cbn in B1, B2, B3, B4, B5.
  assert (Hk : keeps_values sh o o1) by (apply resize_take; unfold prop_count in *; lia).
  assert (Hl1 : len (prop o1) = m) by (cbn; unfold resize_values; rewrite length_resize; lia).
  assert (Hu : updated s q o s2 o1 sh).
  { split; [by rewrite B1, A1, insert_delete_eq, insert_id|by rewrite B2, A2|by left|done]. }
  destruct ok2; cbn [negb].
  2: { exists false, s2, o1, sh. split_and!; try done; try congruence. lia. }
  destruct (resized_shape_spec sh m) as (sh' & E & Hok' & Hc & Hs' & Hr' & _); [done|lia|lia|]. rewrite E. cbn [mbind option_bind].
  exists true, (replace_shape s2 q o1 (shape o1) sh'), (with_shape (fresh s2) o1), sh'. split; [done|]. split_and!; try done.
  - pose proof (fresh_shape s2) as Hf. rewrite B1, A1 in Hf. unfold replace_shape. split; cbn.
    + by rewrite B1, A1.
    + by rewrite B2, A2, insert_insert_eq.
    + by right.
    + done.
  - cbn [prop with_shape]. lia.
  - unfold replace_shape. cbn. congruence.
  - unfold replace_shape. cbn. congruence.
  - unfold replace_shape. cbn. congruence.
  - destruct Hc as (Hc & _). apply content_length in Hc. unfold prop_count in *. lia.
Qed.

(** ** Adding a property *)

Lemma unlink_if n s q o sh : table_inv None n s -> n < 2 ^ 26 -> at_object s q o sh ->
  exists s1, (if is_hashed sh then js_shape_hash_unlink s (shape o) else Some s) = Some s1 /\ shapes s1 = shapes s /\ objects s1 = objects s /\
    table_inv (off_of o sh) n s1 /\ shape_hash_count s1 = shape_hash_count s - (if is_hashed sh then 1 else 0).
Proof.
  intros HB Hn [Eo Es]. unfold off_of. destruct (is_hashed sh) eqn:Eh.
  - destruct (hash_unlink_spec n s (shape o) sh HB Hn Es Eh) as (tab & E & HB1). eexists. split; [exact E|]. by split_and!.
  - exists s. split_and!; try done. lia.
Qed.

Lemma link_if n s q o sh : table_inv (off_of o sh) n s -> n < 2 ^ 26 -> at_object s q o sh -> word 32 (hash sh) ->
  (is_hashed sh = true -> shape_hash_count s < n) ->
  exists s1, (if is_hashed sh then js_shape_hash_link s (shape o) else Some s) = Some s1 /\ shapes s1 = shapes s /\ objects s1 = objects s /\
    table_inv None n s1 /\ shape_hash_count s1 = shape_hash_count s + (if is_hashed sh then 1 else 0).
Proof.
  intros HB Hn [Eo Es] Hw Hc. unfold off_of in HB. destruct (is_hashed sh) eqn:Eh.
  - destruct (hash_link_spec n s (shape o) sh HB Hn (Hc eq_refl) Es Eh Hw) as (tab & E & HB1). eexists. split; [exact E|]. by split_and!.
  - exists s. split_and!; try done. lia.
Qed.

(** The hash of a shape that is not linked. *)
Lemma table_hash n s q o sh h : table_inv (off_of o sh) n s -> at_object s q o sh -> is_hashed sh = true ->
  table_inv (off_of o sh) n (write_shape (shape o) (with_hash h sh) s).
Proof.
  intros HB [Eo Es] Eh. unfold off_of in *. rewrite Eh in *. eapply buckets_ext; [exact HB| |done|done|done]. intros x k. unfold linked. cbn.
  destruct (decide (x = shape o)) as [->|Hx]; [|by rewrite lookup_insert_ne by congruence].
  split; intros (y & _ & _ & _ & H); congruence.
Qed.

Lemma shape_hash_word h v : word 32 (shape_hash h v).
Proof. unfold shape_hash. apply wrap_range. lia. Qed.

Lemma add_shape_property_spec n s q o sh a f : links_ok no_ext n s -> table_inv None n s -> n + 1 < 2 ^ 26 -> at_object s q o sh ->
  sh_ref_count sh = 1 -> unused a (shape_prop sh) -> 0 < a -> 0 <= f < 64 ->
  exists ok s' o' sh', add_shape_property s q a f = Some (ok, s') /\ updated s q o s' o' sh' /\ shape_ok sh' /\ word 32 (hash sh') /\
    sh_ref_count sh' = 1 /\ prop_size sh' <= len (prop o') /\ prop_count sh' <= n + 1 /\ keeps_values sh o o' /\ proto sh' = proto sh /\
    table_inv None (n + 1) s' /\ content (shape_prop sh') = content (shape_prop sh) ++ if ok then [(a, f)] else [].
Proof.
  intros HL HB Hn Hat Hr Hun Ha Hf. destruct (lo_shape _ _ _ HL _ _ (proj2 Hat)) as (Hok & Hw & Hpc).
  destruct (lo_object _ _ _ HL q o (proj1 Hat)) as (z & Ez & Hps). rewrite (proj2 Hat) in Ez. apply (inj Some) in Ez. subst z.
  destruct (unlink_if n s q o sh HB ltac:(lia) Hat) as (s1 & E1 & A1 & A2 & HB1 & Hc1).
  assert (Hat1 : at_object s1 q o sh) by (split; [rewrite A2|rewrite A1]; apply Hat).
  unfold add_shape_property. rewrite (proj1 Hat). cbn [mbind option_bind]. rewrite (proj2 Hat). cbn [mbind option_bind]. rewrite E1. cbn [mbind option_bind].
  assert (H2 : exists ok s2 o2 sh2, (if prop_size sh <=? prop_count sh then resize_properties s1 q (prop_count sh + 1) else Some (true, s1)) = Some (ok, s2) /\
    updated s1 q o s2 o2 sh2 /\ shape_ok sh2 /\ same_content sh sh2 /\ sh_ref_count sh2 = 1 /\ prop_size sh2 <= len (prop o2) /\ keeps_values sh o o2 /\
    table_inv (off_of o2 sh2) n s2 /\ shape_hash_count s2 = shape_hash_count s1 /\
    if ok then prop_count sh2 < prop_size sh2 else o2 = with_prop (prop o2) o /\ sh2 = sh).
  { destruct (Z.leb_spec (prop_size sh) (prop_count sh)) as [Hfull|Hroom].
    - destruct (resize_properties_spec n s1 q o sh Hat1 Hok Hr Hps Hpc Hn Hfull) as (ok & s2 & o2 & sh2 & E & Hu & R1 & R2 & R3 & R4 & R5 & R6 & R7 & R8 & R9).
      exists ok, s2, o2, sh2. split_and!; try done. eapply updated_table; try done. by destruct R2 as (_ & _ & ? & _).
    - exists true, s1, o, sh. split_and!; try done. by apply updated_refl. }
  destruct H2 as (ok & s2 & o2 & sh2 & E2 & Hu2 & Hok2 & (Hc2 & Hp2 & Hh2 & Hhash2) & Hr2 & Hps2 & Hk2 & HB2 & Hcnt2 & Hres).
  rewrite E2. cbn [mbind option_bind]. pose proof (updated_at _ _ _ _ _ _ Hu2) as Hat2.
  assert (Hu : updated s q o s2 o2 sh2) by (destruct Hu2; split; congruence).
  pose proof (content_length _ _ Hc2) as Hlen2. assert (Hcnt : shape_hash_count s <= n) by apply HB.
  destruct ok; cbn [negb].
  - rewrite (proj1 Hat2). cbn [mbind option_bind]. rewrite (proj2 Hat2). cbn [mbind option_bind].
    assert (H3 : exists s3 sh3, (if is_hashed sh2 then js_shape_hash_link (write_shape (shape o2) (with_hash (shape_hash (shape_hash (hash sh) a) f) sh2) s2) (shape o2)
       else Some s2) = Some s3 /\ updated s q o s3 o2 sh3 /\ (exists h, sh3 = with_hash h sh2 /\ word 32 h) /\ table_inv None n s3).
    { destruct (is_hashed sh2) eqn:Eh2.
      - set (sh3 := with_hash _ _). assert (Hu3 : updated s q o (write_shape (shape o2) sh3 s2) o2 sh3) by (eapply updated_trans; [exact Hu|by eapply updated_write]).
        destruct (link_if n (write_shape (shape o2) sh3 s2) q o2 sh3) as (s3 & E3 & B1 & B2 & HB3 & _).
        + by apply (table_hash n s2 q o2 sh2).
        + lia.
        + by eapply updated_at.
        + apply shape_hash_word.
        + intros _. cbn. rewrite Hcnt2, Hc1, <- Hh2. lia.
        + replace (is_hashed sh3) with true in E3 by done. rewrite E3. exists s3, sh3. split_and!; try done.
          * by eapply updated_core.
          * eexists. split; [done|]. apply shape_hash_word.
      - exists s2, sh2. split_and!; try done; [exists (hash sh2); split; [by destruct sh2|congruence]|].
        unfold off_of in HB2. by rewrite Eh2 in HB2. }
    destruct H3 as (s3 & sh3 & E3 & Hu3 & (h & -> & Hwh) & HB3). rewrite E3. cbn [mbind option_bind].
    rewrite (proj2 (updated_at _ _ _ _ _ _ Hu3)). cbn [mbind option_bind].
    destruct (append_property_spec (with_hash h sh2) a f) as (sh4 & E4 & F1 & F2 & F3 & F4 & F5 & F6 & F7); [by apply (shape_ok_layout sh2)|done| |done|done| |].
    { unfold prop_count in *. cbn. lia. }
    { intros i p Ep. destruct (content_match _ _ _ _ Hc2 Ep) as (p0 & Ep0 & Ha0 & _). rewrite <- Ha0. by apply (Hun i). }
    rewrite E4. cbn [mbind option_bind]. set (s4 := write_shape (shape o2) sh4 s3).
    exists true, (JS_DupAtom a s4), o2, sh4. split; [done|].
    assert (Hu4 : updated s q o s4 o2 sh4) by (eapply updated_trans; [exact Hu3|eapply updated_write, updated_at, Hu3]).
    cbn [shape_prop with_hash proto is_hashed hash prop_size sh_ref_count] in F2, F3, F4, F5, F6, F7. split_and!; try done.
    + by eapply updated_core.
    + by rewrite F5.
    + congruence.
    + by rewrite F6.
    + apply (f_equal length) in F2. unfold content in F2. rewrite length_app, !length_fmap in F2. cbn in F2. unfold prop_count in *. lia.
    + congruence.
    + apply (table_core None (n + 1) s4); [done|]. apply (table_write None (n + 1) s3 (shape o2) (with_hash h sh2)); [|apply (updated_at _ _ _ _ _ _ Hu3)|done|done].
      by apply (table_mono n); [lia|].
    + by rewrite F2, Hc2.
  - destruct Hres as [Ho2 ->]. assert (Eso : shape o2 = shape o) by (by rewrite Ho2). rewrite <- Eso.
    destruct (link_if n s2 q o2 sh HB2 ltac:(lia) Hat2 Hw) as (s3 & E3 & B1 & B2 & HB3 & _); [intros Eh; rewrite Hcnt2, Hc1, Eh; lia|].
    rewrite E3. cbn [mbind option_bind]. exists false, s3, o2, sh. split_and!; try done; [by eapply updated_core|lia|by apply (table_mono n); [lia|]|by rewrite app_nil_r].
Qed.

(** ** Objects that move to another shape *)

(** Only the object [q] changes. *)
Definition frame (n : Z) s (q : ptr) s' : Prop :=
  links_ok no_ext n s' /\ table_inv None n s' /\ forall x, x <> q -> view s' x = view s x.

Lemma dup_shape_spec ext n s p sh : links_ok ext n s -> table_inv None n s -> shapes s !! p = Some sh -> is_hashed sh = true ->
  exists s', js_dup_shape s p = Some s' /\ s' = write_shape p (with_ref_count (sh_ref_count sh + 1) sh) s /\
    links_ok (<[p := ext p + 1]> ext) n s' /\ table_inv None n s' /\ forall x, view s' x = view s x.
Proof.
  intros HL HB E Hh. unfold js_dup_shape. rewrite E. cbn [mbind option_bind]. eexists. split; [done|]. split; [done|].
  destruct (lo_shape _ _ _ HL p sh E) as (Hok & Hw & Hpc). split_and!.
  - split.
    + cbn. intros x y [[<- <-]|[_ Ey]]%lookup_insert_Some; [|by apply (lo_shape _ _ _ HL x y)]. split_and!; [|done|done]. by apply (shape_ok_layout sh).
    + cbn. intros x y Ey. destruct (lo_object _ _ _ HL x y Ey) as (z & Ez & Hz). destruct (decide (shape y = p)) as [Hp|Hp].
      * rewrite Hp in *. rewrite E in Ez. apply (inj Some) in Ez. subst z. rewrite lookup_insert_eq. by eexists.
      * rewrite lookup_insert_ne by congruence. by exists z.
    + cbn. intros x y [[<- <-]|[Hx Ey]]%lookup_insert_Some.
      * rewrite fn_lookup_insert. destruct (lo_ref _ _ _ HL p sh E) as (H1 & H2 & _). cbn. split_and!; [lia|lia|congruence].
      * rewrite fn_lookup_insert_ne by done. by apply (lo_ref _ _ _ HL x y).
    + intros x. pose proof (lo_ext _ _ _ HL x). destruct (decide (x = p)) as [->|Hx]; [rewrite fn_lookup_insert; lia|]. by rewrite fn_lookup_insert_ne by congruence.
  - by eapply table_write.
  - apply (view_frame ext n); [done|done|]. intros x y z Ey Ez. cbn. destruct (decide (shape y = p)) as [Hp|Hp].
    + rewrite Hp in *. rewrite lookup_insert_eq. rewrite E in Ez. apply (inj Some) in Ez. subst z. by eexists.
    + rewrite lookup_insert_ne by congruence. by exists z.
Qed.

Definition moved (ext : ptr -> Z) (p p' x : ptr) : Z := ext x + (if decide (p = x) then 1 else 0) - (if decide (p' = x) then 1 else 0).

Lemma move_object ext n s q o o' sh' : links_ok ext n s -> objects s !! q = Some o -> shapes s !! shape o' = Some sh' ->
  1 <= ext (shape o') -> prop_size sh' <= len (prop o') ->
  links_ok (moved ext (shape o) (shape o')) n (write_object q o' s) /\ forall x, x <> q -> view (write_object q o' s) x = view s x.
Proof.
  intros HL Eo Es' He Hps. split.
  - split.
    + apply (lo_shape _ _ _ HL).
    + cbn. intros x y [[<- <-]|[_ Ey]]%lookup_insert_Some; [by exists sh'|]. by apply (lo_object _ _ _ HL x y).
    + cbn. intros p sh E. rewrite (refs_update p _ q o o' Eo). destruct (lo_ref _ _ _ HL p sh E) as (H1 & H2). split; [|done].
      unfold moved. lia.
    + intros p. unfold moved. pose proof (lo_ext _ _ _ HL p). destruct (decide (shape o' = p)) as [<-|]; case_decide; lia.
  - intros x Hx. unfold view. cbn. by rewrite lookup_insert_ne by congruence.
Qed.

Lemma table_object off n q o s : table_inv off n s -> table_inv off n (write_object q o s).
Proof. intros HB. by eapply buckets_ext; [exact HB|..]. Qed.

Lemma free_atoms_objects pr m s : fold_left (fun s p => JS_FreeAtom (atom p) s) pr (set_objects m s) =
  set_objects m (fold_left (fun s p => JS_FreeAtom (atom p) s) pr s).
Proof. revert s. induction pr as [|p pr IH]; intros s; [done|]. apply (IH (JS_FreeAtom (atom p) s)). Qed.
Lemma free_proto_objects p m s : free_proto p (set_objects m s) = set_objects m (free_proto p s).
Proof. by destruct p. Qed.

Lemma hash_unlink_objects m s p : js_shape_hash_unlink (set_objects m s) p = set_objects m <$> js_shape_hash_unlink s p.
Proof.
  unfold js_shape_hash_unlink. change (shapes (set_objects m s)) with (shapes s).
  change (shape_hash_table (set_objects m s)) with (shape_hash_table s). change (shape_hash_bits (set_objects m s)) with (shape_hash_bits s).
  destruct (shapes s !! p) as [sh|]; [|done]. cbn [mbind option_bind]. destruct (shape_hash_table s !! _) as [b|]; [|done].
  cbn [mbind option_bind]. by destruct (unlink_chain p b).
Qed.

Lemma free_shape0_objects m s p : js_free_shape0 (set_objects m s) p = set_objects m <$> js_free_shape0 s p.
Proof.
  unfold js_free_shape0. change (shapes (set_objects m s)) with (shapes s). destruct (shapes s !! p) as [sh|]; [|done]. cbn [mbind option_bind].
  destruct (decide (sh_ref_count sh = 0)) as [H|H]; [rewrite !option_guard_True by done|by rewrite !option_guard_False by done].
  cbn [mbind option_bind]. rewrite hash_unlink_objects. destruct (is_hashed sh).
  - destruct (js_shape_hash_unlink s p) as [s1|]; [|done]. cbn [mbind option_bind fmap option_fmap option_map]. by rewrite free_proto_objects, free_atoms_objects.
  - cbn [mbind option_bind fmap option_fmap option_map]. by rewrite free_proto_objects, free_atoms_objects.
Qed.

(** [js_free_shape] does not use the objects. *)
Lemma free_shape_objects m s p : js_free_shape (set_objects m s) p = set_objects m <$> js_free_shape s p.
Proof.
  unfold js_free_shape. change (shapes (set_objects m s)) with (shapes s). destruct (shapes s !! p) as [sh|]; [|done]. cbn [mbind option_bind].
  set (sh0 := with_ref_count _ sh). change (write_shape p sh0 (set_objects m s)) with (set_objects m (write_shape p sh0 s)).
  rewrite free_shape0_objects. by destruct (_ <=? 0).
Qed.
Lemma free_shape_keeps s p s' : js_free_shape s p = Some s' -> objects s' = objects s.
Proof.
  intros E. pose proof (free_shape_objects (objects s) s p) as H. replace (set_objects (objects s) s) with s in H by (by destruct s).
  rewrite E in H. cbn in H. apply (inj Some) in H. by rewrite H.
Qed.
Lemma free_shape_object q o s p : js_free_shape (write_object q o s) p = write_object q o <$> js_free_shape s p.
Proof.
  unfold write_object. rewrite free_shape_objects. destruct (js_free_shape s p) as [s'|] eqn:E; [|done]. cbn. by rewrite (free_shape_keeps s p s' E).
Qed.

(** The object [q] leaves its shape for [shape o'], to which the running function holds a
    reference. *)
Lemma adopt_spec n s q o sh o' sh' : links_ok (<[shape o' := 1]> no_ext) n s -> table_inv None n s -> n < 2 ^ 26 -> at_object s q o sh ->
  shapes s !! shape o' = Some sh' -> shape o' <> shape o \/ 1 < sh_ref_count sh' -> prop_size sh' <= len (prop o') ->
  exists s1, js_free_shape s (shape o) = Some s1 /\ frame n s q (write_object q o' s1) /\
    at_object (write_object q o' s1) q o' (with_ref_count (refs_to (shape o') (<[q := o']> (objects s))) sh').
Proof.
  intros HL HB Hn [Eo Es] Es' Hlive Hps. destruct (move_object _ n s q o o' sh' HL Eo Es') as [HL1 Hv1]; [by rewrite fn_lookup_insert|done|].
  set (ext1 := moved _ _ _) in HL1.
  assert (Hext : forall x, ext1 x = if decide (shape o = x) then 1 else 0).
  { intros x. unfold ext1, moved. destruct (decide (shape o' = x)) as [<-|Hx]; [rewrite fn_lookup_insert|rewrite fn_lookup_insert_ne by done; unfold no_ext];
      case_decide; lia. }
  destruct (free_shape_spec ext1 n (write_object q o' s) (shape o) sh HL1) as (s2 & E & HL2 & HB2 & Ho2 & Hs2 & Hv2 & _);
    [by apply table_object|done|done|by rewrite Hext, decide_True by done|].
  rewrite free_shape_object in E. destruct (js_free_shape s (shape o)) as [s1|]; [|done]. apply (inj Some) in E. change (write_object q o' s1 = s2) in E. subst s2.
  exists s1. split; [done|]. assert (HL3 : links_ok no_ext n (write_object q o' s1)).
  { eapply links_ext; [|exact HL2]. intros x. unfold no_ext. destruct (decide (x = shape o)) as [->|Hx].
    - rewrite fn_lookup_insert, Hext, decide_True by done. lia.
    - rewrite fn_lookup_insert_ne by congruence. by rewrite Hext, decide_False by congruence. }
  split.
  - split_and!; [done|done|]. intros x Hx. rewrite Hv2. by apply Hv1.
  - destruct (Hs2 (shape o') sh') as [k Ek]; [done|done|].
    assert (k = refs_to (shape o') (<[q := o']> (objects s))) as <-.
    { destruct (lo_ref _ _ _ HL3 _ _ Ek) as (H1 & _). rewrite Ho2 in H1. cbn in H1. unfold no_ext in H1. lia. }
    split; [by cbn; rewrite lookup_insert_eq|done].
Qed.

(** [q] has a shape of its own: the clone of the old one. *)
Lemma adopt_clone n s q o sh p' b s1 : links_ok no_ext n s -> n < 2 ^ 26 -> at_object s q o sh -> is_hashed sh = true ->
  shapes s !! p' = None -> shapes s1 = <[p' := with_hashed b (with_ref_count 1 sh)]> (shapes s) -> objects s1 = objects s ->
  links_ok (<[p' := 1]> no_ext) n s1 -> table_inv None n s1 ->
  exists s2, js_free_shape s1 (shape o) = Some s2 /\ frame n s q (write_object q (with_shape p' o) s2) /\
    at_object (write_object q (with_shape p' o) s2) q (with_shape p' o) (with_hashed b (with_ref_count 1 sh)).
Proof.
  intros HL Hn [Eo Es] Hh Ep' E1 E2 HL1 HB1. set (sh' := with_hashed b (with_ref_count 1 sh)) in *.
  assert (Hne : p' <> shape o) by congruence. destruct (lo_object _ _ _ HL q o Eo) as (z & Ez & Hps). rewrite Es in Ez. apply (inj Some) in Ez. subst z.
  assert (Ep1 : shapes s1 !! p' = Some sh') by (by rewrite E1, lookup_insert_eq).
  destruct (adopt_spec n s1 q o sh (with_shape p' o) sh') as (s2 & E & (HL2 & HB2 & Hv2) & _ & Ek); try done.
  { split; [by rewrite E2|]. by rewrite E1, lookup_insert_ne. }
  { by left. }
  exists s2. split; [done|]. split.
  - split_and!; [done|done|]. intros x Hx. rewrite (Hv2 x Hx). unfold view. rewrite E2. destruct (objects s !! x) as [y|] eqn:Ey; [|done]. cbn.
    destruct (lo_object _ _ _ HL x y Ey) as (z & Ez & _). rewrite E1, lookup_insert_ne by congruence. done.
  - split; [by cbn; rewrite lookup_insert_eq|]. rewrite Ek. cbn [shape with_shape]. rewrite E2, (refs_update p' _ q o _ Eo). cbn [shape with_shape].
    rewrite decide_False, decide_True by congruence. by rewrite (refs_zero no_ext n) by done.
Qed.

(** ** Shapes that are shared *)

Lemma find_shape_spec f sm l : (forall p, p ∈ l -> exists sh b, sm !! p = Some sh /\ f sh = Some b) ->
  exists r, find_shape f sm l = Some r /\ match r with Some p => p ∈ l /\ exists sh, sm !! p = Some sh /\ f sh = Some true | None => True end.
Proof.
  induction l as [|p l IH]; intros Hf; [by exists None|]. cbn. destruct (Hf p) as (sh & b & E & Eb); [by left|]. rewrite E. cbn. rewrite Eb. cbn.
  destruct b.
  - exists (Some p). split; [done|]. split; [by left|]. by exists sh.
  - destruct IH as (r & Er & Hr); [intros x Hx; apply Hf; by right|]. exists r. split; [done|]. destruct r; [|done]. destruct Hr. split; [by right|done].
Qed.

Lemma same_props_content l l1 : same_props l l1 = true -> content (take (length l) l1) = content l.
Proof.
  revert l1. induction l as [|p l IH]; intros [|p1 l1]; try done. cbn. intros H. apply andb_prop in H as [[H1 H2]%andb_prop H3].
  apply Z.eqb_eq in H1, H2. rewrite H1, H2. f_equal. by apply IH.
Qed.

Lemma matches_prop_spec sh h a f sh1 : exists b, matches_prop sh h a f sh1 = Some b /\
  (b = true -> content (shape_prop sh1) = content (shape_prop sh) ++ [(a, f)] /\ proto sh1 = proto sh).
Proof.
  unfold matches_prop. destruct ((hash sh1 =? h) && bool_decide (proto sh1 = proto sh) && (prop_count sh1 =? prop_count sh + 1)) eqn:E1; [|by exists false].
  apply andb_prop in E1 as [[_ Hp%bool_decide_eq_true]%andb_prop Hc%Z.eqb_eq]. destruct (same_props _ _) eqn:E2; [|by exists false].
  unfold prop_count in Hc. destruct (lookup_lt_is_Some_2 (shape_prop sh1) (length (shape_prop sh))) as [p Ep]; [lia|]. rewrite Ep. cbn.
  eexists. split; [done|]. intros H. apply andb_prop in H as [H1%Z.eqb_eq H2%Z.eqb_eq]. split; [|done].
  rewrite <- (take_drop (length (shape_prop sh)) (shape_prop sh1)). unfold content. rewrite fmap_app. f_equal; [by apply same_props_content|].
  rewrite (drop_S _ _ _ Ep), drop_ge by lia. cbn. by rewrite H1, H2.
Qed.

(** A shape of the table. *)
Lemma hashed_shape n s h f : table_inv None n s -> n < 2 ^ 26 -> word 32 h -> (forall sh, exists b, f sh = Some b) ->
  exists l r, shape_hash_table s !! Z.to_nat (get_shape_hash h (shape_hash_bits s)) = Some l /\ find_shape f (shapes s) l = Some r /\
    match r with Some p => exists sh, shapes s !! p = Some sh /\ is_hashed sh = true /\ f sh = Some true | None => True end.
Proof.
  intros HB Hn Hw Hf. destruct (bucket_lookup n _ s h HB Hn Hw) as [l El]. exists l.
  assert (Hl : forall p, p ∈ l -> exists sh, shapes s !! p = Some sh /\ is_hashed sh = true).
  { intros p Hp. apply (bo_bucket _ _ _ HB _ _ El) in Hp as (k & (sh & E & H1 & _) & _). by exists sh. }
  destruct (find_shape_spec f (shapes s) l) as (r & Er & Hr).
  { intros p Hp. destruct (Hl p Hp) as (sh & E & _). destruct (Hf sh) as [b Eb]. by exists sh, b. }
  exists r. split_and!; [done|done|]. destruct r as [p|]; [|done]. destruct Hr as (Hp & sh & E & Ef). destruct (Hl p Hp) as (sh' & E' & Hh).
  exists sh. split_and!; [done|congruence|done].
Qed.

(** The outcome of [add_property]: the index of the new entry. *)
Definition added s (q : ptr) (o : JSObject (V := V)) (sh : JSShape) (a f : Z) (r : option nat) s' : Prop :=
  match r with
  | None => view s' q = view s q
  | Some i => i = length (shape_prop sh) /\ exists o' sh', at_object s' q o' sh' /\ content (shape_prop sh') = content (shape_prop sh) ++ [(a, f)] /\
      proto sh' = proto sh /\ extensible o' = extensible o /\ has_immutable_prototype o' = has_immutable_prototype o /\
      keeps_values sh o o' /\ prop_size sh' <= len (prop o')
  end.

Lemma content_prop_length pr c x : content pr = c ++ [x] -> length pr = S (length c).
Proof. intros E%(f_equal length). unfold content in E. rewrite length_app, length_fmap in E. cbn in E. lia. Qed.
Lemma length_content pr : length (content pr) = length pr.
Proof. apply length_fmap. Qed.

Lemma keeps_entries sh o o' : keeps_values sh o o' -> entries (content (shape_prop sh)) (prop o') = entries (content (shape_prop sh)) (prop o).
Proof. intros Hk. apply entries_prefix. by rewrite length_content. Qed.

(** The end of [add_property]. *)
Lemma add_exclusive n s q o sh a f : links_ok no_ext n s -> table_inv None n s -> n + 1 < 2 ^ 26 -> at_object s q o sh ->
  sh_ref_count sh = 1 -> unused a (shape_prop sh) -> 0 < a -> 0 <= f < 64 ->
  exists r s', ('(ok, s1) ← add_shape_property s q a f;
    if negb ok then Some (None, s1) else
      o ← objects s1 !! q; sh ← shapes s1 !! shape o; Some (Some (length (shape_prop sh) - 1)%nat, s1)) = Some (r, s') /\
    frame (n + 1) s q s' /\ added s q o sh a f r s'.
Proof.
  intros HL HB Hn Hat Hr Hun Ha Hf.
  destruct (add_shape_property_spec n s q o sh a f HL HB Hn Hat Hr Hun Ha Hf) as (ok & s' & o' & sh' & E & Hu & Hok & Hw & Hr' & Hps & Hpc & Hk & Hp & HB' & Hc).
  destruct (updated_links n (n + 1) s q o sh s' o' sh' HL Hat Hr Hu Hok Hw Hr' ltac:(lia) Hpc Hps) as (HL' & Hv & Hq).
  rewrite E. cbn [mbind option_bind]. pose proof (updated_at _ _ _ _ _ _ Hu) as Hat'. destruct (up_fields _ _ _ _ _ _ Hu) as [He Hi]. destruct ok; cbn [negb].
  - rewrite (proj1 Hat'). cbn [mbind option_bind]. rewrite (proj2 Hat'). cbn [mbind option_bind]. eexists _, s'. split; [done|]. split; [by split_and!|].
    split; [rewrite (content_prop_length _ _ _ Hc), length_content; lia|]. by exists o', sh'.
  - eexists _, s'. split; [done|]. split; [by split_and!|]. cbn. rewrite Hq, (view_at s q o sh Hat). unfold view_of. rewrite Hc, app_nil_r, Hp, He, Hi.
    by rewrite (keeps_entries sh o o').
Qed.

Lemma object_frame_trans n n' s1 s2 s3 q : frame n s1 q s2 -> frame n' s2 q s3 -> frame n' s1 q s3.
Proof. intros (_ & _ & H1) (HL & HB & H2). split_and!; [done|done|]. intros x Hx. by rewrite (H2 x Hx), (H1 x Hx). Qed.

(** The views of a state with other buckets or another allocation number. *)
Lemma frame_core n s q s' : inv n s -> core s' = core s -> frame n s q s'.
Proof.
  intros [HL HB] Hc. split_and!; [by apply (links_core _ n s)|by apply (table_core None n s)|]. intros x _. by apply view_core.
Qed.

Lemma links_fields ext n s s' : shapes s' = shapes s -> objects s' = objects s -> links_ok ext n s -> links_ok ext n s'.
Proof. intros E1 E2 []. split; rewrite ?E1, ?E2; done. Qed.

(** A shape enters the table. *)
Lemma links_hashed ext n s p sh sh' : links_ok ext n s -> shapes s !! p = Some sh -> sh_ref_count sh = 1 -> sh_ref_count sh' = 1 -> shape_ok sh' ->
  word 32 (hash sh') -> prop_count sh' = prop_count sh -> prop_size sh' = prop_size sh -> links_ok ext n (write_shape p sh' s).
Proof.
  intros HL E Hr Hr' Hok Hw Hpc Hps. destruct (lo_shape _ _ _ HL p sh E) as (_ & _ & Hn). split.
  - cbn. intros x y [[<- <-]|[_ Ey]]%lookup_insert_Some; [split_and!; [done|done|lia]|]. by apply (lo_shape _ _ _ HL x).
  - cbn. intros q o Eo. destruct (lo_object _ _ _ HL q o Eo) as (y & Ey & Hp). destruct (decide (shape o = p)) as [Ep|Hp'].
    + rewrite Ep in *. rewrite lookup_insert_eq. rewrite E in Ey. apply (inj Some) in Ey. subst y. exists sh'. split; [done|lia].
    + rewrite lookup_insert_ne by congruence. by exists y.
  - cbn. intros x y [[<- <-]|[Hx Ey]]%lookup_insert_Some; [|by apply (lo_ref _ _ _ HL x)].
    destruct (lo_ref _ _ _ HL p sh E) as (H1 & _). split_and!; [lia|lia|done].
  - apply (lo_ext _ _ _ HL).
Qed.
Lemma table_unlinked n s p sh sh' : table_inv None n s -> shapes s !! p = Some sh -> is_hashed sh = false -> table_inv (Some p) n (write_shape p sh' s).
Proof.
  intros HB E Hh. eapply buckets_ext; [exact HB| |done|done|done]. intros x h. unfold linked. cbn. split.
  - intros (y & [[<- <-]|[Hx Ey]]%lookup_insert_Some & H1 & H2 & H3); [done|]. by exists y.
  - intros (y & Ey & H1 & H2 & _). assert (x <> p) by congruence. exists y. rewrite lookup_insert_ne by congruence. split_and!; congruence.
Qed.

(** The end of [add_property], and its case of a shape that exists. *)
Definition add_last s (q : ptr) (a f : Z) : option (option nat * JSRuntime (V := V)) :=
  o ← objects s !! q;
  sh ← shapes s !! shape o;
  guard (sh_ref_count sh = 1);;
  '(ok, s) ← add_shape_property s q a f;
  if negb ok then Some (None, s)
  else
    o ← objects s !! q;
    sh ← shapes s !! shape o;
    Some (Some (length (shape_prop sh) - 1)%nat, s).

Definition add_shared s (q : ptr) (o : JSObject (V := V)) (sh : JSShape) (new_sh : ptr) (sh1 : JSShape) : option (option nat * JSRuntime (V := V)) :=
  let '(ok, o, s) :=
    if negb (prop_size sh1 =? prop_size sh) then
      let '(ok, s) := js_malloc s in
      (ok, if ok then with_prop (resize_values (prop_size sh1) (prop o)) o else o, s)
    else (true, o, s) in
  if negb ok then Some (None, s)
  else
    s ← js_dup_shape s new_sh;
    s ← js_free_shape (write_object q (with_shape new_sh o) s) (shape o);
    Some (Some (length (shape_prop sh1) - 1)%nat, s).

Definition add_cloned s (q : ptr) (o : JSObject (V := V)) (a f : Z) : option (option nat * JSRuntime (V := V)) :=
  '(r, s) ← js_clone_shape s (shape o);
  match r with
  | None => Some (None, s)
  | Some new_sh =>
      sh1 ← shapes s !! new_sh;
      s ← js_shape_hash_link (write_shape new_sh (with_hashed true sh1) s) new_sh;
      s ← js_free_shape s (shape o);
      add_last (write_object q (with_shape new_sh o) s) q a f
  end.

Lemma add_property_eq s q o sh a f : at_object s q o sh ->
  add_property s q a f =
    if is_hashed sh then
      found ← find_hashed_shape_prop s sh a f;
      match found with
      | Some new_sh => sh1 ← shapes s !! new_sh; add_shared s q o sh new_sh sh1
      | None => if negb (sh_ref_count sh =? 1) then add_cloned s q o a f else add_last s q a f
      end
    else add_last s q a f.
Proof. intros [E1 E2]. unfold add_property, add_shared, add_cloned, add_last. rewrite E1. cbn [mbind option_bind]. by rewrite E2. Qed.

Lemma frame_mono n n' s q s' : n <= n' -> frame n s q s' -> frame n' s q s'.
Proof. intros Hn (HL & HB & Hv). split_and!; [by eapply links_mono; [|exact HL]|by eapply table_mono; [|exact HB]|done]. Qed.

Lemma add_last_spec n s q o sh n' s1 o1 sh1 a f : at_object s q o sh -> unused a (shape_prop sh) -> 0 < a -> 0 <= f < 64 ->
  n' + 1 <= n -> n < 2 ^ 26 -> frame n' s q s1 -> at_object s1 q o1 sh1 -> sh_ref_count sh1 = 1 ->
  shape_prop sh1 = shape_prop sh -> proto sh1 = proto sh -> prop o1 = prop o -> extensible o1 = extensible o ->
  has_immutable_prototype o1 = has_immutable_prototype o ->
  exists r s', add_last s1 q a f = Some (r, s') /\ frame n s q s' /\ added s q o sh a f r s'.
Proof.
  intros Hat Hun Ha Hf Hn' Hn (HLf & HBf & Hvf) Hat1 Hr1 Hsp Hpr Ho1 He1 Hi1. unfold add_last.
  rewrite (proj1 Hat1). cbn [mbind option_bind]. rewrite (proj2 Hat1). cbn [mbind option_bind]. rewrite option_guard_True by done. cbn [mbind option_bind].
  destruct (add_exclusive n' s1 q o1 sh1 a f) as (r & s' & E & Hfr' & Had); try done; [lia|by rewrite Hsp|].
  exists r, s'. split; [exact E|]. split.
  - apply (frame_mono (n' + 1)); [done|]. destruct Hfr' as (H1 & H2 & H3). split_and!; try done. intros x Hx. by rewrite (H3 x Hx), (Hvf x Hx).
  - destruct r as [i|]; cbn in *.
    + destruct Had as [-> (o2 & sh2 & H1 & H2 & H3 & H4 & H5 & H6 & H7)]. unfold keeps_values in *. rewrite Hsp, Ho1 in *. split; [done|].
      exists o2, sh2. split_and!; try done; congruence.
    + rewrite Had, (view_at _ _ _ _ Hat1), (view_at _ _ _ _ Hat). unfold view_of. by rewrite Hsp, Hpr, Ho1, He1, Hi1.
Qed.

(** The array of the values gets the size of the shape. *)
Lemma fit_values s o sh sh1 : prop_size sh <= len (prop o) -> shape_ok sh -> shape_ok sh1 -> prop_count sh <= prop_count sh1 ->
  exists ok o2 s2, (if negb (prop_size sh1 =? prop_size sh) then
      let '(ok, s) := js_malloc s in (ok, if ok then with_prop (resize_values (prop_size sh1) (prop o)) o else o, s) else (true, o, s)) = (ok, o2, s2) /\
    core s2 = core s /\ (ok = true -> exists l, o2 = with_prop l o /\ prop_size sh1 <= len l /\ keeps_values sh o (with_prop l o)).
Proof.
  intros Hps Hok Hok1 Hc. destruct (Z.eqb_spec (prop_size sh1) (prop_size sh)) as [Eq|]; cbn [negb].
  - exists true, o, s. split_and!; try done. intros _. exists (prop o). split_and!; [by destruct o|lia|done].
  - destruct (js_malloc s) as [ok s2] eqn:Em. eexists ok, _, s2. split; [done|]. split; [by eapply core_malloc|]. intros ->. eexists. split; [done|].
    pose proof (so_min _ Hok1) as Hmin. pose proof (so_size _ Hok1) as H1. pose proof (so_size _ Hok) as H2. unfold JS_PROP_INITIAL_SIZE, prop_count in *. split.
    + unfold resize_values. rewrite length_resize. lia.
    + apply resize_take; lia.
Qed.

Lemma add_shared_spec n s q o sh a f p sh1 : inv n s -> n < 2 ^ 26 -> at_object s q o sh -> shapes s !! p = Some sh1 -> is_hashed sh1 = true ->
  content (shape_prop sh1) = content (shape_prop sh) ++ [(a, f)] -> proto sh1 = proto sh ->
  exists r s', add_shared s q o sh p sh1 = Some (r, s') /\ frame n s q s' /\ added s q o sh a f r s'.
Proof.
  intros [HL HB] Hn Hat E1 Hh1 Hc1 Hp1. destruct (at_object_ok no_ext n s q o HL (proj1 Hat)) as (z & [_ Ez] & Hok & _ & _ & Hps).
  rewrite (proj2 Hat) in Ez. apply (inj Some) in Ez. subst z. destruct (lo_shape _ _ _ HL _ _ E1) as (Hok1 & _ & _).
  pose proof (content_prop_length _ _ _ Hc1) as Hlen1. rewrite length_content in Hlen1.
  unfold add_shared. destruct (fit_values s o sh sh1 Hps Hok Hok1) as (ok & o2 & s2 & -> & Hc2 & Ho2); [unfold prop_count; lia|].
  destruct (core_fields _ _ Hc2) as (C1 & C2 & _). destruct ok; cbn [negb].
  - destruct (Ho2 eq_refl) as (l2 & -> & Hl2 & Hk2).
    destruct (dup_shape_spec no_ext n s2 p sh1) as (s3 & E3 & Hs3 & HL3 & HB3 & Hv3); [by apply (links_core _ n s)|by apply (table_core None n s)|by rewrite C1|done|].
    rewrite E3. cbn [mbind option_bind]. set (o3 := with_shape p (with_prop l2 o)). set (shn := with_ref_count (sh_ref_count sh1 + 1) sh1).
    assert (Es3 : shapes s3 = <[p := shn]> (shapes s)) by (rewrite Hs3; cbn; by rewrite C1).
    assert (Eo3 : objects s3 = objects s) by (by rewrite Hs3; cbn). destruct (lo_ref _ _ _ HL _ _ E1) as (_ & Hpos & _).
    assert (Hat3 : exists sh3, at_object s3 q o sh3).
    { unfold at_object. rewrite Eo3, Es3. destruct (decide (shape o = p)) as [->|].
      - rewrite lookup_insert_eq. exists shn. split; [apply Hat|done].
      - rewrite lookup_insert_ne by done. by exists sh. }
    destruct Hat3 as [sh3 Hat3].
    destruct (adopt_spec n s3 q o sh3 o3 shn) as (s4 & E4 & (HL4 & HB4 & Hv4) & Hat4); try done; [by cbn; rewrite Es3, lookup_insert_eq|right; cbn; lia|].
    change (shape (with_prop l2 o)) with (shape o). rewrite free_shape_object. fold o3. rewrite E4. cbn [mbind option_bind fmap option_fmap option_map].
    exists (Some (length (shape_prop sh1) - 1)%nat), (write_object q o3 s4). split; [done|]. split.
    + split_and!; [done|done|]. intros x Hx. rewrite (Hv4 x Hx), Hv3. by apply view_core.
    + split; [lia|]. eexists o3, _. split; [exact Hat4|]. by split_and!.
  - exists None, s2. split; [done|]. split; [by apply frame_core|by apply view_core].
Qed.

Lemma add_cloned_spec n s q o sh a f : inv n s -> n + 2 < 2 ^ 26 -> at_object s q o sh -> is_hashed sh = true -> unused a (shape_prop sh) -> 0 < a -> 0 <= f < 64 ->
  exists r s', add_cloned s q o a f = Some (r, s') /\ frame (n + 2) s q s' /\ added s q o sh a f r s'.
Proof.
  intros [HL HB] Hn Hat Eh Hun Ha Hf. destruct (lo_shape _ _ _ HL _ _ (proj2 Hat)) as (Hok & Hw & Hpc).
  pose proof (table_mono n (n + 1) _ _ ltac:(lia) HB) as HB1. pose proof (links_mono _ n (n + 1) _ ltac:(lia) HL) as HL1. unfold add_cloned.
  destruct (clone_shape_spec no_ext (n + 1) s (shape o) sh HL1 HB1 (proj2 Hat)) as (r1 & s1 & E1 & Eo1 & HBc & Hcc & Hr1).
  rewrite E1. cbn [mbind option_bind]. destruct r1 as [p'|].
  - destruct Hr1 as (Hp' & Es1 & HL2). rewrite Es1, lookup_insert_eq. cbn [mbind option_bind].
    set (sh1 := with_hashed true (with_hashed false (with_ref_count 1 sh))). set (s2 := write_shape p' sh1 s1).
    assert (Es2 : shapes s2 = <[p' := sh1]> (shapes s)) by (cbn; by rewrite Es1, insert_insert_eq).
    assert (Ep1 : shapes s1 !! p' = Some (with_hashed false (with_ref_count 1 sh))) by (by rewrite Es1, lookup_insert_eq).
    assert (HL3 : links_ok (<[p' := 1]> no_ext) (n + 1) s2) by (eapply links_hashed; try done; by apply (shape_ok_layout sh)).
    assert (HB3 : table_inv (Some p') (n + 1) s2) by (by eapply table_unlinked).
    destruct (hash_link_spec (n + 1) s2 p' sh1 HB3) as (tab & E3 & HB4); [lia| |by rewrite Es2, lookup_insert_eq|done|done|].
    { cbn. rewrite Hcc. assert (shape_hash_count s <= n) by apply HB. lia. }
    rewrite E3. cbn [mbind option_bind]. set (s3 := set_buckets _ _ _ _) in *.
    destruct (adopt_clone (n + 1) s q o sh p' true s3 HL1) as (s4 & E4 & Hfr & Hat4); [lia|done|done|done|exact Es2|exact Eo1|by apply (links_fields _ _ s2)|done|].
    rewrite E4. cbn [mbind option_bind]. eapply (add_last_spec (n + 2) s q o sh (n + 1)); try done; lia.
  - exists None, s1. split; [done|]. assert (Hv : forall x, view s1 x = view s x) by (intros x; unfold view; by rewrite (proj1 Hr1), Eo1).
    split; [|apply Hv]. apply (frame_mono (n + 1)); [lia|]. split_and!; [apply (links_fields _ _ s s1); [apply Hr1|done..]|done|intros x _; apply Hv].
Qed.

Lemma add_property_spec n s q o sh a f : inv n s -> n + 2 < 2 ^ 26 -> at_object s q o sh -> unused a (shape_prop sh) -> 0 < a -> 0 <= f < 64 ->
  exists r s', add_property s q a f = Some (r, s') /\ frame (n + 2) s q s' /\ added s q o sh a f r s'.
Proof.
  intros Hinv Hn Hat Hun Ha Hf. pose proof Hinv as [HL HB]. rewrite (add_property_eq s q o sh a f Hat).
  assert (Hlast : sh_ref_count sh = 1 -> exists r s', add_last s q a f = Some (r, s') /\ frame (n + 2) s q s' /\ added s q o sh a f r s').
  { intros Hr. eapply (add_last_spec (n + 2) s q o sh n s o sh); try done; lia. }
  destruct (is_hashed sh) eqn:Eh; [|by apply Hlast, (lo_ref _ _ _ HL _ _ (proj2 Hat))].
  set (h := shape_hash (shape_hash (hash sh) a) f).
  destruct (hashed_shape n s h (matches_prop sh h a f) HB) as (l & r & El & Er & Hr); [lia|apply shape_hash_word| |].
  { intros x. destruct (matches_prop_spec sh h a f x) as (b & Eb & _). by exists b. }
  unfold find_hashed_shape_prop. fold h. rewrite El. cbn [mbind option_bind]. rewrite Er. cbn [mbind option_bind]. destruct r as [p|].
  - destruct Hr as (sh1 & E1 & Hh1 & Hm). destruct (matches_prop_spec sh h a f sh1) as (b & Eb & Hb).
    rewrite Hm in Eb. apply (inj Some) in Eb. subst b. destruct (Hb eq_refl) as [Hc1 Hp1]. rewrite E1. cbn [mbind option_bind].
    destruct (add_shared_spec n s q o sh a f p sh1) as (r & s' & E & Hfr & Had); try done; [lia|].
    exists r, s'. split_and!; [done| |done]. apply (frame_mono n); [lia|done].
  - destruct (Z.eqb_spec (sh_ref_count sh) 1) as [Hrc|Hrc]; cbn [negb]; [by apply Hlast|]. by apply add_cloned_spec.
Qed.
End ops.
