(* ===== verification/ShapesUpdate.v ===== *)
(** * The changes of properties and the life of objects

    The operations that change the shape of an object in place, after
    [js_shape_prepare_update], and the ones that make and free objects. *)
From S2P Require Export ShapesOps.

Section update.
Context {V : Type} {W : World} {Al : Malloc}.
Implicit Types s : JSRuntime (V := V).

(** ** A shape of one's own *)

Lemma table_unhashed n s p sh' : table_inv (Some p) n s -> is_hashed sh' = false -> table_inv None n (write_shape p sh' s).
Proof.
  intros HB Hh. eapply buckets_ext; [exact HB| |done|done|done]. intros x h. unfold linked. cbn. split.
  - intros (y & [[<- <-]|[Hx Ey]]%lookup_insert_Some & H1 & H2 & H3); [congruence|]. exists y. split_and!; congruence.
  - intros (y & Ey & H1 & H2 & H3). exists y. rewrite lookup_insert_ne by congruence. done.
Qed.

(** The object [q], with the same values, has the shape [sh'] in the place of [sh]. *)
Definition prepared (o : JSObject (V := V)) (sh : JSShape) (o' : JSObject (V := V)) (sh' : JSShape) : Prop :=
  same_layout sh sh' /\ is_hashed sh' = false /\ hash sh' = hash sh /\ exists p, o' = with_shape p o.

Lemma prepared_view o sh o' sh' : prepared o sh o' sh' -> view_of o' sh' = view_of o sh.
Proof. intros ((E1 & _ & _ & _ & _ & E6) & _ & _ & p & ->). unfold view_of. by rewrite E1, E6. Qed.

Lemma prepare_update_spec n s q o sh : inv n s -> n < 2 ^ 26 -> at_object s q o sh ->
  exists ok s', js_shape_prepare_update s q = Some (ok, s') /\ frame n s q s' /\ view s' q = view s q /\
    (if ok then exists o' sh', at_object s' q o' sh' /\ prepared o sh o' sh' else exists k, ext_ok k = false).
Proof.
  intros Hinv Hn Hat. pose proof Hinv as [HL HB]. destruct (at_object_ok no_ext n s q o HL (proj1 Hat)) as (z & [_ Ez] & Hok & Hw & Hpc & Hps).
  rewrite (proj2 Hat) in Ez. apply (inj Some) in Ez. subst z.
  unfold js_shape_prepare_update. rewrite (proj1 Hat). cbn [mbind option_bind]. rewrite (proj2 Hat). cbn [mbind option_bind].
  destruct (is_hashed sh) eqn:Eh.
  - destruct (Z.eqb_spec (sh_ref_count sh) 1) as [Hr|Hr]; cbn [negb].
    + destruct (hash_unlink_spec n s (shape o) sh HB Hn (proj2 Hat) Eh) as (tab & E & HB1). rewrite E. cbn [mbind option_bind].
      set (s1 := set_buckets _ _ _ _) in *. set (sh' := with_hashed false sh). assert (Hat1 : at_object s1 q o sh) by done.
      assert (Hu : updated s q o (write_shape (shape o) sh' s1) o sh') by (eapply updated_core; [by eapply (updated_write s)|done|done]).
      destruct (updated_links n n s q o sh _ o sh' HL Hat Hr Hu) as (HL' & Hv & Hq); try done; [by apply (shape_ok_layout sh)|].
      eexists true, _. split; [done|]. split; [split_and!; [done|by apply table_unhashed|done]|]. split; [by rewrite Hq, (view_at _ _ _ _ Hat)|].
      exists o, sh'. split; [by eapply updated_at|]. unfold prepared. split_and!; try done. exists (shape o). by destruct o.
    + destruct (clone_shape_spec no_ext n s (shape o) sh HL HB (proj2 Hat)) as (r & s1 & E & Eo1 & HB1 & _ & Hres). rewrite E. cbn [mbind option_bind].
      destruct r as [p'|].
      * destruct Hres as (Ep' & Es1 & HL1). destruct (adopt_clone n s q o sh p' false s1) as (s2 & E2 & Hfr & Hat2); try done.
        rewrite E2. cbn [mbind option_bind]. eexists true, _. split; [done|]. split; [done|].
        assert (Hp : prepared o sh (with_shape p' o) (with_hashed false (with_ref_count 1 sh))) by (unfold prepared; split_and!; try done; by exists p').
        split; [by rewrite (view_at _ _ _ _ Hat2), (view_at _ _ _ _ Hat), (prepared_view _ _ _ _ Hp)|]. by eexists _, _.
      * exists false, s1. split; [done|]. assert (Hv : forall x, view s1 x = view s x) by (intros x; unfold view; by rewrite (proj1 Hres), Eo1).
        split; [split_and!; [apply (links_fields _ _ s s1); [apply Hres|done..]|done|intros x _; apply Hv]|]. split; [apply Hv|apply Hres].
  - exists true, s. split; [done|]. split_and!; try done. exists o, sh. split; [done|]. unfold prepared. split_and!; try done. exists (shape o). by destruct o.
Qed.

(** The shape that is not hashed changes. *)
Lemma in_place n n' s q o sh s' o' sh' : inv n s -> at_object s q o sh -> is_hashed sh = false -> updated s q o s' o' sh' ->
  shape_hash_table s' = shape_hash_table s -> shape_hash_bits s' = shape_hash_bits s -> shape_hash_count s' = shape_hash_count s ->
  shape_ok sh' -> word 32 (hash sh') -> sh_ref_count sh' = 1 -> is_hashed sh' = false -> n <= n' -> prop_count sh' <= n' -> prop_size sh' <= len (prop o') ->
  frame n' s q s' /\ view s' q = Some (view_of o' sh').
Proof.
  intros [HL HB] Hat Hh Hu E1 E2 E3 Hok Hw Hr Hh' Hn Hpc Hps. pose proof (lo_ref _ _ _ HL _ _ (proj2 Hat)) as (_ & _ & Hr0).
  destruct (updated_links n n' s q o sh s' o' sh' HL Hat (Hr0 Hh) Hu Hok Hw Hr Hn Hpc Hps) as (HL' & Hv & Hq).
  split; [|done]. split_and!; [done| |done]. apply (table_mono n); [done|].
  assert (H : table_inv (off_of o' sh') n s'); [|by unfold off_of in H; rewrite Hh' in H].
  eapply (updated_table n s q o sh); try done; [|congruence]. unfold off_of. by rewrite Hh.
Qed.

Lemma at_object_det s q o sh o' sh' : at_object s q o sh -> at_object s q o' sh' -> o' = o /\ sh' = sh.
Proof. intros [E1 E2] [E3 E4]. rewrite E1 in E3. apply (inj Some) in E3. subst o'. rewrite E2 in E4. by apply (inj Some) in E4. Qed.

(** What is known of the shape of an object. *)
Lemma at_shape n s q o sh : inv n s -> at_object s q o sh -> shape_ok sh /\ word 32 (hash sh) /\ prop_count sh <= n /\ prop_size sh <= len (prop o) /\
  (is_hashed sh = false -> sh_ref_count sh = 1).
Proof.
  intros [HL _] Hat. destruct (at_object_ok no_ext n s q o HL (proj1 Hat)) as (z & Hz & Hok & Hw & Hpc & Hps).
  destruct (at_object_det _ _ _ _ _ _ Hat Hz) as [_ ->]. split_and!; try done. by apply (lo_ref _ _ _ HL _ _ (proj2 Hat)).
Qed.
Lemma frame_inv n s q s' : frame n s q s' -> inv n s'.
Proof. by intros (H1 & H2 & _). Qed.

(** ** Values and flags *)

(** The entry [i] has the name [a]. *)
Definition entry_at (sh : JSShape) (i : nat) (a f : Z) : Prop := content (shape_prop sh) !! i = Some (a, f).

Lemma entry_bound n s q o sh i a f : inv n s -> at_object s q o sh -> entry_at sh i a f -> (i < length (prop o))%nat.
Proof.
  intros Hinv Hat Hi. destruct (at_shape n s q o sh Hinv Hat) as (Hok & _ & _ & Hps & _). apply lookup_lt_Some in Hi. rewrite length_content in Hi.
  pose proof (so_size _ Hok). unfold prop_count in *. lia.
Qed.

Lemma entry_unique sh i a f : shape_ok sh -> entry_at sh i a f -> a <> JS_ATOM_NULL -> unique_at (content (shape_prop sh)) i a.
Proof.
  intros Hok Hi Ha. apply content_back in Hi as (p & Ep & <- & _). by apply unique_content; [apply Hok| |].
Qed.

Lemma store_value_spec n s q o sh i a f v : inv n s -> at_object s q o sh -> entry_at sh i a f -> a <> JS_ATOM_NULL ->
  exists s', store_value s q i v = Some s' /\ frame n s q s' /\ at_object s' q (with_prop (<[i := Some v]> (prop o)) o) sh /\
    v_props (view_of (with_prop (<[i := Some v]> (prop o)) o) sh) = update_entry a (fun x => (fst x, Some v)) <$> v_props (view_of o sh).
Proof.
  intros Hinv Hat Hi Ha. pose proof (entry_bound _ _ _ _ _ _ _ _ Hinv Hat Hi) as Hb. destruct (at_shape n s q o sh Hinv Hat) as (Hok & Hw & Hpc & Hps & Hr).
  unfold store_value. rewrite (proj1 Hat). cbn [mbind option_bind]. rewrite option_guard_True by done. cbn [mbind option_bind].
  set (o' := with_prop _ o). eexists. split; [done|]. pose proof Hinv as [HL HB]. split.
  - split_and!.
    + apply (links_ext (moved no_ext (shape o) (shape o))); [intros x; unfold moved; lia|].
      split.
      * apply (lo_shape _ _ _ HL).
      * cbn. intros x y [[<- <-]|[_ Ey]]%lookup_insert_Some; [|by apply (lo_object _ _ _ HL x y)]. exists sh. split; [apply Hat|]. cbn. by rewrite length_insert.
      * cbn. intros p z Ez. rewrite (refs_update p _ q o o' (proj1 Hat)). destruct (lo_ref _ _ _ HL p z Ez) as (H1 & H2). split; [|done].
        unfold moved, o', no_ext in *. cbn [shape with_prop]. lia.
      * intros x. unfold moved, no_ext. lia.
    + by apply table_object.
    + intros x Hx. unfold view. cbn. by rewrite lookup_insert_ne by congruence.
  - split; [split; [by cbn; rewrite lookup_insert_eq|apply Hat]|]. unfold view_of. cbn [v_props o' prop with_prop].
    destruct (lookup_lt_is_Some_2 (prop o) i Hb) as [w Ew].
    rewrite <- (entries_update (content (shape_prop sh)) (prop o) i a f w (fun x => (fst x, Some v)) Hi Ew); [|by eapply entry_unique|done].
    cbn [fst snd]. by rewrite (list_insert_id (content (shape_prop sh))).
Qed.

Lemma free_count_flags c i a f g : c !! i = Some (a, f) -> free_count (<[i := (a, g)]> c) = free_count c.
Proof.
  unfold free_count. revert i. induction c as [|x c IH]; intros [|i] E; cbn in E; simplify_eq.
  - cbn [insert list_insert]. destruct (decide (a = JS_ATOM_NULL)); [by rewrite !filter_cons_True|by rewrite !filter_cons_False].
  - change (<[S i := (a, g)]> (x :: c)) with (x :: <[i := (a, g)]> c). destruct (decide (fst x = JS_ATOM_NULL)).
    + rewrite !(filter_cons_True _ x) by done. cbn [length]. by rewrite (IH i).
    + rewrite !(filter_cons_False _ x) by done. by apply IH.
Qed.

Lemma shape_ok_flags sh i p f : shape_ok sh -> shape_prop sh !! i = Some p -> 0 <= f < 64 ->
  shape_ok (with_props (hash_table sh) (<[i := mkPr (hash_next p) f (atom p)]> (shape_prop sh)) sh).
Proof.
  intros Hok Ep Hf. set (pr := <[i := _]> _). assert (Hlook : forall j q, pr !! j = Some q -> exists q0, shape_prop sh !! j = Some q0 /\ atom q0 = atom q /\
    hash_next q0 = hash_next q /\ (flags q0 = flags q \/ flags q = f)).
  { intros j q [(<- & <- & _)|[_ E]]%list_lookup_insert_Some; [exists p|exists q]; split_and!; try done; [by right|by left]. }
  assert (Hlook' : forall j q, shape_prop sh !! j = Some q -> exists q', pr !! j = Some q' /\ atom q' = atom q /\ hash_next q' = hash_next q).
  { intros j q E. destruct (decide (i = j)) as [<-|Hij].
    - rewrite Ep in E. apply (inj Some) in E. subst q. eexists. split; [apply list_lookup_insert_eq; by eapply lookup_lt_Some|done].
    - exists q. split; [by unfold pr; rewrite list_lookup_insert_ne|done]. }
  split.
  - apply Hok.
  - intros b h Eb. destruct (so_table _ Hok b h Eb) as (l & Hc & Hs & Hl). exists l. split_and!; [|done|].
    + eapply chained_ext; [|exact Hc]. intros j q _ E. destruct (Hlook' j q E) as (q' & E' & _ & H). by exists q'.
    + intros j. rewrite Hl. unfold in_bucket, live. split.
      * intros (q & E & H1 & H2). destruct (Hlook' j q E) as (q' & E' & Ha & _). exists q'. by rewrite Ha.
      * intros (q & E & H1 & H2). destruct (Hlook j q E) as (q' & E' & Ha & _). exists q'. by rewrite Ha.
  - intros j k x y Ex Ey Hx Ha. destruct (Hlook j x Ex) as (x0 & Ex0 & Hx0 & _). destruct (Hlook k y Ey) as (y0 & Ey0 & Hy0 & _).
    apply (so_names _ Hok j k x0 y0); try done; unfold live in *; congruence.
  - apply Forall_lookup. intros j x Ex. destruct (Hlook j x Ex) as (x0 & Ex0 & <- & _). by apply (Forall_lookup_1 _ _ _ _ (so_atoms _ Hok) Ex0).
  - apply Forall_lookup. intros j x Ex. destruct (Hlook j x Ex) as (x0 & Ex0 & _ & _ & [<-| ->]); [by apply (Forall_lookup_1 _ _ _ _ (so_flags _ Hok) Ex0)|done].
  - unfold prop_count. cbn. unfold pr. rewrite length_insert. apply Hok.
  - apply Hok.
  - cbn [deleted_prop_count with_props shape_prop]. rewrite (so_deleted _ Hok), !free_count_content. unfold pr. rewrite content_insert. cbn [atom flags].
    f_equal. symmetry. apply (free_count_flags _ i (atom p) (flags p)). by apply content_lookup.
  - apply Hok.
Qed.

Definition set_props (l : list (Z * Z * option V)) (v : ObjectView (V := V)) : ObjectView := mkView (v_proto v) l (v_extensible v) (v_immutable_prototype v).

Lemma set_props_id v : set_props (v_props v) v = v.
Proof. by destruct v. Qed.

Lemma layout_entry sh sh' i p : same_layout sh sh' -> shape_prop sh !! i = Some p -> shape_prop sh' !! i = Some p.
Proof. by intros (-> & _). Qed.

(** In a state after [js_shape_prepare_update], the shape changes. *)
Lemma prepared_in_place n s q o sh s1 o1 sh1 s' o' sh' : inv n s -> at_object s q o sh -> frame n s q s1 -> at_object s1 q o1 sh1 -> prepared o sh o1 sh1 ->
  updated s1 q o1 s' o' sh' -> (shape_hash_table s', shape_hash_bits s', shape_hash_count s') = (shape_hash_table s1, shape_hash_bits s1, shape_hash_count s1) ->
  shape_ok sh' -> word 32 (hash sh') -> sh_ref_count sh' = 1 -> is_hashed sh' = false -> prop_count sh' <= n -> prop_size sh' <= len (prop o') ->
  frame n s q s' /\ view s' q = Some (view_of o' sh').
Proof.
  intros Hinv Hat Hfr Hat1 (_ & Hh1 & _) Hu [= E1 E2 E3] Hok Hw Hr Hh Hpc Hps.
  destruct (in_place n n s1 q o1 sh1 s' o' sh') as [Hfr' Hv]; try done; [by eapply frame_inv|]. split; [|done]. by eapply object_frame_trans.
Qed.

Lemma prepared_shape n s q o sh s1 o1 sh1 : inv n s -> at_object s q o sh -> frame n s q s1 -> at_object s1 q o1 sh1 -> prepared o sh o1 sh1 ->
  shape_ok sh1 /\ word 32 (hash sh1) /\ prop_count sh1 <= n /\ prop_size sh1 <= len (prop o1) /\ sh_ref_count sh1 = 1 /\ prop o1 = prop o.
Proof.
  intros Hinv Hat Hfr Hat1 (_ & Hh1 & _ & p & Ho1). destruct (at_shape n s1 q o1 sh1) as (H1 & H2 & H3 & H4 & H5); [by eapply frame_inv|done|].
  split_and!; try done; [by apply H5|by rewrite Ho1].
Qed.

Lemma update_flags_spec n s q o sh i p fl : inv n s -> n < 2 ^ 26 -> at_object s q o sh -> shape_prop sh !! i = Some p -> live p -> 0 <= fl < 64 ->
  exists ok s', js_update_property_flags s q i fl = Some (ok, s') /\ frame n s q s' /\
    view s' q = Some (if ok then set_props (update_entry (atom p) (fun x => (fl, snd x)) <$> v_props (view_of o sh)) (view_of o sh) else view_of o sh).
Proof.
  intros Hinv Hn Hat Ep Hp Hfl. pose proof (content_lookup _ _ _ Ep) as Hc. pose proof (entry_bound n s q o sh i (atom p) (flags p) Hinv Hat Hc) as Hb.
  destruct (at_shape n s q o sh Hinv Hat) as (Hok & _). destruct (lookup_lt_is_Some_2 (prop o) i Hb) as [w Ew].
  assert (Hent : entries (<[i := (atom p, fl)]> (content (shape_prop sh))) (prop o) = update_entry (atom p) (fun x => (fl, snd x)) <$> v_props (view_of o sh)).
  { unfold view_of. cbn [v_props]. rewrite <- (entries_update (content (shape_prop sh)) (prop o) i (atom p) (flags p) w (fun x => (fl, snd x)) Hc Ew); [|by eapply entry_unique|done].
    cbn [fst snd]. by rewrite (list_insert_id (prop o)). }
  unfold js_update_property_flags. rewrite (proj1 Hat). cbn [mbind option_bind]. rewrite (proj2 Hat). cbn [mbind option_bind]. rewrite Ep. cbn [mbind option_bind].
  destruct (Z.eqb_spec fl (flags p)) as [Heq|Hne]; cbn [negb].
  - exists true, s. split; [done|]. split; [by split_and!; [apply Hinv..|]|]. rewrite (view_at _ _ _ _ Hat), <- Hent, Heq, list_insert_id by done. done.
  - destruct (prepare_update_spec n s q o sh Hinv Hn Hat) as (ok & s1 & E & Hfr & Hv & Hres). rewrite E. cbn [mbind option_bind]. destruct ok; cbn [negb].
    + destruct Hres as (o1 & sh1 & Hat1 & Hprep). rewrite (proj1 Hat1). cbn [mbind option_bind]. rewrite (proj2 Hat1). cbn [mbind option_bind].
      pose proof Hprep as (Hlay & _). rewrite (layout_entry sh sh1 i p Hlay Ep). cbn [mbind option_bind].
      destruct (prepared_shape n s q o sh s1 o1 sh1 Hinv Hat Hfr Hat1 Hprep) as (Hok1 & Hw1 & Hpc1 & Hps1 & Hr1 & Ho1).
      rewrite (wrap_small 6) by (unfold word; lia). set (sh' := with_props _ _ sh1).
      destruct (prepared_in_place n s q o sh s1 o1 sh1 (write_shape (shape o1) sh' s1) o1 sh' Hinv Hat Hfr Hat1 Hprep) as [Hfr' Hv']; try done.
      * by eapply updated_write.
      * by apply shape_ok_flags; [|apply (layout_entry sh)|].
      * apply Hprep.
      * unfold prop_count. cbn. rewrite length_insert. exact Hpc1.
      * eexists true, _. split; [done|]. split; [done|]. rewrite Hv'. f_equal. destruct Hprep as ((E1 & _ & _ & _ & _ & E6) & _ & _ & p1 & ->).
        unfold view_of, set_props. cbn [v_proto v_props v_extensible v_immutable_prototype sh' with_props shape_prop proto prop with_shape extensible has_immutable_prototype].
        rewrite content_insert, E1, E6. cbn [atom flags]. f_equal. exact Hent.
    + exists false, s1. split; [done|]. split; [done|]. rewrite Hv. by apply view_at.
Qed.

(** ** Deletion *)

Fixpoint lookup_prop (a : Z) (l : list (Z * Z * option V)) : option (Z * option V) :=
  match l with [] => None | (b, f, v) :: l => if b =? a then Some (f, v) else lookup_prop a l end.

Lemma lookup_entry c l i a f v : c !! i = Some (a, f) -> l !! i = Some v -> unique_at c i a -> a <> JS_ATOM_NULL -> lookup_prop a (entries c l) = Some (f, v).
Proof.
  revert l i. induction c as [|[b g] c IH]; intros [|x l] i E El Hu Ha; destruct i as [|i]; cbn in E, El; simplify_eq.
  - cbn. destruct (Z.eqb_spec a JS_ATOM_NULL); [done|]. cbn. by rewrite Z.eqb_refl.
  - cbn. assert (b <> a) by (intros ->; by specialize (Hu 0%nat a g eq_refl eq_refl)). specialize (IH l i E El (unique_at_S _ _ _ _ Hu) Ha).
    destruct (b =? JS_ATOM_NULL); [done|]. cbn. by replace (b =? a) with false by lia.
Qed.
Lemma lookup_no_entry c l a : (forall i f, c !! i <> Some (a, f)) -> lookup_prop a (entries c l) = None.
Proof.
  intros Hn. assert (H : Forall (fun e => ~ named a e) (entries c l)).
  { apply Forall_forall. intros e He Ha. destruct (entries_named c l a e He Ha) as (j & g & Ej). by destruct (Hn j g). }
  induction H as [|[[b f] v] k He _ IH]; [done|]. cbn. destruct (Z.eqb_spec b a); [by destruct He|done].
Qed.

Lemma unused_content a pr : unused a pr -> forall i f, content pr !! i <> Some (a, f).
Proof. intros Hu i f E. apply content_back in E as (p & Ep & Ha & _). by apply (Hu i p). Qed.

(** The first property stays at its place. *)
Definition keeps_front (a : Z) (sh sh' : JSShape) : Prop := forall b f, b <> JS_ATOM_NULL -> b <> a -> entry_at sh 0 b f -> entry_at sh' 0 b f.

Lemma compact_properties_spec n s q o sh : inv n s -> n < 2 ^ 26 -> at_object s q o sh -> is_hashed sh = false ->
  exists ok s', compact_properties s q = Some (ok, s') /\ frame n s q s' /\ view s' q = Some (view_of o sh) /\
    exists o' sh', at_object s' q o' sh' /\ forall a, keeps_front a sh sh'.
Proof.
  intros Hinv Hn Hat Hh. destruct (at_shape n s q o sh Hinv Hat) as (Hok & Hw & Hpc & Hps & Hr). pose proof (so_size _ Hok) as Hsz. pose proof (so_min _ Hok) as Hmin.
  pose proof (so_deleted _ Hok) as Hdel. unfold compact_properties. rewrite (proj1 Hat). cbn [mbind option_bind]. rewrite (proj2 Hat). cbn [mbind option_bind].
  assert (Hcs : compacted_size sh <= prop_size sh) by (unfold compacted_size, JS_PROP_INITIAL_SIZE in *; lia).
  rewrite option_guard_True by done. cbn [mbind option_bind]. rewrite option_guard_True by done. cbn [mbind option_bind]. rewrite option_guard_True by lia. cbn [mbind option_bind].
  destruct (js_malloc s) as [ok s1] eqn:E1. destruct (malloc_core _ _ _ E1) as (A1 & A2 & A3 & A4 & A5). apply core_malloc in E1.
  destruct ok; cbn [negb]; [|exists false, s1; split; [done|]; split; [by apply frame_core|split; [by rewrite (view_core _ _ E1); apply view_at|exists o, sh; split; [split; [by rewrite A2; apply Hat|by rewrite A1; apply Hat]|by intros a b f]]]].
  destruct (compacted_shape_spec sh Hok) as (sh' & E & Hok' & Hc & Hp & Hh' & Hhash & Hps' & Hr'); [lia|]. rewrite E. cbn [mbind option_bind].
  specialize (Hok' Hh). destruct (entries_compact (shape_prop sh) (prop o)) as [Hlen Hent]; [unfold prop_count in *; lia|].
  set (front := kept_values (shape_prop sh) (prop o)) in *. set (values := front ++ drop (length front) (prop o)).
  rewrite <- Hc in Hlen, Hent. rewrite length_content in Hlen. pose proof (so_size _ Hok') as Hsz'.
  assert (Hfl : (length front <= length (shape_prop sh))%nat).
  { rewrite Hlen, <- length_content, Hc, <- (length_content (shape_prop sh)). apply length_filter. }
  assert (Hvl : length values = length (prop o)) by (unfold values; rewrite length_app, length_drop; unfold prop_count in *; lia).
  assert (Htk : forall m, (length front <= m)%nat -> (length front <= length values)%nat -> take (length front) (resize m None values) = front).
  { intros m Hm Hv. rewrite <- (take_app_length front (drop (length front) (prop o))) at 2. fold values.
    pose proof (resize_take (length front) (Z.of_nat m) values) as H. unfold resize_values in H. rewrite Nat2Z.id in H. by apply H. }
  destruct (js_malloc s1) as [ok s2] eqn:E2. destruct (malloc_core _ _ _ E2) as (B1 & B2 & B3 & B4 & B5).
  set (l := if ok then resize_values (compacted_size sh) values else values).
  assert (Hl : take (length front) l = front /\ compacted_size sh <= len l).
  { unfold l. unfold prop_count in *. destruct ok.
    - split; [apply Htk; lia|]. unfold resize_values. rewrite length_resize. lia.
    - split; [|lia]. unfold values. apply take_app_length. }
  destruct Hl as [Htake Hl]. set (o2 := with_prop l o). set (s' := replace_shape s2 q o2 (shape o) sh').
  assert (Hu : updated s q o s' (with_shape (fresh s2) o2) sh').
  { pose proof (fresh_shape s2) as Hf. split; cbn; [by rewrite B1, A1|by rewrite B2, A2|right; congruence|done]. }
  destruct (in_place n n s q o sh s' (with_shape (fresh s2) o2) sh') as [Hfr Hv]; try done; try (unfold s', replace_shape; cbn; congruence); rewrite ?Hhash, ?Hps'; try done; try congruence; try (unfold prop_count in *; lia).
  eexists true, s'. split; [done|]. split; [done|]. split.
  2: { exists (with_shape (fresh s2) o2), sh'. split; [by eapply updated_at|]. intros a b f Hb _ He. unfold entry_at in *. rewrite Hc. destruct (content (shape_prop sh)) as [|e c]; [done|].
    cbn in He. injection He as ->. by rewrite filter_cons_True. }
  rewrite Hv. unfold view_of. cbn. rewrite Hp. do 2 f_equal. rewrite <- Hent.
  apply entries_prefix. rewrite length_content, <- Hlen, Htake. by rewrite take_ge by lia.
Qed.

(** The property [a] of [v] can be deleted. *)
Definition deletable (a : Z) (v : ObjectView (V := V)) : bool :=
  match lookup_prop a (v_props v) with Some (f, _) => negb (f .& JS_PROP_CONFIGURABLE =? 0) | None => true end.
Definition remove_prop (a : Z) (v : ObjectView (V := V)) : ObjectView := set_props (filter (fun e => ~ named a e) (v_props v)) v.

Lemma find_delete_total sh a : shape_ok sh -> 0 < a -> exists h r, hash_table sh !! find_bucket sh a = Some h /\
  find_delete (length (shape_prop sh)) (shape_prop sh) h a None = Some r /\
  match r with Some (i, _) => exists p, shape_prop sh !! i = Some p /\ atom p = a | None => unused a (shape_prop sh) end.
Proof.
  intros Hok Ha. destruct (lookup_lt_is_Some_2 (hash_table sh) (find_bucket sh a)) as [h Eh]; [apply mask_bucket; [apply Hok|lia]|].
  destruct (so_table _ Hok _ _ Eh) as (l & Hc & Hs & Hl).
  destruct (find_delete_spec (shape_prop sh) a (length (shape_prop sh)) h l None Hc) as (r & E & Hr); [by eapply bucket_length|].
  exists h, r. split_and!; try done. destruct r as [[i lp]|]; [by destruct Hr|]. intros i p Ep Hp. apply (Hr i p); [|done|done].
  apply Hl. exists p. split_and!; [done|unfold live, JS_ATOM_NULL; lia|]. unfold find_bucket. by rewrite Hp.
Qed.

(** The entry leaves the shape and its value is cleared. *)
Lemma delete_entry n s q o sh s1 o1 sh1 a i lpr h p u : inv n s -> at_object s q o sh -> frame n s q s1 -> at_object s1 q o1 sh1 -> prepared o sh o1 sh1 ->
  0 < a -> hash_table sh !! find_bucket sh a = Some h -> find_delete (length (shape_prop sh)) (shape_prop sh) h a None = Some (Some (i, lpr)) ->
  shape_prop sh !! i = Some p -> atom p = a ->
  exists sh2 sh3, unlink_property sh1 a i lpr = Some sh2 /\ clear_property sh2 i = Some sh3 /\ (i < length (prop o1))%nat /\
    let s' := JS_FreeAtom a (write_object q (with_prop (<[i := Some u]> (prop o1)) o1) (write_shape (shape o1) sh3 s1)) in
    frame n s q s' /\ at_object s' q (with_prop (<[i := Some u]> (prop o1)) o1) sh3 /\ is_hashed sh3 = false /\
    view_of (with_prop (<[i := Some u]> (prop o1)) o1) sh3 = remove_prop a (view_of o sh) /\ keeps_front a sh sh3.
Proof.
  intros Hinv Hat Hfr Hat1 Hprep Ha Eh Ef Ep Hpa. pose proof Hprep as (Hlay & Hh1 & Hhash1 & p1 & Ho1).
  destruct (prepared_shape n s q o sh s1 o1 sh1 Hinv Hat Hfr Hat1 Hprep) as (Hok1 & Hw1 & Hpc1 & Hps1 & Hr1 & Hop1).
  destruct (at_shape n s q o sh Hinv Hat) as (Hok & _). pose proof (content_lookup _ _ _ Ep) as Hc. rewrite Hpa in Hc.
  assert (Ha0 : a <> JS_ATOM_NULL) by (unfold JS_ATOM_NULL; lia).
  pose proof (entry_bound n s q o sh i a (flags p) Hinv Hat Hc) as Hb. pose proof Hlay as (E1 & E2 & E3 & E4 & E5 & E6).
  destruct (remove_entry_spec sh1 a i lpr h Hok1 Hh1 Ha) as (sh2 & sh3 & F1 & F2 & F3 & F4 & F5 & F6 & F7 & F8 & F9).
  { unfold find_bucket. by rewrite E2, E3. } { by rewrite E1. }
  exists sh2, sh3. split_and!; [done|done|by rewrite Hop1|]. set (o3 := with_prop _ o1). set (s2 := write_object q o3 (write_shape (shape o1) sh3 s1)).
  assert (Hu : updated s1 q o1 s2 o3 sh3) by (split; cbn; [by rewrite insert_delete_eq|done|by left|done]).
  destruct (prepared_in_place n s q o sh s1 o1 sh1 (JS_FreeAtom a s2) o3 sh3 Hinv Hat Hfr Hat1 Hprep) as [Hfr' _]; try done.
  - by eapply updated_core.
  - by rewrite F9.
  - by rewrite F8.
  - apply (f_equal length) in F4. rewrite length_insert, !length_content in F4. unfold prop_count in *. lia.
  - rewrite F7. cbn. by rewrite length_insert.
  - cbn zeta. split; [exact Hfr'|]. split; [|split; [done|]].
    + apply (updated_at _ _ _ _ _ _ Hu).
    + split.
      2: { intros b g _ Hba He. unfold entry_at in *. rewrite F4, E1. destruct i as [|i]; [|by rewrite list_lookup_insert_ne]. rewrite He in Hc. by injection Hc as ->. }
      unfold view_of, remove_prop, set_props. cbn [v_props v_proto v_extensible v_immutable_prototype]. rewrite F4, F5, E6, E1. unfold o3. cbn [prop with_prop extensible has_immutable_prototype].
      rewrite Hop1, (entries_clear _ _ i a (flags p) (Some u) Hc); [by rewrite Ho1|by eapply entry_unique|done].
Qed.

Lemma delete_property_spec n s q o sh a u : inv n s -> n < 2 ^ 26 -> at_object s q o sh -> 0 < a ->
  exists r s', delete_property u s q a = Some (r, s') /\ frame n s q s' /\
    match r with
    | Some b => b = deletable a (view_of o sh) /\ view s' q = Some (if b then remove_prop a (view_of o sh) else view_of o sh) /\
        exists o' sh', at_object s' q o' sh' /\ keeps_front a sh sh'
    | None => view s' q = Some (view_of o sh) /\ exists k, ext_ok k = false
    end.
Proof.
  intros Hinv Hn Hat Ha. assert (Ha0 : a <> JS_ATOM_NULL) by (unfold JS_ATOM_NULL; lia). destruct (at_shape n s q o sh Hinv Hat) as (Hok & _).
  destruct (find_delete_total sh a Hok Ha) as (h & r & Eh & Ef & Hr). unfold delete_property.
  rewrite (proj1 Hat). cbn [mbind option_bind]. rewrite (proj2 Hat). cbn [mbind option_bind]. rewrite Eh. cbn [mbind option_bind]. rewrite Ef. cbn [mbind option_bind].
  assert (Hrefl : frame n s q s) by (by split_and!; [apply Hinv..|]). pose proof (view_at _ _ _ _ Hat) as Hv0. destruct r as [[i lpr]|].
  - destruct Hr as (p & Ep & Hpa). rewrite Ep. cbn [mbind option_bind]. pose proof (content_lookup _ _ _ Ep) as Hc. rewrite Hpa in Hc.
    pose proof (entry_bound n s q o sh i a (flags p) Hinv Hat Hc) as Hb. destruct (lookup_lt_is_Some_2 (prop o) i Hb) as [w Ew].
    assert (Hd : deletable a (view_of o sh) = negb (flags p .& JS_PROP_CONFIGURABLE =? 0)).
    { unfold deletable, view_of. cbn [v_props]. by rewrite (lookup_entry _ _ i a (flags p) w Hc Ew); [|by eapply entry_unique|]. }
    destruct (flags p .& JS_PROP_CONFIGURABLE =? 0) eqn:Hconf; cbn [negb] in Hd; [exists (Some false), s; split_and!; try done; exists o, sh; split; [exact Hat|by intros b f]|].
    destruct (prepare_update_spec n s q o sh Hinv Hn Hat) as (ok & s1 & E & Hfr & Hv & Hres). rewrite E. cbn [mbind option_bind]. destruct ok; cbn [negb].
    + destruct Hres as (o1 & sh1 & Hat1 & Hprep). rewrite (proj1 Hat1). cbn [mbind option_bind]. rewrite (proj2 Hat1). cbn [mbind option_bind].
      destruct (delete_entry n s q o sh s1 o1 sh1 a i lpr h p u) as (sh2 & sh3 & -> & F2 & Hb1 & Hfr2 & Hat2 & Hh3 & Hv3 & Hk3); try done.
      cbn [mbind option_bind]. rewrite F2. cbn [mbind option_bind]. rewrite option_guard_True by done. cbn [mbind option_bind]. set (s2 := JS_FreeAtom _ _) in *.
      case_match.
      * destruct (compact_properties_spec n s2 q _ sh3 (frame_inv _ _ _ _ Hfr2) Hn Hat2 Hh3) as (ok & s3 & -> & Hfr3 & Hv4 & o4 & sh4 & Hat4 & Hk4). cbn [fmap option_fmap option_map mbind option_bind snd].
        exists (Some true), s3. split; [done|]. split; [by eapply object_frame_trans|]. split; [done|]. split; [by rewrite Hv4, Hv3|].
        exists o4, sh4. split; [done|]. intros b f H1 H2 H3. by apply (Hk4 a), Hk3.
      * cbn [mbind option_bind]. exists (Some true), s2. split; [done|]. split; [done|]. split; [done|]. split; [by rewrite (view_at _ _ _ _ Hat2), Hv3|]. eexists _, sh3. split; [exact Hat2|done].
    + exists None, s1. split; [done|]. split; [done|]. split; [by rewrite Hv|exact Hres].
  - exists (Some true), s. split; [done|]. split; [done|]. assert (Hn' := unused_content _ _ Hr). split.
    + unfold deletable, view_of. cbn [v_props]. by rewrite lookup_no_entry.
    + split; [|exists o, sh; split; [exact Hat|by intros b f]]. rewrite Hv0. unfold remove_prop, view_of, set_props. cbn [v_props]. by rewrite filter_others.
Qed.

(** ** Lookup *)

Lemma find_property_spec n s q o sh a : inv n s -> at_object s q o sh -> 0 < a ->
  exists r, find_own_property s q a = Some r /\
    match r with
    | Some i => exists f w, entry_at sh i a f /\ prop o !! i = Some w /\ lookup_prop a (v_props (view_of o sh)) = Some (f, w)
    | None => unused a (shape_prop sh) /\ lookup_prop a (v_props (view_of o sh)) = None
    end.
Proof.
  intros Hinv Hat Ha. assert (Ha0 : a <> JS_ATOM_NULL) by (unfold JS_ATOM_NULL; lia). destruct (at_shape n s q o sh Hinv Hat) as (Hok & _).
  unfold find_own_property. rewrite (proj1 Hat). cbn [mbind option_bind]. rewrite (proj2 Hat). cbn [mbind option_bind].
  destruct (find_own_property1_spec sh a) as (r & -> & Hr); [apply Hok|apply Hok|lia|done|]. exists r. split; [done|]. destruct r as [i|]; cbn in Hr.
  - destruct Hr as (p & Ep & Hp). pose proof (content_lookup _ _ _ Ep) as Hc. rewrite Hp in Hc.
    pose proof (entry_bound n s q o sh i a (flags p) Hinv Hat Hc) as Hb. destruct (lookup_lt_is_Some_2 (prop o) i Hb) as [w Ew].
    exists (flags p), w. split_and!; try done. unfold view_of. cbn [v_props]. by apply (lookup_entry _ _ i); [| |eapply entry_unique|].
  - split; [done|]. apply lookup_no_entry. by apply unused_content.
Qed.
End update.
