(* ===== verification/ShapesObjects.v ===== *)
(** * The life of objects and their prototypes

    New objects and shapes, [free_object] and [JS_SetPrototypeInternal], whose loop ends
    because the chains of prototypes do. *)
From S2P Require Export ShapesUpdate.

Section objects.
Context {V : Type} {W : World} {Al : Malloc}.
Implicit Types s : JSRuntime (V := V).

(** ** New shapes *)

Lemma new_shape_ok proto k n : 0 <= k <= 31 -> JS_PROP_INITIAL_SIZE <= n -> shape_ok (mkShape 1 false 0 (2 ^ k - 1) (empty_table (2 ^ k)) n [] 0 proto).
Proof.
  intros Hk Hn. split; cbn; try done; try by constructor.
  - by apply empty_mask_ok.
  - apply empty_table_ok.
  - unfold prop_count, JS_PROP_INITIAL_SIZE in *. cbn. lia.
Qed.

Lemma shape_ok_hashed sh h : shape_ok sh -> deleted_prop_count sh = 0 -> shape_ok (with_hashed true (with_hash h sh)).
Proof. intros [] Hd. split; try done. Qed.

(** The running function holds the reference of the new shape [p]. *)
Definition holds_shape (n : Z) s (proto' : option ptr) (r : option ptr) s' : Prop :=
  (forall x, view s' x = view s x) /\ table_inv None n s' /\ objects s' = objects s /\
  match r with
  | None => links_ok no_ext n s'
  | Some p => links_ok (<[p := 1]> no_ext) n s' /\ exists sh, shapes s' !! p = Some sh /\ proto sh = proto' /\ shape_prop sh = []
  end.

Lemma new_shape_nohash_spec n s proto k size : inv n s -> 0 <= k <= 31 -> JS_PROP_INITIAL_SIZE <= size ->
  exists r s', js_new_shape_nohash s proto (2 ^ k) size = (r, s') /\ holds_shape n s proto r s' /\ shape_hash_count s' = shape_hash_count s /\
    match r with Some p => shapes s !! p = None /\ shapes s' = <[p := mkShape 1 false 0 (2 ^ k - 1) (empty_table (2 ^ k)) size [] 0 proto]> (shapes s) | None => True end.
Proof.
  intros [HL HB] Hk Hsize. unfold js_new_shape_nohash. destruct (js_malloc s) as [ok s1] eqn:E. destruct (malloc_core _ _ _ E) as (A1 & A2 & A3 & A4 & A5).
  apply core_malloc in E. destruct ok; cbn [negb].
  - set (p := fresh s1). set (sh := mkShape _ _ _ _ _ _ _ _ _). set (s2 := dup_proto proto s1). pose proof (core_dup_proto proto s1) as C2. fold s2 in C2.
    destruct (core_fields _ _ C2) as (B1 & B2 & B3 & B4 & B5). pose proof (fresh_shape s1) as Hf. fold p in Hf. pose proof (new_shape_ok proto k size Hk Hsize) as Hok.
    assert (HL2 : links_ok no_ext n s2) by (by apply (links_core _ n s); [congruence|]). assert (HB2 : table_inv None n s2) by (by apply (table_core _ n s); [congruence|]).
    assert (Hf2 : shapes s2 !! p = None) by congruence. assert (Hn : 0 <= n) by (destruct HB as [_ [H1 H2] _ _ _]; lia).
    exists (Some p), (write_shape p sh s2). split; [done|]. split; [split_and!|split; [cbn; congruence|split; [congruence|cbn; congruence]]].
    + intros x. unfold view. cbn. rewrite B1, B2, A1, A2. destruct (objects s !! x) as [y|] eqn:Ey; [|done]. cbn.
      destruct (lo_object _ _ _ HL x y Ey) as (z & Ez & _). by rewrite lookup_insert_ne, Ez by congruence.
    + by apply (table_new None n s2 p sh); [| |left].
    + cbn. congruence.
    + by apply links_new.
    + exists sh. cbn. by rewrite lookup_insert_eq.
  - exists None, s1. split; [done|]. split; [split_and!|done].
    + by apply view_core.
    + by apply (table_core _ n s).
    + done.
    + by apply (links_core _ n s).
Qed.

Lemma new_shape_spec n s proto : inv n s -> n + 1 < 2 ^ 26 -> exists r s', js_new_shape s proto = Some (r, s') /\ holds_shape (n + 1) s proto r s'.
Proof.
  intros [HL HB] Hn. unfold js_new_shape, js_new_shape2.
  assert (H1 : exists s1, (if len (shape_hash_table s) <? 2 * (shape_hash_count s + 1) then resize_shape_hash s (shape_hash_bits s + 1) else Some s) = Some s1 /\
    table_inv None n s1 /\ shapes s1 = shapes s /\ objects s1 = objects s /\ shape_hash_count s1 = shape_hash_count s).
  { destruct (Z.ltb_spec (len (shape_hash_table s)) (2 * (shape_hash_count s + 1))) as [Hlt|]; [|by exists s].
    destruct (resize_shape_hash_spec n s HB ltac:(lia) Hlt) as (s1 & E & HB1 & B1 & B2 & B3 & _). exists s1. split_and!; try done.
    eapply buckets_ext; [exact HB1| |done|done|done]. intros p h. by rewrite B1. }
  destruct H1 as (s1 & -> & HB1 & A1 & A2 & A3). cbn [mbind option_bind].
  assert (Hinv1 : inv (n + 1) s1) by (split; [by eapply links_mono; [|by apply (links_fields _ _ s)]; lia|by eapply table_mono; [|exact HB1]; lia]).
  change JS_PROP_INITIAL_HASH_SIZE with (2 ^ 2). change JS_PROP_INITIAL_SIZE with 2.
  destruct (new_shape_nohash_spec (n + 1) s1 proto 2 2 Hinv1 ltac:(lia) ltac:(done)) as (r & s2 & -> & (Hv2 & HB2 & Ho2 & Hr) & Hc2 & Hs2).
  assert (Hv : forall x, view s2 x = view s x) by (intros x; rewrite Hv2; unfold view; by rewrite A1, A2). destruct r as [p|].
  2: { exists None, s2. split; [done|]. split_and!; try done; congruence. }
  destruct Hr as (HL2 & sh & Ep & Hp & Hpr). destruct Hs2 as [Hf Hs2]. rewrite Ep. cbn [mbind option_bind].
  rewrite Hs2, lookup_insert_eq in Ep. apply (inj Some) in Ep. set (sh2 := with_hashed true _). set (s3 := write_shape p sh2 s2).
  assert (Ep2 : shapes s2 !! p = Some sh) by (by rewrite Hs2, lookup_insert_eq, Ep).
  assert (Hok2 : shape_ok sh2) by (apply shape_ok_hashed; [by apply (lo_shape _ _ _ HL2 p)|by rewrite <- Ep]).
  assert (Hw : word 32 (hash sh2)) by (apply shape_hash_word).
  destruct (hash_link_spec (n + 1) s3 p sh2) as (tab & E3 & HB3).
  { eapply table_unlinked; [done|exact Ep2|by rewrite <- Ep]. } { lia. } { cbn. rewrite Hc2, A3. destruct HB as [_ [_ H] _ _ _]. lia. }
  { cbn. by rewrite lookup_insert_eq. } { done. } { done. }
  rewrite E3. cbn [mbind option_bind]. set (s4 := set_buckets _ _ _ _) in *.
  assert (Es4 : shapes s4 = <[p := sh2]> (shapes s2)) by done. eexists _, s4. split; [done|]. split_and!.
  - intros x. rewrite <- Hv. unfold view. rewrite Es4. change (objects s4) with (objects s2). destruct (objects s2 !! x) as [y|] eqn:Ey; [|done]. cbn.
    rewrite Ho2, A2 in Ey. destruct (lo_object _ _ _ HL x y Ey) as (z & Ez & _). rewrite lookup_insert_ne by congruence. done.
  - exact HB3.
  - change (objects s4) with (objects s2). congruence.
  - apply (links_fields _ _ s3); [done|done|]. apply (links_hashed _ _ s2 p sh); try done; unfold sh2; by rewrite <- Ep.
  - exists sh2. rewrite Es4, lookup_insert_eq. done.
Qed.

(** ** New objects *)

Lemma hold_free n s s0 p sh : inv n s -> n < 2 ^ 26 -> (forall x, view s0 x = view s x) -> table_inv None n s0 -> links_ok (<[p := 1]> no_ext) n s0 ->
  shapes s0 !! p = Some sh -> exists s', js_free_shape s0 p = Some s' /\ inv n s' /\ forall x, view s' x = view s x.
Proof.
  intros _ Hn Hv HB HL E. destruct (free_shape_spec _ n s0 p sh HL HB Hn E) as (s' & Es & HL' & HB' & _ & _ & Hv' & _); [by rewrite fn_lookup_insert|].
  exists s'. split; [done|]. split; [|intros x; by rewrite Hv'].
  split; [|done]. eapply links_ext; [|exact HL']. intros x. unfold no_ext. destruct (decide (x = p)) as [->|Hx].
  - rewrite !fn_lookup_insert. done.
  - by rewrite !fn_lookup_insert_ne by congruence.
Qed.

(** The outcome of the functions that make an object. *)
Definition made (n : Z) s (proto : option ptr) (r : option ptr) s' : Prop :=
  inv n s' /\ match r with
  | None => forall x, view s' x = view s x
  | Some q => view s q = None /\ view s' q = Some (mkView proto [] true false) /\ forall x, x <> q -> view s' x = view s x
  end.

Lemma from_shape_spec n s s0 proto p : inv n s -> n < 2 ^ 26 -> holds_shape n s proto (Some p) s0 ->
  exists r s', JS_NewObjectFromShape s0 p = Some (r, s') /\ made n s proto r s'.
Proof.
  intros Hinv Hn (Hv & HB & Ho & HL & sh & Ep & Hp & Hpr). unfold JS_NewObjectFromShape. rewrite Ep. cbn [mbind option_bind].
  assert (Hfree : forall s1, core s1 = core s0 -> exists r s', (s ← js_free_shape s1 p; Some (None, s)) = Some (r, s') /\ made n s proto r s').
  { intros s1 Hc. destruct (core_fields _ _ Hc) as (C1 & _). destruct (hold_free n s s1 p sh Hinv Hn) as (s' & -> & Hi & Hv'); try done.
    - intros x. rewrite <- Hv. by apply view_core.
    - by apply (table_core _ n s0).
    - by apply (links_core _ n s0).
    - by rewrite C1.
    - exists None, s'. by split. }
  destruct (js_malloc s0) as [ok1 s1] eqn:E1. apply core_malloc in E1. destruct ok1; cbn [negb]; [|by apply Hfree].
  destruct (js_malloc s1) as [ok2 s2] eqn:E2. apply core_malloc in E2. destruct ok2; cbn [negb]; [|apply Hfree; congruence].
  assert (Hc : core s2 = core s0) by congruence. destruct (core_fields _ _ Hc) as (C1 & C2 & _). set (q := fresh s2). set (o := mkObject p _ true false).
  pose proof (fresh_object s2) as Hf. fold q in Hf. destruct (lo_shape _ _ _ HL p sh Ep) as (Hok & Hw & Hpc). pose proof (so_min _ Hok) as Hmin. unfold JS_PROP_INITIAL_SIZE in Hmin.
  assert (Hat : at_object (write_object q o s2) q o sh) by (split; cbn; [by rewrite lookup_insert_eq|by rewrite C1]).
  assert (Hq : objects s !! q = None) by congruence.
  exists (Some q), (write_object q o s2). split; [done|]. split; [split|split_and!].
  - split.
    + cbn. rewrite C1. apply (lo_shape _ _ _ HL).
    + cbn. rewrite C1, C2. intros x y [[<- <-]|[_ Ey]]%lookup_insert_Some; [|by apply (lo_object _ _ _ HL x)].
      exists sh. split; [done|]. cbn. rewrite length_replicate. lia.
    + cbn. rewrite C1, C2. intros x y Ey. rewrite refs_insert by congruence. destruct (lo_ref _ _ _ HL x y Ey) as (H1 & H2). split; [|done]. rewrite H1.
      unfold no_ext. cbn [shape o]. case_decide as Hx; [subst x; rewrite fn_lookup_insert; lia|rewrite fn_lookup_insert_ne by done; lia].
    + done.
  - apply table_object. by apply (table_core _ n s0).
  - unfold view. by rewrite Hq.
  - rewrite (view_at _ _ _ _ Hat). unfold view_of. by rewrite Hpr, Hp.
  - intros x Hx. rewrite <- Hv. unfold view. cbn. by rewrite lookup_insert_ne, C1, C2 by congruence.
Qed.

Lemma new_object_spec n s proto : inv n s -> n + 1 < 2 ^ 26 -> exists r s', JS_NewObjectProtoClass s proto = Some (r, s') /\ made (n + 1) s proto r s'.
Proof.
  intros Hinv Hn. pose proof Hinv as [HL HB]. unfold JS_NewObjectProtoClass, find_hashed_shape_proto.
  set (f := fun sh1 => Some ((hash sh1 =? shape_initial_hash proto) && bool_decide (Shapes.proto sh1 = proto) && (prop_count sh1 =? 0))).
  assert (Hinv1 : inv (n + 1) s) by (split; [by eapply links_mono; [|exact HL]; lia|by eapply table_mono; [|exact HB]; lia]).
  destruct (hashed_shape n s (shape_initial_hash proto) f HB) as (l & r & -> & Er & Hr); [lia|apply shape_hash_word|by eexists|]. cbn [mbind option_bind]. rewrite Er. cbn [mbind option_bind].
  destruct r as [p|].
  - destruct Hr as (sh & Ep & Hh & Hf). unfold f in Hf. apply (inj Some) in Hf. apply andb_prop in Hf as [[_ Hp%bool_decide_eq_true]%andb_prop Hc%Z.eqb_eq].
    destruct (dup_shape_spec no_ext (n + 1) s p sh) as (s1 & -> & Hs1 & HL1 & HB1 & Hv1); [apply Hinv1|apply Hinv1|done|done|]. cbn [mbind option_bind].
    apply from_shape_spec; [done|lia|]. split_and!; try done; [by rewrite Hs1|]. exists (with_ref_count (sh_ref_count sh + 1) sh). rewrite Hs1. cbn. rewrite lookup_insert_eq.
    split_and!; try done. unfold prop_count in Hc. destruct (shape_prop sh); [done|cbn in Hc; lia].
  - destruct (new_shape_spec n s proto Hinv Hn) as (r & s1 & -> & Hh). cbn [mbind option_bind]. destruct r as [p|]; [apply from_shape_spec; [done|lia|done]|].
    destruct Hh as (Hv & HB1 & _ & HL1). exists None, s1. by split_and!.
Qed.

Lemma new_object_alloc_spec n s proto k : inv n s -> n < 2 ^ 26 -> k <= 2 ^ 30 ->
  exists r s', JS_NewObjectProtoClassAlloc s proto k = Some (r, s') /\ made n s proto r s'.
Proof.
  intros Hinv Hn Hk. unfold JS_NewObjectProtoClassAlloc.
  assert (H : exists j size, 0 <= j <= 31 /\ JS_PROP_INITIAL_SIZE <= size /\ (if k <=? JS_PROP_INITIAL_SIZE then (JS_PROP_INITIAL_SIZE, JS_PROP_INITIAL_HASH_SIZE)
    else (k, 1 << (32 - clz 32 (k - 1)))) = (size, 2 ^ j)).
  { destruct (Z.leb_spec k JS_PROP_INITIAL_SIZE) as [|Hlt]; [exists 2, 2; by split_and!|]. unfold JS_PROP_INITIAL_SIZE in *. rewrite clz_log2 by lia.
    exists (Z.log2 (k - 1) + 1), k. assert (Hlog : Z.log2 (k - 1) < 30) by (apply Z.log2_lt_pow2; lia). pose proof (Z.log2_nonneg (k - 1)).
    split_and!; try lia. rewrite Z.shiftl_mul_pow2 by lia. do 2 f_equal. rewrite Z.mul_1_l. f_equal. lia. }
  destruct H as (j & size & Hj & Hs & ->). destruct (new_shape_nohash_spec n s proto j size Hinv Hj Hs) as (r & s1 & -> & Hh & _). destruct r as [p|]; [by apply from_shape_spec|].
  destruct Hh as (Hv & HB1 & _ & HL1). exists None, s1. by split_and!.
Qed.

(** The object is freed. *)
Lemma free_object_spec n s q o sh : inv n s -> n < 2 ^ 26 -> at_object s q o sh ->
  exists s', free_object s q = Some s' /\ frame n s q s' /\ view s' q = None.
Proof.
  intros [HL HB] Hn [Eo Es]. set (f := fun s => set_objects (delete q (objects s)) s).
  assert (HL1 : links_ok (<[shape o := 1]> no_ext) n (f s)).
  { split.
    - apply (lo_shape _ _ _ HL).
    - cbn. intros x y [_ Ey]%lookup_delete_Some. by apply (lo_object _ _ _ HL x).
    - cbn. intros p z Ez. rewrite (refs_delete p _ q o Eo). destruct (lo_ref _ _ _ HL p z Ez) as (H1 & H2). split; [|done]. unfold no_ext in *.
      case_decide as Hp; [subst p; rewrite fn_lookup_insert; lia|rewrite fn_lookup_insert_ne by done; lia].
    - intros x. destruct (decide (x = shape o)) as [->|]; [by rewrite fn_lookup_insert|by rewrite fn_lookup_insert_ne by congruence]. }
  destruct (free_shape_spec _ n (f s) (shape o) sh HL1) as (s2 & E & HL2 & HB2 & Ho2 & _ & Hv2 & _); [by eapply buckets_ext; [exact HB|..]|done|done|by rewrite fn_lookup_insert|].
  unfold free_object. rewrite Eo. cbn [mbind option_bind]. unfold f in E. rewrite (free_shape_objects (delete q (objects s))) in E.
  destruct (js_free_shape s (shape o)) as [s1|] eqn:E1; [|done]. cbn [fmap option_fmap option_map mbind option_bind] in *. apply (inj Some) in E. subst s2.
  rewrite (free_shape_keeps s (shape o) s1 E1). eexists. split; [done|]. split; [split_and!|].
  - eapply links_ext; [|exact HL2]. intros x. unfold no_ext. destruct (decide (x = shape o)) as [->|Hx]; [by rewrite !fn_lookup_insert|by rewrite !fn_lookup_insert_ne by congruence].
  - exact HB2.
  - intros x Hx. rewrite Hv2. unfold view, f. cbn. by rewrite lookup_delete_ne by congruence.
  - unfold view. cbn. by rewrite lookup_delete_eq.
Qed.
End objects.

(** ** Chains of prototypes *)

(** The prototypes of [q] are [l], in their order. *)
Fixpoint chain (pr : ptr -> option (option ptr)) (q : ptr) (l : list ptr) : Prop :=
  match l with
  | [] => pr q = Some None
  | p :: l => pr q = Some (Some p) /\ chain pr p l
  end.
Definition grounded (pr : ptr -> option (option ptr)) : Prop := forall q, is_Some (pr q) -> exists l, chain pr q l.

Section chains.
Implicit Types pr : ptr -> option (option ptr).

Lemma chain_det pr q l l' : chain pr q l -> chain pr q l' -> l = l'.
Proof.
  revert q l'. induction l as [|p l IH]; intros q [|p' l']; cbn; try done; [intros -> [? _]; done|intros [-> _] ?; done|].
  intros [E H] [E' H']. rewrite E in E'. injection E' as <-. f_equal. by eapply IH.
Qed.

Lemma chain_suffix pr q l p : chain pr q l -> p ∈ l -> exists l1 l2, l = l1 ++ p :: l2 /\ chain pr p l2.
Proof.
  revert q. induction l as [|x l IH]; intros q; [by intros _ ?%not_elem_of_nil|]. intros [_ H] [->|Hp]%elem_of_cons; [by exists [], l|].
  destruct (IH x H Hp) as (l1 & l2 & -> & H'). by exists (x :: l1), l2.
Qed.

Lemma chain_nodup pr q l : chain pr q l -> NoDup (q :: l).
Proof.
  revert q. induction l as [|p l IH]; intros q Hc; [apply NoDup_singleton|]. pose proof Hc as [E H]. apply NoDup_cons. split; [|by apply IH].
  intros Hq. destruct (chain_suffix pr q _ q Hc Hq) as (l1 & l2 & El & H2). pose proof (chain_det _ _ _ _ Hc H2) as Ed. rewrite Ed in El.
  apply (f_equal length) in El. rewrite length_app in El. cbn in El. lia.
Qed.

Lemma chain_dom pr q l p : chain pr q l -> p ∈ q :: l -> is_Some (pr p).
Proof.
  revert q. induction l as [|x l IH]; intros q Hc Hp.
  - apply list_elem_of_singleton in Hp as ->. by eexists.
  - destruct Hc as [E H]. apply elem_of_cons in Hp as [->|Hp]; [by eexists|]. by apply (IH x).
Qed.

(** A chain without [q] does not depend on it. *)
Lemma proto_chain_insert pr q v x l : chain pr x l -> q ∉ x :: l -> chain (<[q := v]> pr) x l.
Proof.
  revert x. induction l as [|p l IH]; intros x Hc [Hx Hl]%not_elem_of_cons; cbn in *; rewrite fn_lookup_insert_ne by done; [done|].
  destruct Hc as [E H]. split; [done|]. apply IH; [done|]. done.
Qed.

Lemma grounded_update pr q v : grounded pr -> (forall p, v = Some p -> exists l, chain pr p l /\ q ∉ p :: l) -> grounded (<[q := Some v]> pr).
Proof.
  intros Hg Hv. assert (Hq : exists l, chain (<[q := Some v]> pr) q l).
  { destruct v as [p|].
    - destruct (Hv p eq_refl) as (l & Hc & Hq). exists (p :: l). cbn. rewrite fn_lookup_insert. split; [done|]. by apply proto_chain_insert.
    - exists []. cbn. by rewrite fn_lookup_insert. }
  assert (H : forall l x, chain pr x l -> exists l', chain (<[q := Some v]> pr) x l').
  { induction l as [|p l IH]; intros x Hc; (destruct (decide (x = q)) as [->|Hx]; [done|]).
    - exists []. cbn. by rewrite fn_lookup_insert_ne by done.
    - destruct Hc as [E Hc]. destruct (IH p Hc) as [l' Hl']. exists (p :: l'). cbn. by rewrite fn_lookup_insert_ne by done. }
  intros x Hx. destruct (decide (x = q)) as [->|Hne]; [done|]. rewrite fn_lookup_insert_ne in Hx by done. destruct (Hg x Hx) as [l Hl]. by apply (H l).
Qed.

Lemma grounded_delete pr q : grounded pr -> (forall x, pr x <> Some (Some q)) -> grounded (<[q := None]> pr).
Proof.
  intros Hg Hn x Hx. destruct (decide (x = q)) as [->|Hne]; [rewrite fn_lookup_insert in Hx; by destruct Hx|].
  rewrite fn_lookup_insert_ne in Hx by done. destruct (Hg x Hx) as [l Hl]. exists l. apply proto_chain_insert; [done|]. apply not_elem_of_cons. split; [done|].
  clear Hx. revert x Hl Hne. induction l as [|p l IH]; intros x Hl Hne; [by intros ?%not_elem_of_nil|]. destruct Hl as [E Hl]. intros [<-|Hq]%elem_of_cons; [by apply (Hn x)|].
  apply (IH p Hl); [|done]. intros ->. by apply (Hn x).
Qed.

Lemma proto_chain_ext pr pr' q l : (forall x, pr' x = pr x) -> chain pr q l -> chain pr' q l.
Proof. intros He. revert q. induction l as [|p l IH]; intros q; cbn; rewrite He; [done|]. intros [E H]. split; [done|]. by apply IH. Qed.
Lemma grounded_ext pr pr' : (forall x, pr' x = pr x) -> grounded pr -> grounded pr'.
Proof. intros He Hg q Hq. rewrite He in Hq. destruct (Hg q Hq) as [l Hl]. exists l. by eapply proto_chain_ext. Qed.
End chains.

(** ** [JS_SetPrototypeInternal] *)

Section prototypes.
Context {V : Type} {W : World} {Al : Malloc}.
Implicit Types s : JSRuntime (V := V).

Definition proto_of s (q : ptr) : option (option ptr) := v_proto <$> view s q.

Lemma proto_at s q o sh : at_object s q o sh -> proto_of s q = Some (proto sh).
Proof. intros H. unfold proto_of. by rewrite (view_at _ _ _ _ H). Qed.
Lemma view_some s q v : view s q = Some v -> exists o sh, at_object s q o sh /\ v = view_of o sh.
Proof.
  unfold view, at_object. destruct (objects s !! q) as [o|] eqn:Eo; [|done]. cbn. destruct (shapes s !! shape o) as [sh|] eqn:Es; [|done]. cbn.
  intros [= <-]. exists o, sh. by split_and!.
Qed.
Lemma proto_some s q v : proto_of s q = Some v -> exists o sh, at_object s q o sh /\ proto sh = v.
Proof.
  unfold proto_of. destruct (view s q) as [w|] eqn:E; [|done]. destruct (view_some s q w E) as (o & sh & H & ->). cbn. intros [= <-]. by exists o, sh.
Qed.

Lemma proto_loop_spec s q fuel : forall p l, chain (proto_of s) p l -> (length l < fuel)%nat ->
  exists b, proto_loop fuel s q p = Some b /\ (b = true <-> q ∈ p :: l).
Proof.
  induction fuel as [|fuel IH]; intros p l Hc Hl; [lia|]. cbn [proto_loop]. destruct (decide (p = q)) as [->|Hp]; [exists true; split; [done|]; split; [by left|done]|].
  assert (E0 : exists v, proto_of s p = Some v) by (destruct l as [|x l]; [by eexists|destruct Hc; by eexists]). destruct E0 as [v E0].
  destruct (proto_some s p v E0) as (o & sh & [Eo Es] & Hv). rewrite Eo. cbn [mbind option_bind]. rewrite Es. cbn [mbind option_bind]. rewrite Hv.
  destruct l as [|x l]; cbn in Hc.
  - rewrite E0 in Hc. injection Hc as ->. exists false. split; [done|]. split; [done|]. by intros ->%list_elem_of_singleton.
  - destruct Hc as [E Hc]. rewrite E0 in E. injection E as ->. destruct (IH x l Hc) as (b & -> & Hb); [cbn in Hl; lia|].
    exists b. split; [done|]. rewrite Hb. rewrite (elem_of_cons (x :: l) q p). split; [by right|]. intros [->|]; done.
Qed.

Lemma chain_size s p l : chain (proto_of s) p l -> (length l < size (objects s))%nat.
Proof.
  intros Hc. pose proof (chain_nodup _ _ _ Hc) as Hnd. rewrite <- size_dom.
  assert (Hsub : list_to_set (p :: l) ⊆ dom (objects s)).
  { intros x Hx%elem_of_list_to_set. destruct (chain_dom _ _ _ x Hc Hx) as [v Hv]. destruct (proto_some s x v Hv) as (o & sh & [Eo _] & _).
    apply elem_of_dom. by exists o. }
  apply subseteq_size in Hsub. rewrite size_list_to_set in Hsub by done. cbn in Hsub. lia.
Qed.

(** The outcomes: [Some true] when the prototype is [p]. *)
Definition proto_allowed (v : ObjectView (V := V)) : bool := v_extensible v && negb (v_immutable_prototype v).
Definition set_view_proto (p : option ptr) (v : ObjectView (V := V)) : ObjectView := mkView p (v_props v) (v_extensible v) (v_immutable_prototype v).

Lemma set_prototype_spec n s q o sh p : inv n s -> n < 2 ^ 26 -> at_object s q o sh -> grounded (proto_of s) -> (forall p', p = Some p' -> is_Some (view s p')) ->
  exists r s', JS_SetPrototypeInternal s q p = Some (r, s') /\ frame n s q s' /\ grounded (proto_of s') /\
    match r with
    | Some true => view s' q = Some (set_view_proto p (view_of o sh))
    | Some false => view s' q = Some (view_of o sh) /\ proto sh <> p /\
        (proto_allowed (view_of o sh) = false \/ exists p' l, p = Some p' /\ chain (proto_of s) p' l /\ q ∈ p' :: l)
    | None => view s' q = Some (view_of o sh)
    end.
Proof.
  intros Hinv Hn Hat Hg Hp. pose proof (view_at _ _ _ _ Hat) as Hv0. assert (Hrefl : frame n s q s) by (by split_and!; [apply Hinv..|]).
  unfold JS_SetPrototypeInternal. rewrite (proj1 Hat). cbn [mbind option_bind]. rewrite (proj2 Hat). cbn [mbind option_bind].
  destruct (decide (proto sh = p)) as [Heq|Hne].
  { exists (Some true), s. split_and!; try done. rewrite Hv0, <- Heq. done. }
  destruct (has_immutable_prototype o || negb (extensible o)) eqn:Hext.
  { exists (Some false), s. split_and!; try done. left. unfold proto_allowed. cbn. destruct (has_immutable_prototype o), (extensible o); done. }
  assert (Hloop : exists b, match p with None => Some false | Some p1 => proto_loop (size (objects s)) s q p1 end = Some b /\
    if b then exists p' l, p = Some p' /\ chain (proto_of s) p' l /\ q ∈ p' :: l else forall p', p = Some p' -> exists l, chain (proto_of s) p' l /\ q ∉ p' :: l).
  { destruct p as [p'|]; [|by exists false]. destruct (Hp p' eq_refl) as [v Hv]. destruct (Hg p') as [l Hc]; [unfold proto_of; rewrite Hv; by eexists|].
    destruct (proto_loop_spec s q (size (objects s)) p' l Hc (chain_size _ _ _ Hc)) as (b & E & Hb). exists b. split; [done|]. destruct b.
    - exists p', l. split_and!; try done. by apply Hb.
    - intros x [= <-]. exists l. split; [done|]. intros Hq. by apply Hb in Hq. }
  destruct Hloop as (b & -> & Hb). cbn [mbind option_bind]. destruct b.
  { exists (Some false), s. split_and!; try done. by right. }
  set (s0 := dup_proto p s). assert (Hc0 : core s0 = core s) by apply core_dup_proto. destruct (core_fields _ _ Hc0) as (C1 & C2 & _).
  assert (Hinv0 : inv n s0) by (split; [by apply (links_core _ n s); [|apply Hinv]|by apply (table_core _ n s); [|apply Hinv]]).
  assert (Hat0 : at_object s0 q o sh) by (unfold at_object; rewrite C1, C2; exact Hat).
  assert (Hsame : forall s', (forall x, view s' x = view s x) -> grounded (proto_of s')).
  { intros s' Hv. eapply grounded_ext; [|exact Hg]. intros x. unfold proto_of. by rewrite Hv. }
  destruct (prepare_update_spec n s0 q o sh Hinv0 Hn Hat0) as (ok & s1 & E & Hfr & Hv & Hres). rewrite E. cbn [mbind option_bind].
  assert (Hfr1 : frame n s q s1) by (destruct Hfr as (H1 & H2 & H3); split_and!; try done; intros x Hx; by rewrite (H3 x Hx), (view_core _ _ Hc0)).
  assert (Hv1 : view s1 q = Some (view_of o sh)) by (by rewrite Hv, (view_core _ _ Hc0)). destruct ok; cbn [negb].
  - destruct Hres as (o1 & sh1 & Hat1 & Hprep). rewrite (proj1 Hat1). cbn [mbind option_bind]. rewrite (proj2 Hat1). cbn [mbind option_bind].
    destruct (prepared_shape n s q o sh s1 o1 sh1 Hinv Hat Hfr1 Hat1 Hprep) as (Hok1 & Hw1 & Hpc1 & Hps1 & Hr1 & Hop1).
    set (s2 := free_proto (proto sh1) s1). assert (Hc2 : core s2 = core s1) by apply core_free_proto. destruct (core_fields _ _ Hc2) as (D1 & D2 & D3 & D4 & D5).
    set (sh' := with_proto p sh1). pose proof Hprep as ((F1 & _) & Fh & _ & p1 & Fo).
    destruct (prepared_in_place n s q o sh s1 o1 sh1 (write_shape (shape o1) sh' s2) o1 sh' Hinv Hat Hfr1 Hat1 Hprep) as [Hfr' Hv']; try done.
    + eapply updated_core; [by eapply (updated_write s1)|cbn; by rewrite D1|done].
    + cbn. congruence.
    + destruct Hok1. by split.
    + assert (Hres' : view (write_shape (shape o1) sh' s2) q = Some (set_view_proto p (view_of o sh))).
      { rewrite Hv'. unfold view_of, set_view_proto. cbn. by rewrite F1, Fo. }
      eexists (Some true), _. split; [done|]. split; [done|]. split; [|done].
      apply (grounded_ext (<[q := Some p]> (proto_of s))); [|by apply grounded_update].
      intros x. destruct (decide (x = q)) as [->|Hx]; [rewrite fn_lookup_insert; unfold proto_of; by rewrite Hres'|].
      rewrite fn_lookup_insert_ne by done. unfold proto_of. destruct Hfr' as (_ & _ & H). by rewrite (H x Hx).
  - exists None, s1. split_and!; try done; [apply Hfr1..|]. apply Hsame. intros x. rewrite <- (view_core _ _ Hc0).
    destruct (decide (x = q)) as [->|Hx]; [done|]. by apply Hfr.
Qed.
End prototypes.
