(* ===== verification/ShapesSpec.v ===== *)
(** * Objects with properties of their own

    The specification of the property tables: every object has a prototype and a list of
    properties, and an operation changes the ones of its object only.  The operations of
    [Shapes], where objects share shapes that are copied, resized, compacted and hashed,
    refine it. *)
From S2P Require Export Client ShapesObjects.

Section spec.
Context {V : Type}.
Abbreviation ObjectView := (ObjectView (V := V)).

(** The calls of a client. *)
Inductive request : Type :=
| New (proto : option ptr)
| NewAlloc (proto : option ptr) (n_alloc_props : Z)
| Get (q : ptr) (a : Z)
| Add (q : ptr) (a f : Z) (v : V)
| Set_ (q : ptr) (a : Z) (v : V)
| Flags (q : ptr) (a f : Z)
| Delete (q : ptr) (a : Z)
| SetProto (q : ptr) (p : option ptr)
| Free (q : ptr).

(** [Failed]: the memory is exhausted. *)
Inductive reply : Type :=
| Done (b : bool)
| Created (q : ptr)
| Found (r : option (Z * option V))
| Failed.

(** ** The specification *)

Definition objects_view : Type := ptr -> option ObjectView.
Definition writes (m : objects_view) (q : ptr) (v : option ObjectView) (m' : objects_view) : Prop :=
  m' q = v /\ forall x, x <> q -> m' x = m x.
Definition protos (m : objects_view) (q : ptr) : option (option ptr) := v_proto <$> m q.

(** What the callers ensure: the objects exist, and an object that is freed is not the
    prototype of another one. *)
Definition allowed (m : objects_view) (c : request) : Prop :=
  match c with
  | New p => forall p', p = Some p' -> is_Some (m p')
  | NewAlloc p k => k <= 2 ^ 30 /\ forall p', p = Some p' -> is_Some (m p')
  | Get q a | Set_ q a _ | Delete q a => is_Some (m q) /\ 0 < a
  | Add q a f _ | Flags q a f => is_Some (m q) /\ 0 < a /\ 0 <= f < 64
  | SetProto q p => is_Some (m q) /\ forall p', p = Some p' -> is_Some (m p')
  | Free q => is_Some (m q) /\ forall x, protos m x <> Some (Some q)
  end.

Definition has_prop (a : Z) (w : ObjectView) : bool := bool_decide (is_Some (lookup_prop a (v_props w))).

(** The reply and the objects after a call. *)
Definition answers (m : objects_view) (c : request) (r : reply) (m' : objects_view) : Prop :=
  match r with
  | Failed => forall x, m' x = m x
  | Created q => exists p, (c = New p \/ exists k, c = NewAlloc p k) /\ m q = None /\ writes m q (Some (mkView p [] true false)) m'
  | Found e => exists q a w, c = Get q a /\ m q = Some w /\ e = lookup_prop a (v_props w) /\ forall x, m' x = m x
  | Done b =>
      match c with
      | Add q a f v => exists w, m q = Some w /\ b = negb (has_prop a w) /\
          writes m q (Some (if b then set_props (v_props w ++ [(a, f, Some v)]) w else w)) m'
      | Set_ q a v => exists w, m q = Some w /\ b = has_prop a w /\
          writes m q (Some (set_props (update_entry a (fun x => (fst x, Some v)) <$> v_props w) w)) m'
      | Flags q a f => exists w, m q = Some w /\ b = has_prop a w /\
          writes m q (Some (set_props (update_entry a (fun x => (f, snd x)) <$> v_props w) w)) m'
      | Delete q a => exists w, m q = Some w /\ b = deletable a w /\ writes m q (Some (if b then remove_prop a w else w)) m'
      | SetProto q p => exists w, m q = Some w /\ writes m q (Some (if b then set_view_proto p w else w)) m' /\
          (b = false -> v_proto w <> p /\ (proto_allowed w = false \/ exists p' l, p = Some p' /\ chain (protos m) p' l /\ q ∈ p' :: l))
      | Free q => b = true /\ writes m q None m'
      | New _ | NewAlloc _ _ | Get _ _ => False
      end
  end.
End spec.
Arguments request : clear implicits.
Arguments reply : clear implicits.

(** ** The program *)

Section run.
Context {V : Type} {W : World} {Al : Malloc}.
Implicit Types s : JSRuntime (V := V).

(** The calls, as [JS_DefineProperty], [JS_CreateProperty], [JS_SetPropertyInternal] and
    [JS_GetOwnPropertyInternal] make them for ordinary objects. *)
Definition perform (undefined : V) s (c : request V) : option (reply V * JSRuntime (V := V)) :=
  match c with
  | New p => '(r, s) ← JS_NewObjectProtoClass s p; Some (match r with Some q => Created q | None => Failed end, s)
  | NewAlloc p k => '(r, s) ← JS_NewObjectProtoClassAlloc s p k; Some (match r with Some q => Created q | None => Failed end, s)
  | Get q a =>
      o ← objects s !! q;
      sh ← shapes s !! shape o;
      i ← find_own_property s q a;
      match i with
      | None => Some (Found None, s)
      | Some i => p ← shape_prop sh !! i; v ← prop o !! i; Some (Found (Some (flags p, v)), s)
      end
  | Add q a f v =>
      i ← find_own_property s q a;
      match i with
      | Some _ => Some (Done false, s)
      | None =>
          '(r, s) ← add_property s q a f;
          match r with None => Some (Failed, s) | Some i => s ← store_value s q i v; Some (Done true, s) end
      end
  | Set_ q a v =>
      i ← find_own_property s q a;
      match i with None => Some (Done false, s) | Some i => s ← store_value s q i v; Some (Done true, s) end
  | Flags q a f =>
      i ← find_own_property s q a;
      match i with
      | None => Some (Done false, s)
      | Some i => '(ok, s) ← js_update_property_flags s q i f; Some (if (ok : bool) then Done true else Failed, s)
      end
  | Delete q a => '(r, s) ← delete_property undefined s q a; Some (match r with Some b => Done b | None => Failed end, s)
  | SetProto q p => '(r, s) ← JS_SetPrototypeInternal s q p; Some (match r with Some b => Done b | None => Failed end, s)
  | Free q => s ← free_object s q; Some (Done true, s)
  end.

(** A call does what the specification says. *)
Definition performs (n : Z) s (m : objects_view) (c : request V) (u : V) : Prop :=
  exists r s', perform u s c = Some (r, s') /\ inv (n + 2) s' /\ answers m c r (view s') /\ grounded (protos (view s')).

Section calls.
Context (u : V) (n : Z) (s : JSRuntime (V := V)) (m : objects_view (V := V)).
Context (Hinv : inv n s) (Hm : forall x, m x = view s x) (Hg : grounded (protos m)) (Hn : n + 2 < 2 ^ 26).

Lemma step_inv n' s' : n' <= n + 2 -> inv n' s' -> inv (n + 2) s'.
Proof. intros Hn' [HL HB]. split; [by eapply links_mono|by eapply table_mono]. Qed.

Lemma object_of q : is_Some (m q) -> exists o sh, at_object s q o sh /\ m q = Some (view_of o sh).
Proof. intros [w Hw]. rewrite Hm in Hw. destruct (view_some s q w Hw) as (o & sh & Hat & ->). exists o, sh. by rewrite Hm. Qed.

Lemma frame_writes n' q s' v : frame n' s q s' -> view s' q = v -> writes m q v (view s').
Proof. intros (_ & _ & H) Hv. split; [done|]. intros x Hx. by rewrite (H x Hx), Hm. Qed.

Lemma writes_grounded q w w' m' : m q = Some w -> v_proto w' = v_proto w -> writes m q (Some w') m' -> grounded (protos m').
Proof.
  intros Hq Hp [H1 H2]. apply (grounded_ext (protos m)); [|done]. intros x. unfold protos. destruct (decide (x = q)) as [->|Hx]; [by rewrite H1, Hq; cbn; rewrite Hp|].
  by rewrite (H2 x Hx).
Qed.
Lemma same_grounded m' : (forall x, m' x = m x) -> grounded (protos m').
Proof. intros H. apply (grounded_ext (protos m)); [|done]. intros x. unfold protos. by rewrite H. Qed.

(** A call that writes the object [q], or fails. *)
Lemma performs_write c r s' n' q w w' : n' <= n + 2 -> perform u s c = Some (r, s') -> frame n' s q s' -> m q = Some w -> v_proto w' = v_proto w ->
  view s' q = Some w' -> answers m c r (view s') -> performs n s m c u.
Proof.
  intros Hn' E Hfr Hq Hp Hv Ha. exists r, s'. split_and!; try done; [eapply step_inv; [done|by eapply frame_inv]|].
  eapply (writes_grounded q w w'); try done. by eapply frame_writes.
Qed.
Lemma same_view n' q s' : frame n' s q s' -> view s' q = m q -> forall x, view s' x = m x.
Proof. intros (_ & _ & H) Hq x. destruct (decide (x = q)) as [->|Hx]; [done|]. by rewrite (H x Hx), Hm. Qed.
Lemma performs_failed c s' n' : n' <= n + 2 -> perform u s c = Some (Failed, s') -> inv n' s' -> (forall x, view s' x = m x) -> performs n s m c u.
Proof. intros Hn' E Hi Hv. exists Failed, s'. split_and!; try done; [by eapply step_inv|by apply same_grounded]. Qed.

Lemma made_performs n' c p r s' : n' <= n + 2 -> perform u s c = Some (match r with Some q => Created q | None => Failed end, s') -> made n' s p r s' ->
  (c = New p \/ exists k, c = NewAlloc p k) -> (forall p', p = Some p' -> is_Some (m p')) -> performs n s m c u.
Proof.
  intros Hn' E [Hi Hr] Hc Hp. destruct r as [q|]; [|eapply performs_failed; try done; intros x; by rewrite Hr, Hm].
  destruct Hr as (Hnone & Hq & Hx). assert (Hw : writes m q (Some (mkView p [] true false)) (view s')) by (split; [done|]; intros x H; by rewrite (Hx x H), Hm).
  assert (Hmq : m q = None) by (by rewrite Hm). eexists _, s'. split; [exact E|]. split; [by eapply step_inv|]. split; [by exists p|].
  apply (grounded_ext (<[q := Some p]> (protos m))).
  - intros x. unfold protos. destruct (decide (x = q)) as [->|Hne]; [by rewrite fn_lookup_insert, Hq|]. by rewrite fn_lookup_insert_ne, (Hx x Hne), Hm by done.
  - apply grounded_update; [done|]. intros p' ->. destruct (Hp p' eq_refl) as [w Hw']. destruct (Hg p') as [l Hl]; [unfold protos; rewrite Hw'; by eexists|].
    exists l. split; [done|]. intros Hq'. destruct (chain_dom _ _ _ q Hl Hq') as [v Hv]. unfold protos in Hv. by rewrite Hmq in Hv.
Qed.

Lemma perform_new p : allowed m (New p) -> performs n s m (New p) u.
Proof.
  intros Hp. destruct (new_object_spec n s p Hinv ltac:(lia)) as (r & s' & E & Hmade). eapply (made_performs (n + 1)); [lia| |exact Hmade|by left|done].
  cbn [perform]. by rewrite E.
Qed.
Lemma perform_new_alloc p k : allowed m (NewAlloc p k) -> performs n s m (NewAlloc p k) u.
Proof.
  intros [Hk Hp]. destruct (new_object_alloc_spec n s p k Hinv ltac:(lia) Hk) as (r & s' & E & Hmade). eapply (made_performs n); [lia| |exact Hmade|right; by exists k|done].
  cbn [perform]. by rewrite E.
Qed.

Lemma perform_get q a : allowed m (Get q a) -> performs n s m (Get q a) u.
Proof.
  intros [Hq Ha]. destruct (object_of q Hq) as (o & sh & Hat & Hmq). destruct (find_property_spec n s q o sh a Hinv Hat Ha) as (r & E & Hr).
  exists (Found (lookup_prop a (v_props (view_of o sh)))), s. split; [|split; [by apply (step_inv n); [lia|]|split; [|apply same_grounded; intros x; by rewrite Hm]]].
  - cbn [perform]. rewrite (proj1 Hat). cbn [mbind option_bind]. rewrite (proj2 Hat). cbn [mbind option_bind]. rewrite E. cbn [mbind option_bind]. destruct r as [i|].
    + destruct Hr as (f & w & Hi & Ew & ->). apply content_back in Hi as (p & Ep & _ & <-). rewrite Ep. cbn [mbind option_bind]. by rewrite Ew.
    + by destruct Hr as [_ ->].
  - exists q, a, (view_of o sh). by split_and!.
Qed.

Lemma has_prop_some a (w : ObjectView (V := V)) x : lookup_prop a (v_props w) = Some x -> has_prop a w = true.
Proof. intros H. unfold has_prop. apply bool_decide_eq_true. rewrite H. by eexists. Qed.
Lemma has_prop_none a (w : ObjectView (V := V)) : lookup_prop a (v_props w) = None -> has_prop a w = false.
Proof. intros H. unfold has_prop. apply bool_decide_eq_false. rewrite H. by intros [x Hx]. Qed.

(** Updates of a property that does not exist. *)
Lemma update_absent a g (l : list (Z * Z * option V)) : lookup_prop a l = None -> update_entry a g <$> l = l.
Proof.
  induction l as [|[[b f] v] l IH]; [done|]. cbn. destruct (Z.eqb_spec b a) as [->|Hb]; [done|]. intros H. by rewrite (IH H).
Qed.
Lemma object_frame_refl q : frame n s q s.
Proof. by split_and!; [apply Hinv..|]. Qed.

Lemma perform_add q a f v : allowed m (Add q a f v) -> performs n s m (Add q a f v) u.
Proof.
  intros (Hq & Ha & Hf). destruct (object_of q Hq) as (o & sh & Hat & Hmq). destruct (find_property_spec n s q o sh a Hinv Hat Ha) as (r & E & Hr).
  pose proof (view_at _ _ _ _ Hat) as Hv0. assert (Ha0 : a <> JS_ATOM_NULL) by (unfold JS_ATOM_NULL; lia). destruct r as [i|].
  - destruct Hr as (f' & w & _ & _ & Hl). pose proof (has_prop_some a (view_of o sh) _ Hl) as Hh.
    eapply (performs_write _ (Done false) s n q _ (view_of o sh)); try done; [lia|cbn [perform]; by rewrite E|apply object_frame_refl|].
    exists (view_of o sh). rewrite Hh. split_and!; [done|done|by eapply frame_writes; [apply object_frame_refl|]].
  - destruct Hr as [Hun Hl]. destruct (add_property_spec n s q o sh a f Hinv Hn Hat Hun Ha Hf) as (r & s1 & E1 & Hfr1 & Had). destruct r as [i|]; cbn in Had.
    + destruct Had as (-> & o1 & sh1 & Hat1 & Hc1 & Hp1 & He1 & Hi1 & Hk1 & Hps1). pose proof (frame_inv _ _ _ _ Hfr1) as Hinv1.
      assert (Hent : entry_at sh1 (length (shape_prop sh)) a f) by (unfold entry_at; rewrite Hc1, lookup_app_r, length_content, Nat.sub_diag by (rewrite length_content; done); done).
      destruct (store_value_spec (n + 2) s1 q o1 sh1 (length (shape_prop sh)) a f v Hinv1 Hat1 Hent Ha0) as (s2 & E2 & Hfr2 & Hat2 & _).
      pose proof (entry_bound _ _ _ _ _ _ _ _ Hinv1 Hat1 Hent) as Hb. set (o2 := with_prop _ o1) in *.
      assert (Hv2 : view_of o2 sh1 = set_props (v_props (view_of o sh) ++ [(a, f, Some v)]) (view_of o sh)).
      { unfold view_of, set_props. cbn [v_props v_proto v_extensible v_immutable_prototype]. rewrite Hp1, Hc1. unfold o2. cbn [prop with_prop extensible has_immutable_prototype].
        rewrite He1, Hi1. f_equal. rewrite (entries_snoc _ _ a f (Some v)); [|done|by rewrite length_content, list_lookup_insert_eq].
        f_equal. apply entries_prefix. rewrite length_content. rewrite take_insert_ge by done. apply Hk1. }
      eapply (performs_write _ (Done true) s2 (n + 2) q _ (view_of o2 sh1)); [lia| |by eapply object_frame_trans|done|by rewrite Hv2|by apply view_at|].
      * cbn [perform]. rewrite E. cbn [mbind option_bind]. rewrite E1. cbn [mbind option_bind]. by rewrite E2.
      * exists (view_of o sh). rewrite (has_prop_none a (view_of o sh)) by done. split_and!; try done. eapply frame_writes; [by eapply object_frame_trans|]. by rewrite (view_at _ _ _ _ Hat2), Hv2.
    + eapply (performs_failed _ s1 (n + 2)); [lia| |by eapply frame_inv|].
      * cbn [perform]. rewrite E. cbn [mbind option_bind]. by rewrite E1.
      * eapply same_view; [done|]. by rewrite Had, Hv0.
Qed.

Lemma perform_set q a v : allowed m (Set_ q a v) -> performs n s m (Set_ q a v) u.
Proof.
  intros (Hq & Ha). destruct (object_of q Hq) as (o & sh & Hat & Hmq). destruct (find_property_spec n s q o sh a Hinv Hat Ha) as (r & E & Hr).
  pose proof (view_at _ _ _ _ Hat) as Hv0. assert (Ha0 : a <> JS_ATOM_NULL) by (unfold JS_ATOM_NULL; lia). destruct r as [i|].
  - destruct Hr as (f & w & Hent & _ & Hl). destruct (store_value_spec n s q o sh i a f v Hinv Hat Hent Ha0) as (s2 & E2 & Hfr2 & Hat2 & Hv2). set (o2 := with_prop _ o) in *.
    assert (Hv : view_of o2 sh = set_props (update_entry a (fun x => (fst x, Some v)) <$> v_props (view_of o sh)) (view_of o sh)) by (rewrite <- Hv2; done).
    eapply (performs_write _ (Done true) s2 n q _ (view_of o2 sh)); [lia| |done|done|done|by apply view_at|].
    + cbn [perform]. rewrite E. cbn [mbind option_bind]. by rewrite E2.
    + exists (view_of o sh). rewrite (has_prop_some a (view_of o sh) _ Hl). split_and!; try done. eapply frame_writes; [done|]. by rewrite (view_at _ _ _ _ Hat2), Hv.
  - destruct Hr as [_ Hl]. eapply (performs_write _ (Done false) s n q _ (view_of o sh)); try done; [lia|cbn [perform]; by rewrite E|apply object_frame_refl|].
    exists (view_of o sh). rewrite (has_prop_none a (view_of o sh)) by done. split_and!; try done. eapply frame_writes; [apply object_frame_refl|].
    by rewrite Hv0, (update_absent a), set_props_id by done.
Qed.

Lemma perform_flags q a f : allowed m (Flags q a f) -> performs n s m (Flags q a f) u.
Proof.
  intros (Hq & Ha & Hf). destruct (object_of q Hq) as (o & sh & Hat & Hmq). destruct (find_property_spec n s q o sh a Hinv Hat Ha) as (r & E & Hr).
  pose proof (view_at _ _ _ _ Hat) as Hv0. destruct r as [i|].
  - destruct Hr as (f' & w & Hent & _ & Hl). apply content_back in Hent as (p & Ep & Hpa & _). assert (Hp : live p) by (unfold live, JS_ATOM_NULL; lia).
    destruct (update_flags_spec n s q o sh i p f Hinv ltac:(lia) Hat Ep Hp Hf) as (ok & s2 & E2 & Hfr2 & Hv2). rewrite Hpa in Hv2. destruct ok.
    + eapply (performs_write _ (Done true) s2 n q _ _); [lia| |done|done| |exact Hv2|]; [cbn [perform]; rewrite E; cbn [mbind option_bind]; by rewrite E2|done|].
      exists (view_of o sh). rewrite (has_prop_some a (view_of o sh) _ Hl). split_and!; try done. by eapply frame_writes.
    + eapply (performs_failed _ s2 n); [lia|cbn [perform]; rewrite E; cbn [mbind option_bind]; by rewrite E2|by eapply frame_inv|].
      eapply same_view; [done|]. by rewrite Hv2.
  - destruct Hr as [_ Hl]. eapply (performs_write _ (Done false) s n q _ (view_of o sh)); try done; [lia|cbn [perform]; by rewrite E|apply object_frame_refl|].
    exists (view_of o sh). rewrite (has_prop_none a (view_of o sh)) by done. split_and!; try done. eapply frame_writes; [apply object_frame_refl|].
    by rewrite Hv0, (update_absent a), set_props_id by done.
Qed.

Lemma perform_delete q a : allowed m (Delete q a) -> performs n s m (Delete q a) u.
Proof.
  intros (Hq & Ha). destruct (object_of q Hq) as (o & sh & Hat & Hmq). destruct (delete_property_spec n s q o sh a u Hinv ltac:(lia) Hat Ha) as (r & s' & E & Hfr & Hr).
  assert (Ep : perform u s (Delete q a) = Some (match r with Some b => Done b | None => Failed end, s')) by (cbn [perform]; by rewrite E). destruct r as [b|].
  - destruct Hr as (Hb & Hv & _). eapply (performs_write _ (Done b) s' n q _ _); [lia|exact Ep|done|exact Hmq| |exact Hv|]; [by destruct b|].
    exists (view_of o sh). split_and!; try done. by eapply frame_writes.
  - eapply (performs_failed _ s' n); [lia|exact Ep|by eapply frame_inv|]. eapply same_view; [done|]. by rewrite (proj1 Hr).
Qed.

Lemma perform_set_proto q p : allowed m (SetProto q p) -> performs n s m (SetProto q p) u.
Proof.
  intros (Hq & Hp). destruct (object_of q Hq) as (o & sh & Hat & Hmq).
  assert (Hpr : forall x, protos m x = proto_of s x) by (intros x; unfold protos, proto_of; by rewrite Hm).
  assert (Hg' : grounded (proto_of s)) by (by apply (grounded_ext (protos m))).
  destruct (set_prototype_spec n s q o sh p Hinv ltac:(lia) Hat Hg') as (r & s' & E & Hfr & Hgs & Hr); [intros p' Hp'; rewrite <- Hm; by apply Hp|].
  assert (Ep : perform u s (SetProto q p) = Some (match r with Some b => Done b | None => Failed end, s')) by (cbn [perform]; by rewrite E).
  assert (Hi : inv (n + 2) s') by (eapply (step_inv n); [lia|by eapply frame_inv]).
  eexists _, s'. split; [exact Ep|]. split; [done|]. split; [|done]. destruct r as [[]|].
  - exists (view_of o sh). split_and!; try done. by eapply frame_writes.
  - destruct Hr as (Hv & Hne & Hwhy). exists (view_of o sh). split_and!; [done|by eapply frame_writes|]. intros _. split; [done|]. destruct Hwhy as [|(p' & l & -> & Hc & Hl)]; [by left|right].
    exists p', l. split_and!; try done. by eapply proto_chain_ext.
  - cbn [answers]. eapply same_view; [done|]. by rewrite Hr.
Qed.

Lemma perform_free q : allowed m (Free q) -> performs n s m (Free q) u.
Proof.
  intros (Hq & Hn'). destruct (object_of q Hq) as (o & sh & Hat & Hmq). destruct (free_object_spec n s q o sh Hinv ltac:(lia) Hat) as (s' & E & Hfr & Hv).
  pose proof (frame_writes n q s' None Hfr Hv) as Hw. exists (Done true), s'. split; [cbn [perform]; by rewrite E|].
  split; [eapply (step_inv n); [lia|by eapply frame_inv]|]. split; [done|]. apply (grounded_ext (<[q := None]> (protos m))); [|by apply grounded_delete].
  intros x. unfold protos. destruct Hw as [H1 H2]. destruct (decide (x = q)) as [->|Hx]; [by rewrite fn_lookup_insert, H1|]. by rewrite fn_lookup_insert_ne, (H2 x Hx) by done.
Qed.

Lemma perform_spec c : allowed m c -> performs n s m c u.
Proof.
  destruct c; [apply perform_new|apply perform_new_alloc|apply perform_get|apply perform_add|apply perform_set|apply perform_flags|apply perform_delete|
    apply perform_set_proto|apply perform_free].
Qed.
End calls.

Lemma init_inv : inv 0 (init_shape_hash (V := V)) /\ forall x, view (init_shape_hash (V := V)) x = None.
Proof.
  split; [|done]. split.
  - split; try done.
  - split; cbn.
    + split_and!; done.
    + done.
    + intros b l E. change (replicate 16 [] !! b = Some l) in E. apply lookup_replicate in E as [-> _]. split; [constructor|]. intros p. split; [by intros ?%not_elem_of_nil|].
      by intros (h & (sh & E & _) & _).
    + by intros p h (sh & E & _).
    + by intros p h h' (sh & E & _).
Qed.

Lemma client_spec u N (k : client (request V) (reply V)) : 2 * Z.of_nat N < 2 ^ 26 -> at_most N k -> careful allowed answers (fun _ => None) k ->
  exists rs s' m', run_client (perform u) init_shape_hash k = Some (rs, s') /\ follows answers (fun _ => None) k rs m' /\
    (forall x, m' x = view s' x) /\ grounded (protos (view s')) /\ inv (2 * Z.of_nat N) s'.
Proof.
  intros HN Hk Hc. set (N0 := 2 * Z.of_nat N) in *. set (R (k : client (request V) (reply V)) s m := exists n N, at_most N k /\ inv n s /\ (forall x, m x = view s x) /\ grounded (protos m) /\ 0 <= n /\ n + 2 * Z.of_nat N <= N0).
  destruct (clients_follow allowed answers (perform u) R) with (k := k) (s := init_shape_hash (V := V)) (m := fun _ : ptr => @None (ObjectView (V := V))) as (rs & s' & m' & E & Hf & HR).
  - intros c k' s m (n & [|N'] & Hk' & Hinv & Hm & Hg & Hn0 & Hn) Ha; [done|]. destruct (perform_spec u n s m Hinv Hm Hg ltac:(lia) c Ha) as (r & s1 & E & Hi & Hans & Hg1).
    exists r, s1, (view s1). split; [done|]. split; [done|]. exists (n + 2), N'. split_and!; [apply Hk'|done|done|done|lia|lia].
  - destruct init_inv as [Hi Hv]. exists 0, N. split_and!; [done|done|by intros x; rewrite Hv|by intros q [v Hq]|lia|unfold N0; lia].
  - done.
  - destruct HR as (n & N' & _ & Hinv & Hm & Hg & Hn0 & Hn). exists rs, s', m'. split_and!; try done.
    + apply (grounded_ext (protos m')); [|done]. intros x. unfold protos. by rewrite Hm.
    + destruct Hinv. split; [by eapply (links_mono _ n); [lia|]|by eapply (table_mono n); [lia|]].
Qed.
End run.

(** ** The properties *)

Section properties.
Context {V : Type} {W : World} {Al : Malloc}.

(** C29 Objects that share shapes behave as objects with property lists of their own.
    A client of at most [N] calls (of [JS_NewObjectProtoClass], [JS_NewObjectProtoClassAlloc],
    [find_own_property], [add_property], [js_update_property_flags], [delete_property],
    [JS_SetPrototypeInternal] and [free_object]) on a new runtime runs without an error, and
    its replies and the objects are the ones of the specification, whichever allocations
    fail: a call changes its object only, and a call that fails changes none. *)
Theorem shapes_refine (u : V) N k : 2 * Z.of_nat N < 2 ^ 26 -> at_most N k -> careful allowed answers (fun _ => None) k ->
  exists rs s' m', run_client (perform u) init_shape_hash k = Some (rs, s') /\ follows answers (fun _ => None) k rs m' /\ forall q, m' q = view s' q.
Proof.
  intros HN Hk Hc. destruct (client_spec u N k HN Hk Hc) as (rs & s' & m' & E & Hf & Hm & _). by exists rs, s', m'.
Qed.

(** C30 In the states that such a client reaches, the chain of prototypes of every object
    ends, so the loop of [JS_SetPrototypeInternal] over a chain does: it answers whether [q]
    is on the chain of [p] within as many steps as there are objects. *)
Theorem prototype_chains_end (u : V) N k rs s' : 2 * Z.of_nat N < 2 ^ 26 -> at_most N k -> careful allowed answers (fun _ => None) k ->
  run_client (perform u) init_shape_hash k = Some (rs, s') ->
  forall p q, is_Some (view s' p) -> exists l b, chain (proto_of s') p l /\ proto_loop (size (objects s')) s' q p = Some b /\ (b = true <-> q ∈ p :: l).
Proof.
  intros HN Hk Hc E p q [w Hw]. destruct (client_spec u N k HN Hk Hc) as (rs' & s & m' & E' & _ & _ & Hg & _).
  rewrite E in E'. injection E' as <- <-. destruct (Hg p) as [l Hl]; [unfold protos; rewrite Hw; by eexists|].
  destruct (proto_loop_spec s' q (size (objects s')) p l Hl (chain_size _ _ _ Hl)) as (b & Eb & Hb). by exists l, b.
Qed.
End properties.

(** ** Examples *)

#[local] Program Instance fresh_pointers : Malloc := {| malloc X := stdpp.base.fresh X |}.
Next Obligation. apply is_fresh. Qed.
#[local] Instance healthy : World := fun _ => true.

(** Two objects get the property 1, so they share their shapes; then the first one loses
    it. *)
Definition two_objects : client (request Z) (reply Z) :=
  Call (New None) (fun r => match r with
  | Created p => Call (New (Some p)) (fun r => match r with
    | Created q =>
        Call (New (Some p)) (fun r => match r with
        | Created q' =>
            Call (Add q 1 7 10) (fun _ => Call (Add q' 1 7 20) (fun _ => Call (SetProto p (Some q)) (fun _ => Call (Delete q 1) (fun _ =>
            Call (Get q' 1) (fun _ => Stop)))))
        | _ => Stop
        end)
    | _ => Stop
    end)
  | _ => Stop
  end).

Lemma created_view {V} (m m' : objects_view (V := V)) p q : answers m (New p) (Created q) m' -> m' q = Some (mkView p [] true false) /\ m q = None /\ forall x, x <> q -> m' x = m x.
Proof. intros (p' & [[= <-]|[k [=]]] & Hn & Hq & Hx). done. Qed.

(** The objects that exist stay. *)
Lemma answers_keep {V} (m m' : objects_view (V := V)) c r x : answers m c r m' -> (forall q, c <> Free q) -> is_Some (m x) -> is_Some (m' x).
Proof.
  assert (Hw : forall q v, writes m q (Some v) m' -> is_Some (m x) -> is_Some (m' x)).
  { intros q v [H1 H2] Hx. destruct (decide (x = q)) as [->|Hne]; [rewrite H1; by eexists|]. by rewrite (H2 x Hne). }
  intros Ha Hc. destruct r; cbn in Ha.
  - destruct c; try done; try (destruct Ha as (w & _ & _ & Ha); revert Ha; apply Hw); [destruct Ha as (w & _ & Ha & _); revert Ha; apply Hw|by destruct (Hc q)].
  - destruct Ha as (p & _ & _ & Ha). revert Ha. apply Hw.
  - destruct Ha as (q & a & w & _ & _ & _ & Ha). by rewrite Ha.
  - by rewrite Ha.
Qed.

Lemma two_objects_careful : careful allowed answers (fun _ => None) two_objects.
Proof.
  cbn. split; [done|]. intros r m1 A1. destruct r as [|p| |]; try done. destruct (created_view _ _ _ _ A1) as (P1 & _ & _).
  assert (S1 : is_Some (m1 p)) by (rewrite P1; by eexists). split; [by intros p' [= <-]|]. intros r m2 A2. destruct r as [|q| |]; try done.
  destruct (created_view _ _ _ _ A2) as (P2 & _ & _). assert (S2 : is_Some (m2 q)) by (rewrite P2; by eexists). pose proof (answers_keep _ _ _ _ p A2 ltac:(done) S1) as S3.
  split; [by intros p' [= <-]|]. intros r m3 A3. destruct r as [|q'| |]; try done. destruct (created_view _ _ _ _ A3) as (P3 & _ & _).
  assert (S4 : is_Some (m3 q')) by (rewrite P3; by eexists). pose proof (answers_keep _ _ _ _ p A3 ltac:(done) S3) as S5. pose proof (answers_keep _ _ _ _ q A3 ltac:(done) S2) as S6.
  split; [done|]. intros r m4 A4. pose proof (answers_keep _ _ _ _ p A4 ltac:(done) S5) as S7. pose proof (answers_keep _ _ _ _ q A4 ltac:(done) S6) as S8.
  pose proof (answers_keep _ _ _ _ q' A4 ltac:(done) S4) as S9.
  split; [done|]. intros r' m5 A5. pose proof (answers_keep _ _ _ _ p A5 ltac:(done) S7) as T1. pose proof (answers_keep _ _ _ _ q A5 ltac:(done) S8) as T2.
  pose proof (answers_keep _ _ _ _ q' A5 ltac:(done) S9) as T3.
  split; [by split; [|intros p' [= <-]]|]. intros r6 m6 A6. pose proof (answers_keep _ _ _ _ q A6 ltac:(done) T2) as T4. pose proof (answers_keep _ _ _ _ q' A6 ltac:(done) T3) as T5.
  split; [done|]. intros r7 m7 A7. pose proof (answers_keep _ _ _ _ q' A7 ltac:(done) T5) as T6. by split.
Qed.

(** The two objects share their shape until one of them changes. *)
Definition shape_of (rt : JSRuntime (V := Z)) (q : ptr) : option ptr := shape <$> objects rt !! q.
Definition shared : client (request Z) (reply Z) :=
  Call (New None) (fun _ => Call (New None) (fun _ => Call (Add 1 1 7 10) (fun _ => Call (Add 2 1 7 20) (fun _ => Stop)))).
Example shared_run : (fun x => (shape_of (snd x) 1, shape_of (snd x) 2)) <$> run_client (perform 0) init_shape_hash shared = Some (Some 3, Some 3).
Proof. vm_compute. reflexivity. Qed.

(** The replies; [SetProto] refuses the cycle, and the second object keeps the property. *)
Example two_objects_run : fst <$> run_client (perform 0) init_shape_hash two_objects =
  Some [Created 1; Created 3; Created 4; Done true; Done true; Done false; Done true; Found (Some (7, Some 20))].
Proof. vm_compute. reflexivity. Qed.

Lemma shapes_refine_witness : exists rs s' m', run_client (perform 0) init_shape_hash two_objects = Some (rs, s') /\
  follows answers (fun _ => None) two_objects rs m' /\ forall q, m' q = view s' q.
Proof.
  apply (shapes_refine 0 8 two_objects); [done| |apply two_objects_careful]. vm_compute. repeat (first [exact I|intros []]).
Defined.

Lemma prototype_chains_end_witness :
  match run_client (perform 0) init_shape_hash two_objects with
  | Some (_, s') => exists l b, chain (proto_of s') 3 l /\ proto_loop (size (objects s')) s' 1 3 = Some b /\ (b = true <-> 1 ∈ 3 :: l)
  | None => False
  end.
Proof.
  assert (Hx : (fun x => bool_decide (is_Some (view (snd x) 3))) <$> run_client (perform 0) init_shape_hash two_objects = Some true) by (vm_compute; reflexivity).
  destruct (run_client (perform 0) init_shape_hash two_objects) as [[rs s']|] eqn:E; [|done].
  apply (prototype_chains_end 0 8 two_objects rs s'); [done| |apply two_objects_careful|exact E|].
  - vm_compute. repeat (first [exact I|intros []]).
  - apply (inj Some) in Hx. by apply bool_decide_eq_true in Hx.
Defined.
