(* ===== verification/ArrayLength.v ===== *)
(** * The length of an array

    [set_array_length] of [src/quickjs/quickjs.c], over the property tables of [Shapes]:
    a fast array keeps its elements in an array of their own, another one has a property
    for each element.  The first property is the length. *)
From S2P Require Export ShapesSpec.

Definition JS_PROP_WRITABLE : Z := 2.

(** The numbers among the values. *)
Class ArrayValue (V : Type) := {
  JS_UNDEFINED : V;
  JS_NewUint32 : Z -> V;
  JS_ToUint32 : V -> Z;
  to_uint32_new n : 0 <= n < 2 ^ 32 -> JS_ToUint32 (JS_NewUint32 n) = n
}.

(** The atoms of the array indices: [JS_NewAtomUInt32] and [JS_AtomIsArrayIndex]. *)
Class IndexAtoms := {
  index_atom : Z -> Z;
  atom_index : Z -> option Z;
  index_atom_pos n : 0 <= n < 2 ^ 32 - 1 -> 0 < index_atom n;
  atom_index_some a n : atom_index a = Some n <-> 0 <= n < 2 ^ 32 - 1 /\ a = index_atom n
}.

Section definitions.
Context {V : Type} {AV : ArrayValue V} {W : World} {Al : Malloc} {IA : IndexAtoms}.
Abbreviation JSRuntime := (JSRuntime (V := V)).

(** The elements are removed from the last one on; [-1] from [delete_property] counts as a
    success.  The result is the length that is reached. *)
Fixpoint delete_down (fuel : nat) (s : JSRuntime) (q : ptr) (len cur_len : Z) : option (Z * JSRuntime) :=
  if len <? cur_len then
    match fuel with
    | O => None
    | S fuel =>
        let atom := index_atom (cur_len - 1) in
        '(ret, s) ← delete_property JS_UNDEFINED (JS_DupAtom atom s) q atom;
        let s := JS_FreeAtom atom s in
        match ret with Some false => Some (cur_len, s) | _ => delete_down fuel s q len (cur_len - 1) end
    end
  else Some (cur_len, s).

(** The first pass over the properties: the elements that cannot be deleted. *)
Definition kept_length (cur_len : Z) (pr : JSShapeProperty) : Z :=
  if negb (atom pr =? JS_ATOM_NULL) then
    match atom_index (atom pr) with
    | Some idx => if (cur_len <=? idx) && (flags pr .& JS_PROP_CONFIGURABLE =? 0) then idx + 1 else cur_len
    | None => cur_len
    end
  else cur_len.

(** The second pass, from the property [i] on. *)
Fixpoint delete_pass (fuel : nat) (s : JSRuntime) (q : ptr) (cur_len : Z) (i : nat) : option JSRuntime :=
  o ← objects s !! q;
  sh ← shapes s !! shape o;
  if decide (i < length (shape_prop sh))%nat then
    match fuel with
    | O => None
    | S fuel =>
        pr ← shape_prop sh !! i;
        s ← (if negb (atom pr =? JS_ATOM_NULL) then
               match atom_index (atom pr) with
               | Some idx => if cur_len <=? idx then snd <$> delete_property JS_UNDEFINED s q (atom pr) else Some s
               | None => Some s
               end
             else Some s);
        delete_pass fuel s q cur_len (S i)
    end
  else Some s.

(** [JS_ThrowTypeErrorOrFalse]; [None] is the exception. *)
Definition throw_or_false (throw : bool) : option bool := if throw then None else Some false.

(** [fast] holds the elements of a fast array; the result has the new ones. *)
Definition set_array_length (s : JSRuntime) (q : ptr) (fast : option (list V)) (len : Z) (throw : bool) :
    option (option bool * option (list V) * JSRuntime) :=
  o ← objects s !! q;
  sh ← shapes s !! shape o;
  pr ← shape_prop sh !! 0%nat;
  if flags pr .& JS_PROP_WRITABLE =? 0 then Some (throw_or_false throw, fast, s)
  else
    match fast with
    | Some values => s ← store_value s q 0 (JS_NewUint32 len); Some (Some true, Some (take (Z.to_nat len) values), s)
    | None =>
        length0 ← prop o !! 0%nat;
        length_value ← length0;
        let cur_len := JS_ToUint32 length_value in
        '(cur_len, s) ←
          (if len <? cur_len then
             let d := cur_len - len in
             if d <=? prop_count sh then delete_down (Z.to_nat d) s q len cur_len
             else
               let cur_len := fold_left kept_length (shape_prop sh) len in
               s ← delete_pass (length (shape_prop sh)) s q cur_len 0;
               Some (cur_len, s)
           else Some (len, s));
        s ← store_value s q 0 (JS_NewUint32 cur_len);
        Some (if len <? cur_len then throw_or_false throw else Some true, None, s)
    end.
End definitions.

(** ** Truncation from the last element on *)

Section truncation.
Context {V : Type} {AV : ArrayValue V} {W : World} {Al : Malloc} {IA : IndexAtoms}.
Implicit Types (s : JSRuntime (V := V)) (v : ObjectView (V := V)).

(** The element of the entry is one of [from], ..., [upto - 1]. *)
Definition element_in (from upto : Z) (e : Z * Z * option V) : Prop := match atom_index (fst (fst e)) with Some k => from <= k < upto | None => False end.
#[export] Instance element_in_dec from upto e : Decision (element_in from upto e).
Proof. unfold element_in. destruct (atom_index _); apply _. Defined.

Definition truncated (from upto : Z) v : ObjectView := set_props (filter (fun e => ~ element_in from upto e) (v_props v)) v.
Definition with_length (la len : Z) v : ObjectView := set_props (update_entry la (fun x => (fst x, Some (JS_NewUint32 len))) <$> v_props v) v.

Lemma truncated_none from v : truncated from from v = v.
Proof.
  unfold truncated. assert (E : filter (fun e => ~ element_in from from e) (v_props v) = v_props v); [|rewrite E; by destruct v].
  induction (v_props v) as [|e l IH]; [done|]. rewrite filter_cons_True, IH; [done|]. unfold element_in. destruct (atom_index _); [lia|tauto].
Qed.

Lemma named_element from upto e : from < upto -> 0 <= from -> upto < 2 ^ 32 -> ~ element_in from upto e <-> ~ element_in from (upto - 1) e /\ ~ named (index_atom (upto - 1)) e.
Proof.
  intros Hf H0 Hu. unfold element_in, named. destruct (atom_index (fst (fst e))) as [k|] eqn:Ek.
  - apply atom_index_some in Ek as [Hk ->]. split.
    + intros H. split; [lia|]. intros E. assert (Hk' : atom_index (index_atom k) = Some (upto - 1)) by (apply atom_index_some; split; [lia|done]).
      apply atom_index_some in Hk'. pose proof (proj2 (atom_index_some (index_atom k) k) (conj Hk eq_refl)) as E2. pose proof (proj2 (atom_index_some (index_atom k) (upto - 1)) Hk') as E1.
      rewrite E2 in E1. injection E1 as ->. lia.
    + intros [H1 H2] H3. assert (k <> upto - 1) by (intros ->; by destruct H2). lia.
  - split; [|tauto]. intros _. split; [tauto|]. intros E. assert (Hk : atom_index (fst (fst e)) = Some (upto - 1)) by (apply atom_index_some; split; [lia|done]). congruence.
Qed.

Lemma truncated_step from upto v : 0 <= from < upto -> upto < 2 ^ 32 -> truncated from (upto - 1) (remove_prop (index_atom (upto - 1)) v) = truncated from upto v.
Proof.
  intros Hf Hu. unfold truncated, remove_prop, set_props. cbn [v_props v_proto v_extensible v_immutable_prototype]. f_equal. rewrite list_filter_filter.
  apply list_filter_iff. intros e. rewrite (named_element from upto e) by lia. tauto.
Qed.

Lemma lookup_removed a b v : a <> b -> lookup_prop a (v_props (remove_prop b v)) = lookup_prop a (v_props v).
Proof.
  intros Hab. unfold remove_prop, set_props. cbn [v_props]. induction (v_props v) as [|[[c f] x] l IH]; [done|]. destruct (decide (named b (c, f, x))) as [Hn|Hn].
  - rewrite filter_cons_False by tauto. cbn. unfold named in Hn. cbn in Hn. replace (c =? a) with false by lia. exact IH.
  - rewrite filter_cons_True by done. cbn. destruct (c =? a); [done|exact IH].
Qed.

Lemma index_atom_inj a b : 0 <= a < 2 ^ 32 - 1 -> 0 <= b < 2 ^ 32 - 1 -> index_atom a = index_atom b -> a = b.
Proof. intros Ha Hb E. pose proof (proj2 (atom_index_some (index_atom a) a) (conj Ha eq_refl)) as E1. rewrite E, (proj2 (atom_index_some (index_atom b) b)) in E1 by done. by injection E1. Qed.

Lemma delete_down_spec n q len la fl : (forall k, ext_ok k = true) -> n < 2 ^ 26 -> 0 <= len -> la <> JS_ATOM_NULL -> atom_index la = None -> forall fuel s o sh cur, inv n s -> at_object s q o sh ->
  entry_at sh 0 la fl -> cur < 2 ^ 32 -> len <= cur -> Z.of_nat fuel = cur - len ->
  exists c s', delete_down fuel s q len cur = Some (c, s') /\ len <= c <= cur /\ frame n s q s' /\
    (exists o' sh', at_object s' q o' sh' /\ entry_at sh' 0 la fl /\ view_of o' sh' = truncated c cur (view_of o sh)) /\
    (len < c -> deletable (index_atom (c - 1)) (view_of o sh) = false).
Proof.
  intros Hw Hn Hlen Hla0 Hla. induction fuel as [|fuel IH]; intros s o sh cur Hinv Hat Hent Hcur Hle Hf; cbn [delete_down].
  - replace (len <? cur) with false by lia. exists cur, s. split; [done|]. split; [lia|]. split; [by apply frame_core|]. split; [|lia]. exists o, sh. by rewrite truncated_none.
  - replace (len <? cur) with true by lia. set (a := index_atom (cur - 1)). assert (Ha : 0 < a) by (apply index_atom_pos; lia).
    assert (Hi0 : inv n (JS_DupAtom a s)) by (eapply frame_inv; by apply (frame_core n s q)).
    destruct (delete_property_spec n (JS_DupAtom a s) q o sh a JS_UNDEFINED Hi0 Hn Hat Ha) as (r & s1 & E & Hfr & Hr). rewrite E. cbn [mbind option_bind].
    assert (Hfr1 : frame n s q (JS_FreeAtom a s1)).
    { eapply object_frame_trans; [|by apply frame_core; [by eapply frame_inv|]]. eapply object_frame_trans; [|exact Hfr]. by apply frame_core. }
    destruct r as [b|]; [|destruct Hr as (_ & k & Hk); by rewrite Hw in Hk]. destruct Hr as (Hb & Hv & o1 & sh1 & Hat1 & Hkeep).
    assert (Hent1 : entry_at sh1 0 la fl).
    { apply Hkeep; [done| |done]. intros ->. pose proof (proj2 (atom_index_some a (cur - 1)) ltac:(split; [lia|done])). congruence. }
    assert (Hview : view_of o1 sh1 = if b then remove_prop a (view_of o sh) else view_of o sh) by (rewrite (view_at _ _ _ _ Hat1) in Hv; by injection Hv).
    destruct b.
    + destruct (IH (JS_FreeAtom a s1) o1 sh1 (cur - 1)) as (c & s' & E' & Hc & Hfr' & Hv' & Hd); [by eapply frame_inv|done|done|lia|lia|lia|].
      exists c, s'. split; [done|]. split; [lia|]. split; [by eapply object_frame_trans|]. rewrite Hview in Hv', Hd. split.
      * destruct Hv' as (o' & sh' & H1 & H2 & H3). exists o', sh'. split; [done|]. split; [done|]. rewrite H3. apply truncated_step; lia.
      * intros Hlc. rewrite <- (Hd Hlc). unfold deletable. rewrite lookup_removed; [done|]. intros Eq. apply index_atom_inj in Eq; lia.
    + exists cur, (JS_FreeAtom a s1). split; [done|]. split; [lia|]. split; [done|]. split; [|by intros _]. exists o1, sh1. split; [done|]. split; [done|]. by rewrite truncated_none.
Qed.

(** When there are no more elements to remove than properties, and the memory is not
    exhausted, [set_array_length] on an array that is not fast removes the elements from the
    last one on, down to the new length or to the first one that is not configurable, which
    is then the last element; nothing else changes but the length, and the result says
    whether the length was reached. *)
Theorem array_truncated n s q o sh la fl w cur len throw : (forall k, ext_ok k = true) -> inv n s -> n < 2 ^ 26 -> at_object s q o sh ->
  entry_at sh 0 la fl -> la <> JS_ATOM_NULL -> atom_index la = None -> fl .& JS_PROP_WRITABLE <> 0 ->
  prop o !! 0%nat = Some (Some w) -> JS_ToUint32 w = cur -> 0 <= len < cur -> cur < 2 ^ 32 -> cur - len <= prop_count sh ->
  exists c s', set_array_length s q None len throw = Some (if len <? c then throw_or_false throw else Some true, None, s') /\ len <= c <= cur /\
    view s' q = Some (with_length la c (truncated c cur (view_of o sh))) /\ (len < c -> deletable (index_atom (c - 1)) (view_of o sh) = false) /\
    frame n s q s'.
Proof.
  intros Hw Hinv Hn Hat Hent Hla0 Hla Hfl Hp Hcur Hlen Hmax Hd. unfold set_array_length. rewrite (proj1 Hat). cbn [mbind option_bind]. rewrite (proj2 Hat). cbn [mbind option_bind].
  pose proof Hent as He. apply content_back in He as (pr & Epr & Hpa & Hpf). rewrite Epr. cbn [mbind option_bind]. rewrite Hpf. replace (fl .& JS_PROP_WRITABLE =? 0) with false by lia.
  rewrite Hp. cbn [mbind option_bind]. rewrite Hcur. replace (len <? cur) with true by lia. replace (cur - len <=? prop_count sh) with true by lia.
  destruct (delete_down_spec n q len la fl Hw Hn ltac:(lia) Hla0 Hla (Z.to_nat (cur - len)) s o sh cur) as (c & s1 & E & Hc & Hfr & (o1 & sh1 & Hat1 & Hent1 & Hv1) & Hdel); try done; [lia|lia|].
  rewrite E. cbn [mbind option_bind]. destruct (store_value_spec n s1 q o1 sh1 0 la fl (JS_NewUint32 c) (frame_inv _ _ _ _ Hfr) Hat1 Hent1 Hla0) as (s2 & E2 & Hfr2 & Hat2 & Hv2).
  rewrite E2. cbn [mbind option_bind]. exists c, s2. split; [done|]. split; [done|]. split; [|split; [done|by eapply object_frame_trans]].
  rewrite (view_at _ _ _ _ Hat2). f_equal. unfold with_length. rewrite <- Hv1, <- Hv2. by destruct o1.
Qed.
End truncation.

(** ** A sparse array keeps elements past its length *)

#[local] Instance array_numbers : ArrayValue Z := {| JS_UNDEFINED := 0; JS_NewUint32 n := n; JS_ToUint32 n := n; to_uint32_new n _ := eq_refl |}.
#[local] Program Instance offset_atoms : IndexAtoms :=
  {| index_atom n := n + 2 ^ 31; atom_index a := if (2 ^ 31 <=? a) && (a <? 2 ^ 31 + 2 ^ 32 - 1) then Some (a - 2 ^ 31) else None |}.
Next Obligation. intros n Hn. change (0 < n + 2 ^ 31). lia. Qed.
Next Obligation.
  intros a n. cbn beta. destruct (Z.leb_spec (2 ^ 31) a), (Z.ltb_spec a (2 ^ 31 + 2 ^ 32 - 1)); cbn [andb]; (split; [try done; intros E; injection E as <-; lia|intros [? ->]; try lia]).
  f_equal. lia.
Qed.
#[local] Program Instance fresh_pointers : Malloc := {| malloc X := stdpp.base.fresh X |}.
Next Obligation. apply is_fresh. Qed.
#[local] Instance healthy : World := fun _ => true.

(** An array whose elements are at the multiples of 1000. *)
Definition JS_ATOM_length : Z := 50.
Definition put (a f v : Z) (x : JSRuntime (V := Z)) : option (JSRuntime (V := Z)) :=
  '(r, s) ← add_property x 1 a f; i ← r; store_value s 1 i v.
Definition sparse_array (n : nat) : option (JSRuntime (V := Z)) :=
  '(_, s) ← JS_NewObjectProtoClass init_shape_hash None;
  s ← put JS_ATOM_length 2 (1000 * Z.of_nat n) s;
  foldM (fun s i => put (index_atom (1000 * Z.of_nat i)) 7 (Z.of_nat i) s) (seq 0 n) s.
(** The indices of the elements and the length. *)
Definition elements (s : JSRuntime (V := Z)) : option (list Z * option Z) :=
  w ← view s 1; Some (omap (fun e => atom_index (fst (fst e))) (v_props w), x ← head (v_props w); snd x).

Example sparse_length : (s ← sparse_array 12; '(r, _, s) ← set_array_length s 1 None 0 true; e ← elements s; Some (r, e)) = Some (Some true, ([8000; 9000; 10000; 11000], Some 0)).
Proof. vm_compute. reflexivity. Qed.

(** ** A dense array *)

Definition dense_array : client (request Z) (reply Z) :=
  Call (New None) (fun r => match r with
  | Created q => Call (Add q JS_ATOM_length 2 3) (fun _ => Call (Add q (index_atom 0) 7 10) (fun _ => Call (Add q (index_atom 1) 7 11) (fun _ =>
      Call (Add q (index_atom 2) 7 12) (fun _ => Stop))))
  | _ => Stop
  end).

Lemma dense_array_careful : careful allowed answers (fun _ => None) dense_array.
Proof.
  cbn. split; [done|]. intros r m1 A1. destruct r as [|p| |]; try done. destruct (created_view _ _ _ _ A1) as (P1 & _ & _).
  assert (S1 : is_Some (m1 p)) by (rewrite P1; by eexists). split; [by split|]. intros r m2 A2. pose proof (answers_keep _ _ _ _ p A2 ltac:(done) S1) as S2.
  split; [by split|]. intros r' m3 A3. pose proof (answers_keep _ _ _ _ p A3 ltac:(done) S2) as S3. split; [by split|]. intros r4 m4 A4.
  pose proof (answers_keep _ _ _ _ p A4 ltac:(done) S3) as S4. split; [by split|]. done.
Qed.

(** What the theorem asks of the array. *)
Definition dense_facts (s : JSRuntime (V := Z)) : option (Z * Z * option Z * Z) :=
  o ← objects s !! 1; sh ← shapes s !! shape o; e ← content (shape_prop sh) !! 0%nat; v ← prop o !! 0%nat; Some (e, v, prop_count sh).

Lemma dense_facts_some s la fl v c : dense_facts s = Some (la, fl, v, c) ->
  exists o sh, at_object s 1 o sh /\ entry_at sh 0 la fl /\ prop o !! 0%nat = Some v /\ prop_count sh = c.
Proof.
  unfold dense_facts, at_object, entry_at. destruct (objects s !! 1) as [o|]; [|done]. cbn [mbind option_bind]. destruct (shapes s !! shape o) as [sh|] eqn:Es; [|done]. cbn [mbind option_bind].
  destruct (content (shape_prop sh) !! 0%nat) as [e|] eqn:Ee; [|done]. cbn [mbind option_bind]. destruct (prop o !! 0%nat) as [x|] eqn:Ev; [|done]. cbn [mbind option_bind].
  intros E. injection E as -> -> <-. by exists o, sh.
Qed.

Lemma array_truncated_witness : match run_client (perform 0) init_shape_hash dense_array with
  | Some (_, s) => exists c s', set_array_length s 1 None 1 true = Some (if 1 <? c then None else Some true, None, s') /\ 1 <= c <= 3
  | None => False
  end.
Proof.
  assert (Hx : (x ← run_client (perform 0) init_shape_hash dense_array; dense_facts (snd x)) = Some (JS_ATOM_length, 2, Some 3, 4)) by (vm_compute; reflexivity).
  destruct (client_spec 0 5 dense_array) as (rs & s & m & E & _ & _ & _ & Hinv); [done|vm_compute; repeat (first [exact I|intros []])|apply dense_array_careful|].
  rewrite E in Hx |- *. clear E. cbn [mbind option_bind snd] in Hx. destruct (dense_facts_some _ _ _ _ _ Hx) as (o & sh & Hat & He & Hv & Hc).
  destruct (array_truncated 10 s 1 o sh JS_ATOM_length 2 3 3 1 true) as (c & s' & Er & Hb & _); try done; [rewrite Hc; lia|]. by exists c, s'.
Defined.

Example dense_length : (x ← run_client (perform 0) init_shape_hash dense_array; '(r, _, s) ← set_array_length (snd x) 1 None 1 true; e ← elements s; Some (r, e)) = Some (Some true, ([0], Some 1)).
Proof. vm_compute. reflexivity. Qed.
