(* ===== verification/Runs.v ===== *)
(** * Code that ends

    [runs m Q]: the computation [m] returns, without undefined behaviour, a result with [Q].
    A computation is proved call by call, from the specifications of the calls. *)
From S2P Require Export Prelude.

Definition runs {X} (m : option X) (Q : X -> Prop) : Prop := exists x, m = Some x /\ Q x.

Lemma runs_ret {X} (x : X) (Q : X -> Prop) : Q x -> runs (Some x) Q.
Proof. intros H. by exists x. Qed.

Lemma runs_bind {X Y} (m : option X) (f : X -> option Y) (Q : X -> Prop) (R : Y -> Prop) :
  runs m Q -> (forall x, Q x -> runs (f x) R) -> runs (m ≫= f) R.
Proof. intros (x & -> & HQ) Hf. exact (Hf x HQ). Qed.

Lemma runs_mono {X} (m : option X) (Q R : X -> Prop) : runs m Q -> (forall x, Q x -> R x) -> runs m R.
Proof. intros (x & E & HQ) H. exists x. auto. Qed.

Lemma runs_some {X Y} (m : option X) x (f : X -> option Y) (R : Y -> Prop) : m = Some x -> runs (f x) R -> runs (m ≫= f) R.
Proof. by intros ->. Qed.

Lemma runs_guard {P : Prop} `{Decision P} {Y} (f : P -> option Y) (R : Y -> Prop) (HP : P) :
  (forall p, runs (f p) R) -> runs (guard P ≫= f) R.
Proof. intros Hf. case_guard; [apply Hf|done]. Qed.

(** The specification [H] of the first call, and the names of its results. *)
Tactic Notation "call" uconstr(H) "as" simple_intropattern_list(p) :=
  eapply runs_bind; [eapply H|intros p; cbv beta iota].
