(* ===== verification/Bytes.v ===== *)
(** * Bytes

    The little-endian reads of [src/quickjs/cutils.h], as accesses to an array of bytes. *)
From S2P Require Export Prelude.

Section bytes.
Context (buf : list Z).

Definition get_u8 (pos : Z) : option Z := guard (0 <= pos);; buf !! Z.to_nat pos.
Definition get_u16 (pos : Z) : option Z := a ← get_u8 pos; b ← get_u8 (pos + 1); Some (a + 256 * b).
Definition get_u32 (pos : Z) : option Z := a ← get_u16 pos; b ← get_u16 (pos + 2); Some (a + 65536 * b).
End bytes.
