(* ===== verification/Checked.v ===== *)
(** * Code that returns early

    [Checked E A]: undefined behaviour ([None]), an early return with [E], or a value. *)
From S2P Require Export Runs.

Abbreviation Checked E A := (option (E + A)).
Definition throw {E A} (e : E) : Checked E A := Some (inl e).
Definition ret {E A} (x : A) : Checked E A := Some (inr x).
Definition ebind {E A B} (m : Checked E A) (f : A -> Checked E B) : Checked E B :=
  m ≫= fun r => match r with inl e => throw e | inr x => f x end.
Notation "x ←! m ; k" := (ebind m (fun x => k)) (at level 20, m at level 100, k at level 200, right associativity).
Notation "' x ←! m ; k" := (ebind m (fun x => k)) (at level 20, x pattern, m at level 100, k at level 200, right associativity).
