(* ===== verification/Rqsort.v ===== *)
(** * Sorting

    [rqsort] of [src/quickjs/cutils.c], with its fallback [heapsortx].  The array is a list
    and the pointers into it are indices, in elements.  The comparison is a function of the
    caller: it has a state (it may run guest code), it may write the two elements that it is
    given (the caches of [js_array_cmp_generic]) and nothing says that it is consistent.
    [None] is an access out of the array, a comparison of an element with itself (the two
    pointers would be aliases), an overflow of the stack of segments or a loop that has not
    ended. *)
From S2P Require Export Runs.
#[local] Open Scope nat_scope.

(** ** The code *)

(** An entry of the stack of [rqsort]. *)
Record Segment := { base : nat; count : nat; depth : nat }.

Section definitions.
Context {A St : Type} (cmp : St -> A -> A -> Z * A * A * St).
Abbreviation state := (St * list A)%type.
Implicit Types (σ : state) (stack : list Segment).

(** A call of the comparison on two distinct elements. *)
Definition compare σ (i j : nat) : option (Z * state) :=
  x ← σ.2 !! i;
  y ← σ.2 !! j;
  guard (i <> j);;
  let '(c, x, y, s) := cmp σ.1 x y in
  Some (c, (s, <[j:=y]> (<[i:=x]> σ.2))).

(** The function that [exchange_func] gives. *)
Definition swap σ (i j : nat) : option state :=
  x ← σ.2 !! i;
  y ← σ.2 !! j;
  Some (σ.1, <[j:=x]> (<[i:=y]> σ.2)).

(** The one for blocks of [n] elements. *)
Fixpoint swap_block (n : nat) σ (i j : nat) : option state :=
  match n with
  | O => Some σ
  | S n => σ ← swap σ i j; swap_block n σ (S i) (S j)
  end.

(** The inner loop of [heapsortx]: the element [r] of the heap of [n] elements at [basep]
    goes down. *)
Fixpoint sift (fuel : nat) σ (basep r n : nat) : option state :=
  let c := r * 2 + 1 in
  if decide (c < n) then
    match fuel with
    | O => None
    | S fuel =>
        '(c, σ) ← (if decide (c < n - 1) then
                     '(d, σ) ← compare σ (basep + c) (basep + c + 1);
                     Some (if (d <=? 0)%Z then c + 1 else c, σ)
                   else Some (c, σ));
        '(d, σ) ← compare σ (basep + r) (basep + c);
        if (0 <? d)%Z then Some σ
        else σ ← swap σ (basep + r) (basep + c); sift fuel σ basep c n
    end
  else Some σ.

Fixpoint heapify (i : nat) σ (basep n : nat) : option state :=
  match i with
  | O => Some σ
  | S i => σ ← sift n σ basep i n; heapify i σ basep n
  end.

Fixpoint drain (i : nat) σ (basep : nat) : option state :=
  match i with
  | O => Some σ
  | S i' =>
      σ ← swap σ basep (basep + i);
      σ ← sift i σ basep 0 i;
      drain i' σ basep
  end.

Definition heapsortx σ (basep nmemb : nat) : option state :=
  if decide (1 < nmemb) then
    σ ← heapify (nmemb / 2) σ basep nmemb;
    drain (nmemb - 1) σ basep
  else Some σ.

Definition med3 σ (a b c : nat) : option (nat * state) :=
  '(d, σ) ← compare σ a b;
  if (d <? 0)%Z then
    '(d, σ) ← compare σ b c;
    if (d <? 0)%Z then Some (b, σ)
    else '(d, σ) ← compare σ a c; Some (if (d <? 0)%Z then c else a, σ)
  else
    '(d, σ) ← compare σ b c;
    if (0 <? d)%Z then Some (b, σ)
    else '(d, σ) ← compare σ a c; Some (if (d <? 0)%Z then a else c, σ).

(** The first inner loop of the partition; the results are [i], [lt], [pi] and [plt]. *)
Fixpoint scan_up (fuel : nat) σ (ptr i lt pi plt pj : nat) : option (nat * nat * nat * nat * state) :=
  if decide (pi < pj) then
    match fuel with
    | O => None
    | S fuel =>
        '(c, σ) ← compare σ ptr pi;
        if (0 <=? c)%Z then
          if (c =? 0)%Z then
            σ ← swap σ plt pi;
            scan_up fuel σ ptr (i + 1) (lt + 1) (pi + 1) (plt + 1) pj
          else scan_up fuel σ ptr (i + 1) lt (pi + 1) plt pj
        else Some (i, lt, pi, plt, σ)
    end
  else Some (i, lt, pi, plt, σ).

(** The second one; the results are [gt], [pj] and [pgt]. *)
Fixpoint scan_down σ (ptr pi gt pj pgt : nat) : option (nat * nat * nat * state) :=
  match pj with
  | O => None
  | S pj =>
      if decide (pi < pj) then
        '(c, σ) ← compare σ ptr pj;
        if (c <=? 0)%Z then
          if (c =? 0)%Z then
            σ ← swap σ (pgt - 1) pj;
            scan_down σ ptr pi (gt - 1) pj (pgt - 1)
          else scan_down σ ptr pi gt pj pgt
        else Some (gt, pj, pgt, σ)
      else Some (gt, pj, pgt, σ)
  end.

(** The loop around them; the results are [i], [lt], [gt], [pi], [plt] and [pgt]. *)
Fixpoint scan (fuel : nat) σ (ptr i lt gt pi plt pj pgt : nat) : option (nat * nat * nat * nat * nat * nat * state) :=
  match fuel with
  | O => None
  | S fuel =>
      '(i, lt, pi, plt, σ) ← scan_up (pj - pi) σ ptr i lt pi plt pj;
      '(gt, pj, pgt, σ) ← scan_down σ ptr pi gt pj pgt;
      if decide (pj <= pi) then Some (i, lt, gt, pi, plt, pgt, σ)
      else
        σ ← swap σ pi pj;
        scan fuel σ ptr (i + 1) lt gt (pi + 1) plt pj pgt
  end.

(** The body of [rqsort] from the choice of the pivot to the three parts; the results are
    [lt], [gt] and [pgt]. *)
Definition partition σ (ptr nmemb : nat) : option (nat * nat * nat * state) :=
  let m4 := nmemb / 4 in
  '(m, σ) ← med3 σ (ptr + m4) (ptr + 2 * m4) (ptr + 3 * m4);
  σ ← swap σ ptr m;
  let top := ptr + nmemb in
  '(i, lt, gt, pi, plt, pgt, σ) ← scan nmemb σ ptr 1 1 nmemb (ptr + 1) (ptr + 1) top top;
  let span := plt - ptr in
  let span2 := pi - plt in
  let lt := i - lt in
  let span := if decide (span2 < span) then span2 else span in
  σ ← swap_block span σ ptr (pi - span);
  let span := top - pgt in
  let span2 := pgt - pi in
  let pgt := top - span2 in
  let gt := nmemb - (gt - i) in
  let span := if decide (span2 < span) then span2 else span in
  σ ← swap_block span σ pi (top - span);
  Some (lt, gt, pgt, σ).

(** The stack has 50 entries. *)
Definition push (seg : Segment) stack : option (list Segment) :=
  guard (length stack < 50);; Some (seg :: stack).

(** The loop that splits a segment: the results are [ptr], [nmemb], the stack. *)
Fixpoint split (fuel : nat) σ (ptr nmemb depth : nat) stack : option (nat * nat * list Segment * state) :=
  if decide (6 < nmemb) then
    match fuel with
    | O => None
    | S fuel =>
        let depth := depth + 1 in
        if decide (50 < depth) then
          σ ← heapsortx σ ptr nmemb;
          Some (ptr, 0, stack, σ)
        else
          '(lt, gt, pgt, σ) ← partition σ ptr nmemb;
          if decide (nmemb - gt < lt) then
            stack ← push {| base := ptr; count := lt; depth := depth |} stack;
            split fuel σ pgt (nmemb - gt) depth stack
          else
            stack ← push {| base := pgt; count := nmemb - gt; depth := depth |} stack;
            split fuel σ ptr lt depth stack
    end
  else Some (ptr, nmemb, stack, σ).

(** The insertion sort of the small segments. *)
Fixpoint insert_down σ (ptr pj : nat) : option state :=
  match pj with
  | O => Some σ
  | S pj' =>
      if decide (ptr < pj) then
        '(c, σ) ← compare σ pj' pj;
        if (0 <? c)%Z then σ ← swap σ pj pj'; insert_down σ ptr pj' else Some σ
      else Some σ
  end.

Fixpoint insertion (fuel : nat) σ (ptr pi top : nat) : option state :=
  if decide (pi < top) then
    match fuel with
    | O => None
    | S fuel => σ ← insert_down σ ptr pi; insertion fuel σ ptr (pi + 1) top
    end
  else Some σ.

Fixpoint sort_loop (fuel : nat) σ stack : option state :=
  match stack with
  | [] => Some σ
  | seg :: stack =>
      match fuel with
      | O => None
      | S fuel =>
          '(ptr, nmemb, stack, σ) ← split (count seg) σ (base seg) (count seg) (depth seg) stack;
          σ ← insertion nmemb σ ptr (ptr + 1) (ptr + nmemb);
          sort_loop fuel σ stack
      end
  end.

Definition rqsort σ (nmemb : nat) : option state :=
  if decide (nmemb < 2) then Some σ
  else sort_loop (S nmemb) σ [{| base := 0; count := nmemb; depth := 0 |}].
End definitions.

Definition pure_cmp (_ : unit) (x y : Z) : Z * Z * Z * unit := ((x - y)%Z, x, y, tt).
Example rqsort_ex : rqsort pure_cmp (tt, [5;3;9;1;3;3;7;2;8;0;3;6;4;11;3;3;2;1;15;0]%Z) 20 = Some (tt, [0;0;1;1;2;2;3;3;3;3;3;3;4;5;6;7;8;9;11;15]%Z).
Proof. vm_compute. reflexivity. Qed.
Example heapsort_ex : heapsortx pure_cmp (tt, [5;3;9;1;3;3;7;2;8;0;3;6;4;11;3;3;2;1;15;0]%Z) 0 20 = Some (tt, [0;0;1;1;2;2;3;3;3;3;3;3;4;5;6;7;8;9;11;15]%Z).
Proof. vm_compute. reflexivity. Qed.
