(* ===== verification/RqsortSpec.v ===== *)
(** * What sorting guarantees

    The specification of each loop of [Rqsort].  The comparison is given by its laws: it
    keeps the keys of the elements, and as long as it is [fine] its answers agree with a
    preorder on the keys.  Each loop stays in its segment of the array and only exchanges
    elements, whatever the comparison answers; when the comparison is still fine at the end,
    the segment is sorted. *)
From S2P Require Export Rqsort.
#[local] Open Scope nat_scope.

(** ** The comparison *)

Class Comparison {A K St : Type} (cmp : St -> A -> A -> Z * A * A * St)
    (key : A -> K) (fine : St -> Prop) (le : K -> K -> Prop) := {
  cmp_keys s x y c x' y' s' : cmp s x y = (c, x', y', s') -> key x' = key x /\ key y' = key y;
  cmp_fine s x y c x' y' s' : cmp s x y = (c, x', y', s') -> fine s' ->
    fine s /\ ((c <= 0)%Z -> le (key x) (key y)) /\ ((0 <= c)%Z -> le (key y) (key x));
  le_preorder :: PreOrder le
}.

(** ** Exchanges of elements *)

Section exchange.
Context {K : Type}.
Implicit Types (l : list K).

Definition transpose (i j a : nat) : nat := if decide (a = i) then j else if decide (a = j) then i else a.

Definition exchange (i j : nat) l : list K :=
  match l !! i, l !! j with Some x, Some y => <[j:=x]> (<[i:=y]> l) | _, _ => l end.

Lemma length_exchange i j l : length (exchange i j l) = length l.
Proof. unfold exchange. destruct (l !! i), (l !! j); by rewrite ?length_insert. Qed.

Lemma lookup_exchange i j l a : i < length l -> j < length l -> exchange i j l !! a = l !! transpose i j a.
Proof.
  intros Hi Hj. unfold exchange, transpose. destruct (lookup_lt_is_Some_2 l i Hi) as [x Ex]. destruct (lookup_lt_is_Some_2 l j Hj) as [y Ey]. rewrite Ex, Ey.
  destruct (decide (a = j)) as [->|Haj]; [rewrite list_lookup_insert_eq by (rewrite length_insert; lia); case_decide; subst; congruence|].
  rewrite list_lookup_insert_ne by done. case_decide as Hai; subst; [by rewrite list_lookup_insert_eq|by rewrite list_lookup_insert_ne].
Qed.

Lemma exchange_permutation i j l : exchange i j l ≡ₚ l.
Proof.
  destruct (decide (i < length l /\ j < length l)) as [[Hi Hj]|Hn].
  - apply Permutation_inj. split; [apply length_exchange|]. exists (transpose i j). split.
    + intros a b. unfold transpose. repeat case_decide; congruence.
    + intros a. by apply lookup_exchange.
  - unfold exchange. destruct (l !! i) eqn:E1, (l !! j) eqn:E2; try done. exfalso. apply Hn. eauto using lookup_lt_Some.
Qed.

(** Exchanges of elements of the segment of [n] elements at [b]. *)
Inductive local (b n : nat) : list K -> list K -> Prop :=
| local_refl l : local b n l l
| local_step i j l l' : b <= i < b + n -> b <= j < b + n -> local b n (exchange i j l) l' -> local b n l l'.

Lemma local_trans b n l1 l2 l3 : local b n l1 l2 -> local b n l2 l3 -> local b n l1 l3.
Proof. induction 1; [done|]. eauto using local_step. Qed.

Lemma local_mono b n b' n' l l' : b' <= b -> b + n <= b' + n' -> local b n l l' -> local b' n' l l'.
Proof. intros Hb Hn. induction 1; [constructor|]. eapply local_step; [..|done]; lia. Qed.

Lemma local_one b n i j l : b <= i < b + n -> b <= j < b + n -> local b n l (exchange i j l).
Proof. intros. eapply local_step; [..|constructor]; done. Qed.

Lemma local_length b n l l' : local b n l l' -> length l' = length l.
Proof. induction 1; [done|]. by rewrite <- (length_exchange i j l). Qed.

Lemma local_permutation b n l l' : local b n l l' -> l' ≡ₚ l.
Proof. induction 1; [done|]. by rewrite <- (exchange_permutation i j l). Qed.

(** Where an element comes from. *)
Lemma local_origin b n l l' : local b n l l' -> b + n <= length l ->
  forall a, exists a', l' !! a = l !! a' /\ (b <= a < b + n -> b <= a' < b + n) /\ (~ b <= a < b + n -> a' = a).
Proof.
  induction 1 as [l|i j l l' Hi Hj Hl IH]; intros Hlen a; [by exists a|]. rewrite length_exchange in IH.
  destruct (IH Hlen a) as (a' & E & H1 & H2). rewrite lookup_exchange in E by lia. exists (transpose i j a'). split; [done|].
  unfold transpose. split; intros Ha; repeat case_decide; subst; try lia; rewrite H2 in * by done; lia.
Qed.
End exchange.
#[export] Hint Resolve local_refl : core.

Ltac index_cases := unfold transpose; repeat case_decide; subst.

Lemma two_elements {A} i j (l : list A) x y : l !! i = Some x -> l !! j = Some y -> i <> j -> exists r, forall x' y', <[j:=y']> (<[i:=x']> l) ≡ₚ x' :: y' :: r.
Proof.
  assert (H : forall i j x y, l !! i = Some x -> l !! j = Some y -> i < j -> exists r, forall x' y', <[j:=y']> (<[i:=x']> l) ≡ₚ x' :: y' :: r).
  { clear. intros i j x y Ex Ey Hij. destruct (list_elem_of_split_length l i x Ex) as (l1 & l2 & -> & ->).
    rewrite lookup_app_r, lookup_cons_ne_0 in Ey by lia. destruct (list_elem_of_split_length l2 _ y Ey) as (l3 & l4 & -> & Hj).
    exists (l1 ++ l3 ++ l4). intros x' y'. rewrite insert_app_r_alt by done. rewrite Nat.sub_diag. cbn [list_insert insert].
    rewrite insert_app_r_alt by lia. replace (j - length l1) with (S (length l3)) by lia.
    change (<[S (length l3):=y']> (x' :: l3 ++ y :: l4)) with (x' :: <[length l3:=y']> (l3 ++ y :: l4)).
    rewrite insert_app_r_alt by done. rewrite Nat.sub_diag. cbn [list_insert insert].
    rewrite (Permutation_app_comm l1 (x' :: _)). cbn. constructor. rewrite <- app_assoc. cbn. rewrite <- Permutation_middle. constructor.
    rewrite app_assoc. apply Permutation_app_comm. }
  intros Ex Ey Hij. destruct (decide (i < j)); [by eapply H|]. destruct (H j i y x) as [r Hr]; try done; [lia|].
  exists r. intros x' y'. rewrite list_insert_insert_ne by done. rewrite Hr. constructor.
Qed.

(** The calls of the comparison and the moves of the elements that lead from a state to
    another; what all of them keep, the sort keeps. *)
Inductive evolves {A St} (cmp : St -> A -> A -> Z * A * A * St) : St * list A -> St * list A -> Prop :=
| evolves_refl σ : evolves cmp σ σ
| evolves_perm s l l' σ : l' ≡ₚ l -> evolves cmp (s, l') σ -> evolves cmp (s, l) σ
| evolves_cmp s x y l c x' y' s' σ : cmp s x y = (c, x', y', s') -> evolves cmp (s', x' :: y' :: l) σ -> evolves cmp (s, x :: y :: l) σ.

Lemma permuted_trans {A St} (cmp : St -> A -> A -> Z * A * A * St) σ1 σ2 σ3 : evolves cmp σ1 σ2 -> evolves cmp σ2 σ3 -> evolves cmp σ1 σ3.
Proof. induction 1; eauto using evolves. Qed.

Section sorting.
Context {A K St : Type} {cmp : St -> A -> A -> Z * A * A * St} {key : A -> K} {fine : St -> Prop} {le : K -> K -> Prop}.
Context {CMP : Comparison cmp key fine le}.
Implicit Types (σ : St * list A) (l : list K).

Definition keys σ : list K := key <$> σ.2.

(** ** Order by index *)

Definition leq l (i j : nat) : Prop := forall x y, l !! i = Some x -> l !! j = Some y -> le x y.

Lemma leq_refl l i : leq l i i.
Proof. intros x y Ex Ey. replace y with x by congruence. reflexivity. Qed.

Lemma leq_trans l i j k : j < length l -> leq l i j -> leq l j k -> leq l i k.
Proof. intros Hj H1 H2 x z Ex Ez. destruct (lookup_lt_is_Some_2 l j Hj) as [y Ey]. transitivity y; eauto. Qed.

Lemma leq_exchange i j l a b : i < length l -> j < length l -> leq (exchange i j l) a b <-> leq l (transpose i j a) (transpose i j b).
Proof. intros Hi Hj. unfold leq. by rewrite !lookup_exchange. Qed.

(** The elements of the segment [b], ..., [t - 1] are in order. *)
Definition sorted_in l (b t : nat) : Prop := forall i j, b <= i -> i < j -> j < t -> leq l i j.

(** ** The calls *)

(** A step of the loops on the segment of [n] elements at [b]. *)
Definition step (b n : nat) σ σ' : Prop := local b n (keys σ) (keys σ') /\ evolves cmp σ σ'.

Lemma step_refl b n σ : step b n σ σ.
Proof. split; constructor. Qed.

Lemma step_trans b n σ1 σ2 σ3 : step b n σ1 σ2 -> step b n σ2 σ3 -> step b n σ1 σ3.
Proof. intros [L1 V1] [L2 V2]. split; [by eapply local_trans|by eapply permuted_trans]. Qed.

Lemma evolves_fine σ σ' : evolves cmp σ σ' -> fine σ'.1 -> fine σ.1.
Proof.
  intros V. induction V as [σ|s l l' σ _ _ IH|s x y l c x' y' s' σ E _ IH]; [done|exact IH|].
  intros F. destruct (cmp_fine _ _ _ _ _ _ _ E (IH F)) as [H _]. exact H.
Qed.

Lemma step_fine b n σ σ' : step b n σ σ' -> fine σ'.1 -> fine σ.1.
Proof. intros [_ V]. by apply evolves_fine. Qed.

Lemma step_mono b n b' n' σ σ' : b' <= b -> b + n <= b' + n' -> step b n σ σ' -> step b' n' σ σ'.
Proof. intros Hb Hn [L V]. split; [by eapply local_mono|done]. Qed.

Lemma step_length b n σ σ' : step b n σ σ' -> length (keys σ') = length (keys σ).
Proof. intros [L _]. by eapply local_length. Qed.

Lemma compare_runs σ i j : i < length (keys σ) -> j < length (keys σ) -> i <> j ->
  runs (compare cmp σ i j) (fun '(c, σ') => keys σ' = keys σ /\ evolves cmp σ σ' /\
    (fine σ'.1 -> fine σ.1 /\ ((c <= 0)%Z -> leq (keys σ) i j) /\ ((0 <= c)%Z -> leq (keys σ) j i))).
Proof.
  unfold keys. rewrite length_fmap. intros Hi Hj Hij. unfold compare.
  destruct (lookup_lt_is_Some_2 _ i Hi) as [x Ex]. destruct (lookup_lt_is_Some_2 _ j Hj) as [y Ey].
  apply (runs_some _ _ _ _ Ex), (runs_some _ _ _ _ Ey), (runs_guard _ _ Hij). intros _.
  destruct (cmp σ.1 x y) as [[[c x'] y'] s'] eqn:E. apply runs_ret. cbn [fst snd].
  destruct (cmp_keys _ _ _ _ _ _ _ E) as [Kx Ky]. split_and!.
  - rewrite !list_fmap_insert, Kx, Ky, !list_insert_id; rewrite ?list_lookup_insert_ne, ?list_lookup_fmap, ?Ex, ?Ey by done; done.
  - destruct (two_elements i j σ.2 x y) as [r Hr]; [done..|]. destruct σ as [s arr]. cbn [fst snd] in *.
    apply (evolves_perm _ _ _ (x :: y :: r)).
    { rewrite <- (Hr x y), (list_insert_id arr i x Ex), (list_insert_id arr j y Ey). done. }
    eapply evolves_cmp; [exact E|]. apply (evolves_perm _ _ _ (<[j:=y']> (<[i:=x']> arr))); [apply Hr|constructor].
  - intros F. destruct (cmp_fine _ _ _ _ _ _ _ E F) as (F0 & H1 & H2). split; [done|]. unfold leq. rewrite !list_lookup_fmap, Ex, Ey. cbn.
    split; intros Hc ? ? [= <-] [= <-]; auto.
Qed.

Lemma swap_runs σ i j : i < length (keys σ) -> j < length (keys σ) ->
  runs (swap σ i j) (fun σ' => σ'.1 = σ.1 /\ keys σ' = exchange i j (keys σ) /\ evolves cmp σ σ').
Proof.
  unfold keys. rewrite length_fmap. intros Hi Hj. unfold swap.
  destruct (lookup_lt_is_Some_2 _ i Hi) as [x Ex]. destruct (lookup_lt_is_Some_2 _ j Hj) as [y Ey].
  apply (runs_some _ _ _ _ Ex), (runs_some _ _ _ _ Ey), runs_ret. cbn [fst snd]. split_and!; [done| |].
  - unfold exchange. by rewrite !list_lookup_fmap, Ex, Ey, !list_fmap_insert.
  - pose proof (exchange_permutation i j σ.2) as P. unfold exchange in P. rewrite Ex, Ey in P. destruct σ as [s arr]. by eapply evolves_perm, evolves_refl.
Qed.

Lemma step_compare b n σ σ' : keys σ' = keys σ -> evolves cmp σ σ' -> step b n σ σ'.
Proof. intros E V. split; [by rewrite E|done]. Qed.

Lemma step_swap b n i j σ σ' : b <= i < b + n -> b <= j < b + n -> keys σ' = exchange i j (keys σ) -> evolves cmp σ σ' -> step b n σ σ'.
Proof. intros Hi Hj E V. split; [rewrite E; by apply local_one|done]. Qed.

(** ** Insertion sort *)

(** [sorted_in] but for the element at [pj], which may be too small for its place. *)
Definition sorted_but l (b t pj : nat) : Prop := forall i j, b <= i -> i < j -> j < t -> j <> pj -> leq l i j.

Lemma insert_down_runs ptr t pj : ptr <= pj < t -> forall σ, t <= length (keys σ) ->
  (fine σ.1 -> sorted_but (keys σ) ptr t pj) ->
  runs (insert_down cmp σ ptr pj) (fun σ' => step ptr (t - ptr) σ σ' /\ (fine σ'.1 -> sorted_in (keys σ') ptr t)).
Proof.
  induction pj as [|pj IH]; intros Hpj σ Hlen Hs; cbn [insert_down].
  { apply runs_ret. split; [apply step_refl|]. intros F i j Hi Hij Hj. apply Hs; [done..|lia]. }
  case_decide as Hp; cycle 1.
  { apply runs_ret. split; [apply step_refl|]. intros F i j Hi Hij Hj. apply Hs; [done..|lia]. }
  call (compare_runs σ pj (S pj)) as [c σ1] (K1 & V1 & F1); try lia. destruct (Z.ltb_spec 0 c) as [Hc|Hc].
  - call (swap_runs σ1 (S pj) pj) as σ2 (S2 & K2 & V2); rewrite ?K1; try lia.
    eapply runs_mono; [apply IH; [lia|rewrite K2, length_exchange, K1; lia|]|].
    + rewrite S2, K2, K1. intros F i j Hi Hij Hj Hne. destruct (F1 F) as (F0 & _ & Hle). specialize (Hs F0). rewrite leq_exchange by lia.
      index_cases; try lia; try (apply Hle; lia); try (apply Hs; lia).
    + intros σ3 [T3 Hs3]. split; [|done]. eapply step_trans, T3. eapply step_trans; [by apply (step_compare _ _ σ σ1 K1)|].
      apply (step_swap _ _ (S pj) pj); try done; lia.
  - apply runs_ret. split; [by apply step_compare|]. rewrite K1. intros F i j Hi Hij Hj.
    destruct (F1 F) as (F0 & Hle & _). specialize (Hs F0). destruct (decide (j = S pj)) as [->|]; [|by apply Hs].
    destruct (decide (i = pj)) as [->|]; [by apply Hle|]. apply (leq_trans _ _ pj); [lia| |by apply Hle]. apply Hs; lia.
Qed.

Lemma insertion_runs ptr top fuel : forall pi σ, ptr < pi -> top - pi <= fuel -> top <= length (keys σ) ->
  (fine σ.1 -> sorted_in (keys σ) ptr (pi `min` top)) ->
  runs (insertion cmp fuel σ ptr pi top) (fun σ' => step ptr (top - ptr) σ σ' /\ (fine σ'.1 -> sorted_in (keys σ') ptr top)).
Proof.
  induction fuel as [|fuel IH]; intros pi σ Hpi Hf Hlen Hs; cbn [insertion]; case_decide as Hd; try lia.
  1, 3: apply runs_ret; split; [apply step_refl|]; by rewrite Nat.min_r in Hs by lia.
  call (insert_down_runs ptr (pi + 1) pi) as σ1 [T1 S1]; [lia..| |].
  { intros F i j Hi Hij Hj Hne. apply Hs; [done..|lia]. }
  eapply runs_mono; [apply IH; [lia..| |]|].
  - by rewrite (step_length _ _ _ _ T1).
  - intros F. replace ((pi + 1) `min` top) with (pi + 1) by lia. auto.
  - intros σ2 [T2 S2]. split; [|done]. eapply step_trans, T2. eapply step_mono, T1; lia.
Qed.

(** ** Heap sort *)

(** The heap of [n] elements at [b]: the nodes [lo] and above are in order with their children. *)
Definition child (p c : nat) : Prop := c = p * 2 + 1 \/ c = p * 2 + 2.
Definition heap l (b lo n : nat) : Prop := forall p c, lo <= p -> c < n -> child p c -> leq l (b + c) (b + p).

(** The node [r] may be too small for its place. *)
Definition heap_but l (b lo n r : nat) : Prop :=
  (forall p c, lo <= p -> c < n -> child p c -> p <> r -> leq l (b + c) (b + p)) /\
  (forall p c, lo <= p -> c < n -> child p r -> child r c -> leq l (b + c) (b + p)).

Lemma sift_runs basep lo n fuel : forall r σ, lo <= r -> n - r <= fuel -> basep + n <= length (keys σ) ->
  (fine σ.1 -> heap_but (keys σ) basep lo n r) ->
  runs (sift cmp fuel σ basep r n) (fun σ' => step basep n σ σ' /\ (fine σ'.1 -> heap (keys σ') basep lo n)).
Proof.
  induction fuel as [|fuel IH]; intros r σ Hr Hf Hlen Hs; cbn [sift]; case_decide as Hc; try lia.
  1, 3: apply runs_ret; split; [apply step_refl|]; intros F p c Hp Hcn Hpc; destruct (Hs F) as [H1 _]; apply H1; [done..|unfold child in Hpc; lia].
  eapply (runs_bind _ _ (fun '(c, σ1) => child r c /\ c < n /\ keys σ1 = keys σ /\ evolves cmp σ σ1 /\
    (fine σ1.1 -> fine σ.1 /\ forall c', child r c' -> c' < n -> leq (keys σ) (basep + c') (basep + c)))).
  { case_decide as Hc2.
    - call (compare_runs σ (basep + (r * 2 + 1)) (basep + (r * 2 + 1) + 1)) as [d σ1] (K1 & V1 & F1); try lia.
      apply runs_ret. split_and!; [destruct (Z.leb_spec d 0); unfold child; lia|destruct (Z.leb_spec d 0); lia|done|done|].
      intros F. destruct (F1 F) as (F0 & H1 & H2). split; [done|]. intros c' Hc' Hn'.
      destruct (Z.leb_spec d 0) as [Hd|Hd], Hc' as [->| ->]; try apply leq_refl.
      + replace (basep + (r * 2 + 1 + 1)) with (basep + (r * 2 + 1) + 1) by lia. by apply H1.
      + replace (basep + (r * 2 + 2)) with (basep + (r * 2 + 1 + 1)) by lia. apply leq_refl.
      + replace (basep + (r * 2 + 2)) with (basep + (r * 2 + 1) + 1) by lia. apply H2. lia.
    - apply runs_ret. split_and!; [by left|done|done|constructor|]. intros F. split; [done|]. intros c' Hc' Hn'.
      replace c' with (r * 2 + 1) by (unfold child in *; lia). apply leq_refl. }
  intros [c σ1] (Hcr & Hcn & K1 & V1 & F1). call (compare_runs σ1 (basep + r) (basep + c)) as [d σ2] (K2 & V2 & F2); rewrite ?K1; try (unfold child in Hcr; lia).
  rewrite K1 in K2, F2. destruct (Z.ltb_spec 0 d) as [Hd|Hd].
  - apply runs_ret. split; [apply step_compare; [done|by eapply permuted_trans]|]. rewrite K2. intros F p c' Hp Hc' Hpc.
    destruct (F2 F) as (F0 & _ & Hle). destruct (F1 F0) as (F' & Hmax). destruct (Hs F') as [H1 H2].
    destruct (decide (p = r)) as [->|]; [|by apply H1]. apply (leq_trans _ _ (basep + c)); [lia|by apply Hmax|apply Hle; lia].
  - call (swap_runs σ2 (basep + r) (basep + c)) as σ3 (S3 & K3 & V3); rewrite ?K2; try (unfold child in Hcr; lia).
    eapply runs_mono; [apply (IH c); [unfold child in Hcr; lia..|rewrite K3, length_exchange, K2; lia|]|].
    + rewrite S3, K3, K2. intros F. destruct (F2 F) as (F0 & Hle & _). destruct (F1 F0) as (F' & Hmax). destruct (Hs F') as [H1 H2]. split.
      * intros p c' Hp Hc' Hpc Hne. rewrite leq_exchange by (unfold child in *; lia). unfold child in Hcr, Hpc.
        index_cases; try lia.
        -- apply (H2 p c); unfold child; lia.
        -- apply Hle. lia.
        -- replace p with r by lia. apply Hmax; unfold child; lia.
        -- apply H1; unfold child; lia.
      * intros p c' Hp Hc' Hpc Hc2. rewrite leq_exchange by (unfold child in *; lia). unfold child in Hcr, Hpc, Hc2.
        index_cases; try lia.
        -- apply (H1 c c'); unfold child; lia.
    + intros σ4 [T4 H4]. split; [|done]. eapply step_trans, T4. eapply step_trans, (step_swap _ _ (basep + r) (basep + c) σ2 σ3); unfold child in Hcr; try done; try lia.
      apply step_compare; [done|by eapply permuted_trans].
Qed.

Lemma heapify_runs basep n i : forall σ, i <= n -> basep + n <= length (keys σ) -> (fine σ.1 -> heap (keys σ) basep i n) ->
  runs (heapify cmp i σ basep n) (fun σ' => step basep n σ σ' /\ (fine σ'.1 -> heap (keys σ') basep 0 n)).
Proof.
  induction i as [|i IH]; intros σ Hi Hlen Hs; cbn [heapify].
  { apply runs_ret. split; [apply step_refl|done]. }
  call (sift_runs basep i n n i) as σ1 [T1 H1]; [lia..| |].
  { intros F. split; [intros p c Hp Hc Hpc Hne; apply Hs; [done|lia|done|done]|]. intros p c Hp Hc Hpi. unfold child in Hpi. lia. }
  eapply runs_mono; [apply IH; [lia|by rewrite (step_length _ _ _ _ T1)|done]|].
  intros σ2 [T2 H2]. split; [by eapply step_trans|done].
Qed.

Lemma heap_top l b n c : heap l b 0 n -> c < n -> b + n <= length l -> leq l (b + c) (b + 0).
Proof.
  intros Hh. induction c as [c IH] using (well_founded_ind lt_wf). intros Hc Hlen. destruct (decide (c = 0)) as [->|]; [apply leq_refl|].
  assert (child ((c - 1) / 2) c) as Hp. { unfold child. pose proof (Nat.div_mod_eq (c - 1) 2). pose proof (Nat.mod_upper_bound (c - 1) 2). lia. }
  assert ((c - 1) / 2 < c) by (unfold child in Hp; lia). apply (leq_trans _ _ (b + (c - 1) / 2)); [lia|apply Hh; [lia|done|done]|]. apply IH; lia.
Qed.

(** The elements [from], ..., [t - 1] are in place. *)
Definition in_place l (b from t : nat) : Prop := forall i j, b <= i -> i < j -> from <= j -> j < t -> leq l i j.

Lemma drain_runs basep n i : forall σ, i < n -> basep + n <= length (keys σ) ->
  (fine σ.1 -> heap (keys σ) basep 0 (i + 1) /\ in_place (keys σ) basep (basep + i + 1) (basep + n)) ->
  runs (drain cmp i σ basep) (fun σ' => step basep n σ σ' /\ (fine σ'.1 -> sorted_in (keys σ') basep (basep + n))).
Proof.
  induction i as [|i IH]; intros σ Hi Hlen Hs; cbn [drain].
  { apply runs_ret. split; [apply step_refl|]. intros F j k Hj Hjk Hk. apply (Hs F); lia. }
  call (swap_runs σ basep (basep + S i)) as σ1 (S1 & K1 & V1); try lia.
  call (sift_runs basep 0 (S i) (S i) 0) as σ2 [T2 H2]; [lia..|rewrite K1, length_exchange; lia| |].
  { rewrite S1, K1. intros F. destruct (Hs F) as [Hh _]. split; [|intros p c _ _ Hp; unfold child in Hp; lia].
    intros p c Hp Hc Hpc Hne. rewrite leq_exchange by (unfold child in *; lia). unfold child in Hpc. index_cases; try lia. apply Hh; unfold child; lia. }
  pose proof (step_length _ _ _ _ T2) as L2. rewrite K1, length_exchange in L2.
  assert (T12 : step basep (S (S i)) σ σ2).
  { eapply step_trans; [apply (step_swap _ _ basep (basep + S i)); try done; lia|]. eapply step_mono, T2; lia. }
  eapply runs_mono; [apply IH; [lia|lia|]|].
  - intros F. split; [replace (i + 1) with (S i) by lia; auto|]. assert (F1 : fine σ1.1) by (by apply (step_fine _ _ _ _ T2)).
    rewrite S1 in F1. destruct (Hs F1) as [Hh Hp]. intros j k Hj Hjk Hk Hkn. destruct T2 as [L _].
    assert (O : forall a, exists a', keys σ2 !! a = keys σ1 !! a' /\ (basep <= a < basep + S i -> basep <= a' < basep + S i) /\ (~ basep <= a < basep + S i -> a' = a)).
    { intros a. apply (local_origin _ _ _ _ L). rewrite K1, length_exchange. lia. }
    destruct (O j) as (j' & Ej & Hj1 & Hj2). destruct (O k) as (k' & Ek & _ & Hk2). rewrite Hk2 in Ek by lia. clear O.
    unfold leq. rewrite Ej, Ek, K1, !lookup_exchange by lia. change (leq (keys σ) (transpose basep (basep + S i) j') (transpose basep (basep + S i) k)).
    assert (j' <= j \/ j' < basep + S i) by lia. assert (basep <= j') by (destruct (decide (j < basep + S i)); [lia|rewrite Hj2 by lia; lia]).
    destruct (decide (k = basep + S i)) as [->|].
    + assert (top : forall a, basep <= a < basep + S (S i) -> leq (keys σ) a basep).
      { intros a Ha. replace a with (basep + (a - basep)) by lia. rewrite <- (Nat.add_0_r basep) at 3. apply (heap_top _ _ (S i + 1)); [done|lia|lia]. }
      assert (j' < basep + S i) by lia. index_cases; try lia; try apply leq_refl; apply top; lia.
    + assert (transpose basep (basep + S i) k = k) as -> by (index_cases; lia). apply Hp; [|..|lia|lia]; index_cases; lia.
  - intros σ3 [T3 H3]. split; [|done]. eapply step_trans, T3. eapply step_mono, T12; lia.
Qed.

Lemma heapsortx_runs σ basep n : basep + n <= length (keys σ) ->
  runs (heapsortx cmp σ basep n) (fun σ' => step basep n σ σ' /\ (fine σ'.1 -> sorted_in (keys σ') basep (basep + n))).
Proof.
  intros Hlen. unfold heapsortx. case_decide as Hn; cycle 1.
  { apply runs_ret. split; [apply step_refl|]. intros _ i j Hi Hij Hj. lia. }
  pose proof (Nat.div_mod_eq n 2). pose proof (Nat.mod_upper_bound n 2).
  call (heapify_runs basep n (n / 2) σ) as σ1 [T1 H1]; [lia|lia| |].
  { intros _ p c Hp Hc Hpc. unfold child in Hpc. lia. }
  eapply runs_mono; [apply (drain_runs basep n (n - 1)); [lia|by rewrite (step_length _ _ _ _ T1)|]|].
  - intros F. replace (n - 1 + 1) with n by lia. split; [auto|]. intros i j Hi Hij Hj Hjn. lia.
  - intros σ2 [T2 H2]. split; [by eapply step_trans|done].
Qed.
End sorting.
