(* ===== verification/RqsortParts.v ===== *)
(** * The partition and the stack of segments

    One round of [rqsort] splits its segment in three parts around a pivot; the stack holds
    the segments that are left, disjoint, and any two elements that are not in the same one
    are in order. *)
From S2P Require Export RqsortSpec.
#[local] Open Scope nat_scope.

(** ** Parts of an array *)

Section parts.
Context {K : Type}.
Implicit Types (l : list K) (P Q : K -> Prop).

Definition has P l (a : nat) : Prop := forall x, l !! a = Some x -> P x.
(** The elements from [b] to [t] excluded have [P]. *)
Definition on P l (b t : nat) : Prop := forall a, b <= a -> a < t -> has P l a.

Lemma has_exchange P l i j a : i < length l -> j < length l -> has P (exchange i j l) a <-> has P l (transpose i j a).
Proof. intros Hi Hj. unfold has. by rewrite lookup_exchange. Qed.

Lemma on_exchange P l b t i j : i < length l -> j < length l ->
  (forall a, b <= a -> a < t -> has P l (transpose i j a)) -> on P (exchange i j l) b t.
Proof. intros Hi Hj H a Ha Hat. rewrite has_exchange by done. by apply H. Qed.

Lemma on_empty P l b t : t <= b -> on P l b t.
Proof. intros H a Ha Hb. lia. Qed.

Lemma on_mono P l b t b' t' : b' <= b -> t <= t' -> on P l b' t' -> on P l b t.
Proof. intros Hb Ht H a Ha Hat. apply H; lia. Qed.

Lemma on_last P l b t : on P l b t -> has P l t -> on P l b (t + 1).
Proof. intros H1 H2 a Ha Hat. destruct (decide (a = t)) as [->|]; [done|]. apply H1; lia. Qed.

Lemma on_first P l b t : on P l (S b) t -> has P l b -> on P l b t.
Proof. intros H1 H2 a Ha Hat. destruct (decide (a = b)) as [->|]; [done|]. apply H1; lia. Qed.

Lemma has_and P Q l a : has (fun x => P x /\ Q x) l a <-> has P l a /\ has Q l a.
Proof. unfold has. firstorder. Qed.

(** The exchange of two blocks. *)
Definition block (n i j a : nat) : nat :=
  if decide (i <= a /\ a < i + n) then a - i + j else if decide (j <= a /\ a < j + n) then a - j + i else a.

(** It turns [d] elements and the [e] next ones around. *)
Lemma block_rotation s b d e : s <= d /\ s <= e /\ (s = d \/ s = e) ->
  (forall a, b <= a < b + e -> b + d <= block s b (b + d + e - s) a < b + d + e) /\
  (forall a, b + e <= a < b + d + e -> b <= block s b (b + d + e - s) a < b + d) /\
  (forall a, ~ b <= a < b + d + e -> block s b (b + d + e - s) a = a).
Proof. intros H. unfold block. split_and!; intros a Ha; repeat case_decide; lia. Qed.

Lemma local_has b n l l' P : local b n l l' -> b + n <= length l -> on P l b (b + n) -> on P l' b (b + n).
Proof.
  intros L Hlen H a Ha Hb x Ex. destruct (local_origin _ _ _ _ L Hlen a) as (a' & E & Ha' & _). rewrite E in Ex.
  apply (H a'); [lia..|done].
Qed.
End parts.

Section partition.
Context {A K St : Type} {cmp : St -> A -> A -> Z * A * A * St} {key : A -> K} {fine : St -> Prop} {le : K -> K -> Prop}.
Context {CMP : Comparison cmp key fine le}.
Implicit Types (σ : St * list A) (l : list K).
Abbreviation keys := (keys (key := key)).
Abbreviation leq := (leq (le := le)).
Abbreviation step := (step (cmp := cmp) (key := key)).

Abbreviation below p := (fun x => le x p).
Abbreviation above p := (le p).
Abbreviation equal p := (fun x => le x p /\ le p x).

Lemma has_leq l i a p : l !! i = Some p -> leq l a i -> has (below p) l a.
Proof. intros E H x Ex. by apply H. Qed.
Lemma leq_has l i a p : l !! i = Some p -> leq l i a -> has (above p) l a.
Proof. intros E H x Ex. by apply H. Qed.

(** The invariant of the scan: equal, smaller, not yet seen, greater, equal. *)
Definition parted p l (ptr plt pi pj pgt top : nat) : Prop :=
  l !! ptr = Some p /\ on (equal p) l ptr plt /\ on (below p) l plt pi /\ on (above p) l pj pgt /\ on (equal p) l pgt top.

Lemma parted_up p l ptr plt pi pj pgt top : ptr < plt <= pi -> pi < pj <= pgt -> pgt <= top -> top <= length l ->
  parted p l ptr plt pi pj pgt top -> has (equal p) l pi -> parted p (exchange plt pi l) ptr (plt + 1) (pi + 1) pj pgt top.
Proof.
  intros H1 H2 H3 Hlen (Hp & E1 & L & G & E2) He. split_and!.
  - rewrite lookup_exchange by lia. index_cases; try lia. done.
  - apply on_exchange; [lia..|]. intros a Ha Hat. index_cases; try lia; [done..|]. apply E1; lia.
  - apply on_exchange; [lia..|]. intros a Ha Hat. apply has_and in He as [He _]. index_cases; try lia; try apply L; lia.
  - apply on_exchange; [lia..|]. intros a Ha Hat. index_cases; try lia. apply G; lia.
  - apply on_exchange; [lia..|]. intros a Ha Hat. index_cases; try lia. apply E2; lia.
Qed.

Lemma parted_down p l ptr plt pi pj pgt top : ptr < plt <= pi -> pi < pj -> S pj <= pgt <= top -> top <= length l ->
  parted p l ptr plt pi (S pj) pgt top -> has (equal p) l pj -> parted p (exchange (pgt - 1) pj l) ptr plt pi pj (pgt - 1) top.
Proof.
  intros H1 H2 H3 Hlen (Hp & E1 & L & G & E2) He. split_and!.
  - rewrite lookup_exchange by lia. index_cases; try lia. done.
  - apply on_exchange; [lia..|]. intros a Ha Hat. index_cases; try lia. apply E1; lia.
  - apply on_exchange; [lia..|]. intros a Ha Hat. index_cases; try lia. apply L; lia.
  - apply on_exchange; [lia..|]. intros a Ha Hat. apply has_and in He as [_ He]. index_cases; try lia; try apply G; lia.
  - apply on_exchange; [lia..|]. intros a Ha Hat. index_cases; try lia; [done..|]. apply E2; lia.
Qed.

Lemma parted_swap p l ptr plt pi pj pgt top : ptr < plt <= pi -> pi < pj -> S pj <= pgt <= top -> top <= length l ->
  parted p l ptr plt pi (S pj) pgt top -> has (above p) l pi -> has (below p) l pj -> parted p (exchange pi pj l) ptr plt (pi + 1) pj pgt top.
Proof.
  intros H1 H2 H3 Hlen (Hp & E1 & L & G & E2) Ha Hb. split_and!.
  - rewrite lookup_exchange by lia. index_cases; try lia. done.
  - apply on_exchange; [lia..|]. intros a Hpa Hat. index_cases; try lia. apply E1; lia.
  - apply on_exchange; [lia..|]. intros a Hpa Hat. index_cases; try lia; try done. apply L; lia.
  - apply on_exchange; [lia..|]. intros a Hpa Hat. index_cases; try lia; try done. apply G; lia.
  - apply on_exchange; [lia..|]. intros a Hpa Hat. index_cases; try lia. apply E2; lia.
Qed.

(** ** The scan *)

Lemma scan_up_runs p ptr pj pgt n fuel : pj <= pgt <= ptr + n -> forall σ i lt pi plt,
  pi = ptr + i -> plt = ptr + lt -> 0 < lt <= i -> pi <= pj -> pj - pi <= fuel -> ptr + n <= length (keys σ) ->
  (fine σ.1 -> parted p (keys σ) ptr plt pi pj pgt (ptr + n)) ->
  runs (scan_up cmp fuel σ ptr i lt pi plt pj) (fun '(i', lt', pi', plt', σ') => step ptr n σ σ' /\
    pi' = ptr + i' /\ plt' = ptr + lt' /\ 0 < lt' <= i' /\ i <= i' /\ pi' <= pj /\ (fine σ'.1 -> parted p (keys σ') ptr plt' pi' pj pgt (ptr + n) /\
    (pi' < pj -> has (above p) (keys σ') pi'))).
Proof.
  intros Hj. induction fuel as [|fuel IH]; intros σ i lt pi plt -> -> Hi Hij Hf Hlen Hs; cbn [scan_up]; case_decide as Hd; try lia.
  1, 3: apply runs_ret; split_and!; try done; try lia; [apply step_refl|]; intros F; split; [by apply Hs|lia].
  call (compare_runs σ ptr (ptr + i)) as [c σ1] (K1 & V1 & F1); try lia.
  assert (T1 : step ptr n σ σ1) by (by apply step_compare).
  destruct (Z.leb_spec 0 c) as [Hc|Hc]; cycle 1.
  { apply runs_ret. split_and!; try done; try lia. rewrite K1. intros F. destruct (F1 F) as (F0 & H1 & _). split; [by apply Hs|].
    intros _. apply (leq_has _ ptr); [by apply Hs|]. apply H1. lia. }
  destruct (Z.eqb_spec c 0) as [Hc0|Hc0].
  - call (swap_runs (cmp := cmp) (key := key) σ1 (ptr + lt) (ptr + i)) as σ2 (S2 & K2 & V2); rewrite ?K1; try lia. rewrite K1 in K2.
    assert (T2 : step ptr n σ σ2). { eapply step_trans; [done|]. apply (step_swap _ _ (ptr + lt) (ptr + i)); rewrite ?K1; try done; try lia. }
    eapply runs_mono; [apply (IH σ2 (i + 1) (lt + 1)); try lia; [by rewrite (step_length _ _ _ _ T2)|]|].
    + rewrite S2, K2. intros F. destruct (F1 F) as (F0 & H1 & H2). apply parted_up; try lia; [by apply Hs|].
      apply has_and. split; [eapply has_leq; [by apply Hs|apply H2; lia]|eapply leq_has; [by apply Hs|apply H1; lia]].
    + intros [[[[i' lt'] pi'] plt'] σ3] (T3 & E1 & E2 & E3 & E4 & E5 & H). split_and!; try done; try lia; by eapply step_trans.
  - eapply runs_mono; [apply (IH σ1 (i + 1) lt); try lia; [by rewrite K1|]|].
    + rewrite K1. intros F. destruct (F1 F) as (F0 & _ & H2). destruct (Hs F0) as (Hp & E1 & L & G & E2). split_and!; try done.
      apply on_last; [done|]. eapply has_leq; [done|auto].
    + intros [[[[i' lt'] pi'] plt'] σ3] (T3 & E1 & E2 & E3 & E4 & E5 & H). split_and!; try done; try lia; by eapply step_trans.
Qed.

Lemma scan_down_runs p ptr pi plt n : ptr < plt <= pi -> forall pj σ gt pgt,
  pi <= pj <= pgt -> pgt = ptr + gt -> gt <= n -> ptr + n <= length (keys σ) ->
  (fine σ.1 -> parted p (keys σ) ptr plt pi pj pgt (ptr + n)) ->
  runs (scan_down cmp σ ptr pi gt pj pgt) (fun '(gt', pj', pgt', σ') => step ptr n σ σ' /\
    pgt' = ptr + gt' /\ gt' <= n /\ pj' < pj /\ pi <= S pj' <= pgt' /\ keys σ' !! pi = keys σ !! pi /\
    (fine σ'.1 -> parted p (keys σ') ptr plt pi (S pj') pgt' (ptr + n) /\ (pi < pj' -> has (below p) (keys σ') pj'))).
Proof.
  intros Hplt. induction pj as [|pj IH]; intros σ gt pgt Hj -> Hn Hlen Hs; cbn [scan_down]; [lia|]. case_decide as Hd; cycle 1.
  { apply runs_ret. split_and!; try done; try lia; [apply step_refl|]. intros F. split; [by apply Hs|lia]. }
  call (compare_runs σ ptr pj) as [c σ1] (K1 & V1 & F1); try lia.
  assert (T1 : step ptr n σ σ1) by (by apply step_compare).
  destruct (Z.leb_spec c 0) as [Hc|Hc]; cycle 1.
  { apply runs_ret. split_and!; try done; try lia; [by rewrite K1|]. rewrite K1. intros F. destruct (F1 F) as (F0 & _ & H1). split; [by apply Hs|].
    intros _. apply (has_leq _ ptr); [by apply Hs|]. apply H1. lia. }
  destruct (Z.eqb_spec c 0) as [Hc0|Hc0].
  - call (swap_runs (cmp := cmp) (key := key) σ1 (ptr + gt - 1) pj) as σ2 (S2 & K2 & V2); rewrite ?K1; try lia. rewrite K1 in K2.
    assert (T2 : step ptr n σ σ2). { eapply step_trans; [done|]. apply (step_swap _ _ (ptr + gt - 1) pj); rewrite ?K1; try done; try lia. }
    eapply runs_mono; [apply (IH σ2 (gt - 1)); try lia; [by rewrite (step_length _ _ _ _ T2)|]|].
    + rewrite S2, K2. intros F. destruct (F1 F) as (F0 & H1 & H2). apply parted_down; try lia; [by apply Hs|].
      apply has_and. split; [eapply has_leq; [by apply Hs|apply H2; lia]|eapply leq_has; [by apply Hs|apply H1; lia]].
    + intros [[[gt' pj'] pgt'] σ3] (T3 & E1 & E2 & E3 & E4 & E5 & H). split_and!; try lia; [by eapply step_trans| |exact H].
      rewrite E5, K2, lookup_exchange by lia. index_cases; try lia. done.
  - eapply runs_mono; [apply (IH σ1 gt); try lia; [by rewrite K1|]|].
    + rewrite K1. intros F. destruct (F1 F) as (F0 & H1 & _). destruct (Hs F0) as (Hp & E1 & L & G & E2). split_and!; try done.
      apply on_first; [done|]. eapply leq_has; [done|auto].
    + intros [[[gt' pj'] pgt'] σ3] (T3 & E1 & E2 & E3 & E4 & E5 & H). split_and!; try lia; [by eapply step_trans| |exact H]. by rewrite E5, K1.
Qed.

Lemma scan_runs p ptr n fuel : forall σ i lt gt pi plt pj pgt,
  pi = ptr + i -> plt = ptr + lt -> pgt = ptr + gt -> 0 < lt <= i -> pi <= pj <= pgt -> gt <= n -> pj - pi < fuel ->
  ptr + n <= length (keys σ) -> (fine σ.1 -> parted p (keys σ) ptr plt pi pj pgt (ptr + n)) ->
  runs (scan cmp fuel σ ptr i lt gt pi plt pj pgt) (fun '(i, lt, gt, pi, plt, pgt, σ') => step ptr n σ σ' /\
    pi = ptr + i /\ plt = ptr + lt /\ pgt = ptr + gt /\ 0 < lt <= i /\ i <= gt <= n /\
    (fine σ'.1 -> parted p (keys σ') ptr plt pi pi pgt (ptr + n))).
Proof.
  induction fuel as [|fuel IH]; intros σ i lt gt pi plt pj pgt -> -> -> Hi Hj Hn Hf Hlen Hs; cbn [scan]; [lia|].
  call (scan_up_runs p ptr pj (ptr + gt) n (pj - (ptr + i))) as [[[[i1 lt1] pi1] plt1] σ1] (T1 & -> & -> & Hi1 & Hii & Hj1 & H1); try done; try lia.
  pose proof (step_length _ _ _ _ T1) as L1.
  call (scan_down_runs p ptr (ptr + i1) (ptr + lt1) n) as [[[gt2 pj2] pgt2] σ2] (T2 & -> & Hn2 & Hj2 & Hj2' & E2 & H2); try done; try lia.
  { intros F. by apply H1. }
  pose proof (step_length _ _ _ _ T2) as L2. assert (T12 : step ptr n σ σ2) by (by eapply step_trans).
  assert (H1' : fine σ2.1 -> ptr + i1 < pj -> has (above p) (keys σ2) (ptr + i1)).
  { intros F Hlt x Ex. rewrite E2 in Ex. apply (H1 (step_fine _ _ _ _ T2 F)); done. }
  case_decide as Hd.
  - apply runs_ret. split_and!; try done; try lia. intros F. destruct (H2 F) as [(Hp & E1 & L & G & E3) _]. split_and!; try done.
    destruct (decide (ptr + i1 = S pj2)) as [->|]; [done|]. replace pj2 with (ptr + i1) in * by lia. apply on_first; [done|]. apply H1'; [done|lia].
  - call (swap_runs (cmp := cmp) (key := key) σ2 (ptr + i1) pj2) as σ3 (S3 & K3 & V3); try lia.
    assert (T3 : step ptr n σ σ3). { eapply step_trans; [exact T12|]. apply (step_swap _ _ (ptr + i1) pj2); try done; lia. }
    eapply runs_mono; [apply (IH σ3 (i1 + 1) lt1 gt2); try lia; [by rewrite (step_length _ _ _ _ T3)|]|].
    + rewrite S3, K3. intros F. destruct (H2 F) as [H3 H4]. apply parted_swap; try done; try lia; [apply H1'; [done|lia]|apply H4; lia].
    + intros [[[[[[i' lt'] gt'] pi'] plt'] pgt'] σ4] (T4 & H). split; [by eapply step_trans|exact H].
Qed.

(** ** The three parts *)

Lemma med3_runs σ a b c : a < length (keys σ) -> b < length (keys σ) -> c < length (keys σ) -> a <> b -> b <> c -> a <> c ->
  runs (med3 cmp σ a b c) (fun '(m, σ') => keys σ' = keys σ /\ evolves cmp σ σ' /\ (m = a \/ m = b \/ m = c)).
Proof.
  intros Ha Hb Hc Hab Hbc Hac. unfold med3.
  call (compare_runs σ a b) as [d1 σ1] (K1 & V1 & F1); try done.
  destruct (d1 <? 0)%Z; (call (compare_runs σ1 b c) as [d2 σ2] (K2 & V2 & F2); [rewrite K1; done..|done|]);
    [destruct (d2 <? 0)%Z|destruct (0 <? d2)%Z].
  1, 3: apply runs_ret; rewrite K2, K1; split_and!; [done|by eapply permuted_trans|tauto].
  all: call (compare_runs σ2 a c) as [d3 σ3] (K3 & V3 & F3); [rewrite K2, K1; done..|done|]; apply runs_ret; rewrite K3, K2, K1;
    split_and!; [done|by eapply permuted_trans, permuted_trans|destruct (d3 <? 0)%Z; tauto].
Qed.

Lemma swap_block_runs n : forall σ i j, i + n <= j -> j + n <= length (keys σ) ->
  runs (swap_block n σ i j) (fun σ' => evolves cmp σ σ' /\ length (keys σ') = length (keys σ) /\
    (forall a, keys σ' !! a = keys σ !! block n i j a) /\ (forall b m, b <= i -> j + n <= b + m -> local b m (keys σ) (keys σ'))).
Proof.
  induction n as [|n IH]; intros σ i j Hij Hlen; cbn [swap_block].
  { apply runs_ret. split_and!; [constructor|done| |done]. intros a. f_equal. unfold block. repeat case_decide; lia. }
  call (swap_runs (cmp := cmp) (key := key) σ i j) as σ1 (S1 & K1 & V1); try lia.
  eapply runs_mono; [apply IH; [lia|rewrite K1, length_exchange; lia]|].
  intros σ2 (S2 & L2 & E2 & T2). split_and!; [by eapply permuted_trans|by rewrite L2, K1, length_exchange| |].
  - intros a. rewrite E2, K1, lookup_exchange by lia. f_equal. unfold block. index_cases; lia.
  - intros b m Hb Hm. eapply local_trans, T2; try lia. rewrite K1. apply local_one; lia.
Qed.

Lemma partition_runs σ ptr n : 6 < n -> ptr + n <= length (keys σ) ->
  runs (partition cmp σ ptr n) (fun '(lt, gt, pgt, σ') => step ptr n σ σ' /\ lt < gt <= n /\ pgt = ptr + gt /\
    (fine σ'.1 -> exists p, on (below p) (keys σ') ptr (ptr + lt) /\ on (equal p) (keys σ') (ptr + lt) pgt /\
      on (above p) (keys σ') pgt (ptr + n))).
Proof.
  intros Hn Hlen. unfold partition. set (m4 := n / 4).
  assert (Hm4 : 0 < m4 /\ 4 * m4 <= n). { unfold m4. pose proof (Nat.div_mod_eq n 4). pose proof (Nat.mod_upper_bound n 4). lia. }
  clearbody m4. cbv zeta. call (med3_runs σ (ptr + m4) (ptr + 2 * m4) (ptr + 3 * m4)) as [m σ0] (K0 & V0 & Hm); try lia.
  call (swap_runs (cmp := cmp) (key := key) σ0 ptr m) as σ1 (S1 & K1 & V1); rewrite ?K0; try lia. rewrite K0 in K1.
  assert (T1 : step ptr n σ σ1). { split; [rewrite K1; apply local_one; lia|by eapply permuted_trans]. }
  pose proof (step_length _ _ _ _ T1) as L1. destruct (lookup_lt_is_Some_2 (keys σ1) ptr) as [p Ep]; [lia|].
  call (scan_runs p ptr n n) as [[[[[[i lt] gt] pi] plt] pgt] σ2] (T2 & -> & -> & -> & Hlt & Hgt & H2); try reflexivity; try lia.
  { intros _. split_and!; [done|..]; try (apply on_empty; lia). intros a Ha Hat x Ex. replace a with ptr in Ex by lia. replace x with p by congruence. done. }
  pose proof (step_length _ _ _ _ T2) as L2.
  set (s1 := if decide (_ < ptr + lt - ptr) then _ else _). assert (Hs1 : s1 <= lt /\ s1 <= i - lt /\ (s1 = lt \/ s1 = i - lt)) by (unfold s1; case_decide; lia).
  clearbody s1. call (swap_block_runs s1) as σ3 (S3 & L3 & E3 & Hl3); try lia.
  set (s2 := if decide (_ < ptr + n - (ptr + gt)) then _ else _).
  assert (Hs2 : s2 <= n - gt /\ s2 <= gt - i /\ (s2 = n - gt \/ s2 = gt - i)) by (unfold s2; case_decide; lia).
  clearbody s2. call (swap_block_runs s2) as σ4 (S4 & L4 & E4 & Hl4); try lia.
  apply runs_ret. split_and!; try lia.
  { eapply step_trans; [exact T1|]. eapply step_trans; [exact T2|]. split; [|by eapply permuted_trans]. eapply local_trans; [apply Hl3; lia|apply Hl4; lia]. }
  intros F. assert (F2 : fine σ2.1) by (apply (evolves_fine (cmp := cmp) (key := key) (le := le) σ2 σ4); [by eapply permuted_trans|done]). destruct (H2 F2) as (_ & Q1 & Q2 & Q3 & Q4). exists p.
  replace (ptr + i - s1) with (ptr + lt + (i - lt) - s1) in E3 by lia. replace (ptr + n - s2) with (ptr + i + (gt - i) + (n - gt) - s2) in E4 by lia.
  destruct (block_rotation s1 ptr lt (i - lt)) as (B1 & B2 & B3); [tauto|]. destruct (block_rotation s2 (ptr + i) (gt - i) (n - gt)) as (C1 & C2 & C3); [tauto|].
  clear Hs1 Hs2 Hm Hm4 Hl3 Hl4. split_and!; intros a Ha Hat x Ex; rewrite E4, E3 in Ex.
  - rewrite C3 in Ex by lia. specialize (B1 a ltac:(lia)). apply (Q2 _) in Ex; [done|lia..].
  - destruct (decide (a < ptr + i)).
    + rewrite C3 in Ex by lia. specialize (B2 a ltac:(lia)). apply (Q1 _) in Ex; [done|lia..].
    + specialize (C1 a ltac:(lia)). rewrite B3 in Ex by lia. apply (Q4 _) in Ex; [done|lia..].
  - specialize (C2 a ltac:(lia)). rewrite B3 in Ex by lia. apply (Q3 _) in Ex; [done|lia..].
Qed.
End partition.
