(* ===== verification/RqsortProof.v ===== *)
(** * [rqsort] sorts

    The stack of segments: disjoint, small enough for its 50 entries, and covering the
    pairs of elements that may be out of order. *)
From S2P Require Export RqsortParts.
#[local] Open Scope nat_scope.

(** ** Segments *)

Definition within (a : nat) (s : Segment) : Prop := base s <= a /\ a < base s + count s.
Definition apart (s t : Segment) : Prop := base s + count s <= base t \/ base t + count t <= base s.
Definition inside (s t : Segment) : Prop := base t <= base s /\ base s + count s <= base t + count t.

(** The entry with [k] others below it has at most [n / 2 ^ k] elements. *)
Fixpoint fits (n : nat) (stack : list Segment) : Prop :=
  match stack with [] => True | s :: stack => (Z.of_nat (count s) * 2 ^ Z.of_nat (length stack) <= Z.of_nat n)%Z /\ fits n stack end.

(** The number of segments that can still be taken from the stack. *)
Fixpoint load (stack : list Segment) : nat := match stack with [] => 0 | s :: stack => count s + 1 + load stack end.

Section rqsort.
Context {A K St : Type} {cmp : St -> A -> A -> Z * A * A * St} {key : A -> K} {fine : St -> Prop} {le : K -> K -> Prop}.
Context {CMP : Comparison cmp key fine le}.
Implicit Types (σ : St * list A) (l : list K) (s t : Segment) (segs : list Segment).
Abbreviation keys := (keys (key := key)).
Abbreviation leq := (leq (le := le)).
Abbreviation step := (step (cmp := cmp) (key := key)).

(** Two elements of the first [n] are in the same segment, or in order. *)
Definition pending l n segs : Prop := forall i j, i < j -> j < n -> (exists s, s ∈ segs /\ within i s /\ within j s) \/ leq l i j.

Definition disjoint_segs segs : Prop := ForallOrdPairs apart segs.

Lemma apart_comm s t : apart s t -> apart t s.
Proof. unfold apart. lia. Qed.

Lemma disjoint_cons s segs : disjoint_segs (s :: segs) <-> (forall t, t ∈ segs -> apart s t) /\ disjoint_segs segs.
Proof.
  split.
  - intros H. inversion H as [|? ? H1 H2]; subst. split; [|done]. by rewrite Forall_forall in H1.
  - intros [H1 H2]. constructor; [by rewrite Forall_forall|done].
Qed.

(** Work inside of the first segment leaves the segments [parts] of it. *)
Lemma pending_refine l l' n s segs parts : s.(base) + s.(count) <= n -> n <= length l -> disjoint_segs (s :: segs) ->
  pending l n (s :: segs) -> local (base s) (count s) l l' ->
  (forall i j, within i s -> within j s -> i < j -> (exists t, t ∈ parts /\ within i t /\ within j t) \/ leq l' i j) ->
  pending l' n (parts ++ segs).
Proof.
  intros Hs Hn Hd Hp Hl Hin i j Hij Hj. apply disjoint_cons in Hd as [Hd _].
  destruct (decide (base s <= i /\ i < base s + count s /\ base s <= j /\ j < base s + count s)) as [(H1 & H2 & H3 & H4)|Hno].
  { destruct (Hin i j) as [(t & Ht & Hw)|]; [by split..|done| |by right]. left. exists t. split; [|done]. apply elem_of_app. by left. }
  destruct (local_origin _ _ _ _ Hl) with (a := i) as (i' & Ei & I1 & I2); [lia|].
  destruct (local_origin _ _ _ _ Hl) with (a := j) as (j' & Ej & J1 & J2); [lia|].
  assert (Hout : forall t, t ∈ s :: segs -> within i' t -> within j' t -> t ∈ segs /\ within i t /\ within j t).
  { intros t Ht Hi Hjt. apply elem_of_cons in Ht as [->|Ht]; [unfold within in *; lia|]. split; [done|]. specialize (Hd t Ht).
    unfold within, apart in *. split; [destruct (decide (i' = i))|destruct (decide (j' = j))]; subst; lia. }
  destruct (Hp i' j') as [(t & Ht & Hi & Hjt)|Hle]; [lia..| |].
  - destruct (Hout t) as (Ht' & Hw); try done. left. exists t. split; [apply elem_of_app; by right|done].
  - right. unfold leq, RqsortSpec.leq. by rewrite Ei, Ej.
Qed.

(** ** The stack *)

Record stack_ok (n : nat) segs : Prop := {
  so_disjoint : disjoint_segs segs;
  so_bound : forall s, s ∈ segs -> base s + count s <= n;
  so_fits : fits n segs
}.

Lemma stack_ok_cons n s segs : stack_ok n (s :: segs) <->
  stack_ok n segs /\ base s + count s <= n /\ (forall t, t ∈ segs -> apart s t) /\ (Z.of_nat (count s) * 2 ^ Z.of_nat (length segs) <= Z.of_nat n)%Z.
Proof.
  split.
  - intros [[H1 H2]%disjoint_cons Hb [Hf1 Hf2]]. split_and!; try done; [split; try done|]; intros; apply Hb; by constructor.
  - intros ([H2 Hb Hf2] & Hs & H1 & Hf1). split; [by apply disjoint_cons| |done]. intros t [->|Ht]%elem_of_cons; auto.
Qed.

(** A shorter segment in the place of the first one. *)
Lemma stack_ok_inside n s s' segs : stack_ok n (s :: segs) -> inside s' s -> stack_ok n (s' :: segs).
Proof.
  rewrite !stack_ok_cons. intros (H & Hs & Ha & Hf) [H1 H2]. split_and!; try done; [lia| |].
  - intros t Ht. specialize (Ha t Ht). unfold apart in *. lia.
  - etransitivity; [|exact Hf]. apply Z.mul_le_mono_nonneg_r; [|lia]. pose proof (pow2_pos (Z.of_nat (length segs))). lia.
Qed.

(** The greater part of a segment is pushed and the smaller one is the next one. *)
Lemma stack_ok_push n s big small segs : stack_ok n (s :: segs) -> inside big s -> inside small s -> apart small big -> 2 * count small <= count s ->
  stack_ok n (small :: big :: segs).
Proof.
  intros H Hb Hs Ha Hc. pose proof (stack_ok_inside _ _ _ _ H Hs) as H1. pose proof (stack_ok_inside _ _ _ _ H Hb) as H2.
  apply stack_ok_cons. apply stack_ok_cons in H as (_ & _ & _ & Hf). apply stack_ok_cons in H1 as (_ & Hb1 & Ha1 & _). split_and!; try done.
  - intros t [->|Ht]%elem_of_cons; auto.
  - cbn [length]. replace (Z.of_nat (S (length segs))) with (Z.of_nat (length segs) + 1)%Z by lia.
    rewrite Z.pow_add_r by lia. pose proof (pow2_pos (Z.of_nat (length segs)) ltac:(lia)). nia.
Qed.

Lemma push_runs n s segs seg : (Z.of_nat n < 7 * 2 ^ 50)%Z -> stack_ok n (s :: segs) -> 6 < count s ->
  runs (push seg segs) (fun stack => stack = seg :: segs).
Proof.
  intros Hn (_ & _ & _ & Hf)%stack_ok_cons Hc. unfold push. assert (Hl : length segs < 50).
  { destruct (decide (length segs < 50)) as [|Hge]; [done|]. exfalso.
    pose proof (Z.pow_le_mono_r 2 50 (Z.of_nat (length segs))). nia. }
  apply (runs_guard _ _ Hl). intros _. by apply runs_ret.
Qed.

(** The three parts leave the first and the last one to be sorted. *)
Lemma parts_pending p l s lt gt small big segs : lt <= gt <= count s ->
  on (fun x => le x p) l (base s) (base s + lt) -> on (fun x => le x p /\ le p x) l (base s + lt) (base s + gt) ->
  on (le p) l (base s + gt) (base s + count s) ->
  (forall a, a < base s + lt -> within a s -> within a small) -> (forall a, base s + gt <= a -> within a s -> within a big) ->
  small ∈ segs -> big ∈ segs ->
  forall i j, within i s -> within j s -> i < j -> (exists t, t ∈ segs /\ within i t /\ within j t) \/ leq l i j.
Proof.
  intros Hlt L E G Hsmall Hbig Hs Hb i j Hi Hj Hij. unfold within in Hi, Hj.
  destruct (decide (j < base s + lt)); [left; exists small; split_and!; try done; apply Hsmall; (done || lia)|].
  destruct (decide (base s + gt <= i)); [left; exists big; split_and!; try done; apply Hbig; (done || lia)|].
  right. intros x y Ex Ey. transitivity p.
  - destruct (decide (i < base s + lt)); [apply (L i); (done || lia)|apply (E i); (done || lia)].
  - destruct (decide (base s + gt <= j)); [apply (G j); (done || lia)|apply (E j); (done || lia)].
Qed.

(** ** The loops *)

Context (n : nat) (Hbig : (Z.of_nat n < 7 * 2 ^ 50)%Z).

(** The state between two rounds. *)
Definition ready σ segs : Prop := stack_ok n segs /\ n <= length (keys σ) /\ (fine σ.1 -> pending (keys σ) n segs).

(** A round on the first segment. *)
Lemma ready_step σ σ' s segs parts : ready σ (s :: segs) -> step (base s) (count s) σ σ' -> stack_ok n (parts ++ segs) ->
  (fine σ'.1 -> forall i j, within i s -> within j s -> i < j -> (exists t, t ∈ parts /\ within i t /\ within j t) \/ leq (keys σ') i j) ->
  ready σ' (parts ++ segs) /\ step 0 n σ σ'.
Proof.
  intros (Hok & Hlen & Hp) T Hok' Hin. pose proof (step_length _ _ _ _ T) as L. pose proof Hok as (Hok1 & Hb & _)%stack_ok_cons.
  split; [|eapply step_mono, T; lia]. split_and!; [done|by rewrite L|].
  intros F. pose proof (step_fine _ _ _ _ T F). destruct T as [T _]. eapply pending_refine; eauto. apply Hok.
Qed.

Lemma split_runs fuel : forall σ ptr m d stack, m <= fuel -> ready σ ({| base := ptr; count := m; depth := d |} :: stack) ->
  runs (split cmp fuel σ ptr m d stack) (fun '(ptr', m', stack', σ') => step 0 n σ σ' /\
    load stack' + m' <= load stack + m /\ exists d', ready σ' ({| base := ptr'; count := m'; depth := d' |} :: stack')).
Proof.
  induction fuel as [|fuel IH]; intros σ ptr m d stack Hf Hr; cbn [split]; case_decide as Hm; try lia.
  1, 3: apply runs_ret; split_and!; [apply step_refl|done|by exists d].
  set (s := {| base := ptr; count := m; depth := d |}) in *. pose proof Hr as (Hok & Hlen & Hp).
  pose proof Hok as (_ & Hb & _)%stack_ok_cons. cbn [base count s] in Hb. case_decide as Hd.
  { call (heapsortx_runs σ ptr m) as σ1 [T1 S1]; [lia|]. apply runs_ret.
    destruct (ready_step σ σ1 s stack [{| base := ptr; count := 0; depth := d |}]) as [Hr1 T]; try done.
    - apply (stack_ok_inside _ s); [done|]. split; cbn; lia.
    - intros F i j Hi Hj Hij. right. unfold within in *. cbn [base count s] in *. apply S1; (done || lia).
    - split_and!; [done|lia|by exists d]. }
  call (partition_runs σ ptr m) as [[[lt gt] pgt] σ1] (T1 & Hlt & -> & H1); [lia..|].
  set (L := {| base := ptr; count := lt; depth := d + 1 |}). set (G := {| base := ptr + gt; count := m - gt; depth := d + 1 |}).
  assert (HLG : inside L s /\ inside G s /\ apart L G) by (unfold inside, apart; cbn; lia). destruct HLG as (HL & HG & HA).
  assert (Hparts : forall parts : list Segment, L ∈ parts -> G ∈ parts -> fine σ1.1 ->
    forall i j, within i s -> within j s -> i < j -> (exists t, t ∈ parts /\ within i t /\ within j t) \/ leq (keys σ1) i j).
  { intros parts H2 H3 F. destruct (H1 F) as (p & P1 & P2 & P3). apply (parts_pending p _ s lt gt L G); cbn [base count s]; try done; try lia.
    all: intros a Ha Hs; unfold within in *; cbn [base count s L G] in *; lia. }
  case_decide as Hc.
  - call (push_runs n s stack L) as ? ->; try done.
    destruct (ready_step σ σ1 s stack [G; L]) as [Hr1 T]; try done; [|apply Hparts; repeat constructor|].
    { apply (stack_ok_push _ s); try done; [by apply apart_comm|cbn; lia]. }
    eapply runs_mono; [apply IH; [lia|exact Hr1]|]. intros [[[ptr' m'] stack'] σ'] (T2 & Hl & Hr2).
    split_and!; [by eapply step_trans|cbn [load count L] in Hl; lia|done].
  - call (push_runs n s stack G) as ? ->; try done.
    destruct (ready_step σ σ1 s stack [L; G]) as [Hr1 T]; try done; [|apply Hparts; repeat constructor|].
    { apply (stack_ok_push _ s); try done. cbn; lia. }
    eapply runs_mono; [apply IH; [lia|exact Hr1]|]. intros [[[ptr' m'] stack'] σ'] (T2 & Hl & Hr2).
    split_and!; [by eapply step_trans|cbn [load count G] in Hl; lia|done].
Qed.

Lemma sort_loop_runs fuel : forall σ stack, load stack <= fuel -> ready σ stack ->
  runs (sort_loop cmp fuel σ stack) (fun σ' => step 0 n σ σ' /\ (fine σ'.1 -> sorted_in (le := le) (keys σ') 0 n)).
Proof.
  induction fuel as [|fuel IH]; intros σ [|s stack] Hf Hr; cbn [sort_loop load] in *; try lia.
  1, 2: apply runs_ret; split; [apply step_refl|]; intros F i j _ Hij Hj; destruct Hr as (_ & _ & Hp);
    destruct (Hp F i j Hij Hj) as [(t & Ht & _)|]; [by apply not_elem_of_nil in Ht|done].
  call (split_runs (count s)) as [[[ptr m] stack1] σ1] (T1 & Hl & d & Hr1); [done|by destruct s|].
  pose proof Hr1 as (Hok & Hlen & _). pose proof Hok as (Hok1 & Hb & _)%stack_ok_cons. cbn [base count] in Hb.
  call (insertion_runs ptr (ptr + m) m (ptr + 1)) as σ2 [T2 S2]; [lia..| |].
  { intros _ i j Hi Hij Hj. lia. }
  replace (ptr + m - ptr) with m in T2 by lia.
  destruct (ready_step σ1 σ2 {| base := ptr; count := m; depth := d |} stack1 []) as [Hr2 T]; try done.
  { intros F i j Hi Hj Hij. right. unfold within in *. cbn [base count] in *. apply S2; (done || lia). }
  eapply runs_mono; [apply IH; [lia|exact Hr2]|]. intros σ3 [T3 S3]. split; [|done].
  eapply step_trans; [exact T1|]. by eapply step_trans.
Qed.

Lemma rqsort_runs σ : n <= length (keys σ) ->
  runs (rqsort cmp σ n) (fun σ' => step 0 n σ σ' /\ (fine σ'.1 -> sorted_in (le := le) (keys σ') 0 n)).
Proof.
  intros Hlen. unfold rqsort. case_decide as Hn.
  { apply runs_ret. split; [apply step_refl|]. intros _ i j _ Hij Hj. lia. }
  apply sort_loop_runs; [cbn; lia|]. split_and!; [|done|].
  - apply stack_ok_cons. split_and!; [|cbn; lia|intros t Ht; by apply not_elem_of_nil in Ht|cbn; lia].
    split; [constructor|intros t Ht; by apply not_elem_of_nil in Ht|done].
  - intros _ i j Hij Hj. left. eexists. split; [apply list_elem_of_here|]. unfold within. cbn. lia.
Qed.
End rqsort.
(** ** The whole sort *)

Lemma local_prefix {K} n (l l' : list K) : local 0 n l l' -> n <= length l -> take n l' ≡ₚ take n l /\ drop n l' = drop n l.
Proof.
  induction 1 as [l|i j l l' Hi Hj Hl IH]; intros Hn; [done|]. rewrite length_exchange in IH. destruct (IH Hn) as [IH1 IH2]. rewrite IH1, IH2.
  assert (E : exchange i j l = exchange i j (take n l) ++ drop n l).
  { unfold exchange. rewrite !lookup_take_lt by lia.
    destruct (lookup_lt_is_Some_2 l i) as [x Ex]; [lia|]. destruct (lookup_lt_is_Some_2 l j) as [y Ey]; [lia|]. rewrite Ex, Ey.
    rewrite <- (take_drop n l) at 1. rewrite !insert_app_l; [done|rewrite ?length_insert, length_take; lia..]. }
  rewrite E. split.
  - rewrite take_app_length' by (rewrite length_exchange, length_take; lia). apply exchange_permutation.
  - rewrite drop_app_length' by (rewrite length_exchange, length_take; lia). done.
Qed.

(** What [rqsort] leaves in the array. *)
Definition sorted_array {A K} (key : A -> K) (le : K -> K -> Prop) (sorted : Prop) (n : nat) (arr arr' : list A) : Prop :=
  length arr' = length arr /\ key <$> take n arr' ≡ₚ key <$> take n arr /\ key <$> drop n arr' = key <$> drop n arr /\
  (sorted -> forall i j x y, i < j -> j < n -> arr' !! i = Some x -> arr' !! j = Some y -> le (key x) (key y)).

Lemma rqsort_spec {A K St} {cmp : St -> A -> A -> Z * A * A * St} {key : A -> K} {fine : St -> Prop} {le : K -> K -> Prop}
    {CMP : Comparison cmp key fine le} s arr n : n <= length arr -> (Z.of_nat n < 7 * 2 ^ 50)%Z ->
  exists s' arr', rqsort cmp (s, arr) n = Some (s', arr') /\ evolves cmp (s, arr) (s', arr') /\ sorted_array key le (fine s') n arr arr'.
Proof.
  intros Hlen Hn. destruct (rqsort_runs n Hn (s, arr)) as ([s' arr'] & E & [T V] & S); [unfold keys; by rewrite length_fmap|].
  exists s', arr'. split; [done|]. split; [done|]. pose proof (local_length _ _ _ _ T) as L. unfold keys in *. cbn [fst snd] in *. rewrite !length_fmap in L.
  apply local_prefix in T as [P D]; [|by rewrite length_fmap]. rewrite <- !fmap_take in P. rewrite <- !fmap_drop in D. split_and!; try done.
  intros Hf i j x y Hij Hj Ex Ey. apply (S Hf i j); [lia..| |]; by rewrite list_lookup_fmap, ?Ex, ?Ey.
Qed.

(** C33: for any comparison, also one that contradicts itself or runs code of the guest,
    [rqsort] ends, stays in the array and in its stack of 50 segments, and only exchanges
    elements; when the answers of the comparison are those of a preorder, the array is
    sorted. *)
Theorem rqsort_correct {A K St} (cmp : St -> A -> A -> Z * A * A * St) (key : A -> K) (fine : St -> Prop) (le : K -> K -> Prop)
    (CMP : Comparison cmp key fine le) s arr n : n <= length arr -> (Z.of_nat n < 7 * 2 ^ 50)%Z ->
  exists s' arr', rqsort cmp (s, arr) n = Some (s', arr') /\ evolves cmp (s, arr) (s', arr') /\ sorted_array key le (fine s') n arr arr'.
Proof. apply rqsort_spec. Qed.

#[local] Instance pure_cmp_order : Comparison pure_cmp (fun x => x) (fun _ => True) Z.le.
Proof.
  split.
  - by intros ? ? ? ? ? ? ? [= <- <- <- <-].
  - intros ? ? ? ? ? ? ? [= <- <- <- <-] _. lia.
  - apply _.
Qed.

Lemma rqsort_correct_witness :
  exists s' arr', rqsort pure_cmp (tt, [5; 3; 9; 1; 3; 7; 2; 8; 0]%Z) 9 = Some (s', arr') /\ evolves pure_cmp (tt, [5; 3; 9; 1; 3; 7; 2; 8; 0]%Z) (s', arr') /\
    sorted_array (fun x => x) Z.le True 9 [5; 3; 9; 1; 3; 7; 2; 8; 0]%Z arr'.
Proof. apply (rqsort_correct pure_cmp (fun x => x) (fun _ => True) Z.le _ tt [5; 3; 9; 1; 3; 7; 2; 8; 0]%Z 9); cbn; lia. Defined.
