(* ===== verification/ArraySort.v ===== *)
(** * [Array.prototype.sort]

    [js_array_sort] of [src/quickjs/quickjs.c] with its comparison
    [js_array_cmp_generic], over [rqsort].  The rest of the engine is the class [Guest]: each
    of its calls may run code of the guest and fail, and changes the rest of the machine.
    The references that the sort holds are listed in its state, so that the release of
    one that it does not hold is undefined behaviour. *)
From S2P Require Export RqsortProof Strings Float64.

Record ValueSlot {V : Type} := { val : V; str : option JSString; pos : Z }.
Arguments ValueSlot : clear implicits.

(** What [js_array_sort] calls.  [None] is an exception; the [bool] of a setter tells that it
    failed. *)
Class Guest (V Wd : Type) := {
  JS_UNDEFINED : V;
  JS_MKPTR : JSString -> V;
  memcmp_eq : V -> V -> bool;
  as_int : V -> option Z;
  check_function : V -> Wd -> bool * Wd;
  JS_ToObject : V -> Wd -> option V * Wd;
  js_get_length64 : V -> Wd -> option Z * Wd;
  js_realloc2 : Z -> Wd -> option Z * Wd;
  JS_TryGetPropertyInt64 : V -> Z -> Wd -> option (option V) * Wd;
  JS_SetPropertyInt64 : V -> Z -> V -> Wd -> bool * Wd;
  JS_DeletePropertyInt64 : V -> Z -> Wd -> bool * Wd;
  JS_Call : V -> V -> V -> Wd -> option V * Wd;
  JS_ToFloat64Free : V -> Wd -> option double * Wd;
  JS_ToString : V -> Wd -> option JSString * Wd;
  JS_FreeValueGuest : V -> Wd -> Wd
}.

Section definitions.
Context {V Wd : Type} {EqV : EqDecision V} {G : Guest V Wd}.

(** [array_sort_context], the rest of the machine and the references that are held. *)
Record SortContext := { exception : bool; world : Wd; owned : list V }.

Definition set_world w (s : SortContext) : SortContext := {| exception := exception s; world := w; owned := owned s |}.

Definition JS_IsUndefined (v : V) : bool := bool_decide (v = JS_UNDEFINED).

(** A new reference; [undefined] is not counted. *)
Definition hold (v : V) (s : SortContext) : SortContext :=
  if JS_IsUndefined v then s else {| exception := exception s; world := world s; owned := v :: owned s |}.

Fixpoint take_out (v : V) (l : list V) : option (list V) :=
  match l with
  | [] => None
  | x :: l => if decide (x = v) then Some l else l' ← take_out v l; Some (x :: l')
  end.

(** A reference that is handed over or released. *)
Definition give (v : V) (s : SortContext) : option SortContext :=
  if JS_IsUndefined v then Some s
  else o ← take_out v (owned s); Some {| exception := exception s; world := world s; owned := o |}.

Definition JS_FreeValue (v : V) (s : SortContext) : option SortContext :=
  s ← give v s; Some (set_world (JS_FreeValueGuest v (world s)) s).

Definition throws (s : SortContext) : SortContext := {| exception := true; world := world s; owned := owned s |}.

Definition three_way {X} (gt : X -> X -> bool) (x y : X) : Z := b2z (gt x y) - b2z (gt y x).

(** [ap->str], made at the first comparison. *)
Definition slot_str (ap : ValueSlot V) (s : SortContext) : option JSString * ValueSlot V * SortContext :=
  match str ap with
  | Some p => (Some p, ap, s)
  | None =>
      let '(r, w) := JS_ToString (val ap) (world s) in
      match r with
      | None => (None, ap, set_world w s)
      | Some p => (Some p, {| val := val ap; str := Some p; pos := pos ap |}, hold (JS_MKPTR p) (set_world w s))
      end
  end.

(** The sign of the answer of the method.  An integer is not counted, and any other answer is
    handed over to [JS_ToFloat64Free] at once, so that it never is among [owned]. *)
Definition method_sign (res : V) (w : Wd) : option Z * Wd :=
  match as_int res with
  | Some v => (Some (three_way Z.gtb v 0), w)
  | None =>
      let '(d, w) := JS_ToFloat64Free res w in
      ((fun d => three_way (fun x y => flt y x) d (S754_zero false)) <$> d, w)
  end.

Definition js_array_cmp_generic (method : option V) (s : SortContext) (ap bp : ValueSlot V) : Z * ValueSlot V * ValueSlot V * SortContext :=
  let cmp_same := three_way Z.gtb (pos ap) (pos bp) in
  if exception s then (0, ap, bp, s)
  else
    match method with
    | Some m =>
        if memcmp_eq (val ap) (val bp) then (cmp_same, ap, bp, s)
        else
          let '(res, w) := JS_Call m (val ap) (val bp) (world s) in
          match res with
          | None => (0, ap, bp, throws (set_world w s))
          | Some res =>
              let '(cmp, w) := method_sign res w in
              match cmp with
              | None => (0, ap, bp, throws (set_world w s))
              | Some cmp => (if negb (cmp =? 0) then cmp else cmp_same, ap, bp, set_world w s)
              end
          end
    | None =>
        let '(sa, ap, s) := slot_str ap s in
        match sa with
        | None => (0, ap, bp, throws s)
        | Some sa =>
            let '(sb, bp, s) := slot_str bp s in
            match sb with
            | None => (0, ap, bp, throws s)
            | Some sb =>
                let cmp := js_string_compare sa sb in
                (if negb (cmp =? 0) then cmp else cmp_same, ap, bp, s)
            end
        end
    end.

(** [sizeof(ValueSlot)] *)
Definition slot_size : Z := 32.

(** The elements [i], ..., [length - 1] are collected; the results are whether this failed, the
    slots and the number of [undefined]. *)
Fixpoint collect (fuel : nat) (s : SortContext) (obj : V) (i length : Z) (array : list (ValueSlot V)) (array_size undefined_count : Z) :
    option (bool * list (ValueSlot V) * Z * SortContext) :=
  if i <? length then
    match fuel with
    | O => None
    | S fuel =>
        let '(size, s) :=
          if array_size <=? Z.of_nat (List.length array) then
            let new_size := Z.land (array_size + array_size >> 1 + 31) (-16) in
            let '(slack, w) := js_realloc2 (new_size * slot_size) (world s) in
            ((fun slack => new_size + slack / slot_size) <$> slack, set_world w s)
          else (Some array_size, s) in
        match size with
        | None => Some (true, array, undefined_count, s)
        | Some array_size =>
            guard (Z.of_nat (List.length array) < array_size);;
            let '(present, w) := JS_TryGetPropertyInt64 obj i (world s) in
            let s := set_world w s in
            match present with
            | None => Some (true, array, undefined_count, s)
            | Some None => collect fuel s obj (i + 1) length array array_size undefined_count
            | Some (Some v) =>
                let s := hold v s in
                if JS_IsUndefined v then collect fuel s obj (i + 1) length array array_size (undefined_count + 1)
                else collect fuel s obj (i + 1) length (array ++ [{| val := v; str := None; pos := i |}]) array_size undefined_count
            end
        end
    end
  else Some (false, array, undefined_count, s).

Definition free_str (slot : ValueSlot V) (s : SortContext) : option SortContext :=
  match str slot with Some p => JS_FreeValue (JS_MKPTR p) s | None => Some s end.

(** The slots are written back, the first of [slots] as the element [n]; the result is the
    rest of the slots when a setter fails. *)
Fixpoint write_back (s : SortContext) (obj : V) (n : Z) (slots : list (ValueSlot V)) : option (option (list (ValueSlot V)) * SortContext) :=
  match slots with
  | [] => Some (None, s)
  | slot :: slots =>
      s ← free_str slot s;
      if pos slot =? n then s ← JS_FreeValue (val slot) s; write_back s obj (n + 1) slots
      else
        s ← give (val slot) s;
        let '(failed, w) := JS_SetPropertyInt64 obj n (val slot) (world s) in
        let s := set_world w s in
        if failed then Some (Some slots, s) else write_back s obj (n + 1) slots
  end.

(** The end at [exception]. *)
Definition free_slots (slots : list (ValueSlot V)) (s : SortContext) : option SortContext :=
  foldM (fun s slot => s ← JS_FreeValue (val slot) s; free_str slot s) slots s.

Fixpoint fill_undefined (count : nat) (s : SortContext) (obj : V) (i : Z) : bool * SortContext :=
  match count with
  | O => (false, s)
  | S count =>
      let '(failed, w) := JS_SetPropertyInt64 obj i JS_UNDEFINED (world s) in
      if failed then (true, set_world w s) else fill_undefined count (set_world w s) obj (i + 1)
  end.

Fixpoint delete_rest (count : nat) (s : SortContext) (obj : V) (i : Z) : bool * SortContext :=
  match count with
  | O => (false, s)
  | S count =>
      let '(failed, w) := JS_DeletePropertyInt64 obj i (world s) in
      if failed then (true, set_world w s) else delete_rest count (set_world w s) obj (i + 1)
  end.

Definition fail (obj : V) (s : SortContext) : option (option V * SortContext) :=
  s ← JS_FreeValue obj s; Some (None, s).

(** The result of the call is [None] for an exception. *)
Definition js_array_sort (this_val method : V) (w : Wd) (own : list V) : option (option V * SortContext) :=
  let s := {| exception := false; world := w; owned := own |} in
  let '(bad, w) := if JS_IsUndefined method then (false, world s) else check_function method (world s) in
  let s := set_world w s in
  if bad then Some (None, s)
  else
    let method := if JS_IsUndefined method then None else Some method in
    let '(obj, w) := JS_ToObject this_val (world s) in
    match obj with
    | None => Some (None, set_world w s) (* the length of [JS_EXCEPTION] is an exception *)
    | Some obj =>
        let s := hold obj (set_world w s) in
        let '(length, w) := js_get_length64 obj (world s) in
        let s := set_world w s in
        match length with
        | None => fail obj s
        | Some length =>
            '(failed, array, undefined_count, s) ← collect (Z.to_nat length) s obj 0 length [] 0 0;
            if (failed : bool) then s ← free_slots array s; fail obj s
            else
              '(s, array) ← rqsort (js_array_cmp_generic method) (s, array) (List.length array);
              if exception s then s ← free_slots array s; fail obj s
              else
                let n := Z.of_nat (List.length array) in
                '(rest, s) ← write_back s obj 0 array;
                match rest with
                | Some slots => s ← free_slots slots s; fail obj s
                | None =>
                    let '(failed, s) := fill_undefined (Z.to_nat undefined_count) s obj n in
                    if failed then fail obj s
                    else
                      let i := n + undefined_count in
                      let '(failed, s) := delete_rest (Z.to_nat (length - i)) s obj i in
                      if failed then fail obj s else Some (Some obj, s)
                end
        end
    end.
End definitions.
