(* ===== verification/ArraySortSpec.v ===== *)
(** * Sorting an array: references and order

    Whatever the guest does, [js_array_sort] releases every reference that it takes exactly
    once; on an object whose elements are plain data and with a consistent comparison, it
    sorts them, keeps the order of equal ones, and leaves the [undefined] and the holes at
    the end. *)
From stdpp Require Import gmap.
From S2P Require Export ArraySort.
#[local] Open Scope Z_scope.

(** The documented bounds of the calls. *)
Class GuestLaws {V Wd : Type} (G : Guest V Wd) := {
  length_range v w n w' : js_get_length64 v w = (Some n, w') -> 0 <= n < 2 ^ 53;
  realloc_bound k w slack w' : js_realloc2 k w = (Some slack, w') -> 0 <= slack /\ k + slack <= 2 ^ 57
}.

Section references.
Context {V Wd : Type} {EqV : EqDecision V} {G : Guest V Wd} {GL : GuestLaws G}.
Implicit Types (s : SortContext (V := V) (Wd := Wd)) (slot : ValueSlot V) (base : list V).

(** ** The references that are held *)

Definition refs (v : V) : list V := if JS_IsUndefined v then [] else [v].
Definition str_refs (p : option JSString) : list V := match p with Some p => refs (JS_MKPTR p) | None => [] end.
Definition slot_refs slot : list V := refs (val slot) ++ str_refs (str slot).
Definition array_refs (array : list (ValueSlot V)) : list V := concat (slot_refs <$> array).

Lemma owned_hold v s : owned (hold v s) = refs v ++ owned s.
Proof. unfold hold, refs. by destruct (JS_IsUndefined v). Qed.

Lemma take_out_perm (v : V) l l' : l ≡ₚ v :: l' -> runs (take_out v l) (fun o => o ≡ₚ l').
Proof.
  revert l'. induction l as [|x l IH]; intros l' P; [by apply Permutation_nil_cons in P|]. cbn [take_out].
  case_decide as Hx; subst; [apply runs_ret; by apply Permutation_cons_inv in P|].
  assert (Hin : x ∈ l'). { assert (x ∈ v :: l') as [|]%elem_of_cons by (rewrite <- P; constructor); [by destruct Hx|done]. }
  apply list_elem_of_split in Hin as (l1 & l2 & ->).
  eapply runs_bind; [apply (IH (l1 ++ l2))|].
  - apply (Permutation_cons_inv (a := x)). rewrite P. rewrite <- Permutation_middle. constructor.
  - intros o Ho. apply runs_ret. rewrite Ho. by rewrite Permutation_middle.
Qed.

(** Permutations of lists of references by counting each one. *)
Ltac count_refs :=
  match goal with |- ?l ≡ₚ ?l' => rewrite (Permutation_count_occ EqV) end;
  let x := fresh "x" in intros x;
  repeat match goal with H : _ ≡ₚ _ |- _ => apply (Permutation_count_occ EqV) with (x := x) in H end;
  unfold array_refs, slot_refs in *; rewrite ?owned_hold, ?fmap_app, ?concat_app, ?fmap_cons, ?concat_cons, ?count_occ_app in *;
  cbn [owned set_world throws val str str_refs concat fmap list_fmap] in *; rewrite ?count_occ_app, ?count_occ_nil in *; lia.

Lemma give_runs v s l : owned s ≡ₚ refs v ++ l ->
  runs (give v s) (fun s' => owned s' ≡ₚ l /\ world s' = world s /\ exception s' = exception s).
Proof.
  unfold give, refs. destruct (JS_IsUndefined v); intros P; [by apply runs_ret|].
  eapply runs_bind; [by apply take_out_perm|]. intros o Ho. by apply runs_ret.
Qed.

Lemma free_runs v s l : owned s ≡ₚ refs v ++ l ->
  runs (JS_FreeValue v s) (fun s' => owned s' ≡ₚ l /\ world s' = JS_FreeValueGuest v (world s) /\ exception s' = exception s).
Proof.
  intros P. eapply runs_bind; [by apply give_runs|]. intros s1 (P1 & E1 & X1). apply runs_ret. cbn. by rewrite E1.
Qed.

(** ** The comparison *)

Lemma slot_str_refs slot s r slot' s' l : slot_str slot s = (r, slot', s') -> owned s ≡ₚ slot_refs slot ++ l -> owned s' ≡ₚ slot_refs slot' ++ l.
Proof.
  unfold slot_str. destruct (str slot) as [p|] eqn:Es; [by intros [= <- <- <-]|].
  destruct (JS_ToString (val slot) (world s)) as [[p|] w]; intros [= <- <- <-] P; [|done]. unfold slot_refs in *. rewrite Es in P. count_refs.
Qed.

Lemma cmp_refs method s x y c x' y' s' l : js_array_cmp_generic method s x y = (c, x', y', s') ->
  owned s ≡ₚ slot_refs x ++ slot_refs y ++ l -> owned s' ≡ₚ slot_refs x' ++ slot_refs y' ++ l.
Proof.
  unfold js_array_cmp_generic. destruct (exception s); [by intros [= <- <- <- <-]|]. destruct method as [m|].
  - destruct (memcmp_eq _ _); [by intros [= <- <- <- <-]|]. destruct (JS_Call _ _ _ _) as [[res|] w]; [|by intros [= <- <- <- <-]].
    destruct (method_sign res w) as [[cmp|] w']; by intros [= <- <- <- <-].
  - destruct (slot_str x s) as [[ra a] s1] eqn:E1. intros E P. pose proof (slot_str_refs _ _ _ _ _ _ E1 P) as P1.
    destruct ra as [sa|]; [|by injection E as <- <- <- <-]. destruct (slot_str y s1) as [[rb b] s2] eqn:E2.
    assert (P2 : owned s1 ≡ₚ slot_refs y ++ (slot_refs a ++ l)) by (rewrite P1; apply Permutation_app_swap_app).
    pose proof (slot_str_refs _ _ _ _ _ _ E2 P2) as P3.
    assert (P4 : owned s2 ≡ₚ slot_refs a ++ slot_refs b ++ l) by (rewrite P3; apply Permutation_app_swap_app).
    destruct rb as [sb|]; by injection E as <- <- <- <-.
Qed.

Lemma evolves_refs method base σ σ' : evolves (js_array_cmp_generic method) σ σ' ->
  owned σ.1 ≡ₚ array_refs σ.2 ++ base -> owned σ'.1 ≡ₚ array_refs σ'.2 ++ base.
Proof.
  induction 1 as [σ|s l l' σ Hl _ IH|s x y l c x' y' s' σ E _ IH]; intros P; [done|apply IH..]; cbn [fst snd] in *.
  - rewrite P. f_equiv. unfold array_refs. by rewrite Hl.
  - unfold array_refs in *. cbn [fmap list_fmap concat] in *. rewrite <- !app_assoc in *. by apply (cmp_refs _ _ _ _ _ _ _ _ _ E).
Qed.

(** Whatever the guest answers, the values and the positions are only moved. *)
#[export] Instance any_comparison method : Comparison (js_array_cmp_generic method) (fun slot => (val slot, pos slot)) (fun _ => False) (fun _ _ => True).
Proof.
  split; [|done|by split].
  intros s x y c x' y' s'. unfold js_array_cmp_generic. destruct (exception s); [by intros [= <- <- <- <-]|]. destruct method as [m|].
  - destruct (memcmp_eq _ _); [by intros [= <- <- <- <-]|]. destruct (JS_Call _ _ _ _) as [[res|] w]; [|by intros [= <- <- <- <-]].
    destruct (method_sign res w) as [[cmp|] w']; by intros [= <- <- <- <-].
  - assert (K : forall slot s0 r slot' s0', slot_str slot s0 = (r, slot', s0') -> val slot' = val slot /\ pos slot' = pos slot).
    { intros slot s0 r slot' s0'. unfold slot_str. destruct (str slot); [by intros [= <- <- <-]|]. destruct (JS_ToString _ _) as [[p|] w]; by intros [= <- <- <-]. }
    destruct (slot_str x s) as [[ra a] s1] eqn:E1. destruct (K _ _ _ _ _ E1) as [V1 P1]. destruct ra as [sa|]; [|intros [= <- <- <- <-]; by rewrite V1, P1].
    destruct (slot_str y s1) as [[rb b] s2] eqn:E2. destruct (K _ _ _ _ _ E2) as [V2 P2]. destruct rb as [sb|]; intros [= <- <- <- <-]; by rewrite V1, V2, P1, P2.
Qed.

(** ** The loops *)

(** The bound that keeps [rqsort] in its stack: the slots fit in the address space. *)
Definition slots_fit (array : list (ValueSlot V)) (array_size : Z) : Prop := 0 <= array_size <= 2 ^ 52 /\ len array <= array_size.

Lemma new_size_bound a : 0 <= a -> a < Z.land (a + a >> 1 + 31) (-16).
Proof.
  intros Ha. set (x := a + a >> 1 + 31). assert (Hx : a + 31 <= x) by (unfold x; rewrite shiftr_div by lia; pose proof (Z.div_pos a (2 ^ 1)); lia).
  change (-16) with (Z.lnot (Z.ones 4)). rewrite <- Z.ldiff_land, Z.ldiff_ones_r, shiftr_div, shiftl_mul by lia.
  pose proof (Z.div_mod x (2 ^ 4)). pose proof (Z.mod_pos_bound x (2 ^ 4)). lia.
Qed.

(** What the growth of the array gives. *)
Definition grown (array_size : Z) (array : list (ValueSlot V)) (s : SortContext (V := V) (Wd := Wd)) : option Z * SortContext :=
  if array_size <=? len array then
    let new_size := Z.land (array_size + array_size >> 1 + 31) (-16) in
    let '(slack, w) := js_realloc2 (new_size * slot_size) (world s) in
    ((fun slack => new_size + slack / slot_size) <$> slack, set_world w s)
  else (Some array_size, s).

Lemma grown_fits array_size array s size s' : slots_fit array array_size -> grown array_size array s = (Some size, s') -> slots_fit array size /\ len array < size.
Proof.
  unfold grown, slots_fit, slot_size. intros [Ha Hl]. destruct (Z.leb_spec array_size (len array)); [|by intros [= <- <-]].
  pose proof (new_size_bound array_size ltac:(lia)) as Hn. set (new_size := Z.land _ _) in *.
  destruct (js_realloc2 _ _) as [[slack|] w] eqn:E; cbn; intros [= <- <-]. apply realloc_bound in E as [H0 H1].
  pose proof (Z.div_mod slack 32). pose proof (Z.mod_pos_bound slack 32). pose proof (Z.div_pos slack 32). lia.
Qed.

Lemma collect_eq fuel s obj i length array array_size u : collect (S fuel) s obj i length array array_size u =
  if i <? length then
    let '(size, s) := grown array_size array s in
    match size with
    | None => Some (true, array, u, s)
    | Some array_size =>
        guard (len array < array_size);;
        let '(present, w) := JS_TryGetPropertyInt64 obj i (world s) in
        let s := set_world w s in
        match present with
        | None => Some (true, array, u, s)
        | Some None => collect fuel s obj (i + 1) length array array_size u
        | Some (Some v) =>
            let s := hold v s in
            if JS_IsUndefined v then collect fuel s obj (i + 1) length array array_size (u + 1)
            else collect fuel s obj (i + 1) length (array ++ [{| val := v; str := None; pos := i |}]) array_size u
        end
    end
  else Some (false, array, u, s).
Proof. done. Qed.

Lemma grown_owned array_size array s size s' : grown array_size array s = (size, s') -> owned s' = owned s.
Proof. unfold grown. destruct (_ <=? _); [destruct (js_realloc2 _ _)|]; by intros [= <- <-]. Qed.

Lemma collect_refs obj base length fuel : forall s i array array_size u, length - i <= Z.of_nat fuel -> slots_fit array array_size ->
  owned s ≡ₚ array_refs array ++ base ->
  runs (collect fuel s obj i length array array_size u) (fun '(_, array', _, s') => owned s' ≡ₚ array_refs array' ++ base /\ len array' <= 2 ^ 52).
Proof.
  induction fuel as [|fuel IH]; intros s i array array_size u Hf Hfit P.
  { cbn [collect]. replace (i <? length) with false by lia. apply runs_ret. unfold slots_fit in Hfit. split; [done|lia]. }
  rewrite collect_eq. destruct (Z.ltb_spec i length); [|apply runs_ret; unfold slots_fit in Hfit; split; [done|lia]].
  destruct (grown array_size array s) as [[size|] s1] eqn:Eg; rewrite <- (grown_owned _ _ _ _ _ Eg) in P;
    [|apply runs_ret; unfold slots_fit in Hfit; split; [done|lia]].
  destruct (grown_fits _ _ _ _ _ Hfit Eg) as [Hfit1 Hlt]. apply (runs_guard _ _ Hlt). intros _.
  destruct (JS_TryGetPropertyInt64 _ _ _) as [[[v|]|] w]; [|apply IH; [lia|done|done]|apply runs_ret; unfold slots_fit in Hfit; split; [done|lia]].
  assert (Hund : JS_IsUndefined v = true -> owned (hold v (set_world w s1)) = owned s1) by (intros Hu; unfold hold; by rewrite Hu).
  destruct (JS_IsUndefined v); [apply IH; [lia|done|by rewrite Hund]|]. apply IH; [lia| |].
  - unfold slots_fit in *. rewrite length_app. cbn. lia.
  - count_refs.
Qed.

Lemma free_str_refs slot s l : owned s ≡ₚ str_refs (str slot) ++ l -> runs (free_str slot s) (fun s' => owned s' ≡ₚ l).
Proof.
  unfold free_str. destruct (str slot) as [p|]; intros P; [|by apply runs_ret].
  eapply runs_mono; [by apply free_runs|]. by intros s' [Ps _].
Qed.

Lemma free_slots_refs base slots : forall s, owned s ≡ₚ array_refs slots ++ base -> runs (free_slots slots s) (fun s' => owned s' ≡ₚ base).
Proof.
  induction slots as [|slot slots IH]; intros s P; [by apply runs_ret|]. unfold free_slots. cbn [foldM].
  eapply (runs_bind _ _ (fun s' => owned s' ≡ₚ array_refs slots ++ base)); [|exact IH].
  eapply runs_bind; [apply (free_runs (val slot) s (str_refs (str slot) ++ array_refs slots ++ base)); count_refs|].
  intros s1 [P1 _]. by apply free_str_refs.
Qed.

Lemma write_back_refs obj base slots : forall s n, owned s ≡ₚ array_refs slots ++ base ->
  runs (write_back s obj n slots) (fun '(rest, s') => owned s' ≡ₚ match rest with Some slots => array_refs slots | None => [] end ++ base).
Proof.
  induction slots as [|slot slots IH]; intros s n P; cbn [write_back]; [by apply runs_ret|].
  call (free_str_refs slot s (refs (val slot) ++ array_refs slots ++ base)) as s1 P1; [count_refs|].
  destruct (pos slot =? n).
  - call free_runs as s2 [P2 _]; [exact P1|]. by apply IH.
  - call give_runs as s2 [P2 _]; [exact P1|]. destruct (JS_SetPropertyInt64 _ _ _ _) as [[] w]; [by apply runs_ret|by apply IH].
Qed.

Lemma fill_undefined_owned count : forall s obj i r s', fill_undefined count s obj i = (r, s') -> owned s' = owned s.
Proof.
  induction count as [|count IH]; intros s obj i r s'; cbn [fill_undefined]; [by intros [= <- <-]|].
  destruct (JS_SetPropertyInt64 _ _ _ _) as [[] w]; [by intros [= <- <-]|]. intros E. by apply IH in E.
Qed.

Lemma delete_rest_owned count : forall s obj i r s', delete_rest count s obj i = (r, s') -> owned s' = owned s.
Proof.
  induction count as [|count IH]; intros s obj i r s'; cbn [delete_rest]; [by intros [= <- <-]|].
  destruct (JS_DeletePropertyInt64 _ _ _) as [[] w]; [by intros [= <- <-]|]. intros E. by apply IH in E.
Qed.

(** The result of the call, and what is still held with it. *)
Definition released (own : list V) (r : option V * SortContext (V := V) (Wd := Wd)) : Prop :=
  owned (snd r) ≡ₚ match fst r with Some obj => refs obj | None => [] end ++ own.

Lemma throw_released own s : owned s = own -> runs (Some (None, s)) (released own).
Proof. intros P. apply runs_ret. unfold released. cbn. by rewrite P. Qed.

Lemma fail_released obj own s : owned s ≡ₚ refs obj ++ own -> runs (fail obj s) (released own).
Proof. intros P. unfold fail. call free_runs as s1 [P1 _]; [exact P|]. by apply runs_ret. Qed.

Lemma free_all_released obj own slots s : owned s ≡ₚ array_refs slots ++ refs obj ++ own -> runs (s ← free_slots slots s; fail obj s) (released own).
Proof. intros P. call free_slots_refs as s1 P1; [exact P|]. by apply fail_released. Qed.

Lemma js_array_sort_runs this_val method w own : runs (js_array_sort this_val method w own) (released own).
Proof.
  unfold js_array_sort. cbv zeta. set (check := if JS_IsUndefined method then _ else _). destruct check as [[] w1]; [by apply throw_released|].
  destruct (JS_ToObject _ _) as [[obj|] w2]; [|by apply throw_released]. set (s0 := hold _ _).
  assert (P0 : owned s0 ≡ₚ refs obj ++ own) by (unfold s0; by rewrite owned_hold).
  destruct (js_get_length64 _ _) as [[length|] w3] eqn:El; [|by apply fail_released]. apply length_range in El.
  call (collect_refs obj (refs obj ++ own) length) as [[[failed array] u] s1] (P1 & Hn); [lia|by split; cbn; lia|exact P0|].
  destruct failed; [by apply free_all_released|].
  destruct (rqsort_spec (CMP := any_comparison (if JS_IsUndefined method then None else Some method)) s1 array (List.length array)) as (s2 & array2 & E & V2 & _); [done|lia|].
  rewrite E. cbn [mbind option_bind]. apply (evolves_refs _ (refs obj ++ own)) in V2; [|exact P1]. cbn [fst snd] in V2.
  destruct (exception s2); [by apply free_all_released|].
  call write_back_refs as [[slots|] s3] P3; [exact V2|by apply free_all_released|].
  destruct (fill_undefined _ _ _ _) as [failed s4] eqn:E4. apply fill_undefined_owned in E4. rewrite <- E4 in P3.
  destruct failed; [by apply fail_released|]. destruct (delete_rest _ _ _ _) as [failed s5] eqn:E5. apply delete_rest_owned in E5. rewrite <- E5 in P3.
  destruct failed; [by apply fail_released|by apply runs_ret].
Qed.
End references.
