(* ===== verification/ArraySortOrder.v ===== *)
(** * Sorting plain elements

    The order and the final elements of [js_array_sort] when the elements of the object are
    plain data, the memory suffices and the comparison is consistent. *)
From stdpp Require Import gmap.
From S2P Require Export ArraySortSpec.
#[local] Open Scope Z_scope.

(** ** Consistent comparisons *)

Class ConsistentOrder {X} (order : X -> X -> Z) : Prop := {
  order_antisym x y : Z.sgn (order y x) = - Z.sgn (order x y);
  order_trans x y z : order x y <= 0 -> order y z <= 0 -> order x z <= 0
}.

(** The order of the strings, by their code units. *)
Definition text_order (p q : list Z) : Z := match units_compare p q with Lt => -1 | Eq => 0 | Gt => 1 end.

#[export] Instance text_order_consistent : ConsistentOrder text_order.
Proof.
  unfold text_order. split.
  - induction x as [|a x IH]; intros [|b y]; cbn [units_compare]; try done.
    rewrite (Z.compare_antisym a b). destruct (a ?= b); cbn [CompOpp]; [apply IH|done|done].
  - induction x as [|a x IH]; intros [|b y] [|c z]; cbn [units_compare]; try (by lia).
    destruct (Z.compare_spec a b), (Z.compare_spec b c), (Z.compare_spec a c); subst; try lia. apply IH.
Qed.

(** The elements in order, the ones that are equal by their positions. *)
Definition stable {X} (order : X -> X -> Z) (a b : X * Z) : Prop :=
  order (fst a) (fst b) < 0 \/ order (fst a) (fst b) = 0 /\ snd a <= snd b.

#[export] Instance stable_preorder {X} (order : X -> X -> Z) : ConsistentOrder order -> PreOrder (stable order).
Proof.
  intros C. unfold stable. split.
  - intros x. pose proof (order_antisym (fst x) (fst x)). lia.
  - intros x y z H1 H2. pose proof (order_trans (fst x) (fst y) (fst z)) as T1. pose proof (order_trans (fst z) (fst x) (fst y)) as T2.
    pose proof (order_trans (fst y) (fst z) (fst x)) as T3.
    pose proof (order_antisym (fst x) (fst y)). pose proof (order_antisym (fst y) (fst z)). pose proof (order_antisym (fst x) (fst z)). lia.
Qed.

(** The answer of a comparison whose ties are decided by the positions. *)
Lemma stable_answer {X} (order : X -> X -> Z) {C : ConsistentOrder order} (x y : X) (p q c : Z) : Z.sgn c = Z.sgn (order x y) ->
  let r := if negb (c =? 0) then c else three_way Z.gtb p q in
  (r <= 0 -> stable order (x, p) (y, q)) /\ (0 <= r -> stable order (y, q) (x, p)).
Proof.
  intros Hc r. pose proof (order_antisym x y) as Ha. unfold stable, r, three_way. cbn [fst snd].
  destruct (Z.eqb_spec c 0); cbn [negb]; [|lia]. rewrite !Z.gtb_ltb. lia.
Qed.

Section order.
Context {V Wd : Type} {EqV : EqDecision V} {G : Guest V Wd} {GL : GuestLaws G}.
Context (elements : Wd -> gmap Z V).
Implicit Types (s : SortContext (V := V) (Wd := Wd)) (slot : ValueSlot V) (e : gmap Z V).

(** The object holds its elements as data; calls on it run no code that changes them, and
    there is memory for its slots. *)
Class PlainArray (obj : V) : Prop := {
  plain_get i w : exists w', JS_TryGetPropertyInt64 obj i w = (Some (elements w !! i), w') /\ elements w' = elements w;
  plain_set i v w : exists w', JS_SetPropertyInt64 obj i v w = (false, w') /\ elements w' = <[i:=v]> (elements w);
  plain_delete i w : exists w', JS_DeletePropertyInt64 obj i w = (false, w') /\ elements w' = delete i (elements w);
  plain_realloc k w : k <= 2 ^ 56 -> exists slack w', js_realloc2 k w = (Some slack, w') /\ elements w' = elements w;
  plain_free v w : elements (JS_FreeValueGuest v w) = elements w
}.

(** The method, or the conversion to strings, answers as [order] and changes no element. *)
Definition answers (method : option V) (text : V -> list Z) (order : V -> V -> Z) : Prop :=
  match method with
  | Some m =>
      (forall x y w, exists res w1 c w2, JS_Call m x y w = (Some res, w1) /\ method_sign res w1 = (Some c, w2) /\
        Z.sgn c = Z.sgn (order x y) /\ elements w2 = elements w) /\
      (forall x y, memcmp_eq x y = true -> order x y = 0)
  | None =>
      (forall v w, exists p w', JS_ToString v w = (Some p, w') /\ units p = text v /\ elements w' = elements w) /\
      (forall x y, order x y = text_order (text x) (text y))
  end.

Section comparison.
Context (method : option V) (text : V -> list Z) (order : V -> V -> Z) {CO : ConsistentOrder order} (Hans : answers method text order).

(** The text that is compared: the one of the cache, or the one that it will hold. *)
Definition slot_text slot : list Z := match str slot with Some p => units p | None => text (val slot) end.

Definition rank (a b : list Z * V) : Z :=
  match method with None => text_order (fst a) (fst b) | Some _ => order (snd a) (snd b) end.

#[local] Instance rank_consistent : ConsistentOrder rank.
Proof. clear Hans. unfold rank. destruct method; split; intros; apply order_antisym || (eapply order_trans; eassumption). Qed.

Definition slot_key slot : list Z * V * Z := (slot_text slot, val slot, pos slot).

(** No call fails or changes the elements. *)
Definition quiet e s : Prop := exception s = false /\ elements (world s) = e.

Lemma slot_str_plain slot s : method = None -> exists p slot' s', slot_str slot s = (Some p, slot', s') /\ slot_key slot' = slot_key slot /\
  units p = slot_text slot /\ (forall e, quiet e s -> quiet e s').
Proof.
  intros Hm. unfold slot_str, slot_key, slot_text, quiet. destruct (str slot) as [p|] eqn:Es.
  { exists p, slot, s. by rewrite Es. }
  rewrite Hm in Hans. destruct Hans as [Ht _]. destruct (Ht (val slot) (world s)) as (p & w' & -> & Hp & He).
  eexists p, _, _. split; [done|]. cbn. rewrite Hp. split_and!; [done..|]. intros e [H1 H2]. unfold hold. destruct (JS_IsUndefined _); cbn; split; congruence.
Qed.

Lemma cmp_plain s x y : exception s = false -> exists c x' y' s', js_array_cmp_generic method s x y = (c, x', y', s') /\
  slot_key x' = slot_key x /\ slot_key y' = slot_key y /\ (forall e, quiet e s -> quiet e s') /\
  (c <= 0 -> stable rank (slot_key x) (slot_key y)) /\ (0 <= c -> stable rank (slot_key y) (slot_key x)).
Proof.
  intros Hs. unfold js_array_cmp_generic. rewrite Hs. pose proof Hans as Ha. unfold answers in Ha.
  assert (Hm : method = None \/ exists m, method = Some m) by (destruct method; eauto). destruct Hm as [Em|[m Em]]; rewrite Em in Ha |- *.
  - destruct (slot_str_plain x s Em) as (p & x' & s1 & -> & K1 & T1 & Q1). destruct (slot_str_plain y s1 Em) as (q & y' & s2 & -> & K2 & T2 & Q2).
    destruct (stable_answer rank (slot_text x, val x) (slot_text y, val y) (pos x) (pos y) (js_string_compare p q)) as [H1 H2].
    { etransitivity; [apply (memcmp_compare (units p) (units q))|]. unfold rank, text_order. rewrite Em. cbn [fst]. rewrite T1, T2. by destruct (units_compare _ _). }
    eexists _, x', y', s2. split_and!; try done. auto.
  - destruct Ha as [Hcall Heq]. destruct (memcmp_eq (val x) (val y)) eqn:Eq.
    + destruct (stable_answer rank (slot_text x, val x) (slot_text y, val y) (pos x) (pos y) 0) as [H1 H2]; [unfold rank; rewrite Em; cbn [fst snd]; by rewrite (Heq _ _ Eq)|].
      by eexists _, x, y, s.
    + destruct (Hcall (val x) (val y) (world s)) as (res & w1 & c & w2 & -> & -> & Hc & He).
      destruct (stable_answer rank (slot_text x, val x) (slot_text y, val y) (pos x) (pos y) c) as [H1 H2]; [unfold rank; by rewrite Em|].
      eexists _, x, y, _. split_and!; try done. intros e [H3 H4]. split; cbn; congruence.
Qed.

Lemma plain_comparison : Comparison (js_array_cmp_generic method) slot_key (fun s => exception s = false) (stable rank).
Proof using CO Hans.
  split; [| |apply _].
  - intros s x y c x' y' s' E. destruct (exception s) eqn:Hs; [unfold js_array_cmp_generic in E; rewrite Hs in E; by injection E as <- <- <- <-|].
    destruct (cmp_plain s x y Hs) as (c0 & a & b & s1 & E' & K1 & K2 & _). rewrite E in E'. by injection E' as -> -> -> ->.
  - intros s x y c x' y' s' E F. destruct (exception s) eqn:Hs; [unfold js_array_cmp_generic in E; rewrite Hs in E; injection E as <- <- <- <-; congruence|].
    destruct (cmp_plain s x y Hs) as (c0 & a & b & s1 & E' & _ & _ & _ & H). rewrite E in E'. by injection E' as -> -> -> ->.
Qed.

Lemma evolves_quiet e σ σ' : evolves (js_array_cmp_generic method) σ σ' -> quiet e σ.1 -> quiet e σ'.1.
Proof using CO Hans.
  induction 1 as [σ|s l l' σ _ _ IH|s x y l c x' y' s' σ E _ IH]; intros Q; [done|by apply IH|]. apply IH. cbn [fst] in *.
  destruct (cmp_plain s x y (proj1 Q)) as (c0 & a & b & s1 & E' & _ & _ & Q1 & _). rewrite E in E'. injection E' as -> -> -> ->. auto.
Qed.
End comparison.

(** ** The loops *)

(** The elements of an object from [i] on, with their indices. *)
Definition cells e (i n : Z) : list (V * Z) := omap (fun k => (fun v => (v, k)) <$> e !! k) (seqZ i n).
Definition defined (c : V * Z) : Prop := fst c <> JS_UNDEFINED.
Definition cell_slot (c : V * Z) : ValueSlot V := {| val := fst c; str := None; pos := snd c |}.
Definition undefined_cells e (i n : Z) : Z := len (filter (fun c => ~ defined c) (cells e i n)).

Lemma cells_step e i n : 0 < n -> cells e i n = match e !! i with Some v => [(v, i)] | None => [] end ++ cells e (i + 1) (n - 1).
Proof.
  intros Hn. unfold cells. rewrite seqZ_cons by done. cbn [omap list_omap]. change (Z.succ i) with (i + 1). change (Z.pred n) with (n - 1).
  by destruct (e !! i).
Qed.

Lemma cells_empty e i n : n <= 0 -> cells e i n = [].
Proof. intros Hn. unfold cells. by rewrite seqZ_nil. Qed.

Context (obj : V) {PA : PlainArray obj}.

Lemma grown_plain e array_size array s : quiet e s -> 0 <= array_size -> len array < 2 ^ 50 ->
  exists size s', grown array_size array s = (Some size, s') /\ quiet e s'.
Proof.
  intros [Hx He] Ha Hl. unfold grown, slot_size. destruct (Z.leb_spec array_size (len array)); [|by eexists _, s].
  destruct (plain_realloc (Z.land (array_size + array_size >> 1 + 31) (-16) * 32) (world s)) as (slack & w & -> & E).
  - rewrite shiftr_div by lia. pose proof (Z.div_mod array_size (2 ^ 1)). pose proof (Z.mod_pos_bound array_size (2 ^ 1)).
    set (x := array_size + _ + 31). assert (Z.land x (-16) <= x); [|lia]. change (-16) with (Z.lnot (Z.ones 4)).
    rewrite <- Z.ldiff_land, Z.ldiff_ones_r, shiftr_div, shiftl_mul by lia. pose proof (Z.div_mod x (2 ^ 4)). pose proof (Z.mod_pos_bound x (2 ^ 4)). lia.
  - eexists _, _. split; [done|]. split; [done|]. cbn. congruence.
Qed.

Lemma collect_plain e length fuel : forall s i array array_size u r, quiet e s -> 0 <= array_size -> slots_fit array array_size ->
  len array <= i -> length < 2 ^ 50 -> length - i <= Z.of_nat fuel ->
  collect fuel s obj i length array array_size u = Some r -> exists s',
  r = (false, array ++ (cell_slot <$> filter defined (cells e i (length - i))), u + undefined_cells e i (length - i), s') /\ quiet e s'.
Proof.
  unfold undefined_cells. induction fuel as [|fuel IH]; intros s i array array_size u r Q Ha Hfit Hi Hn Hf.
  { cbn [collect]. replace (i <? length) with false by lia. intros [= <-]. exists s. rewrite cells_empty by lia. cbn. by rewrite app_nil_r, Z.add_0_r. }
  rewrite collect_eq. destruct (Z.ltb_spec i length); cycle 1.
  { intros [= <-]. exists s. rewrite cells_empty by lia. cbn. by rewrite app_nil_r, Z.add_0_r. }
  destruct (grown_plain e array_size array s) as (size & s1 & Eg & Q1); [done..|lia|]. rewrite Eg.
  destruct (grown_fits _ _ _ _ _ Hfit Eg) as [Hfit1 Hlt]. rewrite option_guard_True by done. cbn [mbind option_bind].
  destruct (plain_get i (world s1)) as (w & -> & Ew). destruct Q1 as [X1 E1]. rewrite E1.
  rewrite cells_step by lia. replace (length - i - 1) with (length - (i + 1)) by lia.
  assert (Q2 : quiet e (set_world w s1)) by (split; cbn; congruence).
  destruct (e !! i) as [v|]; cbn [app]; [|intros E; apply (IH _ _ _ _ _ _ Q2) in E; try done; unfold slots_fit in Hfit1; lia].
  assert (Q3 : quiet e (hold v (set_world w s1))) by (unfold hold; by destruct (JS_IsUndefined v)).
  destruct (JS_IsUndefined v) eqn:Eu; intros E; (eapply IH in E as (s' & -> & Q'); [|done|unfold slots_fit in Hfit1; lia| |rewrite ?length_app; cbn; lia|done|lia]).
  - apply bool_decide_eq_true in Eu. exists s'. rewrite filter_cons_False by (by intros []). rewrite (filter_cons_True (fun c => ~ defined c)) by (by intros []).
    split; [|done]. f_equal. f_equal. cbn [List.length]. lia.
  - done.
  - apply bool_decide_eq_false in Eu. exists s'. rewrite filter_cons_True by done. rewrite (filter_cons_False (fun c => ~ defined c)) by (by intros []).
    split; [|done]. f_equal. f_equal. by rewrite <- app_assoc.
  - unfold slots_fit in *. rewrite length_app. cbn. lia.
Qed.

(** The values written from the index [n] on. *)
Definition write_all (n : Z) (vs : list V) e : gmap Z V := list_to_map (imap (fun k v => (n + Z.of_nat k, v)) vs) ∪ e.

Lemma write_all_lookup n vs e k : write_all n vs e !! k = if decide (n <= k < n + len vs) then vs !! Z.to_nat (k - n) else e !! k.
Proof.
  unfold write_all. rewrite lookup_union. destruct (decide (n <= k < n + len vs)) as [Hk|Hk].
  - destruct (lookup_lt_is_Some_2 vs (Z.to_nat (k - n))) as [v Ev]; [lia|]. rewrite Ev.
    assert (El : list_to_map (M := gmap Z V) (imap (fun k v => (n + Z.of_nat k, v)) vs) !! k = Some v); [|rewrite El; by destruct (e !! k)].
    apply elem_of_list_to_map_1'.
    + intros y Hy. apply elem_of_lookup_imap in Hy as (j & v' & [= Hj ->] & Ej). replace (Z.to_nat (k - n)) with j in Ev by lia. congruence.
    + apply elem_of_lookup_imap. exists (Z.to_nat (k - n)), v. split; [f_equal; lia|done].
  - assert (El : list_to_map (M := gmap Z V) (imap (fun k v => (n + Z.of_nat k, v)) vs) !! k = None); [|rewrite El; by destruct (e !! k)].
    apply not_elem_of_list_to_map_1. rewrite list_elem_of_fmap. intros ([k' v] & -> & Hin). apply elem_of_lookup_imap in Hin as (j & v' & [= -> ->] & Ej).
    apply lookup_lt_Some in Ej. cbn in Hk. lia.
Qed.

Lemma write_all_cons n v vs e : write_all (n + 1) vs (<[n:=v]> e) = write_all n (v :: vs) e.
Proof.
  apply map_eq. intros k. rewrite !write_all_lookup. cbn [List.length]. destruct (decide (k = n)) as [->|Hk].
  - rewrite decide_False, decide_True by lia. rewrite Z.sub_diag, lookup_insert_eq. done.
  - rewrite lookup_insert_ne by done. do 2 case_decide; try lia; [|done]. replace (Z.to_nat (k - n)) with (S (Z.to_nat (k - (n + 1)))) by lia. done.
Qed.

Lemma free_quiet e v s s' : JS_FreeValue v s = Some s' -> quiet e s -> quiet e s'.
Proof.
  unfold JS_FreeValue, give. intros E [H1 H2]. destruct (JS_IsUndefined v); [|destruct (take_out v (owned s))]; cbn in E; try done; injection E as <-;
    split; cbn; rewrite ?plain_free; congruence.
Qed.

Lemma free_str_quiet e slot s s' : free_str slot s = Some s' -> quiet e s -> quiet e s'.
Proof. unfold free_str. destruct (str slot); [apply free_quiet|by intros [= <-]]. Qed.

Lemma give_quiet e v s s' : give v s = Some s' -> quiet e s -> quiet e s'.
Proof.
  unfold give. intros E [H1 H2]. destruct (JS_IsUndefined v); [by injection E as <-|].
  destruct (take_out v (owned s)); cbn in E; [|done]. by injection E as <-.
Qed.

(** A slot whose position is its index holds the element that is there. *)
Definition settled e (n : Z) (slots : list (ValueSlot V)) : Prop :=
  forall k slot, slots !! k = Some slot -> pos slot = n + Z.of_nat k -> e !! pos slot = Some (val slot).

Lemma write_back_plain slots : forall e s n r s', quiet e s -> settled e n slots -> write_back s obj n slots = Some (r, s') ->
  r = None /\ quiet (write_all n (val <$> slots) e) s'.
Proof.
  induction slots as [|slot slots IH]; intros e s n r s' Q Hs; cbn [write_back].
  { intros [= <- <-]. split; [done|]. unfold write_all. cbn. by rewrite (left_id_L ∅ _). }
  intros (s1 & E1 & E)%bind_Some. apply (free_str_quiet e) in E1; [|done]. cbn [fmap list_fmap].
  assert (Hs' : forall e', (forall k, n < k -> e' !! k = e !! k) -> settled e' (n + 1) slots).
  { intros e' He k slot' Hk Hp. rewrite He by lia. apply (Hs (S k)); [done|lia]. }
  destruct (Z.eqb_spec (pos slot) n) as [Hp|Hp].
  - apply bind_Some in E as (s2 & E2 & E). apply (free_quiet e) in E2; [|done]. apply (IH e) in E as [-> Q3]; [|done|by apply Hs'].
    split; [done|]. rewrite <- write_all_cons, insert_id; [done|]. rewrite <- Hp. apply (Hs 0%nat); [done|lia].
  - apply bind_Some in E as (s2 & E2 & E). apply (give_quiet e) in E2; [|done]. destruct (plain_set n (val slot) (world s2)) as (w & Ew & He).
    rewrite Ew in E. apply (IH (<[n:=val slot]> e)) in E as [-> Q3].
    + by rewrite <- write_all_cons.
    + destruct E2 as [H1 H2]. split; cbn; congruence.
    + apply Hs'. intros k Hk. by rewrite lookup_insert_ne by lia.
Qed.

Lemma fill_undefined_plain count : forall e s i, quiet e s -> exists s', fill_undefined count s obj i = (false, s') /\
  quiet (write_all i (replicate count JS_UNDEFINED) e) s'.
Proof.
  induction count as [|count IH]; intros e s i Q; cbn [fill_undefined].
  { exists s. split; [done|]. unfold write_all. cbn. by rewrite (left_id_L ∅ _). }
  destruct (plain_set i JS_UNDEFINED (world s)) as (w & -> & He). cbn [replicate]. rewrite <- write_all_cons. apply IH.
  destruct Q as [H1 H2]. split; cbn; congruence.
Qed.

Lemma delete_rest_plain count : forall e s i, quiet e s -> exists s' e', delete_rest count s obj i = (false, s') /\ quiet e' s' /\
  forall k, e' !! k = if decide (i <= k < i + Z.of_nat count) then None else e !! k.
Proof.
  induction count as [|count IH]; intros e s i Q; cbn [delete_rest].
  { exists s, e. split_and!; try apply Q; [done|]. intros k. by rewrite decide_False by lia. }
  destruct (plain_delete i (world s)) as (w & -> & He). destruct (IH (delete i e) (set_world w s) (i + 1)) as (s' & e' & E & Q' & H).
  { destruct Q as [H1 H2]. split; cbn; congruence. }
  exists s', e'. split_and!; try done; try apply Q'. intros k. rewrite H. destruct (decide (k = i)) as [->|].
  - rewrite decide_False by lia. rewrite decide_True by lia. apply lookup_delete_eq.
  - rewrite lookup_delete_ne by done. do 2 case_decide; try lia; done.
Qed.

(** ** The cells *)

Lemma elem_of_cells e i n v k : (v, k) ∈ cells e i n <-> i <= k < i + n /\ e !! k = Some v.
Proof.
  unfold cells. rewrite list_elem_of_omap. split.
  - intros (j & Hj%elem_of_seqZ & E). destruct (e !! j) eqn:Ej; cbn in E; [|done]. injection E as -> ->. split; [lia|done].
  - intros [Hk E]. exists k. rewrite elem_of_seqZ, E. split; [lia|done].
Qed.

Lemma cells_nodup e n : forall i, NoDup (snd <$> cells e i (Z.of_nat n)).
Proof.
  induction n as [|n IH]; intros i; [rewrite cells_empty by lia; constructor|]. rewrite cells_step by lia.
  replace (Z.of_nat (S n) - 1) with (Z.of_nat n) by lia. destruct (e !! i) as [v|]; [|exact (IH (i + 1))]. cbn [app fmap list_fmap snd].
  constructor; [|apply IH]. rewrite list_elem_of_fmap. intros ([v' k] & Hk & Hin). apply elem_of_cells in Hin. cbn in Hk. lia.
Qed.

Lemma cells_length e i n : 0 <= n -> len (cells e i n) <= n.
Proof.
  intros Hn. replace n with (Z.of_nat (Z.to_nat n)) by lia. set (k := Z.to_nat n). clearbody k. revert i. clear Hn n. induction k as [|k IH]; intros i.
  - rewrite cells_empty by lia. done.
  - rewrite cells_step by lia. rewrite length_app. specialize (IH (i + 1)). replace (Z.of_nat (S k) - 1) with (Z.of_nat k) by lia. destruct (e !! i); cbn [List.length]; lia.
Qed.

Lemma filter_lengths (l : list (V * Z)) : len (filter defined l) + len (filter (fun c => ~ defined c) l) = len l.
Proof.
  induction l as [|c l IH]; [done|]. destruct (decide (defined c)) as [Hd|Hd].
  - rewrite filter_cons_True by done. rewrite (filter_cons_False (fun c => ~ defined c)) by (by intros []). cbn [List.length]. lia.
  - rewrite filter_cons_False by done. rewrite (filter_cons_True (fun c => ~ defined c)) by done. cbn [List.length]. lia.
Qed.

(** ** The sorted array *)

(** The cells in their new order: the smaller first, and the ones that are equal in the
    order in which they were. *)
Definition stably_sorted (order : V -> V -> Z) (cs : list (V * Z)) : Prop := forall i j a b, (i < j)%nat -> cs !! i = Some a -> cs !! j = Some b ->
  order (fst a) (fst b) < 0 \/ order (fst a) (fst b) = 0 /\ snd a < snd b.

(** The elements after the sort: the cells, the [undefined] and the holes. *)
Definition sorted_elements (cs : list (V * Z)) (undefined n : Z) e (i : Z) : option V :=
  if decide (0 <= i < n) then
    match cs !! Z.to_nat i with
    | Some c => Some (fst c)
    | None => if decide (i < len cs + undefined) then Some JS_UNDEFINED else None
    end
  else e !! i.

(** The calls before the first element is read. *)
Class PlainCall (this_val method : V) (n : Z) : Prop := {
  call_check w : JS_IsUndefined method = false -> exists w', check_function method w = (false, w') /\ elements w' = elements w;
  call_object w : exists w', JS_ToObject this_val w = (Some obj, w') /\ elements w' = elements w;
  call_length w : exists w', js_get_length64 obj w = (Some n, w') /\ elements w' = elements w
}.

Definition cell_of slot : V * Z := (val slot, pos slot).

Lemma sorted_cells method text order (CO : ConsistentOrder order) (Hans : answers method text order) (cs : list (V * Z)) array :
  NoDup (snd <$> cs) -> sorted_array (slot_key text) (stable (rank method order)) True (List.length (cell_slot <$> cs)) (cell_slot <$> cs) array ->
  cell_of <$> array ≡ₚ cs /\ stably_sorted order (cell_of <$> array).
Proof.
  intros Hnd (Hl & P & _ & S). rewrite !take_ge in P by lia. specialize (S I).
  assert (P1 : cell_of <$> array ≡ₚ cs).
  { apply (fmap_Permutation (fun k : list Z * V * Z => (snd (fst k), snd k))) in P. rewrite <- !list_fmap_compose in P.
    etransitivity; [exact P|]. clear. apply (reflexive_eq (R := Permutation)). induction cs as [|[] cs IH]; [done|]. cbn. f_equal. exact IH. }
  split; [exact P1|]. intros i j a b Hij Ea Eb. rewrite list_lookup_fmap in Ea, Eb.
  destruct (array !! i) as [x|] eqn:Ex; [|done]. destruct (array !! j) as [y|] eqn:Ey; [|done]. injection Ea as <-. injection Eb as <-.
  assert (Ht : forall k z, array !! k = Some z -> slot_text text z = text (val z)).
  { intros k z Ez. assert (Hz : slot_key text z ∈ slot_key text <$> (cell_slot <$> cs)) by (rewrite <- P; apply list_elem_of_fmap_2; by eapply list_elem_of_lookup_2).
    rewrite <- list_fmap_compose in Hz. apply list_elem_of_fmap in Hz as (c & [= H1 H2 _] & _). by rewrite H1, H2. }
  assert (Hr : rank method order (slot_text text x, val x) (slot_text text y, val y) = order (val x) (val y)).
  { unfold rank. unfold answers in Hans. destruct method; [done|]. cbn. rewrite (Ht i x Ex), (Ht j y Ey). symmetry. apply Hans. }
  assert (Hne : pos x <> pos y).
  { intros Hp. assert (Hnd' : NoDup (snd <$> (cell_of <$> array))) by (by rewrite P1). rewrite <- list_fmap_compose in Hnd'.
    assert (i = j); [|lia]. eapply NoDup_lookup; [exact Hnd'|..]; rewrite list_lookup_fmap, ?Ex, ?Ey; cbn; [done|by rewrite Hp]. }
  specialize (S i j x y Hij). rewrite length_fmap in *. apply lookup_lt_Some in Ey as Hj.
  destruct (S ltac:(lia) Ex Ey) as [H1|[H1 H2]]; unfold slot_key in *; cbn [fst snd] in *; rewrite Hr in H1; unfold cell_of; cbn; lia.
Qed.

Lemma js_array_sort_plain this_val method n text order w own (CO : ConsistentOrder order) (PC : PlainCall this_val method n) : n < 2 ^ 50 ->
  answers (if JS_IsUndefined method then None else Some method) text order ->
  let e := elements w in forall r s, js_array_sort this_val method w own = Some (r, s) ->
  r = Some obj /\ exists cs, cs ≡ₚ filter defined (cells e 0 n) /\ stably_sorted order cs /\
    forall i, elements (world s) !! i = sorted_elements cs (undefined_cells e 0 n) n e i.
Proof.
  intros Hn Hans e r s. unfold js_array_sort. cbv zeta.
  set (check := if JS_IsUndefined method then _ else _). assert (Hc : exists w1, check = (false, w1) /\ elements w1 = e).
  { unfold check. cbn [world]. destruct (JS_IsUndefined method) eqn:Em; [by exists w|]. by destruct (call_check w Em) as (w1 & -> & ?); exists w1. }
  destruct Hc as (w1 & -> & E1). cbn [world set_world]. destruct (call_object w1) as (w2 & -> & E2). set (s2 := hold obj _).
  assert (Q2 : quiet e s2) by (unfold s2, hold; destruct (JS_IsUndefined obj); split; cbn; congruence).
  destruct (call_length (world s2)) as (w3 & -> & E3). set (s3 := set_world w3 s2).
  assert (Hn0 : 0 <= n). { destruct (call_length (world s2)) as (w' & El & _). apply length_range in El. lia. }
  assert (Q3 : quiet e s3) by (destruct Q2; split; cbn; congruence).
  set (m := if JS_IsUndefined method then None else Some method) in *.
  intros ([[[failed array] u] s4] & Ec & E)%bind_Some. apply (collect_plain e) in Ec as (s4' & [= -> -> -> ->] & Q4); try done; try lia.
  rewrite Z.sub_0_r, Z.add_0_l in E; cbn [app] in E. set (cs0 := filter defined (cells e 0 n)) in *.
  pose proof (filter_lengths (cells e 0 n)) as Hfl. pose proof (cells_length e 0 n Hn0) as Hcl. fold cs0 in Hfl.
  destruct (rqsort_spec (CMP := plain_comparison m text order Hans) s4' (cell_slot <$> cs0) (List.length (cell_slot <$> cs0))) as (s5 & array & Es & Ev & Hs);
    [done|rewrite length_fmap; lia|].
  rewrite Es in E. cbn [mbind option_bind] in E. apply (evolves_quiet m text order Hans e) in Ev; [|done]. destruct Ev as [X5 E5]. cbn [fst] in *. rewrite X5 in E.
  assert (Hnd : NoDup (snd <$> cs0)).
  { pose proof (cells_nodup e (Z.to_nat n) 0) as Hnd. rewrite Z2Nat.id in Hnd by lia. eapply sublist_NoDup; [exact Hnd|]. apply fmap_sublist, sublist_filter. }
  destruct (sorted_cells m text order CO Hans cs0 array Hnd) as [P S]. { destruct Hs as (H1 & H2 & H3 & H4). split_and!; try done. intros _. by apply H4. }
  pose proof (Permutation_length P) as HL. rewrite length_fmap in HL.
  apply bind_Some in E as ([rest s6] & Ew & E). apply (write_back_plain _ e) in Ew as [-> Q6]; [|by split|].
  2: { intros k slot Hk _. assert (Hin : cell_of slot ∈ cs0) by (rewrite <- P; apply list_elem_of_fmap_2; by eapply list_elem_of_lookup_2).
       apply list_elem_of_filter in Hin as [_ Hin]. unfold cell_of in Hin. by apply elem_of_cells in Hin as [_ Hin]. }
  destruct (fill_undefined_plain (Z.to_nat (undefined_cells e 0 n)) _ _ (len array) Q6) as (s7 & E7 & Q7). rewrite E7 in E.
  destruct (delete_rest_plain (Z.to_nat (n - (len array + undefined_cells e 0 n))) _ _ (len array + undefined_cells e 0 n) Q7) as (s8 & e8 & E8 & Q8 & H8).
  rewrite E8 in E. injection E as <- <-. split; [done|]. exists (cell_of <$> array). split_and!; try done. intros i. destruct Q8 as [_ ->]. rewrite H8, !write_all_lookup.
  assert (Hu : 0 <= undefined_cells e 0 n) by (unfold undefined_cells; lia). fold (undefined_cells e 0 n) in Hfl.
  unfold sorted_elements. rewrite (list_lookup_fmap cell_of), (list_lookup_fmap val), !length_fmap, length_replicate.
  destruct (decide (0 <= i < n)) as [Hi|Hi]; [|rewrite decide_False, decide_False, decide_False by lia; done].
  destruct (decide (i < len array)) as [Hia|Hia].
  - rewrite decide_False, decide_False, decide_True by lia. rewrite Z.sub_0_r.
    destruct (lookup_lt_is_Some_2 array (Z.to_nat i)) as [x ->]; [lia|]. done.
  - rewrite (lookup_ge_None_2 array (Z.to_nat i)) by lia. cbn. destruct (decide (i < len array + undefined_cells e 0 n)).
    + rewrite decide_False, decide_True by lia. by rewrite lookup_replicate_2 by lia.
    + rewrite decide_True by lia. done.
Qed.
End order.

(** ** Theorems *)

(** C34: whatever the code of the guest does in the comparison, in the conversions or in the
    accesses to the object, [js_array_sort] ends without undefined behaviour, and of the
    references to values and strings that it takes, each is handed over or released exactly
    once: at the end it holds those that it held before, and the object that it returns. *)
Theorem array_sort_releases {V Wd} {EqV : EqDecision V} {G : Guest V Wd} (GL : GuestLaws G) this_val method w own :
  exists r s, js_array_sort this_val method w own = Some (r, s) /\
    owned s ≡ₚ match r with Some obj => refs obj | None => [] end ++ own.
Proof. destruct (js_array_sort_runs this_val method w own) as ([r s] & E & P). by exists r, s. Qed.

(** C35: on an object whose elements are plain data, with a consistent comparison (the
    method, or the default order of the strings), [js_array_sort] returns the object with
    its elements sorted, the equal ones in the order in which they were, then the
    [undefined], then the holes; the elements past the length stay. *)
Theorem array_sort_stable {V Wd} {EqV : EqDecision V} {G : Guest V Wd} (GL : GuestLaws G) (elements : Wd -> gmap Z V) obj
    (PA : PlainArray elements obj) this_val method n text order (CO : ConsistentOrder order) (PC : PlainCall elements obj this_val method n) w own :
  n < 2 ^ 50 -> answers elements (if JS_IsUndefined method then None else Some method) text order ->
  let e := elements w in
  exists s cs, js_array_sort this_val method w own = Some (Some obj, s) /\ cs ≡ₚ filter defined (cells e 0 n) /\ stably_sorted order cs /\
    forall i, elements (world s) !! i = sorted_elements cs (undefined_cells e 0 n) n e i.
Proof.
  intros Hn Ha e. destruct (js_array_sort_runs this_val method w own) as ([r s] & E & _).
  destruct (js_array_sort_plain elements obj this_val method n text order w own CO PC Hn Ha r s E) as (-> & cs & H). by exists s, cs.
Qed.

(** An array of numbers, -1 for [undefined]; the method 7 compares the tens. *)
#[local] Instance numbers : Guest Z (gmap Z Z) := {
  JS_UNDEFINED := -1;
  JS_MKPTR _ := -2;
  memcmp_eq := Z.eqb;
  as_int := Some;
  check_function _ w := (false, w);
  JS_ToObject v w := (Some v, w);
  js_get_length64 _ w := (Some 8, w);
  js_realloc2 k w := (if k <=? 2 ^ 56 then Some 0 else None, w);
  JS_TryGetPropertyInt64 _ i w := (Some (w !! i), w);
  JS_SetPropertyInt64 _ i v w := (false, <[i:=v]> w);
  JS_DeletePropertyInt64 _ i w := (false, delete i w);
  JS_Call _ x y w := (Some (x / 10 - y / 10), w);
  JS_ToFloat64Free _ w := (None, w);
  JS_ToString v w := (Some (mkString false [v]), w);
  JS_FreeValueGuest _ w := w
}.
#[local] Instance numbers_laws : GuestLaws numbers.
Proof.
  split; cbn.
  - intros v w n w' [= <- <-]. lia.
  - intros k w slack w'. destruct (Z.leb_spec k (2 ^ 56)); intros [= <- <-]. lia.
Qed.
#[local] Instance numbers_plain obj : PlainArray (Wd := gmap Z Z) (fun w => w) obj.
Proof.
  split; cbn; try (intros; by eexists).
  intros k w Hk. exists 0, w. by replace (k <=? 2 ^ 56) with true by lia.
Qed.
Definition tens (x y : Z) : Z := x / 10 - y / 10.
#[local] Instance tens_order : ConsistentOrder tens.
Proof. unfold tens. split; intros; lia. Qed.
#[local] Instance numbers_call : PlainCall (Wd := gmap Z Z) (fun w => w) 5 5 7 8.
Proof. split; cbn; intros; by eexists. Qed.

Definition sample : gmap Z Z := list_to_map [(0, 31); (1, 12); (2, -1); (3, 33); (5, 11); (6, 30); (7, 5); (9, 1)].

Example sort_sample : (fun '(r, s) => (r, (fun i => world s !! i) <$> seqZ 0 10)) <$> js_array_sort 5 7 sample [] =
  Some (Some 5, [Some 5; Some 12; Some 11; Some 31; Some 33; Some 30; Some (-1); None; None; Some 1]).
Proof. vm_compute. reflexivity. Qed.

Lemma array_sort_releases_witness : exists r s, js_array_sort 5 7 sample [4] = Some (r, s) /\
    owned s ≡ₚ match r with Some obj => refs obj | None => [] end ++ [4].
Proof. apply (array_sort_releases numbers_laws 5 7 sample [4]). Defined.

Lemma array_sort_stable_witness : exists s cs, js_array_sort 5 7 sample [] = Some (Some 5, s) /\ cs ≡ₚ filter defined (cells sample 0 8) /\
  stably_sorted tens cs /\ forall i, world s !! i = sorted_elements cs (undefined_cells sample 0 8) 8 sample i.
Proof.
  apply (array_sort_stable numbers_laws (fun w => w) 5 _ 5 7 8 (fun _ => []) tens _ _ sample []); [lia|]. cbn. split.
  - intros x y w. exists (x / 10 - y / 10), w, (three_way Z.gtb (x / 10 - y / 10) 0), w. split_and!; try done. unfold three_way, tens. lia.
  - intros x y Hxy%Z.eqb_eq. unfold tens. subst. lia.
Defined.
