(* ===== verification/UnicodeTables.v ===== *)
(** * Unicode tables

    The tables of [src/quickjs/libunicode-table.h] that the case conversion, the classes of
    characters and the identifiers read.  A run of [case_conv_table1] has its first code
    point in 17 bits, its length in 7, its type in 4 and the high bits of its data in 4;
    [case_conv_table2] has the low bits of the data. *)
From S2P Require Export Prelude.

Definition case_conv_table1 : list Z := [
  0x209a30; 0x309a00; 0x5a8173; 0x601730; 0x6c0730; 0x6f81b3; 0x701700; 0x7c0700; 0x7f8100; 0x803040;
  0x9801c3; 0x988190; 0x990640; 0x9c9040; 0xa481b4; 0xa52e40; 0xbc0130; 0xbc8640; 0xbf8170; 0xc00100;
  0xc08130; 0xc10440; 0xc30130; 0xc38240; 0xc48230; 0xc58240; 0xc70130; 0xc78130; 0xc80130; 0xc88240;
  0xc98130; 0xca0130; 0xca8100; 0xcb0130; 0xcb8130; 0xcc0240; 0xcd0100; 0xcd8101; 0xce0130; 0xce8130;
  0xcf0100; 0xcf8130; 0xd00640; 0xd30130; 0xd38240; 0xd48130; 0xd60240; 0xd70130; 0xd78240; 0xd88230;
  0xd98440; 0xdb8130; 0xdc0240; 0xde0240; 0xdf8100; 0xe20350; 0xe38350; 0xe50350; 0xe69040; 0xee8100;
  0xef1240; 0xf801b4; 0xf88350; 0xfa0240; 0xfb0130; 0xfb8130; 0xfc2840; 0x1100130; 0x1111240; 0x11d0131;
  0x11d8240; 0x11e8130; 0x11f0131; 0x11f8201; 0x1208240; 0x1218130; 0x1220130; 0x1228130; 0x1230a40;
  0x1280101; 0x1288101; 0x1290101; 0x1298100; 0x12a0100; 0x12b0200; 0x12c8100; 0x12d8100; 0x12e0101;
  0x1300100; 0x1308101; 0x1318100; 0x1320101; 0x1328101; 0x1330101; 0x1340100; 0x1348100; 0x1350101;
  0x1358101; 0x1360101; 0x1378100; 0x1388101; 0x1390100; 0x13a8100; 0x13e8101; 0x1400100; 0x1410101;
  0x1418100; 0x1438101; 0x1440100; 0x1448100; 0x1450200; 0x1460100; 0x1490100; 0x14e8101; 0x14f0101;
  0x1a28173; 0x1b80440; 0x1bb0240; 0x1bd8300; 0x1bf8130; 0x1c30130; 0x1c40330; 0x1c60130; 0x1c70230;
  0x1c801d0; 0x1c89130; 0x1d18930; 0x1d60100; 0x1d68300; 0x1d801d3; 0x1d89100; 0x1e10173; 0x1e18900;
  0x1e60100; 0x1e68200; 0x1e78130; 0x1e80173; 0x1e88173; 0x1ea8173; 0x1eb0173; 0x1eb8100; 0x1ec1840;
  0x1f80173; 0x1f88173; 0x1f90100; 0x1f98100; 0x1fa01a0; 0x1fa8173; 0x1fb8240; 0x1fc8130; 0x1fd0240;
  0x1fe8330; 0x2001030; 0x2082030; 0x2182000; 0x2281000; 0x2302240; 0x2453640; 0x2600130; 0x2608e40;
  0x2678100; 0x2686040; 0x298a630; 0x2b0a600; 0x2c381b5; 0x8502631; 0x8638131; 0x8668131; 0x8682b00;
  0x87e8300; 0x9d05011; 0x9f80610; 0x9fc0620; 0xe400174; 0xe408174; 0xe410174; 0xe418174; 0xe420174;
  0xe428174; 0xe430174; 0xe438180; 0xe440180; 0xe448240; 0xe482b30; 0xe5e8330; 0xebc8101; 0xebe8101;
  0xec70101; 0xf007e40; 0xf3f1840; 0xf4b01b5; 0xf4b81b6; 0xf4c01b6; 0xf4c81b6; 0xf4d01b7; 0xf4d8180;
  0xf4f0130; 0xf506040; 0xf800800; 0xf840830; 0xf880600; 0xf8c0630; 0xf900800; 0xf940830; 0xf980800;
  0xf9c0830; 0xfa00600; 0xfa40630; 0xfa801b0; 0xfa88100; 0xfa901d3; 0xfa98100; 0xfaa01d3; 0xfaa8100;
  0xfab01d3; 0xfab8100; 0xfac8130; 0xfad8130; 0xfae8130; 0xfaf8130; 0xfb00800; 0xfb40830; 0xfb80200;
  0xfb90400; 0xfbb0201; 0xfbc0201; 0xfbd0201; 0xfbe0201; 0xfc008b7; 0xfc40867; 0xfc808b8; 0xfcc0868;
  0xfd008b8; 0xfd40868; 0xfd80200; 0xfd901b9; 0xfd981b1; 0xfda01b9; 0xfdb01b1; 0xfdb81d7; 0xfdc0230;
  0xfdd0230; 0xfde0161; 0xfdf0173; 0xfe101b9; 0xfe181b2; 0xfe201ba; 0xfe301b2; 0xfe381d8; 0xfe40430;
  0xfe60162; 0xfe80201; 0xfe901d0; 0xfe981d0; 0xfeb01b0; 0xfeb81d0; 0xfec0230; 0xfed0230; 0xff00201;
  0xff101d3; 0xff181d3; 0xff201ba; 0xff28101; 0xff301b0; 0xff381d3; 0xff40231; 0xff50230; 0xff60131;
  0xff901ba; 0xff981b2; 0xffa01bb; 0xffb01b2; 0xffb81d9; 0xffc0230; 0xffd0230; 0xffe0162; 0x109301a0;
  0x109501a0; 0x109581a0; 0x10990131; 0x10a70101; 0x10b01031; 0x10b81001; 0x10c18240; 0x125b1a31;
  0x12681a01; 0x16003031; 0x16183001; 0x16300240; 0x16310130; 0x16318130; 0x16320130; 0x16328100;
  0x16330100; 0x16338640; 0x16368130; 0x16370130; 0x16378130; 0x16380130; 0x16390240; 0x163a8240;
  0x163f0230; 0x16406440; 0x16758440; 0x16790240; 0x16802600; 0x16938100; 0x16968100; 0x53202e40;
  0x53401c40; 0x53910e40; 0x53993e40; 0x53bc8440; 0x53be8130; 0x53bf0a40; 0x53c58240; 0x53c68130;
  0x53c80440; 0x53ca0101; 0x53cb1440; 0x53d50130; 0x53d58130; 0x53d60130; 0x53d68130; 0x53d70130;
  0x53d80130; 0x53d88130; 0x53d90130; 0x53d98131; 0x53da1040; 0x53e20131; 0x53e28130; 0x53e30130;
  0x53e38440; 0x53e58130; 0x53e61040; 0x53ee0130; 0x53fa8240; 0x55a98101; 0x55b85020; 0x7d8001b2;
  0x7d8081b2; 0x7d8101b2; 0x7d8181da; 0x7d8201da; 0x7d8281b3; 0x7d8301b3; 0x7d8981bb; 0x7d8a01bb;
  0x7d8a81bb; 0x7d8b01bc; 0x7d8b81bb; 0x7f909a31; 0x7fa09a01; 0x82002831; 0x82142801; 0x82582431;
  0x826c2401; 0x82b80b31; 0x82be0f31; 0x82c60731; 0x82ca0231; 0x82cb8b01; 0x82d18f01; 0x82d98701;
  0x82dd8201; 0x86403331; 0x86603301; 0x86a81631; 0x86b81601; 0x8c502031; 0x8c602001; 0xb7202031;
  0xb7302001; 0xb7501931; 0xb75d9901; 0xf4802231; 0xf4912201].

Definition case_conv_table2 : list Z := [
  0x1; 0x0; 0x9c; 0x6; 0x7; 0x4d; 0x3; 0x4; 0x10; 0x0; 0x8f; 0xb; 0x0; 0x0; 0x11; 0x0; 0x8; 0x0; 0x53;
  0x4b; 0x52; 0x0; 0x53; 0x0; 0x54; 0x0; 0x3b; 0x55; 0x56; 0x0; 0x58; 0x5a; 0x40; 0x5f; 0x5e; 0x0; 0x47;
  0x50; 0x63; 0x65; 0x43; 0x66; 0x0; 0x68; 0x0; 0x6a; 0x0; 0x6c; 0x0; 0x6e; 0x0; 0x70; 0x0; 0x0; 0x41; 0x0;
  0x0; 0x0; 0x0; 0x1a; 0x0; 0x93; 0x0; 0x0; 0x20; 0x36; 0x0; 0x28; 0x0; 0x24; 0x0; 0x24; 0x25; 0x2d; 0x0;
  0x13; 0x6d; 0x6f; 0x0; 0x29; 0x27; 0x2a; 0x14; 0x16; 0x18; 0x1b; 0x1c; 0x41; 0x1e; 0x42; 0x1f; 0x4e;
  0x3c; 0x40; 0x22; 0x21; 0x44; 0x21; 0x43; 0x26; 0x28; 0x27; 0x29; 0x23; 0x2b; 0x4b; 0x2d; 0x46; 0x2f;
  0x4c; 0x31; 0x4d; 0x33; 0x47; 0x45; 0x99; 0x0; 0x0; 0x97; 0x91; 0x7f; 0x80; 0x85; 0x86; 0x12; 0x82; 0x84;
  0x78; 0x79; 0x12; 0x7d; 0xa3; 0x7e; 0x7a; 0x7b; 0x8c; 0x92; 0x98; 0xa6; 0xa0; 0x87; 0x0; 0x9a; 0xa1;
  0x95; 0x77; 0x33; 0x95; 0x0; 0x90; 0x0; 0x76; 0x9b; 0x9a; 0x99; 0x98; 0x0; 0x0; 0xa0; 0x0; 0x9e; 0x0;
  0xa3; 0xa2; 0x15; 0x31; 0x32; 0x33; 0xb7; 0xb8; 0x53; 0xac; 0xab; 0x12; 0x14; 0x1e; 0x21; 0x22; 0x22;
  0x2a; 0x34; 0x35; 0x0; 0xa8; 0xa9; 0x39; 0x22; 0x4c; 0x0; 0x0; 0x97; 0x1; 0x5a; 0xda; 0x1d; 0x36; 0x5;
  0x0; 0xc7; 0xc6; 0xc9; 0xc8; 0xcb; 0xca; 0xcd; 0xcc; 0xcf; 0xce; 0xc4; 0xd8; 0x45; 0xd9; 0x42; 0xda;
  0x46; 0xdb; 0xd1; 0xd3; 0xd5; 0xd7; 0xdd; 0xdc; 0xf1; 0xf9; 0x1; 0x11; 0xa; 0x12; 0x80; 0x9f; 0x0; 0x21;
  0x80; 0xa3; 0xf0; 0x0; 0xc0; 0x40; 0xc6; 0x60; 0xea; 0xde; 0xe6; 0x99; 0xc0; 0x0; 0x0; 0x6; 0x60; 0xdf;
  0x29; 0x0; 0x15; 0x12; 0x6; 0x16; 0xfb; 0xe0; 0x9; 0x15; 0x12; 0x84; 0xb; 0xc6; 0x16; 0x2; 0xe2; 0x6;
  0xc0; 0x40; 0x0; 0x46; 0x60; 0xe1; 0xe3; 0x6d; 0x37; 0x38; 0x39; 0x18; 0x17; 0x1a; 0x19; 0x0; 0x1d; 0x1c;
  0x1f; 0x1e; 0x0; 0x61; 0xba; 0x67; 0x45; 0x48; 0x0; 0x50; 0x64; 0x4f; 0x51; 0x0; 0x0; 0x49; 0x0; 0x0;
  0x0; 0xa5; 0xa6; 0xa7; 0x0; 0x0; 0x0; 0x0; 0x0; 0xb9; 0x0; 0x0; 0x5c; 0x0; 0x4a; 0x0; 0x5d; 0x57; 0x59;
  0x62; 0x60; 0x72; 0x6b; 0x71; 0x52; 0x0; 0x3e; 0x69; 0xbb; 0x0; 0x5b; 0x0; 0x25; 0x0; 0x48; 0xaa; 0x8a;
  0x8b; 0x8c; 0xab; 0xac; 0x58; 0x58; 0xaf; 0x94; 0xb0; 0x6f; 0xb2; 0x61; 0x60; 0x63; 0x62; 0x65; 0x64;
  0x6a; 0x6b; 0x6c; 0x6d; 0x66; 0x67; 0x68; 0x69; 0x6f; 0x6e; 0x71; 0x70; 0x73; 0x72; 0x75; 0x74; 0x77;
  0x76; 0x79; 0x78].

Definition case_conv_ext : list Z := [
  0x399; 0x308; 0x301; 0x3a5; 0x313; 0x300; 0x342; 0x391; 0x397; 0x3a9; 0x46; 0x49; 0x4c; 0x53; 0x69;
  0x307; 0x2bc; 0x4e; 0x4a; 0x30c; 0x535; 0x552; 0x48; 0x331; 0x54; 0x57; 0x30a; 0x59; 0x41; 0x2be; 0x1f08;
  0x1f80; 0x1f28; 0x1f90; 0x1f68; 0x1fa0; 0x1fba; 0x386; 0x1fb3; 0x1fca; 0x389; 0x1fc3; 0x3a1; 0x1ffa;
  0x38f; 0x1ff3; 0x544; 0x546; 0x53b; 0x54e; 0x53d; 0x3b8; 0x462; 0xa64a; 0x1e60; 0x3c9; 0x6b; 0xe5].

(** Run lengths, and the index into them every 32 bytes. *)
Definition unicode_prop_Cased1_table : list Z := [
  0x40; 0xa9; 0x80; 0x8e; 0x80; 0xfc; 0x80; 0xd3; 0x80; 0x9b; 0x81; 0x8d; 0x2; 0x80; 0xe1; 0x80; 0x91;
  0x85; 0x9a; 0x1; 0x0; 0x1; 0x11; 0x3; 0x4; 0x8; 0x1; 0x8; 0x30; 0x8; 0x1; 0x15; 0x20; 0x1; 0x31; 0x99;
  0x31; 0x9d; 0x84; 0x40; 0x94; 0x80; 0xd6; 0x82; 0xa6; 0x80; 0x41; 0x62; 0x80; 0xa6; 0x80; 0x4b; 0x72;
  0x80; 0x4c; 0x2; 0xf8; 0x2; 0x80; 0x8f; 0x80; 0xb0; 0x40; 0xdb; 0x8; 0x80; 0x41; 0xd0; 0x80; 0x8c; 0x80;
  0x8f; 0x8c; 0xe4; 0x3; 0x1; 0x89; 0x0; 0x14; 0x28; 0x10; 0x11; 0x2; 0x1; 0x18; 0xb; 0x24; 0x4b; 0x26;
  0x1; 0x1; 0x86; 0xe5; 0x80; 0x60; 0x79; 0xb6; 0x81; 0x40; 0x91; 0x81; 0xbd; 0x88; 0x94; 0x5; 0x80; 0x98;
  0x80; 0xc0; 0x1a; 0x82; 0x43; 0x34; 0xa2; 0x6; 0x80; 0x8d; 0x60; 0x5c; 0x15; 0x1; 0x10; 0xa9; 0x80; 0x88;
  0x60; 0xcc; 0x44; 0xd4; 0x80; 0xc6; 0x1; 0x8; 0x9; 0xb; 0x80; 0x8b; 0x0; 0x6; 0x80; 0xc0; 0x3; 0xf; 0x6;
  0x80; 0x9b; 0x3; 0x4; 0x0; 0x16; 0x80; 0x41; 0x53; 0x81; 0x98; 0x80; 0x98; 0x80; 0x9e; 0x80; 0x98; 0x80;
  0x9e; 0x80; 0x98; 0x80; 0x9e; 0x80; 0x98; 0x80; 0x9e; 0x80; 0x98; 0x7; 0x47; 0x33; 0x89; 0x80; 0x93;
  0x2d; 0x41; 0x4; 0xbd; 0x50; 0xc1; 0x99; 0x85; 0x99; 0x85; 0x99].

Definition unicode_prop_Cased1_index : list Z := [
  0xb9; 0x2; 0x80; 0xa0; 0x1e; 0x40; 0x9e; 0xa6; 0x40; 0x55; 0xd4; 0x21; 0x15; 0xd7; 0x21; 0x8a; 0xf1; 0x1].

Definition unicode_prop_Case_Ignorable_table : list Z := [
  0xa6; 0x5; 0x80; 0x8a; 0x80; 0xa2; 0x0; 0x80; 0xc6; 0x3; 0x0; 0x3; 0x1; 0x81; 0x41; 0xf6; 0x40; 0xbf;
  0x19; 0x18; 0x88; 0x8; 0x80; 0x40; 0xfa; 0x86; 0x40; 0xce; 0x4; 0x80; 0xb0; 0xac; 0x0; 0x1; 0x1; 0x0;
  0xab; 0x80; 0x8a; 0x85; 0x89; 0x8a; 0x0; 0xa2; 0x80; 0x89; 0x94; 0x8f; 0x80; 0xe4; 0x38; 0x89; 0x3; 0xa0;
  0x0; 0x80; 0x9d; 0x9a; 0xda; 0x8a; 0xb9; 0x8a; 0x18; 0x8; 0x97; 0x97; 0xaa; 0x82; 0xab; 0x6; 0xc; 0x88;
  0xa8; 0xb9; 0xb6; 0x0; 0x3; 0x3b; 0x2; 0x86; 0x89; 0x81; 0x8c; 0x80; 0x8e; 0x80; 0xb9; 0x3; 0x1f; 0x80;
  0x93; 0x81; 0x99; 0x1; 0x81; 0xb8; 0x3; 0xb; 0x9; 0x12; 0x80; 0x9d; 0xa; 0x80; 0x8a; 0x81; 0xb8; 0x3;
  0x20; 0xb; 0x80; 0x93; 0x81; 0x95; 0x28; 0x80; 0xb9; 0x1; 0x0; 0x1f; 0x6; 0x81; 0x8a; 0x81; 0x9d; 0x80;
  0xbc; 0x80; 0x8b; 0x80; 0xb1; 0x2; 0x80; 0xb6; 0x0; 0x14; 0x10; 0x1e; 0x81; 0x8a; 0x81; 0x9c; 0x80; 0xb9;
  0x1; 0x5; 0x4; 0x81; 0x93; 0x81; 0x9b; 0x81; 0xb8; 0xb; 0x1f; 0x80; 0x93; 0x81; 0x9c; 0x80; 0xc7; 0x6;
  0x10; 0x80; 0xd9; 0x1; 0x86; 0x8a; 0x88; 0xe1; 0x1; 0x88; 0x88; 0x0; 0x86; 0xc8; 0x81; 0x9a; 0x0; 0x0;
  0x80; 0xb6; 0x8d; 0x4; 0x1; 0x84; 0x8a; 0x80; 0xa3; 0x88; 0x80; 0xe5; 0x18; 0x28; 0x9; 0x81; 0x98; 0xb;
  0x82; 0x8f; 0x83; 0x8c; 0x1; 0xd; 0x80; 0x8e; 0x80; 0xdd; 0x80; 0x42; 0x5f; 0x82; 0x43; 0xb1; 0x82; 0x9c;
  0x81; 0x9d; 0x81; 0x9d; 0x81; 0xbf; 0x8; 0x37; 0x1; 0x8a; 0x10; 0x20; 0xac; 0x84; 0xb2; 0x80; 0xc0; 0x81;
  0xa1; 0x80; 0xf5; 0x13; 0x81; 0x88; 0x5; 0x82; 0x40; 0xda; 0x9; 0x80; 0xb9; 0x0; 0x30; 0x0; 0x1; 0x3d;
  0x89; 0x8; 0xa6; 0x7; 0xad; 0x81; 0x8b; 0x93; 0x83; 0xaf; 0x0; 0x20; 0x4; 0x80; 0xa7; 0x88; 0x8b; 0x81;
  0x9f; 0x19; 0x8; 0x82; 0xb7; 0x0; 0xa; 0x0; 0x82; 0xb9; 0x39; 0x81; 0xbf; 0x85; 0xd1; 0x10; 0x8c; 0x6;
  0x18; 0x28; 0x11; 0xb1; 0xbe; 0x8c; 0x80; 0xa1; 0xe4; 0x41; 0xbc; 0x0; 0x82; 0x8a; 0x82; 0x8c; 0x82;
  0x8c; 0x82; 0x8c; 0x81; 0x8b; 0x27; 0x81; 0x89; 0x1; 0x1; 0x84; 0xb0; 0x20; 0x89; 0x0; 0x8c; 0x80; 0x8f;
  0x8c; 0xb2; 0xa0; 0x4b; 0x8a; 0x81; 0xf0; 0x82; 0xfc; 0x80; 0x8e; 0x80; 0xdf; 0x9f; 0xae; 0x80; 0x41;
  0xd4; 0x80; 0xa3; 0x1a; 0x24; 0x80; 0xdc; 0x85; 0xdc; 0x82; 0x60; 0x6f; 0x15; 0x80; 0x44; 0xe1; 0x85;
  0x41; 0xd; 0x80; 0xe1; 0x18; 0x89; 0x0; 0x9b; 0x83; 0xcf; 0x81; 0x8d; 0xa1; 0xcd; 0x80; 0x96; 0x82; 0xe5;
  0x1a; 0xf; 0x2; 0x3; 0x80; 0x98; 0xc; 0x80; 0x40; 0x96; 0x81; 0x99; 0x91; 0x8c; 0x80; 0xa5; 0x87; 0x98;
  0x8a; 0xad; 0x82; 0xaf; 0x1; 0x19; 0x81; 0x90; 0x80; 0x94; 0x81; 0xc1; 0x29; 0x9; 0x81; 0x8b; 0x7; 0x80;
  0xa2; 0x80; 0x8a; 0x80; 0xb2; 0x0; 0x11; 0xc; 0x8; 0x80; 0x9a; 0x80; 0x8d; 0xc; 0x8; 0x80; 0xe3; 0x84;
  0x88; 0x82; 0xf8; 0x1; 0x3; 0x80; 0x60; 0x4f; 0x2f; 0x80; 0x40; 0x92; 0x90; 0x42; 0x3c; 0x8f; 0x10; 0x8b;
  0x8f; 0xa1; 0x1; 0x80; 0x40; 0xa8; 0x6; 0x5; 0x80; 0x8a; 0x80; 0xa2; 0x0; 0x80; 0xae; 0x80; 0xac; 0x81;
  0xc2; 0x80; 0x94; 0x82; 0x42; 0x0; 0x80; 0x40; 0xe1; 0x80; 0x40; 0x94; 0x84; 0x44; 0x4; 0x28; 0xa9; 0x80;
  0x88; 0x42; 0x45; 0x10; 0xc; 0x83; 0xa7; 0x13; 0x80; 0x40; 0xa4; 0x81; 0x42; 0x3c; 0x83; 0xa5; 0x80;
  0x99; 0x20; 0x80; 0x41; 0x3a; 0x81; 0x97; 0x80; 0xb3; 0x85; 0xc5; 0x8a; 0xb0; 0x83; 0xfa; 0x80; 0xb5;
  0x8e; 0xa8; 0x1; 0x81; 0x89; 0x82; 0xb0; 0x19; 0x9; 0x3; 0x80; 0x89; 0x80; 0xb1; 0x82; 0xa3; 0x20; 0x87;
  0xbd; 0x80; 0x8b; 0x81; 0xb3; 0x88; 0x89; 0x19; 0x80; 0xde; 0x11; 0x0; 0xd; 0x1; 0x80; 0x40; 0x9c; 0x2;
  0x87; 0x94; 0x81; 0xb8; 0xa; 0x80; 0xa4; 0x32; 0x84; 0xc5; 0x85; 0x8c; 0x0; 0x0; 0x80; 0x8d; 0x81; 0xd4;
  0x39; 0x10; 0x80; 0x96; 0x80; 0xd3; 0x28; 0x3; 0x8; 0x81; 0x40; 0xed; 0x1d; 0x8; 0x81; 0x9a; 0x81; 0xd4;
  0x39; 0x0; 0x81; 0xe9; 0x0; 0x1; 0x28; 0x80; 0xe4; 0x0; 0x1; 0x18; 0x84; 0x41; 0x2; 0x88; 0x1; 0x40;
  0xff; 0x8; 0x3; 0x80; 0x40; 0x8f; 0x19; 0xb; 0x80; 0x9f; 0x89; 0xa7; 0x29; 0x1f; 0x80; 0x88; 0x29; 0x82;
  0xad; 0x8c; 0x1; 0x40; 0xc5; 0x0; 0x10; 0x80; 0x40; 0xc8; 0x30; 0x28; 0x80; 0xd1; 0x95; 0xe; 0x1; 0x1;
  0xf9; 0x2a; 0x0; 0x8; 0x30; 0x80; 0xc7; 0xa; 0x0; 0x80; 0xc0; 0x80; 0x41; 0x18; 0x81; 0x8a; 0x81; 0xb3;
  0x24; 0x0; 0x80; 0x96; 0x80; 0x54; 0xd4; 0x90; 0x85; 0x8e; 0x60; 0x2c; 0xc7; 0x8b; 0x12; 0x49; 0xbf;
  0x84; 0xba; 0x86; 0x88; 0x83; 0x41; 0xfb; 0x82; 0xa7; 0x81; 0x41; 0xe1; 0x80; 0xbe; 0x90; 0xbf; 0x8;
  0x81; 0x8c; 0x81; 0x60; 0x3f; 0xfb; 0x18; 0x30; 0x81; 0x4c; 0x9d; 0x8; 0x83; 0x52; 0x5b; 0xad; 0x81;
  0x96; 0x42; 0x1f; 0x82; 0x88; 0x8f; 0xe; 0x9d; 0x83; 0x40; 0x93; 0x82; 0x47; 0xba; 0xb6; 0x83; 0xb1;
  0x38; 0x8d; 0x80; 0x95; 0x20; 0x8e; 0x45; 0x4f; 0x30; 0x90; 0xe; 0x1; 0x4; 0x84; 0xbd; 0xa0; 0x80; 0x40;
  0x9f; 0x8d; 0x41; 0x6f; 0x80; 0xbc; 0x83; 0x41; 0xfa; 0x84; 0x40; 0xfd; 0x81; 0x40; 0xf2; 0x1; 0x6; 0xc;
  0x80; 0x88; 0x80; 0x41; 0xcf; 0x86; 0xec; 0x87; 0x4a; 0xae; 0x84; 0x6c; 0xc; 0x0; 0x80; 0x9d; 0xdf; 0xff;
  0x40; 0xef].

Definition unicode_prop_Case_Ignorable_index : list Z := [
  0xbe; 0x5; 0x0; 0xfe; 0x7; 0x0; 0x52; 0xa; 0xa0; 0xc1; 0xb; 0x0; 0x82; 0xd; 0x0; 0x3f; 0x10; 0x80; 0xd4;
  0x17; 0x40; 0xde; 0x1a; 0x20; 0xe9; 0x1c; 0x0; 0x72; 0x20; 0x0; 0x16; 0xa0; 0x40; 0xc6; 0xa8; 0x40; 0xc2;
  0xaa; 0xa0; 0x30; 0xfe; 0x0; 0xb1; 0x7; 0x41; 0x51; 0xf; 0x1; 0xd0; 0x11; 0x1; 0x5f; 0x14; 0x1; 0x44;
  0x19; 0x61; 0xa8; 0x1c; 0x1; 0x2a; 0x61; 0x61; 0xff; 0xaf; 0x1; 0x19; 0xe0; 0x61; 0x0; 0xe7; 0x1; 0xf0;
  0x1; 0xe].

Definition unicode_prop_ID_Start_table : list Z := [
  0xc0; 0x99; 0x85; 0x99; 0xae; 0x80; 0x89; 0x3; 0x4; 0x96; 0x80; 0x9e; 0x80; 0x41; 0xc9; 0x83; 0x8b; 0x8d;
  0x26; 0x0; 0x80; 0x40; 0x80; 0x20; 0x9; 0x18; 0x5; 0x0; 0x10; 0x0; 0x93; 0x80; 0xd2; 0x80; 0x40; 0x8a;
  0x87; 0x40; 0xa5; 0x80; 0xa5; 0x8; 0x85; 0xa8; 0xc6; 0x9a; 0x1b; 0xac; 0xaa; 0xa2; 0x8; 0xe2; 0x0; 0x8e;
  0xe; 0x81; 0x89; 0x11; 0x80; 0x8f; 0x0; 0x9d; 0x9c; 0xd8; 0x8a; 0x80; 0x97; 0xa0; 0x88; 0xb; 0x4; 0x95;
  0x18; 0x88; 0x2; 0x80; 0x96; 0x98; 0x86; 0x8a; 0x84; 0x97; 0x6; 0x8f; 0xa9; 0xb9; 0xb5; 0x10; 0x91; 0x6;
  0x89; 0x8e; 0x8f; 0x1f; 0x9; 0x81; 0x95; 0x6; 0x0; 0x13; 0x10; 0x8f; 0x80; 0x8c; 0x8; 0x82; 0x8d; 0x81;
  0x89; 0x7; 0x2b; 0x9; 0x95; 0x6; 0x1; 0x1; 0x1; 0x9e; 0x18; 0x80; 0x92; 0x82; 0x8f; 0x88; 0x2; 0x80;
  0x95; 0x6; 0x1; 0x4; 0x10; 0x91; 0x80; 0x8e; 0x81; 0x96; 0x80; 0x8a; 0x39; 0x9; 0x95; 0x6; 0x1; 0x4;
  0x10; 0x9d; 0x8; 0x82; 0x8e; 0x80; 0x90; 0x0; 0x2a; 0x10; 0x1a; 0x8; 0x0; 0xa; 0xa; 0x12; 0x8b; 0x95;
  0x80; 0xb3; 0x38; 0x10; 0x96; 0x80; 0x8f; 0x10; 0x99; 0x10; 0x9; 0x81; 0x9d; 0x3; 0x38; 0x10; 0x96; 0x80;
  0x89; 0x4; 0x10; 0x9d; 0x10; 0x81; 0x8e; 0x81; 0x90; 0x88; 0x2; 0x80; 0xa8; 0x8; 0x8f; 0x4; 0x17; 0x82;
  0x97; 0x2c; 0x91; 0x82; 0x97; 0x80; 0x88; 0x0; 0xe; 0xb9; 0xaf; 0x1; 0x8b; 0x86; 0xb9; 0x8; 0x0; 0x20;
  0x97; 0x0; 0x80; 0x89; 0x1; 0x88; 0x1; 0x20; 0x80; 0x94; 0x83; 0x9f; 0x80; 0xbe; 0x38; 0xa3; 0x9a; 0x84;
  0xf2; 0xaa; 0x93; 0x80; 0x8f; 0x2b; 0x1a; 0x2; 0xe; 0x13; 0x8c; 0x8b; 0x80; 0x90; 0xa5; 0x0; 0x20; 0x81;
  0xaa; 0x80; 0x41; 0x4c; 0x3; 0xe; 0x0; 0x3; 0x81; 0xa8; 0x3; 0x81; 0xa0; 0x3; 0xe; 0x0; 0x3; 0x81; 0x8e;
  0x80; 0xb8; 0x3; 0x81; 0xc2; 0xa4; 0x8f; 0x8f; 0xd5; 0xd; 0x82; 0x42; 0x6b; 0x81; 0x90; 0x80; 0x99; 0x84;
  0xca; 0x82; 0x8a; 0x86; 0x91; 0x8c; 0x92; 0x8d; 0x91; 0x8d; 0x8c; 0x2; 0x8e; 0xb3; 0xa2; 0x3; 0x80; 0xc2;
  0xd8; 0x86; 0xa8; 0x0; 0x84; 0xc5; 0x89; 0x9e; 0xb0; 0x9d; 0xc; 0x8a; 0xab; 0x83; 0x99; 0xb5; 0x96; 0x88;
  0xb4; 0xd1; 0x80; 0xdc; 0xae; 0x90; 0x87; 0xb5; 0x9d; 0x8c; 0x81; 0x89; 0xab; 0x99; 0xa3; 0xa8; 0x82;
  0x89; 0xa3; 0x81; 0x8a; 0x84; 0xaa; 0xa; 0xa8; 0x18; 0x28; 0xa; 0x4; 0x40; 0xbf; 0xbf; 0x41; 0x15; 0xd;
  0x81; 0xa5; 0xd; 0xf; 0x0; 0x0; 0x0; 0x80; 0x9e; 0x81; 0xb4; 0x6; 0x0; 0x12; 0x6; 0x13; 0xd; 0x83; 0x8c;
  0x22; 0x6; 0xf3; 0x80; 0x8c; 0x80; 0x8f; 0x8c; 0xe4; 0x3; 0x1; 0x89; 0x0; 0xd; 0x28; 0x0; 0x0; 0x80;
  0x8f; 0xb; 0x24; 0x18; 0x90; 0xa8; 0x4a; 0x76; 0x40; 0xe4; 0x2b; 0x11; 0x8b; 0xa5; 0x0; 0x20; 0x81; 0xb7;
  0x30; 0x8f; 0x96; 0x88; 0x30; 0x30; 0x30; 0x30; 0x30; 0x30; 0x30; 0x86; 0x42; 0x25; 0x82; 0x98; 0x88;
  0x34; 0xc; 0x83; 0xd5; 0x1c; 0x80; 0xd9; 0x3; 0x84; 0xaa; 0x80; 0xdd; 0x90; 0x9f; 0xaf; 0x8f; 0x41; 0xff;
  0x59; 0xbf; 0xbf; 0x60; 0x56; 0x8c; 0xc2; 0xad; 0x81; 0x41; 0xc; 0x82; 0x8f; 0x89; 0x81; 0x93; 0xae;
  0x8f; 0x9e; 0x81; 0xcf; 0xa6; 0x88; 0x81; 0xe6; 0x81; 0xd1; 0x93; 0x90; 0x2; 0x3; 0x80; 0x96; 0x9c; 0xb3;
  0x8d; 0xb1; 0xbd; 0x2a; 0x0; 0x81; 0x8a; 0x9b; 0x89; 0x96; 0x98; 0x9c; 0x86; 0xae; 0x9b; 0x80; 0x8f;
  0x20; 0x89; 0x89; 0x20; 0xa8; 0x96; 0x10; 0x87; 0x93; 0x96; 0x10; 0x82; 0xb1; 0x0; 0x11; 0xc; 0x8; 0x0;
  0x97; 0x11; 0x8a; 0x32; 0x8b; 0x29; 0x29; 0x85; 0x88; 0x30; 0x30; 0xaa; 0x80; 0x8d; 0x85; 0xf2; 0x9c;
  0x60; 0x2b; 0xa3; 0x8b; 0x96; 0x83; 0xb0; 0x60; 0x21; 0x3; 0x41; 0x6d; 0x81; 0xe9; 0xa5; 0x86; 0x8b;
  0x24; 0x0; 0x89; 0x80; 0x8c; 0x4; 0x0; 0x1; 0x1; 0x80; 0xeb; 0xa0; 0x41; 0x6a; 0x91; 0xbf; 0x81; 0xb5;
  0xa7; 0x8b; 0xf3; 0x20; 0x40; 0x86; 0xa3; 0x99; 0x85; 0x99; 0x8a; 0xd8; 0x15; 0xd; 0xd; 0xa; 0xa2; 0x8b;
  0x80; 0x99; 0x80; 0x92; 0x1; 0x80; 0x8e; 0x81; 0x8d; 0xa1; 0xfa; 0xc4; 0xb4; 0x41; 0xa; 0x9c; 0x82; 0xb0;
  0xae; 0x9f; 0x8c; 0x9d; 0x84; 0xa5; 0x89; 0x9d; 0x81; 0xa3; 0x1f; 0x4; 0xa9; 0x40; 0x9d; 0x91; 0xa3;
  0x83; 0xa3; 0x83; 0xa7; 0x87; 0xb3; 0x8b; 0x8a; 0x80; 0x8e; 0x6; 0x1; 0x80; 0x8a; 0x80; 0x8e; 0x6; 0x1;
  0x82; 0xb3; 0x8b; 0x41; 0x36; 0x88; 0x95; 0x89; 0x87; 0x97; 0x28; 0xa9; 0x80; 0x88; 0xc4; 0x29; 0x0;
  0xab; 0x1; 0x10; 0x81; 0x96; 0x89; 0x96; 0x88; 0x9e; 0xc0; 0x92; 0x1; 0x89; 0x95; 0x89; 0x99; 0x85; 0x99;
  0xa5; 0xb7; 0x29; 0xbf; 0x80; 0x8e; 0x18; 0x10; 0x9c; 0xa9; 0x9c; 0x82; 0x9c; 0xa2; 0x38; 0x9b; 0x9a;
  0xb5; 0x89; 0x95; 0x89; 0x92; 0x8c; 0x91; 0xed; 0xc8; 0xb6; 0xb2; 0x8c; 0xb2; 0x8c; 0xa3; 0xa5; 0x9b;
  0x88; 0x96; 0x40; 0xf9; 0xa9; 0x29; 0x8f; 0x85; 0xb7; 0x9c; 0x89; 0x7; 0x95; 0xa9; 0x91; 0xad; 0x94;
  0x9a; 0x96; 0x8b; 0xb4; 0xb8; 0x9; 0x80; 0x8c; 0xac; 0x9f; 0x98; 0x99; 0xa3; 0x9c; 0x1; 0x7; 0xa2; 0x10;
  0x8b; 0xaf; 0x8d; 0x83; 0x94; 0x0; 0x80; 0xa2; 0x91; 0x80; 0x98; 0x92; 0x81; 0xbe; 0x30; 0x0; 0x18; 0x8e;
  0x80; 0x89; 0x86; 0xae; 0xa5; 0x39; 0x9; 0x95; 0x6; 0x1; 0x4; 0x10; 0x91; 0x80; 0x8b; 0x84; 0x9d; 0x89;
  0x0; 0x8; 0x80; 0xa5; 0x0; 0x98; 0x0; 0x80; 0xab; 0xb4; 0x91; 0x83; 0x93; 0x82; 0x9d; 0xaf; 0x93; 0x8;
  0x80; 0x40; 0xb7; 0xae; 0xa8; 0x83; 0xa3; 0xaf; 0x93; 0x80; 0xba; 0xaa; 0x8c; 0x80; 0xc6; 0x9a; 0xa4;
  0x86; 0x40; 0xb8; 0xab; 0xf3; 0xbf; 0x9e; 0x39; 0x1; 0x38; 0x8; 0x97; 0x8e; 0x0; 0x80; 0xdd; 0x39; 0xa6;
  0x8f; 0x0; 0x80; 0x9b; 0x80; 0x89; 0xa7; 0x30; 0x94; 0x80; 0x8a; 0xad; 0x92; 0x80; 0x91; 0xc8; 0x40;
  0xc6; 0xa0; 0x9e; 0x88; 0x80; 0xa4; 0x90; 0x80; 0xb0; 0x9d; 0xef; 0x30; 0x8; 0xa5; 0x94; 0x80; 0x98;
  0x28; 0x8; 0x9f; 0x8d; 0x80; 0x96; 0xab; 0x41; 0x3; 0x92; 0x8e; 0x0; 0x8c; 0x80; 0xa1; 0xfb; 0x80; 0xce;
  0x43; 0x99; 0xe5; 0xee; 0x90; 0x40; 0xc3; 0x4a; 0x4b; 0xe0; 0x8e; 0x44; 0x2f; 0x90; 0x85; 0x98; 0x4f;
  0x9a; 0x84; 0x42; 0x46; 0x5a; 0xb8; 0x9d; 0x46; 0xe1; 0x42; 0x38; 0x86; 0x9e; 0x90; 0xce; 0x90; 0x9d;
  0x91; 0xaf; 0x8f; 0x83; 0x9e; 0x94; 0x84; 0x92; 0x41; 0xaf; 0xac; 0x40; 0xd2; 0xbf; 0x9f; 0x98; 0x81;
  0x98; 0xab; 0xca; 0x20; 0xc1; 0x8c; 0xbf; 0x8; 0x80; 0x8d; 0x84; 0x88; 0x5c; 0xd5; 0xa8; 0x9f; 0xe0;
  0xf2; 0x60; 0x21; 0xfc; 0x18; 0x30; 0x8; 0x41; 0x22; 0x8e; 0x80; 0x9c; 0x11; 0x80; 0x8d; 0x1f; 0x41;
  0x8b; 0x49; 0x3; 0xea; 0x84; 0x8c; 0x82; 0x88; 0x86; 0x89; 0x57; 0x65; 0xd4; 0x80; 0xc6; 0x1; 0x8; 0x9;
  0xb; 0x80; 0x8b; 0x0; 0x6; 0x80; 0xc0; 0x3; 0xf; 0x6; 0x80; 0x9b; 0x3; 0x4; 0x0; 0x16; 0x80; 0x41; 0x53;
  0x81; 0x98; 0x80; 0x98; 0x80; 0x9e; 0x80; 0x98; 0x80; 0x9e; 0x80; 0x98; 0x80; 0x9e; 0x80; 0x98; 0x80;
  0x9e; 0x80; 0x98; 0x7; 0x47; 0x33; 0x9e; 0x2d; 0x41; 0x4; 0xbd; 0x40; 0x91; 0xac; 0x89; 0x86; 0x8f; 0x80;
  0x41; 0x40; 0x9d; 0x91; 0xab; 0x41; 0xe3; 0x9b; 0x40; 0xe3; 0x9d; 0x8; 0x40; 0xce; 0x9e; 0x2; 0x1; 0x6;
  0xc; 0x88; 0x81; 0x40; 0xdf; 0x30; 0x18; 0x8; 0x8e; 0x80; 0x40; 0xc4; 0xba; 0xc3; 0x30; 0x44; 0xb3; 0x18;
  0x9a; 0x1; 0x0; 0x8; 0x80; 0x89; 0x3; 0x0; 0x0; 0x28; 0x18; 0x0; 0x0; 0x2; 0x1; 0x0; 0x8; 0x0; 0x0; 0x0;
  0x0; 0x1; 0x0; 0xb; 0x6; 0x3; 0x3; 0x0; 0x80; 0x89; 0x80; 0x90; 0x22; 0x4; 0x80; 0x90; 0x51; 0x43; 0x60;
  0xa6; 0xdf; 0x9f; 0x51; 0x1d; 0x81; 0x56; 0x8d; 0x81; 0x5d; 0x30; 0x8e; 0x42; 0x6d; 0x49; 0xa1; 0x42;
  0x1d; 0x45; 0xe1; 0x53; 0x4a; 0x84; 0x60; 0x21; 0x29].

Definition unicode_prop_ID_Start_index : list Z := [
  0xf6; 0x3; 0x20; 0xa6; 0x7; 0x0; 0xa9; 0x9; 0x20; 0xb1; 0xa; 0x0; 0xba; 0xb; 0x20; 0x3b; 0xd; 0x20; 0xc7;
  0xe; 0x20; 0x49; 0x12; 0x0; 0x9b; 0x16; 0x0; 0xac; 0x19; 0x0; 0xc0; 0x1d; 0x80; 0x80; 0x20; 0x20; 0x70;
  0x2d; 0x0; 0x0; 0x32; 0x0; 0x6; 0xa8; 0x0; 0x77; 0xaa; 0x0; 0xfc; 0xd7; 0x0; 0xfd; 0xfe; 0x40; 0xd1; 0x2;
  0x1; 0xb2; 0x5; 0x21; 0xf6; 0x8; 0x1; 0x49; 0xc; 0x1; 0x76; 0x10; 0x1; 0xdf; 0x12; 0x21; 0xc8; 0x14;
  0x41; 0x42; 0x19; 0x21; 0x31; 0x1d; 0x61; 0xf1; 0x2f; 0x41; 0x78; 0x6b; 0x1; 0x23; 0xb1; 0xa1; 0xad;
  0xd4; 0x1; 0x6f; 0xd7; 0x1; 0xee; 0xe5; 0x1; 0x38; 0xee; 0x1; 0xe0; 0xa6; 0x42; 0x7a; 0x34; 0x3].

Definition unicode_prop_ID_Continue1_table : list Z := [
  0xaf; 0x89; 0xa4; 0x80; 0xd6; 0x80; 0x42; 0x47; 0xef; 0x96; 0x80; 0x40; 0xfa; 0x84; 0x41; 0x8; 0xac; 0x0;
  0x1; 0x1; 0x0; 0xc7; 0x8a; 0xaf; 0x9e; 0x28; 0xe4; 0x31; 0x29; 0x8; 0x19; 0x89; 0x96; 0x80; 0x9d; 0x9a;
  0xda; 0x8a; 0x8e; 0x89; 0xa0; 0x88; 0x88; 0x80; 0x97; 0x18; 0x88; 0x2; 0x4; 0xaa; 0x82; 0xba; 0x88; 0xa9;
  0x97; 0x80; 0xa0; 0xb5; 0x10; 0x91; 0x6; 0x89; 0x9; 0x89; 0x90; 0x82; 0xb7; 0x0; 0x31; 0x9; 0x82; 0x88;
  0x80; 0x89; 0x9; 0x89; 0x8d; 0x1; 0x82; 0xb7; 0x0; 0x23; 0x9; 0x12; 0x80; 0x93; 0x8b; 0x10; 0x8a; 0x82;
  0xb7; 0x0; 0x38; 0x10; 0x82; 0x93; 0x9; 0x89; 0x89; 0x28; 0x82; 0xb7; 0x0; 0x31; 0x9; 0x16; 0x82; 0x89;
  0x9; 0x89; 0x91; 0x80; 0xba; 0x22; 0x10; 0x83; 0x88; 0x80; 0x8d; 0x89; 0x8f; 0x84; 0xb6; 0x0; 0x30; 0x10;
  0x1e; 0x81; 0x8a; 0x9; 0x89; 0x90; 0x82; 0xb7; 0x0; 0x30; 0x10; 0x1e; 0x81; 0x8a; 0x9; 0x89; 0x10; 0x8b;
  0x83; 0xb6; 0x8; 0x30; 0x10; 0x83; 0x88; 0x80; 0x89; 0x9; 0x89; 0x90; 0x82; 0xc5; 0x3; 0x28; 0x0; 0x3d;
  0x89; 0x9; 0xbc; 0x1; 0x86; 0x8b; 0x38; 0x89; 0xd6; 0x1; 0x88; 0x8a; 0x30; 0x89; 0xbd; 0xd; 0x89; 0x8a;
  0x0; 0x0; 0x3; 0x81; 0xb0; 0x93; 0x1; 0x84; 0x8a; 0x80; 0xa3; 0x88; 0x80; 0xe3; 0x93; 0x80; 0x89; 0x8b;
  0x1b; 0x10; 0x11; 0x32; 0x83; 0x8c; 0x8b; 0x80; 0x8e; 0x42; 0xbe; 0x82; 0x88; 0x88; 0x43; 0x9f; 0x83;
  0x9b; 0x82; 0x9c; 0x81; 0x9d; 0x81; 0xbf; 0x9f; 0x88; 0x1; 0x89; 0xa0; 0x10; 0x8a; 0x40; 0x8e; 0x80;
  0xf5; 0x8b; 0x83; 0x8b; 0x89; 0x89; 0xff; 0x8a; 0xbb; 0x84; 0xb8; 0x89; 0x80; 0x9c; 0x81; 0x8a; 0x85;
  0x89; 0x95; 0x8d; 0x80; 0x9e; 0x81; 0x8b; 0x93; 0x84; 0xae; 0x90; 0x8a; 0x89; 0x90; 0x88; 0x8b; 0x82;
  0x9d; 0x8c; 0x81; 0x89; 0xab; 0x8d; 0xaf; 0x93; 0x87; 0x89; 0x85; 0x89; 0xf5; 0x10; 0x94; 0x18; 0x28;
  0xa; 0x40; 0xc5; 0xbf; 0x42; 0xb; 0x81; 0xb0; 0x81; 0x92; 0x80; 0xfa; 0x8c; 0x18; 0x82; 0x8b; 0x4b; 0xfd;
  0x82; 0x40; 0x8c; 0x80; 0xdf; 0x9f; 0x42; 0x29; 0x85; 0xe8; 0x81; 0xdf; 0x80; 0x60; 0x75; 0x23; 0x89;
  0xc4; 0x3; 0x89; 0x9f; 0x81; 0xcf; 0x81; 0x41; 0xf; 0x2; 0x3; 0x80; 0x96; 0x23; 0x80; 0xd2; 0x81; 0xb1;
  0x91; 0x89; 0x89; 0x85; 0x91; 0x8c; 0x8a; 0x9b; 0x87; 0x98; 0x8c; 0xab; 0x83; 0xae; 0x8d; 0x8e; 0x89;
  0x8a; 0x80; 0x89; 0x89; 0xae; 0x8d; 0x8b; 0x7; 0x9; 0x89; 0xa0; 0x82; 0xb1; 0x0; 0x11; 0xc; 0x8; 0x80;
  0xa8; 0x24; 0x81; 0x40; 0xeb; 0x38; 0x9; 0x89; 0x60; 0x4f; 0x23; 0x80; 0x42; 0xe0; 0x8f; 0x8f; 0x8f;
  0x11; 0x97; 0x82; 0x40; 0xbf; 0x89; 0xa4; 0x80; 0xa4; 0x80; 0x42; 0x96; 0x80; 0x40; 0xe1; 0x80; 0x40;
  0x94; 0x84; 0x41; 0x24; 0x89; 0x45; 0x56; 0x10; 0xc; 0x83; 0xa7; 0x13; 0x80; 0x40; 0xa4; 0x81; 0x42;
  0x3c; 0x1f; 0x89; 0x85; 0x89; 0x9e; 0x84; 0x41; 0x3c; 0x81; 0xcc; 0x85; 0xc5; 0x8a; 0xb0; 0x83; 0xf9;
  0x82; 0xb4; 0x8e; 0x9e; 0x8a; 0x9; 0x89; 0x83; 0xac; 0x8a; 0x30; 0xac; 0x89; 0x2a; 0xa3; 0x8d; 0x80;
  0x89; 0x21; 0xab; 0x80; 0x8b; 0x82; 0xaf; 0x8d; 0x3b; 0x80; 0x8b; 0xd1; 0x8b; 0x28; 0x8; 0x40; 0x9c;
  0x8b; 0x84; 0x89; 0x2b; 0xb6; 0x8; 0x31; 0x9; 0x82; 0x88; 0x80; 0x89; 0x9; 0x32; 0x84; 0xc2; 0x88; 0x0;
  0x8; 0x3; 0x4; 0x0; 0x8d; 0x81; 0xd1; 0x91; 0x88; 0x89; 0x18; 0xd0; 0x93; 0x8b; 0x89; 0x40; 0xd4; 0x31;
  0x88; 0x9a; 0x81; 0xd1; 0x90; 0x8e; 0x89; 0xd0; 0x8c; 0x87; 0x89; 0x85; 0x93; 0xb8; 0x8e; 0x83; 0x89;
  0x40; 0xf1; 0x8e; 0x40; 0xa4; 0x89; 0xc5; 0x28; 0x9; 0x18; 0x0; 0x81; 0x8b; 0x89; 0xf6; 0x31; 0x32; 0x80;
  0x9b; 0x89; 0xa7; 0x30; 0x1f; 0x80; 0x88; 0x8a; 0xad; 0x8f; 0x40; 0xc5; 0x87; 0x40; 0x87; 0x89; 0xb4;
  0x38; 0x87; 0x8f; 0x89; 0xb7; 0x95; 0x80; 0x8d; 0xf9; 0x2a; 0x0; 0x8; 0x30; 0x7; 0x89; 0xaf; 0x20; 0x8;
  0x27; 0x89; 0xb5; 0x89; 0x41; 0x8; 0x83; 0x88; 0x8; 0x80; 0xaf; 0x32; 0x84; 0x8c; 0x8a; 0x54; 0xe4; 0x5;
  0x8e; 0x60; 0x2c; 0xc7; 0x9b; 0x49; 0x25; 0x89; 0xd5; 0x89; 0xa5; 0x84; 0xba; 0x86; 0x98; 0x89; 0x42;
  0x15; 0x89; 0x41; 0xd4; 0x0; 0xb6; 0x33; 0xd0; 0x80; 0x8a; 0x81; 0x60; 0x4c; 0xaa; 0x81; 0x50; 0x50;
  0x89; 0x42; 0x5; 0xad; 0x81; 0x96; 0x42; 0x1d; 0x22; 0x2f; 0x39; 0x86; 0x9d; 0x83; 0x40; 0x93; 0x82;
  0x45; 0x88; 0xb1; 0x41; 0xff; 0xb6; 0x83; 0xb1; 0x38; 0x8d; 0x80; 0x95; 0x20; 0x8e; 0x45; 0x4f; 0x30;
  0x90; 0xe; 0x1; 0x4; 0xe3; 0x80; 0x40; 0x9f; 0x86; 0x88; 0x89; 0x41; 0x63; 0x80; 0xbc; 0x8d; 0x41; 0xf1;
  0x8d; 0x40; 0xf3; 0x8; 0x89; 0x40; 0xe7; 0x1; 0x6; 0xc; 0x80; 0x41; 0xd9; 0x86; 0xec; 0x34; 0x89; 0x52;
  0x95; 0x89; 0x6c; 0x5; 0x5; 0x40; 0xef].

Definition unicode_prop_ID_Continue1_index : list Z := [
  0xfa; 0x6; 0x0; 0x70; 0x9; 0x0; 0xf0; 0xa; 0x40; 0x57; 0xc; 0x0; 0xf0; 0xd; 0x60; 0xc7; 0xf; 0x20; 0xea;
  0x17; 0x40; 0xec; 0x1a; 0x0; 0xe; 0x20; 0x40; 0x7e; 0xa6; 0x20; 0xda; 0xa9; 0x20; 0x10; 0xfe; 0x40; 0x40;
  0xa; 0x41; 0xbb; 0x10; 0x21; 0x4e; 0x13; 0x41; 0xde; 0x15; 0x1; 0xe5; 0x19; 0x1; 0x5a; 0x1d; 0x1; 0xf5;
  0x6a; 0x21; 0x8c; 0xd1; 0x61; 0x37; 0xe1; 0x41; 0xf0; 0x1; 0xe].

Definition unicode_prop_Soft_Dotted_table : list Z := [
  0xe8; 0x81; 0x40; 0xc3; 0x80; 0x41; 0x18; 0x80; 0x9d; 0x80; 0xb3; 0x80; 0x93; 0x80; 0x41; 0x3f; 0x80;
  0xe1; 0x0; 0x80; 0x59; 0x8; 0x80; 0xb2; 0x80; 0x8c; 0x2; 0x80; 0x40; 0x83; 0x80; 0x40; 0x9c; 0x80; 0x41;
  0xa4; 0x80; 0x40; 0xd5; 0x81; 0x4b; 0x31; 0x80; 0x61; 0xa7; 0xa4; 0x81; 0xb1; 0x81; 0xb1; 0x81; 0xb1;
  0x81; 0xb1; 0x81; 0xb1; 0x81; 0xb1; 0x81; 0xb1; 0x81; 0xb1; 0x81; 0xb1; 0x81; 0xb1; 0x81; 0xb1; 0x81;
  0xb1; 0x81; 0x48; 0x85; 0x80; 0x41; 0x30; 0x81; 0x99; 0x80].

Definition unicode_prop_Soft_Dotted_index : list Z := [
  0xcc; 0x1e; 0x40; 0xf8; 0xd5; 0x21; 0x69; 0xe0; 0x1].

