(* ===== verification/UnicodeCase.v ===== *)
(** * Case conversion

    The conversions between cases and the canonical characters of regular expressions, of
    [src/quickjs/libunicode.c].  [None] is an access out of a table. *)
From S2P Require Export UnicodeTables.

Definition LRE_CC_RES_LEN_MAX : Z := 3.

(** The types of the runs. *)
Definition RUN_TYPE_U : Z := 0.
Definition RUN_TYPE_L : Z := 1.
Definition RUN_TYPE_UF : Z := 2.
Definition RUN_TYPE_LF : Z := 3.
Definition RUN_TYPE_UL : Z := 4.
Definition RUN_TYPE_LSU : Z := 5.
Definition RUN_TYPE_U2L_399_EXT2 : Z := 6.
Definition RUN_TYPE_UF_D20 : Z := 7.
Definition RUN_TYPE_UF_D1_EXT : Z := 8.
Definition RUN_TYPE_U_EXT : Z := 9.
Definition RUN_TYPE_LF_EXT : Z := 10.
Definition RUN_TYPE_UF_EXT2 : Z := 11.
Definition RUN_TYPE_LF_EXT2 : Z := 12.
Definition RUN_TYPE_UF_EXT3 : Z := 13.

Definition table_at (tab : list Z) (i : Z) : option Z := guard (0 <= i);; tab !! Z.to_nat i.

(** The fields of a run. *)
Definition run_code (v : Z) : Z := v >> (32 - 17).
Definition run_len (v : Z) : Z := (v >> (32 - 17 - 7)) .& 0x7f.
Definition run_type (v : Z) : Z := (v >> (32 - 17 - 7 - 4)) .& 0xf.

(** The result is [res] up to the length that the C function returns; [conv1] is
    [lre_case_conv1]. *)
Definition lre_case_conv_entry (conv1 : Z -> Z -> option Z) (c conv_type idx v : Z) : option (list Z) :=
  let is_lower := b2z (negb (conv_type =? 0)) in
  let type := run_type v in
  low ← table_at case_conv_table2 idx;
  let data := ((v .& 0xf) << 8) .| low in
  let code := run_code v in
  let ext i := table_at case_conv_ext i in
  if type <=? RUN_TYPE_LF then
    if (conv_type =? type .& 1) || ((RUN_TYPE_UF <=? type) && (conv_type =? 2)) then
      w ← table_at case_conv_table1 data; Some [u32 (c - code + run_code w)]
    else Some [c]
  else if type =? RUN_TYPE_UL then
    let a := u32 (c - code) in
    if negb (a .& 1 =? 1 - is_lower) then Some [c] else Some [u32 ((a .^ 1) + code)]
  else if type =? RUN_TYPE_LSU then
    let a := u32 (c - code) in
    if a =? 1 then Some [u32 (c + (2 * is_lower - 1))]
    else if a =? (1 - is_lower) * 2 then Some [u32 (c + (2 * is_lower - 1) * 2)] else Some [c]
  else if type =? RUN_TYPE_U2L_399_EXT2 then
    if is_lower =? 0 then e ← ext (data >> 6); Some [u32 (c - code + e); 0x399]
    else e ← ext (data .& 0x3f); Some [u32 (c - code + e)]
  else if type =? RUN_TYPE_UF_D20 then
    if conv_type =? 1 then Some [c] else Some [data + b2z (conv_type =? 2) * 0x20]
  else if type =? RUN_TYPE_UF_D1_EXT then
    if conv_type =? 1 then Some [c] else e ← ext data; Some [e + b2z (conv_type =? 2)]
  else if (type =? RUN_TYPE_U_EXT) || (type =? RUN_TYPE_LF_EXT) then
    if negb (is_lower =? type - RUN_TYPE_U_EXT) then Some [c] else e ← ext data; Some [e]
  else if type =? RUN_TYPE_LF_EXT2 then
    if is_lower =? 0 then Some [c]
    else e ← ext (data >> 6); e1 ← ext (data .& 0x3f); Some [u32 (c - code + e); e1]
  else if type =? RUN_TYPE_UF_EXT2 then
    if conv_type =? 1 then Some [c]
    else
      e ← ext (data >> 6); e1 ← ext (data .& 0x3f);
      let r0 := u32 (c - code + e) in
      if conv_type =? 2 then r0 ← conv1 r0 1; r1 ← conv1 e1 1; Some [r0; r1] else Some [r0; e1]
  else
    if conv_type =? 1 then Some [c]
    else
      e0 ← ext (data >> 8); e1 ← ext ((data >> 4) .& 0xf); e2 ← ext (data .& 0xf);
      if conv_type =? 2 then r0 ← conv1 e0 1; r1 ← conv1 e1 1; r2 ← conv1 e2 1; Some [r0; r1; r2]
      else Some [e0; e1; e2].

(** The binary search of the run of [c]: its index and its entry. *)
Fixpoint case_search (fuel : nat) (c idx_min idx_max : Z) : option (option (Z * Z)) :=
  if idx_min <=? idx_max then
    match fuel with
    | O => None
    | S fuel =>
        let idx := (idx_max + idx_min) / 2 in
        v ← table_at case_conv_table1 idx;
        let code := run_code v in
        let len := run_len v in
        if c <? code then case_search fuel c idx_min (idx - 1)
        else if code + len <=? c then case_search fuel c (idx + 1) idx_max
        else Some (Some (idx, v))
    end
  else Some None.

Definition search_run (c : Z) : option (option (Z * Z)) :=
  case_search (length case_conv_table1) c 0 (len case_conv_table1 - 1).

(** [case_conv] is [lre_case_conv], on at most [fuel] nested calls. *)
Fixpoint case_conv (fuel : nat) (c conv_type : Z) : option (list Z) :=
  match fuel with
  | O => None
  | S fuel =>
      if c <? 128 then
        if negb (conv_type =? 0) then Some [if (65 <=? c) && (c <=? 90) then c - 65 + 97 else c]
        else Some [if (97 <=? c) && (c <=? 122) then c - 97 + 65 else c]
      else
        r ← search_run c;
        match r with
        | Some (idx, v) => lre_case_conv_entry (fun c t => res ← case_conv fuel c t; head res) c conv_type idx v
        | None => Some [c]
        end
  end.

(** A conversion to lower case calls nothing else: two calls are enough. *)
Definition lre_case_conv (c conv_type : Z) : option (list Z) := case_conv 2 c conv_type.
Definition lre_case_conv1 (c conv_type : Z) : option Z := res ← lre_case_conv c conv_type; head res.

Definition lre_case_folding_entry (c idx v : Z) (is_unicode : bool) : option Z :=
  if is_unicode then
    res ← lre_case_conv_entry lre_case_conv1 c 2 idx v;
    match res with
    | [r] => Some r
    | _ => Some (if c =? 0xfb06 then 0xfb05 else if c =? 0x1fd3 then 0x390 else if c =? 0x1fe3 then 0x3b0 else c)
    end
  else if c <? 128 then Some (if (97 <=? c) && (c <=? 122) then c - 97 + 65 else c)
  else
    res ← lre_case_conv_entry lre_case_conv1 c 0 idx v;
    match res with
    | [r] => Some (if 128 <=? r then r else c)
    | _ => Some c
    end.

Definition lre_canonicalize (c : Z) (is_unicode : bool) : option Z :=
  if c <? 128 then
    if is_unicode then Some (if (65 <=? c) && (c <=? 90) then c - 65 + 97 else c)
    else Some (if (97 <=? c) && (c <=? 122) then c - 97 + 65 else c)
  else
    r ← search_run c;
    match r with
    | Some (idx, v) => lre_case_folding_entry c idx v is_unicode
    | None => Some c
    end.

Example upper_sharp_s : lre_case_conv 0xdf 0 = Some [0x53; 0x53].
Proof. vm_compute. reflexivity. Qed.
Example fold_final_sigma : lre_canonicalize 0x3c2 true = Some 0x3c3.
Proof. vm_compute. reflexivity. Qed.
Example upper_e_acute : lre_canonicalize 0xe9 false = Some 0xc9.
Proof. vm_compute. reflexivity. Qed.
Example fold_ffl : lre_case_conv 0xfb04 2 = Some [0x66; 0x66; 0x6c].
Proof. vm_compute. reflexivity. Qed.
