(* ===== verification/UnicodeClass.v ===== *)
(** * Classes of characters

    The tests of [src/quickjs/libunicode.c] and [libunicode.h] on code points: the bits of
    the Latin-1 characters, the spaces, and the properties that are stored as run lengths
    with an index.  [None] is an access out of a table. *)
From S2P Require Export UnicodeCase Bytes.

Definition UNICODE_C_SPACE : Z := 1.
Definition UNICODE_C_DIGIT : Z := 2.
Definition UNICODE_C_UPPER : Z := 4.
Definition UNICODE_C_LOWER : Z := 8.
Definition UNICODE_C_UNDER : Z := 16.
Definition UNICODE_C_DOLLAR : Z := 32.
Definition UNICODE_C_XDIGIT : Z := 64.

Definition lre_ctype_bits : list Z := [
  0; 0; 0; 0; 0; 0; 0; 0; 0; 1; 1; 1; 1; 1; 0; 0; 0; 0; 0; 0; 0; 0; 0; 0; 0; 0; 0; 0; 0; 0; 0; 0;
  1; 0; 0; 0; 32; 0; 0; 0; 0; 0; 0; 0; 0; 0; 0; 0; 66; 66; 66; 66; 66; 66; 66; 66; 66; 66; 0; 0; 0; 0; 0; 0;
  0; 68; 68; 68; 68; 68; 68; 4; 4; 4; 4; 4; 4; 4; 4; 4; 4; 4; 4; 4; 4; 4; 4; 4; 4; 4; 4; 0; 0; 0; 0; 16;
  0; 72; 72; 72; 72; 72; 72; 8; 8; 8; 8; 8; 8; 8; 8; 8; 8; 8; 8; 8; 8; 8; 8; 8; 8; 8; 8; 0; 0; 0; 0; 0;
  0; 0; 0; 0; 0; 0; 0; 0; 0; 0; 0; 0; 0; 0; 0; 0; 0; 0; 0; 0; 0; 0; 0; 0; 0; 0; 0; 0; 0; 0; 0; 0;
  1; 0; 0; 0; 0; 0; 0; 0; 0; 0; 0; 0; 0; 0; 0; 0; 0; 0; 0; 0; 0; 0; 0; 0; 0; 0; 0; 0; 0; 0; 0; 0;
  0; 0; 0; 0; 0; 0; 0; 0; 0; 0; 0; 0; 0; 0; 0; 0; 0; 0; 0; 0; 0; 0; 0; 0; 0; 0; 0; 0; 0; 0; 0; 0;
  0; 0; 0; 0; 0; 0; 0; 0; 0; 0; 0; 0; 0; 0; 0; 0; 0; 0; 0; 0; 0; 0; 0; 0; 0; 0; 0; 0; 0; 0; 0; 0].

Definition char_range_s : list Z := [
  10; 0x0009; 0x000E; 0x0020; 0x0021; 0x00A0; 0x00A1; 0x1680; 0x1681; 0x2000; 0x200B; 0x2028; 0x202A; 0x202F; 0x2030;
  0x205F; 0x2060; 0x3000; 0x3001; 0xFEFF; 0xFF00].

(** The tests that read [lre_ctype_bits]. *)
Definition ctype_test (mask c : Z) : option bool :=
  bits ← table_at lre_ctype_bits c; Some (negb (bits .& mask =? 0)).

Definition lre_is_space_byte : Z -> option bool := ctype_test UNICODE_C_SPACE.
Definition lre_is_id_start_byte : Z -> option bool :=
  ctype_test (UNICODE_C_UPPER .| UNICODE_C_LOWER .| UNICODE_C_UNDER .| UNICODE_C_DOLLAR).
Definition lre_is_id_continue_byte : Z -> option bool :=
  ctype_test (UNICODE_C_UPPER .| UNICODE_C_LOWER .| UNICODE_C_UNDER .| UNICODE_C_DOLLAR .| UNICODE_C_DIGIT).
Definition lre_is_word_byte : Z -> option bool :=
  ctype_test (UNICODE_C_UPPER .| UNICODE_C_LOWER .| UNICODE_C_UNDER .| UNICODE_C_DIGIT).

Fixpoint space_loop (fuel : nat) (c i : Z) : option bool :=
  if i <? len char_range_s then
    match fuel with
    | O => None
    | S fuel =>
        low ← table_at char_range_s i;
        high ← table_at char_range_s (i + 1);
        if c <? low then Some false else if c <? high then Some true else space_loop fuel c (i + 2)
    end
  else Some false.
Definition lre_is_space_non_ascii (c : Z) : option bool := space_loop (length char_range_s) c 5.

Definition lre_is_space (c : Z) : option bool := if c <? 256 then lre_is_space_byte c else lre_is_space_non_ascii c.

(** ** Run lengths *)

Definition get_le24 (ptr : list Z) (i : Z) : option Z :=
  a ← table_at ptr i; b ← table_at ptr (i + 1); c ← table_at ptr (i + 2); Some (a .| (b << 8) .| (c << 16)).

Definition UNICODE_INDEX_BLOCK_LEN : Z := 32.

(** The binary search of the block that holds [c]. *)
Fixpoint index_search (fuel : nat) (index_table : list Z) (c idx_min idx_max : Z) : option Z :=
  if 1 <? idx_max - idx_min then
    match fuel with
    | O => None
    | S fuel =>
        let idx := (idx_max + idx_min) / 2 in
        v ← get_le24 index_table (idx * 3);
        if c <? v .& (2 ^ 21 - 1) then index_search fuel index_table c idx_min idx
        else index_search fuel index_table c idx idx_max
    end
  else Some idx_min.

(** The position from which to read the runs, and the code point there; [None] inside is -1. *)
Definition get_index_pos (c : Z) (index_table : list Z) (index_table_len : Z) : option (option (Z * Z)) :=
  v ← get_le24 index_table 0;
  if c <? v .& (2 ^ 21 - 1) then Some (Some (0, 0))
  else
    let idx_max := index_table_len - 1 in
    code ← get_le24 index_table (idx_max * 3);
    if code <=? c then Some None
    else
      idx_min ← index_search (Z.to_nat index_table_len) index_table c 0 idx_max;
      v ← get_le24 index_table (idx_min * 3);
      Some (Some ((idx_min + 1) * UNICODE_INDEX_BLOCK_LEN + (v >> 21), v .& (2 ^ 21 - 1))).

(** The loop over the runs; [bit] is their value, which alternates. *)
Fixpoint runs_loop (fuel : nat) (table : list Z) (c p code : Z) (bit : bool) : option bool :=
  match fuel with
  | O => None
  | S fuel =>
      b ← table_at table p;
      if b <? 64 then
        let code := code + (b >> 3) + 1 in
        if c <? code then Some bit
        else
          let bit := negb bit in
          let code := code + (b .& 7) + 1 in
          if c <? code then Some bit else runs_loop fuel table c (p + 1) code (negb bit)
      else if 0x80 <=? b then
        let code := code + (b - 0x80 + 1) in
        if c <? code then Some bit else runs_loop fuel table c (p + 1) code (negb bit)
      else if b <? 0x60 then
        p0 ← table_at table (p + 1);
        let code := code + (((b - 0x40) << 8) .| p0) + 1 in
        if c <? code then Some bit else runs_loop fuel table c (p + 2) code (negb bit)
      else
        p0 ← table_at table (p + 1);
        p1 ← table_at table (p + 2);
        let code := code + (((b - 0x60) << 16) .| (p0 << 8) .| p1) + 1 in
        if c <? code then Some bit else runs_loop fuel table c (p + 3) code (negb bit)
  end.

Definition lre_is_in_table (c : Z) (table index_table : list Z) (index_table_len : Z) : option bool :=
  r ← get_index_pos c index_table index_table_len;
  match r with
  | None => Some false
  | Some (pos, code) => runs_loop (length table) table c pos code false
  end.

Definition lre_is_cased (c : Z) : option bool :=
  r ← search_run c;
  match r with
  | Some _ => Some true
  | None => lre_is_in_table c unicode_prop_Cased1_table unicode_prop_Cased1_index (len unicode_prop_Cased1_index / 3)
  end.
Definition lre_is_case_ignorable (c : Z) : option bool :=
  lre_is_in_table c unicode_prop_Case_Ignorable_table unicode_prop_Case_Ignorable_index (len unicode_prop_Case_Ignorable_index / 3).
Definition lre_is_soft_dotted (c : Z) : option bool :=
  lre_is_in_table c unicode_prop_Soft_Dotted_table unicode_prop_Soft_Dotted_index (len unicode_prop_Soft_Dotted_index / 3).
Definition lre_is_id_start (c : Z) : option bool :=
  lre_is_in_table c unicode_prop_ID_Start_table unicode_prop_ID_Start_index (len unicode_prop_ID_Start_index / 3).
Definition lre_is_id_continue (c : Z) : option bool :=
  b ← lre_is_id_start c;
  if (b : bool) then Some true
  else lre_is_in_table c unicode_prop_ID_Continue1_table unicode_prop_ID_Continue1_index (len unicode_prop_ID_Continue1_index / 3).

Definition lre_js_is_ident_first (c : Z) : option bool :=
  if c <? 128 then lre_is_id_start_byte c else lre_is_id_start c.
Definition lre_js_is_ident_next (c : Z) : option bool :=
  if c <? 128 then lre_is_id_continue_byte c
  else if (0x200C <=? c) && (c <=? 0x200D) then Some true else lre_is_id_continue c.

Example id_start_pi : lre_is_id_start 0x3c0 = Some true.
Proof. vm_compute. reflexivity. Qed.
Example id_start_cjk : (lre_is_id_start 0x4e2d, lre_is_id_start 0x3000, lre_is_id_start 0x10ffff) = (Some true, Some false, Some false).
Proof. vm_compute. reflexivity. Qed.
Example combining_continue : (lre_js_is_ident_first 0x301, lre_js_is_ident_next 0x301) = (Some false, Some true).
Proof. vm_compute. reflexivity. Qed.
