(* ===== verification/CharRange.v ===== *)
(** * Sets of characters

    The intervals of code points of [src/quickjs/libunicode.c], which the regular
    expressions are built from: [CharRange] and the operations on it. *)
From S2P Require Export RqsortProof Engine.

(** [points] are the [len] first points of the buffer, which has room for [size]; [ev] is
    the number of the next allocation. *)
Record CharRange := { points : list Z; size : Z; ev : nat }.

Inductive cr_op_enum := CR_OP_UNION | CR_OP_INTER | CR_OP_XOR | CR_OP_SUB.

Section definitions.
Context {W : World}.

(** The operations return whether the allocation failed; [None] is an access out of the
    buffer or an overflow of [int]. *)

Definition cr_init (n : nat) : CharRange := {| points := []; size := 0; ev := n |}.

Definition cr_realloc (cr : CharRange) (n : Z) : option (bool * CharRange) :=
  if size cr <? n then
    guard (size cr * 3 <= INT32_MAX /\ n <= INT32_MAX);;
    let new_size := Z.max n (size cr * 3 / 2) in
    if ext_ok (ev cr) then Some (false, {| points := points cr; size := new_size; ev := S (ev cr) |})
    else Some (true, {| points := points cr; size := size cr; ev := S (ev cr) |})
  else Some (false, cr).

(** [cr->points[cr->len++] = v] *)
Definition put_point (cr : CharRange) (v : Z) : option CharRange :=
  guard (len (points cr) < size cr);;
  Some {| points := points cr ++ [v]; size := size cr; ev := ev cr |}.

Definition cr_add_point (cr : CharRange) (v : Z) : option (bool * CharRange) :=
  '(failed, cr) ← (if size cr <=? len (points cr) then cr_realloc cr (len (points cr) + 1) else Some (false, cr));
  if (failed : bool) then Some (true, cr) else cr ← put_point cr v; Some (false, cr).

Definition cr_add_interval (cr : CharRange) (c1 c2 : Z) : option (bool * CharRange) :=
  '(failed, cr) ← (if size cr <? len (points cr) + 2 then cr_realloc cr (len (points cr) + 2) else Some (false, cr));
  if (failed : bool) then Some (true, cr)
  else cr ← put_point cr c1; cr ← put_point cr c2; Some (false, cr).

Definition with_points (pt : list Z) (cr : CharRange) : CharRange := {| points := pt; size := size cr; ev := ev cr |}.

Definition cr_copy (cr cr1 : CharRange) : option (bool * CharRange) :=
  '(failed, cr) ← cr_realloc cr (len (points cr1));
  if (failed : bool) then Some (true, cr)
  else guard (len (points cr1) <= size cr);; Some (false, with_points (points cr1) cr).

(** A write in the buffer. *)
Definition poke (pt : list Z) (k : nat) (v : Z) : option (list Z) := guard (k < length pt)%nat;; Some (<[k:=v]> pt).

(** The end of the intervals that follow the one at [j] without a gap. *)
Fixpoint merge_end (fuel : nat) (pt : list Z) (j n : nat) : option nat :=
  if decide (j + 3 < n)%nat then
    x ← pt !! (j + 1)%nat; y ← pt !! (j + 2)%nat;
    if x =? y then match fuel with O => None | S fuel => merge_end fuel pt (j + 2) n end else Some j
  else Some j.

Fixpoint compress_loop (fuel : nat) (pt : list Z) (i k n : nat) : option (list Z) :=
  if decide (i + 1 < n)%nat then
    match fuel with
    | O => None
    | S fuel =>
        x ← pt !! i; y ← pt !! (i + 1)%nat;
        if x =? y then compress_loop fuel pt (i + 2) k n
        else
          j ← merge_end n pt i n;
          s ← pt !! i; pt ← poke pt k s;
          e ← pt !! (j + 1)%nat; pt ← poke pt (k + 1) e;
          compress_loop fuel pt (j + 2) (k + 2) n
    end
  else Some (take k pt).

Definition cr_compress (cr : CharRange) : option CharRange :=
  let n := length (points cr) in
  pt ← compress_loop n (points cr) 0 0 n; Some (with_points pt cr).

Definition is_in (op : cr_op_enum) (a_idx b_idx : nat) : Z :=
  let a := Z.land (Z.of_nat a_idx) 1 in
  let b := Z.land (Z.of_nat b_idx) 1 in
  match op with
  | CR_OP_UNION => Z.lor a b
  | CR_OP_INTER => Z.land a b
  | CR_OP_XOR => Z.lxor a b
  | CR_OP_SUB => Z.land a (Z.lxor b 1)
  end.

(** The next point, and the indices after it; [None] when there is none. *)
Definition next_point (a_pt b_pt : list Z) (a_idx b_idx : nat) : option (Z * nat * nat) :=
  match a_pt !! a_idx, b_pt !! b_idx with
  | Some a, Some b =>
      if a <? b then Some (a, S a_idx, b_idx)
      else if a =? b then Some (a, S a_idx, S b_idx)
      else Some (b, a_idx, S b_idx)
  | Some a, None => Some (a, S a_idx, b_idx)
  | None, Some b => Some (b, a_idx, S b_idx)
  | None, None => None
  end.

Fixpoint op_loop (fuel : nat) (cr : CharRange) (a_pt b_pt : list Z) (op : cr_op_enum) (a_idx b_idx : nat) : option (bool * CharRange) :=
  match next_point a_pt b_pt a_idx b_idx with
  | None => Some (false, cr)
  | Some (v, a_idx, b_idx) =>
      match fuel with
      | O => None
      | S fuel =>
          if negb (is_in op a_idx b_idx =? Z.land (len (points cr)) 1) then
            '(failed, cr) ← cr_add_point cr v;
            if (failed : bool) then Some (true, cr) else op_loop fuel cr a_pt b_pt op a_idx b_idx
          else op_loop fuel cr a_pt b_pt op a_idx b_idx
      end
  end.

Definition cr_op (cr : CharRange) (a_pt b_pt : list Z) (op : cr_op_enum) : option (bool * CharRange) :=
  '(failed, cr) ← op_loop (length a_pt + length b_pt) cr a_pt b_pt op 0 0;
  if (failed : bool) then Some (true, cr) else cr ← cr_compress cr; Some (false, cr).

Definition cr_op1 (cr : CharRange) (b_pt : list Z) (op : cr_op_enum) : option (bool * CharRange) :=
  cr_op (cr_init (ev cr)) (points cr) b_pt op.

Definition cr_union_interval (cr : CharRange) (c1 c2 : Z) : option (bool * CharRange) :=
  cr_op1 cr [c1; u32 (c2 + 1)] CR_OP_UNION.

Definition UINT32_MAX : Z := 2 ^ 32 - 1.

Definition cr_invert (cr : CharRange) : option (bool * CharRange) :=
  '(failed, cr) ← cr_realloc cr (len (points cr) + 2);
  if (failed : bool) then Some (true, cr)
  else
    guard (len (points cr) + 2 <= size cr);;
    cr ← cr_compress (with_points (0 :: points cr ++ [UINT32_MAX]) cr);
    Some (false, cr).

(** ** Sorting the intervals *)

Definition point_cmp (_ : unit) (p1 p2 : Z * Z) : Z * (Z * Z) * (Z * Z) * unit :=
  (b2z (fst p2 <? fst p1) - b2z (fst p1 <? fst p2), p1, p2, tt).

(** The points as an array of pairs, and back. *)
Fixpoint pairs (pt : list Z) : list (Z * Z) :=
  match pt with x :: y :: pt => (x, y) :: pairs pt | _ => [] end.
Fixpoint unpairs (l : list (Z * Z)) : list Z := match l with [] => [] | (x, y) :: l => x :: y :: unpairs l end.

(** The intervals that start inside of one that ends at [e]: its new end and the next index. *)
Fixpoint absorb (fuel : nat) (pt : list Z) (i n : nat) (e : Z) : option (nat * Z) :=
  if decide (i < n)%nat then
    match fuel with
    | O => None
    | S fuel =>
        start1 ← pt !! i; end1 ← pt !! (i + 1)%nat;
        if e <? start1 then Some (i, e)
        else if end1 <=? e then absorb fuel pt (i + 2) n e
        else absorb fuel pt (i + 2) n end1
    end
  else Some (i, e).

Fixpoint overlap_loop (fuel : nat) (pt : list Z) (i j n : nat) : option (list Z) :=
  if decide (i < n)%nat then
    match fuel with
    | O => None
    | S fuel =>
        s ← pt !! i; e ← pt !! (i + 1)%nat;
        '(i, e) ← absorb n pt (i + 2) n e;
        pt ← poke pt j s; pt ← poke pt (j + 1) e;
        overlap_loop fuel pt i (j + 2) n
    end
  else Some (take j pt).

Definition cr_sort_and_remove_overlap (cr : CharRange) : option CharRange :=
  let n := length (points cr) in
  '(_, tab) ← rqsort point_cmp (tt, pairs (points cr)) (n / 2);
  let pt := unpairs tab ++ drop (n / 2 * 2) (points cr) in
  pt ← overlap_loop n pt 0 0 n;
  Some (with_points pt cr).
End definitions.
