(* ===== verification/CharRangeSpec.v ===== *)
(** * The sets that ranges of characters denote

    The set operations of [CharRange] on sorted points, and the sort that removes the
    overlaps, against the union of the intervals. *)
From stdpp Require Export sorting.
From S2P Require Export CharRange.
#[local] Open Scope Z_scope.

(** ** Points and intervals *)

(** [x] is in one of the intervals, whose ends are excluded. *)
Definition in_range (x : Z) (pt : list Z) : Prop := exists p, p ∈ pairs pt /\ fst p <= x < snd p.

(** The points up to [x] are odd in number. *)
Fixpoint member (x : Z) (pt : list Z) : bool := match pt with [] => false | p :: pt => xorb (p <=? x) (member x pt) end.

Abbreviation ascending := (StronglySorted Z.le).
Abbreviation strict := (StronglySorted Z.lt).

Definition canonical (pt : list Z) : Prop := strict pt /\ Nat.Even (length pt).

Lemma member_app x l1 l2 : member x (l1 ++ l2) = xorb (member x l1) (member x l2).
Proof. induction l1 as [|p l1 IH]; cbn [app member]; [by destruct (member x l2)|]. by rewrite IH, xorb_assoc. Qed.

Lemma member_above x l : (forall p, p ∈ l -> x < p) -> member x l = false.
Proof.
  induction l as [|p l IH]; [done|]. intros H. cbn [member]. rewrite IH by (intros q Hq; apply H; by right).
  pose proof (H p (list_elem_of_here _ _)). by replace (p <=? x) with false by lia.
Qed.

Lemma member_below x l : (forall p, p ∈ l -> p <= x) -> member x l = Nat.odd (length l).
Proof.
  induction l as [|p l IH]; [done|]. intros H. cbn [member]. rewrite IH by (intros q Hq; apply H; by right).
  pose proof (H p (list_elem_of_here _ _)). replace (p <=? x) with true by lia. cbn [length]. by rewrite Nat.odd_succ, <- Nat.negb_odd.
Qed.

(** Induction by intervals. *)
Lemma pairs_ind (P : list Z -> Prop) : P [] -> (forall s e pt, Nat.Even (length pt) -> P pt -> P (s :: e :: pt)) -> forall pt, Nat.Even (length pt) -> P pt.
Proof.
  intros H0 H2. enough (H : forall n pt, (length pt <= n)%nat -> Nat.Even (length pt) -> P pt) by (intros; by eapply H).
  induction n as [|n IH]; intros [|s [|e pt]] Hn He; cbn [length] in *; try done; try lia; [by destruct He; lia|].
  assert (Nat.Even (length pt)) by (destruct He as [k ?]; exists (k - 1)%nat; lia). apply H2; [done|]. apply IH; [lia|done].
Qed.

Lemma in_range_cons x s e pt : in_range x (s :: e :: pt) <-> s <= x < e \/ in_range x pt.
Proof. unfold in_range. cbn [pairs]. setoid_rewrite elem_of_cons. naive_solver. Qed.

Lemma in_range_nil x : ~ in_range x [].
Proof. intros (p & Hp & _). by apply not_elem_of_nil in Hp. Qed.

Lemma in_range_point x pt : in_range x pt -> exists p, p ∈ pt /\ p <= x.
Proof.
  intros ([s e] & Hp & Hx). cbn in Hx. enough (s ∈ pt) by (exists s; split; [done|lia]). clear x Hx.
  revert Hp. assert (H : forall n pt, (length pt <= n)%nat -> (s, e) ∈ pairs pt -> s ∈ pt); [|by eapply H].
  clear pt. induction n as [|n IH]; intros [|a [|b pt]] Hn; cbn [pairs length] in *; try (intros H%not_elem_of_nil; done); try lia.
  intros [[= <- <-]|H]%elem_of_cons; [by left|]. right. right. apply IH; [lia|done].
Qed.

(** On sorted points, the two agree. *)
Lemma member_in_range x pt : Nat.Even (length pt) -> ascending pt -> member x pt = true <-> in_range x pt.
Proof.
  intros He. revert pt He. apply (pairs_ind (fun pt => ascending pt -> member x pt = true <-> in_range x pt)).
  { intros _. split; [done|]. by intros ?%in_range_nil. }
  intros s e pt He IH Hs. apply StronglySorted_inv in Hs as [Hs Hs1]. apply StronglySorted_inv in Hs as [Hs He1].
  rewrite Forall_forall in Hs1, He1. pose proof (Hs1 e (list_elem_of_here _ _)) as Hse. rewrite in_range_cons, <- IH by done.
  cbn [member]. destruct (Z.leb_spec e x).
  - replace (s <=? x) with true by lia. destruct (member x pt); cbn; split; try tauto; try done; intros [|]; [lia|done].
  - rewrite (member_above x pt) by (intros p Hp; pose proof (He1 p Hp); lia). destruct (Z.leb_spec s x); cbn; split; try done; try lia; intros [|]; done || lia.
Qed.

Lemma strict_ascending pt : strict pt -> ascending pt.
Proof. induction 1 as [|p pt Hs IH Hp]; constructor; [done|]. eapply Forall_impl; [exact Hp|]. intros q. cbn. lia. Qed.

(** ** Compression *)

Lemma drop_step {A} (l : list A) i x : l !! i = Some x -> drop i l = x :: drop (S i) l.
Proof. intros E. by rewrite (drop_S l x i). Qed.

Lemma ascending_drop l i x j y : ascending (drop i l) -> l !! i = Some x -> (i <= j)%nat -> l !! j = Some y -> x <= y.
Proof.
  intros Hs Ex Hij Ey. rewrite (drop_step l i x Ex) in Hs. apply StronglySorted_inv in Hs as [_ Hs]. rewrite Forall_forall in Hs.
  destruct (decide (i = j)) as [->|]; [replace y with x by congruence; lia|]. apply Hs. apply list_elem_of_lookup. exists (j - S i)%nat.
  rewrite lookup_drop. by replace (S i + (j - S i))%nat with j by lia.
Qed.

Lemma ascending_skip l i j : ascending (drop i l) -> (i <= j)%nat -> ascending (drop j l).
Proof.
  intros Hs Hij. replace (drop j l) with (drop (j - i) (drop i l)) by (rewrite drop_drop; f_equal; lia).
  rewrite <- (take_drop (j - i) (drop i l)) in Hs. by apply StronglySorted_app in Hs as (_ & _ & Hs).
Qed.

Lemma merge_end_runs pt n fuel : n = length pt -> forall j, (j + 1 < n)%nat -> (n - j <= fuel)%nat ->
  runs (merge_end fuel pt j n) (fun j' => (j <= j' /\ j' + 1 < n)%nat /\ Nat.Even (j' - j) /\
    (forall x, member x (drop (j + 1) pt) = member x (drop (j' + 1) pt)) /\
    ((j' + 3 < n)%nat -> forall x y, pt !! (j' + 1)%nat = Some x -> pt !! (j' + 2)%nat = Some y -> x <> y)).
Proof.
  intros Hn. induction fuel as [|fuel IH]; intros j Hj Hf; [lia|]. cbn [merge_end]. case_decide as Hd; cycle 1.
  { apply runs_ret. split_and!; try done; try lia. exists 0%nat. lia. }
  destruct (lookup_lt_is_Some_2 pt (j + 1)) as [x Ex]; [lia|]. destruct (lookup_lt_is_Some_2 pt (j + 2)) as [y Ey]; [lia|].
  rewrite Ex, Ey. cbn [mbind option_bind]. destruct (Z.eqb_spec x y) as [->|Hxy]; cycle 1.
  { apply runs_ret. split_and!; try done; try lia; [exists 0%nat; lia|]. intros _ x' y' Ex' Ey'. congruence. }
  eapply runs_mono; [apply (IH (j + 2)%nat); lia|]. intros j' (Hj' & [k Hk] & Hm & Hne). split_and!; try lia; [exists (k + 1)%nat; lia| |done].
  intros z. rewrite <- Hm, (drop_step pt (j + 1) y Ex). replace (S (j + 1)) with (j + 2)%nat by lia.
  rewrite (drop_step pt (j + 2) y Ey). replace (S (j + 2)) with (j + 2 + 1)%nat by lia. cbn [member].
  by destruct (y <=? z), (member z (drop (j + 2 + 1) pt)).
Qed.

Lemma take_poke {A} (l : list A) k v : (k < length l)%nat -> take (S k) (<[k:=v]> l) = take k l ++ [v].
Proof. intros Hk. rewrite (take_S_r _ _ v) by (by apply list_lookup_insert_eq). by rewrite take_insert_ge by lia. Qed.

Lemma poke_runs pt k v : (k < length pt)%nat -> runs (poke pt k v) (fun pt' => pt' = <[k:=v]> pt).
Proof. intros Hk. apply (runs_guard _ _ Hk). intros _. by apply runs_ret. Qed.

Lemma compress_loop_runs n fuel : forall pt i k, n = length pt -> (n - i <= fuel)%nat -> (k <= i <= n)%nat -> Nat.Even (n - i) -> Nat.Even k ->
  strict (take k pt) -> ascending (drop i pt) -> (forall p q, p ∈ take k pt -> q ∈ drop i pt -> p < q) ->
  runs (compress_loop fuel pt i k n) (fun out => canonical out /\ (length out <= n)%nat /\ forall x, member x out = member x (take k pt ++ drop i pt)).
Proof.
  induction fuel as [|fuel IH]; intros pt i k Hn Hf Hk Hi Hke Hs Ha Hlt; cbn [compress_loop]; case_decide as Hd; try lia.
  1, 3: apply runs_ret; assert (i = n) by (destruct Hi; lia); rewrite drop_ge, app_nil_r by lia; split_and!;
    [split; [done|rewrite length_take; by replace (k `min` length pt)%nat with k by lia]|rewrite length_take; lia|done].
  destruct (lookup_lt_is_Some_2 pt i) as [x Ex]; [lia|]. destruct (lookup_lt_is_Some_2 pt (i + 1)) as [y Ey]; [lia|].
  rewrite Ex, Ey. cbn [mbind option_bind]. assert (Hi2 : Nat.Even (n - (i + 2))) by (destruct Hi as [m ?]; exists (m - 1)%nat; lia).
  assert (Hdrop : drop i pt = x :: y :: drop (i + 2) pt).
  { rewrite (drop_step pt i x Ex), (drop_step pt (S i) y); [by replace (S (S i)) with (i + 2)%nat by lia|by replace (S i) with (i + 1)%nat by lia]. }
  destruct (Z.eqb_spec x y) as [->|Hxy].
  - eapply runs_mono; [apply (IH pt (i + 2)%nat k); try done; try lia|].
    + by apply (ascending_skip pt i); [|lia].
    + intros p q Hp Hq. apply Hlt; [done|]. rewrite Hdrop. by do 2 right.
    + intros out (Hc & Hl & Hm). split_and!; try done. intros z. rewrite Hm, !member_app, Hdrop. cbn [member]. by destruct (y <=? z), (member z (take k pt)), (member z (drop (i + 2) pt)).
  - call (merge_end_runs pt n n Hn i) as j (Hj & [m Hm] & Hmem & Hne); [lia..|].
    destruct (lookup_lt_is_Some_2 pt (j + 1)) as [e Ee]; [lia|].
    call (poke_runs pt k x) as pt1 ->; [lia|]. rewrite list_lookup_insert_ne, Ee by lia. cbn [mbind option_bind].
    call (poke_runs (<[k:=x]> pt) (k + 1) e) as pt2 ->; [rewrite length_insert; lia|]. set (pt2 := <[(k + 1)%nat:=e]> _).
    assert (Ht : take (k + 2) pt2 = take k pt ++ [x; e]).
    { unfold pt2. replace (k + 2)%nat with (S (k + 1)) by lia. rewrite take_poke by (rewrite length_insert; lia).
      replace (k + 1)%nat with (S k) by lia. rewrite take_poke by lia. by rewrite <- app_assoc. }
    assert (Hdr : drop (j + 2) pt2 = drop (j + 2) pt) by (unfold pt2; rewrite !drop_insert_lt by lia; done).
    assert (Hej : drop (j + 1) pt = e :: drop (j + 2) pt) by (rewrite (drop_step pt (j + 1) e Ee); by replace (S (j + 1)) with (j + 2)%nat by lia).
    assert (Hye : y <= e) by (apply (ascending_drop pt (i + 1) y (j + 1)); [apply (ascending_skip pt i); [done|lia]|done|lia|done]).
    assert (Hxy' : x <= y) by (apply (ascending_drop pt i x (i + 1)); [done|done|lia|done]).
    assert (Hej2 : forall q, q ∈ drop (j + 2) pt -> e < q).
    { intros q Hq. apply list_elem_of_lookup in Hq as [d Hq]. rewrite lookup_drop in Hq. assert (j + 2 + d < length pt)%nat by (by eapply lookup_lt_Some).
      destruct (lookup_lt_is_Some_2 pt (j + 2)) as [z Ez]; [lia|]. assert (e <> z) by (apply Hne; [destruct Hi; lia|done..]).
      assert (e <= z) by (apply (ascending_drop pt (j + 1) e (j + 2)); [apply (ascending_skip pt i); [done|lia]|done|lia|done]).
      assert (z <= q) by (apply (ascending_drop pt (j + 2) z (j + 2 + d)); [apply (ascending_skip pt i); [done|lia]|done|lia|done]). lia. }
    assert (Hin : forall a, (i <= a)%nat -> forall q, pt !! a = Some q -> q ∈ drop i pt).
    { intros a Ha' q Eq. apply list_elem_of_lookup. exists (a - i)%nat. rewrite lookup_drop. by replace (i + (a - i))%nat with a by lia. }
    eapply runs_mono; [apply (IH pt2 (j + 2)%nat (k + 2)%nat)|].
    + unfold pt2. by rewrite !length_insert.
    + lia.
    + destruct Hi. lia.
    + destruct Hi as [h Hh]. exists (h - m - 1)%nat. lia.
    + destruct Hke as [h Hh]. exists (h + 1)%nat. lia.
    + rewrite Ht. apply StronglySorted_app. split_and!; [|done|].
      * intros p q Hp [->|[->|[]%not_elem_of_nil]%elem_of_cons]%elem_of_cons; apply Hlt; try done; [by apply (Hin i)|apply (Hin (j + 1)%nat); [lia|done]].
      * repeat constructor. lia.
    + rewrite Hdr. apply (ascending_skip pt i); [done|lia].
    + rewrite Ht, Hdr. intros p q [Hp|[->|[->|[]%not_elem_of_nil]%elem_of_cons]%elem_of_cons]%elem_of_app Hq; [|specialize (Hej2 q Hq); lia..].
      apply Hlt; [done|]. apply list_elem_of_lookup in Hq as [d Hq]. rewrite lookup_drop in Hq. apply (Hin (j + 2 + d)%nat); [lia|done].
    + intros out (Hc & Hl & Ho). split_and!; try done. intros z. rewrite Ho, Ht, Hdr, !member_app, (drop_step pt i x Ex).
      replace (S i) with (i + 1)%nat by lia. cbn [member]. rewrite Hmem, Hej. cbn [member].
      by destruct (member z (take k pt)), (x <=? z), (e <=? z), (member z (drop (j + 2) pt)).
Qed.

Lemma cr_compress_runs cr : ascending (points cr) -> Nat.Even (length (points cr)) ->
  runs (cr_compress cr) (fun cr' => canonical (points cr') /\ (length (points cr') <= length (points cr))%nat /\ forall x, in_range x (points cr') <-> in_range x (points cr)).
Proof.
  intros Ha He. unfold cr_compress. call (compress_loop_runs (length (points cr)) (length (points cr)) (points cr) 0 0) as pt (Hc & Hlen & Hm); try done; try lia.
  - by rewrite Nat.sub_0_r.
  - by exists 0%nat.
  - constructor.
  - intros p q Hp. by apply not_elem_of_nil in Hp.
  - apply runs_ret. cbn [points with_points]. split; [done|]. split; [done|]. intros x. cbn [take drop app] in Hm.
    rewrite <- !member_in_range, Hm; try done; try apply Hc. apply strict_ascending, Hc.
Qed.

(** ** The set operations *)

Section operations.
Context {W : World}.

Definition no_memory : Prop := exists k, ext_ok k = false.

(** The room that keeps the sizes in [int]. *)
Definition roomy (cr : CharRange) (n : Z) : Prop := 0 <= size cr /\ len (points cr) <= n /\ n < 2 ^ 29.

Lemma cr_realloc_runs cr n : 0 <= size cr -> (size cr < n -> size cr * 3 <= INT32_MAX /\ n <= INT32_MAX) ->
  runs (cr_realloc cr n) (fun '(failed, cr') => points cr' = points cr /\ size cr <= size cr' /\ if (failed : bool) then no_memory else n <= size cr').
Proof.
  intros Hs Hn. unfold cr_realloc. destruct (Z.ltb_spec (size cr) n); [|apply runs_ret; split; [done|cbn; lia]].
  apply (runs_guard _ _ (Hn ltac:(done))). intros _. pose proof (Z.div_mod (size cr * 3) 2). pose proof (Z.mod_pos_bound (size cr * 3) 2).
  destruct (ext_ok (ev cr)) eqn:E; apply runs_ret; (split; [done|]); (split; [cbn; lia|]); [cbn; lia|by exists (ev cr)].
Qed.

Lemma put_point_runs cr v : len (points cr) < size cr -> runs (put_point cr v) (fun cr' => points cr' = points cr ++ [v] /\ size cr' = size cr).
Proof. intros H. apply (runs_guard _ _ H). intros _. by apply runs_ret. Qed.

Lemma cr_add_point_runs cr v n : roomy cr n -> len (points cr) < n ->
  runs (cr_add_point cr v) (fun '(failed, cr') => if (failed : bool) then no_memory else points cr' = points cr ++ [v] /\ roomy cr' n).
Proof.
  intros (Hs & Hl & Hn) Hlt. unfold cr_add_point.
  eapply (runs_bind _ _ (fun '(failed, cr') => points cr' = points cr /\ size cr <= size cr' /\ if (failed : bool) then no_memory else len (points cr) + 1 <= size cr')).
  { destruct (Z.leb_spec (size cr) (len (points cr))); [|apply runs_ret; split; [done|cbn; lia]]. apply cr_realloc_runs; [done|]. unfold INT32_MAX. lia. }
  intros [[] cr1] (E & Hs1 & H); [by apply runs_ret|]. call (put_point_runs cr1 v) as cr2 [E2 S2]; [rewrite E; lia|]. apply runs_ret.
  rewrite E2, E. split; [done|]. unfold roomy. rewrite E2, E, length_app, S2. cbn [length]. lia.
Qed.

Definition op_bool (op : cr_op_enum) (a b : bool) : bool :=
  match op with CR_OP_UNION => a || b | CR_OP_INTER => a && b | CR_OP_XOR => xorb a b | CR_OP_SUB => a && negb b end.

Lemma low_bit n : Z.land (Z.of_nat n) 1 = b2z (Nat.odd n).
Proof.
  change 1 with (2 ^ 1 - 1). rewrite land_ones_mod by lia. change (2 ^ 1) with (Z.of_nat 2). rewrite <- Nat2Z.inj_mod.
  pose proof (Nat.div_mod_eq n 2). pose proof (Nat.mod_upper_bound n 2). destruct (Nat.odd n) eqn:E.
  - apply Nat.odd_spec in E as [k ->]. unfold Z.b2z. lia.
  - apply (f_equal negb) in E. rewrite Nat.negb_odd in E. apply Nat.even_spec in E as [k ->]. unfold Z.b2z. lia.
Qed.

Lemma is_in_bool op a b : is_in op a b = b2z (op_bool op (Nat.odd a) (Nat.odd b)).
Proof. unfold is_in. rewrite !low_bit. by destruct op, (Nat.odd a), (Nat.odd b). Qed.

(** The first [i] points of [l] are taken; one more, or none. *)
Definition takes (v : Z) (l : list Z) (i i' : nat) : Prop := i' = i \/ i' = S i /\ l !! i = Some v.

Lemma next_point_spec a b i j : ascending a -> ascending b ->
  match next_point a b i j with
  | None => (length a <= i)%nat /\ (length b <= j)%nat
  | Some (v, i', j') => takes v a i i' /\ takes v b j j' /\ (i + j < i' + j')%nat /\ (v ∈ drop i a \/ v ∈ drop j b) /\
      (forall q, q ∈ drop i' a \/ q ∈ drop j' b -> v <= q)
  end.
Proof.
  intros Ha Hb. unfold next_point, takes.
  assert (Hd : forall l k x, ascending l -> l !! k = Some x -> x ∈ drop k l /\ (forall q, q ∈ drop k l -> x <= q) /\ (forall q, q ∈ drop (S k) l -> x <= q)).
  { intros l k x Hl Ex. rewrite (drop_step l k x Ex). pose proof (ascending_skip l 0 k Hl ltac:(lia)) as Hk. rewrite (drop_step l k x Ex) in Hk.
    apply StronglySorted_inv in Hk as [_ Hk]. rewrite Forall_forall in Hk. split_and!; [by left| |done]. intros q [->|Hq]%elem_of_cons; [lia|by apply Hk]. }
  assert (Hn : forall (l : list Z) k q, l !! k = None -> q ∈ drop k l -> False) by (intros l k q Hk; rewrite drop_ge by (by apply lookup_ge_None); apply not_elem_of_nil).
  destruct (a !! i) as [x|] eqn:Ex, (b !! j) as [y|] eqn:Ey; [|..|split; by apply lookup_ge_None].
  - destruct (Hd a i x Ha Ex) as (A1 & A2 & A3). destruct (Hd b j y Hb Ey) as (B1 & B2 & B3).
    destruct (Z.ltb_spec x y); [|destruct (Z.eqb_spec x y) as [->|]].
    + split_and!; [by right|by left|lia|by left|]. intros q [Hq|Hq]; [by apply A3|apply B2 in Hq; lia].
    + split_and!; [by right|by right|lia|by left|]. intros q [Hq|Hq]; [by apply A3|by apply B3].
    + split_and!; [by left|by right|lia|by right|]. intros q [Hq|Hq]; [apply A2 in Hq; lia|by apply B3].
  - destruct (Hd a i x Ha Ex) as (A1 & A2 & A3). split_and!; [by right|by left|lia|by left|]. intros q [Hq|Hq]; [auto|by apply Hn in Hq].
  - destruct (Hd b j y Hb Ey) as (B1 & B2 & B3). split_and!; [by left|by right|lia|by right|]. intros q [Hq|Hq]; [by apply Hn in Hq|auto].
Qed.

(** What the loop has made of the points that it has taken. *)
Definition merged (op : cr_op_enum) (a b o : list Z) : Prop :=
  ascending o /\ Nat.odd (length o) = op_bool op (Nat.odd (length a)) (Nat.odd (length b)) /\
  forall x, member x o = op_bool op (member x a) (member x b).

Lemma member_last x l v : member x (l ++ [v]) = xorb (member x l) (v <=? x).
Proof. rewrite member_app. cbn [member]. by destruct (v <=? x). Qed.

(** A point that is above those of [l] is taken, or not. *)
Definition extends (v : Z) (l l' : list Z) : Prop := (forall p, p ∈ l -> p <= v) /\ (l' = l \/ l' = l ++ [v]).

Lemma extends_below v l l' x : extends v l l' -> x < v -> member x l' = member x l.
Proof. intros [_ [->| ->]] Hx; [done|]. rewrite member_last. replace (v <=? x) with false by lia. by destruct (member x l). Qed.

Lemma extends_above v l l' x : extends v l l' -> v <= x -> member x l' = Nat.odd (length l').
Proof.
  intros [Hl H] Hx. apply member_below. intros p Hp. destruct H as [->| ->]; [specialize (Hl p Hp); lia|].
  apply elem_of_app in Hp as [Hp|Hp%list_elem_of_singleton]; [specialize (Hl p Hp)|]; lia.
Qed.

Lemma merged_step op v a b o a' b' o' : merged op a b o -> extends v a a' -> extends v b b' -> extends v o o' ->
  Nat.odd (length o') = op_bool op (Nat.odd (length a')) (Nat.odd (length b')) -> merged op a' b' o'.
Proof.
  intros (Hs & _ & Hm) Ha Hb Ho Hodd. split_and!; [|done|].
  - destruct Ho as [Ho [->| ->]]; [done|]. apply StronglySorted_app. split_and!; [|done|repeat constructor].
    intros p q Hp ->%list_elem_of_singleton. by apply Ho.
  - intros x. destruct (Z.lt_ge_cases x v).
    + by rewrite (extends_below _ _ _ _ Ha), (extends_below _ _ _ _ Hb), (extends_below _ _ _ _ Ho) by done.
    + by rewrite (extends_above _ _ _ _ Ha), (extends_above _ _ _ _ Hb), (extends_above _ _ _ _ Ho) by done.
Qed.

Lemma takes_extends v l i i' : (forall p, p ∈ take i l -> p <= v) -> takes v l i i' -> extends v (take i l) (take i' l).
Proof. intros H [->|[-> E]]; (split; [done|]); [by left|]. right. by apply take_S_r. Qed.

Lemma takes_length v l i i' : (i <= length l)%nat -> takes v l i i' -> (i' <= length l)%nat.
Proof. intros Hi [->|[-> E]]; [done|]. apply lookup_lt_Some in E. lia. Qed.

Lemma op_loop_runs op a b n fuel : ascending a -> ascending b -> n = len a + len b -> forall cr i j,
  (length a + length b - (i + j) <= fuel)%nat -> (i <= length a)%nat -> (j <= length b)%nat -> roomy cr n -> len (points cr) <= Z.of_nat (i + j) ->
  merged op (take i a) (take j b) (points cr) ->
  (forall p q, p ∈ take i a \/ p ∈ take j b \/ p ∈ points cr -> q ∈ drop i a \/ q ∈ drop j b -> p <= q) ->
  runs (op_loop fuel cr a b op i j) (fun '(failed, cr') => if (failed : bool) then no_memory else merged op a b (points cr') /\ len (points cr') <= n).
Proof.
  intros Ha Hb Hn. induction fuel as [|fuel IH]; intros cr i j Hf Hi Hj Hr Hlen HM Hle; cbn [op_loop];
    pose proof (next_point_spec a b i j Ha Hb) as HN; destruct (next_point a b i j) as [[[v i'] j']|].
  1: destruct HN as (Ti & Tj & Hlt & _); pose proof (takes_length _ _ _ _ Hi Ti); pose proof (takes_length _ _ _ _ Hj Tj); lia.
  1, 3: apply runs_ret; destruct HN; rewrite !take_ge in HM by done; split; [done|by apply Hr].
  destruct HN as (Ti & Tj & Hlt & Hv & Hnext). pose proof (takes_length _ _ _ _ Hi Ti) as Hi'. pose proof (takes_length _ _ _ _ Hj Tj) as Hj'.
  assert (Xa : extends v (take i a) (take i' a)) by (apply takes_extends; [intros p Hp; apply Hle; tauto|done]).
  assert (Xb : extends v (take j b) (take j' b)) by (apply takes_extends; [intros p Hp; apply Hle; tauto|done]).
  assert (Ho : forall p, p ∈ points cr -> p <= v) by (intros p Hp; apply Hle; tauto).
  assert (La : length (take i' a) = i') by (rewrite length_take; lia). assert (Lb : length (take j' b) = j') by (rewrite length_take; lia).
  assert (Hnew : forall o', extends v (points cr) o' -> forall p q, p ∈ take i' a \/ p ∈ take j' b \/ p ∈ o' -> q ∈ drop i' a \/ q ∈ drop j' b -> p <= q).
  { intros o' Xo p q Hp Hq. transitivity v; [|by apply Hnext].
    assert (HX : forall l l', extends v l l' -> p ∈ l' -> p <= v).
    { intros l l' [Hl [->| ->]] Hp'; [by apply Hl|]. apply elem_of_app in Hp' as [Hp'|Hp'%list_elem_of_singleton]; [by apply Hl|lia]. }
    destruct Hp as [Hp|[Hp|Hp]]; [exact (HX _ _ Xa Hp)|exact (HX _ _ Xb Hp)|exact (HX _ _ Xo Hp)]. }
  rewrite is_in_bool, low_bit. destruct (Z.eqb_spec (b2z (op_bool op (Nat.odd i') (Nat.odd j'))) (b2z (Nat.odd (length (points cr))))) as [E|E]; cbn [negb].
  - assert (Xo : extends v (points cr) (points cr)) by (split; [done|by left]). apply IH; try done; try lia; [|by apply Hnew].
    apply (merged_step _ v _ _ _ _ _ _ HM Xa Xb Xo). rewrite La, Lb. by destruct (op_bool _ _ _), (Nat.odd (length (points cr))).
  - assert (Xo : extends v (points cr) (points cr ++ [v])) by (split; [done|by right]).
    call (cr_add_point_runs cr v n Hr) as [[] cr'] Hcr; [lia|by apply runs_ret|]. destruct Hcr as [Ep Hr']. apply IH; try done; try lia.
    + rewrite Ep, length_app. cbn [length]. lia.
    + rewrite Ep. apply (merged_step _ v _ _ _ _ _ _ HM Xa Xb Xo). rewrite La, Lb, length_app. cbn [length]. rewrite Nat.add_1_r, Nat.odd_succ, <- Nat.negb_odd.
      by destruct (op_bool _ _ _), (Nat.odd (length (points cr))).
    + rewrite Ep. by apply Hnew.
Qed.

Definition op_prop (op : cr_op_enum) (P Q : Prop) : Prop :=
  match op with CR_OP_UNION => P \/ Q | CR_OP_INTER => P /\ Q | CR_OP_XOR => P /\ ~ Q \/ ~ P /\ Q | CR_OP_SUB => P /\ ~ Q end.

#[export] Instance op_prop_proper op : Proper (iff ==> iff ==> iff) (op_prop op).
Proof. intros P P' HP Q Q' HQ. destruct op; cbn; by rewrite HP, HQ. Qed.

Lemma cr_op_empty cr0 op a b : points cr0 = [] -> 0 <= size cr0 -> ascending a -> ascending b -> Nat.Even (length a) -> Nat.Even (length b) ->
  len a + len b < 2 ^ 29 ->
  runs (cr_op cr0 a b op) (fun '(failed, cr) => if (failed : bool) then no_memory
    else canonical (points cr) /\ len (points cr) <= len a + len b /\ forall x, in_range x (points cr) <-> op_prop op (in_range x a) (in_range x b)).
Proof.
  intros H0 Hsz Ha Hb Ea Eb Hn. unfold cr_op.
  call (op_loop_runs op a b (len a + len b) (length a + length b) Ha Hb eq_refl cr0 0 0) as [[] cr] H; rewrite ?H0; try (cbn; lia).
  - unfold roomy. rewrite H0. cbn. lia.
  - split; [constructor|]. split; [by destruct op|]. intros x. by destruct op.
  - intros p q [Hp|[Hp|Hp]]; by apply not_elem_of_nil in Hp.
  - by apply runs_ret.
  - destruct H as [(Hs & Ho & Hm) Hlen]. assert (He : Nat.Even (length (points cr))).
    { apply Nat.even_spec. rewrite <- Nat.negb_odd, Ho, <- !Nat.negb_even. apply Nat.even_spec in Ea as ->. apply Nat.even_spec in Eb as ->. by destruct op. }
    call (cr_compress_runs cr Hs He) as cr' (Hc & Hlen' & Hr). apply runs_ret. split; [done|]. split; [lia|]. intros x. rewrite Hr, <- (member_in_range x (points cr)), <- (member_in_range x a), <- (member_in_range x b), Hm by done.
    destruct op, (member x a), (member x b); cbn; naive_solver.
Qed.

Lemma cr_op_runs n op a b : ascending a -> ascending b -> Nat.Even (length a) -> Nat.Even (length b) -> len a + len b < 2 ^ 29 ->
  runs (cr_op (cr_init n) a b op) (fun '(failed, cr) => if (failed : bool) then no_memory
    else canonical (points cr) /\ len (points cr) <= len a + len b /\ forall x, in_range x (points cr) <-> op_prop op (in_range x a) (in_range x b)).
Proof. by apply cr_op_empty. Qed.

Lemma cr_invert_runs cr : ascending (points cr) -> Nat.Even (length (points cr)) -> (forall p, p ∈ points cr -> 0 <= p <= UINT32_MAX) -> 0 <= size cr -> len (points cr) < 2 ^ 29 ->
  runs (cr_invert cr) (fun '(failed, cr') => if (failed : bool) then no_memory
    else canonical (points cr') /\ len (points cr') <= len (points cr) + 2 /\ forall x, in_range x (points cr') <-> 0 <= x < UINT32_MAX /\ ~ in_range x (points cr)).
Proof.
  intros Hs He Hb Hsz Hl. unfold cr_invert.
  call (cr_realloc_runs cr (len (points cr) + 2)) as [[] cr1] (Ep & _ & H); [lia|unfold INT32_MAX; lia|by apply runs_ret|].
  rewrite Ep. apply (runs_guard _ _ H). intros _. set (pt := 0 :: points cr ++ [UINT32_MAX]).
  assert (Ha : ascending pt).
  { constructor; [|apply Forall_forall; intros p [Hp|Hp%list_elem_of_singleton]%elem_of_app; [by apply Hb|subst; done]].
    apply StronglySorted_app. split_and!; [|done|repeat constructor]. intros p q Hp ->%list_elem_of_singleton. by apply Hb. }
  assert (Ee : Nat.Even (length pt)) by (unfold pt; cbn [length]; rewrite length_app; cbn [length]; destruct He as [k ->]; exists (k + 1)%nat; lia).
  call (cr_compress_runs (with_points pt cr1) Ha Ee) as cr' (Hc & Hlen & Hr). apply runs_ret. split; [done|]. cbn [points with_points] in Hr, Hlen.
  split; [unfold pt in Hlen; cbn [length] in Hlen; rewrite length_app in Hlen; cbn [length] in Hlen; lia|]. intros x.
  rewrite Hr, <- (member_in_range x pt), <- (member_in_range x (points cr)) by done. unfold pt. cbn [member]. rewrite member_last.
  assert (H0 : x < 0 -> member x (points cr) = false) by (intros; apply member_above; intros p Hp; specialize (Hb p Hp); lia).
  assert (H1 : UINT32_MAX <= x -> member x (points cr) = false).
  { intros Hx. rewrite member_below by (intros p Hp; specialize (Hb p Hp); lia). rewrite <- Nat.negb_even. apply Nat.even_spec in He as ->. done. }
  destruct (Z.leb_spec 0 x), (Z.leb_spec UINT32_MAX x); unfold UINT32_MAX in *; try lia; rewrite ?H0, ?H1 by lia; destruct (member x (points cr)); cbn;
    split; try done; try lia; try (intros [? ?]; done || lia); tauto.
Qed.
End operations.
