(* ===== verification/CharRangeSort.v ===== *)
(** * Unordered intervals

    [cr_sort_and_remove_overlap]: the intervals of a regular expression after case folding
    become a canonical set; and the guarantees of the operations on sets. *)
From S2P Require Export CharRangeSpec.
#[local] Open Scope Z_scope.

(** The intervals are not empty; their starts are in order. *)
Definition proper (pt : list Z) : Prop := forall p, p ∈ pairs pt -> fst p < snd p.
Definition starts (pt : list Z) : Prop := StronglySorted (fun p q => fst p <= fst q) (pairs pt).

Lemma pairs_app l1 l2 : Nat.Even (length l1) -> pairs (l1 ++ l2) = pairs l1 ++ pairs l2.
Proof. intros He. revert l1 He. apply pairs_ind; [done|]. intros s e pt _ IH. cbn. by rewrite IH. Qed.

Lemma in_range_app x l1 l2 : Nat.Even (length l1) -> in_range x (l1 ++ l2) <-> in_range x l1 \/ in_range x l2.
Proof. intros He. unfold in_range. rewrite pairs_app by done. setoid_rewrite elem_of_app. naive_solver. Qed.

Lemma unpairs_pairs pt : Nat.Even (length pt) -> unpairs (pairs pt) = pt.
Proof. revert pt. apply pairs_ind; [done|]. intros s e pt _ IH. cbn. by rewrite IH. Qed.

Lemma pairs_unpairs l : pairs (unpairs l) = l.
Proof. induction l as [|[s e] l IH]; [done|]. cbn. by rewrite IH. Qed.

Lemma length_unpairs l : length (unpairs l) = (2 * length l)%nat.
Proof. induction l as [|[s e] l IH]; [done|]. cbn [unpairs length]. lia. Qed.

Lemma length_pairs pt : Nat.Even (length pt) -> length pt = (2 * length (pairs pt))%nat.
Proof. intros He. rewrite <- (unpairs_pairs pt He) at 1. apply length_unpairs. Qed.

(** The next interval of an array. *)
Lemma drop_interval (pt : list Z) i n : n = length pt -> (i < n)%nat -> Nat.Even (n - i) ->
  exists s e, pt !! i = Some s /\ pt !! (i + 1)%nat = Some e /\ drop i pt = s :: e :: drop (i + 2) pt /\ Nat.Even (n - (i + 2)) /\ (i + 2 <= n)%nat.
Proof.
  intros Hn Hi He. destruct (lookup_lt_is_Some_2 pt i) as [s Es]; [lia|]. destruct (lookup_lt_is_Some_2 pt (i + 1)) as [e Ee]; [destruct He; lia|].
  exists s, e. split_and!; try done.
  - rewrite (drop_step pt i s Es). replace (S i) with (i + 1)%nat by lia. rewrite (drop_step pt (i + 1) e Ee). by replace (S (i + 1)) with (i + 2)%nat by lia.
  - destruct He as [k Hk]. exists (k - 1)%nat. lia.
  - destruct He. lia.
Qed.

Lemma starts_cons s e pt : starts (s :: e :: pt) <-> (forall q, q ∈ pairs pt -> s <= fst q) /\ starts pt.
Proof. unfold starts. cbn [pairs]. rewrite StronglySorted_cons, Forall_forall. done. Qed.

Lemma proper_cons s e pt : proper (s :: e :: pt) <-> s < e /\ proper pt.
Proof.
  unfold proper. cbn [pairs]. split.
  - intros H. split; [apply (H (s, e)); by left|]. intros p Hp. apply H. by right.
  - intros [H1 H2] p [->|Hp]%elem_of_cons; [done|by apply H2].
Qed.

Lemma absorb_runs pt n s fuel : n = length pt -> forall i e, (n - i <= fuel)%nat -> (i <= n)%nat -> Nat.Even (n - i) -> s < e ->
  starts (drop i pt) -> proper (drop i pt) -> (forall q, q ∈ pairs (drop i pt) -> s <= fst q) ->
  runs (absorb fuel pt i n e) (fun '(i', e') => (i <= i' <= n)%nat /\ Nat.Even (n - i') /\ e <= e' /\ starts (drop i' pt) /\ proper (drop i' pt) /\
    (forall x, in_range x (s :: e :: drop i pt) <-> in_range x (s :: e' :: drop i' pt)) /\ (forall q, q ∈ pairs (drop i' pt) -> e' < fst q)).
Proof.
  intros Hn. induction fuel as [|fuel IH]; intros i e Hf Hi He Hse Hs Hp Hq; cbn [absorb]; case_decide as Hd; try lia.
  1, 3: apply runs_ret; split_and!; try done; intros q; rewrite drop_ge by lia; intros []%not_elem_of_nil.
  destruct (drop_interval pt i n Hn Hd He) as (s1 & e1 & -> & -> & Edr & He2 & Hi2). cbn [mbind option_bind].
  pose proof Hs as Hs'. pose proof Hp as Hp'. rewrite Edr in Hs', Hp', Hq. apply starts_cons in Hs' as [Hs1 Hs2]. apply proper_cons in Hp' as [Hse1 Hp2].
  assert (Hq2 : forall q, q ∈ pairs (drop (i + 2) pt) -> s <= fst q) by (intros q Hq'; apply Hq; cbn [pairs]; by right).
  pose proof (Hq (s1, e1) (list_elem_of_here _ _)) as Hss1. cbn in Hss1.
  destruct (Z.ltb_spec e s1).
  { apply runs_ret. split_and!; try done; try lia. intros q Hq'. rewrite Edr in Hq'. cbn [pairs] in Hq'. apply elem_of_cons in Hq' as [->|Hq']; [done|]. specialize (Hs1 q Hq'). lia. }
  assert (Hstep : forall e', e' = Z.max e e1 -> runs (absorb fuel pt (i + 2) n e') (fun '(i', e') => (i <= i' <= n)%nat /\ Nat.Even (n - i') /\ e <= e' /\ starts (drop i' pt) /\ proper (drop i' pt) /\
    (forall x, in_range x (s :: e :: drop i pt) <-> in_range x (s :: e' :: drop i' pt)) /\ (forall q, q ∈ pairs (drop i' pt) -> e' < fst q))).
  { intros e' ->. eapply runs_mono; [apply IH; try done; lia|]. intros [i' e'] (H1 & H2 & H3 & H4 & H5 & H6 & H7). split_and!; try done; try lia.
    intros x. rewrite <- H6, Edr, !in_range_cons. split; [intros [|[|]]|intros [|]]; try tauto; try (left; lia).
    destruct (Z.lt_ge_cases x e); [left; lia|right; left; lia]. }
  destruct (Z.leb_spec e1 e); apply Hstep; lia.
Qed.

Lemma overlap_loop_runs n fuel : forall pt i j, n = length pt -> (n - i <= fuel)%nat -> (j <= i <= n)%nat -> Nat.Even (n - i) ->
  canonical (take j pt) -> starts (drop i pt) -> proper (drop i pt) -> (forall p q, p ∈ take j pt -> q ∈ pairs (drop i pt) -> p < fst q) ->
  runs (overlap_loop fuel pt i j n) (fun out => canonical out /\ (length out <= n)%nat /\ forall x, in_range x out <-> in_range x (take j pt) \/ in_range x (drop i pt)).
Proof.
  induction fuel as [|fuel IH]; intros pt i j Hn Hf Hj He Hc Hs Hp Hlt; cbn [overlap_loop]; case_decide as Hd; try lia.
  1, 3: apply runs_ret; split; [done|]; split; [rewrite length_take; lia|]; intros x; rewrite drop_ge by lia; pose proof (in_range_nil x); tauto.
  destruct (drop_interval pt i n Hn Hd He) as (s & e & -> & -> & Edr & He2 & Hi2). cbn [mbind option_bind].
  rewrite Edr in Hs, Hp, Hlt. apply starts_cons in Hs as [Hs1 Hs2]. apply proper_cons in Hp as [Hse Hp2].
  call (absorb_runs pt n s n Hn (i + 2) e) as [i' e'] (Hi' & He' & Hee & Hs' & Hp' & Hr & Hgap); try done; try lia.
  call (poke_runs pt j s) as pt1 ->; [lia|]. call (poke_runs (<[j:=s]> pt) (j + 1) e') as pt2 ->; [rewrite length_insert; lia|].
  set (pt2 := <[(j + 1)%nat:=e']> _).
  assert (Ht : take (j + 2) pt2 = take j pt ++ [s; e']).
  { unfold pt2. replace (j + 2)%nat with (S (j + 1)) by lia. rewrite take_poke by (rewrite length_insert; lia).
    replace (j + 1)%nat with (S j) by lia. rewrite take_poke by lia. by rewrite <- app_assoc. }
  assert (Hdr : drop i' pt2 = drop i' pt) by (unfold pt2; rewrite !drop_insert_lt by lia; done).
  destruct Hc as [Hst Hev].
  eapply runs_mono; [apply (IH pt2 i' (j + 2)%nat); rewrite ?Hdr; try done; try lia|].
  - unfold pt2. by rewrite !length_insert.
  - rewrite Ht. split.
    + apply StronglySorted_app. split_and!; [|done|repeat constructor; lia].
      intros p q Hpp Hq. specialize (Hlt p (s, e) Hpp (list_elem_of_here _ _)). cbn in Hlt.
      apply elem_of_cons in Hq as [->|[->|[]%not_elem_of_nil]%elem_of_cons]; lia.
    + rewrite length_app. cbn [length]. destruct Hev as [k ->]. exists (k + 1)%nat. lia.
  - rewrite Ht. intros p q Hpp Hq. specialize (Hgap q Hq). apply elem_of_app in Hpp as [Hpp|[->|[->|[]%not_elem_of_nil]%elem_of_cons]%elem_of_cons]; try lia.
    specialize (Hlt p (s, e) Hpp (list_elem_of_here _ _)). cbn in Hlt. lia.
  - intros out (Ho & Hlen & Hin). split; [done|]. split; [done|]. intros x. rewrite Hin, Ht, Hdr, in_range_app by done. rewrite Edr, Hr, !in_range_cons.
    pose proof (in_range_nil x). tauto.
Qed.

#[local] Instance point_cmp_order : Comparison point_cmp (fun p => p) (fun _ => True) (fun p q => fst p <= fst q).
Proof.
  split; unfold point_cmp.
  - by intros ? ? ? ? ? ? ? [= <- <- <- <-].
  - intros ? ? ? ? ? ? ? [= <- <- <- <-] _. lia.
  - split; [intros p; lia|intros p q r; lia].
Qed.

Lemma sort_and_remove_overlap_runs cr : Nat.Even (length (points cr)) -> proper (points cr) -> len (points cr) < 2 ^ 31 ->
  runs (cr_sort_and_remove_overlap cr) (fun cr' => canonical (points cr') /\ len (points cr') <= len (points cr) /\ forall x, in_range x (points cr') <-> in_range x (points cr)).
Proof.
  intros He Hp Hn. unfold cr_sort_and_remove_overlap. pose proof (length_pairs _ He) as HL. set (n := length (points cr)) in *.
  replace (n / 2)%nat with (length (pairs (points cr))) by (rewrite HL, Nat.mul_comm, Nat.div_mul; lia).
  destruct (rqsort_spec (CMP := point_cmp_order) tt (pairs (points cr)) (length (pairs (points cr)))) as (s & tab & E & _ & (Hl & P & _ & Hs)); [done|lia|].
  rewrite E. cbn [mbind option_bind]. rewrite (drop_ge (points cr)), app_nil_r by (fold n; lia). rewrite !take_ge, !list_fmap_id in P by lia. specialize (Hs I).
  assert (Hn' : n = length (unpairs tab)) by (rewrite length_unpairs; lia).
  call (overlap_loop_runs n n (unpairs tab) 0 0) as pt (Hc & Hlen & Hr); try done; try lia.
  - by rewrite Nat.sub_0_r.
  - split; [constructor|by exists 0%nat].
  - unfold starts. rewrite drop_0, pairs_unpairs. clear E P Hn'. rewrite <- Hl in Hs. clear Hl HL Hn Hp He n cr s. induction tab as [|p tab IH]; constructor.
    + apply IH. intros i j x y Hij Hj Ei Ej. apply (Hs (S i) (S j)); [lia|cbn; lia|done|done].
    + apply Forall_forall. intros q Hq. apply list_elem_of_lookup in Hq as [k Hk]. apply (Hs 0%nat (S k)); [lia| |done|done]. apply lookup_lt_Some in Hk. cbn. lia.
  - unfold proper. rewrite drop_0, pairs_unpairs. intros p Hp'. apply Hp. by rewrite <- P.
  - intros p q Hp'. by apply not_elem_of_nil in Hp'.
  - apply runs_ret. split; [done|]. split; [cbn [points with_points]; lia|]. intros x. cbn [points with_points]. rewrite Hr. cbn [take]. rewrite drop_0.
    assert (Hu : in_range x (unpairs tab) <-> in_range x (points cr)) by (unfold in_range; rewrite pairs_unpairs; by setoid_rewrite P).
    rewrite Hu. pose proof (in_range_nil x). tauto.
Qed.

Section theorems.
Context {W : World}.

(** C36: [cr_op] on sorted points ends inside of its buffers and returns canonical points
    (strictly increasing, even in number) of exactly the union, the intersection, the
    symmetric difference or the difference of the two sets, or it reports an allocation
    that failed. *)
Theorem cr_op_set n op a b : ascending a -> ascending b -> Nat.Even (length a) -> Nat.Even (length b) -> len a + len b < 2 ^ 29 ->
  exists failed cr, cr_op (cr_init n) a b op = Some (failed, cr) /\
    if (failed : bool) then no_memory
    else canonical (points cr) /\ forall x, in_range x (points cr) <-> op_prop op (in_range x a) (in_range x b).
Proof.
  intros Ha Hb Ea Eb Hn. destruct (cr_op_runs n op a b Ha Hb Ea Eb Hn) as ([failed cr] & E & H). exists failed, cr. split; [done|].
  destruct failed; [done|]. by destruct H as (? & _ & ?).
Qed.

(** The characters from [c1] to [c2] are added. *)
Lemma cr_union_interval_runs cr c1 c2 : canonical (points cr) -> 0 <= c1 <= c2 -> c2 < UINT32_MAX -> len (points cr) < 2 ^ 29 - 2 ->
  runs (cr_union_interval cr c1 c2) (fun '(failed, cr') => if (failed : bool) then no_memory
    else canonical (points cr') /\ forall x, in_range x (points cr') <-> in_range x (points cr) \/ c1 <= x <= c2).
Proof.
  intros [Hs He] Hc Hm Hn. unfold cr_union_interval, cr_op1. unfold UINT32_MAX in Hm. rewrite wrap_small by (unfold word; lia).
  eapply runs_mono; [apply cr_op_runs; try done|].
  - by apply strict_ascending.
  - repeat constructor. lia.
  - by exists 1%nat.
  - cbn [length]. lia.
  - intros [[] cr'] H; [done|]. destruct H as (Hc' & _ & Hr). split; [done|]. intros x. rewrite Hr. cbn [op_prop]. rewrite in_range_cons.
    pose proof (in_range_nil x). assert (c1 <= x < c2 + 1 <-> c1 <= x <= c2) by lia. tauto.
Qed.

(** ** Canonical points *)

Lemma strict_cons p pt : strict (p :: pt) -> (forall q, q ∈ pt -> p < q) /\ strict pt.
Proof. intros [Hs Hp]%StronglySorted_inv. by rewrite Forall_forall in Hp. Qed.

Lemma member_head p pt : strict (p :: pt) -> member p (p :: pt) = true /\ forall x, x < p -> member x (p :: pt) = false.
Proof.
  intros [Hp _]%strict_cons. split.
  - cbn [member]. by rewrite (member_above p pt Hp), Z.leb_refl.
  - intros x Hx. apply member_above. intros q [->|Hq]%elem_of_cons; [done|]. specialize (Hp q Hq). lia.
Qed.

(** A set determines the points at which it changes. *)
Lemma member_inj pt1 : forall pt2, strict pt1 -> strict pt2 -> (forall x, member x pt1 = member x pt2) -> pt1 = pt2.
Proof.
  induction pt1 as [|p1 pt1 IH]; intros [|p2 pt2] H1 H2 Hm; [done| | |].
  - destruct (member_head _ _ H2) as [E _]. by rewrite <- Hm in E.
  - destruct (member_head _ _ H1) as [E _]. by rewrite Hm in E.
  - destruct (member_head _ _ H1) as [E1 L1], (member_head _ _ H2) as [E2 L2].
    assert (p1 = p2) as <-.
    { destruct (Z.lt_trichotomy p1 p2) as [Hl|[?|Hl]]; [|done|].
      - specialize (L2 _ Hl). rewrite <- Hm in L2. congruence.
      - specialize (L1 _ Hl). rewrite Hm in L1. congruence. }
    f_equal. apply IH; [exact (proj2 (strict_cons _ _ H1))|exact (proj2 (strict_cons _ _ H2))|].
    intros x. specialize (Hm x). cbn [member] in Hm. by destruct (p1 <=? x), (member x pt1), (member x pt2).
Qed.

Lemma canonical_inj pt1 pt2 : canonical pt1 -> canonical pt2 ->
  (forall x, in_range x pt1 <-> in_range x pt2) -> pt1 = pt2.
Proof.
  intros [H1 E1] [H2 E2] Hx. apply member_inj; [done|done|]. intros x. apply eq_bool_prop_intro.
  rewrite !Is_true_true, !member_in_range by (done || by apply strict_ascending). apply Hx.
Qed.

Lemma cr_copy_runs cr cr1 : 0 <= size cr -> len (points cr1) < 2 ^ 29 ->
  runs (cr_copy cr cr1) (fun '(failed, cr') => if (failed : bool) then no_memory else points cr' = points cr1).
Proof.
  intros Hs Hl. unfold cr_copy.
  call (cr_realloc_runs cr (len (points cr1))) as [[] cr2] (_ & _ & H); [lia|unfold INT32_MAX; lia|by apply runs_ret|].
  apply (runs_guard _ _ H). intros _. by apply runs_ret.
Qed.

Lemma cr_add_interval_runs cr c1 c2 n : roomy cr n -> len (points cr) + 2 <= n ->
  runs (cr_add_interval cr c1 c2) (fun '(failed, cr') => roomy cr' n /\
    if (failed : bool) then no_memory /\ points cr' = points cr else points cr' = points cr ++ [c1; c2]).
Proof.
  intros (Hs & Hl & Hn) Hroom. unfold cr_add_interval.
  assert (H : runs (if size cr <? len (points cr) + 2 then cr_realloc cr (len (points cr) + 2) else Some (false, cr))
    (fun '(failed, cr') => points cr' = points cr /\ size cr <= size cr' /\ if (failed : bool) then no_memory else len (points cr) + 2 <= size cr')).
  { destruct (Z.ltb_spec (size cr) (len (points cr) + 2)); [|by apply runs_ret].
    eapply cr_realloc_runs; [done|]. unfold INT32_MAX. lia. }
  eapply runs_bind; [exact H|]. intros [[] cr1] (E & Hsz & H1); cbv beta iota.
  - apply runs_ret. split; [|done]. unfold roomy. rewrite E. lia.
  - call (put_point_runs cr1 c1) as cr2 (E2 & S2); [rewrite E; lia|]. call (put_point_runs cr2 c2) as cr3 (E3 & S3); [rewrite E2, length_app, E; cbn [length]; lia|].
    apply runs_ret. rewrite E3, E2, E, <- app_assoc. split; [|done]. unfold roomy. rewrite E3, E2, E, !length_app. cbn [length]. lia.
Qed.

(** The operation ends in its buffers with the canonical points of the set [P], or with
    an allocation that failed. *)
Definition yields (o : option (bool * CharRange)) (P : Z -> Prop) : Prop :=
  exists failed cr, o = Some (failed, cr) /\
    if (failed : bool) then no_memory else canonical (points cr) /\ forall x, in_range x (points cr) <-> P x.

(** C37: the sets of a regular expression.  Combining two sets, adding an interval,
    complementing and copying give the points of exactly the set they name; appending
    intervals in any order and then sorting them and removing their overlaps gives the
    union of the intervals, as does the compression of points in order; all these points
    are canonical, and canonical points are unique: two sets with the same characters have
    the same points. *)
Theorem char_range_sets cr :
  0 <= size cr -> len (points cr) < 2 ^ 28 ->
  (canonical (points cr) ->
    (forall pt op, canonical pt -> len pt < 2 ^ 28 ->
       yields (cr_op1 cr pt op) (fun x => op_prop op (in_range x (points cr)) (in_range x pt))) /\
    (forall c1 c2, 0 <= c1 <= c2 -> c2 < UINT32_MAX ->
       yields (cr_union_interval cr c1 c2) (fun x => in_range x (points cr) \/ c1 <= x <= c2)) /\
    ((forall p, p ∈ points cr -> 0 <= p <= UINT32_MAX) ->
       yields (cr_invert cr) (fun x => 0 <= x < UINT32_MAX /\ ~ in_range x (points cr))) /\
    (forall cr1, 0 <= size cr1 -> yields (cr_copy cr1 cr) (fun x => in_range x (points cr)))) /\
  (Nat.Even (length (points cr)) ->
    (forall c1 c2, exists failed cr', cr_add_interval cr c1 c2 = Some (failed, cr') /\
       if (failed : bool) then no_memory
       else Nat.Even (length (points cr')) /\ forall x, in_range x (points cr') <-> in_range x (points cr) \/ c1 <= x < c2) /\
    (proper (points cr) -> exists cr', cr_sort_and_remove_overlap cr = Some cr' /\
       canonical (points cr') /\ forall x, in_range x (points cr') <-> in_range x (points cr)) /\
    (ascending (points cr) -> exists cr', cr_compress cr = Some cr' /\
       canonical (points cr') /\ forall x, in_range x (points cr') <-> in_range x (points cr))) /\
  (forall pt1 pt2, canonical pt1 -> canonical pt2 ->
     (forall x, in_range x pt1 <-> in_range x pt2) -> pt1 = pt2).
Proof.
  intros Hsz Hl. split_and!; [|intros He|by apply canonical_inj].
  - intros Hc. assert (Ha : ascending (points cr)) by apply strict_ascending, Hc. split_and!.
    + intros pt op Hp Hlp. destruct (cr_op_runs (ev cr) op (points cr) pt Ha (strict_ascending _ (proj1 Hp)) (proj2 Hc) (proj2 Hp))
        as ([failed cr'] & E & H); [lia|]. exists failed, cr'. split; [exact E|]. destruct failed; [done|]. by destruct H as (? & _ & ?).
    + intros c1 c2 H1 H2. destruct (cr_union_interval_runs cr c1 c2 Hc H1 H2) as ([failed cr'] & E & H); [lia|]. by exists failed, cr'.
    + intros Hb. destruct (cr_invert_runs cr Ha (proj2 Hc) Hb Hsz) as ([failed cr'] & E & H); [lia|]. exists failed, cr'.
      split; [done|]. destruct failed; [done|]. by destruct H as (? & _ & ?).
    + intros cr1 H1. destruct (cr_copy_runs cr1 cr H1) as ([failed cr'] & E & H); [lia|]. exists failed, cr'.
      split; [done|]. destruct failed; [done|]. by rewrite H.
  - split_and!.
    + intros c1 c2. destruct (cr_add_interval_runs cr c1 c2 (2 ^ 28 + 2)) as ([failed cr'] & E & _ & H); [unfold roomy; lia|lia|].
      exists failed, cr'. split; [done|]. destruct failed; [by destruct H|]. rewrite H. split.
      * rewrite length_app. apply Nat.Even_Even_add; [done|by exists 1%nat].
      * intros x. rewrite in_range_app, in_range_cons by done. pose proof (in_range_nil x). tauto.
    + intros Hp. destruct (sort_and_remove_overlap_runs cr He Hp) as (cr' & E & Hc & _ & H); [lia|]. by exists cr'.
    + intros Ha. destruct (cr_compress_runs cr Ha He) as (cr' & E & Hc & _ & H). by exists cr'.
Qed.
End theorems.

#[local] Instance healthy : World := fun _ => true.

Example op_ex : (fun '(f, cr) => (f, points cr)) <$> cr_op (cr_init 0) [97; 123; 170; 171] [100; 110; 123; 130] CR_OP_XOR = Some (false, [97; 100; 110; 130; 170; 171]).
Proof. vm_compute. reflexivity. Qed.
Example sort_ex : points <$> cr_sort_and_remove_overlap {| points := [50; 60; 10; 20; 15; 30; 60; 61; 0; 3]; size := 10; ev := 0 |} = Some [0; 3; 10; 30; 50; 61].
Proof. vm_compute. reflexivity. Qed.

Lemma cr_op_set_witness :
  exists failed cr, cr_op (cr_init 0) [97; 123] [100; 110] CR_OP_SUB = Some (failed, cr) /\
    if (failed : bool) then no_memory
    else canonical (points cr) /\ forall x, in_range x (points cr) <-> in_range x [97; 123] /\ ~ in_range x [100; 110].
Proof.
  apply (cr_op_set 0 CR_OP_SUB [97; 123] [100; 110]); [repeat constructor; lia|repeat constructor; lia|by exists 1%nat|by exists 1%nat|cbn; lia].
Defined.

(** Adding the letters from 120 to 130 to the interval from 97 to 122. *)
Lemma char_range_sets_witness :
  let cr := {| points := [97; 123]; size := 2; ev := 0 |} in
  yields (cr_union_interval cr 120 130) (fun x => in_range x [97; 123] \/ 120 <= x <= 130) /\
  yields (cr_op1 cr [100; 110] CR_OP_SUB) (fun x => in_range x [97; 123] /\ ~ in_range x [100; 110]).
Proof.
  intros cr.
  assert (Hc : forall a b, a < b -> canonical [a; b]) by (intros; split; [repeat constructor; lia|by exists 1%nat]).
  destruct (char_range_sets cr ltac:(cbn; lia) ltac:(cbn; lia)) as [H _].
  destruct (H (Hc 97 123 ltac:(lia))) as (H1 & H2 & _). split.
  - apply (H2 120 130); [lia|unfold UINT32_MAX; lia].
  - apply (H1 [100; 110] CR_OP_SUB); [by apply Hc|cbn; lia].
Defined.
