(* ===== verification/UnicodeCaseSpec.v ===== *)
(** * Properties of the case conversion

    The runs of [case_conv_table1] are in order and do not overlap, so the binary search
    finds the run of a code point; what holds of all the code points of the runs is then
    checked by computation. *)
From S2P Require Export UnicodeCase.
#[local] Open Scope Z_scope.

(** ** The search *)

Fixpoint runs_ordered (l : list Z) : bool :=
  match l with
  | [] => true
  | v :: l => (0 <? run_len v) && match l with w :: _ => run_code v + run_len v <=? run_code w | [] => true end && runs_ordered l
  end.

Lemma table_ordered : runs_ordered case_conv_table1 = true.
Proof. vm_compute. reflexivity. Qed.

Lemma runs_ordered_cons v l : runs_ordered (v :: l) = true ->
  0 < run_len v /\ runs_ordered l = true /\ match l with w :: _ => run_code v + run_len v <= run_code w | [] => True end.
Proof. cbn [runs_ordered]. intros [[H1 H2]%andb_true_iff H3]%andb_true_iff. split_and!; [lia|done|]. destruct l; [done|lia]. Qed.

Lemma runs_ordered_lookup l : runs_ordered l = true -> forall i j v w, l !! i = Some v -> l !! j = Some w -> (i < j)%nat ->
  run_code v + run_len v <= run_code w.
Proof.
  induction l as [|v0 l IH]; intros H i j v w Hi Hj Hij; [done|]. apply runs_ordered_cons in H as (H1 & H2 & H3).
  destruct j as [|j]; [lia|]. destruct i as [|i]; [|apply (IH H2 i j); [done|done|lia]]. cbn in Hi, Hj. injection Hi as <-.
  destruct l as [|v1 l]; [done|]. destruct j as [|j]; [cbn in Hj; by injection Hj as <-|].
  pose proof (IH H2 0%nat (S j) v1 w eq_refl Hj ltac:(lia)). apply runs_ordered_cons in H2 as (? & _). lia.
Qed.

(** The code point [c] is in the run [v]. *)
Definition in_run (c v : Z) : Prop := run_code v <= c < run_code v + run_len v.

Lemma table_at_nat tab (i : nat) : table_at tab (Z.of_nat i) = tab !! i.
Proof. unfold table_at. rewrite option_guard_True by lia. cbn. by rewrite Nat2Z.id. Qed.

Lemma table_at_some tab i v : table_at tab i = Some v -> 0 <= i /\ tab !! Z.to_nat i = Some v.
Proof. unfold table_at. case_guard; [|done]. by cbn. Qed.

Lemma run_len_pos v : 0 <= run_len v.
Proof. unfold run_len. apply Z.land_nonneg. lia. Qed.

Definition found (c : Z) (r : option (Z * Z)) : Prop :=
  match r with
  | Some (idx, v) => table_at case_conv_table1 idx = Some v /\ in_run c v
  | None => forall i v, case_conv_table1 !! i = Some v -> ~ in_run c v
  end.

Lemma case_search_spec c fuel lo hi : 0 <= lo <= hi + 1 -> hi < len case_conv_table1 -> hi - lo < Z.of_nat fuel ->
  (forall i v, case_conv_table1 !! i = Some v -> Z.of_nat i < lo -> run_code v + run_len v <= c) ->
  (forall i v, case_conv_table1 !! i = Some v -> hi < Z.of_nat i -> c < run_code v) ->
  exists r, case_search fuel c lo hi = Some r /\ found c r.
Proof.
  revert lo hi. induction fuel as [|fuel IH]; intros lo hi Hlo Hhi Hf Hlow Hhigh; cbn [case_search].
  - replace (lo <=? hi) with false by lia. exists None. split; [done|]. intros i v Hi Hin. unfold in_run in Hin.
    destruct (Z.lt_ge_cases (Z.of_nat i) lo) as [Hc|Hc]; [apply (Hlow i v Hi) in Hc; lia|].
    assert (Hc' : hi < Z.of_nat i) by lia. apply (Hhigh i v Hi) in Hc'. lia.
  - destruct (Z.leb_spec lo hi) as [Hle|Hgt].
    + set (idx := (hi + lo) / 2).
      assert (Hidx : lo <= idx <= hi) by (unfold idx; split; [apply Z.div_le_lower_bound|apply Z.div_le_upper_bound]; lia).
      destruct (lookup_lt_is_Some_2 case_conv_table1 (Z.to_nat idx)) as [v Hv]; [lia|].
      assert (Ev : table_at case_conv_table1 idx = Some v) by (rewrite <- (Z2Nat.id idx) by lia; by rewrite table_at_nat).
      rewrite Ev. cbn [mbind option_bind]. pose proof (runs_ordered_lookup _ table_ordered) as Hord.
      destruct (Z.ltb_spec c (run_code v)) as [Hc|Hc]; [|destruct (Z.leb_spec (run_code v + run_len v) c) as [Hc'|Hc']].
      * apply IH; [lia|lia|lia|done|]. intros i w Hi Hii. destruct (decide (i = Z.to_nat idx)) as [->|Hne]; [congruence|].
        pose proof (Hord _ _ _ _ Hv Hi ltac:(lia)). pose proof (run_len_pos v). lia.
      * apply IH; [lia|lia|lia| |done]. intros i w Hi Hii. destruct (decide (i = Z.to_nat idx)) as [->|Hne]; [congruence|].
        pose proof (Hord _ _ _ _ Hi Hv ltac:(lia)). lia.
      * exists (Some (idx, v)). split; [done|]. split; [done|]. unfold in_run. lia.
    + exists None. split; [done|]. intros i v Hi Hin. unfold in_run in Hin.
      destruct (Z.lt_ge_cases (Z.of_nat i) lo) as [Hc|Hc]; [apply (Hlow i v Hi) in Hc; lia|].
      assert (Hc' : hi < Z.of_nat i) by lia. apply (Hhigh i v Hi) in Hc'. lia.
Qed.

Lemma search_run_spec c : exists r, search_run c = Some r /\ found c r.
Proof.
  unfold search_run. apply case_search_spec; [lia|lia|lia|intros; lia|]. intros i v Hi Hii. apply lookup_lt_Some in Hi. lia.
Qed.

Lemma run_unique c i j v w : table_at case_conv_table1 i = Some v -> table_at case_conv_table1 j = Some w -> in_run c v -> in_run c w -> i = j /\ v = w.
Proof.
  intros (Hi & Ei)%table_at_some (Hj & Ej)%table_at_some Hv Hw. unfold in_run in *. pose proof (runs_ordered_lookup _ table_ordered) as Hord.
  destruct (Z.lt_trichotomy i j) as [Hlt|[->|Hlt]]; [|split; [done|congruence]|].
  - pose proof (Hord _ _ _ _ Ei Ej ltac:(lia)). lia.
  - pose proof (Hord _ _ _ _ Ej Ei ltac:(lia)). lia.
Qed.

Lemma search_run_at c i v : table_at case_conv_table1 i = Some v -> in_run c v -> search_run c = Some (Some (i, v)).
Proof.
  intros Hi Hin. destruct (search_run_spec c) as ([[j w]|] & -> & Hf).
  - destruct Hf as [Hj Hw]. by destruct (run_unique c i j v w Hi Hj Hin Hw) as [-> ->].
  - apply table_at_some in Hi as [_ Hi]. by destruct (Hf _ _ Hi).
Qed.

(** ** Checks on all the code points of the runs *)

Definition check_runs (P : Z -> Z -> Z -> bool) : bool :=
  forallb (fun e : Z * Z => let '(i, v) := e in forallb (fun k => P (run_code v + Z.of_nat k) i v) (seq 0 (Z.to_nat (run_len v))))
    (imap (fun i v => (Z.of_nat i, v)) case_conv_table1).

Lemma check_runs_spec P c i v : check_runs P = true -> table_at case_conv_table1 i = Some v -> in_run c v -> P c i v = true.
Proof.
  unfold check_runs. intros H Hi Hin. apply table_at_some in Hi as [Hi Ei]. rewrite forallb_forall in H.
  specialize (H (i, v)). cbv beta iota in H. assert (Hmem : In (i, v) (imap (fun i v => (Z.of_nat i, v)) case_conv_table1)).
  { apply list_elem_of_In. apply list_elem_of_lookup. exists (Z.to_nat i). rewrite list_lookup_imap, Ei. cbn [fmap option_fmap option_map]. by rewrite Z2Nat.id. }
  specialize (H Hmem). rewrite forallb_forall in H. unfold in_run in Hin. specialize (H (Z.to_nat (c - run_code v))).
  rewrite Z2Nat.id in H by lia. replace (run_code v + (c - run_code v)) with c in H by lia. apply H. apply in_seq. lia.
Qed.

(** ** Canonical characters *)

(** What is checked of the folding of [c] by its run [v]: it is [lre_canonicalize], its
    result is canonical, and a legacy folding does not go into ASCII. *)
Definition entry_ok (c i v : Z) : bool :=
  forallb (fun u =>
    match lre_case_folding_entry c i v u with
    | Some d =>
        (if 128 <=? c then true else bool_decide (lre_canonicalize c u = Some d)) && (if d =? c then true else bool_decide (lre_canonicalize d u = Some d)) &&
        (0 <=? d) && (d <=? 0x10FFFF) && (u || (c <? 128) || (128 <=? d))
    | None => false
    end) [true; false].

Lemma entries_checked : check_runs entry_ok = true.
Proof. vm_compute. reflexivity. Qed.

Lemma entry_spec c i v u : table_at case_conv_table1 i = Some v -> in_run c v ->
  exists d, lre_case_folding_entry c i v u = Some d /\ lre_canonicalize c u = Some d /\ lre_canonicalize d u = Some d /\
    0 <= d <= 0x10FFFF /\ (u = false -> 128 <= c -> 128 <= d).
Proof.
  intros Hi Hin. pose proof (check_runs_spec _ c i v entries_checked Hi Hin) as H. unfold entry_ok in H. rewrite forallb_forall in H.
  specialize (H u). assert (Hu : In u [true; false]) by (destruct u; cbn; auto). specialize (H Hu). clear Hu.
  destruct (lre_case_folding_entry c i v u) as [d|] eqn:E; [|done]. exists d.
  apply andb_true_iff in H as [H H5]. apply andb_true_iff in H as [H H4]. apply andb_true_iff in H as [H H3]. apply andb_true_iff in H as [H1 H2].
  assert (Hc : lre_canonicalize c u = Some d).
  { destruct (Z.leb_spec 128 c) as [Hge|_]; [|by apply bool_decide_eq_true_1 in H1]. unfold lre_canonicalize. replace (c <? 128) with false by lia.
    by rewrite (search_run_at c i v Hi Hin). }
  split; [done|]. split; [done|]. split; [|split; [lia|intros -> ?; cbn [orb] in H5; lia]].
  destruct (Z.eqb_spec d c) as [->|_]; [done|by apply bool_decide_eq_true_1 in H2].
Qed.

(** The ASCII characters. *)
Definition ascii_ok (c : Z) : bool :=
  forallb (fun u => match lre_canonicalize c u with
                    | Some d => bool_decide (lre_canonicalize d u = Some d) && (0 <=? d) && (d <=? 0x10FFFF)
                    | None => false
                    end) [true; false].

Lemma ascii_checked : forallb (fun k => ascii_ok (Z.of_nat k)) (seq 0 128) = true.
Proof. vm_compute. reflexivity. Qed.

Lemma canonicalize_spec c u : 0 <= c -> exists d, lre_canonicalize c u = Some d /\ lre_canonicalize d u = Some d /\
  0 <= d <= Z.max c 0x10FFFF /\ (u = false -> 128 <= c -> 128 <= d).
Proof.
  intros Hc. destruct (Z.lt_ge_cases c 128) as [Hlt|Hge].
  - pose proof ascii_checked as H. rewrite forallb_forall in H. specialize (H (Z.to_nat c)). rewrite Z2Nat.id in H by lia.
    specialize (H ltac:(apply in_seq; lia)). unfold ascii_ok in H. rewrite forallb_forall in H. specialize (H u). assert (Hu : In u [true; false]) by (destruct u; cbn; auto).
    specialize (H Hu). destruct (lre_canonicalize c u) as [d|]; [|done]. exists d. apply andb_true_iff in H as [H H3]. apply andb_true_iff in H as [H1%bool_decide_eq_true_1 H2].
    split_and!; done || lia.
  - destruct (search_run_spec c) as ([[i v]|] & E & Hf).
    + destruct Hf as [Hi Hin]. destruct (entry_spec c i v u Hi Hin) as (d & _ & H1 & H2 & H3 & H4). exists d. split_and!; done || lia.
    + exists c. assert (Ec : lre_canonicalize c u = Some c).
      { unfold lre_canonicalize. replace (c <? 128) with false by lia. by rewrite E. }
      split_and!; done || lia.
Qed.
