(* ===== verification/CharCase.v ===== *)
(** * Case folding of sets of characters

    [unicode_case1] and [cr_regexp_canonicalize] of [src/quickjs/libunicode.c]: the set of
    the canonical characters of a set. *)
From S2P Require Export UnicodeCase CharRange.
#[local] Open Scope Z_scope.

Definition CASE_U : Z := 1.
Definition CASE_L : Z := 2.
Definition CASE_F : Z := 4.

Definition mask_of (types : list Z) : Z := foldr (fun t m => (1 << t) .| m) 0 types.

(** The types of the runs that change the case, for each bit of [case_mask]. *)
Definition tab_run_mask : list Z := Eval vm_compute in [
  mask_of [RUN_TYPE_U; RUN_TYPE_UF; RUN_TYPE_UL; RUN_TYPE_LSU; RUN_TYPE_U2L_399_EXT2; RUN_TYPE_UF_D20; RUN_TYPE_UF_D1_EXT;
           RUN_TYPE_U_EXT; RUN_TYPE_UF_EXT2; RUN_TYPE_UF_EXT3];
  mask_of [RUN_TYPE_L; RUN_TYPE_LF; RUN_TYPE_UL; RUN_TYPE_LSU; RUN_TYPE_U2L_399_EXT2; RUN_TYPE_LF_EXT; RUN_TYPE_LF_EXT2];
  mask_of [RUN_TYPE_UF; RUN_TYPE_LF; RUN_TYPE_UL; RUN_TYPE_LSU; RUN_TYPE_U2L_399_EXT2; RUN_TYPE_LF_EXT; RUN_TYPE_LF_EXT2;
           RUN_TYPE_UF_D20; RUN_TYPE_UF_D1_EXT; RUN_TYPE_LF_EXT; RUN_TYPE_UF_EXT2; RUN_TYPE_UF_EXT3]].

Definition run_mask (case_mask : Z) : Z :=
  foldr (fun e m => if Z.testbit case_mask (fst e) then snd e .| m else m) 0 (imap (fun i t => (Z.of_nat i, t)) tab_run_mask).

(** The intervals of a run, in the order in which they are added. *)
Fixpoint every_other (count : nat) (code : Z) : list (Z * Z) :=
  match count with O => [] | S count => (code, code + 1) :: every_other count (code + 2) end.

Definition run_intervals (case_mask v : Z) : list (Z * Z) :=
  let code := run_code v in
  let len := run_len v in
  let upper := negb (case_mask .& CASE_U =? 0) in
  let both := upper && negb (case_mask .& (CASE_L .| CASE_F) =? 0) in
  if (run_type v =? RUN_TYPE_UL) && negb both then every_other (Z.to_nat ((len + 1) / 2)) (code + b2z upper)
  else if (run_type v =? RUN_TYPE_LSU) && negb both then
    (if upper then [] else [(code, code + 1)]) ++ [(code + 1, code + 2)] ++ (if upper then [(code + 2, code + 3)] else [])
  else [(code, code + len)].

Section definitions.
Context {W : World}.

Fixpoint add_intervals (cr : CharRange) (l : list (Z * Z)) : option (bool * CharRange) :=
  match l with
  | [] => Some (false, cr)
  | (c1, c2) :: l =>
      '(failed, cr) ← cr_add_interval cr c1 c2;
      if (failed : bool) then Some (true, cr) else add_intervals cr l
  end.

Fixpoint case_loop (cr : CharRange) (case_mask : Z) (table : list Z) : option (bool * CharRange) :=
  match table with
  | [] => Some (false, cr)
  | v :: table =>
      '(failed, cr) ← (if Z.testbit (run_mask case_mask) (run_type v) then add_intervals cr (run_intervals case_mask v) else Some (false, cr));
      if (failed : bool) then Some (true, cr) else case_loop cr case_mask table
  end.

Definition unicode_case1 (cr : CharRange) (case_mask : Z) : option (bool * CharRange) :=
  if case_mask =? 0 then Some (false, cr) else case_loop cr case_mask case_conv_table1.

(** The run of [c], searched from the run [v] at [idx] on; running out of the table is a
    failed assertion. *)
Fixpoint advance (fuel : nat) (c idx v : Z) : option (Z * Z) :=
  if (run_code v <=? c) && (c <? run_code v + run_len v) then Some (idx, v)
  else
    match fuel with
    | O => None
    | S fuel => v ← table_at case_conv_table1 (idx + 1); advance fuel c (idx + 1) v
    end.

(** The variables of the loop: the run, the interval that grows ([None] before the first
    one) and [cr_result]. *)
Record Folding := { f_idx : Z; f_v : Z; f_pending : option (Z * Z); f_result : CharRange }.

(** One more character in the growing interval, or in a new one.  A failure to add the
    finished interval is ignored. *)
Definition fold_char (d : Z) (pending : option (Z * Z)) (cr : CharRange) : option (option (Z * Z) * CharRange) :=
  match pending with
  | None => Some (Some (d, u32 (d + 1)), cr)
  | Some (d_start, d_end) =>
      if d_end =? d then Some (Some (d_start, u32 (d_end + 1)), cr)
      else '(_, cr) ← cr_add_interval cr d_start d_end; Some (Some (d, u32 (d + 1)), cr)
  end.

(** The [count] characters from [c] on. *)
Fixpoint fold_chars (count : nat) (is_unicode : bool) (c : Z) (f : Folding) : option Folding :=
  match count with
  | O => Some f
  | S count =>
      '(idx, v) ← advance (length case_conv_table1) c (f_idx f) (f_v f);
      d ← lre_case_folding_entry c idx v is_unicode;
      '(pending, cr) ← fold_char d (f_pending f) (f_result f);
      fold_chars count is_unicode (c + 1) {| f_idx := idx; f_v := v; f_pending := pending; f_result := cr |}
  end.

Fixpoint fold_intervals (pt : list Z) (is_unicode : bool) (f : Folding) : option Folding :=
  match pt with
  | [] => Some f
  | [_] => None
  | s :: e :: pt => f ← fold_chars (Z.to_nat (e - s)) is_unicode s f; fold_intervals pt is_unicode f
  end.

(** The allocations are numbered across the ranges: each range goes on where the previous
    one stopped. *)
Definition after (cr cr0 : CharRange) : CharRange := {| points := points cr; size := size cr; ev := ev cr0 |}.

Definition cr_regexp_canonicalize (cr : CharRange) (is_unicode : bool) : option (bool * CharRange) :=
  '(failed, cr_mask) ← unicode_case1 (cr_init (ev cr)) (if is_unicode then CASE_F else CASE_U);
  if (failed : bool) then Some (true, after cr cr_mask)
  else
    '(failed, cr_inter) ← cr_op (cr_init (ev cr_mask)) (points cr_mask) (points cr) CR_OP_INTER;
    if (failed : bool) then Some (true, after cr cr_inter)
    else
      '(failed, cr_mask) ← cr_invert (after cr_mask cr_inter);
      if (failed : bool) then Some (true, after cr cr_mask)
      else
        '(failed, cr_sub) ← cr_op (cr_init (ev cr_mask)) (points cr_mask) (points cr) CR_OP_INTER;
        if (failed : bool) then Some (true, after cr cr_sub)
        else
          v ← table_at case_conv_table1 0;
          f ← fold_intervals (points cr_inter) is_unicode {| f_idx := 0; f_v := v; f_pending := None; f_result := cr_init (ev cr_sub) |};
          '(failed, cr_result) ← match f_pending f with
                                 | Some (d_start, d_end) => cr_add_interval (f_result f) d_start d_end
                                 | None => Some (false, f_result f)
                                 end;
          if (failed : bool) then Some (true, after cr cr_result)
          else
            cr_result ← cr_sort_and_remove_overlap cr_result;
            cr_op {| points := []; size := size cr; ev := ev cr_result |} (points cr_result) (points cr_sub) CR_OP_UNION.
End definitions.
