(* ===== verification/CharCaseSpec.v ===== *)
(** * The canonical characters of a set

    [cr_regexp_canonicalize] computes the image of a set under [lre_canonicalize]. *)
From S2P Require Export UnicodeCaseSpec CharCase CharRangeSort.
#[local] Open Scope Z_scope.

(** ** The characters that change *)

Definition case_points (case_mask : Z) : list (Z * Z) :=
  flat_map (fun v => if Z.testbit (run_mask case_mask) (run_type v) then run_intervals case_mask v else []) case_conv_table1.

(** The set for each kind of folding. *)
Definition mask_F : list Z := Eval vm_compute in unpairs (case_points CASE_F).
Definition mask_U : list Z := Eval vm_compute in unpairs (case_points CASE_U).
Definition mask (u : bool) : list Z := if u then mask_F else mask_U.

Lemma mask_points u : unpairs (case_points (if (u : bool) then CASE_F else CASE_U)) = mask u.
Proof. destruct u; vm_compute; reflexivity. Qed.

Section memory.
Context {W : World}.

Lemma add_intervals_runs l n : forall cr, roomy cr n -> len (points cr) + 2 * len l <= n ->
  runs (add_intervals cr l) (fun '(failed, cr') => if (failed : bool) then no_memory else roomy cr' n /\ points cr' = points cr ++ unpairs l).
Proof.
  induction l as [|[c1 c2] l IH]; intros cr Hr Hn; cbn [add_intervals]; [apply runs_ret; by rewrite app_nil_r|]. cbn [length] in Hn.
  call (cr_add_interval_runs cr c1 c2 n Hr) as [[] cr1] [Hr1 H1]; [lia|apply runs_ret; by destruct H1|].
  eapply runs_mono; [apply (IH cr1 Hr1); rewrite H1, length_app; cbn [length]; lia|].
  intros [[] cr2] H; [done|]. destruct H as [Hr2 H2]. split; [done|]. rewrite H2, H1, <- app_assoc. done.
Qed.

Lemma unpairs_app a b : unpairs (a ++ b) = unpairs a ++ unpairs b.
Proof. induction a as [|[x y] a IH]; [done|]. cbn. by rewrite IH. Qed.

Lemma case_loop_runs m table n : forall cr, roomy cr n ->
  let l := flat_map (fun v => if Z.testbit (run_mask m) (run_type v) then run_intervals m v else []) table in
  len (points cr) + 2 * len l <= n ->
  runs (case_loop cr m table) (fun '(failed, cr') => if (failed : bool) then no_memory else roomy cr' n /\ points cr' = points cr ++ unpairs l).
Proof.
  induction table as [|v table IH]; intros cr Hr l Hn; cbn [case_loop]; [apply runs_ret; by rewrite app_nil_r|].
  unfold l in *. cbn [flat_map] in *. rewrite length_app in Hn.
  set (l0 := if Z.testbit (run_mask m) (run_type v) then run_intervals m v else []) in *.
  assert (H : runs (if Z.testbit (run_mask m) (run_type v) then add_intervals cr (run_intervals m v) else Some (false, cr))
    (fun '(failed, cr') => if (failed : bool) then no_memory else roomy cr' n /\ points cr' = points cr ++ unpairs l0)).
  { unfold l0 in *. destruct (Z.testbit (run_mask m) (run_type v)); [apply add_intervals_runs; [done|lia]|]. apply runs_ret. by rewrite app_nil_r. }
  eapply runs_bind; [exact H|]. intros [[] cr1] H1; [by apply runs_ret|]. destruct H1 as [Hr1 E1]. cbv beta iota.
  eapply runs_mono; [apply (IH cr1 Hr1); rewrite E1, length_app, length_unpairs; lia|].
  intros [[] cr2] H2; [done|]. destruct H2 as [Hr2 E2]. split; [done|]. rewrite E2, E1, unpairs_app, <- app_assoc. done.
Qed.

Lemma unicode_case1_runs n u : runs (unicode_case1 (cr_init n) (if (u : bool) then CASE_F else CASE_U))
  (fun '(failed, cr) => if (failed : bool) then no_memory else roomy cr (2 ^ 28) /\ points cr = mask u).
Proof.
  assert (Hl : 2 * len (case_points (if (u : bool) then CASE_F else CASE_U)) <= 2 ^ 28) by (destruct u; vm_compute; done).
  replace (unicode_case1 _ _) with (case_loop (cr_init n) (if (u : bool) then CASE_F else CASE_U) case_conv_table1) by (by destruct u).
  eapply runs_mono; [apply (case_loop_runs _ case_conv_table1 (2 ^ 28)); [unfold roomy; cbn; lia|exact Hl]|].
  intros [[] cr] H; [done|]. rewrite <- mask_points. exact H.
Qed.
End memory.

(** ** Facts about the tables, by computation *)

Fixpoint ascendingb (l : list Z) : bool :=
  match l with x :: (y :: _) as l => (x <=? y) && ascendingb l | _ => true end.

Lemma ascendingb_spec l : ascendingb l = true -> ascending l.
Proof.
  induction l as [|x l IH]; [constructor|]. intros H. assert (Ha : ascending l) by (destruct l; [constructor|cbn in H; apply andb_true_iff in H as [_ H]; by apply IH]).
  constructor; [done|]. destruct l as [|y l]; [constructor|]. cbn in H. apply andb_true_iff in H as [H _].
  inversion Ha as [|? ? ? Hf]; subst. constructor; [lia|]. eapply Forall_impl; [exact Hf|]. intros z Hz. cbv beta in *. lia.
Qed.

Lemma mask_ascending u : ascending (mask u).
Proof. apply ascendingb_spec. destruct u; vm_compute; reflexivity. Qed.

Lemma mask_even u : Nat.Even (length (mask u)).
Proof. rewrite <- mask_points, length_unpairs. by eexists. Qed.

Lemma mask_short u : len (mask u) < 2 ^ 12.
Proof. destruct u; vm_compute; reflexivity. Qed.

Lemma mask_bounds u p : p ∈ mask u -> 0 <= p <= 0x110000.
Proof.
  assert (H : forallb (fun p => (0 <=? p) && (p <=? 0x110000)) (mask u) = true) by (destruct u; vm_compute; reflexivity).
  rewrite forallb_forall in H. intros Hp%list_elem_of_In%H. lia.
Qed.

(** The intervals of a run that are in the mask. *)
Definition intervals (u : bool) (v : Z) : list (Z * Z) :=
  let m := if u then CASE_F else CASE_U in if Z.testbit (run_mask m) (run_type v) then run_intervals m v else [].

Lemma in_range_intervals u x : in_range x (mask u) <-> exists v e, v ∈ case_conv_table1 /\ e ∈ intervals u v /\ fst e <= x < snd e.
Proof.
  rewrite <- mask_points. unfold in_range, case_points. rewrite pairs_unpairs. split.
  - intros (e & (v & Hv & He)%list_elem_of_In%in_flat_map & Hx). exists v, e. rewrite !list_elem_of_In. by destruct u.
  - intros (v & e & Hv & He & Hx). exists e. split; [|done]. apply list_elem_of_In, in_flat_map. exists v. rewrite <- !list_elem_of_In. by destruct u.
Qed.

(** The intervals are inside of the run. *)
Definition intervals_ok (v : Z) : bool :=
  forallb (fun u => forallb (fun e : Z * Z => (run_code v <=? fst e) && (snd e <=? run_code v + run_len v)) (intervals u v)) [true; false].

Lemma intervals_checked : forallb intervals_ok case_conv_table1 = true.
Proof. vm_compute. reflexivity. Qed.

Lemma mask_in_runs u x : in_range x (mask u) -> exists i v, table_at case_conv_table1 i = Some v /\ in_run x v.
Proof.
  intros (v & e & Hv & He & Hx)%in_range_intervals. pose proof intervals_checked as H. rewrite forallb_forall in H.
  specialize (H v (proj1 (list_elem_of_In _ _) Hv)). unfold intervals_ok in H. rewrite forallb_forall in H. specialize (H u). assert (Hu : In u [true; false]) by (destruct u; cbn; auto).
  specialize (H Hu). rewrite forallb_forall in H. specialize (H e (proj1 (list_elem_of_In _ _) He)).
  apply list_elem_of_lookup in Hv as [i Hi]. exists (Z.of_nat i), v. rewrite table_at_nat. split; [done|]. unfold in_run. lia.
Qed.

(** A character of a run that is not in the intervals is canonical. *)
Definition outside_ok (c i v : Z) : bool :=
  forallb (fun u => existsb (fun e : Z * Z => (fst e <=? c) && (c <? snd e)) (intervals u v) || bool_decide (lre_case_folding_entry c i v u = Some c)) [true; false].

Lemma outside_checked : check_runs outside_ok = true.
Proof. vm_compute. reflexivity. Qed.
Lemma outside_ascii u : forallb (fun k => member (Z.of_nat k) (mask u) || bool_decide (lre_canonicalize (Z.of_nat k) u = Some (Z.of_nat k))) (seq 0 128) = true.
Proof. destruct u; vm_compute; reflexivity. Qed.

Lemma outside_mask u c : 0 <= c -> ~ in_range c (mask u) -> lre_canonicalize c u = Some c.
Proof.
  intros Hc Hout. destruct (Z.lt_ge_cases c 128) as [Hlt|Hge].
  - pose proof (outside_ascii u) as H. rewrite forallb_forall in H. specialize (H (Z.to_nat c)). rewrite Z2Nat.id in H by lia.
    specialize (H ltac:(apply in_seq; lia)). apply orb_true_iff in H as [H|H%bool_decide_eq_true_1]; [|done].
    destruct Hout. apply member_in_range; [apply mask_even|apply mask_ascending|done].
  - destruct (search_run_spec c) as ([[i v]|] & E & Hf).
    + destruct Hf as [Hi Hin]. pose proof (check_runs_spec _ c i v outside_checked Hi Hin) as H. unfold outside_ok in H. rewrite forallb_forall in H.
      specialize (H u). assert (Hu : In u [true; false]) by (destruct u; cbn; auto). specialize (H Hu). destruct (entry_spec c i v u Hi Hin) as (d & E1 & E2 & _).
      apply orb_true_iff in H as [H|H%bool_decide_eq_true_1]; [|congruence]. destruct Hout. apply existsb_exists in H as (e & He & Hx).
      apply in_range_intervals. exists v, e. apply table_at_some in Hi as [_ Hi]. split_and!; [by eapply list_elem_of_lookup_2|by apply list_elem_of_In|lia..].
    + unfold lre_canonicalize. replace (c <? 128) with false by lia. by rewrite E.
Qed.

(** ** The loop over the characters *)

Section loop.
Context {W : World} (u : bool).

(** All the runs before [idx] end at [c] or before. *)
Definition passed (idx c : Z) : Prop := forall j w, case_conv_table1 !! j = Some w -> Z.of_nat j < idx -> run_code w + run_len w <= c.

Lemma advance_runs c j w fuel : table_at case_conv_table1 j = Some w -> in_run c w -> forall idx v, table_at case_conv_table1 idx = Some v -> passed idx c ->
  j - idx <= Z.of_nat fuel -> advance fuel c idx v = Some (j, w).
Proof.
  intros Hj Hc. pose proof (table_at_some _ _ _ Hj) as [Hj0 Ej]. induction fuel as [|fuel IH]; intros idx v Hv Hp Hf;
    pose proof (table_at_some _ _ _ Hv) as [Hi0 Ei]; cbn [advance].
  all: assert (Hle : idx <= j) by (destruct (Z.le_gt_cases idx j) as [|Hlt]; [done|]; specialize (Hp _ _ Ej ltac:(lia)); unfold in_run in Hc; lia).
  all: destruct (decide (idx = j)) as [->|Hne].
  1, 3: rewrite Hj in Hv; injection Hv as <-; unfold in_run in Hc; by replace ((run_code w <=? c) && (c <? run_code w + run_len w)) with true by lia.
  - lia.
  - assert (Hlt : run_code v + run_len v <= c).
    { pose proof (runs_ordered_lookup _ table_ordered _ _ _ _ Ei Ej ltac:(lia)). unfold in_run in Hc. lia. }
    replace ((run_code v <=? c) && (c <? run_code v + run_len v)) with false by lia.
    destruct (lookup_lt_is_Some_2 case_conv_table1 (Z.to_nat (idx + 1))) as [v' Hv']; [apply lookup_lt_Some in Ej; lia|].
    assert (E' : table_at case_conv_table1 (idx + 1) = Some v') by (rewrite <- (Z2Nat.id (idx + 1)) by lia; by rewrite table_at_nat).
    rewrite E'. cbn [mbind option_bind]. apply IH; [done| |lia]. intros k x Ek Hk. destruct (decide (Z.of_nat k = idx)) as [<-|]; [|apply (Hp _ _ Ek); lia].
    rewrite Nat2Z.id in Ei. congruence.
Qed.

Lemma passed_next j w c : table_at case_conv_table1 j = Some w -> in_run c w -> passed j (c + 1).
Proof.
  intros [Hj0 Ej]%table_at_some Hc k x Ek Hk. pose proof (runs_ordered_lookup _ table_ordered _ _ _ _ Ek Ej ltac:(lia)). unfold in_run in Hc. lia.
Qed.

Definition pending_in (x : Z) (p : option (Z * Z)) : Prop := match p with Some (a, b) => a <= x < b | None => False end.
Definition pending_ok (p : option (Z * Z)) : Prop := match p with Some (a, b) => 0 <= a < b /\ b <= 0x110000 | None => True end.

(** The characters [P] were folded, all of them below [c]. *)
Definition folded (P : Z -> Prop) (c : Z) (f : Folding) : Prop :=
  table_at case_conv_table1 (f_idx f) = Some (f_v f) /\ passed (f_idx f) c /\ roomy (f_result f) (2 ^ 28) /\ len (points (f_result f)) <= 2 * c /\
  Nat.Even (length (points (f_result f))) /\ proper (points (f_result f)) /\ pending_ok (f_pending f) /\
  (no_memory \/ forall x, in_range x (points (f_result f)) \/ pending_in x (f_pending f) <-> exists c, P c /\ lre_canonicalize c u = Some x).

Lemma proper_app l1 l2 : Nat.Even (length l1) -> proper l1 -> proper l2 -> proper (l1 ++ l2).
Proof. intros He H1 H2 p. rewrite pairs_app by done. intros [Hp|Hp]%elem_of_app; [by apply H1|by apply H2]. Qed.

Lemma add_interval_set cr c1 c2 : roomy cr (2 ^ 28) -> len (points cr) + 2 <= 2 ^ 28 -> Nat.Even (length (points cr)) -> proper (points cr) -> c1 < c2 ->
  runs (cr_add_interval cr c1 c2) (fun '(failed, cr') => roomy cr' (2 ^ 28) /\ len (points cr') <= len (points cr) + 2 /\
    Nat.Even (length (points cr')) /\ proper (points cr') /\ if (failed : bool) then no_memory else forall x, in_range x (points cr') <-> in_range x (points cr) \/ c1 <= x < c2).
Proof.
  intros Hr Hl He Hp Hc. eapply runs_mono; [by apply (cr_add_interval_runs cr c1 c2 (2 ^ 28))|].
  intros [[] cr'] [Hr' H]; [destruct H as [Hm E]; rewrite E; split_and!; done || lia|]. rewrite H, length_app. cbn [length]. split_and!; [done|lia| | |].
  - destruct He as [k ->]. exists (k + 1)%nat. lia.
  - apply proper_app; [done|done|]. intros p [->|Hn]%elem_of_cons; [done|by apply not_elem_of_nil in Hn].
  - intros x. rewrite in_range_app, in_range_cons by done. pose proof (in_range_nil x). tauto.
Qed.

Lemma fold_char_runs d p cr c : 0 <= d <= 0x10FFFF -> roomy cr (2 ^ 28) -> len (points cr) <= 2 * c -> c <= 0x110000 -> Nat.Even (length (points cr)) ->
  proper (points cr) -> pending_ok p ->
  runs (fold_char d p cr) (fun '(p', cr') => roomy cr' (2 ^ 28) /\ len (points cr') <= 2 * (c + 1) /\ Nat.Even (length (points cr')) /\ proper (points cr') /\
    pending_ok p' /\ (no_memory \/ forall x, in_range x (points cr') \/ pending_in x p' <-> (in_range x (points cr) \/ pending_in x p) \/ x = d)).
Proof.
  intros Hd Hr Hl Hc He Hp Hpend. unfold fold_char. destruct p as [[a b]|]; cbn [pending_ok] in Hpend.
  - destruct (Z.eqb_spec b d) as [->|Hne].
    + apply runs_ret. rewrite wrap_small by (unfold word; lia). split_and!; try done; cbn [pending_ok]; try lia.
      right. intros x. cbn [pending_in]. assert (a <= x < d + 1 <-> a <= x < d \/ x = d) by lia. tauto.
    + call (add_interval_set cr a b Hr) as [failed cr'] (Hr' & Hl' & He' & Hp' & H); [lia|done|done|lia|]. apply runs_ret.
      rewrite wrap_small by (unfold word; lia). split_and!; try done; cbn [pending_ok]; try lia. destruct failed; [by left|]. right. intros x. rewrite H.
      cbn [pending_in]. assert (d <= x < d + 1 <-> x = d) by lia. tauto.
  - apply runs_ret. rewrite wrap_small by (unfold word; lia). split_and!; try done; cbn [pending_ok]; try lia.
    right. intros x. cbn [pending_in]. assert (d <= x < d + 1 <-> x = d) by lia. tauto.
Qed.

Lemma fold_chars_runs count : forall c f P, folded P c f -> 0 <= c -> c + Z.of_nat count <= 0x110000 ->
  (forall k, c <= k < c + Z.of_nat count -> in_range k (mask u)) ->
  runs (fold_chars count u c f) (fun f' => folded (fun x => P x \/ c <= x < c + Z.of_nat count) (c + Z.of_nat count) f').
Proof.
  induction count as [|count IH]; intros c f P Hf Hc Hb Hm; cbn [fold_chars].
  - apply runs_ret. rewrite Z.add_0_r. destruct Hf as (H1 & H2 & H3 & H4 & H5 & H6 & H7 & H8). unfold folded. split_and!; try done.
    destruct H8 as [H8|H8]; [by left|]. right. intros x. rewrite H8. split; intros (k & Hk & E); exists k; (split; [|done]); [by left|]. destruct Hk as [|Hk]; [done|lia].
  - destruct Hf as (H1 & H2 & H3 & H4 & H5 & H6 & H7 & H8). destruct (mask_in_runs u c) as (j & w & Hj & Hw); [apply Hm; lia|].
    rewrite (advance_runs c j w _ Hj Hw _ _ H1 H2); [|apply table_at_some in Hj as [? Hj], H1 as [? _]; apply lookup_lt_Some in Hj; lia]. cbn [mbind option_bind].
    destruct (entry_spec c j w u Hj Hw) as (d & E & Ec & _ & Hd & _). rewrite E. cbn [mbind option_bind].
    call (fold_char_runs d (f_pending f) (f_result f) c) as [p' cr'] (G1 & G2 & G3 & G4 & G5 & G6); try done; [lia|].
    eapply runs_mono; [apply (IH (c + 1) _ (fun x => P x \/ x = c)); [|lia|lia|intros k Hk; apply Hm; lia]|].
    + unfold folded. cbn [f_idx f_v f_pending f_result]. split_and!; try done; [by eapply passed_next|]. destruct H8 as [|H8]; [by left|]. destruct G6 as [|G6]; [by left|].
      right. intros x. rewrite G6, H8. split.
      * intros [(k & Hk & Ek)| ->]; [exists k; tauto|exists c; tauto].
      * intros (k & [Hk| ->] & Ek); [left; by exists k|right; congruence].
    + intros f' (F1 & F2 & F3 & F4 & F5 & F6 & F7 & F8). replace (c + Z.of_nat (S count)) with (c + 1 + Z.of_nat count) by lia. unfold folded. split_and!; try done.
      destruct F8 as [|F8]; [by left|]. right. intros x. rewrite F8. split; intros (k & Hk & Ek); exists k; (split; [|done]); [|].
      * destruct Hk as [[|]|]; [by left|right; lia|right; lia].
      * destruct Hk as [|Hk]; [by left; left|]. destruct (Z.eq_dec k c); [left; by right|right; lia].
Qed.

Lemma folded_later P c c' f : folded P c f -> c <= c' -> folded P c' f.
Proof.
  intros (H1 & H2 & H3 & H4 & H5 & H6 & H7 & H8) Hc. unfold folded. split_and!; try done; [|lia]. intros j w E Hj. specialize (H2 j w E Hj). lia.
Qed.

Lemma folded_ext P Q c f : (forall x, P x <-> Q x) -> folded P c f -> folded Q c f.
Proof.
  intros HPQ (H1 & H2 & H3 & H4 & H5 & H6 & H7 & H8). unfold folded. split_and!; try done. destruct H8 as [|H8]; [by left|]. right. intros x.
  rewrite H8. split; intros (k & Hk & Ek); exists k; (split; [|done]); by apply HPQ.
Qed.

Lemma fold_intervals_runs pt : Nat.Even (length pt) -> forall c f P, strict pt -> folded P c f -> 0 <= c <= 0x110000 -> (forall p, p ∈ pt -> c <= p <= 0x110000) ->
  (forall k, in_range k pt -> in_range k (mask u)) ->
  runs (fold_intervals pt u f) (fun f' => exists c', c' <= 0x110000 /\ folded (fun x => P x \/ in_range x pt) c' f').
Proof.
  revert pt. apply (pairs_ind (fun pt => forall c f P, strict pt -> folded P c f -> 0 <= c <= 0x110000 -> (forall p, p ∈ pt -> c <= p <= 0x110000) ->
    (forall k, in_range k pt -> in_range k (mask u)) ->
    runs (fold_intervals pt u f) (fun f' => exists c', c' <= 0x110000 /\ folded (fun x => P x \/ in_range x pt) c' f'))).
  - intros c f P _ Hf Hc _ _. apply runs_ret. exists c. split; [lia|]. eapply folded_ext; [|exact Hf]. intros x. pose proof (in_range_nil x). tauto.
  - intros s e pt He IH c f P Hs Hf Hc Hb Hm. cbn [fold_intervals]. apply StronglySorted_cons in Hs as [Hs1 Hs]. apply StronglySorted_cons in Hs as [Hs2 Hs].
    rewrite Forall_forall in Hs1, Hs2. assert (Hse : s < e) by (apply Hs1; by left). pose proof (Hb s ltac:(by left)) as Hbs. pose proof (Hb e ltac:(right; by left)) as Hbe.
    assert (Hcnt : Z.of_nat (Z.to_nat (e - s)) = e - s) by lia.
    call (fold_chars_runs (Z.to_nat (e - s)) s f P) as f1 Hf1; [by apply (folded_later P c); [|lia]|lia|lia|intros k Hk; apply Hm, in_range_cons; left; lia|].
    rewrite Hcnt in Hf1. replace (s + (e - s)) with e in Hf1 by lia.
    eapply runs_mono; [apply (IH e f1 _ Hs Hf1); [lia| |]|].
    + intros p Hp. split; [specialize (Hs2 p Hp); lia|]. apply Hb. by right; right.
    + intros k Hk. apply Hm, in_range_cons. by right.
    + intros f' (c' & Hc' & Hf'). exists c'. split; [done|]. eapply folded_ext; [|exact Hf']. intros x. cbv beta. rewrite in_range_cons. tauto.
Qed.

(** ** The whole function *)

Lemma in_range_bounds x pt lo hi : (forall p, p ∈ pt -> lo <= p <= hi) -> in_range x pt -> lo <= x < hi.
Proof.
  intros Hb ([s e] & Hp & Hx). cbn [fst snd] in Hx. assert (H : s ∈ pt /\ e ∈ pt); [|destruct H as [H1 H2]; apply Hb in H1, H2; lia].
  clear Hx Hb x. revert Hp. assert (H : forall n pt, (length pt <= n)%nat -> (s, e) ∈ pairs pt -> s ∈ pt /\ e ∈ pt); [|by eapply H].
  clear pt. induction n as [|n IH]; intros [|a [|b pt]] Hn; cbn [pairs length] in *; try (intros H%not_elem_of_nil; done); try lia.
  intros [[= <- <-]|H]%elem_of_cons; [split; [by left|right; by left]|]. destruct (IH pt) as [H1 H2]; [lia|done|]. split; by right; right.
Qed.

(** The points of a canonical set with its characters between two bounds. *)
Lemma canonical_bounds pt lo hi : canonical pt -> (forall x, in_range x pt -> lo <= x < hi) -> forall p, p ∈ pt -> lo <= p <= hi.
Proof.
  intros [Hs He]. revert Hs. revert pt He. apply (pairs_ind (fun pt => strict pt -> (forall x, in_range x pt -> lo <= x < hi) -> forall p, p ∈ pt -> lo <= p <= hi)).
  - intros _ _ p Hp. by apply not_elem_of_nil in Hp.
  - intros s e pt _ IH Hs Hb p Hp. apply StronglySorted_cons in Hs as [Hs1 Hs]. apply StronglySorted_cons in Hs as [_ Hs]. rewrite Forall_forall in Hs1.
    assert (Hse : s < e) by (apply Hs1; by left). pose proof (Hb s ltac:(apply in_range_cons; left; lia)). pose proof (Hb (e - 1) ltac:(apply in_range_cons; left; lia)).
    apply elem_of_cons in Hp as [->|Hp]; [lia|]. apply elem_of_cons in Hp as [->|Hp]; [lia|]. apply IH; [done| |done]. intros x Hx. apply Hb, in_range_cons. by right.
Qed.

Definition image (P : Z -> Prop) (x : Z) : Prop := exists c, P c /\ lre_canonicalize c u = Some x.

Lemma finish_fold c f P : folded P c f -> c <= 0x110000 ->
  runs (match f_pending f with Some (d_start, d_end) => cr_add_interval (f_result f) d_start d_end | None => Some (false, f_result f) end)
    (fun '(failed, cr) => Nat.Even (length (points cr)) /\ proper (points cr) /\ len (points cr) < 2 ^ 27 /\
      (no_memory \/ (failed = false /\ forall x, in_range x (points cr) <-> image P x))).
Proof.
  intros (_ & _ & Hr & Hl & He & Hp & Hpend & H) Hc. destruct (f_pending f) as [[a b]|]; cbn [pending_ok pending_in] in *.
  - eapply runs_mono; [apply (add_interval_set (f_result f) a b Hr); [lia|done|done|lia]|]. intros [failed cr] (Hr' & Hl' & He' & Hp' & Hset). split_and!; [done|done|lia|].
    destruct failed; [by left|]. destruct H as [|H]; [by left|]. right. split; [done|]. intros x. by rewrite Hset, H.
  - apply runs_ret. split_and!; [done|done|lia|]. destruct H as [|H]; [by left|]. right. split; [done|]. intros x. rewrite <- (H x). tauto.
Qed.
End loop.

Section theorem.
Context {W : World}.

Lemma canonicalize_runs cr u : canonical (points cr) -> (forall p, p ∈ points cr -> 0 <= p <= 0x110000) -> 0 <= size cr -> len (points cr) < 2 ^ 28 ->
  runs (cr_regexp_canonicalize cr u) (fun '(failed, cr') => no_memory \/
    (failed = false /\ canonical (points cr') /\ forall x, in_range x (points cr') <-> image u (fun c => in_range c (points cr)) x)).
Proof.
  intros Hc Hb Hsz Hl. pose proof (mask_ascending u) as Ma. pose proof (mask_even u) as Me. pose proof (mask_bounds u) as Mb. pose proof (mask_short u) as Ms.
  unfold cr_regexp_canonicalize. call (unicode_case1_runs (ev cr) u) as [[] cr_mask] HM; [apply runs_ret; by left|]. destruct HM as [Rm Em]. pose proof (proj1 Rm) as Zm. clear Rm.
  assert (Hca : ascending (points cr)) by (by apply strict_ascending, Hc). assert (Hce : Nat.Even (length (points cr))) by apply Hc.
  call (cr_op_runs (ev cr_mask) CR_OP_INTER (points cr_mask) (points cr)) as [[] cr_inter] HI; rewrite ?Em; try done; try lia;
    [apply runs_ret; by left|]. destruct HI as (Ci & Li & Si). rewrite Em in Si, Li.
  call (cr_invert_runs (after cr_mask cr_inter)) as [[] cr_out] HO; cbn [after points size]; rewrite ?Em; try done; try lia;
    [intros p Hp; apply Mb in Hp; unfold UINT32_MAX; lia|apply runs_ret; by left|]. destruct HO as (Co & Lo & So). cbn [after points] in So, Lo. rewrite Em in So, Lo.
  assert (Hoa : ascending (points cr_out)) by (by apply strict_ascending, Co). assert (Hoe : Nat.Even (length (points cr_out))) by apply Co.
  call (cr_op_runs (ev cr_out) CR_OP_INTER (points cr_out) (points cr)) as [[] cr_sub] HS; try done; try lia; [apply runs_ret; by left|]. destruct HS as (Cs & Ls & Ss).
  destruct (lookup_lt_is_Some_2 case_conv_table1 0) as [v0 Hv0]; [vm_compute; lia|].
  assert (Ev0 : table_at case_conv_table1 0 = Some v0) by exact Hv0. rewrite Ev0. cbn [mbind option_bind].
  set (f0 := {| f_idx := 0; f_v := v0; f_pending := None; f_result := cr_init (ev cr_sub) |}).
  assert (F0 : folded u (fun _ => False) 0 f0).
  { unfold folded, f0, passed, roomy. cbn [f_idx f_v f_pending f_result cr_init points size]. split_and!; try done; try (cbn [length]; lia);
      [by exists 0%nat|intros p Hp; by apply not_elem_of_nil in Hp|].
    right. intros x. pose proof (in_range_nil x). split; [intros [?|[]]; done|]. by intros (? & ? & _). }
  assert (Bi : forall p, p ∈ points cr_inter -> 0 <= p <= 0x110000).
  { apply canonical_bounds; [done|]. intros x [_ Hx]%Si. cbn in Hx. by apply (in_range_bounds x (points cr) 0 0x110000). }
  call (fold_intervals_runs u (points cr_inter) (proj2 Ci) 0 f0 _ (proj1 Ci) F0) as f (c' & Hc' & Ff); [lia|done|by intros k [Hk _]%Si|].
  call (finish_fold u c' f _ Ff Hc') as [failed cr_res] (Re & Rp & Rl & Rs). destruct failed.
  { apply runs_ret. left. destruct Rs as [|[? _]]; done. }
  call (sort_and_remove_overlap_runs cr_res Re Rp ltac:(lia)) as cr_sorted (Cr & Lr & Sr).
  eapply runs_mono; [apply (cr_op_empty {| points := []; size := size cr; ev := ev cr_sorted |} CR_OP_UNION (points cr_sorted) (points cr_sub)); try done|].
  - by apply strict_ascending, Cr.
  - by apply strict_ascending, Cs.
  - by apply Cr.
  - by apply Cs.
  - lia.
  - intros [[] cr'] H; [by left|]. destruct H as (C' & _ & S'). destruct Rs as [|[_ Rs]]; [by left|]. right. split; [done|]. split; [done|].
    intros x. rewrite S'. cbn [op_prop]. rewrite Sr, Rs, Ss, So. cbn [op_prop]. split.
    + intros [(c & [[]|Hin] & Ex)|[[Hx Hout] Hin]]; [exists c; split; [by apply Si|done]|]. exists x. split; [done|]. apply outside_mask; [lia|done].
    + intros (c & Hin & Ex). pose proof (in_range_bounds c (points cr) 0 0x110000 Hb Hin) as Hbc.
      destruct (member c (mask u)) eqn:Em'.
      * left. exists c. split; [right; apply Si; split; [by apply member_in_range|done]|done].
      * assert (Hout : ~ in_range c (mask u)) by (rewrite <- member_in_range by done; congruence).
        rewrite (outside_mask u c) in Ex by (done || lia). injection Ex as ->. right. split; [|done]. split; [unfold UINT32_MAX; lia|done].
Qed.

(** C38: [cr_regexp_canonicalize] replaces a set of characters by the set of their canonical
    characters, the image of [lre_canonicalize], in canonical points, and ends inside of its
    tables and buffers, or an allocation failed. *)
Theorem regexp_canonicalize_image cr u : canonical (points cr) -> (forall p, p ∈ points cr -> 0 <= p <= 0x110000) -> 0 <= size cr ->
  len (points cr) < 2 ^ 28 ->
  exists failed cr', cr_regexp_canonicalize cr u = Some (failed, cr') /\
    (no_memory \/ failed = false /\ canonical (points cr') /\
      forall x, in_range x (points cr') <-> exists c, in_range c (points cr) /\ lre_canonicalize c u = Some x).
Proof. intros Hc Hb Hs Hl. destruct (canonicalize_runs cr u Hc Hb Hs Hl) as ([failed cr'] & E & H). by exists failed, cr'. Qed.
End theorem.

#[local] Instance healthy : World := fun _ => true.

(** Latin capital letters, the sharp s, and the final sigma. *)
Example fold_sample : (fun '(failed, cr) => (failed, points cr)) <$> cr_regexp_canonicalize {| points := [65; 91; 223; 224; 0x3c2; 0x3c4]; size := 6; ev := 0 |} true =
  Some (false, [97; 123; 223; 224; 0x3c3; 0x3c4]).
Proof. vm_compute. reflexivity. Qed.

Lemma regexp_canonicalize_image_witness :
  exists failed cr', cr_regexp_canonicalize {| points := [65; 91; 223; 224]; size := 4; ev := 0 |} true = Some (failed, cr') /\
    (no_memory \/ failed = false /\ canonical (points cr') /\
      forall x, in_range x (points cr') <-> exists c, in_range c [65; 91; 223; 224] /\ lre_canonicalize c true = Some x).
Proof.
  apply (regexp_canonicalize_image {| points := [65; 91; 223; 224]; size := 4; ev := 0 |} true); cbn [points size len]; [split| |lia|cbn; lia].
  - repeat constructor; lia.
  - by exists 2%nat.
  - intros p Hp. repeat (apply elem_of_cons in Hp as [->|Hp]; [lia|]). by apply not_elem_of_nil in Hp.
Defined.

(** A failed allocation in the loop is not reported, and the letters are lost. *)
Lemma canonicalize_loses : (fun '(failed, cr) => (failed, points cr)) <$>
  @cr_regexp_canonicalize (fun k => negb (k =? 24)%nat) {| points := [65; 91; 223; 224; 0x3c2; 0x3c4]; size := 6; ev := 0 |} true =
  Some (false, [223; 224; 0x3c3; 0x3c4]).
Proof. vm_compute. reflexivity. Qed.
