(* ===== verification/ReExec.v ===== *)
(** * The executor of regular expressions

    [lre_exec] of [src/quickjs/libregexp.c] with the opcodes of
    [src/quickjs/libregexp-opcode.h].  Positions in the subject are indices of its units,
    positions in the bytecode are offsets after its header.  The stack is an array with
    the indices [sp] and [bp], as in the code; an element says how it was written, and
    reading it otherwise is undefined. *)
From S2P Require Export Engine Utf8 Bytes UnicodeClass Checked.
#[local] Open Scope Z_scope.

(** ** Data *)

Inductive REOPCodeEnum :=
| REOP_invalid | REOP_char | REOP_char_i | REOP_char32 | REOP_char32_i | REOP_dot | REOP_any | REOP_space | REOP_not_space
| REOP_line_start | REOP_line_start_m | REOP_line_end | REOP_line_end_m | REOP_goto | REOP_split_goto_first
| REOP_split_next_first | REOP_match | REOP_lookahead_match | REOP_negative_lookahead_match | REOP_save_start
| REOP_save_end | REOP_save_reset | REOP_loop | REOP_loop_split_goto_first | REOP_loop_split_next_first
| REOP_loop_check_adv_split_goto_first | REOP_loop_check_adv_split_next_first | REOP_set_i32 | REOP_word_boundary
| REOP_word_boundary_i | REOP_not_word_boundary | REOP_not_word_boundary_i | REOP_back_reference | REOP_back_reference_i
| REOP_backward_back_reference | REOP_backward_back_reference_i | REOP_range | REOP_range_i | REOP_range32 | REOP_range32_i
| REOP_lookahead | REOP_negative_lookahead | REOP_set_char_pos | REOP_check_advance | REOP_prev.

#[export] Instance REOPCodeEnum_eq : EqDecision REOPCodeEnum.
Proof. solve_decision. Defined.

Definition reopcodes : list REOPCodeEnum := [
  REOP_invalid; REOP_char; REOP_char_i; REOP_char32; REOP_char32_i; REOP_dot; REOP_any; REOP_space; REOP_not_space;
  REOP_line_start; REOP_line_start_m; REOP_line_end; REOP_line_end_m; REOP_goto; REOP_split_goto_first;
  REOP_split_next_first; REOP_match; REOP_lookahead_match; REOP_negative_lookahead_match; REOP_save_start;
  REOP_save_end; REOP_save_reset; REOP_loop; REOP_loop_split_goto_first; REOP_loop_split_next_first;
  REOP_loop_check_adv_split_goto_first; REOP_loop_check_adv_split_next_first; REOP_set_i32; REOP_word_boundary;
  REOP_word_boundary_i; REOP_not_word_boundary; REOP_not_word_boundary_i; REOP_back_reference; REOP_back_reference_i;
  REOP_backward_back_reference; REOP_backward_back_reference_i; REOP_range; REOP_range_i; REOP_range32; REOP_range32_i;
  REOP_lookahead; REOP_negative_lookahead; REOP_set_char_pos; REOP_check_advance; REOP_prev].

(** An entry of [capture]: not initialized, [NULL], a position, or the value of a counter. *)
Inductive Slot := Undef | Null | Pos (p : nat) | Num (n : Z).

Inductive REExecStateEnum := RE_EXEC_STATE_SPLIT | RE_EXEC_STATE_LOOKAHEAD | RE_EXEC_STATE_NEGATIVE_LOOKAHEAD.
#[export] Instance REExecStateEnum_eq : EqDecision REExecStateEnum.
Proof. solve_decision. Defined.

(** The union [StackElem]: the three fields of a saved state ([ptr], [ptr], [bp]), the two
    of a saved capture ([val], [ptr]), and the link that [REOP_lookahead_match] writes. *)
Inductive StackElem :=
| Raw
| Code (pc : Z)
| Char (cptr : nat)
| Base (bp : nat) (type : REExecStateEnum)
| Index (idx : nat)
| Saved (v : Slot)
| Link (sp : nat).

(** What does not change during the execution; [cbuf_type] is 0 for bytes, 1 for 16-bit
    units and 2 for UTF-16. *)
Record Subject := { code : list Z; cbuf : list Z; cbuf_type : Z; capture_count : Z; is_unicode : bool }.

(** [REExecContext] and the variables of [lre_exec_backtrack]; [ev] and [polls] count the
    allocations and the calls of the timeout function. *)
Record State := {
  stack_buf : list StackElem;
  capture : list Slot;
  pc : Z;
  cptr : nat;
  sp : nat;
  bp : nat;
  interrupt_counter : Z;
  ev : nat;
  polls : nat
}.

Definition set_pc (pc : Z) (st : State) : State :=
  {| stack_buf := stack_buf st; capture := capture st; pc := pc; cptr := cptr st; sp := sp st; bp := bp st;
     interrupt_counter := interrupt_counter st; ev := ev st; polls := polls st |}.
Definition set_cptr (p : nat) (st : State) : State :=
  {| stack_buf := stack_buf st; capture := capture st; pc := pc st; cptr := p; sp := sp st; bp := bp st;
     interrupt_counter := interrupt_counter st; ev := ev st; polls := polls st |}.
Definition set_capture (cap : list Slot) (st : State) : State :=
  {| stack_buf := stack_buf st; capture := cap; pc := pc st; cptr := cptr st; sp := sp st; bp := bp st;
     interrupt_counter := interrupt_counter st; ev := ev st; polls := polls st |}.
Definition set_stack (buf : list StackElem) (sp bp : nat) (st : State) : State :=
  {| stack_buf := buf; capture := capture st; pc := pc st; cptr := cptr st; sp := sp; bp := bp;
     interrupt_counter := interrupt_counter st; ev := ev st; polls := polls st |}.

(** The timeout function of the host: whether the n-th call stops the execution. *)
Class Timeouts := lre_check_timeout : nat -> bool.

Definition LRE_RET_MEMORY_ERROR : Z := -1.
Definition LRE_RET_TIMEOUT : Z := -2.
Definition INTERRUPT_COUNTER_INIT : Z := 10000.
Definition LRE_FLAG_UNICODE : Z := 16.
Definition LRE_FLAG_UNICODE_SETS : Z := 256.
Definition RE_HEADER_FLAGS : Z := 0.
Definition RE_HEADER_CAPTURE_COUNT : Z := 2.
Definition RE_HEADER_REGISTER_COUNT : Z := 3.
Definition RE_HEADER_LEN : nat := 8.

(** The value that the C function returns, with the captures. *)
Abbreviation Exec A := (Checked (Z * list Slot) A).

Definition is_line_terminator (c : Z) : bool := (c =? 10) || (c =? 13) || (c =? 0x2028) || (c =? 0x2029).

(** ** The subject *)

Section subject.
Context (s : Subject).

(** [GET_CHAR] and [PEEK_CHAR] before [cbuf_end]: the character and the position after it. *)
Definition get_char (cptr cbuf_end : nat) : option (Z * nat) :=
  c ← cbuf s !! cptr;
  if is_hi_surrogate c && (cbuf_type s =? 2) && bool_decide (cptr + 1 < cbuf_end)%nat then
    d ← cbuf s !! (cptr + 1)%nat;
    if is_lo_surrogate d then Some (from_surrogate c d, (cptr + 2)%nat) else Some (c, (cptr + 1)%nat)
  else Some (c, (cptr + 1)%nat).

(** [GET_PREV_CHAR], [PEEK_PREV_CHAR] and [PREV_CHAR] after [cbuf_start]. *)
Definition get_prev_char (cptr cbuf_start : nat) : option (Z * nat) :=
  guard (0 < cptr)%nat;;
  c ← cbuf s !! (cptr - 1)%nat;
  if is_lo_surrogate c && (cbuf_type s =? 2) && bool_decide (cbuf_start < cptr - 1)%nat then
    d ← cbuf s !! (cptr - 2)%nat;
    if is_hi_surrogate d then Some (from_surrogate d c, (cptr - 2)%nat) else Some (c, (cptr - 1)%nat)
  else Some (c, (cptr - 1)%nat).

Definition cbuf_end : nat := length (cbuf s).

(** A character compared with another one, with the case or not. *)
Definition fold_char (ignore_case : bool) (c : Z) : option Z :=
  if ignore_case then lre_canonicalize c (is_unicode s) else Some c.

(** The loops of [REOP_back_reference] and [REOP_backward_back_reference]: the position
    after the reference, or no match. *)
Fixpoint ref_forward (fuel : nat) (ignore_case : bool) (cptr1 cptr1_end cptr : nat) : option (option nat) :=
  if decide (cptr1 < cptr1_end)%nat then
    match fuel with
    | O => None
    | S fuel =>
        if decide (cbuf_end <= cptr)%nat then Some None
        else
          '(c1, cptr1) ← get_char cptr1 cptr1_end;
          '(c2, cptr) ← get_char cptr cbuf_end;
          c1 ← fold_char ignore_case c1;
          c2 ← fold_char ignore_case c2;
          if negb (c1 =? c2) then Some None else ref_forward fuel ignore_case cptr1 cptr1_end cptr
    end
  else Some (Some cptr).

Fixpoint ref_backward (fuel : nat) (ignore_case : bool) (cptr1 cptr1_start cptr : nat) : option (option nat) :=
  if decide (cptr1_start < cptr1)%nat then
    match fuel with
    | O => None
    | S fuel =>
        if decide (cptr = 0)%nat then Some None
        else
          '(c1, cptr1) ← get_prev_char cptr1 cptr1_start;
          '(c2, cptr) ← get_prev_char cptr 0;
          c1 ← fold_char ignore_case c1;
          c2 ← fold_char ignore_case c2;
          if negb (c1 =? c2) then Some None else ref_backward fuel ignore_case cptr1 cptr1_start cptr
    end
  else Some (Some cptr).

(** The captures whose numbers are the [n] bytes at [pos]; the first one that is set is
    compared. *)
Fixpoint back_reference (n : nat) (pos : Z) (backward ignore_case : bool) (cap : list Slot) (cptr : nat) : option (option nat) :=
  match n with
  | O => Some (Some cptr)
  | S n =>
      val ← get_u8 (code s) pos;
      if capture_count s <=? val then Some None
      else
        cptr1_start ← cap !! Z.to_nat (2 * val);
        cptr1_end ← cap !! Z.to_nat (2 * val + 1);
        match cptr1_start, cptr1_end with
        | Pos a, Pos b =>
            if backward then ref_backward b ignore_case b a cptr else ref_forward b ignore_case a b cptr
        | Null, (Null | Pos _) | Pos _, Null => back_reference n (pos + 1) backward ignore_case cap cptr
        | _, _ => None
        end
  end.

(** The words of the ranges: 2 bytes, or 4. *)
Definition get_bound (wide : bool) (pos : Z) : option Z := if wide then get_u32 (code s) pos else get_u16 (code s) pos.
Definition bound_size (wide : bool) : Z := if wide then 4 else 2.

(** The binary search among the ranges at [pos]. *)
Fixpoint range_search (fuel : nat) (wide : bool) (pos c idx_min idx_max : Z) : option bool :=
  if idx_min <=? idx_max then
    match fuel with
    | O => None
    | S fuel =>
        let idx := u32 (idx_min + idx_max) / 2 in
        low ← get_bound wide (pos + idx * (2 * bound_size wide));
        high ← get_bound wide (pos + idx * (2 * bound_size wide) + bound_size wide);
        if c <? low then range_search fuel wide pos c idx_min (u32 (idx - 1))
        else if high <? c then range_search fuel wide pos c (idx + 1) idx_max
        else Some true
    end
  else Some false.

(** The test of [REOP_range] and [REOP_range32] on the [n] ranges at [pos]. *)
Definition range_test (wide : bool) (pos n c : Z) : option bool :=
  low ← get_bound wide pos;
  if c <? low then Some false
  else
    let idx_max := u32 (n - 1) in
    high ← get_bound wide (pos + idx_max * (2 * bound_size wide) + bound_size wide);
    if negb wide && (0xffff <=? c) && (high =? 0xffff) then Some true
    else if high <? c then Some false
    else range_search (Z.to_nat n) wide pos c 0 idx_max.

(** The tests of [REOP_word_boundary] on the character before and the current one. *)
Definition word_char (ignore_case : bool) (c : Z) : option bool :=
  if c <? 256 then lre_is_word_byte c else Some (ignore_case && ((c =? 0x017f) || (c =? 0x212a))).
Definition word_before (ignore_case : bool) (cptr : nat) : option bool :=
  if decide (cptr = 0)%nat then Some false else '(c, _) ← get_prev_char cptr 0; word_char ignore_case c.
Definition word_after (ignore_case : bool) (cptr : nat) : option bool :=
  if decide (cbuf_end <= cptr)%nat then Some false else '(c, _) ← get_char cptr cbuf_end; word_char ignore_case c.
End subject.

(** ** The stack *)

Section machine.
Context {W : World} {T : Timeouts} (s : Subject).

Definition lre_poll_timeout (st : State) : Exec State :=
  let count := interrupt_counter st - 1 in
  let poll := count <=? 0 in
  let st' := {| stack_buf := stack_buf st; capture := capture st; pc := pc st; cptr := cptr st; sp := sp st; bp := bp st;
                interrupt_counter := if poll then INTERRUPT_COUNTER_INIT else count; ev := ev st;
                polls := if poll then S (polls st) else polls st |} in
  if poll && lre_check_timeout (polls st) then throw (LRE_RET_TIMEOUT, capture st) else ret st'.

Definition stack_realloc (st : State) (n : nat) : Exec State :=
  let stack_size := length (stack_buf st) in
  let new_size := (stack_size * 3 / 2)%nat in
  let new_size := if decide (new_size < n)%nat then n else new_size in
  if ext_ok (ev st) then
    ret {| stack_buf := stack_buf st ++ replicate (new_size - stack_size) Raw; capture := capture st; pc := pc st; cptr := cptr st;
           sp := sp st; bp := bp st; interrupt_counter := interrupt_counter st; ev := S (ev st); polls := polls st |}
  else throw (LRE_RET_MEMORY_ERROR, capture st).

Definition CHECK_STACK_SPACE (n : nat) (st : State) : Exec State :=
  if decide (length (stack_buf st) - sp st < n)%nat then stack_realloc st (sp st + n) else ret st.

Definition put (i : nat) (x : StackElem) (buf : list StackElem) : option (list StackElem) :=
  guard (i < length buf)%nat;; Some (<[i:=x]> buf).

(** The two elements of a saved capture are pushed. *)
Definition push_capture (idx : nat) (old : Slot) (st : State) : Exec State :=
  st ←! CHECK_STACK_SPACE 2 st;
  buf ← put (sp st) (Index idx) (stack_buf st);
  buf ← put (sp st + 1) (Saved old) buf;
  ret (set_stack buf (sp st + 2) (bp st) st).

Definition SAVE_CAPTURE (idx : nat) (value : Slot) (st : State) : Exec State :=
  old ← capture st !! idx;
  st ←! push_capture idx old st;
  ret (set_capture (<[idx:=value]> (capture st)) st).

(** Whether the capture is already saved above [bp]. *)
Fixpoint is_saved (fuel : nat) (buf : list StackElem) (sp1 bp idx : nat) : option bool :=
  if decide (bp < sp1)%nat then
    match fuel with
    | O => None
    | S fuel =>
        guard (2 <= sp1)%nat;;
        e ← buf !! (sp1 - 2)%nat;
        match e with
        | Index i => if decide (i = idx) then Some true else is_saved fuel buf (sp1 - 2) bp idx
        | _ => None
        end
    end
  else Some false.

Definition SAVE_CAPTURE_CHECK (idx : nat) (value : Slot) (st : State) : Exec State :=
  old ← capture st !! idx;
  b ← is_saved (sp st) (stack_buf st) (sp st) (bp st) idx;
  st ←! (if (b : bool) then ret st else push_capture idx old st);
  ret (set_capture (<[idx:=value]> (capture st)) st).

(** The three elements of a saved state are pushed. *)
Definition push_state (pc1 : Z) (type : REExecStateEnum) (st : State) : Exec State :=
  st ←! CHECK_STACK_SPACE 3 st;
  buf ← put (sp st) (Code pc1) (stack_buf st);
  buf ← put (sp st + 1) (Char (cptr st)) buf;
  buf ← put (sp st + 2) (Base (bp st) type) buf;
  ret (set_stack buf (sp st + 3) (sp st + 3) st).

(** The captures saved between [bp] and [sp] are restored. *)
Fixpoint undo_loop (fuel : nat) (buf : list StackElem) (sp bp : nat) (cap : list Slot) : option (nat * list Slot) :=
  if decide (bp < sp)%nat then
    match fuel with
    | O => None
    | S fuel =>
        guard (2 <= sp)%nat;;
        i ← buf !! (sp - 2)%nat;
        v ← buf !! (sp - 1)%nat;
        match i, v with
        | Index idx, Saved v => guard (idx < length cap)%nat;; undo_loop fuel buf (sp - 2) bp (<[idx:=v]> cap)
        | _, _ => None
        end
    end
  else Some (sp, cap).

(** The saved state below [sp]: [pc], [cptr], [bp] and its type. *)
Definition read_state (buf : list StackElem) (sp : nat) : option (Z * nat * nat * REExecStateEnum) :=
  guard (3 <= sp)%nat;;
  p ← buf !! (sp - 3)%nat;
  c ← buf !! (sp - 2)%nat;
  b ← buf !! (sp - 1)%nat;
  match p, c, b with Code p, Char c, Base b t => Some (p, c, b, t) | _, _, _ => None end.

(** The captures are undone and the saved state is popped. *)
Definition pop_state (st : State) : option (State * REExecStateEnum) :=
  '(sp, cap) ← undo_loop (sp st) (stack_buf st) (sp st) (bp st) (capture st);
  '(p, c, b, t) ← read_state (stack_buf st) sp;
  Some (set_pc p (set_cptr c (set_capture cap (set_stack (stack_buf st) (sp - 3) b st))), t).

(** The label [no_match]. *)
Fixpoint no_match_loop (fuel : nat) (st : State) : Exec State :=
  if decide (bp st = 0)%nat then throw (0, capture st)
  else
    match fuel with
    | O => None
    | S fuel =>
        '(st, t) ← pop_state st;
        if decide (t <> RE_EXEC_STATE_LOOKAHEAD) then ret st else no_match_loop fuel st
    end.
Definition no_match (st : State) : Exec State := st ←! no_match_loop (sp st) st; lre_poll_timeout st.

(** The first loop of [REOP_lookahead_match]: the states are popped and linked. *)
Fixpoint link_states (fuel : nat) (st : State) : option State :=
  match fuel with
  | O => None
  | S fuel =>
      let sp1 := sp st in
      '(p, c, b, t) ← read_state (stack_buf st) (bp st);
      buf ← put (bp st - 1) (Link sp1) (stack_buf st);
      let st := set_pc p (set_cptr c (set_stack buf (bp st - 3) b st)) in
      if decide (t = RE_EXEC_STATE_LOOKAHEAD) then Some st else link_states fuel st
  end.

(** The second one: the saved captures are moved down. *)
Fixpoint copy_elems (fuel : nat) (buf : list StackElem) (sp sp1 next_sp : nat) : option (list StackElem * nat * nat) :=
  if decide (sp1 < next_sp)%nat then
    match fuel with
    | O => None
    | S fuel => x ← buf !! sp1; buf ← put sp x buf; copy_elems fuel buf (S sp) (S sp1) next_sp
    end
  else Some (buf, sp, sp1).
Fixpoint copy_captures (fuel : nat) (buf : list StackElem) (sp sp1 sp_top : nat) : option (list StackElem * nat) :=
  if decide (sp1 < sp_top)%nat then
    match fuel with
    | O => None
    | S fuel =>
        next ← buf !! (sp1 + 2)%nat;
        match next with
        | Link next_sp =>
            '(buf, sp, sp1) ← copy_elems sp_top buf sp (sp1 + 3) next_sp;
            copy_captures fuel buf sp sp1 sp_top
        | _ => None
        end
    end
  else Some (buf, sp).

Definition lookahead_match (st : State) : Exec State :=
  let sp_top := sp st in
  st ← link_states (sp st) st;
  if decide (sp st = 0)%nat then ret st
  else
    '(buf, sp) ← copy_captures sp_top (stack_buf st) (sp st) (sp st) sp_top;
    ret (set_stack buf sp (bp st) st).

(** The loop of [REOP_negative_lookahead_match]. *)
Fixpoint pop_negative (fuel : nat) (st : State) : option State :=
  match fuel with
  | O => None
  | S fuel =>
      '(st, t) ← pop_state st;
      if decide (t = RE_EXEC_STATE_NEGATIVE_LOOKAHEAD) then Some st else pop_negative fuel st
  end.
Definition negative_lookahead_match (st : State) : Exec State := st ← pop_negative (sp st) st; no_match st.

(** ** The instructions *)

(** The relative jump whose distance is the word at [pos], from [pos + 4]. *)
Definition jump (pos : Z) : option Z := val ← get_u32 (code s) pos; Some (pos + 4 + i32 val).

(** Two positions compared as pointers. *)
Definition slot_is (v : Slot) (cptr : nat) : option bool :=
  match v with Pos p => Some (bool_decide (p = cptr)) | Null => Some false | _ => None end.

(** One character is read and must pass the test; the next instruction is at [next].  A
    position is never past the end, so the tests [==] and [>=] of the code are one. *)
Definition consume (test : Z -> option bool) (next : Z) (st : State) : Exec State :=
  if decide (cbuf_end s <= cptr st)%nat then no_match st
  else
    '(c, p) ← get_char s (cptr st) (cbuf_end s);
    b ← test c;
    if (b : bool) then ret (set_pc next (set_cptr p st)) else no_match st.

(** The instruction goes on when the test holds. *)
Definition require (b : bool) (next : Z) (st : State) : Exec State :=
  if b then ret (set_pc next st) else no_match st.

(** A choice between the next instruction and the target; the other one is saved. *)
Definition split (goto_first : bool) (next target : Z) (st : State) : Exec State :=
  st ←! push_state (if goto_first then next else target) RE_EXEC_STATE_SPLIT st;
  ret (set_pc (if goto_first then target else next) st).

(** The registers follow the captures. *)
Definition register (n : Z) : nat := Z.to_nat (2 * capture_count s + n).

(** The loop of [REOP_save_reset]. *)
Fixpoint reset_loop (fuel : nat) (val val2 : Z) (st : State) : Exec State :=
  if val <=? val2 then
    match fuel with
    | O => None
    | S fuel =>
        st ←! SAVE_CAPTURE (Z.to_nat (2 * val)) Null st;
        st ←! SAVE_CAPTURE (Z.to_nat (2 * val + 1)) Null st;
        reset_loop fuel (val + 1) val2 st
    end
  else ret st.

(** The counter in the register is decremented. *)
Definition decrement (idx : nat) (st : State) : Exec (State * Z) :=
  match capture st !! idx with
  | Some (Num n) => let val2 := u32 (n - 1) in st ←! SAVE_CAPTURE_CHECK idx (Num val2) st; ret (st, val2)
  | _ => None
  end.

(** [REOP_loop_split_*] and [REOP_loop_check_adv_split_*], with the operands at [pos]. *)
Definition loop_split (goto_first check_adv : bool) (pos : Z) (st : State) : Exec State :=
  n ← get_u8 (code s) pos;
  limit ← get_u32 (code s) (pos + 1);
  target ← jump (pos + 5);
  let next := pos + 9 in
  let idx := register n in
  '(st, val2) ←! decrement idx st;
  if limit <? val2 then lre_poll_timeout (set_pc target st)
  else
    adv ← (if check_adv then v ← capture st !! S idx; slot_is v (cptr st) else Some false);
    if adv && negb (val2 =? limit) then no_match st
    else if negb (val2 =? 0) then split goto_first next target st
    else ret (set_pc next st).

(** [REOP_back_reference] and its variants, with the number of captures at [pos]. *)
Definition op_back_reference (backward ignore_case : bool) (pos : Z) (st : State) : Exec State :=
  n ← get_u8 (code s) pos;
  r ← back_reference s (Z.to_nat n) (pos + 1) backward ignore_case (capture st) (cptr st);
  match r with
  | Some p => ret (set_pc (pos + 1 + n) (set_cptr p st))
  | None => no_match st
  end.

(** [REOP_range] and its variants, with the number of ranges at [pos]. *)
Definition op_range (wide ignore_case : bool) (pos : Z) (st : State) : Exec State :=
  n ← get_u16 (code s) pos;
  consume (fun c => c ← fold_char s ignore_case c; range_test s wide (pos + 2) n c) (pos + 2 + n * (2 * bound_size wide)) st.

(** [REOP_char] and its variants. *)
Definition op_char (wide ignore_case : bool) (pos : Z) (st : State) : Exec State :=
  val ← get_bound s wide pos;
  consume (fun c => c ← fold_char s ignore_case c; Some (val =? c)) (pos + bound_size wide) st.

Definition op_word_boundary (ignore_case is_boundary : bool) (pos : Z) (st : State) : Exec State :=
  v1 ← word_before s ignore_case (cptr st);
  v2 ← word_after s ignore_case (cptr st);
  require (negb (xorb (xorb v1 v2) is_boundary)) pos st.

(** [REOP_line_start] and [REOP_line_end]: at the bound, or after or before a line
    terminator when [multi_line]. *)
Definition op_line_start (multi_line : bool) (pos : Z) (st : State) : Exec State :=
  if decide (cptr st = 0)%nat then ret (set_pc pos st)
  else if negb multi_line then no_match st
  else '(c, _) ← get_prev_char s (cptr st) 0; require (is_line_terminator c) pos st.
Definition op_line_end (multi_line : bool) (pos : Z) (st : State) : Exec State :=
  if decide (cptr st = cbuf_end s)%nat then ret (set_pc pos st)
  else if negb multi_line then no_match st
  else '(c, _) ← get_char s (cptr st) (cbuf_end s); require (is_line_terminator c) pos st.

Definition op_save (odd pos : Z) (st : State) : Exec State :=
  val ← get_u8 (code s) pos;
  guard (val < capture_count s);;
  st ←! SAVE_CAPTURE (Z.to_nat (2 * val + odd)) (Pos (cptr st)) st;
  ret (set_pc (pos + 1) st).

Definition op_save_reset (pos : Z) (st : State) : Exec State :=
  val ← get_u8 (code s) pos;
  val2 ← get_u8 (code s) (pos + 1);
  guard (val2 < capture_count s);;
  st ←! CHECK_STACK_SPACE (Z.to_nat (u32 (2 * (val2 - val + 1)))) st;
  st ←! reset_loop (Z.to_nat (val2 + 1)) val val2 st;
  ret (set_pc (pos + 2) st).

Definition op_set_i32 (pos : Z) (st : State) : Exec State :=
  n ← get_u8 (code s) pos;
  val ← get_u32 (code s) (pos + 1);
  st ←! SAVE_CAPTURE_CHECK (register n) (Num val) st;
  ret (set_pc (pos + 5) st).

Definition op_loop (pos : Z) (st : State) : Exec State :=
  n ← get_u8 (code s) pos;
  target ← jump (pos + 1);
  '(st, val2) ←! decrement (register n) st;
  if negb (val2 =? 0) then lre_poll_timeout (set_pc target st) else ret (set_pc (pos + 5) st).

Definition op_set_char_pos (pos : Z) (st : State) : Exec State :=
  n ← get_u8 (code s) pos;
  st ←! SAVE_CAPTURE_CHECK (register n) (Pos (cptr st)) st;
  ret (set_pc (pos + 1) st).

Definition op_check_advance (pos : Z) (st : State) : Exec State :=
  n ← get_u8 (code s) pos;
  v ← capture st !! register n;
  same ← slot_is v (cptr st);
  require (negb same) (pos + 1) st.

Definition op_lookahead (type : REExecStateEnum) (pos : Z) (st : State) : Exec State :=
  target ← jump pos;
  st ←! push_state target type st;
  ret (set_pc (pos + 4) st).

Definition op_prev (pos : Z) (st : State) : Exec State :=
  if decide (cptr st = 0)%nat then no_match st
  else '(_, p) ← get_prev_char s (cptr st) 0; ret (set_pc pos (set_cptr p st)).

(** The body of the loop of [lre_exec_backtrack]; an unknown opcode aborts. *)
Definition step (st : State) : Exec State :=
  b ← get_u8 (code s) (pc st);
  opcode ← reopcodes !! Z.to_nat b;
  let pos := pc st + 1 in
  match opcode with
  | REOP_invalid => None
  | REOP_match => throw (1, capture st)
  | REOP_lookahead_match => lookahead_match (set_pc pos st)
  | REOP_negative_lookahead_match => negative_lookahead_match (set_pc pos st)
  | REOP_char => op_char false false pos st
  | REOP_char_i => op_char false true pos st
  | REOP_char32 => op_char true false pos st
  | REOP_char32_i => op_char true true pos st
  | REOP_split_goto_first => target ← jump pos; split true (pos + 4) target st
  | REOP_split_next_first => target ← jump pos; split false (pos + 4) target st
  | REOP_lookahead => op_lookahead RE_EXEC_STATE_LOOKAHEAD pos st
  | REOP_negative_lookahead => op_lookahead RE_EXEC_STATE_NEGATIVE_LOOKAHEAD pos st
  | REOP_goto => target ← jump pos; lre_poll_timeout (set_pc target st)
  | REOP_line_start => op_line_start false pos st
  | REOP_line_start_m => op_line_start true pos st
  | REOP_line_end => op_line_end false pos st
  | REOP_line_end_m => op_line_end true pos st
  | REOP_dot => consume (fun c => Some (negb (is_line_terminator c))) pos st
  | REOP_any => consume (fun _ => Some true) pos st
  | REOP_space => consume lre_is_space pos st
  | REOP_not_space => consume (fun c => negb <$> lre_is_space c) pos st
  | REOP_save_start => op_save 0 pos st
  | REOP_save_end => op_save 1 pos st
  | REOP_save_reset => op_save_reset pos st
  | REOP_set_i32 => op_set_i32 pos st
  | REOP_loop => op_loop pos st
  | REOP_loop_split_goto_first => loop_split true false pos st
  | REOP_loop_split_next_first => loop_split false false pos st
  | REOP_loop_check_adv_split_goto_first => loop_split true true pos st
  | REOP_loop_check_adv_split_next_first => loop_split false true pos st
  | REOP_set_char_pos => op_set_char_pos pos st
  | REOP_check_advance => op_check_advance pos st
  | REOP_word_boundary => op_word_boundary false true pos st
  | REOP_word_boundary_i => op_word_boundary true true pos st
  | REOP_not_word_boundary => op_word_boundary false false pos st
  | REOP_not_word_boundary_i => op_word_boundary true false pos st
  | REOP_back_reference => op_back_reference false false pos st
  | REOP_back_reference_i => op_back_reference false true pos st
  | REOP_backward_back_reference => op_back_reference true false pos st
  | REOP_backward_back_reference_i => op_back_reference true true pos st
  | REOP_range => op_range false false pos st
  | REOP_range_i => op_range false true pos st
  | REOP_range32 => op_range true false pos st
  | REOP_range32_i => op_range true true pos st
  | REOP_prev => op_prev pos st
  end.

(** [fuel] iterations: [inr] when the execution is still running. *)
Fixpoint lre_exec_backtrack (fuel : nat) (st : State) : Exec State :=
  match fuel with
  | O => ret st
  | S fuel => st ←! step st; lre_exec_backtrack fuel st
  end.
End machine.

(** ** Entry *)

Definition lre_get_flags (bc_buf : list Z) : option Z := get_u16 bc_buf RE_HEADER_FLAGS.
Definition lre_get_capture_count (bc_buf : list Z) : option Z := get_u8 bc_buf RE_HEADER_CAPTURE_COUNT.
Definition lre_get_alloc_count (bc_buf : list Z) : option Z :=
  n ← get_u8 bc_buf RE_HEADER_CAPTURE_COUNT; r ← get_u8 bc_buf RE_HEADER_REGISTER_COUNT; Some (n * 2 + r).

(** What [lre_exec] prepares: the subject and the initial state, from the array [caps] of
    the caller.  The stack has 32 elements at first. *)
Definition lre_exec_init (caps : list Slot) (bc_buf buf : list Z) (cindex : nat) (type : Z) : option (Subject * State) :=
  re_flags ← lre_get_flags bc_buf;
  count ← lre_get_capture_count bc_buf;
  let unicode := negb (re_flags .& (LRE_FLAG_UNICODE .| LRE_FLAG_UNICODE_SETS) =? 0) in
  let s := {| code := drop RE_HEADER_LEN bc_buf; cbuf := buf; cbuf_type := if (type =? 1) && unicode then 2 else type;
              capture_count := count; is_unicode := unicode |} in
  guard (count * 2 <= len caps);;
  guard (cindex <= length buf)%nat;;
  p ← (if bool_decide (0 < cindex)%nat && bool_decide (cindex < length buf)%nat && (cbuf_type s =? 2) then
         c ← buf !! cindex; d ← buf !! (cindex - 1)%nat;
         Some (if is_lo_surrogate c && is_hi_surrogate d then (cindex - 1)%nat else cindex)
       else Some cindex);
  Some (s, {| stack_buf := replicate 32 Raw; capture := replicate (Z.to_nat (count * 2)) Null ++ drop (Z.to_nat (count * 2)) caps;
              pc := 0; cptr := p; sp := 0; bp := 0; interrupt_counter := INTERRUPT_COUNTER_INIT; ev := 0; polls := 0 |}).

Definition lre_exec {W : World} {T : Timeouts} (fuel : nat) (caps : list Slot) (bc_buf buf : list Z) (cindex : nat) (type : Z) : Exec State :=
  '(s, st) ← lre_exec_init caps bc_buf buf cindex type; lre_exec_backtrack s fuel st.
