(* ===== verification/ReSpec.v ===== *)
(** * Matching by backtracking

    What [ReExec] should compute.  A configuration is an instruction, a position and
    captures; an instruction says what to do next: one configuration, two in order of
    preference, a lookahead.  [run] explores the tree of the choices depth first, and
    [machine] does it with a stack of choices that hold whole configurations. *)
From stdpp Require Import relations.
From S2P Require Export ReExec.
#[local] Open Scope Z_scope.

Record Config := { c_pc : Z; c_pos : nat; c_cap : list Slot }.

Inductive Action :=
| Accept
| EndLookahead
| EndNegative
| Reject
| Goto (c : Config)
| Choose (first second : Config)
| Look (negative : bool) (body next : Config).

Section instructions.
Context (s : Subject).

(** The characters between two positions, forward or backward. *)
Fixpoint chars (fuel a b : nat) : option (list Z) :=
  if decide (a < b)%nat then
    match fuel with O => None | S fuel => '(c, a) ← get_char s a b; l ← chars fuel a b; Some (c :: l) end
  else Some [].
Fixpoint chars_back (fuel b a : nat) : option (list Z) :=
  if decide (a < b)%nat then
    match fuel with O => None | S fuel => '(c, b) ← get_prev_char s b a; l ← chars_back fuel b a; Some (c :: l) end
  else Some [].

(** The characters of [l] follow [p], or precede it: the position after them. *)
Fixpoint follow (backward ignore_case : bool) (l : list Z) (p : nat) : option (option nat) :=
  match l with
  | [] => Some (Some p)
  | c1 :: l =>
      if (if backward then bool_decide (p = 0%nat) else bool_decide (cbuf_end s <= p)%nat) then Some None
      else
        '(c2, p) ← (if backward then get_prev_char s p 0 else get_char s p (cbuf_end s));
        c1 ← fold_char s ignore_case c1;
        c2 ← fold_char s ignore_case c2;
        if c1 =? c2 then follow backward ignore_case l p else Some None
  end.

Fixpoint read_bytes (n : nat) (pos : Z) : option (list Z) :=
  match n with O => Some [] | S n => b ← get_u8 (code s) pos; l ← read_bytes n (pos + 1); Some (b :: l) end.

(** The text of the first capture of [nums] that is set must follow; an unknown capture
    does not match. *)
Fixpoint reference (nums : list Z) (backward ignore_case : bool) (cap : list Slot) (p : nat) : option (option nat) :=
  match nums with
  | [] => Some (Some p)
  | n :: nums =>
      if capture_count s <=? n then Some None
      else
        a ← cap !! Z.to_nat (2 * n);
        b ← cap !! Z.to_nat (2 * n + 1);
        match a, b with
        | Pos a, Pos b => t ← (if backward then chars_back b b a else chars b a b); follow backward ignore_case t p
        | Null, (Null | Pos _) | Pos _, Null => reference nums backward ignore_case cap p
        | _, _ => None
        end
  end.

(** The ranges, in increasing order; when the last one is a 16-bit range up to 0xffff, it
    has no end. *)
Fixpoint read_ranges (wide : bool) (n : nat) (pos : Z) : option (list (Z * Z)) :=
  match n with
  | O => Some []
  | S n =>
      low ← get_bound s wide pos;
      high ← get_bound s wide (pos + bound_size wide);
      l ← read_ranges wide n (pos + 2 * bound_size wide);
      Some ((low, high) :: l)
  end.
Fixpoint increasing (l : list (Z * Z)) : bool :=
  match l with
  | [] => true
  | (low, high) :: l => (low <=? high) && match l with (low', _) :: _ => high <? low' | [] => true end && increasing l
  end.
Definition in_ranges (wide : bool) (l : list (Z * Z)) (c : Z) : bool :=
  existsb (fun r : Z * Z => (fst r <=? c) && (c <=? snd r)) l
  || (negb wide && (0xffff <=? c) && match last l with Some (_, high) => high =? 0xffff | None => false end).

(** One character that passes the test. *)
Definition one_char (test : Z -> option bool) (next : Z) (c : Config) : option Action :=
  if decide (cbuf_end s <= c_pos c)%nat then Some Reject
  else
    '(ch, p) ← get_char s (c_pos c) (cbuf_end s);
    b ← test ch;
    Some (if (b : bool) then Goto {| c_pc := next; c_pos := p; c_cap := c_cap c |} else Reject).

Definition assertion (b : bool) (next : Z) (c : Config) : Action :=
  if b then Goto {| c_pc := next; c_pos := c_pos c; c_cap := c_cap c |} else Reject.

Definition choice (goto_first : bool) (next target : Z) (p : nat) (cap : list Slot) : Action :=
  let at_pc pc := {| c_pc := pc; c_pos := p; c_cap := cap |} in
  if goto_first then Choose (at_pc target) (at_pc next) else Choose (at_pc next) (at_pc target).

(** An entry of the captures is written. *)
Definition store (idx : nat) (v : Slot) (cap : list Slot) : option (list Slot) :=
  guard (idx < length cap)%nat;; Some (<[idx:=v]> cap).

Definition a_char (wide ignore_case : bool) (pos : Z) (c : Config) : option Action :=
  val ← get_bound s wide pos;
  one_char (fun ch => (fun ch => val =? ch) <$> fold_char s ignore_case ch) (pos + bound_size wide) c.

Definition a_range (wide ignore_case : bool) (pos : Z) (c : Config) : option Action :=
  n ← get_u16 (code s) pos;
  l ← read_ranges wide (Z.to_nat n) (pos + 2);
  guard (0 < n /\ increasing l = true);;
  one_char (fun ch => in_ranges wide l <$> fold_char s ignore_case ch) (pos + 2 + n * (2 * bound_size wide)) c.

Definition a_save (odd pos : Z) (c : Config) : option Action :=
  val ← get_u8 (code s) pos;
  guard (val < capture_count s);;
  cap ← store (Z.to_nat (2 * val + odd)) (Pos (c_pos c)) (c_cap c);
  Some (Goto {| c_pc := pos + 1; c_pos := c_pos c; c_cap := cap |}).

(** Both entries of the captures from [val] to [val2] are cleared. *)
Definition clear_captures (val val2 : Z) (cap : list Slot) : option (list Slot) :=
  foldM (fun cap i => store i Null cap) (seq (Z.to_nat (2 * val)) (Z.to_nat (2 * (val2 + 1 - val)))) cap.

Definition a_save_reset (pos : Z) (c : Config) : option Action :=
  val ← get_u8 (code s) pos;
  val2 ← get_u8 (code s) (pos + 1);
  guard (val2 < capture_count s);;
  cap ← clear_captures val val2 (c_cap c);
  Some (Goto {| c_pc := pos + 2; c_pos := c_pos c; c_cap := cap |}).

Definition a_set (pos : Z) (size : Z) (v : Slot) (c : Config) : option Action :=
  n ← get_u8 (code s) pos;
  cap ← store (register s n) v (c_cap c);
  Some (Goto {| c_pc := pos + size; c_pos := c_pos c; c_cap := cap |}).

(** The counter of a loop after one more iteration. *)
Definition count_down (idx : nat) (cap : list Slot) : option (Z * list Slot) :=
  match cap !! idx with Some (Num n) => let n := u32 (n - 1) in Some (n, <[idx:=Num n]> cap) | _ => None end.

Definition a_loop (pos : Z) (c : Config) : option Action :=
  n ← get_u8 (code s) pos;
  target ← jump s (pos + 1);
  '(rest, cap) ← count_down (register s n) (c_cap c);
  Some (Goto {| c_pc := if rest =? 0 then pos + 5 else target; c_pos := c_pos c; c_cap := cap |}).

(** The loops with a minimum and a maximum number of iterations: an iteration above the
    minimum that did not advance is rejected. *)
Definition a_loop_split (goto_first check_adv : bool) (pos : Z) (c : Config) : option Action :=
  n ← get_u8 (code s) pos;
  limit ← get_u32 (code s) (pos + 1);
  target ← jump s (pos + 5);
  '(rest, cap) ← count_down (register s n) (c_cap c);
  let at_pc pc := Goto {| c_pc := pc; c_pos := c_pos c; c_cap := cap |} in
  if limit <? rest then Some (at_pc target)
  else
    adv ← (if check_adv then v ← cap !! S (register s n); slot_is v (c_pos c) else Some false);
    Some (if adv && negb (rest =? limit) then Reject
          else if rest =? 0 then at_pc (pos + 9)
          else choice goto_first (pos + 9) target (c_pos c) cap).

Definition a_back_reference (backward ignore_case : bool) (pos : Z) (c : Config) : option Action :=
  n ← get_u8 (code s) pos;
  nums ← read_bytes (Z.to_nat n) (pos + 1);
  r ← reference nums backward ignore_case (c_cap c) (c_pos c);
  Some match r with Some p => Goto {| c_pc := pos + 1 + n; c_pos := p; c_cap := c_cap c |} | None => Reject end.

Definition a_word_boundary (ignore_case is_boundary : bool) (pos : Z) (c : Config) : option Action :=
  v1 ← word_before s ignore_case (c_pos c);
  v2 ← word_after s ignore_case (c_pos c);
  Some (assertion (bool_decide (is_boundary = negb (bool_decide (v1 = v2)))) pos c).

Definition a_line_start (multi_line : bool) (pos : Z) (c : Config) : option Action :=
  if decide (c_pos c = 0)%nat then Some (assertion true pos c)
  else if multi_line then '(ch, _) ← get_prev_char s (c_pos c) 0; Some (assertion (is_line_terminator ch) pos c)
  else Some Reject.
Definition a_line_end (multi_line : bool) (pos : Z) (c : Config) : option Action :=
  if decide (c_pos c = cbuf_end s)%nat then Some (assertion true pos c)
  else if multi_line then '(ch, _) ← get_char s (c_pos c) (cbuf_end s); Some (assertion (is_line_terminator ch) pos c)
  else Some Reject.

Definition a_check_advance (pos : Z) (c : Config) : option Action :=
  n ← get_u8 (code s) pos;
  v ← c_cap c !! register s n;
  same ← slot_is v (c_pos c);
  Some (assertion (negb (same : bool)) (pos + 1) c).

Definition a_look (negative : bool) (pos : Z) (c : Config) : option Action :=
  target ← jump s pos;
  let at_pc pc := {| c_pc := pc; c_pos := c_pos c; c_cap := c_cap c |} in
  Some (Look negative (at_pc (pos + 4)) (at_pc target)).

Definition a_prev (pos : Z) (c : Config) : option Action :=
  if decide (c_pos c = 0)%nat then Some Reject
  else '(_, p) ← get_prev_char s (c_pos c) 0; Some (Goto {| c_pc := pos; c_pos := p; c_cap := c_cap c |}).

Definition a_jump (pos : Z) (k : Z -> Action) : option Action := target ← jump s pos; Some (k target).

Definition instr (c : Config) : option Action :=
  b ← get_u8 (code s) (c_pc c);
  opcode ← reopcodes !! Z.to_nat b;
  let pos := c_pc c + 1 in
  match opcode with
  | REOP_invalid => None
  | REOP_match => Some Accept
  | REOP_lookahead_match => Some EndLookahead
  | REOP_negative_lookahead_match => Some EndNegative
  | REOP_char => a_char false false pos c
  | REOP_char_i => a_char false true pos c
  | REOP_char32 => a_char true false pos c
  | REOP_char32_i => a_char true true pos c
  | REOP_split_goto_first => a_jump pos (fun target => choice true (pos + 4) target (c_pos c) (c_cap c))
  | REOP_split_next_first => a_jump pos (fun target => choice false (pos + 4) target (c_pos c) (c_cap c))
  | REOP_lookahead => a_look false pos c
  | REOP_negative_lookahead => a_look true pos c
  | REOP_goto => a_jump pos (fun target => assertion true target c)
  | REOP_line_start => a_line_start false pos c
  | REOP_line_start_m => a_line_start true pos c
  | REOP_line_end => a_line_end false pos c
  | REOP_line_end_m => a_line_end true pos c
  | REOP_dot => one_char (fun ch => Some (negb (is_line_terminator ch))) pos c
  | REOP_any => one_char (fun _ => Some true) pos c
  | REOP_space => one_char lre_is_space pos c
  | REOP_not_space => one_char (fun ch => negb <$> lre_is_space ch) pos c
  | REOP_save_start => a_save 0 pos c
  | REOP_save_end => a_save 1 pos c
  | REOP_save_reset => a_save_reset pos c
  | REOP_set_i32 => n ← get_u32 (code s) (pos + 1); a_set pos 5 (Num n) c
  | REOP_loop => a_loop pos c
  | REOP_loop_split_goto_first => a_loop_split true false pos c
  | REOP_loop_split_next_first => a_loop_split false false pos c
  | REOP_loop_check_adv_split_goto_first => a_loop_split true true pos c
  | REOP_loop_check_adv_split_next_first => a_loop_split false true pos c
  | REOP_set_char_pos => a_set pos 1 (Pos (c_pos c)) c
  | REOP_check_advance => a_check_advance pos c
  | REOP_word_boundary => a_word_boundary false true pos c
  | REOP_word_boundary_i => a_word_boundary true true pos c
  | REOP_not_word_boundary => a_word_boundary false false pos c
  | REOP_not_word_boundary_i => a_word_boundary true false pos c
  | REOP_back_reference => a_back_reference false false pos c
  | REOP_back_reference_i => a_back_reference false true pos c
  | REOP_backward_back_reference => a_back_reference true false pos c
  | REOP_backward_back_reference_i => a_back_reference true true pos c
  | REOP_range => a_range false false pos c
  | REOP_range_i => a_range false true pos c
  | REOP_range32 => a_range true false pos c
  | REOP_range32_i => a_range true true pos c
  | REOP_prev => a_prev pos c
  end.

(** ** The tree of choices *)

(** How an exploration ends: with a match, without, or at the end of a lookahead. *)
Inductive Outcome :=
| Matched (cap : list Slot)
| Unmatched
| AtLookahead (cap : list Slot)
| AtNegative.

Definition at_cap (cap : list Slot) (c : Config) : Config := {| c_pc := c_pc c; c_pos := c_pos c; c_cap := cap |}.

Inductive run : Config -> Outcome -> Prop :=
| run_accept c : instr c = Some Accept -> run c (Matched (c_cap c))
| run_reject c : instr c = Some Reject -> run c Unmatched
| run_end_lookahead c : instr c = Some EndLookahead -> run c (AtLookahead (c_cap c))
| run_end_negative c : instr c = Some EndNegative -> run c AtNegative
| run_goto c c' o : instr c = Some (Goto c') -> run c' o -> run c o
| run_first c c1 c2 o : instr c = Some (Choose c1 c2) -> run c1 o -> o <> Unmatched -> run c o
| run_second c c1 c2 o : instr c = Some (Choose c1 c2) -> run c1 Unmatched -> run c2 o -> run c o
(* a lookahead: its body matches, with the captures that it sets, or the instruction fails *)
| run_ahead c body next cap o : instr c = Some (Look false body next) -> run body (AtLookahead cap) -> run (at_cap cap next) o -> run c o
| run_not_ahead c body next : instr c = Some (Look false body next) -> run body Unmatched -> run c Unmatched
(* a negative lookahead: its body does not match, or the instruction fails *)
| run_negative c body next o : instr c = Some (Look true body next) -> run body Unmatched -> run next o -> run c o
| run_refuted c body next : instr c = Some (Look true body next) -> run body AtNegative -> run c Unmatched
(* a body that ends in another way ends the instruction *)
| run_leave c body next cap : instr c = Some (Look true body next) -> run body (AtLookahead cap) -> run c (AtLookahead cap)
| run_leave_negative c body next : instr c = Some (Look false body next) -> run body AtNegative -> run c AtNegative
| run_leave_match c negative body next cap : instr c = Some (Look negative body next) -> run body (Matched cap) -> run c (Matched cap).

(** ** The stack of choices *)

Record Choice := { ch_type : REExecStateEnum; ch_config : Config }.

(** The choices above a lookahead that failed, or that ended, are dropped. *)
Fixpoint backtrack (K : list Choice) : option (Config * list Choice) :=
  match K with
  | [] => None
  | ch :: K => if decide (ch_type ch = RE_EXEC_STATE_LOOKAHEAD) then backtrack K else Some (ch_config ch, K)
  end.
Fixpoint leave (t : REExecStateEnum) (K : list Choice) : option (Config * list Choice) :=
  match K with
  | [] => None
  | ch :: K => if decide (ch_type ch = t) then Some (ch_config ch, K) else leave t K
  end.

Inductive Progress :=
| Stop (r : option (list Slot))
| Continue (c : Config) (K : list Choice).

Definition resume (K : list Choice) : Progress :=
  match backtrack K with Some (c, K) => Continue c K | None => Stop None end.

Definition perform (a : Action) (cap : list Slot) (K : list Choice) : option Progress :=
  match a with
  | Accept => Some (Stop (Some cap))
  | Reject => Some (resume K)
  | Goto c => Some (Continue c K)
  | Choose c1 c2 => Some (Continue c1 ({| ch_type := RE_EXEC_STATE_SPLIT; ch_config := c2 |} :: K))
  | Look negative body next =>
      let t := if negative then RE_EXEC_STATE_NEGATIVE_LOOKAHEAD else RE_EXEC_STATE_LOOKAHEAD in
      Some (Continue body ({| ch_type := t; ch_config := next |} :: K))
  | EndLookahead => '(next, K) ← leave RE_EXEC_STATE_LOOKAHEAD K; Some (Continue (at_cap cap next) K)
  | EndNegative => '(_, K) ← leave RE_EXEC_STATE_NEGATIVE_LOOKAHEAD K; Some (resume K)
  end.

Definition machine (c : Config) (K : list Choice) : option Progress := a ← instr c; perform a (c_cap c) K.

(** [n] steps; [None] when one of them is undefined. *)
Fixpoint steps (n : nat) (c : Config) (K : list Choice) : option Progress :=
  match n with
  | O => Some (Continue c K)
  | S n =>
      r ← machine c K;
      match r with Stop r => Some (Stop r) | Continue c K => steps n c K end
  end.
End instructions.
