(* ===== verification/ReSim.v ===== *)
(** * The stack of the executor

    The array of [lre_exec_backtrack] holds, under [sp], the choices of [ReSpec.machine]:
    a saved state, then the captures that were changed since, whose undoing gives back the
    captures of the choice below. *)
From S2P Require Export ReSpec.
#[local] Open Scope Z_scope.

(** ** Saved captures *)

Abbreviation entries := (list (nat * Slot)).

Definition elems (seg : entries) : list StackElem := flat_map (fun e => [Index (fst e); Saved (snd e)]) seg.

(** The last entry is undone first. *)
Definition undo (seg : entries) (cap : list Slot) : list Slot := fold_right (fun e cap => <[fst e:=snd e]> cap) cap seg.

Definition entries_ok (cap : list Slot) (seg : entries) : Prop := Forall (fun e => (fst e < length cap)%nat) seg.

Lemma elems_app a b : elems (a ++ b) = elems a ++ elems b.
Proof. apply flat_map_app. Qed.

Lemma elems_length seg : length (elems seg) = (2 * length seg)%nat.
Proof. induction seg as [|e seg IH]; [done|]. cbn [elems flat_map app length]. unfold elems in IH. rewrite IH. lia. Qed.

Lemma undo_app a b cap : undo (a ++ b) cap = undo a (undo b cap).
Proof. apply fold_right_app. Qed.

Lemma undo_length seg cap : length (undo seg cap) = length cap.
Proof. induction seg as [|e seg IH]; [done|]. cbn. by rewrite length_insert. Qed.

Lemma entries_ok_length cap cap' seg : length cap = length cap' -> entries_ok cap seg -> entries_ok cap' seg.
Proof. unfold entries_ok. by intros ->. Qed.

Lemma undo_insert i x seg cap :
  undo seg (<[i:=x]> cap) = if decide (i ∈ seg.*1) then undo seg cap else <[i:=x]> (undo seg cap).
Proof.
  induction seg as [|[j v] seg IH]; [by rewrite decide_False by (by intros ?%not_elem_of_nil)|].
  cbn [undo fold_right fst snd fmap list_fmap]. change (fold_right _ ?c seg) with (undo seg c). rewrite IH.
  destruct (decide (i = j)) as [->|Hij].
  - rewrite (decide_True (P := j ∈ j :: seg.*1)) by apply list_elem_of_here. case_decide; [done|]. by rewrite list_insert_insert_eq.
  - rewrite (decide_ext (i ∈ j :: seg.*1) (i ∈ seg.*1)) by (rewrite elem_of_cons; tauto). case_decide; [done|].
    by rewrite list_insert_insert_ne.
Qed.

(** The old value is saved, or it is already. *)
Lemma undo_saved i x seg cap : i ∈ seg.*1 -> undo seg (<[i:=x]> cap) = undo seg cap.
Proof. intros H. by rewrite undo_insert, decide_True. Qed.

Lemma undo_push i x old seg cap : cap !! i = Some old -> undo (seg ++ [(i, old)]) (<[i:=x]> cap) = undo seg cap.
Proof.
  intros H. rewrite undo_app. cbn [undo fold_right fst snd]. change (fold_right _ ?c seg) with (undo seg c).
  by rewrite list_insert_insert_eq, list_insert_id.
Qed.

(** ** The choices *)

(** Undoing the entries gives the captures of the first choice. *)
Definition restores (K : list Choice) (seg : entries) (cap : list Slot) : Prop :=
  match K with [] => True | ch :: _ => undo seg cap = c_cap (ch_config ch) end.

Inductive frames : list StackElem -> list Choice -> Prop :=
| frames_nil : frames [] []
| frames_cons pre seg ch K :
    frames pre K -> entries_ok (c_cap (ch_config ch)) seg -> restores K seg (c_cap (ch_config ch)) ->
    frames ((pre ++ elems seg) ++ [Code (c_pc (ch_config ch)); Char (c_pos (ch_config ch)); Base (length pre) (ch_type ch)]) (ch :: K).

(** The array is [pre], up to [bp], the entries up to [sp], and anything. *)
Definition stack_at (st : State) (pre : list StackElem) (seg : entries) : Prop :=
  exists rest, stack_buf st = (pre ++ elems seg) ++ rest /\ sp st = length (pre ++ elems seg) /\ bp st = length pre.

Definition stacked (st : State) (cap : list Slot) (K : list Choice) : Prop :=
  exists pre seg, stack_at st pre seg /\ frames pre K /\ entries_ok cap seg /\ restores K seg cap.

Record rel (st : State) (c : Config) (K : list Choice) : Prop := {
  rel_pc : pc st = c_pc c;
  rel_pos : cptr st = c_pos c;
  rel_cap : capture st = c_cap c;
  rel_stack : stacked st (c_cap c) K
}.

Lemma rel_pc_intro st c K p : rel st c K -> rel (set_pc p st) {| c_pc := p; c_pos := c_pos c; c_cap := c_cap c |} K.
Proof. by intros []. Qed.
Lemma rel_pos_intro st c K p : rel st c K -> rel (set_cptr p st) {| c_pc := c_pc c; c_pos := p; c_cap := c_cap c |} K.
Proof. by intros []. Qed.
Lemma rel_goto st c K p q : rel st c K -> rel (set_pc p (set_cptr q st)) {| c_pc := p; c_pos := q; c_cap := c_cap c |} K.
Proof. by intros []. Qed.

(** ** Results *)

Section sim.
Context {W : World} {T : Timeouts} (s : Subject) (Hbytes : bytes (code s)).

Definition failed (e : Z * list Slot) : Prop :=
  (fst e = LRE_RET_MEMORY_ERROR /\ exists k, ext_ok k = false) \/ (fst e = LRE_RET_TIMEOUT /\ exists k, lre_check_timeout k = true).

(** A computation that returns with [Q], or fails. *)
Definition does {A} (m : Exec A) (Q : A -> Prop) : Prop := runs m (fun r => match r with inl e => failed e | inr x => Q x end).

Lemma does_ret {A} (x : A) (Q : A -> Prop) : Q x -> does (ret x) Q.
Proof. intros H. by apply runs_ret. Qed.
Lemma does_bind {A B} (m : Exec A) (f : A -> Exec B) (Q : A -> Prop) (R : B -> Prop) :
  does m Q -> (forall x, Q x -> does (f x) R) -> does (ebind m f) R.
Proof. intros Hm Hf. eapply runs_bind; [exact Hm|]. intros [e|x] H; [by apply runs_ret|by apply Hf]. Qed.
Lemma does_mono {A} (m : Exec A) (Q R : A -> Prop) : does m Q -> (forall x, Q x -> R x) -> does m R.
Proof. intros H HQ. eapply runs_mono; [exact H|]. intros [e|x]; auto. Qed.

(** The result of an iteration, against that of the machine. *)
Definition agrees (r : (Z * list Slot) + State) (o : Progress) : Prop :=
  match r, o with
  | inl e, Stop (Some cap) => failed e \/ e = (1, cap)
  | inl e, Stop None => failed e \/ fst e = 0
  | inl e, Continue _ _ => failed e
  | inr st, Continue c K => rel st c K
  | inr _, Stop _ => False
  end.
Definition performs (m : Exec State) (a : Action) (cap : list Slot) (K : list Choice) : Prop :=
  forall o, perform a cap K = Some o -> runs m (fun r => agrees r o).

Lemma failed_agrees e o : failed e -> agrees (inl e) o.
Proof. intros H. destruct o as [[cap|]|c K]; [by left|by left|done]. Qed.

Lemma performs_bind {A} (m : Exec A) (f : A -> Exec State) Q a cap K :
  does m Q -> (forall x, Q x -> performs (f x) a cap K) -> performs (ebind m f) a cap K.
Proof.
  intros Hm Hf o Ho. eapply runs_bind; [exact Hm|]. intros [e|x] H; [by apply runs_ret, failed_agrees|by apply (Hf x H)].
Qed.

Lemma performs_does m c cap K : does m (fun st => rel st c K) -> performs m (Goto c) cap K.
Proof.
  intros H o [= <-]. eapply runs_mono; [exact H|]. intros [e|st]; [apply failed_agrees|done].
Qed.

Lemma performs_goto st c cap K : rel st c K -> performs (ret st) (Goto c) cap K.
Proof. intros H. by apply performs_does, does_ret. Qed.

(** ** The stack *)

Lemma put_app pre x y rest : put (length pre) x (pre ++ y :: rest) = Some (pre ++ x :: rest).
Proof.
  unfold put. rewrite option_guard_True by (rewrite length_app; cbn; lia). cbn. f_equal. rewrite insert_app_r_alt by lia.
  by rewrite Nat.sub_diag.
Qed.

Lemma put_app_next pre x y z rest n : n = S (length pre) -> put n x (pre ++ y :: z :: rest) = Some (pre ++ y :: x :: rest).
Proof.
  intros ->. change (y :: z :: rest) with ([y] ++ z :: rest). rewrite app_assoc.
  replace (S (length pre)) with (length (pre ++ [y])) by (rewrite length_app; cbn; lia). rewrite put_app. by rewrite <- app_assoc.
Qed.

(** What an operation on the stack leaves alone. *)
Definition same_regs (st st' : State) : Prop := pc st' = pc st /\ cptr st' = cptr st /\ capture st' = capture st.

Lemma realloc_does st n pre seg : stack_at st pre seg ->
  does (CHECK_STACK_SPACE n st) (fun st' => same_regs st st' /\ bp st' = length pre /\ sp st' = length (pre ++ elems seg) /\
    exists rest, stack_buf st' = (pre ++ elems seg) ++ rest /\ (n <= length rest)%nat).
Proof.
  intros (rest & E & Hsp & Hbp). unfold CHECK_STACK_SPACE. rewrite Hsp, E, length_app. case_decide as Hd.
  - unfold stack_realloc. rewrite E, length_app. destruct (ext_ok (ev st)) eqn:Hk.
    + apply does_ret. cbn. split_and!; try done. exists (rest ++ replicate ((if decide ((length (pre ++ elems seg) + length rest) * 3 / 2 < length (pre ++ elems seg) + n)%nat then length (pre ++ elems seg) + n else (length (pre ++ elems seg) + length rest) * 3 / 2) - (length (pre ++ elems seg) + length rest))%nat Raw).
      split; [by rewrite <- app_assoc|]. rewrite length_app, length_replicate. case_decide; lia.
    + apply runs_ret. left. split; [done|]. by exists (ev st).
  - apply does_ret. split_and!; try done. exists rest. split; [done|]. lia.
Qed.

(** ** Saving captures *)

Lemma push_capture_does st pre seg idx old : stack_at st pre seg ->
  does (push_capture idx old st) (fun st' => same_regs st st' /\ stack_at st' pre (seg ++ [(idx, old)])).
Proof.
  intros H. unfold push_capture. eapply does_bind; [by apply (realloc_does st 2 pre seg)|].
  intros st' (Hr & Hbp & Hsp & [|x [|y rest]] & E & Hn); [cbn in Hn; lia..|].
  rewrite E, Hsp, put_app. cbn [mbind option_bind]. rewrite put_app_next by lia. cbn [mbind option_bind]. apply does_ret.
  split; [exact Hr|]. exists rest. cbn. rewrite elems_app, Hbp, !length_app. split_and!; [|cbn; lia|done]. by rewrite <- !app_assoc.
Qed.

Lemma is_saved_spec n fuel pre seg rest idx : (length (pre ++ elems seg) <= fuel)%nat -> n = length (pre ++ elems seg) ->
  is_saved fuel ((pre ++ elems seg) ++ rest) n (length pre) idx = Some (bool_decide (idx ∈ seg.*1)).
Proof.
  revert n fuel rest. induction seg as [|[i v] seg IH] using rev_ind; intros n fuel rest Hf ->.
  - cbn [elems flat_map]. rewrite app_nil_r. destruct fuel; cbn [is_saved]; by rewrite decide_False by lia.
  - rewrite elems_app in *. cbn [elems flat_map fst snd app] in *. rewrite !length_app in *. cbn [length] in *.
    destruct fuel as [|f]; [lia|]. cbn [is_saved]. rewrite decide_True by lia. rewrite option_guard_True by lia. cbn [mbind option_bind].
    replace (length pre + (length (elems seg) + 2) - 2)%nat with (length (pre ++ elems seg)) by (rewrite length_app; lia).
    replace ((pre ++ elems seg ++ [Index i; Saved v]) ++ rest) with ((pre ++ elems seg) ++ Index i :: Saved v :: rest) by (by rewrite <- !app_assoc).
    rewrite list_lookup_middle by done. cbn [mbind option_bind]. rewrite fmap_app. destruct (decide (i = idx)) as [->|Hi].
    + f_equal. symmetry. apply bool_decide_eq_true. apply elem_of_app. right. by apply list_elem_of_singleton.
    + rewrite (IH (length (pre ++ elems seg))) by (rewrite ?length_app; lia). f_equal. apply bool_decide_ext. cbn [fmap list_fmap fst].
      rewrite elem_of_app, elem_of_cons. split; [by left|]. intros [|[|[]%not_elem_of_nil]]; congruence || done.
Qed.

Lemma store_some idx v cap cap' : store idx v cap = Some cap' -> (idx < length cap)%nat /\ cap' = <[idx:=v]> cap.
Proof. unfold store. case_guard; [|done]. by intros [= <-]. Qed.

Lemma lookup_old idx (cap : list Slot) : (idx < length cap)%nat -> exists old, cap !! idx = Some old.
Proof. apply lookup_lt_is_Some. Qed.

(** The new entry keeps what the undoing gives. *)
Lemma stacked_push st cap K idx old x : stacked st cap K -> cap !! idx = Some old ->
  does (push_capture idx old st) (fun st' => same_regs st st' /\ stacked st' (<[idx:=x]> cap) K).
Proof.
  intros (pre & seg & Hs & Hf & Hok & Hr) Hold. eapply does_mono; [by apply push_capture_does|].
  intros st' (Hregs & Hs'). split; [exact Hregs|]. exists pre, (seg ++ [(idx, old)]). split_and!; [done|done| |].
  - apply Forall_app. split; [eapply entries_ok_length; [|exact Hok]; by rewrite length_insert|].
    repeat constructor. cbn. rewrite length_insert. by eapply lookup_lt_Some.
  - destruct K as [|ch K]; [done|]. cbn [restores] in *. by rewrite undo_push.
Qed.

Lemma stacked_skip st pre seg K idx x cap : stack_at st pre seg -> frames pre K -> entries_ok cap seg -> restores K seg cap ->
  idx ∈ seg.*1 -> stacked st (<[idx:=x]> cap) K.
Proof.
  intros Hs Hf Hok Hr Hin. exists pre, seg. split_and!; [done|done| |].
  - eapply entries_ok_length; [|exact Hok]. by rewrite length_insert.
  - destruct K as [|ch K]; [done|]. cbn [restores] in *. by rewrite undo_saved.
Qed.

Lemma rel_store st st' c K cap : same_regs st st' -> rel st c K -> stacked st' cap K ->
  rel (set_capture cap st') {| c_pc := c_pc c; c_pos := c_pos c; c_cap := cap |} K.
Proof. intros (H1 & H2 & H3) [] H. split; cbn; congruence || done. Qed.

Lemma save_does st c K idx v cap : rel st c K -> store idx v (c_cap c) = Some cap ->
  does (SAVE_CAPTURE idx v st) (fun st' => rel st' {| c_pc := c_pc c; c_pos := c_pos c; c_cap := cap |} K).
Proof.
  intros R (Hi & ->)%store_some. unfold SAVE_CAPTURE. rewrite (rel_cap _ _ _ R). destruct (lookup_old idx _ Hi) as [old Hold].
  rewrite Hold. cbn [mbind option_bind]. eapply does_bind; [apply (stacked_push st _ K idx old v (rel_stack _ _ _ R) Hold)|].
  intros st' (Hregs & Hs). apply does_ret. destruct Hregs as (H1 & H2 & H3). rewrite H3, (rel_cap _ _ _ R). by eapply rel_store.
Qed.

Lemma save_check_does st c K idx v cap : rel st c K -> store idx v (c_cap c) = Some cap ->
  does (SAVE_CAPTURE_CHECK idx v st) (fun st' => rel st' {| c_pc := c_pc c; c_pos := c_pos c; c_cap := cap |} K).
Proof.
  intros R (Hi & ->)%store_some. unfold SAVE_CAPTURE_CHECK. rewrite (rel_cap _ _ _ R). destruct (lookup_old idx _ Hi) as [old Hold].
  rewrite Hold. cbn [mbind option_bind]. pose proof (rel_stack _ _ _ R) as HS. destruct HS as (pre & seg & (rest & E & Hsp & Hbp) & Hf & Hok & Hr).
  assert (Hsaved : is_saved (sp st) (stack_buf st) (sp st) (bp st) idx = Some (bool_decide (idx ∈ seg.*1))).
  { rewrite E, Hbp. apply is_saved_spec; [lia|done]. }
  rewrite Hsaved. cbn [mbind option_bind]. case_bool_decide as Hin.
  - eapply does_bind; [by apply (does_ret st (fun st' => st' = st))|]. intros ? ->. apply does_ret.
    rewrite (rel_cap _ _ _ R). eapply rel_store; [by repeat split|exact R|]. eapply stacked_skip; [|done..]. by exists rest.
  - eapply does_bind; [apply (stacked_push st _ K idx old v (rel_stack _ _ _ R) Hold)|].
    intros st' (Hregs & Hs). apply does_ret. destruct Hregs as (H1 & H2 & H3). rewrite H3, (rel_cap _ _ _ R). by eapply rel_store.
Qed.

(** ** Saved states *)

Lemma push_state_does st c K p t : rel st c K ->
  let ch := {| ch_type := t; ch_config := {| c_pc := p; c_pos := c_pos c; c_cap := c_cap c |} |} in
  does (push_state p t st) (fun st' => rel st' c (ch :: K)).
Proof.
  intros R ch. pose proof (rel_stack _ _ _ R) as (pre & seg & Hs & Hf & Hok & Hr). unfold push_state.
  eapply does_bind; [by apply (realloc_does st 3 pre seg)|]. intros st' ((H1 & H2 & H3) & Hbp & Hsp & [|x [|y [|z rest]]] & E & Hn); [cbn in Hn; lia..|].
  rewrite E, Hsp, Hbp, put_app. cbn [mbind option_bind]. rewrite put_app_next by lia. cbn [mbind option_bind].
  set (l := pre ++ elems seg) in *.
  assert (Hput : put (length l + 2) (Base (length pre) t) (l ++ Code p :: Char (cptr st') :: z :: rest) = Some (l ++ Code p :: Char (cptr st') :: Base (length pre) t :: rest)).
  { change (Code p :: Char (cptr st') :: z :: rest) with ([Code p; Char (cptr st')] ++ z :: rest). rewrite app_assoc.
    replace (length l + 2)%nat with (length (l ++ [Code p; Char (cptr st')])) by (rewrite length_app; cbn; lia). rewrite put_app. by rewrite <- app_assoc. }
  rewrite Hput. cbn [mbind option_bind]. apply does_ret. destruct R as [R1 R2 R3 _]. split; cbn; [congruence..|].
  exists (l ++ [Code p; Char (cptr st'); Base (length pre) t]), []. split_and!; [| |constructor|done].
  - exists rest. cbn [elems flat_map set_stack stack_buf sp bp]. rewrite app_nil_r, length_app. cbn [length]. split_and!; [|lia|lia]. by rewrite <- app_assoc.
  - replace (cptr st') with (c_pos (ch_config ch)) by (cbn; congruence). by apply (frames_cons pre seg ch K).
Qed.

Lemma undo_loop_spec n fuel pre seg rest cap : (length (pre ++ elems seg) <= fuel)%nat -> n = length (pre ++ elems seg) -> entries_ok cap seg ->
  undo_loop fuel ((pre ++ elems seg) ++ rest) n (length pre) cap = Some (length pre, undo seg cap).
Proof.
  revert n fuel rest cap. induction seg as [|[i v] seg IH] using rev_ind; intros n fuel rest cap Hf -> Hok.
  - cbn [elems flat_map]. rewrite app_nil_r. destruct fuel; cbn [undo_loop]; by rewrite decide_False by lia.
  - rewrite elems_app in *. cbn [elems flat_map fst snd app] in *. rewrite !length_app in *. cbn [length] in *.
    destruct fuel as [|f]; [lia|]. cbn [undo_loop]. rewrite decide_True by lia. rewrite option_guard_True by lia. cbn [mbind option_bind].
    replace (length pre + (length (elems seg) + 2) - 2)%nat with (length (pre ++ elems seg)) by (rewrite length_app; lia).
    replace ((pre ++ elems seg ++ [Index i; Saved v]) ++ rest) with ((pre ++ elems seg) ++ Index i :: Saved v :: rest) by (by rewrite <- !app_assoc).
    rewrite (list_lookup_middle _ _ _ (length (pre ++ elems seg))) by done. cbn [mbind option_bind].
    replace (length pre + (length (elems seg) + 2) - 1)%nat with (length ((pre ++ elems seg) ++ [Index i])) by (rewrite !length_app; cbn; lia).
    change (Index i :: Saved v :: rest) with ([Index i] ++ Saved v :: rest). rewrite app_assoc, list_lookup_middle by done. cbn [mbind option_bind].
    apply Forall_app in Hok as [Hok Hi]. inversion Hi as [|? ? Hi' _]; subst. cbn [fst] in Hi'. rewrite option_guard_True by done. cbn [mbind option_bind].
    rewrite <- app_assoc. rewrite (IH (length (pre ++ elems seg))); [by rewrite undo_app|lia|by rewrite length_app|].
    eapply entries_ok_length; [|exact Hok]. by rewrite length_insert.
Qed.

Lemma read_state_spec pre p q b t rest : read_state ((pre ++ [Code p; Char q; Base b t]) ++ rest) (length (pre ++ [Code p; Char q; Base b t])) = Some (p, q, b, t).
Proof.
  unfold read_state. rewrite length_app. cbn [length]. rewrite option_guard_True by lia. cbn [mbind option_bind].
  rewrite <- app_assoc. cbn [app].
  rewrite !lookup_app_r by lia. replace (length pre + 3 - 3 - length pre)%nat with 0%nat by lia. replace (length pre + 3 - 2 - length pre)%nat with 1%nat by lia.
  by replace (length pre + 3 - 1 - length pre)%nat with 2%nat by lia.
Qed.

Lemma frames_bottom pre K : frames pre K -> (length pre = 0%nat <-> K = []).
Proof. intros [|? ? ? ? H]; [done|]. rewrite !length_app. cbn. split; [lia|done]. Qed.

(** The first choice is popped, whatever the captures are. *)
Lemma pop_state_spec st cap ch K : capture st = cap -> stacked st cap (ch :: K) ->
  exists st', pop_state st = Some (st', ch_type ch) /\ rel st' (ch_config ch) K /\ (sp st' < sp st)%nat.
Proof.
  intros Hcap (pre & seg & (rest & E & Hsp & Hbp) & Hf & Hok & Hr). inversion Hf as [|pre0 seg0 ? ? Hf0 Hok0 Hr0]; subst.
  unfold pop_state. rewrite E, Hsp, Hbp, undo_loop_spec; [|lia|done|done]. cbn [mbind option_bind].
  rewrite <- app_assoc, read_state_spec. cbn [mbind option_bind].
  eexists. split; [reflexivity|]. split; [|cbn; rewrite !length_app; cbn; lia].
  split; [done|done|exact Hr|]. exists pre0, seg0. split_and!; [|done|done|done].
  exists ([Code (c_pc (ch_config ch)); Char (c_pos (ch_config ch)); Base (length pre0) (ch_type ch)] ++ elems seg ++ rest).
  cbn. split_and!; [by rewrite <- !app_assoc|rewrite !length_app; cbn; lia|done].
Qed.

Lemma poll_does st c K : rel st c K -> does (lre_poll_timeout st) (fun st' => rel st' c K).
Proof.
  intros [H1 H2 H3 H4]. unfold lre_poll_timeout. destruct ((interrupt_counter st - 1 <=? 0) && lre_check_timeout (polls st)) eqn:E.
  - apply runs_ret. right. split; [done|]. apply andb_true_iff in E as [_ E]. by exists (polls st).
  - by apply does_ret.
Qed.

Lemma stacked_nil st cap : stacked st cap [] -> bp st = 0%nat.
Proof. intros (pre & seg & (rest & E & Hsp & Hbp) & Hf & _). rewrite Hbp. by apply (frames_bottom pre []). Qed.

Lemma stacked_cons st cap ch K : stacked st cap (ch :: K) -> bp st <> 0%nat.
Proof. intros (pre & seg & (rest & E & Hsp & Hbp) & Hf & _) H. rewrite Hbp in H. by apply (frames_bottom _ _ Hf) in H. Qed.

Lemma no_match_loop_does fuel st cap K : (sp st <= fuel)%nat -> capture st = cap -> stacked st cap K ->
  runs (no_match_loop fuel st) (fun r => match backtrack K, r with
    | Some (c, K), inr st => rel st c K
    | None, inl e => fst e = 0
    | _, _ => False
    end).
Proof.
  revert fuel st cap. induction K as [|ch K IH]; intros fuel st cap Hf Hcap Hs.
  - destruct fuel; cbn [no_match_loop]; rewrite decide_True by (by eapply stacked_nil); by apply runs_ret.
  - pose proof (stacked_cons _ _ _ _ Hs) as Hbp. destruct (pop_state_spec st cap ch K Hcap Hs) as (st' & E & R & Hlt).
    destruct fuel as [|fuel]; [lia|]. cbn [no_match_loop]. rewrite decide_False by done. rewrite E. cbn [mbind option_bind backtrack].
    destruct (decide (ch_type ch = RE_EXEC_STATE_LOOKAHEAD)) as [Ht|Ht].
    + rewrite decide_False by tauto. apply (IH fuel st' (c_cap (ch_config ch))); [lia|by apply R|by apply R].
    + rewrite decide_True by done. by apply runs_ret.
Qed.

Lemma no_match_resumes st c K : rel st c K -> runs (no_match st) (fun r => agrees r (resume K)).
Proof.
  intros R. unfold no_match. eapply runs_bind; [eapply (no_match_loop_does (sp st) st (c_cap c) K); [done|by apply R|by apply R]|].
  unfold resume. destruct (backtrack K) as [[c' K']|]; intros [e|st'] H; [done| |by apply runs_ret; right|done].
  eapply runs_mono; [by apply (poll_does st' c' K')|]. intros [e|st1]; [by apply failed_agrees|done].
Qed.

Lemma no_match_does st c K : rel st c K -> performs (no_match st) Reject (c_cap c) K.
Proof. intros R o [= <-]. by eapply no_match_resumes. Qed.

(** ** Lookaheads *)

(** The states that [link_states] has popped, from the index [start] on, and their entries. *)
Inductive linked : nat -> list StackElem -> entries -> Prop :=
| linked_nil start : linked start [] []
| linked_cons start a b seg l es :
    linked (start + 3 + length (elems seg)) l es ->
    linked start ([a; b; Link (start + 3 + length (elems seg))] ++ elems seg ++ l) (seg ++ es).

Lemma link_states_spec t fuel st cap pre seg L es rest next K' K : t = RE_EXEC_STATE_LOOKAHEAD ->
  stack_buf st = (pre ++ elems seg) ++ L ++ rest -> sp st = length (pre ++ elems seg) -> bp st = length pre -> (sp st <= fuel)%nat ->
  linked (sp st) L es -> frames pre K -> entries_ok cap (seg ++ es) -> restores K (seg ++ es) cap -> leave t K = Some (next, K') ->
  capture st = cap ->
  exists st' pre' seg' L' es', link_states fuel st = Some st' /\ stack_buf st' = (pre' ++ elems seg') ++ L' ++ rest /\
    sp st' = length (pre' ++ elems seg') /\ bp st' = length pre' /\ (length (pre' ++ elems seg' ++ L') = length (pre ++ elems seg ++ L)) /\
    linked (sp st') L' es' /\ frames pre' K' /\ entries_ok cap (seg' ++ es') /\ restores K' (seg' ++ es') cap /\
    pc st' = c_pc next /\ cptr st' = c_pos next /\ capture st' = cap.
Proof.
  intros ->. revert fuel st pre seg L es. induction K as [|ch K IH]; intros fuel st pre seg L es E Hsp Hbp Hfu HL Hf Hok Hr Hleave Hcap; [done|].
  inversion Hf as [|pre0 seg0 ? ? Hf0 Hok0 Hr0]; subst. cbn [leave restores] in *.
  set (F := [Code (c_pc (ch_config ch)); Char (c_pos (ch_config ch)); Base (length pre0) (ch_type ch)]) in *.
  destruct fuel as [|fuel]; [rewrite Hsp, !length_app in Hfu; cbn in Hfu; lia|]. cbn [link_states].
  assert (EB : stack_buf st = ((pre0 ++ elems seg0) ++ F) ++ elems seg ++ L ++ rest) by (rewrite E; by rewrite <- !app_assoc).
  assert (Er : read_state (stack_buf st) (bp st) = Some (c_pc (ch_config ch), c_pos (ch_config ch), length pre0, ch_type ch)).
  { rewrite EB, Hbp. apply read_state_spec. }
  rewrite Er. cbn [mbind option_bind].
  assert (Ep : put (bp st - 1) (Link (sp st)) (stack_buf st) = Some ((pre0 ++ elems seg0) ++
     ([Code (c_pc (ch_config ch)); Char (c_pos (ch_config ch)); Link (sp st)] ++ elems seg ++ L) ++ rest)).
  { rewrite EB, Hbp. set (A := (pre0 ++ elems seg0) ++ [Code (c_pc (ch_config ch)); Char (c_pos (ch_config ch))]).
    replace (((pre0 ++ elems seg0) ++ F) ++ elems seg ++ L ++ rest) with (A ++ Base (length pre0) (ch_type ch) :: elems seg ++ L ++ rest)
      by (unfold A, F; by rewrite <- !app_assoc).
    replace (length ((pre0 ++ elems seg0) ++ F) - 1)%nat with (length A) by (unfold A, F; rewrite !length_app; cbn; lia).
    rewrite put_app. unfold A. by rewrite <- !app_assoc. }
  rewrite Ep. cbn [mbind option_bind].
  set (st1 := set_pc _ _).
  assert (Hlen : sp st1 = length (pre0 ++ elems seg0)) by (cbn; rewrite Hbp, length_app; cbn; lia).
  assert (HL' : linked (sp st1) ([Code (c_pc (ch_config ch)); Char (c_pos (ch_config ch)); Link (sp st)] ++ elems seg ++ L) (seg ++ es)).
  { assert (Hs : (sp st1 + 3 + length (elems seg) = sp st)%nat) by (rewrite Hlen, Hsp, !length_app; cbn; lia). rewrite <- Hs.
    apply linked_cons. by rewrite Hs. }
  assert (Hok' : entries_ok (capture st) (seg0 ++ seg ++ es)).
  { apply Forall_app. split; [|done]. eapply entries_ok_length; [|exact Hok0]. rewrite <- Hr. apply undo_length. }
  assert (Hr' : restores K (seg0 ++ seg ++ es) (capture st)).
  { destruct K as [|ch' K0]; [done|]. cbn [restores] in *. by rewrite undo_app, Hr. }
  assert (Hsum : length (pre0 ++ elems seg0 ++ [Code (c_pc (ch_config ch)); Char (c_pos (ch_config ch)); Link (sp st)] ++ elems seg ++ L) =
    length (((pre0 ++ elems seg0) ++ F) ++ elems seg ++ L)) by (rewrite !length_app; cbn; lia).
  destruct (decide (ch_type ch = RE_EXEC_STATE_LOOKAHEAD)) as [Ht|Ht].
  - injection Hleave as [= <- <-]. exists st1, pre0, seg0, ([Code (c_pc (ch_config ch)); Char (c_pos (ch_config ch)); Link (sp st)] ++ elems seg ++ L), (seg ++ es).
    split_and!; done.
  - destruct (IH fuel st1 pre0 seg0 ([Code (c_pc (ch_config ch)); Char (c_pos (ch_config ch)); Link (sp st)] ++ elems seg ++ L) (seg ++ es))
      as (st' & pre' & seg' & L' & es' & H1 & H2 & H3 & H4 & H5 & H6 & H7 & H8 & H9 & H10 & H11 & H12); try done.
    { rewrite Hlen. rewrite Hsp, !length_app in Hfu. cbn in Hfu. rewrite length_app. lia. }
    exists st', pre', seg', L', es'. split_and!; try done. by rewrite H5.
Qed.

(** A block [X] is moved down over the hole [G]. *)
Lemma copy_elems_spec fuel A G X R : (length X <= fuel)%nat -> (G <> [] \/ X = []) ->
  exists G', length G' = length G /\
    copy_elems fuel (A ++ G ++ X ++ R) (length A) (length (A ++ G)) (length (A ++ G ++ X)) = Some (A ++ X ++ G' ++ R, length (A ++ X), length (A ++ X ++ G')).
Proof.
  revert fuel A G. induction X as [|x X IH]; intros fuel A G Hf HG.
  - exists G. split; [done|]. rewrite !app_nil_r, !app_nil_l. by destruct fuel; cbn [copy_elems]; rewrite decide_False by lia.
  - destruct HG as [HG|]; [|done]. destruct G as [|g G]; [done|]. destruct fuel as [|fuel]; [cbn in Hf; lia|]. cbn [copy_elems].
    rewrite decide_True by (rewrite !length_app; cbn; lia).
    replace (A ++ (g :: G) ++ (x :: X) ++ R) with ((A ++ g :: G) ++ x :: X ++ R) by (by rewrite <- !app_assoc).
    rewrite list_lookup_middle by done. cbn [mbind option_bind].
    replace ((A ++ g :: G) ++ x :: X ++ R) with (A ++ g :: G ++ x :: X ++ R) by (by rewrite <- !app_assoc).
    rewrite put_app. cbn [mbind option_bind].
    destruct (IH fuel (A ++ [x]) (G ++ [x])) as (G' & HG' & E); [cbn in Hf; lia|left; by destruct G|].
    exists G'. split; [rewrite HG'; rewrite length_app; cbn; lia|].
    replace (A ++ x :: G ++ x :: X ++ R) with ((A ++ [x]) ++ (G ++ [x]) ++ X ++ R) by (by rewrite <- !app_assoc).
    replace (S (length A)) with (length (A ++ [x])) by (rewrite length_app; cbn; lia).
    replace (S (length (A ++ g :: G))) with (length ((A ++ [x]) ++ G ++ [x])) by (rewrite !length_app; cbn; lia).
    replace (length (A ++ (g :: G) ++ x :: X)) with (length ((A ++ [x]) ++ (G ++ [x]) ++ X)) by (rewrite !length_app; cbn; lia).
    rewrite E. by rewrite <- !app_assoc.
Qed.

Lemma copy_captures_spec L start es : linked start L es -> forall fuel A G rest, start = length (A ++ G) -> (length L <= fuel)%nat ->
  exists rest', copy_captures fuel (A ++ G ++ L ++ rest) (length A) start (start + length L) = Some (A ++ elems es ++ rest', length (A ++ elems es)).
Proof.
  induction 1 as [start|start a b seg L es H IH]; intros fuel A G rest Hs Hf.
  - exists (G ++ rest). cbn [elems flat_map app length]. rewrite app_nil_r. by destruct fuel; cbn [copy_captures]; rewrite decide_False by lia.
  - rewrite !length_app in Hf. cbn [length] in Hf. destruct fuel as [|fuel]; [lia|]. cbn [copy_captures].
    rewrite decide_True by (cbn [app length]; lia). set (e := Link (start + 3 + length (elems seg))).
    assert (El : (A ++ G ++ ([a; b; e] ++ elems seg ++ L) ++ rest) !! (start + 2)%nat = Some e).
    { replace (A ++ G ++ ([a; b; e] ++ elems seg ++ L) ++ rest) with ((A ++ G ++ [a; b]) ++ e :: elems seg ++ L ++ rest) by (by rewrite <- !app_assoc).
      apply list_lookup_middle. rewrite Hs, !length_app. cbn. lia. }
    rewrite El. cbn [mbind option_bind]. subst e. cbv iota. set (e := Link (start + 3 + length (elems seg))) in *.
    destruct (copy_elems_spec (start + length ([a; b; e] ++ elems seg ++ L)) A (G ++ [a; b; e]) (elems seg) (L ++ rest)) as (G' & HG' & E);
      [rewrite !length_app; cbn; lia|left; by destruct G|].
    replace (A ++ G ++ ([a; b; e] ++ elems seg ++ L) ++ rest) with (A ++ (G ++ [a; b; e]) ++ elems seg ++ L ++ rest) by (by rewrite <- !app_assoc).
    replace (length (A ++ G ++ [a; b; e])) with (start + 3)%nat in E by (rewrite Hs, !length_app; cbn; lia).
    replace (length (A ++ (G ++ [a; b; e]) ++ elems seg)) with (start + 3 + length (elems seg))%nat in E by (rewrite Hs, !length_app; cbn; lia).
    rewrite E. cbn [mbind option_bind].
    destruct (IH fuel (A ++ elems seg) G' rest) as (rest' & E'); [rewrite Hs, !length_app, HG', ?length_app; cbn; lia|lia|].
    exists rest'. rewrite elems_app.
    replace (length (A ++ elems seg ++ G')) with (start + 3 + length (elems seg))%nat by (rewrite Hs, !length_app, HG', ?length_app; cbn; lia).
    replace (start + length ([a; b; e] ++ elems seg ++ L))%nat with (start + 3 + length (elems seg) + length L)%nat by (rewrite !length_app; cbn; lia).
    replace (A ++ elems seg ++ G' ++ L ++ rest) with ((A ++ elems seg) ++ G' ++ L ++ rest) by (by rewrite <- app_assoc).
    rewrite E'. by rewrite <- !app_assoc.
Qed.

Lemma lookahead_match_does st c K next K' : rel st c K -> leave RE_EXEC_STATE_LOOKAHEAD K = Some (next, K') ->
  does (lookahead_match st) (fun st' => rel st' (at_cap (c_cap c) next) K').
Proof.
  intros R Hl. pose proof (rel_stack _ _ _ R) as (pre & seg & (rest & E & Hsp & Hbp) & Hf & Hok & Hr). unfold lookahead_match.
  destruct (link_states_spec RE_EXEC_STATE_LOOKAHEAD (sp st) st (c_cap c) pre seg [] [] rest next K' K)
    as (st' & pre' & seg' & L' & es' & H1 & H2 & H3 & H4 & H5 & H6 & H7 & H8 & H9 & H10 & H11 & H12);
    rewrite ?app_nil_r; try done; [constructor|by apply R|].
  rewrite H1. cbn [mbind option_bind]. destruct (decide (sp st' = 0%nat)) as [Hz|Hz].
  - apply does_ret. split; [done..|]. rewrite H3, length_app in Hz. assert (Hp : length pre' = 0%nat) by lia.
    pose proof (proj1 (frames_bottom _ _ H7) Hp) as ->. apply nil_length_inv in Hp as ->.
    assert (Hseg : elems seg' = []) by (apply nil_length_inv; cbn in Hz; lia).
    exists [], []. split_and!; [|constructor|constructor|done]. exists (L' ++ rest). rewrite H2, H3, H4, Hseg. by cbn.
  - assert (Htop : sp st = (sp st' + length L')%nat).
    { rewrite Hsp, H3. rewrite !length_app in *. cbn in H5. lia. }
    destruct (copy_captures_spec L' (sp st') es' H6 (sp st) (pre' ++ elems seg') [] rest) as (rest' & E'); [by rewrite app_nil_r|lia|].
    rewrite H2. rewrite app_nil_l in E'. rewrite <- H3, <- Htop in E'. rewrite E'. cbn [mbind option_bind].
    apply does_ret. split; [done..|]. exists pre', (seg' ++ es'). split_and!; [|done..].
    exists rest'. cbn. rewrite elems_app, H4. split_and!; [by rewrite <- !app_assoc|by rewrite <- app_assoc|done].
Qed.

Lemma pop_negative_spec fuel st cap K next K' : (sp st <= fuel)%nat -> capture st = cap -> stacked st cap K ->
  leave RE_EXEC_STATE_NEGATIVE_LOOKAHEAD K = Some (next, K') -> exists st', pop_negative fuel st = Some st' /\ rel st' next K'.
Proof.
  revert fuel st cap. induction K as [|ch K IH]; intros fuel st cap Hf Hcap Hs Hl; [done|]. cbn [leave] in Hl.
  destruct (pop_state_spec st cap ch K Hcap Hs) as (st' & E & R & Hlt). destruct fuel as [|fuel]; [lia|]. cbn [pop_negative].
  rewrite E. cbn [mbind option_bind]. destruct (decide (ch_type ch = RE_EXEC_STATE_NEGATIVE_LOOKAHEAD)) as [Ht|Ht].
  - injection Hl as [= <- <-]. by exists st'.
  - apply (IH fuel st' (c_cap (ch_config ch))); [lia|by apply R|by apply R|done].
Qed.

Lemma negative_does st c K next K' : rel st c K -> leave RE_EXEC_STATE_NEGATIVE_LOOKAHEAD K = Some (next, K') ->
  runs (negative_lookahead_match st) (fun r => agrees r (resume K')).
Proof.
  intros R Hl. unfold negative_lookahead_match.
  destruct (pop_negative_spec (sp st) st (c_cap c) K next K') as (st' & E & R'); [done|by apply R|by apply R|done|].
  rewrite E. cbn [mbind option_bind]. by eapply no_match_resumes.
Qed.
End sim.
