(* ===== verification/ReStep.v ===== *)
(** * One instruction of the executor

    Each instruction of [ReExec.step] does what [ReSpec.instr] says, on the stack of
    [ReSim]. *)
From S2P Require Export ReSim.
#[local] Open Scope Z_scope.

(** ** Ranges *)

Lemma get_u8_byte buf pos v : bytes buf -> get_u8 buf pos = Some v -> 0 <= v < 256.
Proof.
  intros Hb. unfold get_u8. case_guard; [|done]. cbn. intros E. apply (Forall_lookup_1 _ _ _ _ Hb) in E.
  unfold byte, word in E. lia.
Qed.

Lemma get_u16_word buf pos v : bytes buf -> get_u16 buf pos = Some v -> 0 <= v < 65536.
Proof.
  intros Hb. unfold get_u16. intros (a & Ea & (b & Eb & [= <-])%bind_Some)%bind_Some.
  apply get_u8_byte in Ea, Eb; [lia|done..].
Qed.

Section ranges.
Context (s : Subject) (wide : bool).

Lemma read_ranges_length n pos l : read_ranges s wide n pos = Some l -> length l = n.
Proof.
  revert pos l. induction n as [|n IH]; intros pos l; cbn [read_ranges]; [by intros [= <-]|].
  intros (a & Ea & (b & Eb & (r & Er & [= <-])%bind_Some)%bind_Some)%bind_Some. cbn. f_equal. by eapply IH.
Qed.

Lemma read_ranges_lookup n pos l i low high : read_ranges s wide n pos = Some l -> l !! i = Some (low, high) ->
  get_bound s wide (pos + Z.of_nat i * (2 * bound_size wide)) = Some low /\
  get_bound s wide (pos + Z.of_nat i * (2 * bound_size wide) + bound_size wide) = Some high.
Proof.
  revert pos l i. induction n as [|n IH]; intros pos l i; cbn [read_ranges]; [by intros [= <-]|].
  intros (a & Ea & (b & Eb & (r & Er & [= <-])%bind_Some)%bind_Some)%bind_Some. destruct i as [|i]; cbn [lookup list_lookup].
  - intros [= <- <-]. rewrite Z.mul_0_l, Z.add_0_r. done.
  - intros Hl. destruct (IH _ _ _ Er Hl) as [H1 H2].
    replace (pos + Z.of_nat (S i) * (2 * bound_size wide)) with (pos + 2 * bound_size wide + Z.of_nat i * (2 * bound_size wide)) by lia. done.
Qed.

Lemma increasing_cons r l : increasing (r :: l) = true ->
  fst r <= snd r /\ increasing l = true /\ match l with r' :: _ => snd r < fst r' | [] => True end.
Proof.
  destruct r as [a b]. cbn [increasing fst snd]. intros [[H1 H2]%andb_true_iff H3]%andb_true_iff. split_and!; [lia|done|].
  destruct l as [|[a' b'] l]; [done|]. cbn. lia.
Qed.

Lemma increasing_lookup l : increasing l = true -> forall i j r r', l !! i = Some r -> l !! j = Some r' -> (i < j)%nat -> snd r < fst r'.
Proof.
  induction l as [|r0 l IH]; intros H i j r r' Hi Hj Hij; [done|]. apply increasing_cons in H as (H1 & H2 & H3).
  destruct j as [|j]; [lia|]. destruct i as [|i]; [|apply (IH H2 i j); [done|done|lia]]. cbn in Hi, Hj. injection Hi as <-.
  destruct l as [|r1 l]; [done|]. destruct j as [|j]; [cbn in Hj; by injection Hj as <-|].
  pose proof (IH H2 0%nat (S j) r1 r' eq_refl Hj ltac:(lia)). apply increasing_cons in H2 as (? & _). lia.
Qed.

Lemma increasing_range l i r : increasing l = true -> l !! i = Some r -> fst r <= snd r.
Proof.
  revert i. induction l as [|r0 l IH]; intros i H Hi; [done|]. apply increasing_cons in H as (H1 & H2 & _).
  destruct i as [|i]; [by injection Hi as <-|]. by eapply IH.
Qed.

Definition inside (l : list (Z * Z)) (c : Z) : bool := existsb (fun r : Z * Z => (fst r <=? c) && (c <=? snd r)) l.

Lemma inside_true l c : inside l c = true <-> exists i r, l !! i = Some r /\ fst r <= c <= snd r.
Proof.
  unfold inside. rewrite existsb_exists. split.
  - intros (r & Hin & Hr). apply list_elem_of_In, list_elem_of_lookup in Hin as [i Hi]. exists i, r. split; [done|lia].
  - intros (i & r & Hi & Hr). exists r. split; [|lia]. apply list_elem_of_In. by eapply list_elem_of_lookup_2.
Qed.

Lemma range_search_spec n pos l c : read_ranges s wide n pos = Some l -> increasing l = true -> (Z.of_nat n < 65536) ->
  (forall r, l !! 0%nat = Some r -> fst r <= c) -> forall fuel idx_min idx_max, 0 <= idx_min <= idx_max + 1 -> 0 <= idx_max < Z.of_nat n ->
  idx_max - idx_min < Z.of_nat fuel ->
  (forall i r, l !! i = Some r -> Z.of_nat i < idx_min -> snd r < c) -> (forall i r, l !! i = Some r -> idx_max < Z.of_nat i -> c < fst r) ->
  range_search s fuel wide pos c idx_min idx_max = Some (inside l c).
Proof.
  intros Hl Hinc Hn H0. induction fuel as [|fuel IH]; intros idx_min idx_max Hmin Hmax Hf Hlow Hhigh.
  - cbn [range_search]. replace (idx_min <=? idx_max) with false by lia. f_equal. symmetry. apply not_true_iff_false. rewrite inside_true.
    intros (i & r & Hi & Hr). destruct (Z.lt_ge_cases (Z.of_nat i) idx_min) as [Hc|Hc]; [apply (Hlow i r Hi) in Hc; lia|].
    assert (Hc' : idx_max < Z.of_nat i) by lia. apply (Hhigh i r Hi) in Hc'. lia.
  - cbn [range_search]. destruct (Z.leb_spec idx_min idx_max) as [Hle|Hgt].
    + rewrite (wrap_small 32 (idx_min + idx_max)) by (unfold word; change (2 ^ 32) with 4294967296; lia). set (idx := (idx_min + idx_max) / 2).
      assert (Hidx : idx_min <= idx <= idx_max) by (unfold idx; split; [apply Z.div_le_lower_bound|apply Z.div_le_upper_bound]; lia).
      destruct (lookup_lt_is_Some_2 l (Z.to_nat idx)) as [[low high] Hr]; [rewrite (read_ranges_length _ _ _ Hl); lia|].
      destruct (read_ranges_lookup _ _ _ _ _ _ Hl Hr) as [E1 E2]. rewrite Z2Nat.id in E1, E2 by lia. rewrite E1, E2. cbn [mbind option_bind].
      destruct (Z.ltb_spec c low) as [Hc|Hc]; [|destruct (Z.ltb_spec high c) as [Hc'|Hc']].
      * assert (Hpos : 0 < idx).
        { destruct (Z.eq_dec idx 0) as [Hz|]; [|lia]. rewrite Hz in Hr. apply H0 in Hr. cbn in Hr. lia. }
        rewrite (wrap_small 32 (idx - 1)) by (unfold word; change (2 ^ 32) with 4294967296; lia). apply IH; [lia|lia|lia|done|]. intros i r Hi Hii.
        destruct (decide (i = Z.to_nat idx)) as [->|Hne]; [rewrite Hr in Hi; injection Hi as <-; done|].
        pose proof (increasing_lookup l Hinc _ _ _ _ Hr Hi ltac:(lia)). pose proof (increasing_range l _ _ Hinc Hr). cbn in *. lia.
      * apply IH; [lia|lia|lia| |done]. intros i r Hi Hii.
        destruct (decide (i = Z.to_nat idx)) as [->|Hne]; [rewrite Hr in Hi; injection Hi as <-; done|].
        pose proof (increasing_lookup l Hinc _ _ _ _ Hi Hr ltac:(lia)). pose proof (increasing_range l _ _ Hinc Hr). cbn in *. lia.
      * f_equal. symmetry. apply inside_true. exists (Z.to_nat idx), (low, high). cbn. split; [done|lia].
    + f_equal. symmetry. apply not_true_iff_false. rewrite inside_true.
      intros (i & r & Hi & Hr). destruct (Z.lt_ge_cases (Z.of_nat i) idx_min) as [Hc|Hc]; [apply (Hlow i r Hi) in Hc; lia|].
      assert (Hc' : idx_max < Z.of_nat i) by lia. apply (Hhigh i r Hi) in Hc'. lia.
Qed.

Lemma range_test_spec n pos l c : read_ranges s wide (Z.to_nat n) pos = Some l -> increasing l = true -> 0 < n < 65536 ->
  range_test s wide pos n c = Some (in_ranges wide l c).
Proof.
  intros Hl Hinc Hn. pose proof (read_ranges_length _ _ _ Hl) as Hlen. unfold range_test, in_ranges. fold (inside l c).
  destruct (lookup_lt_is_Some_2 l 0%nat) as [[low0 high0] H0]; [lia|]. destruct (lookup_lt_is_Some_2 l (Z.to_nat (n - 1))) as [[low1 high1] H1]; [lia|].
  assert (Hlast : last l = Some (low1, high1)) by (rewrite last_lookup; by replace (pred (length l)) with (Z.to_nat (n - 1)) by lia).
  destruct (read_ranges_lookup _ _ _ _ _ _ Hl H0) as [E0 _]. rewrite Z.mul_0_l, Z.add_0_r in E0. rewrite E0. cbn [mbind option_bind].
  destruct (read_ranges_lookup _ _ _ _ _ _ Hl H1) as [_ E1]. rewrite Z2Nat.id in E1 by lia.
  rewrite (wrap_small 32) by (unfold word; change (2 ^ 32) with 4294967296; lia).
  assert (Hb : forall i r, l !! i = Some r -> low0 <= fst r /\ snd r <= high1).
  { intros i r Hi. pose proof (lookup_lt_Some _ _ _ Hi). split.
    - destruct (decide (i = 0%nat)) as [->|]; [rewrite H0 in Hi; by injection Hi as <-|].
      pose proof (increasing_lookup l Hinc _ _ _ _ H0 Hi ltac:(lia)). pose proof (increasing_range l _ _ Hinc H0). cbn in *. lia.
    - destruct (decide (i = Z.to_nat (n - 1))) as [->|]; [rewrite H1 in Hi; by injection Hi as <-|].
      pose proof (increasing_lookup l Hinc _ _ _ _ Hi H1 ltac:(lia)). pose proof (increasing_range l _ _ Hinc H1). cbn in *. lia. }
  assert (Hout : (c < low0 \/ high1 < c) -> inside l c = false).
  { intros Hc. apply not_true_iff_false. rewrite inside_true. intros (i & r & Hi & Hr). apply Hb in Hi. lia. }
  pose proof (Hb _ _ H1) as Hb1. pose proof (increasing_range l _ _ Hinc H1) as Hr1. cbn [fst snd] in Hb1, Hr1. rewrite Hlast.
  destruct (Z.ltb_spec c low0) as [Hc|Hc].
  - rewrite Hout by lia. f_equal. destruct wide; [done|]. cbn [negb andb orb]. symmetry. apply not_true_iff_false. intros [H2 H3]%andb_true_iff. lia.
  - rewrite E1. cbn [mbind option_bind]. destruct (negb wide && (0xffff <=? c) && (high1 =? 0xffff)) eqn:Einf; [by rewrite orb_true_r|].
    rewrite orb_false_r. destruct (Z.ltb_spec high1 c) as [Hc'|Hc']; [by rewrite Hout by lia|].
    apply (range_search_spec (Z.to_nat n)); try done; try lia.
    + intros r Hr. rewrite H0 in Hr. by injection Hr as <-.
    + intros i r Hi Hii. apply lookup_lt_Some in Hi. lia.
Qed.
End ranges.

(** ** References *)

Section references.
Context (s : Subject).

Lemma ref_forward_follow fuel ic a b p t r : chars s fuel a b = Some t -> follow s false ic t p = Some r -> ref_forward s fuel ic a b p = Some r.
Proof.
  revert a p t r. induction fuel as [|fuel IH]; intros a p t r; cbn [chars ref_forward].
  - case_decide; [done|]. by intros [= <-].
  - case_decide; [|by intros [= <-]]. intros ([c a'] & Ec & (t' & Et & [= <-])%bind_Some)%bind_Some. cbn [follow].
    case_bool_decide as Hp; [rewrite decide_True by done; done|]. rewrite decide_False by done.
    intros ([c2 p'] & Ec2 & (d1 & E1 & (d2 & E2 & H')%bind_Some)%bind_Some)%bind_Some. rewrite Ec. cbn [mbind option_bind].
    rewrite Ec2. cbn [mbind option_bind]. rewrite E1. cbn [mbind option_bind]. rewrite E2. cbn [mbind option_bind].
    destruct (d1 =? d2); cbn [negb]; [by eapply IH|done].
Qed.

Lemma ref_backward_follow fuel ic b a p t r : chars_back s fuel b a = Some t -> follow s true ic t p = Some r -> ref_backward s fuel ic b a p = Some r.
Proof.
  revert b p t r. induction fuel as [|fuel IH]; intros b p t r; cbn [chars_back ref_backward].
  - case_decide; [done|]. by intros [= <-].
  - case_decide; [|by intros [= <-]]. intros ([c b'] & Ec & (t' & Et & [= <-])%bind_Some)%bind_Some. cbn [follow].
    case_bool_decide as Hp; [rewrite decide_True by done; done|]. rewrite decide_False by done.
    intros ([c2 p'] & Ec2 & (d1 & E1 & (d2 & E2 & H')%bind_Some)%bind_Some)%bind_Some. rewrite Ec. cbn [mbind option_bind].
    rewrite Ec2. cbn [mbind option_bind]. rewrite E1. cbn [mbind option_bind]. rewrite E2. cbn [mbind option_bind].
    destruct (d1 =? d2); cbn [negb]; [by eapply IH|done].
Qed.

Lemma back_reference_spec n pos bw ic cap p nums r : read_bytes s n pos = Some nums -> reference s nums bw ic cap p = Some r ->
  back_reference s n pos bw ic cap p = Some r.
Proof.
  revert pos nums. induction n as [|n IH]; intros pos nums; cbn [read_bytes back_reference]; [by intros [= <-]|].
  intros (b & Eb & (l & El & [= <-])%bind_Some)%bind_Some. cbn [reference]. rewrite Eb. cbn [mbind option_bind].
  destruct (capture_count s <=? b); [done|]. intros (x & Ex & (y & Ey & H)%bind_Some)%bind_Some.
  rewrite Ex. cbn [mbind option_bind]. rewrite Ey. cbn [mbind option_bind].
  destruct x as [| |x|x]; [done| | |done]; destruct y as [| |y|y]; try done; [by eapply IH|by eapply IH|by eapply IH|].
  apply bind_Some in H as (t & Et & H). destruct bw; [by eapply ref_backward_follow|by eapply ref_forward_follow].
Qed.
End references.

(** ** Instructions *)

Section step.
Context {W : World} {T : Timeouts} (s : Subject) (Hbytes : bytes (code s)).

(** A bind of the specification is followed by the code. *)
Ltac follow H :=
  let x := fresh "x" in let E := fresh "E" in
  apply bind_Some in H as (x & E & H); cbv beta in H; try rewrite E; cbn [mbind option_bind].

Lemma consume_does test test' next st c K a : rel st c K -> (forall ch b, test' ch = Some b -> test ch = Some b) ->
  one_char s test' next c = Some a -> performs (consume s test next st) a (c_cap c) K.
Proof.
  intros R Ht. unfold one_char, consume. rewrite (rel_pos _ _ _ R). case_decide; [intros [= <-]; by apply no_match_does|].
  intros H'. follow H'. destruct x as [ch p]. follow H'. rewrite (Ht _ _ E0). cbn [mbind option_bind].
  injection H' as <-. destruct x; [|by apply no_match_does]. by apply performs_goto, rel_goto.
Qed.

Lemma require_does b next st c K : rel st c K -> performs (require b next st) (assertion b next c) (c_cap c) K.
Proof. intros R. destruct b; [by apply performs_goto, rel_pc_intro|by apply no_match_does]. Qed.

Lemma char_does wide ic pos st c K a : rel st c K -> a_char s wide ic pos c = Some a -> performs (op_char s wide ic pos st) a (c_cap c) K.
Proof.
  intros R H. unfold a_char, op_char in *. follow H. eapply consume_does; [done| |exact H].
  intros ch b Hb. cbv beta in Hb. destruct (fold_char s ic ch) as [d|]; [|done]. done.
Qed.

Lemma range_does wide ic pos st c K a : rel st c K -> a_range s wide ic pos c = Some a -> performs (op_range s wide ic pos st) a (c_cap c) K.
Proof.
  intros R H. unfold a_range, op_range in *. apply bind_Some in H as (n & E & H). rewrite E. cbn [mbind option_bind].
  apply bind_Some in H as (l & El & H). case_guard as Hg; [|done]. destruct Hg as [Hpos Hinc]. cbn [mret option_ret mbind option_bind] in H.
  eapply consume_does; [done| |exact H]. intros ch b Hb. cbv beta in Hb. destruct (fold_char s ic ch) as [d|]; [|done].
  cbn in Hb |- *. rewrite <- Hb. apply range_test_spec; [done|done|]. apply get_u16_word in E; [lia|done].
Qed.

Lemma save_op_does odd pos st c K a : rel st c K -> a_save s odd pos c = Some a -> performs (op_save s odd pos st) a (c_cap c) K.
Proof.
  intros R H. unfold a_save, op_save in *. follow H. case_guard; [|done]. cbn [mret option_ret mbind option_bind] in *. apply bind_Some in H as (cap & Ec & H); injection H as <-.
  rewrite (rel_pos _ _ _ R). apply performs_does. eapply does_bind; [by eapply save_does|]. intros st' R'. apply does_ret. exact (rel_pc_intro _ _ _ _ R').
Qed.

Lemma at_cap_id c : at_cap (c_cap c) c = c.
Proof. by destruct c. Qed.

Lemma reset_loop_does fuel val val2 st c K cap : rel st c K -> 0 <= val -> val2 + 1 - val <= Z.of_nat fuel -> clear_captures val val2 (c_cap c) = Some cap ->
  does (reset_loop fuel val val2 st) (fun st' => rel st' (at_cap cap c) K).
Proof.
  revert val st c. induction fuel as [|fuel IH]; intros val st c R Hval Hf H; cbn [reset_loop]; unfold clear_captures in H.
  - replace (val <=? val2) with false by lia. replace (Z.to_nat (2 * (val2 + 1 - val))) with 0%nat in H by lia. injection H as <-. apply does_ret. by rewrite at_cap_id.
  - destruct (Z.leb_spec val val2) as [Hle|Hgt].
    + replace (Z.to_nat (2 * (val2 + 1 - val))) with (S (S (Z.to_nat (2 * (val2 + 1 - (val + 1)))))) in H by lia. cbn [seq foldM] in H.
      apply bind_Some in H as (cap1 & E1 & H). apply bind_Some in H as (cap2 & E2 & H).
      eapply does_bind; [by eapply save_does|]. intros st1 R1. replace (Z.to_nat (2 * val + 1)) with (S (Z.to_nat (2 * val))) by lia.
      eapply does_bind; [by eapply (save_does st1 _ K _ _ cap2 R1)|]. intros st2 R2.
      apply (IH (val + 1) st2 _ R2); [lia|lia|]. unfold clear_captures. cbn [c_cap]. by replace (Z.to_nat (2 * (val + 1))) with (S (S (Z.to_nat (2 * val)))) by lia.
    + replace (Z.to_nat (2 * (val2 + 1 - val))) with 0%nat in H by lia. injection H as <-. apply does_ret. by rewrite at_cap_id.
Qed.

Lemma check_stack_does n st c K : rel st c K -> does (CHECK_STACK_SPACE n st) (fun st' => rel st' c K).
Proof.
  intros [R1 R2 R3 (pre & seg & Hs & Hf & Hok & Hr)]. eapply does_mono; [by apply realloc_does|].
  intros st' ((H1 & H2 & H3) & Hbp & Hsp & rest & E & _). split; [congruence..|]. exists pre, seg. split_and!; [by exists rest|done..].
Qed.

Lemma save_reset_does pos st c K a : rel st c K -> a_save_reset s pos c = Some a -> performs (op_save_reset s pos st) a (c_cap c) K.
Proof.
  intros R H. unfold a_save_reset, op_save_reset in *. follow H. follow H. case_guard; [|done]. cbn [mret option_ret mbind option_bind] in *.
  apply bind_Some in H as (cap & Ec & H); injection H as <-. apply performs_does.
  eapply does_bind; [by apply check_stack_does|]. intros st1 R1. pose proof (get_u8_byte _ _ _ Hbytes E). pose proof (get_u8_byte _ _ _ Hbytes E0).
  eapply does_bind; [eapply (reset_loop_does _ x x0 st1 c K cap R1); [lia|lia|done]|]. intros st2 R2. apply does_ret. exact (rel_pc_intro _ _ _ _ R2).
Qed.

Lemma set_does pos size v st c K a k : rel st c K -> a_set s pos size v c = Some a ->
  (forall n, get_u8 (code s) pos = Some n -> k = (st ←! SAVE_CAPTURE_CHECK (register s n) v st; ret (set_pc (pos + size) st))) ->
  performs k a (c_cap c) K.
Proof.
  intros R H Hk. unfold a_set in H. apply bind_Some in H as (n & E & H). rewrite (Hk n E). apply bind_Some in H as (cap & Ec & H); injection H as <-.
  apply performs_does. eapply does_bind; [by eapply save_check_does|]. intros st' R'. apply does_ret. exact (rel_pc_intro _ _ _ _ R').
Qed.

Lemma decrement_does idx st c K n cap : rel st c K -> count_down idx (c_cap c) = Some (n, cap) ->
  does (decrement idx st) (fun '(st', m) => m = n /\ rel st' (at_cap cap c) K).
Proof.
  intros R H. unfold count_down, decrement in *. rewrite (rel_cap _ _ _ R). destruct (c_cap c !! idx) as [[| | |k]|] eqn:E; try done.
  injection H as [= <- <-]. eapply does_bind.
  { eapply (save_check_does st c K idx _ _ R). unfold store. apply lookup_lt_Some in E. by rewrite option_guard_True by done. }
  intros st' R'. by apply does_ret.
Qed.

Lemma loop_does pos st c K a : rel st c K -> a_loop s pos c = Some a -> performs (op_loop s pos st) a (c_cap c) K.
Proof.
  intros R H. unfold a_loop, op_loop in *. follow H. follow H. apply bind_Some in H as ([n cap] & Ec & H); injection H as <-. apply performs_does.
  eapply does_bind; [by eapply decrement_does|]. intros [st' m] [-> R']. destruct (n =? 0) eqn:En; cbn [negb].
  - apply does_ret. exact (rel_pc_intro _ _ _ _ R').
  - apply poll_does. exact (rel_pc_intro _ _ _ _ R').
Qed.

Lemma split_does goto_first next target st c K : rel st c K ->
  performs (split goto_first next target st) (choice goto_first next target (c_pos c) (c_cap c)) (c_cap c) K.
Proof.
  intros R o Ho. unfold split. eapply runs_bind; [eapply push_state_does; exact R|]. intros [e|st1] H1; [by apply runs_ret, failed_agrees|].
  apply runs_ret. apply (rel_pc_intro _ _ _ (if goto_first then target else next)) in H1. destruct goto_first; injection Ho as <-; exact H1.
Qed.

Lemma look_does negative pos st c K a : rel st c K -> a_look s negative pos c = Some a ->
  performs (op_lookahead s (if negative then RE_EXEC_STATE_NEGATIVE_LOOKAHEAD else RE_EXEC_STATE_LOOKAHEAD) pos st) a (c_cap c) K.
Proof.
  intros R H. unfold a_look, op_lookahead in *. follow H. injection H as <-. intros o [= <-].
  eapply runs_bind; [eapply push_state_does; exact R|]. intros [e|st1] H1; [by apply runs_ret, failed_agrees|].
  apply runs_ret. exact (rel_pc_intro _ _ _ _ H1).
Qed.

Lemma performs_cap m a cap cap' K : (a = Reject \/ (exists c, a = Goto c) \/ (exists c1 c2, a = Choose c1 c2)) -> performs m a cap K -> performs m a cap' K.
Proof. intros [->|[[c ->]|(c1 & c2 & ->)]] H o Ho; by apply H. Qed.

Lemma loop_split_does goto_first check_adv pos st c K a : rel st c K -> a_loop_split s goto_first check_adv pos c = Some a ->
  performs (loop_split s goto_first check_adv pos st) a (c_cap c) K.
Proof.
  intros R H. unfold a_loop_split, loop_split in *. follow H. rename x into n, E into En. follow H. rename x into limit, E into El. follow H. rename x into target, E into Et.
  apply bind_Some in H as ([m cap] & Ec & H). eapply performs_bind; [by eapply decrement_does|]. intros [st' m'] [-> R'].
  destruct (limit <? m); [injection H as <-; apply performs_does, poll_does; exact (rel_pc_intro _ _ _ _ R')|].
  apply bind_Some in H as (adv & Ea & H); injection H as <-.
  assert (Ea' : (if check_adv then v ← capture st' !! S (register s n); slot_is v (cptr st') else Some false) = Some adv)
    by (rewrite (rel_cap _ _ _ R'), (rel_pos _ _ _ R'); exact Ea).
  rewrite Ea'. cbn [mbind option_bind]. destruct (adv && negb (m =? limit)).
  { eapply performs_cap; [by left|]. by eapply no_match_does. }
  destruct (m =? 0); cbn [negb].
  - apply performs_goto. exact (rel_pc_intro _ _ _ _ R').
  - eapply performs_cap; [|exact (split_does goto_first (pos + 9) target st' _ K R')]. right; right. destruct goto_first; by eexists _, _.
Qed.

Lemma back_reference_does bw ic pos st c K a : rel st c K -> a_back_reference s bw ic pos c = Some a ->
  performs (op_back_reference s bw ic pos st) a (c_cap c) K.
Proof.
  intros R H. unfold a_back_reference, op_back_reference in *. follow H. apply bind_Some in H as (nums & En & H). apply bind_Some in H as (r & Er & H); injection H as <-.
  rewrite (rel_cap _ _ _ R), (rel_pos _ _ _ R), (back_reference_spec _ _ _ _ _ _ _ _ _ En Er). cbn [mbind option_bind].
  destruct r as [p|]; [|by apply no_match_does]. by apply performs_goto, rel_goto.
Qed.

Lemma word_boundary_does ic is_boundary pos st c K a : rel st c K -> a_word_boundary s ic is_boundary pos c = Some a ->
  performs (op_word_boundary s ic is_boundary pos st) a (c_cap c) K.
Proof.
  intros R H. unfold a_word_boundary, op_word_boundary in *. rewrite (rel_pos _ _ _ R). follow H. follow H. injection H as <-.
  replace (negb (xorb (xorb x x0) is_boundary)) with (bool_decide (is_boundary = negb (bool_decide (x = x0)))) by (by destruct x, x0, is_boundary).
  by apply require_does.
Qed.

Lemma line_start_does multi pos st c K a : rel st c K -> a_line_start s multi pos c = Some a -> performs (op_line_start s multi pos st) a (c_cap c) K.
Proof.
  intros R H. unfold a_line_start, op_line_start in *. rewrite (rel_pos _ _ _ R). case_decide.
  - injection H as <-. by apply (require_does true).
  - destruct multi; cbn [negb]; [|injection H as <-; by apply no_match_does]. follow H. destruct x as [ch ?]. injection H as <-. by apply require_does.
Qed.

Lemma line_end_does multi pos st c K a : rel st c K -> a_line_end s multi pos c = Some a -> performs (op_line_end s multi pos st) a (c_cap c) K.
Proof.
  intros R H. unfold a_line_end, op_line_end in *. rewrite (rel_pos _ _ _ R). case_decide.
  - injection H as <-. by apply (require_does true).
  - destruct multi; cbn [negb]; [|injection H as <-; by apply no_match_does]. follow H. destruct x as [ch ?]. injection H as <-. by apply require_does.
Qed.

Lemma check_advance_does pos st c K a : rel st c K -> a_check_advance s pos c = Some a -> performs (op_check_advance s pos st) a (c_cap c) K.
Proof.
  intros R H. unfold a_check_advance, op_check_advance in *. rewrite (rel_pos _ _ _ R), (rel_cap _ _ _ R). follow H. follow H. follow H. injection H as <-.
  by apply require_does.
Qed.

Lemma prev_does pos st c K a : rel st c K -> a_prev s pos c = Some a -> performs (op_prev s pos st) a (c_cap c) K.
Proof.
  intros R H. unfold a_prev, op_prev in *. rewrite (rel_pos _ _ _ R). case_decide; [injection H as <-; by apply no_match_does|].
  follow H. destruct x as [? p]. injection H as <-. by apply performs_goto, rel_goto.
Qed.
End step.
