(* ===== verification/ReBacktrack.v ===== *)
(** * The executor matches by backtracking

    [lre_exec] runs the machine of [ReSpec] step by step, and the machine explores the tree
    of the choices. *)
From S2P Require Export ReStep.
#[local] Open Scope Z_scope.

Section exec.
Context {W : World} {T : Timeouts} (s : Subject) (Hbytes : bytes (code s)).

(** ** The code and the machine *)

Lemma perform_reg m a c K p : performs m a (c_cap {| c_pc := p; c_pos := c_pos c; c_cap := c_cap c |}) K -> performs m a (c_cap c) K.
Proof. done. Qed.

Lemma step_does st c K a : rel st c K -> instr s c = Some a -> performs (step s st) a (c_cap c) K.
Proof.
  intros R. unfold instr, step. rewrite (rel_pc _ _ _ R). intros (b & Eb & (op & Eo & H)%bind_Some)%bind_Some.
  rewrite Eb. cbn [mbind option_bind]. rewrite Eo. cbn [mbind option_bind]. clear Eo.
  assert (Hj : forall k, a_jump s (c_pc c + 1) k = Some a -> exists t, jump s (c_pc c + 1) = Some t /\ a = k t).
  { intros k. unfold a_jump. intros (t & Et & [= <-])%bind_Some. by exists t. }
  destruct op; try done;
    try (by apply char_does); try (by apply range_does); try (by apply save_op_does); try (by apply loop_split_does);
    try (by apply back_reference_does); try (by apply word_boundary_does); try (by apply line_start_does); try (by apply line_end_does);
    try (eapply consume_does; [done| |exact H]; by intros ? ? ->).
  - apply Hj in H as (t & Et & ->). rewrite Et. cbn [mbind option_bind]. apply performs_does, poll_does. exact (rel_pc_intro _ _ _ _ R).
  - apply Hj in H as (t & Et & ->). rewrite Et. cbn [mbind option_bind]. by apply split_does.
  - apply Hj in H as (t & Et & ->). rewrite Et. cbn [mbind option_bind]. by apply split_does.
  - injection H as <-. intros o [= <-]. apply runs_ret. right. by rewrite (rel_cap _ _ _ R).
  - injection H as <-. intros o Ho. cbn [perform] in Ho. apply bind_Some in Ho as ([next K'] & El & Ho). injection Ho as <-.
    eapply runs_mono; [exact (lookahead_match_does _ _ _ _ _ (rel_pc_intro _ _ _ (c_pc c + 1) R) El)|].
    intros [e|st'] H; [by apply failed_agrees|exact H].
  - injection H as <-. intros o Ho. cbn [perform] in Ho. apply bind_Some in Ho as ([next K'] & El & Ho). injection Ho as <-.
    exact (negative_does _ _ _ _ _ (rel_pc_intro _ _ _ (c_pc c + 1) R) El).
  - by apply save_reset_does.
  - by apply loop_does.
  - apply bind_Some in H as (n & En & H). eapply set_does; [exact R|exact H|]. intros k Ek. unfold op_set_i32. rewrite Ek. cbn [mbind option_bind]. by rewrite En.
  - by apply (look_does s false).
  - by apply (look_does s true).
  - eapply set_does; [exact R|exact H|]. intros k Ek. unfold op_set_char_pos. rewrite Ek. cbn [mbind option_bind]. by rewrite (rel_pos _ _ _ R).
  - by apply check_advance_does.
  - by apply prev_does.
Qed.

Lemma exec_does n st c K o : rel st c K -> steps s n c K = Some o -> runs (lre_exec_backtrack s n st) (fun r => agrees r o).
Proof.
  revert st c K. induction n as [|n IH]; intros st c K R; cbn [steps lre_exec_backtrack]; [intros [= <-]; by apply runs_ret|].
  unfold machine. intros (p & (a & Ea & Hp)%bind_Some & H)%bind_Some. eapply runs_bind; [exact (step_does st c K a R Ea p Hp)|].
  intros [e|st'] Hag; destruct p as [r|c' K']; try done.
  - injection H as <-. by apply runs_ret.
  - apply runs_ret. by apply failed_agrees.
  - by apply (IH st' c' K').
Qed.
End exec.

(** ** The machine and the tree *)

Section tree.
Context (s : Subject).

Lemma steps_add n m c K : steps s (n + m) c K =
  r ← steps s n c K; match r with Stop r => Some (Stop r) | Continue c K => steps s m c K end.
Proof.
  revert c K. induction n as [|n IH]; intros c K; [done|]. cbn [Nat.add steps]. destruct (machine s c K) as [[r|c' K']|]; [done| |done].
  cbn [mbind option_bind]. apply IH.
Qed.

Lemma steps_stop n m c K r : steps s n c K = Some (Stop r) -> (n <= m)%nat -> steps s m c K = Some (Stop r).
Proof. intros H Hm. replace m with (n + (m - n))%nat by lia. by rewrite steps_add, H. Qed.

Lemma steps_defined n m c K r : steps s n c K = Some (Stop r) -> steps s m c K <> None.
Proof.
  intros H Hm. destruct (Nat.le_ge_cases n m) as [Hle|Hle]; [by rewrite (steps_stop n m c K r) in Hm|].
  replace n with (m + (n - m))%nat in H by lia. by rewrite steps_add, Hm in H.
Qed.

(** What the machine does when the exploration of the first choice has ended. *)
Definition finish (o : Outcome) (K : list Choice) : option Progress :=
  match o with
  | Matched cap => Some (Stop (Some cap))
  | Unmatched => Some (resume K)
  | AtLookahead cap => perform EndLookahead cap K
  | AtNegative => perform EndNegative [] K
  end.

Lemma steps_S n c K a : instr s c = Some a -> steps s (S n) c K =
  r ← perform a (c_cap c) K; match r with Stop r => Some (Stop r) | Continue c K => steps s n c K end.
Proof. intros H. cbn [steps]. unfold machine. by rewrite H. Qed.

Lemma steps_then n m c K c' K' p : steps s n c K = Some (Continue c' K') -> steps s m c' K' = p -> steps s (n + m) c K = p.
Proof. intros H1 H2. by rewrite steps_add, H1. Qed.

Lemma finish_skip t c2 o K : o <> Unmatched -> (t = RE_EXEC_STATE_LOOKAHEAD -> forall cap, o <> AtLookahead cap) ->
  (t = RE_EXEC_STATE_NEGATIVE_LOOKAHEAD -> o <> AtNegative) -> finish o ({| ch_type := t; ch_config := c2 |} :: K) = finish o K.
Proof.
  intros H1 H2 H3. destruct o as [cap| |cap|]; [done|done| |]; cbn [finish perform leave ch_type].
  - rewrite decide_False; [done|]. intros ->. by eapply H2.
  - rewrite decide_False; [done|]. intros ->. by apply H3.
Qed.

Lemma run_steps c o : run s c o -> forall K, exists n, steps s n c K = finish o K.
Proof.
  induction 1 as [c E|c E|c E|c E|c c' o E R IH|c c1 c2 o E R IH Ho|c c1 c2 o E R1 IH1 R2 IH2|c body next cap o E R1 IH1 R2 IH2
    |c body next E R IH|c body next o E R1 IH1 R2 IH2|c body next E R IH|c body next cap E R IH|c body next E R IH|c negative body next cap E R IH];
    intros K; try (exists 1%nat; rewrite (steps_S _ _ _ _ E); reflexivity).
  - exists 1%nat. rewrite (steps_S _ _ _ _ E). cbn [perform finish]. by destruct (resume K).
  - exists 1%nat. rewrite (steps_S _ _ _ _ E). cbn [perform finish]. by destruct (leave _ K) as [[]|].
  - exists 1%nat. rewrite (steps_S _ _ _ _ E). cbn [perform finish]. destruct (leave _ K) as [[? K']|]; [|done]. cbn. by destruct (resume K').
  - destruct (IH K) as (n & En). exists (S n). by rewrite (steps_S _ _ _ _ E).
  - destruct (IH ({| ch_type := RE_EXEC_STATE_SPLIT; ch_config := c2 |} :: K)) as (n & En). exists (S n). rewrite (steps_S _ _ _ _ E).
    cbn [perform mbind option_bind]. rewrite En. by apply finish_skip.
  - destruct (IH1 ({| ch_type := RE_EXEC_STATE_SPLIT; ch_config := c2 |} :: K)) as (n & En). destruct (IH2 K) as (m & Em).
    exists (S (n + m)). rewrite (steps_S _ _ _ _ E). cbn [perform mbind option_bind]. by apply (steps_then _ _ _ _ c2 K).
  - destruct (IH1 ({| ch_type := RE_EXEC_STATE_LOOKAHEAD; ch_config := next |} :: K)) as (n & En). destruct (IH2 K) as (m & Em).
    exists (S (n + m)). rewrite (steps_S _ _ _ _ E). cbn [perform mbind option_bind]. by apply (steps_then _ _ _ _ (at_cap cap next) K).
  - destruct (IH ({| ch_type := RE_EXEC_STATE_LOOKAHEAD; ch_config := next |} :: K)) as (n & En). exists (S n). by rewrite (steps_S _ _ _ _ E).
  - destruct (IH1 ({| ch_type := RE_EXEC_STATE_NEGATIVE_LOOKAHEAD; ch_config := next |} :: K)) as (n & En). destruct (IH2 K) as (m & Em).
    exists (S (n + m)). rewrite (steps_S _ _ _ _ E). cbn [perform mbind option_bind]. by apply (steps_then _ _ _ _ next K).
  - destruct (IH ({| ch_type := RE_EXEC_STATE_NEGATIVE_LOOKAHEAD; ch_config := next |} :: K)) as (n & En). exists (S n). by rewrite (steps_S _ _ _ _ E).
  - destruct (IH ({| ch_type := RE_EXEC_STATE_NEGATIVE_LOOKAHEAD; ch_config := next |} :: K)) as (n & En). exists (S n).
    rewrite (steps_S _ _ _ _ E). cbn [perform mbind option_bind]. rewrite En. by apply finish_skip.
  - destruct (IH ({| ch_type := RE_EXEC_STATE_LOOKAHEAD; ch_config := next |} :: K)) as (n & En). exists (S n).
    rewrite (steps_S _ _ _ _ E). cbn [perform mbind option_bind]. rewrite En. by apply finish_skip.
  - destruct (IH ({| ch_type := if negative then RE_EXEC_STATE_NEGATIVE_LOOKAHEAD else RE_EXEC_STATE_LOOKAHEAD; ch_config := next |} :: K)) as (n & En).
    exists (S n). by rewrite (steps_S _ _ _ _ E).
Qed.

(** When the first choice ended in [c'], the rest of the steps starts there. *)
Lemma stop_after n m c K r c' K' : steps s n c K = Some (Stop r) -> steps s m c K = Some (Continue c' K') ->
  exists k, (k <= n)%nat /\ steps s k c' K' = Some (Stop r).
Proof.
  intros H1 H2. destruct (Nat.le_ge_cases n m) as [Hle|Hle]; [by rewrite (steps_stop n m c K r H1 Hle) in H2|].
  exists (n - m)%nat. split; [lia|]. replace n with (m + (n - m))%nat in H1 by lia. by rewrite steps_add, H2 in H1.
Qed.

Lemma stop_runs n : forall c K r, steps s n c K = Some (Stop r) -> exists o, run s c o.
Proof.
  induction n as [n IH] using lt_wf_ind. intros c K r H. destruct n as [|n]; [done|].
  destruct (instr s c) as [a|] eqn:E; [|by cbn [steps] in H; unfold machine in H; rewrite E in H].
  rewrite (steps_S _ _ _ _ E) in H. destruct a as [| | | |c'|c1 c2|negative body next]; try (eexists; by constructor).
  - destruct (IH n ltac:(lia) _ _ _ H) as (o & R). exists o. by eapply run_goto.
  - destruct (IH n ltac:(lia) _ _ _ H) as (o & R). destruct (run_steps _ _ R ({| ch_type := RE_EXEC_STATE_SPLIT; ch_config := c2 |} :: K)) as (m & Em).
    assert (Hd : o = Unmatched \/ o <> Unmatched) by (destruct o; by auto). destruct Hd as [->|Hd]; [|exists o; by eapply run_first].
    destruct (stop_after n m _ _ r c2 K H Em) as (k & Hk & H'). destruct (IH k ltac:(lia) _ _ _ H') as (o & R'). exists o. by eapply run_second.
  - destruct (IH n ltac:(lia) _ _ _ H) as (o & R). set (t := if negative then RE_EXEC_STATE_NEGATIVE_LOOKAHEAD else RE_EXEC_STATE_LOOKAHEAD) in *.
    destruct (run_steps _ _ R ({| ch_type := t; ch_config := next |} :: K)) as (m & Em). destruct o as [cap| |cap|].
    + eexists. by eapply run_leave_match.
    + destruct negative; [|eexists; by eapply run_not_ahead].
      destruct (stop_after n m _ _ r next K H Em) as (k & Hk & H'). destruct (IH k ltac:(lia) _ _ _ H') as (o & R'). exists o. by eapply run_negative.
    + destruct negative; [eexists; by eapply run_leave|].
      destruct (stop_after n m _ _ r (at_cap cap next) K H Em) as (k & Hk & H'). destruct (IH k ltac:(lia) _ _ _ H') as (o & R'). exists o. by eapply run_ahead.
    + destruct negative; [eexists; by eapply run_refuted|eexists; by eapply run_leave_negative].
Qed.

(** The result of a whole execution. *)
Definition result (o : Outcome) : option (option (list Slot)) :=
  match o with Matched cap => Some (Some cap) | Unmatched => Some None | _ => None end.

Lemma finish_nil o : finish o [] = Stop <$> result o.
Proof. by destruct o. Qed.

Lemma run_result c o r : run s c o -> result o = Some r -> exists n, steps s n c [] = Some (Stop r).
Proof. intros R Hr. destruct (run_steps c o R []) as (n & E). exists n. by rewrite E, finish_nil, Hr. Qed.

Lemma stop_result n c r : steps s n c [] = Some (Stop r) -> exists o, run s c o /\ result o = Some r.
Proof.
  intros H. destruct (stop_runs n c [] r H) as (o & R). exists o. split; [done|]. destruct (run_steps c o R []) as (m & E).
  rewrite finish_nil in E. destruct (result o) as [r'|] eqn:Er.
  - cbn in E. apply (steps_stop _ (n + m)) in H, E; [congruence|lia|lia].
  - by destruct (steps_defined n m c [] r H).
Qed.
End tree.

(** ** The result of [lre_exec] *)

(** The value returned and the captures, for a match or none. *)
Definition answers (e : Z * list Slot) (r : option (list Slot)) : Prop :=
  match r with Some cap => e = (1, cap) | None => fst e = 0 end.

Section result.
Context {W : World} {T : Timeouts} (caps : list Slot) (bc_buf buf : list Z) (cindex : nat) (type : Z) (s : Subject) (st : State).
Hypothesis Hbytes : bytes bc_buf.
Hypothesis Hinit : lre_exec_init caps bc_buf buf cindex type = Some (s, st).

Definition start (st : State) : Config := {| c_pc := 0; c_pos := cptr st; c_cap := capture st |}.

Lemma init_rel : rel st (start st) [] /\ bytes (code s).
Proof using Hbytes Hinit.
  clear W T. revert Hinit. unfold lre_exec_init. intros (fl & _ & (count & _ & H)%bind_Some)%bind_Some. cbv zeta in H.
  apply bind_Some in H as (? & _ & H). apply bind_Some in H as (? & _ & H). apply bind_Some in H as (p & _ & H). injection H as [= <- <-].
  split; [|by apply Forall_drop]. split; [done..|]. exists [], []. split_and!; [|constructor|constructor|done].
  by exists (replicate 32 Raw).
Qed.

Lemma exec_answers n o r : run s (start st) o -> result o = Some r -> steps s n (start st) [] = Some (Stop r) ->
  exists e, lre_exec n caps bc_buf buf cindex type = Some (inl e) /\ (failed e \/ answers e r).
Proof using Hbytes Hinit.
  intros R Hr H. destruct init_rel as [R0 Hb]. unfold lre_exec. rewrite Hinit. cbn [mbind option_bind].
  destruct (exec_does s Hb n st _ [] _ R0 H) as ([e|st'] & E & Hag); [|by destruct r].
  exists e. split; [done|]. destruct r as [cap|]; destruct Hag; auto.
Qed.

Lemma exec_safe n : (forall n, steps s n (start st) [] <> None) -> exists x, lre_exec n caps bc_buf buf cindex type = Some x /\
  forall e, x = inl e -> failed e \/ exists o r, run s (start st) o /\ result o = Some r /\ answers e r.
Proof using Hbytes Hinit.
  intros Hsafe. destruct init_rel as [R0 Hb]. unfold lre_exec. rewrite Hinit. cbn [mbind option_bind].
  destruct (steps s n (start st) []) as [p|] eqn:H; [|by destruct (Hsafe n)].
  destruct (exec_does s Hb n st _ [] _ R0 H) as (x & E & Hag). exists x. split; [done|]. intros e ->.
  destruct p as [r|c K]; [|by left]. destruct (stop_result s n (start st) r H) as (o & R & Hr).
  destruct r as [cap|]; destruct Hag; (by left) || (right; by exists o; eexists).
Qed.
End result.

(** C5: [lre_exec] explores the choices of a regular expression depth first, in order of
    preference, with lookaheads, counters, captures and back references: its stack of saved
    positions and of undone captures behaves as if every choice kept captures of its own.
    When the exploration ends with a match or without, [lre_exec] returns it, unless the
    memory or the time are missing; and if no execution of the choices is undefined,
    [lre_exec] never is, and returns nothing else. *)
Theorem lre_exec_backtracking {W : World} {T : Timeouts} caps bc_buf buf cindex type s st : bytes bc_buf ->
  lre_exec_init caps bc_buf buf cindex type = Some (s, st) ->
  (forall o r, run s (start st) o -> result o = Some r ->
    exists n e, lre_exec n caps bc_buf buf cindex type = Some (inl e) /\ (failed e \/ answers e r)) /\
  ((forall n, steps s n (start st) [] <> None) -> forall n, exists x, lre_exec n caps bc_buf buf cindex type = Some x /\
    forall e, x = inl e -> failed e \/ exists o r, run s (start st) o /\ result o = Some r /\ answers e r).
Proof.
  intros Hb Hi. split; [|intros Hs n; by eapply exec_safe]. intros o r R Hr.
  destruct (run_result s _ _ _ R Hr) as (n & E). exists n. by eapply exec_answers.
Qed.

#[local] Instance healthy : World := fun _ => true.
#[local] Instance patient : Timeouts := fun _ => false.

(** [/(a|b)*c/] on "abac". *)
Definition sample_code : list Z := [
  0; 0; 2; 0; 38; 0; 0; 0;
  19; 0; 15; 25; 0; 0; 0; 19; 1; 15; 8; 0; 0; 0; 1; 97; 0; 13; 3; 0; 0; 0; 1; 98; 0; 20; 1; 13; 226; 255; 255; 255; 1; 99; 0; 20; 0; 16].
Definition sample_caps : list Slot := replicate 4 Undef.

Example sample_match : lre_exec 100 sample_caps sample_code [97; 98; 97; 99] 0 0 = Some (inl (1, [Pos 0; Pos 4; Pos 2; Pos 3])).
Proof. vm_compute. reflexivity. Qed.
Example sample_no_match : fst <$> (lre_exec 200 sample_caps sample_code [97; 98; 97; 100] 0 0 ≫= fun x => match x with inl e => Some e | _ => None end) = Some 0.
Proof. vm_compute. reflexivity. Qed.

(** [/(?=(a+))a*b\1/] on "baaabac": the lookahead takes one letter where "aba" matches. *)
Definition ahead_code : list Z := [
  0; 0; 2; 0; 53; 0; 0; 0;
  14; 6; 0; 0; 0; 6; 13; 245; 255; 255; 255;
  19; 0; 40; 13; 0; 0; 0; 19; 1; 1; 97; 0; 14; 248; 255; 255; 255; 20; 1; 17;
  15; 8; 0; 0; 0; 1; 97; 0; 13; 243; 255; 255; 255; 1; 98; 0; 32; 1; 1; 20; 0; 16].
Definition ahead_text : list Z := [98; 97; 97; 97; 98; 97; 99].

Example ahead_match : lre_exec 200 sample_caps ahead_code ahead_text 0 0 = Some (inl (1, [Pos 3; Pos 6; Pos 3; Pos 4])).
Proof. vm_compute. reflexivity. Qed.

Lemma lre_exec_backtracking_witness :
  exists n e, lre_exec n sample_caps ahead_code ahead_text 0 0 = Some (inl e) /\ (failed e \/ answers e (Some [Pos 3; Pos 6; Pos 3; Pos 4])).
Proof.
  edestruct (lre_exec_backtracking sample_caps ahead_code ahead_text 0 0) as [H _];
    [repeat constructor; unfold byte, word; lia|vm_compute; reflexivity|].
  match type of H with forall o r, run ?s ?c o -> _ =>
    assert (E : steps s 200 c [] = Some (Stop (Some [Pos 3; Pos 6; Pos 3; Pos 4]))) by (vm_compute; reflexivity) end.
  destruct (stop_result _ _ _ _ E) as (o & R & Hr). exact (H o _ R Hr).
Defined.
