(* ===== verification/Opcodes.v ===== *)
(** * The opcodes

    The table of [src/quickjs/quickjs-opcode.h] as [src/quickjs/quickjs.c] reads it: the
    enumeration of the opcodes, where the short ones have the numbers of the temporary
    ones, and [short_opcode_info]. *)
From stdpp Require Import strings.
From S2P Require Export Prelude.
#[local] Open Scope Z_scope.

(** [OPCodeFormat] *)
Inductive OPCodeFormat :=
| OP_FMT_none | OP_FMT_none_int | OP_FMT_none_loc | OP_FMT_none_arg | OP_FMT_none_var_ref
| OP_FMT_u8 | OP_FMT_i8 | OP_FMT_loc8 | OP_FMT_const8 | OP_FMT_label8 | OP_FMT_u16
| OP_FMT_i16 | OP_FMT_label16 | OP_FMT_npop | OP_FMT_npopx | OP_FMT_npop_u16 | OP_FMT_loc
| OP_FMT_arg | OP_FMT_var_ref | OP_FMT_u32 | OP_FMT_i32 | OP_FMT_const | OP_FMT_label
| OP_FMT_atom | OP_FMT_atom_u8 | OP_FMT_atom_u16 | OP_FMT_atom_label_u8
| OP_FMT_atom_label_u16 | OP_FMT_label_u16.

Record JSOpCode := DEF { op_name : string; op_size : Z; n_pop : Z; n_push : Z; op_fmt : OPCodeFormat }.

(** The opcodes of the final bytecode: values, calls, variables and control. *)
Definition value_opcodes : list JSOpCode := [
  DEF "invalid" 1 0 0 OP_FMT_none;
  DEF "push_i32" 5 0 1 OP_FMT_i32;
  DEF "push_const" 5 0 1 OP_FMT_const;
  DEF "fclosure" 5 0 1 OP_FMT_const;
  DEF "push_atom_value" 5 0 1 OP_FMT_atom;
  DEF "private_symbol" 5 0 1 OP_FMT_atom;
  DEF "undefined" 1 0 1 OP_FMT_none;
  DEF "null" 1 0 1 OP_FMT_none;
  DEF "push_this" 1 0 1 OP_FMT_none;
  DEF "push_false" 1 0 1 OP_FMT_none;
  DEF "push_true" 1 0 1 OP_FMT_none;
  DEF "object" 1 0 1 OP_FMT_none;
  DEF "special_object" 2 0 1 OP_FMT_u8;
  DEF "rest" 3 0 1 OP_FMT_u16;
  DEF "drop" 1 1 0 OP_FMT_none;
  DEF "nip" 1 2 1 OP_FMT_none;
  DEF "nip1" 1 3 2 OP_FMT_none;
  DEF "dup" 1 1 2 OP_FMT_none;
  DEF "dup1" 1 2 3 OP_FMT_none;
  DEF "dup2" 1 2 4 OP_FMT_none;
  DEF "dup3" 1 3 6 OP_FMT_none;
  DEF "insert2" 1 2 3 OP_FMT_none;
  DEF "insert3" 1 3 4 OP_FMT_none;
  DEF "insert4" 1 4 5 OP_FMT_none;
  DEF "perm3" 1 3 3 OP_FMT_none;
  DEF "perm4" 1 4 4 OP_FMT_none;
  DEF "perm5" 1 5 5 OP_FMT_none;
  DEF "swap" 1 2 2 OP_FMT_none;
  DEF "swap2" 1 4 4 OP_FMT_none;
  DEF "rot3l" 1 3 3 OP_FMT_none;
  DEF "rot3r" 1 3 3 OP_FMT_none;
  DEF "rot4l" 1 4 4 OP_FMT_none;
  DEF "rot5l" 1 5 5 OP_FMT_none;
  DEF "call_constructor" 3 2 1 OP_FMT_npop;
  DEF "call" 3 1 1 OP_FMT_npop;
  DEF "tail_call" 3 1 0 OP_FMT_npop;
  DEF "call_method" 3 2 1 OP_FMT_npop;
  DEF "tail_call_method" 3 2 0 OP_FMT_npop;
  DEF "array_from" 3 0 1 OP_FMT_npop;
  DEF "apply" 3 3 1 OP_FMT_u16;
  DEF "return" 1 1 0 OP_FMT_none;
  DEF "return_undef" 1 0 0 OP_FMT_none;
  DEF "check_ctor_return" 1 1 2 OP_FMT_none;
  DEF "check_ctor" 1 0 0 OP_FMT_none;
  DEF "init_ctor" 1 0 1 OP_FMT_none;
  DEF "check_brand" 1 2 2 OP_FMT_none;
  DEF "add_brand" 1 2 0 OP_FMT_none;
  DEF "return_async" 1 1 0 OP_FMT_none;
  DEF "throw" 1 1 0 OP_FMT_none;
  DEF "throw_error" 6 0 0 OP_FMT_atom_u8;
  DEF "eval" 5 1 1 OP_FMT_npop_u16;
  DEF "apply_eval" 3 2 1 OP_FMT_u16;
  DEF "regexp" 1 2 1 OP_FMT_none;
  DEF "get_super" 1 1 1 OP_FMT_none;
  DEF "import" 1 2 1 OP_FMT_none;
  DEF "get_var_undef" 3 0 1 OP_FMT_var_ref;
  DEF "get_var" 3 0 1 OP_FMT_var_ref;
  DEF "put_var" 3 1 0 OP_FMT_var_ref;
  DEF "put_var_init" 3 1 0 OP_FMT_var_ref;
  DEF "get_ref_value" 1 2 3 OP_FMT_none;
  DEF "put_ref_value" 1 3 0 OP_FMT_none;
  DEF "get_field" 5 1 1 OP_FMT_atom;
  DEF "get_field2" 5 1 2 OP_FMT_atom;
  DEF "put_field" 5 2 0 OP_FMT_atom;
  DEF "get_private_field" 1 2 1 OP_FMT_none;
  DEF "put_private_field" 1 3 0 OP_FMT_none;
  DEF "define_private_field" 1 3 1 OP_FMT_none;
  DEF "get_array_el" 1 2 1 OP_FMT_none;
  DEF "get_array_el2" 1 2 2 OP_FMT_none;
  DEF "get_array_el3" 1 2 3 OP_FMT_none;
  DEF "put_array_el" 1 3 0 OP_FMT_none;
  DEF "get_super_value" 1 3 1 OP_FMT_none;
  DEF "put_super_value" 1 4 0 OP_FMT_none;
  DEF "define_field" 5 2 1 OP_FMT_atom;
  DEF "set_name" 5 1 1 OP_FMT_atom;
  DEF "set_name_computed" 1 2 2 OP_FMT_none;
  DEF "set_proto" 1 2 1 OP_FMT_none;
  DEF "set_home_object" 1 2 2 OP_FMT_none;
  DEF "define_array_el" 1 3 2 OP_FMT_none;
  DEF "append" 1 3 2 OP_FMT_none;
  DEF "copy_data_properties" 2 3 3 OP_FMT_u8;
  DEF "define_method" 6 2 1 OP_FMT_atom_u8;
  DEF "define_method_computed" 2 3 1 OP_FMT_u8;
  DEF "define_class" 6 2 2 OP_FMT_atom_u8;
  DEF "define_class_computed" 6 3 3 OP_FMT_atom_u8;
  DEF "get_loc" 3 0 1 OP_FMT_loc;
  DEF "put_loc" 3 1 0 OP_FMT_loc;
  DEF "set_loc" 3 1 1 OP_FMT_loc;
  DEF "get_arg" 3 0 1 OP_FMT_arg;
  DEF "put_arg" 3 1 0 OP_FMT_arg;
  DEF "set_arg" 3 1 1 OP_FMT_arg;
  DEF "get_var_ref" 3 0 1 OP_FMT_var_ref;
  DEF "put_var_ref" 3 1 0 OP_FMT_var_ref;
  DEF "set_var_ref" 3 1 1 OP_FMT_var_ref;
  DEF "set_loc_uninitialized" 3 0 0 OP_FMT_loc;
  DEF "get_loc_check" 3 0 1 OP_FMT_loc;
  DEF "put_loc_check" 3 1 0 OP_FMT_loc;
  DEF "set_loc_check" 3 1 1 OP_FMT_loc;
  DEF "put_loc_check_init" 3 1 0 OP_FMT_loc;
  DEF "get_loc_checkthis" 3 0 1 OP_FMT_loc;
  DEF "get_var_ref_check" 3 0 1 OP_FMT_var_ref;
  DEF "put_var_ref_check" 3 1 0 OP_FMT_var_ref;
  DEF "put_var_ref_check_init" 3 1 0 OP_FMT_var_ref;
  DEF "close_loc" 3 0 0 OP_FMT_loc;
  DEF "if_false" 5 1 0 OP_FMT_label;
  DEF "if_true" 5 1 0 OP_FMT_label;
  DEF "goto" 5 0 0 OP_FMT_label;
  DEF "catch" 5 0 1 OP_FMT_label;
  DEF "gosub" 5 0 0 OP_FMT_label;
  DEF "ret" 1 1 0 OP_FMT_none;
  DEF "nip_catch" 1 2 1 OP_FMT_none;
  DEF "to_object" 1 1 1 OP_FMT_none;
  DEF "to_propkey" 1 1 1 OP_FMT_none;
  DEF "with_get_var" 10 1 0 OP_FMT_atom_label_u8;
  DEF "with_put_var" 10 2 1 OP_FMT_atom_label_u8;
  DEF "with_delete_var" 10 1 0 OP_FMT_atom_label_u8;
  DEF "with_make_ref" 10 1 0 OP_FMT_atom_label_u8;
  DEF "with_get_ref" 10 1 0 OP_FMT_atom_label_u8;
  DEF "make_loc_ref" 7 0 2 OP_FMT_atom_u16;
  DEF "make_arg_ref" 7 0 2 OP_FMT_atom_u16;
  DEF "make_var_ref_ref" 7 0 2 OP_FMT_atom_u16;
  DEF "make_var_ref" 5 0 2 OP_FMT_atom;
  DEF "for_in_start" 1 1 1 OP_FMT_none;
  DEF "for_of_start" 1 1 3 OP_FMT_none;
  DEF "for_await_of_start" 1 1 3 OP_FMT_none;
  DEF "for_in_next" 1 1 3 OP_FMT_none;
  DEF "for_of_next" 2 3 5 OP_FMT_u8;
  DEF "for_await_of_next" 1 3 4 OP_FMT_none;
  DEF "iterator_check_object" 1 1 1 OP_FMT_none;
  DEF "iterator_get_value_done" 1 2 3 OP_FMT_none;
  DEF "iterator_close" 1 3 0 OP_FMT_none;
  DEF "iterator_next" 1 4 4 OP_FMT_none;
  DEF "iterator_call" 2 4 5 OP_FMT_u8;
  DEF "initial_yield" 1 0 0 OP_FMT_none;
  DEF "yield" 1 1 2 OP_FMT_none;
  DEF "yield_star" 1 1 2 OP_FMT_none;
  DEF "async_yield_star" 1 1 2 OP_FMT_none;
  DEF "await" 1 1 1 OP_FMT_none
].

(** The arithmetic and logic operations. *)
Definition arithmetic_opcodes : list JSOpCode := [
  DEF "neg" 1 1 1 OP_FMT_none;
  DEF "plus" 1 1 1 OP_FMT_none;
  DEF "dec" 1 1 1 OP_FMT_none;
  DEF "inc" 1 1 1 OP_FMT_none;
  DEF "post_dec" 1 1 2 OP_FMT_none;
  DEF "post_inc" 1 1 2 OP_FMT_none;
  DEF "dec_loc" 2 0 0 OP_FMT_loc8;
  DEF "inc_loc" 2 0 0 OP_FMT_loc8;
  DEF "add_loc" 2 1 0 OP_FMT_loc8;
  DEF "not" 1 1 1 OP_FMT_none;
  DEF "lnot" 1 1 1 OP_FMT_none;
  DEF "typeof" 1 1 1 OP_FMT_none;
  DEF "delete" 1 2 1 OP_FMT_none;
  DEF "delete_var" 5 0 1 OP_FMT_atom;
  DEF "mul" 1 2 1 OP_FMT_none;
  DEF "div" 1 2 1 OP_FMT_none;
  DEF "mod" 1 2 1 OP_FMT_none;
  DEF "add" 1 2 1 OP_FMT_none;
  DEF "sub" 1 2 1 OP_FMT_none;
  DEF "pow" 1 2 1 OP_FMT_none;
  DEF "shl" 1 2 1 OP_FMT_none;
  DEF "sar" 1 2 1 OP_FMT_none;
  DEF "shr" 1 2 1 OP_FMT_none;
  DEF "lt" 1 2 1 OP_FMT_none;
  DEF "lte" 1 2 1 OP_FMT_none;
  DEF "gt" 1 2 1 OP_FMT_none;
  DEF "gte" 1 2 1 OP_FMT_none;
  DEF "instanceof" 1 2 1 OP_FMT_none;
  DEF "in" 1 2 1 OP_FMT_none;
  DEF "eq" 1 2 1 OP_FMT_none;
  DEF "neq" 1 2 1 OP_FMT_none;
  DEF "strict_eq" 1 2 1 OP_FMT_none;
  DEF "strict_neq" 1 2 1 OP_FMT_none;
  DEF "and" 1 2 1 OP_FMT_none;
  DEF "xor" 1 2 1 OP_FMT_none;
  DEF "or" 1 2 1 OP_FMT_none;
  DEF "is_undefined_or_null" 1 1 1 OP_FMT_none;
  DEF "private_in" 1 2 1 OP_FMT_none;
  DEF "push_bigint_i32" 5 0 1 OP_FMT_i32;
  DEF "nop" 1 0 0 OP_FMT_none
].

Definition base_opcodes : list JSOpCode := (value_opcodes ++ arithmetic_opcodes)%list.

(** The temporary opcodes, of the first phases. *)
Definition temp_opcodes : list JSOpCode := [
  DEF "enter_scope" 3 0 0 OP_FMT_u16;
  DEF "leave_scope" 3 0 0 OP_FMT_u16;
  DEF "label" 5 0 0 OP_FMT_label;
  DEF "scope_get_var_undef" 7 0 1 OP_FMT_atom_u16;
  DEF "scope_get_var" 7 0 1 OP_FMT_atom_u16;
  DEF "scope_put_var" 7 1 0 OP_FMT_atom_u16;
  DEF "scope_delete_var" 7 0 1 OP_FMT_atom_u16;
  DEF "scope_make_ref" 11 0 2 OP_FMT_atom_label_u16;
  DEF "scope_get_ref" 7 0 2 OP_FMT_atom_u16;
  DEF "scope_put_var_init" 7 0 2 OP_FMT_atom_u16;
  DEF "scope_get_var_checkthis" 7 0 1 OP_FMT_atom_u16;
  DEF "scope_get_private_field" 7 1 1 OP_FMT_atom_u16;
  DEF "scope_get_private_field2" 7 1 2 OP_FMT_atom_u16;
  DEF "scope_put_private_field" 7 2 0 OP_FMT_atom_u16;
  DEF "scope_in_private_field" 7 1 1 OP_FMT_atom_u16;
  DEF "get_field_opt_chain" 5 1 1 OP_FMT_atom;
  DEF "get_array_el_opt_chain" 1 2 1 OP_FMT_none;
  DEF "set_class_name" 5 1 1 OP_FMT_u32;
  DEF "line_num" 5 0 0 OP_FMT_u32
].

(** The short opcodes, of the last phase. *)
Definition short_opcodes : list JSOpCode := [
  DEF "push_minus1" 1 0 1 OP_FMT_none_int;
  DEF "push_0" 1 0 1 OP_FMT_none_int;
  DEF "push_1" 1 0 1 OP_FMT_none_int;
  DEF "push_2" 1 0 1 OP_FMT_none_int;
  DEF "push_3" 1 0 1 OP_FMT_none_int;
  DEF "push_4" 1 0 1 OP_FMT_none_int;
  DEF "push_5" 1 0 1 OP_FMT_none_int;
  DEF "push_6" 1 0 1 OP_FMT_none_int;
  DEF "push_7" 1 0 1 OP_FMT_none_int;
  DEF "push_i8" 2 0 1 OP_FMT_i8;
  DEF "push_i16" 3 0 1 OP_FMT_i16;
  DEF "push_const8" 2 0 1 OP_FMT_const8;
  DEF "fclosure8" 2 0 1 OP_FMT_const8;
  DEF "push_empty_string" 1 0 1 OP_FMT_none;
  DEF "get_loc8" 2 0 1 OP_FMT_loc8;
  DEF "put_loc8" 2 1 0 OP_FMT_loc8;
  DEF "set_loc8" 2 1 1 OP_FMT_loc8;
  DEF "get_loc0" 1 0 1 OP_FMT_none_loc;
  DEF "get_loc1" 1 0 1 OP_FMT_none_loc;
  DEF "get_loc2" 1 0 1 OP_FMT_none_loc;
  DEF "get_loc3" 1 0 1 OP_FMT_none_loc;
  DEF "put_loc0" 1 1 0 OP_FMT_none_loc;
  DEF "put_loc1" 1 1 0 OP_FMT_none_loc;
  DEF "put_loc2" 1 1 0 OP_FMT_none_loc;
  DEF "put_loc3" 1 1 0 OP_FMT_none_loc;
  DEF "set_loc0" 1 1 1 OP_FMT_none_loc;
  DEF "set_loc1" 1 1 1 OP_FMT_none_loc;
  DEF "set_loc2" 1 1 1 OP_FMT_none_loc;
  DEF "set_loc3" 1 1 1 OP_FMT_none_loc;
  DEF "get_arg0" 1 0 1 OP_FMT_none_arg;
  DEF "get_arg1" 1 0 1 OP_FMT_none_arg;
  DEF "get_arg2" 1 0 1 OP_FMT_none_arg;
  DEF "get_arg3" 1 0 1 OP_FMT_none_arg;
  DEF "put_arg0" 1 1 0 OP_FMT_none_arg;
  DEF "put_arg1" 1 1 0 OP_FMT_none_arg;
  DEF "put_arg2" 1 1 0 OP_FMT_none_arg;
  DEF "put_arg3" 1 1 0 OP_FMT_none_arg;
  DEF "set_arg0" 1 1 1 OP_FMT_none_arg;
  DEF "set_arg1" 1 1 1 OP_FMT_none_arg;
  DEF "set_arg2" 1 1 1 OP_FMT_none_arg;
  DEF "set_arg3" 1 1 1 OP_FMT_none_arg;
  DEF "get_var_ref0" 1 0 1 OP_FMT_none_var_ref;
  DEF "get_var_ref1" 1 0 1 OP_FMT_none_var_ref;
  DEF "get_var_ref2" 1 0 1 OP_FMT_none_var_ref;
  DEF "get_var_ref3" 1 0 1 OP_FMT_none_var_ref;
  DEF "put_var_ref0" 1 1 0 OP_FMT_none_var_ref;
  DEF "put_var_ref1" 1 1 0 OP_FMT_none_var_ref;
  DEF "put_var_ref2" 1 1 0 OP_FMT_none_var_ref;
  DEF "put_var_ref3" 1 1 0 OP_FMT_none_var_ref;
  DEF "set_var_ref0" 1 1 1 OP_FMT_none_var_ref;
  DEF "set_var_ref1" 1 1 1 OP_FMT_none_var_ref;
  DEF "set_var_ref2" 1 1 1 OP_FMT_none_var_ref;
  DEF "set_var_ref3" 1 1 1 OP_FMT_none_var_ref;
  DEF "get_length" 1 1 1 OP_FMT_none;
  DEF "if_false8" 2 1 0 OP_FMT_label8;
  DEF "if_true8" 2 1 0 OP_FMT_label8;
  DEF "goto8" 2 0 0 OP_FMT_label8;
  DEF "goto16" 3 0 0 OP_FMT_label16;
  DEF "call0" 1 1 1 OP_FMT_npopx;
  DEF "call1" 1 1 1 OP_FMT_npopx;
  DEF "call2" 1 1 1 OP_FMT_npopx;
  DEF "call3" 1 1 1 OP_FMT_npopx;
  DEF "is_undefined" 1 1 1 OP_FMT_none;
  DEF "is_null" 1 1 1 OP_FMT_none;
  DEF "typeof_is_undefined" 1 1 1 OP_FMT_none;
  DEF "typeof_is_function" 1 1 1 OP_FMT_none
].

Definition opcode_info : list JSOpCode := (base_opcodes ++ temp_opcodes ++ short_opcodes)%list.

(** [OPCodeEnum] *)
Fixpoint index_of (name : string) (l : list JSOpCode) : Z :=
  match l with [] => 0 | oc :: l => if String.eqb name (op_name oc) then 0 else 1 + index_of name l end.
Definition OP (name : string) : Z := index_of name (base_opcodes ++ short_opcodes).

Definition OP_TEMP_START : Z := Eval vm_compute in OP "nop" + 1.
Definition OP_TEMP_END : Z := Eval vm_compute in OP_TEMP_START + Z.of_nat (List.length temp_opcodes).
Definition OP_COUNT : Z := Eval vm_compute in Z.of_nat (List.length base_opcodes + List.length short_opcodes).

Definition short_opcode_info (op : Z) : option JSOpCode :=
  opcode_info !! Z.to_nat (if OP_TEMP_START <=? op then op + (OP_TEMP_END - OP_TEMP_START) else op).
