(* ===== verification/BytecodeStack.v ===== *)
(** * The stack of the bytecode

    [compute_stack_size] of [src/quickjs/quickjs.c], which checks the stack effects of the
    final bytecode of a function and computes how many values its stack holds at most. *)
From stdpp Require Import strings.
From S2P Require Export Opcodes Strings Bytes Checked.
#[local] Open Scope Z_scope.

Definition JS_STACK_SIZE_MAX : Z := 65534.

(** The cases of the switch over the opcodes; the width of a jump is in bytes. *)
Inductive op_case :=
| CaseDone
| CaseGoto (width : Z)
| CaseIf (width : Z)
| CaseGosub
| CaseWith (diff : Z)
| CaseCatch
| CaseForOf
| CaseCheckCatch (diff : Z)
| CaseNipCatch
| CaseDefault.

Definition case (name : string) (c : op_case) : Z * op_case := (OP name, c).

Definition switch_table : list (Z * op_case) := Eval vm_compute in [
  case "tail_call" CaseDone; case "tail_call_method" CaseDone; case "return" CaseDone; case "return_undef" CaseDone;
  case "return_async" CaseDone; case "throw" CaseDone; case "throw_error" CaseDone; case "ret" CaseDone;
  case "goto" (CaseGoto 4); case "goto16" (CaseGoto 2); case "goto8" (CaseGoto 1);
  case "if_true8" (CaseIf 1); case "if_false8" (CaseIf 1); case "if_true" (CaseIf 4); case "if_false" (CaseIf 4);
  case "gosub" CaseGosub;
  case "with_get_var" (CaseWith 1); case "with_delete_var" (CaseWith 1);
  case "with_make_ref" (CaseWith 2); case "with_get_ref" (CaseWith 2); case "with_put_var" (CaseWith (-1));
  case "catch" CaseCatch; case "for_of_start" CaseForOf; case "for_await_of_start" CaseForOf;
  case "drop" (CaseCheckCatch 0); case "nip" (CaseCheckCatch (-1)); case "nip1" (CaseCheckCatch (-1));
  case "iterator_close" (CaseCheckCatch 2);
  case "nip_catch" CaseNipCatch].

Definition switch (op : Z) : op_case :=
  match find (fun c => fst c =? op) switch_table with Some c => snd c | None => CaseDefault end.

Definition OP_catch : Z := Eval vm_compute in OP "catch".
Definition OP_call0 : Z := Eval vm_compute in OP "call0".

Inductive ss_error :=
| BufferOverflow | StackOverflow | InconsistentSize | InconsistentCatch | InvalidOpcode | StackUnderflow | NoCatch | NoMemory.

(** The tables; an entry of [catch_pos_tab] that is not written is [None].  The top of
    [pc_stack] is its head; [ss_ev] is the number of the next allocation. *)
Record StackSizeState := {
  stack_len_max : Z;
  stack_level_tab : list Z;
  catch_pos_tab : list (option Z);
  pc_stack : list Z;
  pc_stack_size : Z;
  ss_ev : nat
}.

Section definitions.
Context {W : World} {Sl : Slack} (bc_buf : list Z).

Definition bc_len : Z := len bc_buf.

(** The signed distance of a jump. *)
Definition get_diff (width pos : Z) : option Z :=
  if width =? 1 then i8 <$> get_u8 bc_buf pos else if width =? 2 then i16 <$> get_u16 bc_buf pos else i32 <$> get_u32 bc_buf pos.

(** The target of the jump whose distance is at [pos]; the addition wraps. *)
Definition target (width pos : Z) : option Z := (fun diff => i32 (pos + diff)) <$> get_diff width pos.

Definition table_get {A} (tab : list A) (pos : Z) : option A := guard (0 <= pos);; tab !! Z.to_nat pos.
Definition table_set {A} (tab : list A) (pos : Z) (x : A) : option (list A) :=
  guard (0 <= pos < len tab);; Some (<[Z.to_nat pos:=x]> tab).

(** [js_resize_array] on [pc_stack]. *)
Definition js_resize_array (s : StackSizeState) (req_size : Z) : Checked ss_error StackSizeState :=
  if pc_stack_size s <? req_size then
    guard (pc_stack_size s * 3 <= INT32_MAX);;
    let new_size := Z.max req_size (pc_stack_size s * 3 / 2) in
    guard (new_size * 4 <= INT32_MAX);;
    if ext_ok (ss_ev s) then
      ret {| stack_len_max := stack_len_max s; stack_level_tab := stack_level_tab s; catch_pos_tab := catch_pos_tab s; pc_stack := pc_stack s;
             pc_stack_size := new_size + slack (ss_ev s) / 4; ss_ev := S (ss_ev s) |}
    else throw NoMemory
  else ret s.

(** The maximum of the stack is raised, or exceeded. *)
Definition raise_max (s : StackSizeState) (stack_len : Z) : Checked ss_error StackSizeState :=
  if stack_len_max s <? stack_len then
    if JS_STACK_SIZE_MAX <? stack_len then throw StackOverflow
    else ret {| stack_len_max := stack_len; stack_level_tab := stack_level_tab s; catch_pos_tab := catch_pos_tab s; pc_stack := pc_stack s;
                pc_stack_size := pc_stack_size s; ss_ev := ss_ev s |}
  else ret s.

Definition ss_check (s : StackSizeState) (pos stack_len catch_pos : Z) : Checked ss_error StackSizeState :=
  if bc_len <=? u32 pos then throw BufferOverflow
  else
    s ←! raise_max s stack_len;
    level ← table_get (stack_level_tab s) pos;
    if negb (level =? 0xffff) then
      if negb (level =? stack_len) then throw InconsistentSize
      else
        c ← table_get (catch_pos_tab s) pos; c ← c;
        if negb (c =? catch_pos) then throw InconsistentCatch else ret s
    else
      levels ← table_set (stack_level_tab s) pos (u16 stack_len);
      catches ← table_set (catch_pos_tab s) pos (Some catch_pos);
      s ←! js_resize_array {| stack_len_max := stack_len_max s; stack_level_tab := levels; catch_pos_tab := catches; pc_stack := pc_stack s;
                              pc_stack_size := pc_stack_size s; ss_ev := ss_ev s |} (len (pc_stack s) + 1);
      guard (len (pc_stack s) < pc_stack_size s);;
      ret {| stack_len_max := stack_len_max s; stack_level_tab := stack_level_tab s; catch_pos_tab := catch_pos_tab s; pc_stack := pos :: pc_stack s;
             pc_stack_size := pc_stack_size s; ss_ev := ss_ev s |}.

(** The level of the stack under the catch offset that the instruction at [catch_pos] pushes. *)
Definition catch_level_of (s : StackSizeState) (catch_pos : Z) : option Z :=
  level ← table_get (stack_level_tab s) catch_pos;
  op ← get_u8 bc_buf catch_pos;
  Some (if negb (op =? OP_catch) then level + 1 else level).

Definition catch_pos_of (s : StackSizeState) (pos : Z) : option Z := c ← table_get (catch_pos_tab s) pos; c.

(** How many values the instruction pops: the arguments of a call are in its operand. *)
Definition insn_pop (oi : JSOpCode) (op pos : Z) : option Z :=
  match op_fmt oi with
  | OP_FMT_npop | OP_FMT_npop_u16 => n ← get_u16 bc_buf (pos + 1); Some (n_pop oi + n)
  | OP_FMT_npopx => Some (n_pop oi + (op - OP_call0))
  | _ => Some (n_pop oi)
  end.

(** The switch over the opcodes: the positions that follow the instruction at [pos]. *)
Definition check_next (s : StackSizeState) (pos op stack_len catch_pos pos_next : Z) : Checked ss_error StackSizeState :=
  match switch op with
  | CaseDone => ret s
  | CaseGoto width =>
      pos_next ← target width (pos + 1);
      ss_check s pos_next stack_len catch_pos
  | CaseIf width =>
      label ← target width (pos + 1);
      s ←! ss_check s label stack_len catch_pos;
      ss_check s pos_next stack_len catch_pos
  | CaseGosub =>
      label ← target 4 (pos + 1);
      s ←! ss_check s label (stack_len + 1) catch_pos;
      ss_check s pos_next stack_len catch_pos
  | CaseWith diff =>
      label ← target 4 (pos + 5);
      s ←! ss_check s label (stack_len + diff) catch_pos;
      ss_check s pos_next stack_len catch_pos
  | CaseCatch =>
      label ← target 4 (pos + 1);
      s ←! ss_check s label stack_len catch_pos;
      ss_check s pos_next stack_len pos
  | CaseForOf => ss_check s pos_next stack_len pos
  | CaseCheckCatch diff =>
      let catch_level := stack_len + diff in
      if 0 <=? catch_pos then
        level ← catch_level_of s catch_pos;
        if catch_level =? level then
          catch_pos ← catch_pos_of s catch_pos;
          ss_check s pos_next stack_len catch_pos
        else ss_check s pos_next stack_len catch_pos
      else ss_check s pos_next stack_len catch_pos
  | CaseNipCatch =>
      if catch_pos <? 0 then throw NoCatch
      else
        level ← catch_level_of s catch_pos;
        catch_pos ← catch_pos_of s catch_pos;
        ss_check s pos_next (level + 1) catch_pos
  | CaseDefault => ss_check s pos_next stack_len catch_pos
  end.

(** The body of the loop, for the instruction at [pos]. *)
Definition explore (s : StackSizeState) (pos : Z) : Checked ss_error StackSizeState :=
  stack_len ← table_get (stack_level_tab s) pos;
  catch_pos ← catch_pos_of s pos;
  op ← get_u8 bc_buf pos;
  if (op =? 0) || (OP_COUNT <=? op) then throw InvalidOpcode
  else
    oi ← short_opcode_info op;
    let pos_next := pos + op_size oi in
    if bc_len <? pos_next then throw BufferOverflow
    else
      pop ← insn_pop oi op pos;
      if stack_len <? pop then throw StackUnderflow
      else
        let stack_len := stack_len + (n_push oi - pop) in
        s ←! raise_max s stack_len;
        check_next s pos op stack_len catch_pos pos_next.

Fixpoint explore_loop (fuel : nat) (s : StackSizeState) : Checked ss_error StackSizeState :=
  match pc_stack s with
  | [] => ret s
  | pos :: rest =>
      match fuel with
      | O => None
      | S fuel =>
          s ←! explore {| stack_len_max := stack_len_max s; stack_level_tab := stack_level_tab s; catch_pos_tab := catch_pos_tab s; pc_stack := rest;
                          pc_stack_size := pc_stack_size s; ss_ev := ss_ev s |} pos;
          explore_loop fuel s
      end
  end.

(** The stack size, or the exception. *)
Definition compute_stack_size (ev : nat) : Checked ss_error Z :=
  if negb (ext_ok ev) then throw NoMemory
  else if negb (ext_ok (S ev)) then throw NoMemory
  else
    s ←! ss_check {| stack_len_max := 0; stack_level_tab := replicate (List.length bc_buf) 0xffff; catch_pos_tab := replicate (List.length bc_buf) None;
                     pc_stack := []; pc_stack_size := 0; ss_ev := S (S ev) |} 0 0 (-1);
    s ←! explore_loop (List.length bc_buf) s;
    ret (stack_len_max s).
End definitions.
