(* ===== verification/BytecodeMachine.v ===== *)
(** * What the stack checker decides

    A reference machine for the stack effects of the bytecode: its state has the position,
    the height of the stack and the catch offsets that are on it.  An exception can be
    thrown at any instruction. *)
From stdpp Require Import strings relations.
From S2P Require Export BytecodeStack.
#[local] Open Scope Z_scope.

(** A catch offset: the instruction that pushed it, and the height under it. *)
Definition Handler : Type := Z * Z.
Record MState := { pc : Z; height : Z; handlers : list Handler }.

Section machine.
Context (bc : list Z).

(** The instruction at [pos]: the opcode, what it pops and pushes, the next position. *)
Definition decode (pos : Z) : option (Z * Z * Z * Z) :=
  op ← get_u8 bc pos;
  guard (0 < op < OP_COUNT);;
  oi ← short_opcode_info op;
  guard (pos + op_size oi <= bc_len bc);;
  pop ← insn_pop bc oi op pos;
  Some (op, pop, n_push oi, pos + op_size oi).

(** The height of the stack with the catch offset of the handler, which the iterators keep above
    two values of their own, the first of which replaces the iterated one. *)
Definition handler_level (h : Handler) : option Z :=
  op ← get_u8 bc (fst h); Some (if negb (op =? OP_catch) then snd h + 1 else snd h).

(** The states that follow the opcode [op] at [st], which leaves [l] values on the stack, when
    the next instruction is at [next].  [gosub] runs the finally block and goes on when it
    returns. *)
Definition flow (st : MState) (op l next : Z) : option (list MState) :=
  let h := handlers st in
  let to pos l h := {| pc := pos; height := l; handlers := h |} in
  match switch op with
  | CaseDone => Some []
  | CaseGoto width => t ← target bc width (pc st + 1); Some [to t l h]
  | CaseIf width => t ← target bc width (pc st + 1); Some [to t l h; to next l h]
  | CaseGosub => t ← target bc 4 (pc st + 1); Some [to t (l + 1) h; to next l h]
  | CaseWith diff => t ← target bc 4 (pc st + 5); Some [to t (l + diff) h; to next l h]
  | CaseCatch | CaseForOf => Some [to next l ((pc st, height st) :: h)]
  | CaseCheckCatch diff =>
      match h with
      | [] => Some [to next l h]
      | c :: h' => level ← handler_level c; Some [to next l (if l + diff =? level then h' else h)]
      end
  | CaseNipCatch =>
      match h with
      | [] => None
      | c :: h' => level ← handler_level c; Some [to next (level + 1) h']
      end
  | CaseDefault => Some [to next l h]
  end.

(** The states that can follow without an exception; [None] when the instruction is invalid,
    the stack too small or too large, or the catch offset missing. *)
Definition effects (st : MState) : option (list MState) :=
  guard (height st <= JS_STACK_SIZE_MAX);;
  '(op, pop, push, next) ← decode (pc st);
  guard (pop <= height st);;
  let l := height st + (push - pop) in
  guard (l <= JS_STACK_SIZE_MAX);;
  flow st op l next.

(** The state after an exception: the first catch offset of a [catch], with the exception in
    its place; the iterators are closed on the way. *)
Fixpoint unwind (h : list Handler) : option MState :=
  match h with
  | [] => None
  | c :: h =>
      op ← get_u8 bc (fst c);
      if op =? OP_catch then t ← target bc 4 (fst c + 1); Some {| pc := t; height := snd c + 1; handlers := h |}
      else unwind h
  end.

Inductive step : MState -> MState -> Prop :=
| step_effect st l st' : effects st = Some l -> st' ∈ l -> step st st'
| step_throw st st' : unwind (handlers st) = Some st' -> step st st'.

Definition start : MState := {| pc := 0; height := 0; handlers := [] |}.
Definition reachable (st : MState) : Prop := rtc step start st.

(** The position of the innermost catch offset. *)
Definition catch_of (st : MState) : Z := match handlers st with [] => -1 | c :: _ => fst c end.

(** No reachable state is stuck, and the position determines the height of the stack and the
    innermost catch offset. *)
Record well_stacked : Prop := {
  ws_progress st : reachable st -> effects st <> None;
  ws_unique st st' : reachable st -> reachable st' -> pc st = pc st' -> height st = height st' /\ catch_of st = catch_of st'
}.

(** The stack has [n] values at [st], or after its instruction. *)
Definition holds (st : MState) (n : Z) : Prop :=
  height st = n \/ exists op pop push next, decode (pc st) = Some (op, pop, push, next) /\ pop <= height st /\ height st + (push - pop) = n.
End machine.
