(* ===== verification/BytecodeStackSpec.v ===== *)
(** * The stack checker is sound and complete

    The tables of [compute_stack_size] are a typing of the bytecode by heights: the invariant
    of its loop, and what its answer says about the machine of [BytecodeMachine]. *)
From stdpp Require Import strings relations.
From S2P Require Export BytecodeMachine.
#[local] Open Scope Z_scope.

(** ** The opcodes *)

Definition op_ok (op : Z) : bool :=
  match short_opcode_info op with
  | None => false
  | Some oi =>
      (1 <=? op_size oi) && (op_size oi <=? 11) && (0 <=? n_push oi) && (n_push oi <=? 6) && (0 <=? n_pop oi) &&
      match op_fmt oi with OP_FMT_npop | OP_FMT_npop_u16 => 3 <=? op_size oi | _ => true end &&
      match switch op with
      | CaseGoto w | CaseIf w => ((w =? 1) || (w =? 2) || (w =? 4)) && (1 + w <=? op_size oi)
      | CaseGosub => 5 <=? op_size oi
      | CaseWith d => (9 <=? op_size oi) && (0 <=? n_push oi + d)
      | CaseCatch => (op =? OP_catch) && (5 <=? op_size oi) && (n_pop oi =? 0) && (n_push oi =? 1) && match op_fmt oi with OP_FMT_label => true | _ => false end
      | CaseForOf => negb (op =? OP_catch)
      | _ => true
      end
  end.

Lemma opcodes_ok op : 0 < op < OP_COUNT -> op_ok op = true.
Proof.
  intros H. assert (A : forallb op_ok (seqZ 1 (OP_COUNT - 1)) = true) by (vm_compute; reflexivity).
  rewrite forallb_forall in A. apply A. apply list_elem_of_In, elem_of_seqZ. lia.
Qed.

Section spec.
Context {W : World} {Sl : Slack} (bc : list Z).
Context (Hsl : forall n, 0 <= slack n) (Hbytes : Forall (word 8) bc) (Hlen : bc_len bc < 2 ^ 28).
Implicit Types (s : StackSizeState) (st : MState).
Abbreviation decode := (decode bc).
Abbreviation effects := (effects bc).
Abbreviation reachable := (reachable bc).
Abbreviation well_stacked := (well_stacked bc).
Abbreviation target := (target bc).

(** ** Operands *)

Lemma get_u8_some p : 0 <= p < bc_len bc -> exists v, get_u8 bc p = Some v /\ word 8 v.
Proof.
  intros Hp. unfold get_u8, bc_len in *. rewrite option_guard_True by lia. cbn [mbind option_bind].
  destruct (lookup_lt_is_Some_2 bc (Z.to_nat p)) as [v Ev]; [lia|]. exists v. split; [done|]. rewrite Forall_forall in Hbytes.
  by eapply Hbytes, list_elem_of_lookup_2.
Qed.

Lemma get_u8_range p v : get_u8 bc p = Some v -> 0 <= p < bc_len bc.
Proof. unfold get_u8, bc_len. case_guard; [|done]. cbn. intros E. apply lookup_lt_Some in E. lia. Qed.

Lemma get_u16_some p : 0 <= p -> p + 2 <= bc_len bc -> exists v, get_u16 bc p = Some v.
Proof.
  intros Hp Hl. unfold get_u16. destruct (get_u8_some p) as (a & -> & _); [lia|]. destruct (get_u8_some (p + 1)) as (b & -> & _); [lia|].
  cbn. eauto.
Qed.

Lemma target_some w p : 1 <= w -> 0 <= p -> p + w <= bc_len bc -> (w = 1 \/ w = 2 \/ w = 4) -> exists t, target w p = Some t /\ sword 32 t.
Proof.
  intros Hw Hp Hl H. unfold BytecodeStack.target, get_diff. destruct H as [->|[->| ->]]; cbn [Z.eqb Pos.eqb].
  - destruct (get_u8_some p) as (a & -> & _); [lia|]. eexists. split; [done|]. by apply swrap_range.
  - destruct (get_u16_some p) as (a & ->); [lia..|]. eexists. split; [done|]. by apply swrap_range.
  - unfold get_u32. destruct (get_u16_some p) as (a & ->); [lia..|]. destruct (get_u16_some (p + 2)) as (b & ->); [lia..|].
    eexists. split; [done|]. by apply swrap_range.
Qed.

(** ** Tables *)

Definition explored s (pos l : Z) : Prop := table_get (stack_level_tab s) pos = Some l /\ l <> 0xffff.
Definition catch_at s (pos c : Z) : Prop := table_get (catch_pos_tab s) pos = Some (Some c).

(** The catch offsets on the stack, as the tables have them: [c] is the innermost one. *)
Fixpoint chain s (c : Z) (h : list Handler) : Prop :=
  match h with
  | [] => c = -1
  | (p, l) :: h => c = p /\ 0 <= p /\ explored s p l /\ exists c', catch_at s p c' /\ chain s c' h
  end.

(** The tables type the state. *)
Definition matches s st : Prop := explored s (pc st) (height st) /\ exists c, catch_at s (pc st) c /\ chain s c (handlers st).

Definition extends s s' : Prop :=
  (forall pos l, explored s pos l -> explored s' pos l) /\ (forall pos c l, explored s pos l -> catch_at s pos c -> catch_at s' pos c) /\
  stack_len_max s <= stack_len_max s'.

Lemma explores_refl s : extends s s.
Proof. by split_and!. Qed.
Lemma explores_trans s1 s2 s3 : extends s1 s2 -> extends s2 s3 -> extends s1 s3.
Proof. intros (A1 & B1 & C1) (A2 & B2 & C2). split_and!; [eauto..|lia]. Qed.

Lemma chain_extends s s' h : extends s s' -> forall c, chain s c h -> chain s' c h.
Proof.
  intros (A & B & _). induction h as [|[p l] h IH]; intros c; cbn [chain]; [done|].
  intros (-> & Hp & He & c' & Hc & Hh). split_and!; try done; [by apply A|]. exists c'. split; [by eapply B|by apply IH].
Qed.

Lemma matches_extends s s' st : extends s s' -> matches s st -> matches s' st.
Proof. intros X (He & c & Hc & Hh). split; [by apply X|]. exists c. split; [by eapply X|by eapply chain_extends]. Qed.

Lemma chain_unique s h : forall h' c, chain s c h -> chain s c h' -> h = h'.
Proof.
  induction h as [|[p l] h IH]; intros [|[p' l'] h'] c; cbn [chain]; [done|..].
  - intros -> (<- & Hp & _). lia.
  - intros (-> & Hp & _) E. lia.
  - intros (-> & _ & [E1 _] & c1 & C1 & H1) (<- & _ & [E2 _] & c2 & C2 & H2). unfold catch_at in *.
    rewrite E1 in E2. injection E2 as ->. rewrite C1 in C2. injection C2 as ->. by rewrite (IH h' c2 H1 H2).
Qed.

Lemma catch_of_chain s c st : chain s c (handlers st) -> catch_of st = c.
Proof. unfold catch_of. destruct (handlers st) as [|[p l] h]; cbn [chain]; [done|]. by intros [-> _]. Qed.

(** The instruction at [pos] leads to states that the tables type. *)
Definition typed s (pos : Z) : Prop := exists st succs, pc st = pos /\ matches s st /\ effects st = Some succs /\
  (forall st', st' ∈ succs -> matches s st') /\
  (forall op pop push next, decode pos = Some (op, pop, push, next) -> height st + (push - pop) <= stack_len_max s) /\
  (get_u8 bc pos = Some OP_catch -> exists t, target 4 (pos + 1) = Some t /\ matches s {| pc := t; height := height st + 1; handlers := handlers st |}).

Lemma typed_extends s s' pos : extends s s' -> typed s pos -> typed s' pos.
Proof.
  intros X (st & succs & Hpc & Hm & He & Hs & Hl & Hc). exists st, succs. split_and!; try done.
  - by eapply matches_extends.
  - intros st' Hst'. by eapply matches_extends, Hs.
  - intros op pop push next Hd. specialize (Hl _ _ _ _ Hd). destruct X as (_ & _ & X). lia.
  - intros Hop. destruct (Hc Hop) as (t & Ht & Hm'). exists t. split; [done|by eapply matches_extends].
Qed.

(** ** The invariant of the loop *)

Definition unexplored s : Z := len (filter (eq 0xffff) (stack_level_tab s)).

(** [cur] is the position that has been taken from the stack. *)
Record invariant (cur : Z) s : Prop := {
  inv_levels : len (stack_level_tab s) = bc_len bc;
  inv_catches : len (catch_pos_tab s) = bc_len bc;
  inv_reached pos l : explored s pos l -> 0 <= l <= stack_len_max s /\ exists st, pc st = pos /\ height st = l /\ reachable st /\ matches s st;
  inv_typed pos l : explored s pos l -> pos <> cur -> pos ∉ pc_stack s -> typed s pos;
  inv_stack pos : pos ∈ pc_stack s -> 0 <= pos < bc_len bc /\ exists l, explored s pos l;
  inv_max : 0 <= stack_len_max s <= JS_STACK_SIZE_MAX /\ (stack_len_max s = 0 \/ exists st, reachable st /\ holds bc st (stack_len_max s));
  inv_size : 0 <= pc_stack_size s /\ len (pc_stack s) <= pc_stack_size s;
  inv_measure : unexplored s + len (pc_stack s) <= bc_len bc
}.

Definition no_memory : Prop := exists k, ext_ok k = false.

(** The answer of a step: an exception says that the bytecode is wrong, or the memory missing. *)
Definition verdict {A} (Q : A -> Prop) (r : ss_error + A) : Prop :=
  match r with inr x => Q x | inl NoMemory => no_memory | inl _ => ~ well_stacked end.

Lemma ebind_runs {A B} (m : Checked ss_error A) (f : A -> Checked ss_error B) Q R : runs m (verdict Q) -> (forall x, Q x -> runs (f x) (verdict R)) -> runs (ebind m f) (verdict R).
Proof. intros ([e|x] & -> & H) Hf; [|by apply Hf]. by apply runs_ret. Qed.

Lemma throw_runs {A} e (Q : A -> Prop) : e <> NoMemory -> ~ well_stacked -> runs (throw e) (verdict Q).
Proof. intros He Hw. apply runs_ret. by destruct e. Qed.

Lemma ret_runs {A} (x : A) (Q : A -> Prop) : Q x -> runs (ret x) (verdict Q).
Proof. intros H. by exists (inr x). Qed.

Lemma stuck st : reachable st -> effects st = None -> ~ well_stacked.
Proof. intros Hr He [Hp _]. by apply (Hp st). Qed.

(** ** The calls of the loop *)

Lemma raise_max_runs cur s n st : invariant cur s -> reachable st -> holds bc st n -> 0 <= n -> (JS_STACK_SIZE_MAX < n -> ~ well_stacked) ->
  runs (raise_max s n) (verdict (fun s' => invariant cur s' /\ extends s s' /\ n <= stack_len_max s' /\
    stack_level_tab s' = stack_level_tab s /\ catch_pos_tab s' = catch_pos_tab s /\ pc_stack s' = pc_stack s)).
Proof.
  intros I Hr Hh Hn Hbad. unfold raise_max. destruct (Z.ltb_spec (stack_len_max s) n); [|by apply ret_runs; split_and!; try apply I; try done; apply explores_refl || lia].
  destruct (Z.ltb_spec JS_STACK_SIZE_MAX n); [apply throw_runs; auto|]. apply ret_runs. set (s' := {| stack_len_max := n |}).
  assert (X : extends s s') by (split_and!; cbn; [done..|lia]).
  split_and!; try done. destruct I as [I1 I2 I3 I4 I5 [I6 _] I7 I8]. split; try done.
  - intros pos l He. destruct (I3 pos l He) as (Hl & st' & H1 & H2 & H3 & H4). split; [cbn; lia|]. exists st'. split_and!; try done; by eapply matches_extends.
  - intros pos l He Hne Hni. eapply typed_extends; [exact X|]. by eapply I4.
  - split; [cbn; lia|]. right. by exists st.
Qed.

Lemma table_set_runs {A} (tab : list A) pos x : 0 <= pos < len tab ->
  runs (table_set tab pos x) (fun tab' => len tab' = len tab /\ (forall p, table_get tab' p = if decide (p = pos) then Some x else table_get tab p) /\
    tab' = <[Z.to_nat pos:=x]> tab).
Proof.
  intros Hp. apply (runs_guard _ _ Hp). intros _. apply runs_ret. rewrite length_insert. split_and!; [done| |done].
  intros p. unfold table_get. case_decide as E.
  - subst. rewrite option_guard_True by lia. cbn [mbind option_bind]. apply list_lookup_insert_eq. lia.
  - case_guard; [|done]. cbn [mbind option_bind]. apply list_lookup_insert_ne. lia.
Qed.

Lemma filter_insert (l : list Z) i x : l !! i = Some 0xffff -> x <> 0xffff -> len (filter (eq 0xffff) (<[i:=x]> l)) = len (filter (eq 0xffff) l) - 1.
Proof.
  intros E Hx. pose proof (lookup_lt_Some _ _ _ E). rewrite insert_take_drop by done. rewrite <- (take_drop_middle l i 0xffff E) at 3.
  rewrite !filter_app, !length_app, filter_cons_False by done. rewrite filter_cons_True by done. cbn [List.length]. lia.
Qed.

Lemma explored_range s pos l : len (stack_level_tab s) = bc_len bc -> explored s pos l -> 0 <= pos < bc_len bc.
Proof. intros HL [E _]. unfold table_get in E. case_guard; [|done]. cbn in E. apply lookup_lt_Some in E. lia. Qed.

Lemma table_get_some {A} (tab : list A) pos : 0 <= pos < len tab -> exists x, table_get tab pos = Some x /\ tab !! Z.to_nat pos = Some x.
Proof. intros Hp. unfold table_get. rewrite option_guard_True by lia. cbn. destruct (lookup_lt_is_Some_2 tab (Z.to_nat pos)) as [x ->]; [lia|]. by exists x. Qed.

Lemma resize_runs s req : 0 <= pc_stack_size s -> 0 <= req < 2 ^ 28 ->
  runs (js_resize_array s req) (verdict (fun s' => stack_len_max s' = stack_len_max s /\ stack_level_tab s' = stack_level_tab s /\
    catch_pos_tab s' = catch_pos_tab s /\ pc_stack s' = pc_stack s /\ req <= pc_stack_size s')).
Proof.
  intros H0 Hr. unfold js_resize_array. destruct (Z.ltb_spec (pc_stack_size s) req); [|by apply ret_runs].
  assert (G1 : pc_stack_size s * 3 <= INT32_MAX) by (unfold INT32_MAX; lia). apply (runs_guard _ _ G1). intros _.
  pose proof (Z.div_mod (pc_stack_size s * 3) 2). pose proof (Z.mod_pos_bound (pc_stack_size s * 3) 2).
  assert (G2 : Z.max req (pc_stack_size s * 3 / 2) * 4 <= INT32_MAX) by (unfold INT32_MAX; lia). apply (runs_guard _ _ G2). intros _.
  destruct (ext_ok (ss_ev s)) eqn:E; [|apply runs_ret; by exists (ss_ev s)]. apply ret_runs. cbn.
  pose proof (Z.div_pos (slack (ss_ev s)) 4 (Hsl _)). split_and!; try done; lia.
Qed.

(** A state that differs only in the fields that the invariant says nothing about. *)
Definition same_tables s s' : Prop :=
  stack_len_max s' = stack_len_max s /\ stack_level_tab s' = stack_level_tab s /\ catch_pos_tab s' = catch_pos_tab s.

Lemma same_extends s s' : same_tables s s' -> extends s s'.
Proof. intros (E1 & E2 & E3). unfold extends, explored, catch_at. rewrite E1, E2, E3. by split_and!. Qed.

Lemma ss_check_runs cur s st c : invariant cur s -> reachable st -> chain s c (handlers st) -> sword 32 (pc st) -> 0 <= height st ->
  runs (ss_check bc s (pc st) (height st) c) (verdict (fun s' => invariant cur s' /\ extends s s' /\ matches s' st /\
    unexplored s' + len (pc_stack s') <= unexplored s + len (pc_stack s))).
Proof.
  intros I Hr Hch Hpc Hh. unfold ss_check. destruct (Z.leb_spec (bc_len bc) (u32 (pc st))) as [Hout|Hin].
  { apply throw_runs; [done|]. apply (stuck st Hr). unfold effects. case_guard; [|done]. cbn [mbind option_bind].
    enough (E : decode (pc st) = None) by (by rewrite E). unfold BytecodeMachine.decode. destruct (get_u8 bc (pc st)) as [v|] eqn:E; [|done].
    apply get_u8_range in E. rewrite wrap_small in Hout by (unfold word; lia). lia. }
  assert (Hpos : 0 <= pc st < bc_len bc).
  { destruct (Z.lt_ge_cases (pc st) 0); [|rewrite wrap_small in Hin by (unfold word, sword in *; lia); lia].
    rewrite (wrap_unique 32 _ (pc st + 2 ^ 32) (-1)) in Hin by (unfold word, sword in *; lia). unfold sword in Hpc. lia. }
  eapply ebind_runs; [apply (raise_max_runs cur s (height st) st I Hr); [by left|done|]|].
  { intros Hbig. apply (stuck st Hr). unfold effects. by rewrite option_guard_False by lia. }
  intros s1 (I1 & X1 & Hmax & T1 & T2 & T3). pose proof I1 as [J1 J2 J3 J4 J5 [J6 J6'] [J7 J7'] J8].
  destruct (table_get_some (stack_level_tab s1) (pc st)) as (level & El & El'); [lia|]. rewrite El. cbn [mbind option_bind].
  destruct (Z.eqb_spec level 0xffff) as [->|Hexp]; cbn [negb].
  - call table_set_runs as levels (L1 & L2 & L3); [lia|]. call table_set_runs as catches (C1 & C2 & C3); [lia|].
    assert (Hnew : ~ exists l, explored s1 (pc st) l) by (intros (l & E & Hne); rewrite El in E; congruence).
    set (s2 := {| stack_len_max := stack_len_max s1; stack_level_tab := levels |}).
    assert (Hu : u16 (height st) = height st) by (apply wrap_small; unfold word, JS_STACK_SIZE_MAX in *; lia). rewrite Hu in L2, L3.
    assert (Hm : 0 < unexplored s1).
    { unfold unexplored. assert (Hin' : 0xffff ∈ filter (eq 0xffff) (stack_level_tab s1)) by (apply list_elem_of_filter; split; [done|by eapply list_elem_of_lookup_2]).
      destruct (filter _ _); [by apply not_elem_of_nil in Hin'|cbn [List.length]; lia]. }
    eapply ebind_runs; [apply (resize_runs s2 (len (pc_stack s1) + 1)); cbn [pc_stack_size s2]; lia|].
    intros s3 (S1 & S2 & S3 & S4 & S5). cbn [pc_stack s2] in S4, S5. rewrite S4.
    assert (Hroom : len (pc_stack s1) < pc_stack_size s3) by lia. apply (runs_guard _ _ Hroom). intros _. apply ret_runs. set (s4 := {| stack_len_max := stack_len_max s3 |}).
    assert (E1 : forall p l, explored s4 p l <-> (p = pc st /\ l = height st) \/ (p <> pc st /\ explored s1 p l)).
    { intros p l. unfold explored, s4. cbn [stack_level_tab]. rewrite S2. cbn [stack_level_tab s2]. rewrite L2. case_decide as Ep.
      - split; [intros [[= <-] _]; tauto|]. intros [[_ ->]|[? _]]; [|done]. split; [done|]. unfold JS_STACK_SIZE_MAX in *. lia.
      - split; [tauto|]. intros [[? _]|[_ ?]]; done. }
    assert (E2 : forall p c', catch_at s4 p c' <-> (p = pc st /\ c' = c) \/ (p <> pc st /\ catch_at s1 p c')).
    { intros p c'. unfold catch_at, s4. cbn [catch_pos_tab]. rewrite S3. cbn [catch_pos_tab s2]. rewrite C2. case_decide as Ep.
      - split; [intros [= <-]; tauto|]. by intros [[_ ->]|[? _]].
      - split; [tauto|]. intros [[? _]|[_ ?]]; done. }
    assert (X4 : extends s1 s4).
    { split_and!.
      - intros p l He. apply E1. right. split; [|done]. intros ->. apply Hnew. by exists l.
      - intros p c' l He Hc. apply E2. right. split; [|done]. intros ->. apply Hnew. by exists l.
      - unfold s4. cbn [stack_len_max]. rewrite S1. done. }
    assert (M : matches s4 st).
    { split; [apply E1; by left|]. exists c. split; [apply E2; by left|]. eapply chain_extends; [exact X4|]. by eapply chain_extends. }
    assert (Hmeas : unexplored s4 = unexplored s1 - 1).
    { unfold unexplored, s4. cbn [stack_level_tab]. rewrite S2. cbn [stack_level_tab s2]. rewrite L3. apply filter_insert; [done|]. unfold JS_STACK_SIZE_MAX in *. lia. }
    split_and!; [|by eapply explores_trans|done|].
    2: { rewrite Hmeas. unfold s4. cbn [pc_stack List.length]. unfold unexplored in *. rewrite T1, T3. lia. }
    split.
    + unfold s4. cbn [stack_level_tab]. rewrite S2. cbn [stack_level_tab s2]. lia.
    + unfold s4. cbn [catch_pos_tab]. rewrite S3. cbn [catch_pos_tab s2]. lia.
    + intros p l [[-> ->]|[Hne He]]%E1.
      * split; [unfold s4; cbn [stack_len_max]; rewrite S1; cbn [stack_len_max s2]; lia|]. by exists st.
      * destruct (J3 p l He) as (Hl & st' & H1 & H2 & H3 & H4). split; [unfold s4; cbn [stack_len_max]; rewrite S1; exact Hl|].
        exists st'. split_and!; try done. by eapply matches_extends.
    + intros p l He Hne Hni. unfold s4 in Hni. cbn [pc_stack] in Hni. apply not_elem_of_cons in Hni as [Hnp Hni].
      apply E1 in He as [[? _]|[_ He]]; [done|]. eapply typed_extends; [exact X4|]. by eapply J4.
    + intros p [->|Hp]%elem_of_cons; [split; [done|]; exists (height st); apply E1; by left|].
      destruct (J5 p Hp) as [Hp' [l Hl]]. split; [done|]. exists l. by apply X4.
    + unfold s4. cbn [stack_len_max]. rewrite S1. done.
    + unfold s4. cbn [pc_stack pc_stack_size List.length]. lia.
    + rewrite Hmeas. unfold s4. cbn [pc_stack List.length]. lia.
  - assert (He : explored s1 (pc st) level) by done. destruct (J3 _ _ He) as (Hl & st' & H1 & H2 & H3 & [_ (c' & Hc' & Hch')]). rewrite H1 in Hc'.
    destruct (Z.eqb_spec level (height st)) as [->|Hne]; cbn [negb]; cycle 1.
    { apply throw_runs; [done|]. intros [_ Hu]. destruct (Hu st' st H3 Hr H1) as [Hu' _]. congruence. }
    rewrite Hc'. cbn [mbind option_bind].
    destruct (Z.eqb_spec c' c) as [->|Hne]; cbn [negb]; cycle 1.
    { apply throw_runs; [done|]. intros [_ Hu]. destruct (Hu st' st H3 Hr H1) as [_ Hu']. apply catch_of_chain in Hch', Hch. congruence. }
    apply ret_runs. split_and!; try done; [|by unfold unexplored; rewrite T1, T3]. split; [done|]. exists c. split; [done|]. by eapply chain_extends.
Qed.

(** ** An instruction *)

Lemma invariant_typed cur s : invariant cur s -> typed s cur -> invariant (-1) s.
Proof.
  intros [I1 I2 I3 I4 I5 I6 I7 I8] Ht. split; try done. intros pos l He _ Hni. destruct (decide (pos = cur)) as [->|]; [done|by eapply I4].
Qed.

Lemma reach_effect st succs st' : reachable st -> effects st = Some succs -> st' ∈ succs -> reachable st'.
Proof. intros Hr He Hin. eapply rtc_r; [exact Hr|]. by eapply step_effect. Qed.

(** The states [sts] are checked one after the other. *)
Fixpoint check_all s (sts : list (MState * Z)) : Checked ss_error StackSizeState :=
  match sts with
  | [] => ret s
  | (st, c) :: sts =>
      match sts with
      | [] => ss_check bc s (pc st) (height st) c
      | _ => s ←! ss_check bc s (pc st) (height st) c; check_all s sts
      end
  end.

Lemma check_all_runs cur sts : forall s, invariant cur s ->
  (forall st c, (st, c) ∈ sts -> reachable st /\ chain s c (handlers st) /\ sword 32 (pc st) /\ 0 <= height st) ->
  runs (check_all s sts) (verdict (fun s' => invariant cur s' /\ extends s s' /\ (forall st c, (st, c) ∈ sts -> matches s' st) /\
    unexplored s' + len (pc_stack s') <= unexplored s + len (pc_stack s))).
Proof.
  induction sts as [|[st c] sts IH]; intros s I Hsts; cbn [check_all].
  { apply ret_runs. split_and!; [done|apply explores_refl| |lia]. intros st c Hin. by apply not_elem_of_nil in Hin. }
  destruct (Hsts st c (list_elem_of_here _ _)) as (Hr & Hc & Hp & Hh). destruct sts as [|st2 sts].
  { eapply runs_mono; [by apply ss_check_runs|]. intros [[]|s1] H; try done. destruct H as (I1 & X1 & M1 & U1). split_and!; try done.
    intros st' c' [[= -> ->]|[]%not_elem_of_nil]%elem_of_cons. done. }
  eapply ebind_runs; [by apply ss_check_runs|]. intros s1 (I1 & X1 & M1 & U1).
  eapply runs_mono; [apply (IH s1 I1)|].
  - intros st' c' Hin. destruct (Hsts st' c') as (Hr' & Hc' & H'); [by right|]. split_and!; try done; try apply H'. by eapply chain_extends.
  - intros [[]|s2] H; try done. destruct H as (I2 & X2 & M2 & U2). split_and!; [done|by eapply explores_trans| |lia].
    intros st' c' [[= -> ->]|Hin]%elem_of_cons; [by eapply matches_extends|by eapply M2].
Qed.

(** What the instruction at a state checks is what can follow. *)
Lemma instruction_runs s st op pop push next (sts : list (MState * Z)) succs : let l := height st + (push - pop) in
  invariant (pc st) s -> matches s st -> reachable st -> decode (pc st) = Some (op, pop, push, next) -> get_u8 bc (pc st) = Some op ->
  effects st = Some succs -> l <= stack_len_max s ->
  (forall st', st' ∈ succs -> exists c, (st', c) ∈ sts) ->
  (forall st' c, (st', c) ∈ sts -> reachable st' /\ chain s c (handlers st') /\ sword 32 (pc st') /\ 0 <= height st') ->
  (op = OP_catch -> exists t c, target 4 (pc st + 1) = Some t /\ ({| pc := t; height := height st + 1; handlers := handlers st |}, c) ∈ sts) ->
  runs (check_all s sts) (verdict (fun s' => invariant (-1) s' /\ extends s s' /\ unexplored s' + len (pc_stack s') <= unexplored s + len (pc_stack s))).
Proof.
  intros l I M Hr Hd Hop He Hmax F1 F2 F3.
  eapply runs_mono; [by apply (check_all_runs (pc st) sts s I)|]. intros [[]|s'] H; try done. destruct H as (I' & X & M' & U). split; [|done].
  apply (invariant_typed _ _ I'). exists st, succs. split_and!; [done|by eapply matches_extends|done| | |].
  - intros st' Hin. destruct (F1 st' Hin) as [c Hc]. by eapply M'.
  - intros op' pop' push' next' Hd'. rewrite Hd in Hd'. injection Hd' as <- <- <- <-. fold l. destruct X as (_ & _ & X). lia.
  - intros Hop'. rewrite Hop in Hop'. injection Hop' as ->. destruct (F3 eq_refl) as (t & c & Ht & Hc). exists t. split; [done|]. by eapply M'.
Qed.

(** The innermost catch offset and the tables. *)
Lemma chain_handler s c h : chain s c h -> len (stack_level_tab s) = bc_len bc ->
  (h = [] /\ c < 0) \/ (exists lp h' c' level, h = (c, lp) :: h' /\ 0 <= c /\ catch_pos_of s c = Some c' /\ chain s c' h' /\
    catch_level_of bc s c = Some level /\ handler_level bc (c, lp) = Some level /\ (0 <= lp -> 0 <= level) /\ explored s c lp).
Proof.
  destruct h as [|[p lp] h]; cbn [chain]; [intros -> _; left; split; [done|lia]|].
  intros (-> & Hp & He & c' & Hc & Hh) HL. right. pose proof (explored_range _ _ _ HL He) as Hr. destruct (get_u8_some p Hr) as (op & Eop & _).
  destruct He as [El Hne]. exists lp, h, c'. unfold catch_pos_of, catch_level_of, handler_level, catch_at in *. rewrite Hc, El, Eop. cbn [mbind option_bind fst snd].
  eexists. split_and!; try done; [by rewrite Eop|destruct (op =? OP_catch); cbn; lia].
Qed.

Ltac solve_in := intros ? Hin; repeat (apply elem_of_cons in Hin as [->|Hin]); [eexists; repeat ((by left) || right)..|by apply not_elem_of_nil in Hin].
Ltac solve_checks :=
  intros ? ? Hin; repeat (apply elem_of_cons in Hin as [[= -> ->]|Hin]); [..|by apply not_elem_of_nil in Hin];
  cbn [pc height handlers]; (split_and!; [left; repeat ((by left) || right)|done|done|lia]).

Lemma check_next_runs s st op oi pop c : let next := pc st + op_size oi in let l := height st + (n_push oi - pop) in
  invariant (pc st) s -> matches s st -> reachable st -> chain s c (handlers st) -> get_u8 bc (pc st) = Some op ->
  short_opcode_info op = Some oi -> op_ok op = true -> decode (pc st) = Some (op, pop, n_push oi, next) -> insn_pop bc oi op (pc st) = Some pop ->
  0 <= height st -> pop <= height st -> next <= bc_len bc -> l <= stack_len_max s -> effects st = flow bc st op l next ->
  runs (check_next bc s (pc st) op l c next) (verdict (fun s' => invariant (-1) s' /\ extends s s' /\ unexplored s' + len (pc_stack s') <= unexplored s + len (pc_stack s))).
Proof.
  intros next l I M Hr Hch Eop Eoi Hok Hd Hpop Hh0 Hpl Hnx Hmax Heff. unfold op_ok in Hok. rewrite Eoi, !andb_true_iff in Hok.
  destruct Hok as ((((((Hsz1 & Hsz2) & Hpu1) & Hpu2) & Hpo) & Hfmt) & Hsw).
  assert (Hpos : 0 <= pc st) by (destruct (get_u8_range _ _ Eop); done).
  assert (Hn32 : sword 32 next) by (unfold sword, next in *; lia).
  assert (K : forall succs sts, flow bc st op l next = Some succs -> (forall st', st' ∈ succs -> exists c, (st', c) ∈ sts) ->
    (forall st' c', (st', c') ∈ sts -> (st' ∈ succs \/ reachable st') /\ chain s c' (handlers st') /\ sword 32 (pc st') /\ 0 <= height st') ->
    (op = OP_catch -> exists t c, target 4 (pc st + 1) = Some t /\ ({| pc := t; height := height st + 1; handlers := handlers st |}, c) ∈ sts) ->
    runs (check_all s sts) (verdict (fun s' => invariant (-1) s' /\ extends s s' /\ unexplored s' + len (pc_stack s') <= unexplored s + len (pc_stack s)))).
  { intros succs sts Hf F1 F2 F3. rewrite Hf in Heff. apply (instruction_runs s st op pop (n_push oi) next sts succs); try done.
    intros st' c' Hin. destruct (F2 st' c' Hin) as ([R|R] & R3); (split; [|exact R3]); [by apply (reach_effect st succs)|done]. }
  pose proof (chain_handler _ _ _ Hch (inv_levels _ _ I)) as Hh.
  assert (Hnc : switch op <> CaseCatch -> op <> OP_catch) by (intros Hs ->; by apply Hs).
  assert (Hpush : chain s (pc st) ((pc st, height st) :: handlers st)).
  { cbn [chain]. split_and!; [done|done|apply M|]. destruct M as [_ (c0 & Hc0 & Hch0)]. exists c0. by split. }
  unfold flow in K, Heff. unfold check_next.
  destruct (switch op) eqn:Esw; try (specialize (Hnc ltac:(done))).
  - apply (K [] []); [done|intros st' []%not_elem_of_nil|intros st' c' []%not_elem_of_nil|done].
  - destruct (target_some width (pc st + 1)) as (t & Et & Ht); [lia..|]. rewrite Et in K |- *. cbn [mbind option_bind] in K |- *.
    apply (K _ [({| pc := t; height := l; handlers := handlers st |}, c)] eq_refl); [by solve_in| |done]. by solve_checks.
  - destruct (target_some width (pc st + 1)) as (t & Et & Ht); [lia..|]. rewrite Et in K |- *. cbn [mbind option_bind] in K |- *.
    apply (K _ [({| pc := t; height := l; handlers := handlers st |}, c); ({| pc := next; height := l; handlers := handlers st |}, c)] eq_refl); [by solve_in| |done]. by solve_checks.
  - destruct (target_some 4 (pc st + 1)) as (t & Et & Ht); [lia..|]. rewrite Et in K |- *. cbn [mbind option_bind] in K |- *.
    apply (K _ [({| pc := t; height := l + 1; handlers := handlers st |}, c); ({| pc := next; height := l; handlers := handlers st |}, c)] eq_refl); [by solve_in| |done]. by solve_checks.
  - destruct (target_some 4 (pc st + 5)) as (t & Et & Ht); [lia..|]. rewrite Et in K |- *. cbn [mbind option_bind] in K |- *.
    apply (K _ [({| pc := t; height := l + diff; handlers := handlers st |}, c); ({| pc := next; height := l; handlers := handlers st |}, c)] eq_refl); [by solve_in| |done]. by solve_checks.
  - destruct (target_some 4 (pc st + 1)) as (t & Et & Ht); [lia..|]. rewrite Et. cbn [mbind option_bind].
    assert (Hop : op = OP_catch) by lia. assert (Hl1 : l = height st + 1).
    { unfold insn_pop in Hpop. destruct (op_fmt oi); try (by rewrite !andb_false_r in Hsw). injection Hpop as <-. unfold l. lia. }
    set (st2 := {| pc := next; height := l; handlers := (pc st, height st) :: handlers st |}) in *.
    assert (Hr2 : reachable st2) by (apply (reach_effect st [st2]); [done|done|by left]).
    apply (K [st2] [({| pc := t; height := l; handlers := handlers st |}, c); (st2, pc st)] eq_refl).
    + intros st' [->|[]%not_elem_of_nil]%elem_of_cons. exists (pc st). by right; left.
    + intros st' c' [[= -> ->]|[[= -> ->]|[]%not_elem_of_nil]%elem_of_cons]%elem_of_cons.
      * cbn [pc height handlers]. split_and!; try done; [|lia]. right. eapply rtc_r; [exact Hr2|]. apply step_throw. cbn [st2 handlers unwind fst snd].
        rewrite Eop, Hop. cbn [mbind option_bind]. rewrite Z.eqb_refl, Et. cbn [mbind option_bind]. by rewrite Hl1.
      * cbn [st2 pc height handlers]. split_and!; try done; [by right|lia].
    + intros _. exists t, c. split; [done|]. rewrite <- Hl1. by left.
  - apply (K _ [({| pc := next; height := l; handlers := (pc st, height st) :: handlers st |}, pc st)] eq_refl); [by solve_in| |done]. by solve_checks.
  - destruct Hh as [[Hh Hc0]|(lp & h' & c' & level & Hh & Hc0 & Ec & Hch' & El & Ehl & _)]; rewrite Hh in K, Hch.
    { replace (0 <=? c) with false by lia. apply (K _ [({| pc := next; height := l; handlers := [] |}, c)] eq_refl); [by solve_in| |done]. by solve_checks. }
    replace (0 <=? c) with true by lia. rewrite El, Ec. rewrite Ehl in K. cbn [mbind option_bind] in K |- *. destruct (l + diff =? level).
    + apply (K _ [({| pc := next; height := l; handlers := h' |}, c')] eq_refl); [by solve_in| |done]. by solve_checks.
    + apply (K _ [({| pc := next; height := l; handlers := (c, lp) :: h' |}, c)] eq_refl); [by solve_in| |done]. by solve_checks.
  - destruct Hh as [[Hh Hc0]|(lp & h' & c' & level & Hh & Hc0 & Ec & Hch' & El & Ehl & Hlp & Hex)]; rewrite Hh in K, Heff.
    { replace (c <? 0) with true by lia. apply throw_runs; [done|]. by apply (stuck st Hr). }
    replace (c <? 0) with false by lia. rewrite El, Ec. rewrite Ehl in K. cbn [mbind option_bind] in K |- *.
    destruct (inv_reached _ _ I c lp Hex) as [Hlp0 _].
    apply (K _ [({| pc := next; height := level + 1; handlers := h' |}, c')] eq_refl); [by solve_in| |done]. by solve_checks.
  - apply (K _ [({| pc := next; height := l; handlers := handlers st |}, c)] eq_refl); [by solve_in| |done]. by solve_checks.
Qed.

Lemma explore_runs s pos l : invariant pos s -> explored s pos l ->
  runs (explore bc s pos) (verdict (fun s' => invariant (-1) s' /\ extends s s' /\ unexplored s' + len (pc_stack s') <= unexplored s + len (pc_stack s))).
Proof.
  intros I He. destruct (inv_reached _ _ I pos l He) as (Hl & st & <- & <- & Hr & M). pose proof M as [_ (c & Hc & Hch)].
  pose proof (explored_range _ _ _ (inv_levels _ _ I) He) as Hpos. unfold explore. destruct He as [El Hne].
  rewrite El. cbn [mbind option_bind]. assert (Ec : catch_pos_of s (pc st) = Some c) by (unfold catch_pos_of, catch_at in *; by rewrite Hc).
  rewrite Ec. cbn [mbind option_bind].
  destruct (get_u8_some (pc st) Hpos) as (op & Eop & Hw). rewrite Eop. cbn [mbind option_bind].
  assert (HMAX : height st <= JS_STACK_SIZE_MAX) by (pose proof (inv_max _ _ I); lia).
  assert (Hd0 : decode (pc st) = None -> ~ well_stacked).
  { intros E. apply (stuck st Hr). unfold effects, BytecodeMachine.effects. rewrite option_guard_True by done. cbn [mbind option_bind]. by rewrite E. }
  destruct ((op =? 0) || (OP_COUNT <=? op)) eqn:Eo.
  { apply throw_runs; [done|]. apply Hd0. unfold BytecodeMachine.decode. rewrite Eop. cbn [mbind option_bind]. by rewrite option_guard_False by (unfold word in Hw; lia). }
  assert (Hop : 0 < op < OP_COUNT) by (unfold word in Hw; lia). pose proof (opcodes_ok op Hop) as Hok. unfold op_ok in Hok.
  destruct (short_opcode_info op) as [oi|] eqn:Eoi; [|done]. cbn [mbind option_bind]. rewrite !andb_true_iff in Hok.
  destruct Hok as ((((((Hsz1 & Hsz2) & Hpu1) & Hpu2) & Hpo) & Hfmt) & Hsw).
  set (next := pc st + op_size oi). destruct (Z.ltb_spec (bc_len bc) next) as [Hnx|Hnx].
  { apply throw_runs; [done|]. apply Hd0. unfold BytecodeMachine.decode. rewrite Eop. cbn [mbind option_bind]. rewrite option_guard_True by done. cbn [mbind option_bind].
    rewrite Eoi. cbn [mbind option_bind]. by rewrite option_guard_False by (unfold next in Hnx; lia). }
  assert (Hpop : exists pop, insn_pop bc oi op (pc st) = Some pop).
  { unfold insn_pop. destruct (op_fmt oi) eqn:Ef; eauto; (destruct (get_u16_some (pc st + 1)) as (n & ->); [lia|unfold next in Hnx; lia|cbn; eauto]). }
  destruct Hpop as [pop Hpop]. rewrite Hpop. cbn [mbind option_bind].
  assert (Hd : decode (pc st) = Some (op, pop, n_push oi, next)).
  { unfold BytecodeMachine.decode. rewrite Eop. cbn [mbind option_bind]. rewrite option_guard_True by done. cbn [mbind option_bind].
    rewrite Eoi. cbn [mbind option_bind]. rewrite option_guard_True by (unfold next in Hnx; lia). cbn [mbind option_bind]. by rewrite Hpop. }
  assert (Heff : effects st = (guard (pop <= height st);; guard (height st + (n_push oi - pop) <= JS_STACK_SIZE_MAX);; flow bc st op (height st + (n_push oi - pop)) next)).
  { unfold effects, BytecodeMachine.effects. rewrite option_guard_True by done. cbn [mbind option_bind]. by rewrite Hd. }
  destruct (Z.ltb_spec (height st) pop).
  { apply throw_runs; [done|]. apply (stuck st Hr). rewrite Heff. by rewrite (option_guard_False (pop <= height st)) by lia. }
  rewrite (option_guard_True (pop <= height st)) in Heff by lia. cbn [mbind option_bind] in Heff. set (l := height st + (n_push oi - pop)) in *.
  eapply ebind_runs; [apply (raise_max_runs (pc st) s l st I Hr)|].
  { right. by exists op, pop, (n_push oi), next. }
  { unfold l. lia. }
  { intros Hbig. apply (stuck st Hr). rewrite Heff. by rewrite option_guard_False by lia. }
  intros s1 (I1 & X1 & Hmax & T1 & T2 & T3).
  assert (U1 : unexplored s1 + len (pc_stack s1) = unexplored s + len (pc_stack s)) by (unfold unexplored; by rewrite T1, T3).
  pose proof (matches_extends _ _ _ X1 M) as M1. assert (Hc1 : catch_at s1 (pc st) c) by (unfold catch_at; by rewrite T2).
  pose proof (chain_extends _ _ _ X1 _ Hch) as Hch1. assert (Hlmax : l <= JS_STACK_SIZE_MAX) by (pose proof (inv_max _ _ I1); lia).
  rewrite option_guard_True in Heff by lia. cbn [mbind option_bind] in Heff. clear Hd0.
  eapply runs_mono; [apply (check_next_runs s1 st op oi pop c); try done; [by apply opcodes_ok|lia]|].
  intros [[]|s2] H2; try done. destruct H2 as (I2 & X2 & U2). split_and!; [done|by eapply explores_trans|lia].
Qed.

(** ** The whole exploration *)

Definition popped s (rest : list Z) : StackSizeState :=
  {| stack_len_max := stack_len_max s; stack_level_tab := stack_level_tab s; catch_pos_tab := catch_pos_tab s; pc_stack := rest;
     pc_stack_size := pc_stack_size s; ss_ev := ss_ev s |}.

Lemma invariant_pop s pos rest : invariant (-1) s -> pc_stack s = pos :: rest ->
  invariant pos (popped s rest) /\ (exists l, explored s pos l) /\ unexplored (popped s rest) + len rest = unexplored s + len (pc_stack s) - 1.
Proof.
  intros [I1 I2 I3 I4 I5 I6 [I7 I7'] I8] E. rewrite E in *. cbn [List.length] in *.
  destruct (I5 pos (list_elem_of_here _ _)) as [Hpos Hex]. split_and!; [|done|change (unexplored (popped s rest)) with (unexplored s); lia].
  assert (X : extends s (popped s rest)) by by apply same_extends.
  split; try done.
  - intros p l He. destruct (I3 p l He) as (Hl & st & H1 & H2 & H3 & H4). split; [done|]. exists st. split_and!; try done. by eapply matches_extends.
  - intros p l He Hne Hni. eapply typed_extends; [exact X|]. apply (I4 p l He).
    + pose proof (explored_range _ _ _ I1 He). lia.
    + apply not_elem_of_cons. by split.
  - intros p Hp. apply I5. by right.
  - cbn [pc_stack popped pc_stack_size]. lia.
  - change (unexplored (popped s rest)) with (unexplored s). cbn [pc_stack popped]. lia.
Qed.

Lemma explore_loop_runs fuel : forall s, invariant (-1) s -> unexplored s + len (pc_stack s) <= Z.of_nat fuel ->
  runs (explore_loop bc fuel s) (verdict (fun s' => invariant (-1) s' /\ pc_stack s' = [] /\ extends s s')).
Proof.
  induction fuel as [|fuel IH]; intros s I Hf; cbn [explore_loop]; destruct (pc_stack s) as [|pos rest] eqn:E.
  1, 3: apply ret_runs; split_and!; [done|done|apply explores_refl].
  { cbn [List.length] in Hf. unfold unexplored in Hf. lia. }
  destruct (invariant_pop s pos rest I E) as (I1 & [l He] & U1). fold (popped s rest).
  assert (X : extends s (popped s rest)) by by apply same_extends.
  eapply ebind_runs; [apply (explore_runs _ pos l I1); by apply X|]. intros s2 (I2 & X2 & U2).
  eapply runs_mono; [apply (IH s2 I2); rewrite E in *; cbn [pc_stack popped List.length] in *; lia|].
  intros [[]|s3] H3; try done. destruct H3 as (I3 & E3 & X3). split_and!; try done. by eapply explores_trans, explores_trans.
Qed.

Lemma unexplored_first n : len (filter (eq 0xffff) (replicate n 0xffff)) = Z.of_nat n.
Proof. induction n as [|n IH]; [done|]. cbn [replicate]. rewrite filter_cons_True by done. cbn [List.length]. lia. Qed.

Lemma invariant_first ev : invariant (-1) {| stack_len_max := 0; stack_level_tab := replicate (List.length bc) 0xffff;
  catch_pos_tab := replicate (List.length bc) None; pc_stack := []; pc_stack_size := 0; ss_ev := ev |}.
Proof.
  assert (H : forall pos l, table_get (replicate (List.length bc) 0xffff) pos = Some l -> l = 0xffff).
  { intros pos l. unfold table_get. case_guard; [|done]. cbn. intros E. by apply lookup_replicate in E as [-> _]. }
  split; cbn; rewrite ?length_replicate; try done.
  - intros pos l [E Hne]. cbn in E. by apply H in E.
  - intros pos l [E Hne]. cbn in E. by apply H in E.
  - intros pos Hp. by apply not_elem_of_nil in Hp.
  - split; [done|]. by left.
  - unfold unexplored. cbn. rewrite unexplored_first. unfold bc_len. lia.
Qed.

(** ** Soundness *)

(** When the tables are complete, they type every reachable state. *)
Lemma unwind_matches s : invariant (-1) s -> pc_stack s = [] -> forall h c st', chain s c h -> unwind bc h = Some st' -> matches s st'.
Proof.
  intros I E h. induction h as [|[p lp] h IH]; intros c st'; cbn [chain unwind]; [done|].
  intros (-> & Hp & He & c' & Hc & Hh) Hu. destruct (get_u8 bc (fst (p, lp))) as [op|] eqn:Eop; [|done]. cbn [mbind option_bind fst snd] in *.
  destruct (Z.eqb_spec op OP_catch) as [->|]; [|by eapply IH].
  destruct (inv_typed _ _ I p lp He) as (st & succs & Hpc & M & _ & _ & _ & Hcatch); [lia|rewrite E; apply not_elem_of_nil|].
  destruct (Hcatch Eop) as (t & Et & Mt). rewrite Et in Hu. injection Hu as <-.
  destruct M as [[El _] (c0 & Hc0 & Hch0)]. rewrite Hpc in *. destruct He as [El' _]. rewrite El in El'. injection El' as Hlp.
  unfold catch_at in *. rewrite Hc in Hc0. injection Hc0 as <-. rewrite (chain_unique s _ _ _ Hh Hch0). by rewrite Hlp in Mt.
Qed.

Lemma reachable_matches s : invariant (-1) s -> pc_stack s = [] -> matches s start -> forall st, reachable st -> matches s st /\ typed s (pc st).
Proof.
  intros I E M0.
  assert (Ht : forall st, matches s st -> typed s (pc st)).
  { intros st [He _]. apply (inv_typed _ _ I _ _ He); [|rewrite E; apply not_elem_of_nil]. pose proof (explored_range _ _ _ (inv_levels _ _ I) He). lia. }
  enough (H : forall st, reachable st -> matches s st) by (intros st Hr; split; [by apply H|by apply Ht, H]).
  intros st Hr. unfold reachable, BytecodeMachine.reachable in Hr. revert M0. induction Hr as [st|st1 st2 st3 Hs _ IH]; [done|]. intros M1. apply IH.
  destruct Hs as [st succs st' Heff Hin|st st' Hu].
  - destruct (Ht st M1) as (st0 & succs0 & Hpc & M2 & Heff0 & Hall & _). assert (st0 = st); [|subst st0; rewrite Heff in Heff0; injection Heff0 as <-; by apply Hall].
    destruct M1 as [[E1 _] (c1 & C1 & H1)], M2 as [[E2 _] (c2 & C2 & H2)]. rewrite Hpc in *. rewrite E1 in E2. injection E2 as E2. unfold catch_at in *.
    rewrite C1 in C2. injection C2 as <-. pose proof (chain_unique s _ _ _ H1 H2). destruct st, st0. cbn in *. by subst.
  - destruct M1 as [_ (c & _ & Hch)]. by eapply unwind_matches.
Qed.

Lemma complete_tables s : invariant (-1) s -> pc_stack s = [] -> matches s start ->
  well_stacked /\ (forall st n, reachable st -> holds bc st n -> n <= stack_len_max s) /\
  (stack_len_max s = 0 \/ exists st, reachable st /\ holds bc st (stack_len_max s)).
Proof.
  intros I E M0. pose proof (reachable_matches s I E M0) as H.
  assert (Hsame : forall st st', matches s st -> matches s st' -> pc st = pc st' -> height st = height st' /\ catch_of st = catch_of st').
  { intros st st' [[E1 _] (c1 & C1 & H1)] [[E2 _] (c2 & C2 & H2)] Hpc. unfold catch_at in *. rewrite Hpc in *. rewrite E1 in E2. injection E2 as E2.
    rewrite C1 in C2. injection C2 as <-. by rewrite (catch_of_chain _ _ _ H1), (catch_of_chain _ _ _ H2). }
  assert (Hst : forall st, reachable st -> exists st0 succs, pc st0 = pc st /\ height st0 = height st /\ handlers st0 = handlers st /\ effects st0 = Some succs /\
    (forall op pop push next, decode (pc st) = Some (op, pop, push, next) -> height st + (push - pop) <= stack_len_max s)).
  { intros st Hr. destruct (H st Hr) as [M (st0 & succs & Hpc & M2 & Heff & _ & Hl & _)]. exists st0, succs.
    destruct (Hsame st0 st M2 M Hpc) as [Hh _]. split_and!; try done; [|by rewrite <- Hh].
    destruct M as [_ (c1 & C1 & H1)], M2 as [_ (c2 & C2 & H2)]. unfold catch_at in *. rewrite Hpc, C1 in C2. injection C2 as <-. by apply (chain_unique s _ _ c1). }
  split_and!; [split| |apply (inv_max _ _ I)].
  - intros st Hr Heff. destruct (Hst st Hr) as (st0 & succs & E1 & E2 & E3 & Heff0 & _). destruct st, st0. cbn in *. subst. congruence.
  - intros st st' Hr Hr' Hpc. by apply Hsame; [apply H|apply H|].
  - intros st n Hr [<-|(op & pop & push & next & Hd & _ & <-)].
    + destruct (H st Hr) as [[He _] _]. destruct (inv_reached _ _ I _ _ He) as [Hl _]. lia.
    + destruct (Hst st Hr) as (_ & _ & _ & _ & _ & _ & Hl). by eapply Hl.
Qed.

Lemma compute_stack_size_runs ev : bc <> [] ->
  runs (compute_stack_size bc ev) (verdict (fun n => well_stacked /\ (forall st k, reachable st -> holds bc st k -> k <= n) /\
    (n = 0 \/ exists st, reachable st /\ holds bc st n))).
Proof.
  intros Hne. unfold compute_stack_size. destruct (ext_ok ev) eqn:E1; cbn [negb]; [|apply runs_ret; by exists ev].
  destruct (ext_ok (S ev)) eqn:E2; cbn [negb]; [|apply runs_ret; by exists (S ev)]. set (s0 := {| stack_len_max := 0 |}).
  pose proof (invariant_first (S (S ev))) as I0. fold s0 in I0.
  eapply ebind_runs; [apply (ss_check_runs (-1) s0 start (-1) I0)|].
  - apply rtc_refl.
  - done.
  - cbn. unfold sword. lia.
  - done.
  - intros s1 (I1 & X1 & M1 & U1). eapply ebind_runs; [apply (explore_loop_runs _ s1 I1)|].
    + pose proof (inv_measure _ _ I1). unfold bc_len in *. lia.
    + intros s2 (I2 & E3 & X2). apply ret_runs. apply complete_tables; try done. by eapply matches_extends.
Qed.
End spec.

(** C4: [compute_stack_size] is a type checker for the stack: it ends without undefined
    behaviour, and when it accepts the bytecode, no execution of it is ever stuck (no invalid
    instruction, no jump out of the code, no underflow, no missing catch offset), every
    position is reached with one height and one innermost catch offset, and the size that it
    returns is the largest height that occurs.  When it rejects the bytecode, this fails for
    some execution, or the memory was missing. *)
Theorem compute_stack_size_sound {W : World} {Sl : Slack} bc ev : (forall n, 0 <= slack n) -> Forall (word 8) bc -> bc <> [] -> len bc < 2 ^ 28 ->
  exists r, compute_stack_size bc ev = Some r /\
    match r with
    | inr n => well_stacked bc /\ (forall st k, reachable bc st -> holds bc st k -> k <= n) /\ (n = 0 \/ exists st, reachable bc st /\ holds bc st n)
    | inl NoMemory => exists k, ext_ok k = false
    | inl _ => ~ well_stacked bc
    end.
Proof.
  intros Hsl Hb Hne Hlen. destruct (compute_stack_size_runs bc Hsl Hb Hlen ev Hne) as (r & E & H). exists r. split; [done|]. by destruct r as [[]|n].
Qed.

#[local] Instance healthy : World := fun _ => true.
#[local] Instance exact : Slack := fun _ => 0.

Example try_ok : compute_stack_size [OP "catch"; 9; 0; 0; 0; OP "get_loc0"; OP "call0"; OP "drop"; OP "drop"; OP "return_undef"; OP "drop"; OP "return_undef"] 0 = Some (inr 2).
Proof. vm_compute. reflexivity. Qed.
Example leak_rejected : compute_stack_size [OP "push_0"; OP "goto8"; 254] 0 = Some (inl InconsistentSize).
Proof. vm_compute. reflexivity. Qed.
Example underflow_rejected : compute_stack_size [OP "drop"] 0 = Some (inl StackUnderflow).
Proof. vm_compute. reflexivity. Qed.

Lemma compute_stack_size_sound_witness : exists r, compute_stack_size [OP "push_0"; OP "return"] 0 = Some r /\
    match r with
    | inr n => well_stacked [OP "push_0"; OP "return"] /\ (forall st k, reachable [OP "push_0"; OP "return"] st -> holds [OP "push_0"; OP "return"] st k -> k <= n) /\
        (n = 0 \/ exists st, reachable [OP "push_0"; OP "return"] st /\ holds [OP "push_0"; OP "return"] st n)
    | inl NoMemory => exists k, ext_ok k = false
    | inl _ => ~ well_stacked [OP "push_0"; OP "return"]
    end.
Proof. apply (compute_stack_size_sound [OP "push_0"; OP "return"] 0); [done|repeat constructor; done|done|cbn; lia]. Defined.
