(* ===== verification/Atoms.v ===== *)
(** * Atoms

    The table of the interned names of [src/quickjs/quickjs.c] ([JSAtom],
    [JSRuntime.atom_array], [JSRuntime.atom_hash]) with the predefined names of
    [src/quickjs/quickjs-atom.h].

    A string ([JSString]) and the structure of its atom are the same object of the heap, with
    one reference count for the values and the atoms.  An entry of the array is free or holds
    the address of a string.  [None] is an access out of the array or through a dangling or a
    tagged pointer, a failed assertion or a loop that does not end.  The field [hash] of a
    symbol counts its weak references; none are made here. *)
From S2P Require Export LinkedList Itoa Strings.

Definition JS_ATOM_NULL : Z := 0.
Definition JS_ATOM_TAG_INT : Z := 2 ^ 31.
Definition JS_ATOM_MAX_INT : Z := JS_ATOM_TAG_INT - 1.
Definition JS_ATOM_MAX : Z := 2 ^ 30 - 1.
Definition JS_ATOM_COUNT_RESIZE (n : Z) : Z := n * 2.
Definition JS_ATOM_HASH_MASK : Z := 2 ^ 30 - 1.
Definition JS_ATOM_HASH_PRIVATE : Z := JS_ATOM_HASH_MASK.

Definition JS_ATOM_TYPE_STRING : Z := 1.
Definition JS_ATOM_TYPE_GLOBAL_SYMBOL : Z := 2.
Definition JS_ATOM_TYPE_SYMBOL : Z := 3.
Definition JS_ATOM_TYPE_PRIVATE : Z := 4.

(** The characters of a literal. *)
Definition chars (s : string) : list Z := (fun a => Z.of_N (Ascii.N_of_ascii a)) <$> String.list_ascii_of_string s.

Definition js_atom_init : list string := [
  "null"; "false"; "true"; "if"; "else"; "return"; "var"; "this"; "delete"; "void"; "typeof"; "new"; "in";
  "instanceof"; "do"; "while"; "for"; "break"; "continue"; "switch"; "case"; "default"; "throw"; "try";
  "catch"; "finally"; "function"; "debugger"; "with"; "class"; "const"; "enum"; "export"; "extends";
  "import"; "super"; "implements"; "interface"; "let"; "package"; "private"; "protected"; "public";
  "static"; "yield"; "await"; ""; "keys"; "size"; "length"; "fileName"; "lineNumber"; "columnNumber";
  "message"; "cause"; "errors"; "stack"; "name"; "toString"; "toLocaleString"; "valueOf"; "eval";
  "prototype"; "constructor"; "configurable"; "writable"; "enumerable"; "value"; "get"; "set"; "of";
  "__proto__"; "undefined"; "number"; "boolean"; "string"; "object"; "symbol"; "integer"; "unknown";
  "arguments"; "callee"; "caller"; "<eval>"; "<ret>"; "<var>"; "<arg_var>"; "<with>"; "lastIndex"; "target";
  "index"; "input"; "defineProperties"; "apply"; "join"; "concat"; "split"; "construct"; "getPrototypeOf";
  "setPrototypeOf"; "isExtensible"; "preventExtensions"; "has"; "deleteProperty"; "defineProperty";
  "getOwnPropertyDescriptor"; "ownKeys"; "add"; "done"; "next"; "values"; "source"; "flags"; "global";
  "unicode"; "raw"; "rawJSON"; "new.target"; "this.active_func"; "<home_object>"; "<computed_field>";
  "<static_computed_field>"; "<class_fields_init>"; "<brand>"; "#constructor"; "as"; "from"; "meta";
  "*default*"; "*"; "Module"; "then"; "resolve"; "reject"; "promise"; "proxy"; "revoke"; "async"; "exec";
  "groups"; "indices"; "status"; "reason"; "globalThis"; "bigint"; "-0"; "Infinity"; "-Infinity"; "NaN";
  "hasIndices"; "ignoreCase"; "multiline"; "dotAll"; "sticky"; "unicodeSets"; "not-equal"; "timed-out";
  "ok"; "toISOString"; "alphabet"; "lastChunkHandling"; "omitPadding"; "toJSON"; "maxByteLength"; "Object";
  "Array"; "Error"; "Number"; "String"; "Boolean"; "Symbol"; "Arguments"; "Math"; "JSON"; "Date";
  "Function"; "GeneratorFunction"; "ForInIterator"; "RegExp"; "ArrayBuffer"; "SharedArrayBuffer";
  "Uint8ClampedArray"; "Int8Array"; "Uint8Array"; "Int16Array"; "Uint16Array"; "Int32Array"; "Uint32Array";
  "BigInt64Array"; "BigUint64Array"; "Float16Array"; "Float32Array"; "Float64Array"; "DataView"; "BigInt";
  "WeakRef"; "FinalizationRegistry"; "Map"; "Set"; "WeakMap"; "WeakSet"; "Iterator"; "Iterator Helper";
  "Iterator Concat"; "Iterator Wrap"; "Map Iterator"; "Set Iterator"; "Array Iterator"; "String Iterator";
  "RegExp String Iterator"; "Generator"; "Proxy"; "Promise"; "PromiseResolveFunction";
  "PromiseRejectFunction"; "AsyncFunction"; "AsyncFunctionResolve"; "AsyncFunctionReject";
  "AsyncGeneratorFunction"; "AsyncGenerator"; "EvalError"; "RangeError"; "ReferenceError"; "SyntaxError";
  "TypeError"; "URIError"; "InternalError"; "AggregateError"; "<brand>"; "Symbol.toPrimitive";
  "Symbol.iterator"; "Symbol.match"; "Symbol.matchAll"; "Symbol.replace"; "Symbol.search"; "Symbol.split";
  "Symbol.toStringTag"; "Symbol.isConcatSpreadable"; "Symbol.hasInstance"; "Symbol.species";
  "Symbol.unscopables"; "Symbol.asyncIterator"]%string.

Definition JS_ATOM_END : Z := len js_atom_init + 1.
Definition JS_ATOM_empty_string : Z := 47.
Definition JS_ATOM_Private_brand : Z := 229.
Definition JS_ATOM_Symbol_toPrimitive : Z := 230.

Definition __JS_AtomIsConst (v : Z) : bool := i32 v <? JS_ATOM_END.
Definition __JS_AtomIsTaggedInt (v : Z) : bool := negb (v .& JS_ATOM_TAG_INT =? 0).
Definition __JS_AtomFromUInt32 (v : Z) : Z := v .| JS_ATOM_TAG_INT.
Definition __JS_AtomToUInt32 (atom : Z) : Z := atom .& JS_ATOM_MAX_INT.

Definition is_num (c : Z) : bool := (48 <=? c) && (c <=? 57).

(** The loop of [is_num_string] over the characters that follow the first one. *)
Fixpoint num_loop (n : Z) (l : list Z) : option Z :=
  match l with
  | [] => Some n
  | c :: l =>
      if negb (is_num c) then None
      else
        let n64 := n * 10 + (c - 48) in
        if negb (n64 >> 32 =? 0) then None else num_loop n64 l
  end.

(** The number, when there is one. *)
Definition is_num_string (p : JSString) : option Z :=
  match units p with
  | [] => None
  | c :: l =>
      if 10 <? len (units p) then None
      else if is_num c then
        if c =? 48 then if negb (len (units p) =? 1) then None else Some 0
        else num_loop (c - 48) l
      else None
  end.

(** Both widths. *)
Definition hash_string (str : list Z) (h : Z) : Z := foldl (fun h c => u32 (h * 263 + c)) h str.

(** ** The table *)

(** [as_next] is [hash_next]: the next atom of the bucket, or the atom itself for a
    symbol. *)
Record JSAtomStruct := mkAtom {
  as_ref_count : Z;
  str : JSString;
  as_hash : Z;
  atom_type : Z;
  as_next : Z
}.

Definition with_ref_count n p := mkAtom n (str p) (as_hash p) (atom_type p) (as_next p).
Definition with_next n p := mkAtom (as_ref_count p) (str p) (as_hash p) (atom_type p) n.

(** [atom_set_free], or a pointer. *)
Inductive slot := Free (next : Z) | Used (p : ptr).

(** [atom_size] and [atom_hash_size] are the lengths of the arrays; [strings] is the heap;
    [ev] numbers the allocations. *)
Record JSRuntime := mkRuntime {
  strings : gmap ptr JSAtomStruct;
  atom_array : list slot;
  atom_hash : list Z;
  atom_count : Z;
  atom_count_resize : Z;
  atom_free_index : Z;
  ev : nat
}.

Definition set_strings m s := mkRuntime m (atom_array s) (atom_hash s) (atom_count s) (atom_count_resize s) (atom_free_index s) (ev s).
Definition set_array a free s := mkRuntime (strings s) a (atom_hash s) (atom_count s) (atom_count_resize s) free (ev s).
Definition set_hash h s := mkRuntime (strings s) (atom_array s) h (atom_count s) (atom_count_resize s) (atom_free_index s) (ev s).
Definition set_hash_size h r s := mkRuntime (strings s) (atom_array s) h (atom_count s) r (atom_free_index s) (ev s).
Definition set_count n s := mkRuntime (strings s) (atom_array s) (atom_hash s) n (atom_count_resize s) (atom_free_index s) (ev s).
Definition tick s := mkRuntime (strings s) (atom_array s) (atom_hash s) (atom_count s) (atom_count_resize s) (atom_free_index s) (S (ev s)).
Definition write p st s := set_strings (<[p := st]> (strings s)) s.
Definition js_free_rt p s := set_strings (delete p (strings s)) s.

Definition atom_size s : Z := len (atom_array s).
Definition atom_hash_size s : Z := len (atom_hash s).

(** [rt->atom_array[i]] as a pointer, and the structure it points to. *)
Definition atom_ptr s (i : Z) : option ptr :=
  match atom_array s !! Z.to_nat i with Some (Used p) => Some p | _ => None end.
Definition atom_struct s (i : Z) : option JSAtomStruct := p ← atom_ptr s i; strings s !! p.

(** [h & (rt->atom_hash_size - 1)]. *)
Definition bucket s (h : Z) : nat := Z.to_nat (h .& (atom_hash_size s - 1)).

Section runtime.
Context {W : World} {Al : Malloc}.

Definition js_malloc_rt (s : JSRuntime) : bool * JSRuntime := (ext_ok (ev s), tick s).
Definition fresh_string (s : JSRuntime) : ptr := malloc (dom (strings s)).

(** The atoms of a bucket, from [h] on, go to their buckets in [tab]. *)
Fixpoint move_bucket (fuel : nat) (mask h : Z) (s : JSRuntime) (tab : list Z) : option (JSRuntime * list Z) :=
  if h =? 0 then Some (s, tab)
  else
    match fuel with
    | O => None
    | S fuel =>
        p ← atom_ptr s h;
        st ← strings s !! p;
        let j := Z.to_nat (as_hash st .& mask) in
        old ← tab !! j;
        move_bucket fuel mask (as_next st) (write p (with_next old st) s) (<[j := h]> tab)
    end.

(** The result is whether it fails. *)
Definition JS_ResizeAtomHash (s : JSRuntime) (new_hash_size : Z) : option (bool * JSRuntime) :=
  guard (new_hash_size .& (new_hash_size - 1) = 0);;
  let '(ok, s) := js_malloc_rt s in
  if negb ok then Some (true, s)
  else
    '(s, tab) ← foldM (fun x h => move_bucket (length (atom_array s)) (new_hash_size - 1) h (fst x) (snd x))
      (atom_hash s) (s, replicate (Z.to_nat new_hash_size) 0);
    Some (false, set_hash_size tab (JS_ATOM_COUNT_RESIZE new_hash_size) s).

(** The loop of [js_get_atom_index], at the atom [i]. *)
Fixpoint index_loop (fuel : nat) (s : JSRuntime) (p : ptr) (i : Z) : option Z :=
  p1 ← atom_ptr s i;
  if decide (p1 = p) then Some i
  else
    match fuel with
    | O => None
    | S fuel => guard (i <> 0);; st1 ← strings s !! p1; index_loop fuel s p (as_next st1)
    end.

Definition js_get_atom_index (s : JSRuntime) (p : ptr) : option Z :=
  st ← strings s !! p;
  if negb (atom_type st =? JS_ATOM_TYPE_SYMBOL) then
    i ← atom_hash s !! bucket s (as_hash st);
    index_loop (length (atom_array s)) s p i
  else Some (as_next st).

(** The loop of [JS_FreeAtomStruct], at the atom [i]: [p] leaves its bucket. *)
Fixpoint unlink_loop (fuel : nat) (s : JSRuntime) (p : ptr) (i : Z) : option (Z * JSRuntime) :=
  match fuel with
  | O => None
  | S fuel =>
      guard (i <> 0);;
      p0 ← atom_ptr s i;
      st0 ← strings s !! p0;
      p1 ← atom_ptr s (as_next st0);
      if decide (p1 = p) then
        st1 ← strings s !! p1;
        Some (as_next st0, write p0 (with_next (as_next st1) st0) s)
      else unlink_loop fuel s p (as_next st0)
  end.

Definition JS_FreeAtomStruct (s : JSRuntime) (p : ptr) : option JSRuntime :=
  st ← strings s !! p;
  '(i, s) ←
    (if negb (atom_type st =? JS_ATOM_TYPE_SYMBOL) then
       let h0 := bucket s (as_hash st) in
       i ← atom_hash s !! h0;
       p1 ← atom_ptr s i;
       if decide (p1 = p) then Some (i, set_hash (<[h0 := as_next st]> (atom_hash s)) s)
       else unlink_loop (length (atom_array s)) s p i
     else Some (as_next st, s));
  guard (Z.to_nat i < length (atom_array s))%nat;;
  let s := set_array (<[Z.to_nat i := Free (atom_free_index s)]> (atom_array s)) i s in
  let s := if (atom_type st =? JS_ATOM_TYPE_SYMBOL) && negb (as_hash st =? JS_ATOM_HASH_PRIVATE) && negb (as_hash st =? 0)
           then s else js_free_rt p s in
  let s := set_count (atom_count s - 1) s in
  guard (0 <= atom_count s);;
  Some s.

Definition js_free_string (s : JSRuntime) (p : ptr) : option JSRuntime :=
  st ← strings s !! p;
  let n := as_ref_count st - 1 in
  let s := write p (with_ref_count n st) s in
  if n <=? 0 then if negb (atom_type st =? 0) then JS_FreeAtomStruct s p else Some (js_free_rt p s)
  else Some s.

(** [JS_FreeValue] of a string or, if [symbol], of a symbol. *)
Definition JS_FreeValue (s : JSRuntime) (symbol : bool) (p : ptr) : option JSRuntime :=
  st ← strings s !! p;
  let n := as_ref_count st - 1 in
  let s := write p (with_ref_count n st) s in
  if n <=? 0 then if symbol || negb (atom_type st =? 0) then JS_FreeAtomStruct s p else Some (js_free_rt p s)
  else Some s.

Definition __JS_FreeAtom (s : JSRuntime) (i : Z) : option JSRuntime :=
  p ← atom_ptr s i;
  st ← strings s !! p;
  let s := write p (with_ref_count (as_ref_count st - 1) st) s in
  if 0 <? as_ref_count st - 1 then Some s else JS_FreeAtomStruct s p.

Definition JS_FreeAtom (s : JSRuntime) (v : Z) : option JSRuntime :=
  if negb (__JS_AtomIsConst v) then __JS_FreeAtom s v else Some s.

Definition JS_DupAtom (s : JSRuntime) (v : Z) : option JSRuntime :=
  if negb (__JS_AtomIsConst v) then
    p ← atom_ptr s v;
    st ← strings s !! p;
    Some (write p (with_ref_count (as_ref_count st + 1) st) s)
  else Some s.

(** ** New atoms *)

(** The search of [__JS_NewAtom]: the atom of the string. *)
Fixpoint find_atom (fuel : nat) (s : JSRuntime) (h type : Z) (text : list Z) (i : Z) : option (option Z) :=
  if i =? 0 then Some None
  else
    match fuel with
    | O => None
    | S fuel =>
        st ← atom_struct s i;
        if (as_hash st =? h) && (atom_type st =? type) && (len (units (str st)) =? len text)
           && (js_string_memcmp (units (str st)) text (length text) =? 0)
        then Some (Some i)
        else find_atom fuel s h type text (as_next st)
    end.

(** The free entries [start], ..., [new_size - 1]. *)
Definition free_slots (start new_size : Z) : list slot :=
  (fun i => Free (if Z.of_nat i =? new_size - 1 then 0 else Z.of_nat i + 1)) <$> seq (Z.to_nat start) (Z.to_nat (new_size - start)).

(** The array gets new entries; the result is whether it fails. *)
Definition grow_atoms (s : JSRuntime) : option (bool * JSRuntime) :=
  let new_size := Z.max 711 (u32 (atom_size s * 3) / 2) in
  if JS_ATOM_MAX <? new_size then Some (true, s)
  else
    let '(ok, s) := js_malloc_rt s in
    if negb ok then Some (true, s)
    else if atom_size s =? 0 then
      let '(ok, s) := js_malloc_rt s in
      if negb ok then Some (true, s)
      else
        let p := fresh_string s in
        let s := write p (mkAtom 1 (mkString false []) 0 JS_ATOM_TYPE_SYMBOL 0) s in
        let s := set_array (Used p :: free_slots 1 new_size) 1 s in
        Some (false, set_count (atom_count s + 1) s)
    else Some (false, set_array (atom_array s ++ free_slots (atom_size s) new_size) (atom_size s) s).

(** The structure of the new atom: the string itself, a copy, or the empty wide string. *)
Definition new_struct (s : JSRuntime) (p : option ptr) : option (option ptr * JSRuntime) :=
  match p with
  | Some p =>
      st ← strings s !! p;
      if atom_type st =? 0 then Some (Some p, s)
      else
        let '(ok, s) := js_malloc_rt s in
        if negb ok then Some (None, s)
        else
          let q := fresh_string s in
          let s := write q (mkAtom 1 (str st) 0 0 0) s in
          s ← js_free_string s p;
          Some (Some q, s)
  | None =>
      let '(ok, s) := js_malloc_rt s in
      if negb ok then Some (None, s)
      else
        let q := fresh_string s in
        Some (Some q, write q (mkAtom 1 (mkString true []) 0 0 0) s)
  end.

(** The string is freed on failure. *)
Definition release (s : JSRuntime) (p : option ptr) : option JSRuntime :=
  match p with Some p => js_free_string s p | None => Some s end.

(** The end of [__JS_NewAtom]: [q] takes a free entry. *)
Definition add_atom (s : JSRuntime) (q : ptr) (h type : Z) : option (Z * JSRuntime) :=
  let i := atom_free_index s in
  match atom_array s !! Z.to_nat i with
  | Some (Free next) =>
      st ← strings s !! q;
      let s := set_array (<[Z.to_nat i := Used q]> (atom_array s)) next s in
      let s := set_count (atom_count s + 1) s in
      if negb (type =? JS_ATOM_TYPE_SYMBOL) then
        let h1 := bucket s h in
        old ← atom_hash s !! h1;
        let s := write q (mkAtom (as_ref_count st) (str st) h type old) s in
        let s := set_hash (<[h1 := i]> (atom_hash s)) s in
        s ← (if atom_count_resize s <=? atom_count s then snd <$> JS_ResizeAtomHash s (atom_hash_size s * 2) else Some s);
        Some (i, s)
      else Some (i, write q (mkAtom (as_ref_count st) (str st) h type i) s)
  | _ => None
  end.

(** No atom was found. *)
Definition new_atom (s : JSRuntime) (p : option ptr) (h type : Z) : option (Z * JSRuntime) :=
  '(failed, s) ← (if atom_free_index s =? 0 then grow_atoms s else Some (false, s));
  if (failed : bool) then s ← release s p; Some (JS_ATOM_NULL, s)
  else
    '(q, s) ← new_struct s p;
    match q with
    | None => s ← release s p; Some (JS_ATOM_NULL, s)
    | Some q => add_atom s q h type
    end.

Definition __JS_NewAtom (s : JSRuntime) (p : option ptr) (type : Z) : option (Z * JSRuntime) :=
  if type <? JS_ATOM_TYPE_SYMBOL then
    p ← p;
    st ← strings s !! p;
    if atom_type st =? type then
      i ← js_get_atom_index s p;
      Some (i, if __JS_AtomIsConst i then write p (with_ref_count (as_ref_count st - 1) st) s else s)
    else
      let h := hash_string (units (str st)) type .& JS_ATOM_HASH_MASK in
      i ← atom_hash s !! bucket s h;
      found ← find_atom (length (atom_array s)) s h type (units (str st)) i;
      match found with
      | Some i =>
          s ← JS_DupAtom s i;
          s ← js_free_string s p;
          Some (i, s)
      | None => new_atom s (Some p) h type
      end
  else
    let '(h, type) := if type =? JS_ATOM_TYPE_SYMBOL then (0, type) else (JS_ATOM_HASH_PRIVATE, JS_ATOM_TYPE_SYMBOL) in
    new_atom s p h type.

Definition JS_NewSymbolInternal (s : JSRuntime) (p : option ptr) (type : Z) : option (option ptr * JSRuntime) :=
  '(atom, s) ← __JS_NewAtom s p type;
  if atom =? JS_ATOM_NULL then Some (None, s) else q ← atom_ptr s atom; Some (Some q, s).

(** A new string. *)
Definition js_alloc_string (s : JSRuntime) (text : JSString) : option ptr * JSRuntime :=
  let '(ok, s) := js_malloc_rt s in
  if negb ok then (None, s)
  else let p := fresh_string s in (Some p, write p (mkAtom 1 text 0 0 0) s).

Definition __JS_NewAtomInit (s : JSRuntime) (text : list Z) (type : Z) : option (Z * JSRuntime) :=
  let '(p, s) := js_alloc_string s (mkString false text) in
  match p with None => Some (JS_ATOM_NULL, s) | Some p => __JS_NewAtom s (Some p) type end.

(** The type of the atom [i]. *)
Definition init_type (i : Z) : Z :=
  if i =? JS_ATOM_Private_brand then JS_ATOM_TYPE_PRIVATE
  else if JS_ATOM_Symbol_toPrimitive <=? i then JS_ATOM_TYPE_SYMBOL
  else JS_ATOM_TYPE_STRING.

(** The loop of [JS_InitAtoms]; the result is whether it fails. *)
Fixpoint init_loop (s : JSRuntime) (i : Z) (l : list string) : option (bool * JSRuntime) :=
  match l with
  | [] => Some (false, s)
  | t :: l =>
      '(a, s) ← __JS_NewAtomInit s (chars t) (init_type i);
      if a =? JS_ATOM_NULL then Some (true, s) else init_loop s (i + 1) l
  end.

Definition empty_runtime : JSRuntime := mkRuntime ∅ [] [] 0 0 0 0.

Definition JS_InitAtoms (s : JSRuntime) : option (bool * JSRuntime) :=
  '(failed, s) ← JS_ResizeAtomHash s 512;
  if (failed : bool) then Some (true, s) else init_loop s 1 js_atom_init.

(** ** Strings and numbers *)

Definition JS_NewAtomStr (s : JSRuntime) (p : ptr) : option (Z * JSRuntime) :=
  st ← strings s !! p;
  match is_num_string (str st) with
  | Some n =>
      if n <=? JS_ATOM_MAX_INT then s ← js_free_string s p; Some (__JS_AtomFromUInt32 n, s)
      else __JS_NewAtom s (Some p) JS_ATOM_TYPE_STRING
  | None => __JS_NewAtom s (Some p) JS_ATOM_TYPE_STRING
  end.

(** [js_new_string8_len] of the decimal digits. *)
Definition JS_NewAtomUInt32 (s : JSRuntime) (n : Z) : option (Z * JSRuntime) :=
  if n <=? JS_ATOM_MAX_INT then Some (__JS_AtomFromUInt32 n, s)
  else
    text ← u32toa n;
    let '(p, s) := js_alloc_string s (mkString false text) in
    match p with None => Some (JS_ATOM_NULL, s) | Some p => __JS_NewAtom s (Some p) JS_ATOM_TYPE_STRING end.

(** The value is a string or a symbol. *)
Definition __JS_AtomToValue (s : JSRuntime) (atom : Z) (force_string : bool) : option (option ptr * JSRuntime) :=
  if __JS_AtomIsTaggedInt atom then
    text ← u32toa (__JS_AtomToUInt32 atom);
    Some (js_alloc_string s (mkString false text))
  else
    guard (atom < atom_size s);;
    p ← atom_ptr s atom;
    st ← strings s !! p;
    p ← (if negb (atom_type st =? JS_ATOM_TYPE_STRING) && force_string && (len (units (str st)) =? 0) && is_wide_char (str st)
         then atom_ptr s JS_ATOM_empty_string else Some p);
    st ← strings s !! p;
    Some (Some p, write p (with_ref_count (as_ref_count st + 1) st) s).

Definition JS_AtomIsArrayIndex (s : JSRuntime) (atom : Z) : option (option Z) :=
  if __JS_AtomIsTaggedInt atom then Some (Some (__JS_AtomToUInt32 atom))
  else
    guard (atom < atom_size s);;
    st ← atom_struct s atom;
    Some (if atom_type st =? JS_ATOM_TYPE_STRING then
            n ← is_num_string (str st); if n =? 2 ^ 32 - 1 then None else Some n
          else None).

(** [JS_DupValue] of a string. *)
Definition dup_string (s : JSRuntime) (p : ptr) : option JSRuntime :=
  st ← strings s !! p; Some (write p (with_ref_count (as_ref_count st + 1) st) s).
End runtime.
