(* ===== verification/AtomTable.v ===== *)
(** * The hash table and the free list of the atoms

    The atoms of a bucket and the free entries of the array form lists.  The searches end
    and find their atom, the rehashing keeps the atoms, and an atom can leave its list. *)
From S2P Require Export Atoms.

(** ** Linked indices *)

(** The indices [l] follow each other from [h]; 0 ends the list. *)
Fixpoint path (nx : Z -> option Z) (h : Z) (l : list Z) : Prop :=
  match l with
  | [] => h = 0
  | i :: l => h = i /\ 0 < i /\ exists n, nx i = Some n /\ path nx n l
  end.

Lemma path_ext nx nx' h l : (forall i, i ∈ l -> nx' i = nx i) -> path nx h l -> path nx' h l.
Proof.
  revert h. induction l as [|i l IH]; intros h He; cbn; [done|]. intros (-> & Hi & n & En & Hp).
  split_and!; try done. exists n. split; [rewrite <- En; apply He; by left|]. apply IH; [|done]. intros j Hj. apply He. by right.
Qed.

Lemma path_pos nx h l i : path nx h l -> i ∈ l -> 0 < i.
Proof.
  revert h. induction l as [|j l IH]; intros h; cbn; [by intros _ ?%not_elem_of_nil|]. intros (_ & Hj & n & _ & Hp) [->|Hi]%elem_of_cons; [done|by eapply IH].
Qed.

Lemma path_head nx h l : path nx h l -> h = 0 <-> l = [].
Proof. destruct l as [|i l]; cbn; [done|]. intros (-> & Hi & _). split; [lia|done]. Qed.

Lemma path_some nx h l i : path nx h l -> i ∈ l -> is_Some (nx i).
Proof.
  revert h. induction l as [|j l IH]; intros h; cbn; [by intros _ ?%not_elem_of_nil|]. intros (_ & _ & n & En & Hp) [->|Hi]%elem_of_cons; [by eexists|by eapply IH].
Qed.

(** The indices of a list fit in the array. *)
Lemma path_length l (n : nat) : NoDup l -> (forall i, i ∈ l -> 0 < i < Z.of_nat n) -> (length l <= n)%nat.
Proof.
  intros Hnd Hb. assert (Hsub : l ⊆+ (Z.of_nat <$> seq 0 n)).
  { apply NoDup_submseteq; [done|]. intros i Hi. specialize (Hb i Hi). apply list_elem_of_fmap. exists (Z.to_nat i). split; [lia|]. apply elem_of_seq. lia. }
  apply submseteq_length in Hsub. by rewrite length_fmap, length_seq in Hsub.
Qed.

(** ** The invariant *)

Definition slot_ptr (s : JSRuntime) (i : Z) (p : ptr) : Prop := atom_array s !! Z.to_nat i = Some (Used p).

Lemma atom_ptr_some s i p : atom_ptr s i = Some p <-> slot_ptr s i p.
Proof. unfold atom_ptr, slot_ptr. destruct (atom_array s !! Z.to_nat i) as [[n|q]|]; split; naive_solver. Qed.

Lemma atom_struct_some s i st : atom_struct s i = Some st <-> exists p, slot_ptr s i p /\ strings s !! p = Some st.
Proof.
  unfold atom_struct. split.
  - destruct (atom_ptr s i) as [p|] eqn:E; [|done]. cbn. intros Es. exists p. split; [by apply atom_ptr_some|done].
  - intros (p & Hp%atom_ptr_some & Es). by rewrite Hp.
Qed.

(** A structure without the link of its bucket. *)
Definition core (st : JSAtomStruct) : JSAtomStruct := with_next 0 st.
Definition cores (s : JSRuntime) : gmap ptr JSAtomStruct := core <$> strings s.

Definition nx_hash (s : JSRuntime) (i : Z) : option Z := as_next <$> atom_struct s i.
Definition nx_free (a : list slot) (i : Z) : option Z := match a !! Z.to_nat i with Some (Free n) => Some n | _ => None end.

(** The atom [i] is in the bucket of the hash [h]. *)
Definition hashed (s : JSRuntime) (i h : Z) : Prop :=
  0 < i /\ exists st, atom_struct s i = Some st /\ atom_type st <> JS_ATOM_TYPE_SYMBOL /\ as_hash st = h.

Definition buckets_ok (s : JSRuntime) (tab : list Z) (P : Z -> Z -> Prop) : Prop :=
  forall b h, tab !! b = Some h -> exists l, path (nx_hash s) h l /\ NoDup l /\
    forall i, i ∈ l <-> exists k, P i k /\ Z.to_nat (k .& (len tab - 1)) = b.

Definition free_ok (a : list slot) (f : Z) : Prop :=
  exists l, path (nx_free a) f l /\ NoDup l /\ forall i, i ∈ l <-> 0 < i /\ is_Some (nx_free a i).

(** The hash of a name. *)
Definition name_hash (type : Z) (text : list Z) : Z := hash_string text type .& JS_ATOM_HASH_MASK.

Record names_ok (s : JSRuntime) : Prop := {
  n_used i p : slot_ptr s (Z.of_nat i) p -> exists st, strings s !! p = Some st /\ 1 <= atom_type st <= 3 /\ (i = O -> atom_type st = JS_ATOM_TYPE_SYMBOL) /\
    (atom_type st = JS_ATOM_TYPE_SYMBOL -> (i <> O -> as_next st = Z.of_nat i) /\ (as_hash st = 0 \/ as_hash st = JS_ATOM_HASH_PRIVATE)) /\
    (atom_type st <> JS_ATOM_TYPE_SYMBOL -> as_hash st = name_hash (atom_type st) (units (str st)));
  n_inj i j p : slot_ptr s (Z.of_nat i) p -> slot_ptr s (Z.of_nat j) p -> i = j;
  n_atom p st : strings s !! p = Some st -> (atom_type st = 0 \/ exists i, slot_ptr s (Z.of_nat i) p);
  n_unique i j si sj : atom_struct s i = Some si -> atom_struct s j = Some sj -> 0 < i -> 0 < j -> atom_type si <> JS_ATOM_TYPE_SYMBOL ->
    atom_type si = atom_type sj -> units (str si) = units (str sj) -> i = j;
  n_null : atom_size s <> 0 -> exists p, slot_ptr s 0 p
}.

Definition used (x : slot) : Prop := match x with Used _ => True | Free _ => False end.
#[export] Instance used_dec x : Decision (used x).
Proof. destruct x; apply _. Defined.

Record table_ok (s : JSRuntime) : Prop := {
  t_size : exists k, 0 <= k /\ length (atom_hash s) = Z.to_nat (2 ^ k);
  t_buckets : buckets_ok s (atom_hash s) (hashed s);
  t_free : free_ok (atom_array s) (atom_free_index s);
  t_names : names_ok s;
  t_count : atom_count s = len (filter used (atom_array s));
  t_max : atom_size s <= JS_ATOM_MAX
}.

Lemma bucket_bound (tab : list Z) h : (exists k, 0 <= k /\ length tab = Z.to_nat (2 ^ k)) -> 0 <= h -> (Z.to_nat (h .& (len tab - 1)) < length tab)%nat.
Proof.
  intros (k & Hk & El) Hh. pose proof (Z.pow_pos_nonneg 2 k ltac:(lia) Hk). rewrite El, Z2Nat.id by lia.
  replace (2 ^ k - 1) with (Z.ones k) by (rewrite Z.ones_equiv; lia). rewrite Z.land_ones by lia. pose proof (Z.mod_pos_bound h (2 ^ k)). lia.
Qed.

Lemma name_hash_nonneg t u : 0 <= name_hash t u.
Proof. apply Z.land_nonneg. right. unfold JS_ATOM_HASH_MASK. lia. Qed.

Lemma slot_nat s i p : slot_ptr s i p -> 0 <= i -> exists n, i = Z.of_nat n /\ slot_ptr s (Z.of_nat n) p /\ (n < length (atom_array s))%nat.
Proof.
  intros Hs Hi. exists (Z.to_nat i). rewrite Z2Nat.id by done. split_and!; try done. by eapply lookup_lt_Some.
Qed.

Lemma hashed_bound s i h : hashed s i h -> 0 < i < atom_size s.
Proof.
  intros (Hi & st & (p & Hp & _)%atom_struct_some & _). split; [done|]. apply lookup_lt_Some in Hp. unfold atom_size. lia.
Qed.

Lemma hashed_det s i h h' : hashed s i h -> hashed s i h' -> h = h'.
Proof. intros (_ & st & E & _ & <-) (_ & st' & E' & _ & <-). congruence. Qed.

(** ** Searches *)

Lemma memcmp_equal a b : length a = length b -> js_string_memcmp a b (length b) = 0 <-> a = b.
Proof.
  revert b. induction a as [|x a IH]; intros [|y b] Hl; cbn in *; try done. destruct (Z.eqb_spec x y) as [->|Hne].
  - rewrite IH by lia. split; [by intros ->|by intros [= ->]].
  - split; [lia|intros [=]; done].
Qed.

Lemma same_text a b : (len a =? len b) && (js_string_memcmp a b (length b) =? 0) = bool_decide (a = b).
Proof.
  destruct (Z.eqb_spec (len a) (len b)) as [Hl|Hl]; cbn [andb].
  - destruct (Z.eqb_spec (js_string_memcmp a b (length b)) 0) as [H|H].
    + apply memcmp_equal in H; [|lia]. by rewrite bool_decide_true.
    + rewrite bool_decide_false; [done|]. intros ->. apply H. by apply memcmp_equal.
  - rewrite bool_decide_false; [done|]. by intros ->.
Qed.

Section searches.
Context (s : JSRuntime) (Hok : table_ok s).

Lemma hash_bucket h : 0 <= h -> exists a l, atom_hash s !! bucket s h = Some a /\ path (nx_hash s) a l /\ NoDup l /\ (length l <= length (atom_array s))%nat /\
  forall i, i ∈ l <-> exists k, hashed s i k /\ Z.to_nat (k .& (len (atom_hash s) - 1)) = bucket s h.
Proof.
  intros Hh. destruct (lookup_lt_is_Some_2 (atom_hash s) (bucket s h)) as [a Ea]; [apply bucket_bound; [apply Hok|done]|].
  destruct (t_buckets _ Hok _ _ Ea) as (l & Hp & Hnd & Hl). exists a, l. split_and!; try done. apply path_length; [done|].
  intros i Hi. apply Hl in Hi as (k & Hk & _). by apply hashed_bound in Hk.
Qed.

(** [type] and [text] name the atom [i]. *)
Definition named_atom (i type : Z) (text : list Z) : Prop :=
  0 < i /\ exists st, atom_struct s i = Some st /\ atom_type st = type /\ units (str st) = text.

Lemma find_loop_names type text l : forall fuel a, path (nx_hash s) a l -> (length l <= fuel)%nat ->
  (forall i, i ∈ l -> exists k, hashed s i k) ->
  exists r, find_atom fuel s (name_hash type text) type text a = Some r /\
    match r with Some i => i ∈ l /\ named_atom i type text | None => forall i, i ∈ l -> ~ named_atom i type text end.
Proof.
  induction l as [|i l IH]; intros fuel a Hp Hf Hm.
  - cbn in Hp. subst a. exists None. destruct fuel; cbn; (split; [done|]; by intros i ?%not_elem_of_nil).
  - destruct Hp as (-> & Hi & n & En & Hp). destruct fuel as [|fuel]; [cbn in Hf; lia|]. cbn [find_atom]. replace (i =? 0) with false by lia.
    unfold nx_hash in En. destruct (atom_struct s i) as [st|] eqn:Es; [|done]. cbn in En. apply (inj Some) in En. subst n. cbn [mbind option_bind].
    rewrite <- andb_assoc, same_text. destruct (Hm i ltac:(by left)) as (k & _ & st' & Es' & Hty & Hk). rewrite Es in Es'. apply (inj Some) in Es'. subst st'.
    destruct (proj1 (atom_struct_some _ _ _) Es) as (p & Hsl & Ep).
    assert (Hhash : as_hash st = name_hash (atom_type st) (units (str st))).
    { destruct (slot_nat s i p Hsl ltac:(lia)) as (m & -> & Hm' & _). destruct (n_used _ (t_names _ Hok) m p Hm') as (st' & Ep' & _ & _ & _ & H).
      rewrite Ep in Ep'. apply (inj Some) in Ep'. subst st'. by apply H. }
    assert (Hmatch : (as_hash st =? name_hash type text) && (atom_type st =? type) && bool_decide (units (str st) = text) = true <-> named_atom i type text).
    { split.
      - intros [[_ Ht%Z.eqb_eq]%andb_prop Hu%bool_decide_eq_true]%andb_prop. split; [done|]. by exists st.
      - intros (_ & st' & Es' & <- & <-). rewrite Es in Es'. apply (inj Some) in Es'. subst st'. rewrite Hhash, !Z.eqb_refl. by rewrite bool_decide_true. }
    destruct ((as_hash st =? _) && _ && _) eqn:Eb.
    + exists (Some i). split; [done|]. split; [by left|by apply Hmatch].
    + destruct (IH fuel (as_next st) Hp) as (r & -> & Hr); [cbn in Hf; lia|intros j Hj; apply Hm; by right|].
      exists r. split; [done|]. destruct r as [j|]; [destruct Hr; split; [by right|done]|]. intros j [->|Hj]%elem_of_cons; [|by apply Hr].
      intros H. apply Hmatch in H. congruence.
Qed.

Lemma named_hashed i type text : named_atom i type text -> type <> JS_ATOM_TYPE_SYMBOL -> hashed s i (name_hash type text).
Proof.
  intros (Hi & st & Es & Ht & Hu) Hty. split; [done|]. exists st. split_and!; [done|congruence|]. destruct (proj1 (atom_struct_some _ _ _) Es) as (p & Hsl & Ep).
  destruct (slot_nat s i p Hsl ltac:(lia)) as (m & -> & Hm' & _). destruct (n_used _ (t_names _ Hok) m p Hm') as (st' & Ep' & _ & _ & _ & H).
  rewrite Ep in Ep'. apply (inj Some) in Ep'. subst st'. rewrite <- Ht, <- Hu. apply H. congruence.
Qed.

Lemma find_atom_spec type text : type <> JS_ATOM_TYPE_SYMBOL -> exists a r, atom_hash s !! bucket s (name_hash type text) = Some a /\
  find_atom (length (atom_array s)) s (name_hash type text) type text a = Some r /\
  match r with Some i => named_atom i type text | None => forall i, ~ named_atom i type text end.
Proof.
  intros Hty. destruct (hash_bucket (name_hash type text) (name_hash_nonneg _ _)) as (a & l & Ea & Hp & Hnd & Hlen & Hl).
  destruct (find_loop_names type text l (length (atom_array s)) a Hp Hlen) as (r & Er & Hr).
  { intros i Hi. apply Hl in Hi as (k & Hk & _). by exists k. }
  exists a, r. split_and!; try done. destruct r as [i|]; [by destruct Hr|]. intros i Hi. apply (Hr i); [|done]. apply Hl. exists (name_hash type text).
  split; [by apply named_hashed|done].
Qed.

(** The atom of a structure. *)
Lemma index_loop_spec p i l : forall fuel a, path (nx_hash s) a l -> (length l <= fuel)%nat -> i ∈ l -> slot_ptr s i p ->
  index_loop fuel s p a = Some i.
Proof.
  induction l as [|j l IH]; intros fuel a Hp Hf Hi Hs; [by apply not_elem_of_nil in Hi|]. destruct Hp as (-> & Hj & n & En & Hp). cbn in Hf.
  unfold nx_hash in En. destruct (atom_struct s j) as [st|] eqn:Es; [|done]. cbn in En. apply (inj Some) in En. subst n.
  destruct (proj1 (atom_struct_some _ _ _) Es) as (p1 & Hp1 & Ep1). destruct fuel as [|fuel]; [lia|]. cbn [index_loop].
  rewrite (proj2 (atom_ptr_some s j p1) Hp1). cbn [mbind option_bind]. destruct (decide (p1 = p)) as [->|Hne].
  - f_equal. destruct (slot_nat s j p Hp1 ltac:(lia)) as (m & -> & Hm & _). assert (0 <= i) by (apply elem_of_cons in Hi as [->|Hi]; [lia|]; pose proof (path_pos _ _ _ _ Hp Hi); lia).
    destruct (slot_nat s i p Hs) as (m' & -> & Hm' & _); [done|]. f_equal. by eapply (n_inj _ (t_names _ Hok)).
  - rewrite option_guard_True by lia. cbn [mbind option_bind]. rewrite Ep1. cbn [mbind option_bind]. apply IH; [done|lia| |done].
    apply elem_of_cons in Hi as [->|Hi]; [|done]. unfold slot_ptr in *. congruence.
Qed.

Lemma get_index_spec p st : strings s !! p = Some st -> atom_type st <> 0 -> ~ slot_ptr s 0 p ->
  exists i, js_get_atom_index s p = Some i /\ 0 < i /\ slot_ptr s i p.
Proof.
  intros Ep Ht H0. destruct (n_atom _ (t_names _ Hok) p st Ep) as [|[n Hn]]; [done|].
  destruct (n_used _ (t_names _ Hok) n p Hn) as (st' & Ep' & Hrange & _ & Hsym & Hstr). rewrite Ep in Ep'. apply (inj Some) in Ep'. subst st'.
  assert (Hpos : 0 < Z.of_nat n) by (destruct n; [by destruct H0|lia]). unfold js_get_atom_index. rewrite Ep. cbn [mbind option_bind].
  destruct (Z.eqb_spec (atom_type st) JS_ATOM_TYPE_SYMBOL) as [Hs|Hs]; cbn [negb].
  - exists (as_next st). destruct (Hsym Hs) as [Hnext _]. rewrite Hnext by lia. done.
  - assert (Es : atom_struct s (Z.of_nat n) = Some st) by (apply atom_struct_some; by exists p).
    destruct (hash_bucket (as_hash st)) as (a & l & -> & Hp & Hnd & Hlen & Hl); [rewrite (Hstr Hs); apply name_hash_nonneg|]. cbn [mbind option_bind].
    exists (Z.of_nat n). split_and!; [|done|done]. eapply index_loop_spec; try done. apply Hl. exists (as_hash st). split; [|done]. split; [done|]. by exists st.
Qed.
End searches.

(** ** Rehashing *)

(** Only the links of the buckets change. *)
Record relinked (s s' : JSRuntime) : Prop := {
  r_array : atom_array s' = atom_array s;
  r_free : atom_free_index s' = atom_free_index s;
  r_count : atom_count s' = atom_count s;
  r_core p : core <$> strings s' !! p = core <$> strings s !! p;
  r_next p st : strings s !! p = Some st -> atom_type st = JS_ATOM_TYPE_SYMBOL \/ atom_type st = 0 -> strings s' !! p = Some st
}.

Lemma relinked_refl s : relinked s s.
Proof. by split. Qed.
Lemma atoms_relinked_trans s1 s2 s3 : relinked s1 s2 -> relinked s2 s3 -> relinked s1 s3.
Proof.
  intros [A1 A2 A3 A4 A5] [B1 B2 B3 B4 B5]. split; [congruence|congruence|congruence| |].
  - intros p. by rewrite B4.
  - intros p st E H. apply B5; [by apply A5|done].
Qed.

Lemma relinked_some s s' p st : relinked s s' -> strings s !! p = Some st -> exists n, strings s' !! p = Some (with_next n st).
Proof.
  intros H E. pose proof (r_core _ _ H p) as Hc. rewrite E in Hc. destruct (strings s' !! p) as [st'|]; [|done]. cbn in Hc. apply (inj Some) in Hc.
  exists (as_next st'). destruct st, st'. unfold core, with_next in *. cbn in *. by injection Hc as -> -> -> ->.
Qed.
Lemma relinked_back s s' p st : relinked s s' -> strings s' !! p = Some st -> exists n, strings s !! p = Some (with_next n st).
Proof.
  intros H E. pose proof (r_core _ _ H p) as Hc. rewrite E in Hc. destruct (strings s !! p) as [st'|]; [|done]. cbn in Hc. apply (inj Some) in Hc.
  exists (as_next st'). destruct st, st'. unfold core, with_next in *. cbn in *. by injection Hc as -> -> -> ->.
Qed.

Lemma relinked_slot s s' i p : relinked s s' -> slot_ptr s' i p <-> slot_ptr s i p.
Proof. intros H. unfold slot_ptr. by rewrite (r_array _ _ H). Qed.

Lemma relinked_struct s s' i st : relinked s s' -> atom_struct s i = Some st -> exists n, atom_struct s' i = Some (with_next n st).
Proof.
  intros H (p & Hp & E)%atom_struct_some. destruct (relinked_some _ _ _ _ H E) as [n En]. exists n. apply atom_struct_some. exists p. split; [by apply (relinked_slot s)|done].
Qed.
Lemma relinked_struct_back s s' i st : relinked s s' -> atom_struct s' i = Some st -> exists n, atom_struct s i = Some (with_next n st).
Proof.
  intros H (p & Hp & E)%atom_struct_some. destruct (relinked_back _ _ _ _ H E) as [n En]. exists n. apply atom_struct_some. exists p. split; [by apply (relinked_slot s s')|done].
Qed.

Lemma relinked_hashed s s' i h : relinked s s' -> hashed s' i h <-> hashed s i h.
Proof.
  intros H. split.
  - intros (Hi & st & E & Ht & Hh). destruct (relinked_struct_back _ _ _ _ H E) as [n En]. split; [done|]. by eexists.
  - intros (Hi & st & E & Ht & Hh). destruct (relinked_struct _ _ _ _ H E) as [n En]. split; [done|]. by eexists.
Qed.

Lemma relinked_names s s' : relinked s s' -> names_ok s -> names_ok s'.
Proof.
  intros H [N1 N2 N3 N4 N5]. split.
  - intros i p Hp%(relinked_slot _ _ _ _ H). destruct (N1 i p Hp) as (st & E & Hr & H0 & Hs & Ht). destruct (relinked_some _ _ _ _ H E) as [n En].
    exists (with_next n st). split; [done|]. cbn [atom_type with_next as_next as_hash str]. split_and!; try done; try apply Hr. intros Hsym. destruct (Hs Hsym) as [H1 H2]. split; [|done]. intros Hi.
    rewrite (r_next _ _ H p st E) in En by (by left). apply (inj Some), (f_equal as_next) in En. cbn in En. rewrite <- En. by apply H1.
  - intros i j p Hi%(relinked_slot _ _ _ _ H) Hj%(relinked_slot _ _ _ _ H). by eapply N2.
  - intros p st E. destruct (relinked_back _ _ _ _ H E) as [n En]. destruct (N3 p _ En) as [|[i Hi]]; [by left|right]. exists i. by apply (relinked_slot s).
  - intros i j si sj Ei Ej. destruct (relinked_struct_back _ _ _ _ H Ei) as [n En]. destruct (relinked_struct_back _ _ _ _ H Ej) as [m Em]. apply (N4 _ _ _ _ En Em).
  - unfold atom_size. rewrite (r_array _ _ H). intros Hs. destruct (N5 Hs) as [p Hp]. exists p. by apply (relinked_slot s).
Qed.

(** The link of one atom is written. *)
Lemma write_next_relinked s i p st n : slot_ptr s i p -> strings s !! p = Some st -> atom_type st <> JS_ATOM_TYPE_SYMBOL -> atom_type st <> 0 ->
  relinked s (write p (with_next n st) s).
Proof.
  intros Hs E H1 H2. split; try done.
  - intros q. cbn. destruct (decide (q = p)) as [->|Hq]; [by rewrite lookup_insert_eq, E|by rewrite lookup_insert_ne by congruence].
  - cbn. intros q st' E' Ht. assert (q <> p) by (intros ->; rewrite E in E'; apply (inj Some) in E'; subst st'; by destruct Ht). by rewrite lookup_insert_ne by congruence.
Qed.

Lemma write_next_other s i p st n j : names_ok s -> slot_ptr s i p -> 0 < i -> 0 < j -> j <> i -> nx_hash (write p (with_next n st) s) j = nx_hash s j.
Proof.
  intros N Hi Hi0 Hj0 Hji. unfold nx_hash, atom_struct. change (atom_ptr (write p (with_next n st) s) j) with (atom_ptr s j).
  destruct (atom_ptr s j) as [q|] eqn:Eq; [|done]. cbn. apply atom_ptr_some in Eq. rewrite lookup_insert_ne; [done|]. intros ->. apply Hji.
  destruct (slot_nat s i q Hi ltac:(lia)) as (a & -> & Ha & _). destruct (slot_nat s j q Eq ltac:(lia)) as (b & -> & Hb & _). f_equal. by eapply (n_inj _ N).
Qed.

Lemma write_next_same s i p st n : slot_ptr s i p -> nx_hash (write p (with_next n st) s) i = Some n.
Proof.
  intros Hi. unfold nx_hash, atom_struct. change (atom_ptr (write p (with_next n st) s) i) with (atom_ptr s i). rewrite (proj2 (atom_ptr_some s i p) Hi). cbn.
  by rewrite lookup_insert_eq.
Qed.

(** The atom [i] enters a bucket. *)
Lemma buckets_insert s tab D i p st old : names_ok s -> (exists k, 0 <= k /\ length tab = Z.to_nat (2 ^ k)) ->
  buckets_ok s tab (fun j k => D j /\ hashed s j k) -> 0 < i -> slot_ptr s i p -> strings s !! p = Some st -> hashed s i (as_hash st) -> ~ D i -> 0 <= as_hash st ->
  tab !! Z.to_nat (as_hash st .& (len tab - 1)) = Some old ->
  buckets_ok (write p (with_next old st) s) (<[Z.to_nat (as_hash st .& (len tab - 1)) := i]> tab) (fun j k => (D j \/ j = i) /\ hashed s j k).
Proof.
  intros N Htab HB Hi Hsl Ep Hh HD Hpos Eold b h Eb. set (j0 := Z.to_nat (as_hash st .& (len tab - 1))) in *. rewrite length_insert.
  assert (Hframe : forall l a, path (nx_hash s) a l -> i ∉ l -> path (nx_hash (write p (with_next old st) s)) a l).
  { intros l a Hp Hn. eapply path_ext; [|exact Hp]. intros x Hx. eapply write_next_other; try done; [by eapply path_pos|congruence]. }
  apply list_lookup_insert_Some in Eb as [(Hb & <- & Hlt)|[Hne Eb]]; [subst b|].
  - destruct (HB _ _ Eold) as (l & Hp & Hnd & Hl). assert (Hil : i ∉ l) by (intros (k & [? _] & _)%Hl; done).
    exists (i :: l). split_and!.
    + split; [done|]. split; [done|]. exists old. split; [by eapply write_next_same|]. by apply Hframe.
    + by apply NoDup_cons.
    + intros x. rewrite elem_of_cons. split.
      * intros [->|Hx]; [exists (as_hash st); split; [split; [by right|done]|done]|]. apply Hl in Hx as (k & [H1 H2] & H3). exists k. split; [split; [by left|done]|done].
      * intros (k & [[H1| ->] H2] & H3); [right; apply Hl; by exists k|by left].
  - destruct (HB _ _ Eb) as (l & Hp & Hnd & Hl). assert (Hil : i ∉ l) by (intros (k & [? _] & _)%Hl; done).
    exists l. split_and!; [by apply Hframe|done|]. intros x. rewrite Hl. split.
    + intros (k & [H1 H2] & H3). exists k. split; [split; [by left|done]|done].
    + intros (k & [[H1| ->] H2] & H3); [by exists k|]. exfalso. apply Hne. rewrite <- H3. by rewrite (hashed_det _ _ _ _ H2 Hh).
Qed.

Lemma buckets_relinked s s' tab D : relinked s s' -> (buckets_ok s' tab (fun i k => D i /\ hashed s i k) <-> buckets_ok s' tab (fun i k => D i /\ hashed s' i k)).
Proof.
  intros H. unfold buckets_ok. assert (He : forall i k, D i /\ hashed s' i k <-> D i /\ hashed s i k) by (intros; by rewrite (relinked_hashed s s')).
  split; intros HB b h Eb; destruct (HB b h Eb) as (l & H1 & H2 & H3); exists l; (split_and!; [done|done|]); intros i; rewrite H3; by setoid_rewrite He.
Qed.

(** Each atom of [l] goes from the old table to its bucket in the new one. *)
Lemma move_bucket_spec mask l : forall fuel a s tab (D : Z -> Prop), names_ok s -> (exists k, 0 <= k /\ length tab = Z.to_nat (2 ^ k)) -> mask = len tab - 1 ->
  path (nx_hash s) a l -> (length l <= fuel)%nat -> NoDup l -> (forall i, i ∈ l -> ~ D i /\ exists k, hashed s i k) ->
  buckets_ok s tab (fun i k => D i /\ hashed s i k) ->
  exists s' tab', move_bucket fuel mask a s tab = Some (s', tab') /\ relinked s s' /\ length tab' = length tab /\
    buckets_ok s' tab' (fun i k => (D i \/ i ∈ l) /\ hashed s' i k) /\ (forall i, 0 < i -> i ∉ l -> nx_hash s' i = nx_hash s i) /\
    atom_hash s' = atom_hash s /\ atom_count_resize s' = atom_count_resize s.
Proof.
  induction l as [|i l IH]; intros fuel a s tab D N Htab Hmask Hp Hf Hnd HD HB.
  - cbn in Hp. subst a. exists s, tab. split; [by destruct fuel|]. split_and!; try done. intros b h Eb. destruct (HB b h Eb) as (l & H1 & H2 & H3).
    exists l. split_and!; try done. intros i. rewrite H3. split; intros (k & [H4 H5] & H6); exists k; (split_and!; try done); [by left|]. destruct H4 as [|H4]; [done|by apply not_elem_of_nil in H4].
  - destruct Hp as (-> & Hi & n & En & Hp). destruct fuel as [|fuel]; [cbn in Hf; lia|]. apply NoDup_cons in Hnd as [Hil Hnd].
    destruct (HD i ltac:(by left)) as (HDi & k & Hk). pose proof Hk as (_ & st & Es & Hty & Hhk). destruct (proj1 (atom_struct_some _ _ _) Es) as (p & Hsl & Ep).
    unfold nx_hash in En. rewrite Es in En. cbn in En. apply (inj Some) in En. subst n. subst k.
    assert (Ht0 : 1 <= atom_type st) by (destruct (slot_nat s i p Hsl ltac:(lia)) as (m & -> & Hm & _); destruct (n_used _ N m p Hm) as (st' & E' & H & _); rewrite Ep in E'; apply (inj Some) in E'; subst st'; lia).
    assert (Hpos : 0 <= as_hash st).
    { destruct (slot_nat s i p Hsl ltac:(lia)) as (m & -> & Hm & _); destruct (n_used _ N m p Hm) as (st' & E' & _ & _ & _ & H); rewrite Ep in E'; apply (inj Some) in E'; subst st'.
      rewrite (H Hty). apply name_hash_nonneg. }
    cbn [move_bucket]. replace (i =? 0) with false by lia. rewrite (proj2 (atom_ptr_some s i p) Hsl). cbn [mbind option_bind]. rewrite Ep. cbn [mbind option_bind].
    subst mask. destruct (lookup_lt_is_Some_2 tab (Z.to_nat (as_hash st .& (len tab - 1)))) as [old Eold]; [by apply bucket_bound|]. rewrite Eold. cbn [mbind option_bind].
    set (s1 := write p (with_next old st) s). set (tab1 := <[_ := i]> tab).
    assert (Hre : relinked s s1) by (apply (write_next_relinked s i p); try done; lia).
    destruct (IH fuel (as_next st) s1 tab1 (fun j => D j \/ j = i)) as (s' & tab' & E & Hre' & Hlen & HB' & Hnx & Hh' & Hr').
    + by apply (relinked_names s).
    + unfold tab1. by rewrite length_insert.
    + unfold tab1. by rewrite length_insert.
    + eapply path_ext; [|exact Hp]. intros x Hx. eapply write_next_other; try done; [by eapply path_pos|congruence].
    + cbn in Hf. lia.
    + done.
    + intros x Hx. destruct (HD x ltac:(by right)) as (HDx & k & Hk'). split; [intros [| ->]; done|]. exists k. by apply (relinked_hashed s).
    + apply (buckets_relinked s); [done|]. by apply (buckets_insert s tab D).
    + exists s', tab'. split; [exact E|]. split; [by eapply atoms_relinked_trans|]. split; [unfold tab1 in Hlen; by rewrite length_insert in Hlen|]. split; [|split].
      * intros b h Eb. destruct (HB' b h Eb) as (l' & H1 & H2 & H3). exists l'. split_and!; try done. intros x. rewrite H3. setoid_rewrite elem_of_cons. naive_solver.
      * intros x Hx Hn. apply not_elem_of_cons in Hn as [Hn1 Hn2]. rewrite (Hnx x Hx Hn2). by eapply write_next_other.
      * done.
Qed.

Lemma path_det nx h l l' : path nx h l -> path nx h l' -> l = l'.
Proof.
  revert h l'. induction l as [|i l IH]; intros h [|i' l']; cbn; try done; [intros -> (H & ? & _); lia|intros (-> & ? & _) ?; lia|].
  intros (-> & _ & n & En & Hp) (<- & _ & n' & En' & Hp'). f_equal. rewrite En in En'. apply (inj Some) in En'. subst n'. by eapply IH.
Qed.

(** The lists of the buckets, one after the other. *)
Lemma all_lists nx tab : forall (Q : nat -> Z -> Prop),
  (forall b h, tab !! b = Some h -> exists l, path nx h l /\ NoDup l /\ forall i, i ∈ l <-> Q b i) -> (forall b b' i, Q b i -> Q b' i -> b = b') ->
  exists ls, Forall2 (path nx) tab ls /\ NoDup (concat ls) /\ forall i, i ∈ concat ls <-> exists b, (b < length tab)%nat /\ Q b i.
Proof.
  induction tab as [|h tab IH]; intros Q HQ Hfun.
  - exists []. split_and!; [constructor|constructor|]. intros i. split; [by intros ?%not_elem_of_nil|]. intros (b & Hb & _). cbn in Hb. lia.
  - destruct (HQ 0%nat h eq_refl) as (l & Hp & Hnd & Hl).
    destruct (IH (fun b => Q (S b))) as (ls & Hps & Hnds & Hls); [intros b x E; by apply (HQ (S b))|intros b b' i H1 H2; by specialize (Hfun _ _ _ H1 H2) as [= ->]|].
    exists (l :: ls). split_and!; [by constructor| |].
    + cbn. apply NoDup_app. split_and!; try done. intros i Hi Hi'. apply Hl in Hi. apply Hls in Hi' as (b & _ & Hb). by specialize (Hfun _ _ _ Hi Hb).
    + intros i. cbn. rewrite elem_of_app, Hl, Hls. split.
      * intros [H|(b & Hb & H)]; [exists 0%nat; split; [lia|done]|]. exists (S b). split; [lia|done].
      * intros ([|b] & Hb & H); [by left|right]. exists b. split; [lia|done].
Qed.

Lemma paths_ext nx nx' hs ls : (forall i, i ∈ concat ls -> 0 < i -> nx' i = nx i) -> Forall2 (path nx) hs ls -> Forall2 (path nx') hs ls.
Proof.
  intros He H. induction H as [|h l hs ls Hp H IH]; constructor.
  - eapply path_ext; [|exact Hp]. intros i Hi. apply He; [cbn; apply elem_of_app; by left|by eapply path_pos].
  - apply IH. intros i Hi. apply He. cbn. apply elem_of_app. by right.
Qed.

Lemma move_all mask hs : forall ls n s tab (D : Z -> Prop), names_ok s -> (exists k, 0 <= k /\ length tab = Z.to_nat (2 ^ k)) -> mask = len tab - 1 ->
  Forall2 (path (nx_hash s)) hs ls -> NoDup (concat ls) -> (forall l, l ∈ ls -> (length l <= n)%nat) -> (forall i, i ∈ concat ls -> ~ D i /\ exists k, hashed s i k) ->
  buckets_ok s tab (fun i k => D i /\ hashed s i k) ->
  exists s' tab', foldM (fun x h => move_bucket n mask h (fst x) (snd x)) hs (s, tab) = Some (s', tab') /\ relinked s s' /\ length tab' = length tab /\
    buckets_ok s' tab' (fun i k => (D i \/ i ∈ concat ls) /\ hashed s' i k) /\ atom_hash s' = atom_hash s /\ atom_count_resize s' = atom_count_resize s.
Proof.
  induction hs as [|h hs IH]; intros ls n s tab D N Htab Hmask Hps Hnd Hlen HD HB.
  - apply Forall2_nil_inv_l in Hps as ->. exists s, tab. split; [done|]. split_and!; try done. intros b a Eb. destruct (HB b a Eb) as (l & H1 & H2 & H3).
    exists l. split_and!; try done. intros i. rewrite H3. cbn. split; intros (k & [H4 H5] & H6); exists k; (split; [split; [|done]|done]); [by left|]. destruct H4 as [|H4]; [done|by apply not_elem_of_nil in H4].
  - apply Forall2_cons_inv_l in Hps as (l & ls' & Hp & Hps & ->). cbn [concat] in *. apply NoDup_app in Hnd as (Hnd1 & Hdis & Hnd2).
    destruct (move_bucket_spec mask l n h s tab D N Htab Hmask Hp) as (s1 & tab1 & E & Hre & Hl1 & HB1 & Hnx & Ha1 & Hr1); try done.
    { apply Hlen. by left. } { intros i Hi. apply HD, elem_of_app. by left. }
    destruct (IH ls' n s1 tab1 (fun i => D i \/ i ∈ l)) as (s2 & tab2 & E2 & Hre2 & Hl2 & HB2 & Ha2 & Hr2).
    + by apply (relinked_names s).
    + by rewrite Hl1.
    + by rewrite Hl1.
    + eapply paths_ext; [|exact Hps]. intros i Hi Hi0. apply Hnx; [done|]. intros H. by apply (Hdis i).
    + done.
    + intros l' Hl'. apply Hlen. by right.
    + intros i Hi. destruct (HD i) as (H1 & k & H2); [apply elem_of_app; by right|]. split.
      * intros [|H]; [done|]. by apply (Hdis i).
      * exists k. by apply (relinked_hashed s).
    + done.
    + exists s2, tab2. cbn [foldM fst snd]. rewrite E. cbn [mbind option_bind]. split; [done|]. split_and!; try congruence; [by eapply atoms_relinked_trans|].
      intros b a Eb. destruct (HB2 b a Eb) as (l' & H1 & H2 & H3). exists l'. split_and!; try done. intros i. rewrite H3. setoid_rewrite elem_of_app. naive_solver.
Qed.

Section resize.
Context {W : World} {Al : Malloc}.

Lemma relinked_ok s s' : relinked s s' -> table_ok s -> (exists k, 0 <= k /\ length (atom_hash s') = Z.to_nat (2 ^ k)) ->
  buckets_ok s' (atom_hash s') (hashed s') -> table_ok s'.
Proof.
  intros H [] Hk HB. split; try done.
  - rewrite (r_array _ _ H), (r_free _ _ H). done.
  - by apply (relinked_names s).
  - rewrite (r_count _ _ H), (r_array _ _ H). done.
  - unfold atom_size. by rewrite (r_array _ _ H).
Qed.

(** The links are those of the array and the heap. *)
Lemma nx_hash_same s s' i : atom_array s' = atom_array s -> strings s' = strings s -> nx_hash s' i = nx_hash s i.
Proof. intros E1 E2. unfold nx_hash, atom_struct, atom_ptr. by rewrite E1, E2. Qed.
Lemma hashed_same s s' i k : atom_array s' = atom_array s -> strings s' = strings s -> hashed s' i k <-> hashed s i k.
Proof. intros E1 E2. unfold hashed, atom_struct, atom_ptr. by rewrite E1, E2. Qed.

Lemma atom_buckets_ext s s' tab P P' : (forall i, nx_hash s' i = nx_hash s i) -> (forall i k, P' i k <-> P i k) -> buckets_ok s tab P -> buckets_ok s' tab P'.
Proof.
  intros Hn HP HB b h Eb. destruct (HB b h Eb) as (l & H1 & H2 & H3). exists l. split_and!; [eapply path_ext; [|exact H1]; done|done|].
  intros i. rewrite H3. by setoid_rewrite HP.
Qed.

Lemma resize_hash_spec s k : table_ok s -> 0 <= k -> exists b s', JS_ResizeAtomHash s (2 ^ k) = Some (b, s') /\ relinked s s' /\ table_ok s'.
Proof.
  intros Hok Hk. unfold JS_ResizeAtomHash. pose proof (Z.pow_pos_nonneg 2 k ltac:(lia) Hk) as Hpow.
  rewrite option_guard_True.
  2: { replace (2 ^ k - 1) with (Z.ones k) by (rewrite Z.ones_equiv; lia). rewrite Z.land_ones by lia. apply Z.mod_same. lia. }
  cbn [mbind option_bind]. unfold js_malloc_rt. destruct (ext_ok (ev s)); cbn [negb].
  2: { exists true, (tick s). split; [done|]. split; [by split|]. eapply (relinked_ok s); [by split|done|apply Hok|]. eapply atom_buckets_ext; [..|apply (t_buckets _ Hok)]; done. }
  destruct (all_lists (nx_hash s) (atom_hash s) (fun b i => exists h, hashed s i h /\ Z.to_nat (h .& (len (atom_hash s) - 1)) = b)) as (ls & Hps & Hnd & Hls).
  { intros b h Eb. destruct (t_buckets _ Hok b h Eb) as (l & H). by exists l. }
  { intros b b' i (h & H1 & <-) (h' & H2 & <-). by rewrite (hashed_det _ _ _ _ H1 H2). }
  set (tab := replicate (Z.to_nat (2 ^ k)) 0).
  destruct (move_all (2 ^ k - 1) (atom_hash s) ls (length (atom_array s)) (tick s) tab (fun _ => False)) as (s' & tab' & E & Hre & Hlen & HB & Ha & Hr).
  - eapply (relinked_names s); [by split|apply Hok].
  - exists k. split; [done|]. apply length_replicate.
  - unfold tab. rewrite length_replicate. lia.
  - exact Hps.
  - exact Hnd.
  - intros l Hl. apply path_length.
    + apply list_elem_of_lookup in Hl as [b Eb]. rewrite Forall2_lookup in Hps. specialize (Hps b). rewrite Eb in Hps. inversion Hps as [h l' Hp E1 E2|]; subst.
      symmetry in E1. destruct (t_buckets _ Hok b h E1) as (l0 & Hp0 & Hnd0 & _). by rewrite (path_det _ _ _ _ Hp Hp0).
    + intros i Hi. assert (Hc : i ∈ concat ls) by (apply list_elem_of_In, in_concat; exists l; by rewrite <- !list_elem_of_In). apply Hls in Hc as (b & _ & h & Hh & _). by apply hashed_bound in Hh.
  - intros i Hi. split; [by intros []|]. apply Hls in Hi as (b & _ & h & Hh & _). by exists h.
  - intros b h Eb. apply lookup_replicate in Eb as [-> _]. exists []. split_and!; [done|constructor|]. intros i. split; [by intros ?%not_elem_of_nil|]. by intros (k' & [? _] & _).
  - cbn [mbind option_bind]. change (atom_array (tick s)) with (atom_array s). change (atom_hash (tick s)) with (atom_hash s). rewrite E. cbn [mbind option_bind].
    eexists false, _. split; [done|]. assert (Hre' : relinked s s') by (eapply atoms_relinked_trans; [|exact Hre]; by split).
    split; [destruct Hre'; by split|]. eapply (relinked_ok s); [destruct Hre'; by split|done| |].
    + exists k. split; [done|]. cbn. rewrite Hlen. apply length_replicate.
    + eapply atom_buckets_ext; [..|exact HB]; [done|]. intros i h. cbn. split; [|by intros [_ H]]. intros H. split; [right|done].
      apply Hls. pose proof (proj1 (relinked_hashed s s' i h Hre') H) as H'. exists (bucket s h). split; [|by exists h].
      destruct H' as (_ & st & Es & Hty & <-). apply bucket_bound; [apply Hok|]. destruct (proj1 (atom_struct_some _ _ _) Es) as (p & Hsl & Ep).
      destruct (t_names _ Hok) as [N1 _ _ _ _]. destruct H as [Hi _]. destruct (slot_nat s i p Hsl ltac:(lia)) as (m & -> & Hm & _). destruct (N1 m p Hm) as (st' & E' & _ & _ & _ & H).
      rewrite Ep in E'. apply (inj Some) in E'. subst st'. rewrite (H Hty). apply name_hash_nonneg.
Qed.
End resize.
