(* ===== verification/AtomOps.v ===== *)
(** * The operations on atoms

    What the operations of [Atoms] do to a table that satisfies the invariant. *)
From S2P Require Export AtomTable.

(** ** Reference counts *)

(** The states differ by the reference counts. *)
Definition uncounted (st : JSAtomStruct) : JSAtomStruct := with_ref_count 0 st.
Record recounted (s s' : JSRuntime) : Prop := {
  c_array : atom_array s' = atom_array s;
  c_hash : atom_hash s' = atom_hash s;
  c_free : atom_free_index s' = atom_free_index s;
  c_count : atom_count s' = atom_count s;
  c_strings p : uncounted <$> strings s' !! p = uncounted <$> strings s !! p
}.

Lemma recounted_some s s' p st : recounted s s' -> strings s !! p = Some st -> exists n, strings s' !! p = Some (with_ref_count n st).
Proof.
  intros H E. pose proof (c_strings _ _ H p) as Hc. rewrite E in Hc. destruct (strings s' !! p) as [st'|]; [|done]. cbn in Hc. apply (inj Some) in Hc.
  exists (as_ref_count st'). destruct st, st'. unfold uncounted, with_ref_count in *. cbn in *. by injection Hc as -> -> -> ->.
Qed.
Lemma recounted_sym s s' : recounted s s' -> recounted s' s.
Proof. intros []. split; congruence. Qed.

Lemma recounted_struct s s' i st : recounted s s' -> atom_struct s i = Some st -> exists n, atom_struct s' i = Some (with_ref_count n st).
Proof.
  intros H (p & Hp & E)%atom_struct_some. destruct (recounted_some _ _ _ _ H E) as [n En]. exists n. apply atom_struct_some. exists p. split; [|done].
  unfold slot_ptr. by rewrite (c_array _ _ H).
Qed.

Lemma recounted_nx s s' i : recounted s s' -> nx_hash s' i = nx_hash s i.
Proof.
  intros H. unfold nx_hash. destruct (atom_struct s i) as [st|] eqn:E; [destruct (recounted_struct _ _ _ _ H E) as [n ->]; done|].
  destruct (atom_struct s' i) as [st|] eqn:E'; [|done]. destruct (recounted_struct _ _ _ _ (recounted_sym _ _ H) E') as [n En]. congruence.
Qed.
Lemma recounted_hashed s s' i k : recounted s s' -> hashed s i k -> hashed s' i k.
Proof. intros H (Hi & st & E & Ht & Hk). destruct (recounted_struct _ _ _ _ H E) as [n En]. split; [done|]. by eexists. Qed.

Lemma recounted_ok s s' : recounted s s' -> table_ok s -> table_ok s'.
Proof.
  intros H [T1 T2 T3 T4 T5 T6]. split.
  - by rewrite (c_hash _ _ H).
  - rewrite (c_hash _ _ H). eapply atom_buckets_ext; [..|exact T2]; [intros i; by apply recounted_nx|].
    intros i k. split; apply recounted_hashed; [by apply recounted_sym|done].
  - by rewrite (c_array _ _ H), (c_free _ _ H).
  - destruct T4 as [N1 N2 N3 N4 N5]. assert (Hs : forall i p, slot_ptr s' i p <-> slot_ptr s i p) by (intros; unfold slot_ptr; by rewrite (c_array _ _ H)). split.
    + intros i p Hp%Hs. destruct (N1 i p Hp) as (st & E & H1 & H2). destruct (recounted_some _ _ _ _ H E) as [n En]. by exists (with_ref_count n st).
    + intros i j p Hi%Hs Hj%Hs. by eapply N2.
    + intros p st E. destruct (recounted_some _ _ _ _ (recounted_sym _ _ H) E) as [n En]. destruct (N3 p _ En) as [|[i Hi]]; [by left|right]. exists i. by apply Hs.
    + intros i j si sj Ei Ej. destruct (recounted_struct _ _ _ _ (recounted_sym _ _ H) Ei) as [n En]. destruct (recounted_struct _ _ _ _ (recounted_sym _ _ H) Ej) as [m Em].
      apply (N4 _ _ _ _ En Em).
    + unfold atom_size. rewrite (c_array _ _ H). intros Hz. destruct (N5 Hz) as [p Hp]. exists p. by apply Hs.
  - by rewrite (c_count _ _ H), (c_array _ _ H).
  - unfold atom_size. by rewrite (c_array _ _ H).
Qed.

Lemma write_recounted s p st n : strings s !! p = Some st -> recounted s (write p (with_ref_count n st) s).
Proof.
  intros E. split; try done. intros q. cbn. destruct (decide (q = p)) as [->|Hq]; [by rewrite lookup_insert_eq, E|by rewrite lookup_insert_ne by congruence].
Qed.

(** ** Removal *)

(** The atom [i] leaves its list. *)
Lemma unlink_loop_spec s p st i j pj sj l2 : names_ok s -> slot_ptr s i p -> strings s !! p = Some st -> slot_ptr s j pj -> strings s !! pj = Some sj -> forall l1 fuel a,
  path (nx_hash s) a (l1 ++ j :: i :: l2) -> NoDup (l1 ++ j :: i :: l2) -> (length l1 < fuel)%nat ->
  unlink_loop fuel s p a = Some (i, write pj (with_next (as_next st) sj) s).
Proof.
  intros N Hi Ep Hj Ej. induction l1 as [|x l1 IH]; intros fuel a Hp Hnd Hf; (destruct fuel as [|fuel]; [cbn in Hf; lia|]).
  - cbn in Hp. destruct Hp as (-> & Hj0 & n & En & -> & Hi0 & _). unfold nx_hash in En. rewrite (proj2 (atom_struct_some s j sj)) in En by (by exists pj).
    apply (inj Some) in En. cbn [unlink_loop]. rewrite option_guard_True by lia. cbn [mbind option_bind]. rewrite (proj2 (atom_ptr_some s j pj) Hj). cbn [mbind option_bind].
    rewrite Ej. cbn [mbind option_bind]. rewrite En, (proj2 (atom_ptr_some s i p) Hi). cbn [mbind option_bind]. rewrite decide_True by done. rewrite Ep. done.
  - cbn [app] in Hp, Hnd. destruct Hp as (-> & Hx0 & n & En & Hp). apply NoDup_cons in Hnd as [Hx Hnd]. unfold nx_hash in En.
    destruct (atom_struct s x) as [sx|] eqn:Es; [|done]. cbn in En. apply (inj Some) in En. subst n. destruct (proj1 (atom_struct_some _ _ _) Es) as (px & Hpx & Epx).
    cbn [unlink_loop]. rewrite option_guard_True by lia. cbn [mbind option_bind]. rewrite (proj2 (atom_ptr_some s x px) Hpx). cbn [mbind option_bind].
    rewrite Epx. cbn [mbind option_bind].
    assert (Hy : exists y l3, l1 ++ j :: i :: l2 = y :: l3 /\ y <> i).
    { destruct l1 as [|y l1]; cbn in *; [exists j, (i :: l2)|exists y, (l1 ++ j :: i :: l2)]; (split; [done|]); intros ->.
      - apply NoDup_cons in Hnd as [H _]. apply H. by left.
      - apply NoDup_cons in Hnd as [H _]. apply H, elem_of_app. right. right. by left. }
    destruct Hy as (y & l3 & El & Hyi). pose proof Hp as Hp'. rewrite El in Hp'. destruct Hp' as (Hya & Hy0 & ny & Eny & _). rewrite Hya in *.
    unfold nx_hash in Eny. destruct (atom_struct s y) as [sy|] eqn:Esy; [|done]. destruct (proj1 (atom_struct_some _ _ _) Esy) as (py & Hpy & Epy).
    rewrite (proj2 (atom_ptr_some s y py) Hpy). cbn [mbind option_bind]. rewrite decide_False.
    + apply IH; [done|done|cbn in Hf; lia].
    + intros ->. apply Hyi. assert (Hi0 : 0 < i) by (eapply (path_pos _ _ _ i Hp), elem_of_app; right; right; by left).
      destruct (slot_nat s i p Hi ltac:(lia)) as (ni & -> & Hni & _). destruct (slot_nat s y p Hpy ltac:(lia)) as (n' & -> & Hn' & _). f_equal. by eapply (n_inj _ N).
Qed.

Lemma path_app_inv nx a l1 i l2 : path nx a (l1 ++ i :: l2) -> exists n, nx i = Some n /\ path nx n l2.
Proof.
  revert a. induction l1 as [|x l1 IH]; intros a; cbn; [intros (_ & _ & n & En & H); by exists n|]. intros (_ & _ & n & _ & H). by eapply IH.
Qed.

(** A list without the atom [i], whose predecessor has the link of [i]. *)
Lemma path_skip nx nx' a l1 j i l2 : path nx a (l1 ++ j :: i :: l2) -> (forall x, x ∈ l1 ++ l2 -> nx' x = nx x) -> nx' j = nx i -> path nx' a (l1 ++ j :: l2).
Proof.
  revert a. induction l1 as [|x l1 IH]; intros a Hp He Hj; cbn in *.
  - destruct Hp as (-> & Hj0 & n & En & -> & Hi0 & n' & En' & Hp). split_and!; try done. exists n'. split; [congruence|]. eapply path_ext; [|exact Hp]. done.
  - destruct Hp as (-> & Hx & n & En & Hp). split_and!; try done. exists n. split; [rewrite He by (by left); done|]. apply IH; try done. intros y Hy. apply He. by right.
Qed.

Lemma used_struct s i p : names_ok s -> slot_ptr s i p -> 0 < i -> exists st, strings s !! p = Some st /\ atom_struct s i = Some st /\ 1 <= atom_type st <= 3 /\
  (atom_type st = JS_ATOM_TYPE_SYMBOL -> as_next st = i /\ (as_hash st = 0 \/ as_hash st = JS_ATOM_HASH_PRIVATE)) /\
  (atom_type st <> JS_ATOM_TYPE_SYMBOL -> hashed s i (as_hash st) /\ as_hash st = name_hash (atom_type st) (units (str st)) /\ 0 <= as_hash st).
Proof.
  intros N Hi Hi0. destruct (slot_nat s i p Hi ltac:(lia)) as (n & -> & Hn & _). destruct (n_used _ N n p Hn) as (st & E & Hr & _ & Hs & Ht).
  assert (Es : atom_struct s (Z.of_nat n) = Some st) by (apply atom_struct_some; by exists p). exists st.
  split; [done|]. split; [done|]. split; [done|]. split.
  - intros Hsym. destruct (Hs Hsym) as [H1 H2]. split; [apply H1; lia|done].
  - intros Hty. split_and!; [split; [done|]; by exists st|by apply Ht|rewrite (Ht Hty); apply name_hash_nonneg].
Qed.

Lemma slot_inj s i j p : names_ok s -> slot_ptr s i p -> slot_ptr s j p -> 0 <= i -> 0 <= j -> i = j.
Proof.
  intros N Hi Hj Hi0 Hj0. destruct (slot_nat s i p Hi Hi0) as (n & -> & Hn & _). destruct (slot_nat s j p Hj Hj0) as (m & -> & Hm & _). f_equal. by eapply (n_inj _ N).
Qed.

Lemma exists_last_or_nil {A} (l : list A) : l = [] \/ exists l' x, l = l' ++ [x].
Proof. induction l as [|x l _] using rev_ind; [by left|right; by exists l, x]. Qed.

(** [p] leaves its bucket. *)
Lemma unlink_atom_spec s p st i : table_ok s -> strings s !! p = Some st -> slot_ptr s i p -> 0 < i -> atom_type st <> JS_ATOM_TYPE_SYMBOL ->
  exists s1, (i ← atom_hash s !! bucket s (as_hash st);
    p1 ← atom_ptr s i;
    if decide (p1 = p) then Some (i, set_hash (<[bucket s (as_hash st) := as_next st]> (atom_hash s)) s)
    else unlink_loop (length (atom_array s)) s p i) = Some (i, s1) /\ relinked s s1 /\ length (atom_hash s1) = length (atom_hash s) /\
    buckets_ok s1 (atom_hash s1) (fun x k => x <> i /\ hashed s x k) /\ strings s1 !! p = Some st.
Proof.
  intros Hok Ep Hi Hi0 Hty. pose proof (t_names _ Hok) as N. destruct (used_struct s i p N Hi Hi0) as (st' & E' & Es & Hr & _ & Hh). rewrite Ep in E'. apply (inj Some) in E'. subst st'.
  destruct (Hh Hty) as (Hhi & _ & Hpos). destruct (hash_bucket s Hok (as_hash st) Hpos) as (a & l & Ea & Hp & Hnd & Hlen & Hl).
  assert (Hil : i ∈ l) by (apply Hl; by exists (as_hash st)). rewrite Ea. cbn [mbind option_bind]. set (b0 := bucket s (as_hash st)) in *.
  assert (Hin : forall x, x ∈ l -> exists px sx, slot_ptr s x px /\ strings s !! px = Some sx /\ 0 < x /\ atom_type sx <> JS_ATOM_TYPE_SYMBOL /\ 1 <= atom_type sx).
  { intros x Hx. apply Hl in Hx as (k & (Hx0 & sx & Esx & Htx & _) & _). destruct (proj1 (atom_struct_some _ _ _) Esx) as (px & Hpx & Epx). exists px, sx.
    destruct (used_struct s x px N Hpx Hx0) as (sx' & E' & _ & Hrx & _). rewrite Epx in E'. apply (inj Some) in E'. subst sx'. split_and!; try done. lia. }
  assert (Hothers : forall b c, b <> b0 -> atom_hash s !! b = Some c -> exists lb, path (nx_hash s) c lb /\ NoDup lb /\ (forall x, x ∈ lb -> x ∉ l) /\
    forall x, x ∈ lb <-> exists k, (x <> i /\ hashed s x k) /\ Z.to_nat (k .& (len (atom_hash s) - 1)) = b).
  { intros b c Hb Ec. destruct (t_buckets _ Hok b c Ec) as (lb & H1 & H2 & H3). exists lb. split_and!; try done.
    - intros x Hx Hx'. apply H3 in Hx as (k & Hk & <-). apply Hl in Hx' as (k' & Hk' & Hb'). apply Hb. by rewrite (hashed_det _ _ _ _ Hk Hk').
    - intros x. rewrite H3. split; [|intros (k & [? ?] & ?); by exists k]. intros (k & Hk & Hb'). exists k. split; [split; [|done]|done]. intros ->. apply Hb.
      rewrite <- Hb'. by rewrite (hashed_det _ _ _ _ Hk Hhi). }
  apply list_elem_of_split in Hil as (l1 & l2 & ->). destruct (exists_last_or_nil l1) as [->|(l1' & j & ->)].
  - cbn [app] in Hp. destruct Hp as (-> & _ & n & En & Hp2). unfold nx_hash in En. rewrite Es in En. apply (inj Some) in En. cbn in En. subst n.
    rewrite (proj2 (atom_ptr_some s i p) Hi). cbn [mbind option_bind]. rewrite decide_True by done. eexists. split; [done|]. split; [by split|].
    split; [cbn; by rewrite length_insert|]. split; [|done]. cbn. intros b c Ec. rewrite length_insert. cbn [app] in Hnd. apply NoDup_cons in Hnd as [Hil2 Hnd2].
    apply list_lookup_insert_Some in Ec as [(Hb & <- & _)|[Hne Ec]].
    + exists l2. split_and!; [exact Hp2|done|]. intros x. cbn [app] in Hl. specialize (Hl x). rewrite elem_of_cons in Hl. rewrite <- Hb. split.
      * intros Hx. destruct (proj1 Hl (or_intror Hx)) as (k & Hk & Hkb). exists k. split; [split; [|done]|done]. by intros ->.
      * intros (k & [Hne Hk] & Hkb). destruct (proj2 Hl) as [|]; [by exists k|done|done].
    + destruct (Hothers b c ltac:(congruence) Ec) as (lb & H1 & H2 & _ & H3). by exists lb.
  - rewrite <- app_assoc in Hp, Hnd, Hlen. cbn [app] in Hp, Hnd, Hlen. assert (Hjl : j ∈ (l1' ++ [j]) ++ i :: l2) by (rewrite !elem_of_app; left; right; by left).
    destruct (Hin j Hjl) as (pj & sj & Hj & Ej & Hj0 & Htj & Hrj).
    assert (Hji : j <> i). { intros ->. apply NoDup_app in Hnd as (_ & _ & Hnd). apply NoDup_cons in Hnd as [H _]. apply H. by left. }
    assert (Hpj : pj <> p) by (intros ->; apply Hji; eapply (slot_inj s j i p); try done; lia).
    assert (Hhead : exists x l3, l1' ++ j :: i :: l2 = x :: l3 /\ x <> i).
    { destruct l1' as [|x l1']; cbn; [by exists j, (i :: l2)|]. exists x, (l1' ++ j :: i :: l2). split; [done|]. intros ->. cbn in Hnd. apply NoDup_cons in Hnd as [H _]. apply H.
      apply elem_of_app. right. right. by left. }
    destruct Hhead as (x & l3 & El & Hxi). pose proof Hp as Hp'. rewrite El in Hp'. destruct Hp' as (-> & Hx0 & _).
    destruct (Hin x) as (px & sx & Hpx & _). { rewrite <- app_assoc. cbn [app]. rewrite El. by left. }
    rewrite (proj2 (atom_ptr_some s x px) Hpx). cbn [mbind option_bind]. rewrite decide_False by (intros ->; apply Hxi; eapply (slot_inj s x i p); try done; lia).
    rewrite (unlink_loop_spec s p st i j pj sj l2 N Hi Ep Hj Ej l1' _ x Hp Hnd) by (rewrite length_app in Hlen; cbn in Hlen; lia).
    set (s1 := write pj (with_next (as_next st) sj) s). exists s1. split; [done|].
    assert (Hre : relinked s s1) by (apply (write_next_relinked s j pj); try done; lia). split; [done|]. split; [done|]. split; [|cbn; by rewrite lookup_insert_ne].
    change (atom_hash s1) with (atom_hash s). intros b c Ec.
    destruct (decide (b = b0)) as [->|Hb].
    + rewrite Ea in Ec. apply (inj Some) in Ec. subst c. exists (l1' ++ j :: l2). split_and!.
      * eapply path_skip; [exact Hp| |].
        -- intros y Hy. eapply write_next_other; try done.
           ++ eapply (path_pos _ _ _ y Hp). rewrite elem_of_app in *. destruct Hy; [by left|right; right; by right].
           ++ intros ->. apply NoDup_app in Hnd as (_ & Hd & Hnd). apply elem_of_app in Hy as [Hy|Hy]; [by apply (Hd j Hy); left|].
              apply NoDup_cons in Hnd as [H _]. apply H. by right.
        -- unfold s1. rewrite (write_next_same s j pj) by done. unfold nx_hash. by rewrite Es.
      * apply NoDup_app in Hnd as (H1 & H2 & H3). apply NoDup_app. split_and!; [done| |].
        -- intros y Hy [Hyj|Hy']%elem_of_cons; apply (H2 y Hy); [subst y; by left|right; by right].
        -- apply NoDup_cons in H3 as [H3 H4]. apply NoDup_cons in H4 as [_ H4]. apply NoDup_cons. split; [|done]. intros H. apply H3. by right.
      * intros y. specialize (Hl y). rewrite <- app_assoc in Hl. cbn [app] in Hl.
        assert (Hy : y ∈ l1' ++ j :: l2 <-> y <> i /\ y ∈ l1' ++ j :: i :: l2).
        { apply NoDup_app in Hnd as (H1 & H2 & H3). apply NoDup_cons in H3 as [H3 H4]. apply NoDup_cons in H4 as [H4 _].
          assert (i ∉ l1') by (intros H; apply (H2 i H); right; by left). rewrite !elem_of_app, !elem_of_cons. split; [|tauto].
          intros [H'|[->|H']]; (split; [by intros ->|tauto]). }
        rewrite Hy, Hl. split; [intros (Hne & k & Hk & Hkb); by exists k|intros (k & [Hne Hk] & Hkb); split; [done|]; by exists k].
    + destruct (Hothers b c Hb Ec) as (lb & H1 & H2 & Hdis & H3). exists lb. split_and!; [|done|done]. eapply path_ext; [|exact H1].
      intros y Hy. eapply write_next_other; try done; [by eapply path_pos|]. intros ->. by apply (Hdis j Hy).
Qed.

(** The entry of the array becomes free. *)
Lemma free_insert a f i n p : a !! Z.to_nat i = Some (Used p) -> 0 < i -> free_ok a f -> n = f -> free_ok (<[Z.to_nat i := Free n]> a) i.
Proof.
  intros Ei Hi (l & Hp & Hnd & Hl) ->. assert (Hlt : (Z.to_nat i < length a)%nat) by (by eapply lookup_lt_Some).
  assert (Hil : i ∉ l) by (intros [_ [m Hm]]%Hl; unfold nx_free in Hm; by rewrite Ei in Hm).
  assert (Hne : forall x, 0 < x -> x <> i -> nx_free (<[Z.to_nat i := Free f]> a) x = nx_free a x).
  { intros x Hx Hxi. unfold nx_free. rewrite list_lookup_insert_ne by lia. done. }
  assert (Hs : nx_free (<[Z.to_nat i := Free f]> a) i = Some f) by (unfold nx_free; by rewrite list_lookup_insert_eq by done).
  exists (i :: l). split_and!.
  - split; [done|]. split; [done|]. exists f. split; [done|]. eapply path_ext; [|exact Hp]. intros x Hx. apply Hne; [by eapply path_pos|congruence].
  - by apply NoDup_cons.
  - intros x. rewrite elem_of_cons, Hl. split.
    + intros [->|[Hx Hs']]; [split; [done|by rewrite Hs]|]. split; [done|]. rewrite Hne; [done|done|]. intros ->. apply Hil, Hl. done.
    + intros [Hx Hs']. destruct (decide (x = i)) as [->|Hxi]; [by left|right]. by rewrite Hne in Hs'.
Qed.

Lemma count_insert a i x y : a !! i = Some x -> (length (filter used (<[i := y]> a)) + (if decide (used x) then 1 else 0) = length (filter used a) + (if decide (used y) then 1 else 0))%nat.
Proof.
  revert i. induction a as [|z a IH]; intros [|i] E; cbn in E; simplify_eq.
  - cbn [insert list_insert]. destruct (decide (used x)) as [Hx|Hx], (decide (used y)) as [Hy|Hy];
      rewrite ?(filter_cons_True used x), ?(filter_cons_True used y) by done; rewrite ?(filter_cons_False used x), ?(filter_cons_False used y) by done; cbn [length]; lia.
  - specialize (IH i E). change (<[S i := y]> (z :: a)) with (z :: <[i := y]> a). destruct (decide (used z));
      [rewrite !(filter_cons_True used z) by done; cbn [length]; lia|rewrite !(filter_cons_False used z) by done; exact IH].
Qed.

(** The other atoms when the entry [i] changes. *)
Lemma slot_insert s a i x q : a = <[Z.to_nat i := x]> (atom_array s) -> 0 <= i -> forall j, 0 <= j -> j <> i -> (a !! Z.to_nat j = Some (Used q) <-> slot_ptr s j q).
Proof. intros -> Hi j Hj Hne. unfold slot_ptr. by rewrite list_lookup_insert_ne by lia. Qed.

Section free.
Context (s : JSRuntime) (p : ptr) (st : JSAtomStruct) (i : Z) (f c : Z).
Context (N : names_ok s) (Hi : slot_ptr s i p) (Hi0 : 0 < i).
Let s' := set_count c (js_free_rt p (set_array (<[Z.to_nat i := Free f]> (atom_array s)) i s)).

Lemma freed_slot j q : 0 <= j -> slot_ptr s' j q <-> j <> i /\ slot_ptr s j q.
Proof using Hi Hi0.
  intros Hj. unfold slot_ptr, s'. cbn. destruct (decide (j = i)) as [->|Hne].
  - rewrite list_lookup_insert_eq by (by eapply lookup_lt_Some). split; [done|by intros [? _]].
  - rewrite list_lookup_insert_ne by lia. naive_solver.
Qed.
Lemma freed_struct j : 0 < j -> j <> i -> atom_struct s' j = atom_struct s j.
Proof using N Hi Hi0.
  intros Hj Hne. unfold atom_struct. assert (E : atom_ptr s' j = atom_ptr s j).
  { unfold atom_ptr, s'. cbn. by rewrite list_lookup_insert_ne by lia. }
  rewrite E. destruct (atom_ptr s j) as [q|] eqn:Eq; [|done]. cbn. rewrite lookup_delete_ne; [done|]. intros ->. apply Hne. apply atom_ptr_some in Eq.
  eapply (slot_inj s j i q); try done; lia.
Qed.
Lemma freed_none : atom_struct s' i = None.
Proof using Hi. unfold atom_struct, atom_ptr, s'. cbn. by rewrite list_lookup_insert_eq by (by eapply lookup_lt_Some). Qed.

Lemma freed_hashed j k : hashed s' j k <-> j <> i /\ hashed s j k.
Proof using N Hi Hi0.
  unfold hashed. destruct (decide (j = i)) as [->|Hne].
  - rewrite freed_none. split; [by intros (_ & ? & ? & _)|by intros [? _]].
  - split.
    + intros (Hj & x & Hx). rewrite freed_struct in Hx by done. split; [done|]. split; [done|]. by exists x.
    + intros (_ & Hj & x & Hx). split; [done|]. rewrite freed_struct by done. by exists x.
Qed.

Lemma freed_names : names_ok s'.
Proof using N Hi Hi0.
  pose proof N as [N1 N2 N3 N4 N5]. split.
  - intros j q [Hne Hq]%freed_slot; [|lia]. destruct (N1 j q Hq) as (x & E & H). exists x. split; [|done]. unfold s'. cbn. rewrite lookup_delete_ne; [done|].
    intros ->. apply Hne. eapply (slot_inj s _ i q); try done; lia.
  - intros j k q [_ Hj]%freed_slot [_ Hk]%freed_slot; [|lia|lia]. by eapply N2.
  - unfold s'. cbn. intros q x [Hq E]%lookup_delete_Some. destruct (N3 q x E) as [|[j Hj]]; [by left|right]. exists j. apply freed_slot; [lia|]. split; [|done].
    intros Hj'. rewrite Hj' in Hj. unfold slot_ptr in *. congruence.
  - intros j k sj sk Ej Ek Hj Hk. destruct (decide (j = i)) as [->|Hji]; [by rewrite freed_none in Ej|]. destruct (decide (k = i)) as [->|Hki]; [by rewrite freed_none in Ek|].
    rewrite freed_struct in Ej, Ek by done. by eapply N4.
  - intros _. assert (Hz : atom_size s <> 0). { unfold atom_size. intros Hz. apply lookup_lt_Some in Hi. lia. }
    destruct (N5 Hz) as [q Hq]. exists q. apply freed_slot; [lia|]. split; [lia|done].
Qed.
End free.

Section operations.
Context {W : World} {Al : Malloc}.

(** The atom [i] is freed with its structure. *)
Definition freed_atom (s : JSRuntime) (i : Z) (p : ptr) (s' : JSRuntime) : Prop :=
  atom_array s' = <[Z.to_nat i := Free (atom_free_index s)]> (atom_array s) /\ atom_free_index s' = i /\ strings s' !! p = None /\
  forall q, q <> p -> core <$> strings s' !! q = core <$> strings s !! q.

Lemma free_struct_spec s p st i : table_ok s -> strings s !! p = Some st -> slot_ptr s i p -> 0 < i ->
  exists s', JS_FreeAtomStruct s p = Some s' /\ table_ok s' /\ freed_atom s i p s'.
Proof.
  intros Hok Ep Hi Hi0. pose proof (t_names _ Hok) as N. destruct (used_struct s i p N Hi Hi0) as (st' & E' & Es & Hr & Hsym & Hh).
  rewrite Ep in E'. apply (inj Some) in E'. subst st'. unfold JS_FreeAtomStruct. rewrite Ep. cbn [mbind option_bind].
  assert (H1 : exists s1, (if negb (atom_type st =? JS_ATOM_TYPE_SYMBOL) then
      i ← atom_hash s !! bucket s (as_hash st); p1 ← atom_ptr s i;
      if decide (p1 = p) then Some (i, set_hash (<[bucket s (as_hash st) := as_next st]> (atom_hash s)) s) else unlink_loop (length (atom_array s)) s p i
    else Some (as_next st, s)) = Some (i, s1) /\ relinked s s1 /\ length (atom_hash s1) = length (atom_hash s) /\
    buckets_ok s1 (atom_hash s1) (fun x k => x <> i /\ hashed s x k)).
  { destruct (Z.eqb_spec (atom_type st) JS_ATOM_TYPE_SYMBOL) as [Ht|Ht]; cbn [negb].
    - exists s. split; [by rewrite (proj1 (Hsym Ht))|]. split; [by split|]. split; [done|]. eapply atom_buckets_ext; [done| |apply (t_buckets _ Hok)].
      intros x k. split; [by intros [_ H]|]. intros H. split; [|done]. intros ->. destruct H as (_ & st' & Es' & Ht' & _). congruence.
    - destruct (unlink_atom_spec s p st i Hok Ep Hi Hi0 Ht) as (s1 & E1 & H1 & H2 & H3 & _). exists s1. by split_and!. }
  destruct H1 as (s1 & -> & Hre & Hlen & HB). cbn [mbind option_bind]. pose proof (relinked_names _ _ Hre N) as N1.
  assert (Hi1 : slot_ptr s1 i p) by (by apply (relinked_slot s)). pose proof (lookup_lt_Some _ _ _ Hi1) as Hlt.
  rewrite option_guard_True by done. cbn [mbind option_bind].
  assert (Hkeep : (atom_type st =? JS_ATOM_TYPE_SYMBOL) && negb (as_hash st =? JS_ATOM_HASH_PRIVATE) && negb (as_hash st =? 0) = false).
  { destruct (Z.eqb_spec (atom_type st) JS_ATOM_TYPE_SYMBOL) as [Ht|Ht]; [|done]. destruct (Hsym Ht) as [_ [->| ->]]; done. }
  rewrite Hkeep. set (s2 := set_count _ _).
  assert (Hc1 : atom_count s1 = len (filter used (atom_array s1))) by (rewrite (r_count _ _ Hre), (r_array _ _ Hre); apply Hok).
  pose proof (count_insert (atom_array s1) (Z.to_nat i) _ (Free (atom_free_index s1)) Hi1) as Hcount. rewrite decide_True, decide_False in Hcount by (cbn; tauto).
  assert (Hc2 : atom_count s2 = len (filter used (atom_array s2))) by (cbn; cbn in Hc1; lia).
  rewrite option_guard_True by (rewrite Hc2; lia). cbn [mbind option_bind]. exists s2. split; [done|].
  assert (Hhs : forall j k, hashed s2 j k <-> j <> i /\ hashed s1 j k) by (intros; by apply (freed_hashed s1 p i)). split.
  - split.
    + change (atom_hash s2) with (atom_hash s1). rewrite Hlen. apply Hok.
    + change (atom_hash s2) with (atom_hash s1). intros b h Eb. destruct (HB b h Eb) as (l & H1 & H2 & H3). exists l. split_and!; [|done|].
      * eapply path_ext; [|exact H1]. intros x Hx. pose proof (path_pos _ _ _ _ H1 Hx) as Hx0. unfold nx_hash, s2. rewrite (freed_struct s1 p i); try done.
        intros ->. apply H3 in Hx as (k & [Hne _] & _). done.
      * intros x. rewrite H3. setoid_rewrite Hhs. by setoid_rewrite (relinked_hashed s s1 _ _ Hre).
    + cbn. eapply free_insert; try done. rewrite (r_array _ _ Hre), (r_free _ _ Hre). apply Hok.
    + by apply freed_names.
    + exact Hc2.
    + unfold atom_size. cbn. rewrite length_insert, (r_array _ _ Hre). apply Hok.
  - split; [cbn; by rewrite (r_array _ _ Hre), (r_free _ _ Hre)|]. split; [done|]. split; [cbn; apply lookup_delete_eq|]. intros q Hq. cbn. rewrite lookup_delete_ne by congruence. apply Hre.
Qed.
End operations.
