(* ===== verification/AtomAdd.v ===== *)
(** * Additions to the table of the atoms

    The array of the atoms grows, and a string gets the first free entry. *)
From S2P Require Export AtomOps.

(** Only the strings that are not atoms differ. *)
Record plain_step (s s' : JSRuntime) : Prop := {
  p_array : atom_array s' = atom_array s;
  p_hash : atom_hash s' = atom_hash s;
  p_free : atom_free_index s' = atom_free_index s;
  p_count : atom_count s' = atom_count s;
  p_atom p i : slot_ptr s i p -> strings s' !! p = strings s !! p;
  p_plain p st : strings s' !! p = Some st -> strings s !! p = Some st \/ atom_type st = 0
}.

Lemma plain_slot s s' i p : plain_step s s' -> slot_ptr s' i p <-> slot_ptr s i p.
Proof. intros H. unfold slot_ptr. by rewrite (p_array _ _ H). Qed.

Lemma plain_struct s s' i : plain_step s s' -> atom_struct s' i = atom_struct s i.
Proof.
  intros H. unfold atom_struct, atom_ptr. rewrite (p_array _ _ H). destruct (atom_array s !! Z.to_nat i) as [[n|p]|] eqn:E; try done. cbn. by eapply p_atom.
Qed.

Lemma plain_names s s' : plain_step s s' -> names_ok s -> names_ok s'.
Proof.
  intros H [N1 N2 N3 N4 N5]. split.
  - intros i p Hp%(plain_slot _ _ _ _ H). rewrite (p_atom _ _ H p _ Hp). by apply N1.
  - intros i j p Hi%(plain_slot _ _ _ _ H) Hj%(plain_slot _ _ _ _ H). by eapply N2.
  - intros p st E. destruct (p_plain _ _ H p st E) as [E'|]; [|by left]. destruct (N3 p st E') as [|[i Hi]]; [by left|right]. exists i. by apply (plain_slot s s').
  - intros i j si sj. rewrite !(plain_struct s s') by done. apply N4.
  - unfold atom_size. rewrite (p_array _ _ H). intros Hz. destruct (N5 Hz) as [p Hp]. exists p. by apply (plain_slot s s').
Qed.

Lemma plain_ok s s' : plain_step s s' -> table_ok s -> table_ok s'.
Proof.
  intros H [T1 T2 T3 T4 T5 T6]. split.
  - by rewrite (p_hash _ _ H).
  - rewrite (p_hash _ _ H). eapply atom_buckets_ext; [..|exact T2]; [intros i; unfold nx_hash; by rewrite (plain_struct s s')|].
    intros i k. unfold hashed. by rewrite (plain_struct s s').
  - by rewrite (p_array _ _ H), (p_free _ _ H).
  - by apply (plain_names s).
  - by rewrite (p_count _ _ H), (p_array _ _ H).
  - unfold atom_size. by rewrite (p_array _ _ H).
Qed.

Lemma atom_not_plain s i p st : names_ok s -> slot_ptr s i p -> 0 <= i -> strings s !! p = Some st -> atom_type st <> 0.
Proof.
  intros N Hi Hi0 E. destruct (slot_nat s i p Hi Hi0) as (n & -> & Hn & _). destruct (n_used _ N n p Hn) as (st' & E' & Hr & _). rewrite E in E'. apply (inj Some) in E'. subst. lia.
Qed.

Lemma slot_any s i p : slot_ptr s i p -> exists n, slot_ptr s (Z.of_nat n) p.
Proof. intros H. exists (Z.to_nat i). unfold slot_ptr in *. by rewrite Nat2Z.id. Qed.

Lemma delete_plain s p st : names_ok s -> strings s !! p = Some st -> atom_type st = 0 -> plain_step s (js_free_rt p s).
Proof.
  intros N E Ht. split; try done; cbn.
  - intros q i [n Hq]%slot_any. rewrite lookup_delete_ne; [done|]. intros ->. eapply (atom_not_plain s (Z.of_nat n) q st); try done. lia.
  - intros q st' [_ E']%lookup_delete_Some. by left.
Qed.

Lemma insert_plain s p st : names_ok s -> strings s !! p = None -> atom_type st = 0 -> plain_step s (write p st s).
Proof.
  intros N E Ht. split; try done; cbn.
  - intros q i [n Hq]%slot_any. rewrite lookup_insert_ne; [done|]. intros ->. destruct (n_used _ N n q Hq) as (st' & E' & _). congruence.
  - intros q st' [[<- <-]|[_ E']]%lookup_insert_Some; [by right|by left].
Qed.

(** ** The array grows *)

Lemma nx_free_slots start new_size i : 0 <= start <= i -> i < new_size ->
  free_slots start new_size !! Z.to_nat (i - start) = Some (Free (if i =? new_size - 1 then 0 else i + 1)).
Proof.
  intros Hi Hn. unfold free_slots. rewrite list_lookup_fmap, lookup_seq_lt by lia. cbn. f_equal. f_equal. replace (Z.of_nat (Z.to_nat start + Z.to_nat (i - start))) with i by lia. done.
Qed.

(** The free entries from [start] on, when there are none before. *)
Lemma free_slots_ok a start new_size : len a = start -> 0 < start < new_size -> (forall i, nx_free a i = None) -> free_ok (a ++ free_slots start new_size) start.
Proof.
  intros Ha Hs Hu. set (b := a ++ free_slots start new_size).
  assert (Hlb : len b = new_size) by (unfold b, free_slots; rewrite length_app, length_fmap, length_seq; lia).
  assert (Hb : forall i, start <= i < new_size -> nx_free b i = Some (if i =? new_size - 1 then 0 else i + 1)).
  { intros i Hi. unfold nx_free, b. rewrite lookup_app_r by lia. replace (Z.to_nat i - length a)%nat with (Z.to_nat (i - start)) by lia. by rewrite nx_free_slots by lia. }
  assert (Hpath : forall n i, start <= i -> Z.of_nat n = new_size - i -> (0 < n)%nat -> path (nx_free b) i (Z.of_nat <$> seq (Z.to_nat i) n)).
  { induction n as [|n IH]; [lia|]. intros i Hi Hn _. cbn [seq fmap list_fmap path]. rewrite Z2Nat.id by lia. split; [done|]. split; [lia|].
    exists (if i =? new_size - 1 then 0 else i + 1). split; [apply Hb; lia|]. destruct n as [|n]; [replace (i =? new_size - 1) with true by lia; done|].
    replace (i =? new_size - 1) with false by lia. specialize (IH (i + 1)). replace (Z.to_nat (i + 1)) with (S (Z.to_nat i)) in IH by lia. apply IH; lia. }
  exists (Z.of_nat <$> seq (Z.to_nat start) (Z.to_nat (new_size - start))). split_and!.
  - apply Hpath; lia.
  - apply NoDup_fmap_2; [apply _|]. apply NoDup_seq.
  - intros i. rewrite list_elem_of_fmap. split.
    + intros (n & -> & Hn%elem_of_seq). split; [lia|]. rewrite Hb by lia. by eexists.
    + intros [Hi [m Hm]]. exists (Z.to_nat i). split; [lia|]. apply elem_of_seq. unfold nx_free in Hm. destruct (b !! Z.to_nat i) as [x|] eqn:E; [|done].
      pose proof (lookup_lt_Some _ _ _ E). destruct (decide (i < start)); [|lia]. exfalso. specialize (Hu i). unfold nx_free in Hu. unfold b in E. rewrite lookup_app_l in E by lia.
      rewrite E in Hu. destruct x; done.
Qed.

Lemma free_not_used start new_size i p : free_slots start new_size !! i <> Some (Used p).
Proof. unfold free_slots. intros H. apply list_lookup_fmap_Some in H as (n & H & _). done. Qed.

Lemma filter_free start new_size : filter used (free_slots start new_size) = [].
Proof.
  unfold free_slots. induction (seq _ _) as [|n l IH]; [done|]. rewrite fmap_cons, (filter_cons_False used); [exact IH|]. by intros [].
Qed.

(** The atoms from 1 on are the same. *)
Lemma same_struct s s' : (forall i p, 0 < i -> slot_ptr s' i p <-> slot_ptr s i p) -> (forall i p, slot_ptr s i p -> strings s' !! p = strings s !! p) ->
  forall i, 0 < i -> atom_struct s' i = atom_struct s i.
Proof.
  intros Hs Hp i Hi. destruct (atom_struct s i) as [st|] eqn:E.
  - apply atom_struct_some in E as (p & Hsl & Ep). apply atom_struct_some. exists p. split; [by apply Hs|]. by rewrite (Hp i).
  - destruct (atom_struct s' i) as [st|] eqn:E'; [|done]. apply atom_struct_some in E' as (p & Hsl & Ep). apply Hs in Hsl; [|done]. rewrite (Hp i) in Ep by done.
    rewrite (proj2 (atom_struct_some s i st)) in E; [done|]. by exists p.
Qed.

Lemma buckets_same_struct s s' tab : (forall i, 0 < i -> atom_struct s' i = atom_struct s i) -> buckets_ok s tab (hashed s) -> buckets_ok s' tab (hashed s').
Proof.
  intros Hs HB b h Eb. destruct (HB b h Eb) as (l & H1 & H2 & H3). exists l. split_and!; [|done|].
  - eapply path_ext; [|exact H1]. intros i Hi. unfold nx_hash. rewrite Hs; [done|by eapply path_pos].
  - intros i. rewrite H3. unfold hashed. split; intros (k & (Hi & Hk) & Hb); exists k; (split; [split; [done|]|done]); [by rewrite Hs|by rewrite Hs in Hk].
Qed.

(** Where the atoms were, and the structure of [JS_ATOM_NULL]. *)
Record grown (s s' : JSRuntime) : Prop := {
  g_some p st : strings s !! p = Some st -> strings s' !! p = Some st;
  g_back p st : strings s' !! p = Some st -> strings s !! p = Some st \/ (strings s !! p = None /\ slot_ptr s' 0 p);
  g_slot i p : 0 <= i -> slot_ptr s i p -> slot_ptr s' i p;
  g_slot_back i p : 0 <= i -> slot_ptr s' i p -> slot_ptr s i p \/ (i = 0 /\ strings s !! p = None)
}.

Lemma grown_refl s s' : atom_array s' = atom_array s -> strings s' = strings s -> grown s s'.
Proof. intros E1 E2. split; unfold slot_ptr; rewrite ?E1, ?E2; naive_solver. Qed.

Section grow.
Context {W : World} {Al : Malloc}.
Definition null_struct : JSAtomStruct := mkAtom 1 (mkString false []) 0 JS_ATOM_TYPE_SYMBOL 0.

Lemma no_free s : table_ok s -> atom_free_index s = 0 -> forall i, 0 < i -> nx_free (atom_array s) i = None.
Proof.
  intros Hok Hf i Hi. destruct (t_free _ Hok) as (l & Hp & _ & Hl). rewrite Hf in Hp. pose proof (proj1 (path_head _ _ _ Hp) eq_refl) as ->.
  destruct (nx_free (atom_array s) i) as [m|] eqn:E; [|done]. exfalso. assert (Hi' : i ∈ @nil Z) by (apply Hl; split; [done|by rewrite E]). by apply not_elem_of_nil in Hi'.
Qed.

Lemma grow_null_spec s p new_size c : table_ok s -> atom_size s = 0 -> strings s !! p = None -> 711 <= new_size <= JS_ATOM_MAX -> c = atom_count s + 1 ->
  let s' := set_count c (set_array (Used p :: free_slots 1 new_size) 1 (write p null_struct s)) in table_ok s' /\ grown s s'.
Proof.
  intros Hok Hz Ep Hn Hc s'. assert (Hnil : atom_array s = []) by (apply nil_length_inv; unfold atom_size in Hz; lia).
  assert (Hno : forall i q, ~ slot_ptr s i q) by (intros i q; unfold slot_ptr; by rewrite Hnil, lookup_nil).
  assert (Hs' : forall i q, 0 <= i -> slot_ptr s' i q -> i = 0 /\ q = p).
  { intros i q Hi H. unfold slot_ptr in H. cbn in H. destruct (decide (i = 0)) as [->|Hne]; [cbn in H; by injection H|].
    replace (Z.to_nat i) with (S (Z.to_nat (i - 1))) in H by lia. by apply free_not_used in H. }
  assert (Hstr : forall q st, strings s !! q = Some st -> atom_type st = 0).
  { intros q st E. destruct (n_atom _ (t_names _ Hok) q st E) as [|[i Hi]]; [done|]. by apply Hno in Hi. }
  assert (Hst : forall i, 0 < i -> atom_struct s' i = atom_struct s i).
  { intros i Hi. transitivity (@None JSAtomStruct); [|symmetry]; (destruct (atom_struct _ i) as [st|] eqn:E; [|done]); apply atom_struct_some in E as (q & Hq & _).
    - destruct (Hs' i q ltac:(lia) Hq). lia. - by apply Hno in Hq. }
  split; [split|split].
  - apply Hok. - eapply buckets_same_struct; [exact Hst|apply Hok].
  - cbn. change (Used p :: free_slots 1 new_size) with ([Used p] ++ free_slots 1 new_size). apply free_slots_ok; [done|lia|]. intros i. unfold nx_free. destruct (Z.to_nat i); done.
  - split.
    + intros i q Hq. destruct (Hs' (Z.of_nat i) q ltac:(lia) Hq) as [Hi ->]. exists null_struct. split; [cbn; by rewrite lookup_insert_eq|]. split_and!; try done. intros _. split; [|by left]. intros Hne. lia.
    + intros i j q Hi Hj. apply Hs' in Hi as [? _], Hj as [? _]; lia.
    + cbn. intros q st [[<- <-]|[_ E]]%lookup_insert_Some; [right; by exists O|left; by eapply Hstr].
    + intros i j si sj Ei Ej Hi Hj. rewrite !Hst in Ei, Ej by done. by apply (n_unique _ (t_names _ Hok)).
    + intros _. by exists p.
  - change (c = len (filter used (Used p :: free_slots 1 new_size))). rewrite (filter_cons_True used) by done. rewrite filter_free. rewrite Hc, (t_count _ Hok), Hnil. done.
  - unfold atom_size. cbn. unfold free_slots. rewrite length_fmap, length_seq. lia.
  - cbn. intros q st E. rewrite lookup_insert_ne; [done|]. intros ->. congruence.
  - cbn. intros q st [[<- <-]|[_ E]]%lookup_insert_Some; [by right|by left].
  - intros i q _ Hq. by apply Hno in Hq.
  - intros i q Hi Hq. right. by destruct (Hs' i q Hi Hq) as [-> ->].
Qed.

Lemma grow_more_spec s new_size : table_ok s -> 0 < atom_size s < new_size -> new_size <= JS_ATOM_MAX -> atom_free_index s = 0 ->
  let s' := set_array (atom_array s ++ free_slots (atom_size s) new_size) (atom_size s) s in table_ok s' /\ grown s s'.
Proof.
  intros Hok Hz Hn Hf s'. pose proof (no_free s Hok Hf) as Hnf.
  assert (Hs' : forall i q, 0 <= i -> slot_ptr s' i q <-> slot_ptr s i q).
  { intros i q Hi. unfold slot_ptr. cbn. destruct (decide (i < atom_size s)) as [Hlt|Hge]; [unfold atom_size in Hlt; by rewrite lookup_app_l by lia|].
    unfold atom_size in Hge. rewrite lookup_app_r by lia. rewrite (lookup_ge_None_2 (atom_array s)) by lia.
    split; [by intros ?%free_not_used|done]. }
  assert (Hst : forall i, 0 < i -> atom_struct s' i = atom_struct s i) by (apply same_struct; [intros i p Hi; apply Hs'; lia|done]).
  split; [split|split]; try done.
  - apply Hok. - eapply buckets_same_struct; [exact Hst|apply Hok].
  - cbn. apply free_slots_ok; [done|done|]. intros i. destruct (decide (0 < i)); [by apply Hnf|]. destruct (n_null _ (t_names _ Hok) ltac:(lia)) as [p Hp].
    unfold nx_free. unfold slot_ptr in Hp. replace (Z.to_nat i) with (Z.to_nat 0) by lia. by rewrite Hp.
  - destruct (t_names _ Hok) as [N1 N2 N3 N4 N5]. split.
    + intros i q Hq%Hs'; [|lia]. by apply N1.
    + intros i j q Hi%Hs' Hj%Hs'; [|lia|lia]. by eapply N2.
    + intros q st E. destruct (N3 q st E) as [|[i Hi]]; [by left|right]. exists i. by apply Hs'; [lia|].
    + intros i j si sj Ei Ej Hi Hj. rewrite !Hst in Ei, Ej by done. by apply N4.
    + intros _. destruct (N5 ltac:(lia)) as [p Hp]. exists p. by apply Hs'.
  - cbn. rewrite filter_app, filter_free, app_nil_r. apply Hok.
  - unfold atom_size. cbn. unfold free_slots. rewrite length_app, length_fmap, length_seq. unfold atom_size in *. lia.
  - intros p st E. by left.
  - intros i q Hi. apply Hs'. done.
  - intros i q Hi H. left. by apply Hs'.
Qed.

Lemma tick_plain s : plain_step s (tick s).
Proof. split; try done. intros p st E. by left. Qed.

Lemma tick_ok s : table_ok s -> table_ok (tick s).
Proof. apply plain_ok, tick_plain. Qed.

Lemma grow_atoms_spec s : table_ok s -> atom_free_index s = 0 -> exists failed s', grow_atoms s = Some (failed, s') /\ table_ok s' /\ grown s s' /\
  (failed = false -> atom_free_index s' <> 0).
Proof.
  intros Hok Hf. unfold grow_atoms. pose proof (t_max _ Hok) as Hmax. set (new_size := Z.max 711 _). assert (Hsz : 0 <= atom_size s) by (unfold atom_size; lia).
  assert (Hns : 711 <= new_size /\ atom_size s < new_size).
  { unfold JS_ATOM_MAX in Hmax. unfold new_size. assert (E : u32 (atom_size s * 3) = atom_size s * 3) by (apply Z.mod_small; lia). rewrite E. split; [lia|].
    destruct (decide (atom_size s < 711)); [lia|]. assert (atom_size s + 1 <= atom_size s * 3 / 2) by (apply Z.div_le_lower_bound; lia). lia. }
  destruct (Z.ltb_spec JS_ATOM_MAX new_size) as [Hb|Hb]; [exists true, s; split_and!; [done|done|by apply grown_refl|done]|].
  unfold js_malloc_rt. destruct (ext_ok (ev s)); cbn [negb]; [|exists true, (tick s); split_and!; [done|by apply tick_ok|by apply grown_refl|done]].
  change (atom_size (tick s)) with (atom_size s). destruct (Z.eqb_spec (atom_size s) 0) as [Hz|Hz].
  - destruct (ext_ok (ev (tick s))); cbn [negb]; [|exists true, (tick (tick s)); split_and!; [done|by apply tick_ok, tick_ok|by apply grown_refl|done]].
    set (p := fresh_string _). assert (Ep : strings (tick (tick s)) !! p = None) by (apply not_elem_of_dom, malloc_fresh).
    destruct (grow_null_spec (tick (tick s)) p new_size (atom_count s + 1)) as [H1 H2]; [by apply tick_ok, tick_ok|done|exact Ep|lia|done|].
    eexists false, _. split; [done|]. split; [exact H1|]. split; [|done]. destruct H2 as [G1 G2 G3 G4]. by split.
  - destruct (grow_more_spec (tick s) new_size) as [H1 H2]; [by apply tick_ok|change (atom_size (tick s)) with (atom_size s); lia|done|done|].
    eexists false, _. split; [done|]. split; [exact H1|]. split; [|cbn; change (atom_size (tick s)) with (atom_size s); lia]. destruct H2 as [G1 G2 G3 G4]. by split.
Qed.
End grow.

(** ** A string gets the first free entry *)

Lemma free_index s : table_ok s -> atom_free_index s <> 0 -> 0 < atom_free_index s /\ exists next, atom_array s !! Z.to_nat (atom_free_index s) = Some (Free next).
Proof.
  intros Hok Hf. destruct (t_free _ Hok) as ([|i l] & Hp & _ & Hl); [done|]. destruct Hp as (-> & Hi & n & En & _). split; [done|].
  unfold nx_free in En. destruct (atom_array s !! _) as [[m|]|]; try done. by exists m.
Qed.

Section add.
Context (s : JSRuntime) (q : ptr) (st : JSAtomStruct) (i next h type nx : Z).
Context (Hok : table_ok s) (Hi0 : 0 < i) (Hfi : atom_free_index s = i) (Hfree : atom_array s !! Z.to_nat i = Some (Free next)).
Context (Hq : strings s !! q = Some st) (Hplain : atom_type st = 0) (Hty : 1 <= type <= 3).
Context (Hname : type <> JS_ATOM_TYPE_SYMBOL -> h = name_hash type (units (str st)) /\ forall j, ~ named_atom s j type (units (str st))).
Context (Hsym : type = JS_ATOM_TYPE_SYMBOL -> h = 0 \/ h = JS_ATOM_HASH_PRIVATE).

Definition named_struct : JSAtomStruct := mkAtom (as_ref_count st) (str st) h type nx.
Definition with_slot : JSRuntime := set_count (atom_count s + 1) (set_array (<[Z.to_nat i := Used q]> (atom_array s)) next s).
Definition with_atom : JSRuntime := write q named_struct with_slot.

Lemma added_slot j p : 0 <= j -> slot_ptr with_atom j p <-> (j = i /\ p = q) \/ slot_ptr s j p.
Proof.
  intros Hj. unfold slot_ptr. cbn. destruct (decide (j = i)) as [->|Hne].
  - rewrite list_lookup_insert_eq by (by eapply lookup_lt_Some). rewrite Hfree. split; [intros [= <-]; by left|by intros [[_ ->]|?]].
  - rewrite list_lookup_insert_ne by lia. split; [by right|by intros [[? _]|?]].
Qed.
Lemma not_slot j : 0 <= j -> ~ slot_ptr s j q.
Proof. intros Hj H. by eapply (atom_not_plain s j q st); [apply Hok|..]. Qed.

Lemma added_same : atom_struct with_atom i = Some named_struct.
Proof. apply atom_struct_some. exists q. split; [apply added_slot; [lia|by left]|cbn; by rewrite lookup_insert_eq]. Qed.
Lemma added_other j : 0 < j -> j <> i -> atom_struct with_atom j = atom_struct s j.
Proof.
  intros Hj Hne. unfold atom_struct. assert (E : atom_ptr with_atom j = atom_ptr s j) by (unfold atom_ptr; cbn; by rewrite list_lookup_insert_ne by lia). rewrite E.
  destruct (atom_ptr s j) as [p|] eqn:Ep; [|done]. cbn. rewrite lookup_insert_ne; [done|]. intros <-. apply atom_ptr_some in Ep. by apply (not_slot j) in Ep; [|lia].
Qed.
Lemma not_struct : atom_struct s i = None.
Proof. unfold atom_struct, atom_ptr. by rewrite Hfree. Qed.

Lemma added_hashed j k : hashed with_atom j k <-> (j <> i /\ hashed s j k) \/ (j = i /\ type <> JS_ATOM_TYPE_SYMBOL /\ k = h).
Proof.
  unfold hashed. destruct (decide (j = i)) as [->|Hne].
  - rewrite added_same. split; [|by intros [[? _]|(_ & ? & ->)]; [|split; [done|]; by exists named_struct]].
    intros (_ & x & Ex & Htx & <-). apply (inj Some) in Ex. subst x. by right.
  - split; [intros (Hj & H); left; rewrite added_other in H by done; by split_and!|]. intros [(_ & Hj & H)|[? _]]; [|done]. split; [done|]. by rewrite added_other.
Qed.

Lemma added_names : (type = JS_ATOM_TYPE_SYMBOL -> nx = i) -> names_ok with_atom.
Proof.
  intros Hnx. pose proof (t_names _ Hok) as [N1 N2 N3 N4 N5]. assert (Hns : forall j, 0 <= j -> ~ slot_ptr s j q) by (apply not_slot). split.
  - intros j p [[Hj ->]|Hp]%added_slot; [| |lia].
    + exists named_struct. split; [cbn; by rewrite lookup_insert_eq|]. cbn. split_and!; [lia|lia|intros ->; lia|intros Hs; split; [intros _; rewrite Hj; by apply Hnx|by apply Hsym]|by intros Hs; apply (proj1 (Hname Hs))].
    + destruct (N1 j p Hp) as (x & Ex & H). exists x. split; [|done]. cbn. rewrite lookup_insert_ne; [done|]. intros <-. by apply (Hns (Z.of_nat j)) in Hp; [|lia].
  - intros j k p [[Hj ->]|Hj]%added_slot [[Hk Hpq]|Hk]%added_slot; try lia; [by apply Hns in Hk; [|lia]|subst p; by apply Hns in Hj; [|lia]|by eapply N2].
  - cbn. intros p x [[<- <-]|[Hne E]]%lookup_insert_Some.
    + right. exists (Z.to_nat i). rewrite Z2Nat.id by lia. apply added_slot; [lia|by left].
    + destruct (N3 p x E) as [|[j Hj]]; [by left|right]. exists j. apply added_slot; [lia|by right].
  - assert (Hnew : forall j sj, atom_struct s j = Some sj -> 0 < j -> type <> JS_ATOM_TYPE_SYMBOL -> atom_type sj = type -> units (str sj) <> units (str st)).
    { intros j sj Ej Hj Ht Htj Hu. apply (proj2 (Hname Ht) j). split; [done|]. by exists sj. }
    intros j k sj sk Ej Ek Hj Hk Htj Het Heu. destruct (decide (j = i)) as [->|Hji], (decide (k = i)) as [->|Hki]; try done.
    + rewrite added_same in Ej. apply (inj Some) in Ej. subst sj. rewrite added_other in Ek by done. cbn in *. by destruct (Hnew k sk).
    + rewrite added_same in Ek. apply (inj Some) in Ek. subst sk. rewrite added_other in Ej by done. cbn in *. destruct (Hnew j sj); try done. congruence.
    + rewrite added_other in Ej, Ek by done. by eapply N4.
  - intros _. assert (Hz : atom_size s <> 0). { unfold atom_size. intros Hz. apply lookup_lt_Some in Hfree. lia. }
    destruct (N5 Hz) as [p Hp]. exists p. apply added_slot; [lia|by right].
Qed.

Lemma added_free : free_ok (atom_array with_atom) next.
Proof.
  destruct (t_free _ Hok) as (l & Hp & Hnd & Hl). destruct l as [|x l]; [cbn in Hp; lia|]. destruct Hp as (Hx & _ & n & En & Hp). rewrite Hfi in Hx. subst x.
  unfold nx_free in En. rewrite Hfree in En. apply (inj Some) in En. subst n. apply NoDup_cons in Hnd as [Hil Hnd].
  assert (Hne : forall x, 0 < x -> x <> i -> nx_free (atom_array with_atom) x = nx_free (atom_array s) x).
  { intros x Hx Hxi. unfold nx_free. cbn. by rewrite list_lookup_insert_ne by lia. }
  assert (Hs : nx_free (atom_array with_atom) i = None) by (unfold nx_free; cbn; by rewrite list_lookup_insert_eq by (by eapply lookup_lt_Some)).
  exists l. split_and!; [|done|].
  - eapply path_ext; [|exact Hp]. intros x Hx. apply Hne; [by eapply path_pos|congruence].
  - intros x. specialize (Hl x). rewrite elem_of_cons in Hl. split.
    + intros Hx. destruct (proj1 Hl (or_intror Hx)) as [H1 H2]. split; [done|]. rewrite Hne; [done|done|congruence].
    + intros [Hx0 Hx]. destruct (decide (x = i)) as [->|Hxi]; [rewrite Hs in Hx; by destruct Hx|]. rewrite Hne in Hx by done. by destruct (proj2 Hl (conj Hx0 Hx)).
Qed.

Lemma added_count : atom_count with_atom = len (filter used (atom_array with_atom)).
Proof.
  cbn. pose proof (count_insert (atom_array s) (Z.to_nat i) _ (Used q) Hfree) as H. rewrite decide_False, decide_True in H by (cbn; tauto).
  rewrite (t_count _ Hok). lia.
Qed.

(** The buckets without the new atom. *)
Lemma added_buckets : buckets_ok with_atom (atom_hash s) (fun j k => j <> i /\ hashed with_atom j k).
Proof.
  intros b a Eb. destruct (t_buckets _ Hok b a Eb) as (l & H1 & H2 & H3).
  assert (Hne : forall j, j ∈ l -> j <> i) by (intros j (k & (_ & x & Ex & _) & _)%H3 ->; by rewrite not_struct in Ex).
  exists l. split_and!; [|done|].
  - eapply path_ext; [|exact H1]. intros j Hj. unfold nx_hash. rewrite added_other; [done|by eapply path_pos|by apply Hne].
  - intros j. rewrite H3. split; intros (k & Hk & Hb); exists k; (split; [|done]).
    + assert (Hj : j <> i) by (apply Hne, H3; by exists k). split; [done|]. apply added_hashed. by left.
    + destruct Hk as [Hj [[_ H]|[? _]]%added_hashed]; done.
Qed.
End add.

(** The state [s'] has the atom [i] of the structure [q]. *)
Record new_slot (s : JSRuntime) (q : ptr) (st : JSAtomStruct) (i h type : Z) (s' : JSRuntime) : Prop := {
  ns_pos : 0 < i;
  ns_free : exists next, atom_array s !! Z.to_nat i = Some (Free next) /\ atom_free_index s' = next;
  ns_array : atom_array s' = <[Z.to_nat i := Used q]> (atom_array s);
  ns_core : core <$> strings s' !! q = Some (mkAtom (as_ref_count st) (str st) h type 0);
  ns_other p : p <> q -> core <$> strings s' !! p = core <$> strings s !! p
}.

Section add_atom.
Context {W : World} {Al : Malloc}.

Lemma core_write s q x p : core <$> strings (write q x s) !! p = if decide (p = q) then Some (core x) else core <$> strings s !! p.
Proof. cbn. destruct (decide (p = q)) as [->|Hne]; [by rewrite lookup_insert_eq|by rewrite lookup_insert_ne by congruence]. Qed.

Lemma relinked_new_slot s q st i h type s1 s2 : new_slot s q st i h type s1 -> relinked s1 s2 -> new_slot s q st i h type s2.
Proof.
  intros [H1 (next & H2 & H6) H3 H4 H5] R. split; try done; [exists next; by rewrite (r_free _ _ R)|by rewrite (r_array _ _ R)|by rewrite (r_core _ _ R)|]. intros p Hp. by rewrite (r_core _ _ R), H5.
Qed.

Lemma add_atom_spec s q st h type : table_ok s -> atom_free_index s <> 0 -> strings s !! q = Some st -> atom_type st = 0 -> 1 <= type <= 3 ->
  (type <> JS_ATOM_TYPE_SYMBOL -> h = name_hash type (units (str st)) /\ forall j, ~ named_atom s j type (units (str st))) ->
  (type = JS_ATOM_TYPE_SYMBOL -> h = 0 \/ h = JS_ATOM_HASH_PRIVATE) ->
  exists s', add_atom s q h type = Some (atom_free_index s, s') /\ table_ok s' /\ new_slot s q st (atom_free_index s) h type s'.
Proof.
  intros Hok Hf Hq Hplain Hty Hname Hsym. destruct (free_index s Hok Hf) as (Hi0 & next & Hfree). set (i := atom_free_index s) in *.
  unfold add_atom. fold i. rewrite Hfree, Hq. cbn [mbind option_bind].
  change (set_count (atom_count (set_array (<[Z.to_nat i:=Used q]> (atom_array s)) next s) + 1) (set_array (<[Z.to_nat i:=Used q]> (atom_array s)) next s))
    with (with_slot s q i next).
  assert (Hns : forall nx s', atom_array s' = atom_array (with_slot s q i next) -> strings s' = <[q := named_struct st h type nx]> (strings s) ->
    atom_free_index s' = next -> new_slot s q st i h type s').
  { intros nx s' E1 E2 E3. split; try done; [by exists next|by rewrite E2, lookup_insert_eq|]. intros p Hp. by rewrite E2, lookup_insert_ne by congruence. }
  assert (Hmax : forall nx, atom_size (with_atom s q st i next h type nx) <= JS_ATOM_MAX) by (intros; unfold atom_size; cbn; rewrite length_insert; apply Hok).
  destruct (Z.eqb_spec type JS_ATOM_TYPE_SYMBOL) as [Ht|Ht]; cbn [negb].
  - exists (with_atom s q st i next h type i). split; [done|]. split; [|by apply (Hns i)]. split; [apply Hok| |by eapply added_free|by apply added_names|by apply added_count|apply Hmax].
    assert (HB : buckets_ok (with_atom s q st i next h type i) (atom_hash s) (fun j k => j <> i /\ hashed (with_atom s q st i next h type i) j k)) by (by apply added_buckets).
    intros b a Eb. destruct (HB b a Eb) as (l & H1 & H2 & H3). exists l. split_and!; [done|done|].
    intros j. rewrite H3. split; intros (k & Hk & Hb); exists k; (split; [|done]); [apply Hk|]. split; [|done]. apply added_hashed in Hk as [[? _]|(_ & ? & _)]; done.
  - destruct (Hname Ht) as [Hh _]. assert (Hpos : 0 <= h) by (rewrite Hh; apply name_hash_nonneg).
    destruct (lookup_lt_is_Some_2 (atom_hash s) (bucket (with_slot s q i next) h)) as [old Eold]; [by apply bucket_bound; [apply Hok|]|].
    change (atom_hash (with_slot s q i next)) with (atom_hash s). rewrite Eold. cbn [mbind option_bind].
    set (s1 := with_atom s q st i next h type 0). assert (N1 : names_ok s1) by (by apply added_names).
    assert (Hs1 : atom_struct s1 i = Some (named_struct st h type 0)) by (by apply added_same).
    pose proof (buckets_insert s1 (atom_hash s) (fun j => j <> i) i q (named_struct st h type 0) old N1 (t_size _ Hok)) as HB. cbn [as_hash named_struct] in HB.
    specialize (HB ltac:(by apply added_buckets) Hi0 ltac:(apply added_slot; [done|done|lia|by left]) ltac:(cbn; by rewrite lookup_insert_eq)).
    specialize (HB ltac:(apply added_hashed; try done; by right) ltac:(tauto) Hpos Eold).
    change (bucket (write q (mkAtom (as_ref_count st) (str st) h type old) (with_slot s q i next)) h) with (Z.to_nat (h .& (len (atom_hash s) - 1))).
    change (bucket (with_slot s q i next) h) with (Z.to_nat (h .& (len (atom_hash s) - 1))). set (b0 := Z.to_nat (h .& _)) in *.
    set (s2 := set_hash _ _). assert (Hstr : strings s2 = strings (write q (with_next old (named_struct st h type 0)) s1)) by (cbn; by rewrite insert_insert_eq).
    assert (R : relinked s1 s2).
    { split; try done; [intros p|intros p x E Hx]; rewrite Hstr.
      - rewrite core_write. destruct (decide (p = q)) as [->|]; [cbn; by rewrite lookup_insert_eq|done].
      - cbn. rewrite lookup_insert_ne; [done|]. intros <-. cbn in E. rewrite lookup_insert_eq in E. apply (inj Some) in E. subst x. cbn in Hx. unfold JS_ATOM_TYPE_SYMBOL in *. lia. }
    assert (Hh2 : forall j k, hashed s2 j k <-> hashed s1 j k) by (intros; by apply relinked_hashed).
    assert (Hok2 : table_ok s2).
    { split; [cbn; rewrite length_insert; apply Hok| |by eapply added_free| |by eapply added_count|apply (Hmax old)].
      - eapply (atom_buckets_ext (write q (with_next old (named_struct st h type 0)) s1)); [intros j; by apply nx_hash_same| |exact HB].
        intros j k. cbn beta. rewrite Hh2. split; [|by intros [_ H]]. intros H. split; [destruct (decide (j = i)); [by right|by left]|done].
      - by apply (relinked_names s1). }
    pose proof (Hns old s2 eq_refl eq_refl eq_refl) as Hnew. destruct (atom_count_resize s2 <=? atom_count s2).
    + destruct (t_size _ Hok2) as (k & Hk & El). assert (E2 : atom_hash_size s2 * 2 = 2 ^ (k + 1)).
      { unfold atom_hash_size. rewrite El, Z2Nat.id by (apply Z.pow_nonneg; lia). rewrite Z.pow_add_r by lia. lia. }
      rewrite E2. destruct (resize_hash_spec s2 (k + 1) Hok2 ltac:(lia)) as (b & s3 & -> & R3 & Hok3). cbn. exists s3. split; [done|]. split; [done|]. by eapply relinked_new_slot.
    + cbn. by exists s2.
Qed.
End add_atom.
