(* ===== verification/AtomNumber.v ===== *)
(** * Names that are array indices

    [is_num_string] recognizes the canonical decimal texts of the 32-bit numbers. *)
From S2P Require Export Atoms.

Lemma is_num_digit c : is_num c = true <-> exists d, 0 <= d < 10 /\ c = digit_char d.
Proof.
  unfold is_num. split.
  - intros H. exists (c - 48). split; [lia|]. rewrite digit_char_dec by lia. lia.
  - intros (d & Hd & ->). rewrite digit_char_dec by lia. lia.
Qed.

Lemma show_next n d : 0 < n -> 0 <= d < 10 -> show 10 (n * 10 + d) = show 10 n ++ [digit_char d].
Proof.
  intros Hn Hd. rewrite show_step by lia. f_equal; [f_equal; symmetry; by apply (Z.div_unique _ 10 _ d); lia|].
  f_equal. f_equal. symmetry. by apply (Z.mod_unique _ 10 n); lia.
Qed.

(** The loop has read the digits of [n]. *)
Lemma num_loop_show l : forall n r, 0 < n < 2 ^ 32 -> num_loop n l = Some r -> 0 < r < 2 ^ 32 /\ show 10 r = show 10 n ++ l.
Proof.
  induction l as [|c l IH]; intros n r Hn; cbn [num_loop]; [intros [= <-]; by rewrite app_nil_r|].
  destruct (is_num c) eqn:Ec; [|done]. cbn [negb]. apply is_num_digit in Ec as (d & Hd & ->). rewrite digit_char_dec by lia. replace (d + 48 - 48) with d by lia.
  destruct (Z.eqb_spec ((n * 10 + d) >> 32) 0) as [Hs|Hs]; cbn [negb]; [|done].
  intros H. destruct (IH (n * 10 + d) r) as [H1 H2]; [|done|].
  - rewrite shiftr_div in Hs by lia. apply Z.div_small_iff in Hs; lia.
  - split; [done|]. rewrite H2, show_next, <- app_assoc, digit_char_dec by lia. done.
Qed.

Lemma parse_nonneg l : 0 <= parse 10 l.
Proof.
  unfold parse. assert (H : forall a, 0 <= a -> 0 <= foldl (fun v c => v * 10 + to_digit c) a l); [|by apply H].
  induction l as [|c l IH]; intros a Ha; [done|]. cbn. apply IH. assert (0 <= to_digit c) by (unfold to_digit; zcases; lia). lia.
Qed.

Lemma show_num_loop l : forall n r, 0 < n -> r < 2 ^ 32 -> 0 <= r -> show 10 r = show 10 n ++ l -> num_loop n l = Some r.
Proof.
  induction l as [|c l IH]; intros n r Hn Hr Hr0 E; cbn [num_loop].
  - rewrite app_nil_r in E. f_equal. apply (f_equal (parse 10)) in E. rewrite !parse_show in E by lia. done.
  - assert (Hc : exists d, 0 <= d < 10 /\ c = digit_char d).
    { pose proof (show_digits 10 ltac:(lia) r Hr0) as H. rewrite E in H. apply Forall_app in H as [_ H]. by apply Forall_cons in H as [H _]. }
    rewrite (proj2 (is_num_digit c) Hc). cbn [negb]. destruct Hc as (d & Hd & ->). rewrite digit_char_dec by lia. replace (d + 48 - 48) with d by lia.
    assert (E' : show 10 r = show 10 (n * 10 + d) ++ l) by (rewrite show_next by lia; rewrite E, <- app_assoc; done).
    assert (Hle : n * 10 + d <= r).
    { apply (f_equal (parse 10)) in E'. rewrite parse_app, !parse_show in E' by lia. pose proof (parse_nonneg l). assert (1 <= 10 ^ len l) by (apply (Z.pow_le_mono_r 10 0); lia). nia. }
    rewrite shiftr_div by lia. rewrite Z.div_small by lia. cbn [Z.eqb negb]. apply IH; [lia|done|done|done].
Qed.

Lemma is_num_string_spec p n : is_num_string p = Some n <-> 0 <= n < 2 ^ 32 /\ units p = show 10 n.
Proof.
  unfold is_num_string. split.
  - destruct (units p) as [|c l]; [done|]. destruct (Z.ltb_spec 10 (len (c :: l))); [done|]. destruct (is_num c) eqn:Ec; [|done].
    apply is_num_digit in Ec as (d & Hd & ->). rewrite digit_char_dec by lia. destruct (Z.eqb_spec (d + 48) 48) as [H0|H0].
    + destruct (Z.eqb_spec (len (d + 48 :: l)) 1) as [Hl|Hl]; cbn [negb]; [|done]. intros [= <-]. split; [lia|]. destruct l as [|x l]; [|cbn [length] in Hl; lia]. rewrite H0. done.
    + replace (d + 48 - 48) with d by lia. intros Hn. destruct (num_loop_show l d n ltac:(lia) Hn) as [H1 H2]. split; [lia|]. rewrite H2, show_small by lia. cbn. by rewrite digit_char_dec by lia.
  - intros [Hn Hu]. destruct (decide (n = 0)) as [->|Hne]; [by rewrite Hu|].
    destruct (show_head 10 ltac:(lia) n ltac:(lia)) as (c & l & E & Hc). rewrite Hu, E.
    assert (Hlen : len (show 10 n) <= 10) by (apply show_length_le; lia). rewrite E in Hlen. replace (10 <? len (c :: l)) with false by lia.
    assert (Hd : exists d, 0 <= d < 10 /\ c = digit_char d).
    { pose proof (show_digits 10 ltac:(lia) n ltac:(lia)) as H. rewrite E in H. by apply Forall_cons in H as [H _]. }
    rewrite (proj2 (is_num_digit c) Hd). replace (c =? 48) with false by lia. destruct Hd as (d & Hd & ->). rewrite digit_char_dec in * by lia. replace (d + 48 - 48) with d by lia.
    apply show_num_loop; [lia|lia|lia|]. rewrite (show_small 10 d) by lia. rewrite digit_char_dec by lia. done.
Qed.

Lemma show_inj a b : 0 <= a -> 0 <= b -> show 10 a = show 10 b -> a = b.
Proof. intros Ha Hb E. apply (f_equal (parse 10)) in E. by rewrite !parse_show in E by lia. Qed.
