(* ===== verification/AtomSpec.v ===== *)
(** * Interned names

    The specification of the atoms: a heap of strings with the references of the values and,
    for a string that is an atom, its index and the references of the atoms.  A string
    disappears with its last reference.  The operations of [Atoms], with their hash table,
    their free list and the shared reference counts, refine it. *)
From S2P Require Export Client AtomAdd.

(** ** The specification *)

Record AtomRef := mkRef { a_index : Z; a_type : Z; a_refs : Z }.
Record Node := mkNode { n_refs : Z; n_text : JSString; n_atom : option AtomRef }.
Abbreviation heap := (gmap ptr Node).

Definition total (n : Node) : Z := n_refs n + match n_atom n with Some a => a_refs a | None => 0 end.
Definition assign (p : ptr) (x : option Node) (m : heap) : heap := match x with Some n => <[p := n]> m | None => delete p m end.
(** The node lives while it has references. *)
Definition settle (p : ptr) (n : Node) (m : heap) : heap := assign p (if total n <=? 0 then None else Some n) m.

Definition plain (text : JSString) : Node := mkNode 1 text None.
Definition values (d : Z) (n : Node) : Node := mkNode (n_refs n + d) (n_text n) (n_atom n).
Definition atoms (d : Z) (n : Node) : Node :=
  mkNode (n_refs n) (n_text n) ((fun a => mkRef (a_index a) (a_type a) (a_refs a + d)) <$> n_atom n).
(** A reference of a value becomes the one of the new atom. *)
Definition becomes (a type : Z) (n : Node) : Node := mkNode (n_refs n - 1) (n_text n) (Some (mkRef a type 1)).
(** The reference of the atom becomes the one of a value. *)
Definition as_value (n : Node) : Node := values 1 (atoms (-1) n).

Definition drop_value (p : ptr) (m : heap) : heap := match m !! p with Some n => settle p (values (-1) n) m | None => m end.

(** The node [q] is the atom [i]. *)
Definition is_atom (m : heap) (i : Z) (q : ptr) (n : Node) (a : AtomRef) : Prop := m !! q = Some n /\ n_atom n = Some a /\ a_index a = i.
Definition has_name (type : Z) (text : list Z) (n : Node) : Prop := exists a, n_atom n = Some a /\ a_type a = type /\ units (n_text n) = text.

(** The predefined atoms keep their reference. *)
Definition dup_atom (i : Z) (q : ptr) (n : Node) (m : heap) : heap := if i <? JS_ATOM_END then m else <[q := atoms 1 n]> m.

(** The string becomes the number of an array index. *)
Definition small_number (text : list Z) (n : Z) : Prop := 0 <= n <= JS_ATOM_MAX_INT /\ text = show 10 n.

(** The string [q] of a new atom for the value [p]: [p] itself, or a copy when it is an atom. *)
Definition string_for (m : heap) (p : option ptr) (q : ptr) (m' : heap) : Prop :=
  match p with
  | None => m !! q = None /\ m' = <[q := plain (mkString true [])]> m
  | Some p => exists n, m !! p = Some n /\
      match n_atom n with
      | None => q = p /\ m' = m
      | Some _ => m !! q = None /\ m' = drop_value p (<[q := plain (n_text n)]> m)
      end
  end.

(** The new atom [a]. *)
Definition new_atom_of (m : heap) (p : option ptr) (type a : Z) (m' : heap) : Prop :=
  exists q n m1, string_for m p q m1 /\ m1 !! q = Some n /\ m' = <[q := becomes a type n]> m1 /\
    0 < a <= JS_ATOM_MAX /\ (forall x nx ax, ~ is_atom m1 a x nx ax).

(** The atom of a name, for the value [p]; 0 is [JS_ATOM_NULL]. *)
Definition interned (m : heap) (p : ptr) (type a : Z) (m' : heap) : Prop :=
  exists n, m !! p = Some n /\
    ((exists q nq aq, is_atom m a q nq aq /\ has_name type (units (n_text n)) nq /\ m' = drop_value p (dup_atom a q nq m)) \/
     ((forall q nq, m !! q = Some nq -> ~ has_name type (units (n_text n)) nq) /\
      ((a = JS_ATOM_NULL /\ m' = drop_value p m) \/ new_atom_of m (Some p) type a m'))).

(** ** The invariant *)

Record node_ok (n : Node) : Prop := {
  o_total : 0 < total n;
  o_refs : 0 <= n_refs n;
  o_atom a : n_atom n = Some a -> 0 <= a_refs a /\ (a_index a < JS_ATOM_END -> a_refs a = 1 /\ a_type a <> JS_ATOM_TYPE_GLOBAL_SYMBOL) /\
    (a_type a = JS_ATOM_TYPE_STRING -> forall k, ~ small_number (units (n_text n)) k)
}.

(** The structure of a node. *)
Definition stands (s : JSRuntime) (p : ptr) (n : Node) (st : JSAtomStruct) : Prop :=
  str st = n_text n /\ as_ref_count st = total n /\
  match n_atom n with None => atom_type st = 0 | Some a => 0 < a_index a /\ slot_ptr s (a_index a) p /\ atom_type st = a_type a end.

Record agrees (s : JSRuntime) (m : heap) : Prop := {
  ag_table : table_ok s;
  ag_node p n : m !! p = Some n -> node_ok n /\ exists st, strings s !! p = Some st /\ stands s p n st;
  ag_back p st : strings s !! p = Some st -> is_Some (m !! p) \/ slot_ptr s 0 p;
  ag_null p : slot_ptr s 0 p -> m !! p = None
}.

Lemma lookup_assign q p x m : assign p x m !! q = if decide (q = p) then x else m !! q.
Proof.
  unfold assign. destruct (decide (q = p)) as [->|Hne], x; [apply lookup_insert_eq|apply lookup_delete_eq|by rewrite lookup_insert_ne by congruence|by rewrite lookup_delete_ne by congruence].
Qed.

Lemma stands_core s s' p n st st' : core st' = core st -> (forall i, 0 < i -> slot_ptr s i p -> slot_ptr s' i p) -> stands s p n st -> stands s' p n st'.
Proof.
  intros Hc Hs (H1 & H2 & H3). destruct st, st'. unfold core, with_next in Hc. cbn in Hc. injection Hc as -> -> -> ->. unfold stands. cbn in *. split_and!; try done.
  destruct (n_atom n) as [a|]; [|done]. destruct H3 as (? & ? & ?). split_and!; try done. by apply Hs.
Qed.

(** One node changes. *)
Lemma agrees_change s s' m p x : agrees s m -> table_ok s' -> (forall q, q <> p -> core <$> strings s' !! q = core <$> strings s !! q) ->
  (forall i q, 0 <= i -> q <> p -> slot_ptr s' i q <-> slot_ptr s i q) -> ~ slot_ptr s' 0 p ->
  match x with Some n => node_ok n /\ exists st, strings s' !! p = Some st /\ stands s' p n st | None => strings s' !! p = None end ->
  agrees s' (assign p x m).
Proof.
  intros [A1 A2 A3 A4] Hok Hs Hsl H0 Hx. split; [done|..].
  - intros q n E. rewrite lookup_assign in E. destruct (decide (q = p)) as [->|Hne]; [by rewrite E in Hx|]. destruct (A2 q n E) as (Hn & st & Est & Hst). split; [done|].
    specialize (Hs q Hne). rewrite Est in Hs. destruct (strings s' !! q) as [st'|] eqn:E'; [|done]. cbn in Hs. apply (inj Some) in Hs. exists st'. split; [done|].
    eapply stands_core; [exact Hs| |exact Hst]. intros i Hi. apply Hsl; [lia|done].
  - intros q st E. rewrite lookup_assign. destruct (decide (q = p)) as [->|Hne]; [left; destruct x; [by eexists|congruence]|].
    specialize (Hs q Hne). rewrite E in Hs. destruct (strings s !! q) as [st'|] eqn:E'; [|done]. destruct (A3 q st' E') as [|H]; [by left|right]. by apply Hsl.
  - intros q Hq. rewrite lookup_assign. destruct (decide (q = p)) as [->|Hne]; [done|]. apply A4. by apply Hsl.
Qed.

(** ** References *)

(** The nodes differ by their references. *)
Definition same_node (n n' : Node) : Prop :=
  n_text n' = n_text n /\ (fun a => (a_index a, a_type a)) <$> n_atom n' = (fun a => (a_index a, a_type a)) <$> n_atom n.

Lemma same_values d n : same_node n (values d n).
Proof. done. Qed.
Lemma same_atoms d n : same_node n (atoms d n).
Proof. split; [done|]. cbn. by destruct (n_atom n). Qed.
Lemma total_values d n : total (values d n) = total n + d.
Proof. unfold total. cbn. lia. Qed.
Lemma total_atoms d n a : n_atom n = Some a -> total (atoms d n) = total n + d.
Proof. unfold total. cbn. intros ->. cbn. lia. Qed.

Lemma stands_count s p n n' st : stands s p n st -> same_node n n' -> stands (write p (with_ref_count (total n') st) s) p n' (with_ref_count (total n') st).
Proof.
  intros (H1 & H2 & H3) [E1 E2]. split; [cbn; by rewrite E1|]. split; [done|]. destruct (n_atom n) as [a|], (n_atom n') as [a'|]; cbn in E2; try done. by injection E2 as -> ->.
Qed.

Lemma agrees_slot s m p n st : agrees s m -> m !! p = Some n -> stands s p n st -> ~ slot_ptr s 0 p.
Proof. intros A E _ H. by rewrite (ag_null _ _ A p H) in E. Qed.

(** A reference count is written. *)
Lemma agrees_write s m p n n' st : agrees s m -> m !! p = Some n -> strings s !! p = Some st -> stands s p n st -> same_node n n' -> node_ok n' ->
  agrees (write p (with_ref_count (total n') st) s) (<[p := n']> m).
Proof.
  intros A E Ep Hst Hn Hok'. apply (agrees_change s _ m p (Some n') A).
  - eapply recounted_ok; [by apply write_recounted|apply A].
  - intros q Hq. rewrite core_write. by rewrite decide_False by done.
  - done.
  - exact (agrees_slot _ _ _ _ _ A E Hst).
  - split; [done|]. eexists. split; [cbn; by rewrite lookup_insert_eq|]. by apply (stands_count s p n).
Qed.

(** The end of [js_free_string] and of [__JS_FreeAtom]. *)
Lemma settle_spec s m p n n' st : agrees s m -> m !! p = Some n -> strings s !! p = Some st -> stands s p n st -> same_node n n' -> (0 < total n' -> node_ok n') ->
  let s1 := write p (with_ref_count (total n') st) s in
  exists s', (if total n' <=? 0 then if negb (atom_type st =? 0) then JS_FreeAtomStruct s1 p else Some (js_free_rt p s1) else Some s1) = Some s' /\ agrees s' (settle p n' m) /\
    (atom_free_index s <> 0 -> atom_free_index s' <> 0).
Proof.
  intros A E Ep Hst Hn Hok' s1. unfold settle. destruct (Z.leb_spec (total n') 0) as [Hle|Hgt]; [|eexists; split; [done|]; split; [|done]; cbn [assign]; eapply agrees_write; try done; by apply Hok'].
  assert (Hrc : recounted s s1) by (by apply write_recounted). pose proof (recounted_ok _ _ Hrc (ag_table _ _ A)) as Hok1.
  assert (Ep1 : strings s1 !! p = Some (with_ref_count (total n') st)) by (cbn; by rewrite lookup_insert_eq). pose proof (agrees_slot _ _ _ _ _ A E Hst) as H0.
  assert (Hs1 : forall q, q <> p -> core <$> strings s1 !! q = core <$> strings s !! q) by (intros q Hq; unfold s1; rewrite core_write; by rewrite decide_False by done).
  pose proof Hst as (_ & _ & Ha). destruct (n_atom n) as [a|].
  - destruct Ha as (Hi & Hsl & Ht). destruct (free_struct_spec s1 p (with_ref_count (total n') st) (a_index a) Hok1 Ep1 Hsl Hi) as (s' & E' & Hok2 & F1 & F2 & F3 & F4).
    assert (Ht0 : atom_type st <> 0) by (eapply (atom_not_plain s (a_index a) p); try done; [apply A|lia]).
    exists s'. replace (atom_type st =? 0) with false by lia. split; [done|]. assert (Hlt : (Z.to_nat (a_index a) < length (atom_array s1))%nat) by (by eapply lookup_lt_Some).
    split; [|rewrite F2; lia]. apply (agrees_change s s' m p None A); try done.
    + intros q Hq. by rewrite F4, Hs1.
    + intros i q Hi0 Hq. unfold slot_ptr. rewrite F1. destruct (decide (i = a_index a)) as [->|Hne]; [|by rewrite list_lookup_insert_ne by lia].
      rewrite list_lookup_insert_eq by done. split; [done|]. unfold slot_ptr in Hsl. intros Hq'. rewrite Hq' in Hsl. congruence.
    + unfold slot_ptr. rewrite F1. rewrite list_lookup_insert_ne by lia. done.
  - rewrite Ha. cbn [negb Z.eqb]. eexists. split; [done|]. split; [|done]. apply (agrees_change s _ m p None A); try done.
    + eapply plain_ok; [by eapply (delete_plain s1 p); [apply Hok1| |]|done].
    + intros q Hq. cbn. rewrite lookup_delete_ne by congruence. by apply Hs1.
    + cbn. apply lookup_delete_eq.
Qed.

Lemma agrees_struct s m p n : agrees s m -> m !! p = Some n -> node_ok n /\ exists st, strings s !! p = Some st /\ stands s p n st.
Proof. intros A. apply A. Qed.

Lemma free_string_spec s m p n : agrees s m -> m !! p = Some n -> 1 <= n_refs n -> exists s', js_free_string s p = Some s' /\ agrees s' (drop_value p m) /\
  (atom_free_index s <> 0 -> atom_free_index s' <> 0).
Proof.
  intros A E Hr. destruct (agrees_struct s m p n A E) as (Hn & st & Ep & Hst). unfold js_free_string. rewrite Ep. cbn [mbind option_bind].
  destruct (settle_spec s m p n (values (-1) n) st A E Ep Hst (same_values _ _)) as (s' & E' & A' & F').
  - intros Ht. destruct Hn as [O1 O2 O3]. split; [done|cbn; lia|apply O3].
  - exists s'. unfold drop_value. rewrite E. split; [|done]. rewrite <- E'. rewrite total_values. replace (as_ref_count st - 1) with (total n + -1); [done|]. destruct Hst as (_ & -> & _). lia.
Qed.

Lemma dup_string_spec s m p n : agrees s m -> m !! p = Some n -> exists s', dup_string s p = Some s' /\ agrees s' (<[p := values 1 n]> m).
Proof.
  intros A E. destruct (agrees_struct s m p n A E) as (Hn & st & Ep & Hst). unfold dup_string. rewrite Ep. cbn [mbind option_bind]. eexists. split; [done|].
  replace (as_ref_count st + 1) with (total (values 1 n)) by (rewrite total_values; destruct Hst as (_ & -> & _); lia). eapply agrees_write; try done.
  destruct Hn as [O1 O2 O3]. split; [rewrite total_values; lia|cbn; lia|apply O3].
Qed.

(** The predefined atoms and the numbers have no references. *)
Lemma const_small i : 0 <= i <= JS_ATOM_MAX -> __JS_AtomIsConst i = (i <? JS_ATOM_END).
Proof. intros Hi. unfold __JS_AtomIsConst, JS_ATOM_MAX in *. by rewrite swrap_small by (unfold sword; lia). Qed.

Lemma index_bound s i p : table_ok s -> slot_ptr s i p -> 0 < i -> i <= JS_ATOM_MAX.
Proof. intros Hok H Hi. apply lookup_lt_Some in H. pose proof (t_max _ Hok). unfold atom_size in *. lia. Qed.

Lemma atom_at s m i q n a : agrees s m -> is_atom m i q n a -> 0 < i <= JS_ATOM_MAX /\ node_ok n /\ exists st, slot_ptr s i q /\ strings s !! q = Some st /\ stands s q n st /\ atom_type st = a_type a.
Proof.
  intros A (E & Ea & <-). destruct (agrees_struct s m q n A E) as (Hn & st & Ep & Hst). pose proof Hst as (_ & _ & Ha). rewrite Ea in Ha. destruct Ha as (Hi & Hsl & Ht).
  pose proof (index_bound s _ _ (ag_table _ _ A) Hsl Hi). split_and!; try done. exists st. by split_and!.
Qed.

Lemma dup_atom_spec s m i q n a : agrees s m -> is_atom m i q n a -> exists s', JS_DupAtom s i = Some s' /\ agrees s' (dup_atom i q n m).
Proof.
  intros A Hat. destruct (atom_at s m i q n a A Hat) as (Hi & Hn & st & Hsl & Ep & Hst & _). unfold JS_DupAtom, dup_atom. rewrite const_small by lia.
  destruct (Z.ltb_spec i JS_ATOM_END) as [Hc|Hc]; cbn [negb]; [by exists s|]. rewrite (proj2 (atom_ptr_some s i q) Hsl). cbn [mbind option_bind]. rewrite Ep. cbn [mbind option_bind].
  eexists. split; [done|]. destruct Hat as (E & Ea & Hai).
  replace (as_ref_count st + 1) with (total (atoms 1 n)) by (rewrite (total_atoms _ _ a Ea); destruct Hst as (_ & -> & _); lia). eapply agrees_write; try done; [apply same_atoms|].
  destruct Hn as [O1 O2 O3]. destruct (O3 a Ea) as (O4 & O5 & O6). split; [rewrite (total_atoms _ _ a Ea); lia|done|]. cbn. rewrite Ea. cbn. intros a' [= <-]. cbn. split_and!; [lia|lia|done].
Qed.

(** The atom loses a reference. *)
Definition drop_atom (i : Z) (q : ptr) (n : Node) (m : heap) : heap := if i <? JS_ATOM_END then m else settle q (atoms (-1) n) m.

Lemma free_atom_spec s m i q n a : agrees s m -> is_atom m i q n a -> 1 <= a_refs a -> exists s', JS_FreeAtom s i = Some s' /\ agrees s' (drop_atom i q n m).
Proof.
  intros A Hat Hr. destruct (atom_at s m i q n a A Hat) as (Hi & Hn & st & Hsl & Ep & Hst & Ht). unfold JS_FreeAtom, drop_atom. rewrite const_small by lia.
  destruct (Z.ltb_spec i JS_ATOM_END) as [Hc|Hc]; cbn [negb]; [by exists s|]. unfold __JS_FreeAtom. rewrite (proj2 (atom_ptr_some s i q) Hsl). cbn [mbind option_bind]. rewrite Ep. cbn [mbind option_bind].
  destruct Hat as (E & Ea & Hai). pose proof (total_atoms (-1) n a Ea) as Etot. destruct (settle_spec s m q n (atoms (-1) n) st A E Ep Hst (same_atoms _ _)) as (s' & E' & A' & _).
  - intros Hpos. destruct Hn as [O1 O2 O3]. destruct (O3 a Ea) as (O4 & O5 & O6). split; [done|done|]. cbn. rewrite Ea. cbn. intros a' [= <-]. cbn. split_and!; [lia|lia|done].
  - exists s'. split; [|done]. rewrite <- E'. assert (Hc1 : as_ref_count st - 1 = total (atoms (-1) n)) by (destruct Hst as (_ & -> & _); lia). rewrite Hc1.
    assert (Ht0 : atom_type st <> 0) by (eapply (atom_not_plain s i q); try done; [apply A|lia]). replace (atom_type st =? 0) with false by lia. cbn [negb].
    destruct (Z.leb_spec (total (atoms (-1) n)) 0), (Z.ltb_spec 0 (total (atoms (-1) n))); try lia; done.
Qed.
