(* ===== verification/AtomNew.v ===== *)
(** * New names

    [__JS_NewAtom] refines the interning of [AtomSpec]. *)
From S2P Require Export AtomNumber AtomSpec.

Section new.
Context {W : World} {Al : Malloc}.

(** ** Strings *)

Lemma agrees_grown s s' m : agrees s m -> table_ok s' -> grown s s' -> agrees s' m.
Proof.
  intros [A1 A2 A3 A4] Hok G. split; [done|..].
  - intros p n E. destruct (A2 p n E) as (Hn & st & Ep & Hst). split; [done|]. exists st. split; [by apply (g_some _ _ G)|]. eapply stands_core; [done| |exact Hst].
    intros i Hi. apply (g_slot _ _ G). lia.
  - intros p st E. destruct (g_back _ _ G p st E) as [E'|[_ H]]; [|by right]. destruct (A3 p st E') as [|H]; [by left|right]. by apply (g_slot _ _ G).
  - intros p H. destruct (g_slot_back _ _ G 0 p) as [H'|[_ H']]; [lia|done|by apply A4|]. destruct (m !! p) as [n|] eqn:E; [|done]. destruct (A2 p n E) as (_ & st & Ep & _). congruence.
Qed.

Lemma agrees_tick s m : agrees s m -> agrees (tick s) m.
Proof. intros A. eapply agrees_grown; [done|apply tick_ok, A|by apply grown_refl]. Qed.

Lemma agrees_none s m p : agrees s m -> strings s !! p = None -> m !! p = None.
Proof. intros A E. destruct (m !! p) as [n|] eqn:En; [|done]. destruct (agrees_struct s m p n A En) as (_ & st & Ep & _). congruence. Qed.

Lemma fresh_none s : strings s !! fresh_string s = None.
Proof. apply not_elem_of_dom, malloc_fresh. Qed.

(** A new string. *)
Lemma agrees_string s m p text : agrees s m -> strings s !! p = None -> agrees (write p (mkAtom 1 text 0 0 0) s) (<[p := plain text]> m).
Proof.
  intros A E. pose proof (t_names _ (ag_table _ _ A)) as N. apply (agrees_change s _ m p (Some (plain text)) A).
  - eapply plain_ok; [by apply insert_plain|apply A].
  - intros q Hq. rewrite core_write. by rewrite decide_False by done.
  - done.
  - intros H. destruct (n_used _ N 0 p H) as (st & E' & _). congruence.
  - split; [split; [by cbn|by cbn|by cbn]|]. eexists. split; [cbn; by rewrite lookup_insert_eq|]. done.
Qed.

Lemma alloc_string_spec s m text : agrees s m -> exists r s', js_alloc_string s text = (r, s') /\
  match r with None => agrees s' m | Some p => m !! p = None /\ agrees s' (<[p := plain text]> m) end.
Proof.
  intros A. unfold js_alloc_string, js_malloc_rt. pose proof (agrees_tick s m A) as A1. destruct (ext_ok (ev s)); cbn [negb]; [|by exists None, (tick s)].
  pose proof (fresh_none (tick s)) as Hf. eexists (Some _), _. split; [done|]. split; [by eapply agrees_none|by apply agrees_string].
Qed.

(** ** Names *)

(** The nodes of [m'] have the names of nodes of [m]. *)
Definition names_from (m m' : heap) : Prop := forall t u x nx, m' !! x = Some nx -> has_name t u nx -> exists y ny, m !! y = Some ny /\ has_name t u ny.

Lemma same_name t u n n' : same_node n n' -> has_name t u n' -> has_name t u n.
Proof.
  intros [E1 E2] (a & Ea & Ht & Hu). rewrite Ea in E2. destruct (n_atom n) as [b|] eqn:Eb; [|done]. cbn in E2. injection E2 as _ E2. exists b. split_and!; [done|congruence|by rewrite <- E1].
Qed.

Lemma lookup_settle m p n n' x nx : m !! p = Some n -> same_node n n' -> settle p n' m !! x = Some nx -> (x = p /\ nx = n') \/ (x <> p /\ m !! x = Some nx).
Proof.
  intros E Hn. unfold settle. rewrite lookup_assign. destruct (decide (x = p)) as [->|Hne]; [|by right]. destruct (total n' <=? 0); [done|]. intros [= <-]. by left.
Qed.
Lemma lookup_dropped m p x nx : drop_value p m !! x = Some nx -> exists n, m !! x = Some n /\ same_node n nx /\ (x <> p -> nx = n).
Proof.
  unfold drop_value. destruct (m !! p) as [n|] eqn:E; [|intros H; by exists nx]. intros H. destruct (lookup_settle m p n _ x nx E (same_values (-1) n) H) as [[-> ->]|[Hne H']].
  - exists n. split; [done|]. split; [apply same_values|done].
  - exists nx. by split_and!.
Qed.

Lemma names_from_drop m p : names_from m (drop_value p m).
Proof. intros t u x nx H Hn. destruct (lookup_dropped m p x nx H) as (n & E & Hs & _). exists x, n. split; [done|by eapply same_name]. Qed.
Lemma names_from_plain m p text : names_from m (<[p := plain text]> m).
Proof. intros t u x nx [[<- <-]|[_ H]]%lookup_insert_Some Hn; [by destruct Hn as (a & ? & _)|by exists x, nx]. Qed.
Lemma names_from_trans m1 m2 m3 : names_from m1 m2 -> names_from m2 m3 -> names_from m1 m3.
Proof. intros H1 H2 t u x nx E Hn. destruct (H2 t u x nx E Hn) as (y & ny & Ey & Hy). by apply (H1 t u y ny). Qed.

Lemma struct_node s m i st : agrees s m -> 0 < i -> atom_struct s i = Some st ->
  exists q n a, slot_ptr s i q /\ strings s !! q = Some st /\ stands s q n st /\ is_atom m i q n a /\ atom_type st = a_type a.
Proof.
  intros A Hi (q & Hq & Eq)%atom_struct_some. pose proof (t_names _ (ag_table _ _ A)) as N. destruct (ag_back _ _ A q st Eq) as [[n E]|H0].
  - destruct (agrees_struct s m q n A E) as (_ & st' & Eq' & Hst). rewrite Eq in Eq'. apply (inj Some) in Eq'. subst st'. pose proof Hst as (_ & _ & Ha).
    destruct (n_atom n) as [a|] eqn:Ea; [|by destruct (atom_not_plain s i q st N Hq ltac:(lia) Eq)]. destruct Ha as (Ha1 & Ha2 & Ha3).
    exists q, n, a. split_and!; try done. split_and!; [done|done|]. eapply (slot_inj s _ i q); try done; lia.
  - pose proof (slot_inj s i 0 q N Hq H0 ltac:(lia) ltac:(lia)). lia.
Qed.

Lemma named_node s m i t u : agrees s m -> named_atom s i t u -> exists q n a, is_atom m i q n a /\ has_name t u n.
Proof.
  intros A (Hi & st & Es & Ht & Hu). destruct (struct_node s m i st A Hi Es) as (q & n & a & _ & _ & (Hst & _) & Hat & Hta). exists q, n, a. split; [done|].
  destruct Hat as (_ & Ea & _). exists a. split_and!; [done|congruence|by rewrite <- Hst].
Qed.

(** The predefined atoms exist. *)
Definition booted (m : heap) : Prop := forall i, 0 < i < JS_ATOM_END -> exists q n a, is_atom m i q n a.

Lemma is_atom_same m m' i q n n' a : m' !! q = Some n' -> same_node n n' -> is_atom m i q n a -> exists a', is_atom m' i q n' a' /\ a_type a' = a_type a.
Proof.
  intros E' [_ Hs] (E & Ea & Hi). rewrite Ea in Hs. destruct (n_atom n') as [a'|] eqn:Ea'; [|done]. cbn in Hs. injection Hs as H1 H2. exists a'. split; [|done]. split_and!; [done|done|congruence].
Qed.

Lemma booted_drop s m p n : agrees s m -> m !! p = Some n -> 1 <= n_refs n -> booted m -> booted (drop_value p m).
Proof.
  intros A E Hr B i Hi. destruct (B i Hi) as (q & nq & a & Hat). destruct (decide (q = p)) as [->|Hne].
  - pose proof Hat as (E' & Ea & Hai). rewrite E in E'. apply (inj Some) in E'. subst nq. destruct (agrees_struct s m p n A E) as ([_ _ O3] & _). destruct (O3 a Ea) as (_ & O5 & _).
    destruct (O5 ltac:(lia)) as [O6 _]. destruct (is_atom_same m (drop_value p m) i p n (values (-1) n) a) as (a' & H & _); [|done|done|by exists p, (values (-1) n), a'].
    unfold drop_value. rewrite E. unfold settle. rewrite lookup_assign, decide_True by done. replace (total (values (-1) n) <=? 0) with false; [done|]. unfold total. cbn. rewrite Ea. lia.
  - exists q, nq, a. destruct Hat as (E' & H). split; [|done]. unfold drop_value. rewrite E. unfold settle. by rewrite lookup_assign, decide_False by done.
Qed.
Lemma booted_insert m p n : (forall n0, m !! p = Some n0 -> same_node n0 n) -> booted m -> booted (<[p := n]> m).
Proof.
  intros Hn B i Hi. destruct (B i Hi) as (q & nq & a & Hat). destruct (decide (q = p)) as [->|Hne].
  - destruct (is_atom_same m (<[p := n]> m) i p nq n a) as (a' & H & _); [by rewrite lookup_insert_eq|by apply Hn, Hat|done|by exists p, n, a'].
  - exists q, nq, a. destruct Hat as (E' & H). split; [|done]. by rewrite lookup_insert_ne by congruence.
Qed.

(** ** New atoms *)

(** The value [p], if there is one, and the text of its atom. *)
Definition given (m : heap) (p : option ptr) (text : JSString) : Prop :=
  match p with Some p => exists n, m !! p = Some n /\ 1 <= n_refs n /\ n_text n = text | None => text = mkString true [] end.
Definition drop_given (p : option ptr) (m : heap) : heap := match p with Some p => drop_value p m | None => m end.

Lemma release_spec s m p text : agrees s m -> given m p text -> exists s', release s p = Some s' /\ agrees s' (drop_given p m).
Proof.
  intros A. destruct p as [p|]; cbn; [|by exists s]. intros (n & E & Hr & _). destruct (free_string_spec s m p n A E Hr) as (s' & E' & A' & _). by exists s'.
Qed.

Lemma new_struct_spec s m p text : agrees s m -> given m p text -> atom_free_index s <> 0 -> exists r s', new_struct s p = Some (r, s') /\
  match r with
  | None => agrees s' m
  | Some q => exists n m1, string_for m p q m1 /\ m1 !! q = Some n /\ n_atom n = None /\ 1 <= n_refs n /\ n_text n = text /\ names_from m m1 /\ (booted m -> booted m1) /\
      agrees s' m1 /\ atom_free_index s' <> 0
  end.
Proof.
  intros A Hp Hf. unfold new_struct, js_malloc_rt. destruct p as [p|]; cbn in Hp.
  - destruct Hp as (n & E & Hr & Ht). destruct (agrees_struct s m p n A E) as (Hn & st & Ep & Hst). rewrite Ep. cbn [mbind option_bind]. pose proof Hst as (Hs1 & _ & Ha).
    destruct (n_atom n) as [a|] eqn:Ea.
    + destruct Ha as (Hi & Hsl & Hta). assert (Ht0 : atom_type st <> 0) by (eapply (atom_not_plain s (a_index a) p); try done; [apply A|lia]). replace (atom_type st =? 0) with false by lia.
      pose proof (agrees_tick s m A) as A1. destruct (ext_ok (ev s)); cbn [negb]; [|by exists None, (tick s)].
      set (q := fresh_string (tick s)). pose proof (fresh_none (tick s)) as Hq. fold q in Hq. pose proof (agrees_none _ _ _ A1 Hq) as Hmq. rewrite Hs1.
      pose proof (agrees_string _ _ q (n_text n) A1 Hq) as A2. assert (Hqp : p <> q) by congruence.
      assert (E2 : <[q := plain (n_text n)]> m !! p = Some n) by (by rewrite lookup_insert_ne by congruence).
      destruct (free_string_spec _ _ p n A2 E2 Hr) as (s3 & E3 & A3 & F3). rewrite E3. cbn [mbind option_bind]. exists (Some q), s3. split; [done|].
      exists (plain (n_text n)), (drop_value p (<[q := plain (n_text n)]> m)). split; [exists n; by rewrite Ea|]. split.
      { unfold drop_value. rewrite E2. unfold settle. rewrite lookup_assign, decide_False by done. by rewrite lookup_insert_eq. }
      split_and!; try done.
      * eapply names_from_trans; [apply names_from_plain|apply names_from_drop].
      * intros B. eapply booted_drop; [exact A2|exact E2|done|]. apply booted_insert; [|done]. intros n0 E0. congruence.
      * by apply F3.
    + rewrite Ha. cbn [Z.eqb]. exists (Some p), s. split; [done|]. exists n, m. split; [exists n; by rewrite Ea|]. split_and!; try done. intros t u x nx H1 H2. by exists x, nx.
  - subst text. pose proof (agrees_tick s m A) as A1. destruct (ext_ok (ev s)); cbn [negb]; [|by exists None, (tick s)]. set (q := fresh_string (tick s)).
    pose proof (fresh_none (tick s)) as Hq. fold q in Hq. pose proof (agrees_none _ _ _ A1 Hq) as Hmq. eexists (Some q), _. split; [done|]. eexists _, _. split; [by split|].
    rewrite lookup_insert_eq. split_and!; try done; [apply names_from_plain|apply booted_insert; intros; congruence|by apply agrees_string].
Qed.

Lemma agrees_new_slot s s' m q n st i h type : agrees s m -> m !! q = Some n -> n_atom n = None -> 1 <= n_refs n -> strings s !! q = Some st -> stands s q n st ->
  table_ok s' -> new_slot s q st i h type s' -> node_ok (becomes i type n) -> agrees s' (<[q := becomes i type n]> m) /\ (forall x nx ax, ~ is_atom m i x nx ax).
Proof.
  intros A E Ea Hr Eq Hst Hok [S1 (next & S2 & _) S3 S4 S5] Hn. pose proof (lookup_lt_Some _ _ _ S2) as Hlt. split.
  - apply (agrees_change s s' m q (Some (becomes i type n)) A); try done.
    + intros j x Hj Hx. unfold slot_ptr. rewrite S3. destruct (decide (j = i)) as [->|Hne]; [|by rewrite list_lookup_insert_ne by lia].
      rewrite list_lookup_insert_eq by done. rewrite S2. split; [intros [= ?]; congruence|done].
    + unfold slot_ptr. rewrite S3, list_lookup_insert_ne by lia. exact (agrees_slot _ _ _ _ _ A E Hst).
    + split; [done|]. destruct (strings s' !! q) as [st'|] eqn:E'; [|done]. exists st'. split; [done|]. cbn in S4. apply (inj Some) in S4. destruct Hst as (H1 & H2 & _).
      destruct st'. unfold core, with_next in S4. cbn in S4. injection S4 as -> -> -> ->. split; [done|]. split; [cbn; rewrite H2; unfold total, becomes; rewrite Ea; cbn; lia|].
      cbn. split_and!; [done| |done]. unfold slot_ptr. by rewrite S3, list_lookup_insert_eq.
  - intros x nx ax (Ex & Eax & Hai). destruct (agrees_struct s m x nx A Ex) as (_ & sx & Esx & Hsx). destruct Hsx as (_ & _ & Ha). rewrite Eax in Ha. destruct Ha as (_ & Hsl & _).
    unfold slot_ptr in Hsl. rewrite Hai, S2 in Hsl. done.
Qed.

Lemma booted_becomes m q n a type : m !! q = Some n -> n_atom n = None -> booted m -> booted (<[q := becomes a type n]> m).
Proof.
  intros E Ea B i Hi. destruct (B i Hi) as (x & nx & ax & H). exists x, nx, ax. destruct H as (Ex & H1 & H2). split; [|done].
  rewrite lookup_insert_ne; [done|]. intros ->. congruence.
Qed.
Lemma booted_given s m p text : agrees s m -> given m p text -> booted m -> booted (drop_given p m).
Proof. intros A. destruct p as [p|]; cbn; [|done]. intros (n & E & Hr & _). by eapply booted_drop. Qed.

(** What [__JS_NewAtom] makes. *)
Definition new_name (m : heap) (p : option ptr) (type a : Z) (m' : heap) : Prop := (a = JS_ATOM_NULL /\ m' = drop_given p m) \/ new_atom_of m p type a m'.
(** The name may become an atom of the type. *)
Definition nameable (m : heap) (type : Z) (text : JSString) : Prop :=
  (type = JS_ATOM_TYPE_STRING -> forall k, ~ small_number (units text) k) /\ (type = JS_ATOM_TYPE_GLOBAL_SYMBOL -> booted m).

Lemma becomes_ok s m q n st i h type s' : agrees s m -> booted m \/ type <> JS_ATOM_TYPE_GLOBAL_SYMBOL -> m !! q = Some n -> 1 <= n_refs n -> n_atom n = None ->
  new_slot s q st i h type s' -> (forall x nx ax, ~ is_atom m i x nx ax) -> (type = JS_ATOM_TYPE_STRING -> forall k, ~ small_number (units (n_text n)) k) ->
  node_ok (becomes i type n).
Proof.
  intros A B E Hr Ea Hns Hfresh Hc. split; [unfold total; cbn; lia|cbn; lia|]. cbn. intros a [= <-]. cbn. split_and!; [lia| |done]. intros Hi. split; [done|].
  destruct B as [B|]; [|done]. destruct (B i) as (x & nx & ax & H); [pose proof (ns_pos _ _ _ _ _ _ _ Hns); lia|]. by destruct (Hfresh x nx ax).
Qed.

Lemma free_not_atom s m i next x nx ax : agrees s m -> atom_array s !! Z.to_nat i = Some (Free next) -> ~ is_atom m i x nx ax.
Proof.
  intros A Hf Hat. destruct (atom_at s m i x nx ax A Hat) as (_ & _ & st & Hsl & _). unfold slot_ptr in Hsl. congruence.
Qed.

Lemma new_atom_spec s m p text h type : agrees s m -> given m p text -> 1 <= type <= 3 -> nameable m type text ->
  (type <> JS_ATOM_TYPE_SYMBOL -> h = name_hash type (units text) /\ forall q n, m !! q = Some n -> ~ has_name type (units text) n) ->
  (type = JS_ATOM_TYPE_SYMBOL -> h = 0 \/ h = JS_ATOM_HASH_PRIVATE) ->
  exists a s' m', new_atom s p h type = Some (a, s') /\ agrees s' m' /\ new_name m p type a m' /\ (booted m -> booted m' /\ (a = JS_ATOM_NULL \/ JS_ATOM_END <= a)).
Proof.
  intros A Hp Hty [Hcanon Hboot] Hname Hsym. unfold new_atom.
  assert (H1 : exists failed s1, (if atom_free_index s =? 0 then grow_atoms s else Some (false, s)) = Some (failed, s1) /\ agrees s1 m /\ (failed = false -> atom_free_index s1 <> 0)).
  { destruct (Z.eqb_spec (atom_free_index s) 0) as [Hf|Hf]; [|by exists false, s]. destruct (grow_atoms_spec s (ag_table _ _ A) Hf) as (failed & s1 & E & Hok & G & Hf1).
    exists failed, s1. split; [done|]. split; [by eapply agrees_grown|done]. }
  destruct H1 as (failed & s1 & -> & A1 & Hf). cbn [mbind option_bind].
  assert (Hfail : forall s2, agrees s2 m -> exists a s' m', (s ← release s2 p; Some (JS_ATOM_NULL, s)) = Some (a, s') /\ agrees s' m' /\ new_name m p type a m' /\ (booted m -> booted m' /\ (a = JS_ATOM_NULL \/ JS_ATOM_END <= a))).
  { intros s2 A2. destruct (release_spec s2 m p text A2 Hp) as (s3 & -> & A3). exists JS_ATOM_NULL, s3, (drop_given p m). split_and!; [done|done|by left|]. intros B. split; [by eapply booted_given|by left]. }
  destruct failed; [by apply Hfail|]. destruct (new_struct_spec s1 m p text A1 Hp (Hf eq_refl)) as (r & s2 & -> & Hr). cbn [mbind option_bind]. destruct r as [q|]; [|by apply Hfail].
  destruct Hr as (n & m1 & Hstr & E & Ea & Hr & Ht & Hfrom & Hb & A2 & Hf2). subst text.
  destruct (agrees_struct s2 m1 q n A2 E) as (Hn & st & Eq & Hst). pose proof Hst as (Hs1 & _ & Hs3). rewrite Ea in Hs3.
  destruct (add_atom_spec s2 q st h type (ag_table _ _ A2) Hf2 Eq Hs3 Hty) as (s3 & E3 & Hok3 & Hns); [|done|].
  { intros Ht. destruct (Hname Ht) as [-> Hno]. rewrite Hs1. split; [done|]. intros j Hj. destruct (named_node s2 m1 j _ _ A2 Hj) as (x & nx & ax & Hx & Hnx).
    destruct (Hfrom _ _ x nx (proj1 Hx) Hnx) as (y & ny & Ey & Hny). by destruct (Hno y ny Ey). }
  destruct (ns_free _ _ _ _ _ _ _ Hns) as (next & Hfree & _). set (i := atom_free_index s2) in *.
  assert (Hno : forall x nx ax, ~ is_atom m1 i x nx ax) by (intros; by eapply free_not_atom).
  assert (Hbn : booted m1 \/ type <> JS_ATOM_TYPE_GLOBAL_SYMBOL) by (destruct (decide (type = JS_ATOM_TYPE_GLOBAL_SYMBOL)) as [Ht|]; [left; by apply Hb, Hboot|by right]).
  destruct (agrees_new_slot s2 s3 m1 q n st i h type A2 E Ea Hr Eq Hst Hok3 Hns) as [A3 _]; [by eapply becomes_ok|].
  exists i, s3, (<[q := becomes i type n]> m1). split; [done|]. split; [done|]. split.
  2: { intros B. split; [by apply booted_becomes, Hb|right]. destruct (decide (i < JS_ATOM_END)) as [Hi|]; [|lia]. destruct (Hb B i) as (x & nx & ax & H); [|by destruct (Hno x nx ax)].
    split; [apply (ns_pos _ _ _ _ _ _ _ Hns)|done]. }
  right. exists q, n, m1. split_and!; try done; [apply (ns_pos _ _ _ _ _ _ _ Hns)|].
  eapply (index_bound s3 i q); [done| |apply (ns_pos _ _ _ _ _ _ _ Hns)]. unfold slot_ptr. rewrite (ns_array _ _ _ _ _ _ _ Hns). apply list_lookup_insert_eq. by eapply lookup_lt_Some.
Qed.

(** The string is the atom. *)
Lemma own_atom_spec s m p n st : agrees s m -> m !! p = Some n -> 1 <= n_refs n -> strings s !! p = Some st -> stands s p n st -> atom_type st <> 0 ->
  exists i s', js_get_atom_index s p = Some i /\ s' = (if __JS_AtomIsConst i then write p (with_ref_count (as_ref_count st - 1) st) s else s) /\
    agrees s' (drop_value p (dup_atom i p n m)) /\ (exists a, is_atom m i p n a /\ a_type a = atom_type st).
Proof.
  intros A E Hr Ep Hst Ht. pose proof (agrees_slot _ _ _ _ _ A E Hst) as H0. destruct (get_index_spec s (ag_table _ _ A) p st Ep Ht H0) as (i & Ei & Hi & Hsl).
  assert (Es : atom_struct s i = Some st) by (apply atom_struct_some; by exists p). destruct (struct_node s m i st A Hi Es) as (q & n' & a & Hq & _ & _ & Hat & Hta).
  assert (q = p) as -> by (unfold slot_ptr in *; congruence). pose proof Hat as (E' & Ea & Hai). rewrite E in E'. apply (inj Some) in E'. subst n'.
  destruct (agrees_struct s m p n A E) as ([O1 O2 O3] & _). destruct (O3 a Ea) as (O4 & O5 & O6). assert (Hmax : i <= JS_ATOM_MAX) by (by eapply index_bound; [apply A| |]).
  eexists i, _. split; [done|]. split; [done|]. split; [|by exists a]. rewrite const_small by lia. unfold dup_atom. destruct (Z.ltb_spec i JS_ATOM_END) as [Hc|Hc].
  - destruct (O5 ltac:(lia)) as [O7 O8]. unfold drop_value. rewrite E. unfold settle. replace (total (values (-1) n) <=? 0) with false by (rewrite total_values; unfold total in *; rewrite Ea in *; lia).
    replace (as_ref_count st - 1) with (total (values (-1) n)) by (rewrite total_values; destruct Hst as (_ & -> & _); lia). cbn [assign].
    eapply agrees_write; try done. split; [rewrite total_values; unfold total in *; rewrite Ea in *; lia|cbn; lia|apply O3].
  - unfold drop_value. rewrite lookup_insert_eq. set (n' := values (-1) (atoms 1 n)). assert (Etot : total n' = total n) by (unfold n'; rewrite total_values, (total_atoms _ _ a Ea); lia).
    assert (Ea' : n_atom n' = Some (mkRef (a_index a) (a_type a) (a_refs a + 1))) by (cbn; by rewrite Ea).
    unfold settle. replace (total n' <=? 0) with false by lia. cbn [assign]. rewrite insert_insert_eq. apply (agrees_change s s m p (Some n') A); try done; [apply A|].
    split; [split; [lia|cbn; lia|rewrite Ea'; intros a' [= <-]; cbn; split_and!; [lia|lia|done]]|].
    exists st. split; [done|]. destruct Hst as (S1 & S2 & S3). rewrite Ea in S3. split; [done|]. split; [lia|]. by rewrite Ea'.
Qed.

Lemma new_name_spec s m p n type : agrees s m -> m !! p = Some n -> 1 <= n_refs n -> type = JS_ATOM_TYPE_STRING \/ type = JS_ATOM_TYPE_GLOBAL_SYMBOL -> nameable m type (n_text n) ->
  exists a s' m', __JS_NewAtom s (Some p) type = Some (a, s') /\ agrees s' m' /\ interned m p type a m' /\ (booted m -> booted m').
Proof.
  intros A E Hr Hty Hn. destruct (agrees_struct s m p n A E) as (Hok & st & Ep & Hst). unfold __JS_NewAtom.
  assert (Ht : 1 <= type <= 3 /\ type <> JS_ATOM_TYPE_SYMBOL /\ type < JS_ATOM_TYPE_SYMBOL) by (unfold JS_ATOM_TYPE_STRING, JS_ATOM_TYPE_GLOBAL_SYMBOL, JS_ATOM_TYPE_SYMBOL in *; lia).
  replace (type <? JS_ATOM_TYPE_SYMBOL) with true by lia. cbn [mbind option_bind]. rewrite Ep. cbn [mbind option_bind].
  destruct (Z.eqb_spec (atom_type st) type) as [Hown|Hother].
  - destruct (own_atom_spec s m p n st A E Hr Ep Hst ltac:(lia)) as (i & s' & -> & Es' & A' & a & Hat & Hta). cbn [mbind option_bind]. rewrite <- Es'.
    eexists i, s', _. split; [done|]. split; [done|]. split.
    + exists n. split; [done|]. left. exists p, n, a. split; [done|]. split; [|done]. destruct Hat as (_ & Ea & _). exists a. split_and!; [done|congruence|done].
    + intros B. destruct (dup_atom_spec s m i p n a A Hat) as (s2 & _ & A2).
      assert (E2 : exists n2, dup_atom i p n m !! p = Some n2 /\ 1 <= n_refs n2) by (unfold dup_atom; destruct (i <? JS_ATOM_END); [by exists n|exists (atoms 1 n); by rewrite lookup_insert_eq]).
      destruct E2 as (n2 & E2 & Hr2). eapply booted_drop; [exact A2|done|done|]. unfold dup_atom. destruct (i <? JS_ATOM_END); [done|]. apply booted_insert; [|done].
      intros n0 E0. rewrite E in E0. injection E0 as <-. apply same_atoms.
  - pose proof Hst as (Hs1 & _). change (hash_string (units (str st)) type .& JS_ATOM_HASH_MASK) with (name_hash type (units (str st))). rewrite Hs1.
    destruct (find_atom_spec s (ag_table _ _ A) type (units (n_text n))) as (a & r & -> & Er & Hr'); [apply Ht|]. cbn [mbind option_bind]. rewrite Er. cbn [mbind option_bind]. destruct r as [i|].
    + destruct (named_node s m i _ _ A Hr') as (q & nq & aq & Hat & Hnq). destruct (dup_atom_spec s m i q nq aq A Hat) as (s2 & -> & A2). cbn [mbind option_bind].
      assert (E2 : exists n2, dup_atom i q nq m !! p = Some n2 /\ n_refs n2 = n_refs n).
      { unfold dup_atom. destruct (i <? JS_ATOM_END); [by exists n|]. destruct (decide (p = q)) as [->|Hne]; [|exists n; by rewrite lookup_insert_ne by congruence].
        exists (atoms 1 nq). rewrite lookup_insert_eq. split; [done|]. destruct Hat as (Eq & _). rewrite E in Eq. by injection Eq as ->. }
      destruct E2 as (n2 & E2 & Hr2). destruct (free_string_spec s2 _ p n2 A2 E2 ltac:(lia)) as (s3 & -> & A3 & _). cbn [mbind option_bind].
      eexists i, s3, _. split; [done|]. split; [done|]. split.
      * exists n. split; [done|]. left. by exists q, nq, aq.
      * intros B. eapply booted_drop; [exact A2|exact E2|lia|]. unfold dup_atom. destruct (i <? JS_ATOM_END); [done|]. apply booted_insert; [|done].
        intros n0 E0. destruct Hat as (Eq & _). rewrite Eq in E0. injection E0 as <-. apply same_atoms.
    + assert (Hno : forall q nq, m !! q = Some nq -> ~ has_name type (units (n_text n)) nq).
      { intros q nq Eq (aq & Eaq & Htq & Huq). destruct (agrees_struct s m q nq A Eq) as (_ & sq & Esq & Hsq). pose proof Hsq as (S1 & _ & S3). rewrite Eaq in S3. destruct S3 as (Hiq & Hslq & Htq').
        apply (Hr' (a_index aq)). split; [done|]. exists sq. split; [apply atom_struct_some; by exists q|]. split; [congruence|by rewrite S1]. }
      destruct (new_atom_spec s m (Some p) (n_text n) (name_hash type (units (n_text n))) type A) as (i & s' & m' & E' & A' & Hnew & B'); [by exists n|apply Ht|done|done|intros H; by destruct Ht as (_ & ? & _)|].
      exists i, s', m'. split; [done|]. split; [done|]. split; [|by intros []%B']. exists n. split; [done|]. right. by split.
Qed.

Lemma new_symbol_spec s m p text type : agrees s m -> given m p text -> type = JS_ATOM_TYPE_SYMBOL \/ type = JS_ATOM_TYPE_PRIVATE ->
  exists a s' m', __JS_NewAtom s p type = Some (a, s') /\ agrees s' m' /\ new_name m p JS_ATOM_TYPE_SYMBOL a m' /\ (booted m -> booted m' /\ (a = JS_ATOM_NULL \/ JS_ATOM_END <= a)).
Proof.
  intros A Hp Hty. unfold __JS_NewAtom. replace (type <? JS_ATOM_TYPE_SYMBOL) with false by (unfold JS_ATOM_TYPE_SYMBOL, JS_ATOM_TYPE_PRIVATE in *; lia).
  assert (Hn : nameable m JS_ATOM_TYPE_SYMBOL text) by (by split). assert (H13 : 1 <= JS_ATOM_TYPE_SYMBOL <= 3) by (unfold JS_ATOM_TYPE_SYMBOL; lia).
  destruct (Z.eqb_spec type JS_ATOM_TYPE_SYMBOL) as [->|_]; eapply (new_atom_spec s m p text); try done; intros _; [by left|by right].
Qed.
End new.
