(* ===== verification/AtomBoot.v ===== *)
(** * The predefined atoms

    [JS_InitAtoms] gives the names of [quickjs-atom.h] their indices. *)
From S2P Require Export AtomNew.

Definition node_type (j : Z) : Z := if init_type j =? JS_ATOM_TYPE_PRIVATE then JS_ATOM_TYPE_SYMBOL else init_type j.
Definition init_name (j : Z) : option string := js_atom_init !! Z.to_nat (j - 1).

(** The node of the [j]-th name. *)
Definition predefined (j : Z) (t : string) : Node := mkNode 0 (mkString false (chars t)) (Some (mkRef j (node_type j) 1)).

(** The nodes are the names before the [i]-th one. *)
Record boot_view (m : heap) (i : Z) : Prop := {
  b_node q n : m !! q = Some n -> exists j t, 0 < j < i /\ init_name j = Some t /\ n = predefined j t;
  b_name j t : 0 < j < i -> init_name j = Some t -> exists q, m !! q = Some (predefined j t)
}.

(** The entries from [i] on are free. *)
Definition free_from (s : JSRuntime) (i : Z) : Prop :=
  atom_size s = 711 /\ atom_free_index s = i /\ forall j, i <= j < 711 -> atom_array s !! Z.to_nat j = Some (Free (if j =? 710 then 0 else j + 1)).
Definition boot_state (s : JSRuntime) (i : Z) : Prop := (i = 1 /\ atom_size s = 0 /\ atom_free_index s = 0) \/ free_from s i.

(** The names of the strings differ and are no numbers. *)
Lemma init_names_differ : NoDup (take 228 js_atom_init).
Proof. apply (bool_decide_unpack _). vm_compute. exact I. Qed.
Lemma init_names_no_number : Forall (fun t => is_num_string (mkString false (chars t)) = None) js_atom_init.
Proof. apply (bool_decide_unpack _). vm_compute. exact I. Qed.

Lemma init_length : length js_atom_init = 242%nat.
Proof. done. Qed.

Lemma ascii_inj a b : Z.of_N (Ascii.N_of_ascii a) = Z.of_N (Ascii.N_of_ascii b) -> a = b.
Proof. intros E. apply N2Z.inj in E. rewrite <- (Ascii.ascii_N_embedding a), <- (Ascii.ascii_N_embedding b). by f_equal. Qed.
Lemma chars_inj s t : chars s = chars t -> s = t.
Proof.
  unfold chars. revert t. induction s as [|a s IH]; intros [|b t]; cbn; try done. intros [= E1 E2]. f_equal; [by apply ascii_inj|by apply IH].
Qed.

Lemma init_distinct i j t : 0 < i < JS_ATOM_Private_brand -> 0 < j < JS_ATOM_Private_brand -> init_name i = Some t -> init_name j = Some t -> i = j.
Proof.
  unfold init_name, JS_ATOM_Private_brand. intros Hi Hj Ei Ej. assert (H : forall k, 0 < k < 229 -> init_name k = take 228 js_atom_init !! Z.to_nat (k - 1)).
  { intros k Hk. unfold init_name. by rewrite lookup_take_lt by lia. }
  pose proof (H i Hi) as Hi'. pose proof (H j Hj) as Hj'. unfold init_name in Hi', Hj'. rewrite Hi' in Ei. rewrite Hj' in Ej.
  pose proof (NoDup_lookup _ _ _ _ init_names_differ Ei Ej). lia.
Qed.

Lemma node_type_string j : 0 < j < JS_ATOM_END -> node_type j = (if j <? JS_ATOM_Private_brand then JS_ATOM_TYPE_STRING else JS_ATOM_TYPE_SYMBOL).
Proof.
  intros Hj. unfold node_type, init_type, JS_ATOM_Private_brand, JS_ATOM_Symbol_toPrimitive.
  destruct (Z.eqb_spec j 229) as [->|]; [done|]. destruct (Z.leb_spec 230 j), (Z.ltb_spec j 229); try lia; done.
Qed.

Section boot.
Context {W : World} {Al : Malloc}.

Lemma grow_free_from s s' : atom_size s = 0 -> grow_atoms s = Some (false, s') -> free_from s' 1.
Proof.
  intros Hz. unfold grow_atoms. rewrite Hz. change (Z.max 711 (u32 (0 * 3) / 2)) with 711. replace (JS_ATOM_MAX <? 711) with false by done. unfold js_malloc_rt.
  destruct (ext_ok (ev s)); cbn [negb]; [|done]. change (atom_size (tick s)) with (atom_size s). rewrite Hz. cbn [Z.eqb]. destruct (ext_ok (ev (tick s))); cbn [negb]; [|done].
  intros E. injection E as <-. split; [done|]. split; [done|]. intros j Hj. cbn [atom_array set_count set_array].
  replace (Z.to_nat j) with (S (Z.to_nat (j - 1))) by lia. cbn [lookup list_lookup]. change (free_slots 1 711 !! Z.to_nat (j - 1) = Some (Free (if j =? 710 then 0 else j + 1))).
  rewrite nx_free_slots by lia. done.
Qed.

(** The next atom of a new string has the index [i]. *)
Lemma boot_new s m p text i h type : agrees s m -> m !! p = Some (plain text) -> boot_state s i -> i < 710 -> 1 <= type <= 3 -> type <> JS_ATOM_TYPE_GLOBAL_SYMBOL ->
  (type = JS_ATOM_TYPE_STRING -> forall k, ~ small_number (units text) k) ->
  (type <> JS_ATOM_TYPE_SYMBOL -> h = name_hash type (units text) /\ forall q n, m !! q = Some n -> ~ has_name type (units text) n) ->
  (type = JS_ATOM_TYPE_SYMBOL -> h = 0 \/ h = JS_ATOM_HASH_PRIVATE) ->
  exists a s', new_atom s (Some p) h type = Some (a, s') /\
    (a = JS_ATOM_NULL \/ (a = i /\ 0 < i /\ boot_state s' (i + 1) /\ agrees s' (<[p := becomes i type (plain text)]> m))).
Proof.
  intros A E Hb Hi Hty Hglob Hcanon Hname Hsym. unfold new_atom.
  assert (H1 : exists failed s1, (if atom_free_index s =? 0 then grow_atoms s else Some (false, s)) = Some (failed, s1) /\ agrees s1 m /\ (failed = false -> free_from s1 i /\ 0 < i)).
  { destruct Hb as [(-> & Hz & Hf)|Hb].
    - rewrite Hf. cbn [Z.eqb]. destruct (grow_atoms_spec s (ag_table _ _ A) Hf) as (failed & s1 & E1 & Hok & G & _). exists failed, s1. split; [done|]. split; [by eapply agrees_grown|].
      intros ->. split; [by eapply grow_free_from|lia].
    - destruct Hb as (H1 & H2 & H3). assert (Hi0 : 0 < i).
      { destruct (decide (i = 0)) as [->|]; [|destruct (decide (atom_free_index s = 0)) as [|Hf]; [lia|]; pose proof (free_index s (ag_table _ _ A) Hf) as [? _]; lia].
        destruct (n_null _ (t_names _ (ag_table _ _ A)) ltac:(lia)) as [x Hx]. unfold slot_ptr in Hx. by rewrite H3 in Hx by lia. }
      rewrite H2. replace (i =? 0) with false by lia. exists false, s. by split_and!. }
  destruct H1 as (failed & s1 & -> & A1 & Hf). cbn [mbind option_bind].
  assert (Hg : given m (Some p) text) by (exists (plain text); by split_and!).
  destruct failed; [destruct (release_spec s1 m (Some p) text A1 Hg) as (s2 & -> & _); exists JS_ATOM_NULL, s2; split; [done|by left]|].
  destruct (Hf eq_refl) as ((F1 & F2 & F3) & Hi0). destruct (agrees_struct s1 m p _ A1 E) as (Hn & st & Ep & Hst). pose proof Hst as (Hs1 & _ & Hs3).
  unfold new_struct. rewrite Ep. cbn [mbind option_bind]. cbn in Hs3. rewrite Hs3. cbn [Z.eqb mbind option_bind].
  destruct (add_atom_spec s1 p st h type (ag_table _ _ A1) ltac:(lia) Ep Hs3 Hty) as (s3 & -> & Hok3 & Hns); [|done|].
  { intros Ht. destruct (Hname Ht) as [-> Hno]. rewrite Hs1. split; [done|]. intros j Hj. destruct (named_node s1 m j _ _ A1 Hj) as (x & nx & ax & Hx & Hnx). by destruct (Hno x nx (proj1 Hx)). }
  rewrite F2 in Hns |- *. destruct (ns_free _ _ _ _ _ _ _ Hns) as (next & Hfree & Hnext).
  destruct (agrees_new_slot s1 s3 m p (plain text) st i h type A1 E eq_refl ltac:(done) Ep Hst Hok3 Hns) as [A3 _].
  { eapply (becomes_ok s1 m p (plain text) st i h type s3); try done; [by right|]. intros x nx ax. by eapply free_not_atom. }
  eexists i, s3. split; [done|]. right. split_and!; [done|done| |done]. right. unfold free_from, atom_size. rewrite (ns_array _ _ _ _ _ _ _ Hns), length_insert. split; [done|]. split.
  - rewrite F3 in Hfree by lia. injection Hfree as <-. rewrite Hnext. replace (i =? 710) with false by lia. done.
  - intros j Hj. rewrite list_lookup_insert_ne by lia. apply F3. lia.
Qed.

(** The names of the table. *)
Lemma boot_names m i t ty : boot_view m i -> i <= JS_ATOM_END -> 0 < i -> init_name i = Some t -> ty = JS_ATOM_TYPE_STRING -> i < JS_ATOM_Private_brand ->
  forall q n, m !! q = Some n -> ~ has_name ty (chars t) n.
Proof.
  intros B Hi Hi0 Et -> Hib q n E (a & Ea & Ht & Hu). destruct (b_node _ _ B q n E) as (j & u & Hj & Eu & ->). cbn in Ea. apply (inj Some) in Ea. subst a. cbn in Ht, Hu.
  apply chars_inj in Hu. subst u. rewrite node_type_string in Ht by lia. destruct (Z.ltb_spec j JS_ATOM_Private_brand); [|done].
  pose proof (init_distinct i j t ltac:(lia) ltac:(lia) Et Eu). lia.
Qed.

Lemma boot_view_step m p i t : boot_view m i -> m !! p = None -> 0 < i -> init_name i = Some t -> boot_view (<[p := predefined i t]> m) (i + 1).
Proof.
  intros [B1 B2] Ep Hi Et. split.
  - intros q n [[<- <-]|[_ E]]%lookup_insert_Some; [exists i, t; by split_and!; try lia|]. destruct (B1 q n E) as (j & u & Hj & Eu & Hn). exists j, u. split_and!; try done; lia.
  - intros j u Hj Eu. destruct (decide (j = i)) as [->|Hne].
    + exists p. rewrite Et in Eu. injection Eu as <-. by rewrite lookup_insert_eq.
    + destruct (B2 j u ltac:(lia) Eu) as [q Eq]. exists q. rewrite lookup_insert_ne; [done|]. intros ->. congruence.
Qed.

Lemma init_no_number i t : init_name i = Some t -> forall k, ~ small_number (chars t) k.
Proof.
  intros Et k [Hk Hs]. pose proof init_names_no_number as H. rewrite Forall_lookup in H. specialize (H _ _ Et). cbn beta in H.
  rewrite (proj2 (is_num_string_spec (mkString false (chars t)) k)) in H; [done|]. split; [unfold JS_ATOM_MAX_INT, JS_ATOM_TAG_INT in Hk; lia|done].
Qed.

Lemma init_atom_spec s m i t : agrees s m -> boot_state s i -> boot_view m i -> 0 < i < JS_ATOM_END -> init_name i = Some t ->
  exists a s', __JS_NewAtomInit s (chars t) (init_type i) = Some (a, s') /\
    (a = JS_ATOM_NULL \/ (a = i /\ exists m', agrees s' m' /\ boot_state s' (i + 1) /\ boot_view m' (i + 1))).
Proof.
  intros A Hb B Hi Et. unfold __JS_NewAtomInit. set (text := mkString false (chars t)). destruct (alloc_string_spec s m text A) as (r & s1 & E1 & Hr). rewrite E1.
  destruct r as [p|]; [|exists JS_ATOM_NULL, s1; split; [done|by left]]. destruct Hr as [Ep A1].
  assert (Hb1 : boot_state s1 i). { unfold js_alloc_string, js_malloc_rt in E1. destruct (ext_ok (ev s)); cbn [negb] in E1; [|done]. injection E1 as _ <-. exact Hb. }
  set (m1 := <[p := plain text]> m) in *. assert (E : m1 !! p = Some (plain text)) by (unfold m1; by rewrite lookup_insert_eq).
  assert (Hend : JS_ATOM_END = 243) by done.
  assert (Hfin : forall h type, type = node_type i -> (type <> JS_ATOM_TYPE_SYMBOL -> h = name_hash type (units text) /\ forall q n, m1 !! q = Some n -> ~ has_name type (units text) n) ->
    (type = JS_ATOM_TYPE_SYMBOL -> h = 0 \/ h = JS_ATOM_HASH_PRIVATE) ->
    exists a s', new_atom s1 (Some p) h type = Some (a, s') /\ (a = JS_ATOM_NULL \/ (a = i /\ exists m', agrees s' m' /\ boot_state s' (i + 1) /\ boot_view m' (i + 1)))).
  { intros h type Ht Hname Hsym. pose proof (node_type_string i Hi) as Hn. rewrite <- Ht in Hn.
    destruct (boot_new s1 m1 p text i h type A1 E Hb1) as (a & s' & E' & Ha); try done; [lia|rewrite Hn; destruct (i <? _); done|rewrite Hn; by destruct (i <? _)|intros _; by eapply init_no_number|].
    exists a, s'. split; [done|]. destruct Ha as [->|(-> & _ & Hb' & A')]; [by left|right]. split; [done|]. eexists. split; [exact A'|]. split; [done|].
    unfold m1. rewrite insert_insert_eq. replace (becomes i type (plain text)) with (predefined i t) by (unfold predefined; by rewrite <- Ht). apply boot_view_step; [done|done|lia|done]. }
  destruct (agrees_struct s1 m1 p _ A1 E) as (_ & st & Est & Hst). pose proof Hst as (Hs1 & _ & Hs3). cbn in Hs3. unfold __JS_NewAtom.
  pose proof (node_type_string i Hi) as Hnt. unfold node_type in Hnt, Hfin. unfold init_type, JS_ATOM_Private_brand, JS_ATOM_Symbol_toPrimitive in *. destruct (Z.eqb_spec i 229) as [->|H229].
  - apply Hfin; [done|done|intros _; by right].
  - destruct (Z.leb_spec 230 i) as [Hge|Hlt]; [apply Hfin; [done|done|intros _; by left]|].
    change (JS_ATOM_TYPE_STRING <? JS_ATOM_TYPE_SYMBOL) with true. cbn [mbind option_bind]. rewrite Est. cbn [mbind option_bind]. rewrite Hs3. change (0 =? JS_ATOM_TYPE_STRING) with false.
    cbn iota. change (hash_string (units (str st)) JS_ATOM_TYPE_STRING .& JS_ATOM_HASH_MASK) with (name_hash JS_ATOM_TYPE_STRING (units (str st))). rewrite Hs1. cbn [n_text plain].
    assert (Hno : forall q n, m1 !! q = Some n -> ~ has_name JS_ATOM_TYPE_STRING (chars t) n).
    { intros q n [[<- <-]|[_ Eq]]%lookup_insert_Some; [by intros (a & ? & _)|]. eapply (boot_names m i t); try done; unfold JS_ATOM_Private_brand; lia. }
    destruct (find_atom_spec s1 (ag_table _ _ A1) JS_ATOM_TYPE_STRING (units text)) as (a & r & Ea & Er & Hr); [done|]. rewrite Ea. cbn [mbind option_bind]. rewrite Er. cbn [mbind option_bind].
    destruct r as [j|]; [destruct (named_node s1 m1 j _ _ A1 Hr) as (x & nx & ax & Hx & Hnx); by destruct (Hno x nx (proj1 Hx))|].
    apply Hfin; [done|intros _; by split|done].
Qed.

Lemma init_loop_spec l : forall s m i, agrees s m -> boot_state s i -> boot_view m i -> 0 < i -> l = drop (Z.to_nat (i - 1)) js_atom_init -> i <= JS_ATOM_END ->
  exists b s', init_loop s i l = Some (b, s') /\ (b = false -> exists m', agrees s' m' /\ boot_view m' JS_ATOM_END).
Proof.
  induction l as [|t l IH]; intros s m i A Hb B Hi Hl Hie.
  - exists false, s. split; [done|]. intros _. exists m. split; [done|]. assert (i = JS_ATOM_END) as <-; [|done]. apply (f_equal length) in Hl. rewrite length_drop, init_length in Hl. cbn in Hl.
    change JS_ATOM_END with 243 in *. lia.
  - assert (Et : init_name i = Some t).
    { pose proof (lookup_drop js_atom_init (Z.to_nat (i - 1)) 0) as H. rewrite <- Hl, Nat.add_0_r in H. by symmetry. }
    assert (Hlt : i < JS_ATOM_END). { apply lookup_lt_Some in Et. rewrite init_length in Et. change JS_ATOM_END with 243. lia. }
    destruct (init_atom_spec s m i t A Hb B ltac:(lia) Et) as (a & s1 & E & Ha). cbn [init_loop]. rewrite E. cbn [mbind option_bind].
    destruct (Z.eqb_spec a JS_ATOM_NULL) as [Hn|Hn]; [by exists true, s1|]. destruct Ha as [|(-> & m1 & A1 & Hb1 & B1)]; [done|].
    apply (IH s1 m1 (i + 1)); try done; [lia| |lia]. replace (Z.to_nat (i + 1 - 1)) with (S (Z.to_nat (i - 1))) by lia.
    rewrite (drop_S js_atom_init t) in Hl by done. by injection Hl.
Qed.

Lemma empty_agrees s : strings s = ∅ -> atom_array s = [] -> atom_free_index s = 0 -> atom_count s = 0 -> atom_hash s = replicate 512 0 -> agrees s ∅.
Proof.
  intros E1 E2 E3 E4 E5. assert (Hno : forall i p, ~ slot_ptr s i p) by (intros i p; unfold slot_ptr; by rewrite E2, lookup_nil).
  assert (Hnos : forall i st, atom_struct s i <> Some st) by (intros i st (p & H & _)%atom_struct_some; by apply Hno in H). split.
  - split.
    + exists 9. split; [done|]. by rewrite E5, length_replicate.
    + rewrite E5. intros b h [-> _]%lookup_replicate. exists []. split_and!; [done|constructor|]. intros i. split; [by intros ?%not_elem_of_nil|]. intros (k & (_ & st & H & _) & _). by apply Hnos in H.
    + rewrite E2, E3. exists []. split_and!; [done|constructor|]. intros i. split; [by intros ?%not_elem_of_nil|]. intros [_ [x Hx]]. unfold nx_free in Hx. by rewrite lookup_nil in Hx.
    + split.
      * intros i p H. by apply Hno in H.
      * intros i j p H. by apply Hno in H.
      * rewrite E1. intros p st H. by rewrite lookup_empty in H.
      * intros i j si sj H. by apply Hnos in H.
      * unfold atom_size. by rewrite E2.
    + by rewrite E4, E2.
    + unfold atom_size. by rewrite E2.
  - intros p n H. by rewrite lookup_empty in H.
  - rewrite E1. intros p st H. by rewrite lookup_empty in H.
  - intros p H. by apply Hno in H.
Qed.

Lemma init_atoms_spec : exists b s, JS_InitAtoms empty_runtime = Some (b, s) /\ (b = false -> exists m, agrees s m /\ boot_view m JS_ATOM_END).
Proof.
  unfold JS_InitAtoms, JS_ResizeAtomHash. change (512 .& (512 - 1)) with 0. rewrite option_guard_True by done. cbn [mbind option_bind]. unfold js_malloc_rt.
  destruct (ext_ok (ev empty_runtime)); cbn [negb]; [|by eexists true, _]. cbn [atom_hash tick empty_runtime foldM mbind option_bind].
  set (s1 := set_hash_size _ _ _). assert (A : agrees s1 ∅) by (by apply empty_agrees).
  destruct (init_loop_spec js_atom_init s1 ∅ 1 A) as (b & s' & E & H); [by left|split; [by intros q n E; rewrite lookup_empty in E|intros; lia]|lia|done|done|]. by exists b, s'.
Qed.

Lemma boot_booted m : boot_view m JS_ATOM_END -> booted m.
Proof.
  intros [_ B] i Hi. destruct (lookup_lt_is_Some_2 js_atom_init (Z.to_nat (i - 1))) as [t Et]; [rewrite init_length; change JS_ATOM_END with 243 in Hi; lia|].
  destruct (B i t Hi Et) as [q E]. by exists q, (predefined i t), (mkRef i (node_type i) 1).
Qed.
End boot.
