(* ===== verification/AtomClient.v ===== *)
(** * Clients of the atoms

    Whatever strings and atoms a client makes, duplicates and frees, the operations of
    [Atoms] answer as the specification of [AtomSpec] says, and no string or atom is freed
    too early or kept. *)
From S2P Require Export AtomBoot.

(** The calls of a client. *)
Inductive request : Type :=
| NewString (text : JSString)
| DupValue (p : ptr)
| FreeValue (symbol : bool) (p : ptr)
| NewAtomStr (p : ptr)
| NewAtomUInt32 (n : Z)
| NewSymbol (p : option ptr) (type : Z)
| DupAtom (a : Z)
| FreeAtom (a : Z)
| AtomToValue (a : Z) (force_string : bool)
| IsArrayIndex (a : Z).

(** [Failed]: the memory is exhausted. *)
Inductive reply : Type :=
| Done
| Value (p : ptr)
| Atom (a : Z)
| Index (n : option Z)
| Failed.

(** ** The specification *)

Definition tagged (a : Z) : Prop := JS_ATOM_TAG_INT <= a < 2 ^ 32.
Definition tag (n : Z) : Z := n + JS_ATOM_TAG_INT.

Definition held (m : heap) (p : ptr) : Prop := exists n, m !! p = Some n /\ 1 <= n_refs n.
Definition held_atom (m : heap) (a : Z) : Prop := exists q n x, is_atom m a q n x /\ 1 <= a_refs x.
(** Atoms without references of their own. *)
Definition no_refs (a : Z) : Prop := a = JS_ATOM_NULL \/ tagged a.

(** What the callers ensure: they hold the values and the atoms, and the values of a tag
    are of its kind. *)
Definition allowed (m : heap) (c : request) : Prop :=
  match c with
  | NewString _ => True
  | DupValue p | NewAtomStr p => held m p
  | FreeValue symbol p => held m p /\ (symbol = true -> forall n, m !! p = Some n -> n_atom n <> None)
  | NewAtomUInt32 n => word 32 n
  | NewSymbol p type => (type = JS_ATOM_TYPE_GLOBAL_SYMBOL /\ p <> None \/ type = JS_ATOM_TYPE_SYMBOL \/ type = JS_ATOM_TYPE_PRIVATE) /\ forall p', p = Some p' -> held m p'
  | DupAtom a | FreeAtom a => no_refs a \/ held_atom m a
  | AtomToValue a _ | IsArrayIndex a => tagged a \/ held_atom m a
  end.

(** The atom of the symbol gives its reference to the value. *)
Definition symbol_value (m : heap) (a : Z) (r : reply) (m' : heap) : Prop :=
  (a = JS_ATOM_NULL /\ r = Failed /\ m' = m) \/
  (exists q n x, is_atom m a q n x /\ r = Value q /\ m' = <[q := as_value n]> m).

(** A description that does not exist. *)
Definition no_description (n : Node) : Prop := units (n_text n) = [] /\ is_wide_char (n_text n) = true.

(** The string of an atom. *)
Definition atom_value (m : heap) (a : Z) (force_string : bool) (q : ptr) (nq : Node) : Prop :=
  exists p n x, is_atom m a p n x /\
    ((force_string = true /\ a_type x <> JS_ATOM_TYPE_STRING /\ no_description n /\ exists y, is_atom m JS_ATOM_empty_string q nq y) \/
     (~ (force_string = true /\ a_type x <> JS_ATOM_TYPE_STRING /\ no_description n) /\ q = p /\ nq = n)).

Definition atom_index (m : heap) (a : Z) (r : option Z) : Prop :=
  (tagged a /\ r = Some (a - JS_ATOM_TAG_INT)) \/
  exists q n x, is_atom m a q n x /\
    forall k, r = Some k <-> a_type x = JS_ATOM_TYPE_STRING /\ 0 <= k < 2 ^ 32 - 1 /\ units (n_text n) = show 10 k.

(** The reply and the heap after a call. *)
Definition answers (m : heap) (c : request) (r : reply) (m' : heap) : Prop :=
  match c with
  | NewString text => (r = Failed /\ m' = m) \/ exists p, r = Value p /\ m !! p = None /\ m' = <[p := plain text]> m
  | DupValue p => r = Done /\ exists n, m !! p = Some n /\ m' = <[p := values 1 n]> m
  | FreeValue _ p => r = Done /\ m' = drop_value p m
  | NewAtomStr p => exists n, m !! p = Some n /\
      ((exists k, small_number (units (n_text n)) k /\ r = Atom (tag k) /\ m' = drop_value p m) \/
       ((forall k, ~ small_number (units (n_text n)) k) /\ exists a, r = Atom a /\ interned m p JS_ATOM_TYPE_STRING a m'))
  | NewAtomUInt32 n =>
      (n <= JS_ATOM_MAX_INT /\ r = Atom (tag n) /\ m' = m) \/
      (JS_ATOM_MAX_INT < n /\ ((r = Atom JS_ATOM_NULL /\ m' = m) \/
        exists p a, m !! p = None /\ r = Atom a /\ interned (<[p := plain (mkString false (show 10 n))]> m) p JS_ATOM_TYPE_STRING a m'))
  | NewSymbol p type => exists a m1, symbol_value m1 a r m' /\
      ((exists p', type = JS_ATOM_TYPE_GLOBAL_SYMBOL /\ p = Some p' /\ interned m p' type a m1) \/
       (type <> JS_ATOM_TYPE_GLOBAL_SYMBOL /\ new_name m p JS_ATOM_TYPE_SYMBOL a m1))
  | DupAtom a => r = Done /\ ((no_refs a /\ m' = m) \/ exists q n x, is_atom m a q n x /\ m' = dup_atom a q n m)
  | FreeAtom a => r = Done /\ ((no_refs a /\ m' = m) \/ exists q n x, is_atom m a q n x /\ m' = drop_atom a q n m)
  | AtomToValue a force_string =>
      (tagged a /\ ((r = Failed /\ m' = m) \/ exists p, r = Value p /\ m !! p = None /\ m' = <[p := plain (mkString false (show 10 (a - JS_ATOM_TAG_INT)))]> m)) \/
      (exists q n, atom_value m a force_string q n /\ r = Value q /\ m' = <[q := values 1 n]> m)
  | IsArrayIndex a => exists k, r = Index k /\ atom_index m a k /\ m' = m
  end.

(** ** The program *)

Section run.
Context {W : World} {Al : Malloc}.

Definition perform (s : JSRuntime) (c : request) : option (reply * JSRuntime) :=
  match c with
  | NewString text => let '(p, s) := js_alloc_string s text in Some (match p with Some p => Value p | None => Failed end, s)
  | DupValue p => s ← dup_string s p; Some (Done, s)
  | FreeValue symbol p => s ← JS_FreeValue s symbol p; Some (Done, s)
  | NewAtomStr p => '(a, s) ← JS_NewAtomStr s p; Some (Atom a, s)
  | NewAtomUInt32 n => '(a, s) ← JS_NewAtomUInt32 s n; Some (Atom a, s)
  | NewSymbol p type => '(q, s) ← JS_NewSymbolInternal s p type; Some (match q with Some q => Value q | None => Failed end, s)
  | DupAtom a => s ← JS_DupAtom s a; Some (Done, s)
  | FreeAtom a => s ← JS_FreeAtom s a; Some (Done, s)
  | AtomToValue a force_string => '(p, s) ← __JS_AtomToValue s a force_string; Some (match p with Some p => Value p | None => Failed end, s)
  | IsArrayIndex a => k ← JS_AtomIsArrayIndex s a; Some (Index k, s)
  end.

(** A call does what the specification says. *)
Definition performs (s : JSRuntime) (m : heap) (c : request) : Prop :=
  exists r s' m', perform s c = Some (r, s') /\ answers m c r m' /\ agrees s' m' /\ booted m'.

Lemma tagged_const a : tagged a -> __JS_AtomIsConst a = true.
Proof. intros H. unfold __JS_AtomIsConst, tagged, JS_ATOM_TAG_INT in *. apply Z.ltb_lt. rewrite (swrap_unique 32 a (a - 2 ^ 32) 1); [|lia|unfold sword; lia|lia]. change JS_ATOM_END with 243. lia. Qed.

Lemma tag_land a : 0 <= a < 2 ^ 32 -> __JS_AtomIsTaggedInt a = bool_decide (tagged a) /\ (tagged a -> __JS_AtomToUInt32 a = a - JS_ATOM_TAG_INT).
Proof.
  intros Ha. unfold __JS_AtomIsTaggedInt, __JS_AtomToUInt32, tagged, JS_ATOM_MAX_INT, JS_ATOM_TAG_INT in *. split.
  - change (2 ^ 31) with (2 ^ (32 - 1)). rewrite land_top_bit by (unfold word; lia). destruct (Z.ltb_spec a (2 ^ (32 - 1))); cbn [negb]; [by rewrite bool_decide_false by lia|by rewrite bool_decide_true by lia].
  - intros Ht. rewrite land_ones_mod by lia. symmetry. apply (Z.mod_unique a (2 ^ 31) 1); lia.
Qed.

Lemma from_uint32 n : 0 <= n <= JS_ATOM_MAX_INT -> __JS_AtomFromUInt32 n = tag n.
Proof.
  intros Hn. unfold __JS_AtomFromUInt32, tag, JS_ATOM_MAX_INT, JS_ATOM_TAG_INT in *. change (2 ^ 31) with (1 << 31) at 1. rewrite lor_add_shiftl by (unfold word; lia). lia.
Qed.

Section calls.
Context (s : JSRuntime) (m : heap) (A : agrees s m) (B : booted m).

Lemma perform_string text : performs s m (NewString text).
Proof.
  destruct (alloc_string_spec s m text A) as (r & s' & E & Hr). unfold performs. cbn [perform]. rewrite E. destruct r as [p|].
  - destruct Hr as [Ep A']. eexists _, s', _. split; [done|]. split; [right; by exists p|]. split; [done|]. apply booted_insert; [|done]. intros n0 E0. congruence.
  - exists Failed, s', m. split_and!; try done. by left.
Qed.

Lemma perform_dup_value p : held m p -> performs s m (DupValue p).
Proof.
  intros (n & E & _). destruct (dup_string_spec s m p n A E) as (s' & E' & A'). exists Done, s', (<[p := values 1 n]> m). cbn [perform]. rewrite E'. split; [done|].
  split; [split; [done|by exists n]|]. split; [done|]. apply booted_insert; [|done]. intros n0 E0. rewrite E in E0. injection E0 as <-. apply same_values.
Qed.

Lemma perform_free_value symbol p : allowed m (FreeValue symbol p) -> performs s m (FreeValue symbol p).
Proof.
  intros [(n & E & Hr) Hsym]. destruct (free_string_spec s m p n A E Hr) as (s' & E' & A' & _). exists Done, s', (drop_value p m).
  cbn [perform]. assert (Eq : JS_FreeValue s symbol p = js_free_string s p); [|rewrite Eq, E'; split_and!; try done; by eapply booted_drop].
  destruct (agrees_struct s m p n A E) as (_ & st & Ep & (_ & _ & Hst)). unfold JS_FreeValue, js_free_string. rewrite Ep. cbn [mbind option_bind]. destruct symbol; [|done]. cbn [orb].
  destruct (n_atom n) as [a|] eqn:Ea; [|by destruct (Hsym eq_refl n E)]. destruct Hst as (Hi & Hsl & Ht).
  assert (Ht0 : atom_type st <> 0) by (eapply (atom_not_plain s (a_index a) p); try done; [apply A|lia]). by replace (atom_type st =? 0) with false by lia.
Qed.

Lemma not_small k text : JS_ATOM_MAX_INT < k -> units text = show 10 k -> forall j, ~ small_number (units text) j.
Proof. intros Hk E j [Hj Ej]. rewrite E in Ej. apply show_inj in Ej; unfold JS_ATOM_MAX_INT, JS_ATOM_TAG_INT in *; lia. Qed.

Lemma perform_new_atom p : held m p -> performs s m (NewAtomStr p).
Proof.
  intros (n & E & Hr). destruct (agrees_struct s m p n A E) as (_ & st & Ep & Hst). pose proof Hst as (Hs1 & _). unfold performs. cbn [perform]. unfold JS_NewAtomStr. rewrite Ep. cbn [mbind option_bind]. rewrite Hs1.
  assert (Hbig : (forall k, ~ small_number (units (n_text n)) k) -> exists r s' m', ('(a, s') ← __JS_NewAtom s (Some p) JS_ATOM_TYPE_STRING; Some (Atom a, s')) = Some (r, s') /\ answers m (NewAtomStr p) r m' /\ agrees s' m' /\ booted m').
  { intros Hno. destruct (new_name_spec s m p n JS_ATOM_TYPE_STRING A E Hr ltac:(by left)) as (a & s' & m' & E' & A' & Hi & B'); [by split|]. rewrite E'. cbn [mbind option_bind].
    exists (Atom a), s', m'. split; [done|]. split; [exists n; split; [done|]; right; split; [done|]; by exists a|]. split; [done|by apply B']. }
  destruct (is_num_string (n_text n)) as [k|] eqn:Ek.
  - apply is_num_string_spec in Ek as [Hk Hu]. destruct (Z.leb_spec k JS_ATOM_MAX_INT) as [Hle|Hgt]; [|apply Hbig; by apply (not_small k)].
    destruct (free_string_spec s m p n A E Hr) as (s' & -> & A' & _). cbn [mbind option_bind]. eexists _, s', (drop_value p m). split; [done|]. split; [|split; [done|by eapply booted_drop]].
    exists n. split; [done|]. left. exists k. split; [split; [lia|done]|]. split; [|done]. by rewrite from_uint32 by lia.
  - apply Hbig. intros k [Hk Hu]. rewrite (proj2 (is_num_string_spec (n_text n) k)) in Ek; [done|]. split; [unfold JS_ATOM_MAX_INT, JS_ATOM_TAG_INT in Hk; lia|done].
Qed.

Lemma perform_new_uint32 n : word 32 n -> performs s m (NewAtomUInt32 n).
Proof.
  intros Hn. unfold performs. cbn [perform]. unfold JS_NewAtomUInt32. destruct (Z.leb_spec n JS_ATOM_MAX_INT) as [Hle|Hgt].
  - cbn [mbind option_bind]. eexists _, s, m. split; [done|]. split; [|done]. left. rewrite from_uint32 by (unfold word in Hn; lia). done.
  - rewrite u32toa_show by done. cbn [mbind option_bind]. set (text := mkString false (show 10 n)). destruct (alloc_string_spec s m text A) as (r & s1 & E1 & Hr). rewrite E1. destruct r as [p|].
    + destruct Hr as [Ep A1]. set (m1 := <[p := plain text]> m) in *. assert (E : m1 !! p = Some (plain text)) by (unfold m1; by rewrite lookup_insert_eq).
      destruct (new_name_spec s1 m1 p (plain text) JS_ATOM_TYPE_STRING A1 E ltac:(done) ltac:(by left)) as (a & s' & m' & E' & A' & Hi & B'); [split; [intros _; by apply (not_small n)|done]|].
      rewrite E'. cbn [mbind option_bind]. eexists _, s', m'. split; [done|]. split; [right; split; [done|]; right; by exists p, a|]. split; [done|]. apply B'.
      apply booted_insert; [|done]. intros n0 E0. congruence.
    + cbn [mbind option_bind]. eexists _, s1, m. split; [done|]. split; [|done]. right. split; [done|]. by left.
Qed.

Lemma perform_dup_atom a : no_refs a \/ held_atom m a -> performs s m (DupAtom a).
Proof.
  intros [Ha|(q & n & x & Hat & _)]; unfold performs; cbn [perform].
  - exists Done, s, m. unfold JS_DupAtom. assert (Hc : __JS_AtomIsConst a = true) by (destruct Ha as [->|Ha]; [done|by apply tagged_const]). rewrite Hc. split; [done|]. split; [|done]. split; [done|by left].
  - destruct (dup_atom_spec s m a q n x A Hat) as (s' & -> & A'). eexists _, s', _. split; [done|]. split; [split; [done|]; right; by exists q, n, x|]. split; [done|].
    unfold dup_atom. destruct (a <? JS_ATOM_END); [done|]. apply booted_insert; [|done]. intros n0 E0. destruct Hat as (E & _). rewrite E in E0. injection E0 as <-. apply same_atoms.
Qed.

Lemma booted_drop_atom a q n x : is_atom m a q n x -> booted (drop_atom a q n m).
Proof.
  intros Hat. unfold drop_atom. destruct (Z.ltb_spec a JS_ATOM_END) as [|Ha]; [done|]. intros i Hi. destruct (B i Hi) as (y & ny & z & Hy). exists y, ny, z.
  destruct Hy as (Ey & Hz1 & Hz2). split; [|done]. unfold settle. rewrite lookup_assign, decide_False; [done|]. intros ->. destruct Hat as (Eq & Hx1 & Hx2).
  rewrite Eq in Ey. injection Ey as <-. rewrite Hx1 in Hz1. injection Hz1 as <-. lia.
Qed.

Lemma perform_free_atom a : no_refs a \/ held_atom m a -> performs s m (FreeAtom a).
Proof.
  intros [Ha|(q & n & x & Hat & Hr)]; unfold performs; cbn [perform].
  - exists Done, s, m. unfold JS_FreeAtom. assert (Hc : __JS_AtomIsConst a = true) by (destruct Ha as [->|Ha]; [done|by apply tagged_const]). rewrite Hc. split; [done|]. split; [|done]. split; [done|by left].
  - destruct (free_atom_spec s m a q n x A Hat Hr) as (s' & -> & A'). eexists _, s', _. split; [done|]. split; [split; [done|]; right; by exists q, n, x|]. split; [done|]. by eapply booted_drop_atom.
Qed.

Lemma perform_index a : tagged a \/ held_atom m a -> performs s m (IsArrayIndex a).
Proof.
  intros Ha. unfold performs. cbn [perform]. unfold JS_AtomIsArrayIndex. destruct Ha as [Ha|(q & n & x & Hat & _)].
  - destruct (tag_land a) as [E1 E2]; [unfold tagged, JS_ATOM_TAG_INT in Ha; lia|]. rewrite E1, bool_decide_true, E2 by done. cbn [mbind option_bind]. eexists _, s, m. split; [done|]. split; [|done].
    eexists. split; [done|]. split; [by left|done].
  - destruct (atom_at s m a q n x A Hat) as (Hi & _ & st & Hsl & Ep & (Hs1 & _) & Ht). destruct (tag_land a) as [E1 _]; [unfold JS_ATOM_MAX in Hi; lia|].
    rewrite E1, bool_decide_false by (unfold tagged, JS_ATOM_TAG_INT, JS_ATOM_MAX in *; lia). assert (Hsz : a < atom_size s) by (apply lookup_lt_Some in Hsl; unfold atom_size; lia).
    rewrite option_guard_True by done. cbn [mbind option_bind]. rewrite (proj2 (atom_struct_some s a st)) by (by exists q). cbn [mbind option_bind]. eexists _, s, m. split; [done|]. split; [|done].
    eexists. split; [done|]. split; [|done]. right. exists q, n, x. split; [done|]. intros k. rewrite Hs1, Ht. destruct (Z.eqb_spec (a_type x) JS_ATOM_TYPE_STRING) as [->|Hne]; [|split; [done|by intros [? _]]].
    destruct (is_num_string (n_text n)) as [j|] eqn:Ej; cbn [mbind option_bind].
    + apply is_num_string_spec in Ej as [Hj Hu]. destruct (Z.eqb_spec j (2 ^ 32 - 1)) as [->|Hne].
      * split; [done|]. intros (_ & Hk & Hu'). rewrite Hu in Hu'. apply show_inj in Hu'; lia.
      * split; [intros [= <-]; split_and!; [done|lia|lia|done]|]. intros (_ & Hk & Hu'). rewrite Hu in Hu'. apply show_inj in Hu'; [by subst|lia|lia].
    + split; [done|]. intros (_ & Hk & Hu). rewrite (proj2 (is_num_string_spec (n_text n) k)) in Ej; [done|]. split; [lia|done].
Qed.
End calls.

Section state.
Context (s : JSRuntime).

Lemma agrees_value m a q n x : agrees s m -> is_atom m a q n x -> 1 <= a_refs x -> JS_ATOM_END <= a -> agrees s (<[q := as_value n]> m).
Proof.
  intros A (E & Ex & Ha) Hr Hend. destruct (agrees_struct s m q n A E) as ([O1 O2 O3] & st & Ep & Hst). destruct (O3 x Ex) as (O4 & O5 & O6).
  assert (Et : total (as_value n) = total n) by (unfold as_value; rewrite total_values, (total_atoms _ _ x Ex); lia).
  assert (Ex' : n_atom (as_value n) = Some (mkRef (a_index x) (a_type x) (a_refs x + -1))) by (cbn; by rewrite Ex).
  apply (agrees_change s s m q (Some (as_value n)) A); try done; [apply A|by eapply agrees_slot|]. split.
  - split; [lia|cbn; lia|]. rewrite Ex'. intros y [= <-]. cbn. split_and!; [lia|lia|done].
  - exists st. split; [done|]. destruct Hst as (S1 & S2 & S3). rewrite Ex in S3. split; [done|]. split; [lia|]. by rewrite Ex'.
Qed.

(** The new atom is held. *)
Lemma new_atom_held m p type a m' : new_atom_of m p type a m' -> held_atom m' a.
Proof. intros (q & n & m1 & _ & _ & -> & _). exists q, (becomes a type n), (mkRef a type 1). split; [split_and!; [apply lookup_insert_eq|done|done]|done]. Qed.

Lemma interned_held m p type a m' : agrees s m -> (forall i q n x, is_atom m i q n x -> a_type x = type -> JS_ATOM_END <= i) -> interned m p type a m' ->
  a = JS_ATOM_NULL \/ held_atom m' a.
Proof.
  intros A Hend (n & E & [(q & nq & aq & Hat & Hname & ->)|(_ & [[-> _]|H])]); [right|by left|right; by eapply new_atom_held].
  destruct Hname as (aq' & Eaq & Ht & _). pose proof Hat as (Eq & Eaq' & Hai). rewrite Eaq in Eaq'. injection Eaq' as ->.
  pose proof (Hend a q nq aq Hat Ht) as Ha. destruct (agrees_struct s m q nq A Eq) as ([O1 O2 O3] & _). destruct (O3 aq Eaq) as (O4 & _).
  unfold dup_atom. replace (a <? JS_ATOM_END) with false by lia. unfold drop_value. destruct (decide (p = q)) as [->|Hne].
  - rewrite lookup_insert_eq. set (n' := values (-1) (atoms 1 nq)). assert (Etot : total n' = total nq) by (unfold n'; rewrite total_values, (total_atoms _ _ aq Eaq); lia).
    exists q, n', (mkRef (a_index aq) (a_type aq) (a_refs aq + 1)). split; [|cbn; lia]. split_and!; [|cbn; by rewrite Eaq|done].
    unfold settle. replace (total n' <=? 0) with false by lia. cbn. apply lookup_insert_eq.
  - rewrite lookup_insert_ne, E by congruence. exists q, (atoms 1 nq), (mkRef (a_index aq) (a_type aq) (a_refs aq + 1)). split; [|cbn; lia]. split_and!; [|cbn; by rewrite Eaq|done].
    unfold settle. rewrite lookup_assign, decide_False by congruence. by rewrite lookup_insert_eq.
Qed.

Lemma symbol_spec m a : agrees s m -> booted m -> a = JS_ATOM_NULL \/ (JS_ATOM_END <= a /\ held_atom m a) -> exists r m',
  (if a =? JS_ATOM_NULL then Some (None, s) else q ← atom_ptr s a; Some (Some q, s)) = Some (r, s) /\
  symbol_value m a (match r with Some q => Value q | None => Failed end) m' /\ agrees s m' /\ booted m'.
Proof.
  intros A B Ha. destruct (Z.eqb_spec a JS_ATOM_NULL) as [->|Hne].
  - exists None, m. split; [done|]. split; [by left|done].
  - destruct Ha as [|(Hend & q & n & x & Hat & Hr)]; [done|]. destruct (atom_at s m a q n x A Hat) as (_ & _ & st & Hsl & _). rewrite (proj2 (atom_ptr_some s a q) Hsl). cbn [mbind option_bind].
    exists (Some q), (<[q := as_value n]> m). split; [done|]. split; [right; by exists q, n, x|]. split; [by eapply agrees_value|]. apply booted_insert; [|done].
    intros n0 E0. destruct Hat as (E & _). rewrite E in E0. injection E0 as <-. split; [done|]. cbn. by destruct (n_atom n).
Qed.
End state.

Lemma perform_symbol s m p type : agrees s m -> booted m -> allowed m (NewSymbol p type) -> performs s m (NewSymbol p type).
Proof.
  intros A B [Hty Hp]. unfold performs. cbn [perform]. unfold JS_NewSymbolInternal.
  assert (H : exists a s1 m1, __JS_NewAtom s p type = Some (a, s1) /\ agrees s1 m1 /\ booted m1 /\ (a = JS_ATOM_NULL \/ (JS_ATOM_END <= a /\ held_atom m1 a)) /\
    ((exists p', type = JS_ATOM_TYPE_GLOBAL_SYMBOL /\ p = Some p' /\ interned m p' type a m1) \/ (type <> JS_ATOM_TYPE_GLOBAL_SYMBOL /\ new_name m p JS_ATOM_TYPE_SYMBOL a m1))).
  { destruct (decide (type = JS_ATOM_TYPE_GLOBAL_SYMBOL)) as [Ht|Ht].
    - destruct p as [p|]; [|destruct Hty as [[_ ?]|Hty]; [done|]; rewrite Ht in Hty; by destruct Hty]. destruct (Hp p eq_refl) as (n & E & Hr).
      destruct (new_name_spec s m p n type A E Hr ltac:(by right)) as (a & s1 & m1 & E1 & A1 & Hi & B1); [split; [by rewrite Ht|done]|].
      assert (Hend : forall s2 m2 i q nq x, agrees s2 m2 -> is_atom m2 i q nq x -> a_type x = type -> JS_ATOM_END <= i).
      { intros s2 m2 i q nq x A2 Hat Hx. destruct (atom_at s2 m2 i q nq x A2 Hat) as (_ & [_ _ O3] & _). destruct Hat as (_ & Ex & <-). destruct (O3 x Ex) as (_ & O5 & _).
        destruct (decide (a_index x < JS_ATOM_END)) as [Hlt|]; [|lia]. destruct (O5 Hlt) as [_ O7]. congruence. }
      exists a, s1, m1. split_and!; [done|done|by apply B1| |left; by exists p].
      destruct (interned_held s m p type a m1 A (fun i q nq x => Hend s m i q nq x A) Hi) as [|Hh]; [by left|right]. split; [|done].
      pose proof Hi as (n' & E' & Hcase). rewrite E in E'. injection E' as <-. destruct Hcase as [(q & nq & aq & Hat & Hnq & _)|(_ & [[-> _]|(q & nq & m2 & _ & _ & -> & _)])].
      + destruct Hnq as (aq' & Eaq & Hta & _). pose proof Hat as (_ & Eaq' & _). rewrite Eaq in Eaq'. injection Eaq' as ->. by eapply (Hend s m).
      + destruct Hh as (q & nq & x & Hat & _). destruct (atom_at s1 m1 _ q nq x A1 Hat) as (? & _). unfold JS_ATOM_NULL in *. lia.
      + eapply (Hend s1 _ a q (becomes a type nq) (mkRef a type 1)); [exact A1| |done]. split_and!; [apply lookup_insert_eq|done|done].
    - destruct Hty as [[? _]|Hty]; [done|]. assert (Hg : exists text, given m p text).
      { destruct p as [p|]; [destruct (Hp p eq_refl) as (n & E & Hr); by exists (n_text n), n|by exists (mkString true [])]. }
      destruct Hg as [text Hg]. destruct (new_symbol_spec s m p text type A Hg Hty) as (a & s1 & m1 & E1 & A1 & Hn & B1). destruct (B1 B) as [B1' Ha].
      exists a, s1, m1. split_and!; [done|done|done| |right; by split]. destruct Ha as [|Ha]; [by left|right]. split; [done|].
      destruct Hn as [[-> _]|Hn]; [done|by eapply new_atom_held]. }
  destruct H as (a & s1 & m1 & -> & A1 & B1 & Ha & Hspec). cbn [mbind option_bind]. destruct (symbol_spec s1 m1 a A1 B1 Ha) as (r & m' & E & Hv & A' & B'). rewrite E. cbn [mbind option_bind].
  eexists _, s1, m'. split; [done|]. split; [by exists a, m1|done].
Qed.

Lemma perform_to_value s m a force : agrees s m -> booted m -> tagged a \/ held_atom m a -> performs s m (AtomToValue a force).
Proof.
  intros A B Ha. unfold performs. cbn [perform]. unfold __JS_AtomToValue. destruct Ha as [Ha|(p & n & x & Hat & _)].
  - destruct (tag_land a) as [E1 E2]; [unfold tagged, JS_ATOM_TAG_INT in Ha; lia|]. rewrite E1, bool_decide_true, E2 by done.
    rewrite u32toa_show by (unfold tagged, JS_ATOM_TAG_INT, word in *; lia). cbn [mbind option_bind]. set (text := mkString _ _).
    destruct (alloc_string_spec s m text A) as (r & s' & -> & Hr). cbn [mbind option_bind]. destruct r as [q|].
    + destruct Hr as [Ep A']. eexists _, s', _. split; [done|]. split; [left; split; [done|]; right; by exists q|]. split; [done|]. apply booted_insert; [|done]. intros n0 E0. congruence.
    + eexists _, s', m. split; [done|]. split; [left; split; [done|]; by left|done].
  - destruct (atom_at s m a p n x A Hat) as (Hi & _ & st & Hsl & Ep & (Hs1 & _) & Ht). destruct (tag_land a) as [E1 _]; [unfold JS_ATOM_MAX in Hi; lia|].
    rewrite E1, bool_decide_false by (unfold tagged, JS_ATOM_TAG_INT, JS_ATOM_MAX in *; lia). assert (Hsz : a < atom_size s) by (apply lookup_lt_Some in Hsl; unfold atom_size; lia).
    rewrite option_guard_True by done. cbn [mbind option_bind]. rewrite (proj2 (atom_ptr_some s a p) Hsl). cbn [mbind option_bind]. rewrite Ep. cbn [mbind option_bind].
    assert (H : exists q nq, (if negb (atom_type st =? JS_ATOM_TYPE_STRING) && force && (len (units (str st)) =? 0) && is_wide_char (str st) then atom_ptr s JS_ATOM_empty_string else Some p) = Some q /\
      m !! q = Some nq /\ atom_value m a force q nq).
    { destruct (negb _ && _ && _ && _) eqn:Eb.
      - apply andb_prop in Eb as [[[Hb1%negb_true_iff Hb2]%andb_prop Hb3%Z.eqb_eq]%andb_prop Hb4]. destruct (B JS_ATOM_empty_string) as (q & nq & y & Hy); [done|].
        destruct (atom_at s m _ q nq y A Hy) as (_ & _ & sq & Hslq & _). exists q, nq. split; [by apply atom_ptr_some|]. split; [apply Hy|]. exists p, n, x. split; [done|]. left.
        split; [done|]. split; [rewrite <- Ht; lia|]. split; [|by exists y]. split; [rewrite <- Hs1; apply nil_length_inv; lia|by rewrite <- Hs1].
      - exists p, n. split; [done|]. split; [apply Hat|]. exists p, n, x. split; [done|]. right. split; [|done]. intros (Hf & Hst & Hd1 & Hd2). rewrite Hf, Hs1, Hd1, Hd2, Ht in Eb.
        replace (a_type x =? JS_ATOM_TYPE_STRING) with false in Eb by lia. done. }
    destruct H as (q & nq & -> & Eq & Hv). cbn [mbind option_bind]. destruct (dup_string_spec s m q nq A Eq) as (s' & E' & A'). unfold dup_string in E'.
    destruct (strings s !! q) as [sq|] eqn:Esq; [|done]. cbn [mbind option_bind] in *. injection E' as <-. eexists _, _, _. split; [done|]. split; [right; by exists q, nq|]. split; [done|].
    apply booted_insert; [|done]. intros n0 E0. rewrite Eq in E0. injection E0 as <-. apply same_values.
Qed.

Lemma atom_call_spec s m c : agrees s m -> booted m -> allowed m c -> performs s m c.
Proof.
  intros A B Hc. destruct c; [by apply perform_string|by apply perform_dup_value|by apply perform_free_value|by apply perform_new_atom|by apply perform_new_uint32|by apply perform_symbol|
    by apply perform_dup_atom|by apply perform_free_atom|by apply perform_to_value|by apply perform_index].
Qed.
End run.

(** ** The properties *)

(** The type and the characters that an atom denotes. *)
Definition atom_name (s : JSRuntime) (a : Z) : option (Z * list Z) :=
  if __JS_AtomIsTaggedInt a then Some (JS_ATOM_TYPE_STRING, show 10 (__JS_AtomToUInt32 a))
  else st ← atom_struct s a; Some (atom_type st, units (str st)).

Section properties.
Context {W : World} {Al : Malloc}.
Abbreviation run := (run_client perform).

Lemma names_unique s m a b t u : agrees s m -> 0 <= a < 2 ^ 32 -> 0 <= b < 2 ^ 32 -> t <> JS_ATOM_TYPE_SYMBOL -> atom_name s a = Some (t, u) -> atom_name s b = Some (t, u) -> a = b.
Proof.
  intros A Ha Hb Ht. unfold atom_name. destruct (tag_land a Ha) as [Ea1 Ea2], (tag_land b Hb) as [Eb1 Eb2]. rewrite Ea1, Eb1.
  assert (Hmix : forall a b, 0 <= b < 2 ^ 32 -> tagged a -> ~ tagged b -> (st ← atom_struct s b; Some (atom_type st, units (str st))) <> Some (JS_ATOM_TYPE_STRING, show 10 (a - JS_ATOM_TAG_INT))).
  { intros x y Hy Hx _. destruct (atom_struct s y) as [st|] eqn:Es; [|done]. cbn [mbind option_bind]. intros [= Hty Hu]. pose proof (t_names _ (ag_table _ _ A)) as N.
    assert (Hy0 : 0 < y). { destruct (decide (y = 0)) as [->|]; [|lia]. apply atom_struct_some in Es as (p & Hp & Ep). destruct (n_used _ N 0 p Hp) as (st' & E' & _ & H0 & _). rewrite Ep in E'.
      apply (inj Some) in E'. subst st'. by rewrite (H0 eq_refl) in Hty. }
    destruct (struct_node s m y st A Hy0 Es) as (q & n & z & _ & _ & (Hs1 & _) & Hat & Hz). destruct (atom_at s m y q n z A Hat) as (_ & [_ _ O3] & _). destruct Hat as (_ & Ez & _).
    destruct (O3 z Ez) as (_ & _ & O6). apply (O6 ltac:(congruence) (x - JS_ATOM_TAG_INT)). unfold small_number, tagged, JS_ATOM_MAX_INT, JS_ATOM_TAG_INT in *. split; [lia|]. by rewrite <- Hs1. }
  destruct (decide (tagged a)) as [Hta|Hta], (decide (tagged b)) as [Htb|Htb].
  - rewrite !bool_decide_true, Ea2, Eb2 by done. intros [= <- <-] [= E]. unfold tagged, JS_ATOM_TAG_INT in *. apply show_inj in E; lia.
  - rewrite bool_decide_true, bool_decide_false, Ea2 by done. intros [= <- <-] E. by destruct (Hmix a b Hb Hta Htb).
  - rewrite bool_decide_false, bool_decide_true, Eb2 by done. intros E [= <- <-]. by destruct (Hmix b a Ha Htb Hta).
  - rewrite !bool_decide_false by done. destruct (atom_struct s a) as [sa|] eqn:Esa; [|done]. destruct (atom_struct s b) as [sb|] eqn:Esb; [|done]. cbn. intros [= <- <-] [= E1 E2].
    assert (Hpos : forall y sy, atom_struct s y = Some sy -> 0 <= y -> atom_type sy <> JS_ATOM_TYPE_SYMBOL -> 0 < y).
    { intros y sy (p & Hp & Ep)%atom_struct_some Hy Hty. destruct (decide (y = 0)) as [->|]; [|lia]. destruct (n_used _ (t_names _ (ag_table _ _ A)) 0 p Hp) as (st' & E' & _ & H0 & _).
      rewrite Ep in E'. apply (inj Some) in E'. subst st'. by destruct (Hty (H0 eq_refl)). }
    eapply (n_unique _ (t_names _ (ag_table _ _ A)) a b); try done; [eapply Hpos; [exact Esa|lia|done]|eapply Hpos; [exact Esb|lia|congruence]].
Qed.

Lemma run_spec k s0 : JS_InitAtoms empty_runtime = Some (false, s0) -> (forall m0, boot_view m0 JS_ATOM_END -> careful allowed answers m0 k) ->
  exists m0 rs s' m', boot_view m0 JS_ATOM_END /\ run s0 k = Some (rs, s') /\ follows answers m0 k rs m' /\ agrees s' m'.
Proof.
  intros E Hc. destruct init_atoms_spec as (b & s1 & E1 & Hm). rewrite E in E1. injection E1 as <- <-. destruct (Hm eq_refl) as (m0 & A0 & Hb0).
  destruct (clients_follow allowed answers perform (fun _ s m => agrees s m /\ booted m)) with (k := k) (s := s0) (m := m0) as (rs & s' & m' & Er & Hf & A' & _).
  - intros c k' s m [A B] Ha. destruct (atom_call_spec s m c A B Ha) as (r & s' & m' & Ec & Hans & A' & B'). by exists r, s', m'.
  - split; [done|by apply boot_booted].
  - by apply Hc.
  - by exists m0, rs, s', m'.
Qed.

(** C39 [JS_InitAtoms] gives the names of [quickjs-atom.h] their indices, or fails, whichever
    allocations fail; then every client that holds what it uses runs without an error (no
    access out of the tables or to freed memory, and the searches end), and its replies are
    those of the specification: a name has one atom, the numbers up to 2^31 - 1 have no
    structure, and an atom keeps its text.  At the end the structures in memory are the
    strings and atoms with references, and the one of [JS_ATOM_NULL]. *)
Theorem atoms_refine k : (forall m0, boot_view m0 JS_ATOM_END -> careful allowed answers m0 k) ->
  exists b s0, JS_InitAtoms empty_runtime = Some (b, s0) /\ (b = false -> exists m0 rs s' m', boot_view m0 JS_ATOM_END /\
    run s0 k = Some (rs, s') /\ follows answers m0 k rs m' /\
    forall p, is_Some (strings s' !! p) <-> is_Some (m' !! p) \/ atom_ptr s' JS_ATOM_NULL = Some p).
Proof.
  intros Hc. destruct init_atoms_spec as (b & s0 & E & _). exists b, s0. split; [done|]. intros ->.
  destruct (run_spec k s0 E Hc) as (m0 & rs & s' & m' & Hb & Er & Hf & A). exists m0, rs, s', m'. split; [done|]. split; [done|]. split; [done|]. intros p. rewrite atom_ptr_some. split.
  - intros [st Ep]. by apply (ag_back _ _ A p st).
  - intros [[n En]|Hp]; [destruct (agrees_struct s' m' p n A En) as (_ & st & -> & _); by eexists|].
    destruct (n_used _ (t_names _ (ag_table _ _ A)) 0 p Hp) as (st & -> & _). by eexists.
Qed.

(** C40 In the states that a client reaches, two atoms of strings, or of global symbols, are
    equal exactly when their types and texts are, numbers included: comparing atoms compares
    names. *)
Theorem atoms_canonical k s0 rs s' a b : JS_InitAtoms empty_runtime = Some (false, s0) ->
  (forall m0, boot_view m0 JS_ATOM_END -> careful allowed answers m0 k) -> run s0 k = Some (rs, s') ->
  0 <= a < 2 ^ 32 -> 0 <= b < 2 ^ 32 -> forall t u, atom_name s' a = Some (t, u) -> t <> JS_ATOM_TYPE_SYMBOL -> (atom_name s' b = Some (t, u) <-> a = b).
Proof.
  intros E Hc Er Ha Hb t u Ea Ht. destruct (run_spec k s0 E Hc) as (m0 & rs' & s1 & m' & _ & Er' & _ & A). rewrite Er in Er'. injection Er' as <- <-.
  split; [|by intros <-]. intros Eb. by apply (names_unique s' m' a b t u).
Qed.
End properties.

(** ** Examples *)

#[local] Program Instance fresh_pointers : Malloc := {| malloc X := stdpp.base.fresh X |}.
Next Obligation. apply is_fresh. Qed.
#[local] Instance healthy : World := fun _ => true.

(** Two strings with one text get one atom. *)
Definition ab : JSString := mkString false (chars "ab").
Definition two_names : client request reply :=
  Call (NewString ab) (fun r => match r with
  | Value p => Call (NewString ab) (fun r => match r with
    | Value q => Call (NewAtomStr p) (fun _ => Call (NewAtomStr q) (fun _ => Stop))
    | _ => Stop
    end)
  | _ => Stop
  end).

(** The strings that are not the value are the same. *)
Lemma interned_other m p t a m' x n : interned m p t a m' -> x <> p -> m !! x = Some n -> n_atom n = None -> m' !! x = Some n.
Proof.
  intros (np & E & H) Hx Ex Hn. assert (Hdrop : forall m1, m1 !! x = Some n -> drop_value p m1 !! x = Some n).
  { intros m1 E1. unfold drop_value. destruct (m1 !! p); [|done]. unfold settle. by rewrite lookup_assign, decide_False. }
  destruct H as [(q & nq & aq & (Eq & Eaq & _) & _ & ->)|(_ & [[_ ->]|(q & nq & m1 & Hs & _ & -> & _)])].
  - apply Hdrop. unfold dup_atom. destruct (a <? JS_ATOM_END); [done|]. rewrite lookup_insert_ne; [done|]. intros ->. rewrite Ex in Eq. injection Eq as ->. congruence.
  - by apply Hdrop.
  - destruct Hs as (n' & E' & Hs). destruct (n_atom n'); destruct Hs as [Hq ->]; [|subst q; by rewrite lookup_insert_ne by congruence].
    rewrite lookup_insert_ne by (intros ->; congruence). apply Hdrop. by rewrite lookup_insert_ne by (intros ->; congruence).
Qed.

Lemma two_names_careful m0 : careful allowed answers m0 two_names.
Proof.
  cbn. split; [done|]. intros r m1 H1. destruct H1 as [[-> _]|(p & -> & Ep & ->)]; [done|]. split; [done|]. intros r m2 H2. destruct H2 as [[-> _]|(q & -> & Eq & ->)]; [done|].
  assert (Hqp : q <> p) by (intros ->; by rewrite lookup_insert_eq in Eq). split; [exists (plain ab); by rewrite lookup_insert_ne, lookup_insert_eq by congruence|].
  intros r m3 (n & En & H3). split; [|done]. rewrite lookup_insert_ne, lookup_insert_eq in En by congruence. injection En as <-. exists (plain ab). split; [|done].
  destruct H3 as [(k & _ & _ & ->)|(_ & a & _ & H3)].
  - unfold drop_value. rewrite lookup_insert_ne, lookup_insert_eq by congruence. unfold settle. rewrite lookup_assign, decide_False by done. by rewrite lookup_insert_eq.
  - eapply (interned_other _ p); [exact H3|done|by rewrite lookup_insert_eq|done].
Qed.

Definition booted_runtime : option JSRuntime := snd <$> JS_InitAtoms empty_runtime.
Example two_names_run : (s ← booted_runtime; fst <$> run_client perform s two_names) = Some [Value 243; Value 244; Atom 243; Atom 243].
Proof. vm_compute. reflexivity. Qed.

Lemma atoms_refine_witness : exists b s0, JS_InitAtoms empty_runtime = Some (b, s0) /\ (b = false -> exists m0 rs s' m', boot_view m0 JS_ATOM_END /\
  run_client perform s0 two_names = Some (rs, s') /\ follows answers m0 two_names rs m' /\ forall p, is_Some (strings s' !! p) <-> is_Some (m' !! p) \/ atom_ptr s' JS_ATOM_NULL = Some p).
Proof. apply (atoms_refine two_names). intros m0 _. apply two_names_careful. Defined.

(** The text "ab" has the atom 243 only. *)
Lemma atoms_canonical_witness : match s0 ← booted_runtime; run_client perform s0 two_names with
  | Some (_, s') => forall b, 0 <= b < 2 ^ 32 -> (atom_name s' b = Some (JS_ATOM_TYPE_STRING, chars "ab") <-> 243 = b)
  | None => False
  end.
Proof.
  assert (H0 : fst <$> JS_InitAtoms empty_runtime = Some false) by (vm_compute; reflexivity). unfold booted_runtime.
  assert (Hx : (s0 ← booted_runtime; x ← run_client perform s0 two_names; atom_name (snd x) 243) = Some (JS_ATOM_TYPE_STRING, chars "ab")) by (vm_compute; reflexivity).
  unfold booted_runtime in Hx. destruct (JS_InitAtoms empty_runtime) as [[f s0]|] eqn:E; [|done]. injection H0 as ->. cbn [fmap option_fmap option_map snd mbind option_bind] in *.
  destruct (run_client perform s0 two_names) as [[rs s']|] eqn:Er; [|done]. cbn [mbind option_bind snd] in Hx. intros b Hb.
  apply (atoms_canonical two_names s0 rs s' 243 b E (fun m0 _ => two_names_careful m0) Er ltac:(lia) Hb _ _ Hx). done.
Defined.
