(* ===== verification/MapKeys.v ===== *)
(** * The keys of the collections

    The equality and the hash of the values that are keys of a collection
    ([js_strict_eq2], [map_normalize_key], [map_hash_key] of [src/quickjs/quickjs.c]) on
    64-bit targets, where a limb and the payload of a short BigInt have 64 bits and a
    double is not boxed.  A double is its bit pattern ([DoubleBits]). *)
From S2P Require Export Atoms JsBigIntConv RopeStrings.

Inductive JSStrictEqModeEnum := JS_EQ_STRICT | JS_EQ_SAME_VALUE | JS_EQ_SAME_VALUE_ZERO.

(** [js_same_value] and [js_same_value_zero] compare with these modes. *)
Definition at_least_same_value (eq_mode : JSStrictEqModeEnum) : bool :=
  match eq_mode with JS_EQ_STRICT => false | _ => true end.

(** A value of the language with its tag.  A flat string has the tag [JS_TAG_STRING] and
    a node [JS_TAG_STRING_ROPE]; an object and a symbol are their address.  The tags that
    the engine uses internally never reach a collection. *)
Inductive JSValue :=
  | JS_Undefined
  | JS_Null
  | JS_Bool (b : bool)
  | JS_Int (i : Z)
  | JS_Float64 (d : Z)
  | JS_String (s : Rope JSString)
  | JS_Symbol (p : Z)
  | JS_Object (p : Z)
  | JS_BigInt (v : BigIntValue).

Definition JS_TAG_BIG_INT : Z := -9.
Definition JS_TAG_SYMBOL : Z := -8.
Definition JS_TAG_STRING : Z := -7.
Definition JS_TAG_OBJECT : Z := -1.
Definition JS_TAG_BOOL : Z := 1.
Definition JS_TAG_FLOAT64 : Z := 8.

(** ** Doubles *)

Definition JS_FLOAT64_NAN : Z := 2047 * 2 ^ 52 + 2 ^ 51.
Definition isnan (d : Z) : bool := (f_exp d =? 2047) && negb (f_mant d =? 0).

(** [d == 0.0], for both zeros, and [d1 == d2] for two numbers. *)
Definition is_zero (d : Z) : bool := d .& (2 ^ 63 - 1) =? 0.
Definition double_eq (d1 d2 : Z) : bool :=
  negb (isnan d1) && negb (isnan d2) && ((d1 =? d2) || (is_zero d1 && is_zero d2)).

(** [number_test] *)
Definition number_test (eq_mode : JSStrictEqModeEnum) (d1 d2 : Z) : bool :=
  if at_least_same_value eq_mode then
    if isnan d1 || isnan d2 then eqb (isnan d1) (isnan d2)
    else match eq_mode with
    | JS_EQ_SAME_VALUE_ZERO => double_eq d1 d2
    | _ => d1 =? d2
    end
  else double_eq d1 d2.

(** ** Equality *)
Section equality.
Context {W : World} {Ip : InPlace}.

Definition bigint_of (v : BigIntValue) : JSBigInt :=
  match v with ShortBigInt v => js_bigint_set_short v | BigInt p => p end.

(** [None] when the comparison of two ropes does not end. *)
Definition js_strict_eq2 (op1 op2 : JSValue) (eq_mode : JSStrictEqModeEnum) : option bool :=
  match op1, op2 with
  | JS_Bool b1, JS_Bool b2 => Some (eqb b1 b2)
  | JS_Null, JS_Null | JS_Undefined, JS_Undefined => Some true
  | JS_String (Str p1), JS_String (Str p2) => Some (js_string_eq p1 p2)
  | JS_String s1, JS_String s2 =>
      r ← js_string_rope_compare s1 s2 true; Some (r =? 0)
  | JS_Symbol p1, JS_Symbol p2 | JS_Object p1, JS_Object p2 => Some (p1 =? p2)
  | JS_Int i1, JS_Int i2 => Some (number_test eq_mode (nearest i1) (nearest i2))
  | JS_Int i1, JS_Float64 d2 => Some (number_test eq_mode (nearest i1) d2)
  | JS_Float64 d1, JS_Float64 d2 => Some (number_test eq_mode d1 d2)
  | JS_Float64 d1, JS_Int i2 => Some (number_test eq_mode d1 (nearest i2))
  | JS_BigInt v1, JS_BigInt v2 =>
      Some (js_bigint_cmp 64 (bigint_of v1) (bigint_of v2) =? 0)
  | _, _ => Some false
  end.

Definition js_same_value_zero (op1 op2 : JSValue) : option bool :=
  js_strict_eq2 op1 op2 JS_EQ_SAME_VALUE_ZERO.

(** ** The hash *)

Definition map_normalize_key (key : JSValue) : JSValue :=
  match key with
  | JS_Float64 d => if is_zero d then JS_Int 0 else key
  | _ => key
  end.

Definition HASH_MUL32 : Z := 0x61C88647.
Definition HASH_MUL64 : Z := 0x61C8864680B583EB.

Definition map_hash32 (a hash_bits : Z) : Z := u32 (a * HASH_MUL32) >> (32 - hash_bits).
Definition map_hash64 (a hash_bits : Z) : Z := u32 (u64 (a * HASH_MUL64) >> (64 - hash_bits)).
Definition map_hash_pointer (a hash_bits : Z) : Z := map_hash64 a hash_bits.

Fixpoint hash_string_rope (val : Rope JSString) (h : Z) : Z :=
  match val with
  | Str p => hash_string (units p) h
  | Node _ _ _ l r => hash_string_rope r (hash_string_rope l h)
  end.

(** The loop runs from the most significant limb. *)
Definition hash_bigint (p : JSBigInt) : Z := foldr (fun x h => u32 (h * 263 + x)) 1 p.

(** The sign extension of a tag to an [uint32_t] is [u32]. *)
Definition map_hash_key (key : JSValue) (hash_bits : Z) : Z :=
  match key with
  | JS_Bool b => map_hash32 (b2z b .^ JS_TAG_BOOL) hash_bits
  | JS_String (Str p) => map_hash32 (hash_string (units p) 0 .^ u32 JS_TAG_STRING) hash_bits
  | JS_String s => map_hash32 (hash_string_rope s 0 .^ u32 JS_TAG_STRING) hash_bits
  | JS_Object p => map_hash_pointer (p .^ u32 JS_TAG_OBJECT) hash_bits
  | JS_Symbol p => map_hash_pointer (p .^ u32 JS_TAG_SYMBOL) hash_bits
  | JS_Int i => map_hash64 (nearest i .^ JS_TAG_FLOAT64) hash_bits
  | JS_Float64 d =>
      let d := if isnan d then JS_FLOAT64_NAN else d in
      map_hash64 (d .^ JS_TAG_FLOAT64) hash_bits
  | JS_BigInt v => map_hash32 (hash_bigint (bigint_of v) .^ u32 JS_TAG_BIG_INT) hash_bits
  | JS_Undefined | JS_Null => 0
  end.

(** ** Weak references

    The atom of a symbol and the reference count of an object, at its address. *)
Definition js_weakref_is_target (atoms : Z -> JSAtomStruct) (val : JSValue) : bool :=
  match val with
  | JS_Object _ => true
  | JS_Symbol p =>
      (atom_type (atoms p) =? JS_ATOM_TYPE_SYMBOL) &&
      negb (as_hash (atoms p) =? JS_ATOM_HASH_PRIVATE)
  | _ => false
  end.

(** The other values are never weak keys. *)
Definition js_weakref_is_live (ref_count : Z -> Z) (val : JSValue) : bool :=
  match val with
  | JS_Object p | JS_Symbol p => negb (ref_count p =? 0)
  | _ => true
  end.

(** ** What the equality decides

    The value that a key denotes; the sign of a zero and the bits of a NaN are lost. *)
Inductive Key :=
  | KUndefined
  | KNull
  | KBool (b : bool)
  | KNumber (bits : Z)
  | KText (text : list Z)
  | KSymbol (p : Z)
  | KObject (p : Z)
  | KBigInt (v : Z).

Definition canonical_double (d : Z) : Z :=
  if isnan d then JS_FLOAT64_NAN else if is_zero d then 0 else d.

Definition key_of (v : JSValue) : Key :=
  match v with
  | JS_Undefined => KUndefined
  | JS_Null => KNull
  | JS_Bool b => KBool b
  | JS_Int i => KNumber (canonical_double (nearest i))
  | JS_Float64 d => KNumber (canonical_double d)
  | JS_String s => KText (rope_text s)
  | JS_Symbol p => KSymbol p
  | JS_Object p => KObject p
  | JS_BigInt v => KBigInt (sval 64 (bigint_of v))
  end.

(** The representation invariants of a value. *)
Definition value_wf (v : JSValue) : Prop :=
  match v with
  | JS_Int i => sword 32 i
  | JS_Float64 d => word 64 d
  | JS_String s => rope_wf s /\ shallow s
  | JS_BigInt (ShortBigInt v) => sword 64 v
  | JS_BigInt (BigInt p) => bigint_wf 64 p
  | _ => True
  end.
End equality.

#[global] Instance key_eq_dec : EqDecision Key.
Proof. solve_decision. Defined.

(** ** Numbers *)

Lemma double_bound d : word 64 d -> d <= 2 ^ 64 - 1.
Proof. unfold word. lia. Qed.

Lemma is_zero_spec d : word 64 d -> is_zero d = true <-> d = 0 \/ d = 2 ^ 63.
Proof.
  intros Hd. unfold is_zero. rewrite land_ones_mod, Z.eqb_eq by lia. unfold word in Hd.
  pose proof (Z.div_mod d (2 ^ 63) ltac:(lia)) as E.
  assert (0 <= d / 2 ^ 63 < 2) by (split; [apply Z.div_pos; lia|apply Z.div_lt_upper_bound; lia]).
  split; [intros H0; rewrite H0 in E; nia|by intros [-> | ->]].
Qed.

Lemma nan_not_zero d : word 64 d -> isnan d = true -> is_zero d = false.
Proof.
  intros Hd Hn. apply not_true_is_false. rewrite is_zero_spec by done.
  intros [-> | ->]; vm_compute in Hn; discriminate.
Qed.

(** The comparisons of the collections see a double through [canonical_double]. *)
Lemma number_test_spec d1 d2 : word 64 d1 -> word 64 d2 ->
  number_test JS_EQ_SAME_VALUE_ZERO d1 d2 = bool_decide (canonical_double d1 = canonical_double d2).
Proof.
  intros H1 H2. unfold number_test, double_eq, canonical_double. cbn [at_least_same_value].
  assert (Hn : forall d, isnan d = false -> JS_FLOAT64_NAN <> d) by (intros d Hd <-; by vm_compute in Hd).
  assert (Hz : JS_FLOAT64_NAN <> 0) by (by vm_compute).
  destruct (isnan d1) eqn:E1, (isnan d2) eqn:E2; cbn [orb negb andb eqb]; symmetry.
  - by apply bool_decide_eq_true.
  - apply bool_decide_eq_false. destruct (is_zero d2); auto.
  - apply bool_decide_eq_false. destruct (is_zero d1); [auto|]. intros E. by apply (Hn d1).
  - destruct (is_zero d1) eqn:Z1, (is_zero d2) eqn:Z2; cbn [andb orb].
    + rewrite orb_true_r. by apply bool_decide_eq_true.
    + rewrite orb_false_r. assert (d1 <> d2) by congruence. rewrite (proj2 (Z.eqb_neq _ _)) by done.
      apply bool_decide_eq_false. intros <-. discriminate.
    + rewrite orb_false_r. assert (d1 <> d2) by congruence. rewrite (proj2 (Z.eqb_neq _ _)) by done.
      apply bool_decide_eq_false. intros ->. discriminate.
    + rewrite orb_false_r. destruct (Z.eqb_spec d1 d2); [by apply bool_decide_eq_true|by apply bool_decide_eq_false].
Qed.

(** An integer of 32 bits converts to a number, and only 0 to a zero. *)
Lemma nearest_int i : sword 32 i ->
  word 64 (nearest i) /\ isnan (nearest i) = false /\ (is_zero (nearest i) = true -> nearest i = 0).
Proof.
  unfold sword. intros Hi. unfold nearest. destruct (Z.eqb_spec i 0) as [->|Hn]; [by vm_compute|].
  set (a := Z.abs i). assert (Ha : 0 < a <= 2 ^ 31) by lia.
  assert (He : 0 <= Z.log2 a <= 31).
  { split; [apply Z.log2_nonneg|]. change 31 with (Z.log2 (2 ^ 31)). apply Z.log2_le_mono; lia. }
  unfold nearest_abs. rewrite (proj2 (Z.leb_le _ _)) by lia.
  destruct (Z.log2_spec a (proj1 Ha)) as [Hl Hu].
  assert (Hm : 2 ^ 52 <= a * 2 ^ (52 - Z.log2 a) < 2 * 2 ^ 52).
  { assert (E : 2 ^ 52 = 2 ^ Z.log2 a * 2 ^ (52 - Z.log2 a)) by (rewrite <- Z.pow_add_r by lia; f_equal; lia).
    rewrite Z.pow_succ_r in Hu by lia. pose proof (pow2_pos (52 - Z.log2 a) ltac:(lia)). nia. }
  set (m := a * 2 ^ (52 - Z.log2 a)) in *. set (e := Z.log2 a) in *. clearbody m e.
  set (s := b2z (i <? 0)). assert (Hs : 0 <= s <= 1) by (unfold s; destruct (i <? 0); cbn; lia). clearbody s.
  rewrite Z.min_l by (unfold f_infinity; lia).
  destruct (f_make s (e + 1023) (m - 2 ^ 52) Hs ltac:(lia) ltac:(lia)) as (Hw & _ & Hexp & _).
  replace (s * 2 ^ 63 + (e + 1023) * 2 ^ 52 + (m - 2 ^ 52)) with (s * 2 ^ 63 + ((e + 1022) * 2 ^ 52 + m)) in * by ring.
  split; [done|]. split.
  - unfold isnan. rewrite Hexp. by replace (e + 1023 =? 2047) with false by lia.
  - intros H0. apply is_zero_spec in H0; [|done]. lia.
Qed.

(** ** BigInts *)

(** A value has one normalized array. *)
Lemma bigint_unique a b : bigint_wf 64 a -> bigint_wf 64 b -> sval 64 a = sval 64 b -> a = b.
Proof.
  intros Ha Hb E. pose proof (wf_operand 64 a Ha) as Oa. pose proof (wf_operand 64 b Hb) as Ob.
  pose proof (longer_value 64 a b Oa Hb) as Hab.
  pose proof (longer_value 64 b a Ob Ha) as Hba.
  assert (Hl : length a = length b).
  { destruct (Nat.lt_trichotomy (length a) (length b)) as [Hl|[Hl|Hl]]; [|done|].
    - destruct (Hab Hl). lia.
    - destruct (Hba Hl). lia. }
  destruct Oa as [La Na], Ob as [Lb Nb]. apply (lval_inj 64); [lia|done|done|done|].
  rewrite (sval_lval 64 ltac:(lia) a), (sval_lval 64 ltac:(lia) b) by done. by rewrite E, Hl.
Qed.

Section laws.
Context {W : World} {Ip : InPlace}.

Lemma bigint_of_wf v : value_wf (JS_BigInt v) -> bigint_wf 64 (bigint_of v).
Proof.
  destruct v as [v|p]; [|done]. intros _. apply wf_single, wrap_range. lia.
Qed.

Lemma js_string_eq_text p1 p2 : js_string_eq p1 p2 = bool_decide (units p1 = units p2).
Proof.
  pose proof (memcmp_compare (units p1) (units p2)) as HM. cbv zeta in HM. unfold js_string_eq.
  rewrite <- (bool_decide_ext _ _ (units_compare_eq (units p1) (units p2))).
  destruct (Nat.eqb_spec (length (units p1)) (length (units p2))) as [El|El].
  - rewrite El, Nat.min_id in HM. rewrite El.
    destruct (Z.eqb_spec (js_string_memcmp (units p1) (units p2) (length (units p2))) 0) as [E0|E0];
      destruct (units_compare _ _); try done; cbn in HM; lia.
  - symmetry. apply bool_decide_eq_false. rewrite units_compare_eq. congruence.
Qed.

Lemma bigint_cmp_key a b : bigint_wf 64 a -> bigint_wf 64 b ->
  (js_bigint_cmp 64 a b =? 0) = bool_decide (sval 64 a = sval 64 b).
Proof.
  intros Ha Hb. rewrite (js_bigint_cmp_gen 64) by done.
  destruct (Z.compare_spec (sval 64 a) (sval 64 b)) as [E|E|E]; cbn; symmetry;
    [by apply bool_decide_eq_true|apply bool_decide_eq_false; lia..].
Qed.

(** Strings compare by their texts, flat or not. *)
Lemma string_eq_text s1 s2 : value_wf (JS_String s1) -> value_wf (JS_String s2) ->
  js_same_value_zero (JS_String s1) (JS_String s2) = Some (bool_decide (rope_text s1 = rope_text s2)).
Proof.
  intros [H1 D1] [H2 D2].
  assert (HR : (r ← js_string_rope_compare s1 s2 true; Some (r =? 0)) =
    Some (bool_decide (rope_text s1 = rope_text s2))).
  { destruct (js_string_rope_compare_spec s1 s2 H1 H2 D1 D2) as [_ (r & -> & Hr)]. cbn.
    rewrite <- (bool_decide_ext _ _ Hr). f_equal.
    destruct (Z.eqb_spec r 0); symmetry; [by apply bool_decide_eq_true|by apply bool_decide_eq_false]. }
  destruct s1 as [p1|], s2 as [p2|]; try exact HR. cbn. by rewrite js_string_eq_text.
Qed.

(** [js_same_value_zero] ends and decides whether two values denote the same key. *)
Lemma js_same_value_zero_spec a b : value_wf a -> value_wf b ->
  js_same_value_zero a b = Some (bool_decide (key_of a = key_of b)).
Proof.
  assert (Hinj : forall (T : Type) `{EqDecision T} (f : T -> Key) x y, Inj (=) (=) f ->
    bool_decide (f x = f y) = bool_decide (x = y)).
  { intros T ? f x y Hf. apply bool_decide_ext. split; [apply Hf|congruence]. }
  intros Ha Hb. destruct a, b; try done; try by destruct s.
  6: { rewrite string_eq_text by done. f_equal. symmetry. apply (Hinj _ _ KText). by intros ?? [= ->]. }
  all: cbn -[number_test nearest]; f_equal.
  all: rewrite ?(Hinj _ _ KBool), ?(Hinj _ _ KNumber), ?(Hinj _ _ KSymbol), ?(Hinj _ _ KObject), ?(Hinj _ _ KBigInt)
    by (by intros ?? [= ->]).
  - by destruct b, b0.
  - apply number_test_spec; by apply nearest_int.
  - apply number_test_spec; [by apply nearest_int|done].
  - apply number_test_spec; [done|by apply nearest_int].
  - by apply number_test_spec.
  - by destruct (Z.eqb_spec p p0); symmetry; [apply bool_decide_eq_true|apply bool_decide_eq_false].
  - by destruct (Z.eqb_spec p p0); symmetry; [apply bool_decide_eq_true|apply bool_decide_eq_false].
  - apply bigint_cmp_key; by apply bigint_of_wf.
Qed.

(** ** Hashes *)

Lemma map_normalize_key_wf a : value_wf a -> value_wf (map_normalize_key a).
Proof. destruct a as [| | | |d| | | |]; try done. cbn. by destruct (is_zero d). Qed.

Lemma map_normalize_key_of a : value_wf a -> key_of (map_normalize_key a) = key_of a.
Proof.
  destruct a as [| | | |d| | | |]; try done. intros Hd. cbn [map_normalize_key].
  destruct (is_zero d) eqn:E; [|done]. cbn [key_of]. unfold canonical_double at 2. rewrite E.
  destruct (isnan d) eqn:En; [|done]. by rewrite (nan_not_zero d Hd En) in E.
Qed.

Lemma shiftr_range a n w : word w a -> 0 <= n <= w -> 0 <= a >> (w - n) < 2 ^ n.
Proof.
  unfold word. intros Ha Hn. rewrite shiftr_div by lia. pose proof (pow2_pos (w - n) ltac:(lia)).
  split; [apply Z.div_pos; lia|]. apply Z.div_lt_upper_bound; [lia|].
  rewrite <- Z.pow_add_r by lia. replace (w - n + n) with w by lia. lia.
Qed.

Lemma map_hash32_range a n : 1 <= n <= 31 -> 0 <= map_hash32 a n < 2 ^ n.
Proof. intros. apply shiftr_range; [apply wrap_range|]; lia. Qed.

Lemma map_hash64_range a n : 1 <= n <= 31 -> 0 <= map_hash64 a n < 2 ^ n.
Proof.
  intros. unfold map_hash64. pose proof (shiftr_range (u64 (a * HASH_MUL64)) n 64 (wrap_range 64 _ ltac:(lia)) ltac:(lia)).
  pose proof (Z.pow_le_mono_r 2 n 31 ltac:(lia) ltac:(lia)). rewrite wrap_small; [lia|]. unfold word. lia.
Qed.

(** The index of a bucket is one of the table. *)
Lemma map_hash_key_range a n : 1 <= n <= 31 -> 0 <= map_hash_key a n < 2 ^ n.
Proof.
  intros Hn. pose proof (pow2_pos n ltac:(lia)).
  destruct a as [| | | | |[]| | |]; cbn [map_hash_key]; try lia;
    (by apply map_hash32_range) || (by apply map_hash64_range).
Qed.

Lemma hash_string_rope_text s : forall h, hash_string_rope s h = hash_string (rope_text s) h.
Proof.
  induction s as [p|? ? ? l IHl r IHr]; intros h; cbn [hash_string_rope rope_text]; [done|].
  unfold hash_string. rewrite foldl_app. by rewrite IHr, IHl.
Qed.

(** The hash of a normalized value, by what the value denotes. *)
Lemma map_hash_key_of a n : value_wf a ->
  match key_of a with
  | KBool b => map_hash_key (map_normalize_key a) n = map_hash32 (b2z b .^ JS_TAG_BOOL) n
  | KNumber d => map_hash_key (map_normalize_key a) n = map_hash64 (d .^ JS_TAG_FLOAT64) n
  | KText t => map_hash_key (map_normalize_key a) n = map_hash32 (hash_string t 0 .^ u32 JS_TAG_STRING) n
  | _ => True
  end.
Proof.
  destruct a as [| | |i|d|s| | |]; try done; intros Hw; cbn -[nearest map_hash64 map_hash32].
  - destruct (nearest_int i Hw) as (_ & Hn & Hz). unfold canonical_double. rewrite Hn.
    destruct (is_zero (nearest i)); [by rewrite Hz|done].
  - destruct (is_zero d) eqn:Ez; cbn -[nearest map_hash64].
    + unfold canonical_double. rewrite Ez. destruct (isnan d) eqn:En; [|done].
      by rewrite (nan_not_zero d Hw En) in Ez.
    + unfold canonical_double. by rewrite Ez.
  - destruct s as [p|]; [done|]. by rewrite hash_string_rope_text.
Qed.

(** Values that denote the same key have the same hash. *)
Lemma map_hash_key_same a b n : value_wf a -> value_wf b -> key_of a = key_of b ->
  map_hash_key (map_normalize_key a) n = map_hash_key (map_normalize_key b) n.
Proof.
  intros Ha Hb E. pose proof (map_hash_key_of a n Ha) as HA. pose proof (map_hash_key_of b n Hb) as HB.
  rewrite <- E in HB. destruct (key_of a) eqn:Ea; try (by rewrite HA, HB).
  all: destruct a; try discriminate Ea; destruct b; try discriminate E; cbn in Ea, E; try done.
  all: try congruence.
  cbn. do 3 f_equal. apply bigint_unique; [by apply bigint_of_wf..|congruence].
Qed.
End laws.
