(* ===== verification/JsMap.v ===== *)
(** * Map, Set, WeakMap and WeakSet

    The hash table of [src/quickjs/quickjs.c] behind the keyed collections
    ([JSMapState], [map_*], [js_map_*] and their iterators).  The records live in a
    heap: a pointer that is not in its domain is dangling, and every access through one
    makes the model return [None], as does a failed assertion or a loop that does not
    end, so that [Some] means that the C code runs without undefined behaviour.

    The abstract specification is the one of ECMAScript: a list of entries to which
    insertions append and in which deletions leave a hole, an iterator being an index in
    that list.  The code instead unlinks the deleted records, except the ones that an
    iterator has locked; the theorems show that no program can tell the difference. *)
From stdpp Require Export gmap.
From S2P Require Export LinkedList Engine.

(** What a collection needs from the JavaScript values: the equality of keys, their hash
    and its compatibility with the equality on normalized keys.  [MapKeys] translates the
    functions of the engine and [KeyedCollections] makes them the instance. *)
Class MapValue (val : Type) := {
  JS_UNDEFINED : val;
  map_normalize_key : val -> val;
  map_hash_key : val -> Z -> Z;
  js_same_value_zero : val -> val -> bool;
  js_weakref_is_target : val -> bool;
}.

Class MapValueLaws (val : Type) `{MapValue val} := {
  same_value_refl a : js_same_value_zero a a = true;
  same_value_sym a b : js_same_value_zero a b = js_same_value_zero b a;
  same_value_trans a b c :
    js_same_value_zero a b = true -> js_same_value_zero b c = true ->
    js_same_value_zero a c = true;
  normalize_same a b :
    js_same_value_zero (map_normalize_key a) b = js_same_value_zero a b;
  hash_range a n : 1 <= n <= 31 -> 0 <= map_hash_key a n < 2 ^ n;
  hash_same a b n :
    1 <= n <= 31 -> js_same_value_zero a b = true ->
    map_hash_key (map_normalize_key a) n = map_hash_key (map_normalize_key b) n;
  normalize_idem a : map_normalize_key (map_normalize_key a) = map_normalize_key a;
}.

(** [js_weakref_is_live]: the object that the key refers to is alive. *)
Class Liveness (val : Type) := js_weakref_is_live : val -> bool.

(** The places where the code drops a reference, and the iterators of the collection
    that each such release finalizes because it was their last reference. *)
Inductive site := AtSet | AtDelete | AtClear | AtForEachArgs | AtForEachResult.
Class Releases := dying : site -> nat -> list Z.

Inductive JSIteratorKindEnum :=
  | JS_ITERATOR_KIND_KEY | JS_ITERATOR_KIND_VALUE | JS_ITERATOR_KIND_KEY_AND_VALUE.

Section definitions.
Context {val : Type} `{MapValue val} {Lv : Liveness val} {W : World} {Al : Malloc}
  {Rl : Releases}.

Record JSMapRecord := mkRecord {
  mr_ref_count : Z;
  mr_empty : bool;
  mr_hash_next : option ptr;
  mr_key : val;
  mr_value : val
}.

(** [it_obj] is whether [it->obj] still is the collection. *)
Record JSMapIteratorData := mkIter {
  it_obj : bool;
  it_kind : JSIteratorKindEnum;
  it_cur_record : option ptr
}.

(** The state of the collection: [records] is the list through the [link] fields, [heap]
    the records that are allocated and [iters] the iterator objects that are alive; [ev]
    numbers the allocations and the releases. *)
Record JSMapState := mkMap {
  is_weak : bool;
  is_set : bool;
  records : list ptr;
  record_count : Z;
  hash_table : list (option ptr);
  hash_bits : Z;
  record_count_threshold : Z;
  heap : gmap ptr JSMapRecord;
  iters : gmap Z JSMapIteratorData;
  ev : nat
}.

Definition set_heap h s := mkMap (is_weak s) (is_set s) (records s) (record_count s)
  (hash_table s) (hash_bits s) (record_count_threshold s) h (iters s) (ev s).
Definition set_table t s := mkMap (is_weak s) (is_set s) (records s) (record_count s)
  t (hash_bits s) (record_count_threshold s) (heap s) (iters s) (ev s).
Definition set_iters i s := mkMap (is_weak s) (is_set s) (records s) (record_count s)
  (hash_table s) (hash_bits s) (record_count_threshold s) (heap s) i (ev s).
Definition set_count c s := mkMap (is_weak s) (is_set s) (records s) c
  (hash_table s) (hash_bits s) (record_count_threshold s) (heap s) (iters s) (ev s).
Definition tick s := mkMap (is_weak s) (is_set s) (records s) (record_count s)
  (hash_table s) (hash_bits s) (record_count_threshold s) (heap s) (iters s) (S (ev s)).

(** Field updates of a record. *)
Definition with_ref (r : JSMapRecord) n :=
  mkRecord n (mr_empty r) (mr_hash_next r) (mr_key r) (mr_value r).
Definition with_next (r : JSMapRecord) x :=
  mkRecord (mr_ref_count r) (mr_empty r) x (mr_key r) (mr_value r).
Definition with_value (r : JSMapRecord) v :=
  mkRecord (mr_ref_count r) (mr_empty r) (mr_hash_next r) (mr_key r) v.
Definition as_zombie (r : JSMapRecord) n :=
  mkRecord n true (mr_hash_next r) JS_UNDEFINED JS_UNDEFINED.

Definition write_record p r s := set_heap (<[p := r]> (heap s)) s.

(** The [hash_size] entries, all null. *)
Definition null_table (bits : Z) : list (option ptr) := replicate (Z.to_nat (2 ^ bits)) None.

(** The initialization in [js_map_constructor]. *)
Definition js_map_new (weak set : bool) : JSMapState :=
  mkMap weak set [] 0 (null_table 1) 1 4 ∅ ∅ 0.

Definition list_del (p : ptr) (s : JSMapState) : JSMapState :=
  mkMap (is_weak s) (is_set s) (filter (fun q => q <> p) (records s)) (record_count s)
    (hash_table s) (hash_bits s) (record_count_threshold s) (heap s) (iters s) (ev s).

(** [list_del] and [js_free_rt]. *)
Definition free_record (p : ptr) (s : JSMapState) : option JSMapState :=
  if decide (p ∈ records s)
  then Some (set_heap (delete p (heap s)) (list_del p s)) else None.

(** The record cannot match a key. *)
Definition cannot_match (s : JSMapState) (r : JSMapRecord) : bool :=
  mr_empty r || (is_weak s && negb (js_weakref_is_live (mr_key r))).

Fixpoint find_loop (fuel : nat) (s : JSMapState) (mr : option ptr) (key : val) :
    option (option ptr) :=
  match fuel, mr with
  | _, None => Some None
  | O, Some _ => None
  | S fuel, Some p =>
      r ← heap s !! p;
      if cannot_match s r then find_loop fuel s (mr_hash_next r) key
      else if js_same_value_zero (mr_key r) key then Some (Some p)
      else find_loop fuel s (mr_hash_next r) key
  end.

Definition map_find_record (s : JSMapState) (key : val) : option (option ptr) :=
  mr ← hash_table s !! Z.to_nat (map_hash_key key (hash_bits s));
  find_loop (size (heap s)) s mr key.

(** The [list_for_each] of [map_hash_resize]. *)
Fixpoint rehash (bits : Z) (l : list ptr) (t : list (option ptr)) (s : JSMapState) :
    option (list (option ptr) * JSMapState) :=
  match l with
  | [] => Some (t, s)
  | p :: l =>
      r ← heap s !! p;
      if cannot_match s r then rehash bits l t s
      else
        let h := Z.to_nat (map_hash_key (mr_key r) bits) in
        x ← t !! h;
        rehash bits l (<[h := Some p]> t) (write_record p (with_next r x) s)
  end.

Definition map_hash_resize (s : JSMapState) : option JSMapState :=
  let new_hash_bits := Z.min (hash_bits s + 1) 31 in
  if negb (ext_ok (ev s)) then Some (tick s)
  else
    let s := tick s in
    '(t, s) ← rehash new_hash_bits (records s) (null_table new_hash_bits) s;
    Some (mkMap (is_weak s) (is_set s) (records s) (record_count s)
      t new_hash_bits (wrap 32 (2 ^ new_hash_bits * 2)) (heap s) (iters s) (ev s)).

(** The callers write [mr->value] before anything reads it. *)
Definition map_add_record (s : JSMapState) (key value : val) :
    option (option ptr * JSMapState) :=
  if negb (ext_ok (ev s)) then Some (None, tick s)
  else
    let s := tick s in
    let mr := malloc (dom (heap s)) in
    let h := Z.to_nat (map_hash_key key (hash_bits s)) in
    x ← hash_table s !! h;
    let count := wrap 32 (record_count s + 1) in
    let s := mkMap (is_weak s) (is_set s) (records s ++ [mr]) count
      (<[h := Some mr]> (hash_table s)) (hash_bits s) (record_count_threshold s)
      (<[mr := mkRecord 1 false x key value]> (heap s)) (iters s) (ev s) in
    s ← (if record_count_threshold s <=? count then map_hash_resize s else Some s);
    Some (Some mr, s).

Definition map_decref_record (p : ptr) (s : JSMapState) : option JSMapState :=
  r ← heap s !! p;
  let n := mr_ref_count r - 1 in
  if n =? 0 then if mr_empty r then free_record p s else None
  else Some (write_record p (with_ref r n) s).

Definition js_map_iterator_finalizer (id : Z) (s : JSMapState) : option JSMapState :=
  match iters s !! id with
  | None => Some s
  | Some it =>
      s ← match it_obj it, it_cur_record it with
          | true, Some p => map_decref_record p s
          | _, _ => Some s
          end;
      Some (set_iters (delete id (iters s)) s)
  end.

Fixpoint finalize_all (ids : list Z) (s : JSMapState) : option JSMapState :=
  match ids with
  | [] => Some s
  | id :: ids => s ← js_map_iterator_finalizer id s; finalize_all ids s
  end.

(** [JS_FreeValueRT]: the release may finalize iterators of the collection at once. *)
Definition JS_FreeValueRT (at_ : site) (s : JSMapState) : option JSMapState :=
  finalize_all (dying at_ (ev s)) (tick s).

Definition map_delete_record_internal (at_ : site) (s : JSMapState) (mr : ptr) :
    option JSMapState :=
  r ← heap s !! mr;
  if mr_empty r then Some s
  else
    s ← (if is_weak s then Some s else JS_FreeValueRT at_ s);
    s ← JS_FreeValueRT at_ s;
    r ← heap s !! mr;
    let n := mr_ref_count r - 1 in
    s ← (if n =? 0 then free_record mr s else Some (write_record mr (as_zombie r n) s));
    Some (set_count (wrap 32 (record_count s - 1)) s).

(** [pmr]: the address of a table entry or of a field [hash_next]. *)
Inductive slot := Head (h : nat) | Next (p : ptr).

Definition write_slot (x : slot) (v : option ptr) (s : JSMapState) : option JSMapState :=
  match x with
  | Head h => Some (set_table (<[h := v]> (hash_table s)) s)
  | Next p => r ← heap s !! p; Some (write_record p (with_next r v) s)
  end.

(** The loop of [map_delete_record]: the slot that points to the record found. *)
Fixpoint delete_loop (fuel : nat) (s : JSMapState) (pmr : slot) (mr : option ptr)
    (key : val) : option (option (slot * ptr)) :=
  match fuel, mr with
  | _, None => Some None
  | O, Some _ => None
  | S fuel, Some p =>
      r ← heap s !! p;
      if cannot_match s r then delete_loop fuel s (Next p) (mr_hash_next r) key
      else if js_same_value_zero (mr_key r) key then Some (Some (pmr, p))
      else delete_loop fuel s (Next p) (mr_hash_next r) key
  end.

Definition map_delete_record (s : JSMapState) (key : val) : option (bool * JSMapState) :=
  let key := map_normalize_key key in
  let h := Z.to_nat (map_hash_key key (hash_bits s)) in
  mr ← hash_table s !! h;
  found ← delete_loop (size (heap s)) s (Head h) mr key;
  match found with
  | None => Some (false, s)
  | Some (pmr, mr) =>
      r ← heap s !! mr;
      s ← write_slot pmr (mr_hash_next r) s;
      s ← map_delete_record_internal AtDelete s mr;
      Some (true, s)
  end.

(** What an operation returns. *)
Inductive result :=
  | RThis
  | RValue (v : val)
  | RBool (b : bool)
  | RSize (n : Z)
  | RUndefined
  | RIterator (id : Z)
  | RNext (k : option val) (v : option val)
  | RDone
  | RTypeError
  | RThrown
  | ROutOfMemory.

Definition js_map_set (s : JSMapState) (key value : val) : option (result * JSMapState) :=
  let key := map_normalize_key key in
  if is_weak s && negb (js_weakref_is_target key) then Some (RTypeError, s)
  else
    let value := if is_set s then JS_UNDEFINED else value in
    mr ← map_find_record s key;
    match mr with
    | Some p =>
        s ← JS_FreeValueRT AtSet s;
        r ← heap s !! p;
        Some (RThis, write_record p (with_value r value) s)
    | None =>
        '(mr, s) ← map_add_record s key value;
        Some (match mr with Some _ => RThis | None => ROutOfMemory end, s)
    end.

Definition js_map_get (s : JSMapState) (key : val) : option (result * JSMapState) :=
  mr ← map_find_record s (map_normalize_key key);
  match mr with
  | None => Some (RUndefined, s)
  | Some p => r ← heap s !! p; Some (RValue (mr_value r), s)
  end.

Definition js_map_has (s : JSMapState) (key : val) : option (result * JSMapState) :=
  mr ← map_find_record s (map_normalize_key key);
  Some (RBool (bool_decide (is_Some mr)), s).

Definition js_map_delete (s : JSMapState) (key : val) : option (result * JSMapState) :=
  '(b, s) ← map_delete_record s key; Some (RBool b, s).

Definition js_map_get_size (s : JSMapState) : option (result * JSMapState) :=
  Some (RSize (record_count s), s).

(** [list_for_each_safe] in [js_map_clear]: [el1] is read before [el] is deleted. *)
Fixpoint clear_loop (fuel : nat) (s : JSMapState) (el el1 : option ptr) :
    option JSMapState :=
  match fuel, el with
  | _, None => Some s
  | O, Some _ => None
  | S fuel, Some mr =>
      s ← map_delete_record_internal AtClear s mr;
      match el1 with
      | None => Some s
      | Some q => el2 ← next_in (records s) q; clear_loop fuel s (Some q) el2
      end
  end.

Definition js_map_clear (s : JSMapState) : option (result * JSMapState) :=
  let s := set_table (null_table (hash_bits s)) s in
  match head (records s) with
  | None => Some (RUndefined, s)
  | Some el =>
      el1 ← next_in (records s) el;
      s ← clear_loop (length (records s)) s (Some el) el1;
      Some (RUndefined, s)
  end.

(** ** Iterators *)

Definition js_create_map_iterator (s : JSMapState) (kind : JSIteratorKindEnum) :
    option (result * JSMapState) :=
  if negb (ext_ok (ev s)) then Some (ROutOfMemory, tick s)
  else
    let id := fresh (dom (iters s)) in
    Some (RIterator id, tick (set_iters (<[id := mkIter true kind None]> (iters s)) s)).

Fixpoint skip_empty (fuel : nat) (s : JSMapState) (el : option ptr) :
    option (option ptr) :=
  match fuel, el with
  | _, None => Some None
  | O, Some _ => None
  | S fuel, Some mr =>
      r ← heap s !! mr;
      if mr_empty r then el ← next_in (records s) mr; skip_empty fuel s el
      else Some (Some mr)
  end.

(** What the iterator hands out for an entry. *)
Definition iterator_result (set : bool) (kind : JSIteratorKindEnum) (k v : val) : result :=
  let v := if set then k else v in
  match kind with
  | JS_ITERATOR_KIND_KEY => RNext (Some k) None
  | JS_ITERATOR_KIND_VALUE => RNext None (Some v)
  | JS_ITERATOR_KIND_KEY_AND_VALUE => RNext (Some k) (Some v)
  end.

Definition js_map_iterator_next (s : JSMapState) (id : Z) : option (result * JSMapState) :=
  match iters s !! id with
  | None => Some (RTypeError, s)
  | Some it =>
      if negb (it_obj it) then Some (RDone, s)
      else
        '(el, s) ← match it_cur_record it with
                   | None => Some (head (records s), s)
                   | Some mr =>
                       el ← next_in (records s) mr;
                       s ← map_decref_record mr s;
                       Some (el, s)
                   end;
        el ← skip_empty (length (records s)) s el;
        match el with
        | None => Some (RDone, set_iters (<[id := mkIter false (it_kind it) None]> (iters s)) s)
        | Some mr =>
            r ← heap s !! mr;
            let s := write_record mr (with_ref r (mr_ref_count r + 1)) s in
            let s := set_iters (<[id := mkIter true (it_kind it) (Some mr)]> (iters s)) s in
            let res := iterator_result (is_set s) (it_kind it) (mr_key r) (mr_value r) in
            Some match it_kind it with
                 | JS_ITERATOR_KIND_KEY_AND_VALUE =>
                     (if ext_ok (ev s) then res else ROutOfMemory, tick s)
                 | _ => (res, s)
                 end
        end
  end.

(** The loop of [js_map_forEach]; [call] is the callback, which acts on the collection
    and may throw.  The outer option is the one of all operations, the inner one is
    [None] when [fuel] iterations did not reach the end. *)
Fixpoint forEach_loop (call : val -> val -> JSMapState -> option (bool * JSMapState))
    (fuel : nat) (el : option ptr) (s : JSMapState) : option (option bool * JSMapState) :=
  match fuel, el with
  | _, None => Some (Some true, s)
  | O, Some _ => Some (None, s)
  | S fuel, Some mr =>
      r ← heap s !! mr;
      if negb (mr_empty r) then
        let s := write_record mr (with_ref r (mr_ref_count r + 1)) s in
        '(ok, s) ← call (if is_set s then mr_key r else mr_value r) (mr_key r) s;
        s ← JS_FreeValueRT AtForEachArgs s;
        s ← (if is_set s then Some s else JS_FreeValueRT AtForEachArgs s);
        el ← next_in (records s) mr;
        s ← map_decref_record mr s;
        if negb ok then Some (Some false, s)
        else s ← JS_FreeValueRT AtForEachResult s; forEach_loop call fuel el s
      else
        el ← next_in (records s) mr;
        forEach_loop call fuel el s
  end.

Definition js_map_forEach call (fuel : nat) (s : JSMapState) :
    option (option bool * JSMapState) :=
  forEach_loop call fuel (head (records s)) s.

(** [js_map_getOrInsert]; [call] is the callback of the computed variant. *)
Definition js_map_getOrInsert (s : JSMapState) (key : val)
    (call : val + (val -> JSMapState -> option (option val * JSMapState))) :
    option (result * JSMapState) :=
  let key := map_normalize_key key in
  if is_weak s && negb (js_weakref_is_target key) then Some (RTypeError, s)
  else
    mr ← map_find_record s key;
    match mr with
    | Some p => r ← heap s !! p; Some (RValue (mr_value r), s)
    | None =>
        '(value, s) ← match call with
                      | inl v => Some (Some v, s)
                      | inr f =>
                          '(v, s) ← f key s;
                          match v with
                          | None => Some (None, s)
                          | Some v => '(_, s) ← map_delete_record s key; Some (Some v, s)
                          end
                      end;
        match value with
        | None => Some (RThrown, s)
        | Some value =>
            '(mr, s) ← map_add_record s key value;
            match mr with
            | Some _ => Some (RValue value, s)
            | None => s ← JS_FreeValueRT AtSet s; Some (ROutOfMemory, s)
            end
        end
    end.

(** ** Weak collections *)

(** The search in [map_delete_weakrefs] for the slot of the record [mr]. *)
Fixpoint unlink_loop (fuel : nat) (s : JSMapState) (pmr : slot) (mr1 : option ptr)
    (mr : ptr) : option JSMapState :=
  match fuel, mr1 with
  | _, None => Some s
  | O, Some _ => None
  | S fuel, Some p =>
      r ← heap s !! p;
      if decide (p = mr) then write_slot pmr (mr_hash_next r) s
      else unlink_loop fuel s (Next p) (mr_hash_next r) mr
  end.

Fixpoint weakrefs_loop (fuel : nat) (s : JSMapState) (el el1 : option ptr) :
    option JSMapState :=
  match fuel, el with
  | _, None => Some s
  | O, Some _ => None
  | S fuel, Some mr =>
      r ← heap s !! mr;
      s ← (if negb (js_weakref_is_live (mr_key r)) then
             let h := Z.to_nat (map_hash_key (mr_key r) (hash_bits s)) in
             mr1 ← hash_table s !! h;
             s ← unlink_loop (size (heap s)) s (Head h) mr1 mr;
             map_delete_record_internal AtDelete s mr
           else Some s);
      match el1 with
      | None => Some s
      | Some q => el2 ← next_in (records s) q; weakrefs_loop fuel s (Some q) el2
      end
  end.

Definition map_delete_weakrefs (s : JSMapState) : option JSMapState :=
  match head (records s) with
  | None => Some s
  | Some el =>
      el1 ← next_in (records s) el;
      weakrefs_loop (length (records s)) s (Some el) el1
  end.
End definitions.

Arguments JSMapRecord : clear implicits.
Arguments JSMapState : clear implicits.
Arguments result : clear implicits.
