(* ===== verification/JsMapRefine.v ===== *)
(** * The keyed collections refine their ECMAScript specification

    The specification of ECMAScript for the operations of [JsMap], the representation
    relation between the hash table and the list of entries, and the simulation. *)
From S2P Require Export JsMap.

(** ** The specification

    [sp_data] is the list [[MapData]]: an entry is set to empty when it is deleted and
    never removed.  An iterator is an index in it, [None] when it is exhausted. *)
Section spec.
Context {val : Type} `{MapValue val}.

Abbreviation entry := (option (val * val)).

Record MapSpec := mkSpec {
  sp_data : list entry;
  sp_iters : gmap Z (JSIteratorKindEnum * option nat)
}.

Definition has_key (k : val) (e : entry) : bool :=
  match e with Some (k', _) => js_same_value_zero k' k | None => false end.

Definition spec_find (d : list entry) (k : val) : option nat :=
  fst <$> list_find (fun e => has_key k e = true) d.

Fixpoint first_live (d : list entry) (j : nat) : option (nat * (val * val)) :=
  match d with
  | [] => None
  | Some kv :: _ => Some (j, kv)
  | None :: d => first_live d (S j)
  end.
Definition spec_next (d : list entry) (i : nat) := first_live (drop i d) i.

Definition spec_size (d : list entry) : Z := len (omap id d).

Inductive op :=
  | OpSet (k v : val)
  | OpGet (k : val)
  | OpHas (k : val)
  | OpDelete (k : val)
  | OpClear
  | OpSize
  | OpGetOrInsert (k v : val)
  | OpIterator (kind : JSIteratorKindEnum)
  | OpNext (id : Z)
  | OpFinalize (id : Z).

Definition sp_set (set : bool) (k v : val) (A : MapSpec) : MapSpec :=
  let v := if set then JS_UNDEFINED else v in
  match spec_find (sp_data A) k with
  | Some i => mkSpec (alter (fmap (fun kv => (kv.1, v))) i (sp_data A)) (sp_iters A)
  | None => mkSpec (sp_data A ++ [Some (map_normalize_key k, v)]) (sp_iters A)
  end.

Definition sp_get (k : val) (A : MapSpec) : option val :=
  i ← spec_find (sp_data A) k; kv ← sp_data A !! i; snd <$> kv.

(** One operation; [new_id] names the iterator it creates. *)
Definition spec_op (set : bool) (new_id : Z) (o : op) (A : MapSpec) : result val * MapSpec :=
  match o with
  | OpSet k v => (RThis, sp_set set k v A)
  | OpGet k => (if sp_get k A is Some v then RValue v else RUndefined, A)
  | OpHas k => (RBool (bool_decide (is_Some (spec_find (sp_data A) k))), A)
  | OpDelete k =>
      match spec_find (sp_data A) k with
      | Some i => (RBool true, mkSpec (<[i := None]> (sp_data A)) (sp_iters A))
      | None => (RBool false, A)
      end
  | OpClear => (RUndefined, mkSpec ((fun _ => None) <$> sp_data A) (sp_iters A))
  | OpSize => (RSize (wrap 32 (spec_size (sp_data A))), A)
  | OpGetOrInsert k v =>
      match sp_get k A with
      | Some v => (RValue v, A)
      | None => (RValue v, mkSpec (sp_data A ++ [Some (map_normalize_key k, v)]) (sp_iters A))
      end
  | OpIterator kind =>
      (RIterator new_id, mkSpec (sp_data A) (<[new_id := (kind, Some 0%nat)]> (sp_iters A)))
  | OpNext id =>
      match sp_iters A !! id with
      | None => (RTypeError, A)
      | Some (_, None) => (RDone, A)
      | Some (kind, Some i) =>
          match spec_next (sp_data A) i with
          | Some (j, (k, v)) =>
              (iterator_result set kind k v,
               mkSpec (sp_data A) (<[id := (kind, Some (S j))]> (sp_iters A)))
          | None => (RDone, mkSpec (sp_data A) (<[id := (kind, None)]> (sp_iters A)))
          end
      end
  | OpFinalize id => (RUndefined, mkSpec (sp_data A) (delete id (sp_iters A)))
  end.

(** [Map.prototype.forEach] with a callback that acts as [call]. *)
Inductive spec_forEach (set : bool) (call : val -> val -> MapSpec -> bool -> MapSpec -> Prop) :
    nat -> MapSpec -> bool -> MapSpec -> Prop :=
  | forEach_end i A : spec_next (sp_data A) i = None -> spec_forEach set call i A true A
  | forEach_throw i A j k v A' :
      spec_next (sp_data A) i = Some (j, (k, v)) ->
      call (if set then k else v) k A false A' -> spec_forEach set call i A false A'
  | forEach_step i A j k v A1 b A2 :
      spec_next (sp_data A) i = Some (j, (k, v)) ->
      call (if set then k else v) k A true A1 ->
      spec_forEach set call (S j) A1 b A2 -> spec_forEach set call i A b A2.
End spec.

Arguments MapSpec : clear implicits.
Arguments op : clear implicits.

(** The code of an operation. *)
Definition run_op {val} `{MapValue val} {Lv : Liveness val} {W : World} {Al : Malloc}
    {Rl : Releases} (o : op val) (s : JSMapState val) : option (result val * JSMapState val) :=
  match o with
  | OpSet k v => js_map_set s k v
  | OpGet k => js_map_get s k
  | OpHas k => js_map_has s k
  | OpDelete k => js_map_delete s k
  | OpClear => js_map_clear s
  | OpSize => js_map_get_size s
  | OpGetOrInsert k v => js_map_getOrInsert s k (inl v)
  | OpIterator kind => js_create_map_iterator s kind
  | OpNext id => js_map_iterator_next s id
  | OpFinalize id => (pair RUndefined) <$> js_map_iterator_finalizer id s
  end.

(** ** The representation *)
Section rep.
Context {val : Type} `{MapValue val} {Lv : Liveness val}.

Abbreviation entry := (option (val * val)).
Abbreviation ghost := (list (option ptr * entry)).

(** The records that [x] reaches through [hash_next]. *)
Fixpoint chain (h : gmap ptr (JSMapRecord val)) (x : option ptr) (l : list ptr) : Prop :=
  match l with
  | [] => x = None
  | p :: l => x = Some p /\ exists r, h !! p = Some r /\ chain h (mr_hash_next r) l
  end.

(** The hash table: the chains hold exactly the records that can match a key, except the
    ones in [X], which have been unlinked. *)
Record table_ok (X : list ptr) (s : JSMapState val) : Prop := {
  tb_bits : 1 <= hash_bits s <= 31;
  tb_length : length (hash_table s) = Z.to_nat (2 ^ hash_bits s);
  tb_keys p r : heap s !! p = Some r -> mr_empty r = false ->
    map_normalize_key (mr_key r) = mr_key r;
  tb_chains : exists C : nat -> list ptr,
    (forall h x, hash_table s !! h = Some x -> chain (heap s) x (C h)) /\
    (forall h, NoDup (C h)) /\
    (forall h p, p ∈ C h -> (p ∉ X) /\ exists r, heap s !! p = Some r /\
      mr_empty r = false /\ Z.to_nat (map_hash_key (mr_key r) (hash_bits s)) = h) /\
    (forall p r, heap s !! p = Some r -> cannot_match s r = false -> p ∉ X ->
      p ∈ C (Z.to_nat (map_hash_key (mr_key r) (hash_bits s))))
}.

(** The iterators locked on [p]. *)
Definition locks_on (p : ptr) (it : JSMapIteratorData) : Z :=
  if it_obj it && bool_decide (it_cur_record it = Some p) then 1 else 0.
Definition cursors (p : ptr) (m : gmap Z JSMapIteratorData) : Z :=
  map_fold (fun _ it n => locks_on p it + n) 0 m.

Definition occurrences (p : ptr) (L : list ptr) : Z := Z.of_nat (count_occ Z.eq_dec L p).

(** An entry of the specification and its record, if the record still is allocated. *)
Definition entry_ok (h : gmap ptr (JSMapRecord val)) (x : option ptr * entry) : Prop :=
  match x with
  | (Some p, Some (k, v)) =>
      exists r, h !! p = Some r /\ mr_empty r = false /\ mr_key r = k /\ mr_value r = v
  | (Some p, None) => exists r, h !! p = Some r /\ mr_empty r = true
  | (None, None) => True
  | (None, Some _) => False
  end.

Definition position (G : ghost) (p : ptr) (i : nat) : Prop :=
  exists e, G !! i = Some (Some p, e).

Definition iter_ok (G : ghost) (it : JSMapIteratorData)
    (x : option (JSIteratorKindEnum * option nat)) : Prop :=
  exists pos, x = Some (it_kind it, pos) /\
  match it_obj it, it_cur_record it with
  | false, None => pos = None
  | true, None => pos = Some 0%nat
  | true, Some p => exists i, position G p i /\ pos = Some (S i)
  | false, Some _ => False
  end.

(** The collection [s] represents [A]; [G] gives the record of each entry and [L] the
    records that loops in progress have locked. *)
Record rep (X L : list ptr) (G : ghost) (s : JSMapState val) (A : MapSpec val) : Prop := {
  rp_strong : is_weak s = false;
  rp_table : table_ok X s;
  rp_records : records s = omap fst G;
  rp_nodup : NoDup (records s);
  rp_data : map snd G = sp_data A;
  rp_entries : Forall (entry_ok (heap s)) G;
  rp_heap p : is_Some (heap s !! p) -> p ∈ records s;
  rp_distinct p q r r' : heap s !! p = Some r -> heap s !! q = Some r' ->
    mr_empty r = false -> mr_empty r' = false ->
    js_same_value_zero (mr_key r) (mr_key r') = true -> p = q;
  rp_refs p : match heap s !! p with
    | Some r => mr_ref_count r =
        (if mr_empty r then 0 else 1) + cursors p (iters s) + occurrences p L /\
        0 < mr_ref_count r
    | None => cursors p (iters s) = 0 /\ occurrences p L = 0
    end;
  rp_iters id it : iters s !! id = Some it -> iter_ok G it (sp_iters A !! id);
  rp_count : record_count s = wrap 32 (spec_size (sp_data A))
}.
End rep.

(** Membership in a list that is written out. *)
Ltac elems := rewrite ?elem_of_app, ?elem_of_cons in *; tauto.

(** ** Chains and the hash table *)
Section table.
Context {val : Type} `{HV : MapValue val} `{HL : !MapValueLaws val} {Lv : Liveness val}.
Implicit Types (s : JSMapState val) (l : list ptr).

Lemma chain_some (h : gmap ptr (JSMapRecord val)) x l p : chain h x l -> p ∈ l -> is_Some (h !! p).
Proof.
  revert x. induction l as [|q l IH]; intros x Hc Hp; [by apply not_elem_of_nil in Hp|].
  destruct Hc as (-> & r & E & Hc). apply elem_of_cons in Hp as [->|Hp]; [done|by eapply IH].
Qed.

Lemma chain_ext (h h' : gmap ptr (JSMapRecord val)) x l :
  (forall p r, p ∈ l -> h !! p = Some r ->
     exists r', h' !! p = Some r' /\ mr_hash_next r' = mr_hash_next r) ->
  chain h x l -> chain h' x l.
Proof.
  revert x. induction l as [|q l IH]; intros x Hh Hc; [done|].
  destruct Hc as (-> & r & E & Hc). split; [done|].
  destruct (Hh q r (list_elem_of_here _ _) E) as (r' & E' & En). exists r'. split; [done|].
  rewrite En. apply IH; [|done]. intros p r1 Hp. apply Hh. by apply list_elem_of_further.
Qed.

Lemma chain_length (h : gmap ptr (JSMapRecord val)) x l : chain h x l -> NoDup l -> (length l <= size h)%nat.
Proof.
  intros Hc Hn. rewrite <- size_dom, <- (size_list_to_set (C := gset ptr) l) by done.
  apply subseteq_size. intros p Hp. apply elem_of_list_to_set in Hp. apply elem_of_dom.
  by eapply chain_some.
Qed.

(** The record at [p] matches [k]. *)
Definition hit s (k : val) (p : ptr) : Prop :=
  exists r, heap s !! p = Some r /\ cannot_match s r = false /\
    js_same_value_zero (mr_key r) k = true.

Lemma not_hit s k p r : heap s !! p = Some r ->
  cannot_match s r = true \/ js_same_value_zero (mr_key r) k = false -> ~ hit s k p.
Proof. intros E Hr (r' & E' & Hm & Hk). rewrite E in E'. injection E' as <-. destruct Hr; congruence. Qed.

Lemma find_loop_spec s k l : forall fuel x, chain (heap s) x l -> (length l <= fuel)%nat ->
  exists res, find_loop fuel s x k = Some res /\
    match res with Some p => p ∈ l /\ hit s k p | None => forall p, p ∈ l -> ~ hit s k p end.
Proof.
  induction l as [|q l IH]; intros fuel x Hc Hf.
  - cbn in Hc. subst x. exists None. split; [by destruct fuel|]. intros p Hp. by apply not_elem_of_nil in Hp.
  - destruct Hc as (-> & r & E & Hc). destruct fuel as [|fuel]; [cbn in Hf; lia|].
    cbn [find_loop]. rewrite E. cbn [mbind option_bind].
    assert (HIH : ~ hit s k q -> exists res, find_loop fuel s (mr_hash_next r) k = Some res /\
      match res with Some p => p ∈ q :: l /\ hit s k p | None => forall p, p ∈ q :: l -> ~ hit s k p end).
    { intros Hq. destruct (IH fuel _ Hc ltac:(cbn in Hf; lia)) as (res & -> & Hres).
      exists res. split; [done|]. destruct res as [p|].
      { destruct Hres. by split; [apply list_elem_of_further|]. }
      intros p Hp. apply elem_of_cons in Hp as [->|Hp]; [done|by apply Hres]. }
    destruct (cannot_match s r) eqn:Em; [apply HIH; eapply not_hit; eauto|].
    destruct (js_same_value_zero (mr_key r) k) eqn:Ek; [|apply HIH; eapply not_hit; eauto].
    exists (Some q). split; [done|]. split; [apply list_elem_of_here|]. by exists r.
Qed.

(** The slot that points to what follows [l1] in a chain that starts at [pmr]. *)
Definition slot_of (pmr : slot) (l1 : list ptr) : slot :=
  match last l1 with Some q => Next q | None => pmr end.

Lemma slot_of_cons pmr q l1 : slot_of pmr (q :: l1) = slot_of (Next q) l1.
Proof. unfold slot_of. rewrite last_cons. by destruct (last l1). Qed.

Lemma delete_loop_spec s k l : forall fuel pmr x, chain (heap s) x l -> (length l <= fuel)%nat ->
  exists res, delete_loop fuel s pmr x k = Some res /\
    match res with
    | Some (sl, p) => hit s k p /\ exists l1 l2, l = l1 ++ p :: l2 /\ sl = slot_of pmr l1
    | None => forall p, p ∈ l -> ~ hit s k p
    end.
Proof.
  induction l as [|q l IH]; intros fuel pmr x Hc Hf.
  - cbn in Hc. subst x. exists None. split; [by destruct fuel|]. intros p Hp. by apply not_elem_of_nil in Hp.
  - destruct Hc as (-> & r & E & Hc). destruct fuel as [|fuel]; [cbn in Hf; lia|].
    cbn [delete_loop]. rewrite E. cbn [mbind option_bind].
    assert (HIH : ~ hit s k q -> exists res, delete_loop fuel s (Next q) (mr_hash_next r) k = Some res /\
      match res with
      | Some (sl, p) => hit s k p /\ exists l1 l2, q :: l = l1 ++ p :: l2 /\ sl = slot_of pmr l1
      | None => forall p, p ∈ q :: l -> ~ hit s k p end).
    { intros Hq. destruct (IH fuel (Next q) _ Hc ltac:(cbn in Hf; lia)) as (res & -> & Hres).
      exists res. split; [done|]. destruct res as [[sl p]|].
      - destruct Hres as (Hp & l1 & l2 & -> & ->). split; [done|]. exists (q :: l1), l2.
        by rewrite slot_of_cons.
      - intros p Hp. apply elem_of_cons in Hp as [->|Hp]; [done|by apply Hres]. }
    destruct (cannot_match s r) eqn:Em; [apply HIH; eapply not_hit; eauto|].
    destruct (js_same_value_zero (mr_key r) k) eqn:Ek; [|apply HIH; eapply not_hit; eauto].
    exists (Some (pmr, q)). split; [done|]. split; [by exists r|]. by exists [], l.
Qed.

(** The bucket of a key exists. *)
Lemma table_slot X s k : table_ok X s -> exists x,
  hash_table s !! Z.to_nat (map_hash_key k (hash_bits s)) = Some x.
Proof.
  intros [Hb Hlen _ _]. apply lookup_lt_is_Some_2. rewrite Hlen.
  pose proof (hash_range k (hash_bits s) Hb). lia.
Qed.

Lemma hit_bucket (X : list ptr) s (C : nat -> list ptr) k p :
  1 <= hash_bits s <= 31 -> map_normalize_key k = k ->
  (forall p r, heap s !! p = Some r -> mr_empty r = false -> map_normalize_key (mr_key r) = mr_key r) ->
  (forall p r, heap s !! p = Some r -> cannot_match s r = false -> p ∉ X ->
      p ∈ C (Z.to_nat (map_hash_key (mr_key r) (hash_bits s)))) ->
  p ∉ X -> hit s k p -> p ∈ C (Z.to_nat (map_hash_key k (hash_bits s))).
Proof.
  intros Hb Hk Hkeys HC HX (r & E & Hm & Hs).
  replace (map_hash_key k (hash_bits s)) with (map_hash_key (mr_key r) (hash_bits s)).
  { eapply HC; eauto. }
  rewrite <- Hk, <- (Hkeys p r E). { by apply hash_same. }
  unfold cannot_match in Hm. by destruct (mr_empty r).
Qed.

(** [map_find_record] finds the record of the key. *)
Lemma map_find_spec s k : table_ok [] s -> map_normalize_key k = k ->
  exists res, map_find_record s k = Some res /\
    match res with Some p => hit s k p | None => forall p, ~ hit s k p end.
Proof.
  intros Ht Hk. destruct (table_slot _ s k Ht) as [x Ex].
  destruct Ht as [Hb Hlen Hkeys (C & HC & Hnd & Hin & Hall)].
  unfold map_find_record. rewrite Ex. cbn [mbind option_bind].
  pose proof (HC _ _ Ex) as Hch.
  destruct (find_loop_spec s k _ (size (heap s)) x Hch) as (res & -> & Hres).
  { by eapply chain_length. }
  exists res. split; [done|]. destruct res as [p|]; [apply Hres|].
  intros p Hp. apply (Hres p); [|done]. eapply (hit_bucket []); eauto. apply not_elem_of_nil.
Qed.

(** States that differ in the links of the hash table only. *)
Definition same_record (r r' : JSMapRecord val) : Prop :=
  mr_ref_count r' = mr_ref_count r /\ mr_empty r' = mr_empty r /\
  mr_key r' = mr_key r /\ mr_value r' = mr_value r.
Definition relinked s s' : Prop :=
  is_weak s' = is_weak s /\ is_set s' = is_set s /\ records s' = records s /\
  record_count s' = record_count s /\ iters s' = iters s /\
  forall p, option_Forall2 same_record (heap s !! p) (heap s' !! p).

Lemma relinked_table s t : relinked s (set_table t s).
Proof.
  repeat split; try done. intros p. cbn. destruct (heap s !! p); constructor. by repeat split.
Qed.

Lemma relinked_trans s1 s2 s3 : relinked s1 s2 -> relinked s2 s3 -> relinked s1 s3.
Proof.
  intros (A1 & A2 & A3 & A4 & A5 & A6) (B1 & B2 & B3 & B4 & B5 & B6).
  repeat split; try congruence. intros p. specialize (A6 p). specialize (B6 p).
  destruct A6 as [r r' HA|]; inversion B6 as [? r'' HB|]; subst; constructor.
  unfold same_record in *. intuition congruence.
Qed.

Lemma relinked_write s p r x : heap s !! p = Some r ->
  relinked s (write_record p (with_next r x) s).
Proof.
  intros E. repeat split; try done. intros q. cbn. destruct (decide (q = p)) as [->|Hq].
  - rewrite E, lookup_insert_eq. constructor. by repeat split.
  - rewrite lookup_insert_ne by done. destruct (heap s !! q); constructor. by repeat split.
Qed.

(** A record that is in no chain can be written. *)
Lemma chain_insert (h : gmap ptr (JSMapRecord val)) x l p r : p ∉ l -> chain h x l -> chain (<[p := r]> h) x l.
Proof.
  intros Hp. apply chain_ext. intros q r' Hq E. exists r'. rewrite lookup_insert_ne; [done|].
  by intros ->.
Qed.

(** Writing the link of the last record of [l1] splits the chain. *)
Lemma chain_unlink s C h x l1 p l2 r :
  hash_table s !! h = Some x -> chain (heap s) x (l1 ++ p :: l2) -> NoDup (l1 ++ p :: l2) ->
  heap s !! p = Some r ->
  (forall h' y, h' <> h -> hash_table s !! h' = Some y -> chain (heap s) y (C h') /\
     forall q, q ∈ l1 -> q ∉ C h') ->
  exists s' x', write_slot (slot_of (Head h) l1) (mr_hash_next r) s = Some s' /\
    hash_table s' = <[h := x']> (hash_table s) /\ hash_bits s' = hash_bits s /\ ev s' = ev s /\
    relinked s s' /\ chain (heap s') x' (l1 ++ l2) /\
    (forall h' y, h' <> h -> hash_table s !! h' = Some y -> chain (heap s') y (C h')).
Proof.
  intros Ex Hc Hnd E HC. destruct (last l1) as [q|] eqn:El; unfold slot_of; rewrite El.
  - apply last_Some in El as [l0 ->]. cbn [write_slot].
    assert (Hq : exists r0, heap s !! q = Some r0) by (eapply chain_some; [done|]; elems).
    destruct Hq as [r0 E0]. rewrite E0. cbn [mbind option_bind].
    eexists _, x. split; [done|]. cbn. rewrite (list_insert_id _ _ _ Ex).
    split_and!; try done; [by apply relinked_write| |].
    + clear HC Ex. revert x Hc. rewrite <- !app_assoc in *. cbn [app] in *.
      induction l0 as [|q0 l0 IH]; intros x Hc; cbn [app chain] in *.
      * destruct Hc as (-> & r1 & E1 & Enx & r2 & E2 & Hc). split; [done|].
        eexists. rewrite lookup_insert_eq. split; [done|]. cbn.
        assert (r2 = r) as -> by congruence.
        apply chain_insert; [|done]. apply NoDup_cons in Hnd as [Hnd _]. set_solver.
      * destruct Hc as (-> & r1 & E1 & Hc). apply NoDup_cons in Hnd as [Hq0 Hnd].
        split; [done|]. exists r1. rewrite lookup_insert_ne by set_solver. by auto.
    + intros h' y Hh Ey. destruct (HC h' y Hh Ey) as [Hy Hd]. apply chain_insert; [|done].
      apply Hd. elems.
  - apply last_None in El as ->. cbn [write_slot app] in *. destruct Hc as (-> & r1 & E1 & Hc).
    assert (r1 = r) as -> by congruence.
    eexists _, _. split; [done|]. cbn. split_and!; try done; [by apply relinked_table|].
    intros h' y Hh Ey. by apply HC.
Qed.

Lemma table_unlink X s k l1 p l2 r x :
  table_ok X s -> let h := Z.to_nat (map_hash_key k (hash_bits s)) in
  hash_table s !! h = Some x -> chain (heap s) x (l1 ++ p :: l2) -> heap s !! p = Some r ->
  exists s', write_slot (slot_of (Head h) l1) (mr_hash_next r) s = Some s' /\
    relinked s s' /\ table_ok (p :: X) s' /\ ev s' = ev s.
Proof.
  intros [Hb Hlen Hkeys (C & HC & Hnd & Hin & Hall)] h Ex Hc E.
  assert (EC : C h = l1 ++ p :: l2).
  { clear - HC Ex Hc. specialize (HC _ _ Ex). revert HC Hc. generalize (C h) as l, x.
    induction (l1 ++ p :: l2) as [|q l' IH]; intros [|q' l] y; cbn; try naive_solver.
    intros (-> & r1 & E1 & H1) (Ey & r2 & E2 & H2). injection Ey as ->.
    f_equal. eapply IH; [exact H1|]. congruence. }
  pose proof (Hnd h) as Hndh. rewrite EC in Hndh.
  destruct (chain_unlink s C h x l1 p l2 r Ex Hc Hndh E) as (s' & x' & Hw & Et & Eb & Ee & Hr & Hc' & Ho).
  { intros h' y Hh Ey. split; [by apply HC|]. intros q Hq Hq'.
    destruct (Hin h q) as (_ & r1 & E1 & _ & H1); [rewrite EC; elems|].
    destruct (Hin h' q Hq') as (_ & r2 & E2 & _ & H2). congruence. }
  exists s'. split; [done|]. split; [done|]. split; [|done].
  destruct Hr as (Hw' & _ & _ & _ & _ & Hheap).
  assert (Hback : forall q r', heap s' !! q = Some r' -> exists r0, heap s !! q = Some r0 /\ same_record r0 r').
  { intros q r' E'. specialize (Hheap q). rewrite E' in Hheap.
    inversion Hheap as [r0 ? Hs E0 |]; subst. by exists r0. }
  constructor; [by rewrite Eb|by rewrite Et, length_insert, Eb| |].
  - intros q r' E' He. destruct (Hback q r' E') as (r0 & E0 & _ & He0 & -> & _).
    apply (Hkeys q); congruence.
  - exists (fun h' => if decide (h' = h) then l1 ++ l2 else C h'). rewrite Eb, Et.
    assert (Hsub : forall h' q, (q ∈ if decide (h' = h) then l1 ++ l2 else C h') -> q ∈ C h' /\ q <> p).
    { intros h' q. destruct (decide (h' = h)) as [->|Hh'].
      - rewrite EC. intros Hq. split; [elems|]. intros ->.
        apply NoDup_app in Hndh as (_ & H1 & H2). apply NoDup_cons in H2 as [H2 _].
        specialize (H1 p). elems.
      - intros Hq. split; [done|]. intros ->. destruct (Hin h p) as (_ & r1 & E1 & _ & H1); [rewrite EC; elems|].
        destruct (Hin h' p Hq) as (_ & r2 & E2 & _ & H2). congruence. }
    split_and!.
    + intros h' y Ey. destruct (decide (h' = h)) as [->|Hh'].
      * rewrite list_lookup_insert_eq in Ey by (by eapply lookup_lt_Some). by injection Ey as <-.
      * rewrite list_lookup_insert_ne in Ey by done. by apply Ho.
    + intros h'. destruct (decide (h' = h)); [|done].
      eapply sublist_NoDup; [exact Hndh|]. apply sublist_app; [done|by apply sublist_cons].
    + intros h' q Hq. destruct (Hsub h' q Hq) as [Hq1 Hq2].
      destruct (Hin h' q Hq1) as (HX & r0 & E0 & He0 & Hh0). split; [elems|].
      specialize (Hheap q). rewrite E0 in Hheap. inversion Hheap as [? r' Hs E1 E2|]; subst.
      exists r'. destruct Hs as (_ & -> & -> & _). done.
    + intros q r' E' Hm HX. destruct (Hback q r' E') as (r0 & E0 & _ & He0 & Hk0 & _).
      unfold cannot_match in Hm. rewrite Hw', He0, Hk0 in Hm. rewrite Hk0.
      pose proof (Hall q r0 E0 Hm ltac:(elems)) as Hq.
      destruct (decide _) as [Hh|]; [|done]. rewrite Hh, EC in Hq. elems.
Qed.

(** Changes that keep the keys of the records that are not empty. *)
Lemma table_frame X s s' : table_ok X s ->
  is_weak s' = is_weak s -> hash_bits s' = hash_bits s -> hash_table s' = hash_table s ->
  (forall p r, heap s !! p = Some r -> mr_empty r = false -> p ∉ X ->
     exists r', heap s' !! p = Some r' /\ mr_empty r' = false /\ mr_key r' = mr_key r /\
       mr_hash_next r' = mr_hash_next r) ->
  (forall p r', heap s' !! p = Some r' -> mr_empty r' = false ->
     exists r, heap s !! p = Some r /\ mr_empty r = false /\ mr_key r' = mr_key r) ->
  table_ok X s'.
Proof.
  intros [Hb Hlen Hkeys (C & HC & Hnd & Hin & Hall)] Hw Eb Et Hf Hback.
  constructor; rewrite ?Eb, ?Et; try done.
  - intros p r' E' He. destruct (Hback p r' E' He) as (r & E & He0 & ->). by apply (Hkeys p).
  - exists C. split_and!; try done.
    + intros h x Ex. specialize (HC h x Ex). revert HC. apply chain_ext. intros p r Hp E.
      destruct (Hin h p Hp) as (HX & r0 & E0 & He & _). assert (r0 = r) as -> by congruence.
      destruct (Hf p r E He HX) as (r' & ? & _ & _ & ?). by exists r'.
    + intros h p Hp. destruct (Hin h p Hp) as (HX & r & E & He & Hh). split; [done|].
      destruct (Hf p r E He HX) as (r' & ? & ? & Hk & _). exists r'. by rewrite Hk.
    + intros p r' E' Hm HX. assert (He' : mr_empty r' = false) by (unfold cannot_match in Hm; by destruct (mr_empty r')).
      destruct (Hback p r' E' He') as (r & E & He & Hk). rewrite Hk.
      apply (Hall p r E); [|done]. unfold cannot_match in *. by rewrite Hw, He', Hk in Hm; rewrite He.
Qed.

(** A record that became empty needs no exception. *)
Lemma table_forget X s : table_ok X s ->
  (forall p r, p ∈ X -> heap s !! p = Some r -> mr_empty r = true) -> table_ok [] s.
Proof.
  intros [Hb Hlen Hkeys (C & HC & Hnd & Hin & Hall)] HX.
  constructor; try done. exists C. split_and!; try done.
  - intros h p Hp. destruct (Hin h p Hp) as (_ & Hr). split; [apply not_elem_of_nil|done].
  - intros p r E Hm _. apply (Hall p r E Hm). intros Hp.
    pose proof (HX p r Hp E) as He. unfold cannot_match in Hm. by rewrite He in Hm.
Qed.

Lemma table_null s X : 1 <= hash_bits s <= 31 -> hash_table s = null_table (hash_bits s) ->
  (forall p r, heap s !! p = Some r -> mr_empty r = false -> map_normalize_key (mr_key r) = mr_key r) ->
  (forall p r, heap s !! p = Some r -> cannot_match s r = false -> p ∈ X) -> table_ok X s.
Proof.
  intros Hb Et Hk HX. constructor; try done.
  - rewrite Et. unfold null_table. by rewrite length_replicate.
  - exists (fun _ => []). split_and!.
    + intros h x. rewrite Et. unfold null_table. intros Ex.
      by apply lookup_replicate in Ex as [-> _].
    + intros _. constructor.
    + intros h p Hp. by apply not_elem_of_nil in Hp.
    + intros p r E Hm Hp. by destruct Hp; eapply HX.
Qed.

(** The loop of [map_hash_resize]: [D] are the records already in the new table [t]. *)
Definition rehashed s (bits : Z) (t : list (option ptr)) (C : nat -> list ptr) (D : list ptr) : Prop :=
  (forall h x, t !! h = Some x -> chain (heap s) x (C h)) /\
  (forall h, NoDup (C h)) /\
  (forall h p, p ∈ C h <-> p ∈ D /\ exists r, heap s !! p = Some r /\
     cannot_match s r = false /\ Z.to_nat (map_hash_key (mr_key r) bits) = h).

Lemma rehash_spec bits l : 1 <= bits <= 31 -> forall t s C D,
  NoDup (D ++ l) -> (forall p, p ∈ l -> is_Some (heap s !! p)) ->
  length t = Z.to_nat (2 ^ bits) -> rehashed s bits t C D ->
  exists t' s' C', rehash bits l t s = Some (t', s') /\ relinked s s' /\ ev s' = ev s /\
    length t' = Z.to_nat (2 ^ bits) /\ rehashed s' bits t' C' (D ++ l).
Proof.
  intros Hb. induction l as [|p l IH]; intros t s C D Hnd Hsome Hlen (HC & HN & Hin).
  - exists t, s, C. split; [done|]. split; [destruct s; apply (relinked_table (mkMap _ _ _ _ _ _ _ _ _ _))|].
    rewrite app_nil_r. by split_and!.
  - destruct (Hsome p (list_elem_of_here _ _)) as [r E]. cbn [rehash]. rewrite E. cbn [mbind option_bind].
    assert (Hnd' : NoDup ((D ++ [p]) ++ l)) by (by rewrite <- app_assoc).
    assert (HpD : p ∉ D).
    { apply NoDup_app in Hnd as (_ & Hd & _). intros Hp. apply (Hd p Hp). elems. }
    destruct (cannot_match s r) eqn:Em.
    + destruct (IH t s C (D ++ [p]) Hnd') as (t' & s' & C' & IH'); [|done| |].
      * intros q Hq. apply Hsome. elems.
      * split_and!; try done. intros h q. rewrite Hin. split; [intros [? ?]; split; [elems|done]|].
        intros [Hq Hr]. split; [|done]. apply elem_of_app in Hq as [Hq|Hq]; [done|].
        apply list_elem_of_singleton in Hq as ->. destruct Hr as (r0 & E0 & Hm & _). congruence.
      * exists t', s', C'. by rewrite <- app_assoc in IH'.
    + set (h := Z.to_nat (map_hash_key (mr_key r) bits)).
      assert (Hh : (h < length t)%nat).
      { pose proof (hash_range (mr_key r) bits Hb). rewrite Hlen. lia. }
      destruct (lookup_lt_is_Some_2 t h Hh) as [x Ex]. rewrite Ex. cbn [mbind option_bind].
      set (s1 := write_record p (with_next r x) s).
      assert (HpC : forall h', p ∉ C h') by (intros h' Hp; apply Hin in Hp as [? _]; done).
      assert (Hlook : forall q, heap s1 !! q = (if decide (q = p) then Some (with_next r x) else heap s !! q)).
      { intros q. cbn. destruct (decide (q = p)) as [->|]; [by rewrite lookup_insert_eq|by rewrite lookup_insert_ne]. }
      destruct (IH (<[h := Some p]> t) s1 (fun h' => if decide (h' = h) then p :: C h else C h') (D ++ [p]) Hnd')
        as (t' & s' & C' & E' & Hr' & He' & Hl' & Hc').
      * intros q Hq. rewrite Hlook. destruct (decide (q = p)); [by eexists|]. apply Hsome. elems.
      * by rewrite length_insert.
      * split_and!.
        -- intros h' y Ey. destruct (decide (h' = h)) as [->|Hne].
           ++ rewrite list_lookup_insert_eq in Ey by done. injection Ey as <-. split; [done|].
              exists (with_next r x). rewrite Hlook, decide_True by done. split; [done|].
              apply chain_insert; [apply HpC|by apply HC].
           ++ rewrite list_lookup_insert_ne in Ey by done. apply chain_insert; [apply HpC|by apply HC].
        -- intros h'. destruct (decide (h' = h)); [|done]. apply NoDup_cons. split; [apply HpC|done].
        -- intros h' q. rewrite Hlook. destruct (decide (q = p)) as [->|Hq].
           ++ split.
              ** destruct (decide (h' = h)) as [->|Hne]; [|intros Hp; by destruct (HpC h')].
                 intros _. split; [elems|]. by exists (with_next r x).
              ** intros (_ & r0 & E0 & _ & Hh0). injection E0 as <-. cbn in Hh0.
                 rewrite decide_True by (by rewrite <- Hh0). elems.
           ++ assert (Hst : (q ∈ if decide (h' = h) then p :: C h else C h') <-> q ∈ C h').
              { destruct (decide (h' = h)) as [->|]; [|done]. elems. }
              rewrite Hst, Hin. assert (Hqp : q ∈ D ++ [p] <-> q ∈ D).
              { rewrite elem_of_app, list_elem_of_singleton. tauto. }
              rewrite Hqp. done.
      * exists t', s', C'. rewrite <- app_assoc in Hc'. split_and!; try done.
        -- eapply relinked_trans; [by apply relinked_write|exact Hr'].
Qed.

Context {W : World}.

(** [map_hash_resize] keeps the collection, whether or not there is memory. *)
Lemma map_hash_resize_spec s : table_ok [] s -> NoDup (records s) ->
  (forall p, p ∈ records s <-> is_Some (heap s !! p)) ->
  exists s', map_hash_resize s = Some s' /\ relinked s s' /\ table_ok [] s'.
Proof.
  intros Ht Hnd Hrec. unfold map_hash_resize. destruct (negb (ext_ok (ev s))).
  { exists (tick s). split; [done|]. split; [apply (relinked_table (tick s) (hash_table s))|].
    by eapply table_frame; eauto. }
  pose proof Ht as [Hb Hlen Hkeys _].
  destruct (rehash_spec (Z.min (hash_bits s + 1) 31) (records s) ltac:(lia)
    (null_table (Z.min (hash_bits s + 1) 31)) (tick s) (fun _ => []) []) as (t & s1 & C & E & Hr & He & Hl & HC & HN & Hin).
  - done.
  - intros p Hp. by apply Hrec.
  - unfold null_table. by rewrite length_replicate.
  - split_and!; [|constructor|].
    + intros h x Ex. unfold null_table in Ex. by apply lookup_replicate in Ex as [-> _].
    + intros h p. split; [intros Hp; by apply not_elem_of_nil in Hp|].
      intros [Hp _]. by apply not_elem_of_nil in Hp.
  - cbn [records tick]. cbn [records tick] in E. rewrite E. cbn [mbind option_bind].
    eexists. split; [done|]. split; [exact Hr|].
    destruct Hr as (Hw & _ & Hrs & _ & _ & Hheap). cbn in Hw, Hrs.
    assert (Hback : forall q r', heap s1 !! q = Some r' -> exists r0, heap s !! q = Some r0 /\ same_record r0 r').
    { intros q r' E'. specialize (Hheap q). rewrite E' in Hheap.
      inversion Hheap as [r0 ? Hs E0 |]; subst. by exists r0. }
    constructor; cbn.
    + lia.
    + done.
    + intros p r E0 He0. destruct (Hback p r E0) as (r0 & E1 & _ & He1 & -> & _).
      apply (Hkeys p); congruence.
    + exists C. split_and!; try done.
      * intros h p Hp. apply Hin in Hp as (_ & r & E0 & Hm & Hh). split; [apply not_elem_of_nil|].
        exists r. split_and!; try done. unfold cannot_match in Hm. by destruct (mr_empty r).
      * intros p r E0 Hm _. apply Hin. split; [|by exists r].
        apply Hrec. destruct (Hback p r E0) as (r0 & E1 & _). by exists r0.
Qed.
End table.

(** ** Reference counts and positions *)
Section counting.
Context {val : Type}.
Abbreviation ghost := (list (option ptr * option (val * val))).

Lemma cursors_delete p m id it : m !! id = Some it ->
  cursors p m = locks_on p it + cursors p (delete id m).
Proof.
  intros E. unfold cursors.
  apply (map_fold_delete_L (fun _ it n => locks_on p it + n) 0 id it m); [intros; lia|done].
Qed.

Lemma cursors_insert p m id it :
  cursors p (<[id := it]> m) = locks_on p it + cursors p (delete id m).
Proof. rewrite (cursors_delete p _ id it) by apply lookup_insert_eq. by rewrite delete_insert_eq. Qed.

Lemma cursors_nonneg p m : 0 <= cursors p m.
Proof.
  unfold cursors. induction m as [|id it m E IH] using map_ind; [by rewrite map_fold_empty|].
  rewrite map_fold_insert_L by (try done; intros; lia). unfold locks_on at 1.
  destruct (_ && _); lia.
Qed.

Lemma cursors_pos p m id kind : m !! id = Some (mkIter true kind (Some p)) -> 1 <= cursors p m.
Proof.
  intros E. rewrite (cursors_delete p m id _ E). unfold locks_on. cbn.
  rewrite bool_decide_eq_true_2 by done. pose proof (cursors_nonneg p (delete id m)). lia.
Qed.

Lemma occurrences_cons p q L :
  occurrences p (q :: L) = (if decide (q = p) then 1 else 0) + occurrences p L.
Proof. unfold occurrences. cbn. destruct (Z.eq_dec q p), (decide (q = p)); try done; lia. Qed.

Lemma occurrences_nonneg p L : 0 <= occurrences p L.
Proof. unfold occurrences. lia. Qed.

(** [G'] is [G] after some records of deleted entries have been freed. *)
Definition shrinks (G G' : ghost) : Prop :=
  Forall2 (fun x y => y = x \/ (snd x = None /\ y = (None, None))) G G'.

Lemma shrinks_refl G : shrinks G G.
Proof. apply Forall_Forall2_diag, Forall_forall. by left. Qed.

Lemma shrinks_trans G1 G2 G3 : shrinks G1 G2 -> shrinks G2 G3 -> shrinks G1 G3.
Proof.
  intros HA. revert G3. induction HA as [|x y G1 G2 Hxy HA IH]; intros G3 HB.
  - done.
  - inversion HB as [|? z ? G3' Hyz HB']; subst. constructor; [|by apply IH].
    destruct Hxy as [->|[? ->]], Hyz as [->|[? ->]]; auto.
Qed.

Lemma shrinks_data G G' : shrinks G G' -> map snd G' = map snd G.
Proof.
  induction 1 as [|x y G G' Hxy HA IH]; [done|]. cbn. rewrite IH. f_equal.
  destruct Hxy as [->|[E ->]]; [done|]. by rewrite E.
Qed.

Lemma shrinks_live G G' i p kv : shrinks G G' -> G !! i = Some (p, Some kv) -> G' !! i = Some (p, Some kv).
Proof.
  intros HA E. destruct (Forall2_lookup_l _ _ _ _ _ HA E) as (y & E' & [->|[Hn _]]); [done|].
  discriminate.
Qed.

Lemma shrinks_position_back G G' p i : shrinks G G' -> position G' p i -> position G p i.
Proof.
  intros HA (e & E). destruct (Forall2_lookup_r _ _ _ _ _ HA E) as (x & E' & [Ey|[Hn Ey]]); [exists e; congruence|discriminate].
Qed.

Lemma position_in (G : ghost) p i : position G p i -> p ∈ omap fst G.
Proof.
  intros (e & E). apply list_elem_of_omap. exists (Some p, e). split; [by eapply list_elem_of_lookup_2|done].
Qed.

Lemma in_position (G : ghost) p : p ∈ omap fst G -> exists i, position G p i.
Proof.
  intros Hp. apply list_elem_of_omap in Hp as ([x e] & Hx & E). cbn in E. subst x.
  apply list_elem_of_lookup in Hx as [i E]. by exists i, e.
Qed.

Lemma position_unique (G : ghost) p i j : NoDup (omap fst G) -> position G p i -> position G p j -> i = j.
Proof.
  revert i j. induction G as [|[x e] G IH]; intros i j Hn [ei Ei] [ej Ej]; [done|].
  assert (HG : NoDup (omap fst G)) by (destruct x; [by apply NoDup_cons in Hn as [_ ?]|done]).
  destruct i as [|i], j as [|j]; [done| | |f_equal; apply IH; [done|by exists ei|by exists ej]].
  - cbn in Ei. injection Ei as -> ->. apply NoDup_cons in Hn as [Hn _]. destruct Hn.
    by apply (position_in G p j); exists ej.
  - cbn in Ej. injection Ej as -> ->. apply NoDup_cons in Hn as [Hn _]. destruct Hn.
    by apply (position_in G p i); exists ei.
Qed.

Lemma shrinks_position (G G' : ghost) p i : shrinks G G' -> NoDup (omap fst G) ->
  position G p i -> p ∈ omap fst G' -> position G' p i.
Proof.
  intros HA Hn Hi Hp. apply in_position in Hp as [j Hj].
  pose proof (shrinks_position_back _ _ _ _ HA Hj) as Hj'.
  by rewrite (position_unique _ _ _ _ Hn Hi Hj').
Qed.

(** Freeing the record [p]. *)
Definition reclaim (p : ptr) (G : ghost) : ghost :=
  (fun x => if decide (fst x = Some p) then (None, snd x) else x) <$> G.

Lemma reclaim_records p (G : ghost) :
  omap fst (reclaim p G) = filter (fun q => q <> p) (omap fst G).
Proof.
  unfold reclaim. induction G as [|[[q|] e] G IH]; csimpl; [done| |done].
  destruct (decide (Some q = Some p)) as [E|Hq]; csimpl.
  - injection E as ->. rewrite filter_cons_False by tauto. done.
  - rewrite filter_cons_True by congruence. by rewrite IH.
Qed.

Lemma reclaim_shrinks p (G : ghost) i : NoDup (omap fst G) -> G !! i = Some (Some p, None) ->
  shrinks G (reclaim p G).
Proof.
  intros Hn Ei. unfold reclaim, shrinks. apply Forall2_fmap_r, Forall2_same_length_lookup.
  split; [done|]. intros j x y Ex Ey. rewrite Ex in Ey. injection Ey as <-.
  cbn. destruct (decide (fst x = Some p)) as [Hx|]; [|by left]. destruct x as [x e]. cbn in Hx. subst x.
  assert (j = i) as -> by (eapply position_unique; [done|by exists e|by exists None]).
  rewrite Ei in Ex. injection Ex as <-. by right.
Qed.
End counting.

(** ** Steps that keep the entries *)
Section preserve.
Context {val : Type} `{HV : MapValue val} `{HL : !MapValueLaws val} {Lv : Liveness val}
  {W : World} {Al : Malloc} {Rl : Releases}.
Abbreviation ghost := (list (option ptr * option (val * val))).
Implicit Types (s : JSMapState val) (X L : list ptr) (G : ghost) (A : MapSpec val).

Lemma rep_relinked X X' L G s s' A :
  rep X L G s A -> relinked s s' -> table_ok X' s' -> rep X' L G s' A.
Proof.
  intros HR (Hw & Hset & Hrec & Hcnt & Hit & Hheap) Ht. destruct HR.
  assert (Hback : forall q r', heap s' !! q = Some r' -> exists r, heap s !! q = Some r /\ same_record r r').
  { intros q r' E'. specialize (Hheap q). rewrite E' in Hheap.
    inversion Hheap as [r0 ? Hs E0 |]; subst. by exists r0. }
  assert (Hfwd : forall q r, heap s !! q = Some r -> exists r', heap s' !! q = Some r' /\ same_record r r').
  { intros q r E'. specialize (Hheap q). rewrite E' in Hheap.
    inversion Hheap as [? r0 Hs E0 |]; subst. by exists r0. }
  constructor; rewrite ?Hw, ?Hrec, ?Hcnt, ?Hit; try done.
  - eapply Forall_impl; [done|]. intros [[p|] [[k v]|]]; cbn; try done.
    + intros (r & E & He & Hk & Hv). destruct (Hfwd p r E) as (r' & E' & _ & He' & Hk' & Hv').
      exists r'. split_and!; congruence.
    + intros (r & E & He). destruct (Hfwd p r E) as (r' & E' & _ & He' & _). exists r'. split; congruence.
  - intros p [r' E']. destruct (Hback p r' E') as (r & E & _). apply rp_heap0. by exists r.
  - intros p q r r' E E' He He'. destruct (Hback p r E) as (r1 & E1 & _ & He1 & -> & _).
    destruct (Hback q r' E') as (r2 & E2 & _ & He2 & -> & _). apply (rp_distinct0 p q r1 r2); congruence.
  - intros p. specialize (rp_refs0 p). specialize (Hheap p).
    destruct Hheap as [r r' (-> & -> & _)|]; done.
Qed.

(** A change of the reference counts, of the iterators and of the locks. *)
Lemma rep_recount X L L' G s A A' p r n m :
  rep X L G s A -> heap s !! p = Some r ->
  n = (if mr_empty r then 0 else 1) + cursors p m + occurrences p L' -> 0 < n ->
  (forall q, q <> p -> cursors q m = cursors q (iters s) /\ occurrences q L' = occurrences q L) ->
  (forall id it, m !! id = Some it -> iter_ok G it (sp_iters A' !! id)) ->
  sp_data A' = sp_data A ->
  rep X L' G (set_iters m (write_record p (with_ref r n) s)) A'.
Proof.
  intros HR E Hn Hpos Hq Hm HA. destruct HR.
  assert (Hlook : forall q, <[p := with_ref r n]> (heap s) !! q =
    (if decide (q = p) then Some (with_ref r n) else heap s !! q)).
  { intros q. destruct (decide (q = p)) as [->|]; [by rewrite lookup_insert_eq|by rewrite lookup_insert_ne]. }
  assert (Hfwd : forall q r0, heap s !! q = Some r0 -> exists r', <[p := with_ref r n]> (heap s) !! q = Some r' /\
    mr_empty r' = mr_empty r0 /\ mr_key r' = mr_key r0 /\ mr_value r' = mr_value r0 /\ mr_hash_next r' = mr_hash_next r0).
  { intros q r0 E0. rewrite Hlook. destruct (decide (q = p)) as [->|]; [|by exists r0].
    assert (r0 = r) as -> by congruence. by exists (with_ref r n). }
  assert (Hback : forall q r', <[p := with_ref r n]> (heap s) !! q = Some r' -> exists r0, heap s !! q = Some r0 /\
    mr_empty r' = mr_empty r0 /\ mr_key r' = mr_key r0).
  { intros q r'. rewrite Hlook. destruct (decide (q = p)) as [->|]; [|intros; by exists r'].
    intros [= <-]. by exists r. }
  constructor; cbn; rewrite ?HA; try done.
  - eapply table_frame; try done; cbn.
    + intros q r0 E0 He _. destruct (Hfwd q r0 E0) as (r' & E' & He' & ? & _ & ?). exists r'.
      split_and!; congruence.
    + intros q r' E' He. destruct (Hback q r' E') as (r0 & E0 & He' & ?). exists r0. split_and!; congruence.
  - eapply Forall_impl; [done|]. intros [[q|] [[k v]|]]; cbn; try done.
    + intros (r0 & E0 & He & Hk & Hv). destruct (Hfwd q r0 E0) as (r' & E' & He' & Hk' & Hv' & _).
      exists r'. split_and!; congruence.
    + intros (r0 & E0 & He). destruct (Hfwd q r0 E0) as (r' & E' & He' & _). exists r'. split; congruence.
  - intros q [r' E']. destruct (Hback q r' E') as (r0 & E0 & _). apply rp_heap0. by exists r0.
  - intros q q' r1 r2 E1 E2 He1 He2 Hs. destruct (Hback q r1 E1) as (r1' & E1' & ? & Hk1).
    destruct (Hback q' r2 E2) as (r2' & E2' & ? & Hk2). rewrite Hk1, Hk2 in Hs.
    apply (rp_distinct0 q q' r1' r2'); congruence.
  - intros q. rewrite Hlook. destruct (decide (q = p)) as [->|Hne]; [by split|].
    destruct (Hq q Hne) as [-> ->]. apply rp_refs0.
Qed.

Lemma set_iters_same s : set_iters (iters s) s = s.
Proof. by destruct s. Qed.

Lemma write_same s p r : heap s !! p = Some r -> write_record p r s = s.
Proof. intros E. unfold write_record, set_heap. rewrite insert_id by done. by destruct s. Qed.

Lemma with_ref_same (r : JSMapRecord val) : with_ref r (mr_ref_count r) = r.
Proof. by destruct r. Qed.

(** Locking a record. *)
Lemma rep_lock X L G s A p r : rep X L G s A -> heap s !! p = Some r ->
  rep X (p :: L) G (write_record p (with_ref r (mr_ref_count r + 1)) s) A.
Proof.
  intros HR E. rewrite <- (set_iters_same (write_record _ _ _)). cbn [iters write_record set_heap].
  pose proof (rp_refs _ _ _ _ _ HR p) as Hp. rewrite E in Hp.
  eapply rep_recount; try done.
  - rewrite occurrences_cons, decide_True by done. lia.
  - lia.
  - intros q Hq. by rewrite occurrences_cons, decide_False.
  - apply HR.
Qed.

(** [map_decref_record] gives up a lock; it never fails. *)
Lemma map_decref_record_frees X L G s A p : rep X (p :: L) G s A ->
  exists s' G', map_decref_record p s = Some s' /\ rep X L G' s' A /\ shrinks G G' /\
    iters s' = iters s /\ ev s' = ev s /\ is_set s' = is_set s /\ (G' = G \/ G' = reclaim p G).
Proof.
  intros HR. pose proof (rp_refs _ _ _ _ _ HR p) as Hp. unfold map_decref_record.
  rewrite occurrences_cons, decide_True in Hp by done.
  pose proof (cursors_nonneg p (iters s)) as Hc. pose proof (occurrences_nonneg p L) as Ho.
  destruct (heap s !! p) as [r|] eqn:E; [|lia]. cbn [mbind option_bind].
  destruct (Z.eqb_spec (mr_ref_count r - 1) 0) as [Hz|Hz].
  - destruct (mr_empty r) eqn:He; [|lia]. unfold free_record.
    rewrite decide_True by (eapply rp_heap; [done|by eexists]).
    exists (set_heap (delete p (heap s)) (list_del p s)), (reclaim p G).
    assert (Hpos : exists i, G !! i = Some (Some p, None)).
    { destruct HR. assert (Hp' : p ∈ records s) by (apply rp_heap0; by eexists).
      rewrite rp_records0 in Hp'. apply in_position in Hp' as (i & e & Ei). exists i. rewrite Ei.
      pose proof (Forall_lookup_1 _ _ _ _ rp_entries0 Ei) as He'. destruct e as [[k v]|]; [|done].
      cbn in He'. destruct He' as (r0 & E0 & He0 & _). congruence. }
    destruct Hpos as [i Ei]. destruct HR.
    assert (HS : shrinks G (reclaim p G)) by (eapply reclaim_shrinks; [by rewrite <- rp_records0|done]).
    split; [done|]. split; [|by auto 10]. constructor; cbn; try done.
    + eapply table_frame; try done; cbn.
      * intros q r0 E0 He0 _. rewrite lookup_delete_ne by congruence. by exists r0.
      * intros q r' E' He'. apply lookup_delete_Some in E' as [_ E']. by exists r'.
    + rewrite reclaim_records. by rewrite rp_records0.
    + by apply NoDup_filter.
    + by rewrite (shrinks_data _ _ HS).
    + apply Forall_fmap, Forall_forall. intros [[q|] e] Hx; pose proof (Forall_forall (entry_ok (heap s)) G) as [HF _];
        specialize (HF rp_entries0 _ Hx).
      * cbn. destruct (decide (Some q = Some p)) as [[= ->]|Hq]; cbn.
        -- destruct e as [[k v]|]; [|done]. cbn in HF. destruct HF as (r0 & E0 & He0 & _). congruence.
        -- cbn in HF. rewrite lookup_delete_ne by congruence. done.
      * done.
    + intros q [r' E']. apply lookup_delete_Some in E' as [Hq E']. apply list_elem_of_filter.
      split; [done|]. apply rp_heap0. by eexists.
    + intros q q' r1 r2 E1 E2. apply lookup_delete_Some in E1 as [_ E1], E2 as [_ E2].
      by apply (rp_distinct0 q q' r1 r2).
    + intros q. destruct (decide (q = p)) as [->|Hq].
      * rewrite lookup_delete_eq. lia.
      * rewrite lookup_delete_ne by done. specialize (rp_refs0 q).
        by rewrite occurrences_cons, decide_False in rp_refs0 by done.
    + intros id it Eit. destruct (rp_iters0 id it Eit) as (pos & -> & Hpos). exists pos. split; [done|].
      destruct it as [[] kind [q|]]; cbn in *; try done. destruct Hpos as (j & Hj & ->). exists j. split; [|done].
      eapply shrinks_position; [done|by rewrite <- rp_records0|done|].
      rewrite reclaim_records, list_elem_of_filter. split; [|by eapply position_in].
      intros ->. pose proof (cursors_pos p _ _ _ Eit). lia.
  - eexists _, G. split; [done|]. split; [|split; [apply shrinks_refl|by auto]].
    rewrite <- (set_iters_same (write_record _ _ _)). cbn [iters write_record set_heap].
    eapply rep_recount; try done; try lia.
    + intros q Hq. by rewrite occurrences_cons, decide_False.
    + apply HR.
Qed.

Lemma map_decref_record_spec X L G s A p : rep X (p :: L) G s A ->
  exists s' G', map_decref_record p s = Some s' /\ rep X L G' s' A /\ shrinks G G' /\
    iters s' = iters s /\ ev s' = ev s /\ is_set s' = is_set s.
Proof.
  intros HR. destruct (map_decref_record_frees _ _ _ _ _ _ HR) as (s' & G' & ? & ? & ? & ? & ? & ? & _).
  by exists s', G'.
Qed.

(** What a release may change: it frees records of deleted entries and the iterators of
    [D]. *)
Definition released (D : Z -> Prop) s s' G G' : Prop :=
  shrinks G G' /\ is_set s' = is_set s /\
  forall id, iters s' !! id = iters s !! id \/ (iters s' !! id = None /\ D id).

Lemma released_refl D s G : released D s s G G.
Proof. split; [apply shrinks_refl|]. split; [done|]. by left. Qed.

Lemma released_trans D s1 s2 s3 G1 G2 G3 :
  released D s1 s2 G1 G2 -> released D s2 s3 G2 G3 -> released D s1 s3 G1 G3.
Proof.
  intros (A1 & A2 & A3) (B1 & B2 & B3). split_and!; [by eapply shrinks_trans|congruence|].
  intros id. destruct (A3 id) as [HA|[HA ?]], (B3 id) as [HB|[HB ?]]; rewrite ?HA in HB; auto.
Qed.

Lemma released_mono (D D' : Z -> Prop) s s' G G' :
  (forall id, D id -> D' id) -> released D s s' G G' -> released D' s s' G G'.
Proof. intros HD (HA & HB & HC). split_and!; try done. intros id. destruct (HC id) as [|[]]; auto. Qed.

(** The iterators that some release finalizes. *)
Definition mortal (id : Z) : Prop := exists at_ n, id ∈ dying at_ n.

Lemma decref_iters p m s : map_decref_record p (set_iters m s) = set_iters m <$> map_decref_record p s.
Proof.
  unfold map_decref_record. cbn. destruct (heap s !! p) as [r|]; [|done]. cbn.
  destruct (_ =? 0); [|done]. destruct (mr_empty r); [|done].
  unfold free_record. cbn. by destruct (decide _).
Qed.

Lemma locks_on_none p it : match it_obj it, it_cur_record it with true, Some q => q <> p | _, _ => True end ->
  locks_on p it = 0.
Proof.
  unfold locks_on. destruct (it_obj it), (it_cur_record it) as [q|]; cbn; try done.
  intros Hq. by rewrite bool_decide_eq_false_2 by congruence.
Qed.

(** A dead iterator: its lock, if any, becomes a lock of its finalizer. *)
Lemma rep_unlock X L G s A id it : rep X L G s A -> iters s !! id = Some it ->
  rep X (match it_obj it, it_cur_record it with true, Some p => p :: L | _, _ => L end)
    G (set_iters (delete id (iters s)) s) A.
Proof.
  intros HR E. destruct HR. constructor; cbn; try done.
  - by eapply table_frame; eauto.
  - intros p. specialize (rp_refs0 p). rewrite (cursors_delete p _ _ _ E) in rp_refs0.
    pose proof (cursors_nonneg p (delete id (iters s))). pose proof (occurrences_nonneg p L).
    destruct (it_obj it) eqn:Eo, (it_cur_record it) as [q|] eqn:Ec.
    2-4: by rewrite locks_on_none in rp_refs0 by (rewrite Eo; try rewrite Ec; done).
    rewrite occurrences_cons. unfold locks_on in rp_refs0. rewrite Eo, Ec in rp_refs0. cbn [andb] in rp_refs0.
    destruct (decide (q = p)) as [->|Hq].
    + rewrite bool_decide_eq_true_2 in rp_refs0 by done. destruct (heap s !! p); [|lia].
      destruct rp_refs0 as [-> ?]. split; [lia|lia].
    + rewrite bool_decide_eq_false_2 in rp_refs0 by congruence. done.
  - intros id' it' E'. apply lookup_delete_Some in E' as [_ E']. by apply rp_iters0.
Qed.

(** The finalizer of an iterator keeps the collection. *)
Lemma js_map_iterator_finalizer_spec X L G s A id : rep X L G s A ->
  exists s' G', js_map_iterator_finalizer id s = Some s' /\ rep X L G' s' A /\
    released (eq id) s s' G G' /\ iters s' = delete id (iters s) /\ ev s' = ev s.
Proof.
  intros HR. unfold js_map_iterator_finalizer. destruct (iters s !! id) as [it|] eqn:E.
  - pose proof (rep_unlock _ _ _ _ _ _ _ HR E) as HU.
    assert (Hid : forall i, delete id (iters s) !! i = iters s !! i \/
      (delete id (iters s) !! i = None /\ id = i)).
    { intros i. destruct (decide (i = id)) as [->|]; [right; by rewrite lookup_delete_eq|left; by rewrite lookup_delete_ne]. }
    destruct (it_obj it), (it_cur_record it) as [p|].
    2-4: exists (set_iters (delete id (iters s)) s), G; split; [done|]; split; [exact HU|];
         split_and!; try done; split_and!; [apply shrinks_refl|done|exact Hid].
    destruct (map_decref_record_spec _ _ _ _ _ _ HU) as (s' & G' & E' & HR' & HS & Hi & He & Hset).
    rewrite decref_iters in E'. destruct (map_decref_record p s) as [s1|] eqn:E1; [|done].
    cbn in E'. injection E' as <-. cbn [mbind option_bind].
    exists (set_iters (delete id (iters s1)) s1), G'. split; [done|].
    assert (Hi1 : iters s1 = iters s /\ ev s1 = ev s /\ is_set s1 = is_set s).
    { unfold map_decref_record in E1. destruct (heap s !! p) as [r|]; [|done]. cbn in E1.
      destruct (_ =? 0); [|by injection E1 as <-]. destruct (mr_empty r); [|done].
      unfold free_record in E1. destruct (decide _); [|done]. by injection E1 as <-. }
    destruct Hi1 as (Hi1 & He1 & Hset1). rewrite Hi1. split; [done|].
    repeat split; done || exact Hid.
  - exists s, G. split; [done|]. split; [done|].
    split; [apply released_refl|]. by rewrite delete_id.
Qed.

Lemma rep_tick X L G s A : rep X L G s A -> rep X L G (tick s) A.
Proof. intros []. constructor; cbn; try done. by eapply table_frame; eauto. Qed.

Lemma finalize_all_spec X L A (D : Z -> Prop) ids : Forall D ids -> forall G s, rep X L G s A ->
  exists s' G', finalize_all ids s = Some s' /\ rep X L G' s' A /\ released D s s' G G' /\ ev s' = ev s.
Proof.
  induction 1 as [|id ids Hid Hids IH]; intros G s HR; cbn.
  - exists s, G. do 2 (split; [done|]). split; [apply released_refl|done].
  - destruct (js_map_iterator_finalizer_spec _ _ _ _ _ id HR) as (s1 & G1 & -> & HR1 & Hr1 & _ & He1).
    cbn. destruct (IH G1 s1 HR1) as (s2 & G2 & E2 & HR2 & Hr2 & He2). exists s2, G2.
    split_and!; try done; [|congruence]. eapply released_trans; [|done].
    eapply released_mono; [|done]. by intros ? <-.
Qed.

Lemma JS_FreeValueRT_spec X L G s A at_ : rep X L G s A ->
  exists s' G', JS_FreeValueRT at_ s = Some s' /\ rep X L G' s' A /\ released mortal s s' G G'.
Proof.
  intros HR. unfold JS_FreeValueRT.
  assert (HD : Forall mortal (dying at_ (ev s))) by (apply Forall_forall; by exists at_, (ev s)).
  destruct (finalize_all_spec _ _ _ mortal _ HD _ _ (rep_tick _ _ _ _ _ HR)) as (s' & G' & E & HR' & Hr & _).
  by exists s', G'.
Qed.

Lemma JS_FreeValueRT_quiet s at_ : dying at_ (ev s) = [] -> JS_FreeValueRT at_ s = Some (tick s).
Proof. intros E. unfold JS_FreeValueRT. by rewrite E. Qed.

(** The record of a live entry. *)
Lemma rep_live X L G s A i p k v : rep X L G s A -> G !! i = Some (Some p, Some (k, v)) ->
  exists r, heap s !! p = Some r /\ mr_empty r = false /\ mr_key r = k /\ mr_value r = v.
Proof. intros HR E. exact (Forall_lookup_1 _ _ _ _ (rp_entries _ _ _ _ _ HR) E). Qed.

(** The entry of a record. *)
Lemma rep_entry X L G s A p r : rep X L G s A -> heap s !! p = Some r ->
  exists i, G !! i = Some (Some p, if mr_empty r then None else Some (mr_key r, mr_value r)).
Proof.
  intros HR E. assert (Hp : p ∈ records s) by (eapply rp_heap; [done|by eexists]).
  rewrite (rp_records _ _ _ _ _ HR) in Hp. apply in_position in Hp as (i & e & Ei). exists i.
  rewrite Ei. pose proof (Forall_lookup_1 _ _ _ _ (rp_entries _ _ _ _ _ HR) Ei) as He.
  destruct e as [[k v]|]; cbn in He.
  - destruct He as (r0 & E0 & He0 & <- & <-). assert (r0 = r) as -> by congruence. by rewrite He0.
  - destruct He as (r0 & E0 & He0). assert (r0 = r) as -> by congruence. by rewrite He0.
Qed.

Lemma rep_data_lookup X L G s A i : rep X L G s A -> sp_data A !! i = snd <$> G !! i.
Proof. intros HR. rewrite <- (rp_data _ _ _ _ _ HR). apply list_lookup_fmap. Qed.

Lemma rep_data_live X L G s A i k v : rep X L G s A -> sp_data A !! i = Some (Some (k, v)) ->
  exists p r, G !! i = Some (Some p, Some (k, v)) /\ heap s !! p = Some r /\
    mr_empty r = false /\ mr_key r = k /\ mr_value r = v.
Proof.
  intros HR E. rewrite (rep_data_lookup _ _ _ _ _ _ HR) in E.
  destruct (G !! i) as [[x e]|] eqn:Ei; [|done]. cbn in E. injection E as ->.
  pose proof (Forall_lookup_1 _ _ _ _ (rp_entries _ _ _ _ _ HR) Ei) as He.
  destruct x as [p|]; [|done]. destruct He as (r & He). by exists p, r.
Qed.

Lemma has_key_normalize (k : val) e : has_key (map_normalize_key k) e = has_key k e.
Proof.
  destruct e as [[k' v]|]; [|done]. cbn.
  rewrite same_value_sym, normalize_same. apply same_value_sym.
Qed.

(** [spec_find] returns the only entry with the key. *)
Lemma spec_find_intro X L G s A i k k' v : rep X L G s A ->
  sp_data A !! i = Some (Some (k', v)) -> js_same_value_zero k' k = true ->
  spec_find (sp_data A) k = Some i.
Proof.
  intros HR E Hk. unfold spec_find.
  assert (list_find (fun e => has_key k e = true) (sp_data A) = Some (i, Some (k', v))) as ->; [|done].
  apply list_find_Some. split_and!; [done|done|]. intros j y Ej Hj Hy.
  destruct y as [[k2 v2]|]; [|done]. cbn in Hy.
  destruct (rep_data_live _ _ _ _ _ _ _ _ HR E) as (p & r & Ei & Ep & He & <- & _).
  destruct (rep_data_live _ _ _ _ _ _ _ _ HR Ej) as (q & r' & Ej' & Eq & He' & <- & _).
  assert (p = q) as <-.
  { eapply (rp_distinct _ _ _ _ _ HR p q r r'); try done.
    eapply same_value_trans; [done|]. by rewrite same_value_sym. }
  assert (i = j); [|lia]. eapply (position_unique G p).
  - rewrite <- (rp_records _ _ _ _ _ HR). apply HR.
  - by eexists.
  - by eexists.
Qed.

Lemma spec_find_none (d : list (option (val * val))) k :
  (forall i k' v, d !! i = Some (Some (k', v)) -> js_same_value_zero k' k = false) ->
  spec_find d k = None.
Proof.
  intros Hd. unfold spec_find. apply fmap_None, list_find_None, Forall_lookup_2.
  intros i [[k' v]|] E; cbn; [|done]. rewrite (Hd i k' v E). done.
Qed.

Lemma spec_find_some (d : list (option (val * val))) k i : spec_find d k = Some i ->
  exists k' v, d !! i = Some (Some (k', v)) /\ js_same_value_zero k' k = true.
Proof.
  unfold spec_find. intros E. apply fmap_Some in E as ([i' y] & E & ->).
  apply list_find_Some in E as (E & Hy & _). destruct y as [[k' v]|]; [|done]. by exists k', v.
Qed.

Lemma spec_find_normalize (d : list (option (val * val))) k :
  spec_find d (map_normalize_key k) = spec_find d k.
Proof.
  unfold spec_find. f_equal. induction d as [|e d IH]; [done|]. cbn. rewrite IH.
  rewrite (decide_ext (has_key (map_normalize_key k) e = true) (has_key k e = true)); [done|].
  by rewrite has_key_normalize.
Qed.

Lemma strong_match X L G s A r : rep X L G s A -> cannot_match s r = mr_empty r.
Proof. intros HR. unfold cannot_match. rewrite (rp_strong _ _ _ _ _ HR). by rewrite orb_false_r. Qed.

(** The hash table finds what the list of entries holds. *)
Lemma lookup_refines L G s A k : rep [] L G s A ->
  exists res, map_find_record s (map_normalize_key k) = Some res /\
    match res with
    | Some p => exists i r, heap s !! p = Some r /\ mr_empty r = false /\
        G !! i = Some (Some p, Some (mr_key r, mr_value r)) /\ spec_find (sp_data A) k = Some i
    | None => spec_find (sp_data A) k = None
    end.
Proof.
  intros HR. destruct (map_find_spec s (map_normalize_key k) (rp_table _ _ _ _ _ HR) (normalize_idem k))
    as (res & E & Hres). exists res. split; [done|]. rewrite <- (spec_find_normalize _ k). destruct res as [p|].
  - destruct Hres as (r & Ep & Hm & Hk). rewrite (strong_match _ _ _ _ _ _ HR) in Hm.
    destruct (rep_entry _ _ _ _ _ _ _ HR Ep) as [i Ei]. rewrite Hm in Ei. exists i, r. split_and!; try done.
    eapply spec_find_intro; [done| |done]. rewrite (rep_data_lookup _ _ _ _ _ _ HR), Ei. done.
  - apply spec_find_none. intros i k' v Ei.
    destruct (rep_data_live _ _ _ _ _ _ _ _ HR Ei) as (p & r & _ & Ep & He & <- & _).
    destruct (js_same_value_zero _ _) eqn:Hs; [|done]. destruct (Hres p). exists r.
    by rewrite (strong_match _ _ _ _ _ _ HR).
Qed.

Lemma sp_get_found (A : MapSpec val) k i k' v : spec_find (sp_data A) k = Some i ->
  sp_data A !! i = Some (Some (k', v)) -> sp_get k A = Some v.
Proof. intros E1 E2. unfold sp_get. rewrite E1. cbn. by rewrite E2. Qed.

Lemma spec_size_insert (d : list (option (val * val))) i kv : d !! i = Some (Some kv) ->
  spec_size (<[i := None]> d) = spec_size d - 1.
Proof.
  unfold spec_size. revert i. induction d as [|e d IH]; intros [|i] E; [done|done| |]; cbn in E.
  - injection E as ->. cbn. lia.
  - specialize (IH i E). change (<[S i := None]> (e :: d)) with (e :: <[i := None]> d).
    destruct e; csimpl; lia.
Qed.

Lemma set_records_insert (G : ghost) i x e e' : G !! i = Some (x, e) ->
  omap fst (<[i := (x, e')]> G) = omap fst G.
Proof.
  revert i. induction G as [|y G IH]; intros [|i] E; [done|done| |]; cbn in E.
  - injection E as ->. done.
  - change (<[S i := (x, e')]> (y :: G)) with (y :: <[i := (x, e')]> G). csimpl. by rewrite (IH i E).
Qed.

Lemma decref_count p c s : map_decref_record p (set_count c s) = set_count c <$> map_decref_record p s.
Proof.
  unfold map_decref_record. cbn. destruct (heap s !! p) as [r|]; [|done]. cbn.
  destruct (_ =? 0); [|done]. destruct (mr_empty r); [|done].
  unfold free_record. cbn. by destruct (decide _).
Qed.

(** The specification without its [i]-th entry. *)
Definition without (i : nat) (A : MapSpec val) : MapSpec val :=
  mkSpec (<[i := None]> (sp_data A)) (sp_iters A).

(** Positions never move. *)
Definition evolves G G' : Prop := forall p i, position G' p i -> position G p i.

Lemma evolves_trans G1 G2 G3 : evolves G1 G2 -> evolves G2 G3 -> evolves G1 G3.
Proof. unfold evolves. auto. Qed.

Lemma evolves_insert G i x e e' : G !! i = Some (x, e) -> evolves G (<[i := (x, e')]> G).
Proof.
  intros E p j (e0 & Ej). apply list_lookup_insert_Some in Ej as [(-> & [= -> ->] & _)|[_ Ej]].
  - by exists e.
  - by exists e0.
Qed.

(** A deletion empties the record and takes the reference of the table as a lock. *)
Lemma zombify X L G s A mr r i : rep X L G s A -> mr ∈ X -> heap s !! mr = Some r ->
  mr_empty r = false -> G !! i = Some (Some mr, Some (mr_key r, mr_value r)) ->
  rep X (mr :: L) (<[i := (Some mr, None)]> G)
    (set_count (wrap 32 (record_count s - 1)) (write_record mr (as_zombie r (mr_ref_count r)) s))
    (without i A).
Proof.
  intros HR HX E He Ei. destruct HR.
  assert (Hd : sp_data A !! i = Some (Some (mr_key r, mr_value r))).
  { rewrite <- rp_data0. change (map snd G) with (snd <$> G). by rewrite list_lookup_fmap, Ei. }
  constructor; cbn; try done.
  - eapply table_frame; try done; cbn.
    + intros p r0 E0 He0 Hp. rewrite lookup_insert_ne by (by intros <-). by exists r0.
    + intros p r' E'. destruct (decide (p = mr)) as [->|Hp].
      * rewrite lookup_insert_eq in E'. by injection E' as <-.
      * rewrite lookup_insert_ne in E' by done. by exists r'.
  - by rewrite (set_records_insert _ _ _ _ _ Ei).
  - rewrite <- rp_data0. change map with (@fmap list _) at 1. by rewrite list_fmap_insert.
  - apply Forall_forall. intros x Hx. apply list_elem_of_lookup in Hx as [j Ej].
    apply list_lookup_insert_Some in Ej as [(-> & <- & _)|[Hj Ej]].
    + cbn. eexists. rewrite lookup_insert_eq. by split.
    + pose proof (Forall_lookup_1 _ _ _ _ rp_entries0 Ej) as Hx. destruct x as [[p|] e]; [|done].
      assert (p <> mr).
      { intros ->. apply Hj. eapply (position_unique G mr); [by rewrite <- rp_records0|by eexists|by eexists]. }
      destruct e as [[k v]|]; cbn in *; by rewrite lookup_insert_ne.
  - intros p [r' E']. apply lookup_insert_Some in E' as [[<- _]|[_ E']]; apply rp_heap0; by eexists.
  - intros p q r1 r2 E1 E2 He1 He2.
    apply lookup_insert_Some in E1 as [[_ <-]|[_ E1]]; [done|].
    apply lookup_insert_Some in E2 as [[_ <-]|[_ E2]]; [done|]. by apply (rp_distinct0 p q r1 r2).
  - intros p. specialize (rp_refs0 p). rewrite occurrences_cons. destruct (decide (mr = p)) as [<-|Hp].
    + rewrite E, He in rp_refs0. rewrite lookup_insert_eq. cbn. lia.
    + by rewrite lookup_insert_ne.
  - intros id it Eit. destruct (rp_iters0 id it Eit) as (pos & -> & Hpos). exists pos. split; [done|].
    destruct it as [[] kind [q|]]; cbn in *; try done. destruct Hpos as (j & (e & Ej) & ->). exists j. split; [|done].
    destruct (decide (i = j)) as [<-|Hij].
    + rewrite Ei in Ej. injection Ej as <- <-. exists None.
      apply list_lookup_insert_eq. by eapply lookup_lt_Some.
    + exists e. by rewrite list_lookup_insert_ne.
  - rewrite (spec_size_insert _ _ _ Hd), rp_count0. unfold wrap.
    by rewrite Zminus_mod_idemp_l.
Qed.

Lemma shrinks_evolves G G' : shrinks G G' -> evolves G G'.
Proof. intros HS p i. by apply shrinks_position_back. Qed.

(** The part of [map_delete_record_internal] that follows the releases. *)
Lemma delete_tail_spec X L G s A mr i k v :
  rep X L G s A -> mr ∈ X -> G !! i = Some (Some mr, Some (k, v)) ->
  exists s' G', (r ← heap s !! mr;
    let n := mr_ref_count r - 1 in
    s ← (if n =? 0 then free_record mr s else Some (write_record mr (as_zombie r n) s));
    Some (set_count (wrap 32 (record_count s - 1)) s)) = Some s' /\
    rep X L G' s' (without i A) /\ iters s' = iters s /\ is_set s' = is_set s /\
    (G' = <[i := (Some mr, None)]> G \/ G' = reclaim mr (<[i := (Some mr, None)]> G)).
Proof.
  intros HR HX Ei. destruct (rep_live _ _ _ _ _ _ _ _ _ HR Ei) as (r & Er & He & Hk & Hv).
  rewrite Er. cbn [mbind option_bind].
  assert (Ei' : G !! i = Some (Some mr, Some (mr_key r, mr_value r))) by (by rewrite Hk, Hv).
  pose proof (zombify _ _ _ _ _ _ _ _ HR HX Er He Ei') as HZ.
  destruct (map_decref_record_frees _ _ _ _ _ _ HZ) as (s3 & G3 & E3 & HR3 & _ & Hi3 & _ & Hset3 & HG).
  rewrite decref_count in E3. unfold map_decref_record in E3. cbn in E3.
  rewrite lookup_insert_eq in E3. cbn in E3.
  assert (Hrec : mr ∈ records s) by (eapply rp_heap; [done|by eexists]).
  exists s3, G3. split; [|split_and!; try done; cbn in Hset3; congruence]. destruct (_ =? 0).
  - unfold free_record in *. cbn in E3. rewrite !decide_True in * by done. cbn in E3.
    rewrite delete_insert_eq in E3. cbn. by rewrite <- E3.
  - unfold write_record, set_heap, set_count in E3. cbn in E3. rewrite insert_insert_eq in E3. cbn. by rewrite <- E3.
Qed.

Lemma delete_tail_evolves G G' i mr e : NoDup (omap fst G) -> G !! i = Some (Some mr, e) ->
  G' = <[i := (Some mr, None)]> G \/ G' = reclaim mr (<[i := (Some mr, None)]> G) -> evolves G G'.
Proof.
  intros Hn Ei [->| ->]; [by eapply evolves_insert|].
  eapply evolves_trans; [by eapply evolves_insert|]. apply shrinks_evolves, (reclaim_shrinks _ _ i).
  - by rewrite (set_records_insert _ _ _ _ _ Ei).
  - apply list_lookup_insert_eq. by eapply lookup_lt_Some.
Qed.

(** [map_delete_record_internal] empties the entry of its record, whatever it releases. *)
Lemma map_delete_record_internal_spec at_ X L G s A mr i k v :
  rep X L G s A -> mr ∈ X -> G !! i = Some (Some mr, Some (k, v)) ->
  exists s' G', map_delete_record_internal at_ s mr = Some s' /\ rep X L G' s' (without i A) /\
    evolves G G' /\ is_set s' = is_set s /\
    (forall id, iters s' !! id = iters s !! id \/ (iters s' !! id = None /\ mortal id)).
Proof.
  intros HR HX Ei. unfold map_delete_record_internal.
  destruct (rep_live _ _ _ _ _ _ _ _ _ HR Ei) as (r0 & E0 & He0 & _). rewrite E0. cbn [mbind option_bind].
  rewrite He0, (rp_strong _ _ _ _ _ HR).
  destruct (JS_FreeValueRT_spec _ _ _ _ _ at_ HR) as (s1 & G1 & -> & HR1 & Hr1). cbn [mbind option_bind].
  destruct (JS_FreeValueRT_spec _ _ _ _ _ at_ HR1) as (s2 & G2 & -> & HR2 & Hr2). cbn [mbind option_bind].
  pose proof (released_trans _ _ _ _ _ _ _ Hr1 Hr2) as (HS & Hset & Hit).
  pose proof (shrinks_live _ _ _ _ _ HS Ei) as Ei2.
  destruct (delete_tail_spec _ _ _ _ _ _ _ _ _ HR2 HX Ei2) as (s3 & G3 & E3 & HR3 & Hi3 & Hset3 & HG).
  exists s3, G3. split; [exact E3|]. split; [done|]. split; [|split; [congruence|by rewrite Hi3]].
  eapply evolves_trans; [by apply shrinks_evolves|]. eapply delete_tail_evolves; [|done|done].
  rewrite <- (rp_records _ _ _ _ _ HR2). apply HR2.
Qed.

(** What the program holds on to: the records locked by loops in progress do not move. *)
Definition keeps_locked L G G' : Prop := forall p i, p ∈ L -> position G p i -> position G' p i.

Lemma locked_record X L G s A p : rep X L G s A -> p ∈ L -> p ∈ omap fst G.
Proof.
  intros HR Hp. rewrite <- (rp_records _ _ _ _ _ HR). eapply rp_heap; [done|].
  pose proof (rp_refs _ _ _ _ _ HR p) as Hr. destruct (heap s !! p); [by eexists|].
  destruct Hr as [_ Hr]. unfold occurrences in Hr.
  assert (count_occ Z.eq_dec L p > 0)%nat; [|lia].
  apply count_occ_In. by apply list_elem_of_In.
Qed.

Lemma evolves_keeps X X' L G G' s s' A A' : rep X L G s A -> rep X' L G' s' A' -> evolves G G' ->
  keeps_locked L G G'.
Proof.
  intros HR HR' He p i Hp Hi. pose proof (locked_record _ _ _ _ _ _ HR' Hp) as Hp'.
  apply in_position in Hp' as [j Hj].
  assert (Hn : NoDup (omap fst G)) by (rewrite <- (rp_records _ _ _ _ _ HR); apply HR).
  by rewrite (position_unique _ _ _ _ Hn Hi (He _ _ Hj)).
Qed.

(** The iterators that are still alive in the specification only. *)
Definition agrees (D : Z -> Prop) (A : MapSpec val) s : Prop :=
  forall id, iters s !! id = None -> sp_iters A !! id = None \/ D id.

Abbreviation alive := (agrees (fun _ => False)).

Lemma agrees_released A s s' : alive A s ->
  (forall id, iters s' !! id = iters s !! id \/ (iters s' !! id = None /\ mortal id)) ->
  agrees mortal A s'.
Proof.
  intros HA Hs id E. destruct (Hs id) as [E'|[_ ?]]; [|by right].
  rewrite E' in E. left. by destruct (HA id E).
Qed.

Lemma agrees_same A s s' : alive A s -> iters s' = iters s -> agrees mortal A s'.
Proof. intros HA E id. rewrite E. intros Hid. left. by destruct (HA id Hid). Qed.

(** An operation of the code implements the operation [spec] of the specification. *)
Definition implements {R} (run : JSMapState val -> option (R * JSMapState val))
    (spec : bool -> MapSpec val -> R -> MapSpec val -> Prop) : Prop :=
  forall L G s A, rep [] L G s A -> alive A s ->
  exists r s' G' A', run s = Some (r, s') /\ spec (is_set s) A r A' /\ rep [] L G' s' A' /\
    agrees mortal A' s' /\ keeps_locked L G G' /\ is_set s' = is_set s.

Lemma implements_pure {R} (run : JSMapState val -> option (R * JSMapState val))
    (spec : bool -> MapSpec val -> R -> MapSpec val -> Prop) :
  (forall L G s A, rep [] L G s A -> exists r, run s = Some (r, s) /\ spec (is_set s) A r A) ->
  implements run spec.
Proof.
  intros Hr L G s A HR HA. destruct (Hr _ _ _ _ HR) as (r & E & Hs).
  exists r, s, G, A. split_and!; try done; [by apply (agrees_same A s)|by intros p i].
Qed.

Definition exactly (o : op val) (set : bool) (A : MapSpec val) (r : result val) (A' : MapSpec val) : Prop :=
  exists id, (r, A') = spec_op set id o A.

Lemma js_map_has_implements k : implements (fun s => js_map_has s k) (exactly (OpHas k)).
Proof.
  apply implements_pure. intros L G s A HR. destruct (lookup_refines _ _ _ _ k HR) as (res & E & Hres).
  unfold js_map_has. rewrite E. cbn [mbind option_bind]. eexists. split; [done|]. exists 0. cbn.
  do 3 f_equal. destruct res as [p|].
  - destruct Hres as (i & r & _ & _ & _ & ->). rewrite !bool_decide_eq_true_2; done.
  - rewrite Hres. rewrite !bool_decide_eq_false_2; [done| |]; by intros [].
Qed.

Lemma js_map_get_implements k : implements (fun s => js_map_get s k) (exactly (OpGet k)).
Proof.
  apply implements_pure. intros L G s A HR. destruct (lookup_refines _ _ _ _ k HR) as (res & E & Hres).
  unfold js_map_get. rewrite E. cbn [mbind option_bind]. destruct res as [p|].
  - destruct Hres as (i & r & Ep & _ & Ei & Ef). rewrite Ep. cbn [mbind option_bind].
    eexists. split; [done|]. exists 0. cbn.
    erewrite sp_get_found; [done|done|]. by rewrite (rep_data_lookup _ _ _ _ _ _ HR), Ei.
  - eexists. split; [done|]. exists 0. cbn. unfold sp_get. by rewrite Hres.
Qed.

Lemma js_map_get_size_implements : implements js_map_get_size (exactly OpSize).
Proof.
  apply implements_pure. intros L G s A HR. eexists. split; [done|]. exists 0. cbn.
  by rewrite (rp_count _ _ _ _ _ HR).
Qed.

Lemma rep_forget X L G s A : rep X L G s A ->
  (forall p r, p ∈ X -> heap s !! p = Some r -> mr_empty r = true) -> rep [] L G s A.
Proof. intros [] HX. constructor; try done. by eapply table_forget. Qed.

(** The record of a deleted entry is empty, if it still is allocated. *)
Lemma deleted_empty X X' L L' G G' s s' A A' i p e r :
  rep X L G s A -> rep X' L' G' s' (without i A') -> evolves G G' -> G !! i = Some (Some p, e) ->
  heap s' !! p = Some r -> mr_empty r = true.
Proof.
  intros HR HR' He Ei Er. destruct (mr_empty r) eqn:Em; [done|].
  destruct (rep_entry _ _ _ _ _ _ _ HR' Er) as [j Ej]. rewrite Em in Ej.
  assert (Hn : NoDup (omap fst G)) by (rewrite <- (rp_records _ _ _ _ _ HR); apply HR).
  assert (i = j) as <-.
  { eapply (position_unique G p); [done|by eexists|]. apply He. by eexists. }
  pose proof (rep_data_lookup _ _ _ _ _ i HR') as Hd. rewrite Ej in Hd. cbn in Hd.
  rewrite list_lookup_insert in Hd. destruct (decide _); [done|].
  assert (is_Some (sp_data A' !! i)) as Hi by (by eexists).
  apply lookup_lt_is_Some in Hi. destruct (decide (i = i /\ (i < length (sp_data A'))%nat)); tauto.
Qed.

Lemma map_delete_record_spec L G s A k : rep [] L G s A -> alive A s ->
  exists b s' G' A', map_delete_record s k = Some (b, s') /\
    (b, A') = match spec_find (sp_data A) k with Some i => (true, without i A) | None => (false, A) end /\
    rep [] L G' s' A' /\ agrees mortal A' s' /\ keeps_locked L G G' /\ is_set s' = is_set s.
Proof.
  intros HR HA. rewrite <- (spec_find_normalize _ k). unfold map_delete_record.
  pose proof (rp_table _ _ _ _ _ HR) as Ht. set (k' := map_normalize_key k).
  destruct (table_slot _ s k' Ht) as [x Ex]. rewrite Ex. cbn [mbind option_bind].
  pose proof Ht as [Hb _ Hkeys (C & HC & Hnd & Hin & Hall)].
  pose proof (HC _ _ Ex) as Hch.
  destruct (delete_loop_spec s k' _ (size (heap s)) (Head (Z.to_nat (map_hash_key k' (hash_bits s)))) x Hch)
    as (res & -> & Hres); [by eapply chain_length|]. cbn [mbind option_bind].
  destruct res as [[sl p]|].
  - destruct Hres as ((r & Er & Hm & Hk) & l1 & l2 & El & ->). rewrite Er. cbn [mbind option_bind].
    rewrite El in Hch.
    destruct (table_unlink [] s k' l1 p l2 r x Ht Ex Hch Er) as (s1 & -> & Hr1 & Ht1 & _). cbn [mbind option_bind].
    rewrite (strong_match _ _ _ _ _ _ HR) in Hm.
    destruct (rep_entry _ _ _ _ _ _ _ HR Er) as [i Ei]. rewrite Hm in Ei.
    pose proof (rep_relinked _ _ _ _ _ _ _ HR Hr1 Ht1) as HR1.
    destruct (map_delete_record_internal_spec AtDelete [p] L G s1 A p i _ _ HR1 (list_elem_of_here _ _) Ei)
      as (s2 & G2 & E2 & HR2 & He & Hset & Hit). rewrite E2. cbn [mbind option_bind].
    rewrite (spec_find_intro _ _ _ _ _ i k' (mr_key r) (mr_value r) HR); [| |done].
    2: by rewrite (rep_data_lookup _ _ _ _ _ _ HR), Ei.
    eexists _, _, G2, _. split; [done|]. split; [done|].
    destruct Hr1 as (_ & Hset1 & _ & _ & Hit1 & _). split_and!.
    + eapply rep_forget; [done|]. intros q r' Hq Er'. apply list_elem_of_singleton in Hq as ->.
      exact (deleted_empty _ _ _ _ _ _ _ _ _ _ _ _ _ _ HR HR2 He Ei Er').
    + rewrite Hit1 in Hit. by apply (agrees_released A s s2).
    + by eapply evolves_keeps.
    + congruence.
  - rewrite spec_find_none.
    + eexists _, _, G, _. do 3 (split; [done|]). split; [by apply (agrees_same A s)|]. split; [by intros q j|done].
    + intros i k2 v Ei. destruct (rep_data_live _ _ _ _ _ _ _ _ HR Ei) as (p & r & _ & Er & He & <- & _).
      destruct (js_same_value_zero _ _) eqn:Hs; [|done].
      assert (Hh : hit s k' p) by (exists r; by rewrite (strong_match _ _ _ _ _ _ HR)).
      destruct (Hres p); [|done]. eapply (hit_bucket [] s C); eauto; [apply normalize_idem|apply not_elem_of_nil].
Qed.

Lemma js_map_delete_implements k : implements (fun s => js_map_delete s k) (exactly (OpDelete k)).
Proof.
  intros L G s A HR HA. destruct (map_delete_record_spec _ _ _ _ k HR HA) as (b & s' & G' & A' & E & Hs & Hrest).
  unfold js_map_delete. rewrite E. cbn [mbind option_bind]. exists (RBool b), s', G', A'. split; [done|].
  split; [|done]. exists 0. cbn. by destruct (spec_find _ _); injection Hs as -> ->.
Qed.

Lemma js_map_finalizer_implements id :
  implements (fun s => (pair RUndefined) <$> js_map_iterator_finalizer id s) (exactly (OpFinalize id)).
Proof.
  intros L G s A HR HA. destruct (js_map_iterator_finalizer_spec _ _ _ _ _ id HR)
    as (s' & G' & E & HR' & (HS & Hset & _) & Hit & _).
  rewrite E. cbn. eexists _, _, G', (mkSpec (sp_data A) (delete id (sp_iters A))). split; [done|].
  split; [by exists 0|]. split; [|split; [|split]].
  - destruct HR'. constructor; try done. intros i it. rewrite Hit. intros Ei.
    apply lookup_delete_Some in Ei as [Hi Ei]. cbn. rewrite lookup_delete_ne by done.
    apply rp_iters0. by rewrite Hit, lookup_delete_ne.
  - intros i. rewrite Hit. cbn. destruct (decide (i = id)) as [->|Hi]; [left; by rewrite lookup_delete_eq|].
    rewrite !lookup_delete_ne by done. intros Ei. left. by destruct (HA i Ei).
  - eapply evolves_keeps; [done|done|by apply shrinks_evolves].
  - done.
Qed.

Lemma rep_heap_iff X L G s A p : rep X L G s A -> p ∈ records s <-> is_Some (heap s !! p).
Proof.
  intros HR. split; [|apply HR]. rewrite (rp_records _ _ _ _ _ HR). intros Hp.
  apply in_position in Hp as (i & e & Ei).
  pose proof (Forall_lookup_1 _ _ _ _ (rp_entries _ _ _ _ _ HR) Ei) as He.
  destruct e as [[k v]|]; destruct He as (r & -> & _); by eexists.
Qed.

(** The state of [map_add_record] before it looks at the threshold. *)
Definition added s (k v : val) (p : ptr) (x : option ptr) : JSMapState val :=
  mkMap (is_weak s) (is_set s) (records s ++ [p]) (wrap 32 (record_count s + 1))
    (<[Z.to_nat (map_hash_key k (hash_bits s)) := Some p]> (hash_table s)) (hash_bits s)
    (record_count_threshold s) (<[p := mkRecord 1 false x k v]> (heap s)) (iters s) (S (ev s)).

Lemma table_added X s k v p x : table_ok X s -> heap s !! p = None -> map_normalize_key k = k -> p ∉ X ->
  hash_table s !! Z.to_nat (map_hash_key k (hash_bits s)) = Some x -> table_ok X (added s k v p x).
Proof.
  intros [Hb Hlen Hkeys (C & HC & Hnd & Hin & Hall)] Hp Hk HpX Ex.
  set (h := Z.to_nat (map_hash_key k (hash_bits s))) in *.
  assert (HpC : forall h', p ∉ C h').
  { intros h' Hp'. destruct (Hin h' p Hp') as (_ & r & E & _). congruence. }
  constructor; cbn; fold h; [done|by rewrite length_insert| |].
  - intros q r E He. apply lookup_insert_Some in E as [[_ <-]|[_ E]]; [done|by eapply Hkeys].
  - exists (fun h' => if decide (h' = h) then p :: C h else C h'). split_and!.
    + intros h' y Ey. apply list_lookup_insert_Some in Ey as [(<- & <- & _)|[Hne Ey]].
      * rewrite decide_True by done. split; [done|]. eexists. rewrite lookup_insert_eq. split; [done|].
        apply chain_insert; [apply HpC|by apply HC].
      * rewrite decide_False by done. apply chain_insert; [apply HpC|by apply HC].
    + intros h'. destruct (decide (h' = h)); [|done]. by apply NoDup_cons.
    + intros h' q Hq. destruct (decide (q = p)) as [->|Hqp].
      * destruct (decide (h' = h)) as [->|]; [|by destruct (HpC h')]. split; [done|].
        eexists. by rewrite lookup_insert_eq.
      * rewrite lookup_insert_ne by done. apply Hin.
        destruct (decide (h' = h)) as [->|]; [|done]. elems.
    + intros q r E Hm HX. apply lookup_insert_Some in E as [[<- <-]|[Hq E]].
      * cbn. fold h. rewrite decide_True by done. elems.
      * pose proof (Hall q r E Hm HX) as Hq'. destruct (decide _) as [Hh|]; [|done]. rewrite Hh in Hq'. elems.
Qed.

Definition with_entry (k v : val) (A : MapSpec val) : MapSpec val :=
  mkSpec (sp_data A ++ [Some (k, v)]) (sp_iters A).

Lemma rep_added L G s A k v p x : rep [] L G s A -> heap s !! p = None -> map_normalize_key k = k ->
  spec_find (sp_data A) k = None ->
  hash_table s !! Z.to_nat (map_hash_key k (hash_bits s)) = Some x ->
  rep [] L (G ++ [(Some p, Some (k, v))]) (added s k v p x) (with_entry k v A).
Proof.
  intros HR Hp Hk Hf Ex. pose proof (table_added [] s k v p x (rp_table _ _ _ _ _ HR) Hp Hk (not_elem_of_nil _) Ex) as Ht.
  assert (HpG : p ∉ records s) by (rewrite (rep_heap_iff _ _ _ _ _ _ HR), Hp; by intros [? [=]]).
  assert (Hnew : forall q r, heap s !! q = Some r -> mr_empty r = false -> js_same_value_zero (mr_key r) k = false).
  { intros q r Eq He. destruct (rep_entry _ _ _ _ _ _ _ HR Eq) as [i Ei]. rewrite He in Ei.
    destruct (js_same_value_zero _ _) eqn:Hs; [|done].
    rewrite (spec_find_intro _ _ _ _ _ i k (mr_key r) (mr_value r) HR) in Hf; [done| |done].
    by rewrite (rep_data_lookup _ _ _ _ _ _ HR), Ei. }
  destruct HR. constructor; cbn; try done.
  - by rewrite omap_app, rp_records0.
  - apply NoDup_app. split; [done|]. split; [|apply NoDup_singleton].
    intros q Hq Hq'. apply list_elem_of_singleton in Hq' as ->. done.
  - by rewrite map_app, rp_data0.
  - apply Forall_app. split.
    + eapply Forall_impl; [done|]. intros [[q|] [[k' v']|]]; cbn; try done.
      * intros (r & Eq & Hr). exists r. rewrite lookup_insert_ne; [done|]. by intros ->; rewrite Hp in Eq.
      * intros (r & Eq & Hr). exists r. rewrite lookup_insert_ne; [done|]. by intros ->; rewrite Hp in Eq.
    + apply Forall_singleton. cbn. eexists. by rewrite lookup_insert_eq.
  - intros q [r E]. apply lookup_insert_Some in E as [[<- _]|[_ E]]; [elems|].
    apply elem_of_app. left. apply rp_heap0. by eexists.
  - intros q q' r r' E E' He He' Hs. apply lookup_insert_Some in E as [[<- <-]|[_ E]], E' as [[<- <-]|[_ E']]; try done.
    + rewrite same_value_sym in Hs. cbn in Hs. rewrite (Hnew _ _ E' He') in Hs. done.
    + cbn in Hs. rewrite (Hnew _ _ E He) in Hs. done.
    + by apply (rp_distinct0 q q' r r').
  - intros q. specialize (rp_refs0 q). destruct (decide (q = p)) as [->|Hq].
    + rewrite Hp in rp_refs0. rewrite lookup_insert_eq. cbn. lia.
    + by rewrite lookup_insert_ne.
  - intros id it Eit. destruct (rp_iters0 id it Eit) as (pos & -> & Hpos). exists pos. split; [done|].
    destruct (it_obj it), (it_cur_record it) as [q|]; try done. destruct Hpos as (j & (e & Ej) & ->).
    exists j. split; [|done]. exists e. by apply lookup_app_l_Some.
  - rewrite rp_count0. unfold wrap, spec_size. rewrite omap_app, length_app. cbn [length omap list_omap id].
    rewrite Zplus_mod_idemp_l. f_equal. cbn. lia.
Qed.

Lemma map_add_record_spec L G s A k v : rep [] L G s A -> map_normalize_key k = k ->
  spec_find (sp_data A) k = None ->
  exists res s', map_add_record s k v = Some (res, s') /\ is_set s' = is_set s /\ iters s' = iters s /\
    match res with
    | Some p => rep [] L (G ++ [(Some p, Some (k, v))]) s' (with_entry k v A)
    | None => (exists n, ext_ok n = false) /\ s' = tick s
    end.
Proof.
  intros HR Hk Hf. unfold map_add_record. destruct (ext_ok (ev s)) eqn:Eo; cbn [negb].
  2: { exists None, (tick s). do 3 (split; [done|]). split; [by eexists|done]. }
  destruct (table_slot _ s k (rp_table _ _ _ _ _ HR)) as [x Ex]. cbn. rewrite Ex. cbn [mbind option_bind].
  assert (Hp : heap s !! malloc (dom (heap s)) = None) by (apply not_elem_of_dom, malloc_fresh).
  set (p := malloc (dom (heap s))) in *.
  pose proof (rep_added L G s A k v p x HR Hp Hk Hf Ex) as HR1. fold (added s k v p x).
  destruct (_ <=? _).
  - destruct (map_hash_resize_spec (added s k v p x)) as (s2 & -> & Hr & Ht).
    + apply HR1.
    + apply HR1.
    + intros q. apply (rep_heap_iff _ _ _ _ _ _ HR1).
    + cbn [mbind option_bind]. pose proof Hr as (_ & Hset & _ & _ & Hit & _).
      exists (Some p), s2. split; [done|]. split; [by rewrite Hset|]. split; [by rewrite Hit|].
      by eapply rep_relinked.
  - by exists (Some p), (added s k v p x).
Qed.

Lemma alter_insert {B} (f : B -> B) (l : list B) i y : l !! i = Some y -> alter f i l = <[i := f y]> l.
Proof.
  revert i. induction l as [|z l IH]; intros [|i] E; [done|done| |]; cbn in E.
  - by injection E as ->.
  - change (z :: alter f i l = z :: <[i := f y]> l). by rewrite (IH i E).
Qed.

(** Writing the value of a record. *)
Lemma rep_set_value L G s A i p k v0 v r : rep [] L G s A -> G !! i = Some (Some p, Some (k, v0)) ->
  heap s !! p = Some r ->
  rep [] L (<[i := (Some p, Some (k, v))]> G) (write_record p (with_value r v) s)
    (mkSpec (alter (fmap (fun kv => (kv.1, v))) i (sp_data A)) (sp_iters A)).
Proof.
  intros HR Ei Ep. destruct (rep_live _ _ _ _ _ _ _ _ _ HR Ei) as (r0 & E0 & He & Hk & _).
  assert (r0 = r) as -> by congruence. clear E0.
  assert (Hd : sp_data A !! i = Some (Some (k, v0))) by (by rewrite (rep_data_lookup _ _ _ _ _ _ HR), Ei).
  rewrite (alter_insert _ _ _ _ Hd). cbn [fmap option_fmap option_map fst].
  destruct HR. constructor; cbn; try done.
  - eapply table_frame; try done; cbn.
    + intros q r0 E0 He0 _. destruct (decide (q = p)) as [->|Hq].
      * assert (r0 = r) as -> by congruence. eexists. by rewrite lookup_insert_eq.
      * rewrite lookup_insert_ne by done. by exists r0.
    + intros q r' E' He'. destruct (decide (q = p)) as [->|Hq].
      * rewrite lookup_insert_eq in E'. injection E' as <-. by exists r.
      * rewrite lookup_insert_ne in E' by done. by exists r'.
  - by rewrite (set_records_insert _ _ _ _ _ Ei).
  - rewrite <- rp_data0. change map with (@fmap list _) at 1. by rewrite list_fmap_insert.
  - apply Forall_forall. intros x Hx. apply list_elem_of_lookup in Hx as [j Ej].
    apply list_lookup_insert_Some in Ej as [(-> & <- & _)|[Hj Ej]].
    + cbn. eexists. rewrite lookup_insert_eq. by split_and!.
    + pose proof (Forall_lookup_1 _ _ _ _ rp_entries0 Ej) as Hx. destruct x as [[q|] e]; [|done].
      assert (q <> p).
      { intros ->. apply Hj. eapply (position_unique G p); [by rewrite <- rp_records0|by eexists|by eexists]. }
      destruct e as [[k' v']|]; cbn in *; by rewrite lookup_insert_ne.
  - intros q [r' E']. apply lookup_insert_Some in E' as [[<- _]|[_ E']]; apply rp_heap0; by eexists.
  - intros q q' r1 r2 E1 E2 He1 He2 Hs.
    apply lookup_insert_Some in E1 as [[<- <-]|[_ E1]], E2 as [[<- <-]|[_ E2]]; cbn in *; try done.
    + by apply (rp_distinct0 p q' r r2).
    + by apply (rp_distinct0 q p r1 r).
    + by apply (rp_distinct0 q q' r1 r2).
  - intros q. specialize (rp_refs0 q). destruct (decide (q = p)) as [->|Hq].
    + rewrite Ep in rp_refs0. by rewrite lookup_insert_eq.
    + by rewrite lookup_insert_ne.
  - intros id it Eit. destruct (rp_iters0 id it Eit) as (pos & -> & Hpos). exists pos. split; [done|].
    destruct (it_obj it), (it_cur_record it) as [q|]; try done. destruct Hpos as (j & (e & Ej) & ->).
    exists j. split; [|done]. destruct (decide (i = j)) as [<-|Hij].
    + rewrite Ei in Ej. injection Ej as <- _. eexists. apply list_lookup_insert_eq. by eapply lookup_lt_Some.
    + exists e. by rewrite list_lookup_insert_ne.
  - rewrite rp_count0. f_equal. unfold spec_size. clear -Hd.
    revert i Hd. induction (sp_data A) as [|e d IH]; intros [|i] E; [done|done| |]; cbn in E.
    + by injection E as ->.
    + change (<[S i := Some (k, v)]> (e :: d)) with (e :: <[i := Some (k, v)]> d).
      specialize (IH i E). destruct e; csimpl; lia.
Qed.

(** The operations that allocate may also run out of memory. *)
Definition or_out_of_memory (o : op val) (set : bool) (A : MapSpec val) (r : result val)
    (A' : MapSpec val) : Prop :=
  exactly o set A r A' \/
  (r = ROutOfMemory /\ (exists n, ext_ok n = false) /\
   match o with
   | OpSet k _ | OpGetOrInsert k _ => spec_find (sp_data A) k = None /\ A' = A
   | OpIterator _ => A' = A
   | OpNext _ => exists r0, exactly o set A r0 A'
   | _ => False
   end).

Lemma js_map_set_implements k v : implements (fun s => js_map_set s k v) (or_out_of_memory (OpSet k v)).
Proof.
  intros L G s A HR HA. unfold js_map_set. rewrite (rp_strong _ _ _ _ _ HR). cbn [andb].
  destruct (lookup_refines _ _ _ _ k HR) as (res & -> & Hres). cbn [mbind option_bind]. destruct res as [p|].
  - destruct Hres as (i & r0 & _ & _ & Ei & Ef).
    destruct (JS_FreeValueRT_spec _ _ _ _ _ AtSet HR) as (s1 & G1 & -> & HR1 & HS & Hset & Hit). cbn [mbind option_bind].
    pose proof (shrinks_live _ _ _ _ _ HS Ei) as Ei1.
    destruct (rep_live _ _ _ _ _ _ _ _ _ HR1 Ei1) as (r & Ep & He & _). rewrite Ep. cbn [mbind option_bind].
    set (v' := if is_set s then JS_UNDEFINED else v).
    pose proof (rep_set_value _ _ _ _ _ _ _ _ v' _ HR1 Ei1 Ep) as HR2.
    eexists _, _, _, _. split; [done|]. split_and!; [|exact HR2| | |done].
    + left. exists 0. cbn. unfold sp_set. by rewrite Ef.
    + by apply (agrees_released A s s1).
    + eapply evolves_keeps; [done|done|]. eapply evolves_trans; [by apply shrinks_evolves|].
      by eapply evolves_insert.
  - destruct (map_add_record_spec L G s A (map_normalize_key k) (if is_set s then JS_UNDEFINED else v) HR)
      as (res & s' & -> & Hset & Hit & Hr); [apply normalize_idem|by rewrite spec_find_normalize|].
    cbn [mbind option_bind]. destruct res as [p|].
    + eexists _, _, _, _. split; [done|]. split_and!; [|exact Hr|by apply (agrees_same A s)| |done].
      * left. exists 0. cbn. unfold sp_set. by rewrite Hres.
      * intros q j _ (e & Ej). exists e. by apply lookup_app_l_Some.
    + destruct Hr as [Hn ->]. eexists _, _, G, A. split; [done|].
      split_and!; [|by apply rep_tick|by apply (agrees_same A s)|by intros q j|done].
      right. split_and!; try done.
Qed.

Lemma js_map_getOrInsert_implements k v :
  implements (fun s => js_map_getOrInsert s k (inl v)) (or_out_of_memory (OpGetOrInsert k v)).
Proof.
  intros L G s A HR HA. unfold js_map_getOrInsert. rewrite (rp_strong _ _ _ _ _ HR). cbn [andb].
  destruct (lookup_refines _ _ _ _ k HR) as (res & -> & Hres). cbn [mbind option_bind]. destruct res as [p|].
  - destruct Hres as (i & r & Ep & _ & Ei & Ef). rewrite Ep. cbn [mbind option_bind].
    eexists _, _, G, A. split; [done|]. split_and!; [|done|by apply (agrees_same A s)|by intros q j|done].
    left. exists 0. cbn. erewrite sp_get_found; [done|done|]. by rewrite (rep_data_lookup _ _ _ _ _ _ HR), Ei.
  - destruct (map_add_record_spec L G s A (map_normalize_key k) v HR)
      as (res & s' & -> & Hset & Hit & Hr); [apply normalize_idem|by rewrite spec_find_normalize|].
    cbn [mbind option_bind]. destruct res as [p|].
    + eexists _, _, _, _. split; [done|]. split_and!; [|exact Hr|by apply (agrees_same A s)| |done].
      * left. exists 0. cbn. unfold sp_get. by rewrite Hres.
      * intros q j _ (e & Ej). exists e. by apply lookup_app_l_Some.
    + destruct Hr as [Hn ->].
      destruct (JS_FreeValueRT_spec _ _ _ _ _ AtSet (rep_tick _ _ _ _ _ HR)) as (s1 & G1 & -> & HR1 & HS & Hset1 & Hit1).
      cbn [mbind option_bind]. eexists _, _, G1, A. split; [done|].
      split_and!; [|done|by apply (agrees_released A s s1)| |done].
      * right. split_and!; try done.
      * eapply evolves_keeps; [done|done|by apply shrinks_evolves].
Qed.

Lemma js_create_map_iterator_implements kind :
  implements (fun s => js_create_map_iterator s kind) (or_out_of_memory (OpIterator kind)).
Proof.
  intros L G s A HR HA. unfold js_create_map_iterator. destruct (ext_ok (ev s)) eqn:Eo; cbn [negb].
  - set (id := fresh (dom (iters s))).
    assert (Hid : iters s !! id = None) by (apply not_elem_of_dom, is_fresh).
    eexists _, _, G, (mkSpec (sp_data A) (<[id := (kind, Some 0%nat)]> (sp_iters A))). split; [done|].
    split_and!; [left; by exists id| | |by intros q j|done].
    + apply rep_tick. destruct HR. constructor; cbn; try done.
      * by eapply table_frame; eauto.
      * intros p. specialize (rp_refs0 p). by rewrite cursors_insert, delete_id, locks_on_none, Z.add_0_l.
      * intros i it Ei. apply lookup_insert_Some in Ei as [[<- <-]|[Hi Ei]].
        -- rewrite lookup_insert_eq. by eexists.
        -- rewrite lookup_insert_ne by done. by apply rp_iters0.
    + intros i. cbn. destruct (decide (i = id)) as [->|Hi]; [by rewrite lookup_insert_eq|].
      rewrite !lookup_insert_ne by done. intros Ei. left. by destruct (HA i Ei).
  - eexists _, _, G, A. split; [done|].
    split_and!; [|by apply rep_tick|by apply (agrees_same A s)|by intros q j|done].
    right. split_and!; try done. by eexists.
Qed.

(** The first record at position [i] or after it. *)
Definition cursor_at G (i : nat) : option ptr := head (omap fst (drop i G)).

Lemma cursor_at_step G i x e : G !! i = Some (x, e) ->
  cursor_at G i = match x with Some p => Some p | None => cursor_at G (S i) end.
Proof. intros E. unfold cursor_at. rewrite (drop_S _ _ _ E). by destruct x. Qed.

Lemma next_in_spec G p i : NoDup (omap fst G) -> position G p i ->
  next_in (omap fst G) p = Some (cursor_at G (S i)).
Proof.
  unfold cursor_at. revert i. induction G as [|[x e] G IH]; intros i Hn [e' Ei]; [done|].
  destruct i as [|i].
  - cbn in Ei. injection Ei as -> ->. cbn. by rewrite decide_True.
  - cbn in Ei. destruct x as [q|]; csimpl.
    + apply NoDup_cons in Hn as [Hq Hn]. rewrite decide_False; [by apply IH; [|exists e']|].
      intros ->. apply Hq. apply (position_in G p i). by exists e'.
    + apply (IH i); [done|by exists e'].
Qed.

Lemma reclaim_drop G p i : NoDup (omap fst G) -> position G p i ->
  drop (S i) (reclaim p G) = drop (S i) G.
Proof.
  intros Hn Hp. unfold reclaim. rewrite <- fmap_drop.
  assert (Hd : forall x, x ∈ drop (S i) G -> fst x <> Some p).
  { intros [x e] Hx. cbn. intros ->. apply list_elem_of_lookup in Hx as [j Ej]. rewrite lookup_drop in Ej.
    pose proof (position_unique G p i (S i + j) Hn Hp ltac:(by eexists)). lia. }
  induction (drop (S i) G) as [|x l IH]; [done|]. csimpl.
  rewrite decide_False by (apply Hd; elems). rewrite IH; [done|]. intros y Hy. apply Hd. elems.
Qed.

Lemma cursor_at_reclaim G p i : NoDup (omap fst G) -> position G p i ->
  cursor_at (reclaim p G) (S i) = cursor_at G (S i).
Proof. intros Hn Hp. unfold cursor_at. by rewrite reclaim_drop. Qed.

Lemma first_live_drop (d : list (option (val * val))) i e : d !! i = Some e ->
  spec_next d i = match e with Some kv => Some (i, kv) | None => spec_next d (S i) end.
Proof. intros E. unfold spec_next. rewrite (drop_S _ _ _ E). by destruct e. Qed.

Lemma skip_empty_spec X L G s A : rep X L G s A -> forall n i fuel, length G = (i + n)%nat ->
  (length (omap fst (drop i G)) <= fuel)%nat ->
  exists res, skip_empty fuel s (cursor_at G i) = Some res /\
    match spec_next (sp_data A) i with
    | Some (j, (k, v)) => exists p, res = Some p /\ G !! j = Some (Some p, Some (k, v))
    | None => res = None
    end.
Proof.
  intros HR. induction n as [|n IH]; intros i fuel Hn Hf.
  - exists None. unfold cursor_at, spec_next. rewrite !drop_ge; [by destruct fuel| |lia].
    rewrite <- (rp_data _ _ _ _ _ HR), length_map. lia.
  - destruct (lookup_lt_is_Some_2 G i ltac:(lia)) as [[x e] Ei].
    pose proof (rep_data_lookup _ _ _ _ _ i HR) as Hd. rewrite Ei in Hd. cbn in Hd.
    rewrite (cursor_at_step _ _ _ _ Ei), (first_live_drop _ _ _ Hd). rewrite (drop_S _ _ _ Ei) in Hf.
    pose proof (Forall_lookup_1 _ _ _ _ (rp_entries _ _ _ _ _ HR) Ei) as He.
    destruct x as [p|]; csimpl in Hf.
    + destruct fuel as [|fuel]; [lia|]. cbn [skip_empty].
      destruct e as [[k v]|]; destruct He as (r & -> & Hr); cbn [mbind option_bind].
      * destruct Hr as (-> & _). exists (Some p). split; [done|]. by exists p.
      * rewrite Hr, (rp_records _ _ _ _ _ HR). erewrite next_in_spec; [|rewrite <- (rp_records _ _ _ _ _ HR); apply HR|by eexists].
        cbn [mbind option_bind]. apply IH; lia.
    + destruct e as [[k v]|]; [done|]. apply IH; [lia|done].
Qed.

Lemma skip_empty_iters m fuel : forall s el, skip_empty fuel (set_iters m s) el = skip_empty fuel s el.
Proof.
  induction fuel as [|fuel IH]; intros s [p|]; try done. cbn. destruct (heap s !! p) as [r|]; [|done]. cbn.
  destruct (mr_empty r); [|done]. destruct (next_in _ _); [|done]. cbn. apply IH.
Qed.

(** An iterator takes over a lock. *)
Lemma rep_give X L G s A id it pos :
  rep X (match it_obj it, it_cur_record it with true, Some p => p :: L | _, _ => L end) G s A ->
  iters s !! id = None -> iter_ok G it (Some (it_kind it, pos)) ->
  rep X L G (set_iters (<[id := it]> (iters s)) s)
    (mkSpec (sp_data A) (<[id := (it_kind it, pos)]> (sp_iters A))).
Proof.
  intros HR Hid Hok. destruct HR. constructor; cbn; try done.
  - by eapply table_frame; eauto.
  - intros p. specialize (rp_refs0 p). rewrite cursors_insert, delete_id by done.
    pose proof (cursors_nonneg p (iters s)). pose proof (occurrences_nonneg p L).
    destruct (it_obj it) eqn:Eo, (it_cur_record it) as [q|] eqn:Ec.
    2-4: by rewrite locks_on_none by (rewrite Eo; try rewrite Ec; done).
    unfold locks_on. rewrite Eo, Ec. cbn [andb]. rewrite occurrences_cons in rp_refs0.
    destruct (decide (q = p)) as [->|Hq].
    + rewrite bool_decide_eq_true_2 by done. destruct (heap s !! p); [|lia].
      destruct rp_refs0 as [-> ?]. split; lia.
    + by rewrite bool_decide_eq_false_2 by congruence.
  - intros id' it' E'. apply lookup_insert_Some in E' as [[<- <-]|[Hne E']].
    + by rewrite lookup_insert_eq.
    + rewrite lookup_insert_ne by done. by apply rp_iters0.
Qed.

(** The iterator moves to the next entry from position [i]; [s0] has given up its old
    lock. *)
Lemma iterator_advances L G s A id kind i : rep [] L G s A -> iters s !! id = None ->
  exists el, skip_empty (length (records s)) s (cursor_at G i) = Some el /\
  match spec_next (sp_data A) i with
  | None => el = None /\
      rep [] L G (set_iters (<[id := mkIter false kind None]> (iters s)) s)
        (mkSpec (sp_data A) (<[id := (kind, None)]> (sp_iters A)))
  | Some (j, (k, v)) => exists p r, el = Some p /\ heap s !! p = Some r /\ mr_key r = k /\ mr_value r = v /\
      rep [] L G (set_iters (<[id := mkIter true kind (Some p)]> (iters s))
                    (write_record p (with_ref r (mr_ref_count r + 1)) s))
        (mkSpec (sp_data A) (<[id := (kind, Some (S j))]> (sp_iters A)))
  end.
Proof.
  intros HR Hid.
  destruct (decide (i <= length G)%nat) as [Hi|Hi].
  - destruct (skip_empty_spec _ _ _ _ _ HR (length G - i) i (length (records s)) ltac:(lia)) as (el & -> & Hel).
    { rewrite (rp_records _ _ _ _ _ HR). rewrite <- (take_drop i G) at 2. rewrite omap_app, length_app. lia. }
    exists el. split; [done|]. destruct (spec_next (sp_data A) i) as [[j [k v]]|].
    + destruct Hel as (p & -> & Ej). destruct (rep_live _ _ _ _ _ _ _ _ _ HR Ej) as (r & Er & _ & Hk & Hv).
      exists p, r. do 4 (split; [done|]). pose proof (rep_lock _ _ _ _ _ _ _ HR Er) as HR1.
      refine (rep_give _ _ _ _ _ id (mkIter true kind (Some p)) (Some (S j)) HR1 Hid _).
      eexists. split; [done|]. cbn. exists j. split; [by eexists|done].
    + split; [done|]. refine (rep_give _ _ _ _ _ id (mkIter false kind None) None HR Hid _). by eexists.
  - exists None. unfold cursor_at, spec_next. rewrite !drop_ge; [|rewrite <- (rp_data _ _ _ _ _ HR), length_map; lia|lia].
    split; [by destruct (length (records s))|]. split; [done|].
    refine (rep_give _ _ _ _ _ id (mkIter false kind None) None HR Hid _). by eexists.
Qed.

(** The first half of [js_map_iterator_next]: the old record is unlocked. *)
Lemma iterator_leaves L G s A id kind cur : rep [] L G s A ->
  iters s !! id = Some (mkIter true kind cur) ->
  exists i s1 G1,
    match cur with
    | None => Some (head (records s), s)
    | Some mr => el ← next_in (records s) mr; s ← map_decref_record mr s; Some (el, s)
    end = Some (cursor_at G1 i, s1) /\
    sp_iters A !! id = Some (kind, Some i) /\ shrinks G G1 /\
    rep [] L G1 (set_iters (delete id (iters s)) s1) A /\ iters s1 = iters s /\ is_set s1 = is_set s.
Proof.
  intros HR E. pose proof (rep_unlock _ _ _ _ _ _ _ HR E) as HU. cbn in HU.
  destruct (rp_iters _ _ _ _ _ HR id _ E) as (pos & Hsp & Hpos). cbn in Hsp, Hpos.
  destruct cur as [mr|].
  - destruct Hpos as (i & Hi & ->). assert (Hn : NoDup (omap fst G)) by (rewrite <- (rp_records _ _ _ _ _ HR); apply HR).
    rewrite (rp_records _ _ _ _ _ HR), (next_in_spec _ _ _ Hn Hi). cbn [mbind option_bind].
    destruct (map_decref_record_frees _ _ _ _ _ _ HU) as (s1' & G1 & E1 & HR1 & HS & Hi1 & _ & Hset1 & HG).
    rewrite decref_iters in E1. destruct (map_decref_record mr s) as [s1|] eqn:E2; [|done].
    cbn in E1. injection E1 as <-. cbn [mbind option_bind].
    exists (S i), s1, G1. cbn in Hi1, Hset1. split_and!; try done.
    + destruct HG as [->| ->]; [done|]. by rewrite cursor_at_reclaim.
    + unfold map_decref_record in E2. destruct (heap s !! mr) as [r|]; [|done]. cbn in E2.
      destruct (_ =? 0); [|by injection E2 as <-]. destruct (mr_empty r); [|done].
      unfold free_record in E2. destruct (decide _); [|done]. by injection E2 as <-.
  - subst pos. exists 0%nat, s, G. split_and!; try done; [|apply shrinks_refl].
    unfold cursor_at. by rewrite drop_0, (rp_records _ _ _ _ _ HR).
Qed.

Lemma agrees_insert D A s s' id it x : agrees D A s -> iters s' = <[id := it]> (iters s) ->
  agrees D (mkSpec (sp_data A) (<[id := x]> (sp_iters A))) s'.
Proof.
  intros HA E i. rewrite E. cbn. destruct (decide (i = id)) as [->|Hi]; [by rewrite lookup_insert_eq|].
  rewrite !lookup_insert_ne by done. apply HA.
Qed.

Lemma js_map_iterator_next_implements id :
  implements (fun s => js_map_iterator_next s id) (or_out_of_memory (OpNext id)).
Proof.
  intros L G s A HR HA. unfold js_map_iterator_next.
  assert (HA' : agrees mortal A s) by (by apply (agrees_same A s)).
  destruct (iters s !! id) as [it|] eqn:E.
  2: { exists RTypeError, s, G, A. split; [done|]. split; [|split_and!; try done; by intros q j].
       left. exists 0. cbn. by destruct (HA id E) as [->|[]]. }
  destruct it as [[] kind cur]; cbn [negb it_obj it_kind it_cur_record].
  2: { exists RDone, s, G, A. split; [done|]. split; [|split_and!; try done; by intros q j].
       left. exists 0. destruct (rp_iters _ _ _ _ _ HR id _ E) as (pos & Hsp & Hpos). cbn in Hsp, Hpos.
       destruct cur; [done|]. subst pos. cbn. by rewrite Hsp. }
  destruct (iterator_leaves _ _ _ _ _ _ _ HR E) as (i & s1 & G1 & -> & Hsp & HS & HR1 & Hi1 & Hset1).
  cbn [mbind option_bind].
  assert (Hid : iters (set_iters (delete id (iters s)) s1) !! id = None) by apply lookup_delete_eq.
  destruct (iterator_advances _ _ _ _ id kind i HR1 Hid) as (el & Eel & Hel).
  rewrite skip_empty_iters in Eel. cbn [records set_iters] in Eel. rewrite Eel. cbn [mbind option_bind].
  destruct (spec_next (sp_data A) i) as [[j [k v]]|] eqn:En.
  - destruct Hel as (p & r & -> & Er & <- & <- & HR2). cbn in Er. rewrite Er. cbn [mbind option_bind].
    set (s2 := set_iters _ (write_record p _ s1)).
    assert (HR3 : rep [] L G1 s2 (mkSpec (sp_data A) (<[id := (kind, Some (S j))]> (sp_iters A)))).
    { cbn in HR2. rewrite insert_delete_eq in HR2. unfold s2. cbn. rewrite Hi1. exact HR2. }
    assert (HA2 : agrees mortal (mkSpec (sp_data A) (<[id := (kind, Some (S j))]> (sp_iters A))) s2).
    { eapply agrees_insert; [done|]. cbn. by rewrite Hi1. }
    assert (HK : keeps_locked L G G1) by (eapply evolves_keeps; [done|exact HR3|by apply shrinks_evolves]).
    assert (Hex : exactly (OpNext id) (is_set s) A (iterator_result (is_set s2) kind (mr_key r) (mr_value r))
      (mkSpec (sp_data A) (<[id := (kind, Some (S j))]> (sp_iters A)))).
    { exists 0. cbn. rewrite Hsp, En, Hset1. done. }
    destruct kind.
    1,2: eexists _, s2, G1, _; split; [done|]; split_and!; [by left|done|done|done|done].
    eexists _, (tick s2), G1, _. split; [done|]. split_and!; [|by apply rep_tick|done|done|done].
    destruct (ext_ok (ev s2)) eqn:Eo; [by left|]. right. split; [done|]. split; [by eexists|]. by eexists.
  - destruct Hel as (-> & HR2). set (s2 := set_iters _ s1).
    assert (HR3 : rep [] L G1 s2 (mkSpec (sp_data A) (<[id := (kind, None)]> (sp_iters A)))).
    { cbn in HR2. rewrite insert_delete_eq in HR2. unfold s2. rewrite Hi1. exact HR2. }
    eexists _, s2, G1, _. split; [done|]. split_and!; [|exact HR3| | |done].
    + left. exists 0. cbn. by rewrite Hsp, En.
    + eapply agrees_insert; [done|]. cbn. by rewrite Hi1.
    + eapply evolves_keeps; [done|exact HR3|by apply shrinks_evolves].
Qed.

(** [js_map_clear] deletes the entries from position [i] on. *)
Definition clear_from (i : nat) (d : list (option (val * val))) :=
  take i d ++ ((fun _ => None) <$> drop i d).

Lemma clear_from_step d i e : d !! i = Some e -> clear_from (S i) (<[i := None]> d) = clear_from i d.
Proof.
  intros E. unfold clear_from. assert (i < length d)%nat by (by eapply lookup_lt_Some).
  rewrite (drop_S d e i E). rewrite drop_insert_lt by lia.
  rewrite (take_S_r (<[i := None]> d) i None) by (by apply list_lookup_insert_eq).
  rewrite take_insert_ge by lia. by rewrite <- app_assoc.
Qed.

Lemma clear_from_ge d i : (length d <= i)%nat -> clear_from i d = d.
Proof. intros. unfold clear_from. rewrite drop_ge, take_ge by lia. apply app_nil_r. Qed.

Lemma rep_length X L G s A : rep X L G s A -> length (sp_data A) = length G.
Proof. intros HR. by rewrite <- (rp_data _ _ _ _ _ HR), length_map. Qed.

(** The element after the first one from position [i] on. *)
Definition cursor_after G (i : nat) : option ptr := head (tail (omap fst (drop i G))).

Lemma cursor_after_step G i x e : G !! i = Some (x, e) ->
  cursor_after G i = match x with Some _ => cursor_at G (S i) | None => cursor_after G (S i) end.
Proof. intros E. unfold cursor_after, cursor_at. rewrite (drop_S _ _ _ E). by destruct x. Qed.

Lemma cursor_at_position G i q : cursor_at G i = Some q ->
  exists j, (i <= j)%nat /\ position G q j /\ cursor_after G i = cursor_at G (S j) /\
    forall x, (i <= x < j)%nat -> exists e, G !! x = Some (None, e).
Proof.
  remember (length G - i)%nat as n eqn:En. revert i En.
  induction n as [|n IH]; intros i En Hc.
  - unfold cursor_at in Hc. by rewrite drop_ge in Hc by lia.
  - destruct (lookup_lt_is_Some_2 G i ltac:(lia)) as [[x e] Ei].
    rewrite (cursor_at_step _ _ _ _ Ei) in Hc. rewrite (cursor_after_step _ _ _ _ Ei). destruct x as [p|].
    + injection Hc as ->. exists i. split_and!; [lia|by eexists|done|lia].
    + destruct (IH (S i) ltac:(lia) Hc) as (j & Hj & Hp & -> & Hx). exists j. split_and!; [lia|done|done|].
      intros y Hy. destruct (decide (y = i)) as [->|]; [by eexists|]. apply Hx. lia.
Qed.

Lemma position_drop G i q x : position G q x -> (i <= x)%nat -> q ∈ omap fst (drop i G).
Proof.
  intros [e Ex] Hi. apply list_elem_of_omap. exists (Some q, e). split; [|done].
  apply list_elem_of_lookup. exists (x - i)%nat. rewrite lookup_drop.
  by replace (i + (x - i))%nat with x by lia.
Qed.

Lemma cursor_at_none G i x : cursor_at G i = None -> (i <= x < length G)%nat ->
  exists e, G !! x = Some (None, e).
Proof.
  intros Ec Hx. destruct (lookup_lt_is_Some_2 G x ltac:(lia)) as [[[q|] e] Ex]; [|by eexists].
  pose proof (position_drop G i q x ltac:(by eexists) ltac:(lia)) as Hin. unfold cursor_at in Ec.
  destruct (omap fst (drop i G)); [by apply not_elem_of_nil in Hin|done].
Qed.

(** ** Positions when records are freed *)

Lemma evolves_drop G G' i q : evolves G G' ->
  q ∈ omap fst (drop i G') -> q ∈ omap fst (drop i G).
Proof.
  intros He Hq. apply in_position in Hq as (x & e & Ex). rewrite lookup_drop in Ex.
  apply (position_drop G i q (i + x)); [|lia]. apply He. by eexists.
Qed.

Lemma evolves_length G G' i : NoDup (omap fst G') -> evolves G G' ->
  (length (omap fst (drop i G')) <= length (omap fst (drop i G)))%nat.
Proof.
  intros Hn' He. apply submseteq_length, NoDup_submseteq.
  - rewrite <- (take_drop i G'), omap_app in Hn'. by apply NoDup_app in Hn' as (_ & _ & ?).
  - intros q. by apply evolves_drop.
Qed.

(** The first record from [i] on still is the first one, unless it has been freed. *)
Lemma cursor_at_evolves G G' i q : NoDup (omap fst G) -> NoDup (omap fst G') -> evolves G G' ->
  cursor_at G i = Some q -> q ∈ omap fst G' -> cursor_at G' i = Some q.
Proof.
  intros Hn Hn' He Hc Hq. destruct (cursor_at_position _ _ _ Hc) as (j & Hj & Hp & _ & Hx).
  apply in_position in Hq as [j' Hp'].
  assert (j' = j) as -> by exact (position_unique _ _ _ _ Hn (He _ _ Hp') Hp).
  destruct Hp' as [e Ej]. destruct (cursor_at G' i) as [q'|] eqn:Ec.
  - destruct (cursor_at_position _ _ _ Ec) as (y & Hy & Hpy & _ & Hxy).
    destruct (Nat.lt_trichotomy y j) as [Hl|[->|Hl]].
    + destruct (He _ _ Hpy) as [e1 E1]. destruct (Hx y ltac:(lia)) as [e2 E2]. congruence.
    + destruct Hpy as [e1 E1]. congruence.
    + destruct (Hxy j ltac:(lia)) as [e1 E1]. congruence.
  - apply lookup_lt_Some in Ej as Hl. destruct (cursor_at_none _ _ j Ec ltac:(lia)) as [e1 E1]. congruence.
Qed.

Lemma cursor_at_evolves_none G G' i : evolves G G' -> cursor_at G i = None -> cursor_at G' i = None.
Proof.
  intros He Hc. unfold cursor_at in *. destruct (omap fst (drop i G')) as [|q l] eqn:E; [done|].
  pose proof (evolves_drop G G' i q He ltac:(rewrite E; elems)) as Hq.
  destruct (omap fst (drop i G)); [by apply not_elem_of_nil in Hq|done].
Qed.

Lemma next_in_none l q : q ∉ l -> next_in l q = None.
Proof.
  induction l as [|p l IH]; cbn; [done|]. intros Hq. apply not_elem_of_cons in Hq as [? Hq].
  rewrite decide_False by done. by apply IH.
Qed.

(** The iterators of [s] that are not in [s'] are mortal. *)
Definition spares s s' : Prop :=
  forall id, iters s' !! id = iters s !! id \/ (iters s' !! id = None /\ mortal id).

Lemma spares_trans s1 s2 s3 : spares s1 s2 -> spares s2 s3 -> spares s1 s3.
Proof.
  intros HA HB id. destruct (HA id) as [EA|[EA ?]], (HB id) as [EB|[EB ?]]; rewrite ?EA in EB; auto.
Qed.

(** Some release at [at_] finalizes an iterator of the collection. *)
Definition finalizes (at_ : site) : Prop := exists n, dying at_ n <> [].

Lemma quiet_or_finalizes at_ n : dying at_ n = [] \/ finalizes at_.
Proof. destruct (dying at_ n) eqn:E; [by left|right; exists n; by rewrite E]. Qed.

(** The deletion of the record at position [i]: when it finalizes nothing, it frees no
    record after it. *)
Lemma clear_one X L G s A i p e :
  rep X L G s A -> (forall q, q ∈ records s -> q ∈ X) -> G !! i = Some (Some p, e) ->
  exists s' G', map_delete_record_internal AtClear s p = Some s' /\
    rep X L G' s' (without i A) /\ evolves G G' /\ spares s s' /\ is_set s' = is_set s /\
    (drop (S i) G' = drop (S i) G \/ finalizes AtClear).
Proof.
  intros HR HX Ei. pose proof (Forall_lookup_1 _ _ _ _ (rp_entries _ _ _ _ _ HR) Ei) as He.
  assert (Hp : p ∈ X).
  { apply HX. rewrite (rp_records _ _ _ _ _ HR). apply (position_in G p i). by eexists. }
  destruct e as [[k v]|].
  - destruct (quiet_or_finalizes AtClear (ev s)) as [Hq1|Hf];
      [destruct (quiet_or_finalizes AtClear (S (ev s))) as [Hq2|Hf]|].
    2-3: destruct (map_delete_record_internal_spec AtClear _ _ _ _ _ _ _ _ _ HR Hp Ei)
           as (s' & G' & E' & HR' & Hev & Hset & Hit); exists s', G'; split_and!; try done; by right.
    unfold map_delete_record_internal. destruct He as (r & Er & He & _). rewrite Er. cbn [mbind option_bind].
    rewrite He, (rp_strong _ _ _ _ _ HR). rewrite (JS_FreeValueRT_quiet s) by done. cbn [mbind option_bind].
    rewrite (JS_FreeValueRT_quiet (tick s)) by done. cbn [mbind option_bind].
    destruct (delete_tail_spec X L G (tick (tick s)) A p i k v) as (s' & G' & E' & HR' & Hi & Hset & HG);
      [by do 2 apply rep_tick|done|done|].
    exists s', G'. split; [exact E'|]. split; [done|].
    assert (Hn : NoDup (omap fst G)) by (rewrite <- (rp_records _ _ _ _ _ HR); apply HR).
    split; [by eapply delete_tail_evolves|]. split; [intros id; left; by rewrite Hi|]. split; [done|]. left.
    destruct HG as [->| ->]; [by rewrite drop_insert_lt by lia|]. rewrite reclaim_drop.
    + by rewrite drop_insert_lt by lia.
    + by rewrite (set_records_insert _ _ _ _ _ Ei).
    + eexists. apply list_lookup_insert_eq. by eapply lookup_lt_Some.
  - unfold map_delete_record_internal. destruct He as (r & Er & He). rewrite Er. cbn [mbind option_bind]. rewrite He.
    exists s, G. split; [done|]. split; [|split_and!; [by intros q x|by intros id; left|done|by left]].
    assert (without i A = A) as ->; [|done]. unfold without. rewrite list_insert_id; [by destruct A|].
    by rewrite (rep_data_lookup _ _ _ _ _ _ HR), Ei.
Qed.

(** The entries without a record are empty. *)
Lemma clear_from_skip X L G s A i j : rep X L G s A -> (i <= j)%nat ->
  (forall x, (i <= x < j)%nat -> exists e, G !! x = Some (None, e)) ->
  clear_from j (sp_data A) = clear_from i (sp_data A).
Proof.
  intros HR Hij Hx. induction Hij as [|j Hij IH]; [done|].
  rewrite <- IH by (intros x Hx'; apply Hx; lia).
  destruct (Hx j ltac:(lia)) as [e Ej].
  pose proof (Forall_lookup_1 _ _ _ _ (rp_entries _ _ _ _ _ HR) Ej) as He. destruct e; [done|].
  pose proof (rep_data_lookup _ _ _ _ _ j HR) as Hd. rewrite Ej in Hd. cbn in Hd.
  rewrite <- (clear_from_step _ _ _ Hd). by rewrite list_insert_id.
Qed.

Lemma clear_from_end X L G s A i : rep X L G s A -> cursor_at G i = None ->
  mkSpec (clear_from i (sp_data A)) (sp_iters A) = A.
Proof.
  intros HR Ec. assert (clear_from i (sp_data A) = sp_data A) as ->; [|by destruct A].
  rewrite <- (clear_from_ge (sp_data A) (i `max` length G)) at 2 by (rewrite (rep_length _ _ _ _ _ HR); lia).
  symmetry. eapply clear_from_skip; [done|lia|]. intros x Hx. eapply cursor_at_none; [done|lia].
Qed.

(** The loop reaches the end, or it stops at a record that has been freed. *)
Lemma clear_loop_spec X L fuel : forall i G s A,
  rep X L G s A -> (forall q, q ∈ records s -> q ∈ X) ->
  (length (omap fst (drop i G)) <= fuel)%nat ->
  (clear_loop fuel s (cursor_at G i) (cursor_after G i) = None /\ finalizes AtClear) \/
  exists s' G', clear_loop fuel s (cursor_at G i) (cursor_after G i) = Some s' /\
    rep X L G' s' (mkSpec (clear_from i (sp_data A)) (sp_iters A)) /\ evolves G G' /\
    spares s s' /\ is_set s' = is_set s.
Proof.
  induction fuel as [|fuel IH]; intros i G s A HR HX Hf;
    (destruct (cursor_at G i) as [p|] eqn:Ec;
     [destruct (cursor_at_position _ _ _ Ec) as (j & Hj & [e Ej] & -> & Hx)|
      right; exists s, G; rewrite (clear_from_end _ _ _ _ _ _ HR Ec); split; [done|];
      split; [done|]; split_and!; [by intros q x|by intros id; left|done]]).
  - pose proof (position_drop G i p j ltac:(by eexists) Hj) as Hin.
    destruct (omap fst (drop i G)); [by apply not_elem_of_nil in Hin|cbn in Hf; lia].
  - cbn [clear_loop].
    destruct (clear_one _ _ _ _ _ _ _ _ HR HX Ej) as (s1 & G1 & -> & HR1 & He1 & Hi1 & Hset1 & Hd1).
    cbn [mbind option_bind].
    assert (Hn : NoDup (omap fst G)) by (rewrite <- (rp_records _ _ _ _ _ HR); apply HR).
    assert (Hn1 : NoDup (omap fst G1)) by (rewrite <- (rp_records _ _ _ _ _ HR1); apply HR1).
    assert (Hcl : clear_from (S j) (sp_data (without j A)) = clear_from i (sp_data A)).
    { cbn. rewrite <- (clear_from_skip _ _ _ _ _ _ _ HR Hj Hx). eapply clear_from_step.
      by rewrite (rep_data_lookup _ _ _ _ _ _ HR), Ej. }
    destruct (cursor_at G (S j)) as [q|] eqn:Eq.
    + rewrite (rp_records _ _ _ _ _ HR1). destruct (decide (q ∈ omap fst G1)) as [Hq|Hq].
      * pose proof (cursor_at_evolves _ _ _ _ Hn Hn1 He1 Eq Hq) as Hc1.
        destruct (cursor_at_position _ _ _ Hc1) as (x & _ & Hpx & Hca & _).
        rewrite (next_in_spec _ _ _ Hn1 Hpx). cbn [mbind option_bind]. rewrite <- Hca, <- Hc1.
        assert (HX1 : forall q, q ∈ records s1 -> q ∈ X).
        { intros q'. rewrite (rp_records _ _ _ _ _ HR1). intros Hin. apply in_position in Hin as [y Hy].
          apply HX. rewrite (rp_records _ _ _ _ _ HR). by eapply position_in, He1. }
        destruct (IH (S j) G1 s1 (without j A) HR1 HX1) as [?|(s2 & G2 & E2 & HR2 & He2 & Hi2 & Hset2)]; [|by left|].
        -- pose proof (evolves_length _ _ (S j) Hn1 He1) as Hl.
           replace (drop i G) with (take (j - i) (drop i G) ++ drop j G) in Hf.
           ++ rewrite omap_app, length_app, (drop_S _ _ _ Ej) in Hf. csimpl in Hf. lia.
           ++ rewrite <- (take_drop (j - i) (drop i G)) at 2. rewrite drop_drop. do 2 f_equal. lia.
        -- right. rewrite Hcl in HR2. exists s2, G2.
           split_and!; [done|done|by eapply evolves_trans|by eapply spares_trans|congruence].
      * rewrite next_in_none by done. left. split; [done|]. destruct Hd1 as [Hd1|]; [|done].
        destruct Hq. unfold cursor_at in Eq. rewrite <- Hd1 in Eq.
        destruct (omap fst (drop (S j) G1)) as [|q' l] eqn:El; [done|]. injection Eq as ->.
        rewrite <- (take_drop (S j) G1), omap_app, El. apply elem_of_app. right. elems.
    + right. pose proof (clear_from_end _ _ _ _ _ _ HR1 (cursor_at_evolves_none _ _ _ He1 Eq)) as Hend.
      exists s1, G1. rewrite <- Hcl. split; [done|].
      change (sp_iters A) with (sp_iters (without j A)). rewrite Hend. by split_and!.
Qed.

(** [js_map_clear] implements its specification or touches a freed record; the latter only
    when one of its releases finalizes an iterator of the collection. *)
Lemma js_map_clear_implements L G s A : rep [] L G s A -> alive A s ->
  (js_map_clear s = None /\ finalizes AtClear) \/
  exists r s' G' A', js_map_clear s = Some (r, s') /\ exactly OpClear (is_set s) A r A' /\
    rep [] L G' s' A' /\ agrees mortal A' s' /\ keeps_locked L G G' /\ is_set s' = is_set s.
Proof.
  intros HR HA. unfold js_map_clear.
  set (s1 := set_table (null_table (hash_bits s)) s).
  assert (HR1 : rep (records s) L G s1 A).
  { pose proof (rp_table _ _ _ _ _ HR) as [Hb _ Hk _].
    eapply rep_relinked; [done|apply relinked_table|]. apply table_null; try done.
    intros p r E _. eapply rp_heap; [done|by eexists]. }
  set (run := match head (records s1) with None => _ | Some _ => _ end).
  assert (Hcl : (run = None /\ finalizes AtClear) \/
    exists s' G', rep (records s) L G' s' (mkSpec (clear_from 0 (sp_data A)) (sp_iters A)) /\
      evolves G G' /\ spares s1 s' /\ is_set s' = is_set s1 /\ run = Some (RUndefined, s')).
  { unfold run.
    assert (Hh : head (records s1) = cursor_at G 0) by (unfold cursor_at; by rewrite drop_0, (rp_records _ _ _ _ _ HR1)).
    rewrite Hh. destruct (cursor_at G 0) as [p|] eqn:Ec.
    - destruct (cursor_at_position _ _ _ Ec) as (j & _ & Hj & Hca & _).
      assert (Hn : NoDup (omap fst G)) by (rewrite <- (rp_records _ _ _ _ _ HR); apply HR).
      rewrite (rp_records _ _ _ _ _ HR1), (next_in_spec _ _ _ Hn Hj). cbn [mbind option_bind].
      destruct (clear_loop_spec (records s) L (length (omap fst G)) 0 G s1 A HR1)
        as [[E ?]|(s' & G' & E & HR' & He & Hi & Hs)]; [done|by rewrite drop_0|left|right];
        rewrite Hca, Ec in E; rewrite E; [done|by exists s', G'].
    - right. exists s1, G. rewrite (clear_from_end _ _ _ _ _ _ HR1 Ec).
      split; [done|]. split_and!; [by intros q x|by intros id; left|done..]. }
  destruct Hcl as [?|(s' & G' & HR' & He & Hi & Hs & ->)]; [by left|right].
  exists RUndefined, s', G', (mkSpec (clear_from 0 (sp_data A)) (sp_iters A)). split; [done|].
  split_and!; [by exists 0| | |by eapply evolves_keeps|done].
  - eapply rep_forget; [done|]. intros p r _ Er. destruct (mr_empty r) eqn:Em; [done|].
    destruct (rep_entry _ _ _ _ _ _ _ HR' Er) as [i Ei]. rewrite Em in Ei.
    pose proof (rep_data_lookup _ _ _ _ _ i HR') as Hd. rewrite Ei in Hd. cbn in Hd.
    unfold clear_from in Hd. rewrite take_0, drop_0 in Hd. cbn [app] in Hd.
    rewrite list_lookup_fmap in Hd. by destruct (sp_data A !! i).
  - by apply (agrees_released A s s').
Qed.

(** ** Iterators that die in a release *)

Definition kills (A A' : MapSpec val) : Prop :=
  sp_data A' = sp_data A /\
  forall id, sp_iters A' !! id = sp_iters A !! id \/ (sp_iters A' !! id = None /\ mortal id).

Lemma kills_trans A1 A2 A3 : kills A1 A2 -> kills A2 A3 -> kills A1 A3.
Proof.
  intros [HA HB] [HC HD]. split; [congruence|]. intros id.
  destruct (HB id) as [E1|[E1 ?]], (HD id) as [E2|[E2 ?]]; rewrite ?E1 in E2; auto.
Qed.

(** The dead iterators leave the specification. *)
Lemma settle X L G s A : rep X L G s A -> agrees mortal A s ->
  exists A', kills A A' /\ rep X L G s A' /\ alive A' s.
Proof.
  intros HR HA.
  set (m := filter (fun x : Z * (JSIteratorKindEnum * option nat) => is_Some (iters s !! x.1)) (sp_iters A)).
  assert (Hm : forall id, m !! id = if decide (is_Some (iters s !! id)) then sp_iters A !! id else None).
  { intros id. unfold m. destruct (decide _) as [Hi|Hi].
    - destruct (sp_iters A !! id) as [x|] eqn:E; [by apply map_lookup_filter_Some|].
      apply map_lookup_filter_None. by left.
    - apply map_lookup_filter_None. by right. }
  exists (mkSpec (sp_data A) m). split_and!.
  - split; [done|]. intros id. cbn. rewrite Hm. destruct (decide _) as [Hi|Hi]; [by left|].
    apply eq_None_not_Some in Hi. destruct (HA id Hi) as [->|?]; [by left|by right].
  - destruct HR. constructor; cbn; try done. intros id it E. rewrite Hm, decide_True by by eexists.
    by apply rp_iters0.
  - intros id E. left. cbn. by rewrite Hm, decide_False by (rewrite E; by intros []).
Qed.

Definition settled {R} (spec : bool -> MapSpec val -> R -> MapSpec val -> Prop) (set : bool)
    (A : MapSpec val) (r : R) (A' : MapSpec val) : Prop :=
  exists A1, spec set A r A1 /\ kills A1 A'.

(** [implements] for a program that goes on: the two sides agree on the live iterators. *)
Definition realizes {R} (run : JSMapState val -> option (R * JSMapState val))
    (spec : bool -> MapSpec val -> R -> MapSpec val -> Prop) : Prop :=
  forall L G s A, rep [] L G s A -> alive A s ->
  exists r s' G' A', run s = Some (r, s') /\ settled spec (is_set s) A r A' /\ rep [] L G' s' A' /\
    alive A' s' /\ keeps_locked L G G' /\ is_set s' = is_set s.

(** A program that realizes [spec], or touches freed memory when [danger] holds. *)
Definition attempts {R} (danger : Prop) (run : JSMapState val -> option (R * JSMapState val))
    (spec : bool -> MapSpec val -> R -> MapSpec val -> Prop) : Prop :=
  forall L G s A, rep [] L G s A -> alive A s ->
  (run s = None /\ danger) \/
  exists r s' G' A', run s = Some (r, s') /\ settled spec (is_set s) A r A' /\ rep [] L G' s' A' /\
    alive A' s' /\ keeps_locked L G G' /\ is_set s' = is_set s.

Lemma implements_realizes {R} (run : JSMapState val -> option (R * JSMapState val)) spec :
  implements run spec -> realizes run spec.
Proof.
  intros Hi L G s A HR HA. destruct (Hi L G s A HR HA) as (r & s' & G' & A1 & E & Hs & HR' & HA' & HK & Hset).
  destruct (settle _ _ _ _ _ HR' HA') as (A' & Hk & HR2 & HA2).
  exists r, s', G', A'. split_and!; try done. by exists A1.
Qed.

Lemma realizes_attempts {R} danger (run : JSMapState val -> option (R * JSMapState val)) spec :
  realizes run spec -> attempts danger run spec.
Proof. intros Hr L G s A HR HA. right. by apply Hr. Qed.

(** ** The loop of [forEach] *)

Lemma spec_next_skip X L G s A i j : rep X L G s A -> (i <= j)%nat ->
  (forall x, (i <= x < j)%nat -> exists e, G !! x = Some (None, e)) ->
  spec_next (sp_data A) i = spec_next (sp_data A) j.
Proof.
  intros HR Hij Hx. induction Hij as [|j Hij IH]; [done|].
  rewrite IH by (intros x Hx'; apply Hx; lia).
  destruct (Hx j ltac:(lia)) as [e Ej].
  pose proof (Forall_lookup_1 _ _ _ _ (rp_entries _ _ _ _ _ HR) Ej) as He. destruct e; [done|].
  pose proof (rep_data_lookup _ _ _ _ _ j HR) as Hd. rewrite Ej in Hd. cbn in Hd.
  by rewrite (first_live_drop _ _ _ Hd).
Qed.

Lemma spec_next_end X L G s A i : rep X L G s A -> cursor_at G i = None ->
  spec_next (sp_data A) i = None.
Proof.
  intros HR Ec. rewrite (spec_next_skip _ _ _ _ _ i (i `max` length G) HR); [|lia|].
  - unfold spec_next. rewrite drop_ge; [done|]. rewrite (rep_length _ _ _ _ _ HR). lia.
  - intros x Hx. eapply cursor_at_none; [done|lia].
Qed.

Lemma spec_forEach_from (set : bool) call i j A b A' :
  spec_next (sp_data A) i = spec_next (sp_data A) j ->
  spec_forEach set call j A b A' -> spec_forEach set call i A b A'.
Proof.
  intros E Hj. revert E. destruct Hj as [j A Hn|j A j' k v A' Hn Hc|j A j' k v A1 b A2 Hn Hc Hr]; intros E.
  - apply forEach_end. congruence.
  - eapply forEach_throw; [by rewrite E|done].
  - eapply forEach_step; [by rewrite E|done|done].
Qed.

(** [JS_FreeValueRT] as a step of a program. *)
Lemma release_realizes at_ : realizes (fun s => (pair tt) <$> JS_FreeValueRT at_ s) (fun _ A _ A' => A' = A).
Proof.
  apply implements_realizes. intros L G s A HR HA.
  destruct (JS_FreeValueRT_spec _ _ _ _ _ at_ HR) as (s' & G' & -> & HR' & HS & Hset & Hit).
  exists tt, s', G', A. split_and!; try done; [by apply (agrees_released A s s')|].
  eapply evolves_keeps; [done|done|by apply shrinks_evolves].
Qed.

Context (call : val -> val -> JSMapState val -> option (bool * JSMapState val)).
Context (call_spec : bool -> val -> val -> MapSpec val -> bool -> MapSpec val -> Prop).
Context (danger : Prop)
  (call_ok : forall v k, attempts danger (call v k) (fun set A b A' => call_spec set v k A b A')).

(** What the callback may do, with the iterators that die meanwhile. *)
Definition call_step (set : bool) (v k : val) (A : MapSpec val) (b : bool) (A' : MapSpec val) : Prop :=
  exists A1, call_spec set v k A b A1 /\ kills A1 A'.

(** One iteration on a live record: the callback, then the releases of its arguments. *)
Definition call_entry (p : ptr) (r : JSMapRecord val) s :=
  '(ok, s) ← call (if is_set s then mr_key r else mr_value r) (mr_key r)
               (write_record p (with_ref r (mr_ref_count r + 1)) s);
  s ← JS_FreeValueRT AtForEachArgs s;
  s ← (if is_set s then Some s else JS_FreeValueRT AtForEachArgs s);
  el ← next_in (records s) p;
  s ← map_decref_record p s;
  Some (ok, el, s).

Lemma forEach_loop_live fuel p r s : heap s !! p = Some r -> mr_empty r = false ->
  forEach_loop call (S fuel) (Some p) s =
    ('(ok, el, s) ← call_entry p r s;
     if negb ok then Some (Some false, s)
     else s ← JS_FreeValueRT AtForEachResult s; forEach_loop call fuel el s).
Proof.
  intros Er Hem. cbn [forEach_loop]. rewrite Er. cbn [mbind option_bind]. rewrite Hem. cbn [negb].
  unfold call_entry. cbn [is_set write_record set_heap].
  destruct (call _ _ _) as [[b' s1]|]; [|done]. cbn [mbind option_bind].
  destruct (JS_FreeValueRT AtForEachArgs s1) as [s2|]; [|done]. cbn [mbind option_bind].
  destruct (if is_set s2 then _ else _) as [s2'|]; [|done]. cbn [mbind option_bind].
  destruct (next_in (records s2') p) as [el|]; [|done]. cbn [mbind option_bind].
  by destruct (map_decref_record p s2') as [s4|].
Qed.

Lemma forEach_call L G s A p j : rep [] L G s A -> alive A s -> position G p j ->
  forall k v, sp_data A !! j = Some (Some (k, v)) ->
  exists r, heap s !! p = Some r /\ mr_empty r = false /\
  ((call_entry p r s = None /\ danger) \/
   exists b s3 G3 A3, call_entry p r s = Some (b, cursor_at G3 (S j), s3) /\
    call_step (is_set s) (if is_set s then k else v) k A b A3 /\
    rep [] L G3 s3 A3 /\ alive A3 s3 /\ keeps_locked L G G3 /\ is_set s3 = is_set s).
Proof.
  intros HR HA [e Ej] k v Hd. rewrite (rep_data_lookup _ _ _ _ _ _ HR), Ej in Hd. injection Hd as ->.
  destruct (rep_live _ _ _ _ _ _ _ _ _ HR Ej) as (r & Er & He & <- & <-). exists r.
  pose proof (rep_lock _ _ _ _ _ _ _ HR Er) as HR0. set (s0 := write_record _ _ _) in *.
  do 2 (split; [done|]). unfold call_entry. fold s0.
  destruct (call_ok (if is_set s then mr_key r else mr_value r) (mr_key r) _ _ s0 A HR0 HA)
    as [[-> Hdg]|(b & s1 & G1 & A1 & -> & (A1' & Hc & Hk1) & HR1 & HA1 & HK1 & Hset1)]; [by left|right].
  cbn [mbind option_bind].
  destruct (release_realizes AtForEachArgs _ _ _ _ HR1 HA1) as ([] & s2 & G2 & A2 & E2 & (? & -> & Hk2) & HR2 & HA2 & HK2 & Hset2).
  destruct (JS_FreeValueRT AtForEachArgs s1); [|done]. injection E2 as ->. cbn [mbind option_bind].
  assert (Hrel : exists s3 G3 A3, (if is_set s2 then Some s2 else JS_FreeValueRT AtForEachArgs s2) = Some s3 /\
    kills A2 A3 /\ rep [] (p :: L) G3 s3 A3 /\ alive A3 s3 /\ keeps_locked (p :: L) G2 G3 /\ is_set s3 = is_set s2).
  { destruct (is_set s2) eqn:Es.
    - exists s2, G2, A2. split_and!; try done; [split; [done|by left]|by intros q i].
    - destruct (release_realizes AtForEachArgs _ _ _ _ HR2 HA2) as ([] & s3 & G3 & A3 & E3 & (? & -> & Hk3) & HR3 & HA3 & HK3 & Hset3).
      destruct (JS_FreeValueRT AtForEachArgs s2); [|done]. injection E3 as ->.
      exists s3, G3, A3. split_and!; try done. congruence. }
  destruct Hrel as (s3 & G3 & A3 & -> & Hk3 & HR3 & HA3 & HK3 & Hset3). cbn [mbind option_bind].
  assert (Hin : p ∈ p :: L) by elems.
  assert (Hpos : position G3 p j).
  { apply HK3; [done|]. apply HK2; [done|]. apply HK1; [done|by eexists]. }
  assert (Hn : NoDup (omap fst G3)) by (rewrite <- (rp_records _ _ _ _ _ HR3); apply HR3).
  rewrite (rp_records _ _ _ _ _ HR3), (next_in_spec _ _ _ Hn Hpos). cbn [mbind option_bind].
  destruct (map_decref_record_frees _ _ _ _ _ _ HR3) as (s4 & G4 & -> & HR4 & HS4 & Hi4 & _ & Hset4 & HG4).
  cbn [mbind option_bind]. exists b, s4, G4, A3.
  assert (is_set s0 = is_set s) as Hs0 by done. split_and!; try done.
  - destruct HG4 as [->| ->]; [done|]. by rewrite cursor_at_reclaim.
  - exists A1'. rewrite Hs0 in Hc. split; [done|]. eauto using kills_trans.
  - intros id. rewrite Hi4. apply HA3.
  - assert (HK4 : keeps_locked L G3 G4).
    { intros q i Hq Hi. eapply shrinks_position; [done|done|done|]. by eapply locked_record. }
    intros q i Hq Hi. apply HK4; [done|]. assert (q ∈ p :: L) by elems.
    apply HK3; [done|]. apply HK2; [done|]. by apply HK1.
  - congruence.
Qed.

Lemma keeps_refl L G : keeps_locked L G G.
Proof. by intros q i. Qed.

(** The callback does not add entries. *)
Definition call_bounded : Prop := forall set v k A b A',
  call_spec set v k A b A' -> length (sp_data A') = length (sp_data A).

(** What the loop may do from position [i]. *)
Definition loop_result (i : nat) (fuel : nat) L G s A (o : option (option bool * JSMapState val)) : Prop :=
  (o = None /\ (danger \/ finalizes AtForEachResult)) \/
  exists r s' G' A', o = Some (r, s') /\
    (if r is Some b then spec_forEach (is_set s) (fun v k => call_step (is_set s) v k) i A b A' else True) /\
    rep [] L G' s' A' /\ alive A' s' /\ keeps_locked L G G' /\ is_set s' = is_set s /\
    (call_bounded -> (length G <= i + fuel)%nat -> is_Some r).

(** The release of the result of the callback: the next record still is the next one, or
    it has been freed. *)
Lemma forEach_release L G s A i : rep [] L G s A -> alive A s ->
  exists s' G' A', JS_FreeValueRT AtForEachResult s = Some s' /\ rep [] L G' s' A' /\ alive A' s' /\
    kills A A' /\ keeps_locked L G G' /\ is_set s' = is_set s /\
    (cursor_at G' i = cursor_at G i \/
     exists q, cursor_at G i = Some q /\ heap s' !! q = None /\ finalizes AtForEachResult /\
       (i < length G)%nat).
Proof.
  intros HR HA.
  destruct (JS_FreeValueRT_spec _ _ _ _ _ AtForEachResult HR) as (s' & G' & E & HR' & HS & Hset & Hit).
  destruct (settle _ _ _ _ _ HR' (agrees_released A s s' HA Hit)) as (A' & Hk & HR2 & HA2).
  assert (Hn : NoDup (omap fst G)) by (rewrite <- (rp_records _ _ _ _ _ HR); apply HR).
  assert (Hn' : NoDup (omap fst G')) by (rewrite <- (rp_records _ _ _ _ _ HR'); apply HR').
  pose proof (shrinks_evolves _ _ HS) as He.
  exists s', G', A'. split_and!; try done; [by eapply evolves_keeps|].
  destruct (cursor_at G i) as [q|] eqn:Ec; [|left; by eapply cursor_at_evolves_none].
  destruct (decide (q ∈ omap fst G')) as [Hq|Hq]; [left; by apply (cursor_at_evolves G)|].
  right. exists q. split; [done|].
  destruct (cursor_at_position _ _ _ Ec) as (j & Hj & Hp & _). split_and!.
  - apply eq_None_not_Some. intros Hs. apply Hq. rewrite <- (rp_records _ _ _ _ _ HR').
    by eapply rep_heap_iff.
  - destruct (quiet_or_finalizes AtForEachResult (ev s)) as [Hq0|]; [|done].
    rewrite JS_FreeValueRT_quiet in E by done. injection E as <-. destruct Hq.
    rewrite <- (rp_records _ _ _ _ _ HR'). cbn. rewrite (rp_records _ _ _ _ _ HR). by eapply position_in.
  - destruct Hp as [e Ej]. apply lookup_lt_Some in Ej. lia.
Qed.

Lemma forEach_loop_spec fuel : forall i L G s A, rep [] L G s A -> alive A s ->
  loop_result i fuel L G s A (forEach_loop call fuel (cursor_at G i) s).
Proof.
  induction fuel as [|fuel IH]; intros i L G s A HR HA;
    (destruct (cursor_at G i) as [p|] eqn:Ec;
     [|right; exists (Some true), s, G, A; split_and!; try done;
       [by constructor; eapply spec_next_end|apply keeps_refl]]).
  - right. exists None, s, G, A. split_and!; try done; [apply keeps_refl|]. intros _ Hl.
    destruct (cursor_at_position _ _ _ Ec) as (j & Hj & [e Ej] & _).
    apply lookup_lt_Some in Ej. lia.
  - destruct (cursor_at_position _ _ _ Ec) as (j & Hj & Hp & _ & Hx).
    pose proof (spec_next_skip _ _ _ _ _ _ _ HR Hj Hx) as Hnx.
    pose proof Hp as [e Ej]. pose proof (rep_data_lookup _ _ _ _ _ j HR) as Hd. rewrite Ej in Hd. cbn in Hd.
    pose proof (Forall_lookup_1 _ _ _ _ (rp_entries _ _ _ _ _ HR) Ej) as He.
    pose proof (first_live_drop _ _ _ Hd) as Hf. destruct e as [[k v]|].
    + destruct (forEach_call _ _ _ _ _ _ HR HA Hp k v Hd)
        as (r & Er & Hem & [[E Hdg]|(b & s3 & G3 & A3 & E & Hc & HR3 & HA3 & HK3 & Hset3)]);
        rewrite (forEach_loop_live _ _ _ _ Er Hem), E; cbn [mbind option_bind]; [by left; split; [|left]|].
      assert (HLen : call_bounded -> length G3 = length G).
      { intros Hbd. destruct Hc as (A1 & Hc & [Hk _]). apply Hbd in Hc.
        by rewrite <- (rep_length _ _ _ _ _ HR3), Hk, Hc, (rep_length _ _ _ _ _ HR). }
      destruct b; cbn [negb].
      2: { right. exists (Some false), s3, G3, A3. split_and!; try done.
           eapply forEach_throw; [by rewrite Hnx, Hf|done]. }
      destruct (forEach_release L G3 s3 A3 (S j) HR3 HA3)
        as (s4 & G4 & A4 & -> & HR4 & HA4 & Hk4 & HK4 & Hset4 & Hcur). cbn [mbind option_bind].
      assert (HL4 : length G4 = length G3).
      { rewrite <- (rep_length _ _ _ _ _ HR4), <- (rep_length _ _ _ _ _ HR3). by rewrite (proj1 Hk4). }
      destruct Hcur as [<-|(q & -> & Hq & Hfin & Hlt)].
      * destruct (IH (S j) L G4 s4 A4 HR4 HA4) as [[-> ?]|(r' & s' & G' & A' & -> & Hs & HR' & HA' & HK' & Hset' & Hb)];
          [by left|right].
        exists r', s', G', A'. rewrite Hset4, Hset3 in Hs, Hset'. split_and!; try done.
        -- destruct r' as [b|]; [|done]. eapply forEach_step; [by rewrite Hnx, Hf| |done].
           destruct Hc as (A1 & Hc & Hk1). exists A1. split; [done|]. by eapply kills_trans.
        -- intros q x Hq Hq'. apply HK'; [done|]. apply HK4; [done|]. by apply HK3.
        -- intros Hbd Hl. apply Hb; [done|]. rewrite HL4, (HLen Hbd). lia.
      * destruct fuel as [|fuel].
        -- right. exists None, s4, G4, A4. split_and!; try done; [|congruence|].
           ++ intros q' x Hq' Hx'. apply HK4; [done|]. by apply HK3.
           ++ intros Hbd Hl. rewrite (HLen Hbd) in Hlt. lia.
        -- left. split; [|by right]. cbn [forEach_loop]. by rewrite Hq.
    + destruct He as (r & Er & Hem). cbn [forEach_loop]. rewrite Er. cbn [mbind option_bind]. rewrite Hem. cbn [negb].
      assert (Hn : NoDup (omap fst G)) by (rewrite <- (rp_records _ _ _ _ _ HR); apply HR).
      rewrite (rp_records _ _ _ _ _ HR), (next_in_spec _ _ _ Hn Hp). cbn [mbind option_bind].
      destruct (IH (S j) L G s A HR HA) as [[-> ?]|(r' & s' & G' & A' & -> & Hs & HR' & HA' & HK' & Hset' & Hb)];
        [by left|right].
      exists r', s', G', A'. split_and!; try done.
      * destruct r' as [b|]; [|done]. eapply spec_forEach_from; [|done]. by rewrite Hnx, Hf.
      * intros Hbd Hl. apply Hb; [done|lia].
Qed.
End preserve.

(** ** Theorems *)
Section theorems.
Context {val : Type} `{HV : MapValue val} `{HL : !MapValueLaws val} {Lv : Liveness val}
  {W : World} {Al : Malloc} {Rl : Releases}.

Fixpoint run_ops (os : list (op val)) (s : JSMapState val) : option (list (result val) * JSMapState val) :=
  match os with
  | [] => Some ([], s)
  | o :: os => '(r, s) ← run_op o s; '(rs, s) ← run_ops os s; Some (r :: rs, s)
  end.

(** The results of a sequence of operations according to the specification; between two
    operations the iterators that a release finalizes may die. *)
Inductive spec_trace (set : bool) : list (op val) -> list (result val) -> MapSpec val -> MapSpec val -> Prop :=
  | spec_trace_nil A : spec_trace set [] [] A A
  | spec_trace_cons o os r rs A A1 A2 :
      settled (or_out_of_memory o) set A r A1 -> spec_trace set os rs A1 A2 ->
      spec_trace set (o :: os) (r :: rs) A A2.

(** A collection and its entries. *)
Definition represents (s : JSMapState val) (A : MapSpec val) : Prop :=
  (exists G, rep [] [] G s A) /\ agrees (fun _ => False) A s.

Lemma represents_new set : represents (js_map_new false set) (mkSpec [] ∅).
Proof.
  split; [|by intros id _; left]. exists []. constructor; cbn; try done.
  - apply table_null; cbn; try done; by intros p r; rewrite lookup_empty.
  - constructor.
  - intros p. rewrite lookup_empty. by intros [].
Qed.

Lemma run_op_attempts o :
  attempts (o = OpClear /\ finalizes AtClear) (run_op o) (or_out_of_memory o).
Proof.
  assert (Hw : forall run, implements run (exactly o) -> implements run (or_out_of_memory o)).
  { intros run Hi L G s A HR HA. destruct (Hi L G s A HR HA) as (r & s' & G' & A' & E & Hs & Hrest).
    exists r, s', G', A'. split; [done|]. split; [by left|done]. }
  assert (Hr : forall danger run, implements run (or_out_of_memory o) -> attempts danger run (or_out_of_memory o)).
  { intros. by apply realizes_attempts, implements_realizes. }
  destruct o.
  - apply Hr, js_map_set_implements.
  - apply Hr, Hw, js_map_get_implements.
  - apply Hr, Hw, js_map_has_implements.
  - apply Hr, Hw, js_map_delete_implements.
  - intros L G s A HR HA.
    destruct (js_map_clear_implements L G s A HR HA) as [[E ?]|(r & s' & G' & A1 & E & Hs & HR' & HA' & Hrest)];
      [by left|right].
    destruct (settle _ _ _ _ _ HR' HA') as (A' & Hk & HR2 & HA2).
    exists r, s', G', A'. split_and!; try done; [|by destruct Hrest..]. exists A1. split; [by left|done].
  - apply Hr, Hw, js_map_get_size_implements.
  - apply Hr, js_map_getOrInsert_implements.
  - apply Hr, js_create_map_iterator_implements.
  - apply Hr, js_map_iterator_next_implements.
  - apply Hr, Hw, js_map_finalizer_implements.
Qed.

(** What a sequence of operations on [s] does: it follows the specification from [A], or a
    clear touches freed memory. *)
Definition follows (os : list (op val)) s (A : MapSpec val) : Prop :=
  match run_ops os s with
  | None => OpClear ∈ os /\ finalizes AtClear
  | Some (rs, s') => exists A', spec_trace (is_set s) os rs A A' /\ represents s' A' /\ is_set s' = is_set s
  end.

Lemma run_ops_spec os : forall s A, represents s A -> follows os s A.
Proof.
  induction os as [|o os IH]; intros s A [[G HR] HA]; unfold follows.
  - exists A. split_and!; [constructor|by split; [exists G|]|done].
  - cbn. destruct (run_op_attempts o _ _ _ _ HR HA) as [[-> [-> ?]]|(r & s1 & G1 & A1 & -> & Hs & HR1 & HA1 & _ & Hset1)];
      [split; [elems|done]|].
    cbn [mbind option_bind]. specialize (IH s1 A1 ltac:(split; [by exists G1|done])). unfold follows in IH.
    destruct (run_ops os s1) as [[rs s2]|]; cbn [mbind option_bind].
    + destruct IH as (A2 & Ht & Hr2 & Hset2). exists A2. rewrite Hset1 in Ht, Hset2.
      split_and!; try done. by econstructor.
    + destruct IH. split; [elems|done].
Qed.

(** ** Callbacks

    A callback performs operations on the collection, each chosen from the results of the
    previous ones, and then returns or throws. *)
Inductive script :=
  | Finish (ok : bool)
  | Perform (o : op val) (next : result val -> script).

Fixpoint run_script (c : script) (s : JSMapState val) : option (bool * JSMapState val) :=
  match c with
  | Finish ok => Some (ok, s)
  | Perform o next => '(r, s) ← run_op o s; run_script (next r) s
  end.

Fixpoint spec_script (set : bool) (c : script) (A : MapSpec val) (b : bool) (A' : MapSpec val) : Prop :=
  match c with
  | Finish ok => b = ok /\ A' = A
  | Perform o next =>
      exists r A1, settled (or_out_of_memory o) set A r A1 /\ spec_script set (next r) A1 b A'
  end.

Fixpoint clears (c : script) : Prop :=
  match c with
  | Finish _ => False
  | Perform o next => o = OpClear \/ exists r, clears (next r)
  end.

Fixpoint adds_nothing (c : script) : Prop :=
  match c with
  | Finish _ => True
  | Perform o next =>
      match o with OpSet _ _ | OpGetOrInsert _ _ => False | _ => True end /\
      forall r, adds_nothing (next r)
  end.

Lemma run_script_attempts c :
  attempts (clears c /\ finalizes AtClear) (run_script c) (fun set A b A' => spec_script set c A b A').
Proof.
  induction c as [ok|o next IH]; intros L G s A HR HA.
  - right. exists ok, s, G, A. split_and!; try done; [|by apply keeps_refl].
    exists A. split; [done|]. split; [done|by left].
  - cbn. destruct (run_op_attempts o _ _ _ _ HR HA)
      as [[-> [-> ?]]|(r & s1 & G1 & A1 & -> & Hs & HR1 & HA1 & HK1 & Hset1)];
      [left; by split; [|split; [left|]]|].
    cbn [mbind option_bind]. destruct (IH r _ _ _ _ HR1 HA1)
      as [[-> [Hc ?]]|(b & s2 & G2 & A2 & -> & (A2' & Hs2 & Hk2) & HR2 & HA2 & HK2 & Hset2)].
    + left. split; [done|]. split; [right; by exists r|done].
    + right. rewrite Hset1 in *. exists b, s2, G2, A2. split_and!; try done.
      * exists A2'. split; [by exists r, A1|done].
      * intros p i Hp Hi. apply HK2; [done|]. by apply HK1.
Qed.

Lemma spec_op_length set id o (A : MapSpec val) :
  match o with OpSet _ _ | OpGetOrInsert _ _ => False | _ => True end ->
  length (sp_data (snd (spec_op set id o A))) = length (sp_data A).
Proof.
  destruct o as [| | |k| | | | |i|]; try done; intros _; cbn.
  - destruct (spec_find (sp_data A) k); cbn; [apply length_insert|done].
  - apply length_fmap.
  - destruct (sp_iters A !! i) as [[kind [j|]]|]; try done.
    by destruct (spec_next (sp_data A) j) as [[j' [k v]]|].
Qed.

Lemma adds_nothing_length set c : forall (A A' : MapSpec val) b, adds_nothing c -> spec_script set c A b A' ->
  length (sp_data A') = length (sp_data A).
Proof.
  induction c as [ok|o next IH]; intros A A' b; cbn; [by intros _ [_ ->]|].
  intros [Ho Hn] (r & A1 & (A0 & Hs & [Hk _]) & Hr). rewrite (IH r A1 A' b) by done. rewrite Hk.
  assert (HE : forall r, exactly o set A r A0 -> length (sp_data A0) = length (sp_data A)).
  { intros r0 [id E]. rewrite <- (spec_op_length set id o A Ho). by rewrite <- E. }
  destruct Hs as [Hs|(_ & _ & Hs)]; [by eapply HE|]. destruct o; try done; try (by destruct Hs).
  destruct Hs as [r0 Hs]. by eapply HE.
Qed.

Lemma cursors_some p m : 0 < cursors p m ->
  exists id kind, m !! id = Some (mkIter true kind (Some p)).
Proof.
  induction m as [|id it m E IH] using map_ind; [unfold cursors; rewrite map_fold_empty; lia|].
  rewrite cursors_insert, delete_id by done. unfold locks_on. destruct it as [obj kind cur]. cbn.
  destruct obj; cbn [andb].
  - destruct (bool_decide_reflect (cur = Some p)) as [->|_].
    + intros _. exists id, kind. apply lookup_insert_eq.
    + intros Hc. destruct (IH ltac:(lia)) as (id' & k' & E'). exists id', k'.
      rewrite lookup_insert_ne; [done|]. by intros ->; rewrite E in E'.
  - intros Hc. destruct (IH ltac:(lia)) as (id' & k' & E'). exists id', k'.
    rewrite lookup_insert_ne; [done|]. by intros ->; rewrite E in E'.
Qed.

(** A deleted record stays allocated only while an iterator stands on it. *)
Lemma represents_deleted s A p r : represents s A -> heap s !! p = Some r -> mr_empty r = true ->
  exists id kind, iters s !! id = Some (mkIter true kind (Some p)).
Proof.
  intros [[G HR] _] Er Em. pose proof (rp_refs _ _ _ _ _ HR p) as Hr. rewrite Er, Em in Hr.
  apply cursors_some. unfold occurrences in Hr. cbn [count_occ] in Hr. lia.
Qed.

(** [forEach] with callbacks that are scripts, from any state that represents [A]. *)
Lemma forEach_scripts (c : val -> val -> script) fuel s A : represents s A ->
  match js_map_forEach (fun v k => run_script (c v k)) fuel s with
  | None => ((exists v k, clears (c v k)) /\ finalizes AtClear) \/ finalizes AtForEachResult
  | Some (r, s') => exists A', represents s' A' /\ is_set s' = is_set s /\
      (forall b, r = Some b ->
         spec_forEach (is_set s) (fun v k A b A' => exists A1, spec_script (is_set s) (c v k) A b A1 /\ kills A1 A')
           0 A b A') /\
      ((forall v k, adds_nothing (c v k)) -> (length (sp_data A) <= fuel)%nat -> is_Some r)
  end.
Proof.
  intros [[G HR] HA].
  set (spec := fun (set : bool) v k A b A' => spec_script set (c v k) A b A').
  assert (Hc : forall v k, attempts ((exists v k, clears (c v k)) /\ finalizes AtClear)
    (run_script (c v k)) (fun set A b A' => spec set v k A b A')).
  { intros v k L' G' s' A' HR' HA'.
    destruct (run_script_attempts (c v k) _ _ _ _ HR' HA') as [[-> [? ?]]|?]; [left; eauto 6|by right]. }
  unfold js_map_forEach.
  replace (head (records s)) with (cursor_at G 0) by (unfold cursor_at; by rewrite drop_0, (rp_records _ _ _ _ _ HR)).
  destruct (forEach_loop_spec (fun v k => run_script (c v k)) spec _ Hc fuel 0 [] G s A HR HA)
    as [[-> ?]|(r & s' & G' & A' & -> & Hs & HR' & HA' & _ & Hset & Hb)]; [done|].
  exists A'. split_and!; [by split; [exists G'|]|done| |].
  - intros b ->. exact Hs.
  - intros Hadd Hl. apply Hb; [|rewrite <- (rep_length _ _ _ _ _ HR); lia].
    intros set v k A1 b A2 Hs2. by eapply adds_nothing_length.
Qed.
End theorems.

Arguments script : clear implicits.

(** ** Examples

    Integer keys, with a hash that collides. *)
#[local] Instance integer_values : MapValue Z := {|
  JS_UNDEFINED := -1;
  map_normalize_key k := k;
  map_hash_key k n := k mod 2;
  js_same_value_zero := Z.eqb;
  js_weakref_is_target _ := false
|}.
#[local] Instance integer_laws : MapValueLaws Z.
Proof.
  split; cbn.
  - apply Z.eqb_refl.
  - apply Z.eqb_sym.
  - intros a b c. lia.
  - done.
  - intros a n Hn. pose proof (Z.mod_pos_bound a 2 ltac:(lia)).
    pose proof (Z.pow_le_mono_r 2 1 n ltac:(lia) ltac:(lia)). lia.
  - intros a b n _ Hab. replace b with a by lia. done.
  - done.
Qed.
#[local] Instance strong_keys : Liveness Z := fun _ => true.
#[local] Instance no_failure : World := fun _ => true.
#[local] Program Instance fresh_pointers : Malloc := {| malloc X := fresh X |}.
Next Obligation. intros X. apply is_fresh. Qed.

(** ** Two uses of freed memory

    An iterator whose last reference is the value of an entry is finalized by the deletion
    of that entry.  If it stands on the next record, which has been deleted before, that
    record is freed, while the loop of [js_map_clear] has already read its address. *)
Section dangling.
Definition dies_at (at_ : site) : Releases := fun a _ =>
  match at_, a with
  | AtClear, AtClear | AtForEachResult, AtForEachResult => [0]
  | _, _ => []
  end.

Definition dangling_setup : list (op Z) :=
  [OpSet 1 10; OpSet 2 20; OpIterator JS_ITERATOR_KIND_KEY; OpNext 0; OpNext 0; OpDelete 2].

Lemma clear_dangling :
  exists rs s, run_ops (Rl := dies_at AtClear) dangling_setup (js_map_new false false) = Some (rs, s) /\
     js_map_clear (Rl := dies_at AtClear) s = None.
Proof.
  destruct (run_ops _ _) as [[rs s]|] eqn:E; [|vm_compute in E; discriminate].
  exists rs, s. split; [done|]. vm_compute in E. injection E as _ <-. vm_compute. reflexivity.
Qed.

(** Likewise when the callback of [forEach] returns the last reference. *)
Lemma forEach_dangling :
  exists rs s, run_ops (Rl := dies_at AtForEachResult) dangling_setup (js_map_new false false) = Some (rs, s) /\
     js_map_forEach (Rl := dies_at AtForEachResult) (fun _ _ s => Some (true, s)) 9 s = None.
Proof.
  destruct (run_ops _ _) as [[rs s]|] eqn:E; [|vm_compute in E; discriminate].
  exists rs, s. split; [done|]. vm_compute in E. injection E as _ <-. vm_compute. reflexivity.
Qed.
End dangling.
