(* ===== verification/KeyedCollections.v ===== *)
(** * Map and Set on the values of the language

    The values with their equality and hash ([MapKeys]) implement the interface that the
    hash table needs ([JsMap.MapValue]), so that the collections refine their ECMAScript
    specification ([JsMapRefine]) for keys of every type. *)
From S2P Require Import MapKeys.
From S2P Require Import JsMapRefine.

Section values.
Context {W : World} {Ip : InPlace}.

(** A value that satisfies its representation invariant. *)
Definition Value : Type := { v : JSValue | value_wf v }.

Definition mkValue (v : JSValue) (H : value_wf v) : Value := exist _ v H.

Definition is_double_zero (v : JSValue) : bool :=
  match v with JS_Float64 d => is_zero d | _ => false end.

Lemma int_zero_wf : value_wf (JS_Int 0).
Proof. cbn. unfold sword. lia. Qed.

(** The atom of a symbol and the reference count of an object or symbol, by address. *)
Class Objects := { atom_at : Z -> JSAtomStruct; ref_count_at : Z -> Z }.
Context {Ob : Objects}.

#[global] Instance value_keys : MapValue Value := {|
  JS_UNDEFINED := mkValue JS_Undefined I;
  map_normalize_key v := if is_double_zero (proj1_sig v) then mkValue (JS_Int 0) int_zero_wf else v;
  map_hash_key v n := MapKeys.map_hash_key (proj1_sig v) n;
  js_same_value_zero v w := default false (MapKeys.js_same_value_zero (proj1_sig v) (proj1_sig w));
  js_weakref_is_target v := MapKeys.js_weakref_is_target atom_at (proj1_sig v)
|}.

#[global] Instance value_liveness : Liveness Value := fun v =>
  MapKeys.js_weakref_is_live ref_count_at (proj1_sig v).

Lemma normalize_value v : proj1_sig (map_normalize_key v) = MapKeys.map_normalize_key (proj1_sig v).
Proof. destruct v as [[| | | |d| | | |] Hv]; try done. cbn. by destruct (is_zero d). Qed.

Lemma same_value v w :
  MapKeys.js_same_value_zero (proj1_sig v) (proj1_sig w) = Some (js_same_value_zero v w) /\
  (js_same_value_zero v w = true <-> key_of (proj1_sig v) = key_of (proj1_sig w)).
Proof.
  cbn. rewrite (js_same_value_zero_spec _ _ (proj2_sig v) (proj2_sig w)).
  split; [done|]. apply bool_decide_eq_true.
Qed.

Lemma same_value_key v w : js_same_value_zero v w = bool_decide (key_of (proj1_sig v) = key_of (proj1_sig w)).
Proof. cbn. by rewrite (js_same_value_zero_spec _ _ (proj2_sig v) (proj2_sig w)). Qed.

#[global] Instance value_keys_laws : MapValueLaws Value.
Proof.
  assert (Hk : forall v, key_of (proj1_sig (map_normalize_key v)) = key_of (proj1_sig v)).
  { intros v. rewrite normalize_value. apply map_normalize_key_of. exact (proj2_sig v). }
  split; intros *; rewrite ?same_value_key, ?Hk, ?bool_decide_eq_true; try done.
  - apply bool_decide_ext. by split.
  - by intros -> ->.
  - apply map_hash_key_range.
  - intros _ E. cbn [map_hash_key value_keys]. rewrite !normalize_value.
    apply map_hash_key_same; [exact (proj2_sig a)|exact (proj2_sig b)|done].
  - cbn. destruct (is_double_zero (proj1_sig a)) eqn:E; [done|]. by rewrite E.
Qed.
End values.

(** ** Theorems *)
Section theorems.
Context {W : World} {Ip : InPlace} {Ob : Objects} {Al : Malloc} {Rl : Releases}.

(** C31: Map and Set behave as specified, for keys of every type.  The equality of keys
    always decides, and it is the one of the values they denote: an integer and a double
    are the same key when they are the same number, as are the two zeros and all NaN, and
    strings or BigInts of different representations when they have the same content.  Any
    sequence of operations on a new collection follows the entry list of ECMAScript,
    whatever the collisions, the resizing of the table, the failures of the allocator and
    the deletions under live iterators, and a deleted record stays allocated only while an
    iterator stands on it.  The one exception is a clear whose releases finalize an iterator
    of the collection, which may touch a freed record ([clear_dangling]). *)
Theorem map_refines set (os : list (op Value)) :
  (forall v w : Value,
     MapKeys.js_same_value_zero (proj1_sig v) (proj1_sig w) = Some (js_same_value_zero v w) /\
     (js_same_value_zero v w = true <-> key_of (proj1_sig v) = key_of (proj1_sig w))) /\
  match run_ops os (js_map_new false set) with
  | None => OpClear ∈ os /\ finalizes AtClear
  | Some (rs, s) => exists A, spec_trace set os rs (mkSpec [] ∅) A /\
      forall p r, heap s !! p = Some r -> mr_empty r = true ->
        exists id kind, iters s !! id = Some (mkIter true kind (Some p))
  end.
Proof.
  split; [apply same_value|].
  pose proof (run_ops_spec os _ _ (represents_new set)) as HF. unfold follows in HF.
  destruct (run_ops _ _) as [[rs s]|]; [|done]. destruct HF as (A & Ht & Hr & _).
  exists A. split; [done|]. intros p r. by eapply represents_deleted.
Qed.

(** C32: [forEach].  After any sequence of operations that runs, the loop calls back for
    each entry of the specification in order, the ones added meanwhile included and the
    deleted ones excluded, when the callback performs any operations on the collection,
    chosen from the results of the previous ones, and then returns or throws; the
    operations that follow the loop still follow the specification; and the loop ends when
    the callback adds no entries.  It touches a freed record only when the release of a
    result of the callback, or of a clear in the callback, finalizes an iterator of the
    collection ([forEach_dangling]). *)
Theorem forEach_refines set (os os' : list (op Value)) (c : Value -> Value -> script Value) fuel :
  match run_ops os (js_map_new false set) with
  | None => OpClear ∈ os /\ finalizes AtClear
  | Some (rs, s) => exists A, spec_trace set os rs (mkSpec [] ∅) A /\
      match js_map_forEach (fun v k => run_script (c v k)) fuel s with
      | None => ((exists v k, clears (c v k)) /\ finalizes AtClear) \/ finalizes AtForEachResult
      | Some (r, s') => exists A',
          (forall b, r = Some b ->
             spec_forEach set (fun v k A b A' => exists A1, spec_script set (c v k) A b A1 /\ kills A1 A')
               0 A b A') /\
          follows os' s' A' /\
          ((forall v k, adds_nothing (c v k)) -> (length (sp_data A) <= fuel)%nat -> is_Some r)
      end
  end.
Proof.
  pose proof (run_ops_spec os _ _ (represents_new set)) as HF. unfold follows in HF.
  destruct (run_ops _ _) as [[rs s]|]; [|done]. destruct HF as (A & Ht & Hr & Hset). cbn in Ht, Hset.
  exists A. split; [done|]. pose proof (forEach_scripts c fuel s A Hr) as HE. rewrite Hset in HE.
  destruct (js_map_forEach _ _ _) as [[r s']|]; [|done].
  destruct HE as (A' & Hr' & _ & Hs & Hb). exists A'. split; [done|]. split; [by apply run_ops_spec|done].
Qed.
End theorems.

(** ** Example

    Keys of several representations. *)
Section example.
#[local] Instance healthy : World := fun _ => true.
#[local] Instance copying : InPlace := fun _ => None.
#[local] Instance objects : Objects :=
  {| atom_at _ := mkAtom 1 (mkString false []) 0 JS_ATOM_TYPE_SYMBOL 0; ref_count_at _ := 1 |}.
#[local] Instance no_release : Releases := fun _ _ => [].
#[local] Program Instance fresh_pointers : Malloc := {| malloc X := fresh X |}.
Next Obligation. intros X. apply is_fresh. Qed.

Ltac wf := by vm_compute.
Definition one : Value := mkValue (JS_Int 1) ltac:(wf).
Definition one_point_zero : Value := mkValue (JS_Float64 (1023 * 2 ^ 52)) ltac:(wf).
Definition minus_zero : Value := mkValue (JS_Float64 (2 ^ 63)) ltac:(wf).
Definition zero : Value := mkValue (JS_Int 0) ltac:(wf).
Definition nan : Value := mkValue (JS_Float64 JS_FLOAT64_NAN) ltac:(wf).
Definition other_nan : Value := mkValue (JS_Float64 (2 ^ 63 + JS_FLOAT64_NAN + 1)) ltac:(wf).
Definition minus_one_big : Value := mkValue (JS_BigInt (ShortBigInt (-1))) ltac:(wf).

Ltac string_wf_tac :=
  cbn; unfold string_wf, shallow; cbn; unfold JS_STRING_LEN_MAX, JS_STRING_ROPE_MAX_DEPTH;
  repeat split; intros; try lia; try done; repeat constructor; cbn; unfold word; lia.
Lemma ab_wf : value_wf (JS_String (Str (mkString false [97; 98]))).
Proof. string_wf_tac. Qed.
Lemma wide_ab_wf : value_wf (JS_String (Node 2 true 1 (Str (mkString true [97])) (Str (mkString false [98])))).
Proof. string_wf_tac. Qed.
Definition ab : Value := mkValue _ ab_wf.
Definition wide_ab : Value := mkValue _ wide_ab_wf.

Definition answer (r : result Value) : option bool :=
  match r with RBool b => Some b | RSize n => Some (n =? 4) | _ => None end.
Definition answers (rs : list (result Value)) : list bool := omap answer rs.

Example keys_run : option_map (fun x => answers (fst x)) (run_ops
    [OpSet one one; OpHas one_point_zero; OpSet minus_zero one; OpHas zero; OpSet nan one;
     OpHas other_nan; OpSet ab one; OpHas wide_ab; OpSet minus_one_big one; OpDelete nan;
     OpHas nan; OpSize] (js_map_new false false)) =
  Some [true; true; true; true; true; false; true].
Proof. vm_compute. reflexivity. Qed.

(** A callback that deletes the entry it is called for and adds another one, which is
    visited as well: the loop goes on. *)
Definition replacing (v k : Value) : script Value :=
  Perform (OpDelete k) (fun _ => Perform (OpSet minus_one_big v) (fun _ => Finish true)).

Example forEach_run :
  ('(_, s) ← run_ops [OpSet one nan; OpSet ab zero] (js_map_new false false);
   '(r, s) ← js_map_forEach (fun v k => run_script (replacing v k)) 9 s;
   '(rs, _) ← run_ops [OpHas one; OpHas ab; OpHas minus_one_big] s;
   Some (r, answers rs)) = Some (None, [false; false; true]).
Proof. vm_compute. reflexivity. Qed.
End example.
