(* ===== verification/Bridge.v ===== *)
(** * The execution scopes of the bridge

    The part of [src/src/native/quickjs_bridge.c] that bounds the time spent in guest
    code: the runtime state with its current deadline, the registered contexts with
    their default timeouts, and the scopes that every entry point opens before it runs
    guest code and closes after it.  The guest code itself is any finite tree [guest]
    of the interactions it can have with the bridge; the engine's [js_poll_interrupts]
    is modelled with it. *)
From stdpp Require Import gmap strings.
From S2P Require Import Float64 Engine.

(** The exceptions that can be pending in the engine. *)
Inductive JSError :=
  | TimeoutError
  | InterruptedError
  | OutOfMemoryError
  | InternalError (msg : string)
  | GuestError (value : Z).

Record QJSBunContext := mkContext {
  ctx : Z;
  timeout_ms : double;
}.

Record QJSBunRuntime := mkRuntime {
  deadline_ms : double;
  contexts : list QJSBunContext;
  module_loader : option Z;
  module_normalizer : option Z;
}.

Record QJSBunScope := mkScope {
  state : bool;
  saved_ms : double;
  own_ms : double;
}.

(** The engine's runtime, as the bridge sees it.  [opaque] is the bridge state when the
    interrupt handler is [qjs_bun_interrupt]; [context_list] holds the interrupt
    counters of the contexts; [clk] and [ev] count the clock readings and the
    allocations made so far. *)
Record JSRuntime := mkRT {
  opaque : option QJSBunRuntime;
  context_list : gmap Z Z;
  exception : option JSError;
  clk : nat;
  ev : nat;
}.

(** The [n]-th reading of [CLOCK_MONOTONIC]: seconds and nanoseconds. *)
Class Clock := clock : nat -> Z * Z.

Definition Br (A : Type) : Type := JSRuntime -> A * JSRuntime.

Notation "'let!' x := m 'in' k" := (fun rt => let '(x, rt') := m rt in k rt')
  (at level 10, x binder, m at level 100, k at level 200).

Definition set_opaque (s : option QJSBunRuntime) (rt : JSRuntime) : JSRuntime :=
  mkRT s (context_list rt) (exception rt) (clk rt) (ev rt).
Definition set_counters (c : gmap Z Z) (rt : JSRuntime) : JSRuntime :=
  mkRT (opaque rt) c (exception rt) (clk rt) (ev rt).
Definition set_exception (e : option JSError) (rt : JSRuntime) : JSRuntime :=
  mkRT (opaque rt) (context_list rt) e (clk rt) (ev rt).
Definition set_deadline (d : double) (s : QJSBunRuntime) : QJSBunRuntime :=
  mkRuntime d (contexts s) (module_loader s) (module_normalizer s).
Definition set_contexts (l : list QJSBunContext) (s : QJSBunRuntime) : QJSBunRuntime :=
  mkRuntime (deadline_ms s) l (module_loader s) (module_normalizer s).

Definition JS_INTERRUPT_COUNTER_INIT : Z := 10000.
Definition JS_EVAL_TYPE_MASK : Z := 3.
Definition JS_EVAL_TYPE_MODULE : Z := 1.
Definition JS_EVAL_FLAG_COMPILE_ONLY : Z := 32.

Section bridge.
Context {W : World} {Clk : Clock}.

(** An allocation of the engine; a failure leaves an exception pending. *)
Definition engine_alloc : Br bool := fun rt =>
  let ok := ext_ok (ev rt) in
  (ok, mkRT (opaque rt) (context_list rt)
         (if ok then exception rt else Some OutOfMemoryError) (clk rt) (S (ev rt))).

Definition now_ms (ts : Z * Z) : double :=
  fadd (fmul (f_of_Z (fst ts)) (f_of_Z 1000)) (fdiv (f_of_Z (snd ts)) (f_of_Z 1000000)).

Definition qjs_bun_now_ms : Br double := fun rt =>
  (now_ms (clock (clk rt)),
   mkRT (opaque rt) (context_list rt) (exception rt) (S (clk rt)) (ev rt)).

Definition qjs_bun_interrupt (st : QJSBunRuntime) : Br bool :=
  let! now := qjs_bun_now_ms in fun rt =>
  if flt now (deadline_ms st) then (false, rt)
  else (true, set_counters ((fun _ => 2) <$> context_list rt) rt).

Definition qjs_bun_state (rt : JSRuntime) : option QJSBunRuntime := opaque rt.

(** [__js_poll_interrupts] and [js_poll_interrupts]; [true] is the result [-1]. *)
Definition js_poll_interrupts_slow (c : Z) : Br bool := fun rt =>
  let rt := set_counters (<[c := JS_INTERRUPT_COUNTER_INIT]> (context_list rt)) rt in
  match opaque rt with
  | Some st =>
      let '(fired, rt) := qjs_bun_interrupt st rt in
      if fired then (true, set_exception (Some InterruptedError) rt) else (false, rt)
  | None => (false, rt)
  end.
Definition js_poll_interrupts (c : Z) : Br bool := fun rt =>
  match context_list rt !! c with
  | None => (false, rt)
  | Some n =>
      let rt := set_counters (<[c := n - 1]> (context_list rt)) rt in
      if n - 1 <=? 0 then js_poll_interrupts_slow c rt else (false, rt)
  end.

(** [ctx->interrupt_counter -= units], where a builtin accounts for a long computation. *)
Definition spend (c units : Z) (rt : JSRuntime) : JSRuntime :=
  set_counters (alter (fun n => n - units) c (context_list rt)) rt.

(** The entry of a context in a list, and the list without it. *)
Fixpoint unlink (c : Z) (l : list QJSBunContext) : option (QJSBunContext * list QJSBunContext) :=
  match l with
  | [] => None
  | e :: l =>
      if ctx e =? c then Some (e, l)
      else match unlink c l with
           | Some (x, l) => Some (x, e :: l)
           | None => None
           end
  end.

Definition qjs_bun_timeout (c : Z) : Br double := fun rt =>
  match qjs_bun_state rt with
  | Some st =>
      match unlink c (contexts st) with
      | Some (entry, rest) =>
          (timeout_ms entry, set_opaque (Some (set_contexts (entry :: rest) st)) rt)
      | None => (INFINITY, rt)
      end
  | None => (INFINITY, rt)
  end.

Definition qjs_bun_enter (timeout : double) : Br QJSBunScope := fun rt =>
  match qjs_bun_state rt with
  | None => (mkScope false (f_of_Z 0) (f_of_Z 0), rt)
  | Some st =>
      let saved := deadline_ms st in
      let '(now, rt) := qjs_bun_now_ms rt in
      let own := fadd now timeout in
      (mkScope true saved own,
       if flt own saved then set_opaque (Some (set_deadline own st)) rt else rt)
  end.

(** The result is [false] when the error object could not be created. *)
Definition qjs_bun_timeout_error : Br bool := engine_alloc.

Definition qjs_bun_throw_timeout : Br unit :=
  let! ok := qjs_bun_timeout_error in fun rt =>
  (tt, if ok then set_exception (Some TimeoutError) rt else rt).

Definition restore (saved : double) (rt : JSRuntime) : JSRuntime :=
  set_opaque (set_deadline saved <$> opaque rt) rt.

Definition qjs_bun_enter_scope (timeout : double) : Br (double * double) :=
  let! entered := qjs_bun_enter timeout in fun rt => ((saved_ms entered, own_ms entered), rt).

Definition qjs_bun_leave_scope (scope : double * double) : Br bool := fun rt =>
  match qjs_bun_state rt with
  | None => (false, rt)
  | Some _ =>
      let rt := restore (fst scope) rt in
      let '(now, rt) := qjs_bun_now_ms rt in (fge now (snd scope), rt)
  end.

Definition qjs_bun_leave (scope : QJSBunScope) (failed : bool) : Br bool := fun rt =>
  if negb (state scope) then (false, rt)
  else
    let rt := restore (saved_ms scope) rt in
    if negb failed then (false, rt)
    else
      let '(now, rt) := qjs_bun_now_ms rt in
      if flt now (own_ms scope) then (false, rt)
      else let '(_, rt) := qjs_bun_throw_timeout rt in (true, rt).

(** [QJS_GUEST_OUT] and [QJS_GUEST_RET]: [body] is the engine call, its result whether
    it failed. *)
Definition QJS_GUEST (c : Z) (body : Br bool) : Br bool :=
  let! timeout := qjs_bun_timeout c in
  let! scope := qjs_bun_enter timeout in
  let! failed := body in
  let! _ := qjs_bun_leave scope failed in
  fun rt => (failed, rt).

(** [qjs_bun_eval_function], [qjs_bun_call], [qjs_bun_invoke] and
    [qjs_bun_call_constructor] differ in the engine call only. *)
Definition qjs_bun_call (timeout : double) (body : Br bool) : Br bool :=
  let! scope := qjs_bun_enter timeout in
  let! failed := body in
  let! _ := qjs_bun_leave scope failed in
  fun rt => (failed, rt).

(** [JS_EvalInternal], [qjs_bun_set_import_meta] and [JS_EvalFunctionInternal] are the
    arguments; each says whether it failed. *)
Definition eval_body (flags : Z) (eval : Z -> Br bool) (set_import_meta eval_function : Br bool) :
    Br bool :=
  let is_module := flags .& JS_EVAL_TYPE_MASK =? JS_EVAL_TYPE_MODULE in
  let compile_only := negb (flags .& JS_EVAL_FLAG_COMPILE_ONLY =? 0) in
  let! failed := eval (if is_module then flags .| JS_EVAL_FLAG_COMPILE_ONLY else flags) in
  if is_module && negb failed then
    let! meta_failed := set_import_meta in
    if meta_failed then fun rt => (true, rt)
    else if negb compile_only then eval_function else fun rt => (failed, rt)
  else fun rt => (failed, rt).

Definition qjs_bun_eval (flags : Z) (timeout : double) (eval : Z -> Br bool)
    (set_import_meta eval_function : Br bool) : Br bool :=
  let! scope := qjs_bun_enter timeout in
  let! failed := eval_body flags eval set_import_meta eval_function in
  let! _ := qjs_bun_leave scope failed in
  fun rt => (failed, rt).

(** The job reports the context it ran in, or none, and whether it failed. *)
Definition job_leave (scope : QJSBunScope) (r : option Z * bool) : Br (option Z * bool) := fun rt =>
  let '(pctx, failed) := r in
  if state scope then
    let rt := restore (saved_ms scope) rt in
    match failed, pctx with
    | true, Some _ =>
        let '(now, rt) := qjs_bun_now_ms rt in
        let rt := if fge now (own_ms scope) then snd (qjs_bun_throw_timeout rt) else rt in
        (r, rt)
    | _, _ => (r, rt)
    end
  else (r, rt).

Definition qjs_bun_execute_pending_job (timeout : double) (job : Br (option Z * bool)) :
    Br (option Z * bool) :=
  let! scope := qjs_bun_enter timeout in
  let! r := job in
  job_leave scope r.

(** [JS_NewContext] hands out [c]; it may fail, as may the entry's allocation. *)
Definition qjs_bun_new_context (c : Z) (timeout : double) : Br bool :=
  let! ok := engine_alloc in
  if negb ok then fun rt => (false, rt) else fun rt =>
  let rt := set_counters (<[c := 0]> (context_list rt)) rt in
  match qjs_bun_state rt with
  | Some st =>
      let '(ok, rt) := engine_alloc rt in
      if negb ok then (false, set_counters (delete c (context_list rt)) rt)
      else (true, set_opaque (Some (set_contexts (mkContext c timeout :: contexts st) st)) rt)
  | None => (true, rt)
  end.

(** [destroyed]: the last reference to the context was dropped. *)
Definition qjs_bun_free_context (c : Z) (destroyed : bool) : Br unit := fun rt =>
  let rt := match qjs_bun_state rt with
    | Some st =>
        match unlink c (contexts st) with
        | Some (_, rest) => set_opaque (Some (set_contexts rest st)) rt
        | None => rt
        end
    | None => rt
    end in
  (tt, if destroyed then set_counters (delete c (context_list rt)) rt else rt).

Definition qjs_bun_set_module_loader (loader normalizer : option Z) : Br unit := fun rt =>
  (tt, set_opaque ((fun st => mkRuntime (deadline_ms st) (contexts st) loader normalizer)
                     <$> opaque rt) rt).

(** The state after [qjs_bun_new_runtime]. *)
Definition qjs_bun_new_runtime : JSRuntime :=
  mkRT (Some (mkRuntime INFINITY [] None None)) ∅ None 0 0.

(** ** Guest code *)

(** What guest code, and the host code it calls back, can do to the bridge. *)
Inductive guest :=
  | Done (failed : bool)
  | Throw (e : option JSError) (k : guest)
  | Poll (c : Z) (k : bool -> guest)
  | Spend (c units : Z) (k : guest)
  | GuestCall (c : Z) (body : guest) (k : bool -> guest)
  | Call (timeout : double) (body : guest) (k : bool -> guest)
  | Eval (flags : Z) (timeout : double) (eval : Z -> guest) (meta : bool) (f : guest) (k : bool -> guest)
  | Job (timeout : double) (c : option Z) (body : guest) (k : bool -> guest)
  | Scoped (timeout : double) (body : guest) (k : bool -> bool -> guest)
  | NewContext (c : Z) (timeout : double) (k : bool -> guest)
  | FreeContext (c : Z) (destroyed : bool) (k : guest)
  | SetLoader (loader normalizer : option Z) (k : guest).

Fixpoint run (g : guest) : Br bool :=
  match g with
  | Done failed => fun rt => (failed, rt)
  | Throw e k => fun rt => run k (set_exception e rt)
  | Spend c units k => fun rt => run k (spend c units rt)
  | Poll c k => let! r := js_poll_interrupts c in run (k r)
  | GuestCall c body k => let! r := QJS_GUEST c (run body) in run (k r)
  | Call t body k => let! r := qjs_bun_call t (run body) in run (k r)
  | Eval flags t eval meta f k =>
      let! r := qjs_bun_eval flags t (fun x => run (eval x)) (fun rt => (meta, rt)) (run f) in
      run (k r)
  | Job t c body k =>
      let! r := qjs_bun_execute_pending_job t (let! r := run body in fun rt => ((c, r), rt)) in
      run (k (snd r))
  | Scoped t body k =>
      let! s := qjs_bun_enter_scope t in
      let! failed := run body in
      let! late := qjs_bun_leave_scope s in
      run (k failed late)
  | NewContext c t k => let! r := qjs_bun_new_context c t in run (k r)
  | FreeContext c destroyed k => let! _ := qjs_bun_free_context c destroyed in run k
  | SetLoader l n k => let! _ := qjs_bun_set_module_loader l n in run k
  end.
End bridge.

(** ** The deadline survives guest code *)

Definition deadline_of (rt : JSRuntime) : option double := deadline_ms <$> opaque rt.

Section deadline.
Context {W : World} {Clk : Clock}.

Definition keeps {A} (m : Br A) : Prop := forall rt, deadline_of (snd (m rt)) = deadline_of rt.

Lemma keeps_bind {A B} (m : Br A) (k : A -> Br B) :
  keeps m -> (forall x, keeps (k x)) -> keeps (let! x := m in k x).
Proof.
  intros Hm Hk rt. specialize (Hm rt). destruct (m rt) as [x rt']. cbn in Hm. rewrite Hk. done.
Qed.

Lemma keeps_ret {A} (x : A) : keeps (fun rt => (x, rt)).
Proof. done. Qed.

Lemma keeps_alloc : keeps engine_alloc.
Proof. done. Qed.

Lemma keeps_now : keeps qjs_bun_now_ms.
Proof. done. Qed.

Lemma keeps_poll c : keeps (js_poll_interrupts c).
Proof.
  intros rt. unfold js_poll_interrupts, js_poll_interrupts_slow, qjs_bun_interrupt.
  destruct (context_list rt !! c); [|done]. destruct (_ <=? 0); [|done]. cbn.
  destruct (opaque rt) as [st|] eqn:E; [|done]. cbn.
  destruct (flt _ _); unfold deadline_of; cbn; by rewrite E.
Qed.

Lemma keeps_timeout c : keeps (qjs_bun_timeout c).
Proof.
  intros rt. unfold qjs_bun_timeout, qjs_bun_state. destruct (opaque rt) as [st|] eqn:E; [|done].
  destruct (unlink c (contexts st)) as [[]|]; [|done]. unfold deadline_of. cbn. by rewrite E.
Qed.

Lemma keeps_throw_timeout : keeps qjs_bun_throw_timeout.
Proof. intros rt. unfold qjs_bun_throw_timeout, qjs_bun_timeout_error, engine_alloc. by destruct (ext_ok _). Qed.

(** What [qjs_bun_enter] leaves behind. *)
Lemma enter_spec t rt :
  let '(sc, rt') := qjs_bun_enter t rt in
  match opaque rt with
  | None => state sc = false /\ opaque rt' = None
  | Some st =>
      sc = mkScope true (deadline_ms st) (fadd (now_ms (clock (clk rt))) t) /\
      opaque rt' = Some (if flt (own_ms sc) (deadline_ms st)
                         then set_deadline (own_ms sc) st else st)
  end.
Proof.
  unfold qjs_bun_enter, qjs_bun_state. destruct (opaque rt) as [st|] eqn:E; [|done].
  unfold qjs_bun_now_ms. cbn. destruct (flt _ _); done.
Qed.

Lemma deadline_restore saved rt :
  deadline_of (restore saved rt) = (fun _ => saved) <$> opaque rt.
Proof. unfold deadline_of, restore. cbn. by destruct (opaque rt). Qed.

Lemma leave_deadline sc failed rt :
  deadline_of (snd (qjs_bun_leave sc failed rt)) =
  if state sc then (fun _ => saved_ms sc) <$> opaque rt else deadline_of rt.
Proof.
  unfold qjs_bun_leave. destruct (state sc); [|done]. cbn [negb].
  destruct failed; cbn [negb]; [|apply deadline_restore].
  unfold qjs_bun_now_ms. destruct (flt _ _); [apply deadline_restore|].
  unfold qjs_bun_throw_timeout, qjs_bun_timeout_error, engine_alloc.
  destruct (ext_ok _); cbn; apply deadline_restore.
Qed.

(** A body between [qjs_bun_enter] and anything that restores the saved deadline. *)
Lemma keeps_scoped {A B} t (body : Br A) (close : QJSBunScope -> A -> Br B) :
  keeps body ->
  (forall sc x rt, deadline_of (snd (close sc x rt)) =
     if state sc then (fun _ => saved_ms sc) <$> opaque rt else deadline_of rt) ->
  keeps (let! sc := qjs_bun_enter t in let! x := body in close sc x).
Proof.
  intros Hb Hc rt. pose proof (enter_spec t rt) as He. destruct (qjs_bun_enter t rt) as [sc rt1].
  specialize (Hb rt1). destruct (body rt1) as [x rt2]. cbn in Hb. rewrite Hc.
  unfold deadline_of in *. destruct (opaque rt) as [st|].
  - destruct He as [-> He]. rewrite He in Hb. cbn in *. by destruct (opaque rt2).
  - destruct He as [-> He]. by rewrite Hb, He.
Qed.

Lemma keeps_call t body : keeps body -> keeps (qjs_bun_call t body).
Proof.
  intros Hb. apply (keeps_scoped t body (fun sc failed => let! _ := qjs_bun_leave sc failed in fun rt => (failed, rt)));
    [done|]. intros sc failed rt. pose proof (leave_deadline sc failed rt) as H.
  by destruct (qjs_bun_leave sc failed rt).
Qed.

Lemma keeps_guest c body : keeps body -> keeps (QJS_GUEST c body).
Proof. intros Hb. apply keeps_bind; [apply keeps_timeout|]. intros t. by apply keeps_call. Qed.

Lemma keeps_eval_body flags eval meta f :
  (forall x, keeps (eval x)) -> keeps meta -> keeps f -> keeps (eval_body flags eval meta f).
Proof.
  intros He Hm Hf. unfold eval_body. apply keeps_bind; [apply He|]. intros failed.
  destruct (_ && _); [|apply keeps_ret]. apply keeps_bind; [done|].
  intros []; [apply keeps_ret|]. destruct (negb _); [done|apply keeps_ret].
Qed.

Lemma keeps_eval flags t eval meta f :
  (forall x, keeps (eval x)) -> keeps meta -> keeps f -> keeps (qjs_bun_eval flags t eval meta f).
Proof. intros He Hm Hf. by apply keeps_call, keeps_eval_body. Qed.

Lemma keeps_job t c body : keeps body ->
  keeps (qjs_bun_execute_pending_job t (let! r := body in fun rt => ((c, r), rt))).
Proof.
  intros Hb. apply keeps_scoped.
  - apply keeps_bind; [done|]. intros r. apply keeps_ret.
  - intros sc [pctx failed] rt. unfold job_leave. destruct (state sc); [|done].
    destruct failed, pctx; try apply deadline_restore. cbn.
    destruct (fge _ _); [|apply deadline_restore].
    unfold qjs_bun_throw_timeout, qjs_bun_timeout_error, engine_alloc.
    destruct (ext_ok _); cbn; apply deadline_restore.
Qed.

Lemma keeps_host_scope {B} t (body : Br bool) (k : bool -> bool -> Br B) :
  keeps body -> (forall x y, keeps (k x y)) ->
  keeps (let! s := qjs_bun_enter_scope t in let! failed := body in
         let! late := qjs_bun_leave_scope s in k failed late).
Proof.
  intros Hb Hk rt. unfold qjs_bun_enter_scope. pose proof (enter_spec t rt) as He.
  destruct (qjs_bun_enter t rt) as [sc rt1]. specialize (Hb rt1).
  destruct (body rt1) as [x rt2]. cbn in Hb. unfold qjs_bun_leave_scope, qjs_bun_state. cbn [fst snd].
  unfold deadline_of in *. destruct (opaque rt) as [st|].
  - destruct He as [-> He]. rewrite He in Hb. destruct (opaque rt2) eqn:E2; [|done]. cbn.
    specialize (Hk x). unfold keeps, deadline_of in Hk. rewrite Hk. cbn. by rewrite E2.
  - destruct He as [_ He]. rewrite He in Hb. destruct (opaque rt2) eqn:E2; [done|].
    specialize (Hk x false rt2). unfold deadline_of in Hk. by rewrite Hk, E2.
Qed.

Lemma keeps_new_context c t : keeps (qjs_bun_new_context c t).
Proof.
  intros rt. unfold qjs_bun_new_context, engine_alloc, qjs_bun_state, deadline_of.
  destruct (ext_ok (ev rt)); cbn; [|done]. destruct (opaque rt) eqn:E; cbn; [|by rewrite ?E].
  destruct (ext_ok _); cbn; by rewrite ?E.
Qed.

Lemma keeps_free_context c d : keeps (qjs_bun_free_context c d).
Proof.
  intros rt. unfold qjs_bun_free_context, qjs_bun_state, deadline_of.
  destruct (opaque rt) as [st|] eqn:E; [|by destruct d; cbn; rewrite E].
  destruct (unlink c (contexts st)) as [[]|]; destruct d; cbn; by rewrite ?E.
Qed.

Lemma run_keeps g : keeps (run g).
Proof.
  induction g; cbn [run].
  - apply keeps_ret.
  - intros rt. exact (IHg (set_exception e rt)).
  - apply keeps_bind; [apply keeps_poll|done].
  - intros rt. exact (IHg (spend c units rt)).
  - apply keeps_bind; [by apply keeps_guest|done].
  - apply keeps_bind; [by apply keeps_call|done].
  - apply keeps_bind; [by apply keeps_eval|done].
  - apply keeps_bind; [by apply keeps_job|done].
  - by apply keeps_host_scope.
  - apply keeps_bind; [apply keeps_new_context|done].
  - apply keeps_bind; [apply keeps_free_context|done].
  - apply keeps_bind; [|done]. intros rt. unfold deadline_of. cbn. by destruct (opaque rt).
Qed.
End deadline.

(** ** Nested scopes

    The bridge between entry points: the runtime together with the scopes that are
    open, the innermost first.  Each step is one bridge operation. *)

Section scopes.
Context {W : World} {Clk : Clock}.

Inductive scope_step : JSRuntime * list QJSBunScope -> JSRuntime * list QJSBunScope -> Prop :=
  | step_enter t rt st :
      scope_step (rt, st) (snd (qjs_bun_enter t rt), fst (qjs_bun_enter t rt) :: st)
  | step_leave failed rt sc st :
      scope_step (rt, sc :: st) (snd (qjs_bun_leave sc failed rt), st)
  | step_leave_scope rt sc st :
      scope_step (rt, sc :: st) (snd (qjs_bun_leave_scope (saved_ms sc, own_ms sc) rt), st)
  | step_job_leave r rt sc st :
      scope_step (rt, sc :: st) (snd (job_leave sc r rt), st)
  | step_poll c rt st : scope_step (rt, st) (snd (js_poll_interrupts c rt), st)
  | step_spend c n rt st : scope_step (rt, st) (spend c n rt, st)
  | step_timeout c rt st : scope_step (rt, st) (snd (qjs_bun_timeout c rt), st)
  | step_new_context c t rt st : scope_step (rt, st) (snd (qjs_bun_new_context c t rt), st)
  | step_free_context c d rt st : scope_step (rt, st) (snd (qjs_bun_free_context c d rt), st)
  | step_exception e rt st : scope_step (rt, st) (set_exception e rt, st).

Inductive scope_reachable : JSRuntime * list QJSBunScope -> Prop :=
  | reach_init : scope_reachable (qjs_bun_new_runtime, [])
  | reach_step s s' : scope_reachable s -> scope_step s s' -> scope_reachable s'.

(** The deadline that the open scopes impose together. *)
Fixpoint effective (st : list QJSBunScope) : double :=
  match st with
  | [] => INFINITY
  | sc :: st => if flt (own_ms sc) (effective st) then own_ms sc else effective st
  end.

Fixpoint saves (st : list QJSBunScope) : Prop :=
  match st with
  | [] => True
  | sc :: st => state sc = true /\ saved_ms sc = effective st /\ saves st
  end.

Definition scopes_ok (s : JSRuntime * list QJSBunScope) : Prop :=
  deadline_of (fst s) = Some (effective (snd s)) /\ saves (snd s).

Lemma effective_not_nan st : is_nan (effective st) = false.
Proof.
  induction st as [|sc st IH]; [done|]. cbn. destruct (flt _ _) eqn:E; [|done].
  by apply flt_nan in E as [? _].
Qed.

(** A reading is before the effective deadline when it is before every open one. *)
Lemma flt_effective n st :
  flt n (effective st) =
  flt n INFINITY && forallb (fun sc => is_nan (own_ms sc) || flt n (own_ms sc)) st.
Proof.
  induction st as [|sc st IH]; cbn; [by rewrite andb_true_r|].
  destruct (flt (own_ms sc) (effective st)) eqn:E.
  - pose proof (flt_nan _ _ E) as [-> _]. cbn. destruct (flt n (own_ms sc)) eqn:En; cbn.
    + rewrite <- IH. symmetry. by eapply flt_trans.
    + by rewrite andb_false_r.
  - destruct (is_nan (own_ms sc)) eqn:Hn; [done|]. cbn.
    destruct (flt n (effective st)) eqn:Eb.
    + rewrite (flt_le_trans n (effective st) (own_ms sc)) by done. done.
    + destruct (flt n INFINITY), (forallb _ st); try done. by rewrite andb_false_r.
Qed.

Lemma deadline_keeps {A} (m : Br A) rt d :
  keeps m -> deadline_of rt = d -> deadline_of (snd (m rt)) = d.
Proof. intros Hm <-. apply Hm. Qed.

Lemma close_ok rt sc st (rt' : JSRuntime) :
  scopes_ok (rt, sc :: st) ->
  deadline_of rt' = (if state sc then (fun _ => saved_ms sc) <$> opaque rt else deadline_of rt) ->
  scopes_ok (rt', st).
Proof.
  intros [Hd (Hs & Hsave & Hst)] E. rewrite Hs in E. split; [|done]. cbn in *. rewrite E.
  unfold deadline_of in Hd. destruct (opaque rt); [|done]. cbn. by rewrite Hsave.
Qed.

Lemma job_leave_deadline sc r rt :
  deadline_of (snd (job_leave sc r rt)) =
  if state sc then (fun _ => saved_ms sc) <$> opaque rt else deadline_of rt.
Proof.
  unfold job_leave. destruct r as [pctx failed]. destruct (state sc); [|done].
  destruct failed, pctx; try apply deadline_restore. cbn.
  destruct (fge _ _); [|apply deadline_restore].
  unfold qjs_bun_throw_timeout, qjs_bun_timeout_error, engine_alloc.
  destruct (ext_ok _); cbn; apply deadline_restore.
Qed.

Lemma scope_step_ok s s' : scopes_ok s -> scope_step s s' -> scopes_ok s'.
Proof.
  intros Hok Hs. destruct Hs; try (destruct Hok as [Hd Hst]; split; [|exact Hst]; cbn [fst snd] in *).
  - pose proof (enter_spec t rt) as He. destruct (qjs_bun_enter t rt) as [sc rt'].
    destruct Hok as [Hd Hst]. unfold scopes_ok, deadline_of in *. cbn [fst snd] in *.
    destruct (opaque rt) as [s|]; [|done]. destruct He as [-> He]. rewrite He.
    cbn in Hd |- *. injection Hd as Hd. rewrite <- Hd. destruct (flt _ _); done.
  - eapply close_ok; [done|]. apply leave_deadline.
  - eapply close_ok; [done|]. destruct Hok as [Hd (-> & _)].
    unfold qjs_bun_leave_scope, qjs_bun_state. cbn in Hd. unfold deadline_of in Hd.
    destruct (opaque rt) eqn:E; [|done]. unfold deadline_of. cbn. by rewrite E.
  - eapply close_ok; [done|]. apply job_leave_deadline.
  - apply deadline_keeps; [apply keeps_poll|done].
  - done.
  - apply deadline_keeps; [apply keeps_timeout|done].
  - apply deadline_keeps; [apply keeps_new_context|done].
  - apply deadline_keeps; [apply keeps_free_context|done].
  - done.
Qed.

Lemma scope_reachable_ok s : scope_reachable s -> scopes_ok s.
Proof. induction 1; [done|]. by eapply scope_step_ok. Qed.
End scopes.

(** ** The registered contexts

    The list of contexts, moved to front on every lookup, refines a finite map from
    contexts to default timeouts. *)

Definition registered (st : QJSBunRuntime) : gmap Z double :=
  list_to_map ((fun e => (ctx e, timeout_ms e)) <$> contexts st).

Definition contexts_wf (st : QJSBunRuntime) : Prop := NoDup (ctx <$> contexts st).

Section contexts.
Context {W : World} {Clk : Clock}.

Lemma unlink_spec c l :
  match unlink c l with
  | Some (e, rest) => ctx e = c /\ exists l1 l2, l = l1 ++ e :: l2 /\ rest = l1 ++ l2
  | None => c ∉ ctx <$> l
  end.
Proof.
  induction l as [|x l IH]; cbn; [by apply not_elem_of_nil|].
  destruct (Z.eqb_spec (ctx x) c) as [E|E].
  - split; [done|]. by exists [], l.
  - destruct (unlink c l) as [[e rest]|].
    + destruct IH as (? & l1 & l2 & -> & ->). split; [done|]. by exists (x :: l1), l2.
    + by apply not_elem_of_cons.
Qed.

Definition as_map (l : list QJSBunContext) : gmap Z double :=
  list_to_map ((fun e => (ctx e, timeout_ms e)) <$> l).

Lemma fst_fmap (l : list QJSBunContext) :
  ((fun e => (ctx e, timeout_ms e)) <$> l).*1 = ctx <$> l.
Proof. by induction l as [|x l IH]; cbn; f_equal. Qed.

Lemma as_map_perm l1 l2 : NoDup (ctx <$> l1) -> Permutation l1 l2 -> as_map l1 = as_map l2.
Proof.
  intros Hn Hp. apply list_to_map_proper; [by rewrite fst_fmap|]. by rewrite Hp.
Qed.

Lemma unlink_registered c l e rest : NoDup (ctx <$> l) -> unlink c l = Some (e, rest) ->
  ctx e = c /\ Permutation l (e :: rest) /\ as_map l !! c = Some (timeout_ms e) /\
  as_map rest = delete c (as_map l) /\ NoDup (ctx <$> rest).
Proof.
  intros Hn E. pose proof (unlink_spec c l) as Hu. rewrite E in Hu.
  destruct Hu as (Hc & l1 & l2 & El & Er).
  assert (HP : Permutation l (e :: rest)) by (subst; by rewrite Permutation_middle).
  assert (Hn' : NoDup (ctx <$> e :: rest)) by (by rewrite <- HP).
  rewrite (as_map_perm _ _ Hn HP). cbn in Hn' |- *. apply NoDup_cons in Hn' as [Hni Hnr].
  split_and!; try done.
  - unfold as_map. cbn. subst c. by rewrite lookup_insert_eq.
  - unfold as_map. cbn. subst c. rewrite delete_insert_id; [done|].
    apply not_elem_of_list_to_map_1. by rewrite fst_fmap.
Qed.

Lemma unlink_none c l : unlink c l = None -> as_map l !! c = None.
Proof.
  intros E. pose proof (unlink_spec c l) as Hu. rewrite E in Hu.
  apply not_elem_of_list_to_map_1. by rewrite fst_fmap.
Qed.
End contexts.

(** ** Interruption *)

Section interruption.
Context {W : World} {Clk : Clock}.

(** Guest code that polls [n] times in context [c] unless it is interrupted. *)
Fixpoint poll_loop (n : nat) (c : Z) : Br bool :=
  match n with
  | O => fun rt => (false, rt)
  | S n =>
      let! fired := js_poll_interrupts c in
      if fired then fun rt => (true, rt) else poll_loop n c
  end.

(** No clock reading from now on is before the current deadline. *)
Definition expired (rt : JSRuntime) : Prop :=
  exists st, opaque rt = Some st /\
  forall m, (clk rt <= m)%nat -> flt (now_ms (clock m)) (deadline_ms st) = false.

Lemma poll_loop_fires n c k rt :
  expired rt -> context_list rt !! c = Some k -> k <= Z.of_nat n -> (1 <= n)%nat ->
  fst (poll_loop n c rt) = true.
Proof.
  revert k rt. induction n as [|n IH]; intros k rt He Hc Hk Hn; [lia|].
  cbn [poll_loop]. unfold js_poll_interrupts. rewrite Hc.
  destruct (Z.leb_spec (k - 1) 0).
  - unfold js_poll_interrupts_slow, qjs_bun_interrupt. cbn. destruct He as (st & E & He).
    rewrite E. cbn. by rewrite He.
  - apply IH with (k := k - 1); [| |lia|lia]; [done|]. cbn. by rewrite lookup_insert_eq.
Qed.

(** What firing leaves in the counters. *)
Lemma poll_fired c rt : fst (js_poll_interrupts c rt) = true ->
  let rt' := snd (js_poll_interrupts c rt) in
  exception rt' = Some InterruptedError /\ opaque rt' = opaque rt /\ (clk rt <= clk rt')%nat /\
  forall c', is_Some (context_list rt !! c') -> context_list rt' !! c' = Some 2.
Proof.
  cbv zeta. unfold js_poll_interrupts. destruct (context_list rt !! c) as [k|] eqn:Hc; [|done].
  destruct (k - 1 <=? 0); [|done]. unfold js_poll_interrupts_slow, qjs_bun_interrupt. cbn.
  destruct (opaque rt) as [st|] eqn:E; [|done]. cbn. destruct (flt _ _); [done|]. cbn. intros _.
  split_and!; [done|done|lia|]. intros c' [k' Hk'].
  rewrite lookup_fmap. destruct (decide (c = c')) as [->|Hne].
  - by rewrite lookup_insert_eq.
  - by rewrite !lookup_insert_ne, Hk' by done.
Qed.

Lemma poll_outcome c rt st :
  opaque rt = Some st -> context_list rt !! c = Some 1 ->
  fst (js_poll_interrupts c rt) = negb (flt (now_ms (clock (clk rt))) (deadline_ms st)).
Proof.
  intros E Hc. unfold js_poll_interrupts. rewrite Hc. cbn.
  unfold js_poll_interrupts_slow, qjs_bun_interrupt. cbn. rewrite E. cbn. by destruct (flt _ _).
Qed.
End interruption.

(** ** Theorems *)

Section theorems.
Context {W : World} {Clk : Clock}.

(** Whether the reading of the clock in [rt2] is past the timeout [t] counted from [rt]; a
    runtime without the handler has no timeouts.  Calls and jobs do not compare alike, which
    shows when the timeout is a NaN. *)
Definition late (past : double -> double -> bool) (t : double) (rt rt2 : JSRuntime) : bool :=
  match opaque rt with
  | Some _ => past (now_ms (clock (clk rt2))) (fadd (now_ms (clock (clk rt))) t)
  | None => false
  end.
Definition not_before (now own : double) : bool := negb (flt now own).

(** What an entry point with the timeout [t] owes to its caller when the code that it runs,
    [body], ends: its result, the deadline of before, and as pending exception the one of
    the guest, or the timeout when the guest failed late (or no memory to say so). *)
Definition scoped {A} (past : double -> double -> bool) (t : double) (body : Br A) (failed : A -> bool) (rt : JSRuntime) (r : A * JSRuntime) : Prop :=
  let '(x, rt2) := body (snd (qjs_bun_enter t rt)) in
  fst r = x /\
  deadline_of (snd r) = deadline_of rt /\
  exception (snd r) =
    (if failed x && late past t rt rt2
     then Some (if ext_ok (ev rt2) then TimeoutError else OutOfMemoryError)
     else exception rt2).

Lemma throw_timeout_exception rt :
  exception (snd (qjs_bun_throw_timeout rt)) = Some (if ext_ok (ev rt) then TimeoutError else OutOfMemoryError).
Proof. unfold qjs_bun_throw_timeout, qjs_bun_timeout_error, engine_alloc. by destruct (ext_ok (ev rt)). Qed.

(** The scope that [qjs_bun_enter] returns, after any [body]. *)
Lemma enter_late t rt : forall past rt2,
  late past t rt rt2 = state (fst (qjs_bun_enter t rt)) && past (now_ms (clock (clk rt2))) (own_ms (fst (qjs_bun_enter t rt))).
Proof.
  pose proof (enter_spec t rt) as He. destruct (qjs_bun_enter t rt) as [sc rt1]. cbn [fst]. intros past rt2. unfold late.
  destruct (opaque rt) as [st|]; destruct He as [He _].
  - by subst sc.
  - by rewrite He.
Qed.

Lemma leave_exception sc failed rt :
  exception (snd (qjs_bun_leave sc failed rt)) =
    if failed && (state sc && not_before (now_ms (clock (clk rt))) (own_ms sc))
    then Some (if ext_ok (ev rt) then TimeoutError else OutOfMemoryError) else exception rt.
Proof.
  unfold qjs_bun_leave, not_before. destruct (state sc); cbn [negb andb]; [|by rewrite andb_false_r].
  destruct failed; cbn [negb andb]; [|done]. unfold qjs_bun_now_ms. cbn.
  destruct (flt _ _); cbn [negb]; [done|]. rewrite <- (throw_timeout_exception rt).
  unfold qjs_bun_throw_timeout, qjs_bun_timeout_error, engine_alloc. cbn. by destruct (ext_ok (ev rt)).
Qed.

Lemma call_scoped t body rt : keeps body -> scoped not_before t body id rt (qjs_bun_call t body rt).
Proof.
  intros Hb. pose proof (keeps_call t body Hb rt) as Hd. pose proof (enter_late t rt) as Hl.
  unfold scoped, qjs_bun_call in *. destruct (qjs_bun_enter t rt) as [sc rt1]. cbn [fst snd] in *.
  destruct (body rt1) as [failed rt2]. pose proof (leave_exception sc failed rt2) as He.
  destruct (qjs_bun_leave sc failed rt2) as [l rt3]. cbn [fst snd id] in *.
  split; [done|]. split; [done|]. by rewrite He, Hl.
Qed.

Lemma job_scoped t c body rt : keeps body ->
  scoped fge t (let! r := body in fun rt => ((c, r), rt)) (fun r => snd r && bool_decide (is_Some (fst r))) rt
    (qjs_bun_execute_pending_job t (let! r := body in fun rt => ((c, r), rt)) rt).
Proof.
  intros Hb. pose proof (keeps_job t c body Hb rt) as Hd. pose proof (enter_late t rt) as Hl.
  unfold scoped, qjs_bun_execute_pending_job in *. destruct (qjs_bun_enter t rt) as [sc rt1]. cbn [fst snd] in *.
  destruct (body rt1) as [failed rt2]. cbn [fst snd] in *. rewrite Hl. unfold job_leave in *.
  destruct (state sc); [|by rewrite andb_false_r]. destruct failed, c as [c|]; cbn [andb bool_decide] in *; try done.
  rewrite bool_decide_eq_true_2 by done. cbn [andb]. unfold qjs_bun_now_ms in *. cbn [fst snd] in *.
  destruct (fge _ _); [|done]. split; [done|]. split; [done|]. apply (throw_timeout_exception (mkRT _ _ _ _ _)).
Qed.

(** C17: scope discipline.  Whatever guest code does (nested calls, jobs, host scopes, new
    or freed contexts, exceptions) and however it ends, every entry point returns the result
    of the guest, leaves the runtime the deadline that it found (and the handler
    registered), and reports a timeout exactly when the guest failed at or after its own
    deadline; every other pending exception is the guest's. *)
Theorem bridge_deadline_restored t c pctx flags meta e f body rt :
  let imports := fun rt => (meta, rt) in
  deadline_of (snd (run body rt)) = deadline_of rt /\
  scoped not_before t (run body) id rt (qjs_bun_call t (run body) rt) /\
  (let '(t', rt') := qjs_bun_timeout c rt in
   deadline_of rt' = deadline_of rt /\ scoped not_before t' (run body) id rt' (QJS_GUEST c (run body) rt)) /\
  scoped not_before t (eval_body flags (fun x => run (e x)) imports (run f)) id rt
    (qjs_bun_eval flags t (fun x => run (e x)) imports (run f) rt) /\
  scoped fge t (let! r := run body in fun rt => ((pctx, r), rt)) (fun r => snd r && bool_decide (is_Some (fst r))) rt
    (qjs_bun_execute_pending_job t (let! r := run body in fun rt => ((pctx, r), rt)) rt).
Proof.
  cbv zeta. pose proof run_keeps as Hr. split_and!.
  - apply Hr.
  - apply call_scoped, Hr.
  - pose proof (keeps_timeout c rt) as Ht. unfold QJS_GUEST. destruct (qjs_bun_timeout c rt) as [t' rt'].
    split; [exact Ht|]. apply (call_scoped t' (run body) rt'), Hr.
  - apply (call_scoped t), keeps_eval_body; [intros; apply Hr|done|apply Hr].
  - apply job_scoped, Hr.
Qed.

(** C18: nested scopes only tighten.  In every reachable state the interrupt handler
    stops the guest exactly when the clock has reached the own deadline of some open
    scope: an inner scope can neither extend nor cancel the deadline of an outer one. *)
Theorem bridge_interrupt_any_scope rt st b :
  scope_reachable (rt, st) -> opaque rt = Some b ->
  let now := now_ms (clock (clk rt)) in
  fst (qjs_bun_interrupt b rt) =
  negb (flt now INFINITY && forallb (fun sc => is_nan (own_ms sc) || flt now (own_ms sc)) st).
Proof.
  intros Hr E. cbv zeta. apply scope_reachable_ok in Hr as [Hd _].
  unfold deadline_of in Hd. cbn in Hd. rewrite E in Hd. injection Hd as Hd.
  rewrite <- flt_effective, <- Hd. unfold qjs_bun_interrupt, qjs_bun_now_ms.
  by destruct (flt _ _).
Qed.

(** C19: a timeout is enforced.  Once the deadline has passed, guest code that keeps
    polling in a live context is stopped within 10000 polls, with the uncatchable
    exception; after that every other context is stopped at its second poll at the
    latest, so no context can run on. *)
Theorem bridge_timeout_enforced c k n rt :
  expired rt -> context_list rt !! c = Some k -> k <= JS_INTERRUPT_COUNTER_INIT ->
  JS_INTERRUPT_COUNTER_INIT <= Z.of_nat n ->
  fst (poll_loop n c rt) = true /\
  forall c', is_Some (context_list rt !! c') -> fst (js_poll_interrupts c rt) = true ->
    let rt' := snd (js_poll_interrupts c rt) in
    exception rt' = Some InterruptedError /\ fst (poll_loop 2 c' rt') = true.
Proof.
  intros He Hc Hk Hn. unfold JS_INTERRUPT_COUNTER_INIT in *. split.
  - eapply poll_loop_fires; [done|done|lia|lia].
  - intros c' Hc' Hf. cbv zeta. destruct (poll_fired c rt Hf) as (H1 & H2 & H3 & H4).
    split; [done|]. eapply poll_loop_fires; [|by apply H4|lia|lia].
    destruct He as (st & E & He). exists st. split; [by rewrite H2|].
    intros m Hm. apply He. lia.
Qed.

(** The context list refines a finite map.  A lookup returns the timeout the
    context was registered with (no limit for an unknown one) and moves its entry to the
    front without changing the map; registering and freeing insert and delete. *)
Theorem bridge_contexts_refine c t d rt st :
  opaque rt = Some st -> contexts_wf st ->
  (let '(r, rt') := qjs_bun_timeout c rt in
   r = default INFINITY (registered st !! c) /\
   exists st', opaque rt' = Some st' /\ contexts_wf st' /\ registered st' = registered st /\
     (is_Some (registered st !! c) -> ctx <$> head (contexts st') = Some c)) /\
  (let '(ok, rt') := qjs_bun_new_context c t rt in
   registered st !! c = None ->
   exists st', opaque rt' = Some st' /\ contexts_wf st' /\
     registered st' = if ok then <[c := t]> (registered st) else registered st) /\
  (let rt' := snd (qjs_bun_free_context c d rt) in
   exists st', opaque rt' = Some st' /\ contexts_wf st' /\ registered st' = delete c (registered st)).
Proof.
  intros E Hwf. change (registered st) with (as_map (contexts st)) in *.
  unfold qjs_bun_timeout, qjs_bun_new_context, qjs_bun_free_context, qjs_bun_state, contexts_wf in *.
  rewrite E. split_and!.
  - destruct (unlink c (contexts st)) as [[e rest]|] eqn:Eu.
    + destruct (unlink_registered c _ _ _ Hwf Eu) as (Hc & HP & HL & _ & _). rewrite HL.
      split; [done|]. exists (set_contexts (e :: rest) st). split; [done|].
      split; [cbn [contexts set_contexts]; by rewrite <- HP|].
      split; [|intros _; cbn; by rewrite <- Hc]. symmetry. by apply as_map_perm.
    + rewrite (unlink_none _ _ Eu). split; [done|]. exists st. split_and!; try done.
  - unfold engine_alloc. destruct (ext_ok (ev rt)); cbn; [|intros _; by exists st].
    rewrite E. destruct (ext_ok (S (ev rt))); cbn; [|intros _; by exists st].
    intros Hn. eexists. split; [done|]. cbn. split; [|done]. apply NoDup_cons. split; [|done].
    rewrite <- fst_fmap. by apply not_elem_of_list_to_map_2.
  - destruct (unlink c (contexts st)) as [[e rest]|] eqn:Eu.
    + destruct (unlink_registered c _ _ _ Hwf Eu) as (_ & _ & _ & HD & HN).
      exists (set_contexts rest st). by destruct d.
    + exists st. rewrite (delete_id (as_map _)) by (by apply unlink_none). by destruct d.
Qed.
End theorems.

(** ** Concrete runs

    A clock that advances one second per reading, and a runtime with a context. *)

#[local] Instance ticking : Clock := fun n => (Z.of_nat n, 500).
#[local] Instance healthy : World := fun _ => true.

Definition demo_entered : QJSBunScope * JSRuntime :=
  qjs_bun_enter (f_of_Z 3000) (snd (qjs_bun_new_context 7 (f_of_Z 50) qjs_bun_new_runtime)).

(** A guest that calls the bridge with a longer timeout, and fails after its own. *)
Definition demo_guest : guest :=
  Call (f_of_Z 900000) (Throw (Some (GuestError 5)) (Done true)) (fun failed => Done failed).

Lemma bridge_deadline_restored_witness :
  let rt := snd (qjs_bun_new_context 7 (f_of_Z 50) qjs_bun_new_runtime) in
  scoped not_before (f_of_Z 10) (run demo_guest) id rt (qjs_bun_call (f_of_Z 10) (run demo_guest) rt) /\
  exception (snd (qjs_bun_call (f_of_Z 10) (run demo_guest) rt)) = Some TimeoutError /\
  exception (snd (qjs_bun_call (f_of_Z 900000) (run demo_guest) rt)) = Some (GuestError 5).
Proof.
  cbv zeta. split; [|split; vm_compute; reflexivity].
  exact (proj1 (proj2 (bridge_deadline_restored (f_of_Z 10) 7 None 0 false (fun _ => Done false) (Done false) demo_guest
    (snd (qjs_bun_new_context 7 (f_of_Z 50) qjs_bun_new_runtime))))).
Defined.

Lemma bridge_interrupt_any_scope_witness :
  let rt := snd (qjs_bun_enter (f_of_Z 90000) (snd demo_entered)) in
  let sc := fst (qjs_bun_enter (f_of_Z 90000) (snd demo_entered)) in
  let b := default (mkRuntime NAN [] None None) (opaque rt) in
  fst (qjs_bun_interrupt b rt) =
  negb (flt (now_ms (clock (clk rt))) INFINITY &&
        forallb (fun s => is_nan (own_ms s) || flt (now_ms (clock (clk rt))) (own_ms s))
          [sc; fst demo_entered]).
Proof.
  cbv zeta. apply bridge_interrupt_any_scope; [|vm_compute; reflexivity].
  eapply reach_step; [|apply step_enter]. eapply reach_step; [|apply step_enter].
  eapply reach_step; [|apply step_new_context]. apply reach_init.
Defined.

Definition demo_late : JSRuntime :=
  mkRT (Some (mkRuntime (f_of_Z (-1)) [] None None)) {[ 7 := 40 ]} None 0 0.

Lemma bridge_timeout_enforced_witness :
  fst (poll_loop (Clk := fun _ => (5, 0)) (Z.to_nat 12000) 7 demo_late) = true.
Proof.
  refine (proj1 (bridge_timeout_enforced (Clk := fun _ => (5, 0)) 7 40 (Z.to_nat 12000) demo_late _ _ _ _)).
  - eexists. split; [reflexivity|]. intros m _. vm_compute. reflexivity.
  - vm_compute. reflexivity.
  - vm_compute. discriminate.
  - vm_compute. discriminate.
Defined.

Definition demo_contexts : QJSBunRuntime :=
  mkRuntime INFINITY [mkContext 3 (f_of_Z 30); mkContext 4 (f_of_Z 40)] None None.

Lemma bridge_contexts_refine_witness :
  let '(r, rt') := qjs_bun_timeout 4 (mkRT (Some demo_contexts) ∅ None 0 0) in
  r = default INFINITY (registered demo_contexts !! 4) /\
  exists st', opaque rt' = Some st' /\ contexts_wf st' /\ registered st' = registered demo_contexts /\
    (is_Some (registered demo_contexts !! 4) -> ctx <$> head (contexts st') = Some 4).
Proof.
  refine (proj1 (bridge_contexts_refine 4 (f_of_Z 1) false (mkRT (Some demo_contexts) ∅ None 0 0)
    demo_contexts eq_refl _)).
  unfold contexts_wf. cbn. refine (bool_decide_unpack _ _). vm_compute. exact I.
Defined.
