(* ===== verification/BridgeCopy.v ===== *)
(** * Copying results out of the engine

    The entry points of [src/src/native/quickjs_bridge.c] that serialize engine data
    into a caller's buffer or classify engine values: [qjs_bun_own_keys] with its
    negative-size retry protocol, [qjs_bun_to_cstring_copy], the prototype walk of
    [qjs_bun_get_data_property], [qjs_bun_type] and the error constructors.  A buffer is
    the list of its bytes. *)
From S2P Require Import Limbs Float64 Engine Bridge.

(** [memcpy(buf + off, bytes, ...)]. *)
Definition blit (buf : list Z) (off : Z) (bytes : list Z) : list Z :=
  take (Z.to_nat off) buf ++ bytes ++ drop (Z.to_nat off + length bytes) buf.

(** The four bytes of a little-endian [uint32_t]. *)
Definition le32 (x : Z) : list Z :=
  [x mod 256; (x / 2 ^ 8) mod 256; (x / 2 ^ 16) mod 256; (x / 2 ^ 24) mod 256].

(** What a copy takes from the engine and has to free: the enumeration of [count]
    properties, and the text of one of them. *)
Inductive Held := HeldEnum (count : Z) | HeldText (i : nat).
#[export] Instance Held_eq : EqDecision Held.
Proof. solve_decision. Defined.

Section copying.
Context {W : World} {Clk : Clock}.

(** [memcpy] to [buf + off]: [None] when it writes outside the buffer. *)
Definition memcpy (buf : list Z) (off : Z) (bytes : list Z) : option (list Z) :=
  guard (0 <= off /\ off + len bytes <= len buf);; Some (blit buf off bytes).

(** [JS_AtomToCStringLen], [JS_FreeCString] and [JS_FreePropertyEnum]: releasing what is not
    held is undefined. *)
Fixpoint release (x : Held) (held : list Held) : option (list Held) :=
  match held with
  | [] => None
  | y :: held => if decide (x = y) then Some held else cons y <$> release x held
  end.

(** The loop of [qjs_bun_own_keys] from the property [i] on; a text is [None] when its
    conversion fails. *)
Fixpoint own_keys_loop (i : nat) (texts : list (option (list Z))) (buf : list Z) (used : Z) (held : list Held) :
    option (Z * Z * list Z * list Held) :=
  match texts with
  | [] => Some (0, used, buf, held)
  | None :: _ => Some (-1, used, buf, held)
  | Some text :: texts =>
      let held := HeldText i :: held in
      buf ← (if u64 (used + 4 + len text) <=? len buf
             then buf ← memcpy buf used (le32 (u32 (len text))); memcpy buf (used + 4) text
             else Some buf);
      held ← release (HeldText i) held;
      own_keys_loop (S i) texts buf (u64 (used + (4 + len text))) held
  end.

(** After the enumeration: the loop, and the result. *)
Definition own_keys_copy (texts : list (option (list Z))) (buf : list Z) (held : list Held) : option (Z * list Z * list Held) :=
  let held := HeldEnum (len texts) :: held in
  '(ret, used, buf', held) ← own_keys_loop 0 texts buf 0 held;
  held ← release (HeldEnum (len texts)) held;
  let ret := if ret =? 0
    then if used <=? len buf then swrap 64 (len texts) else swrap 64 (- swrap 64 used)
    else ret in
  Some (ret, buf', held).

(** [names] is [JS_GetOwnPropertyNames], [None] when it throws; then nothing is held. *)
Definition qjs_bun_own_keys (c : Z) (names : Br (option (list (option (list Z))))) (buf : list Z) (held : list Held) :
    Br (option (Z * list Z * list Held)) :=
  let! timeout := qjs_bun_timeout c in
  let! scope := qjs_bun_enter timeout in
  let! tab := names in
  match tab with
  | None => let! _ := qjs_bun_leave scope true in fun rt => (Some (-1, buf, held), rt)
  | Some texts =>
      match own_keys_copy texts buf held with
      | None => fun rt => (None, rt)
      | Some (ret, buf', held') =>
          let! _ := qjs_bun_leave scope (ret =? -1) in fun rt => (Some (ret, buf', held'), rt)
      end
  end.

(** [convert] is [JS_ToCStringLen]. *)
Definition qjs_bun_to_cstring_copy (c : Z) (convert : Br (option (list Z))) (buf : list Z) (held : list Held) :
    Br (option (Z * list Z * list Held)) :=
  let! timeout := qjs_bun_timeout c in
  let! scope := qjs_bun_enter timeout in
  let! text := convert in
  match text with
  | None => let! _ := qjs_bun_leave scope true in fun rt => (Some (-1, buf, held), rt)
  | Some text =>
      let held := HeldText 0 :: held in
      let r :=
        buf ← (if len text <=? len buf then memcpy buf 0 text else Some buf);
        held ← release (HeldText 0) held;
        Some (swrap 64 (len text), buf, held) in
      let! _ := qjs_bun_leave scope false in fun rt => (r, rt)
  end.

(** ** [qjs_bun_get_data_property] *)

Inductive own_property :=
  | OwnThrows
  | OwnNone
  | OwnData (value : Z)
  | OwnAccessor.

Inductive prototype :=
  | ProtoThrows
  | ProtoNull
  | ProtoObject (obj : Z).

Inductive data_result :=
  | DataException
  | DataUndefined
  | DataValue (value : Z).

Definition JS_CLASS_OBJECT : Z := 1.

(** The engine's answers for the objects of the chain. *)
Record Objects := mkObjects {
  JS_GetOwnProperty : Z -> own_property;
  JS_GetPrototype : Z -> prototype;
  JS_GetClassID : Z -> Z;
}.

Fixpoint data_property_loop (O : Objects) (fuel : nat) (current : Z) : option data_result :=
  match fuel with
  | O => None
  | S fuel =>
      match JS_GetOwnProperty O current with
      | OwnThrows => Some DataException
      | OwnData v => Some (DataValue v)
      | OwnAccessor => Some DataUndefined
      | OwnNone =>
          match JS_GetPrototype O current with
          | ProtoThrows => Some DataException
          | ProtoNull => Some DataUndefined
          | ProtoObject next =>
              if negb (JS_GetClassID O next =? JS_CLASS_OBJECT) then Some DataUndefined
              else data_property_loop O fuel next
          end
      end
  end.

Definition qjs_bun_get_data_property (O : Objects) (fuel : nat) (c obj : Z) : Br (option data_result) :=
  let! timeout := qjs_bun_timeout c in
  let! scope := qjs_bun_enter timeout in
  let out := data_property_loop O fuel obj in
  let! _ := qjs_bun_leave scope
    (match out with Some DataException => true | _ => false end) in
  fun rt => (out, rt).
End copying.

(** ** Classification *)

Inductive JSTag :=
  | JS_TAG_BIG_INT | JS_TAG_SYMBOL | JS_TAG_STRING | JS_TAG_STRING_ROPE | JS_TAG_MODULE
  | JS_TAG_FUNCTION_BYTECODE | JS_TAG_OBJECT | JS_TAG_INT | JS_TAG_BOOL | JS_TAG_NULL
  | JS_TAG_UNDEFINED | JS_TAG_UNINITIALIZED | JS_TAG_CATCH_OFFSET | JS_TAG_EXCEPTION
  | JS_TAG_SHORT_BIG_INT | JS_TAG_FLOAT64.

(** [is_array] is the result of [JS_IsArray], negative when it throws. *)
Definition qjs_bun_type (tag : JSTag) (is_function : bool) (is_array : Z) (is_error : bool) : Z :=
  match tag with
  | JS_TAG_UNDEFINED => 0
  | JS_TAG_NULL => 1
  | JS_TAG_BOOL => 2
  | JS_TAG_INT | JS_TAG_FLOAT64 => 3
  | JS_TAG_BIG_INT | JS_TAG_SHORT_BIG_INT => 4
  | JS_TAG_STRING | JS_TAG_STRING_ROPE => 5
  | JS_TAG_SYMBOL => 6
  | JS_TAG_OBJECT =>
      if is_function then 8
      else if is_array <? 0 then -1
      else if negb (is_array =? 0) then 9
      else if is_error then 10 else 7
  | _ => -2
  end.

(** ** Specifications *)

(** How a host reads [n] keys back: a 32-bit length before each text. *)
Fixpoint decode_keys (n : nat) (buf : list Z) : option (list (list Z)) :=
  match n with
  | O => Some []
  | S n =>
      match buf with
      | b0 :: b1 :: b2 :: b3 :: rest =>
          let l := Z.to_nat (b0 + 2 ^ 8 * b1 + 2 ^ 16 * b2 + 2 ^ 24 * b3) in
          if (length rest <? l)%nat then None
          else cons (take l rest) <$> decode_keys n (drop l rest)
      | _ => None
      end
  end.

(** The bytes of the keys and their number. *)
Definition encode_keys (texts : list (list Z)) : list Z :=
  concat (map (fun t => le32 (len t) ++ t) texts).

Lemma length_blit buf off bytes : 0 <= off -> off + len bytes <= len buf ->
  length (blit buf off bytes) = length buf.
Proof.
  intros. unfold blit. rewrite !length_app, length_take, length_drop. lia.
Qed.

Lemma blit_append buf a b : (length a + length b <= length buf)%nat ->
  blit (a ++ drop (length a) buf) (len a) b = (a ++ b) ++ drop (length (a ++ b)) buf.
Proof.
  intros H. unfold blit. rewrite Nat2Z.id, take_app_length, <- app_assoc. do 2 f_equal.
  rewrite drop_app_ge by lia. rewrite drop_drop, length_app. f_equal. lia.
Qed.

Lemma length_encode_cons t texts :
  len (encode_keys (t :: texts)) = 4 + len t + len (encode_keys texts).
Proof. unfold encode_keys. cbn [map concat]. rewrite !length_app. cbn. lia. Qed.

Lemma decode_encode texts rest :
  Forall (fun t => len t < 2 ^ 32) texts ->
  decode_keys (length texts) (encode_keys texts ++ rest) = Some texts.
Proof.
  induction 1 as [|t texts Ht Hts IH]; [done|].
  unfold encode_keys. cbn [map concat length decode_keys le32 app].
  replace (_ + 2 ^ 8 * _ + 2 ^ 16 * _ + 2 ^ 24 * _) with (len t).
  2: { pose proof (Z.div_mod (len t) 256). pose proof (Z.div_mod (len t / 2 ^ 8) 256).
    pose proof (Z.div_mod (len t / 2 ^ 16) 256).
    rewrite (Z.mod_small (len t / 2 ^ 24)).
    - assert (len t / 2 ^ 16 = len t / 2 ^ 8 / 256) by (rewrite Z.div_div by lia; done).
      assert (len t / 2 ^ 24 = len t / 2 ^ 16 / 256) by (rewrite Z.div_div by lia; done).
      assert (len t / 2 ^ 8 = len t / 256) by done. lia.
    - split; [apply Z.div_pos; lia|apply Z.div_lt_upper_bound; lia]. }
  rewrite Nat2Z.id, <- !app_assoc. rewrite length_app.
  replace (length t + _ <? length t)%nat with false by (symmetry; apply Nat.ltb_ge; lia).
  rewrite take_app_length, drop_app_length. unfold encode_keys in IH. cbn in IH |- *. by rewrite IH.
Qed.

Lemma encode_cons t texts : encode_keys (t :: texts) = (le32 (len t) ++ t) ++ encode_keys texts.
Proof. done. Qed.

Lemma release_first x held : release x (x :: held) = Some held.
Proof. cbn. by rewrite decide_True. Qed.

Lemma memcpy_inside buf off bytes : 0 <= off -> off + len bytes <= len buf -> memcpy buf off bytes = Some (blit buf off bytes).
Proof. intros H1 H2. unfold memcpy. by rewrite option_guard_True. Qed.

(** All the texts fit: the first bytes [pre] of the buffer are already written. *)
Lemma own_keys_loop_fits texts held pre i buf0 :
  Forall (fun t => len t < 2 ^ 32) texts ->
  len pre + len (encode_keys texts) <= len buf0 -> len buf0 < 2 ^ 63 ->
  own_keys_loop i (map Some texts) (pre ++ drop (length pre) buf0) (len pre) held =
  Some (0, len pre + len (encode_keys texts),
   (pre ++ encode_keys texts) ++ drop (length (pre ++ encode_keys texts)) buf0, held).
Proof.
  intros Hts. revert pre i. induction Hts as [|t texts Ht Hts IH]; intros pre i Hf Hb.
  - cbn. rewrite app_nil_r. do 4 f_equal. lia.
  - rewrite length_encode_cons in Hf. cbn [map own_keys_loop].
    rewrite !(wrap_small 64), (wrap_small 32) by (unfold word; lia).
    rewrite length_app, length_drop, Nat2Z.inj_add, Nat2Z.inj_sub by lia.
    replace (len pre + 4 + len t <=? _) with true by (symmetry; apply Z.leb_le; lia).
    rewrite memcpy_inside by (rewrite ?length_app, ?length_drop; cbn; lia). cbn [mbind option_bind].
    rewrite blit_append by (cbn; lia).
    replace (len pre + 4) with (len (pre ++ le32 (len t))) by (rewrite length_app; cbn; lia).
    rewrite memcpy_inside by (rewrite !length_app, ?length_drop, ?length_app; cbn; lia). cbn [mbind option_bind].
    rewrite blit_append by (rewrite length_app; cbn; lia). rewrite release_first.
    replace (len pre + (4 + len t)) with (len ((pre ++ le32 (len t)) ++ t))
      by (rewrite !length_app; cbn; lia).
    cbn [mbind option_bind]. rewrite IH by (rewrite ?length_app; cbn; lia).
    rewrite encode_cons, !app_assoc. do 4 f_equal. rewrite !length_app. cbn. lia.
Qed.

Fixpoint text_bytes (texts : list (option (list Z))) : Z :=
  match texts with
  | [] => 0
  | None :: texts => text_bytes texts
  | Some t :: texts => 4 + len t + text_bytes texts
  end.

Lemma text_bytes_nonneg texts : 0 <= text_bytes texts.
Proof. induction texts as [|[] texts IH]; cbn; lia. Qed.

(** The loop never writes outside the buffer, frees the texts it takes, and fails only on a
    failed conversion. *)
Lemma own_keys_loop_safe texts i buf used held :
  0 <= used -> used + text_bytes texts < 2 ^ 63 -> len buf < 2 ^ 63 ->
  Forall (fun t => len (default [] t) < 2 ^ 32) texts ->
  exists ret used' buf', own_keys_loop i texts buf used held = Some (ret, used', buf', held) /\
  length buf' = length buf /\
  ((ret = -1 /\ (None ∈ texts)) \/
   ret = 0 /\ (None ∉ texts) /\ used' = used + text_bytes texts).
Proof.
  revert i buf used. induction texts as [|[t|] texts IH]; intros i buf used H0 Hu Hb Hts; cbn [own_keys_loop].
  - eexists _, _, _. split; [done|]. split; [done|]. right. split_and!; [done|apply not_elem_of_nil|cbn; lia].
  - apply Forall_cons in Hts as [Ht Hts]. cbn in Ht, Hu. pose proof (text_bytes_nonneg texts).
    rewrite !(wrap_small 64), (wrap_small 32) by (unfold word; lia).
    match goal with |- context [mbind ?k (if ?b then ?m else Some buf)] =>
      assert (HL : exists buf1, (if b then m else Some buf) = Some buf1 /\ length buf1 = length buf) end.
    { destruct (Z.leb_spec (used + 4 + len t) (len buf)); [|by eexists].
      rewrite memcpy_inside by (cbn; lia). cbn [mbind option_bind].
      rewrite memcpy_inside by (rewrite ?length_blit; cbn; lia). eexists. split; [done|].
      rewrite !length_blit; cbn; rewrite ?length_blit; cbn; lia. }
    destruct HL as (buf1 & -> & HL). cbn [mbind option_bind]. rewrite release_first. cbn [mbind option_bind].
    destruct (IH (S i) buf1 (used + (4 + len t)) ltac:(lia) ltac:(lia) ltac:(lia) Hts) as (ret & used' & buf' & -> & IH1 & IH2).
    eexists _, _, _. split; [done|]. split; [by rewrite IH1|]. destruct IH2 as [[-> Hin]|(-> & Hni & ->)]; [left|right].
    + split; [done|]. by apply list_elem_of_further.
    + split_and!; [done|by apply not_elem_of_cons|cbn; lia].
  - eexists _, _, _. split; [done|]. split; [done|]. left. split; [done|]. by apply list_elem_of_here.
Qed.

Lemma text_bytes_some texts : text_bytes (map Some texts) = len (encode_keys texts).
Proof. induction texts as [|t texts IH]; [done|]. rewrite length_encode_cons. cbn. lia. Qed.

Lemma none_not_in {A} (texts : list A) : None ∉ map Some texts.
Proof. induction texts; cbn; [apply not_elem_of_nil|]. by apply not_elem_of_cons. Qed.

(** The walk of [qjs_bun_get_data_property] as a relation: the first object of the chain
    with an own property decides; an accessor is never called. *)
Inductive finds (O : Objects) : Z -> data_result -> Prop :=
  | finds_throws o : JS_GetOwnProperty O o = OwnThrows -> finds O o DataException
  | finds_data o v : JS_GetOwnProperty O o = OwnData v -> finds O o (DataValue v)
  | finds_accessor o : JS_GetOwnProperty O o = OwnAccessor -> finds O o DataUndefined
  | finds_proto_throws o : JS_GetOwnProperty O o = OwnNone -> JS_GetPrototype O o = ProtoThrows ->
      finds O o DataException
  | finds_end o : JS_GetOwnProperty O o = OwnNone -> JS_GetPrototype O o = ProtoNull ->
      finds O o DataUndefined
  | finds_exotic o p : JS_GetOwnProperty O o = OwnNone -> JS_GetPrototype O o = ProtoObject p ->
      JS_GetClassID O p <> JS_CLASS_OBJECT -> finds O o DataUndefined
  | finds_inherited o p r : JS_GetOwnProperty O o = OwnNone -> JS_GetPrototype O o = ProtoObject p ->
      JS_GetClassID O p = JS_CLASS_OBJECT -> finds O p r -> finds O o r.

Lemma data_property_sound O fuel o r : data_property_loop O fuel o = Some r -> finds O o r.
Proof.
  revert o. induction fuel as [|fuel IH]; intros o; [done|]. cbn.
  destruct (JS_GetOwnProperty O o) eqn:E1; try (intros [= <-]; by constructor).
  destruct (JS_GetPrototype O o) eqn:E2; try (intros [= <-]; by constructor).
  destruct (Z.eqb_spec (JS_GetClassID O obj) JS_CLASS_OBJECT); cbn.
  - intros H. eapply finds_inherited; eauto.
  - intros [= <-]. by eapply finds_exotic.
Qed.

(** The walk ends when prototypes decrease some measure: [JS_SetPrototype] refuses cycles. *)
Lemma data_property_total O (depth : Z -> nat) fuel o :
  (forall o p, JS_GetPrototype O o = ProtoObject p -> (depth p < depth o)%nat) ->
  (depth o < fuel)%nat -> exists r, data_property_loop O fuel o = Some r.
Proof.
  intros Hd. revert o. induction fuel as [|fuel IH]; intros o Hf; [lia|]. cbn.
  destruct (JS_GetOwnProperty O o); eauto. destruct (JS_GetPrototype O o) eqn:E2; eauto.
  destruct (negb _); eauto. apply IH. pose proof (Hd _ _ E2). lia.
Qed.

Section theorems.
Context {W : World} {Clk : Clock}.

Lemma mapM_id_cases {A} (l : list (option A)) :
  match mapM id l with Some texts => l = map Some texts | None => None ∈ l end.
Proof.
  induction l as [|[t|] l IH]; cbn; [done| |apply list_elem_of_here].
  change (mapM (fun x => x) l) with (mapM id l). destruct (mapM id l); cbn; [by rewrite IH|by apply list_elem_of_further].
Qed.

(** The copy of the enumeration [l]. *)
Lemma own_keys_copy_ok l buf held :
  Forall (fun t => len (default [] t) < 2 ^ 32) l -> text_bytes l < 2 ^ 63 -> len buf < 2 ^ 63 ->
  exists ret buf', own_keys_copy l buf held = Some (ret, buf', held) /\ length buf' = length buf /\
  match mapM id l with
  | None => ret = -1
  | Some texts =>
      if len (encode_keys texts) <=? len buf
      then ret = len texts /\ decode_keys (Z.to_nat ret) buf' = Some texts /\
           drop (length (encode_keys texts)) buf' = drop (length (encode_keys texts)) buf
      else ret = - len (encode_keys texts) /\ ret < -1
  end.
Proof.
  intros Ht Hs Hb. unfold own_keys_copy. set (held' := HeldEnum (len l) :: held).
  destruct (own_keys_loop_safe l 0 buf 0 held' ltac:(lia) ltac:(lia) Hb Ht) as (ret & used & buf' & E & HL & Hret).
  rewrite E. cbn [mbind option_bind]. unfold held'. rewrite release_first. cbn [mbind option_bind].
  eexists _, buf'. split; [done|]. split; [done|]. pose proof (mapM_id_cases l) as Hl. destruct (mapM id l) as [texts|].
  2: { destruct Hret as [[-> _]|(_ & Hni & _)]; [done|]. done. }
  subst l. destruct Hret as [[_ Hin]|(-> & _ & ->)]; [by apply none_not_in in Hin|]. cbn [Z.eqb].
  rewrite text_bytes_some in *. rewrite length_map. apply Forall_map in Ht.
  assert (Hfew : len texts * 4 <= len (encode_keys texts)).
  { clear. induction texts as [|t texts IH]; [cbn; lia|]. rewrite length_encode_cons. cbn. lia. }
  destruct (Z.leb_spec (len (encode_keys texts)) (len buf)) as [Hf|Hf].
  - pose proof (own_keys_loop_fits texts held' [] 0 buf Ht) as HF. cbn [app length] in HF.
    rewrite drop_0 in HF. change (Z.of_nat 0) with 0 in HF. specialize (HF ltac:(lia) ltac:(lia)). rewrite HF in E.
    injection E as <-. replace (0 + len (encode_keys texts) <=? len buf) with true by lia.
    rewrite swrap_small by (unfold sword; lia). split; [done|].
    rewrite Nat2Z.id. split; [by apply decode_encode|]. by rewrite drop_app_length.
  - replace (0 + len (encode_keys texts) <=? len buf) with false by lia.
    assert (Hn4 : 4 <= len (encode_keys texts)) by (destruct texts; [cbn in Hf; lia|rewrite length_encode_cons; lia]). set (n := len (encode_keys texts)) in *.
    rewrite (swrap_small 64 (0 + n)), swrap_small by (unfold sword; lia). lia.
Qed.

(** C20: the key transfer.  When the keys fit, [qjs_bun_own_keys] returns their number,
    the host decodes exactly the keys, and the rest of the buffer is untouched.  When they
    do not, it returns minus the size they need, which is never the error code [-1], so
    that a second call with a buffer of that size succeeds.  When the enumeration throws or
    the text of a key cannot be made, it returns [-1].  On every path no byte is written
    outside the buffer, and the enumeration and the texts are freed exactly once. *)
Theorem own_keys_roundtrip c names tab buf held rt :
  (forall rt, fst (names rt) = tab) ->
  Forall (fun t => len (default [] t) < 2 ^ 32) (default [] tab) ->
  text_bytes (default [] tab) < 2 ^ 63 -> len buf < 2 ^ 63 ->
  exists ret buf', fst (qjs_bun_own_keys c names buf held rt) = Some (ret, buf', held) /\
  length buf' = length buf /\
  match tab ≫= mapM id with
  | None => ret = -1 /\ (tab = None -> buf' = buf)
  | Some texts =>
      if len (encode_keys texts) <=? len buf
      then ret = len texts /\ decode_keys (Z.to_nat ret) buf' = Some texts /\
           drop (length (encode_keys texts)) buf' = drop (length (encode_keys texts)) buf
      else ret = - len (encode_keys texts) /\ ret < -1
  end.
Proof.
  intros Hn Ht Hs Hb. unfold qjs_bun_own_keys.
  destruct (qjs_bun_timeout c rt) as [t rt1]. destruct (qjs_bun_enter t rt1) as [sc rt2].
  specialize (Hn rt2). destruct (names rt2) as [tab' rt3]. cbn [fst] in Hn. subst tab'.
  destruct tab as [l|]; cbn [mbind option_bind default] in *.
  2: { destruct (qjs_bun_leave sc _ rt3) as [? rt4]. by exists (-1), buf. }
  destruct (own_keys_copy_ok l buf held Ht Hs Hb) as (ret & buf' & -> & H).
  destruct (qjs_bun_leave sc _ rt3) as [? rt4]. exists ret, buf'. split; [done|]. destruct H as [HL H]. split; [done|].
  destruct (mapM id l); [done|]. by split.
Qed.

(** Data properties.  [qjs_bun_get_data_property] returns the value of the first own
    property found on the chain of ordinary objects, [undefined] when that property is an
    accessor (whose getter is not run), and it terminates because prototype chains are
    acyclic. *)
Theorem data_property_first O depth c obj rt :
  (forall o p, JS_GetPrototype O o = ProtoObject p -> (depth p < depth o)%nat) ->
  exists r, fst (qjs_bun_get_data_property O (S (depth obj)) c obj rt) = Some r /\ finds O obj r.
Proof.
  intros Hd. destruct (data_property_total O depth (S (depth obj)) obj Hd ltac:(lia)) as [r Er].
  exists r. split; [|by eapply data_property_sound].
  unfold qjs_bun_get_data_property. destruct (qjs_bun_timeout c rt) as [t rt1].
  destruct (qjs_bun_enter t rt1) as [sc rt2]. rewrite Er. by destruct (qjs_bun_leave _ _ _).
Qed.
End theorems.

#[local] Instance stopped : Clock := fun _ => (0, 0).
#[local] Instance healthy : World := fun _ => true.

Lemma own_keys_roundtrip_witness :
  let texts := [[97; 98]; [99]] in
  exists ret buf', fst (qjs_bun_own_keys 1 (fun rt => (Some (map Some texts), rt))
    (replicate 20 255) [] qjs_bun_new_runtime) = Some (ret, buf', []) /\
  length buf' = length (replicate 20 255) /\
  ret = len texts /\ decode_keys (Z.to_nat ret) buf' = Some texts /\
  drop (length (encode_keys texts)) buf' = drop (length (encode_keys texts)) (replicate 20 255).
Proof.
  apply (own_keys_roundtrip 1 (fun rt => (Some (map Some [[97; 98]; [99]]), rt)) (Some (map Some [[97; 98]; [99]]))
    (replicate 20 255) [] qjs_bun_new_runtime).
  - reflexivity.
  - repeat constructor.
  - vm_compute. reflexivity.
  - vm_compute. reflexivity.
Defined.

(** The second text cannot be made: the first one and the enumeration are freed. *)
Example own_keys_fails : fst (qjs_bun_own_keys 1 (fun rt => (Some [Some [97]; None; Some [98]], rt)) (replicate 8 255) [] qjs_bun_new_runtime) =
  Some (-1, [1; 0; 0; 0; 97; 255; 255; 255], []).
Proof. vm_compute. reflexivity. Qed.

Definition demo_objects : Objects := mkObjects
  (fun o => if o =? 2 then OwnData 42 else OwnNone)
  (fun o => if o =? 1 then ProtoObject 2 else ProtoNull)
  (fun _ => 1).

Lemma data_property_first_witness :
  exists r, fst (qjs_bun_get_data_property demo_objects (S 1) 1 1 qjs_bun_new_runtime) = Some r /\
    finds demo_objects 1 r.
Proof.
  apply (data_property_first demo_objects (fun o => if o =? 1 then 1%nat else 0%nat) 1 1 qjs_bun_new_runtime).
  intros o p. cbn. destruct (Z.eqb_spec o 1) as [->|]; [|discriminate].
  intros [= <-]. vm_compute. repeat constructor.
Defined.
