(* ===== verification/BridgeHost.v ===== *)
(** * Host callbacks of the bridge

    The two tables through which [src/src/native/quickjs_bridge.c] calls the host back:
    the finalizers of the native classes, indexed by class, and the slots of the host
    functions and external array buffers, whose host identifier must be released exactly
    once. *)
From stdpp Require Import gmap.
From S2P Require Import Limbs Engine.

(** ** The finalizer table *)

Record ClassTable := mkClassTable {
  finalizers : list (option Z);
  finalizer_count : Z;
}.

Definition class_table_wf (t : ClassTable) : Prop := finalizer_count t = len (finalizers t).

(** [finalizers[i] = f]; [None] is a write outside the array. *)
Definition store (l : list (option Z)) (i : Z) (f : option Z) : option (list (option Z)) :=
  if (0 <=? i) && (i <? len l) then Some (<[Z.to_nat i := f]> l) else None.

(** The growth of the table in [qjs_bun_new_class].  The inner [option] is the failure of
    [realloc]; the outer one is an access outside the array, by the [memset] of the new
    entries or by the store that follows. *)
Definition grow (t : ClassTable) (class_id : Z) (realloc_ok : bool) : option (option ClassTable) :=
  let count := u32 (class_id + 1) in
  if negb realloc_ok then Some None
  else
    let cleared := u32 (count - finalizer_count t) in
    if count <? finalizer_count t + cleared then None
    else Some (Some (mkClassTable
      (take (Z.to_nat count) (finalizers t) ++ replicate (Z.to_nat cleared) None) count)).

Definition qjs_bun_new_class (t : ClassTable) (class_id : Z) (finalizer : option Z)
    (realloc_ok : bool) (JS_NewClass : Z -> bool -> Z) : option (Z * ClassTable) :=
  match finalizer with
  | None => Some (JS_NewClass class_id false, t)
  | Some f =>
      match (if finalizer_count t <=? class_id then grow t class_id realloc_ok else Some (Some t)) with
      | None => None
      | Some None => Some (-1, t)
      | Some (Some t) =>
          match store (finalizers t) class_id (Some f) with
          | None => None
          | Some l => Some (JS_NewClass class_id true, mkClassTable l (finalizer_count t))
          end
      end
  end.

(** The finalizer that runs for a dying object of [class_id]. *)
Definition qjs_bun_class_finalize (t : ClassTable) (class_id : Z) : option Z :=
  if class_id <? finalizer_count t then finalizers t !!! Z.to_nat class_id else None.

(** ** Host slots *)

Record QJSBunHostRequest := mkRequest {
  kind : Z;
  host_id : Z;
  argc : Z;
}.

(** The engine objects that own a slot; [None] is an object whose slot was not attached. *)
Inductive HostObject :=
  | HostFunction (slot : option Z)
  | ArrayBuffer (data : Z) (slot : Z).

Record HostState := mkHost {
  objects : gmap Z HostObject;
  requests : list QJSBunHostRequest;
  ev : nat;
}.

Section host.
Context {W : World}.

(** [js_malloc] and the other fallible engine calls of the constructors. *)
Definition attempt (h : HostState) : bool * HostState :=
  (ext_ok (ev h), mkHost (objects h) (requests h) (S (ev h))).

Definition request (r : QJSBunHostRequest) (h : HostState) : HostState :=
  mkHost (objects h) (requests h ++ [r]) (ev h).

Definition set_object (o : Z) (x : HostObject) (h : HostState) : HostState :=
  mkHost (<[o := x]> (objects h)) (requests h) (ev h).

Definition drop_object (o : Z) (h : HostState) : HostState :=
  mkHost (delete o (objects h)) (requests h) (ev h).

(** [None]: an internal error is thrown. *)
Definition qjs_bun_host_call (o n : Z) (h : HostState) : option Z * HostState :=
  match objects h !! o with
  | Some (HostFunction (Some id)) => (Some id, request (mkRequest 0 id n) h)
  | _ => (None, h)
  end.

(** The object dies; its slot, if any, is reported and freed. *)
Definition qjs_bun_host_finalizer (o : Z) (h : HostState) : HostState :=
  match objects h !! o with
  | Some (HostFunction (Some id)) => drop_object o (request (mkRequest 1 id 0) h)
  | Some (HostFunction None) => drop_object o h
  | _ => h
  end.

(** [ptr] is the data of the buffer when its free function is called. *)
Definition qjs_bun_array_buffer_free (ptr slot : Z) (h : HostState) : HostState :=
  if ptr =? 0 then h else request (mkRequest 1 slot 0) h.

(** [JS_DetachArrayBuffer] and the finalizer of array buffers, which call it. *)
Definition detach_array_buffer (o : Z) (h : HostState) : HostState :=
  match objects h !! o with
  | Some (ArrayBuffer data slot) =>
      set_object o (ArrayBuffer 0 slot) (qjs_bun_array_buffer_free data slot h)
  | _ => h
  end.
Definition finalize_array_buffer (o : Z) (h : HostState) : HostState :=
  match objects h !! o with
  | Some (ArrayBuffer data slot) => drop_object o (qjs_bun_array_buffer_free data slot h)
  | _ => h
  end.

(** [o] is the address of the new object.  The result is [false] for an exception. *)
Definition qjs_bun_new_host_function (o id : Z) (h : HostState) : bool * HostState :=
  let '(ok, h) := attempt h in
  if negb ok then (false, h) else
  let h := set_object o (HostFunction None) h in
  let '(ok, h) := attempt h in
  if negb ok then (false, qjs_bun_host_finalizer o h) else
  let h := set_object o (HostFunction (Some id)) h in
  let '(ok, h) := attempt h in
  if negb ok then (false, qjs_bun_host_finalizer o h) else
  let '(ok, h) := attempt h in
  if negb ok then (false, qjs_bun_host_finalizer o h) else
  (true, h).

Definition qjs_bun_new_array_buffer (o buf id : Z) (h : HostState) : bool * HostState :=
  let '(ok, h) := attempt h in
  if negb ok then (false, h) else
  let '(ok, h) := attempt h in
  if negb ok then (false, h) else
  (true, set_object o (ArrayBuffer buf id) h).

(** What can happen to the slots: creation at a fresh address, calls, and deaths. *)
Inductive host_event :=
  | NewFunction (o id : Z)
  | NewBuffer (o buf id : Z)
  | CallFunction (o n : Z)
  | FinalizeFunction (o : Z)
  | DetachBuffer (o : Z)
  | FinalizeBuffer (o : Z).

Definition host_step (e : host_event) (h : HostState) : HostState :=
  match e with
  | NewFunction o id => snd (qjs_bun_new_host_function o id h)
  | NewBuffer o buf id => snd (qjs_bun_new_array_buffer o buf id h)
  | CallFunction o n => snd (qjs_bun_host_call o n h)
  | FinalizeFunction o => qjs_bun_host_finalizer o h
  | DetachBuffer o => detach_array_buffer o h
  | FinalizeBuffer o => finalize_array_buffer o h
  end.

(** ** Ownership of the host identifiers *)

(** The slots that still have to be released for [id]. *)
Definition owns (id : Z) (x : HostObject) : Z :=
  match x with
  | HostFunction (Some i) => b2z (i =? id)
  | HostFunction None => 0
  | ArrayBuffer data i => b2z (negb (data =? 0) && (i =? id))
  end.

Definition owned (id : Z) (h : HostState) : Z :=
  map_fold (fun _ x n => owns id x + n) 0 (objects h).

(** The releases already sent to the host for [id]. *)
Definition released (id : Z) (h : HostState) : Z :=
  foldr (fun r n => b2z ((kind r =? 1) && (host_id r =? id)) + n) 0 (requests h).

(** The balance of [id]: each slot created for it is owned or has been released. *)
Definition balance (id : Z) (h : HostState) : Z := owned id h + released id h.

Lemma owned_insert id o x h : objects h !! o = None ->
  owned id (set_object o x h) = owns id x + owned id h.
Proof.
  intros Hn. unfold owned, set_object. cbn.
  rewrite (map_fold_insert_L (fun _ x n => owns id x + n)); [done|intros; lia|done].
Qed.

Lemma owned_delete id o x h : objects h !! o = Some x ->
  owned id h = owns id x + owned id (drop_object o h).
Proof.
  intros Hs. unfold owned, drop_object. cbn.
  rewrite (map_fold_delete_L (fun _ x n => owns id x + n) 0 o x); [done|intros; lia|done].
Qed.

Lemma owned_replace id o x y h : objects h !! o = Some x ->
  owned id (set_object o y h) = owned id h - owns id x + owns id y.
Proof.
  intros Hs. rewrite (owned_delete id o x h Hs).
  rewrite (owned_delete id o y (set_object o y h)) by (cbn; apply lookup_insert_eq).
  unfold owned, drop_object, set_object. cbn. rewrite delete_insert_eq. lia.
Qed.

Lemma released_request id r h :
  released id (request r h) = released id h + b2z ((kind r =? 1) && (host_id r =? id)).
Proof.
  unfold released, request. cbn. rewrite foldr_app. cbn.
  induction (requests h) as [|x l IH]; cbn; [lia|]. rewrite IH. lia.
Qed.
End host.

Section ownership.
Context {W : World}.

(** New objects have fresh addresses, and an external buffer has data. *)
Definition event_valid (e : host_event) (h : HostState) : Prop :=
  match e with
  | NewFunction o _ => objects h !! o = None
  | NewBuffer o buf _ => objects h !! o = None /\ buf <> 0
  | _ => True
  end.

(** The slots that the event attaches to [id]. *)
Definition slot_created (id : Z) (e : host_event) (h : HostState) : Z :=
  match e with
  | NewFunction _ i | NewBuffer _ _ i => b2z ((i =? id) && (ext_ok (ev h) && ext_ok (S (ev h))))
  | _ => 0
  end.

Lemma attempt_eq h : attempt h = (ext_ok (ev h), mkHost (objects h) (requests h) (S (ev h))).
Proof. done. Qed.

Lemma host_finalizer_balance id o h : balance id (qjs_bun_host_finalizer o h) = balance id h.
Proof.
  unfold balance, qjs_bun_host_finalizer. destruct (objects h !! o) as [[[i|]|]|] eqn:E; try done.
  - rewrite (owned_delete id o _ h E). unfold owned, drop_object, released. cbn.
    rewrite foldr_app. cbn [foldr kind host_id].
    assert (H : forall l n, foldr (fun r n => b2z ((kind r =? 1) && (host_id r =? id)) + n) n l
      = foldr (fun r n => b2z ((kind r =? 1) && (host_id r =? id)) + n) 0 l + n).
    { intros l n. induction l as [|r l IH]; cbn; [lia|]. rewrite IH. lia. }
    rewrite H. cbn. lia.
  - rewrite (owned_delete id o _ h E). unfold owned, drop_object, released. cbn. lia.
Qed.

Lemma buffer_free_balance id ptr slot h :
  owned id (qjs_bun_array_buffer_free ptr slot h) = owned id h /\
  released id (qjs_bun_array_buffer_free ptr slot h) =
    released id h + b2z (negb (ptr =? 0) && (slot =? id)) /\
  objects (qjs_bun_array_buffer_free ptr slot h) = objects h.
Proof.
  unfold qjs_bun_array_buffer_free. destruct (ptr =? 0); cbn [negb andb b2z]; [split_and!; try done; lia|].
  rewrite released_request. split_and!; done.
Qed.

Lemma detach_balance id o h : balance id (detach_array_buffer o h) = balance id h.
Proof.
  unfold balance, detach_array_buffer. destruct (objects h !! o) as [[|data slot]|] eqn:E; try done.
  destruct (buffer_free_balance id data slot h) as (H1 & H2 & H3).
  rewrite (owned_replace id o (ArrayBuffer data slot)) by (by rewrite H3). rewrite H1.
  change (released id (set_object _ _ ?h)) with (released id h). rewrite H2. cbn. lia.
Qed.

Lemma finalize_buffer_balance id o h : balance id (finalize_array_buffer o h) = balance id h.
Proof.
  unfold balance, finalize_array_buffer. destruct (objects h !! o) as [[|data slot]|] eqn:E; try done.
  destruct (buffer_free_balance id data slot h) as (H1 & H2 & H3).
  pose proof (owned_delete id o (ArrayBuffer data slot) (qjs_bun_array_buffer_free data slot h)
    ltac:(by rewrite H3)) as HD.
  change (released id (drop_object _ ?h)) with (released id h). rewrite H2. cbn [owns] in HD. lia.
Qed.

Lemma new_function_balance id o i h : objects h !! o = None ->
  balance id (snd (qjs_bun_new_host_function o i h)) =
  balance id h + b2z ((i =? id) && (ext_ok (ev h) && ext_ok (S (ev h)))).
Proof.
  intros Hn. unfold qjs_bun_new_host_function. rewrite attempt_eq.
  destruct (ext_ok (ev h)); cbn [negb snd andb]; [|rewrite andb_false_r; cbn; unfold balance, owned, released; cbn; lia].
  set (h1 := set_object o (HostFunction None) _).
  assert (B1 : balance id h1 = balance id h).
  { unfold balance. unfold h1. rewrite owned_insert by done. done. }
  assert (L1 : objects h1 !! o = Some (HostFunction None)) by apply lookup_insert_eq.
  rewrite attempt_eq. change (ev h1) with (S (ev h)).
  destruct (ext_ok (S (ev h))); cbn [negb snd].
  2: { rewrite andb_false_r, host_finalizer_balance. cbn. rewrite <- B1. unfold balance, owned, released; cbn. lia. }
  set (h2 := set_object o (HostFunction (Some i)) _).
  assert (B2 : balance id h2 = balance id h + b2z (i =? id)).
  { rewrite <- B1. unfold balance, h2. rewrite (owned_replace id o (HostFunction None)) by done.
    unfold owned, released. cbn. lia. }
  rewrite andb_true_r, <- B2. rewrite attempt_eq.
  destruct (ext_ok (ev h2)); cbn [negb snd]; [|by rewrite host_finalizer_balance].
  rewrite attempt_eq. destruct (ext_ok _); cbn [negb snd]; [done|by rewrite host_finalizer_balance].
Qed.

Lemma host_step_balance id e h : event_valid e h ->
  balance id (host_step e h) = balance id h + slot_created id e h.
Proof.
  intros Hv. destruct e; cbn [host_step slot_created event_valid] in *.
  - by apply new_function_balance.
  - destruct Hv as [Hn Hb]. unfold qjs_bun_new_array_buffer. rewrite attempt_eq.
    destruct (ext_ok (ev h)); cbn [negb snd andb]; [|rewrite andb_false_r; unfold balance, owned, released; cbn; lia].
    rewrite attempt_eq. cbn [Engine.M ev]. destruct (ext_ok (S (ev h))); cbn [negb snd].
    + unfold balance. rewrite owned_insert by done. cbn [owns]. rewrite andb_true_r.
      apply Z.eqb_neq in Hb. rewrite Hb. unfold owned, released. cbn. lia.
    + rewrite andb_false_r. unfold balance, owned, released; cbn; lia.
  - unfold qjs_bun_host_call. rewrite Z.add_0_r. destruct (objects h !! o) as [[[i|]|]|]; try done.
    unfold balance. cbn [snd]. rewrite released_request. cbn. unfold owned. cbn. lia.
  - rewrite host_finalizer_balance. lia.
  - rewrite detach_balance. lia.
  - rewrite finalize_buffer_balance. lia.
Qed.

Lemma owned_nonneg id h : 0 <= owned id h.
Proof.
  unfold owned. induction (objects h) as [|o x m Hn IH] using map_ind; [by rewrite map_fold_empty|].
  rewrite (map_fold_insert_L (fun _ x n => owns id x + n)); [|intros; lia|done].
  assert (0 <= owns id x) by (destruct x as [[i|]|d i]; cbn; [destruct (i =? id)| |destruct (_ && _)]; cbn; lia). lia.
Qed.

(** The states reachable from an empty bridge, with the number of slots created for [id]. *)
Inductive host_run (id : Z) : HostState -> Z -> Prop :=
  | host_run_nil n : host_run id (mkHost ∅ [] n) 0
  | host_run_step h c e : host_run id h c -> event_valid e h ->
      host_run id (host_step e h) (c + slot_created id e h).

Lemma host_run_balance id h c : host_run id h c -> balance id h = c.
Proof.
  induction 1 as [n|h c e Hr IH Hv]; [done|]. rewrite host_step_balance by done. by rewrite IH.
Qed.

(** C21: host identifiers are released exactly once.  However creations (with failures at
    any point), calls, detachments and deaths interleave, the host never receives more
    releases for an identifier than slots were created for it, and once every object is
    dead it has received exactly as many. *)
Theorem host_released_once id h c : host_run id h c ->
  released id h <= c /\ (objects h = ∅ -> released id h = c).
Proof.
  intros Hr. apply host_run_balance in Hr. unfold balance in Hr. pose proof (owned_nonneg id h).
  split; [lia|]. intros E. unfold owned in Hr. rewrite E, map_fold_empty in Hr. lia.
Qed.
End ownership.

(** ** The finalizer table *)

Lemma store_spec l i f : 0 <= i < len l -> store l i f = Some (<[Z.to_nat i := f]> l).
Proof. intros. unfold store. replace ((0 <=? i) && (i <? len l)) with true by lia. done. Qed.

Lemma grow_spec t id : class_table_wf t -> finalizer_count t <= id -> id < 2 ^ 32 - 1 ->
  grow t id true = Some (Some (mkClassTable
    (finalizers t ++ replicate (Z.to_nat (id + 1 - finalizer_count t)) None) (id + 1))).
Proof.
  intros Hwf Hle Hid. unfold class_table_wf in Hwf. unfold grow. cbn [negb].
  rewrite !wrap_small by (unfold word; lia || (rewrite wrap_small; unfold word; lia)).
  replace (_ <? _) with false by lia. do 3 f_equal. rewrite take_ge by lia. done.
Qed.

(** Class registration.  For any class identifier but the last 32-bit one,
    [qjs_bun_new_class] accesses the finalizer table within its bounds; it keeps the table
    well formed, installs the finalizer for that class and no other, and leaves the table
    unchanged when memory runs out. *)
Theorem new_class_table t id f realloc_ok new_class :
  class_table_wf t -> 0 <= id < 2 ^ 32 - 1 ->
  exists r t', qjs_bun_new_class t id (Some f) realloc_ok new_class = Some (r, t') /\
    class_table_wf t' /\
    (forall i, 0 <= i -> qjs_bun_class_finalize t' i =
      if (i =? id) && (realloc_ok || (id <? finalizer_count t)) then Some f
      else qjs_bun_class_finalize t i) /\
    r = if realloc_ok || (id <? finalizer_count t) then new_class id true else -1.
Proof.
  intros Hwf Hid. unfold qjs_bun_new_class.
  assert (HF : forall l n, n = len l -> 0 <= id < n ->
    class_table_wf (mkClassTable (<[Z.to_nat id := Some f]> l) n) /\
    forall i, 0 <= i -> qjs_bun_class_finalize (mkClassTable (<[Z.to_nat id := Some f]> l) n) i =
      if i =? id then Some f else qjs_bun_class_finalize (mkClassTable l n) i).
  { intros l n -> Hn. split; [unfold class_table_wf; cbn; by rewrite length_insert|].
    intros i Hi. unfold qjs_bun_class_finalize. cbn. destruct (Z.eqb_spec i id) as [->|Hne].
    - replace (id <? len l) with true by lia. by rewrite list_lookup_total_insert_eq by lia.
    - by rewrite list_lookup_total_insert_ne by lia. }
  destruct (Z.leb_spec (finalizer_count t) id) as [Hg|Hg].
  - replace (id <? finalizer_count t) with false by lia. rewrite orb_false_r.
    destruct realloc_ok.
    + rewrite grow_spec by lia || done. cbn [finalizers finalizer_count].
      unfold class_table_wf in Hwf.
      assert (HL : len (finalizers t ++ replicate (Z.to_nat (id + 1 - finalizer_count t)) None) = id + 1).
      { rewrite length_app, length_replicate. lia. }
      rewrite store_spec by lia. eexists _, _. split; [done|].
      destruct (HF _ (id + 1) (eq_sym HL) ltac:(lia)) as [H1 H2]. split; [done|]. split; [|done].
      intros i Hi. rewrite H2, andb_true_r by done. destruct (i =? id) eqn:Ei; [done|].
      unfold qjs_bun_class_finalize. cbn.
      destruct (Z.ltb_spec i (finalizer_count t)).
      * replace (i <? id + 1) with true by lia. by rewrite lookup_total_app_l by lia.
      * destruct (i <? id + 1) eqn:El; [|done]. rewrite lookup_total_app_r by lia.
        by rewrite lookup_total_replicate_2 by lia.
    + cbn. eexists _, t. split_and!; try done. intros i Hi. by rewrite andb_false_r.
  - replace (id <? finalizer_count t) with true by lia. rewrite orb_true_r.
    unfold class_table_wf in Hwf. rewrite store_spec by lia. eexists _, _. split; [done|].
    destruct (HF (finalizers t) (finalizer_count t) Hwf ltac:(lia)) as [H1 H2]. split; [done|].
    split; [|done]. intros i Hi. rewrite H2, andb_true_r by done. by destruct t.
Qed.

(** The last class identifier wraps the size to zero and writes outside the table. *)
Lemma new_class_wraps f new_class :
  qjs_bun_new_class (mkClassTable [] 0) (2 ^ 32 - 1) (Some f) true new_class = None.
Proof. vm_compute. reflexivity. Qed.

#[local] Instance healthy : World := fun _ => true.

Lemma host_released_once_witness :
  let h := host_step (FinalizeFunction 5) (host_step (NewFunction 5 9) (mkHost ∅ [] 0)) in
  released 9 h <= 1 /\ (objects h = ∅ -> released 9 h = 1).
Proof.
  apply (host_released_once 9 _ 1).
  exact (host_run_step 9 _ 1 (FinalizeFunction 5)
    (host_run_step 9 (mkHost ∅ [] 0) 0 (NewFunction 5 9) (host_run_nil 9 0) eq_refl) I).
Defined.

Lemma new_class_table_witness :
  exists r t', qjs_bun_new_class (mkClassTable [None; Some 8] 2) 4 (Some 77) true (fun _ _ => 0) = Some (r, t') /\
    class_table_wf t' /\
    (forall i, 0 <= i -> qjs_bun_class_finalize t' i =
      if (i =? 4) && (true || (4 <? 2)) then Some 77
      else qjs_bun_class_finalize (mkClassTable [None; Some 8] 2) i) /\
    r = if true || (4 <? 2) then 0 else -1.
Proof.
  apply (new_class_table (mkClassTable [None; Some 8] 2) 4 77 true (fun _ _ => 0)).
  - reflexivity.
  - lia.
Defined.
